(* ===== verification/_CoqProject ===== *)
-Q . S2P
Prelude.v
CxxString.v
TaskStore.v
TaskCommands.v
SortedAssoc.v
AvlMap.v
HashMap.v
RingDeque.v
DList.v
OrderSystem.v
AuditSystem.v
FrameworkServer.v
ChatServer.v
AllocSpec.v
Realloc.v
NetBytes.v
MmMalloc.v
ByteEcho.v
ProtoEcho.v
AsioSession.v
AsioEcho.v
NetFrame.v
Coroutines.v
BaseMemory.v
LogSinks.v
AsyncLogger.v
SharedPtr.v
BstMap.v
LogicLayer.v
Threads.v
Patterns.v
Rio.v
Csapp.v
EchoPool.v
Semaphores.v
ChatPoll.v
EffectiveValues.v
Unwind.v
EffectiveResources.v
SegList.v
Setup.v
IoMux.v
IoLab.v
EpollEcho.v
NetLabs.v
SelectPoll.v
