(* ===== verification/Prelude.v ===== *)
(** * A verification library for the c-kernel-learning repository

    The repository (src/) is a collection of C++ programs and some in C: a task manager,
    a logger, containers of a small standard library, memory allocators and a shared
    pointer, two larger design-pattern systems, and servers and clients on sockets, epoll,
    coroutines and Asio.  The
    library models the programs that have logic of their own, one file each, and
    proves what makes them correct.  Where the code does not do what it means to,
    a theorem runs the model to show it.

    ** How the code is modelled

    Code that returns, throws or runs into undefined behaviour is a value of
    [outcome] ([Ret], [Throw], [Undef]).  Stateful code is a [prog S A], a function
    from the state to an outcome and the new state, so that the state survives an
    exception as it does in C++; [try_catch] is the handler.  Servers are
    step functions or step relations over explicit events: what the kernel, the
    reactor or another thread may do next is an input, so a theorem about every
    sequence of events is one about every interleaving.  Machine integers are [Z]
    with the wrap-around written out ([wrap64], [sext]), strings and buffers are
    lists of [ascii].  Results of system calls, malloc, mmap and the like are
    inputs of the operation that makes the call.

    ** The files

    - Prelude (this file): outcomes, the state monad, orders on keys, the shared
      tactics ([run_prog], [zbool], [ztest], [key_compare]), and invariants of runs.
    - CxxString: the parts of std::string, streams, getline and stoi in use.
    - TaskStore, TaskCommands: basement/base_code/src/task/task_management_sys.
      TaskStore has task.h, task_manager.cpp and logger.h: the vector of tasks, the
      file tasks.txt with its load and save, filters and sorting.  TaskCommands has
      command.cpp, the registry and the loop of main.cpp.
    - SortedAssoc: association lists sorted by key, the specification of maps.
    - AvlMap, HashMap, RingDeque, DList: basement/base_code/src/base_stl, that is
      map_demo.h (namespace avl_map), umap_demo.h, deque_demo.h and list_demo.h.
    - BstMap: base_stl/map_demo.h, namespace bst_map, with the traversal of map_demo.cpp:
      nodes with parent pointers in a heap, the iterator, and every operation as pointer
      updates.
    - AllocSpec: the contract of malloc, free and realloc, which Realloc and MmMalloc
      implement.
    - Realloc, BaseMemory, SharedPtr: basement/base_code/src/base_memory, that is
      my_realloc.cpp; darray_demo.cpp and mempool.cpp; simple_shared_ptr.h with the heap of
      objects and control blocks, and [release] once more in the steps of a thread.
    - MmMalloc: csapp/chapter9/malloc, the boundary-tag allocator mm.c on memlib.c, with
      headers and footers as words in a memory of bytes.
    - LogSinks, AsyncLogger: basement/base_code/src/task/asynchronous_log_sys_demo, both
      versions.  LogSinks has the levels, [format_msg] and the file sink with its rotation;
      AsyncLogger the queue, the worker thread, the callers and the destructor.
    - Threads: concurrent/code/base_thread_cpp, the mutex and atomic counters, the transfers
      under [std::scoped_lock] and the worker queue, a Module each.
    - LogicLayer: net_program/code/cpp_net/base_logic_layer, the message nodes (Module
      MsgNode) and the server of test/: sessions, session manager, logic thread, logins.
    - OrderSystem, AuditSystem: design_patterns/finial/order and .../audit.
    - Patterns: design_patterns/code, the interpreter, chain of responsibility, command,
      memento, state, mediator and iterator programs, a Module each.
    - FrameworkServer, ChatServer: concurrent/code, the epoll server with a thread
      pool (framework_server.cpp) and the poll chat server (chat_demo.cpp).
    - NetFrame, Coroutines: concurrent/code, net.hpp, and the generator and event loop
      of base_coroutines.
    - NetBytes, ByteEcho, ProtoEcho: net_program/code/cpp_net, base_byteorder and
      base_protobuf; NetBytes has the byte order both use.
    - AsioSession, AsioEcho: base_asio and base_asio_plus.
    - Rio, Csapp: csapp/csapp_lib/csapp.c.  Rio is the robust I/O package over a kernel
      that cuts, interrupts and fails; Csapp has the error-checking wrappers and the
      functions that open a connection.
    - EchoPool: csapp, the pool of clients of chapter12/echoservers.c, the select server
      of select_server_demo.c and the responder chapter11/echo_server.c, a Module each.
    - Semaphores: the threads of C, chapter12/threads/p_and_c_demo.c and
      concurrent/code/c_tasks_queue.c, a Module each.
    - ChatPoll: concurrent/code/base_io_multiplexing/chat_poll.c, server and client.
    - EffectiveValues, EffectiveResources: effective_c++/code, a Module per item:
      numbers, sets and template code in the first, objects that own something in the
      second.
    - Unwind: computations with exceptions, destructors and fuel, [scoped] being a local
      object; EffectiveResources, SegList, Setup and NetLabs are written in it.
    - SegList: csapp/chapter9/malloc/flsp.c, the segregated-list allocator on a memory
      of bytes, for pointers of any width.
    - Setup: main and the set-up of framework_server.cpp and chat_demo.cpp, and the
      acceptor of base_byteorder/server.cpp.
    - IoMux: concurrent/code/base_io_multiplexing/io_mux_cmp.cpp, one server with a loop
      each for select, poll and epoll.
    - IoLab: concurrent/code/base_advanced_io/io_lab.c, the commands on pipes, copied
      descriptors, mappings, sendfile, splice and tee.
    - EpollEcho: base_io_multiplexing/epoll_tcp_udp.cpp, the TCP and UDP echo server in
      both trigger modes, on a kernel with connections, readiness and pending edges.
    - NetLabs: tcp_cpp20.cpp, udp_cpp20.cpp, api_lab.cpp and tcp_c17.c of
      base_linux_net_api, nonblocking_connect.c and io_cpp20.cpp, a Module each.
    - SelectPoll: base_io_multiplexing/select_poll.c, the TCP and UDP echo server with a
      table of 128 clients, a loop on select and one on poll, and the reference both follow.

    TaskCommands calls TaskStore; AsyncLogger writes through the sinks of LogSinks; AvlMap
    and BstMap are specified by SortedAssoc, Realloc and MmMalloc by AllocSpec; the echo
    programs, NetFrame, LogicLayer and MmMalloc share NetBytes; Csapp, EchoPool and ChatPoll
    use the kernel and the reader of Rio; Setup has the loops of FrameworkServer and
    ChatServer as parameters; NetLabs calls the frames of NetFrame; every file uses Prelude.  [KeyOrder]
    is the interface a key type gives to the maps, [Codec] the one a generated
    message class gives to the protobuf echo.

    ** What the theorems show

    - Refinement: the task store, hash map, search tree, deque, list, array, allocators and
      shared pointers answer every history of calls like a finite map, a sorted list, a
      list, the C standard's malloc or a table of owners ([store_ops_refine_map],
      [umap_refines_map], [bst_refines], [deque_refines_list], [list_refines_sequence],
      [darray_is_list], [allocator_refines], [mm_refines], [shared_ptr_refines]); an AVL
      tree built by [put] is balanced and agrees with the sorted list, and [remove] keeps
      it a search tree with right heights ([avl_puts_spec], [avl_remove_spec]).
    - Round trips: saving and loading tasks, JSON reports, frames over a stream that
      is cut anywhere, protobuf and byte-order echoes.
    - Servers under every interleaving: answers come in order and once, one job per
      connection, registrations agree with the loop's tables, queues keep order,
      messages arrive whole.
    - Threads under every schedule: the logger writes what it accepted, in order, and its
      destructor ends with nothing lost ([messages_in_order], [shutdown_terminates]), its
      files hold exactly the lines within the limit ([logger_end_to_end], [rotation_exact],
      [rotation_bounds]); counters, transfers and the worker queue end after a bounded number
      of steps with the exact result ([mutex_counter_exact], [transfers_exact],
      [worker_drains]); the last of several threads deletes a shared object
      ([concurrent_release_no_leak]); the logic layer echoes every frame ([echo_layer_exact]).
    - Equivalence with a reference: [format_msg] substitutes from left to right
      ([format_msg_exact]), the interpreter is integer arithmetic as long as an int holds it
      ([interpret_exact]), the recursive and the iterative factorial are one function
      ([factorial_template_agrees]); undo and memento restore what was ([undo_restores],
      [save_edit_undo]).
    - C programs: the Rio functions deliver the stream of bytes unchanged, line by line,
      however the kernel cuts it ([rio_refines_stream], [rio_lines_roundtrip]); the pool
      keeps its table and its sets in step ([turn_serves_ready]); the bounded buffer and
      the task queue end with every item taken once and in order, without a deadlock or
      an access to freed memory ([bounded_buffer_exact], [task_queue_exact]); a round of
      the chat server reaches every other client ([round_delivers]); the free lists of
      flsp.c are sequences with push, removal and first fit when a pointer has four bytes
      ([free_lists_refine]).
    - Types and exceptions: a rational number is always the canonical one of its value
      ([rational_canonical]), a set never holds a duplicate ([intset_refines_set]);
      destructors run on every way out ([unwinding_exact], [session_closes_once]), copy and
      swap neither leaks nor frees twice ([copy_and_swap]), a new handler is restored and
      the allocation returns with the first memory there is ([new_restores_handler],
      [new_returns_when_malloc_does]); servers close each descriptor once whichever
      system call fails ([framework_exits], [chat_exits]).
    - One program in several forms: the select, poll and epoll loops do the same on the same
      rounds ([loops_agree]) and account for every descriptor ([loops_account_descriptors]);
      the commands of io_lab.c end with the descriptors they found whatever the kernel
      refuses or cuts ([commands_return_descriptors]), and those that copy a file and
      succeed have written all of it ([file_commands_copy]).
    - The epoll server in either trigger mode: whenever the wait has nothing to report, what
      the peers have sent is read and answered, and connections that were closed had been
      answered in full ([epoll_echo_serves]); datagrams are answered once and in order
      ([datagrams_answered]).
    - The select and the poll loop of select_poll.c are one loop on the table of clients
      ([select_poll_agree]), which sends back what it reads, closes nothing twice and leaves
      nothing over ([select_poll_serves]).
    - The network laboratories: every program ends with the descriptors it found and an exit
      code of its own ([labs_return_descriptors]); what a client and a server exchange
      ([tcp_exchange], [udp_exchange], [tcp_c_echoes]), where the urgent byte is
      ([oob_marks_urgent]), what is cut ([message_truncates]), when a connection is reported
      ([connect_reports]), and that a file is printed whole ([io_prints_file]).
    - State machines and errors: the order's life cycle, the checkout with each
      failure, broken streams, failed writes.
    - Behaviour outside the contract: theorems that exhibit a crash, a leak or lost
      data on a concrete or general input, for instance
      [concurrent_release_deletes_twice], [stop_wakeup_lost],
      [stop_with_sessions_undefined], [increment_past_last_undefined],
      [reopened_file_overfills], [huge_requests_succeed], [coalesce_joins_mappings], [short_read_runs_writer], [tlv_never_answers],
      [run_index_goes_stale], [avl_mixed_history_crashes], [wide_pointers_overlap],
      [pool_keeps_first_line_only], [hangup_drops_data], [accepts_until_peer_gone],
      [tee_truncates], [vectors_truncate], [edge_strands_connection],
      [select_overruns].

    ** Fuel and bounds

    Loops over a list, a script of answers or a list of events recurse on it.  Where
    fuel is an argument, the theorem that uses the function shows that it is enough:
    the digits of a number (its binary logarithm plus one), the lines of a file
    (its length plus one), walks of a linked list (its length plus one), received
    frames (one more than there are frames), the length-prefixed parser (one turn
    per byte), walks of a tree (the number of nodes), a format (its length), the search of
    the boundary-tag heap (its size in double words), a read or write of the Rio package
    and a send (the kernel's scripted answers, plus the bytes asked for), a free list of
    flsp.c (one more than the longest list), the loops of IoMux, IoLab, EpollEcho, NetLabs and
    SelectPoll (the connections, bytes or answers there are, plus one).  The retry of [operator new] and a loop over
    a counter that wraps can run for ever; [new_returns_when_malloc_does] and
    [factorial_template_agrees] say when.  Sizes are bounded where the code
    computes with them: below 2^61 for requests of the mapped allocator and 2^31 - 16 for
    those of the boundary-tag one, 2^60 to 2^62 for containers, 2^63 events for the 64-bit
    tokens of the event loop, 2^31 for message lengths kept in an int.

    ** What is not modelled

    Set-up of sockets, threads and signals except in Setup and Csapp; time and blocking as
    such (a thread that waits is one that cannot step); printing that has no effect on the
    state; libraries (Boost.Asio, protobuf, the kernel) beyond their documented results;
    generated code; the C programs that make single calls and print; examples that exercise
    one language rule each.  A critical section under one mutex is one step where nothing
    else reads what it writes; the counters and transfers of Threads and the ring of
    Semaphores step through single reads and writes.  In Realloc the bytes under a header are
    unknown rather than the header's fields, and a fresh mapping is unknown rather than zero.
    In IoMux the wait of each loop is a round that says what has arrived and what is
    reported; in IoLab the child of demo_pipe runs while its parent waits for it.
    In EpollEcho a connection that waits to be accepted receives nothing more until it is;
    in NetLabs an exception leaves the stream as it was before the call that threw, and a
    call that would wait for ever is one without a result.
    In SegList the debugging output is left out, and so are an allocation failure of mem_init
    and the address range of main's heap, which is a parameter.

    ** Plan

    Next: coalescing and placement of flsp.c for pointers of four bytes against AllocSpec,
    the remaining examples of base_thread_cpp, the observer, visitor, proxy and flyweight
    programs of design_patterns/code, and the operators and templates of basement/base_code. *)

From stdpp Require Import base gmap sets list strings relations.
From Stdlib Require Import Ascii ZArith Lia.

(** ** Notation scope *)

Declare Scope cxx_scope.
Delimit Scope cxx_scope with cxx.

(** A [std::string] or a byte buffer: the list of its characters. *)
Abbreviation bytes := (list ascii).

(** String literals of the source. *)
Definition lit (s : string) : bytes := String.list_ascii_of_string s.

(** The two bytes the sources use as separators. *)
Definition newline : ascii := Ascii.ascii_of_nat 10.
Definition cr : ascii := Ascii.ascii_of_nat 13.
Definition tab : ascii := Ascii.ascii_of_nat 9.

(** ** Outcomes of C++ code: a value, a thrown exception, or undefined behaviour *)

Inductive exn :=
  | InvalidArgument
  | OutOfRange
  | RuntimeError (what : bytes)
  | LogicError (what : bytes)
  | BadAlloc.

Inductive outcome (A : Type) :=
  | Ret (a : A)
  | Throw (e : exn)
  | Undef.
Arguments Ret {A} a.
Arguments Throw {A} e.
Arguments Undef {A}.

#[export] Instance outcome_ret : MRet outcome := @Ret.
#[export] Instance outcome_bind : MBind outcome := λ A B k m,
  match m with
  | Ret a => k a
  | Throw e => Throw e
  | Undef => Undef
  end.

#[export] Instance exn_eq_dec : EqDecision exn.
Proof. solve_decision. Defined.
#[export] Instance outcome_eq_dec {A} `{EqDecision A} : EqDecision (outcome A).
Proof. solve_decision. Defined.

(** Lift a lookup that is undefined behaviour when it misses. *)
Definition deref {A} (o : option A) : outcome A :=
  match o with Some a => Ret a | None => Undef end.

(** A sequence that returns: its first part returned. *)
Lemma bind_Ret {A B} (m : outcome A) (k : A → outcome B) b :
  (m ≫= k) = Ret b → ∃ a, m = Ret a ∧ k a = Ret b.
Proof. destruct m as [a|e|]; [eauto|done..]. Qed.

(** ** Stateful code: the state survives a thrown exception *)

Definition prog (S A : Type) : Type := S → outcome A * S.

#[export] Instance prog_ret {S} : MRet (prog S) := λ A a s, (Ret a, s).
#[export] Instance prog_bind {S} : MBind (prog S) := λ A B k m s,
  match m s with
  | (Ret a, s') => k a s'
  | (Throw e, s') => (Throw e, s')
  | (Undef, s') => (Undef, s')
  end.

Definition get {S} : prog S S := λ s, (Ret s, s).
Definition put {S} (s : S) : prog S unit := λ _, (Ret (), s).
Definition modify {S} (f : S → S) : prog S unit := λ s, (Ret (), f s).
Definition throw {S A} (e : exn) : prog S A := λ s, (Throw e, s).
Definition lift {S A} (o : outcome A) : prog S A := λ s, (o, s).

(** [try body catch (e) handler e], where [handler e = None] rethrows. *)
Definition try_catch {S A} (body : prog S A) (handler : exn → option (prog S A)) :
    prog S A := λ s,
  match body s with
  | (Throw e, s') =>
      match handler e with Some h => h s' | None => (Throw e, s') end
  | r => r
  end.

(** ** Shared tactics *)

(** Case analysis on every [match]/[if] of the goal or of the hypotheses. *)
Ltac split_matches :=
  repeat (case_match || case_decide); simplify_eq/=.

(** Symbolic execution of a [prog]: unfold the monad, leaving the code's own tests. *)
Ltac run_prog :=
  unfold mbind, mret, prog_bind, prog_ret, get, put, modify, throw, lift, try_catch;
  cbn beta iota.
Tactic Notation "run_prog" "in" hyp(H) :=
  unfold mbind, mret, prog_bind, prog_ret, get, put, modify, throw, lift, try_catch in H;
  cbn beta iota in H.

(** Turn boolean comparisons on integers into propositions for [lia]. *)
Ltac zbool :=
  repeat match goal with
  | H : (_ =? _)%Z = true |- _ => apply Z.eqb_eq in H
  | H : (_ =? _)%Z = false |- _ => apply Z.eqb_neq in H
  | H : (_ <? _)%Z = true |- _ => apply Z.ltb_lt in H
  | H : (_ <? _)%Z = false |- _ => apply Z.ltb_ge in H
  | H : (_ <=? _)%Z = true |- _ => apply Z.leb_le in H
  | H : (_ <=? _)%Z = false |- _ => apply Z.leb_gt in H
  | H : (_ =? _)%nat = true |- _ => apply Nat.eqb_eq in H
  | H : (_ =? _)%nat = false |- _ => apply Nat.eqb_neq in H
  | H : (_ <? _)%nat = true |- _ => apply Nat.ltb_lt in H
  | H : (_ <? _)%nat = false |- _ => apply Nat.ltb_ge in H
  | H : (_ <=? _)%nat = true |- _ => apply Nat.leb_le in H
  | H : (_ <=? _)%nat = false |- _ => apply Nat.leb_gt in H
  | H : _ && _ = true |- _ => apply andb_true_iff in H as [? ?]
  | H : _ || _ = false |- _ => apply orb_false_iff in H as [? ?]
  end.

(** Decide the boolean tests [x <? y], [x =? y] and the like that the goal
    branches on, keeping the propositions. *)
Ltac ztest :=
  repeat match goal with
  | |- context [ (?a <? ?b)%Z ] => destruct (Z.ltb_spec a b)
  | |- context [ (?a <=? ?b)%Z ] => destruct (Z.leb_spec a b)
  | |- context [ (?a =? ?b)%Z ] => destruct (Z.eqb_spec a b)
  | |- context [ (?a <? ?b)%nat ] => destruct (Nat.ltb_spec a b)
  | |- context [ (?a <=? ?b)%nat ] => destruct (Nat.leb_spec a b)
  | |- context [ (?a =? ?b)%nat ] => destruct (Nat.eqb_spec a b)
  end.

(** ** Lists *)

(** Dropping what was taken, however much that was. *)
Lemma drop_taken {A} k (l : list A) : drop (length (take k l)) l = drop k l.
Proof.
  rewrite length_take. destruct (Nat.le_ge_cases k (length l)).
  - by rewrite Nat.min_l.
  - rewrite Nat.min_r by done. by rewrite !drop_ge by lia.
Qed.

(** ** Invariants along executions *)

Section invariants.
Context {S : Type} (step : S → S → Prop) (I : S → Prop).
Context (step_pres : ∀ s s', step s s' → I s → I s').

Lemma rtc_invariant s s' : rtc step s s' → I s → I s'.
Proof using step_pres. induction 1; eauto. Qed.
End invariants.

(** Deterministic step functions: running a list of events. *)
Section runs.
Context {S E : Type} (step : S → E → S).

Definition run (s : S) (es : list E) : S := foldl step s es.

Lemma run_app s es1 es2 : run s (es1 ++ es2) = run (run s es1) es2.
Proof. apply foldl_app. Qed.

Lemma run_invariant (I : S → Prop) s es :
  (∀ s e, I s → I (step s e)) → I s → I (run s es).
Proof. intros Hpres. revert s. induction es; simpl; eauto. Qed.
End runs.

(** ** Template keys: [operator<] is a strict total order *)

Class KeyOrder (K : Type) := {
  klt : K → K → bool;
  klt_irrefl x : klt x x = false;
  klt_trans x y z : klt x y = true → klt y z = true → klt x z = true;
  klt_total x y : klt x y = false → klt y x = false → x = y
}.

#[export] Instance Z_key_order : KeyOrder Z.
Proof. refine (Build_KeyOrder Z Z.ltb _ _ _); intros *; lia. Defined.

Section key_order.
Context `{KeyOrder K}.
Implicit Types (x y : K).

Lemma klt_asym x y : klt x y = true → klt y x = false.
Proof.
  intros Hxy. destruct (klt y x) eqn:Hyx; [|done].
  pose proof (klt_trans _ _ _ Hxy Hyx) as E. by rewrite klt_irrefl in E.
Qed.

Lemma klt_neq x y : klt x y = true → x ≠ y.
Proof. intros Hxy ->. by rewrite klt_irrefl in Hxy. Qed.

#[export] Instance key_eq_dec : EqDecision K.
Proof.
  intros x y. destruct (klt x y) eqn:E1; [by right; apply klt_neq|].
  destruct (klt y x) eqn:E2; [by right; apply not_eq_sym, klt_neq|].
  left. by apply klt_total.
Defined.
End key_order.

(** Three-way comparison of keys, as the sources write it with [<] and [>]. *)
Ltac key_compare x y :=
  let H1 := fresh "Hlt" in let H2 := fresh "Hgt" in
  destruct (klt x y) eqn:H1;
  [| destruct (klt y x) eqn:H2;
     [| let E := fresh "Heq" in pose proof (klt_total _ _ H1 H2) as E; subst ] ].

Create HintDb cxx.
Create Rewrite HintDb cxx.
#[export] Hint Resolve klt_irrefl klt_asym klt_trans klt_neq : cxx.
