(* ===== verification/CxxString.v ===== *)
(** * The parts of the C++ standard library that the sources use on text

    [std::string] positions ([std::size_t] with [npos]), the [find] and
    [substr] families, [std::stoi], [operator<<] and [operator>>] on [int], and
    the [std::istringstream]/[std::getline] reading functions with their [fail]
    and [eof] bits.  The functions follow the C++17 wording (C locale). *)

From stdpp Require Import base list strings.
From Stdlib Require Import Ascii ZArith Lia.
From S2P Require Import Prelude.

Local Open Scope Z_scope.

(** ** Machine integers *)

Definition size_max : Z := 2 ^ 64 - 1.
Definition wrap64 (x : Z) : Z := x mod 2 ^ 64.
Definition wrap32 (x : Z) : Z := x mod 2 ^ 32.
Definition wrap16 (x : Z) : Z := x mod 2 ^ 16.
(** Two's-complement reading of the low [w] bits. *)
Definition sext (w : Z) (x : Z) : Z := (x + 2 ^ (w - 1)) mod 2 ^ w - 2 ^ (w - 1).
Definition int_min : Z := - 2 ^ 31.
Definition int_max : Z := 2 ^ 31 - 1.
Definition is_int (x : Z) : bool := (int_min <=? x) && (x <=? int_max).

Lemma wrap64_small x : 0 <= x < 2 ^ 64 → wrap64 x = x.
Proof. apply Z.mod_small. Qed.
Lemma wrap32_small x : 0 <= x < 2 ^ 32 → wrap32 x = x.
Proof. apply Z.mod_small. Qed.
Lemma wrap64_range x : 0 <= wrap64 x < 2 ^ 64.
Proof. apply Z.mod_pos_bound. lia. Qed.
Lemma sext_small w x :
  0 < w → - 2 ^ (w - 1) <= x < 2 ^ (w - 1) → sext w x = x.
Proof.
  intros Hw Hx. unfold sext. assert (2 ^ w = 2 * 2 ^ (w - 1)) as Hp.
  { rewrite <-Z.pow_succ_r by lia. f_equal. lia. }
  rewrite Z.mod_small; lia.
Qed.
#[export] Hint Rewrite wrap64_small using lia : cxx.

(** ** Characters *)

Definition is_space (c : ascii) : bool :=
  let n := nat_of_ascii c in
  ((n =? 32) || ((9 <=? n) && (n <=? 13)))%nat.
Definition is_digit (c : ascii) : bool :=
  let n := nat_of_ascii c in ((48 <=? n) && (n <=? 57))%nat.
Definition digit_val (c : ascii) : Z := Z.of_nat (nat_of_ascii c) - 48.
Definition digit_char (d : Z) : ascii := ascii_of_nat (Z.to_nat (48 + d)).

Lemma digit_char_spec d :
  0 <= d < 10 → is_digit (digit_char d) = true ∧ digit_val (digit_char d) = d.
Proof.
  intros Hd. unfold is_digit, digit_val, digit_char.
  rewrite nat_ascii_embedding by lia. split; [|lia].
  apply andb_true_iff; split; apply Nat.leb_le; lia.
Qed.
Lemma digit_not_space c : is_digit c = true → is_space c = false.
Proof.
  unfold is_digit, is_space. intros [? ?]%andb_true_iff. zbool.
  apply orb_false_iff; split; [apply Nat.eqb_neq; lia|].
  apply andb_false_iff. right. apply Nat.leb_gt. lia.
Qed.

(** ** [std::string] *)

Definition npos : Z := size_max.
Definition size (s : bytes) : Z := Z.of_nat (length s).

Fixpoint index_of (P : ascii → bool) (s : bytes) : option nat :=
  match s with
  | [] => None
  | c :: s' => if P c then Some 0%nat else S <$> index_of P s'
  end.

(** [s.find(c, pos)] *)
Definition find_char (s : bytes) (c : ascii) (pos : Z) : Z :=
  if size s <=? pos then npos
  else match index_of (Ascii.eqb c) (drop (Z.to_nat pos) s) with
       | Some i => pos + Z.of_nat i
       | None => npos
       end.

Fixpoint starts_with (p s : bytes) : bool :=
  match p, s with
  | [], _ => true
  | _, [] => false
  | a :: p', b :: s' => Ascii.eqb a b && starts_with p' s'
  end.

Fixpoint find_sub (p s : bytes) : option nat :=
  if starts_with p s then Some 0%nat
  else match s with
       | [] => None
       | _ :: s' => S <$> find_sub p s'
       end.

(** [s.find(p, pos)] *)
Definition find_str (s p : bytes) (pos : Z) : Z :=
  if size s <? pos then npos
  else match find_sub p (drop (Z.to_nat pos) s) with
       | Some i => pos + Z.of_nat i
       | None => npos
       end.

(** [s.substr(pos, n)] throws [std::out_of_range] when [pos > s.size()]. *)
Definition substr (s : bytes) (pos n : Z) : outcome bytes :=
  if size s <? pos then Throw OutOfRange
  else let rest := drop (Z.to_nat pos) s in
       Ret (if size rest <=? n then rest else take (Z.to_nat n) rest).

(** [find_first_not_of(" \t")] and [find_last_not_of(" \t")] *)
Definition is_blank (c : ascii) : bool := Ascii.eqb c " " || Ascii.eqb c tab.
Definition find_first_not_of_blank (s : bytes) : Z :=
  match index_of (λ c, negb (is_blank c)) s with
  | Some i => Z.of_nat i
  | None => npos
  end.
Definition find_last_not_of_blank (s : bytes) : Z :=
  match index_of (λ c, negb (is_blank c)) (reverse s) with
  | Some i => size s - 1 - Z.of_nat i
  | None => npos
  end.

(** [operator<] compares as unsigned characters. *)
Fixpoint str_ltb (s t : bytes) : bool :=
  match s, t with
  | _, [] => false
  | [], _ :: _ => true
  | a :: s', b :: t' =>
      if (nat_of_ascii a <? nat_of_ascii b)%nat then true
      else if (nat_of_ascii b <? nat_of_ascii a)%nat then false
      else str_ltb s' t'
  end.
Lemma str_ltb_asym s t : str_ltb s t = true → str_ltb t s = false.
Proof.
  revert t. induction s as [|a s IH]; intros [|b t]; simpl; try done.
  destruct (Nat.ltb_spec (nat_of_ascii a) (nat_of_ascii b));
    destruct (Nat.ltb_spec (nat_of_ascii b) (nat_of_ascii a)); try lia; auto; done.
Qed.

Lemma str_ltb_neg_trans s t u :
  str_ltb s t = false → str_ltb t u = false → str_ltb s u = false.
Proof.
  revert t u. induction s as [|a s IH]; intros [|b t] [|c u]; simpl; try done.
  repeat case_match; zbool; try done; try lia. apply IH.
Qed.

Lemma str_ltb_irrefl s : str_ltb s s = false.
Proof. induction s as [|a s IH]; simpl; [done|]. by rewrite Nat.ltb_irrefl. Qed.

Lemma str_ltb_total s t : str_ltb s t = false → str_ltb t s = false → s = t.
Proof.
  revert t. induction s as [|a s IH]; intros [|b t]; simpl; try done.
  repeat case_match; zbool; try done; try lia. intros ? ?. f_equal; [|by apply IH].
  rewrite <-(ascii_nat_embedding a), <-(ascii_nat_embedding b). f_equal. lia.
Qed.

(** [std::string] keys are ordered by [operator<]. *)
#[export] Instance bytes_key_order : KeyOrder bytes.
Proof.
  refine (Build_KeyOrder bytes str_ltb str_ltb_irrefl _ str_ltb_total).
  intros s t u Hst Htu. destruct (str_ltb s u) eqn:E; [done|].
  pose proof (str_ltb_asym _ _ Htu) as Hut.
  by rewrite (str_ltb_neg_trans _ _ _ E Hut) in Hst.
Defined.

Definition str_leb (s t : bytes) : bool := negb (str_ltb t s).
Definition str_eqb (s t : bytes) : bool := bool_decide (s = t).

(** ** Printing an [int] *)

Fixpoint dec_digits (fuel : nat) (n : Z) (acc : bytes) : bytes :=
  match fuel with
  | O => acc
  | S fuel' =>
      let acc' := digit_char (n mod 10) :: acc in
      if n <? 10 then acc' else dec_digits fuel' (n / 10) acc'
  end.
Definition dec_fuel (n : Z) : nat := S (Z.to_nat (Z.log2 n)).
Definition show_nat (n : Z) : bytes := dec_digits (dec_fuel n) n [].
(** [oss << z] *)
Definition show_int (z : Z) : bytes :=
  if z <? 0 then "-"%char :: show_nat (- z) else show_nat z.

(** ** Reading an [int] *)

Fixpoint span_digits (s : bytes) : bytes * bytes :=
  match s with
  | c :: s' => if is_digit c
               then let (d, r) := span_digits s' in (c :: d, r)
               else ([], s)
  | [] => ([], [])
  end.
Definition digits_val (acc : Z) (d : bytes) : Z :=
  foldl (λ a c, 10 * a + digit_val c) acc d.

(** An optional sign and the digits behind it: the value, [None] when there is no
    digit, and the unread rest. *)
Definition scan_int (s : bytes) : option Z * bytes :=
  let '(neg, s1) := match s with
                    | c :: s' => if Ascii.eqb c "-" then (true, s')
                                 else if Ascii.eqb c "+" then (false, s')
                                 else (false, s)
                    | [] => (false, s)
                    end in
  let '(d, r) := span_digits s1 in
  match d with
  | [] => (None, r)
  | _ => (Some (if (neg : bool) then - digits_val 0 d else digits_val 0 d), r)
  end.

Fixpoint skip_spaces (s : bytes) : bytes :=
  match s with
  | c :: s' => if is_space c then skip_spaces s' else s
  | [] => []
  end.

(** [std::stoi(s, &idx)]: the value and the index of the first unread character. *)
Definition stoi (s : bytes) : outcome (Z * Z) :=
  match scan_int (skip_spaces s) with
  | (None, _) => Throw InvalidArgument
  | (Some v, r) => if is_int v then Ret (v, size s - size r) else Throw OutOfRange
  end.

(** ** [std::istringstream] *)

Record istream := IStream { is_rest : bytes; is_fail : bool; is_eof : bool }.
Definition istringstream (s : bytes) : istream := IStream s false false.
Definition is_good (i : istream) : bool := negb (is_fail i) && negb (is_eof i).

(** The sentry of a formatted read: [inl] when the read goes on. *)
Definition sentry (i : istream) : istream * bool :=
  if is_good i then
    match skip_spaces (is_rest i) with
    | [] => (IStream [] true true, false)
    | r => (IStream r false false, true)
    end
  else (IStream (is_rest i) true (is_eof i), false).

Definition at_end (r : bytes) : bool := match r with [] => true | _ => false end.

(** [is >> n]: a failed sentry leaves the variable alone ([None] for one that was
    never written); a failed conversion stores [0]; a value out of range stores
    the nearest [int]. *)
Definition read_int (i : istream) (old : option Z) : option Z * istream :=
  let '(i1, ok) := sentry i in
  if (ok : bool) then
    match scan_int (is_rest i1) with
    | (None, r) => (Some 0, IStream r true (at_end r))
    | (Some v, r) =>
        if is_int v then (Some v, IStream r false (at_end r))
        else (Some (if v <? 0 then int_min else int_max), IStream r true (at_end r))
    end
  else (old, i1).

(** [is >> c] *)
Definition read_char (i : istream) (old : ascii) : ascii * istream :=
  let '(i1, ok) := sentry i in
  if (ok : bool) then
    match is_rest i1 with
    | c :: r => (c, IStream r false false)
    | [] => (old, IStream [] true true)
    end
  else (old, i1).

Fixpoint span_word (s : bytes) : bytes * bytes :=
  match s with
  | c :: s' => if is_space c then ([], s)
               else let (w, r) := span_word s' in (c :: w, r)
  | [] => ([], [])
  end.

(** [is >> word] *)
Definition read_word (i : istream) (old : bytes) : bytes * istream :=
  let '(i1, ok) := sentry i in
  if (ok : bool) then
    let '(w, r) := span_word (is_rest i1) in (w, IStream r false (at_end r))
  else (old, i1).

Fixpoint span_until (d : ascii) (s : bytes) : bytes * option bytes :=
  match s with
  | c :: s' => if Ascii.eqb c d then ([], Some s')
               else let (w, r) := span_until d s' in (c :: w, r)
  | [] => ([], None)
  end.

(** [std::getline(is, line, d)] *)
Definition getline (d : ascii) (i : istream) (old : bytes) : bytes * istream :=
  if is_good i then
    match is_rest i with
    | [] => ([], IStream [] true true)
    | s => match span_until d s with
           | (w, Some r) => (w, IStream r false false)
           | (w, None) => (w, IStream [] false true)
           end
    end
  else (old, IStream (is_rest i) true (is_eof i)).

(** [while (std::getline(is, line)) ...]: the lines the loop body sees. *)
Fixpoint getline_loop (fuel : nat) (i : istream) : list bytes :=
  match fuel with
  | O => []
  | S fuel' =>
      let '(l, i') := getline newline i [] in
      if is_fail i' then [] else l :: getline_loop fuel' i'
  end.
Definition read_lines (s : bytes) : list bytes :=
  getline_loop (S (length s)) (istringstream s).

(** ** Lemmas *)

Lemma digits_val_app acc d1 d2 :
  digits_val acc (d1 ++ d2) = digits_val (digits_val acc d1) d2.
Proof. apply foldl_app. Qed.

Lemma dec_digits_spec fuel n acc :
  0 <= n < 10 ^ Z.of_nat fuel → fuel ≠ O →
  digits_val 0 (dec_digits fuel n acc) = digits_val n acc.
Proof.
  revert n acc. induction fuel as [|fuel IH]; intros n acc Hn Hf; [done|].
  assert (0 <= n mod 10 < 10) as Hm by (apply Z.mod_pos_bound; lia).
  destruct (digit_char_spec _ Hm) as [_ Hd].
  pose proof (Z.div_mod n 10 ltac:(lia)) as Hdm. simpl.
  destruct (Z.ltb_spec n 10).
  - unfold digits_val. simpl. rewrite Hd, Z.mod_small by lia. done.
  - rewrite Nat2Z.inj_succ, Z.pow_succ_r in Hn by lia.
    assert (0 <= n / 10 < 10 ^ Z.of_nat fuel).
    { split; [apply Z.div_pos; lia|apply Z.div_lt_upper_bound; lia]. }
    rewrite IH; [|lia|].
    + unfold digits_val. simpl. rewrite Hd. f_equal. lia.
    + intros ->. simpl in *. assert (n / 10 = 0) by lia.
      apply Z.div_small_iff in H1; lia.
Qed.

Lemma dec_digits_digits fuel n acc :
  0 <= n → Forall (λ c, is_digit c = true) acc →
  Forall (λ c, is_digit c = true) (dec_digits fuel n acc).
Proof.
  revert n acc. induction fuel as [|fuel IH]; intros n acc Hn Hacc; [done|]. simpl.
  assert (is_digit (digit_char (n mod 10)) = true).
  { apply digit_char_spec, Z.mod_pos_bound. lia. }
  destruct (n <? 10); [by constructor|].
  apply IH; [apply Z.div_pos; lia|by constructor].
Qed.

Lemma dec_fuel_enough n : 0 <= n → n < 10 ^ Z.of_nat (dec_fuel n).
Proof.
  intros Hn. unfold dec_fuel. rewrite Nat2Z.inj_succ, Z2Nat.id by apply Z.log2_nonneg.
  destruct (decide (n = 0)) as [->|]; [done|].
  eapply Z.lt_le_trans; [apply Z.log2_spec; lia|].
  apply Z.pow_le_mono_l. lia.
Qed.

Lemma show_nat_digits n : 0 <= n → Forall (λ c, is_digit c = true) (show_nat n).
Proof. intros. by apply dec_digits_digits. Qed.

Lemma show_nat_val n : 0 <= n → digits_val 0 (show_nat n) = n.
Proof.
  intros Hn. unfold show_nat. rewrite dec_digits_spec; [done| |done].
  split; [done|by apply dec_fuel_enough].
Qed.

Lemma dec_digits_nonempty fuel n acc : fuel ≠ O → dec_digits fuel n acc ≠ [].
Proof.
  revert n acc. assert (∀ f n acc, acc ≠ [] → dec_digits f n acc ≠ []) as Haux.
  { induction f; intros n acc ?; simpl; [done|].
    destruct (n <? 10); [done|]. by apply IHf. }
  destruct fuel; intros n acc ?; [done|]. simpl.
  destruct (n <? 10); [done|]. by apply Haux.
Qed.

Lemma show_nat_nonempty n : show_nat n ≠ [].
Proof. by apply dec_digits_nonempty. Qed.

Definition no_digit_head (r : bytes) : Prop :=
  match r with c :: _ => is_digit c = false | [] => True end.

Lemma span_digits_app d r :
  Forall (λ c, is_digit c = true) d → no_digit_head r → span_digits (d ++ r) = (d, r).
Proof.
  intros Hd Hr. induction Hd as [|c d Hc Hd IH]; simpl.
  - destruct r as [|c r]; simpl in *; [done|]. by rewrite Hr.
  - by rewrite Hc, IH.
Qed.

(** Reading back a printed [int] yields the same value and the same rest. *)
Lemma scan_show_int z r :
  no_digit_head r → scan_int (show_int z ++ r) = (Some z, r).
Proof.
  intros Hr. unfold scan_int, show_int.
  destruct (Z.ltb_spec z 0).
  - simpl. rewrite span_digits_app; [|apply show_nat_digits; lia|done].
    destruct (show_nat (- z)) eqn:E; [by apply show_nat_nonempty in E|].
    rewrite <-E, show_nat_val by lia. f_equal. f_equal. lia.
  - pose proof (show_nat_digits z ltac:(lia)) as Hd.
    pose proof (show_nat_val z ltac:(lia)) as Hv.
    pose proof (show_nat_nonempty z) as Hne.
    destruct (show_nat z) as [|c d] eqn:E; [done|]. simpl app.
    assert (Ascii.eqb c "-" = false ∧ Ascii.eqb c "+" = false) as [-> ->].
    { inversion Hd as [|? ? Hc]; subst. clear -Hc.
      split; apply Ascii.eqb_neq; intros ->; vm_compute in Hc; done. }
    change (c :: d ++ r) with ((c :: d) ++ r).
    rewrite span_digits_app by done. by rewrite Hv.
Qed.

Lemma show_int_head z : ∃ c s, show_int z = c :: s ∧ is_space c = false.
Proof.
  unfold show_int. destruct (Z.ltb_spec z 0); [by eexists _, _|].
  pose proof (show_nat_digits z ltac:(lia)) as Hd.
  pose proof (show_nat_nonempty z).
  destruct (show_nat z) as [|c s]; [done|]. inversion Hd; subst.
  eexists _, _. split; [done|]. by apply digit_not_space.
Qed.

Lemma stoi_show_int z :
  is_int z = true → stoi (show_int z) = Ret (z, size (show_int z)).
Proof.
  intros Hz. unfold stoi. destruct (show_int_head z) as (c & s & E & Hc).
  rewrite E. simpl. rewrite Hc, <-E.
  rewrite <-(app_nil_r (show_int z)) at 1. rewrite scan_show_int by done.
  rewrite Hz. do 2 f_equal. unfold size. simpl. lia.
Qed.

Lemma index_of_Some P s i :
  index_of P s = Some i ↔
  ∃ c, s !! i = Some c ∧ P c = true ∧ ∀ j d, (j < i)%nat → s !! j = Some d → P d = false.
Proof.
  revert i. induction s as [|a s IH]; intros i; simpl.
  - split; [done|]. intros (c & Hc & _). by rewrite lookup_nil in Hc.
  - destruct (P a) eqn:Ha.
    + split.
      * intros [= <-]. exists a. split_and!; [done..|]. intros; lia.
      * intros (c & Hc & HP & Hj). destruct i as [|i]; [done|].
        specialize (Hj 0%nat a ltac:(lia) eq_refl). congruence.
    + rewrite fmap_Some. split.
      * intros (k & (c & Hc & HP & Hj)%IH & ->). exists c. split_and!; [done..|].
        intros [|j] d Hlt Hd; [simpl in Hd; congruence|]. eapply Hj; [|done]. lia.
      * intros (c & Hc & HP & Hj). destruct i as [|i]; [simpl in Hc; congruence|].
        exists i. split; [|done]. apply IH. exists c. split_and!; [done..|].
        intros j d Hlt Hd. apply (Hj (S j) d); [lia|done].
Qed.

Lemma index_of_None P s : index_of P s = None ↔ Forall (λ c, P c = false) s.
Proof.
  induction s as [|a s IH]; simpl; [done|].
  rewrite Forall_cons. destruct (P a); [split; [done|by intros [? _]]|].
  rewrite fmap_None, IH. tauto.
Qed.

Lemma index_of_lt P s i : index_of P s = Some i → (i < length s)%nat.
Proof.
  intros (c & Hc & _)%index_of_Some. by eapply lookup_lt_Some.
Qed.

Lemma index_of_app_r P s t :
  Forall (λ c, P c = false) s →
  index_of P (s ++ t) = (λ i, length s + i)%nat <$> index_of P t.
Proof.
  induction 1 as [|c s Hc Hs IH]; simpl.
  - by destruct (index_of P t).
  - rewrite Hc, IH. by destruct (index_of P t).
Qed.

Lemma span_until_app d w r :
  d ∉ w → span_until d (w ++ d :: r) = (w, Some r).
Proof.
  induction w as [|c w IH]; simpl; intros Hd.
  - by rewrite Ascii.eqb_refl.
  - apply not_elem_of_cons in Hd as [Hc Hd].
    assert (Ascii.eqb c d = false) as -> by (by apply Ascii.eqb_neq; congruence).
    by rewrite IH.
Qed.

Lemma span_until_none d w : d ∉ w → span_until d w = (w, None).
Proof.
  induction w as [|c w IH]; simpl; intros Hd; [done|].
  apply not_elem_of_cons in Hd as [Hc Hd].
  assert (Ascii.eqb c d = false) as -> by (by apply Ascii.eqb_neq; congruence).
  by rewrite IH.
Qed.

Lemma span_until_spec d s :
  match span_until d s with
  | (w, Some r) => s = w ++ d :: r ∧ d ∉ w
  | (w, None) => s = w ∧ d ∉ w
  end.
Proof.
  induction s as [|c s IH]; simpl; [split; [done|apply not_elem_of_nil]|].
  destruct (Ascii.eqb_spec c d) as [->|Hc]; [split; [done|apply not_elem_of_nil]|].
  destruct (span_until d s) as [w [r|]]; destruct IH as [-> Hw];
    (split; [done|]); apply not_elem_of_cons; auto.
Qed.

(** Lines written with a trailing newline are read back one by one. *)
Definition unlines (ls : list bytes) : bytes := mjoin ((λ l, l ++ [newline]) <$> ls).

Lemma unlines_cons l ls : unlines (l :: ls) = l ++ newline :: unlines ls.
Proof. unfold unlines. simpl. by rewrite <-app_assoc. Qed.

Lemma getline_app d w r old :
  d ∉ w → getline d (istringstream (w ++ d :: r)) old = (w, istringstream r).
Proof.
  intros Hd. unfold getline, istringstream, is_good.
  cbn [is_fail is_eof is_rest negb andb].
  destruct (w ++ d :: r) eqn:Ew; [by destruct w|].
  by rewrite <-Ew, span_until_app.
Qed.

Lemma getline_loop_unlines ls fuel :
  Forall (λ l, newline ∉ l) ls → (length ls < fuel)%nat →
  getline_loop fuel (istringstream (unlines ls)) = ls.
Proof.
  intros Hls. revert fuel. induction Hls as [|l ls Hl Hls IH]; intros fuel Hf.
  - by destruct fuel.
  - destruct fuel as [|fuel]; [simpl in Hf; lia|].
    cbn [getline_loop]. rewrite unlines_cons, getline_app by done. simpl. f_equal. apply IH. simpl in Hf. lia.
Qed.

Lemma unlines_length ls : (length ls <= length (unlines ls))%nat.
Proof.
  induction ls as [|l ls IH]; simpl; [done|].
  rewrite unlines_cons, length_app. simpl. lia.
Qed.

Lemma read_lines_unlines ls :
  Forall (λ l, newline ∉ l) ls → read_lines (unlines ls) = ls.
Proof.
  intros. apply getline_loop_unlines; [done|]. pose proof (unlines_length ls). lia.
Qed.

(** [str = (s == npos) ? "" : str.substr(s, e - s + 1)], the blank trimming that
    [task_manager::load] and [add_command::exec_impl] both write out. *)
Definition trim_blank (str : bytes) : outcome bytes :=
  let s := find_first_not_of_blank str in
  let e := find_last_not_of_blank str in
  if s =? npos then Ret [] else substr str s (wrap64 (e - s + 1)).

(** A string that trimming leaves alone. *)
Definition trimmed (s : bytes) : Prop :=
  (∀ c, head s = Some c → is_blank c = false) ∧ (∀ c, last s = Some c → is_blank c = false).

Lemma trim_blank_nil : trim_blank [] = Ret [].
Proof. done. Qed.

(** Positions [find] answers. *)
Lemma find_char_range s c pos :
  0 <= pos → find_char s c pos = npos ∨ pos <= find_char s c pos < size s.
Proof.
  intros Hp. unfold find_char, size. ztest; [by left|].
  destruct (index_of _ _) as [i|] eqn:E; [|by left]. right.
  apply index_of_lt in E. rewrite length_drop in E. lia.
Qed.

Lemma find_char_app pre w c r :
  c ∉ w → find_char (pre ++ w ++ c :: r) c (size pre) = size pre + size w.
Proof.
  intros Hc. unfold find_char, size. rewrite !length_app. simpl. ztest; [lia|].
  rewrite Nat2Z.id, drop_app_length, index_of_app_r.
  - simpl. rewrite Ascii.eqb_refl. simpl. lia.
  - apply Forall_forall. intros x Hx. apply Ascii.eqb_neq. by intros ->.
Qed.

Lemma find_char_none pre w c : c ∉ w → find_char (pre ++ w) c (size pre) = npos.
Proof.
  intros Hc. unfold find_char, size. rewrite !length_app. ztest; [done|].
  rewrite Nat2Z.id, drop_app_length.
  replace (index_of _ w) with (@None nat); [done|]. symmetry. apply index_of_None.
  apply Forall_forall. intros x Hx. apply Ascii.eqb_neq. by intros ->.
Qed.

Lemma substr_ret s pos n : pos <= size s → ∃ t, substr s pos n = Ret t.
Proof. intros. unfold substr. ztest; [lia|by eexists..]. Qed.

Lemma substr_app pre w r : substr (pre ++ w ++ r) (size pre) (size w) = Ret w.
Proof.
  unfold substr, size. rewrite !length_app. ztest; try lia.
  - rewrite Nat2Z.id, drop_app_length in *. rewrite length_app in *.
    assert (r = []) as -> by (apply nil_length_inv; lia). by rewrite app_nil_r.
  - by rewrite !Nat2Z.id, drop_app_length, take_app_length.
Qed.

Lemma substr_tail pre r : size r <= npos → substr (pre ++ r) (size pre) npos = Ret r.
Proof.
  intros Hr. unfold substr, size in *. rewrite !length_app.
  rewrite Nat2Z.id, drop_app_length. ztest; try lia. done.
Qed.

(** Trimming removes exactly the outer blanks. *)
Lemma trim_blank_around b m e :
  Forall (λ c, is_blank c = true) b → Forall (λ c, is_blank c = true) e → trimmed m →
  size (b ++ m ++ e) < npos → trim_blank (b ++ m ++ e) = Ret m.
Proof.
  intros Hb He [Hh Hl] Hsz.
  assert (∀ x, Forall (λ c, is_blank c = true) x →
               Forall (λ c, negb (is_blank c) = false) x) as Hneg.
  { intros x Hx. eapply Forall_impl; [exact Hx|]. by intros c ->. }
  unfold trim_blank. destruct m as [|c m].
  - replace (find_first_not_of_blank (b ++ [] ++ e)) with npos; [done|].
    unfold find_first_not_of_blank.
    assert (Forall (λ c, negb (is_blank c) = false) (b ++ [] ++ e)) as Hall%index_of_None.
    { by apply Hneg, Forall_app. }
    by rewrite Hall.
  - assert (find_first_not_of_blank (b ++ (c :: m) ++ e) = size b) as ->.
    { unfold find_first_not_of_blank, size. rewrite index_of_app_r by auto. simpl.
      rewrite Hh by done. simpl. lia. }
    assert (find_last_not_of_blank (b ++ (c :: m) ++ e) = size b + size (c :: m) - 1) as ->.
    { unfold find_last_not_of_blank, size. rewrite !reverse_app, <-app_assoc.
      rewrite index_of_app_r by (by apply Hneg, Forall_reverse).
      destruct (reverse (c :: m)) as [|d r] eqn:Er.
      { apply (f_equal length) in Er. by rewrite length_reverse in Er. }
      simpl. rewrite (Hl d) by (by rewrite <-head_reverse, Er).
      simpl. rewrite !length_app, length_reverse. simpl. rewrite length_app. lia. }
    replace (wrap64 _) with (size (c :: m)).
    + unfold size, npos, size_max in *. rewrite !length_app in Hsz. ztest; [lia|].
      apply substr_app.
    + unfold size, npos, size_max in *. rewrite !length_app in Hsz.
      rewrite wrap64_small; lia.
Qed.

Lemma trim_blank_leading b s :
  Forall (λ c, is_blank c = true) b → trimmed s → size (b ++ s) < npos →
  trim_blank (b ++ s) = Ret s.
Proof.
  intros. rewrite <-(app_nil_r s). rewrite trim_blank_around; rewrite ?app_nil_r; auto.
Qed.

(** The declarative reading of the trimming code. *)
Fixpoint drop_blanks (s : bytes) : bytes :=
  match s with
  | c :: s' => if is_blank c then drop_blanks s' else s
  | [] => []
  end.
Definition trim (s : bytes) : bytes := reverse (drop_blanks (reverse (drop_blanks s))).

Lemma drop_blanks_split s :
  ∃ b, s = b ++ drop_blanks s ∧ Forall (λ c, is_blank c = true) b ∧
       ∀ c, head (drop_blanks s) = Some c → is_blank c = false.
Proof.
  induction s as [|c s (b & E & Hb & Hh)]; simpl; [by exists []|].
  destruct (is_blank c) eqn:Hc.
  - exists (c :: b). split_and!; [simpl; congruence|by constructor|done].
  - exists []. split_and!; [done..|]. by intros d [= <-].
Qed.

Lemma trim_blank_spec s : size s < npos → trim_blank s = Ret (trim s).
Proof.
  intros Hs. destruct (drop_blanks_split s) as (b & E & Hb & Hh).
  destruct (drop_blanks_split (reverse (drop_blanks s))) as (e & E' & He & Hl).
  fold (trim s) in *. unfold trim. remember (drop_blanks (reverse _)) as m eqn:Em.
  apply (f_equal reverse) in E'. rewrite reverse_involutive, reverse_app in E'.
  rewrite E, E' in Hs |- *. apply trim_blank_around; [done|by apply Forall_reverse| |done].
  split; [|intros c; by rewrite <-head_reverse, reverse_involutive; auto].
  intros c Hc. apply Hh. rewrite E'. destruct (reverse m); [done|]. done.
Qed.

#[global] Arguments read_int : simpl never.
#[global] Arguments read_char : simpl never.
#[global] Arguments read_word : simpl never.
#[global] Arguments getline : simpl never.
#[global] Arguments trim_blank : simpl never.
#[global] Arguments show_int : simpl never.
#[global] Arguments stoi : simpl never.
#[global] Arguments wrap64 : simpl never.
#[global] Arguments sext : simpl never.
