(* ===== verification/TaskStore.v ===== *)
(** * The task store of [task_management_sys]

    [task.h], [task.cpp], [task_manager.h], [task_manager.cpp] and
    [logger.cpp]: the in-memory vector of tasks with its id counter, the file
    [tasks.txt] it is saved to and loaded from, and the log file.  The file
    system and the clock are part of the [world] record. *)

From stdpp Require Import base gmap sets list strings sorting.
From Stdlib Require Import Ascii ZArith Lia.
From S2P Require Import Prelude CxxString.

Local Open Scope Z_scope.

(** ** Data *)

Record task := Task {
  t_id : Z;
  t_description : bytes;
  t_priority : Z;
  t_ddl : bytes
}.

#[export] Instance task_eq_dec : EqDecision task.
Proof. solve_decision. Defined.

Record filter_args := FilterArgs {
  f_keyword : bytes;
  f_priority : Z;
  f_data_st : bytes;
  f_data_ed : bytes
}.
Definition no_filter : filter_args := FilterArgs [] 0 [] [].

(** [task::to_string] *)
Definition task_to_string (t : task) : bytes :=
  lit "ID: " ++ show_int (t_id t) ++ lit ", Description: " ++ t_description t
  ++ lit ", Priority: " ++ show_int (t_priority t) ++ lit ", Deadline: " ++ t_ddl t.

(** The manager's members and everything outside the process that it touches:
    [tasks.txt] ([None]: no such file), whether it can be opened for reading and
    writing, the lines of [log.txt], the clock as [strftime] prints it for the
    [n]-th log line, and what was written to [std::cout]. *)
Record world := World {
  w_tasks : list task;
  w_next_id : Z;
  w_disk : option bytes;
  w_can_read : bool;
  w_can_write : bool;
  w_log_open : bool;
  w_log : list bytes;
  w_clock : nat → bytes;
  w_out : bytes
}.

Definition set_tasks (ts : list task) (w : world) : world :=
  World ts (w_next_id w) (w_disk w) (w_can_read w) (w_can_write w) (w_log_open w)
        (w_log w) (w_clock w) (w_out w).
Definition set_next_id (n : Z) (w : world) : world :=
  World (w_tasks w) n (w_disk w) (w_can_read w) (w_can_write w) (w_log_open w)
        (w_log w) (w_clock w) (w_out w).
Definition set_disk (d : bytes) (w : world) : world :=
  World (w_tasks w) (w_next_id w) (Some d) (w_can_read w) (w_can_write w) (w_log_open w)
        (w_log w) (w_clock w) (w_out w).
Definition set_log (l : list bytes) (w : world) : world :=
  World (w_tasks w) (w_next_id w) (w_disk w) (w_can_read w) (w_can_write w) (w_log_open w)
        l (w_clock w) (w_out w).
Definition set_out (o : bytes) (w : world) : world :=
  World (w_tasks w) (w_next_id w) (w_disk w) (w_can_read w) (w_can_write w) (w_log_open w)
        (w_log w) (w_clock w) o.

(** [std::cout << s] *)
Definition cout (s : bytes) : prog world unit := modify (λ w, set_out (w_out w ++ s) w).
Definition endl : bytes := [newline].

Definition dquote : bytes := [Ascii.ascii_of_nat 34].

(** [logger::log] *)
Definition logger_log (msg : bytes) : prog world unit :=
  modify (λ w,
    if w_log_open w then
      set_log (w_log w ++ [dquote ++ w_clock w (length (w_log w)) ++ dquote ++ lit " : " ++ msg]) w
    else w).

(** ** Persistence *)

(** One line of [tasks.txt], as [save] writes it. *)
Definition save_line (t : task) : bytes :=
  show_int (t_id t) ++ lit ", " ++ t_description t ++ lit ", "
  ++ show_int (t_priority t) ++ lit ", " ++ t_ddl t.

(** [task_manager::save] *)
Definition save : prog world unit :=
  w ← get;
  if w_can_write w then
    put (set_disk (unlines (save_line <$> w_tasks w)) w);;
    logger_log (lit "Tasks saved successfully.")
  else logger_log (lit "Failed to open tasks file for writing.").

(** The body of [load]'s loop before the [push_back]: the fields of a task read
    from one line.  [task tsk;] leaves [_id] and [_priority] indeterminate, so
    using either before a read has stored into it is undefined behaviour. *)
Definition load_line (line : bytes) : outcome task :=
  let iss := istringstream line in
  let '(id, iss) := read_int iss None in
  let '(_, iss) := read_char iss "000"%char in
  let '(desc, iss) := getline "," iss [] in
  desc ← trim_blank desc;
  let '(prio, iss) := read_int iss None in
  let '(_, iss) := read_char iss "000"%char in
  let '(ddl, iss) := read_word iss [] in
  id ← deref id;
  prio ← deref prio;
  Ret (Task id desc prio ddl).

(** [_tasks.push_back(tsk); if (tsk._id >= _next_id) _next_id = tsk._id + 1;]
    The comparison converts [_id] to [size_t]; [_id + 1] is [int] arithmetic. *)
Definition load_push (st : list task * Z) (t : task) : outcome (list task * Z) :=
  let '(ts, next) := st in
  if next <=? wrap64 (t_id t) then
    if t_id t =? int_max then Undef
    else Ret (ts ++ [t], wrap64 (t_id t + 1))
  else Ret (ts ++ [t], next).

Fixpoint load_lines (lines : list bytes) (st : list task * Z) : outcome (list task * Z) :=
  match lines with
  | [] => Ret st
  | l :: lines' => t ← load_line l; st' ← load_push st t; load_lines lines' st'
  end.

(** [task_manager::load] *)
Definition load : prog world unit :=
  w ← get;
  match w_disk w, w_can_read w with
  | Some d, true =>
      st ← lift (load_lines (read_lines d) (w_tasks w, w_next_id w));
      modify (λ w, set_next_id st.2 (set_tasks st.1 w));;
      logger_log (lit "Tasks loaded successfully.")
  | _, _ => logger_log (lit "Falied to open tasks file.")
  end.

(** [task_manager::task_manager] *)
Definition task_manager_init : prog world unit :=
  modify (λ w, set_next_id 1 (set_tasks [] w));; load.

(** ** Operations *)

(** [task_manager::add] *)
Definition add (description : bytes) (priority : Z) (date : bytes) : prog world unit :=
  w ← get;
  let tsk := Task (sext 32 (w_next_id w)) description priority date in
  modify (λ w, set_next_id (wrap64 (w_next_id w + 1)) w);;
  logger_log (lit "Task added: " ++ task_to_string tsk);;
  modify (λ w, set_tasks (w_tasks w ++ [tsk]) w);;
  save.

(** [std::find_if] with the predicate [tsk._id == id] *)
Definition find_task (id : Z) (ts : list task) : option (nat * task) :=
  list_find (λ t, t_id t = id) ts.

Definition task_not_found : prog world unit :=
  cout (lit "Task not found." ++ endl);; logger_log (lit "Task not found.").

(** [task_manager::remove] *)
Definition remove (id : Z) : prog world unit :=
  w ← get;
  match find_task id (w_tasks w) with
  | None => task_not_found
  | Some (i, t) =>
      logger_log (lit "Task deleted: " ++ task_to_string t);;
      modify (λ w, set_tasks (delete i (w_tasks w)) w);;
      save
  end.

(** [task_manager::update] *)
Definition update (id : Z) (description : bytes) (priority : Z) (date : bytes) :
    prog world unit :=
  w ← get;
  match find_task id (w_tasks w) with
  | None => task_not_found
  | Some (i, t) =>
      let t' := Task (t_id t) description priority date in
      modify (λ w, set_tasks (<[i:=t']> (w_tasks w)) w);;
      logger_log (lit "Task updated: " ++ task_to_string t');;
      save
  end.

(** [cmp_by_priority], [cmp_by_date] *)
Definition cmp_by_priority (ta tb : task) : bool := t_priority ta <? t_priority tb.
Definition cmp_by_date (ta tb : task) : bool := str_ltb (t_ddl ta) (t_ddl tb).

(** The contract of [std::sort] for a comparison that is a strict weak order:
    the result is a permutation in which no element is less than an earlier one.
    The order of equivalent elements is unspecified, so [std_sort] stays abstract
    in every theorem about [list]. *)
Definition strict_weak (lt : task → task → bool) : Prop :=
  (∀ a b, lt a b = true → lt b a = false) ∧
  (∀ a b c, lt a b = false → lt b c = false → lt a c = false).

Class StdSort := {
  std_sort : (task → task → bool) → list task → list task;
  std_sort_perm lt l : strict_weak lt → std_sort lt l ≡ₚ l;
  std_sort_sorted lt l :
    strict_weak lt → StronglySorted (λ a b, lt b a = false) (std_sort lt l)
}.

Definition print_tasks (ts : list task) : bytes :=
  unlines (task_to_string <$> ts).

(** [task_manager::list] *)
Definition list_tasks `{StdSort} (option : Z) : prog world unit :=
  w ← get;
  let sort_list := if option =? 1 then std_sort cmp_by_priority (w_tasks w)
                   else if option =? 2 then std_sort cmp_by_date (w_tasks w)
                   else w_tasks w in
  cout (print_tasks sort_list).

(** The predicates [filter] pushes, in order. *)
Definition filter_preds (args : filter_args) : list (task → bool) :=
  (if bool_decide (f_keyword args = []) then []
   else [λ t, negb (find_str (t_description t) (f_keyword args) 0 =? npos)])
  ++ (if f_priority args =? 0 then [] else [λ t, t_priority t =? f_priority args])
  ++ (if negb (bool_decide (f_data_st args = [])) && negb (bool_decide (f_data_ed args = []))
      then [λ t, str_leb (f_data_st args) (t_ddl t) && str_leb (t_ddl t) (f_data_ed args)]
      else []).

(** [task_manager::filter] *)
Definition filter_tasks (args : filter_args) : prog world unit :=
  w ← get;
  match filter_preds args with
  | [] => cout (lit "Usage: filter -k <keyword> -p <priority>"
                ++ lit "-d <date_begin> <date_end>" ++ endl)
  | preds =>
      cout (print_tasks (filter (λ t, forallb (λ p, p t) preds = true) (w_tasks w)))
  end.

(** ** An instance of the sorting contract: insertion sort *)

Fixpoint insert_task (lt : task → task → bool) (x : task) (l : list task) : list task :=
  match l with
  | [] => [x]
  | y :: l' => if lt y x then y :: insert_task lt x l' else x :: l
  end.

Definition insertion_sort (lt : task → task → bool) (l : list task) : list task :=
  foldr (insert_task lt) [] l.

Lemma insert_task_perm lt x l : insert_task lt x l ≡ₚ x :: l.
Proof.
  induction l as [|y l IH]; simpl; [done|].
  destruct (lt y x); [|done]. rewrite IH. apply Permutation_swap.
Qed.

Lemma insert_task_sorted lt x l :
  strict_weak lt →
  StronglySorted (λ a b, lt b a = false) l →
  StronglySorted (λ a b, lt b a = false) (insert_task lt x l).
Proof.
  intros [Hasym Htrans]. induction 1 as [|y l Hs IH Hall]; simpl; [by repeat constructor|].
  destruct (lt y x) eqn:E.
  - constructor; [done|]. rewrite insert_task_perm. constructor; [by apply Hasym|done].
  - constructor; [by constructor|]. constructor; [done|].
    eapply Forall_impl; [exact Hall|]. intros z Hz. simpl in *. eauto.
Qed.

#[export] Instance insertion_std_sort : StdSort.
Proof.
  refine (Build_StdSort insertion_sort _ _).
  - intros lt l _. induction l as [|x l IH]; simpl; [done|].
    by rewrite insert_task_perm, IH.
  - intros lt l Hlt. induction l as [|x l IH]; simpl; [constructor|].
    by apply insert_task_sorted.
Defined.

(** ** Helper lemmas *)

Lemma cmp_by_priority_strict_weak : strict_weak cmp_by_priority.
Proof. unfold cmp_by_priority. split; intros *; ztest; lia || done. Qed.

Lemma cmp_by_date_strict_weak : strict_weak cmp_by_date.
Proof.
  split; intros *; [apply str_ltb_asym|apply str_ltb_neg_trans].
Qed.

(** *** Reading back one printed line *)

Lemma read_int_show b z r old :
  Forall (λ c, is_space c = true) b → is_int z = true → no_digit_head r →
  read_int (istringstream (b ++ show_int z ++ r)) old = (Some z, IStream r false (at_end r)).
Proof.
  intros Hb Hz Hr. unfold read_int, sentry, is_good, istringstream.
  cbn [is_fail is_eof is_rest negb andb].
  assert (skip_spaces (b ++ show_int z ++ r) = show_int z ++ r) as ->.
  { induction Hb as [|c b Hc Hb IH]; simpl; [|by rewrite Hc].
    destruct (show_int_head z) as (c & s & -> & Hc). simpl. by rewrite Hc. }
  destruct (show_int z ++ r) eqn:E.
  - destruct (show_int_head z) as (c & s & E' & _). by rewrite E' in E.
  - rewrite <-E. cbn [is_rest]. rewrite E, <-E, scan_show_int by done. by rewrite Hz.
Qed.

Lemma read_int_show0 z r old :
  is_int z = true → no_digit_head r →
  read_int (istringstream (show_int z ++ r)) old = (Some z, IStream r false (at_end r)).
Proof. apply (read_int_show []). constructor. Qed.

Lemma read_char_app c r old :
  is_space c = false → read_char (IStream (c :: r) false false) old = (c, IStream r false false).
Proof. intros Hc. unfold read_char, sentry, is_good. simpl. by rewrite Hc. Qed.

Lemma span_word_all w : Forall (λ c, is_space c = false) w → span_word w = (w, []).
Proof. induction 1 as [|c w Hc Hw IH]; simpl; [done|]. by rewrite Hc, IH. Qed.

Lemma read_word_last b w old :
  Forall (λ c, is_space c = true) b → Forall (λ c, is_space c = false) w → w ≠ [] →
  read_word (IStream (b ++ w) false false) old = (w, IStream [] false true).
Proof.
  intros Hb Hw Hne. unfold read_word, sentry, is_good.
  cbn [is_fail is_eof is_rest negb andb].
  assert (skip_spaces (b ++ w) = w) as ->.
  { induction Hb as [|c b Hc Hb IH]; simpl; [|by rewrite Hc].
    destruct Hw as [|c w Hc Hw]; [done|]. simpl. by rewrite Hc. }
  destruct w as [|c w]; [done|]. cbn [is_rest]. by rewrite span_word_all.
Qed.

(** The tasks whose line survives: an id that can be incremented, a description
    without commas or line breaks and without outer blanks, a deadline that is
    one word. *)
Definition savable (t : task) : Prop :=
  (0 <= t_id t < int_max) ∧ (is_int (t_priority t) = true) ∧
  (","%char ∉ t_description t) ∧ (newline ∉ t_description t) ∧ trimmed (t_description t) ∧
  size (t_description t) < 2 ^ 32 ∧
  t_ddl t ≠ [] ∧ Forall (λ c, is_space c = false) (t_ddl t).

Lemma savable_id t : savable t → is_int (t_id t) = true.
Proof.
  intros [Hid _]. unfold is_int, int_min, int_max in *.
  apply andb_true_iff; split; apply Z.leb_le; lia.
Qed.

Lemma load_line_save_line t : savable t → load_line (save_line t) = Ret t.
Proof.
  intros Ht. pose proof (savable_id t Ht) as Hid.
  destruct Ht as (_ & Hp & Hc & Hn & Htr & Hsz & Hne & Hw).
  unfold load_line, save_line.
  rewrite read_int_show0 by done. simpl.
  change (" "%char :: ?x) with ([" "%char] ++ x).
  rewrite app_assoc.
  change (IStream ?x false false) with (istringstream x).
  rewrite (getline_app "," ([" "%char] ++ t_description t)) by set_solver.
  rewrite trim_blank_leading; [|by repeat constructor|done|].
  2:{ unfold size, npos, size_max in *. simpl. lia. }
  simpl. change (" "%char :: ?x) with ([" "%char] ++ x).
  rewrite read_int_show by (by repeat constructor). simpl.
  change (" "%char :: ?x) with ([" "%char] ++ x).
  rewrite read_word_last by (by repeat constructor).
  simpl. by destruct t.
Qed.

Lemma digits_no_newline d : Forall (λ c, is_digit c = true) d → newline ∉ d.
Proof. intros Hd Hin. by eapply Forall_forall in Hd; [|exact Hin]. Qed.

Lemma show_int_no_newline z : newline ∉ show_int z.
Proof.
  unfold show_int. destruct (Z.ltb_spec z 0).
  - apply not_elem_of_cons. split; [done|]. apply digits_no_newline, show_nat_digits. lia.
  - apply digits_no_newline, show_nat_digits. lia.
Qed.

Lemma save_line_no_newline t : savable t → newline ∉ save_line t.
Proof.
  intros (_ & _ & _ & Hn & _ & _ & _ & Hw). unfold save_line.
  rewrite !elem_of_app. pose proof (show_int_no_newline (t_id t)).
  pose proof (show_int_no_newline (t_priority t)).
  assert (newline ∉ lit ", ") by (by apply (bool_decide_unpack _)).
  assert (newline ∉ t_ddl t).
  { intros Hin. by eapply Forall_forall in Hw; [|exact Hin]. }
  tauto.
Qed.

(** The id counter after reading a list of ids. *)
Definition next_after (ids : list Z) (n : Z) : Z :=
  foldl (λ n i, if n <=? i then i + 1 else n) n ids.

Lemma load_lines_save_lines ts acc n :
  Forall savable ts →
  load_lines (save_line <$> ts) (acc, n) = Ret (acc ++ ts, next_after (t_id <$> ts) n).
Proof.
  intros Hts. revert acc n. induction Hts as [|t ts Ht Hts IH]; intros acc n; simpl.
  - by rewrite app_nil_r.
  - rewrite load_line_save_line by done. simpl.
    destruct Ht as [Hid _]. unfold int_max in *.
    rewrite wrap64_small by lia. ztest; try (unfold int_max in *; lia).
    + simpl. rewrite wrap64_small by lia. by rewrite IH, <-app_assoc.
    + simpl. by rewrite IH, <-app_assoc.
Qed.

Lemma next_after_ub ids n : n <= next_after ids n ∧ Forall (λ i, i < next_after ids n) ids.
Proof.
  revert n. induction ids as [|i ids IH]; intros n; simpl; [split; [lia|done]|].
  destruct (IH (if n <=? i then i + 1 else n)) as [Hle Hall].
  revert Hle. destruct (Z.leb_spec n i); intros; (split; [lia|constructor; [lia|done]]).
Qed.

Definition fresh_world (disk : option bytes) : world :=
  World [] 1 disk true true true [] (λ _, lit "2026-06-11 10:00:00") [].

(** C2.  [save] followed by the constructor of a new [task_manager] (the next run
    of the program) restores exactly the saved tasks, in order, and an id counter
    above every restored id, when the file can be written and read and every task is
    [savable]: its id is non-negative and below INT_MAX, its priority an int, its
    description without comma, line break or outer blank and shorter than 2^32, its
    deadline one word without white space. *)
Theorem load_save_roundtrip (w w' : world) :
  Forall savable (w_tasks w) → w_can_write w = true → w_can_read w' = true →
  w_disk w' = w_disk (save w).2 →
  let r := task_manager_init w' in
  r.1 = Ret () ∧ w_tasks r.2 = w_tasks w ∧
  Forall (λ t, t_id t < w_next_id r.2) (w_tasks w) ∧ 1 <= w_next_id r.2.
Proof.
  intros Hts Hw Hr Hd.
  assert (w_disk (save w).2 = Some (unlines (save_line <$> w_tasks w))) as Hs.
  { unfold save, logger_log. run_prog. rewrite Hw. by destruct (w_log_open w) eqn:E; simpl; rewrite E. }
  rewrite Hs in Hd.
  assert (Forall (λ l, newline ∉ l) (save_line <$> w_tasks w)) as Hnl.
  { apply Forall_fmap. eapply Forall_impl; [exact Hts|]. apply save_line_no_newline. }
  unfold task_manager_init, load, logger_log. run_prog. simpl.
  rewrite Hd, Hr. simpl. rewrite read_lines_unlines by done.
  rewrite load_lines_save_lines by done. simpl.
  destruct (next_after_ub (t_id <$> w_tasks w) 1) as [Hle Hall].
  apply Forall_fmap in Hall.
  destruct (w_log_open w'); simpl; by split_and!.
Qed.

(** *** The store as a finite map from ids to tasks *)

Definition keyed (ts : list task) : list (Z * task) := (λ t, (t_id t, t)) <$> ts.
Definition abs_store (ts : list task) : gmap Z task := list_to_map (keyed ts).

Lemma keyed_fst ts : (keyed ts).*1 = t_id <$> ts.
Proof. unfold keyed. rewrite <-list_fmap_compose. by apply list_fmap_ext. Qed.

(** Splitting the vector at the task [find_if] stopped at. *)
Lemma find_task_split id ts i t :
  find_task id ts = Some (i, t) →
  t_id t = id ∧ ts !! i = Some t ∧ ts ≡ₚ t :: delete i ts ∧
  ∀ t', <[i:=t']> ts ≡ₚ t' :: delete i ts.
Proof.
  unfold find_task. rewrite list_find_Some. intros (Hi & Hid & _).
  split_and!; [done..|by apply delete_Permutation|].
  intros t'. pose proof (lookup_lt_Some _ _ _ Hi).
  rewrite insert_take_drop by done. rewrite delete_take_drop. by rewrite Permutation_middle.
Qed.

Lemma find_task_none id ts : find_task id ts = None → id ∉ t_id <$> ts.
Proof.
  unfold find_task. rewrite list_find_None, Forall_forall.
  intros Hall (t & -> & Ht)%list_elem_of_fmap. by eapply Hall.
Qed.

Lemma abs_store_perm ts ts' :
  NoDup (t_id <$> ts) → ts ≡ₚ ts' → abs_store ts = abs_store ts'.
Proof.
  intros Hnd Hp. apply list_to_map_proper; [by rewrite keyed_fst|].
  unfold keyed. by rewrite Hp.
Qed.

Lemma abs_store_cons t ts : abs_store (t :: ts) = <[t_id t := t]> (abs_store ts).
Proof. done. Qed.

Lemma abs_store_snoc ts t :
  t_id t ∉ t_id <$> ts → abs_store (ts ++ [t]) = <[t_id t := t]> (abs_store ts).
Proof.
  intros Hn. unfold abs_store, keyed. rewrite fmap_app. simpl.
  apply list_to_map_snoc. by rewrite keyed_fst.
Qed.

Lemma abs_store_lookup_none ts id : id ∉ t_id <$> ts → abs_store ts !! id = None.
Proof. intros. apply not_elem_of_list_to_map_1. by rewrite keyed_fst. Qed.

(** The operations of the store, as a client issues them. *)
Inductive store_op :=
  | OpAdd (description : bytes) (priority : Z) (date : bytes)
  | OpRemove (id : Z)
  | OpUpdate (id : Z) (description : bytes) (priority : Z) (date : bytes).

Definition run_op (op : store_op) : prog world unit :=
  match op with
  | OpAdd d p dt => add d p dt
  | OpRemove id => remove id
  | OpUpdate id d p dt => update id d p dt
  end.
Definition run_ops (w : world) (ops : list store_op) : world :=
  run (λ w op, (run_op op w).2) w ops.

(** The specification: a map and the next id. *)
Definition spec_op (st : gmap Z task * Z) (op : store_op) : gmap Z task * Z :=
  let '(m, n) := st in
  match op with
  | OpAdd d p dt => (<[n := Task n d p dt]> m, n + 1)
  | OpRemove id => (delete id m, n)
  | OpUpdate id d p dt =>
      (if decide (is_Some (m !! id)) then <[id := Task id d p dt]> m else m, n)
  end.

Definition store_ok (w : world) : Prop :=
  NoDup (t_id <$> w_tasks w) ∧
  Forall (λ i, 1 <= i < w_next_id w) (t_id <$> w_tasks w) ∧
  1 <= w_next_id w <= 2 ^ 31.
Definition synced (w : world) : Prop :=
  w_disk w = Some (unlines (save_line <$> w_tasks w)).

Lemma save_effect w :
  w_can_write w = true →
  let w' := (save w).2 in
  w_tasks w' = w_tasks w ∧ w_next_id w' = w_next_id w ∧ w_can_write w' = true ∧ synced w'.
Proof.
  intros Hw. unfold save, logger_log, synced. run_prog. rewrite Hw.
  by destruct (w_log_open w) eqn:E; simpl; rewrite E.
Qed.

Lemma logger_log_frame msg w : ∃ l, logger_log msg w = (Ret (), set_log l w).
Proof.
  unfold logger_log, modify. destruct (w_log_open w); [by eexists|].
  exists (w_log w). by destruct w.
Qed.

Ltac frame_log := match goal with
  | |- context [ logger_log ?m ?w ] =>
      let l := fresh "l" in destruct (logger_log_frame m w) as [l ->]; cbn beta iota
  end.

(** What one operation must establish. *)
Record op_correct (op : store_op) (w : world) (r : outcome unit * world) : Prop := {
  oc_ret : r.1 = Ret ();
  oc_ok : store_ok r.2;
  oc_write : w_can_write r.2 = true;
  oc_synced : synced w → synced r.2;
  oc_spec : (abs_store (w_tasks r.2), w_next_id r.2)
            = spec_op (abs_store (w_tasks w), w_next_id w) op;
  oc_next : w_next_id r.2 <= w_next_id w + 1
}.

Lemma save_ret w : (save w).1 = Ret ().
Proof.
  unfold save, logger_log. run_prog.
  by destruct (w_can_write w); simpl; destruct (w_log_open w).
Qed.

(** Every branch that changes the vector ends in [save]. *)
Lemma op_correct_save op w w1 :
  w_can_write w1 = true → store_ok w1 →
  (abs_store (w_tasks w1), w_next_id w1) = spec_op (abs_store (w_tasks w), w_next_id w) op →
  w_next_id w1 <= w_next_id w + 1 →
  op_correct op w (save w1).
Proof.
  intros Hw Hok Hspec Hnext. destruct (save_effect w1 Hw) as (Ht & Hn & Hc & Hs).
  constructor; rewrite ?Ht, ?Hn; auto using save_ret.
  unfold store_ok in *. by rewrite Ht, Hn.
Qed.

Lemma add_correct d p dt w :
  store_ok w → w_can_write w = true → w_next_id w < 2 ^ 31 →
  op_correct (OpAdd d p dt) w (run_op (OpAdd d p dt) w).
Proof.
  intros (Hnd & Hb & Hr) Hw Hlt. simpl. unfold add. run_prog. frame_log.
  assert (w_next_id w ∉ t_id <$> w_tasks w) as Hfresh.
  { intros Hin. eapply Forall_forall in Hb; [|exact Hin]. lia. }
  assert (wrap64 (w_next_id w + 1) = w_next_id w + 1) as Hwr by (apply wrap64_small; lia).
  assert (sext 32 (w_next_id w) = w_next_id w) as Hsx by (apply sext_small; lia).
  apply op_correct_save; simpl; rewrite ?Hwr, ?Hsx; [done| |by rewrite abs_store_snoc|lia].
  unfold store_ok. simpl. rewrite fmap_app. simpl. split_and!; [..|lia|lia].
  - apply NoDup_app. split_and!; [done| |by apply NoDup_singleton].
    intros x Hx ->%list_elem_of_singleton. done.
  - apply Forall_app. split; [|by constructor; [lia|]].
    eapply Forall_impl; [exact Hb|]. simpl. lia.
Qed.

Lemma not_found_correct op w :
  store_ok w → w_can_write w = true →
  spec_op (abs_store (w_tasks w), w_next_id w) op = (abs_store (w_tasks w), w_next_id w) →
  op_correct op w (task_not_found w).
Proof.
  intros Hok Hw Hs. unfold task_not_found, cout. run_prog. frame_log.
  by constructor; simpl; rewrite ?Hs; try lia.
Qed.

Lemma remove_correct id w :
  store_ok w → w_can_write w = true →
  op_correct (OpRemove id) w (run_op (OpRemove id) w).
Proof.
  intros Hok Hw. pose proof Hok as (Hnd & Hb & Hr). simpl. unfold remove. run_prog.
  destruct (find_task id (w_tasks w)) as [[i t]|] eqn:Hf.
  - apply find_task_split in Hf as (<- & Hi & Hp & _). frame_log.
    assert (t_id t ∉ t_id <$> delete i (w_tasks w)) as Hn.
    { rewrite Hp in Hnd. by apply NoDup_cons in Hnd as [? _]. }
    apply op_correct_save; simpl; [done| | |lia].
    + unfold store_ok. simpl. rewrite Hp in Hnd, Hb.
      apply NoDup_cons in Hnd as [_ Hnd]. by apply Forall_cons in Hb as [_ Hb].
    + f_equal. rewrite (abs_store_perm _ _ Hnd Hp), abs_store_cons.
      by rewrite delete_insert_id by (by apply abs_store_lookup_none).
  - apply not_found_correct; [done..|]. simpl. f_equal.
    by apply delete_id, abs_store_lookup_none, find_task_none.
Qed.

Lemma update_correct id d p dt w :
  store_ok w → w_can_write w = true →
  op_correct (OpUpdate id d p dt) w (run_op (OpUpdate id d p dt) w).
Proof.
  intros Hok Hw. pose proof Hok as (Hnd & Hb & Hr). simpl. unfold update. run_prog.
  destruct (find_task id (w_tasks w)) as [[i t]|] eqn:Hf.
  - apply find_task_split in Hf as (<- & Hi & Hp & Hp'). frame_log.
    specialize (Hp' (Task (t_id t) d p dt)).
    assert ((t_id <$> <[i:=Task (t_id t) d p dt]> (w_tasks w)) = t_id <$> w_tasks w) as Hids.
    { rewrite list_fmap_insert. apply list_insert_id. by rewrite list_lookup_fmap, Hi. }
    apply op_correct_save; simpl; [done| | |lia].
    + unfold store_ok. simpl. by rewrite Hids.
    + f_equal. rewrite (abs_store_perm _ _ Hnd Hp).
      rewrite <-Hids in Hnd. rewrite (abs_store_perm _ _ Hnd Hp').
      rewrite !abs_store_cons. simpl. rewrite decide_True by (by rewrite lookup_insert_eq).
      by rewrite insert_insert_eq.
  - apply not_found_correct; [done..|]. simpl. f_equal.
    apply find_task_none, abs_store_lookup_none in Hf.
    rewrite decide_False; [done|]. rewrite Hf. by intros [? ?].
Qed.

Lemma run_op_correct op w :
  store_ok w → w_can_write w = true → w_next_id w < 2 ^ 31 →
  op_correct op w (run_op op w).
Proof. destruct op; auto using add_correct, remove_correct, update_correct. Qed.

(** C1.  Any sequence of [add], [remove] and [update] calls keeps the ids unique and
    below the counter, keeps [tasks.txt] equal to the printed vector, and acts on
    the vector as the map specification [spec_op] does, as long as the counter
    stays within [int] (the conversion [tsk._id = _next_id ++]). *)
Theorem store_ops_refine_map (w : world) (ops : list store_op) :
  store_ok w → w_can_write w = true → synced w →
  w_next_id w + Z.of_nat (length ops) <= 2 ^ 31 →
  let w' := run_ops w ops in
  store_ok w' ∧ synced w' ∧
  (abs_store (w_tasks w'), w_next_id w')
  = foldl spec_op (abs_store (w_tasks w), w_next_id w) ops.
Proof.
  revert w. induction ops as [|op ops IH]; intros w Hok Hw Hs Hn; [done|].
  cbn [length foldl] in *. change (run_ops w (op :: ops)) with (run_ops (run_op op w).2 ops). destruct (run_op_correct op w Hok Hw ltac:(lia)) as [Hr Hok' Hw' Hs' Hsp Hn'].
  rewrite <-Hsp. apply IH; auto. lia.
Qed.

(** ** [list] and [filter] *)

(** [find] from position 0 answers whether the pattern occurs. *)
Lemma starts_with_spec p s : starts_with p s = true ↔ ∃ r, s = p ++ r.
Proof.
  revert s. induction p as [|a p IH]; intros [|b s]; simpl.
  - split; [by exists []|done].
  - split; [by eexists|done].
  - split; [done|by intros [? ?]].
  - rewrite andb_true_iff, Ascii.eqb_eq, IH. split.
    + intros [-> [r ->]]. by exists r.
    + intros [r [= -> ->]]. split; [done|by exists r].
Qed.

Lemma find_sub_Some p s : is_Some (find_sub p s) ↔ ∃ a r, s = a ++ p ++ r.
Proof.
  induction s as [|c s IH]; simpl.
  - destruct (starts_with p []) eqn:E.
    + apply starts_with_spec in E as [r E]. split; [|by eexists]. intros _. by exists [], r.
    + split; [by intros [? ?]|]. intros (a & r & Hr).
      symmetry in Hr. apply app_eq_nil in Hr as [-> [-> ->]%app_eq_nil]. done.
  - destruct (starts_with p (c :: s)) eqn:E.
    + apply starts_with_spec in E as [r E]. split; [|by eexists]. intros _. by exists [], r.
    + rewrite fmap_is_Some, IH. split.
      * intros (a & r & ->). by exists (c :: a), r.
      * intros ([|b a] & r & Hr); [|injection Hr as -> ->; by eexists _, _].
        assert (starts_with p (c :: s) = true) by (apply starts_with_spec; by exists r).
        congruence.
Qed.

Lemma find_sub_le p s i : find_sub p s = Some i → (i <= length s)%nat.
Proof.
  revert i. induction s as [|c s IH]; intros i; simpl.
  - destruct (starts_with _ _); by intros [= <-].
  - destruct (starts_with _ _); [intros [= <-]; lia|].
    rewrite fmap_Some. intros (j & Hj & ->). apply IH in Hj. lia.
Qed.

Lemma find_str_found s p :
  size s < npos → (find_str s p 0 ≠ npos ↔ ∃ a r, s = a ++ p ++ r).
Proof.
  intros Hs. rewrite <-find_sub_Some. unfold find_str. unfold size in *. ztest; [lia|].
  rewrite drop_0. destruct (find_sub p s) as [i|] eqn:E.
  - apply find_sub_le in E. split; [by eexists|]. intros _. lia.
  - split; [done|by intros [? ?]].
Qed.

(** The condition [filter] documents, in terms of the arguments. *)
Definition matches (args : filter_args) (t : task) : Prop :=
  (f_keyword args = [] ∨ ∃ a r, t_description t = a ++ f_keyword args ++ r) ∧
  (f_priority args = 0 ∨ t_priority t = f_priority args) ∧
  (f_data_st args = [] ∨ f_data_ed args = [] ∨
   (str_leb (f_data_st args) (t_ddl t) = true ∧ str_leb (t_ddl t) (f_data_ed args) = true)).

Definition no_condition (args : filter_args) : bool :=
  bool_decide (f_keyword args = []) && (f_priority args =? 0) &&
  (bool_decide (f_data_st args = []) || bool_decide (f_data_ed args = [])).

Lemma filter_preds_matches args t :
  size (t_description t) < npos →
  forallb (λ p, p t) (filter_preds args) = true ↔ matches args t.
Proof.
  intros Hs. pose proof (find_str_found _ (f_keyword args) Hs) as Hk.
  unfold filter_preds, matches. rewrite !forallb_app, !andb_true_iff.
  f_equiv; [|f_equiv].
  - case_bool_decide as H; simpl; [by split; auto|]. rewrite andb_true_r, negb_true_iff, Z.eqb_neq. tauto.
  - destruct (Z.eqb_spec (f_priority args) 0); simpl; [by split; auto|].
    rewrite andb_true_r, Z.eqb_eq. tauto.
  - do 2 case_bool_decide; simpl; try (by split; auto). rewrite andb_true_r, andb_true_iff. tauto.
Qed.

Lemma filter_preds_nil args : filter_preds args = [] ↔ no_condition args = true.
Proof.
  unfold filter_preds, no_condition.
  do 3 case_bool_decide; destruct (f_priority args =? 0); simpl; split; done.
Qed.

#[export] Instance matches_dec args t : Decision (matches args t).
Proof.
  destruct (decide (size (t_description t) < npos)).
  - destruct (forallb (λ p, p t) (filter_preds args)) eqn:E.
    + left. by apply filter_preds_matches.
    + right. rewrite <-filter_preds_matches by done. congruence.
  - unfold matches.
    assert (∀ p s : bytes, Decision (∃ a r, s = a ++ p ++ r)) as Hd.
    { intros p s. destruct (find_sub p s) eqn:E.
      - left. by apply find_sub_Some; eexists.
      - right. rewrite <-find_sub_Some, E. by intros [? ?]. }
    apply _.
Defined.

(**  [filter] with no condition prints the usage text; otherwise it prints, in
    store order, exactly the tasks that satisfy every given condition. *)
Theorem filter_tasks_spec (args : filter_args) (w : world) :
  Forall (λ t, size (t_description t) < npos) (w_tasks w) →
  filter_tasks args w =
    (Ret (), set_out (w_out w ++
       if no_condition args
       then lit "Usage: filter -k <keyword> -p <priority>" ++ lit "-d <date_begin> <date_end>" ++ endl
       else print_tasks (filter (matches args) (w_tasks w))) w).
Proof.
  intros Hsz. unfold filter_tasks. run_prog.
  destruct (no_condition args) eqn:E.
  - apply filter_preds_nil in E. by rewrite E.
  - destruct (filter_preds args) as [|p ps] eqn:Ep.
    { apply filter_preds_nil in Ep. congruence. }
    rewrite <-Ep. unfold cout, modify. do 4 f_equal.
    induction Hsz as [|t ts Ht Hts IH]; [done|]. rewrite !filter_cons.
    pose proof (filter_preds_matches args t Ht).
    do 2 case_decide; rewrite ?IH; tauto.
Qed.

(**  [list 1] and [list 2] print a permutation of the tasks in which no task is
    followed by one with a smaller priority (an earlier deadline), whatever
    order [std::sort] gives to equivalent tasks; any other option prints the
    store order; the store itself is untouched. *)
Theorem list_tasks_sorted `{StdSort} (option : Z) (w : world) :
  ∃ ts, ts ≡ₚ w_tasks w ∧
    list_tasks option w = (Ret (), set_out (w_out w ++ print_tasks ts) w) ∧
    (option = 1 → StronglySorted (λ a b, t_priority a <= t_priority b) ts) ∧
    (option = 2 → StronglySorted (λ a b, str_leb (t_ddl a) (t_ddl b) = true) ts) ∧
    (option ≠ 1 → option ≠ 2 → ts = w_tasks w).
Proof.
  pose proof (std_sort_sorted _ (w_tasks w) cmp_by_priority_strict_weak) as S1.
  pose proof (std_sort_sorted _ (w_tasks w) cmp_by_date_strict_weak) as S2.
  pose proof (std_sort_perm _ (w_tasks w) cmp_by_priority_strict_weak) as P1.
  pose proof (std_sort_perm _ (w_tasks w) cmp_by_date_strict_weak) as P2.
  exists (if option =? 1 then std_sort cmp_by_priority (w_tasks w)
          else if option =? 2 then std_sort cmp_by_date (w_tasks w) else w_tasks w).
  split_and!; [by ztest|done|intros ->; simpl; clear -S1|intros ->; simpl; clear -S2|].
  - induction S1 as [|a l Hl IH Ha]; constructor; [done|].
    eapply Forall_impl; [exact Ha|]. unfold cmp_by_priority. intros b Hb. simpl in Hb. lia.
  - induction S2 as [|a l Hl IH Ha]; constructor; [done|].
    eapply Forall_impl; [exact Ha|]. unfold cmp_by_date, str_leb. intros b Hb. by rewrite Hb.
  - intros. ztest; congruence.
Qed.

(** ** Witnesses *)

Definition milk : task := Task 1 (lit "buy milk") 2 (lit "2026-07-01").
Definition rent : task := Task 2 (lit "pay rent") 1 (lit "2026-06-30").
Definition two_tasks : world :=
  World [milk; rent] 3 (Some (unlines (save_line <$> [milk; rent]))) true true true []
        (λ _, lit "2026-06-11 10:00:00") [].

Lemma two_tasks_savable : Forall savable (w_tasks two_tasks).
Proof.
  repeat constructor; simpl; try lia; try done; try (by apply (bool_decide_unpack _));
    by intros c [= <-].
Qed.

Lemma two_tasks_ok : store_ok two_tasks.
Proof.
  split_and!; [by apply (bool_decide_unpack _)| |done..]. repeat constructor; simpl; lia.
Qed.

Lemma load_save_roundtrip_witness :
  w_tasks (task_manager_init (fresh_world (w_disk (save two_tasks).2))).2 = [milk; rent].
Proof.
  exact (proj1 (proj2 (load_save_roundtrip two_tasks
    (fresh_world (w_disk (save two_tasks).2)) two_tasks_savable eq_refl eq_refl eq_refl))).
Defined.

Lemma store_ops_refine_map_witness :
  synced (run_ops two_tasks [OpAdd (lit "sleep") 3 (lit "2026-07-02"); OpRemove 1]).
Proof.
  exact (proj1 (proj2 (store_ops_refine_map two_tasks
    [OpAdd (lit "sleep") 3 (lit "2026-07-02"); OpRemove 1] two_tasks_ok eq_refl eq_refl
    ltac:(simpl; lia)))).
Defined.

Lemma filter_tasks_spec_witness :
  filter_tasks (FilterArgs (lit "rent") 0 [] []) two_tasks =
  (Ret (), set_out (print_tasks [rent]) two_tasks).
Proof.
  rewrite (filter_tasks_spec (FilterArgs (lit "rent") 0 [] []) two_tasks
             ltac:(repeat constructor)).
  by vm_compute.
Defined.
