(* ===== verification/TaskCommands.v ===== *)
(** * The commands and the main loop of [task_management_sys]

    [command.h], [command.cpp], [command_registry.cpp] and [main.cpp]: the five
    command classes behind the type-erased [wapper_command], the registry that
    [REGISTER_COMMAND] fills, and the read-eval loop over standard input. *)

From stdpp Require Import base gmap sets list strings.
From Stdlib Require Import Ascii ZArith Lia.
From S2P Require Import Prelude CxxString TaskStore.

Local Open Scope Z_scope.

(** ** The commands *)

Definition comma : ascii := ",".

(** [catch] clauses for [std::invalid_argument] and [std::out_of_range]. *)
Definition catch_stoi (on_invalid on_range : prog world unit) (e : exn) :
    option (prog world unit) :=
  match e with
  | InvalidArgument => Some on_invalid
  | OutOfRange => Some on_range
  | _ => None
  end.

(** [add_command::exec_impl] *)
Definition add_exec_impl (args : bytes) : prog world unit :=
  let pos1 := find_char args comma 0 in
  let pos2 := find_char args comma (wrap64 (pos1 + 1)) in
  if (pos1 =? npos) || (pos2 =? npos) then
    cout (lit "Incorrect parameter format. "
          ++ lit "Please use: add <description>, <priority>, <deadline>" ++ endl)
  else if pos1 =? 0 then cout (lit "Description cannot be empty." ++ endl)
  else
    description ← lift (substr args 0 pos1);
    priority_str ← lift (substr args (wrap64 (pos1 + 1)) (wrap64 (pos2 - pos1 - 1)));
    deadline ← lift (substr args (wrap64 (pos2 + 1)) npos);
    description ← lift (trim_blank description);
    deadline ← lift (trim_blank deadline);
    match stoi priority_str with
    | Ret (priority, _) =>
        add description priority deadline;;
        cout (lit "Successfully add task." ++ endl)
    | Throw InvalidArgument => cout (lit "Priority must be a number (1/2/3)." ++ endl)
    | Throw OutOfRange => cout (lit "Priority out of range." ++ endl)
    | Throw e => throw e
    | Undef => lift Undef
    end.

Definition del_usage : bytes :=
  lit "Incorrect parameter format. Please use: delete <ID>" ++ endl.
Definition id_range_msg : bytes := lit "ID was our of range. Please use valid task ID.".

(** [del_command::exec_impl] *)
Definition del_exec_impl (args : bytes) : prog world unit :=
  try_catch
    (r ← lift (stoi args);
     let '(id, idx) := r in
     if negb (idx =? size args) then cout del_usage
     else remove id;;
          cout (lit "Successfully delete task " ++ show_int id ++ lit "." ++ endl))
    (catch_stoi (cout del_usage) (cout id_range_msg)).

(** [ls_command::exec_impl] *)
Definition ls_exec_impl `{StdSort} (args : bytes) : prog world unit :=
  option ← (if bool_decide (args = []) then mret 0
            else r ← lift (stoi args); mret r.1);
  list_tasks option.

(** [update_command::exec_impl] *)
Definition update_exec_impl (args : bytes) : prog world unit :=
  let pos_description := find_char args comma 0 in
  let pos_priority := find_char args comma (wrap64 (pos_description + 1)) in
  let pos_ddl := find_char args comma (wrap64 (pos_priority + 1)) in
  if (pos_description =? npos) || (pos_priority =? npos) || (pos_ddl =? npos) then
    cout (lit "Incorrect parameter format. Please use: update <ID>,"
          ++ lit " <DESCRIPTION>, <PRIORITY>, <DEADLINE>" ++ endl)
  else
    let body : prog world bool :=
      s ← lift (substr args 0 pos_description);
      id ← lift (stoi s);
      description ← lift (substr args (wrap64 (pos_description + 1))
                                 (wrap64 (pos_priority - pos_description - 1)));
      s ← lift (substr args (wrap64 (pos_priority + 1))
                       (wrap64 (pos_ddl - pos_priority - 1)));
      priority ← lift (stoi s);
      ddl ← lift (substr args (wrap64 (pos_ddl + 1)) npos);
      update id.1 description priority.1 ddl;;
      mret true in
    done ← try_catch body (λ e, match e with
                                | InvalidArgument => Some (cout del_usage;; mret false)
                                | OutOfRange => Some (cout id_range_msg;; mret false)
                                | _ => None
                                end);
    if (done : bool) then cout (lit "Successfully update task." ++ endl) else mret ().

(** [while (iss >> token) tokens.push_back(token)] *)
Fixpoint tokens_loop (fuel : nat) (i : istream) : list bytes :=
  match fuel with
  | O => []
  | S fuel' =>
      let '(tok, i') := read_word i [] in
      if is_fail i' then [] else tok :: tokens_loop fuel' i'
  end.
Definition tokenize (args : bytes) : list bytes :=
  tokens_loop (S (length args)) (istringstream args).

(** The option scan.  [inr] carries the message of the early return. *)
Fixpoint scan_options (toks : list bytes) (f : filter_args) :
    outcome (filter_args + bytes) :=
  match toks with
  | [] => Ret (inl f)
  | t :: rest =>
      if bool_decide (t = lit "-k") && negb (bool_decide (rest = [])) then
        match rest with
        | v :: rest' =>
            scan_options rest' (FilterArgs v (f_priority f) (f_data_st f) (f_data_ed f))
        | [] => Ret (inl f)
        end
      else if bool_decide (t = lit "-p") && (2 <=? length rest)%nat then
        match rest with
        | v :: rest' =>
            match stoi v with
            | Ret (p, _) =>
                scan_options rest' (FilterArgs (f_keyword f) p (f_data_st f) (f_data_ed f))
            | Throw InvalidArgument =>
                Ret (inr (lit "Incorrect parameter format. Please use: filter -k <keyword> -p <proirity> -d <start> <end>" ++ endl))
            | Throw e => Throw e
            | Undef => Undef
            end
        | [] => Ret (inl f)
        end
      else if bool_decide (t = lit "-d") && (2 <=? length rest)%nat then
        match rest with
        | a :: b :: rest' =>
            scan_options rest' (FilterArgs (f_keyword f) (f_priority f) a b)
        | _ => Ret (inl f)
        end
      else scan_options rest f
  end.

(** [filter_command::exec_impl] *)
Definition filter_exec_impl (args : bytes) : prog world unit :=
  r ← lift (scan_options (tokenize args) no_filter);
  match r with
  | inl f => filter_tasks f
  | inr msg => cout msg
  end.

(** ** Registry and type erasure *)

(** The classes a [wapper_command] can hold. *)
Inductive command := AddCommand | DelCommand | UpdateCommand | LsCommand | FilterCommand.

#[export] Instance command_eq_dec : EqDecision command.
Proof. solve_decision. Defined.

(** [wapper_command::exec], through [model<T>::exec] and [command<Derived>::exec] *)
Definition exec `{StdSort} (c : command) (args : bytes) : prog world unit :=
  match c with
  | AddCommand => add_exec_impl args
  | DelCommand => del_exec_impl args
  | UpdateCommand => update_exec_impl args
  | LsCommand => ls_exec_impl args
  | FilterCommand => filter_exec_impl args
  end.

(** [command_registry::register_command] overwrites, like [operator[]=]. *)
Definition register_command (name : bytes) (c : command) (reg : gmap bytes command) :
    gmap bytes command := <[name := c]> reg.

(** The [REGISTER_COMMAND] lines, run before [main]. *)
Definition registry : gmap bytes command :=
  foldl (λ reg '(name, c), register_command name c reg) ∅
    [(lit "add", AddCommand); (lit "delete", DelCommand); (lit "update", UpdateCommand);
     (lit "ls", LsCommand); (lit "filter", FilterCommand)].

(** [command_registry::create] *)
Definition create (name : bytes) : outcome command :=
  match registry !! name with
  | Some c => Ret c
  | None => Throw (RuntimeError (lit "Unknown command: " ++ name))
  end.

(** ** [main] *)

(** One pass of the [while(true)] body after the [getline]; [false] is the [break]. *)
Definition main_line `{StdSort} (input : bytes) : prog world bool :=
  if bool_decide (input = []) then mret true
  else
    let space_pos := find_char input " " 0 in
    cmd ← lift (substr input 0 space_pos);
    args ← (if space_pos =? npos then mret [] else lift (substr input (wrap64 (space_pos + 1)) npos));
    if bool_decide (cmd = lit "exit") then
      cout (lit "Exiting program..." ++ endl);; mret false
    else
      try_catch (c ← lift (create cmd); exec c args;; mret true)
        (λ e, match e with
              | RuntimeError _ => Some (cout (lit "Unknown command: " ++ cmd ++ endl);; mret true)
              | _ => None
              end).

(** The loop, [fuel] passes of it; [true] when it left by [break].  [std::cin] and
    the variable [input] persist between passes. *)
Fixpoint main_loop `{StdSort} (fuel : nat) (cin : istream) (input : bytes) : prog world bool :=
  match fuel with
  | O => mret false
  | S fuel' =>
      let '(input, cin) := getline newline cin input in
      go ← main_line input;
      if (go : bool) then main_loop fuel' cin input else mret true
  end.

(** [logger::logger] throws when [log.txt] cannot be opened. *)
Definition logger_instance (can_open : bool) : prog world unit :=
  if can_open then
    modify (λ w, World (w_tasks w) (w_next_id w) (w_disk w) (w_can_read w) (w_can_write w)
                       true (w_log w) (w_clock w) (w_out w))
  else throw (RuntimeError (lit "Failed to open log file.")).

(** [main] *)
Definition main `{StdSort} (can_open_log : bool) (fuel : nat) (stdin : bytes) : prog world bool :=
  logger_instance can_open_log;;
  logger_log (lit "JY");;
  task_manager_init;;
  cout (lit "Welcome! Please input commands: " ++ endl);;
  main_loop fuel (istringstream stdin) [].

(** ** The argument formats *)

Definition add_usage : bytes :=
  lit "Incorrect parameter format. "
  ++ lit "Please use: add <description>, <priority>, <deadline>" ++ endl.

(** [add d,p,dl]: split at the first two commas. *)
Definition add_reference (args : bytes) : prog world unit :=
  match span_until comma args with
  | (_, None) => cout add_usage
  | (d, Some r) =>
      match span_until comma r with
      | (_, None) => cout add_usage
      | (p, Some dl) =>
          if bool_decide (d = []) then cout (lit "Description cannot be empty." ++ endl)
          else match stoi p with
               | Ret (z, _) =>
                   add (trim d) z (trim dl);; cout (lit "Successfully add task." ++ endl)
               | Throw InvalidArgument =>
                   cout (lit "Priority must be a number (1/2/3)." ++ endl)
               | _ => cout (lit "Priority out of range." ++ endl)
               end
      end
  end.

Lemma stoi_cases s :
  (∃ v i, stoi s = Ret (v, i) ∧ is_int v = true) ∨
  stoi s = Throw InvalidArgument ∨ stoi s = Throw OutOfRange.
Proof.
  unfold stoi. destruct (scan_int _) as [[v|] r]; [|by right; left].
  destruct (is_int v) eqn:E; [left; by eexists _, _|by right; right].
Qed.

Lemma size_app a b : size (a ++ b) = size a + size b.
Proof. unfold size. rewrite length_app. lia. Qed.
Lemma size_cons c s : size (c :: s) = 1 + size s.
Proof. unfold size. simpl. lia. Qed.
Lemma size_nonneg s : 0 <= size s.
Proof. unfold size. lia. Qed.
Lemma size_nil_iff s : size s = 0 ↔ s = [].
Proof. unfold size. destruct s; simpl; split; (lia || done). Qed.

(** The position found in [d ++ c :: r] and the one after it. *)
Lemma find_char_second d c p r :
  c ∉ p → size (d ++ c :: p ++ r) < 2 ^ 63 →
  find_char (d ++ c :: p ++ c :: r) c (size d + 1) = size d + 1 + size p.
Proof.
  intros Hp Hs. replace (size d + 1) with (size (d ++ [c])) by (rewrite size_app; done).
  replace (d ++ c :: p ++ c :: r) with ((d ++ [c]) ++ p ++ c :: r) by (by rewrite <-app_assoc).
  by apply find_char_app.
Qed.

(**  [add_command]'s position arithmetic (with [npos + 1 = 0]) splits at the first
    two commas: every argument string behaves as the structural split says,
    rejections included. *)
Theorem add_exec_impl_reference (args : bytes) (w : world) :
  size args < 2 ^ 63 → add_exec_impl args w = add_reference args w.
Proof.
  intros Hs. unfold add_exec_impl, add_reference.
  pose proof (span_until_spec comma args) as H1.
  destruct (span_until comma args) as [d [r|]]; destruct H1 as [-> Hd]; cycle 1.
  { pose proof (find_char_none [] d comma Hd) as E. simpl in E.
    change (size []) with 0 in E. by rewrite E. }
  pose proof (find_char_app [] d comma r Hd) as E1. simpl in E1.
  change (size []) with 0 in E1. rewrite E1, Z.add_0_l.
  rewrite size_app, size_cons in Hs. pose proof (size_nonneg d). pose proof (size_nonneg r).
  rewrite wrap64_small by lia.
  pose proof (span_until_spec comma r) as H2.
  assert (size (d ++ [comma]) = size d + 1) as Hdc by (rewrite size_app; done).
  destruct (span_until comma r) as [p [dl|]]; destruct H2 as [-> Hp]; cycle 1.
  { pose proof (find_char_none (d ++ [comma]) p comma Hp) as E2.
    rewrite <-app_assoc, Hdc in E2. simpl in E2. by rewrite E2, orb_true_r. }
  rewrite size_app, size_cons in Hs. pose proof (size_nonneg p). pose proof (size_nonneg dl).
  rewrite find_char_second by (rewrite ?size_app, ?size_cons, ?size_app; lia || done).
  unfold npos, size_max in *. ztest; try lia; simpl.
  - assert (d = []) as -> by (by apply size_nil_iff). done.
  - rewrite bool_decide_false by (by intros ->). run_prog.
    pose proof (substr_app [] d (comma :: p ++ comma :: dl)) as S1. simpl in S1.
    change (size []) with 0 in S1. rewrite S1.
    replace (wrap64 (size d + 1 + size p - size d - 1)) with (size p)
      by (rewrite wrap64_small; lia).
    pose proof (substr_app (d ++ [comma]) p (comma :: dl)) as S2.
    rewrite <-app_assoc, Hdc in S2. simpl in S2. rewrite S2.
    pose proof (substr_tail ((d ++ [comma]) ++ p ++ [comma]) dl) as S3.
    rewrite !size_app in S3. change (size [comma]) with 1 in S3.
    rewrite (wrap64_small (size d + 1 + size p + 1)) by lia.
    rewrite <-!app_assoc, Z.add_assoc in S3. unfold npos, size_max in S3.
    cbn [app] in S3. rewrite S3 by lia.
    rewrite !trim_blank_spec by (unfold npos, size_max; lia).
    destruct (stoi_cases p) as [(v & i & -> & _)|[->| ->]]; done.
Qed.

(** ** The main loop *)

Definition unknown_handler (cmd : bytes) (e : exn) : option (prog world bool) :=
  match e with
  | RuntimeError _ => Some (cout (lit "Unknown command: " ++ cmd ++ endl);; mret true)
  | _ => None
  end.

(** A line splits at its first space into the command word and its arguments. *)
Lemma main_line_split `{StdSort} c args w :
  " "%char ∉ c → c ≠ lit "exit" → size args < 2 ^ 62 → size c < 2 ^ 62 →
  main_line (c ++ " "%char :: args) w =
  try_catch (cm ← lift (create c); exec cm args;; mret true) (unknown_handler c) w.
Proof.
  intros Hc Hne Ha Hcs. unfold main_line.
  rewrite bool_decide_false by (by destruct c).
  pose proof (find_char_app [] c " " args Hc) as E. simpl in E. change (size []) with 0 in E.
  rewrite E, Z.add_0_l. pose proof (size_nonneg c).
  pose proof (substr_app [] c (" "%char :: args)) as S1. simpl in S1. change (size []) with 0 in S1.
  rewrite S1. unfold npos, size_max. destruct (Z.eqb_spec (size c) (2 ^ 64 - 1)); [lia|].
  rewrite wrap64_small by lia.
  pose proof (substr_tail (c ++ [" "%char]) args) as S2. rewrite size_app, <-app_assoc in S2.
  change (size [" "%char]) with 1 in S2. simpl in S2. unfold npos, size_max in S2.
  rewrite S2 by lia. unfold mbind at 1, prog_bind at 1, lift at 1.
  unfold mbind at 1, prog_bind at 1, lift at 1. by rewrite bool_decide_false.
Qed.

Lemma add_exec_impl_ret args w :
  size args < 2 ^ 63 → (add_exec_impl args w).1 = Ret ().
Proof.
  intros Hs. rewrite add_exec_impl_reference by done. unfold add_reference.
  destruct (span_until comma args) as [d [r|]]; [|done].
  destruct (span_until comma r) as [p [dl|]]; [|done].
  case_bool_decide; [done|].
  destruct (stoi_cases p) as [(v & i & -> & _)|[->| ->]]; [|done..].
  unfold add. run_prog. frame_log. destruct (save _) as [o w'] eqn:E.
  pose proof (f_equal fst E) as E1. rewrite save_ret in E1. by simpl in E1; subst o.
Qed.

(** One pass over an [add] line runs the command once and goes on. *)
Lemma main_line_add `{StdSort} args w :
  size args < 2 ^ 62 →
  main_line (lit "add " ++ args) w = (Ret true, (add_exec_impl args w).2).
Proof.
  intros Ha. change (lit "add " ++ args) with (lit "add" ++ " "%char :: args).
  rewrite main_line_split; [|by apply (bool_decide_unpack _)|done|done|done].
  assert (create (lit "add") = Ret AddCommand) as -> by (by vm_compute).
  run_prog. simpl exec. pose proof (add_exec_impl_ret args w ltac:(lia)) as Hr.
  destruct (add_exec_impl args w) as [o w']. simpl in *. by subst o.
Qed.

(**  When standard input ends without a final newline, [std::getline] leaves the
    last line in [input] for good: the loop runs that command again on every
    pass and never leaves. *)
Theorem unterminated_last_line_repeats `{StdSort} (args : bytes) (n : nat) (w : world) :
  newline ∉ args → size args < 2 ^ 62 →
  main_loop n (istringstream (lit "add " ++ args)) [] w
  = (Ret false, Nat.iter n (λ w, (add_exec_impl args w).2) w).
Proof.
  intros Hnl Hs.
  assert (newline ∉ lit "add " ++ args) as Hnl'.
  { apply not_elem_of_app. split; [by apply (bool_decide_unpack _)|done]. }
  assert (∀ n w, main_loop n (IStream [] true true) (lit "add " ++ args) w
          = (Ret false, Nat.iter n (λ w, (add_exec_impl args w).2) w)) as Hspin.
  { clear w. intros m. induction m as [|m IH]; intros w; [done|].
    cbn [main_loop]. unfold getline. cbn [is_good is_fail is_eof is_rest negb andb].
    run_prog. rewrite main_line_add by done. by rewrite IH, Nat.iter_succ_r. }
  destruct n as [|n]; [done|]. cbn [main_loop].
  assert (getline newline (istringstream (lit "add " ++ args)) []
          = (lit "add " ++ args, IStream [] false true)) as ->.
  { unfold getline, istringstream. cbn [is_good is_fail is_eof is_rest negb andb].
    change (lit "add " ++ args) with ("a"%char :: lit "dd " ++ args) at 1.
    cbn iota. change ("a"%char :: lit "dd " ++ args) with (lit "add " ++ args).
    by rewrite span_until_none. }
  run_prog. rewrite main_line_add by done. rewrite Nat.iter_succ_r.
  destruct n as [|n]; [done|]. cbn [main_loop]. unfold getline at 1.
  cbn [is_good is_fail is_eof is_rest negb andb].
  run_prog. rewrite main_line_add by done. by rewrite Hspin, Nat.iter_succ_r.
Qed.

Lemma create_ls : create (lit "ls") = Ret LsCommand.
Proof. by vm_compute. Qed.

(**  [ls_command] passes its argument to [std::stoi] without a [try]: a bad
    option escapes [main]'s [catch (std::runtime_error&)] and ends the program,
    whatever input follows. *)
Theorem ls_bad_option_terminates `{StdSort} (args rest : bytes) (n : nat) (w : world) (e : exn) :
  newline ∉ args → args ≠ [] → size args < 2 ^ 62 → stoi args = Throw e →
  main_loop (S n) (istringstream (lit "ls " ++ args ++ newline :: rest)) [] w = (Throw e, w).
Proof.
  intros Hnl Hne Hs He. cbn [main_loop]. rewrite app_assoc.
  assert (newline ∉ lit "ls " ++ args) as Hnl'.
  { apply not_elem_of_app. split; [by apply (bool_decide_unpack _)|done]. }
  rewrite getline_app by done. run_prog.
  change (lit "ls " ++ args) with (lit "ls" ++ " "%char :: args).
  rewrite main_line_split; [|by apply (bool_decide_unpack _)|done|done|done].
  rewrite create_ls. run_prog. simpl exec. unfold ls_exec_impl.
  rewrite bool_decide_false by done. run_prog. rewrite He.
  by destruct (stoi_cases args) as [(v & i & E & _)|[E|E]]; rewrite E in He; simplify_eq.
Qed.

(** ** Witnesses *)

Lemma add_exec_impl_reference_witness :
  (add_exec_impl (lit "buy milk, 2, 2026-07-01") (fresh_world None)).2
  = (add_reference (lit "buy milk, 2, 2026-07-01") (fresh_world None)).2.
Proof.
  by rewrite (add_exec_impl_reference (lit "buy milk, 2, 2026-07-01") (fresh_world None)
                eq_refl).
Defined.

(** Three passes over one unterminated line make three tasks. *)
Lemma unterminated_last_line_repeats_witness :
  length (w_tasks (main_loop 3 (istringstream (lit "add milk,1,2026-07-01")) []
                     (fresh_world None)).2) = 3%nat.
Proof.
  change (lit "add milk,1,2026-07-01") with (lit "add " ++ lit "milk,1,2026-07-01").
  rewrite (unterminated_last_line_repeats (lit "milk,1,2026-07-01") 3 (fresh_world None)
             ltac:(by apply (bool_decide_unpack _)) eq_refl).
  by vm_compute.
Defined.

Lemma ls_bad_option_terminates_witness :
  (main_loop 5 (istringstream (lit "ls all" ++ newline :: lit "add x,1,d")) []
     (fresh_world None)).1 = Throw InvalidArgument.
Proof.
  change (lit "ls all" ++ newline :: lit "add x,1,d")
    with (lit "ls " ++ lit "all" ++ newline :: lit "add x,1,d").
  rewrite (ls_bad_option_terminates (lit "all") (lit "add x,1,d") 4 (fresh_world None)
             InvalidArgument ltac:(by apply (bool_decide_unpack _)) ltac:(done) eq_refl
             ltac:(by vm_compute)).
  done.
Defined.
