(* ===== verification/SortedAssoc.v ===== *)
(** * Sorted association lists: what the tree maps promise

    The abstract specification of [bst_map::map] and [avl_map::map]: the
    in-order contents of a tree is a list sorted by key, and the operations act on
    it as the three functions below. *)

From stdpp Require Import base list sorting.
From S2P Require Import Prelude.

Section sorted_assoc.
Context {K V : Type} `{KeyOrder K}.
Implicit Types (l r : list (K * V)) (k : K) (v : V).

Definition key_lt (p q : K * V) : Prop := klt p.1 q.1 = true.
Definition ssorted l : Prop := StronglySorted key_lt l.

Fixpoint sl_lookup k l : option V :=
  match l with
  | [] => None
  | (k', v') :: l' =>
      if klt k k' then None else if klt k' k then sl_lookup k l' else Some v'
  end.

Fixpoint sl_insert k v l : list (K * V) :=
  match l with
  | [] => [(k, v)]
  | (k', v') :: l' =>
      if klt k k' then (k, v) :: l
      else if klt k' k then (k', v') :: sl_insert k v l' else (k, v) :: l'
  end.

Fixpoint sl_remove k l : list (K * V) :=
  match l with
  | [] => []
  | (k', v') :: l' =>
      if klt k k' then l
      else if klt k' k then (k', v') :: sl_remove k l' else l'
  end.

(** *** Elements on either side of a key *)

Definition below k l : Prop := Forall (λ p, klt p.1 k = true) l.
Definition above k l : Prop := Forall (λ p, klt k p.1 = true) l.

Lemma ssorted_mid l k v r :
  ssorted (l ++ (k, v) :: r) ↔ ssorted l ∧ ssorted r ∧ below k l ∧ above k r.
Proof.
  unfold ssorted, below, above, key_lt.
  rewrite StronglySorted_app, StronglySorted_cons, !Forall_forall. simpl.
  split; [intros (Hlr & Hl & Hr & Hs)|intros (Hl & Hs & Hbl & Hr)]; split_and!; auto.
  - intros p Hp. apply (Hlr p (k, v)); [done|by left].
  - intros p q Hp Hq. apply list_elem_of_In in Hq as [<-|Hq%list_elem_of_In]; [by apply Hbl|].
    eapply klt_trans; [by apply Hbl|by apply Hr].
Qed.

Lemma below_weaken k k' l : klt k k' = true → below k l → below k' l.
Proof. intros Hk Hl. eapply Forall_impl; [exact Hl|]. intros p Hp. exact (klt_trans _ _ _ Hp Hk). Qed.
Lemma above_weaken k k' l : klt k' k = true → above k l → above k' l.
Proof. intros Hk Hl. eapply Forall_impl; [exact Hl|]. intros p Hp. exact (klt_trans _ _ _ Hk Hp). Qed.

(** *** Operations at a split point *)

Lemma sl_lookup_below k l r : below k l → sl_lookup k (l ++ r) = sl_lookup k r.
Proof.
  induction 1 as [|[k' v'] l Hk Hl IH]; simpl in *; [done|].
  by rewrite (klt_asym _ _ Hk), Hk.
Qed.
Lemma sl_insert_below k v l r : below k l → sl_insert k v (l ++ r) = l ++ sl_insert k v r.
Proof.
  induction 1 as [|[k' v'] l Hk Hl IH]; simpl in *; [done|].
  by rewrite (klt_asym _ _ Hk), Hk, IH.
Qed.
Lemma sl_remove_below k l r : below k l → sl_remove k (l ++ r) = l ++ sl_remove k r.
Proof.
  induction 1 as [|[k' v'] l Hk Hl IH]; simpl in *; [done|].
  by rewrite (klt_asym _ _ Hk), Hk, IH.
Qed.

Lemma sl_lookup_before k l k' v' r :
  klt k k' = true → sl_lookup k (l ++ (k', v') :: r) = sl_lookup k l.
Proof.
  intros Hk. induction l as [|[k0 v0] l IH]; simpl; [by rewrite Hk|].
  by rewrite IH.
Qed.
Lemma sl_insert_before k v l k' v' r :
  klt k k' = true → sl_insert k v (l ++ (k', v') :: r) = sl_insert k v l ++ (k', v') :: r.
Proof.
  intros Hk. induction l as [|[k0 v0] l IH]; simpl; [by rewrite Hk|].
  rewrite IH. by destruct (klt k k0), (klt k0 k).
Qed.
Lemma sl_remove_before k l k' v' r :
  klt k k' = true → sl_remove k (l ++ (k', v') :: r) = sl_remove k l ++ (k', v') :: r.
Proof.
  intros Hk. induction l as [|[k0 v0] l IH]; simpl; [by rewrite Hk|].
  rewrite IH. by destruct (klt k k0), (klt k0 k).
Qed.

Lemma sl_lookup_after k l k' v' r :
  klt k' k = true → below k' l → sl_lookup k (l ++ (k', v') :: r) = sl_lookup k r.
Proof.
  intros Hk Hl. rewrite sl_lookup_below by eauto using below_weaken. simpl.
  by rewrite (klt_asym _ _ Hk), Hk.
Qed.
Lemma sl_insert_after k v l k' v' r :
  klt k' k = true → below k' l →
  sl_insert k v (l ++ (k', v') :: r) = l ++ (k', v') :: sl_insert k v r.
Proof.
  intros Hk Hl. rewrite sl_insert_below by eauto using below_weaken. simpl.
  by rewrite (klt_asym _ _ Hk), Hk.
Qed.
Lemma sl_remove_after k l k' v' r :
  klt k' k = true → below k' l →
  sl_remove k (l ++ (k', v') :: r) = l ++ (k', v') :: sl_remove k r.
Proof.
  intros Hk Hl. rewrite sl_remove_below by eauto using below_weaken. simpl.
  by rewrite (klt_asym _ _ Hk), Hk.
Qed.

Lemma sl_lookup_at k l v r : below k l → sl_lookup k (l ++ (k, v) :: r) = Some v.
Proof. intros Hl. rewrite sl_lookup_below by done. simpl. by rewrite !klt_irrefl. Qed.
Lemma sl_insert_at k v' l v r :
  below k l → sl_insert k v' (l ++ (k, v) :: r) = l ++ (k, v') :: r.
Proof. intros Hl. rewrite sl_insert_below by done. simpl. by rewrite !klt_irrefl. Qed.
Lemma sl_remove_at k l v r : below k l → sl_remove k (l ++ (k, v) :: r) = l ++ r.
Proof. intros Hl. rewrite sl_remove_below by done. simpl. by rewrite !klt_irrefl. Qed.

Lemma sl_remove_head k v r : sl_remove k ((k, v) :: r) = r.
Proof. simpl. by rewrite klt_irrefl. Qed.

(** *** The laws of a map *)

Lemma sl_insert_elem k v l p : p ∈ sl_insert k v l → p = (k, v) ∨ p ∈ l.
Proof.
  induction l as [|[k' v'] l IH]; simpl.
  - intros ->%list_elem_of_singleton. by left.
  - destruct (klt k k'), (klt k' k); rewrite !elem_of_cons; intuition.
Qed.
Lemma sl_remove_elem k l p : p ∈ sl_remove k l → p ∈ l.
Proof.
  induction l as [|[k' v'] l IH]; simpl; [done|].
  destruct (klt k k'), (klt k' k); rewrite ?elem_of_cons; intuition.
Qed.

Lemma sl_insert_sorted k v l : ssorted l → ssorted (sl_insert k v l).
Proof.
  induction 1 as [|[k' v'] l Hl IH Hall]; simpl; [by repeat constructor|].
  key_compare k k'.
  - constructor; [by constructor|]. constructor; [done|].
    eapply Forall_impl; [exact Hall|]. intros p Hp. eapply klt_trans; [exact Hlt|exact Hp].
  - constructor; [done|]. apply Forall_forall. intros p [->|Hp]%sl_insert_elem; [done|].
    by eapply Forall_forall in Hall.
  - constructor; done.
Qed.

Lemma sl_remove_sorted k l : ssorted l → ssorted (sl_remove k l).
Proof.
  induction 1 as [|[k' v'] l Hl IH Hall]; simpl; [constructor|].
  key_compare k k'; [by constructor| |done].
  constructor; [done|]. apply Forall_forall. intros p Hp%sl_remove_elem.
  by eapply Forall_forall in Hall.
Qed.

Lemma sl_lookup_above k l : above k l → sl_lookup k l = None.
Proof. destruct 1 as [|[k' v'] l Hk]; simpl in *; [done|]. by rewrite Hk. Qed.

Lemma sl_lookup_insert k v l k' :
  sl_lookup k' (sl_insert k v l) = if decide (k' = k) then Some v else sl_lookup k' l.
Proof.
  induction l as [|[k0 v0] l IH]; simpl.
  - key_compare k' k; case_decide; subst; rewrite ?klt_irrefl in *; done.
  - key_compare k k0; simpl; [key_compare k' k| |key_compare k' k0];
      rewrite ?IH; case_decide; subst; rewrite ?klt_irrefl in *; try done.
    + by rewrite (klt_trans _ _ _ Hlt0 Hlt).
    + by rewrite Hlt, Hgt.
Qed.

Lemma sl_lookup_remove k l k' :
  ssorted l → sl_lookup k' (sl_remove k l) = if decide (k' = k) then None else sl_lookup k' l.
Proof.
  induction 1 as [|[k0 v0] l Hl IH Hall]; simpl; [by case_decide|].
  key_compare k k0; simpl.
  - case_decide; [subst; by rewrite Hlt|done].
  - rewrite IH. key_compare k' k0; case_decide; subst; rewrite ?klt_irrefl in *; done.
  - key_compare k' k0; case_decide; subst; rewrite ?klt_irrefl in *; try done.
    + apply sl_lookup_above. eapply Forall_impl; [exact Hall|].
      intros p Hp. exact (klt_trans _ _ _ Hlt0 Hp).
    + by apply sl_lookup_above.
Qed.

End sorted_assoc.
