(* ===== verification/AvlMap.v ===== *)
(** * [sen_std::avl_map::map] of base_stl/map_demo.h

    A search tree whose nodes cache their height.  [put] keeps every subtree of
    a put-only map within one level of balance; [remove] preserves the contents
    on every tree, but its rotation test is not the mirror of its left case, so a
    mixed history can leave a tree on which a later [put] follows a null pointer.
    A node owns its two subtrees, so in-place updates are rebuilt subtrees. *)

From stdpp Require Import base list sorting.
From Stdlib Require Import ZArith Lia.
From S2P Require Import Prelude SortedAssoc.

Local Open Scope Z_scope.

(** ** The data *)

Inductive tree_node (K V : Type) :=
  | Null
  | Node (l : tree_node K V) (key : K) (value : V) (height : Z) (r : tree_node K V).
Arguments Null {K V}.
Arguments Node {K V} l key value height r.

Section avl_map.
Context {K V : Type} `{KeyOrder K}.
Implicit Types (t l r node root x y : tree_node K V) (k key : K) (v value : V).

Definition get_height node : Z :=
  match node with Null => 0 | Node _ _ _ h _ => h end.

Definition get_balance node : Z :=
  match node with Null => 0 | Node l _ _ _ r => get_height l - get_height r end.

(** [node->_height = 1 + std::max(get_height(left), get_height(right))] *)
Definition with_height l k v r : tree_node K V :=
  Node l k v (1 + Z.max (get_height l) (get_height r)) r.

Definition right_rotate y : outcome (tree_node K V) :=
  match y with
  | Node (Node a kx vx _ t2) ky vy _ c => Ret (with_height a kx vx (with_height t2 ky vy c))
  | _ => Undef
  end.

Definition left_rotate y : outcome (tree_node K V) :=
  match y with
  | Node a ky vy _ (Node t2 kx vx _ c) => Ret (with_height (with_height a ky vy t2) kx vx c)
  | _ => Undef
  end.

(** [node->_key]: undefined behaviour through a null pointer. *)
Definition node_key node : outcome K :=
  match node with Null => Undef | Node _ k _ _ _ => Ret k end.

Definition double_right l k v h r : outcome (tree_node K V) :=
  l' ← left_rotate l; right_rotate (Node l' k v h r).
Definition double_left l k v h r : outcome (tree_node K V) :=
  r' ← right_rotate r; left_rotate (Node l k v h r').

(** The four tests at the end of [insert], in the code's order. *)
Definition insert_rebalance key node : outcome (tree_node K V) :=
  match node with
  | Null => Undef
  | Node l k v h r =>
      let balance := get_balance node in
      if 1 <? balance then
        kl ← node_key l;
        if klt key kl then right_rotate node
        else if klt kl key then double_right l k v h r else Ret node
      else if balance <? -1 then
        kr ← node_key r;
        if klt kr key then left_rotate node
        else if klt key kr then double_left l k v h r else Ret node
      else Ret node
  end.

Fixpoint insert key value node : outcome (tree_node K V) :=
  match node with
  | Null => Ret (Node Null key value 1 Null)
  | Node l k v h r =>
      if klt key k then
        l' ← insert key value l; insert_rebalance key (with_height l' k v r)
      else if klt k key then
        r' ← insert key value r; insert_rebalance key (with_height l k v r')
      else Ret (Node l k value h r)
  end.

Fixpoint get_min node : option (K * V) :=
  match node with
  | Null => None
  | Node Null k v _ _ => Some (k, v)
  | Node l _ _ _ _ => get_min l
  end.

(** The tests at the end of [erase], as written. *)
Definition erase_rebalance root : outcome (tree_node K V) :=
  match root with
  | Null => Ret Null
  | Node l k v h r =>
      let balance := get_balance root in
      if (1 <? balance) && (0 <=? get_balance l) then right_rotate root
      else if (1 <? balance) && (get_balance l <? 0) then double_right l k v h r
      else if (balance <? -1) && (get_balance r <? 0) then left_rotate root
      else if (balance <? -1) && (0 <=? get_balance r) then double_left l k v h r
      else Ret root
  end.

(** [root->_height = ...] before the tests; a replaced root keeps its subtrees. *)
Definition refresh_height root : tree_node K V :=
  match root with Null => Null | Node l k v _ r => with_height l k v r end.

Fixpoint erase key root : outcome (tree_node K V) :=
  match root with
  | Null => Ret Null
  | Node l k v h r =>
      if klt key k then
        l' ← erase key l; erase_rebalance (with_height l' k v r)
      else if klt k key then
        r' ← erase key r; erase_rebalance (with_height l k v r')
      else
        match l, r with
        | Null, Null => Ret Null
        | Null, tmp => erase_rebalance (refresh_height tmp)
        | tmp, Null => erase_rebalance (refresh_height tmp)
        | _, _ =>
            '(ks, vs) ← deref (get_min r);
            r' ← erase ks r; erase_rebalance (with_height l ks vs r')
        end
  end.

Fixpoint find node key : option V :=
  match node with
  | Null => None
  | Node l k v _ r =>
      if decide (key = k) then Some v
      else if klt key k then find l key else find r key
  end.

Fixpoint inorder_helper node (res : list (K * V)) : list (K * V) :=
  match node with
  | Null => res
  | Node l k v _ r => inorder_helper r (inorder_helper l res ++ [(k, v)])
  end.

(** *** The public interface *)

Definition put (m : tree_node K V) key val : outcome (tree_node K V) := insert key val m.
Definition avl_get (m : tree_node K V) key : option V := find m key.
Definition remove (m : tree_node K V) key : outcome (tree_node K V) := erase key m.
Definition inorder_traversal (m : tree_node K V) : list (K * V) := inorder_helper m [].

(** *** Contents and invariants *)

Fixpoint contents t : list (K * V) :=
  match t with
  | Null => []
  | Node l k v _ r => contents l ++ (k, v) :: contents r
  end.

Fixpoint heights_ok t : Prop :=
  match t with
  | Null => True
  | Node l _ _ h r =>
      heights_ok l ∧ heights_ok r ∧ h = 1 + Z.max (get_height l) (get_height r)
  end.

Fixpoint balanced t : Prop :=
  match t with
  | Null => True
  | Node l _ _ _ r =>
      balanced l ∧ balanced r ∧ -1 <= get_height l - get_height r <= 1
  end.

Definition search_tree t : Prop := ssorted (contents t).

Lemma inorder_helper_contents t res : inorder_helper t res = res ++ contents t.
Proof.
  revert res. induction t as [|l IHl k v h r IHr]; intros res; simpl.
  - by rewrite app_nil_r.
  - by rewrite IHr, IHl, <-!app_assoc.
Qed.
Lemma inorder_traversal_contents t : inorder_traversal t = contents t.
Proof. apply (inorder_helper_contents t []). Qed.

Lemma height_nonneg t : heights_ok t → 0 <= get_height t.
Proof. induction t; simpl; [lia|]. intros (? & ? & ->). intuition lia. Qed.
Lemma height_pos l k v h r : heights_ok (Node l k v h r) → 1 <= h.
Proof. simpl. intros (Hl & Hr & ->). apply height_nonneg in Hl, Hr. lia. Qed.
Lemma with_height_ok l k v r : heights_ok l → heights_ok r → heights_ok (with_height l k v r).
Proof. done. Qed.
Lemma contents_with_height l k v r :
  contents (with_height l k v r) = contents l ++ (k, v) :: contents r.
Proof. done. Qed.

(** ** Rotations *)

Lemma right_rotate_ok l k v h r :
  heights_ok l → heights_ok r → l ≠ Null →
  ∃ t, right_rotate (Node l k v h r) = Ret t ∧ heights_ok t ∧
       contents t = contents l ++ (k, v) :: contents r.
Proof.
  destruct l as [|a kx vx hx t2]; [done|]. intros (? & ? & ?) ? _. eexists. split; [done|].
  split; [by repeat apply with_height_ok|]. simpl. by rewrite <-app_assoc.
Qed.
Lemma left_rotate_ok l k v h r :
  heights_ok l → heights_ok r → r ≠ Null →
  ∃ t, left_rotate (Node l k v h r) = Ret t ∧ heights_ok t ∧
       contents t = contents l ++ (k, v) :: contents r.
Proof.
  destruct r as [|t2 kx vx hx c]; [done|]. intros ? (? & ? & ?) _. eexists. split; [done|].
  split; [by repeat apply with_height_ok|]. simpl. by rewrite <-app_assoc.
Qed.

Lemma positive_not_null t : 0 < get_height t → t ≠ Null.
Proof. by destruct t. Qed.

Lemma double_right_ok l k v h r :
  heights_ok l → heights_ok r → get_balance l < 0 →
  ∃ t, double_right l k v h r = Ret t ∧ heights_ok t ∧
       contents t = contents l ++ (k, v) :: contents r.
Proof.
  destruct l as [|a kx vx hx b]; simpl; [lia|]. intros (Ha & Hb & ?) Hr Hbal.
  pose proof (height_nonneg _ Ha).
  destruct (left_rotate_ok a kx vx hx b) as (l' & E & Hl' & Hc); [done|done| |].
  { apply positive_not_null. lia. }
  unfold double_right. rewrite E. simpl. rewrite <-Hc. apply (right_rotate_ok l' k v h r); [done|done|].
  intros ->. by destruct (contents a).
Qed.
Lemma double_left_ok l k v h r :
  heights_ok l → heights_ok r → (∃ rl kr vr hr rr, r = Node rl kr vr hr rr ∧ rl ≠ Null) →
  ∃ t, double_left l k v h r = Ret t ∧ heights_ok t ∧
       contents t = contents l ++ (k, v) :: contents r.
Proof.
  intros Hl Hr (rl & kr & vr & hr & rr & -> & Hn). destruct Hr as (? & ? & ?).
  destruct (right_rotate_ok rl kr vr hr rr) as (r' & E & Hr' & Hc); [done..|].
  unfold double_left. rewrite E. simpl. rewrite <-Hc. apply (left_rotate_ok l k v h r'); [done|done|].
  intros ->. by destruct (contents rl).
Qed.

(** ** Erase: total and correct on every tree with correct heights *)

Lemma erase_rebalance_ok l k v r :
  heights_ok l → heights_ok r →
  ∃ t, erase_rebalance (with_height l k v r) = Ret t ∧ heights_ok t ∧
       contents t = contents l ++ (k, v) :: contents r.
Proof.
  intros Hl Hr. pose proof (height_nonneg _ Hl). pose proof (height_nonneg _ Hr).
  unfold with_height. cbn [erase_rebalance get_balance].
  case_match; zbool; [apply right_rotate_ok; [done|done|apply positive_not_null; lia]|].
  case_match; zbool; [apply double_right_ok; [done..|lia]|].
  case_match; zbool; [apply left_rotate_ok; [done|done|apply positive_not_null; lia]|].
  case_match; zbool.
  - apply double_left_ok; [done|done|]. destruct r as [|rl kr vr hr rr]; simpl in *; [lia|].
    do 5 eexists. split; [done|]. apply positive_not_null. lia.
  - eexists. split; [done|]. by split.
Qed.

Lemma get_min_contents l k v h r :
  ∃ ks vs rest, get_min (Node l k v h r) = Some (ks, vs) ∧
                contents (Node l k v h r) = (ks, vs) :: rest.
Proof.
  revert k v h r. induction l as [|ll IH kl vl hl lr _]; intros k v h r.
  - by eexists _, _, _.
  - destruct (IH kl vl hl lr) as (ks & vs & rest & E & Hc). exists ks, vs.
    simpl in *. rewrite Hc. by eexists.
Qed.

Lemma search_tree_node l k v h r :
  search_tree (Node l k v h r) ↔
  search_tree l ∧ search_tree r ∧ below k (contents l) ∧ above k (contents r).
Proof. apply ssorted_mid. Qed.

Lemma avl_erase_ok key root :
  heights_ok root → search_tree root →
  ∃ t, erase key root = Ret t ∧ heights_ok t ∧ contents t = sl_remove key (contents root).
Proof.
  revert key. induction root as [|l IHl k v h r IHr]; intros key; [by eexists|].
  intros (Hl & Hr & _) (Hsl & Hsr & Hbl & Hab)%search_tree_node. cbn [erase contents].
  key_compare key k.
  - destruct (IHl key) as (l' & -> & Hl' & Hc); [done|done|]. simpl.
    destruct (erase_rebalance_ok l' k v r) as (t & E & Ht & Hct); [done|done|].
    exists t. split; [done|]. split; [done|]. by rewrite Hct, Hc, sl_remove_before.
  - destruct (IHr key) as (r' & -> & Hr' & Hc); [done|done|]. simpl.
    destruct (erase_rebalance_ok l k v r') as (t & E & Ht & Hct); [done|done|].
    exists t. split; [done|]. split; [done|]. by rewrite Hct, Hc, sl_remove_after.
  - rewrite sl_remove_at by done.
    destruct l as [|ll kl vl hl lr]; [destruct r as [|rl kr vr hr rr]|].
    + by eexists.
    + destruct Hr as (? & ? & _). by apply erase_rebalance_ok.
    + destruct r as [|rl kr vr hr rr].
      { destruct Hl as (? & ? & _). rewrite app_nil_r. by apply erase_rebalance_ok. }
      destruct (get_min_contents rl kr vr hr rr) as (ks & vs & rest & Emin & Ec).
      rewrite Emin. cbn [deref mbind outcome_bind].
      destruct (IHr ks) as (r' & -> & Hr' & Hcr); [done|done|]. cbn [mbind outcome_bind].
      destruct (erase_rebalance_ok (Node ll kl vl hl lr) ks vs r')
        as (t & E & Ht & Hct); [done|done|].
      exists t. split; [done|]. split; [done|]. rewrite Hct, Hcr, Ec. by rewrite sl_remove_head.
Qed.

(** ** Insertion: total, correct and balanced on balanced trees *)

(** A subtree that has just grown leans towards the side of the new key. *)
Definition leans key t : Prop :=
  match t with
  | Null => False
  | Node l k _ _ r =>
      (get_height l = get_height r + 1 ∧ klt key k = true)
      ∨ (get_height r = get_height l + 1 ∧ klt k key = true)
  end.

Lemma insert_rebalance_even key l k v r :
  -1 <= get_height l - get_height r <= 1 →
  insert_rebalance key (with_height l k v r) = Ret (with_height l k v r).
Proof. intros Hb. unfold insert_rebalance, with_height. simpl. by ztest; try lia. Qed.

Lemma insert_rebalance_left key l k v r :
  heights_ok l → heights_ok r → balanced l → balanced r →
  get_height l = get_height r + 2 → leans key l →
  ∃ t, insert_rebalance key (with_height l k v r) = Ret t ∧ heights_ok t ∧ balanced t ∧
       contents t = contents l ++ (k, v) :: contents r ∧ get_height t = get_height l.
Proof.
  destruct l as [|a kx vx hx b]; [done|]. intros (Ha & Hb & ->) Hr Hbl Hbr Hh Hlean.
  unfold with_height. cbn [insert_rebalance get_balance]. simpl in Hh, Hbl, Hlean.
  pose proof (height_nonneg _ Ha). pose proof (height_nonneg _ Hr).
  destruct (Z.ltb_spec 1 (get_height (Node a kx vx (1 + Z.max (get_height a) (get_height b)) b)
    - get_height r)) as [_|?]; [|simpl in *; lia]. cbn [node_key mbind outcome_bind].
  destruct Hlean as [[Hlean ->]|[Hlean Hk]].
  - eexists. split; [done|]. simpl. rewrite <-app_assoc. intuition lia.
  - rewrite (klt_asym _ _ Hk), Hk.
    destruct b as [|b1 kb vb hb b2]; [simpl in *; lia|]. destruct Hb as (? & ? & ->).
    eexists. split; [done|]. simpl in *. rewrite <-?app_assoc. simpl. rewrite <-?app_assoc. intuition lia.
Qed.

Lemma insert_rebalance_right key l k v r :
  heights_ok l → heights_ok r → balanced l → balanced r →
  get_height r = get_height l + 2 → leans key r →
  ∃ t, insert_rebalance key (with_height l k v r) = Ret t ∧ heights_ok t ∧ balanced t ∧
       contents t = contents l ++ (k, v) :: contents r ∧ get_height t = get_height r.
Proof.
  destruct r as [|a kx vx hx b]; [done|]. intros Hl (Ha & Hb & ->) Hbl Hbr Hh Hlean.
  unfold with_height. cbn [insert_rebalance get_balance]. simpl in Hh, Hbr, Hlean.
  pose proof (height_nonneg _ Hb). pose proof (height_nonneg _ Hl).
  destruct (Z.ltb_spec 1 (get_height l -
    get_height (Node a kx vx (1 + Z.max (get_height a) (get_height b)) b))); [simpl in *; lia|].
  destruct (Z.ltb_spec (get_height l -
    get_height (Node a kx vx (1 + Z.max (get_height a) (get_height b)) b)) (-1));
    [|simpl in *; lia]. cbn [node_key mbind outcome_bind].
  destruct Hlean as [[Hlean Hk]|[Hlean ->]].
  - rewrite (klt_asym _ _ Hk), Hk.
    destruct a as [|b1 kb vb hb b2]; [simpl in *; lia|]. destruct Ha as (? & ? & ->).
    eexists. split; [done|]. simpl in *. rewrite <-?app_assoc. simpl. rewrite <-?app_assoc. intuition lia.
  - eexists. split; [done|]. simpl. rewrite <-app_assoc. intuition lia.
Qed.

(** The invariant of [insert]; [grown] says what the caller can rely on when the
    subtree has become higher. *)
Definition grown key t t' : Prop :=
  get_height t' = get_height t ∨
  (get_height t' = get_height t + 1 ∧ (t = Null ∨ leans key t')).

Lemma avl_insert_ok key value t :
  heights_ok t → balanced t → search_tree t →
  ∃ t', insert key value t = Ret t' ∧ heights_ok t' ∧ balanced t' ∧
        contents t' = sl_insert key value (contents t) ∧ grown key t t'.
Proof.
  induction t as [|l IHl k v h r IHr].
  { intros _ _ _. eexists. split; [done|]. simpl. split_and!; try done; try lia.
    right. simpl. auto with lia. }
  intros (Hl & Hr & ->) (Hbl & Hbr & Hb) (Hsl & Hsr & Hlo & Hhi)%search_tree_node.
  cbn [insert contents]. key_compare key k.
  - destruct IHl as (l' & -> & Hl' & Hbl' & Hc & Hg); [done..|]. cbn [mbind outcome_bind].
    rewrite sl_insert_before, <-Hc by done.
    destruct (decide (get_height l' - get_height r <= 1)).
    + rewrite insert_rebalance_even by (destruct Hg as [?|[? _]]; lia).
      eexists. split; [done|]. split; [done|]. split; [|split; [done|]].
      { simpl. destruct Hg as [?|[? _]]; (split; [done|split; [done|lia]]). }
      unfold grown. simpl. destruct Hg as [?|[? _]]; [left; lia|].
      destruct (decide (get_height l = get_height r)) as [Heq|].
      * right. split; [lia|]. right. left. split; [lia|done].
      * left. lia.
    + destruct Hg as [?|[? [->|Hlean]]]; [lia| |].
      { pose proof (height_nonneg _ Hr). simpl in *. lia. }
      destruct (insert_rebalance_left key l' k v r) as (t & -> & ? & ? & Hct & Hht);
        [done..|lia|done|].
      eexists. split_and!; try done. left. simpl. lia.
  - destruct IHr as (r' & -> & Hr' & Hbr' & Hc & Hg); [done..|]. cbn [mbind outcome_bind].
    rewrite sl_insert_after, <-Hc by done.
    destruct (decide (get_height r' - get_height l <= 1)).
    + rewrite insert_rebalance_even by (destruct Hg as [?|[? _]]; lia).
      eexists. split; [done|]. split; [done|]. split; [|split; [done|]].
      { simpl. destruct Hg as [?|[? _]]; (split; [done|split; [done|lia]]). }
      unfold grown. simpl. destruct Hg as [?|[? _]]; [left; lia|].
      destruct (decide (get_height r = get_height l)) as [Heq|].
      * right. split; [lia|]. right. right. split; [lia|done].
      * left. lia.
    + destruct Hg as [?|[? [->|Hlean]]]; [lia| |].
      { pose proof (height_nonneg _ Hl). simpl in *. lia. }
      destruct (insert_rebalance_right key l k v r') as (t & -> & ? & ? & Hct & Hht);
        [done..|lia|done|].
      eexists. split_and!; try done. left. simpl. lia.
  - eexists. split_and!; try done; [by rewrite sl_insert_at|by left].
Qed.

(** ** Lookup and depth *)

Lemma find_contents t key : search_tree t → find t key = sl_lookup key (contents t).
Proof.
  induction t as [|l IHl k v h r IHr]; [done|].
  intros (Hsl & Hsr & Hlo & Hhi)%search_tree_node. cbn [find contents].
  case_decide as Hk; [subst; by rewrite sl_lookup_at|].
  key_compare key k; [|by rewrite sl_lookup_after, IHr|done].
  by rewrite sl_lookup_before, IHl.
Qed.

(** The minimal number of nodes of a balanced tree grows like the Fibonacci numbers. *)
Fixpoint fib_size (n : nat) : Z :=
  match n with
  | O => 0
  | S n' => match n' with O => 1 | S n'' => 1 + fib_size n' + fib_size n'' end
  end.

Lemma fib_size_mono n : 0 <= fib_size n ∧ fib_size n <= fib_size (S n).
Proof.
  induction n as [|[|n] IH]; [simpl; lia|simpl; lia|].
  change (fib_size (S (S n))) with (1 + fib_size (S n) + fib_size n) in *.
  change (fib_size (S (S (S n)))) with (1 + (1 + fib_size (S n) + fib_size n) + fib_size (S n)).
  lia.
Qed.
Lemma fib_size_le m n : (m <= n)%nat → fib_size m <= fib_size n.
Proof.
  induction 1 as [|n Hmn IH]; [lia|]. pose proof (fib_size_mono n). lia.
Qed.

Lemma fib_size_pow n : 2 ^ Z.of_nat n <= (fib_size (2 * n) + 1) ∧
                       2 ^ Z.of_nat n <= (fib_size (S (2 * n)) + 1).
Proof.
  induction n as [|n [IH1 IH2]]; [simpl; lia|].
  replace (2 * S n)%nat with (S (S (2 * n))) by lia.
  rewrite Nat2Z.inj_succ, Z.pow_succ_r by lia.
  change (fib_size (S (S (2 * n)))) with (1 + fib_size (S (2 * n)) + fib_size (2 * n)).
  change (fib_size (S (S (S (2 * n)))))
    with (1 + (1 + fib_size (S (2 * n)) + fib_size (2 * n)) + fib_size (S (2 * n))).
  pose proof (fib_size_mono (2 * n)). lia.
Qed.

Lemma balanced_size t :
  heights_ok t → balanced t → fib_size (Z.to_nat (get_height t)) <= Z.of_nat (length (contents t)).
Proof.
  induction t as [|l IHl k v h r IHr]; [done|].
  intros (Hl & Hr & ->) (Hbl & Hbr & Hb). simpl.
  specialize (IHl Hl Hbl). specialize (IHr Hr Hbr). rewrite length_app. simpl.
  pose proof (height_nonneg _ Hl). pose proof (height_nonneg _ Hr).
  set (hl := Z.to_nat (get_height l)) in *. set (hr := Z.to_nat (get_height r)) in *.
  replace (Z.to_nat (1 + get_height l `max` get_height r)) with (S (Nat.max hl hr)) by lia.
  assert (∃ m n, S (Nat.max hl hr) = S m ∧ (m = 0%nat ∨ ∃ j, m = S j ∧ (
    (hl = m ∧ (j <= hr)%nat) ∨ (hr = m ∧ (j <= hl)%nat))) ∧ n = m) as (m & _ & -> & Hm & _).
  { exists (Nat.max hl hr). eexists. split; [done|]. split; [|done].
    destruct (Nat.max hl hr) as [|j] eqn:E; [by left|]. right. exists j. split; [done|]. lia. }
  destruct Hm as [->|(j & -> & Hm)]; [simpl; lia|].
  change (fib_size (S (S j))) with (1 + fib_size (S j) + fib_size j).
  destruct Hm as [[<- Hj%fib_size_le]|[<- Hj%fib_size_le]]; lia.
Qed.

Lemma balanced_height_bound t :
  heights_ok t → balanced t → 2 ^ (get_height t / 2) <= Z.of_nat (length (contents t)) + 1.
Proof.
  intros Hh Hb. pose proof (balanced_size t Hh Hb) as Hsz. pose proof (height_nonneg _ Hh).
  destruct (fib_size_pow (Z.to_nat (get_height t / 2))) as [Hp _].
  rewrite Z2Nat.id in Hp by (apply Z.div_pos; lia).
  etransitivity; [exact Hp|]. apply Z.add_le_mono_r. etransitivity; [|exact Hsz].
  apply fib_size_le. pose proof (Z.mul_div_le (get_height t) 2). lia.
Qed.
End avl_map.

(** ** Histories *)

Section histories.
Context {K V : Type} `{KeyOrder K}.
Implicit Types (t m : tree_node K V) (k : K) (v : V).

Inductive map_op := Put (k : K) (v : V) | Remove (k : K).

Definition map_step (m : tree_node K V) (o : map_op) : outcome (tree_node K V) :=
  match o with Put k v => put m k v | Remove k => remove m k end.

Definition map_run (m : tree_node K V) (os : list map_op) : outcome (tree_node K V) :=
  foldl (λ acc o, acc ≫= λ m, map_step m o) (Ret m) os.

(** What a map remembers of a sequence of puts: the last value of each key. *)
Definition last_put (kvs : list (K * V)) k : option V :=
  foldl (λ acc kv, if decide (k = kv.1) then Some kv.2 else acc) None kvs.

Definition puts (kvs : list (K * V)) : list map_op := (λ kv, Put kv.1 kv.2) <$> kvs.

Definition inv t : Prop := heights_ok t ∧ balanced t ∧ search_tree t.

Lemma puts_ok kvs :
  ∃ t, map_run Null (puts kvs) = Ret t ∧ inv t ∧
       contents t = foldl (λ l kv, sl_insert kv.1 kv.2 l) [] kvs.
Proof.
  induction kvs as [|[k v] kvs (t & E & (Hh & Hb & Hs) & Hc)] using rev_ind.
  { exists Null. repeat split; try done. constructor. }
  unfold map_run, puts in *. rewrite fmap_app, !foldl_app, E. simpl. unfold put.
  destruct (avl_insert_ok k v t) as (t' & -> & ? & ? & Hc' & _); [done..|].
  exists t'. split; [done|]. split; [|by rewrite Hc', <-Hc].
  split_and!; [done..|]. unfold search_tree. rewrite Hc'. by apply sl_insert_sorted.
Qed.

Lemma sl_lookup_puts kvs k :
  sl_lookup k (foldl (λ l kv, sl_insert kv.1 kv.2 l) [] kvs) = last_put kvs k.
Proof.
  unfold last_put. induction kvs as [|[k' v] kvs IH] using rev_ind; [done|].
  rewrite !foldl_app. simpl. by rewrite sl_lookup_insert, IH.
Qed.

(** A map built by any sequence of [put]s is never undefined behaviour; its
    traversal lists the keys in increasing order, [get] returns the last value put
    under a key (and a null pointer for a key never put), and its height is at most
    twice the binary logarithm of its size plus one. *)
Theorem avl_puts_spec (kvs : list (K * V)) :
  ∃ t, map_run Null (puts kvs) = Ret t ∧
       ssorted (inorder_traversal t) ∧
       (∀ k, avl_get t k = last_put kvs k) ∧
       2 ^ (get_height t / 2) <= Z.of_nat (length (inorder_traversal t)) + 1.
Proof.
  destruct (puts_ok kvs) as (t & E & (Hh & Hb & Hs) & Hc). exists t.
  rewrite inorder_traversal_contents. split_and!; [done|done| |].
  - intros k. unfold avl_get. by rewrite find_contents, Hc, sl_lookup_puts.
  - by apply balanced_height_bound.
Qed.

(** C4. [remove] is never undefined behaviour on a search tree whose cached heights
    are right, balanced or not: the key disappears, every other key keeps its value,
    the traversal stays sorted and the cached heights stay right. *)
Theorem avl_remove_spec t key :
  heights_ok t → search_tree t →
  ∃ t', remove t key = Ret t' ∧ heights_ok t' ∧ search_tree t' ∧
        inorder_traversal t' = sl_remove key (inorder_traversal t) ∧
        avl_get t' key = None ∧ ∀ k, k ≠ key → avl_get t' k = avl_get t k.
Proof.
  intros Hh Hs. destruct (avl_erase_ok key t) as (t' & E & Hh' & Hc); [done..|].
  exists t'. rewrite !inorder_traversal_contents. unfold avl_get.
  assert (search_tree t') as Hs' by (unfold search_tree; rewrite Hc; by apply sl_remove_sorted).
  split_and!; try done; [|intros k Hk];
    by rewrite !find_contents, Hc, sl_lookup_remove by done; case_decide.
Qed.
End histories.
Arguments map_op : clear implicits.

(** A concrete two-level tree and the removal of its root. *)
Definition three_keys : tree_node Z Z :=
  Node (Node Null 1 10 1 Null) 2 20 2 (Node Null 3 30 1 Null).

Lemma avl_remove_spec_witness :
  ∃ t', remove three_keys 2 = Ret t' ∧ heights_ok t' ∧ search_tree t' ∧
        inorder_traversal t' = sl_remove 2 (inorder_traversal three_keys) ∧
        avl_get t' 2 = None ∧ ∀ k, k ≠ 2 → avl_get t' k = avl_get three_keys k.
Proof.
  apply (avl_remove_spec three_keys 2); [by simpl; lia|].
  repeat constructor.
Defined.

(** The history that breaks the tree: key [i] stands for its own value. *)
Definition crash_history : list (map_op Z Z) :=
  (λ k, Put k k) <$> [2; 7; 25; 22; 24; 23; 4; 0].
Definition crash_history' : list (map_op Z Z) :=
  [Remove 22; Put 13 13; Put 6 6; Remove 7; Put 17 17; Put 29 29; Put 18 18; Put 28 28;
   Put 26 26; Put 27 27; Remove 18; Put 22 22; Remove 6].

(** [erase] tests the right-heavy case with [< 0] where the mirror of its left case
      is [<= 0]: after this history every operation has succeeded and every cached height
      is right, yet one more [put] dereferences a null pointer. *)
Theorem avl_mixed_history_crashes :
  ∃ t, map_run Null (crash_history ++ crash_history') = Ret t ∧
       heights_ok t ∧ search_tree t ∧ ¬ balanced t ∧ put t 24 24 = Undef.
Proof.
  eexists. split; [vm_compute; reflexivity|].
  split; [simpl; lia|]. split; [repeat constructor|].
  split; [simpl; lia|]. reflexivity.
Qed.
