(* ===== verification/HashMap.v ===== *)
(** * [sen_std::unordered_map] of base_stl/umap_demo.h

    A chained hash table.  The contract is the finite map of its entries: every
    history of calls gives the results of [gmap]'s insert, lookup and delete,
    whatever hash function, initial capacity and load factor were chosen, and an
    iteration from [begin()] to [end()] visits every entry once. *)

From stdpp Require Import base gmap list fin_maps.
From Stdlib Require Import ZArith Lia SpecFloat.
From S2P Require Import Prelude CxxString.

Local Open Scope Z_scope.

(** ** IEEE doubles, for the load factor *)

Definition double : Type := spec_float.
Definition double_of_size (n : Z) : double := binary_normalize 53 1024 n 0 false.
Definition double_div (x y : double) : double := SFdiv 53 1024 x y.

Section umap.
Context {K V : Type} `{Countable K}.
(** [std::hash<K>]: the library's function, any function into [size_t]. *)
Context (hash_func : K → Z).
Implicit Types (key : K) (value : V).

(** A chain is the list of the nodes reachable through [_next]. *)
Abbreviation chain := (list (K * V)).

Record umap := Umap {
  buckets : list (list (K * V));
  bucket_count : Z;
  elem_count : Z;
  max_load_factor : double
}.
Implicit Types (m : umap) (c : list (K * V)).

Definition MIN_BUCKETS : Z := 8.

Definition unordered_map (init_capacity : Z) (max_load : double) : umap :=
  Umap (replicate (Z.to_nat init_capacity) []) init_capacity 0 max_load.

(** [_hash_func(key) % _bucket_count]: division by zero is undefined behaviour. *)
Definition bucket_index (key : K) (n : Z) : outcome nat :=
  if n =? 0 then Undef else Ret (Z.to_nat (hash_func key mod n)).

(** *** Walking a chain *)

(** The [while (node)] of [insert]: overwrite the value of the first equal key. *)
Fixpoint chain_assign key value c : option (list (K * V)) :=
  match c with
  | [] => None
  | (k, v) :: c' =>
      if decide (k = key) then Some ((k, value) :: c')
      else cons (k, v) <$> chain_assign key value c'
  end.
Fixpoint chain_find key c : option V :=
  match c with
  | [] => None
  | (k, v) :: c' => if decide (k = key) then Some v else chain_find key c'
  end.
(** The [while (node)] of [erase]: unlink the first equal key. *)
Fixpoint chain_erase key c : option (list (K * V)) :=
  match c with
  | [] => None
  | (k, v) :: c' =>
      if decide (k = key) then Some c' else cons (k, v) <$> chain_erase key c'
  end.

(** *** Operations *)

(** Push a node at the front of its new bucket, as [rehash] relinks it. *)
Definition relink (n : Z) (bs : list (list (K * V))) (node : K * V) : list (list (K * V)) :=
  alter (cons node) (Z.to_nat (hash_func node.1 mod n)) bs.

Definition rehash (new_bucket_count : Z) m : umap :=
  if (new_bucket_count =? 0) || (new_bucket_count =? bucket_count m) then m
  else
    let new_buckets :=
      foldl (λ bs c, foldl (relink new_bucket_count) bs c)
        (replicate (Z.to_nat new_bucket_count) [])
        (take (Z.to_nat (bucket_count m)) (buckets m)) in
    Umap new_buckets new_bucket_count (elem_count m) (max_load_factor m).

Definition load_factor m : double :=
  double_div (double_of_size (elem_count m)) (double_of_size (bucket_count m)).

Definition grow m : umap :=
  if SFltb (max_load_factor m) (load_factor m)
  then rehash (wrap64 (bucket_count m * 2)) m else m.

Definition insert key value m : outcome umap :=
  idx ← bucket_index key (bucket_count m);
  c ← deref (buckets m !! idx);
  match chain_assign key value c with
  | Some c' =>
      Ret (Umap (<[idx := c']> (buckets m)) (bucket_count m) (elem_count m) (max_load_factor m))
  | None =>
      Ret (grow (Umap (<[idx := (key, value) :: c]> (buckets m)) (bucket_count m)
        (elem_count m + 1) (max_load_factor m)))
  end.

Definition find key m : outcome (option V) :=
  idx ← bucket_index key (bucket_count m);
  c ← deref (buckets m !! idx);
  Ret (chain_find key c).

Definition shrink m : umap :=
  if 0 <? elem_count m then
    let new_count := Z.max (bucket_count m / 2) MIN_BUCKETS in
    if SFltb (load_factor m) (double_div (max_load_factor m) (double_of_size 4))
       && (new_count <? bucket_count m)
    then rehash new_count m else m
  else m.

Definition erase key m : outcome (bool * umap) :=
  idx ← bucket_index key (bucket_count m);
  c ← deref (buckets m !! idx);
  match chain_erase key c with
  | Some c' =>
      Ret (true, shrink (Umap (<[idx := c']> (buckets m)) (bucket_count m)
        (elem_count m - 1) (max_load_factor m)))
  | None => Ret (false, m)
  end.

Definition size m : Z := elem_count m.
Definition empty m : bool := elem_count m =? 0.

Definition clear m : umap :=
  let m' := Umap ((λ _, []) <$> buckets m) (bucket_count m) 0 (max_load_factor m) in
  if MIN_BUCKETS <? bucket_count m' then rehash MIN_BUCKETS m' else m'.

(** *** Iterators: a bucket index and the rest of that bucket's chain, which starts
    with the node [_curr] points to. *)

Record iterator := Iterator { it_bucket : Z; it_curr : list (K * V) }.

(** The [while] of [advance], which moves to the next bucket that has a node. *)
Fixpoint advance_loop (fuel : nat) m (i : Z) (curr : list (K * V)) : outcome iterator :=
  match curr with
  | _ :: _ => Ret (Iterator i curr)
  | [] =>
      if i + 1 <? bucket_count m then
        match fuel with
        | O => Undef
        | S fuel' => c ← deref (buckets m !! Z.to_nat (i + 1)); advance_loop fuel' m (i + 1) c
        end
      else Ret (Iterator (bucket_count m) [])
  end.

Definition advance m (it : iterator) : outcome iterator :=
  advance_loop (Z.to_nat (bucket_count m)) m (it_bucket it) (tail (it_curr it)).

(** The [for] of [begin]. *)
Fixpoint begin_loop (fuel : nat) m (i : Z) : outcome iterator :=
  if i <? bucket_count m then
    match fuel with
    | O => Undef
    | S fuel' =>
        c ← deref (buckets m !! Z.to_nat i);
        match c with
        | _ :: _ => Ret (Iterator i c)
        | [] => begin_loop fuel' m (i + 1)
        end
    end
  else Ret (Iterator (bucket_count m) []).

Definition begin m : outcome iterator := begin_loop (Z.to_nat (bucket_count m)) m 0.
Definition end_ m : iterator := Iterator (bucket_count m) [].

Definition it_deref (it : iterator) : outcome (K * V) :=
  match it_curr it with [] => Throw OutOfRange | kv :: _ => Ret kv end.

(** [it != end()] of a loop over one table. *)
Definition at_end m (it : iterator) : bool :=
  (it_bucket it =? bucket_count m) && match it_curr it with [] => true | _ => false end.

(** A range loop from [it]: the entries its body sees. *)
Fixpoint iterate (fuel : nat) m (it : iterator) : outcome (list (K * V)) :=
  if at_end m it then Ret []
  else
    match fuel with
    | O => Undef
    | S fuel' =>
        kv ← it_deref it;
        it' ← advance m it;
        rest ← iterate fuel' m it'; Ret (kv :: rest)
    end.

Definition traverse m : outcome (list (K * V)) :=
  it ← begin m; iterate (S (Z.to_nat (elem_count m))) m it.

(** ** The abstraction *)

Definition entries m : list (K * V) := concat (buckets m).
Definition to_map m : gmap K V := list_to_map (entries m).

(** Every node sits in the bucket its hash selects. *)
Definition placed (n : Z) (bs : list (list (K * V))) : Prop :=
  ∀ i c, bs !! i = Some c → Forall (λ kv, Z.to_nat (hash_func kv.1 mod n) = i) c.

Record wf m : Prop := {
  wf_pos : 0 < bucket_count m;
  wf_length : length (buckets m) = Z.to_nat (bucket_count m);
  wf_placed : placed (bucket_count m) (buckets m);
  wf_nodup : NoDup (entries m).*1;
  wf_count : elem_count m = Z.of_nat (length (entries m))
}.

(** *** Chains *)

Lemma chain_find_map key c : chain_find key c = (list_to_map c : gmap K V) !! key.
Proof.
  induction c as [|[k v] c IH]; simpl; [by rewrite lookup_empty|].
  case_decide; subst; [by rewrite lookup_insert_eq|by rewrite lookup_insert_ne].
Qed.

Lemma chain_assign_None key value c : chain_assign key value c = None → key ∉ c.*1.
Proof.
  induction c as [|[k v] c IH]; simpl; [intros _; apply not_elem_of_nil|].
  case_decide; [done|]. intros E%fmap_None. rewrite not_elem_of_cons. auto.
Qed.
Lemma chain_assign_Some key value c c' :
  chain_assign key value c = Some c' →
  c'.*1 = c.*1 ∧ (list_to_map c' : gmap K V) = <[key := value]> (list_to_map c).
Proof.
  revert c'. induction c as [|[k v] c IH]; intros c'; simpl; [done|]. case_decide as Hk.
  - intros [= <-]. subst. split; [done|]. simpl. by rewrite insert_insert_eq.
  - intros (c0 & E & ->)%fmap_Some. destruct (IH c0 E) as [Hf Hm]. csimpl.
    rewrite Hf, Hm. split; [done|]. by rewrite insert_insert_ne.
Qed.

Lemma chain_erase_None key c : chain_erase key c = None → key ∉ c.*1.
Proof.
  induction c as [|[k v] c IH]; simpl; [intros _; apply not_elem_of_nil|].
  case_decide; [done|]. intros E%fmap_None. rewrite not_elem_of_cons. auto.
Qed.
Lemma chain_erase_Some key c c' :
  chain_erase key c = Some c' → ∃ v, c ≡ₚ (key, v) :: c'.
Proof.
  revert c'. induction c as [|[k v] c IH]; intros c'; simpl; [done|]. case_decide as Hk.
  - intros [= <-]. subst. by exists v.
  - intros (c0 & E & ->)%fmap_Some. destruct (IH c0 E) as [v' Hp]. exists v'.
    rewrite Hp. apply perm_swap.
Qed.

(** *** One bucket and the others *)

Lemma Forall_keys n i c :
  Forall (λ kv, Z.to_nat (hash_func kv.1 mod n) = i) c ↔
  Forall (λ k, Z.to_nat (hash_func k mod n) = i) c.*1.
Proof. by rewrite Forall_fmap. Qed.

Lemma concat_bucket i bs c :
  bs !! i = Some c → concat bs ≡ₚ c ++ concat (delete i bs).
Proof.
  intros Hi. rewrite <-(take_drop_middle bs i c Hi) at 1.
  rewrite delete_take_drop, !concat_app, concat_cons. by solve_Permutation.
Qed.
Lemma concat_bucket_insert i bs c c' :
  bs !! i = Some c → concat (<[i := c']> bs) ≡ₚ c' ++ concat (delete i bs).
Proof.
  revert i. induction bs as [|d bs IH]; intros [|i]; csimpl; intros Hi; [done|done|done|].
  rewrite (IH i Hi). by solve_Permutation.
Qed.

Lemma placed_insert n i bs c c' :
  placed n bs → bs !! i = Some c →
  Forall (λ kv, Z.to_nat (hash_func kv.1 mod n) = i) c' → placed n (<[i := c']> bs).
Proof.
  intros Hp Hi Hc' j d. rewrite list_lookup_insert_Some.
  intros [(-> & -> & _)|[_ Hd]]; [done|by eapply Hp].
Qed.

Lemma placed_others n i bs key :
  placed n bs → i = Z.to_nat (hash_func key mod n) → key ∉ (concat (delete i bs)).*1.
Proof.
  intros Hp -> ([k v] & -> & Hin)%list_elem_of_fmap. simpl in *.
  apply list_elem_of_In, in_concat in Hin as (c & Hc & Hin).
  apply list_elem_of_In, list_elem_of_lookup in Hc as [j Hj].
  apply list_elem_of_In in Hin.
  assert (∃ j', bs !! j' = Some c ∧ j' ≠ Z.to_nat (hash_func k mod n)) as (j' & Hj' & Hne).
  { destruct (decide (j < Z.to_nat (hash_func k mod n))%nat).
    - rewrite list_lookup_delete_lt in Hj by done. exists j. split; [done|lia].
    - rewrite list_lookup_delete_ge in Hj by lia. exists (S j). split; [done|lia]. }
  apply Hne. symmetry. by apply (proj1 (Forall_forall _ _) (Hp _ _ Hj') (k, v)).
Qed.

(** *** Rehashing *)

Lemma relink_ok n bs node :
  0 < n → length bs = Z.to_nat n → placed n bs →
  length (relink n bs node) = Z.to_nat n ∧ placed n (relink n bs node) ∧
  concat (relink n bs node) ≡ₚ node :: concat bs.
Proof.
  intros Hn Hlen Hp. unfold relink. set (i := Z.to_nat _).
  pose proof (Z.mod_pos_bound (hash_func node.1) n Hn).
  destruct (lookup_lt_is_Some_2 bs i) as [c Hi]; [lia|].
  assert (alter (cons node) i bs = <[i := node :: c]> bs) as ->.
  { apply list_eq. intros j. destruct (decide (i = j)) as [<-|].
    - rewrite list_lookup_alter_eq, Hi, list_lookup_insert_eq by (by eapply lookup_lt_Some). done.
    - by rewrite list_lookup_alter_ne, list_lookup_insert_ne. }
  split; [by rewrite length_insert|]. split.
  - eapply placed_insert; [done..|]. constructor; [done|by eapply Hp].
  - rewrite (concat_bucket_insert i bs c) by done. simpl. by rewrite <-concat_bucket.
Qed.

Lemma relink_chain_ok n bs c :
  0 < n → length bs = Z.to_nat n → placed n bs →
  length (foldl (relink n) bs c) = Z.to_nat n ∧ placed n (foldl (relink n) bs c) ∧
  concat (foldl (relink n) bs c) ≡ₚ c ++ concat bs.
Proof.
  intros Hn. revert bs. induction c as [|node c IH]; intros bs Hlen Hp; [done|]. simpl.
  destruct (relink_ok n bs node Hn Hlen Hp) as (Hlen' & Hp' & Hc).
  destruct (IH _ Hlen' Hp') as (? & ? & ->). split_and!; [done..|].
  rewrite Hc. by rewrite Permutation_middle.
Qed.

Lemma relink_all_ok n bs cs :
  0 < n → length bs = Z.to_nat n → placed n bs →
  let bs' := foldl (λ bs c, foldl (relink n) bs c) bs cs in
  length bs' = Z.to_nat n ∧ placed n bs' ∧ concat bs' ≡ₚ concat cs ++ concat bs.
Proof.
  intros Hn. revert bs. induction cs as [|c cs IH]; intros bs Hlen Hp; [done|]. simpl.
  destruct (relink_chain_ok n bs c Hn Hlen Hp) as (Hlen' & Hp' & Hc).
  destruct (IH _ Hlen' Hp') as (? & ? & ->). split_and!; [done..|].
  rewrite Hc. by solve_Permutation.
Qed.

Lemma placed_replicate n k : placed n (replicate k []).
Proof. intros i c [-> _]%lookup_replicate. constructor. Qed.
Lemma concat_replicate_nil k : concat (replicate k ([] : list (K * V))) = [].
Proof. by induction k. Qed.

(** Everything the operations establish for their caller. *)
Definition same_entries m (es : list (K * V)) : Prop := wf m ∧ entries m ≡ₚ es.

Lemma rehash_ok n m : wf m → 0 <= n → same_entries (rehash n m) (entries m).
Proof.
  intros Hwf Hn. unfold rehash. case_match eqn:E; [by split|].
  apply orb_false_iff in E as [?%Z.eqb_neq _].
  rewrite (take_ge (buckets m)) by (rewrite (wf_length m Hwf); lia).
  destruct (relink_all_ok n (replicate (Z.to_nat n) []) (buckets m))
    as (Hlen & Hp & Hc); [lia|by rewrite length_replicate|apply placed_replicate|].
  rewrite concat_replicate_nil, app_nil_r in Hc.
  split; [|exact Hc]. constructor; [simpl; lia|exact Hlen|exact Hp| |].
  - unfold entries. cbn [buckets]. rewrite Hc. by apply wf_nodup.
  - unfold entries. cbn [buckets elem_count]. rewrite Hc. by apply wf_count.
Qed.

Lemma same_entries_rehash n m es :
  0 <= n → same_entries m es → same_entries (rehash n m) es.
Proof.
  intros Hn [Hwf He]. destruct (rehash_ok n m Hwf Hn) as [? Hr]. split; [done|].
  by rewrite Hr.
Qed.

(** *** Each operation *)

Lemma wf_bucket m key :
  wf m → ∃ i c, bucket_index key (bucket_count m) = Ret i ∧ buckets m !! i = Some c ∧
                i = Z.to_nat (hash_func key mod bucket_count m).
Proof.
  intros Hwf. pose proof (wf_pos m Hwf) as Hpos. unfold bucket_index.
  pose proof (Z.mod_pos_bound (hash_func key) _ Hpos).
  destruct (Z.eqb_spec (bucket_count m) 0); [lia|].
  destruct (lookup_lt_is_Some_2 (buckets m) (Z.to_nat (hash_func key mod bucket_count m)))
    as [c Hc]; [rewrite (wf_length m Hwf); lia|].
  by eexists _, c.
Qed.

Lemma update_bucket_ok m key i c c' n :
  wf m → buckets m !! i = Some c → i = Z.to_nat (hash_func key mod bucket_count m) →
  Forall (λ kv, Z.to_nat (hash_func kv.1 mod bucket_count m) = i) c' →
  NoDup (c' ++ concat (delete i (buckets m))).*1 →
  n = elem_count m + (Z.of_nat (length c') - Z.of_nat (length c)) →
  same_entries (Umap (<[i := c']> (buckets m)) (bucket_count m) n (max_load_factor m)) (c' ++ concat (delete i (buckets m))).
Proof.
  intros Hwf Hc Hi Hall Hnd ->.
  assert (concat (<[i:=c']> (buckets m)) ≡ₚ c' ++ concat (delete i (buckets m))) as He
    by by eapply concat_bucket_insert.
  split; [|done]. constructor; unfold entries; simpl.
  - by apply wf_pos.
  - by rewrite length_insert, wf_length.
  - eapply placed_insert; [by apply wf_placed|done|done].
  - by rewrite He.
  - rewrite He, wf_count by done. unfold entries. rewrite (concat_bucket i (buckets m) c) by done.
    rewrite !length_app. lia.
Qed.

Lemma to_map_entries m es : same_entries m es → to_map m = list_to_map es.
Proof. intros [Hwf He]. unfold to_map. apply list_to_map_proper; [by apply wf_nodup|done]. Qed.

Lemma find_ok key m : wf m → find key m = Ret (to_map m !! key).
Proof.
  intros Hwf. destruct (wf_bucket m key Hwf) as (i & c & Ei & Hc & Hi). unfold find.
  rewrite Ei. cbn [mbind outcome_bind]. rewrite Hc. cbn [deref mbind outcome_bind]. f_equal.
  rewrite chain_find_map.
  rewrite (to_map_entries m (c ++ concat (delete i (buckets m))))
    by (split; [done|by apply concat_bucket]).
  rewrite list_to_map_app. symmetry. apply lookup_union_l.
  apply not_elem_of_list_to_map_1. eapply placed_others; [by apply wf_placed|done].
Qed.

Lemma umap_grow_ok m es : same_entries m es → same_entries (grow m) es.
Proof.
  intros Hs. unfold grow. case_match; [|done].
  apply same_entries_rehash; [apply wrap64_range|done].
Qed.
Lemma shrink_ok m es : same_entries m es → same_entries (shrink m) es.
Proof.
  intros Hs. unfold shrink. do 2 (case_match; [|done]).
  apply same_entries_rehash; [unfold MIN_BUCKETS; lia|done].
Qed.

Lemma nodup_others m i c :
  wf m → buckets m !! i = Some c → NoDup (c ++ concat (delete i (buckets m))).*1.
Proof. intros Hwf Hc. rewrite <-concat_bucket by done. by apply wf_nodup. Qed.

Lemma umap_insert_ok key value m :
  wf m → ∃ m', insert key value m = Ret m' ∧ wf m' ∧ to_map m' = <[key := value]> (to_map m).
Proof.
  intros Hwf. destruct (wf_bucket m key Hwf) as (i & c & Ei & Hc & Hi). unfold insert.
  rewrite Ei. cbn [mbind outcome_bind]. rewrite Hc. cbn [deref mbind outcome_bind].
  pose proof (nodup_others m i c Hwf Hc) as Hnd.
  pose proof (wf_placed m Hwf i c Hc) as Hall.
  rewrite (to_map_entries m (c ++ concat (delete i (buckets m))))
    by (split; [done|by apply concat_bucket]).
  destruct (chain_assign key value c) as [c'|] eqn:Ea.
  - apply chain_assign_Some in Ea as [Hf Hm]. eexists. split; [done|].
    edestruct (update_bucket_ok m key i c c' (elem_count m)) as [Hwf' He]; [done..| | | |].
    { apply Forall_keys. rewrite Hf. by apply Forall_keys. }
    { by rewrite fmap_app, Hf, <-fmap_app. }
    { rewrite <-(length_fmap fst c'), Hf, length_fmap. lia. }
    split; [done|].
    erewrite to_map_entries by done. rewrite !list_to_map_app, Hm. by rewrite insert_union_l.
  - apply chain_assign_None in Ea. eexists. split; [done|].
    assert (key ∉ (c ++ concat (delete i (buckets m))).*1) as Hnew.
    { rewrite fmap_app, not_elem_of_app. split; [done|].
      by eapply placed_others; [apply wf_placed|]. }
    edestruct (umap_grow_ok (Umap (<[i := (key, value) :: c]> (buckets m)) (bucket_count m)
      (elem_count m + 1) (max_load_factor m))) as [Hwf' He].
    { apply (update_bucket_ok m key i c ((key, value) :: c)); [done..| | |].
      - by constructor.
      - csimpl. by constructor.
      - rewrite length_cons. lia. }
    split; [exact Hwf'|]. by erewrite to_map_entries by (split; [exact Hwf'|exact He]).
Qed.

Lemma umap_erase_ok key m :
  wf m → ∃ m', erase key m = Ret (bool_decide (is_Some (to_map m !! key)), m') ∧
               wf m' ∧ to_map m' = delete key (to_map m).
Proof.
  intros Hwf. destruct (wf_bucket m key Hwf) as (i & c & Ei & Hc & Hi). unfold erase.
  rewrite Ei. cbn [mbind outcome_bind]. rewrite Hc. cbn [deref mbind outcome_bind].
  pose proof (nodup_others m i c Hwf Hc) as Hnd.
  pose proof (wf_placed m Hwf i c Hc) as Hall.
  rewrite (to_map_entries m (c ++ concat (delete i (buckets m))))
    by (split; [done|by apply concat_bucket]).
  destruct (chain_erase key c) as [c'|] eqn:Ee.
  - apply chain_erase_Some in Ee as [v Hp]. rewrite Hp in Hnd, Hall. csimpl in *.
    apply NoDup_cons in Hnd as [Hnew Hnd]. apply Forall_cons in Hall as [_ Hall].
    edestruct (shrink_ok (Umap (<[i := c']> (buckets m)) (bucket_count m)
      (elem_count m - 1) (max_load_factor m))) as [Hwf' He].
    { apply (update_bucket_ok m key i c c'); [done..|].
      apply Permutation_length in Hp. simpl in Hp. lia. }
    assert ((list_to_map (c ++ concat (delete i (buckets m))) : gmap K V) =
            <[key := v]> (list_to_map (c' ++ concat (delete i (buckets m))))) as ->.
    { rewrite <-list_to_map_cons. apply list_to_map_proper; [|by rewrite Hp].
      rewrite Hp. by constructor. }
    eexists. rewrite lookup_insert_eq. split; [by rewrite bool_decide_true by done|].
    split; [exact Hwf'|]. erewrite to_map_entries by (split; [exact Hwf'|exact He]).
    rewrite delete_insert_eq, delete_id; [done|]. by apply not_elem_of_list_to_map_1.
  - apply chain_erase_None in Ee.
    assert ((list_to_map (c ++ concat (delete i (buckets m))) : gmap K V) !! key = None) as Hno.
    { apply not_elem_of_list_to_map_1. rewrite fmap_app, not_elem_of_app. split; [done|].
      by eapply placed_others; [apply wf_placed|]. }
    eexists. rewrite Hno. split; [by rewrite bool_decide_false by (by intros [])|].
    split; [done|]. rewrite delete_id by done.
    apply to_map_entries. split; [done|by apply concat_bucket].
Qed.

Lemma concat_fmap_nil (bs : list (list (K * V))) : concat ((λ _, []) <$> bs) = ([] : list (K * V)).
Proof. by induction bs. Qed.

Lemma umap_clear_ok m : wf m → wf (clear m) ∧ to_map (clear m) = ∅.
Proof.
  intros Hwf. assert (same_entries (Umap ((λ _, []) <$> buckets m) (bucket_count m) 0
    (max_load_factor m)) []) as Hs.
  { split; [|unfold entries; simpl; by rewrite concat_fmap_nil].
    constructor; unfold entries; simpl; rewrite ?concat_fmap_nil; try done; [by apply wf_pos|..].
    - rewrite length_fmap. by apply wf_length.
    - intros j d (? & -> & _)%list_lookup_fmap_Some. constructor.
    - constructor. }
  assert (same_entries (clear m) []) as Hc.
  { unfold clear. case_match; [apply same_entries_rehash; done|done]. }
  split; [apply Hc|]. by rewrite (to_map_entries _ _ Hc).
Qed.

Lemma size_ok m : wf m → elem_count m = Z.of_nat (base.size (to_map m)).
Proof.
  intros Hwf. unfold to_map. rewrite map_size_list_to_map by (by apply wf_nodup).
  by apply wf_count.
Qed.

Lemma unordered_map_ok n lf : 0 < n → same_entries (unordered_map n lf) [].
Proof.
  intros Hn. split; [|apply Permutation_refl', concat_replicate_nil].
  constructor; unfold entries; simpl; rewrite ?concat_replicate_nil; try done.
  - by rewrite length_replicate.
  - apply placed_replicate.
  - constructor.
Qed.

(** ** Iteration *)

(** The entries an iterator has still to visit. *)
Definition rest m (it : iterator) : list (K * V) :=
  it_curr it ++ concat (drop (S (Z.to_nat (it_bucket it))) (buckets m)).

Definition it_ok m (it : iterator) : Prop :=
  0 <= it_bucket it ∧ (it_curr it = [] → it_bucket it = bucket_count m).

Lemma drop_bucket m i c :
  0 <= i → buckets m !! Z.to_nat i = Some c →
  concat (drop (Z.to_nat i) (buckets m)) = c ++ concat (drop (S (Z.to_nat i)) (buckets m)).
Proof. intros Hi Hc. by rewrite (drop_S _ _ _ Hc). Qed.

Lemma drop_all_buckets m i : wf m → bucket_count m <= i → drop (Z.to_nat i) (buckets m) = [].
Proof. intros Hwf Hi. apply drop_ge. rewrite (wf_length m Hwf). lia. Qed.

Lemma advance_loop_ok fuel m i curr :
  wf m → 0 <= i → bucket_count m - i <= Z.of_nat fuel →
  ∃ it, advance_loop fuel m i curr = Ret it ∧ it_ok m it ∧
        rest m it = curr ++ concat (drop (S (Z.to_nat i)) (buckets m)).
Proof.
  intros Hwf. pose proof (wf_pos m Hwf). revert i curr. induction fuel as [|fuel IH]; intros i [|kv c] Hi Hf; simpl.
  - destruct (Z.ltb_spec (i + 1) (bucket_count m)); [lia|]. eexists. split; [done|].
    unfold rest, it_ok. simpl.
    replace (S (Z.to_nat (bucket_count m))) with (Z.to_nat (bucket_count m + 1)) by lia.
    replace (S (Z.to_nat i)) with (Z.to_nat (i + 1)) by lia.
    rewrite !drop_all_buckets by (done || lia). split; [|done]. split; [lia|done].
  - by eexists.
  - destruct (Z.ltb_spec (i + 1) (bucket_count m)).
    + destruct (lookup_lt_is_Some_2 (buckets m) (Z.to_nat (i + 1))) as [c Hc];
        [rewrite (wf_length m Hwf); lia|].
      rewrite Hc. cbn [deref mbind outcome_bind].
      destruct (IH (i + 1) c) as (it & -> & Hit & Hr); [lia|lia|].
      eexists. split; [done|]. split; [done|]. rewrite Hr.
      replace (S (Z.to_nat i)) with (Z.to_nat (i + 1)) by lia.
      by rewrite (drop_bucket m (i + 1) c) by (done || lia).
    + eexists. split; [done|]. unfold rest, it_ok. simpl.
      replace (S (Z.to_nat (bucket_count m))) with (Z.to_nat (bucket_count m + 1)) by lia.
      replace (S (Z.to_nat i)) with (Z.to_nat (i + 1)) by lia.
      rewrite !drop_all_buckets by (done || lia). split; [|done].
      split; [pose proof (wf_pos m Hwf); lia|done].
  - by eexists.
Qed.

Lemma begin_loop_ok fuel m i :
  wf m → 0 <= i → bucket_count m - i <= Z.of_nat fuel →
  ∃ it, begin_loop fuel m i = Ret it ∧ it_ok m it ∧
        rest m it = concat (drop (Z.to_nat i) (buckets m)).
Proof.
  intros Hwf. pose proof (wf_pos m Hwf).
  revert i. induction fuel as [|fuel IH]; intros i Hi Hf; simpl;
    (destruct (Z.ltb_spec i (bucket_count m)); [try lia|]).
  1,3: eexists; split; [done|]; unfold rest, it_ok; simpl;
    replace (S (Z.to_nat (bucket_count m))) with (Z.to_nat (bucket_count m + 1)) by lia;
    rewrite !drop_all_buckets by (done || lia); split; [|done];
    split; [pose proof (wf_pos m Hwf); lia|done].
  destruct (lookup_lt_is_Some_2 (buckets m) (Z.to_nat i)) as [c Hc];
    [rewrite (wf_length m Hwf); lia|].
  rewrite Hc. cbn [deref mbind outcome_bind].
  rewrite (drop_bucket m i c) by (done || lia). destruct c as [|kv c].
  - destruct (IH (i + 1)) as (it & -> & Hit & Hr); [lia|lia|].
    eexists. split; [done|]. split; [done|]. rewrite Hr.
    by replace (S (Z.to_nat i)) with (Z.to_nat (i + 1)) by lia.
  - by eexists.
Qed.

Lemma iterate_ok fuel m it :
  wf m → it_ok m it → (length (rest m it) < fuel)%nat → iterate fuel m it = Ret (rest m it).
Proof.
  intros Hwf. pose proof (wf_pos m Hwf). revert it. induction fuel as [|fuel IH]; intros it [Hb Hend] Hf; [lia|]. simpl.
  unfold at_end. destruct it as [i [|kv c]]; simpl in *.
  - rewrite Hend, Z.eqb_refl by done. unfold rest. simpl.
    replace (S (Z.to_nat (bucket_count m))) with (Z.to_nat (bucket_count m + 1)) by lia.
    by rewrite drop_all_buckets by (done || lia).
  - rewrite andb_false_r. unfold advance, it_deref. cbn [it_curr it_bucket mbind outcome_bind tail].
    destruct (advance_loop_ok (Z.to_nat (bucket_count m)) m i c) as (it' & -> & Hit & Hr);
      [done|done|lia|]. cbn [mbind outcome_bind].
    rewrite IH; [|done|]; rewrite Hr; [done|]. unfold rest in Hf. simpl in Hf. lia.
Qed.

Lemma traverse_ok m : wf m → traverse m = Ret (entries m).
Proof.
  intros Hwf. unfold traverse, begin.
  destruct (begin_loop_ok (Z.to_nat (bucket_count m)) m 0) as (it & -> & Hit & Hr);
    [done|done|lia|]. cbn [mbind outcome_bind].
  change (rest m it = entries m) in Hr.
  rewrite iterate_ok; [by rewrite Hr|done|done|]. rewrite Hr, (wf_count m Hwf). lia.
Qed.

(** ** Histories *)

Inductive call := Insert key value | Find key | Erase key | Size | Empty | Clear | Traverse.
Inductive answer :=
  | AUnit | AFind (v : option V) | ABool (b : bool) | ASize (n : Z) | AEntries (l : list (K * V)).

Definition umap_call (o : call) m : outcome (answer * umap) :=
  match o with
  | Insert key value => m' ← insert key value m; Ret (AUnit, m')
  | Find key => r ← find key m; Ret (AFind r, m)
  | Erase key => '(b, m') ← erase key m; Ret (ABool b, m')
  | Size => Ret (ASize (size m), m)
  | Empty => Ret (ABool (empty m), m)
  | Clear => Ret (AUnit, clear m)
  | Traverse => l ← traverse m; Ret (AEntries l, m)
  end.

(** What a finite map answers to the same call; a traversal may list the entries in
    any order. *)
Definition spec_call (o : call) (a : answer) (f f' : gmap K V) : Prop :=
  match o with
  | Insert key value => a = AUnit ∧ f' = <[key := value]> f
  | Find key => a = AFind (f !! key) ∧ f' = f
  | Erase key => a = ABool (bool_decide (is_Some (f !! key))) ∧ f' = delete key f
  | Size => a = ASize (Z.of_nat (base.size f)) ∧ f' = f
  | Empty => a = ABool (bool_decide (f = ∅)) ∧ f' = f
  | Clear => a = AUnit ∧ f' = ∅
  | Traverse => (∃ l, a = AEntries l ∧ l ≡ₚ map_to_list f) ∧ f' = f
  end.

Fixpoint umap_calls (os : list call) m : outcome (list answer * umap) :=
  match os with
  | [] => Ret ([], m)
  | o :: os' =>
      '(a, m') ← umap_call o m; '(l, m'') ← umap_calls os' m'; Ret (a :: l, m'')
  end.

Inductive spec_calls : list call → list answer → gmap K V → gmap K V → Prop :=
  | spec_nil f : spec_calls [] [] f f
  | spec_cons o os a l f f' f'' :
      spec_call o a f f' → spec_calls os l f' f'' → spec_calls (o :: os) (a :: l) f f''.

Lemma umap_call_ok o m :
  wf m → ∃ a m', umap_call o m = Ret (a, m') ∧ wf m' ∧ spec_call o a (to_map m) (to_map m').
Proof.
  intros Hwf. destruct o; simpl.
  - destruct (umap_insert_ok key value m Hwf) as (m' & -> & ? & ?). by eexists _, m'.
  - rewrite find_ok by done. by eexists _, m.
  - destruct (umap_erase_ok key m Hwf) as (m' & -> & ? & ?). by eexists _, m'.
  - eexists _, m. split; [done|]. split; [done|]. unfold size. by rewrite size_ok.
  - eexists _, m. split; [done|]. split; [done|]. split; [|done]. f_equal. unfold empty.
    rewrite size_ok by done. case_bool_decide as E.
    + by rewrite E, map_size_empty.
    + apply Z.eqb_neq. contradict E. apply map_size_empty_iff. lia.
  - destruct (umap_clear_ok m Hwf). by eexists _, _.
  - rewrite traverse_ok by done. eexists _, m. split; [done|]. split; [done|].
    split; [|done]. exists (entries m). split; [done|]. unfold to_map.
    symmetry. apply map_to_list_to_map. by apply wf_nodup.
Qed.

(** C3. Whatever the hash function, the initial number of buckets (at least one) and the
    maximal load factor, no history of calls is undefined behaviour and the answers are
    those of a finite map: a traversal from [begin] to [end] lists every entry once. *)
Theorem umap_refines_map (init_capacity : Z) (max_load : double) (os : list call) :
  0 < init_capacity →
  ∃ l m f, umap_calls os (unordered_map init_capacity max_load) = Ret (l, m) ∧
           spec_calls os l ∅ f ∧ to_map m = f.
Proof.
  intros Hcap. destruct (unordered_map_ok init_capacity max_load Hcap) as [Hwf He].
  assert (to_map (unordered_map init_capacity max_load) = ∅) as <-.
  { by rewrite (to_map_entries _ []) by (split; [exact Hwf|exact He]). }
  revert Hwf. generalize (unordered_map init_capacity max_load). clear.
  induction os as [|o os IH]; intros m Hwf; simpl; [by eexists _, _, _; repeat constructor|].
  destruct (umap_call_ok o m Hwf) as (a & m' & -> & Hwf' & Hs). cbn [mbind outcome_bind].
  destruct (IH m' Hwf') as (l & m'' & f & -> & Hl & Hf).
  eexists _, _, _. split; [done|]. split; [by econstructor|done].
Qed.
End umap.

(** A table of one bucket, with every key in it. *)
Lemma umap_refines_map_witness :
  ∃ l m f, umap_calls (λ _, 0) [Insert 1 10; Insert 2 20; Insert 1 30; Find 1; Erase 2; Traverse; Size]
             (unordered_map (K := Z) 1 (double_of_size 1)) = Ret (l, m) ∧
           spec_calls [Insert 1 10; Insert 2 20; Insert 1 30; Find 1; Erase 2; Traverse; Size]
             l ∅ f ∧ to_map m = f.
Proof. apply (umap_refines_map (λ _, 0)). lia. Defined.

(** The rehash policy at work: with a maximal load factor of one, the ninth entry of an
    eight-bucket table doubles it. *)
Example umap_grows :
  (λ r, match r with Ret (_, m) => bucket_count m | _ => 0 end)
    (umap_calls (λ k, k) ((λ i, Insert (Z.of_nat i) tt) <$> seq 0 9)
       (unordered_map 8 (double_of_size 1))) = 16.
Proof. vm_compute. reflexivity. Qed.
