(* ===== verification/RingDeque.v ===== *)
(** * [sen_std::deque] of base_stl/deque_demo.h

    A ring buffer with [size_t] indices.  Its contract is a list with two ends; the
    operations keep it through any history of calls, also when an allocation
    fails.  Three behaviours outside the contract are shown by running the code:
    the iterator adds the value of the first element to its position instead of
    the index, [push_front] on an empty deque doubles the buffer each time, and
    [resize] to the current size leaves the back index past the end. *)

From stdpp Require Import base list strings.
From Stdlib Require Import ZArith Lia.
From S2P Require Import Prelude CxxString.

Local Open Scope Z_scope.

(** ** Machine operations *)

(** [a % b] on [size_t]. *)
Definition umod (a b : Z) : outcome Z := if b =? 0 then Undef else Ret (a mod b).

(** Reading and writing a cell of a heap array; outside of it, undefined behaviour. *)
Definition load_cell {A} (buf : list A) (i : Z) : outcome A :=
  if 0 <=? i then deref (buf !! Z.to_nat i) else Undef.
Definition store_cell {A} (buf : list A) (i : Z) (x : A) : outcome (list A) :=
  if (0 <=? i) && (i <? Z.of_nat (length buf)) then Ret (<[Z.to_nat i := x]> buf) else Undef.

Lemma mod_window a n : 0 <= a < 2 * n → a mod n = if a <? n then a else a - n.
Proof.
  intros Ha. destruct (Z.ltb_spec a n); [apply Z.mod_small; lia|].
  symmetry. apply (Z.mod_unique_pos a n 1); lia.
Qed.

(** The code's [(i - 1 + n) % n] in [size_t]. *)
Lemma pred_index i n :
  0 <= i < n → n < 2 ^ 62 →
  umod (wrap64 (wrap64 (i - 1) + n)) n = Ret (if i =? 0 then n - 1 else i - 1).
Proof.
  intros Hi Hn. unfold umod. destruct (Z.eqb_spec n 0); [lia|]. f_equal.
  destruct (Z.eqb_spec i 0) as [->|].
  - change (wrap64 (0 - 1)) with (2 ^ 64 - 1). unfold wrap64.
    rewrite (mod_window (2 ^ 64 - 1 + n)) by lia.
    destruct (Z.ltb_spec (2 ^ 64 - 1 + n) (2 ^ 64)); [lia|]. rewrite Z.mod_small; lia.
  - rewrite (wrap64_small (i - 1)), wrap64_small by lia. rewrite mod_window by lia. ztest; lia.
Qed.

(** The code's [(i + 1) % n]. *)
Lemma succ_index i n :
  0 <= i < n → n < 2 ^ 62 →
  umod (wrap64 (i + 1)) n = Ret (if i + 1 =? n then 0 else i + 1).
Proof.
  intros Hi Hn. unfold umod. destruct (Z.eqb_spec n 0); [lia|]. f_equal.
  rewrite wrap64_small by lia. rewrite mod_window by lia. ztest; lia.
Qed.

Lemma store_cell_ok {A} (buf : list A) i x :
  0 <= i < Z.of_nat (length buf) → store_cell buf i x = Ret (<[Z.to_nat i := x]> buf).
Proof. intros Hi. unfold store_cell. ztest; try lia. done. Qed.
Lemma load_cell_ok {A} (buf : list A) i x :
  0 <= i → buf !! Z.to_nat i = Some x → load_cell buf i = Ret x.
Proof. intros Hi Hx. unfold load_cell. ztest; [|lia]. by rewrite Hx. Qed.

Section deque.
Context {T : Type}.
(** [operator new[]]: which requests the allocator grants. *)
Context (alloc_ok : Z → bool).

(** A cell never assigned is [None]: [new T[n]] default-initialises it. *)
Record deque := Deque {
  buffer : list (option T);
  capacity : Z;
  count : Z;
  front_index : Z;
  back_index : Z
}.
Implicit Types (d : deque) (x value : T).

Definition new_array (n : Z) : outcome (list (option T)) :=
  if alloc_ok n then Ret (replicate (Z.to_nat n) None) else Throw BadAlloc.

Definition deque_ctor (initial_capacity : Z) : outcome deque :=
  buf ← new_array initial_capacity; Ret (Deque buf initial_capacity 0 0 0).

Definition empty d : bool := count d =? 0.
Definition size d : Z := count d.

(** The copying loop of [resize], from index [i], [n] iterations left. *)
Fixpoint copy_loop (n : nat) (i : Z) d (new_buf : list (option T)) :
    outcome (list (option T)) :=
  match n with
  | O => Ret new_buf
  | S n' =>
      idx ← umod (wrap64 (front_index d + i)) (capacity d);
      x ← load_cell (buffer d) idx;
      new_buf' ← store_cell new_buf i x;
      copy_loop n' (i + 1) d new_buf'
  end.

Definition resize (new_capacity : Z) d : outcome deque :=
  new_buf ← new_array new_capacity;
  new_buf' ← copy_loop (Z.to_nat (count d)) 0 d new_buf;
  Ret (Deque new_buf' new_capacity (count d) 0 (count d)).

Definition push_front value d : outcome deque :=
  d ← (if (front_index d =? back_index d) || (count d =? capacity d)
       then resize (wrap64 (capacity d * 2)) d else Ret d);
  front ← umod (wrap64 (wrap64 (front_index d - 1) + capacity d)) (capacity d);
  buf ← store_cell (buffer d) front (Some value);
  Ret (Deque buf (capacity d) (count d + 1) front (back_index d)).

Definition push_back value d : outcome deque :=
  d ← (if count d =? capacity d then resize (wrap64 (capacity d * 2)) d else Ret d);
  buf ← store_cell (buffer d) (back_index d) (Some value);
  back ← umod (wrap64 (back_index d + 1)) (capacity d);
  Ret (Deque buf (capacity d) (count d + 1) (front_index d) back).

Definition pop_front d : outcome deque :=
  if empty d then Throw OutOfRange
  else
    front ← umod (wrap64 (front_index d + 1)) (capacity d);
    Ret (Deque (buffer d) (capacity d) (count d - 1) front (back_index d)).

Definition pop_back d : outcome deque :=
  if empty d then Throw OutOfRange
  else
    back ← umod (wrap64 (wrap64 (back_index d - 1) + capacity d)) (capacity d);
    Ret (Deque (buffer d) (capacity d) (count d - 1) (front_index d) back).

Definition front d : outcome (option T) :=
  if empty d then Throw OutOfRange else load_cell (buffer d) (front_index d).

Definition back d : outcome (option T) :=
  if empty d then Throw OutOfRange
  else
    idx ← umod (wrap64 (wrap64 (back_index d - 1) + capacity d)) (capacity d);
    load_cell (buffer d) idx.

(** *** The representation *)

Record rep d (l : list T) : Prop := {
  rep_cap : 0 < capacity d < 2 ^ 62;
  rep_buf : Z.of_nat (length (buffer d)) = capacity d;
  rep_count : count d = Z.of_nat (length l);
  rep_full : count d <= capacity d;
  rep_front : 0 <= front_index d < capacity d;
  rep_back : back_index d = (front_index d + count d) mod capacity d;
  rep_cells i x : l !! i = Some x →
    buffer d !! Z.to_nat ((front_index d + Z.of_nat i) mod capacity d) = Some (Some x)
}.

(** A cell of the window, without the modulus. *)
Definition slot d (i : Z) : Z :=
  if front_index d + i <? capacity d then front_index d + i
  else front_index d + i - capacity d.

Lemma slot_mod d l i :
  rep d l → 0 <= i <= count d → (front_index d + i) mod capacity d = slot d i.
Proof.
  intros Hr Hi. pose proof (rep_front d l Hr). pose proof (rep_full d l Hr).
  unfold slot. apply mod_window. lia.
Qed.

Lemma rep_cell d l i x :
  rep d l → l !! i = Some x → buffer d !! Z.to_nat (slot d (Z.of_nat i)) = Some (Some x).
Proof.
  intros Hr Hx. pose proof (lookup_lt_Some _ _ _ Hx). pose proof (rep_count d l Hr).
  rewrite <-(slot_mod d l) by (done || lia). by apply (rep_cells d l).
Qed.

(** The invariant as the operations establish it. *)
Lemma rep_intro buf cap front_i back_i l :
  0 < cap < 2 ^ 62 → Z.of_nat (length buf) = cap → Z.of_nat (length l) <= cap →
  0 <= front_i < cap →
  back_i = slot (Deque buf cap (Z.of_nat (length l)) front_i 0) (Z.of_nat (length l)) →
  (∀ i x, l !! i = Some x →
     buf !! Z.to_nat (slot (Deque buf cap (Z.of_nat (length l)) front_i 0) (Z.of_nat i))
     = Some (Some x)) →
  rep (Deque buf cap (Z.of_nat (length l)) front_i back_i) l.
Proof.
  intros Hcap Hbuf Hfull Hfront Hback Hcells. constructor; simpl; try done; try lia.
  - rewrite Hback. unfold slot. simpl. symmetry. apply mod_window. lia.
  - intros i x Hx. pose proof (lookup_lt_Some _ _ _ Hx).
    rewrite mod_window by lia. by apply Hcells.
Qed.

Lemma copy_loop_ok d l n i nb :
  rep d l → 0 <= i → i + Z.of_nat n = count d → count d <= Z.of_nat (length nb) →
  ∃ nb', copy_loop n i d nb = Ret nb' ∧ length nb' = length nb ∧
         (∀ j, (j < Z.to_nat i)%nat → nb' !! j = nb !! j) ∧
         (∀ j x, (Z.to_nat i <= j)%nat → l !! j = Some x → nb' !! j = Some (Some x)).
Proof.
  intros Hr. pose proof (rep_front d l Hr). pose proof (rep_full d l Hr).
  pose proof (rep_cap d l Hr). pose proof (rep_count d l Hr).
  revert i nb. induction n as [|n IH]; intros i nb Hi Hn Hlen; simpl.
  { exists nb. split_and!; try done. intros j x Hj Hx%lookup_lt_Some. lia. }
  unfold umod. destruct (Z.eqb_spec (capacity d) 0); [lia|]. cbn [mbind outcome_bind].
  rewrite wrap64_small by lia. rewrite (slot_mod d l) by (done || lia).
  destruct (lookup_lt_is_Some_2 l (Z.to_nat i)) as [x Hx]; [lia|].
  pose proof (rep_cell d l _ _ Hr Hx) as Hcell. rewrite Z2Nat.id in Hcell by lia.
  assert (0 <= slot d i) by (unfold slot; case_match; zbool; lia).
  rewrite (load_cell_ok _ _ _ ltac:(done) Hcell). cbn [mbind outcome_bind].
  rewrite store_cell_ok by lia. cbn [mbind outcome_bind].
  destruct (IH (i + 1) (<[Z.to_nat i := Some x]> nb)) as (nb' & -> & Hl & Hlo & Hhi);
    [lia|lia|by rewrite length_insert|].
  exists nb'. rewrite length_insert in Hl. split_and!; [done|done| |].
  - intros j Hj. rewrite Hlo by lia. by rewrite list_lookup_insert_ne by lia.
  - intros j y Hj Hy. destruct (decide (j = Z.to_nat i)) as [->|].
    + rewrite Hlo by lia. simplify_eq. rewrite list_lookup_insert_eq by lia. done.
    + apply Hhi; [lia|done].
Qed.

Lemma resize_ok nc d l :
  rep d l → count d < nc < 2 ^ 62 → alloc_ok nc = true →
  ∃ d', resize nc d = Ret d' ∧ rep d' l ∧ capacity d' = nc ∧ count d' = count d.
Proof.
  intros Hr Hnc Ha. unfold resize, new_array. rewrite Ha. cbn [mbind outcome_bind].
  pose proof (rep_count d l Hr) as Hc.
  destruct (copy_loop_ok d l (Z.to_nat (count d)) 0 (replicate (Z.to_nat nc) None))
    as (nb & -> & Hlen & _ & Hcells); [done|lia|lia|rewrite length_replicate; lia|].
  rewrite length_replicate in Hlen. cbn [mbind outcome_bind].
  eexists. split; [done|]. split; [|done]. rewrite Hc. apply rep_intro; try lia.
  - unfold slot. simpl. ztest; lia.
  - intros i x Hx. pose proof (lookup_lt_Some _ _ _ Hx). unfold slot.
    cbn [front_index capacity]. rewrite Z.add_0_l. ztest; [|lia]. rewrite Nat2Z.id. apply Hcells; [lia|done].
Qed.

(** ** Operations against the list *)

(** An array of [n] elements fits the address space. *)
Hypothesis alloc_bound : ∀ n, alloc_ok n = true → n < 2 ^ 62.

(** The guarded [resize(_capacity * 2)] of the two pushes. *)
Lemma ring_grow_ok d l (c : bool) :
  rep d l → (c = false → count d < capacity d) →
  (if c then resize (wrap64 (capacity d * 2)) d else Ret d) = Throw BadAlloc ∨
  ∃ d', (if c then resize (wrap64 (capacity d * 2)) d else Ret d) = Ret d' ∧
        rep d' l ∧ count d' < capacity d'.
Proof using alloc_bound.
  intros Hr Hc. destruct c; [|right; exists d; auto].
  pose proof (rep_cap d l Hr). pose proof (rep_full d l Hr).
  rewrite wrap64_small by lia. destruct (alloc_ok (capacity d * 2)) eqn:Ha.
  - pose proof (alloc_bound _ Ha).
    destruct (resize_ok (capacity d * 2) d l) as (d' & E & Hr' & Hcap & Hcount);
      [done|lia|done|]. right. exists d'. rewrite Hcap, Hcount. auto with lia.
  - left. unfold resize, new_array. by rewrite Ha.
Qed.

Lemma push_back_ok x d l :
  rep d l → push_back x d = Throw BadAlloc ∨
            ∃ d', push_back x d = Ret d' ∧ rep d' (l ++ [x]).
Proof using alloc_bound.
  intros Hr. unfold push_back.
  destruct (ring_grow_ok d l (count d =? capacity d) Hr) as [->|(d' & -> & Hr' & Hlt)].
  { intros ?%Z.eqb_neq. pose proof (rep_full d l Hr). lia. }
  { by left. }
  right. clear d Hr. rename d' into d. cbn [mbind outcome_bind].
  pose proof (rep_cap d l Hr'). pose proof (rep_front d l Hr'). pose proof (rep_count d l Hr').
  pose proof (rep_buf d l Hr') as Hbuf.
  assert (back_index d = slot d (count d)) as Hb
    by (rewrite (rep_back d l Hr'); apply (slot_mod d l); [done|lia]).
  assert (0 <= back_index d < capacity d) by (rewrite Hb; unfold slot; case_match; zbool; lia).
  rewrite store_cell_ok, succ_index by lia. cbn [mbind outcome_bind].
  eexists. split; [done|].
  replace (count d + 1) with (Z.of_nat (length (l ++ [x]))) by (rewrite length_app; simpl; lia).
  apply rep_intro; rewrite ?length_insert, ?length_app; try done; simpl; try lia.
  - rewrite Hb. unfold slot. cbn [front_index capacity]. repeat (case_match; zbool); lia.
  - intros i y [Hy|[Hi Hy]]%lookup_app_Some.
    + pose proof (lookup_lt_Some _ _ _ Hy). rewrite list_lookup_insert_ne.
      * apply (rep_cell d l); done.
      * rewrite Hb. unfold slot. cbn [front_index capacity].
        repeat (case_match; zbool); lia.
    + apply list_lookup_singleton_Some in Hy as [Hi' <-].
      replace (Z.of_nat i) with (count d) by lia. unfold slot in *.
      cbn [front_index capacity]. rewrite <-Hb. apply list_lookup_insert_eq. lia.
Qed.

Lemma push_front_ok x d l :
  rep d l → push_front x d = Throw BadAlloc ∨
            ∃ d', push_front x d = Ret d' ∧ rep d' (x :: l).
Proof using alloc_bound.
  intros Hr. unfold push_front.
  destruct (ring_grow_ok d l ((front_index d =? back_index d) || (count d =? capacity d)) Hr)
    as [->|(d' & -> & Hr' & Hlt)].
  { intros [_ ?%Z.eqb_neq]%orb_false_iff. pose proof (rep_full d l Hr). lia. }
  { by left. }
  right. clear d Hr. rename d' into d. cbn [mbind outcome_bind].
  pose proof (rep_cap d l Hr'). pose proof (rep_front d l Hr'). pose proof (rep_count d l Hr').
  pose proof (rep_buf d l Hr') as Hbuf.
  assert (back_index d = slot d (count d)) as Hb
    by (rewrite (rep_back d l Hr'); apply (slot_mod d l); [done|lia]).
  rewrite pred_index by lia. cbn [mbind outcome_bind].
  set (f := if front_index d =? 0 then capacity d - 1 else front_index d - 1).
  assert (0 <= f < capacity d) by (unfold f; ztest; lia).
  rewrite store_cell_ok by lia. cbn [mbind outcome_bind]. eexists. split; [done|].
  replace (count d + 1) with (Z.of_nat (length (x :: l))) by (simpl; lia).
  apply rep_intro; rewrite ?length_insert, ?length_cons; try done; try lia.
  - rewrite Hb. unfold slot, f. cbn [front_index capacity]. repeat (case_match; zbool); lia.
  - intros [|i] y Hy; simpl in Hy.
    + simplify_eq. unfold slot. cbn [front_index capacity]. rewrite Z.add_0_r.
      ztest; [|lia]. apply list_lookup_insert_eq. lia.
    + pose proof (lookup_lt_Some _ _ _ Hy).
      assert (slot (Deque (<[Z.to_nat f := Some x]> (buffer d)) (capacity d)
        (Z.of_nat (S (length l))) f 0) (Z.of_nat (S i)) = slot d (Z.of_nat i)) as Hs.
      { unfold slot, f. cbn [front_index capacity]. repeat (case_match; zbool); lia. }
      unfold slot in Hs |- *. cbn [front_index capacity] in Hs |- *. rewrite Hs.
      rewrite list_lookup_insert_ne; [by apply (rep_cell d l)|].
      unfold f. repeat (case_match; zbool); lia.
Qed.

Lemma ring_empty_ok d l : rep d l → empty d = match l with [] => true | _ => false end.
Proof. intros Hr. unfold empty. rewrite (rep_count d l Hr). by destruct l. Qed.

Lemma pop_front_ok d x l : rep d (x :: l) → ∃ d', pop_front d = Ret d' ∧ rep d' l.
Proof.
  intros Hr. unfold pop_front. rewrite (ring_empty_ok d _ Hr).
  pose proof (rep_cap d _ Hr). pose proof (rep_front d _ Hr). pose proof (rep_full d _ Hr).
  pose proof (rep_buf d _ Hr). pose proof (rep_count d _ Hr) as Hc. simpl in Hc.
  assert (back_index d = slot d (count d)) as Hb
    by (rewrite (rep_back d _ Hr); eapply slot_mod; [done|lia]).
  rewrite succ_index by lia. cbn [mbind outcome_bind]. eexists. split; [done|].
  replace (count d - 1) with (Z.of_nat (length l)) by lia.
  apply rep_intro; try done; try lia.
  - ztest; lia.
  - rewrite Hb. unfold slot. cbn [front_index capacity]. repeat (case_match; zbool); lia.
  - intros i y Hy. pose proof (lookup_lt_Some _ _ _ Hy).
    rewrite <-(rep_cell d _ (S i) y Hr Hy). do 2 f_equal. unfold slot.
    cbn [front_index capacity]. repeat (case_match; zbool); lia.
Qed.

Lemma pop_back_ok d x l : rep d (l ++ [x]) → ∃ d', pop_back d = Ret d' ∧ rep d' l.
Proof.
  intros Hr. unfold pop_back. rewrite (ring_empty_ok d _ Hr).
  pose proof (rep_cap d _ Hr). pose proof (rep_front d _ Hr). pose proof (rep_full d _ Hr).
  pose proof (rep_buf d _ Hr). pose proof (rep_count d _ Hr) as Hc.
  rewrite length_app in Hc. simpl in Hc.
  assert (back_index d = slot d (count d)) as Hb
    by (rewrite (rep_back d _ Hr); eapply slot_mod; [done|lia]).
  assert (0 <= back_index d < capacity d) by (rewrite Hb; unfold slot; case_match; zbool; lia).
  replace (match l ++ [x] with [] => true | _ => false end) with false by (by destruct l).
  rewrite pred_index by lia. cbn [mbind outcome_bind]. eexists. split; [done|].
  replace (count d - 1) with (Z.of_nat (length l)) by lia.
  apply rep_intro; try done; try lia.
  - unfold slot in *. cbn [front_index capacity]. repeat (case_match; zbool); lia.
  - intros i y Hy. pose proof (lookup_lt_Some _ _ _ Hy).
    rewrite <-(rep_cell d _ i y Hr) by (by apply lookup_app_l_Some). done.
Qed.

Lemma front_ok d x l : rep d (x :: l) → front d = Ret (Some x).
Proof.
  intros Hr. unfold front. rewrite (ring_empty_ok d _ Hr). pose proof (rep_front d _ Hr).
  apply load_cell_ok; [lia|]. pose proof (rep_cell d _ 0 x Hr eq_refl) as Hx.
  unfold slot in Hx. rewrite Z.add_0_r in Hx. revert Hx. ztest; [done|lia].
Qed.

Lemma back_ok d x l : rep d (l ++ [x]) → back d = Ret (Some x).
Proof.
  intros Hr. unfold back. rewrite (ring_empty_ok d _ Hr).
  pose proof (rep_cap d _ Hr). pose proof (rep_front d _ Hr). pose proof (rep_full d _ Hr).
  pose proof (rep_count d _ Hr) as Hc. rewrite length_app in Hc. simpl in Hc.
  assert (back_index d = slot d (count d)) as Hb
    by (rewrite (rep_back d _ Hr); eapply slot_mod; [done|lia]).
  assert (0 <= back_index d < capacity d) by (rewrite Hb; unfold slot; case_match; zbool; lia).
  replace (match l ++ [x] with [] => true | _ => false end) with false by (by destruct l).
  rewrite pred_index by lia. cbn [mbind outcome_bind].
  pose proof (rep_cell d _ (length l) x Hr ltac:(by apply list_lookup_middle)) as Hx.
  apply load_cell_ok; [ztest; lia|]. rewrite <-Hx. do 2 f_equal.
  rewrite Hb. unfold slot. repeat (case_match; zbool); lia.
Qed.

Lemma deque_ctor_ok n : 0 < n → alloc_ok n = true → ∃ d, deque_ctor n = Ret d ∧ rep d [].
Proof using alloc_bound.
  intros Hn Ha. pose proof (alloc_bound n Ha). unfold deque_ctor, new_array. rewrite Ha.
  eexists. split; [done|]. apply (rep_intro _ _ _ _ []); try done.
  - by rewrite length_replicate, Z2Nat.id by lia.
  - simpl. lia.
  - unfold slot. simpl. ztest; lia.
Qed.

(** ** Histories *)

Inductive call := PushFront (x : T) | PushBack (x : T) | PopFront | PopBack | Front | Back
                | Size | Empty.
Inductive answer := AUnit | AElem (x : option T) | ASize (n : Z) | ABool (b : bool)
                  | AThrow (e : exn).

(** A call and what the caller sees; a thrown exception leaves the deque it was
    called on. *)
Definition deque_call (o : call) d : outcome (answer * deque) :=
  let catch (r : outcome deque) : outcome (answer * deque) :=
    match r with Ret d' => Ret (AUnit, d') | Throw e => Ret (AThrow e, d) | Undef => Undef end in
  let catch_elem (r : outcome (option T)) : outcome (answer * deque) :=
    match r with Ret x => Ret (AElem x, d) | Throw e => Ret (AThrow e, d) | Undef => Undef end in
  match o with
  | PushFront x => catch (push_front x d)
  | PushBack x => catch (push_back x d)
  | PopFront => catch (pop_front d)
  | PopBack => catch (pop_back d)
  | Front => catch_elem (front d)
  | Back => catch_elem (back d)
  | Size => Ret (ASize (size d), d)
  | Empty => Ret (ABool (empty d), d)
  end.

(** What a list with two ends answers; a push may run out of memory. *)
Definition spec_call (o : call) (a : answer) (l l' : list T) : Prop :=
  match o with
  | PushFront x => (a = AUnit ∧ l' = x :: l) ∨ (a = AThrow BadAlloc ∧ l' = l)
  | PushBack x => (a = AUnit ∧ l' = l ++ [x]) ∨ (a = AThrow BadAlloc ∧ l' = l)
  | PopFront => if l is [] then a = AThrow OutOfRange ∧ l' = l else a = AUnit ∧ l' = tail l
  | PopBack =>
      if l is [] then a = AThrow OutOfRange ∧ l' = l else a = AUnit ∧ l' = removelast l
  | Front => a = (if l is x :: _ then AElem (Some x) else AThrow OutOfRange) ∧ l' = l
  | Back => a = (if last l is Some x then AElem (Some x) else AThrow OutOfRange) ∧ l' = l
  | Size => a = ASize (Z.of_nat (length l)) ∧ l' = l
  | Empty => a = ABool (if l is [] then true else false) ∧ l' = l
  end.

Inductive calls : list call → list answer → deque → deque → Prop :=
  | calls_nil d : calls [] [] d d
  | calls_cons o os a l d d' d'' :
      deque_call o d = Ret (a, d') → calls os l d' d'' → calls (o :: os) (a :: l) d d''.
Inductive spec_calls : list call → list answer → list T → list T → Prop :=
  | spec_nil s : spec_calls [] [] s s
  | spec_cons o os a l s s' s'' :
      spec_call o a s s' → spec_calls os l s' s'' → spec_calls (o :: os) (a :: l) s s''.

Lemma snoc_cases (l : list T) : l = [] ∨ ∃ l' x, l = l' ++ [x].
Proof. induction l using rev_ind; [by left|right; eauto]. Qed.

Lemma deque_call_ok o d l :
  rep d l → ∃ a d' l', deque_call o d = Ret (a, d') ∧ rep d' l' ∧ spec_call o a l l'.
Proof using alloc_bound.
  intros Hr. unfold deque_call. destruct o.
  - destruct (push_front_ok x d l Hr) as [->|(d' & -> & Hr')];
      [exists (AThrow BadAlloc), d, l|exists AUnit, d', (x :: l)]; simpl; auto.
  - destruct (push_back_ok x d l Hr) as [->|(d' & -> & Hr')];
      [exists (AThrow BadAlloc), d, l|exists AUnit, d', (l ++ [x])]; simpl; auto.
  - destruct l as [|x l].
    + exists (AThrow OutOfRange), d, []. unfold pop_front. by rewrite (ring_empty_ok d _ Hr).
    + destruct (pop_front_ok d x l Hr) as (d' & -> & Hr'). by exists AUnit, d', l.
  - destruct (snoc_cases l) as [->|(l' & x & ->)].
    + exists (AThrow OutOfRange), d, []. unfold pop_back. by rewrite (ring_empty_ok d _ Hr).
    + destruct (pop_back_ok d x l' Hr) as (d' & -> & Hr'). exists AUnit, d', l'.
      split; [done|]. split; [done|]. simpl. rewrite removelast_last. by destruct l'.
  - destruct l as [|x l].
    + exists (AThrow OutOfRange), d, []. unfold front. by rewrite (ring_empty_ok d _ Hr).
    + exists (AElem (Some x)), d, (x :: l). by rewrite (front_ok d x l Hr).
  - destruct (snoc_cases l) as [->|(l' & x & ->)].
    + exists (AThrow OutOfRange), d, []. unfold back. by rewrite (ring_empty_ok d _ Hr).
    + exists (AElem (Some x)), d, (l' ++ [x]). rewrite (back_ok d x l' Hr).
      split; [done|]. split; [done|]. simpl. by rewrite last_snoc.
  - exists (ASize (Z.of_nat (length l))), d, l. unfold size. by rewrite (rep_count d l Hr).
  - exists (ABool (if l is [] then true else false)), d, l. by rewrite (ring_empty_ok d l Hr).
Qed.

End deque.
Arguments deque : clear implicits.
Arguments call : clear implicits.


(** ** Outside the contract *)

(** *** Growth of an empty deque *)

Section empty_growth.
Context {T : Type} (alloc_ok : Z → bool).

Fixpoint push_pop (n : nat) (x : T) (d : deque T) : outcome (deque T) :=
  match n with
  | O => Ret d
  | S n' => d1 ← push_front alloc_ok x d; d2 ← pop_front d1; push_pop n' x d2
  end.

Lemma push_pop_once (x : T) (buf : list (option T)) cap i :
  0 < cap < 2 ^ 61 → alloc_ok (cap * 2) = true →
  ∃ buf' i', (d1 ← push_front alloc_ok x (Deque buf cap 0 i i); pop_front d1)
          = Ret (Deque buf' (cap * 2) 0 i' i').
Proof.
  intros Hcap Ha. unfold push_front. cbn [front_index back_index capacity count].
  rewrite Z.eqb_refl. cbn [orb]. unfold resize, new_array. cbn [capacity count front_index].
  rewrite wrap64_small by lia. rewrite Ha. change (Z.to_nat 0) with 0%nat.
  cbn [mbind outcome_bind copy_loop capacity count front_index buffer back_index].
  rewrite pred_index by lia. cbn [mbind outcome_bind]. rewrite store_cell_ok
    by (rewrite length_replicate; simpl; lia). cbn [mbind outcome_bind].
  unfold pop_front, empty. cbn [capacity count front_index buffer back_index].
  rewrite succ_index by (simpl; lia). simpl (0 =? 0). cbv iota.
  replace (cap * 2 - 1 + 1 =? cap * 2) with true by lia. by eexists _, _.
Qed.

(** Pushing at the front of an empty deque doubles the buffer although the deque holds
    nothing: after [n] pairs of [push_front] and [pop_front] the deque is empty and its
    capacity is [2^n] times the initial one. *)
Theorem push_front_empty_doubles (n : nat) (x : T) (cap : Z) :
  0 < cap → cap * 2 ^ Z.of_nat n < 2 ^ 61 →
  (∀ m, m < 2 ^ 61 → alloc_ok m = true) →
  ∃ d0 d, deque_ctor alloc_ok cap = Ret d0 ∧ push_pop n x d0 = Ret d ∧
          empty d = true ∧ capacity d = cap * 2 ^ Z.of_nat n.
Proof.
  intros Hcap Hn Ha. assert (cap < 2 ^ 61).
  { assert (0 < 2 ^ Z.of_nat n) by (apply Z.pow_pos_nonneg; lia). nia. }
  unfold deque_ctor, new_array. rewrite Ha by done. cbn [mbind outcome_bind].
  cut (∃ d, push_pop n x (Deque (replicate (Z.to_nat cap) None) cap 0 0 0) = Ret d ∧
    empty d = true ∧ capacity d = cap * 2 ^ Z.of_nat n); [intros (d & ?); eauto|].
  generalize (replicate (Z.to_nat cap) (@None T)), 0 at 2 3. clear H.
  revert cap Hcap Hn. induction n as [|n IH]; intros cap Hcap Hn buf i.
  { eexists. split; [done|]. split; [done|]. simpl. lia. }
  rewrite Nat2Z.inj_succ, Z.pow_succ_r in Hn |- * by lia.
  assert (0 < 2 ^ Z.of_nat n) by (apply Z.pow_pos_nonneg; lia).
  destruct (push_pop_once x buf cap i) as (buf' & i' & E); [nia|apply Ha; nia|].
  cbn [push_pop]. destruct (push_front alloc_ok x (Deque buf cap 0 i i)) as [d1| |]; [|done..].
  cbn [mbind outcome_bind] in E |- *. rewrite E. cbn [mbind outcome_bind].
  rewrite Z.mul_assoc. replace (cap * 2 * 2 ^ Z.of_nat n) with ((cap * 2) * 2 ^ Z.of_nat n) by lia.
  apply IH; lia.
Qed.
End empty_growth.

Lemma push_front_empty_doubles_witness :
  ∃ d0 d, deque_ctor (λ _, true) 10 = Ret d0 ∧ push_pop (λ _, true) 3 0 d0 = Ret d ∧
          empty d = true ∧ capacity d = 10 * 2 ^ Z.of_nat 3.
Proof. by apply (push_front_empty_doubles (λ _, true) 3 0 10). Defined.

(** *** The iterator *)

Record iterator := Iterator { pos : Z }.

Definition begin (d : deque Z) : iterator := Iterator 0.
Definition end_ (d : deque Z) : iterator := Iterator (count d).
Definition it_next (it : iterator) : iterator := Iterator (wrap64 (pos it + 1)).
Definition it_prev (it : iterator) : iterator := Iterator (wrap64 (pos it - 1)).
Definition it_eq (it1 it2 : iterator) : bool := pos it1 =? pos it2.

(** [(_deque->front() + _pos) % _deque->_capacity]: [front()] is the element, here an
    [int], converted to [size_t]. *)
Definition it_deref (d : deque Z) (it : iterator) : outcome (option Z) :=
  x ← front d;
  v ← deref x;
  idx ← umod (wrap64 (wrap64 v + pos it)) (capacity d);
  load_cell (buffer d) idx.

(** The loop of [main]: prints each element and a space. *)
Fixpoint print_loop (fuel : nat) (d : deque Z) (it : iterator) : outcome bytes :=
  if it_eq it (end_ d) then Ret [newline]
  else
    match fuel with
    | O => Undef
    | S fuel' =>
        x ← it_deref d it; v ← deref x;
        rest ← print_loop fuel' d (it_next it);
        Ret (show_int v ++ lit " " ++ rest)
    end.

(** [main] of deque_demo.cpp. *)
Definition main_deque (alloc_ok : Z → bool) : outcome (deque Z) :=
  d ← deque_ctor alloc_ok 10;
  d ← push_back alloc_ok 1 d;
  d ← push_back alloc_ok 2 d;
  d ← push_front alloc_ok 0 d;
  d ← pop_back d;
  pop_front d.
Definition main (alloc_ok : Z → bool) : outcome bytes :=
  d ← main_deque alloc_ok; print_loop (S (Z.to_nat (count d))) d (begin d).

(** The iterator adds the value of the first element to its position: [main] leaves the
      deque holding the single element 1, and prints 2, which it no longer holds. *)
Theorem iterator_prints_wrong_element :
  ∃ d, main_deque (λ _, true) = Ret d ∧ rep d [1] ∧
       main (λ _, true) = Ret (lit "2 " ++ [newline]).
Proof.
  eexists. split; [vm_compute; reflexivity|]. split; [|vm_compute; reflexivity].
  constructor; simpl; try done; try lia.
  intros [|i] x Hx; simpl in Hx; by simplify_eq.
Qed.

(** *** The public [resize] *)

(** [resize] to the current size leaves [_back_index] equal to the capacity; after one
      [pop_front] the next [push_back] writes past the end of the buffer. *)
Theorem resize_to_size_overruns :
  ∃ d, (d ← deque_ctor (λ _, true) 2; d ← push_back (λ _, true) 1 d;
        d ← push_back (λ _, true) 2 d; d ← resize (λ _, true) 2 d; pop_front d) = Ret d ∧
       size d = 1 ∧ front d = Ret (Some 2) ∧ push_back (λ _, true) 3 d = Undef.
Proof. eexists. split; [vm_compute; reflexivity|]. vm_compute. done. Qed.
