(* ===== verification/DList.v ===== *)
(** * [sen_stl::list] of base_stl/list_demo.h

    A doubly linked list between two sentinel nodes.  Nodes live in a heap, so
    dangling pointers and leaks are visible: following a pointer to a deleted node
    is undefined behaviour, and the invariant says that the heap holds exactly the
    nodes of the list. *)

From stdpp Require Import base gmap list sets fin_sets strings.
From Stdlib Require Import ZArith Lia.
From S2P Require Import Prelude CxxString.

Abbreviation loc := positive.

(** ** Nodes and the heap *)

Record node (T : Type) := Node { data : T; next : option loc; prev : option loc }.
Arguments Node {T} data next prev.
Arguments data {T} n.
Arguments next {T} n.
Arguments prev {T} n.

Section heap.
Context {T : Type}.
Abbreviation heap := (gmap loc (node T)).

Definition new_node (v : T) : prog heap loc := λ h,
  let p := fresh (dom h) in (Ret p, <[p := Node v None None]> h).

(** [*p]: undefined behaviour through a null or a dangling pointer. *)
Definition load (op : option loc) : prog heap (node T) := λ h,
  (deref (p ← op; h !! p), h).

Definition store_with (op : option loc) (f : node T → node T) : prog heap unit := λ h,
  match op with
  | Some p => match h !! p with Some n => (Ret (), <[p := f n]> h) | None => (Undef, h) end
  | None => (Undef, h)
  end.
Definition set_next (op q : option loc) : prog heap unit :=
  store_with op (λ n, Node (data n) q (prev n)).
Definition set_prev (op q : option loc) : prog heap unit :=
  store_with op (λ n, Node (data n) (next n) q).

Definition delete_node (op : option loc) : prog heap unit := λ h,
  match op with
  | Some p => match h !! p with Some _ => (Ret (), delete p h) | None => (Undef, h) end
  | None => (Ret (), h)
  end.
End heap.

(** ** The container *)

Record dlist := DList { head : loc; tail : loc }.

(** An iterator holds a node pointer, null by default. *)
Abbreviation iterator := (option loc).

(** A [const T&] argument: a temporary, or an element of the list itself. *)
Inductive const_ref (T : Type) := Temp (v : T) | Elem (p : loc).
Arguments Temp {T} v.
Arguments Elem {T} p.

Section dlist.
Context {T : Type} `{EqDecision T} (dflt : T).
Abbreviation heap := (gmap loc (node T)).
Implicit Types (h : gmap loc (node T)) (v : T) (self : dlist) (value : const_ref T).

Definition read_ref value : prog heap T :=
  match value with
  | Temp v => mret v
  | Elem p => n ← load (Some p); mret (data n)
  end.

Definition list_ctor : prog heap dlist :=
  head ← new_node dflt;
  tail ← new_node dflt;
  set_next (Some head) (Some tail);;
  set_prev (Some tail) (Some head);;
  mret (DList head tail).

(** [operator*], and the two increments. *)
Definition it_get (it : iterator) : prog heap T := n ← load it; mret (data n).
Definition it_incr (it : iterator) : prog heap iterator :=
  match it with Some _ => n ← load it; mret (next n) | None => mret None end.
Definition it_decr (it : iterator) : prog heap iterator :=
  match it with Some _ => n ← load it; mret (prev n) | None => mret None end.

Definition begin self : prog heap iterator := n ← load (Some (head self)); mret (next n).
Definition end_ self : iterator := Some (tail self).

Definition empty self : prog heap bool :=
  n ← load (Some (head self)); mret (bool_decide (next n = Some (tail self))).

Definition insert (pos : iterator) value : prog heap iterator :=
  v ← read_ref value;
  new_n ← new_node v;
  set_next (Some new_n) pos;;
  n ← load pos;
  set_prev (Some new_n) (prev n);;
  set_next (prev n) (Some new_n);;
  set_prev pos (Some new_n);;
  mret (Some new_n).

Definition erase self (pos : iterator) : prog heap iterator :=
  if bool_decide (pos = Some (head self)) || bool_decide (pos = Some (tail self))
  then mret (Some (tail self))
  else
    n ← load pos;
    set_next (prev n) (next n);;
    n ← load pos;
    set_prev (next n) (prev n);;
    n ← load pos;
    delete_node pos;;
    mret (next n).

Definition push_front self value : prog heap unit :=
  it ← begin self; insert it value;; mret ().
Definition push_back self value : prog heap unit := insert (end_ self) value;; mret ().
Definition pop_front self : prog heap unit :=
  b ← empty self;
  if b : bool then mret () else it ← begin self; erase self it;; mret ().
Definition pop_back self : prog heap unit :=
  b ← empty self;
  if b : bool then mret ()
  else n ← load (Some (tail self)); erase self (prev n);; mret ().
Definition front self : prog heap T :=
  n ← load (Some (head self)); it_get (next n).
Definition back self : prog heap T :=
  n ← load (Some (tail self)); it_get (prev n).

(** The loop of [print]: the elements it writes. *)
Fixpoint print_loop (fuel : nat) self (current : iterator) : prog heap (list T) :=
  if bool_decide (current = Some (tail self)) then mret []
  else
    match fuel with
    | O => lift Undef
    | S fuel' =>
        n ← load current;
        rest ← print_loop fuel' self (next n);
        mret (data n :: rest)
    end.
Definition print self : prog heap (list T) :=
  h ← get; n ← load (Some (head self)); print_loop (base.size h) self (next n).

Fixpoint clear_loop (fuel : nat) self (current : iterator) : prog heap unit :=
  if bool_decide (current = Some (tail self)) then mret ()
  else
    match fuel with
    | O => lift Undef
    | S fuel' =>
        n ← load current;
        delete_node current;;
        clear_loop fuel' self (next n)
    end.
Definition clear self : prog heap unit :=
  h ← get; n ← load (Some (head self));
  clear_loop (base.size h) self (next n);;
  set_next (Some (head self)) (Some (tail self));;
  set_prev (Some (tail self)) (Some (head self)).

Definition list_dtor self : prog heap unit :=
  clear self;; delete_node (Some (head self));; delete_node (Some (tail self)).

(** The loop of [remove]: [value] is read again for every element. *)
Fixpoint remove_loop (fuel : nat) self value (it : iterator) : prog heap unit :=
  if bool_decide (it = end_ self) then mret ()
  else
    match fuel with
    | O => lift Undef
    | S fuel' =>
        x ← it_get it;
        v ← read_ref value;
        it' ← (if bool_decide (x = v) then erase self it else it_incr it);
        remove_loop fuel' self value it'
    end.
Definition remove self value : prog heap unit :=
  h ← get; it ← begin self; remove_loop (base.size h) self value it.

(** ** The invariant *)

Definition next_of h p : option loc := n ← h !! p; next n.
Definition prev_of h p : option loc := n ← h !! p; prev n.
Definition data_of h p : option T := data <$> h !! p.

(** Consecutive nodes point at each other. *)
Fixpoint links h (c : list loc) : Prop :=
  match c with
  | a :: c' =>
      match c' with
      | b :: _ => next_of h a = Some b ∧ prev_of h b = Some a
      | [] => True
      end ∧ links h c'
  | [] => True
  end.

(** The nodes from sentinel to sentinel; [l] pairs each element with its node. *)
Definition chain self (l : list (loc * T)) : list loc := head self :: l.*1 ++ [tail self].

Record dll self h (l : list (loc * T)) : Prop := {
  dll_nodup : NoDup (chain self l);
  dll_links : links h (chain self l);
  dll_data : Forall (λ e, data_of h e.1 = Some e.2) l;
  dll_sentinels : data_of h (head self) = Some dflt ∧ data_of h (tail self) = Some dflt;
  dll_end : next_of h (tail self) = None;
  dll_dom q : is_Some (h !! q) ↔ q ∈ chain self l
}.

Lemma links_split h a p b : links h (a ++ p :: b) ↔ links h (a ++ [p]) ∧ links h (p :: b).
Proof.
  induction a as [|x [|y a] IH]; simpl in *; [destruct b; tauto|destruct b; tauto|].
  rewrite IH. destruct b; tauto.
Qed.

Lemma links_frame h h' c :
  (∀ q, q ∈ removelast c → next_of h' q = next_of h q) →
  (∀ q, q ∈ drop 1 c → prev_of h' q = prev_of h q) →
  links h c → links h' c.
Proof.
  induction c as [|a [|b c] IH]; [done|done|]. intros Hn Hp [[? ?] Hl].
  split; [split; [rewrite Hn by (by left)|rewrite Hp by (by left)]; done|].
  apply IH; [|..|done].
  - intros q Hq. apply Hn. by right.
  - intros q Hq. apply Hp. simpl. right. exact Hq.
Qed.

Lemma load_run p n h : h !! p = Some n → load (Some p) h = (Ret n, h).
Proof. intros Hp. unfold load. simpl. by rewrite Hp. Qed.
Lemma store_run p n f h :
  h !! p = Some n → store_with (Some p) f h = (Ret (), <[p := f n]> h).
Proof. intros Hp. unfold store_with. by rewrite Hp. Qed.
Lemma delete_run p n h : h !! p = Some n → delete_node (Some p) h = (Ret (), delete p h).
Proof. intros Hp. unfold delete_node. by rewrite Hp. Qed.

(** One heap access whose cell is known. *)
Ltac heap_step lem := rewrite lem by (by simplify_map_eq); cbn beta iota.

(** What [insert] does to the heap between two neighbours. *)
Lemma insert_run value v h p pos np ns :
  read_ref value h = (Ret v, h) → p ≠ pos → h !! p = Some np → h !! pos = Some ns →
  prev ns = Some p →
  ∃ new h', insert (Some pos) value h = (Ret (Some new), h') ∧ h !! new = None ∧
    h' !! new = Some (Node v (Some pos) (Some p)) ∧
    h' !! pos = Some (Node (data ns) (next ns) (Some new)) ∧
    h' !! p = Some (Node (data np) (Some new) (prev np)) ∧
    ∀ q, q ≠ new → q ≠ pos → q ≠ p → h' !! q = h !! q.
Proof.
  intros Hv Hne Hp Hpos Hprev. set (new := fresh (dom h)).
  assert (h !! new = None) as Hnew by (apply not_elem_of_dom, is_fresh).
  assert (new ≠ pos ∧ new ≠ p) as [Hnp Hnq] by (split; intros E; congruence).
  unfold insert, set_next, set_prev. run_prog. rewrite Hv. unfold new_node. fold new.
  heap_step (store_run new (Node v None None)). heap_step (load_run pos ns).
  heap_step (store_run new (Node v (Some pos) None)). rewrite Hprev.
  heap_step (store_run p np). heap_step (store_run pos ns).
  eexists new, _. split; [done|]. split; [done|].
  split_and!; [by simplify_map_eq..|]. intros q ???. by simplify_map_eq.
Qed.

Lemma erase_run self h p pos q np n nq :
  pos ≠ head self → pos ≠ tail self → p ≠ pos → q ≠ pos → p ≠ q →
  h !! p = Some np → h !! pos = Some n → h !! q = Some nq →
  prev n = Some p → next n = Some q →
  ∃ h', erase self (Some pos) h = (Ret (Some q), h') ∧ h' !! pos = None ∧
    h' !! p = Some (Node (data np) (Some q) (prev np)) ∧
    h' !! q = Some (Node (data nq) (next nq) (Some p)) ∧
    ∀ r, r ≠ pos → r ≠ p → r ≠ q → h' !! r = h !! r.
Proof.
  intros ????? Hp Hpos Hq Hprev Hnext. unfold erase.
  rewrite !bool_decide_false by congruence. cbn [orb].
  unfold set_next, set_prev. run_prog.
  heap_step (load_run pos n). rewrite Hprev. heap_step (store_run p np).
  heap_step (load_run pos n). rewrite Hnext. heap_step (store_run q nq).
  heap_step (load_run pos n). heap_step (delete_run pos n). rewrite Hnext.
  eexists. split; [done|]. split_and!; [by simplify_map_eq; rewrite ?Hprev..|].
  intros r ???. by simplify_map_eq.
Qed.

(** ** Insertion and deletion at a position *)

Definition first_loc self (l : list (loc * T)) : loc :=
  match l with [] => tail self | e :: _ => e.1 end.
Definition last_loc self (l : list (loc * T)) : loc :=
  match last l with None => head self | Some e => e.1 end.

Lemma chain_split self l1 l2 :
  ∃ a b, (∀ m, chain self (l1 ++ m ++ l2) =
               a ++ last_loc self l1 :: m.*1 ++ first_loc self l2 :: b) ∧
         tail self ∈ first_loc self l2 :: b.
Proof.
  assert (∃ b, l2.*1 ++ [tail self] = first_loc self l2 :: b) as [b Hb]
    by (destruct l2; by eexists).
  assert (∃ a, head self :: l1.*1 = a ++ [last_loc self l1]) as [a Ha].
  { unfold last_loc. destruct l1 as [|e l1 _] using rev_ind; [by exists []|].
    rewrite last_snoc, fmap_app. by exists (head self :: l1.*1). }
  exists a, b. split; [|rewrite <-Hb; set_solver]. intros m. unfold chain.
  rewrite !fmap_app, <-!app_assoc, Hb, app_comm_cons, Ha, <-app_assoc. done.
Qed.

Lemma dll_node self h l q : dll self h l → q ∈ chain self l → ∃ n, h !! q = Some n.
Proof. intros Hd Hq. by apply (dll_dom self h l Hd q) in Hq. Qed.

Lemma removelast_snoc (a : list loc) x : removelast (a ++ [x]) = a.
Proof. apply removelast_last. Qed.
Lemma removelast_sub (l : list loc) q : q ∈ removelast l → q ∈ l.
Proof.
  induction l as [|x [|y l] IH]; [done|by intros ?%elem_of_nil|].
  change (removelast (x :: y :: l)) with (x :: removelast (y :: l)).
  rewrite !(elem_of_cons _ _ x). intuition.
Qed.
Lemma drop1_sub (l : list loc) q : q ∈ drop 1 l → q ∈ l.
Proof. destruct l; [done|]. simpl. rewrite drop_0. by right. Qed.

Lemma next_prev_same h h' q : h' !! q = h !! q →
  next_of h' q = next_of h q ∧ prev_of h' q = prev_of h q ∧ data_of h' q = data_of h q.
Proof. intros E. unfold next_of, prev_of, data_of. by rewrite E. Qed.

Lemma read_Temp (v : T) h : read_ref (Temp v) h = (Ret v, h).
Proof. done. Qed.

Lemma dlist_insert_ok self h l1 l2 value v :
  dll self h (l1 ++ l2) → read_ref value h = (Ret v, h) →
  ∃ new h', insert (Some (first_loc self l2)) value h = (Ret (Some new), h') ∧
            h !! new = None ∧ dll self h' (l1 ++ (new, v) :: l2).
Proof.
  intros Hd Hv. destruct (chain_split self l1 l2) as (a & b & Hch & Htl).
  pose proof (dll_nodup self h _ Hd) as Hnd. pose proof (dll_links self h _ Hd) as Hl.
  pose proof (Hch []) as Hch0. simpl in Hch0. rewrite Hch0 in Hnd, Hl.
  set (p := last_loc self l1) in *. set (pos := first_loc self l2) in *.
  apply links_split in Hl as [Hla [[Hnext Hprev] Hlb]].
  destruct (dll_node self h _ p Hd) as [np Hp]; [rewrite Hch0; set_solver|].
  destruct (dll_node self h _ pos Hd) as [ns Hs]; [rewrite Hch0; set_solver|].
  unfold prev_of in Hprev. rewrite Hs in Hprev. simpl in Hprev.
  apply NoDup_app in Hnd as (Hna & Hab & [Hnp [Hns Hnb]%NoDup_cons]%NoDup_cons).
  destruct (insert_run value v h p pos np ns) as (new & h' & E & Hfree & En & Es & Ep & Eo);
    [done|set_solver|done..|].
  assert (∀ q, q ∈ chain self (l1 ++ l2) → q ≠ new) as Hold.
  { intros q Hq ->. destruct (dll_node self h _ new Hd Hq). congruence. }
  assert (∀ q, q ≠ new → data_of h' q = data_of h q) as Hdata.
  { intros q Hq. unfold data_of. destruct (decide (q = pos)) as [->|]; [by rewrite Es, Hs|].
    destruct (decide (q = p)) as [->|]; [by rewrite Ep, Hp|]. by rewrite Eo. }
  rewrite Hch0 in Hold. exists new, h'. split; [done|]. split; [done|].
  pose proof (Hch [(new, v)]) as Hch1. simpl in Hch1. constructor.
  - rewrite Hch1. apply NoDup_app. split; [done|]. split; [set_solver|].
    repeat (constructor; [set_solver|]). done.
  - rewrite Hch1. apply links_split. split; [|split; [|split]].
    + revert Hla. apply links_frame.
      * intros q. rewrite removelast_snoc. intros Hq. apply next_prev_same, Eo; set_solver.
      * intros q Hq%drop1_sub. destruct (decide (q = p)) as [->|].
        -- unfold prev_of. by rewrite Ep, Hp.
        -- apply next_prev_same, Eo; set_solver.
    + unfold next_of, prev_of. by rewrite Ep, En.
    + unfold next_of, prev_of. by rewrite Es, En.
    + revert Hlb. apply links_frame.
      * intros q Hq%removelast_sub. destruct (decide (q = pos)) as [->|].
        -- unfold next_of. by rewrite Es, Hs.
        -- apply next_prev_same, Eo; set_solver.
      * intros q Hq. simpl in Hq. rewrite drop_0 in Hq. apply next_prev_same, Eo; set_solver.
  - pose proof (dll_data self h _ Hd) as [H1 H2]%Forall_app.
    assert (∀ m : list (loc * T), Forall (λ e, data_of h e.1 = Some e.2) m →
      Forall (λ e, data_of h' e.1 = Some e.2) m) as Hm.
    { intros m Hm. eapply Forall_impl; [exact Hm|]. intros e He. simpl in *.
      rewrite Hdata; [done|]. intros Eq. unfold data_of in He. by rewrite Eq, Hfree in He. }
    apply Forall_app. split; [by apply Hm|]. constructor; [|by apply Hm].
    unfold data_of. simpl. by rewrite En.
  - destruct (dll_sentinels self h _ Hd) as [H1 H2].
    split; rewrite Hdata; try done; apply Hold; rewrite <-Hch0; unfold chain; set_solver.
  - rewrite <-(dll_end self h _ Hd).
    destruct (decide (tail self = pos)) as [E'|]; [unfold next_of; by rewrite E', Es, Hs|].
    apply next_prev_same, Eo; [|done|].
    + apply Hold, elem_of_app. right. by right.
    + intros E'. by rewrite E' in Htl.
  - intros q. rewrite Hch1. pose proof (dll_dom self h _ Hd q) as Hdom. rewrite Hch0 in Hdom.
    destruct (decide (q = new)) as [->|]; [rewrite En; set_solver|].
    destruct (decide (q = pos)) as [->|]; [rewrite Es; set_solver|].
    destruct (decide (q = p)) as [->|]; [rewrite Ep; set_solver|].
    rewrite Eo, Hdom by done. set_solver.
Qed.

Lemma chain_ends self l : head self ∈ chain self l ∧ tail self ∈ chain self l.
Proof. unfold chain. set_solver. Qed.

Lemma elem_not_sentinel self h l1 p v l2 :
  dll self h (l1 ++ (p, v) :: l2) → p ≠ head self ∧ p ≠ tail self.
Proof.
  intros Hd. pose proof (dll_nodup self h _ Hd) as Hnd. unfold chain in Hnd.
  rewrite fmap_app, fmap_cons in Hnd. apply NoDup_cons in Hnd as [Hh Hnd].
  rewrite <-app_assoc in Hnd. apply NoDup_app in Hnd as (_ & _ & Hnd).
  simpl in Hnd. apply NoDup_cons in Hnd as [Ht _]. set_solver.
Qed.

Lemma dlist_erase_ok self h l1 pos v l2 :
  dll self h (l1 ++ (pos, v) :: l2) →
  ∃ h', erase self (Some pos) h = (Ret (Some (first_loc self l2)), h') ∧
        h' !! pos = None ∧ dll self h' (l1 ++ l2).
Proof.
  intros Hd. destruct (chain_split self l1 l2) as (a & b & Hch & Htl).
  pose proof (dll_nodup self h _ Hd) as Hnd. pose proof (dll_links self h _ Hd) as Hl.
  pose proof (Hch [(pos, v)]) as Hch0. simpl in Hch0. rewrite Hch0 in Hnd, Hl.
  set (p := last_loc self l1) in *. set (q := first_loc self l2) in *.
  apply links_split in Hl as [Hla [[Hnext Hprev] [[Hnext' Hprev'] Hlb]]].
  destruct (dll_node self h _ p Hd) as [np Hp]; [rewrite Hch0; set_solver|].
  destruct (dll_node self h _ pos Hd) as [n Hs]; [rewrite Hch0; set_solver|].
  destruct (dll_node self h _ q Hd) as [nq Hq]; [rewrite Hch0; set_solver|].
  unfold prev_of in Hprev. unfold next_of in Hnext'. rewrite Hs in Hprev, Hnext'.
  simpl in Hprev, Hnext'. destruct (elem_not_sentinel self h l1 pos v l2 Hd) as [Hnh Hnt].
  apply NoDup_app in Hnd as (Hna & Hab & [Hnp [Hns [Hnq Hnb]%NoDup_cons]%NoDup_cons]%NoDup_cons).
  destruct (erase_run self h p pos q np n nq) as (h' & E & En & Ep & Eq & Eo);
    [done|done|set_solver..|done|done|done|done|done|].
  assert (∀ r, r ≠ pos → data_of h' r = data_of h r) as Hdata.
  { intros r Hr. unfold data_of. destruct (decide (r = q)) as [->|]; [by rewrite Eq, Hq|].
    destruct (decide (r = p)) as [->|]; [by rewrite Ep, Hp|]. by rewrite Eo. }
  exists h'. split; [done|]. split; [done|].
  pose proof (Hch []) as Hch1. simpl in Hch1. constructor.
  - rewrite Hch1. apply NoDup_app. split; [done|]. split; [set_solver|].
    repeat (constructor; [set_solver|]). done.
  - rewrite Hch1. apply links_split. split; [|split].
    + revert Hla. apply links_frame.
      * intros r. rewrite removelast_snoc. intros Hr. apply next_prev_same, Eo; set_solver.
      * intros r Hr%drop1_sub. destruct (decide (r = p)) as [->|].
        -- unfold prev_of. by rewrite Ep, Hp.
        -- apply next_prev_same, Eo; set_solver.
    + unfold next_of, prev_of. by rewrite Ep, Eq.
    + revert Hlb. apply links_frame.
      * intros r Hr%removelast_sub. destruct (decide (r = q)) as [->|].
        -- unfold next_of. by rewrite Eq, Hq.
        -- apply next_prev_same, Eo; set_solver.
      * intros r Hr. simpl in Hr. rewrite drop_0 in Hr. apply next_prev_same, Eo; set_solver.
  - pose proof (dll_data self h _ Hd) as [H1 [_ H2]%Forall_cons]%Forall_app.
    assert (∀ m : list (loc * T), pos ∉ m.*1 → Forall (λ e, data_of h e.1 = Some e.2) m →
      Forall (λ e, data_of h' e.1 = Some e.2) m) as Hm.
    { intros m Hnin Hm. apply Forall_forall. intros e He. rewrite Hdata.
      - by apply (proj1 (Forall_forall _ _) Hm).
      - intros <-. apply Hnin. by apply list_elem_of_fmap_2. }
    pose proof (dll_nodup self h _ Hd) as Hnd. unfold chain in Hnd.
    rewrite fmap_app, fmap_cons, <-app_assoc in Hnd. apply NoDup_cons in Hnd as [_ Hnd].
    apply NoDup_app in Hnd as (_ & Hd1 & Hnd). simpl in *. apply NoDup_cons in Hnd as [Hd2 _].
    apply Forall_app. split; apply Hm; try done; set_solver.
  - destruct (dll_sentinels self h _ Hd) as [H1 H2]. by split; rewrite Hdata.
  - rewrite <-(dll_end self h _ Hd).
    destruct (decide (tail self = q)) as [E'|]; [unfold next_of; by rewrite E', Eq, Hq|].
    apply next_prev_same, Eo; [done| |done]. intros E'. apply Hnp. right. by rewrite <-E'.
  - intros r. rewrite Hch1. pose proof (dll_dom self h _ Hd r) as Hdom. rewrite Hch0 in Hdom.
    destruct (decide (r = pos)) as [->|].
    { rewrite En. split; [by intros []|]. set_solver. }
    destruct (decide (r = q)) as [->|]; [rewrite Eq; set_solver|].
    destruct (decide (r = p)) as [->|]; [rewrite Ep; set_solver|].
    rewrite Eo, Hdom by done. set_solver.
Qed.

(** ** Reading the list *)

Lemma dll_head self h l :
  dll self h l → ∃ n, h !! head self = Some n ∧ next n = Some (first_loc self l) ∧ data n = dflt.
Proof.
  intros Hd. destruct (chain_split self [] l) as (a & b & Hch & Htl). specialize (Hch []). simpl in Hch.
  pose proof (dll_links self h _ Hd) as Hl. rewrite Hch in Hl.
  apply links_split in Hl as [_ [[Hn _] _]]. unfold next_of, last_loc in Hn. simpl in Hn.
  destruct (dll_sentinels self h _ Hd) as [Hdt _]. unfold data_of in Hdt.
  destruct (h !! head self) as [n|]; [|done]. exists n. simpl in *. by simplify_eq.
Qed.
Lemma dll_tail self h l :
  dll self h l → ∃ n, h !! tail self = Some n ∧ prev n = Some (last_loc self l) ∧ data n = dflt.
Proof.
  intros Hd. destruct (chain_split self l []) as (a & b & Hch & Htl). specialize (Hch []). simpl in Hch.
  rewrite app_nil_r in Hch. pose proof (dll_links self h _ Hd) as Hl. rewrite Hch in Hl.
  apply links_split in Hl as [_ [[_ Hp] _]]. unfold prev_of in Hp.
  destruct (dll_sentinels self h _ Hd) as [_ Hdt]. unfold data_of in Hdt.
  destruct (h !! tail self) as [n|]; [|done]. exists n. simpl in *. by simplify_eq.
Qed.
Lemma dll_elem self h l1 p v l2 :
  dll self h (l1 ++ (p, v) :: l2) →
  ∃ n, h !! p = Some n ∧ data n = v ∧ next n = Some (first_loc self l2).
Proof.
  intros Hd. destruct (chain_split self (l1 ++ [(p, v)]) l2) as (a & b & Hch & Htl).
  specialize (Hch []). simpl in Hch. rewrite <-app_assoc in Hch. simpl in Hch.
  pose proof (dll_links self h _ Hd) as Hl. rewrite Hch in Hl.
  apply links_split in Hl as [_ [[Hn _] _]]. unfold next_of, last_loc in Hn.
  rewrite last_snoc in Hn. simpl in Hn.
  pose proof (dll_data self h _ Hd) as [_ [Hdt _]%Forall_cons]%Forall_app.
  unfold data_of in Hdt. simpl in Hdt.
  destruct (h !! p) as [n|]; [|done]. exists n. simpl in *. by simplify_eq.
Qed.

Lemma dll_size self h l : dll self h l → base.size h = (2 + length l)%nat.
Proof.
  intros Hd. rewrite <-size_dom.
  assert (dom h = list_to_set (chain self l)) as ->.
  { apply set_eq. intros q. rewrite elem_of_dom, elem_of_list_to_set. by apply dll_dom. }
  rewrite size_list_to_set by (by eapply dll_nodup). unfold chain.
  simpl. rewrite length_app, length_fmap. simpl. lia.
Qed.

Lemma first_loc_nonempty self h l1 l2 :
  dll self h (l1 ++ l2) → l2 ≠ [] → first_loc self l2 ≠ tail self.
Proof. destruct l2 as [|[p v] l2]; [done|]. intros Hd _. by eapply elem_not_sentinel. Qed.

Lemma begin_ok self h l : dll self h l → begin self h = (Ret (Some (first_loc self l)), h).
Proof.
  intros Hd. destruct (dll_head self h l Hd) as (n & Hh & Hn & _). unfold begin. run_prog.
  rewrite (load_run _ n) by done. by rewrite Hn.
Qed.
Lemma dlist_empty_ok self h l : dll self h l → empty self h = (Ret (bool_decide (l = [])), h).
Proof.
  intros Hd. destruct (dll_head self h l Hd) as (n & Hh & Hn & _). unfold empty. run_prog.
  rewrite (load_run _ n) by done. rewrite Hn. f_equal. f_equal. destruct l as [|e l].
  - by rewrite !bool_decide_true.
  - rewrite !bool_decide_false; [done|done|].
    intros [= E]. by eapply (first_loc_nonempty self h [] (e :: l)).
Qed.
Lemma it_incr_ok self h l1 p v l2 :
  dll self h (l1 ++ (p, v) :: l2) → it_incr (Some p) h = (Ret (Some (first_loc self l2)), h).
Proof.
  intros Hd. destruct (dll_elem self h l1 p v l2 Hd) as (n & Hp & _ & Hn).
  unfold it_incr. run_prog. by rewrite (load_run _ n), Hn.
Qed.
Lemma it_get_ok self h l1 p v l2 :
  dll self h (l1 ++ (p, v) :: l2) → it_get (Some p) h = (Ret v, h).
Proof.
  intros Hd. destruct (dll_elem self h l1 p v l2 Hd) as (n & Hp & Hv & _).
  unfold it_get. run_prog. by rewrite (load_run _ n), Hv.
Qed.

Lemma print_loop_ok fuel self h l1 l2 :
  dll self h (l1 ++ l2) → (length l2 <= fuel)%nat →
  print_loop fuel self (Some (first_loc self l2)) h = (Ret l2.*2, h).
Proof.
  revert l1 l2. induction fuel as [|fuel IH]; intros l1 [|[p v] l2] Hd Hf; simpl in Hf |- *;
    try (by rewrite bool_decide_true); [lia|].
  destruct (elem_not_sentinel self h l1 p v l2 Hd).
  rewrite bool_decide_false by congruence. run_prog.
  destruct (dll_elem self h l1 p v l2 Hd) as (n & Hp & Hv & Hn).
  rewrite (load_run p n), Hn by done.
  rewrite (IH (l1 ++ [(p, v)])); [by rewrite Hv|by rewrite <-app_assoc|lia].
Qed.
Lemma print_ok self h l : dll self h l → print self h = (Ret l.*2, h).
Proof.
  intros Hd. unfold print. run_prog. destruct (dll_head self h l Hd) as (n & Hh & Hn & _).
  rewrite (load_run _ n), Hn by done. apply (print_loop_ok _ self h [] l); [done|].
  rewrite (dll_size self h l Hd). lia.
Qed.

(** With an argument that no step of the loop deletes: a temporary, or a sentinel. *)
Lemma remove_loop_ok fuel self value v h l1 l2 :
  (∀ h m, dll self h m → read_ref value h = (Ret v, h)) →
  dll self h (l1 ++ l2) → (length l2 <= fuel)%nat →
  ∃ h', remove_loop fuel self value (Some (first_loc self l2)) h = (Ret (), h') ∧
        dll self h' (l1 ++ filter (λ e, e.2 ≠ v) l2).
Proof.
  intros Hv. revert h l1 l2. induction fuel as [|fuel IH]; intros h l1 [|[p x] l2] Hd Hf; simpl in Hf;
    cbn [remove_loop first_loc fst];
    try (by exists h; rewrite bool_decide_true); [lia|].
  destruct (elem_not_sentinel self h l1 p x l2 Hd).
  rewrite bool_decide_false by (unfold end_; congruence). run_prog.
  rewrite (it_get_ok self h l1 p x l2) by done. rewrite filter_cons.
  rewrite (Hv _ _ Hd). cbn [snd]. case_bool_decide as Hx.
  - destruct (dlist_erase_ok self h l1 p x l2 Hd) as (h' & -> & _ & Hd').
    rewrite decide_False by (by intros []). apply IH; [done|lia].
  - rewrite (it_incr_ok self h l1 p x l2) by done. rewrite decide_True by done.
    destruct (IH h (l1 ++ [(p, x)]) l2) as (h' & -> & Hd'); [by rewrite <-app_assoc|lia|].
    exists h'. by rewrite <-app_assoc in Hd'.
Qed.
(** With a reference to the element of node [p]: once that node is deleted the next
    comparison reads it, unless it was the last one. *)
Lemma remove_loop_elem fuel self h l1 l2 p v l3 :
  dll self h (l1 ++ l2 ++ (p, v) :: l3) → (length (l2 ++ (p, v) :: l3) <= fuel)%nat →
  let run := remove_loop fuel self (Elem p) (Some (first_loc self (l2 ++ (p, v) :: l3))) h in
  match l3 with
  | [] => ∃ h', run = (Ret (), h') ∧ dll self h' (l1 ++ filter (λ e, e.2 ≠ v) l2)
  | _ => run.1 = Undef
  end.
Proof.
  revert h l1 l2. induction fuel as [|fuel IH]; intros h l1 l2 Hd Hf.
  { rewrite length_app in Hf. simpl in Hf. lia. }
  cbn zeta. assert (read_ref (Elem p) h = (Ret v, h)) as Hv.
  { unfold read_ref. run_prog. rewrite (assoc_L app) in Hd.
    destruct (dll_elem self h _ p v l3 Hd) as (n & Hp & Hn & _). by rewrite (load_run p n), Hn. }
  destruct l2 as [|[q x] l2]; cbn [app first_loc fst] in *; cbn [remove_loop].
  - destruct (elem_not_sentinel self h l1 p v l3 Hd).
    rewrite bool_decide_false by (unfold end_; congruence). run_prog.
    rewrite (it_get_ok self h l1 p v l3), Hv by done. rewrite bool_decide_true by done.
    destruct (dlist_erase_ok self h l1 p v l3 Hd) as (h' & -> & Hgone & Hd').
    destruct l3 as [|[r y] l3]; cbn [first_loc fst].
    + exists h'. split; [|by rewrite app_nil_r in *]. destruct fuel; cbn [remove_loop];
        by rewrite bool_decide_true.
    + destruct fuel as [|fuel]; [simpl in Hf; lia|]. cbn [remove_loop].
      destruct (elem_not_sentinel self h' l1 r y l3 Hd').
      rewrite bool_decide_false by (unfold end_; congruence). run_prog.
      rewrite (it_get_ok self h' l1 r y l3) by done. unfold read_ref, load. run_prog. cbn. by rewrite Hgone.
  - destruct (elem_not_sentinel self h l1 q x _ Hd).
    rewrite bool_decide_false by (unfold end_; congruence). run_prog.
    rewrite (it_get_ok self h l1 q x _ Hd), Hv, filter_cons. cbn [snd]. simpl in Hf.
    case_bool_decide as Hx.
    + destruct (dlist_erase_ok self h l1 q x _ Hd) as (h' & -> & _ & Hd').
      rewrite decide_False by (by intros []). apply (IH h' l1 l2); [done|lia].
    + rewrite (it_incr_ok self h l1 q x _ Hd), decide_True by done.
      specialize (IH h (l1 ++ [(q, x)]) l2). rewrite <-!app_assoc in IH. cbn [app] in IH.
      apply IH; [done|lia].
Qed.

Lemma remove_ok self value v h l :
  (∀ h m, dll self h m → read_ref value h = (Ret v, h)) →
  dll self h l → ∃ h', remove self value h = (Ret (), h') ∧
                       dll self h' (filter (λ e, e.2 ≠ v) l).
Proof.
  intros Hv Hd. unfold remove. run_prog. rewrite (begin_ok self h l) by done.
  apply (remove_loop_ok _ self value v h [] l); [done..|]. rewrite (dll_size self h l Hd). lia.
Qed.
Lemma remove_elem_ok self p v h l1 l2 :
  dll self h (l1 ++ (p, v) :: l2) →
  match l2 with
  | [] => ∃ h', remove self (Elem p) h = (Ret (), h') ∧ dll self h' (filter (λ e, e.2 ≠ v) l1)
  | _ => (remove self (Elem p) h).1 = Undef
  end.
Proof.
  intros Hd. unfold remove. run_prog. rewrite (begin_ok self h _ Hd).
  apply (remove_loop_elem _ self h [] l1 p v l2 Hd). rewrite (dll_size self h _ Hd). lia.
Qed.

(** ** Clearing: every node but the sentinels is freed *)

Lemma clear_loop_ok fuel self h l1 l2 :
  dll self h (l1 ++ l2) → (length l2 <= fuel)%nat →
  ∀ h0, (∀ q, q ∉ l1.*1 → h0 !! q = h !! q) →
  ∃ h', clear_loop fuel self (Some (first_loc self l2)) h0 = (Ret (), h') ∧
        (∀ q, h' !! q = if decide (q ∈ l2.*1) then None else h0 !! q).
Proof.
  revert l1 l2. induction fuel as [|fuel IH]; intros l1 [|[p v] l2] Hd Hf h0 Hh0;
    cbn [clear_loop first_loc fst]; try (by exists h0; rewrite bool_decide_true);
    simpl in Hf; [lia|].
  destruct (elem_not_sentinel self h l1 p v l2 Hd).
  rewrite bool_decide_false by congruence.
  destruct (dll_elem self h l1 p v l2 Hd) as (n & Hp & _ & Hn). run_prog.
  pose proof (dll_nodup self h _ Hd) as Hnd. unfold chain in Hnd.
  rewrite fmap_app, fmap_cons, <-app_assoc in Hnd. apply NoDup_cons in Hnd as [_ Hnd].
  apply NoDup_app in Hnd as (_ & Hd1 & Hnd). simpl in Hd1, Hnd.
  apply NoDup_cons in Hnd as [Hd2 _].
  assert (h0 !! p = Some n) as Hp0 by (rewrite Hh0; [done|set_solver]).
  rewrite (load_run p n), (delete_run p n), Hn by done.
  destruct (IH (l1 ++ [(p, v)]) l2) with (h0 := delete p h0) as (h' & -> & Hh');
    [by rewrite <-app_assoc|lia| |].
  { intros q Hq. rewrite fmap_app in Hq. rewrite lookup_delete_ne by set_solver.
    apply Hh0. set_solver. }
  exists h'. split; [done|]. intros q. rewrite Hh'. csimpl.
  destruct (decide (q = p)) as [->|].
  - rewrite lookup_delete_eq. rewrite (decide_True (P := p ∈ p :: _)) by (by left).
    by case_decide.
  - rewrite lookup_delete_ne by done. repeat case_decide; set_solver.
Qed.

Lemma dlist_clear_ok self h l : dll self h l → ∃ h', clear self h = (Ret (), h') ∧ dll self h' [].
Proof.
  intros Hd. unfold clear. run_prog. destruct (dll_head self h l Hd) as (nh & Hh & Hn & Hhd).
  destruct (dll_tail self h l Hd) as (nt & Ht & _ & Htd).
  rewrite (load_run _ nh), Hn by done.
  destruct (clear_loop_ok (base.size h) self h [] l) with (h0 := h) as (h' & -> & Hh');
    [done|rewrite (dll_size self h l Hd); lia|done|].
  pose proof (dll_nodup self h _ Hd) as Hnd. unfold chain in Hnd.
  apply NoDup_cons in Hnd as [Hnh Hnd]. apply NoDup_app in Hnd as (_ & Hnt & _).
  assert (head self ∉ l.*1 ∧ tail self ∉ l.*1 ∧ head self ≠ tail self) as (H1 & H2 & H3)
    by set_solver.
  assert (h' !! head self = Some nh ∧ h' !! tail self = Some nt) as [Hh1 Ht1]
    by (by rewrite !Hh', !decide_False by done).
  unfold set_next, set_prev. rewrite (store_run _ nh) by done.
  rewrite (store_run _ nt) by (by simplify_map_eq).
  eexists. split; [done|]. constructor; unfold chain; simpl.
  - repeat constructor; set_solver.
  - unfold next_of, prev_of. by simplify_map_eq.
  - done.
  - unfold data_of. split; simplify_map_eq; congruence.
  - pose proof (dll_end self h l Hd) as He. unfold next_of in *. rewrite Ht in He.
    simplify_map_eq. done.
  - intros q. pose proof (dll_dom self h l Hd q) as Hdom. unfold chain in Hdom.
    destruct (decide (q = tail self)) as [->|]; [simplify_map_eq; set_solver|].
    destruct (decide (q = head self)) as [->|]; [simplify_map_eq; set_solver|].
    simplify_map_eq. rewrite Hh'. case_decide; [split; [by intros []|set_solver]|].
    rewrite Hdom. set_solver.
Qed.

(** [~list] frees every node. *)
Lemma dtor_ok self h l : dll self h l → list_dtor self h = (Ret (), ∅).
Proof.
  intros Hd. unfold list_dtor. run_prog. destruct (dlist_clear_ok self h l Hd) as (h' & -> & Hd').
  destruct (dll_head self h' _ Hd') as (nh & Hh & _). destruct (dll_tail self h' _ Hd') as (nt & Ht & _).
  assert (head self ≠ tail self) as Hne.
  { pose proof (dll_nodup self h' _ Hd') as Hnd. unfold chain in Hnd. simpl in Hnd.
    apply NoDup_cons in Hnd as [Hnh _]. set_solver. }
  rewrite (delete_run _ nh), (delete_run _ nt) by (by simplify_map_eq). f_equal.
  apply map_eq. intros q. rewrite lookup_empty.
  destruct (decide (q = tail self)) as [->|]; [by simplify_map_eq|].
  destruct (decide (q = head self)) as [->|]; [by simplify_map_eq|]. simplify_map_eq.
  apply eq_None_not_Some. rewrite (dll_dom self h' [] Hd' q). unfold chain. set_solver.
Qed.

Lemma ctor_ok : ∃ self h, list_ctor ∅ = (Ret self, h) ∧ dll self h [].
Proof.
  unfold list_ctor. run_prog. unfold new_node.
  set (hd := fresh (dom ∅)). set (h1 := <[hd := _]> ∅). set (tl := fresh (dom h1)).
  assert (hd ≠ tl) as Hne.
  { intros E. pose proof (is_fresh (dom h1)) as Hf. fold tl in Hf. rewrite <-E in Hf.
    apply Hf, elem_of_dom. unfold h1. by rewrite lookup_insert_eq. }
  unfold set_next, set_prev. unfold h1.
  rewrite (store_run hd (Node dflt None None)) by (by simplify_map_eq).
  rewrite (store_run tl (Node dflt None None)) by (by simplify_map_eq).
  eexists _, _. split; [done|]. constructor; unfold chain; simpl.
  - repeat constructor; set_solver.
  - unfold next_of, prev_of. by simplify_map_eq.
  - done.
  - unfold data_of. by simplify_map_eq.
  - unfold next_of. by simplify_map_eq.
  - intros q. destruct (decide (q = tl)) as [->|]; [simplify_map_eq; set_solver|].
    destruct (decide (q = hd)) as [->|]; [simplify_map_eq; set_solver|].
    simplify_map_eq. split; [by intros []|set_solver].
Qed.

(** ** Histories *)

(** [begin()] advanced [i] times. *)
Fixpoint it_advance (i : nat) (it : iterator) : prog heap iterator :=
  match i with O => mret it | S i' => it' ← it_incr it; it_advance i' it' end.
Definition nth_it self (i : nat) : prog heap iterator := it ← begin self; it_advance i it.

(** The argument of a [const T&] parameter: a temporary, or what the iterator number [i]
    refers to, which is the [T()] of the sentinel at [end()]. *)
Inductive arg := Val (v : T) | Ref (i : nat).
Definition arg_ref self (a : arg) : prog heap (const_ref T) :=
  match a with
  | Val v => mret (Temp v)
  | Ref i => it ← nth_it self i; match it with Some p => mret (Elem p) | None => lift Undef end
  end.

Inductive call :=
  | PushFront (a : arg) | PushBack (a : arg) | PopFront | PopBack | Front | Back | IsEmpty
  | InsertAt (i : nat) (a : arg) | EraseAt (i : nat) | Remove (a : arg) | Clear | Print.
Inductive answer := AUnit | AElem (v : T) | ABool (b : bool) | AElems (l : list T).

Definition list_call self (o : call) : prog heap answer :=
  match o with
  | PushFront a => r ← arg_ref self a; push_front self r;; mret AUnit
  | PushBack a => r ← arg_ref self a; push_back self r;; mret AUnit
  | PopFront => pop_front self;; mret AUnit
  | PopBack => pop_back self;; mret AUnit
  | Front => v ← front self; mret (AElem v)
  | Back => v ← back self; mret (AElem v)
  | IsEmpty => b ← empty self; mret (ABool b)
  | InsertAt i a => it ← nth_it self i; r ← arg_ref self a; insert it r;; mret AUnit
  | EraseAt i => it ← nth_it self i; erase self it;; mret AUnit
  | Remove a => r ← arg_ref self a; remove self r;; mret AUnit
  | Clear => clear self;; mret AUnit
  | Print => l ← print self; mret (AElems l)
  end.

(** The same calls on a sequence.  [None] is an undefined call: with an iterator past
    [end()], or [remove] of an element that is followed by another one, which is still to be
    compared with it when it is deleted. *)
Definition arg_val (a : arg) (l : list T) : option T :=
  match a with
  | Val v => Some v
  | Ref i => if decide (i <= length l)%nat then Some (default dflt (l !! i)) else None
  end.
Definition outlives (a : arg) (l : list T) : bool :=
  match a with Val _ => true | Ref i => bool_decide (length l <= S i)%nat end.
Definition spec_call (o : call) (l : list T) : option (answer * list T) :=
  match o with
  | PushFront a => v ← arg_val a l; Some (AUnit, v :: l)
  | PushBack a => v ← arg_val a l; Some (AUnit, l ++ [v])
  | PopFront => Some (AUnit, drop 1 l)
  | PopBack => Some (AUnit, removelast l)
  | Front => Some (AElem (default dflt (list.head l)), l)
  | Back => Some (AElem (default dflt (last l)), l)
  | IsEmpty => Some (ABool (bool_decide (l = [])), l)
  | InsertAt i a =>
      v ← arg_val a l;
      if decide (i <= length l)%nat then Some (AUnit, take i l ++ v :: drop i l) else None
  | EraseAt i => if decide (i <= length l)%nat then Some (AUnit, delete i l) else None
  | Remove a =>
      v ← arg_val a l;
      if outlives a l then Some (AUnit, filter (λ x, x ≠ v) l) else None
  | Clear => Some (AUnit, [])
  | Print => Some (AElems l, l)
  end.

Fixpoint list_calls self (os : list call) : prog heap (list answer) :=
  match os with
  | [] => mret []
  | o :: os' => a ← list_call self o; l ← list_calls self os'; mret (a :: l)
  end.
Fixpoint spec_calls (os : list call) (l : list T) : option (list answer * list T) :=
  match os with
  | [] => Some ([], l)
  | o :: os' =>
      '(a, l') ← spec_call o l; '(as', l'') ← spec_calls os' l'; Some (a :: as', l'')
  end.

Lemma it_advance_ok self h l1 l2 i :
  dll self h (l1 ++ l2) → (i <= length l2)%nat →
  it_advance i (Some (first_loc self l2)) h = (Ret (Some (first_loc self (drop i l2))), h).
Proof.
  revert l1 l2. induction i as [|i IH]; intros l1 l2 Hd Hi; [by rewrite drop_0|].
  destruct l2 as [|[p v] l2]; simpl in Hi; [lia|]. cbn [it_advance first_loc fst]. run_prog.
  rewrite (it_incr_ok self h l1 p v l2) by done.
  by rewrite (IH (l1 ++ [(p, v)])) by (by rewrite <-?app_assoc || lia).
Qed.
Lemma nth_it_ok self h l i :
  dll self h l → (i <= length l)%nat →
  nth_it self i h = (Ret (Some (first_loc self (drop i l))), h).
Proof.
  intros Hd Hi. unfold nth_it. run_prog. rewrite (begin_ok self h l) by done.
  by apply (it_advance_ok self h []).
Qed.

(** Past [end()] the iterator is null. *)
Lemma it_advance_null i h : it_advance i None h = (Ret None, h).
Proof. induction i as [|i IH]; [done|exact IH]. Qed.
Lemma it_advance_past self h l1 l2 i :
  dll self h (l1 ++ l2) → (length l2 < i)%nat →
  it_advance i (Some (first_loc self l2)) h = (Ret None, h).
Proof.
  revert l1 i. induction l2 as [|[p v] l2 IH]; intros l1 [|i] Hd Hi; simpl in Hi; try lia;
    cbn [it_advance first_loc fst]; run_prog.
  - rewrite app_nil_r in Hd. destruct (dll_tail self h l1 Hd) as (n & Ht & _).
    pose proof (dll_end self h l1 Hd) as He. unfold next_of in He. rewrite Ht in He.
    unfold it_incr. run_prog. rewrite (load_run _ n) by done. cbn in He. rewrite He. apply it_advance_null.
  - rewrite (it_incr_ok self h l1 p v l2) by done.
    by rewrite (IH (l1 ++ [(p, v)])) by (by rewrite <-?app_assoc || lia).
Qed.
Lemma nth_it_past self h l i :
  dll self h l → (length l < i)%nat → nth_it self i h = (Ret None, h).
Proof.
  intros Hd Hi. unfold nth_it. run_prog. rewrite (begin_ok self h l) by done.
  by apply (it_advance_past self h []).
Qed.

Lemma insert_null value v h : read_ref value h = (Ret v, h) → (insert None value h).1 = Undef.
Proof.
  intros Hv. unfold insert. run_prog. rewrite Hv. unfold new_node, set_next.
  rewrite (store_run _ (Node v None None)) by (by simplify_map_eq). done.
Qed.
Lemma erase_null self h : (erase self None h).1 = Undef.
Proof. done. Qed.

(** An argument refers to its value.  It keeps it whatever the list does, or it refers to
    an element. *)
Lemma arg_ok self a h m :
  dll self h m →
  match arg_val a m.*2 with
  | Some v => ∃ r, arg_ref self a h = (Ret r, h) ∧ read_ref r h = (Ret v, h) ∧
      (((∀ h m, dll self h m → read_ref r h = (Ret v, h)) ∧ outlives a m.*2 = true) ∨
       ∃ p m1 m2, r = Elem p ∧ m = m1 ++ (p, v) :: m2 ∧ outlives a m.*2 = bool_decide (m2 = []))
  | None => arg_ref self a h = (Undef, h)
  end.
Proof.
  intros Hd. destruct a as [v|i]; cbn [arg_val arg_ref].
  { exists (Temp v). split; [done|]. split; [done|]. by left. }
  run_prog. case_decide as Hi; rewrite length_fmap in Hi.
  2: { by rewrite (nth_it_past self h m i) by (done || lia). }
  rewrite (nth_it_ok self h m i) by done. cbn [outlives]. rewrite length_fmap.
  destruct (drop i m) as [|[p v] m2] eqn:Edrop; cbn [first_loc fst].
  - assert (length m <= i)%nat by (apply (f_equal length) in Edrop; rewrite length_drop in Edrop;
      simpl in Edrop; lia).
    rewrite lookup_ge_None_2 by (rewrite length_fmap; lia). cbn [default].
    assert (∀ h m, dll self h m → read_ref (Elem (tail self)) h = (Ret dflt, h)) as Htl.
    { intros h' m' Hd'. destruct (dll_tail self h' m' Hd') as (n & Ht & _ & Hn).
      unfold read_ref. run_prog. by rewrite (load_run _ n), Hn by done. }
    exists (Elem (tail self)). split; [done|]. split; [by eapply Htl|]. left. split; [done|].
    apply bool_decide_true. lia.
  - assert (m = take i m ++ (p, v) :: m2) as Em by (by rewrite <-Edrop, take_drop).
    assert (length (take i m) = i) as Hlen by (rewrite length_take; lia).
    assert (m.*2 !! i = Some v) as ->.
    { rewrite Em, fmap_app, lookup_app_r by (rewrite length_fmap; lia).
      by rewrite length_fmap, Hlen, Nat.sub_diag. }
    cbn [default]. exists (Elem p). split; [done|]. split.
    + rewrite Em in Hd. destruct (dll_elem self h _ p v m2 Hd) as (n & Hp & Hn & _).
      unfold read_ref. run_prog. by rewrite (load_run p n), Hn by done.
    + right. exists p, (take i m), m2. split; [done|]. split; [done|].
      apply bool_decide_ext. rewrite Em, length_app, Hlen. simpl.
      destruct m2; simpl; split; intros; (done || lia).
Qed.

Lemma insert_at self h l i value v :
  dll self h l → read_ref value h = (Ret v, h) →
  ∃ h' it l', insert (Some (first_loc self (drop i l))) value h = (Ret it, h') ∧
              dll self h' l' ∧ l'.*2 = take i l.*2 ++ v :: drop i l.*2.
Proof.
  intros Hd Hv. destruct (dlist_insert_ok self h (take i l) (drop i l) value v)
    as (new & h' & E & _ & Hd'); [by rewrite take_drop|done|].
  exists h', (Some new), (take i l ++ (new, v) :: drop i l). split_and!; [done|done|].
  by rewrite fmap_app, fmap_cons, fmap_take, fmap_drop.
Qed.

Lemma erase_at self h l i :
  dll self h l → (i <= length l)%nat →
  ∃ h' it l', erase self (Some (first_loc self (drop i l))) h = (Ret it, h') ∧
              dll self h' l' ∧ l'.*2 = delete i l.*2.
Proof.
  intros Hd Hi. destruct (drop i l) as [|[p v] l2] eqn:Edrop.
  - exists h, (Some (tail self)), l. unfold erase. simpl.
    rewrite (bool_decide_true (Some (tail self) = Some (tail self))) by done.
    rewrite orb_true_r. split_and!; [done|done|]. symmetry.
    assert (length l <= i)%nat by (apply (f_equal length) in Edrop; rewrite length_drop in Edrop;
      simpl in Edrop; lia).
    rewrite delete_take_drop, drop_ge, take_ge, app_nil_r by (rewrite length_fmap; lia). done.
  - assert (l = take i l ++ (p, v) :: l2) as El by (by rewrite <-Edrop, take_drop).
    rewrite El in Hd. destruct (dlist_erase_ok self h (take i l) p v l2 Hd) as (h' & E & _ & Hd').
    eexists h', _, (take i l ++ l2). split; [exact E|]. split; [done|].
    rewrite delete_take_drop, fmap_app, fmap_take. f_equal.
    replace (S i) with (i + 1)%nat by lia. by rewrite <-drop_drop, <-fmap_drop, Edrop.
Qed.

Lemma last_loc_snoc self l p v : last_loc self (l ++ [(p, v)]) = p.
Proof. unfold last_loc. by rewrite last_snoc. Qed.

(** A sequence of elements together with their nodes. *)
Definition holds self h (l : list T) : Prop := ∃ m, dll self h m ∧ m.*2 = l.

Lemma filter_snd (v : T) (m : list (loc * T)) :
  (filter (λ e, e.2 ≠ v) m).*2 = filter (λ x, x ≠ v) m.*2.
Proof.
  induction m as [|[p x] m IH]; [done|]. csimpl. rewrite !filter_cons. simpl.
  case_decide; csimpl; by rewrite IH.
Qed.

Lemma list_call_ok self o h l :
  holds self h l →
  match spec_call o l with
  | Some (a, l') => ∃ h', list_call self o h = (Ret a, h') ∧ holds self h' l'
  | None => (list_call self o h).1 = Undef
  end.
Proof.
  intros (m & Hd & <-). destruct o as [a|a| | | | | |i a|i|a| |]; unfold spec_call, list_call; run_prog.
  - pose proof (arg_ok self a h m Hd) as Ha. destruct (arg_val a m.*2) as [v|]; cbn; [|by rewrite Ha].
    destruct Ha as (r & -> & Hr & _). unfold push_front. run_prog. rewrite (begin_ok self h m) by done.
    destruct (insert_at self h m 0 r v Hd Hr) as (h' & it & m' & E & Hd' & Em).
    rewrite drop_0 in E. rewrite E. eexists. split; [done|]. exists m'. split; [done|]. by rewrite Em.
  - pose proof (arg_ok self a h m Hd) as Ha. destruct (arg_val a m.*2) as [v|]; cbn; [|by rewrite Ha].
    destruct Ha as (r & -> & Hr & _). unfold push_back. run_prog.
    destruct (insert_at self h m (length m) r v Hd Hr) as (h' & it & m' & E & Hd' & Em).
    rewrite drop_all in E. unfold end_. simpl in E. rewrite E. eexists.
    split; [done|]. exists m'. split; [done|].
    by rewrite Em, <-(length_fmap snd), take_ge, drop_ge by (rewrite ?length_fmap; lia).
  - unfold pop_front. run_prog. rewrite (dlist_empty_ok self h m) by done.
    case_bool_decide as Hm; [subst m; eexists; split; [done|]; by exists []|].
    rewrite (begin_ok self h m) by done.
    destruct m as [|[p v] m]; [done|]. cbn [first_loc fst].
    destruct (dlist_erase_ok self h [] p v m Hd) as (h' & -> & _ & Hd').
    eexists. split; [done|]. exists m. by csimpl; rewrite drop_0.
  - unfold pop_back. run_prog. rewrite (dlist_empty_ok self h m) by done.
    case_bool_decide as Hm; [subst m; eexists; split; [done|]; by exists []|].
    destruct (dll_tail self h m Hd) as (n & Ht & Hp & _).
    rewrite (load_run _ n), Hp by done.
    destruct m as [|[p v] m _] using rev_ind; [done|]. rewrite last_loc_snoc.
    destruct (dlist_erase_ok self h m p v [] Hd) as (h' & -> & _ & Hd').
    eexists. split; [done|]. exists m. rewrite app_nil_r in Hd'. split; [done|].
    rewrite fmap_app. csimpl. by rewrite removelast_last.
  - unfold front. run_prog.
    destruct (dll_head self h m Hd) as (n & Hh & Hn & _). rewrite (load_run _ n), Hn by done.
    destruct m as [|[p v] m]; cbn [first_loc fst].
    + destruct (dll_tail self h [] Hd) as (nt & Ht & _ & Hdt). unfold it_get. run_prog.
      rewrite (load_run _ nt), Hdt by done. eexists. split; [done|]. by exists [].
    + rewrite (it_get_ok self h [] p v m) by done. eexists. split; [done|]. by exists ((p, v) :: m).
  - unfold back. run_prog.
    destruct (dll_tail self h m Hd) as (n & Hh & Hn & _). rewrite (load_run _ n), Hn by done.
    destruct m as [|[p v] m _] using rev_ind.
    + destruct (dll_head self h [] Hd) as (nt & Ht & _ & Hdt). change (last_loc self []) with (head self).
      unfold it_get. run_prog. rewrite (load_run _ nt), Hdt by done. eexists. split; [done|]. by exists [].
    + rewrite last_loc_snoc, (it_get_ok self h m p v []) by done. rewrite fmap_app. simpl.
      rewrite last_snoc. eexists. split; [done|]. exists (m ++ [(p, v)]). by rewrite fmap_app.
  - rewrite (dlist_empty_ok self h m) by done. eexists. split; [|by exists m].
    do 3 f_equal. apply bool_decide_ext. by destruct m.
  - pose proof (arg_ok self a h m Hd) as Ha.
    assert (∀ o, nth_it self i h = (Ret o, h) → arg_val a m.*2 = None →
      (let (o, s') := nth_it self i h in
       match o with
       | Ret it => (r ← arg_ref self a; insert it r;; mret AUnit) s'
       | Throw e => (Throw e, s')
       | Undef => (Undef, s')
       end).1 = Undef) as Hnone.
    { intros o -> En. rewrite En in Ha. run_prog. by rewrite Ha. }
    rewrite length_fmap. destruct (decide (i <= length m)%nat) as [Hi|Hi].
    + pose proof (nth_it_ok self h m i Hd Hi) as Hit.
      destruct (arg_val a m.*2) as [v|]; cbn; [|by eapply Hnone].
      rewrite Hit. destruct Ha as (r & -> & Hr & _).
      destruct (insert_at self h m i r v Hd Hr) as (h' & it & m' & -> & Hd' & Em).
      eexists. split; [done|]. by exists m'.
    + pose proof (nth_it_past self h m i Hd ltac:(lia)) as Hit.
      destruct (arg_val a m.*2) as [v|]; cbn; [|by eapply Hnone].
      rewrite Hit. destruct Ha as (r & -> & Hr & _). pose proof (insert_null r v h Hr) as Hu.
      destruct (insert None r h) as [o s']. cbn in Hu. by rewrite Hu.
  - rewrite length_fmap. destruct (decide (i <= length m)%nat) as [Hi|Hi].
    + rewrite (nth_it_ok self h m i) by done.
      destruct (erase_at self h m i Hd Hi) as (h' & it & m' & -> & Hd' & Em).
      eexists. split; [done|]. by exists m'.
    + by rewrite (nth_it_past self h m i Hd) by lia.
  - pose proof (arg_ok self a h m Hd) as Ha. destruct (arg_val a m.*2) as [v|]; cbn; [|by rewrite Ha].
    destruct Ha as (r & -> & _ & [[Hv ->]|(p & m1 & m2 & -> & -> & ->)]).
    + destruct (remove_ok self r v h m Hv Hd) as (h' & -> & Hd').
      eexists. split; [done|]. eexists. split; [done|]. apply filter_snd.
    + pose proof (remove_elem_ok self p v h m1 m2 Hd) as Hrem. destruct m2 as [|e m2].
      * destruct Hrem as (h' & -> & Hd'). rewrite bool_decide_true by done.
        eexists. split; [done|]. eexists. split; [done|].
        rewrite filter_snd, fmap_app, filter_app. cbn [fmap list_fmap snd].
        by rewrite filter_cons_False, filter_nil, app_nil_r by auto.
      * rewrite bool_decide_false by done. destruct (remove self (Elem p) h) as [o s'].
        cbn in Hrem. by rewrite Hrem.
  - destruct (dlist_clear_ok self h m Hd) as (h' & -> & Hd').
    eexists. split; [done|]. by exists [].
  - rewrite (print_ok self h m) by done. eexists. split; [done|]. by exists m.
Qed.

Lemma list_calls_ok self os h l :
  holds self h l →
  match spec_calls os l with
  | Some (answers, l') => ∃ h', list_calls self os h = (Ret answers, h') ∧ holds self h' l'
  | None => (list_calls self os h).1 = Undef
  end.
Proof.
  revert h l. induction os as [|o os IH]; intros h l Hh; [by exists h|].
  pose proof (list_call_ok self o h l Hh) as Ho. cbn [list_calls spec_calls]. run_prog.
  destruct (spec_call o l) as [[a l1]|]; cbn.
  2: { destruct (list_call self o h) as [r s']. cbn in Ho. by rewrite Ho. }
  destruct Ho as (h1 & -> & Hh1). specialize (IH h1 l1 Hh1).
  destruct (spec_calls os l1) as [[as' l2]|]; cbn.
  - destruct IH as (h2 & -> & Hh2). by exists h2.
  - destruct (list_calls self os h1) as [r s']. cbn in IH. by rewrite IH.
Qed.

(** C29. A fresh list answers every history of calls like a sequence: insertion and
    deletion at an iterator advanced from [begin()], both ends, [remove], [clear] and
    [print], with arguments that are temporaries or elements of the list itself, none of
    them following a null or dangling pointer; [front] and [back] of an empty list give the
    sentinel's [T()].  Afterwards the destructor frees every node that was ever allocated.
    The exceptions are undefined: an iterator past [end()], and [remove] of an element that
    another one follows, which compares that one with the deleted element. *)
Theorem list_refines_sequence (os : list call) :
  ∃ self h0, list_ctor ∅ = (Ret self, h0) ∧
    match spec_calls os [] with
    | Some (answers, l) =>
        ∃ h, list_calls self os h0 = (Ret answers, h) ∧
             print self h = (Ret l, h) ∧ list_dtor self h = (Ret (), ∅)
    | None => (list_calls self os h0).1 = Undef
    end.
Proof.
  destruct ctor_ok as (self & h0 & Ec & Hd). exists self, h0. split; [done|].
  assert (holds self h0 []) as Hh by (by exists []).
  pose proof (list_calls_ok self os h0 [] Hh) as Hrun.
  destruct (spec_calls os []) as [[answers l]|]; [|done].
  destruct Hrun as (h & -> & m & Hm & <-). exists h.
  split_and!; [done|by apply print_ok|by eapply dtor_ok].
Qed.
End dlist.
Arguments call : clear implicits.

(** The calls of [main] in list_demo.cpp; its iterator is [begin()] advanced once, which
    moves right with each insertion before it. *)
Definition main_calls : list (call Z) :=
  [PushBack (Val 1%Z); PushBack (Val 2%Z); PushBack (Val 3%Z); PushFront (Val 0%Z);
   InsertAt 1 (Val 10%Z); InsertAt 2 (Val 20%Z); InsertAt 3 (Val 20%Z); Print;
   Remove (Val 20%Z); Print].

Example main_calls_answers :
  spec_calls 0%Z main_calls [] =
    Some ([AUnit; AUnit; AUnit; AUnit; AUnit; AUnit; AUnit; AElems [0; 10; 20; 20; 1; 2; 3]%Z;
           AUnit; AElems [0; 10; 1; 2; 3]%Z], [0; 10; 1; 2; 3]%Z).
Proof. reflexivity. Qed.
(** Elements of the list as arguments: the last one may be removed by reference, the
    first one not. *)
Example element_arguments :
  spec_calls 0%Z [PushBack (Val 1%Z); PushBack (Ref 0); PushFront (Ref 1); Remove (Ref 2)] [] =
    Some ([AUnit; AUnit; AUnit; AUnit], []) ∧
  spec_calls 0%Z [PushBack (Val 1%Z); PushBack (Val 2%Z); Remove (Ref 0)] [] = None.
Proof. by split. Qed.

(** [main] of list_demo.cpp itself, with the one iterator it keeps. *)
Definition list_main : prog (gmap loc (node Z)) (list Z * list Z) :=
  self ← list_ctor 0%Z;
  push_back self (Temp 1%Z);; push_back self (Temp 2%Z);; push_back self (Temp 3%Z);;
  push_front self (Temp 0%Z);;
  it ← begin self;
  it ← it_incr it;
  insert it (Temp 10%Z);; insert it (Temp 20%Z);; insert it (Temp 20%Z);;
  l1 ← print self;
  remove self (Temp 20%Z);;
  l2 ← print self;
  list_dtor self;;
  mret (l1, l2).

Example list_main_output :
  list_main ∅ = (Ret ([0; 10; 20; 20; 1; 2; 3]%Z, [0; 10; 1; 2; 3]%Z), ∅).
Proof. vm_compute. reflexivity. Qed.

(** [remove] takes its argument by reference and reads it again for every element:
      [l.remove(l.front())] on the list 1, 2 reads the node it has just deleted. *)
Theorem remove_front_dangles :
  ∃ self h p, (self ← list_ctor 0%Z; push_back self (Temp 1%Z);; push_back self (Temp 2%Z);;
               mret self) ∅ = (Ret self, h) ∧
              begin self h = (Ret (Some p), h) ∧ front self h = (Ret 1%Z, h) ∧
              (remove self (Elem p) h).1 = Undef.
Proof. eexists _, _, _. split; [vm_compute; reflexivity|]. vm_compute. done. Qed.
