(* ===== verification/OrderSystem.v ===== *)
(** * The order system of design_patterns/finial/order

    [state.hpp], [strategy.hpp], [observer.hpp], [cor.hpp], [adapter.hpp],
    [facade.hpp], [command.hpp], [builder.hpp] and [main.cpp]: an order moves through
    the states of a life cycle and tells its observers; a checkout validates it, prices it
    and pays for it; a command wraps the checkout with an undo.  Amounts are IEEE
    doubles.  What the program prints is a list of events with the values printed. *)

From stdpp Require Import base list sets strings.
From Stdlib Require Import ZArith Lia SpecFloat.
From S2P Require Import Prelude CxxString.

Local Open Scope Z_scope.

(** ** Doubles *)

Definition double : Type := spec_float.
Definition dmul (x y : double) : double := SFmul 53 1024 x y.
Definition dadd (x y : double) : double := SFadd 53 1024 x y.
Definition double_of_int (n : Z) : double := binary_normalize 53 1024 n 0 false.
(** The double nearest to [m * 2^e], for decimal literals. *)
Definition double_of (m e : Z) : double := binary_normalize 53 1024 m e false.
(** [0.9] and [0.5] as the compiler rounds them. *)
Definition d0_9 : double := double_of 8106479329266893 (-53).
Definition d0_5 : double := double_of 1 (-1).

(** [static_cast<long>(d)]: truncation, undefined behaviour outside of [long]. *)
Definition double_to_long (d : double) : outcome Z :=
  match d with
  | S754_zero _ => Ret 0
  | S754_finite s m e =>
      let a := if 0 <=? e then Zpos m * 2 ^ e else Zpos m / 2 ^ (- e) in
      let v := if s then - a else a in
      if (- 2 ^ 63 <=? v) && (v <? 2 ^ 63) then Ret v else Undef
  | _ => Undef
  end.

(** ** Data *)

Inductive OrderState := DraftState | AwaitingPaymentState | PaidState | ShippedState | CancelledState.
Inductive PricingStrategy := RegularPricing | VipPricing.
Inductive OrderObserver := SmsObserver | LogObserver.
Inductive OrderValidator := NonEmptyValidator | StockValidator.

#[export] Instance OrderState_eq_dec : EqDecision OrderState.
Proof. solve_decision. Defined.
#[export] Instance OrderObserver_eq_dec : EqDecision OrderObserver.
Proof. solve_decision. Defined.

Record OrderItem := Item { i_name : bytes; i_quantity : Z; i_unitPrice : double; i_stock : Z }.

(** [pricing_] is a [unique_ptr]: null once it has been moved from. *)
Record Order := MkOrder {
  o_id : bytes;
  o_items : list OrderItem;
  o_state : OrderState;
  o_pricing : option PricingStrategy;
  o_observers : list OrderObserver
}.

Definition state_name (s : OrderState) : bytes :=
  match s with
  | DraftState => lit "草稿"
  | AwaitingPaymentState => lit "待支付"
  | PaidState => lit "已支付"
  | ShippedState => lit "已发货"
  | CancelledState => lit "已取消"
  end.

(** What is printed, with the values. *)
Inductive event :=
  | Sms (order_id state : bytes)
  | Logged (order_id state : bytes)
  | Amounts (original payable : double)
  | Refund
  | LegacyPayment (trade : bytes) (cents : Z)
  | Refused (what : bytes)
  | Failed (what : bytes).

Record shop := Shop { s_order : Order; s_out : list event }.

Definition emit (e : event) : prog shop unit :=
  modify (λ s, Shop (s_order s) (s_out s ++ [e])).
Definition with_order (f : Order → Order) : prog shop unit :=
  modify (λ s, Shop (f (s_order s)) (s_out s)).
Definition the_order : prog shop Order := s ← get; mret (s_order s).

Definition set_state (st : OrderState) (o : Order) : Order :=
  MkOrder (o_id o) (o_items o) st (o_pricing o) (o_observers o).
Definition set_pricing (p : option PricingStrategy) (o : Order) : Order :=
  MkOrder (o_id o) (o_items o) (o_state o) p (o_observers o).

(** ** strategy.hpp and observer.hpp *)

Definition calculate (p : PricingStrategy) (original : double) : double :=
  match p with RegularPricing => original | VipPricing => dmul original d0_9 end.

Definition onStateChanged (ob : OrderObserver) (id state : bytes) : prog shop unit :=
  match ob with SmsObserver => emit (Sms id state) | LogObserver => emit (Logged id state) end.

(** ** state.hpp: class Order *)

Definition new_order (id : bytes) (items : list OrderItem) : Order :=
  MkOrder id items DraftState (Some RegularPricing) [].

(** [double result = 0.0; for (item) result += item.quantity * item.unitPrice] *)
Definition originalAmount (o : Order) : double :=
  foldl (λ acc it, dadd acc (dmul (double_of_int (i_quantity it)) (i_unitPrice it)))
    (S754_zero false) (o_items o).

(** [pricing_->calculate(...)]: undefined behaviour through a null [unique_ptr]. *)
Definition payableAmount (o : Order) : outcome double :=
  p ← deref (o_pricing o); Ret (calculate p (originalAmount o)).

Definition setPricing (strategy : option PricingStrategy) : prog shop unit :=
  with_order (set_pricing strategy).

Definition addObserver (ob : OrderObserver) : prog shop unit :=
  with_order (λ o, MkOrder (o_id o) (o_items o) (o_state o) (o_pricing o) (o_observers o ++ [ob])).

Fixpoint notify (obs : list OrderObserver) (id state : bytes) : prog shop unit :=
  match obs with
  | [] => mret ()
  | ob :: obs' => onStateChanged ob id state;; notify obs' id state
  end.

Definition transitionTo (next : OrderState) : prog shop unit :=
  with_order (set_state next);;
  o ← the_order;
  notify (o_observers o) (o_id o) (state_name (o_state o)).

(** The virtual functions of the states; [OrderState]'s own bodies refuse. *)
Definition submit : prog shop unit :=
  o ← the_order;
  match o_state o with
  | DraftState => transitionTo AwaitingPaymentState
  | _ => throw (LogicError (lit "当前状态不能提交"))
  end.
Definition pay : prog shop unit :=
  o ← the_order;
  match o_state o with
  | AwaitingPaymentState => transitionTo PaidState
  | _ => throw (LogicError (lit "当前状态不能支付"))
  end.
Definition ship : prog shop unit :=
  o ← the_order;
  match o_state o with
  | PaidState => transitionTo ShippedState
  | _ => throw (LogicError (lit "当前状态不能发货"))
  end.
Definition cancel : prog shop unit :=
  o ← the_order;
  match o_state o with
  | DraftState | AwaitingPaymentState => transitionTo CancelledState
  | PaidState => emit Refund;; transitionTo CancelledState
  | _ => throw (LogicError (lit "当前状态不能取消"))
  end.

(** ** cor.hpp: the chain of validators, in order *)

Definition item_ok (it : OrderItem) : bool :=
  negb ((i_quantity it <=? 0) || (i_stock it <? i_quantity it)).

Fixpoint check_stock (items : list OrderItem) : outcome unit :=
  match items with
  | [] => Ret ()
  | it :: items' =>
      if item_ok it then check_stock items'
      else Throw (RuntimeError (i_name it ++ lit " 库存不足或数量非法"))
  end.

Definition check (v : OrderValidator) (o : Order) : outcome unit :=
  match v with
  | NonEmptyValidator =>
      match o_items o with [] => Throw (RuntimeError (lit "购物车不能为空")) | _ => Ret () end
  | StockValidator => check_stock (o_items o)
  end.

Fixpoint validate (chain : list OrderValidator) (o : Order) : outcome unit :=
  match chain with
  | [] => Ret ()
  | v :: next => _ ← check v o; validate next o
  end.

(** ** adapter.hpp *)

(** [PaymentGateway]: the interface the facade pays through. *)
Class PaymentGateway := gateway_pay : bytes → double → prog shop bool.

Definition makePayment (tradeNo : bytes) (cents : Z) : prog shop Z :=
  emit (LegacyPayment tradeNo cents);; mret 0.

(** [static_cast<long>(amount * 100 + 0.5)] *)
Definition cents_of (amount : double) : outcome Z :=
  double_to_long (dadd (dmul amount (double_of_int 100)) d0_5).

Definition LegacyPayAdapter : PaymentGateway := λ orderId amount,
  cents ← lift (cents_of amount);
  r ← makePayment orderId cents;
  mret (r =? 0).

(** ** facade.hpp *)

Definition checkout `{PaymentGateway} (validator : list OrderValidator)
    (pricing : option PricingStrategy) : prog shop unit :=
  o ← the_order;
  lift (validate validator o);;
  setPricing pricing;;
  o ← the_order;
  payable ← lift (payableAmount o);
  emit (Amounts (originalAmount o) payable);;
  submit;;
  o ← the_order;
  amount ← lift (payableAmount o);
  paid ← gateway_pay (o_id o) amount;
  if paid : bool then pay
  else cancel;; throw (RuntimeError (lit "支付失败")).

(** ** command.hpp *)

Record CheckoutCommand := Command { c_pricing : option PricingStrategy; c_executed : bool }.

Definition cmd_state : Type := CheckoutCommand * shop.

Definition on_shop {A} (m : prog shop A) : prog cmd_state A := λ cs,
  let '(r, s) := m cs.2 in (r, (cs.1, s)).

Definition execute `{PaymentGateway} (validator : list OrderValidator) : prog cmd_state unit :=
  '(c, _) ← get;
  if c_executed c then throw (LogicError (lit "命令不能重复执行"))
  else
    (* std::move(pricing_) empties the member before checkout runs *)
    modify (λ cs, (Command None (c_executed cs.1), cs.2));;
    on_shop (checkout validator (c_pricing c));;
    modify (λ cs, (Command (c_pricing cs.1) true, cs.2)).

Definition undo : prog cmd_state unit :=
  '(c, _) ← get;
  if negb (c_executed c) then throw (LogicError (lit "尚未执行，不能撤销"))
  else
    on_shop cancel;;
    modify (λ cs, (Command (c_pricing cs.1) false, cs.2)).

(** ** builder.hpp *)

Record OrderBuilder := Builder { b_id : bytes; b_items : list OrderItem }.
Definition order_builder (id : bytes) : OrderBuilder := Builder id [].
Definition addItem (name : bytes) (quantity : Z) (unitPrice : double) (stock : Z)
    (b : OrderBuilder) : OrderBuilder :=
  Builder (b_id b) (b_items b ++ [Item name quantity unitPrice stock]).
(** [build] moves both members out of the builder. *)
Definition build (b : OrderBuilder) : Order * OrderBuilder :=
  (new_order (b_id b) (b_items b), Builder [] []).

(** ** main.cpp *)

Definition main_order : Order :=
  (build (addItem (lit "机械键盘") 1 (double_of_int 300) 3
    (addItem (lit "C++ 图书") 2 (double_of_int 80) 10 (order_builder (lit "ORD-2026-001"))))).1.

Definition main_body : prog cmd_state unit :=
  on_shop (addObserver SmsObserver);;
  on_shop (addObserver LogObserver);;
  execute (H := LegacyPayAdapter) [NonEmptyValidator; StockValidator];;
  on_shop ship;;
  try_catch undo (λ e,
    match e with LogicError what => Some (on_shop (emit (Refused what))) | _ => None end).

Definition what_of (e : exn) : bytes :=
  match e with RuntimeError w | LogicError w => w | _ => [] end.

Definition main : prog cmd_state Z :=
  try_catch (main_body;; mret 0) (λ e, Some (on_shop (emit (Failed (what_of e)));; mret 1)).

Definition main_start : cmd_state := (Command (Some VipPricing) false, Shop main_order []).

(** ** The life cycle *)

Inductive order_op := Submit | Pay | Ship | Cancel.

Definition order_call (op : order_op) : prog shop unit :=
  match op with Submit => submit | Pay => pay | Ship => ship | Cancel => cancel end.

(** Attempt each operation; a [std::logic_error] is caught and the next one is tried.
    The result says which were accepted. *)
Fixpoint order_calls (ops : list order_op) : prog shop (list bool) :=
  match ops with
  | [] => mret []
  | op :: ops' =>
      b ← try_catch (order_call op;; mret true)
            (λ e, match e with LogicError _ => Some (mret false) | _ => None end);
      bs ← order_calls ops';
      mret (b :: bs)
  end.

(** The intended life cycle, as a table. *)
Definition next_state (s : OrderState) (op : order_op) : option OrderState :=
  match s, op with
  | DraftState, Submit => Some AwaitingPaymentState
  | AwaitingPaymentState, Pay => Some PaidState
  | PaidState, Ship => Some ShippedState
  | (DraftState | AwaitingPaymentState | PaidState), Cancel => Some CancelledState
  | _, _ => None
  end.

(** What the observers of an order are told when it enters a state. *)
Definition notice (ob : OrderObserver) (id : bytes) (s : OrderState) : event :=
  match ob with SmsObserver => Sms id (state_name s) | LogObserver => Logged id (state_name s) end.
Definition notices (o : Order) (from to : OrderState) : list event :=
  (if decide (from = PaidState ∧ to = CancelledState) then [Refund] else []) ++
  ((λ ob, notice ob (o_id o) to) <$> o_observers o).

Fixpoint life (o : Order) (s : OrderState) (ops : list order_op) :
    list bool * OrderState * list event :=
  match ops with
  | [] => ([], s, [])
  | op :: ops' =>
      match next_state s op with
      | Some s' =>
          let '(bs, final, evs) := life o s' ops' in (true :: bs, final, notices o s s' ++ evs)
      | None => let '(bs, final, evs) := life o s ops' in (false :: bs, final, evs)
      end
  end.

Fixpoint accepted (ops : list order_op) (bs : list bool) : list order_op :=
  match ops, bs with
  | op :: ops', true :: bs' => op :: accepted ops' bs'
  | _ :: ops', false :: bs' => accepted ops' bs'
  | _, _ => []
  end.

Lemma notify_run obs id st s :
  notify obs id (state_name st) s =
  (Ret (), Shop (s_order s) (s_out s ++ ((λ ob, notice ob id st) <$> obs))).
Proof.
  revert s. induction obs as [|ob obs IH]; intros [o out]; simpl.
  - by rewrite app_nil_r.
  - run_prog. destruct ob; unfold onStateChanged, emit; run_prog; rewrite IH; simpl;
      by rewrite <-app_assoc.
Qed.

Lemma transitionTo_run st s :
  transitionTo st s = (Ret (), Shop (set_state st (s_order s))
    (s_out s ++ ((λ ob, notice ob (o_id (s_order s)) st) <$> o_observers (s_order s)))).
Proof.
  unfold transitionTo, with_order, the_order. run_prog.
  exact (notify_run _ _ st (Shop (set_state st (s_order s)) (s_out s))).
Qed.

(** One operation follows the table, or throws and leaves everything as it was. *)
Lemma order_call_run op o out :
  match next_state (o_state o) op with
  | Some st => order_call op (Shop o out) =
                 (Ret (), Shop (set_state st o) (out ++ notices o (o_state o) st))
  | None => ∃ what, order_call op (Shop o out) = (Throw (LogicError what), Shop o out)
  end.
Proof.
  destruct op, (o_state o) eqn:Es; simpl; unfold submit, pay, ship, cancel, the_order; run_prog;
    cbn [s_order]; rewrite Es; try (by eexists);
    try (rewrite transitionTo_run; reflexivity).
  unfold emit. run_prog. rewrite transitionTo_run. simpl. by rewrite <-app_assoc.
Qed.

Lemma set_state_same o : set_state (o_state o) o = o.
Proof. by destruct o. Qed.

Lemma life_set_state o st s ops : life (set_state st o) s ops = life o s ops.
Proof.
  revert s. induction ops as [|op ops IH]; intros s; [done|]. simpl.
  destruct (next_state s op); by rewrite IH.
Qed.

Lemma order_calls_run ops o out :
  let '(bs, final, evs) := life o (o_state o) ops in
  order_calls ops (Shop o out) = (Ret bs, Shop (set_state final o) (out ++ evs)).
Proof.
  revert o out. induction ops as [|op ops IH]; intros o out; simpl.
  { by rewrite set_state_same, app_nil_r. }
  pose proof (order_call_run op o out) as Hop.
  destruct (next_state (o_state o) op) as [st|] eqn:En.
  - specialize (IH (set_state st o) (out ++ notices o (o_state o) st)). simpl in IH.
    assert (life (set_state st o) st ops = life o st ops) as El.
    { apply life_set_state. }
    rewrite El in IH. destruct (life o st ops) as [[bs final] evs].
    run_prog. rewrite Hop, IH. simpl. by rewrite app_assoc.
  - destruct Hop as [what Hop]. specialize (IH o out).
    destruct (life o (o_state o) ops) as [[bs final] evs]. run_prog. by rewrite Hop, IH.
Qed.

(** Which operations an order has accepted when it is in a state. *)
Definition accepted_spec (start final : OrderState) (acc : list order_op) : Prop :=
  foldl (λ s op, s ≫= λ st, next_state st op) (Some start) acc = Some final.

Lemma life_accepted o s ops :
  let '(bs, final, _) := life o s ops in accepted_spec s final (accepted ops bs).
Proof.
  revert s. induction ops as [|op ops IH]; intros s; [done|]. simpl.
  destruct (next_state s op) as [s'|] eqn:En.
  - specialize (IH s'). destruct (life o s' ops) as [[bs final] evs].
    unfold accepted_spec in *. simpl. by rewrite En.
  - specialize (IH s). by destruct (life o s ops) as [[bs final] evs].
Qed.

Lemma accepted_none acc : foldl (λ s op, s ≫= λ st, next_state st op) None acc = None.
Proof. by induction acc. Qed.

Lemma accepted_terminal s acc :
  (∀ op, next_state s op = None) → acc ≠ [] → ∀ final, ¬ accepted_spec s final acc.
Proof.
  intros Hs. destruct acc as [|op acc]; [done|]. intros _ final. unfold accepted_spec. simpl.
  by rewrite Hs, accepted_none.
Qed.

(** The accepted operations are known: compare the final states. *)
Ltac ended H :=
  unfold accepted_spec in H; simpl in H; simplify_eq; split; (done || set_solver).

(** C32. An order follows its life cycle whatever is asked of it: each operation is accepted
    exactly when the table allows it, a refused one changes nothing, every observer is told
    of every transition once and in order, and an order that has been shipped was submitted,
    paid and shipped, in that order and nothing else. *)
Theorem order_life_cycle (id : bytes) (items : list OrderItem) (obs : list OrderObserver)
    (ops : list order_op) :
  let o := MkOrder id items DraftState (Some RegularPricing) obs in
  let '(bs, final, evs) := life o DraftState ops in
  order_calls ops (Shop o []) = (Ret bs, Shop (set_state final o) evs) ∧
  (final = ShippedState → accepted ops bs = [Submit; Pay; Ship]) ∧
  (final = CancelledState → accepted ops bs ∈ [[Cancel]; [Submit; Cancel]; [Submit; Pay; Cancel]]).
Proof.
  intros o. pose proof (order_calls_run ops o []) as Hrun.
  pose proof (life_accepted o DraftState ops) as Hacc. cbn [o_state o] in Hrun.
  destruct (life o DraftState ops) as [[bs final] evs]. split; [exact Hrun|].
  revert Hacc. generalize (accepted ops bs). intros acc Hacc.
  assert (∀ s l, (∀ op, next_state s op = None) → accepted_spec s final l → l = []) as Hterm.
  { intros s l Hs Hl. destruct l as [|op l]; [done|].
    by destruct (accepted_terminal s (op :: l) Hs ltac:(done) final). }
  assert (∀ s op l, accepted_spec s final (op :: l) →
    ∃ s', next_state s op = Some s' ∧ accepted_spec s' final l) as Hcons.
  { intros s op l. unfold accepted_spec. simpl.
    destruct (next_state s op); [eauto|by rewrite accepted_none]. }
  destruct acc as [|op1 acc1]; [ended Hacc|].
  destruct (Hcons _ _ _ Hacc) as (s1 & E1 & H1). destruct op1; try done; simplify_eq/=;
    [|assert (acc1 = []) as -> by (eapply Hterm; [|exact H1]; by intros []); ended H1].
  destruct acc1 as [|op2 acc2]; [ended H1|].
  destruct (Hcons _ _ _ H1) as (s2 & E2 & H2). destruct op2; try done; simplify_eq/=;
    [|assert (acc2 = []) as -> by (eapply Hterm; [|exact H2]; by intros []); ended H2].
  destruct acc2 as [|op3 acc3]; [ended H2|].
  destruct (Hcons _ _ _ H2) as (s3 & E3 & H3).
  destruct op3; try done; simplify_eq/=; assert (acc3 = []) as -> by (eapply Hterm; [|exact H3]; by intros []);
    ended H3.
Qed.

(** ** Checkout *)

Definition valid_items (items : list OrderItem) : Prop :=
  items ≠ [] ∧ Forall (λ it, 0 < i_quantity it <= i_stock it) items.

Lemma item_ok_spec it : item_ok it = true ↔ 0 < i_quantity it <= i_stock it.
Proof. unfold item_ok. rewrite negb_true_iff, orb_false_iff. lia. Qed.

Lemma check_stock_spec items :
  (Forall (λ it, 0 < i_quantity it <= i_stock it) items → check_stock items = Ret ()) ∧
  (¬ Forall (λ it, 0 < i_quantity it <= i_stock it) items →
   ∃ what, check_stock items = Throw (RuntimeError what)).
Proof.
  induction items as [|it items [IH1 IH2]]; simpl; [by split; [|intros []]|].
  destruct (item_ok it) eqn:E.
  - apply item_ok_spec in E. rewrite Forall_cons. split; [by intros [_ ?]; auto|].
    intros Hn. apply IH2. tauto.
  - split; [|by eexists]. intros [Hit%item_ok_spec _]%Forall_cons. congruence.
Qed.

Definition main_chain : list OrderValidator := [NonEmptyValidator; StockValidator].

Lemma validate_valid o : valid_items (o_items o) → validate main_chain o = Ret ().
Proof.
  intros [Hne Hall]. simpl. destruct (o_items o) eqn:E; [done|].
  cbn [mbind outcome_bind]. by rewrite (proj1 (check_stock_spec _) Hall).
Qed.
Lemma validate_invalid o :
  ¬ valid_items (o_items o) → ∃ what, validate main_chain o = Throw (RuntimeError what).
Proof.
  intros Hn. simpl. destruct (o_items o) eqn:E; [by eexists|].
  cbn [mbind outcome_bind]. destruct (proj2 (check_stock_spec (o0 :: l))) as [w ->]; eauto.
  intros Hall. by apply Hn.
Qed.

(** What the facade relies on: a payment of an amount the gateway can represent answers
    and leaves the order alone. *)
Class GatewayLaws (G : PaymentGateway) := {
  in_range : double → bool;
  approves : bytes → double → bool;
  receipts : bytes → double → list event;
  gateway_run id amount s :
    in_range amount = true →
    G id amount s = (Ret (approves id amount), Shop (s_order s) (s_out s ++ receipts id amount))
}.

(** The third-party gateway behind its adapter approves every amount that fits [long]. *)
#[export] Instance legacy_laws : GatewayLaws LegacyPayAdapter.
Proof.
  refine (Build_GatewayLaws LegacyPayAdapter
    (λ a, match cents_of a with Ret _ => true | _ => false end) (λ _ _, true)
    (λ id a, match cents_of a with Ret c => [LegacyPayment id c] | _ => [] end) _).
  intros id amount s. unfold LegacyPayAdapter, makePayment, emit.
  destruct (cents_of amount); [|done..]. by intros _.
Defined.

Section checkout.
Context {G : PaymentGateway} {L : GatewayLaws G}.

(** Everything [checkout] does once the order is valid and priced. *)
Definition after_checkout (p : PricingStrategy) (s : shop) : outcome unit * shop :=
  let o := set_pricing (Some p) (s_order s) in
  let original := originalAmount o in
  let amount := calculate p original in
  let out := s_out s ++ [Amounts original amount] in
  match o_state o with
  | DraftState =>
      let out := out ++ notices o DraftState AwaitingPaymentState ++ receipts (o_id o) amount in
      if approves (o_id o) amount
      then (Ret (), Shop (set_state PaidState o) (out ++ notices o AwaitingPaymentState PaidState))
      else (Throw (RuntimeError (lit "支付失败")),
            Shop (set_state CancelledState o)
              (out ++ notices o AwaitingPaymentState CancelledState))
  | _ => (Throw (LogicError (lit "当前状态不能提交")), Shop o out)
  end.

(** The amount a checkout asks for. *)
Definition amount_due (p : PricingStrategy) (o : Order) : double := calculate p (originalAmount o).

Lemma checkout_valid p s :
  valid_items (o_items (s_order s)) → in_range (amount_due p (s_order s)) = true →
  checkout main_chain (Some p) s = after_checkout p s.
Proof.
  intros Hv Hr. unfold checkout, after_checkout, setPricing, with_order, the_order, emit. run_prog.
  rewrite validate_valid by done. unfold payableAmount. cbn [s_order s_out set_pricing o_pricing
    deref mbind outcome_bind o_state].
  destruct s as [o out]. cbn [s_order s_out] in *. destruct (o_state o) eqn:Es;
    unfold submit, the_order; run_prog; cbn [s_order o_state set_pricing]; rewrite Es; try done.
  rewrite transitionTo_run. cbn [s_order s_out set_state set_pricing o_pricing deref mbind
    outcome_bind o_id o_observers o_items o_state].
  unfold gateway_pay. rewrite gateway_run by exact Hr. cbn [s_order s_out].
  unfold originalAmount. cbn [o_items set_state set_pricing].
  case_match; unfold pay, cancel, the_order; run_prog; cbn [s_order o_state set_state set_pricing];
    rewrite transitionTo_run; cbn [s_order s_out o_id o_observers set_state set_pricing];
    unfold notices; cbn [o_id o_observers set_state set_pricing]; rewrite <-!app_assoc; done.
Qed.

(** The checkout of a draft order whose items are in stock ends paid and with exactly one
    payment, or, if the payment is declined, cancelled and with an exception; an order that
    is not a draft is charged nothing and keeps its state; an order with no items or with an
    item out of stock throws and nothing at all changes. *)
Theorem checkout_spec (p : PricingStrategy) (s : shop) :
  (valid_items (o_items (s_order s)) → in_range (amount_due p (s_order s)) = true →
   checkout main_chain (Some p) s = after_checkout p s) ∧
  (¬ valid_items (o_items (s_order s)) →
   ∃ what, checkout main_chain (Some p) s = (Throw (RuntimeError what), s)).
Proof.
  split; [apply checkout_valid|]. intros Hn.
  destruct (validate_invalid (s_order s) Hn) as [what E]. exists what.
  unfold checkout, the_order. run_prog. by rewrite E.
Qed.

Lemma checkout_null s :
  valid_items (o_items (s_order s)) → (checkout main_chain None s).1 = Undef.
Proof.
  intros Hv. unfold checkout, setPricing, with_order, the_order. run_prog.
  by rewrite validate_valid by done.
Qed.

Lemma after_checkout_items p s : o_items (s_order (after_checkout p s).2) = o_items (s_order s).
Proof. unfold after_checkout. by repeat case_match. Qed.

(** The command gives its pricing strategy away on the first [execute]: executing it again
    after an [undo], or after a declined payment, dereferences a null pointer instead of
    refusing. *)
Theorem reexecute_crashes (p : PricingStrategy) (s : shop) :
  valid_items (o_items (s_order s)) → o_state (s_order s) = DraftState →
  in_range (amount_due p (s_order s)) = true →
  (approves (o_id (s_order s)) (amount_due p (s_order s)) = true →
   ((execute main_chain;; undo;; execute main_chain) (Command (Some p) false, s)).1 = Undef) ∧
  (approves (o_id (s_order s)) (amount_due p (s_order s)) = false →
   ∃ cs, execute main_chain (Command (Some p) false, s) =
           (Throw (RuntimeError (lit "支付失败")), cs) ∧
         (execute main_chain cs).1 = Undef).
Proof.
  intros Hv Hd Hr. pose proof (checkout_valid p s Hv Hr) as Hc. unfold amount_due.
  pose proof (after_checkout_items p s) as Hi. unfold execute, on_shop. run_prog.
  cbn [c_executed c_pricing fst snd]. rewrite Hc. unfold after_checkout in Hc, Hi |- *.
  cbn [o_state set_pricing o_id originalAmount o_items] in *. rewrite Hd in Hc, Hi |- *.
  change (originalAmount (set_pricing (Some p) (s_order s))) with (originalAmount (s_order s)) in *.
  split; intros Ha; rewrite Ha in Hi |- *; cbn [fst snd] in Hi |- *.
  - unfold undo, on_shop. run_prog. cbn [c_executed negb fst snd].
    unfold cancel, the_order, emit. run_prog. cbn [s_order o_state set_state].
    rewrite transitionTo_run. cbn [fst snd c_executed c_pricing].
    match goal with |- context [checkout main_chain None ?s'] =>
      pose proof (checkout_null s') as Hn; destruct (checkout main_chain None s') as [r s''] end.
    cbn [fst] in Hn. by rewrite Hn.
  - eexists. split; [done|]. cbn [fst snd c_executed c_pricing].
    match goal with |- context [checkout main_chain None ?s'] =>
      pose proof (checkout_null s') as Hn; destruct (checkout main_chain None s') as [r s''] end.
    cbn [fst] in Hn. by rewrite Hn.
Qed.
End checkout.

(** An order of two copies, and the gateways that approve and decline everything. *)
Definition draft_shop : shop :=
  Shop (new_order (lit "A1") [Item (lit "book") 2 (double_of_int 80) 10]) [].
Definition decline_all : PaymentGateway := λ _ _, mret false.
#[export] Instance decline_laws : GatewayLaws decline_all.
Proof.
  refine (Build_GatewayLaws decline_all (λ _, true) (λ _ _, false) (λ _ _, []) _).
  intros id amount [o out] _. simpl. by rewrite app_nil_r.
Defined.

Lemma draft_shop_valid : valid_items (o_items (s_order draft_shop)).
Proof. split; [done|]. repeat constructor; simpl; lia. Qed.

Lemma checkout_spec_witness :
  checkout (H := LegacyPayAdapter) main_chain (Some VipPricing) draft_shop =
    after_checkout (G := LegacyPayAdapter) VipPricing draft_shop ∧
  ∃ what, checkout (H := LegacyPayAdapter) main_chain (Some VipPricing)
            (Shop (new_order (lit "A2") []) []) =
          (Throw (RuntimeError what), Shop (new_order (lit "A2") []) []).
Proof.
  split.
  - apply (checkout_spec (G := LegacyPayAdapter) VipPricing draft_shop);
      [apply draft_shop_valid|reflexivity].
  - apply (checkout_spec (G := LegacyPayAdapter) VipPricing). by intros [? _].
Defined.

Lemma reexecute_crashes_witness :
  ((execute (H := LegacyPayAdapter) main_chain;; undo;; execute (H := LegacyPayAdapter) main_chain)
     (Command (Some VipPricing) false, draft_shop)).1 = Undef ∧
  ∃ cs, execute (H := decline_all) main_chain (Command (Some VipPricing) false, draft_shop) =
          (Throw (RuntimeError (lit "支付失败")), cs) ∧
        (execute (H := decline_all) main_chain cs).1 = Undef.
Proof.
  split.
  - apply (reexecute_crashes (G := LegacyPayAdapter) VipPricing draft_shop);
      [apply draft_shop_valid|reflexivity..].
  - apply (reexecute_crashes (G := decline_all) VipPricing draft_shop);
      [apply draft_shop_valid|reflexivity..].
Defined.

(** The program's own run: the two observers are told of each of the three transitions,
    the third-party payment is 41400 cents (90% of 460), the cancellation of the shipped
    order is refused, and the exit status is 0. *)
Theorem order_main_run :
  let note := λ s, [Sms (lit "ORD-2026-001") (state_name s); Logged (lit "ORD-2026-001") (state_name s)] in
  ∃ original payable final,
    main main_start = (Ret 0, final) ∧
    s_out final.2 = [Amounts original payable] ++ note AwaitingPaymentState ++
      [LegacyPayment (lit "ORD-2026-001") 41400] ++ note PaidState ++ note ShippedState ++
      [Refused (lit "当前状态不能取消")] ∧
    original = double_of_int 460 ∧ payable = double_of_int 414 ∧
    o_state (s_order final.2) = ShippedState.
Proof.
  intros note. eexists _, _, _. split; [vm_compute; reflexivity|].
  split; [vm_compute; reflexivity|]. vm_compute. done.
Qed.
