(* ===== verification/AuditSystem.v ===== *)
(** * The audit system of design_patterns/finial/audit

    [composite.hpp], [visitor.hpp], [flyweight.hpp], [interpreter.hpp], [proxy.hpp],
    [template_factory_method.hpp], [facade.hpp] and [main.cpp]: a tree of directories and
    files is walked by visitors, a rule picks the risky files, a proxy guards the scan
    and an exporter writes the report. *)

From stdpp Require Import base gmap list sets strings.
From Stdlib Require Import ZArith Lia Ascii.
From S2P Require Import Prelude CxxString.

Local Open Scope Z_scope.

(** The double quote, which literals below need. *)
Definition quote : ascii := Ascii.ascii_of_nat 34.

(** ** flyweight.hpp *)

Record FileType := MkFileType { extension : bytes; category : bytes }.

(** The factory owns shared objects: [heap] is every [FileType] ever made, a
    [shared_ptr] is its index, [cache] is the map from extension to pointer. *)
Record FileTypeFactory := Factory { cache : gmap bytes nat; heap : list FileType }.
Definition empty_factory : FileTypeFactory := Factory ∅ [].

Definition get_type (ext cat : bytes) (f : FileTypeFactory) : nat * FileTypeFactory :=
  match cache f !! ext with
  | Some ptr => (ptr, f)
  | None =>
      let ptr := length (heap f) in
      (ptr, Factory (<[ext := ptr]> (cache f)) (heap f ++ [MkFileType ext cat]))
  end.

Definition typeCount (f : FileTypeFactory) : Z := Z.of_nat (base.size (cache f)).

(** ** composite.hpp *)

Inductive Node :=
  | File (name : bytes) (sizeKb : Z) (type : FileType)
  | Directory (name : bytes) (sensitive : bool) (children : list Node).

Definition node_name (n : Node) : bytes :=
  match n with File name _ _ | Directory name _ _ => name end.

Section node_ind.
Context (P : Node → Prop).
Context (HF : ∀ name sizeKb type, P (File name sizeKb type)).
Context (HD : ∀ name sensitive children, Forall P children → P (Directory name sensitive children)).

Fixpoint node_tree_ind (n : Node) : P n :=
  match n with
  | File name sizeKb type => HF name sizeKb type
  | Directory name sensitive children =>
      HD name sensitive children
        ((fix go (l : list Node) : Forall P l :=
            match l with
            | [] => Forall_nil_2 P
            | c :: l' => Forall_cons_2 P c l' (node_tree_ind c) (go l')
            end) children)
  end.
End node_ind.

(** [Directory::add] *)
Definition add_child (child : Node) (d : Node) : Node :=
  match d with
  | Directory name sensitive children => Directory name sensitive (children ++ [child])
  | File _ _ _ => d
  end.

(** ** visitor.hpp: a visitor is its state and what it does at each kind of node *)

Record NodeVisitor (S : Type) := Visitor {
  visit_file : bytes → Z → FileType → S → S;
  visit_directory : bytes → bool → S → S
}.
Arguments Visitor {S} visit_file visit_directory.
Arguments visit_file {S} _ _ _ _ _.
Arguments visit_directory {S} _ _ _ _.

Fixpoint accept {S} (v : NodeVisitor S) (n : Node) (s : S) : S :=
  match n with
  | File name sizeKb type => visit_file v name sizeKb type s
  | Directory name sensitive children =>
      (fix go (l : list Node) (s : S) : S :=
         match l with [] => s | c :: l' => go l' (accept v c s) end)
        children (visit_directory v name sensitive s)
  end.

(** ** interpreter.hpp *)

Inductive RuleExpression :=
  | ExtensionIs (ext : bytes)
  | SizeGreaterThan (kb : Z)
  | AndExpression (left right : RuleExpression).

Fixpoint interpret (r : RuleExpression) (sizeKb : Z) (type : FileType) : bool :=
  match r with
  | ExtensionIs ext => bool_decide (extension type = ext)
  | SizeGreaterThan kb => kb <? sizeKb
  | AndExpression l r => interpret l sizeKb type && interpret r sizeKb type
  end.

Fixpoint describe (r : RuleExpression) : bytes :=
  match r with
  | ExtensionIs ext => lit "扩展名为 " ++ ext
  | SizeGreaterThan kb => lit "大小超过 " ++ show_int kb ++ lit "KB"
  | AndExpression l r =>
      lit "(" ++ describe l ++ lit " AND " ++ describe r ++ lit ")"
  end.

Record statistics := Stats { st_files : Z; st_directories : Z; st_totalKb : Z }.
Definition StatisticsVisitor : NodeVisitor statistics :=
  Visitor
    (λ _ sizeKb _ s, Stats (wrap64 (st_files s + 1)) (st_directories s) (wrap64 (st_totalKb s + sizeKb)))
    (λ _ _ s, Stats (st_files s) (wrap64 (st_directories s + 1)) (st_totalKb s)).
Definition stats_result (s : statistics) : bytes :=
  lit "目录数=" ++ show_int (st_directories s) ++ lit ", 文件数=" ++ show_int (st_files s) ++
  lit ", 总大小=" ++ show_int (st_totalKb s) ++ lit "KB".

(** The visitor's state is its vector of risky names. *)
Definition RiskVisitor (rule : RuleExpression) : NodeVisitor (list bytes) :=
  Visitor
    (λ name sizeKb type risks, if interpret rule sizeKb type then risks ++ [name] else risks)
    (λ _ _ risks, risks).

(** ** proxy.hpp *)

Inductive Role := Employee | Admin.

(** Standard output is the state of a scan. *)
Definition io (A : Type) : Type := prog bytes A.
Definition print (s : bytes) : io unit := modify (λ out, out ++ s).

(** [ScanService]: the interface the facade scans through. *)
Class ScanService := scan : Node → Role → RuleExpression → io (list bytes).

Definition RealScanService : ScanService := λ root _ rule, mret (accept (RiskVisitor rule) root []).

Definition is_sensitive (n : Node) : bool :=
  match n with Directory _ sensitive _ => sensitive | File _ _ _ => false end.

Definition SecureScanProxy (target : ScanService) : ScanService := λ root role rule,
  if is_sensitive root && match role with Admin => false | Employee => true end
  then throw (RuntimeError (lit "权限不足：敏感目录仅管理员可扫描"))
  else
    print (lit "[审计日志] 开始扫描目录：" ++ node_name root ++ [newline]);;
    scan (ScanService := target) root role rule.

(** ** template_factory_method.hpp *)

(** [ReportExporter]: the fixed skeleton over three virtual functions. *)
Record ReportExporter := Exporter { header : bytes; body : list bytes → bytes; footer : bytes }.

Definition exportReport (e : ReportExporter) (risks : list bytes) : bytes :=
  header e ++ body e risks ++ footer e.

Definition TextReportExporter : ReportExporter :=
  Exporter (lit "=== 安全审计报告 ===" ++ [newline])
    (λ risks,
      concat ((λ name, lit "- 风险文件：" ++ name ++ [newline]) <$> risks) ++
      match risks with [] => lit "- 未发现风险" ++ [newline] | _ => [] end)
    (lit "=== 报告结束 ===" ++ [newline]).

(** The loop of the JSON body: a comma before every element but the first. *)
Fixpoint json_elems (i : nat) (risks : list bytes) : bytes :=
  match risks with
  | [] => []
  | name :: risks' =>
      (if (i =? 0)%nat then [] else lit ",") ++ [quote] ++ name ++ [quote] ++ json_elems (S i) risks'
  end.
Definition JsonReportExporter : ReportExporter :=
  Exporter (lit "{" ++ [quote] ++ lit "risks" ++ [quote] ++ lit ":[") (json_elems 0)
    (lit "]}" ++ [newline]).

Inductive ExporterCreator := TextExporterCreator | JsonExporterCreator.
Definition create (c : ExporterCreator) : ReportExporter :=
  match c with
  | TextExporterCreator => TextReportExporter
  | JsonExporterCreator => JsonReportExporter
  end.

(** ** facade.hpp *)

Definition audit `{ScanService} (root : Node) (role : Role) (rule : RuleExpression)
    (creator : ExporterCreator) : io bytes :=
  risks ← scan root role rule;
  mret (exportReport (create creator) risks).

(** ** main.cpp *)

Definition main : io Z :=
  let '(cpp, types) := get_type (lit ".cpp") (lit "source") empty_factory in
  let '(log, types) := get_type (lit ".log") (lit "log") types in
  let type_of ptr := default (MkFileType [] []) (heap types !! ptr) in
  let source := add_child (File (lit "worker.cpp") 25 (type_of cpp))
    (add_child (File (lit "main.cpp") 12 (type_of cpp)) (Directory (lit "src") false [])) in
  let logs := add_child (File (lit "leak.log") 2048 (type_of log))
    (add_child (File (lit "access.log") 80 (type_of log)) (Directory (lit "logs") false [])) in
  let root := add_child logs (add_child source (Directory (lit "server") true [])) in
  let riskyLog := AndExpression (ExtensionIs (lit ".log")) (SizeGreaterThan 1024) in
  let center := SecureScanProxy RealScanService in
  let run := λ role creator, audit (H := center) root role riskyLog creator in
  try_catch
    (print (lit "[统计] " ++ stats_result (accept StatisticsVisitor root (Stats 0 0 0)) ++
       lit "，共享类型对象数=" ++ show_int (typeCount types) ++ [newline]);;
     print (lit "[规则] " ++ describe riskyLog ++ [newline]);;
     try_catch (run Employee TextExporterCreator;; mret ())
       (λ e, match e with
             | RuntimeError w | LogicError w => Some (print (lit "[拒绝] " ++ w ++ [newline]))
             | _ => None
             end);;
     t ← run Admin TextExporterCreator; print t;;
     j ← run Admin JsonExporterCreator; print j;;
     mret 0)
    (λ e, Some (mret 1)).

(** ** Walking the tree *)

(** The nodes of a tree in the order a visitor meets them. *)
Fixpoint preorder (n : Node) : list Node :=
  match n with
  | File _ _ _ => [n]
  | Directory _ _ children => n :: concat (map preorder children)
  end.

Definition visit_node {S} (v : NodeVisitor S) (s : S) (n : Node) : S :=
  match n with
  | File name sizeKb type => visit_file v name sizeKb type s
  | Directory name sensitive _ => visit_directory v name sensitive s
  end.

Lemma accept_preorder {S} (v : NodeVisitor S) n s :
  accept v n s = foldl (visit_node v) s (preorder n).
Proof.
  revert s. induction n as [name sizeKb type|name sensitive children IH] using node_tree_ind;
    intros s; [done|].
  simpl. generalize (visit_directory v name sensitive s). clear s.
  induction IH as [|c l Hc _ IHl]; intros s; [done|]. simpl.
  rewrite foldl_app, <-Hc. apply IHl.
Qed.

(** *** What a rule means *)

Fixpoint rule_holds (r : RuleExpression) (sizeKb : Z) (type : FileType) : Prop :=
  match r with
  | ExtensionIs ext => extension type = ext
  | SizeGreaterThan kb => kb < sizeKb
  | AndExpression l r => rule_holds l sizeKb type ∧ rule_holds r sizeKb type
  end.

Lemma interpret_spec r sizeKb type : interpret r sizeKb type = true ↔ rule_holds r sizeKb type.
Proof.
  induction r as [ext|kb|l IHl r IHr]; simpl.
  - apply bool_decide_eq_true.
  - apply Z.ltb_lt.
  - by rewrite andb_true_iff, IHl, IHr.
Qed.

Definition risky (rule : RuleExpression) (n : Node) : bool :=
  match n with File _ sizeKb type => interpret rule sizeKb type | Directory _ _ _ => false end.

(** A node is in a tree. *)
Inductive inside : Node → Node → Prop :=
  | inside_here n : inside n n
  | inside_child n c name sensitive children :
      c ∈ children → inside n c → inside n (Directory name sensitive children).

Lemma inside_preorder n root : inside n root ↔ n ∈ preorder root.
Proof.
  split.
  - induction 1 as [[]|n c name sensitive children Hc _ IH]; [by left|by left|].
    simpl. right. apply list_elem_of_In, in_concat. exists (preorder c).
    split; [|by apply list_elem_of_In]. apply in_map. by apply list_elem_of_In.
  - induction root as [name sizeKb type|name sensitive children IH] using node_tree_ind; simpl.
    + intros ->%list_elem_of_singleton. constructor.
    + intros [->|Hin]%elem_of_cons; [constructor|].
      apply list_elem_of_In, in_concat in Hin as (l & Hl & Hin).
      apply in_map_iff in Hl as (c & <- & Hc). apply list_elem_of_In in Hin, Hc.
      eapply inside_child; [done|]. by eapply (proj1 (Forall_forall _ _) IH).
Qed.

Lemma risks_filter rule (ns : list Node) risks :
  foldl (visit_node (RiskVisitor rule)) risks ns =
  risks ++ (node_name <$> base.filter (λ n, risky rule n = true) ns).
Proof.
  revert risks. induction ns as [|n ns IH]; intros risks; simpl; [by rewrite app_nil_r|].
  rewrite IH, filter_cons. destruct n as [name sizeKb type|]; simpl.
  - destruct (interpret rule sizeKb type); [|done].
    rewrite decide_True by done. csimpl. by rewrite <-app_assoc.
  - done.
Qed.

(** A scan reports exactly the files anywhere in the tree that satisfy the rule, in the
    order of the walk, prints nothing and does not depend on the role. *)
Theorem real_scan_exact (root : Node) (role : Role) (rule : RuleExpression) (out : bytes) :
  ∃ risks, scan (ScanService := RealScanService) root role rule out = (Ret risks, out) ∧
    risks = node_name <$> base.filter (λ n, risky rule n = true) (preorder root) ∧
    ∀ name, name ∈ risks ↔
      ∃ sizeKb type, inside (File name sizeKb type) root ∧ rule_holds rule sizeKb type.
Proof.
  eexists. split; [done|]. rewrite accept_preorder, risks_filter. split; [done|].
  intros name. simpl. rewrite list_elem_of_fmap. split.
  - intros (n & -> & [Hr Hn]%list_elem_of_filter). destruct n as [nm sizeKb type|]; [|done].
    exists sizeKb, type. by rewrite inside_preorder, <-interpret_spec.
  - intros (sizeKb & type & Hin%inside_preorder & Hr%interpret_spec).
    exists (File name sizeKb type). split; [done|]. by apply list_elem_of_filter.
Qed.

(** *** Statistics *)

Definition is_file (n : Node) : bool := match n with File _ _ _ => true | _ => false end.
Definition node_size (n : Node) : Z := match n with File _ k _ => k | _ => 0 end.
Definition sum_sizes (ns : list Node) : Z := foldr (λ n acc, node_size n + acc) 0 ns.

Lemma stats_fold (ns : list Node) f d k :
  foldl (visit_node StatisticsVisitor) (Stats (wrap64 f) (wrap64 d) (wrap64 k)) ns =
  Stats (wrap64 (f + Z.of_nat (length (base.filter (λ n, is_file n = true) ns))))
    (wrap64 (d + Z.of_nat (length (base.filter (λ n, is_file n = false) ns))))
    (wrap64 (k + sum_sizes ns)).
Proof.
  revert f d k. induction ns as [|n ns IH]; intros f d k; simpl.
  { by rewrite !Z.add_0_r. }
  assert (∀ x y, wrap64 (wrap64 x + y) = wrap64 (x + y)) as Hw
    by (intros x y; unfold wrap64; apply Zplus_mod_idemp_l).
  rewrite !filter_cons. destruct n as [name sz type|]; simpl; rewrite !Hw, IH; simpl.
  - f_equal; f_equal; lia.
  - f_equal; f_equal; lia.
Qed.

(** The statistics of a tree count its files, its directories and the sum of the file
    sizes, modulo the width of [size_t]. *)
Theorem statistics_exact (root : Node) :
  accept StatisticsVisitor root (Stats 0 0 0) =
  Stats (wrap64 (Z.of_nat (length (base.filter (λ n, is_file n = true) (preorder root)))))
    (wrap64 (Z.of_nat (length (base.filter (λ n, is_file n = false) (preorder root)))))
    (wrap64 (sum_sizes (preorder root))).
Proof. rewrite accept_preorder. apply (stats_fold (preorder root) 0 0 0). Qed.

(** ** The proxy *)

Lemma proxy_run (target : ScanService) root role rule out :
  scan (ScanService := SecureScanProxy target) root role rule out =
  match role, is_sensitive root with
  | Employee, true => (Throw (RuntimeError (lit "权限不足：敏感目录仅管理员可扫描")), out)
  | _, _ => scan (ScanService := target) root role rule
              (out ++ lit "[审计日志] 开始扫描目录：" ++ node_name root ++ [newline])
  end.
Proof. unfold scan, SecureScanProxy. by destruct role, (is_sensitive root). Qed.

(** Only the root is checked: an employee who scans the parent of a sensitive directory
    is shown the files inside it, although the message says that sensitive directories can be
    scanned by administrators only. *)
Theorem proxy_leaks_nested (secret : bytes) (sizeKb : Z) (type : FileType) (out : bytes) :
  let vault := Directory (lit "vault") true [File secret sizeKb type] in
  ∃ out' risks,
    scan (ScanService := SecureScanProxy RealScanService) (Directory (lit "home") false [vault])
      Employee (ExtensionIs (extension type)) out = (Ret risks, out') ∧ secret ∈ risks.
Proof.
  intros vault. rewrite proxy_run. eexists _, _. split; [done|]. simpl.
  rewrite bool_decide_true by done. by left.
Qed.

(** ** Reading a JSON report back *)

Definition backslash : ascii := Ascii.ascii_of_nat 92.

(** A character that stands for itself in a JSON string: not a quotation mark, not a
    backslash, not a control character. *)
Definition plain (c : ascii) : bool :=
  negb (Ascii.eqb c quote) && negb (Ascii.eqb c backslash) && (32 <=? nat_of_ascii c)%nat.

(** The two-character escapes; the reader refuses the numeric ones. *)
Definition unescape (c : ascii) : option ascii :=
  if Ascii.eqb c quote || Ascii.eqb c backslash || Ascii.eqb c "/" then Some c
  else if Ascii.eqb c "b" then Some (Ascii.ascii_of_nat 8)
  else if Ascii.eqb c "f" then Some (Ascii.ascii_of_nat 12)
  else if Ascii.eqb c "n" then Some (Ascii.ascii_of_nat 10)
  else if Ascii.eqb c "r" then Some (Ascii.ascii_of_nat 13)
  else if Ascii.eqb c "t" then Some (Ascii.ascii_of_nat 9)
  else None.

(** What follows the opening quotation mark of a JSON string, up to the closing one. *)
Fixpoint parse_string (s : bytes) : option (bytes * bytes) :=
  match s with
  | [] => None
  | c :: s' =>
      if Ascii.eqb c quote then Some ([], s')
      else if Ascii.eqb c backslash then
        match s' with
        | e :: s'' => d ← unescape e; '(name, rest) ← parse_string s''; Some (d :: name, rest)
        | [] => None
        end
      else if (32 <=? nat_of_ascii c)%nat then
        '(name, rest) ← parse_string s'; Some (c :: name, rest)
      else None
  end.

Fixpoint parse_elems (fuel : nat) (s : bytes) : option (list bytes) :=
  match fuel, s with
  | S fuel', q :: s' =>
      if Ascii.eqb q quote then
        '(name, rest) ← parse_string s';
        match rest with
        | c :: rest' =>
            if Ascii.eqb c "," then cons name <$> parse_elems fuel' rest'
            else if bool_decide (rest = footer JsonReportExporter) then Some [name] else None
        | [] => None
        end
      else None
  | _, _ => None
  end.

Definition strip_prefix (p s : bytes) : option bytes :=
  if decide (take (length p) s = p) then Some (drop (length p) s) else None.

(** A reader of the reports: the header, strings separated by commas, the footer. *)
Definition parse_report (s : bytes) : option (list bytes) :=
  rest ← strip_prefix (header JsonReportExporter) s;
  if bool_decide (rest = footer JsonReportExporter) then Some []
  else parse_elems (length rest) rest.

Lemma strip_prefix_app p s : strip_prefix p (p ++ s) = Some s.
Proof. unfold strip_prefix. by rewrite take_app_length, drop_app_length, decide_True. Qed.

(** A name that stands for itself. *)
Definition plain_name (name : bytes) : Prop := Forall (λ c, plain c = true) name.

Lemma parse_string_plain name rest :
  plain_name name → parse_string (name ++ quote :: rest) = Some (name, rest).
Proof.
  induction 1 as [|c name Hc _ IH]; [done|].
  apply andb_true_iff in Hc as [[Hq%negb_true_iff Hb%negb_true_iff]%andb_true_iff H32].
  cbn [app parse_string]. by rewrite Hq, Hb, H32, IH.
Qed.

(** A string is read as it stands, or it is longer than what it is read as. *)
Lemma parse_string_inv s name rest :
  parse_string s = Some (name, rest) →
  (s = name ++ quote :: rest ∧ plain_name name) ∨ (length (name ++ quote :: rest) < length s)%nat.
Proof.
  revert name rest. induction (Nat.lt_wf_0_projected (@length ascii) s) as [s _ IH].
  intros name rest. destruct s as [|c s]; [done|]. cbn [parse_string].
  destruct (Ascii.eqb_spec c quote) as [->|Hq]; [intros [= <- <-]; left; by split; [|constructor]|].
  destruct (Ascii.eqb_spec c backslash) as [->|Hb].
  - destruct s as [|e s]; [done|]. destruct (unescape e) as [d|]; [|done]. cbn [mbind option_bind].
    destruct (parse_string s) as [[n r]|] eqn:E; [|done]. cbn. intros [= <- <-]. right.
    apply IH in E; [|cbn; lia]. destruct E as [[-> _]|E]; cbn; lia.
  - destruct (Nat.leb_spec 32 (nat_of_ascii c)) as [H32|]; [|done].
    destruct (parse_string s) as [[n r]|] eqn:E; [|done]. cbn. intros [= <- <-].
    apply IH in E; [|cbn; lia]. destruct E as [[-> Hn]|E]; [left; split; [done|]|right; cbn; lia].
    constructor; [|done]. unfold plain. apply Ascii.eqb_neq in Hq, Hb. rewrite Hq, Hb.
    by apply Nat.leb_le.
Qed.

Lemma json_elems_S i risks : json_elems (S i) risks = json_elems 1 risks.
Proof. revert i. induction risks as [|name risks IH]; intros i; [done|]. simpl. by rewrite (IH (S i)), (IH 1%nat). Qed.

Lemma json_elems_length i risks : (length risks <= length (json_elems i risks))%nat.
Proof.
  revert i. induction risks as [|n risks IH]; intros i; [done|]. simpl.
  specialize (IH (S i)). repeat (rewrite length_app; simpl). lia.
Qed.

Lemma json_elems_cons name risks :
  json_elems 0 (name :: risks) =
  quote :: name ++ quote :: match risks with [] => [] | _ => lit "," ++ json_elems 0 risks end.
Proof.
  change (json_elems 0 (name :: risks)) with (quote :: name ++ quote :: json_elems 1 risks).
  do 3 f_equal. destruct risks as [|n2 risks]; [done|]. cbn [json_elems Nat.eqb].
  by rewrite (json_elems_S 1 risks).
Qed.

Lemma parse_elems_json fuel name risks :
  Forall plain_name (name :: risks) → (length risks < fuel)%nat →
  parse_elems fuel (json_elems 0 (name :: risks) ++ footer JsonReportExporter) =
  Some (name :: risks).
Proof.
  revert name risks. induction fuel as [|fuel IH]; intros name risks Hall Hf; [lia|].
  apply Forall_cons in Hall as [Hn Hall]. rewrite json_elems_cons.
  cbn [app parse_elems]. rewrite Ascii.eqb_refl, <-app_assoc. cbn [app].
  rewrite parse_string_plain by done. cbn [mbind option_bind].
  destruct risks as [|n2 risks]; [by vm_compute|].
  change (lit "," ++ json_elems 0 (n2 :: risks)) with (","%char :: json_elems 0 (n2 :: risks)).
  cbn [app]. rewrite Ascii.eqb_refl, IH; [done|done|simpl in Hf; lia].
Qed.

(** Whatever is read from a text is written as that text, or the text is longer. *)
Lemma parse_elems_inv fuel s risks :
  parse_elems fuel s = Some risks →
  let written := json_elems 0 risks ++ footer JsonReportExporter in
  (Forall plain_name risks ∧ length written <= length s)%nat ∨ (length written < length s)%nat.
Proof.
  cbn zeta. revert s risks. induction fuel as [|fuel IH]; intros s risks; [done|].
  destruct s as [|q s]; [done|]. cbn [parse_elems].
  destruct (Ascii.eqb_spec q quote) as [->|]; [|done].
  destruct (parse_string s) as [[name rest]|] eqn:E; [|done]. cbn [mbind option_bind].
  apply parse_string_inv in E. destruct rest as [|c rest]; [done|].
  destruct (Ascii.eqb_spec c ",") as [->|].
  - destruct (parse_elems fuel rest) as [names|] eqn:En; [|done]. intros [= <-].
    apply IH in En. rewrite json_elems_cons.
    assert (length (match names with [] => [] | _ => lit "," ++ json_elems 0 names end) <=
      S (length (json_elems 0 names)))%nat as Hl by (destruct names; cbn; lia).
    repeat (rewrite length_app in * || rewrite length_cons in * ).
    destruct E as [[-> Hn]|E]; [|right; lia].
    repeat (rewrite length_app in * || rewrite length_cons in * ).
    destruct En as [[Hns ?]|?]; [left|right; lia]. split; [by constructor|lia].
  - case_bool_decide as Hr; [|done]. intros [= <-]. rewrite json_elems_cons, <-Hr.
    repeat (rewrite length_app in * || rewrite length_cons in * ).
    destruct E as [[-> Hn]|E]; [left|right]; repeat (rewrite length_app in * || rewrite length_cons in * );
      [split; [by repeat constructor|]|]; cbn; lia.
Qed.

(** A report reads back as the names it was written from exactly when every name stands
    for itself. *)
Lemma parse_report_json risks :
  parse_report (exportReport JsonReportExporter risks) = Some risks ↔ Forall plain_name risks.
Proof.
  unfold parse_report, exportReport. rewrite strip_prefix_app. cbn [mbind option_bind].
  change (body JsonReportExporter) with (json_elems 0). destruct risks as [|name risks].
  { rewrite bool_decide_true by done. split; [constructor|done]. }
  rewrite bool_decide_false by (by intros [=]). split.
  - intros [[? _]|Hlt]%parse_elems_inv; [done|]. by apply Nat.lt_irrefl in Hlt.
  - intros Hall. apply parse_elems_json; [done|].
    pose proof (json_elems_length 0 (name :: risks)) as Hlen. rewrite length_app.
    rewrite length_cons in Hlen. lia.
Qed.

(** C33. The audit, end to end: through the proxy an employee asking for a sensitive root
    gets the exception and nothing is printed; every other request prints the log line and
    returns a JSON report, which reads back as exactly the list of the risky files of
    the tree if and only if no risky name contains a quotation mark, a backslash or a
    control character (names are written without escapes). *)
Theorem audit_json_exact (root : Node) (role : Role) (rule : RuleExpression) (out : bytes) :
  let risks := node_name <$> base.filter (λ n, risky rule n = true) (preorder root) in
  let result := audit (H := SecureScanProxy RealScanService) root role rule JsonExporterCreator out in
  match role, is_sensitive root with
  | Employee, true => result = (Throw (RuntimeError (lit "权限不足：敏感目录仅管理员可扫描")), out)
  | _, _ => ∃ report,
      result = (Ret report, out ++ lit "[审计日志] 开始扫描目录：" ++ node_name root ++ [newline]) ∧
      (parse_report report = Some risks ↔ Forall plain_name risks)
  end.
Proof.
  intros risks result.
  assert (∀ out', audit (H := RealScanService) root role rule JsonExporterCreator out' =
    (Ret (exportReport JsonReportExporter risks), out')) as Hr.
  { intros out'. unfold audit, scan, RealScanService. run_prog.
    by rewrite accept_preorder, risks_filter. }
  subst result. unfold audit in *. revert Hr. run_prog. intros Hr. rewrite proxy_run.
  destruct role, (is_sensitive root); [done|..].
  all: rewrite Hr; eexists; split; [done|]; apply parse_report_json.
Qed.

(** An administrator's report, and a name with a backslash, whose report no longer reads
    back. *)
Example audit_reports :
  let logs name := Directory (lit "logs") true [File name 2048 (MkFileType (lit ".log") (lit "log"))] in
  let report role name :=
    audit (H := SecureScanProxy RealScanService) (logs name) role (SizeGreaterThan 1024)
      JsonExporterCreator [] in
  match report Admin (lit "leak.log"), report Admin (lit "leak" ++ [backslash] ++ lit "nlog") with
  | (Ret good, _), (Ret bad, _) => parse_report good = Some [lit "leak.log"] ∧
      parse_report bad = Some [lit "leak" ++ [newline] ++ lit "log"]
  | _, _ => False
  end ∧ (report Employee (lit "leak.log")).2 = [].
Proof. by vm_compute. Qed.

(** Names are not escaped: one file whose name contains a quotation mark and a comma gives
    the same report as two files. *)
Theorem json_report_ambiguous (a b : bytes) :
  exportReport JsonReportExporter [a ++ [quote] ++ lit "," ++ [quote] ++ b] =
  exportReport JsonReportExporter [a; b] ∧
  [a ++ [quote] ++ lit "," ++ [quote] ++ b] ≠ [a; b].
Proof.
  split; [|by intros [=]]. unfold exportReport. simpl. do 9 f_equal.
  rewrite <-!app_assoc. simpl. by rewrite <-!app_assoc.
Qed.

(** ** The flyweight factory *)

Definition factory_ok (f : FileTypeFactory) : Prop :=
  (∀ ext ptr, cache f !! ext = Some ptr → ∃ cat, heap f !! ptr = Some (MkFileType ext cat)) ∧
  (∀ ext1 ext2 ptr, cache f !! ext1 = Some ptr → cache f !! ext2 = Some ptr → ext1 = ext2) ∧
  base.size (cache f) = length (heap f).

Fixpoint get_types (reqs : list (bytes * bytes)) (f : FileTypeFactory) :
    list nat * FileTypeFactory :=
  match reqs with
  | [] => ([], f)
  | (ext, cat) :: reqs' =>
      let '(ptr, f) := get_type ext cat f in
      let '(ptrs, f) := get_types reqs' f in (ptr :: ptrs, f)
  end.

Lemma get_type_ok ext cat f :
  factory_ok f →
  let '(ptr, f') := get_type ext cat f in
  factory_ok f' ∧ cache f' !! ext = Some ptr ∧
  dom (cache f') = {[ext]} ∪ dom (cache f) ∧ cache f ⊆ cache f' ∧ heap f `prefix_of` heap f'.
Proof.
  intros (Hh & Hi & Hs). unfold get_type. destruct (cache f !! ext) as [ptr|] eqn:E.
  - split_and!; try done. apply elem_of_dom_2 in E. set_solver.
  - assert (∀ e p, cache f !! e = Some p → (p < length (heap f))%nat) as Hlt.
    { intros e p (c & Hc)%Hh. by eapply lookup_lt_Some. }
    split; [|simpl; split_and!].
    + split_and!; simpl.
      * intros e p [[<- <-]|[_ Hp]]%lookup_insert_Some.
        -- exists cat. by apply list_lookup_middle.
        -- destruct (Hh e p Hp) as [c Hc]. exists c. by apply lookup_app_l_Some.
      * intros e1 e2 p [[<- ?]|[_ H1]]%lookup_insert_Some [[<- ?]|[_ H2]]%lookup_insert_Some.
        -- done.
        -- apply Hlt in H2. lia.
        -- apply Hlt in H1. lia.
        -- by eapply Hi.
      * rewrite map_size_insert_None, length_app by done. simpl. lia.
    + by rewrite lookup_insert_eq.
    + by rewrite dom_insert_L.
    + by apply insert_subseteq.
    + by apply prefix_app_r.
Qed.

Lemma get_types_ok reqs f :
  factory_ok f →
  let '(ptrs, f') := get_types reqs f in
  factory_ok f' ∧ Forall2 (λ req ptr, cache f' !! req.1 = Some ptr) reqs ptrs ∧
  dom (cache f') = list_to_set reqs.*1 ∪ dom (cache f) ∧ cache f ⊆ cache f'.
Proof.
  revert f. induction reqs as [|[ext cat] reqs IH]; intros f Hf; simpl.
  { split_and!; try done; set_solver. }
  pose proof (get_type_ok ext cat f Hf) as Hg. destruct (get_type ext cat f) as [ptr f1].
  destruct Hg as (Hf1 & Hp & Hd & Hsub & _). specialize (IH f1 Hf1).
  destruct (get_types reqs f1) as [ptrs f2]. destruct IH as (Hf2 & Hall & Hd2 & Hsub2).
  split_and!; [done| | |by etrans].
  - constructor; [simpl; by eapply lookup_weaken|done].
  - set_solver.
Qed.

(** The flyweight factory shares: over any sequence of requests two results are the same
    object exactly when the extensions are equal, whatever categories were asked for, and
    [typeCount] is the number of distinct extensions. *)
Theorem factory_shares (reqs : list (bytes * bytes)) (i j : nat) (ei ej ci cj : bytes) :
  reqs !! i = Some (ei, ci) → reqs !! j = Some (ej, cj) →
  let '(ptrs, f) := get_types reqs empty_factory in
  (ptrs !! i = ptrs !! j ↔ ei = ej) ∧
  typeCount f = Z.of_nat (base.size (list_to_set reqs.*1 : gset bytes)).
Proof.
  intros Hi Hj. pose proof (get_types_ok reqs empty_factory) as Hg.
  destruct (get_types reqs empty_factory) as [ptrs f].
  destruct Hg as (Hf & Hall & Hd & _); [by split_and!|].
  destruct (Forall2_lookup_l _ _ _ _ _ Hall Hi) as (p & Hp & Hcp).
  destruct (Forall2_lookup_l _ _ _ _ _ Hall Hj) as (q & Hq & Hcq). simpl in Hcp, Hcq. split.
  - rewrite Hp, Hq. split; [|intros ->; congruence].
    intros [= ->]. by eapply (proj1 (proj2 Hf)).
  - unfold typeCount. rewrite <-size_dom, Hd. simpl. by rewrite dom_empty_L, right_id_L by apply _.
Qed.

Lemma factory_shares_witness :
  let '(ptrs, f) := get_types [(lit ".cpp", lit "source"); (lit ".log", lit "log");
                               (lit ".cpp", lit "text")] empty_factory in
  (ptrs !! 0%nat = ptrs !! 2%nat ↔ lit ".cpp" = lit ".cpp") ∧
  typeCount f = Z.of_nat (base.size (list_to_set [lit ".cpp"; lit ".log"; lit ".cpp"] : gset bytes)).
Proof.
  apply (factory_shares [(lit ".cpp", lit "source"); (lit ".log", lit "log");
    (lit ".cpp", lit "text")] 0 2 (lit ".cpp") (lit ".cpp") (lit "source") (lit "text")); done.
Defined.

(** The program's own run refuses the employee once and reports the one risky log twice. *)
Example audit_main_run :
  ∃ out, main [] = (Ret 0, out) ∧
    parse_report (drop (length out - length (exportReport JsonReportExporter [lit "leak.log"])) out)
      = Some [lit "leak.log"].
Proof. eexists. split; [vm_compute; reflexivity|]. vm_compute. done. Qed.
