(* ===== verification/FrameworkServer.v ===== *)
(** * base_server_application_framework/framework_server.cpp

    An epoll event loop with a pool of worker threads.  The loop reads lines from its
    connections and hands one line at a time to the pool; a worker answers with the line
    in upper case; the loop writes the answer back.  One step of the model is one epoll
    event handled by the loop or one critical section of a worker, so the order of steps
    is any interleaving of the threads.  Connections are shared objects known by their
    identity (the [shared_ptr]), since a file descriptor can be reused. *)

From stdpp Require Import base gmap list sets strings.
From Stdlib Require Import ZArith Lia Ascii.
From S2P Require Import Prelude CxxString.

Local Open Scope Z_scope.

(** ** Data *)

Inductive State := reading | processing | writing | closed.
#[export] Instance State_eq_dec : EqDecision State.
Proof. solve_decision. Defined.

Record Connection := Conn {
  socket : Z;
  state : State;
  input : bytes;
  output : bytes;
  sent : nat;
  peer_eof : bool
}.

Definition new_connection (fd : Z) : Connection := Conn fd reading [] [] 0 false.

(** The identity of a connection object. *)
Abbreviation cid := nat.
Record Job := MkJob { job_conn : cid; job_line : bytes }.
Record Completion := MkCompletion { done_conn : cid; response : bytes }.

(** Epoll flags. *)
Definition EPOLLIN : Z := 1.
Definition EPOLLOUT : Z := 4.
Definition EPOLLERR : Z := 8.
Definition EPOLLHUP : Z := 16.
Definition EPOLLRDHUP : Z := 8192.
Definition has (flags bit : Z) : bool := negb (Z.land flags bit =? 0).

(** The whole server: the objects, the loop's map of clients, the pool's queue, the jobs
    the workers hold, the completion queue, the epoll set, and, for the specification, the
    bytes each connection has received and sent so far. *)
Record server := Server {
  conns : gmap cid Connection;
  clients : gmap Z cid;
  jobs : list Job;
  running : list Job;
  done : list Completion;
  registered : gmap Z Z;
  wire : gmap cid (bytes * bytes)
}.

Definition init : server := Server ∅ ∅ [] [] [] ∅ ∅.

(** ** The worker's business logic *)

(** [if (c >= 'a' && c <= 'z') c = c - 'a' + 'A'] *)
Definition upper_char (c : ascii) : ascii :=
  let n := nat_of_ascii c in
  if ((97 <=? n) && (n <=? 122))%nat then ascii_of_nat (n - 97 + 65) else c.
Definition answer (line : bytes) : bytes := lit "OK " ++ (upper_char <$> line) ++ [newline].

(** ** The loop's helpers *)

Definition set_state (st : State) (c : Connection) : Connection :=
  Conn (socket c) st (input c) (output c) (sent c) (peer_eof c).

(** [line.back() == '\r'] then [line.pop_back()] *)
Definition strip_cr (line : bytes) : bytes :=
  match last line with
  | Some c => if Ascii.eqb c cr then removelast line else line
  | None => line
  end.

(** Returns the connection, the job submitted to the pool if any, and the code's result. *)
Definition dispatch_line (id : cid) (c : Connection) : Connection * list Job * bool :=
  if negb (bool_decide (state c = reading)) then (c, [], true)
  else
    match index_of (Ascii.eqb newline) (input c) with
    | None =>
        if 4096 <? size (input c) then (set_state closed c, [], false) else (c, [], true)
    | Some end_ =>
        if 4096 <? Z.of_nat end_ then (set_state closed c, [], false)
        else
          (Conn (socket c) processing (drop (S end_) (input c)) (output c) (sent c) (peer_eof c),
           [MkJob id (strip_cr (take end_ (input c)))], true)
    end.

Definition interest (c : Connection) : Z :=
  let e := Z.lor EPOLLRDHUP EPOLLERR in
  let e := if bool_decide (state c = reading) && negb (peer_eof c) then Z.lor e EPOLLIN else e in
  if bool_decide (state c = writing) then Z.lor e EPOLLOUT else e.

(** [epoll_ctl]: ADD of a registered descriptor and MOD of an unregistered one fail, and
    the code throws. *)
Definition epoll_add (fd flags : Z) (reg : gmap Z Z) : outcome (gmap Z Z) :=
  match reg !! fd with
  | None => Ret (<[fd := flags]> reg)
  | Some _ => Throw (RuntimeError (lit "epoll_ctl ADD"))
  end.
Definition epoll_mod (fd flags : Z) (reg : gmap Z Z) : outcome (gmap Z Z) :=
  match reg !! fd with
  | Some _ => Ret (<[fd := flags]> reg)
  | None => Throw (RuntimeError (lit "epoll_ctl MOD"))
  end.

(** ** The loop on one client *)

(** What the calls of [recv] return until one would block. *)
Inductive recv_result := Got (data : bytes) | Eof | RecvIntr | RecvError.
(** What the calls of [send] return until one would block: [Took n] is [n + 1] bytes, or
    as many as were offered. *)
Inductive send_result := Took (n : nat) | SendIntr | SendError.

(** The receive loop: the connection, whether it is alive, the bytes received. *)
Fixpoint recv_loop (rx : list recv_result) (c : Connection) : Connection * bool * bytes :=
  match rx with
  | [] => (c, true, [])
  | Got data :: rx' =>
      let c' := Conn (socket c) (state c) (input c ++ data) (output c) (sent c) (peer_eof c) in
      let '(c'', alive, r) := recv_loop rx' c' in (c'', alive, data ++ r)
  | Eof :: _ => (Conn (socket c) (state c) (input c) (output c) (sent c) true, true, [])
  | RecvIntr :: rx' => recv_loop rx' c
  | RecvError :: _ => (c, false, [])
  end.

Definition set_sent (n : nat) (c : Connection) : Connection :=
  Conn (socket c) (state c) (input c) (output c) n (peer_eof c).

(** The send loop: the connection, whether it is alive, the bytes sent. *)
Fixpoint send_loop (tx : list send_result) (c : Connection) : Connection * bool * bytes :=
  if (sent c <? length (output c))%nat then
    match tx with
    | [] => (c, true, [])
    | Took n :: tx' =>
        let offered := drop (sent c) (output c) in
        let k := Nat.min (S n) (length offered) in
        let '(c', alive, w) := send_loop tx' (set_sent (sent c + k) c) in
        (c', alive, take k offered ++ w)
    | SendIntr :: tx' => send_loop tx' c
    | SendError :: _ => (c, false, [])
    end
  else (c, true, []).

Definition clear_output (c : Connection) : Connection :=
  Conn (socket c) reading (input c) [] 0 (peer_eof c).
Definition set_eof (c : Connection) : Connection :=
  Conn (socket c) (state c) (input c) (output c) (sent c) true.

(** The three parts of the handler, each giving the connection, submitted jobs, [alive] and
    the bytes moved. *)
Definition handle_in (id : cid) (flags : Z) (rx : list recv_result) (c : Connection) :
    Connection * list Job * bool * bytes :=
  if has flags EPOLLIN then
    let '(c, alive, r) := recv_loop rx c in
    if alive then let '(c, js, alive) := dispatch_line id c in (c, js, alive, r)
    else (c, [], false, r)
  else (c, [], true, []).

Definition handle_out (id : cid) (flags : Z) (tx : list send_result) (alive : bool) (c : Connection) :
    Connection * list Job * bool * bytes :=
  if alive && has flags EPOLLOUT && bool_decide (state c = writing) then
    let '(c, alive, w) := send_loop tx c in
    if alive && (sent c =? length (output c))%nat then
      let '(c, js, alive) := dispatch_line id (clear_output c) in (c, js, alive, w)
    else (c, [], alive, w)
  else (c, [], alive, []).

Definition handle_eof (id : cid) (flags : Z) (alive : bool) (c : Connection) :
    Connection * list Job * bool :=
  let c := if has flags (Z.lor EPOLLERR (Z.lor EPOLLHUP EPOLLRDHUP)) then set_eof c else c in
  if alive && peer_eof c && bool_decide (state c = reading) then
    let '(c, js, ok) := dispatch_line id c in
    if negb ok then (c, js, false)
    else if bool_decide (state c = reading) then (c, js, false) else (c, js, true)
  else (c, [], alive).

Definition handle_client (id : cid) (flags : Z) (rx : list recv_result) (tx : list send_result)
    (c : Connection) : Connection * list Job * bool * bytes * bytes :=
  let '(c, js1, alive, r) := handle_in id flags rx c in
  let '(c, js2, alive, w) := handle_out id flags tx alive c in
  let '(c, js3, alive) := handle_eof id flags alive c in
  (c, js1 ++ js2 ++ js3, alive, r, w).

Definition wire_add (id : cid) (r w : bytes) (m : gmap cid (bytes * bytes)) : gmap cid (bytes * bytes) :=
  alter (λ p, (p.1 ++ r, p.2 ++ w)) id m.

(** [close_connection] *)
Definition close_connection (id : cid) (c : Connection) (s : server) : server :=
  Server (<[id := set_state closed c]> (conns s))
    (if bool_decide (clients s !! socket c = Some id) then delete (socket c) (clients s) else clients s)
    (jobs s) (running s) (done s) (delete (socket c) (registered s)) (wire s).

Definition client_event (fd flags : Z) (rx : list recv_result) (tx : list send_result) (s : server) :
    outcome server :=
  match clients s !! fd with
  | None => Ret s
  | Some id =>
      c ← deref (conns s !! id);
      let '(c', js, alive, r, w) := handle_client id flags rx tx c in
      let s' := Server (<[id := c']> (conns s)) (clients s) (jobs s ++ js) (running s) (done s)
                  (registered s) (wire_add id r w (wire s)) in
      if alive : bool then
        reg ← epoll_mod fd (interest c') (registered s');
        Ret (Server (conns s') (clients s') (jobs s') (running s') (done s') reg (wire s'))
      else Ret (close_connection id c' s')
  end.

(** ** The other events of the loop *)

(** The body of the completion loop for one result. *)
Definition complete (r : Completion) (s : server) : outcome server :=
  let id := done_conn r in
  c ← deref (conns s !! id);
  if bool_decide (clients s !! socket c = Some id) && negb (bool_decide (state c = closed)) then
    let c' := Conn (socket c) writing (input c) (response r) 0 (peer_eof c) in
    reg ← epoll_mod (socket c) (interest c') (registered s);
    Ret (Server (<[id := c']> (conns s)) (clients s) (jobs s) (running s) (done s) reg (wire s))
  else Ret s.

Fixpoint complete_all (rs : list Completion) (s : server) : outcome server :=
  match rs with
  | [] => Ret s
  | r :: rs' => s' ← complete r s; complete_all rs' s'
  end.

(** The wake-up event: [std::swap(local, done)] and the loop over [local]. *)
Definition notify_event (s : server) : outcome server :=
  complete_all (done s)
    (Server (conns s) (clients s) (jobs s) (running s) [] (registered s) (wire s)).

(** [accept4] has returned [fd]; the new object is [id].  [emplace] does not overwrite. *)
Definition accept_event (id : cid) (fd : Z) (s : server) : outcome server :=
  let c := new_connection fd in
  reg ← epoll_add fd (interest c) (registered s);
  Ret (Server (<[id := c]> (conns s))
    (match clients s !! fd with Some _ => clients s | None => <[fd := id]> (clients s) end)
    (jobs s) (running s) (done s) reg (<[id := ([], [])]> (wire s))).

(** A worker takes the front job; a worker finishes a job it holds. *)
Definition worker_take (s : server) : outcome server :=
  match jobs s with
  | [] => Ret s
  | j :: js => Ret (Server (conns s) (clients s) js (running s ++ [j]) (done s) (registered s) (wire s))
  end.
Definition worker_finish (i : nat) (s : server) : outcome server :=
  match running s !! i with
  | None => Ret s
  | Some j =>
      Ret (Server (conns s) (clients s) (jobs s) (delete i (running s))
        (done s ++ [MkCompletion (job_conn j) (answer (job_line j))]) (registered s) (wire s))
  end.

(** ** Executions *)

Inductive event :=
  | EvAccept (id : cid) (fd : Z)
  | EvClient (fd flags : Z) (rx : list recv_result) (tx : list send_result)
  | EvNotify
  | EvTake
  | EvFinish (i : nat).

Definition exec (e : event) (s : server) : outcome server :=
  match e with
  | EvAccept id fd => accept_event id fd s
  | EvClient fd flags rx tx => client_event fd flags rx tx s
  | EvNotify => notify_event s
  | EvTake => worker_take s
  | EvFinish i => worker_finish i s
  end.

(** What the kernel and the allocator guarantee: a new object has a new identity, and
    [accept4] does not return a descriptor that is still open. *)
Definition event_ok (e : event) (s : server) : Prop :=
  match e with
  | EvAccept id fd => conns s !! id = None ∧ clients s !! fd = None
  | _ => True
  end.

Inductive reachable : server → Prop :=
  | reach_init : reachable init
  | reach_step s e s' : reachable s → event_ok e s → exec e s = Ret s' → reachable s'.

(** ** The protocol *)

(** The answer owed to a complete line of input. *)
Definition reply (line : bytes) : bytes := answer (strip_cr line).

Definition owed_jobs (id : cid) (js : list Job) : list bytes :=
  (λ j, answer (job_line j)) <$> base.filter (λ j, job_conn j = id) js.
Definition owed_done (id : cid) (rs : list Completion) : list bytes :=
  response <$> base.filter (λ r, done_conn r = id) rs.

(** A connection that has received [R] and sent [S], with the answers [p] in flight: the
    input splits into complete lines and a rest, and what was sent is a prefix of the
    answers to those lines; what is missing is where the state says it is. *)
Definition conn_ok (c : Connection) (R S : bytes) (p : list bytes) : Prop :=
  ∃ ls rest,
    Forall (λ l, newline ∉ l) ls ∧ R = unlines ls ++ rest ∧
    S `prefix_of` concat (reply <$> ls) ∧
    match state c with
    | reading => rest = input c ∧ output c = [] ∧ sent c = 0%nat ∧ S = concat (reply <$> ls) ∧ p = []
    | writing => rest = input c ∧ (sent c <= length (output c))%nat ∧
                 S ++ drop (sent c) (output c) = concat (reply <$> ls) ∧ p = []
    | processing => rest = input c ∧ output c = [] ∧ sent c = 0%nat ∧
                    ∃ r, p = [r] ∧ S ++ r = concat (reply <$> ls)
    | closed => True
    end.

Lemma conn_ok_perm c R S p p' : p ≡ₚ p' → conn_ok c R S p → conn_ok c R S p'.
Proof.
  intros Hp (ls & rest & Hl & HR & HS & Hst). exists ls, rest. split_and!; try done.
  destruct (state c); [..|done].
  - destruct Hst as (? & ? & ? & ? & ->). by apply Permutation_nil_l in Hp as ->.
  - destruct Hst as (? & ? & ? & r & -> & ?). apply Permutation_singleton_l in Hp. subst p'. eauto 10.
  - destruct Hst as (? & ? & ? & ->). by apply Permutation_nil_l in Hp as ->.
Qed.

Lemma conn_ok_close c R S p p' : conn_ok c R S p → conn_ok (set_state closed c) R S p'.
Proof. intros (ls & rest & Hl & HR & HS & _). by exists ls, rest. Qed.

Lemma recv_loop_ok rx c R S p :
  conn_ok c R S p →
  let '(c', alive, r) := recv_loop rx c in
  conn_ok c' (R ++ r) S p ∧ state c' = state c ∧ socket c' = socket c.
Proof.
  revert c R. induction rx as [|[data| | |] rx IH]; intros c R Hok; simpl;
    try (by rewrite app_nil_r).
  - match goal with |- context [recv_loop rx ?c1] => specialize (IH c1 (R ++ data)) end.
    destruct (recv_loop rx _) as [[c' alive] r]. simpl in IH. rewrite app_assoc. apply IH.
    destruct Hok as (ls & rest & Hl & -> & HS & Hst). exists ls, (rest ++ data).
    rewrite <-app_assoc. split_and!; try done. simpl.
    destruct (state c); naive_solver.
  - by apply IH.
Qed.

Lemma find_newline s i :
  index_of (Ascii.eqb newline) s = Some i →
  s = take i s ++ newline :: drop (S i) s ∧ newline ∉ take i s.
Proof.
  revert i. induction s as [|c s IH]; intros i; cbn [index_of]; [done|].
  destruct (Ascii.eqb_spec newline c) as [<-|Hc].
  - intros [= <-]. simpl. rewrite drop_0. split; [done|apply not_elem_of_nil].
  - intros (j & Hj & ->)%fmap_Some. destruct (IH j Hj) as [E Hn]. simpl. split; [by f_equal|].
    apply not_elem_of_cons. auto.
Qed.

Lemma unlines_snoc ls l : unlines (ls ++ [l]) = unlines ls ++ l ++ [newline].
Proof.
  induction ls as [|x ls IH]; [apply (unlines_cons l [])|].
  rewrite <-app_comm_cons, !unlines_cons, IH. by rewrite <-app_assoc.
Qed.

Definition job_answers (js : list Job) : list bytes := (λ j, answer (job_line j)) <$> js.

Lemma dispatch_line_ok id c R S p :
  conn_ok c R S p →
  let '(c', js, b) := dispatch_line id c in
  conn_ok c' R S (p ++ job_answers js) ∧ socket c' = socket c ∧
  Forall (λ j, job_conn j = id) js ∧ (b = true → state c ≠ closed → state c' ≠ closed).
Proof.
  intros Hok. unfold dispatch_line. case_bool_decide as Hs; simpl; [|by rewrite app_nil_r].
  destruct (index_of _ _) as [i|] eqn:Ei.
  - destruct (4096 <? Z.of_nat i).
    { split; [by eapply conn_ok_close|]. by split_and!. }
    destruct (find_newline _ _ Ei) as [Ein Hnl].
    destruct Hok as (ls & rest & Hl & -> & HS & Hst). rewrite Hs in Hst.
    destruct Hst as (-> & Ho & Hse & HS' & ->). split; [|simpl; split_and!; auto].
    exists (ls ++ [take i (input c)]), (drop (Datatypes.S i) (input c)). simpl.
    rewrite fmap_app, concat_app. simpl. rewrite app_nil_r. split_and!; try done.
    + by apply Forall_app_2; [|constructor].
    + rewrite unlines_snoc, <-!app_assoc. simpl. by rewrite <-Ein.
    + rewrite HS'. by apply prefix_app_r.
    + eexists. split; [done|]. by rewrite HS'.
  - destruct (4096 <? size (input c)); simpl.
    + split; [by eapply conn_ok_close|]. by split_and!.
    + by rewrite app_nil_r.
Qed.

Lemma send_loop_ok tx c R S p :
  conn_ok c R S p → state c = writing →
  let '(c', alive, w) := send_loop tx c in
  conn_ok c' R (S ++ w) p ∧ state c' = writing ∧ socket c' = socket c.
Proof.
  revert c S. induction tx as [|[n| |] tx IH]; intros c S Hok Hw; cbn [send_loop];
    (destruct (sent c <? length (output c))%nat; [|by rewrite app_nil_r]); try (by rewrite app_nil_r); [|by apply IH].
  set (offered := drop (sent c) (output c)). set (k := Nat.min (Datatypes.S n) (length offered)).
  specialize (IH (set_sent (sent c + k) c) (S ++ take k offered)).
  destruct (send_loop tx _) as [[c' alive] w]. simpl in IH. rewrite app_assoc. apply IH; [|done].
  destruct Hok as (ls & rest & Hl & -> & HS & Hst). rewrite Hw in Hst.
  destruct Hst as (-> & Hlen & Hd & ->). exists ls, (input c). split_and!; try done.
  - rewrite <-Hd. apply prefix_app. by apply prefix_take.
  - simpl. rewrite Hw. split_and!; try done.
    + unfold k, offered. rewrite length_drop. lia.
    + rewrite <-Hd, <-app_assoc. f_equal. fold offered.
      replace (drop (sent c + k) (output c)) with (drop k offered) by (unfold offered; apply drop_drop).
      apply take_drop.
Qed.

(** What each part of the handler keeps; [r] and [w] are the bytes it moved. *)
Definition part_ok (id : cid) (c : Connection) (R S : bytes) (p : list bytes)
    (c' : Connection) (js : list Job) (alive : bool) (r w : bytes) : Prop :=
  conn_ok c' (R ++ r) (S ++ w) (p ++ job_answers js) ∧ socket c' = socket c ∧
  Forall (λ j, job_conn j = id) js ∧ (alive = true → state c' ≠ closed).

Lemma handle_in_ok id flags rx c R S p :
  conn_ok c R S p → state c ≠ closed →
  let '(c', js, alive, r) := handle_in id flags rx c in part_ok id c R S p c' js alive r [].
Proof.
  intros Hok Hs. unfold handle_in, part_ok.
  destruct (has flags EPOLLIN); [|by rewrite !app_nil_r].
  pose proof (recv_loop_ok rx c R S p Hok) as Hr.
  destruct (recv_loop rx c) as [[c1 alive] r]. destruct Hr as (Hok1 & Hst & Hso).
  destruct alive; [|by rewrite !app_nil_r].
  pose proof (dispatch_line_ok id c1 (R ++ r) S p Hok1) as Hd.
  destruct (dispatch_line id c1) as [[c2 js] b]. destruct Hd as (? & ? & ? & Hc).
  rewrite (app_nil_r S). split_and!; [done|congruence|done|]. intros ->. apply Hc; congruence.
Qed.

Lemma clear_output_ok c R S p :
  conn_ok c R S p → state c = writing → sent c = length (output c) →
  conn_ok (clear_output c) R S p.
Proof.
  intros (ls & rest & Hl & HR & HS & Hst) Hw Hlen. rewrite Hw in Hst.
  destruct Hst as (-> & _ & Hd & ->). exists ls, (input c). split_and!; try done.
  simpl. split_and!; try done. rewrite <-Hd, Hlen, drop_all. by rewrite app_nil_r.
Qed.

Lemma handle_out_ok id flags tx alive c R S p :
  conn_ok c R S p → (alive = true → state c ≠ closed) →
  let '(c', js, alive', w) := handle_out id flags tx alive c in
  part_ok id c R S p c' js alive' [] w.
Proof.
  intros Hok Hs. unfold handle_out, part_ok.
  destruct alive; simpl; [|by rewrite !app_nil_r].
  destruct (has flags EPOLLOUT); simpl; [|rewrite !app_nil_r; by split_and!; auto].
  case_bool_decide as Hw; [|rewrite !app_nil_r; by split_and!; auto].
  pose proof (send_loop_ok tx c R S p Hok Hw) as Hr.
  destruct (send_loop tx c) as [[c1 alive] w]. destruct Hr as (Hok1 & Hst & Hso).
  destruct alive; simpl; [|rewrite !app_nil_r; by split_and!].
  destruct (Nat.eqb_spec (sent c1) (length (output c1))) as [Hlen|].
  - pose proof (dispatch_line_ok id (clear_output c1) R (S ++ w) p) as Hd.
    destruct (dispatch_line id (clear_output c1)) as [[c2 js] b].
    destruct Hd as (? & ? & ? & Hc); [by apply clear_output_ok|].
    rewrite (app_nil_r R). split_and!; [done|by transitivity (socket c1)|done|].
    intros ->. by apply Hc.
  - rewrite !app_nil_r. split_and!; [done..|]. intros _. congruence.
Qed.

Lemma set_eof_ok c R S p : conn_ok c R S p → conn_ok (set_eof c) R S p.
Proof. done. Qed.

Lemma handle_eof_ok id flags alive c R S p :
  conn_ok c R S p → (alive = true → state c ≠ closed) →
  let '(c', js, alive') := handle_eof id flags alive c in part_ok id c R S p c' js alive' [] [].
Proof.
  intros Hok Hs. unfold handle_eof, part_ok.
  set (c1 := if has flags _ then set_eof c else c).
  assert (conn_ok c1 R S p ∧ socket c1 = socket c ∧ state c1 = state c) as (Hok1 & Hso & Hst)
    by (unfold c1; by destruct (has flags _)).
  destruct (alive && peer_eof c1 && bool_decide (state c1 = reading)) eqn:E.
  - apply andb_true_iff in E as [[Ha _]%andb_true_iff _].
    pose proof (dispatch_line_ok id c1 R S p Hok1) as Hd.
    destruct (dispatch_line id c1) as [[c2 js] b]. destruct Hd as (Hd & ? & ? & Hc).
    destruct b; simpl; [case_bool_decide|]; rewrite !app_nil_r;
      (split_and!; [done|congruence|done|]); try done.
    intros _. apply Hc; [done|]. rewrite Hst. auto.
  - rewrite !app_nil_r. split_and!; [done|congruence|done|]. intros Ha. rewrite Hst. auto.
Qed.

Lemma job_answers_app js1 js2 : job_answers (js1 ++ js2) = job_answers js1 ++ job_answers js2.
Proof. apply fmap_app. Qed.

Lemma handle_client_ok id flags rx tx c R S p :
  conn_ok c R S p → state c ≠ closed →
  let '(c', js, alive, r, w) := handle_client id flags rx tx c in
  part_ok id c R S p c' js alive r w.
Proof.
  intros Hok Hs. unfold handle_client.
  pose proof (handle_in_ok id flags rx c R S p Hok Hs) as H1.
  destruct (handle_in id flags rx c) as [[[c1 js1] alive1] r]. destruct H1 as (Ho1 & Hso1 & Hj1 & Ha1).
  rewrite app_nil_r in Ho1.
  pose proof (handle_out_ok id flags tx alive1 c1 _ _ _ Ho1 Ha1) as H2.
  destruct (handle_out id flags tx alive1 c1) as [[[c2 js2] alive2] w].
  destruct H2 as (Ho2 & Hso2 & Hj2 & Ha2). rewrite app_nil_r in Ho2.
  pose proof (handle_eof_ok id flags alive2 c2 _ _ _ Ho2 Ha2) as H3.
  destruct (handle_eof id flags alive2 c2) as [[c3 js3] alive3].
  destruct H3 as (Ho3 & Hso3 & Hj3 & Ha3). rewrite !app_nil_r in Ho3.
  split_and!; [|congruence|by repeat apply Forall_app_2|done].
  rewrite !job_answers_app. by rewrite <-!app_assoc in Ho3.
Qed.

(** ** The invariant of the server *)

(** [local] holds the completions the loop has taken out of the queue and not handled. *)
Definition owed (id : cid) (s : server) (local : list Completion) : list bytes :=
  owed_jobs id (jobs s) ++ owed_jobs id (running s) ++ owed_done id (done s) ++ owed_done id local.

Record inv (s : server) (local : list Completion) : Prop := {
  inv_clients fd id : clients s !! fd = Some id →
    ∃ c, conns s !! id = Some c ∧ socket c = fd ∧ state c ≠ closed ∧
         registered s !! fd = Some (interest c);
  inv_registered fd : clients s !! fd = None → registered s !! fd = None;
  inv_open id c : conns s !! id = Some c → state c ≠ closed → clients s !! socket c = Some id;
  inv_conn id c : conns s !! id = Some c →
    ∃ R S, wire s !! id = Some (R, S) ∧ conn_ok c R S (owed id s local);
  inv_wire id : conns s !! id = None → wire s !! id = None ∧ owed id s local = []
}.

Lemma owed_jobs_app id js1 js2 : owed_jobs id (js1 ++ js2) = owed_jobs id js1 ++ owed_jobs id js2.
Proof. unfold owed_jobs. by rewrite filter_app, fmap_app. Qed.
Lemma owed_done_app id rs1 rs2 : owed_done id (rs1 ++ rs2) = owed_done id rs1 ++ owed_done id rs2.
Proof. unfold owed_done. by rewrite filter_app, fmap_app. Qed.
Lemma owed_jobs_own id js : Forall (λ j, job_conn j = id) js → owed_jobs id js = job_answers js.
Proof.
  intros Hall. unfold owed_jobs, job_answers. induction Hall as [|j js Hj _ IH]; [done|].
  rewrite filter_cons, decide_True by done. csimpl. by rewrite IH.
Qed.
Lemma owed_jobs_other id id' js :
  Forall (λ j, job_conn j = id) js → id' ≠ id → owed_jobs id' js = [].
Proof.
  intros Hall Hne. unfold owed_jobs. induction Hall as [|j js Hj _ IH]; [done|].
  rewrite filter_cons, decide_False by congruence. done.
Qed.
Lemma owed_jobs_perm id js js' : js ≡ₚ js' → owed_jobs id js ≡ₚ owed_jobs id js'.
Proof. intros Hp. unfold owed_jobs. by rewrite Hp. Qed.

Lemma inv_init : inv init [].
Proof. split; simpl; intros *; rewrite ?lookup_empty; done. Qed.

(** Moving work between the queues changes nothing else. *)
Lemma inv_move s local s' local' :
  inv s local → conns s' = conns s → clients s' = clients s → registered s' = registered s →
  wire s' = wire s → (∀ id, owed id s local ≡ₚ owed id s' local') → inv s' local'.
Proof.
  intros Hi Ec El Er Ew Ho. split; rewrite ?Ec, ?El, ?Er, ?Ew.
  - apply (inv_clients s local Hi).
  - apply (inv_registered s local Hi).
  - apply (inv_open s local Hi).
  - intros id c Hc. destruct (inv_conn s local Hi id c Hc) as (R & S & HW & Hok).
    exists R, S. split; [done|]. eapply conn_ok_perm; [apply Ho|done].
  - intros id Hc. destruct (inv_wire s local Hi id Hc) as [? Hn]. split; [done|].
    specialize (Ho id). rewrite Hn in Ho. by apply Permutation_nil_l in Ho.
Qed.

Lemma worker_take_ok s : inv s [] → ∃ s', worker_take s = Ret s' ∧ inv s' [].
Proof.
  intros Hi. unfold worker_take. destruct (jobs s) as [|j js] eqn:Ej; [by exists s|].
  eexists. split; [done|]. eapply inv_move; [done..|]. intros id. unfold owed. simpl.
  rewrite Ej, owed_jobs_app, (owed_jobs_app id [j] js : owed_jobs id (j :: js) = _).
  by solve_Permutation.
Qed.

Lemma worker_finish_ok i s : inv s [] → ∃ s', worker_finish i s = Ret s' ∧ inv s' [].
Proof.
  intros Hi. unfold worker_finish. destruct (running s !! i) as [j|] eqn:Ej; [|by exists s].
  eexists. split; [done|]. eapply inv_move; [done..|]. intros id. unfold owed. simpl.
  rewrite owed_done_app.
  rewrite (owed_jobs_perm id (running s) ([j] ++ delete i (running s))) by (by apply delete_Permutation).
  rewrite owed_jobs_app.
  assert (owed_done id [MkCompletion (job_conn j) (answer (job_line j))] = owed_jobs id [j]) as ->.
  { unfold owed_done, owed_jobs. rewrite !filter_cons. simpl. by case_decide. }
  by solve_Permutation.
Qed.

Lemma accept_ok id fd s :
  inv s [] → conns s !! id = None → clients s !! fd = None →
  ∃ s', accept_event id fd s = Ret s' ∧ inv s' [].
Proof.
  intros Hi Hid Hfd. unfold accept_event, epoll_add.
  rewrite (inv_registered s [] Hi fd Hfd), Hfd. cbn [mbind outcome_bind].
  destruct (inv_wire s [] Hi id Hid) as [Hw Ho].
  eexists. split; [done|]. split; simpl.
  - intros fd' id' [[<- <-]|[Hne Hc]]%lookup_insert_Some.
    + exists (new_connection fd). rewrite !lookup_insert_eq. done.
    + destruct (inv_clients s [] Hi fd' id' Hc) as (c & Hcc & Hso & Hst & Hr). exists c.
      rewrite lookup_insert_ne by congruence. by rewrite lookup_insert_ne.
  - intros fd' [Hc Hne]%lookup_insert_None. rewrite lookup_insert_ne by done.
    by apply (inv_registered s [] Hi).
  - intros id' c [[<- <-]|[Hne Hc]]%lookup_insert_Some Hst; [by rewrite lookup_insert_eq|].
    pose proof (inv_open s [] Hi id' c Hc Hst) as Hcl. rewrite lookup_insert_ne; [done|congruence].
  - intros id' c [[<- <-]|[Hne Hc]]%lookup_insert_Some.
    + exists [], []. rewrite lookup_insert_eq. split; [done|]. exists [], []. by split_and!.
    + rewrite lookup_insert_ne by done. apply (inv_conn s [] Hi id' c Hc).
  - intros id' [Hc Hne]%lookup_insert_None. rewrite lookup_insert_ne by done.
    apply (inv_wire s [] Hi id' Hc).
Qed.

Lemma complete_ok r local s : inv s (r :: local) → ∃ s', complete r s = Ret s' ∧ inv s' local ∧ done s' = done s.
Proof.
  intros Hi. unfold complete. destruct r as [id resp]. cbn [done_conn response].
  set (r := MkCompletion id resp) in *.
  assert (∀ id', owed id' s (r :: local) ≡ₚ owed_done id' [r] ++ owed id' s local) as Hsplit.
  { intros id'. unfold owed. rewrite (owed_done_app id' [r] local : owed_done id' (r :: local) = _).
    by solve_Permutation. }
  assert (∀ id', id' ≠ id → owed id' s (r :: local) ≡ₚ owed id' s local) as Hother.
  { intros id' Hne. rewrite Hsplit. unfold owed_done at 1. rewrite filter_cons. simpl.
    by rewrite decide_False by congruence. }
  assert (owed id s (r :: local) ≡ₚ resp :: owed id s local) as Hown.
  { rewrite Hsplit. unfold owed_done at 1. rewrite filter_cons. simpl. by rewrite decide_True. }
  destruct (conns s !! id) as [c|] eqn:Ec.
  2: { destruct (inv_wire s _ Hi id Ec) as [_ Hn]. rewrite Hn in Hown. by apply Permutation_nil_l in Hown. }
  cbn [deref mbind outcome_bind]. destruct (inv_conn s _ Hi id c Ec) as (R & S & HW & Hok).
  destruct (bool_decide (clients s !! socket c = Some id) && negb (bool_decide (state c = closed))) eqn:Eb.
  - apply andb_true_iff in Eb as [Hcl%bool_decide_eq_true Hst%negb_true_iff%bool_decide_eq_false].
    destruct (inv_clients s _ Hi _ _ Hcl) as (c0 & Hc0 & _ & _ & Hreg). simplify_eq.
    unfold epoll_mod. rewrite Hreg. cbn [mbind outcome_bind].
    apply (conn_ok_perm _ _ _ _ _ Hown) in Hok.
    destruct Hok as (ls & rest & Hl & HR & HS & Hs).
    assert (state c = processing) as Hp by (destruct (state c); [naive_solver|done|naive_solver|done]).
    rewrite Hp in Hs. destruct Hs as (-> & Ho & Hse & r' & Hr' & HSr). simplify_eq.
    eexists. split; [done|]. split; [|done]. split; simpl.
    + intros fd' id' Hc'. destruct (inv_clients s _ Hi fd' id' Hc') as (c' & Hcc & Hso & Hst' & Hr).
      destruct (decide (id' = id)) as [->|Hne].
      * simplify_eq. eexists. rewrite lookup_insert_eq. split_and!; [done..|]. by rewrite lookup_insert_eq.
      * exists c'. rewrite !lookup_insert_ne; [done| |done]. intros E. congruence.
    + intros fd' Hc'. rewrite lookup_insert_ne by congruence. by apply (inv_registered s _ Hi).
    + intros id' c' [[<- <-]|[Hne Hc']]%lookup_insert_Some Hst'; [done|]. by apply (inv_open s _ Hi).
    + intros id' c' [[<- <-]|[Hne Hc']]%lookup_insert_Some.
      * eexists _, S. split; [done|]. exists ls, (input c). split_and!; try done. simpl.
        split_and!; [done|lia|by rewrite drop_0|]. unfold owed in *. simpl in *. done.
      * destruct (inv_conn s _ Hi id' c' Hc') as (R' & S' & HW' & Hok'). exists R', S'.
        split; [done|]. eapply conn_ok_perm; [|exact Hok']. by apply Hother.
    + intros id' [Hc' Hne]%lookup_insert_None. destruct (inv_wire s _ Hi id' Hc') as [? Hn].
      split; [done|]. pose proof (Hother id' ltac:(done)) as Hp'. rewrite Hn in Hp'.
      by apply Permutation_nil_l in Hp'.
  - eexists. split; [done|]. split; [|done].
    assert (state c = closed) as Hcl.
    { destruct (decide (state c = closed)) as [|Hst]; [done|].
      pose proof (inv_open s _ Hi id c Ec Hst) as Hcl. rewrite !bool_decide_true in Eb by done.
      by rewrite bool_decide_false in Eb. }
    split.
    + apply (inv_clients s _ Hi).
    + apply (inv_registered s _ Hi).
    + apply (inv_open s _ Hi).
    + intros id' c' Hc'. destruct (inv_conn s _ Hi id' c' Hc') as (R' & S' & HW' & Hok').
      exists R', S'. split; [done|]. destruct (decide (id' = id)) as [->|Hne].
      * simplify_eq. destruct Hok' as (ls & rest & ? & ? & ? & _). exists ls, rest.
        by rewrite Hcl.
      * eapply conn_ok_perm; [|exact Hok']. by apply Hother.
    + intros id' Hc'. destruct (inv_wire s _ Hi id' Hc') as [? Hn]. split; [done|].
      pose proof (Hother id' ltac:(congruence)) as Hp'. rewrite Hn in Hp'.
      by apply Permutation_nil_l in Hp'.
Qed.

Lemma notify_ok s : inv s [] → ∃ s', notify_event s = Ret s' ∧ inv s' [].
Proof.
  intros Hi. unfold notify_event.
  assert (inv (Server (conns s) (clients s) (jobs s) (running s) [] (registered s) (wire s)) (done s))
    as Hl.
  { eapply inv_move; [exact Hi|done..|]. intros id. unfold owed. simpl. by rewrite !app_nil_r. }
  revert Hl. generalize (Server (conns s) (clients s) (jobs s) (running s) [] (registered s) (wire s)).
  generalize (done s). clear s Hi. intros rs. induction rs as [|r rs IH]; intros s Hi; simpl.
  { by exists s. }
  destruct (complete_ok r rs s Hi) as (s' & -> & Hi' & _). cbn [mbind outcome_bind]. by apply IH.
Qed.

(** A client event rewrites one connection: its object, its jobs and its traffic. *)
Definition touched (id : cid) (c' : Connection) (js : list Job) (r w : bytes) (s : server) : server :=
  Server (<[id := c']> (conns s)) (clients s) (jobs s ++ js) (running s) (done s) (registered s)
    (wire_add id r w (wire s)).

Lemma owed_touched id c' js r w s id' :
  Forall (λ j, job_conn j = id) js →
  owed id' (touched id c' js r w s) [] ≡ₚ
  owed id' s [] ++ (if decide (id' = id) then job_answers js else []).
Proof.
  intros Hjs. unfold owed, touched. simpl. rewrite owed_jobs_app. case_decide as Hd.
  - subst. rewrite (owed_jobs_own id js) by done. by solve_Permutation.
  - rewrite (owed_jobs_other id id' js) by done. by rewrite !app_nil_r.
Qed.

Lemma touched_conn id c c' js alive r w s id' c1 :
  inv s [] → conns s !! id = Some c → Forall (λ j, job_conn j = id) js →
  (∀ R S, wire s !! id = Some (R, S) → part_ok id c R S (owed id s []) c' js alive r w) →
  conns (touched id c' js r w s) !! id' = Some c1 →
  ∃ R S, wire (touched id c' js r w s) !! id' = Some (R, S) ∧
         conn_ok c1 R S (owed id' (touched id c' js r w s) []).
Proof.
  intros Hi Hc Hjs Hpart. simpl. intros [[<- <-]|[Hne Hc1]]%lookup_insert_Some.
  - destruct (inv_conn s [] Hi id c Hc) as (R & S & HW & _). destruct (Hpart R S HW) as [Hok _].
    exists (R ++ r), (S ++ w). unfold wire_add. rewrite lookup_alter_eq, HW. split; [done|].
    eapply conn_ok_perm; [|exact Hok]. rewrite (owed_touched id c' js r w s id) by done.
    by rewrite decide_True.
  - destruct (inv_conn s [] Hi id' c1 Hc1) as (R & S & HW & Hok). exists R, S.
    unfold wire_add. rewrite lookup_alter_ne by done. split; [done|].
    eapply conn_ok_perm; [|exact Hok]. rewrite (owed_touched id c' js r w s id') by done.
    by rewrite decide_False, app_nil_r by done.
Qed.

Lemma touched_wire id c c' js r w s id' :
  inv s [] → conns s !! id = Some c → Forall (λ j, job_conn j = id) js →
  conns (touched id c' js r w s) !! id' = None →
  wire (touched id c' js r w s) !! id' = None ∧ owed id' (touched id c' js r w s) [] = [].
Proof.
  intros Hi Hc Hjs. simpl. intros [Hc1 Hne]%lookup_insert_None.
  destruct (inv_wire s [] Hi id' Hc1) as [HW Ho]. unfold wire_add.
  rewrite lookup_alter_ne by done. split; [done|].
  pose proof (owed_touched id c' js r w s id' Hjs) as Hp.
  rewrite decide_False, app_nil_r, Ho in Hp by done. by apply Permutation_nil_r in Hp.
Qed.

Lemma client_ok fd flags rx tx s :
  inv s [] → ∃ s', client_event fd flags rx tx s = Ret s' ∧ inv s' [].
Proof.
  intros Hi. unfold client_event. destruct (clients s !! fd) as [id|] eqn:Ecl; [|by exists s].
  destruct (inv_clients s [] Hi fd id Ecl) as (c & Hc & Hso & Hst & Hreg).
  rewrite Hc. cbn [deref mbind outcome_bind].
  assert (∀ R S, wire s !! id = Some (R, S) →
    let '(c', js, alive, r, w) := handle_client id flags rx tx c in
    part_ok id c R S (owed id s []) c' js alive r w) as Hpart.
  { intros R S HW. destruct (inv_conn s [] Hi id c Hc) as (R' & S' & HW' & Hok). simplify_eq.
    by apply handle_client_ok. }
  destruct (handle_client id flags rx tx c) as [[[[c' js] alive] r] w].
  destruct (inv_conn s [] Hi id c Hc) as (R & S & HW & _).
  destruct (Hpart R S HW) as (_ & Hso' & Hjs & Hal). fold (touched id c' js r w s).
  assert (∀ fd' id', clients s !! fd' = Some id' → fd' ≠ fd → id' ≠ id) as Hinj.
  { intros fd' id' Hcl' Hne ->. destruct (inv_clients s [] Hi fd' id Hcl') as (c0 & ? & ? & _).
    congruence. }
  destruct alive.
  - unfold epoll_mod. simpl registered. rewrite Hreg. cbn [mbind outcome_bind].
    eexists. split; [done|]. split.
    + simpl. intros fd' id' Hcl'. destruct (decide (fd' = fd)) as [->|Hne].
      * assert (id' = id) as -> by congruence. exists c'. rewrite !lookup_insert_eq.
        split_and!; [done|congruence|auto|done].
      * rewrite !lookup_insert_ne by (apply not_eq_sym; eauto).
        by apply (inv_clients s [] Hi).
    + simpl. intros fd' Hcl'. rewrite lookup_insert_ne by congruence. by apply (inv_registered s [] Hi).
    + simpl. intros id' c1 [[<- <-]|[Hne Hc1]]%lookup_insert_Some Hst1.
      * by rewrite Hso', Hso.
      * by apply (inv_open s [] Hi).
    + intros id' c1. by eapply touched_conn.
    + intros id'. by eapply touched_wire.
  - unfold close_connection. simpl clients. rewrite Hso', Hso, bool_decide_true by done.
    eexists. split; [done|]. split.
    + simpl. intros fd' id' [Hne Hcl']%lookup_delete_Some.
      rewrite lookup_insert_ne by (apply not_eq_sym; eauto).
      rewrite lookup_insert_ne by (apply not_eq_sym; eauto).
      rewrite lookup_delete_ne by done. by apply (inv_clients s [] Hi).
    + simpl. intros fd'. destruct (decide (fd' = fd)) as [->|]; [by rewrite !lookup_delete_eq|].
      rewrite !lookup_delete_ne by done. apply (inv_registered s [] Hi).
    + simpl. intros id' c1 [[<- <-]|[Hne Hc1]]%lookup_insert_Some Hst1; [done|].
      rewrite lookup_insert_ne in Hc1 by done.
      pose proof (inv_open s [] Hi id' c1 Hc1 Hst1) as Hcl1. rewrite lookup_delete_ne; [done|].
      intros E. rewrite <-E in Hcl1. congruence.
    + intros id' c1. simpl. rewrite insert_insert_eq. intros Hl.
      assert (∃ c0, conns (touched id c' js r w s) !! id' = Some c0 ∧
                    (c1 = c0 ∨ c1 = set_state closed c0)) as (c0 & Hc0 & Hcases).
      { simpl. apply lookup_insert_Some in Hl as [[<- <-]|[Hne Hl]].
        - exists c'. rewrite lookup_insert_eq. auto.
        - exists c1. rewrite lookup_insert_ne by done. auto. }
      destruct (touched_conn id c c' js false r w s id' c0 Hi Hc Hjs Hpart Hc0) as (R' & S' & HW' & Hok).
      exists R', S'. split; [done|].
      destruct Hcases as [->| ->]; [exact Hok|]. by eapply conn_ok_close.
    + intros id'. simpl. rewrite insert_insert_eq. intros [Hn Hne]%lookup_insert_None.
      apply (touched_wire id c c' js r w s id' Hi Hc Hjs). simpl. by rewrite lookup_insert_ne.
Qed.

Lemma exec_ok e s : inv s [] → event_ok e s → ∃ s', exec e s = Ret s' ∧ inv s' [].
Proof.
  intros Hi He. destruct e as [id fd|fd flags rx tx| | |i]; simpl.
  - destruct He as [? ?]. by apply accept_ok.
  - by apply client_ok.
  - by apply notify_ok.
  - by apply worker_take_ok.
  - by apply worker_finish_ok.
Qed.

Lemma reachable_inv s : reachable s → inv s [].
Proof.
  induction 1 as [|s e s' _ IH He E]; [apply inv_init|].
  destruct (exec_ok e s IH He) as (s1 & E1 & Hi). congruence.
Qed.

(** ** What the server guarantees *)

(** C7. Under every interleaving of the event loop and the workers, and whatever the sockets
    deliver or accept, what a connection has been sent is a prefix of the answers to the
    complete lines it has sent, in their order: no answer is lost, repeated, reordered or
    given to another connection. *)
Theorem answers_in_order (s : server) (id : cid) (R S : bytes) :
  reachable s → wire s !! id = Some (R, S) →
  ∃ ls rest, R = unlines ls ++ rest ∧ Forall (λ l, newline ∉ l) ls ∧
             S `prefix_of` concat (reply <$> ls).
Proof.
  intros Hr HW. pose proof (reachable_inv s Hr) as Hi.
  destruct (conns s !! id) as [c|] eqn:Ec.
  - destruct (inv_conn s [] Hi id c Ec) as (R' & S' & HW' & ls & rest & Hl & HR & HS & _).
    simplify_eq. by exists ls, rest.
  - destruct (inv_wire s [] Hi id Ec) as [Hn _]. congruence.
Qed.

(** No event makes the loop throw or follow a missing object: every epoll modification
    finds its descriptor registered, and the registered interest of every client is the one
    its state calls for. *)
Theorem loop_never_fails (s : server) (e : event) :
  reachable s → event_ok e s →
  ∃ s', exec e s = Ret s' ∧
        ∀ fd id, clients s' !! fd = Some id →
          ∃ c, conns s' !! id = Some c ∧ socket c = fd ∧ registered s' !! fd = Some (interest c).
Proof.
  intros Hr He. destruct (exec_ok e s (reachable_inv s Hr) He) as (s' & E & Hi).
  exists s'. split; [done|]. intros fd id Hcl.
  destruct (inv_clients s' [] Hi fd id Hcl) as (c & ? & ? & _ & ?). eauto.
Qed.

(** One request at a time: an open connection has exactly one job queued, running or
    completed while it is processing, and none otherwise. *)
Theorem one_job_in_flight (s : server) (fd : Z) (id : cid) (c : Connection) :
  reachable s → clients s !! fd = Some id → conns s !! id = Some c →
  (length (owed_jobs id (jobs s)) + length (owed_jobs id (running s)) +
    length (owed_done id (done s)) =
  if bool_decide (state c = processing) then 1 else 0)%nat.
Proof.
  intros Hr Hcl Hc. pose proof (reachable_inv s Hr) as Hi.
  destruct (inv_clients s [] Hi fd id Hcl) as (c0 & Hc0 & _ & Hst & _). simplify_eq.
  destruct (inv_conn s [] Hi id c Hc) as (R & S & _ & ls & rest & _ & _ & _ & Hs).
  assert (length (owed_jobs id (jobs s)) + length (owed_jobs id (running s)) +
    length (owed_done id (done s)) = length (owed id s []))%nat as ->.
  { unfold owed. rewrite !length_app. simpl. lia. }
  destruct (state c); [| | |done]; destruct Hs as (_ & Hs).
  - destruct Hs as (_ & _ & _ & ->). done.
  - destruct Hs as (_ & _ & r & -> & _). done.
  - destruct Hs as (_ & _ & ->). done.
Qed.

(** A first request, then a wake-up with the peer's end of file. *)
Definition first_line : list event :=
  [EvAccept 1 7; EvClient 7 EPOLLIN [Got (lit "a" ++ [newline])] []].
Definition rest_of_run : list event :=
  [EvClient 7 EPOLLRDHUP [] []; EvTake; EvFinish 0; EvNotify;
   EvClient 7 (Z.lor EPOLLOUT EPOLLRDHUP) [] [Took 100]].

Fixpoint exec_all (es : list event) (s : server) : outcome server :=
  match es with [] => Ret s | e :: es' => s' ← exec e s; exec_all es' s' end.

Lemma reachable_run es s s' :
  reachable s → (∀ e s1, e ∈ es → event_ok e s1) → exec_all es s = Ret s' → reachable s'.
Proof.
  revert s. induction es as [|e es IH]; intros s Hr Hok; simpl; [by intros [= <-]|].
  destruct (exec e s) as [s1| |] eqn:E; [|done..]. cbn [mbind outcome_bind]. intros Hrest.
  eapply IH; [|set_solver|exact Hrest]. eapply reach_step; [done| |done]. apply Hok. by left.
Qed.

Definition one_answer : server :=
  match exec_all (first_line ++ rest_of_run) init with Ret s => s | _ => init end.

Lemma one_answer_reachable : reachable one_answer.
Proof.
  assert (reachable (match exec (EvAccept 1 7) init with Ret s => s | _ => init end)) as H1.
  { eapply (reach_step init (EvAccept 1 7)); [constructor|done|reflexivity]. }
  eapply (reachable_run (drop 1 (first_line ++ rest_of_run))); [exact H1| |].
  - simpl. intros e s1 He. set_unfold. naive_solver.
  - vm_compute. reflexivity.
Qed.

Lemma answers_in_order_witness :
  ∃ ls rest, lit "a" ++ [newline] = unlines ls ++ rest ∧ Forall (λ l, newline ∉ l) ls ∧
             lit "OK A" ++ [newline] `prefix_of` concat (reply <$> ls).
Proof.
  apply (answers_in_order one_answer 1); [apply one_answer_reachable|vm_compute; reflexivity].
Defined.

Lemma loop_never_fails_witness :
  ∃ s', exec (EvAccept 2 7) one_answer = Ret s' ∧
        ∀ fd id, clients s' !! fd = Some id →
          ∃ c, conns s' !! id = Some c ∧ socket c = fd ∧ registered s' !! fd = Some (interest c).
Proof.
  apply (loop_never_fails one_answer (EvAccept 2 7)); [apply one_answer_reachable|].
  split; vm_compute; reflexivity.
Defined.

(** The state after the first request has been handed to the pool. *)
Definition busy : server :=
  match exec_all first_line init with Ret s => s | _ => init end.
Lemma busy_reachable : reachable busy.
Proof.
  assert (reachable (match exec (EvAccept 1 7) init with Ret s => s | _ => init end)) as H1.
  { eapply (reach_step init (EvAccept 1 7)); [constructor|done|reflexivity]. }
  eapply (reachable_run (drop 1 first_line)); [exact H1| |vm_compute; reflexivity].
  simpl. intros e s1 He. set_unfold. naive_solver.
Qed.

Lemma one_job_in_flight_witness :
  (length (owed_jobs 1 (jobs busy)) + length (owed_jobs 1 (running busy)) +
    length (owed_done 1 (done busy)) =
  if bool_decide (state (Conn 7 processing [] [] 0 false) = processing) then 1 else 0)%nat.
Proof.
  apply (one_job_in_flight busy 7 1); [apply busy_reachable|vm_compute; reflexivity..].
Defined.

(** A request can be lost at end of file: while a connection is processing or writing it
    does not ask for input, so an end of file that arrives with a second request still in the
    socket is taken as the end of the input.  In this run the loop never asks for input again
    and closes the connection after the first answer: whatever follows the first line is
    never received, although the comment says that complete lines are still handled. *)
Theorem eof_drops_unread_request :
  ∃ s1 s2, exec_all first_line init = Ret s1 ∧ exec_all rest_of_run s1 = Ret s2 ∧
    (∀ n s, exec_all (take n rest_of_run) s1 = Ret s →
       match registered s !! 7 with Some e => has e EPOLLIN = false | None => clients s !! 7 = None end) ∧
    clients s2 !! 7 = None ∧
    wire s2 !! 1%nat = Some (lit "a" ++ [newline], lit "OK A" ++ [newline]).
Proof.
  eexists _, _. split; [vm_compute; reflexivity|]. split; [vm_compute; reflexivity|].
  split; [|by vm_compute].
  intros n s. do 5 (destruct n as [|n]; [vm_compute; intros [= <-]; reflexivity|]).
  rewrite take_ge by (simpl; lia). vm_compute. intros [= <-]. reflexivity.
Qed.
