(* ===== verification/ChatServer.v ===== *)
(** * base_io_multiplexing/chat_demo.cpp

    A chat server on [poll]: two parallel vectors, [clients_] and [fds_], and a loop that
    relays each message to all other clients; and the interactive client.  The calls of
    [recv] and [send] take their results from queues per descriptor; a call on an empty queue
    blocks, since the sockets are blocking. *)

From stdpp Require Import base gmap list sets strings.
From Stdlib Require Import ZArith Lia Ascii.
From S2P Require Import Prelude CxxString.

Local Open Scope Z_scope.

(** ** Results: the state, a call that blocks, or undefined behaviour *)

Inductive result (A : Type) := Ok (a : A) | Blocked | Crash.
Arguments Ok {A} a.
Arguments Blocked {A}.
Arguments Crash {A}.
#[export] Instance result_ret : MRet result := @Ok.
#[export] Instance result_bind : MBind result := λ A B k m,
  match m with Ok a => k a | Blocked => Blocked | Crash => Crash end.

(** ** The environment *)

Inductive recv_result := Got (data : bytes) | Eof | RecvIntr | RecvError.
(** [Took n]: the call takes [n + 1] bytes, or as many as were offered. *)
Inductive send_result := Took (n : nat) | SendIntr | SendError.

Definition MAX_CLIENTS : nat := 64.
Definition BUFFER_SIZE : nat := 2048.
Definition POLLIN : Z := 1.
Definition POLLERR : Z := 8.
Definition POLLHUP : Z := 16.
Definition POLLNVAL : Z := 32.
Definition has (flags bit : Z) : bool := negb (Z.land flags bit =? 0).
Definition broken (flags : Z) : bool := has flags (Z.lor POLLERR (Z.lor POLLHUP POLLNVAL)).

(** [pollfd]: descriptor and returned events. *)
Record pollfd := Pollfd { fd : Z; revents : Z }.

Record server := Server {
  clients : list Z;
  fds : list pollfd;
  rx : gmap Z (list recv_result);
  tx : gmap Z (list send_result);
  delivered : gmap Z bytes
}.

Definition recv_call (f : Z) (s : server) : result (recv_result * server) :=
  match rx s !! f with
  | Some (r :: rs) =>
      Ok (r, Server (clients s) (fds s) (<[f := rs]> (rx s)) (tx s) (delivered s))
  | _ => Blocked
  end.

(** ** [send_all] *)

(** The loop: what is left to send, the results to come, what the peer has. *)
Fixpoint send_loop (msg : bytes) (q : list send_result) : result (bool * bytes * list send_result) :=
  match msg with
  | [] => Ok (true, [], q)
  | _ =>
      match q with
      | [] => Blocked
      | Took n :: q' =>
          let k := Nat.min (S n) (length msg) in
          '(ok, w, q'') ← send_loop (drop k msg) q'; Ok (ok, take k msg ++ w, q'')
      | SendIntr :: q' => send_loop msg q'
      | SendError :: q' => Ok (false, [], q')
      end
  end.

Definition send_all (f : Z) (msg : bytes) (s : server) : result (bool * server) :=
  '(ok, w, q) ← send_loop msg (default [] (tx s !! f));
  Ok (ok, Server (clients s) (fds s) (rx s) (<[f := q]> (tx s))
            (<[f := default [] (delivered s !! f) ++ w]> (delivered s))).

(** ** [ChatServer] *)

(** [fds_[index]]: outside of the vector, undefined behaviour. *)
Definition fd_at (i : nat) (s : server) : result pollfd :=
  match fds s !! i with Some p => Ok p | None => Crash end.

Definition remove_client (index : nat) (s : server) : result server :=
  _ ← fd_at index s;
  if (index =? 0)%nat then Crash
  else
    match clients s !! (index - 1)%nat with
    | None => Crash
    | Some _ =>
        Ok (Server (delete (index - 1)%nat (clients s)) (delete index (fds s)) (rx s) (tx s)
              (delivered s))
    end.

(** The loop of [broadcast]; [fuel] is the number of descriptors still to visit. *)
Fixpoint broadcast_loop (fuel : nat) (i sender : nat) (msg : bytes) (s : server) : result server :=
  if (i <? length (fds s))%nat then
    match fuel with
    | O => Crash
    | S fuel' =>
        if (i =? sender)%nat then broadcast_loop fuel' (S i) sender msg s
        else
          p ← fd_at i s;
          '(ok, s) ← send_all (fd p) msg s;
          if ok : bool then broadcast_loop fuel' (S i) sender msg s
          else
            s ← remove_client i s;
            broadcast_loop fuel' i (if (i <? sender)%nat then (sender - 1)%nat else sender) msg s
    end
  else Ok s.

Definition broadcast (sender : nat) (msg : bytes) (s : server) : result server :=
  broadcast_loop (length (fds s)) 1 sender msg s.

Definition read_client (index : nat) (s : server) : result (bool * server) :=
  p ← fd_at index s;
  '(r, s) ← recv_call (fd p) s;
  match r with
  | Got data => s ← broadcast index data s; Ok (true, s)
  | RecvIntr => Ok (true, s)
  | Eof | RecvError => s ← remove_client index s; Ok (false, s)
  end.

(** [accept] returned [client_fd], or failed. *)
Definition accept_client (client_fd : option Z) (s : server) : server :=
  match client_fd with
  | None => s
  | Some f =>
      if (MAX_CLIENTS <=? length (clients s))%nat then s
      else Server (clients s ++ [f]) (fds s ++ [Pollfd f 0]) (rx s) (tx s) (delivered s)
  end.

(** [for (std::size_t i = fds_.size(); i-- > 1;)]: the indices [i - 1] down to 1. *)
Fixpoint client_loop (i : nat) (s : server) : result server :=
  match i with
  | O => Ok s
  | S i' =>
      if (0 <? i')%nat then
        p ← fd_at i' s;
        let events := revents p in
        '(go_on, s) ← (if has events POLLIN then read_client i' s else Ok (true, s));
        s ← (if (go_on : bool) && broken events then remove_client i' s else Ok s);
        client_loop i' s
      else Ok s
  end.

(** [poll] has filled in the events. *)
Definition polled (evs : list Z) (s : server) : server :=
  Server (clients s) (zip_with (λ p e, Pollfd (fd p) e) (fds s) evs) (rx s) (tx s) (delivered s).

(** One iteration of [run]; the first entry is the listening socket. *)
Definition run_once (evs : list Z) (client_fd : option Z) (s : server) : result server :=
  let s := polled evs s in
  p ← fd_at 0 s;
  let s := if has (revents p) POLLIN then accept_client client_fd s else s in
  client_loop (length (fds s)) s.

(** [start]: the first entry is the listening socket. *)
Definition start (listen_fd : Z) (rx : gmap Z (list recv_result)) (tx : gmap Z (list send_result)) :
    server :=
  Server [] [Pollfd listen_fd 0] rx tx ∅.

(** ** [run_client] *)

Inductive action := Print (data : bytes) | Send (data : bytes) | ShutdownWrite | Perror (what : bytes).
(** One turn of the client's loop: the events of the two entries and the results of the calls
    it makes.  Gives what it does, whether standard input is still polled, and whether the
    loop goes on. *)
Definition client_turn (ev_in ev_sock : Z) (sock_recv stdin_read : recv_result) (send_ok : bool)
    (stdin_open : bool) : list action * bool * bool :=
  let finish acts := (acts, stdin_open, false) in
  let after_recv (acts : list action) : list action * bool * bool :=
    if broken ev_sock then finish acts
    else
      let '(acts, stdin_open, go_on) :=
        (if has ev_in POLLIN then
           match stdin_read with
           | Got data =>
               if send_ok then (acts ++ [Send data], stdin_open, true)
               else (acts ++ [Send data; Perror (lit "send")], stdin_open, false)
           | Eof => (acts ++ [ShutdownWrite], false, true)
           | RecvIntr => (acts, stdin_open, true)
           | RecvError => (acts ++ [Perror (lit "read")], stdin_open, false)
           end
         else (acts, stdin_open, true)) in
      if negb go_on then (acts, stdin_open, false)
      else (acts, if broken ev_in then false else stdin_open, true) in
  if has ev_sock POLLIN then
    match sock_recv with
    | Got data => after_recv [Print data]
    | Eof => finish []
    | RecvIntr => after_recv []
    | RecvError => finish [Perror (lit "recv")]
    end
  else after_recv [].

(** ** The two vectors stay aligned *)

(** [clients_[i]] is the descriptor of [fds_[i + 1]], and the listener keeps the first entry. *)
Definition aligned (listen_fd : Z) (s : server) : Prop :=
  ∃ ps e, fds s = Pollfd listen_fd e :: ps ∧ clients s = fd <$> ps.

Lemma remove_client_ok l i s s' :
  aligned l s → remove_client i s = Ok s' →
  aligned l s' ∧ (length (clients s') <= length (clients s))%nat ∧
  tx s' = tx s ∧ rx s' = rx s ∧ delivered s' = delivered s.
Proof.
  intros (ps & e & Hf & Hc). unfold remove_client, fd_at. rewrite Hf.
  destruct i as [|i]; [done|]. simpl. rewrite Nat.sub_0_r, Hc.
  destruct (ps !! i) as [p|] eqn:Ep; [|done]. simpl. rewrite list_lookup_fmap, Ep. simpl.
  intros [= <-]. simpl. split; [|split_and!; try done].
  - exists (delete i ps), e. split; [done|]. simpl. by rewrite !delete_take_drop, fmap_app, fmap_take, fmap_drop.
  - rewrite length_delete by (rewrite list_lookup_fmap, Ep; by eexists). rewrite length_fmap. lia.
Qed.

Lemma send_all_frame f msg s ok s' :
  send_all f msg s = Ok (ok, s') → clients s' = clients s ∧ fds s' = fds s.
Proof.
  unfold send_all. destruct (send_loop _ _) as [[[b w] q]| |]; [|done..]. by intros [= <- <-].
Qed.

Lemma aligned_frame l s s' :
  clients s' = clients s → fds s' = fds s → aligned l s → aligned l s'.
Proof. unfold aligned. by intros -> ->. Qed.

(** What every part of an iteration keeps. *)
Definition kept (l : Z) (s s' : server) : Prop :=
  aligned l s' ∧ (length (clients s') <= length (clients s))%nat.

Lemma broadcast_loop_kept l fuel i sender msg s s' :
  aligned l s → broadcast_loop fuel i sender msg s = Ok s' → kept l s s'.
Proof.
  revert i sender s. induction fuel as [|fuel IH]; intros i sender s Ha; simpl.
  { case_match; [done|]. by intros [= <-]. }
  destruct (i <? length (fds s))%nat; [|by intros [= <-]].
  destruct (i =? sender)%nat; [by apply IH|].
  destruct (fd_at i s) as [p| |]; [|done..]. cbn [mbind result_bind].
  destruct (send_all (fd p) msg s) as [[ok s1]| |] eqn:Es; [|done..]. cbn [mbind result_bind].
  destruct (send_all_frame _ _ _ _ _ Es) as [Hc Hf].
  assert (aligned l s1) as Ha1 by (by eapply aligned_frame).
  destruct ok.
  - intros E. destruct (IH _ _ _ Ha1 E) as [? ?]. split; [done|]. by rewrite <-Hc.
  - destruct (remove_client i s1) as [s2| |] eqn:Er; [|done..]. cbn [mbind result_bind].
    destruct (remove_client_ok l i s1 s2 Ha1 Er) as (Ha2 & Hlen & _).
    intros E. destruct (IH _ _ _ Ha2 E) as [? ?]. split; [done|]. rewrite <-Hc. lia.
Qed.

Lemma read_client_kept l i s b s' :
  aligned l s → read_client i s = Ok (b, s') → kept l s s'.
Proof.
  intros Ha. unfold read_client. destruct (fd_at i s) as [p| |]; [|done..]. cbn [mbind result_bind].
  unfold recv_call. destruct (rx s !! fd p) as [[|r rs]|]; [done| |done]. cbn [mbind result_bind].
  set (s1 := Server _ _ _ _ _). assert (aligned l s1) as Ha1 by (by eapply aligned_frame).
  destruct r as [data| | |].
  - unfold broadcast. destruct (broadcast_loop _ _ _ _ _) as [s2| |] eqn:Eb; [|done..].
    cbn [mbind result_bind]. intros [= <- <-]. by apply (broadcast_loop_kept l _ _ _ _ _ _ Ha1 Eb).
  - destruct (remove_client i s1) as [s2| |] eqn:Er; [|done..]. cbn [mbind result_bind].
    intros [= <- <-]. destruct (remove_client_ok l i s1 s2 Ha1 Er) as (? & ? & _). by split.
  - intros [= <- <-]. split; [done|]. simpl. lia.
  - destruct (remove_client i s1) as [s2| |] eqn:Er; [|done..]. cbn [mbind result_bind].
    intros [= <- <-]. destruct (remove_client_ok l i s1 s2 Ha1 Er) as (? & ? & _). by split.
Qed.

Lemma kept_refl l s : aligned l s → kept l s s.
Proof. by split. Qed.
Lemma kept_trans l s1 s2 s3 : kept l s1 s2 → kept l s2 s3 → kept l s1 s3.
Proof. intros [_ ?] [? ?]. split; [done|lia]. Qed.

Lemma client_loop_kept l i s s' : aligned l s → client_loop i s = Ok s' → kept l s s'.
Proof.
  revert s. induction i as [|i IH]; intros s Ha; simpl; [intros [= <-]; by apply kept_refl|].
  destruct (0 <? i)%nat; [|intros [= <-]; by apply kept_refl].
  destruct (fd_at i s) as [p| |]; [|done..]. cbn [mbind result_bind].
  destruct (if has (revents p) POLLIN then read_client i s else Ok (true, s))
    as [[go_on s1]| |] eqn:E1; [|done..]. cbn [mbind result_bind].
  assert (kept l s s1) as Hk1.
  { destruct (has (revents p) POLLIN); [by eapply read_client_kept|].
    injection E1 as <- <-. by apply kept_refl. }
  destruct (if go_on && broken (revents p) then remove_client i s1 else Ok s1)
    as [s2| |] eqn:E2; [|done..]. cbn [mbind result_bind].
  assert (kept l s1 s2) as Hk2.
  { destruct (go_on && broken (revents p)).
    - destruct (remove_client_ok l i s1 s2 (proj1 Hk1) E2) as (? & ? & _). by split.
    - injection E2 as <-. apply kept_refl, Hk1. }
  intros E. eapply kept_trans; [exact Hk1|]. eapply kept_trans; [exact Hk2|].
  apply IH; [apply Hk2|done].
Qed.

(** A history of iterations, each with the events of [poll] and the result of [accept]. *)
Inductive runs (listen_fd : Z) : server → server → Prop :=
  | runs_nil s : runs listen_fd s s
  | runs_cons evs a s s' s'' :
      length evs = length (fds s) → run_once evs a s = Ok s' → runs listen_fd s' s'' →
      runs listen_fd s s''.

Lemma polled_aligned l evs s :
  length evs = length (fds s) → aligned l s →
  aligned l (polled evs s) ∧ length (clients (polled evs s)) = length (clients s).
Proof.
  intros Hlen (ps & e & Hf & Hc). split; [|done]. rewrite Hf in Hlen.
  destruct evs as [|e0 evs]; [done|]. simpl in Hlen.
  exists (zip_with (λ p e, Pollfd (fd p) e) ps evs), e0. unfold polled. simpl. rewrite Hf.
  split; [done|]. rewrite Hc. clear Hf Hc. assert (length evs = length ps) as Hl by lia. clear Hlen.
  revert evs Hl. induction ps as [|p ps IH]; intros [|x evs] Hl; simpl in *; try done; try lia.
  f_equal. apply IH. lia.
Qed.

Lemma accept_aligned l a s :
  aligned l s → (length (clients s) <= MAX_CLIENTS)%nat →
  aligned l (accept_client a s) ∧ (length (clients (accept_client a s)) <= MAX_CLIENTS)%nat.
Proof.
  intros (ps & e & Hf & Hc) Hlen. unfold accept_client.
  destruct a as [f|]; [|by split; [exists ps, e|]].
  destruct (Nat.leb_spec MAX_CLIENTS (length (clients s))); [by split; [exists ps, e|]|].
  split; [|simpl; rewrite length_app; simpl; lia].
  exists (ps ++ [Pollfd f 0]), e. simpl. by rewrite Hf, Hc, fmap_app.
Qed.

(** However the clients come, talk and go, as long as the server has not crashed or blocked
    the vector of sockets and the vector of poll entries describe the same clients in the same
    order behind the listening socket, and there are never more than [MAX_CLIENTS]. *)
Theorem chat_aligned (listen_fd : Z) (q : gmap Z (list recv_result)) (t : gmap Z (list send_result))
    (s : server) :
  runs listen_fd (start listen_fd q t) s →
  aligned listen_fd s ∧ (length (clients s) <= MAX_CLIENTS)%nat.
Proof.
  intros Hr.
  assert (aligned listen_fd (start listen_fd q t) ∧
    (length (clients (start listen_fd q t)) <= MAX_CLIENTS)%nat) as Hinv.
  { split; [by exists [], 0|simpl; unfold MAX_CLIENTS; lia]. }
  induction Hr as [s|evs a s s' s'' Hlen E _ IH]; [done|]. apply IH. clear IH.
  destruct Hinv as [Ha Hmax]. unfold run_once in E.
  destruct (polled_aligned listen_fd evs s Hlen Ha) as [Hp Hpl].
  destruct (fd_at 0 (polled evs s)) as [p| |]; [|done..]. cbn [mbind result_bind] in E.
  set (s1 := if has (revents p) POLLIN then accept_client a (polled evs s) else polled evs s) in E.
  assert (aligned listen_fd s1 ∧ (length (clients s1) <= MAX_CLIENTS)%nat) as [Ha1 Hm1].
  { unfold s1. destruct (has (revents p) POLLIN); [|split; [done|by rewrite Hpl]].
    apply accept_aligned; [done|by rewrite Hpl]. }
  destruct (client_loop_kept listen_fd _ s1 s' Ha1 E) as [? ?]. split; [done|]. lia.
Qed.

(** ** A broadcast reaches everyone else *)

Definition inbox (s : server) (f : Z) : bytes := default [] (delivered s !! f).

(** [send_all] to [f] would succeed. *)
Definition reachable_by (msg : bytes) (s : server) (f : Z) : bool :=
  match send_loop msg (default [] (tx s !! f)) with Ok (true, _, _) => true | _ => false end.

Lemma send_loop_all msg q w q' : send_loop msg q = Ok (true, w, q') → w = msg.
Proof.
  revert msg w. induction q as [|r q IH]; intros msg w.
  { destruct msg; simpl; [by intros [= <- <-]|done]. }
  destruct msg as [|b msg]; [by intros [= <- <-]|].
  destruct r as [n| |]; [|by apply IH|done].
  cbn [send_loop]. set (k := Nat.min _ _).
  destruct (send_loop (drop k (b :: msg)) q) as [[[ok w'] q'']| |] eqn:E; [|done..].
  cbn [mbind result_bind]. intros [= -> <- <-]. rewrite (IH _ _ E).
  exact (take_drop k (b :: msg)).
Qed.

Lemma send_loop_no_crash msg q : send_loop msg q ≠ Crash.
Proof.
  revert msg. induction q as [|r q IH]; intros msg; [by destruct msg|].
  destruct msg as [|b msg]; [done|]. destruct r as [n| |]; [|by apply IH|done].
  cbn [send_loop]. set (k := Nat.min _ _). specialize (IH (drop k (b :: msg))).
  by destruct (send_loop (drop k (b :: msg)) q) as [[[ok w'] q'']| |].
Qed.

Definition stays (msg : bytes) (s : server) (sf : Z) (p : pollfd) : Prop :=
  fd p = sf ∨ reachable_by msg s (fd p) = true.
#[export] Instance stays_dec msg s sf p : Decision (stays msg s sf p).
Proof. unfold stays. apply _. Defined.

Lemma stays_frame msg s s' sf p :
  tx s' !! fd p = tx s !! fd p → stays msg s' sf p ↔ stays msg s sf p.
Proof. intros E. unfold stays, reachable_by. by rewrite E. Qed.

Lemma filter_stays_frame msg s s' sf (ps : list pollfd) :
  (∀ p, p ∈ ps → tx s' !! fd p = tx s !! fd p) →
  base.filter (stays msg s' sf) ps = base.filter (stays msg s sf) ps.
Proof.
  induction ps as [|p ps IH]; intros Hp; [done|]. rewrite !filter_cons.
  pose proof (stays_frame msg s s' sf p (Hp p ltac:(by left))) as Hs.
  rewrite IH by (intros q Hq; apply Hp; by right).
  repeat case_decide; tauto.
Qed.

(** The state of the loop between two descriptors. *)
Lemma broadcast_loop_spec l msg fuel pre rest sender psend s :
  aligned l s → fds s = pre ++ rest → pre ≠ [] → NoDup (fd <$> fds s) →
  (length rest <= fuel)%nat → fds s !! sender = Some psend →
  match broadcast_loop fuel (length pre) sender msg s with
  | Ok s' =>
      fds s' = pre ++ base.filter (stays msg s (fd psend)) rest ∧
      (∀ f, f ∉ fd <$> rest ∨ f = fd psend → inbox s' f = inbox s f) ∧
      (∀ p, p ∈ rest → fd p ≠ fd psend → reachable_by msg s (fd p) = true →
         inbox s' (fd p) = inbox s (fd p) ++ msg)
  | Blocked => True
  | Crash => False
  end.
Proof.
  revert pre rest sender s. induction fuel as [|fuel IH];
    intros pre rest sender s Ha Hf Hpre Hnd Hfuel Hsend; cbn [broadcast_loop].
  { destruct rest as [|p rest]; [|simpl in Hfuel; lia]. rewrite Hf, app_nil_r, Nat.ltb_irrefl.
    split; [done|]. split; [done|]. by intros p ?%elem_of_nil. }
  destruct rest as [|p rest].
  { rewrite Hf, app_nil_r, Nat.ltb_irrefl.
    split; [done|]. split; [done|]. by intros p ?%elem_of_nil. }
  simpl in Hfuel. rewrite Hf, length_app. simpl length.
  destruct (Nat.ltb_spec (length pre) (length pre + S (length rest))); [|lia].
  assert (fds s = (pre ++ [p]) ++ rest) as Hf' by (by rewrite <-app_assoc).
  assert (S (length pre) = length (pre ++ [p])) as Hlen by (rewrite length_app; simpl; lia).
  assert (NoDup (fd <$> fds s)) as Hnd0 by done.
  rewrite Hf, fmap_app, fmap_cons in Hnd. apply NoDup_app in Hnd as (_ & Hdis & [Hp Hnr]%NoDup_cons).
  destruct (Nat.eqb_spec (length pre) sender) as [<-|Hns].
  - (* the sender itself is skipped *)
    rewrite Hf, list_lookup_middle in Hsend by done. injection Hsend as <-.
    rewrite Hlen. specialize (IH (pre ++ [p]) rest (length pre) s Ha Hf' ltac:(by destruct pre) Hnd0
      ltac:(lia) ltac:(by rewrite Hf, list_lookup_middle)).
    destruct (broadcast_loop fuel _ _ msg s) as [s'| |]; [|done..].
    destruct IH as (Hfs & Hno & Hyes). split; [|split].
    + rewrite Hfs, filter_cons, decide_True by (by left). by rewrite <-app_assoc.
    + intros f [Hin| ->]; apply Hno; [left; set_solver|by right].
    + intros q [->|Hq]%elem_of_cons Hne; [done|]. by apply Hyes.
  - assert (fd p ≠ fd psend) as Hne.
    { intros Heq. apply Hns. assert ((fd <$> fds s) !! length pre = Some (fd p)) as H1
        by (rewrite list_lookup_fmap, Hf, list_lookup_middle by done; done).
      assert ((fd <$> fds s) !! sender = Some (fd p)) as H2
        by (rewrite list_lookup_fmap, Hsend, Heq; done).
      by eapply NoDup_lookup. }
    unfold fd_at. rewrite Hf, list_lookup_middle by done. cbn [mbind result_bind].
    unfold send_all. destruct (send_loop msg _) as [[[ok w] q]| |] eqn:Es; [| done |].
    2: { clear -Es. exfalso. by eapply send_loop_no_crash. }
    cbn [mbind result_bind]. set (s1 := Server _ _ _ _ _).
    assert (aligned l s1) as Ha1 by (by eapply aligned_frame).
    assert (∀ r, r ∈ rest → tx s1 !! fd r = tx s !! fd r) as Htx.
    { intros r Hr. simpl. rewrite lookup_insert_ne; [done|]. intros Heq. apply Hp. rewrite Heq.
      by apply list_elem_of_fmap_2. }
    assert (∀ f, f ≠ fd p → inbox s1 f = inbox s f) as Hin1.
    { intros f Hfp. unfold inbox. simpl. by rewrite lookup_insert_ne. }
    assert (∀ r, r ∈ rest → reachable_by msg s1 (fd r) = reachable_by msg s (fd r)) as Hre.
    { intros r Hr. unfold reachable_by. by rewrite Htx. }
    assert (∀ r, r ∈ rest → fd r ≠ fd p) as Hrp.
    { intros r Hr Heq. apply Hp. rewrite <-Heq. by apply list_elem_of_fmap_2. }
    destruct ok.
    + (* delivered *)
      apply send_loop_all in Es as Hw. subst w.
      rewrite Hlen. specialize (IH (pre ++ [p]) rest sender s1 Ha1 Hf' ltac:(by destruct pre) Hnd0
        ltac:(lia) Hsend).
      destruct (broadcast_loop fuel _ _ msg s1) as [s'| |]; [|done..].
      destruct IH as (Hfs & Hno & Hyes). split; [|split].
      * rewrite Hfs, filter_cons, decide_True by (right; unfold reachable_by; by rewrite Es).
        rewrite (filter_stays_frame msg s s1) by done. by rewrite <-app_assoc.
      * intros f Hf0. rewrite Hno by set_solver. apply Hin1. set_solver.
      * intros r [->|Hr]%elem_of_cons Hrs Hrr.
        -- rewrite Hno by (left; set_solver). unfold inbox. simpl. by rewrite lookup_insert_eq.
        -- rewrite Hyes by (try done; by rewrite Hre). by rewrite Hin1 by auto.
    + (* removed *)
      assert (remove_client (length pre) s1 =
        Ok (Server (delete (length pre - 1)%nat (clients s1)) (delete (length pre) (fds s1))
              (rx s1) (tx s1) (delivered s1))) as Er.
      { unfold remove_client, fd_at. simpl. rewrite Hf, list_lookup_middle by done.
        cbn [mbind result_bind]. destruct pre as [|p0 pre]; [done|]. simpl. rewrite Nat.sub_0_r.
        destruct Ha as (ps & e & Hfa & Hca). rewrite Hf in Hfa. simplify_eq/=.
        by rewrite Hca, list_lookup_fmap, list_lookup_middle. }
      rewrite Er. cbn [mbind result_bind].
      destruct (remove_client_ok l _ _ _ Ha1 Er) as (Ha2 & _). revert Ha2. simpl fds.
      rewrite Hf, delete_middle. set (s2 := Server _ _ _ _ _). intros Ha2.
      assert (fds s2 !! (if (length pre <? sender)%nat then (sender - 1)%nat else sender) = Some psend)
        as Hsend2.
      { simpl. destruct (Nat.ltb_spec (length pre) sender).
        - rewrite Hf, lookup_app_r in Hsend by lia. rewrite lookup_app_r by lia.
          replace (sender - length pre)%nat with (S (sender - 1 - length pre))%nat in Hsend by lia. done.
        - rewrite Hf, lookup_app_l in Hsend by lia. rewrite lookup_app_l by lia. done. }
      assert (NoDup (fd <$> fds s2)) as Hnd2.
      { rewrite Hf, fmap_app, fmap_cons in Hnd0. simpl. rewrite fmap_app.
        apply NoDup_app in Hnd0 as (? & ? & [? ?]%NoDup_cons). apply NoDup_app. set_solver. }
      specialize (IH pre rest _ s2 Ha2 eq_refl Hpre Hnd2 ltac:(lia) Hsend2).
      destruct (broadcast_loop fuel _ _ msg s2) as [s'| |]; [|done..].
      destruct IH as (Hfs & Hno & Hyes). split; [|split].
      * rewrite Hfs, filter_cons, decide_False.
        -- by rewrite (filter_stays_frame msg s s2) by done.
        -- intros [?|Hr]; [done|]. unfold reachable_by in Hr. by rewrite Es in Hr.
      * intros f Hf0. rewrite Hno by set_solver. apply Hin1. set_solver.
      * intros r [->|Hr]%elem_of_cons Hrs Hrr; [unfold reachable_by in Hrr; by rewrite Es in Hrr|].
        rewrite Hyes by (try done; change (tx s2) with (tx s1); unfold reachable_by in *;
          simpl; rewrite lookup_insert_ne by (apply not_eq_sym; auto); done).
        by apply (f_equal (λ b, b ++ msg)), Hin1, Hrp.
Qed.

(** C31. A broadcast never leaves the vectors: every other client whose socket takes the message
    keeps its place and receives exactly the message, the clients whose sends fail are exactly
    those removed, and the sender, wherever it moves to, stays and receives nothing. *)
Theorem broadcast_reaches_others (listen_fd : Z) (msg : bytes) (sender : nat) (psend : pollfd)
    (s : server) :
  aligned listen_fd s → NoDup (fd <$> fds s) → (1 <= sender)%nat → fds s !! sender = Some psend →
  match broadcast sender msg s with
  | Ok s' =>
      clients s' = base.filter (λ f, f = fd psend ∨ reachable_by msg s f = true) (clients s) ∧
      (∀ f, f ∈ clients s' → f ≠ fd psend → inbox s' f = inbox s f ++ msg) ∧
      inbox s' (fd psend) = inbox s (fd psend)
  | Blocked => True
  | Crash => False
  end.
Proof.
  intros Ha Hnd Hs1 Hsend. pose proof Ha as (ps & e & Hf & Hc).
  pose proof (broadcast_loop_spec listen_fd msg (length (fds s)) [Pollfd listen_fd e] ps sender psend s
    Ha Hf ltac:(done) Hnd ltac:(rewrite Hf; simpl; lia) Hsend) as Hspec.
  unfold broadcast. change (length [Pollfd listen_fd e]) with 1%nat in Hspec.
  destruct (broadcast_loop (length (fds s)) 1 sender msg s) as [s'| |] eqn:Eb; [|done..].
  destruct Hspec as (Hfs & Hno & Hyes).
  destruct (broadcast_loop_kept listen_fd _ _ _ _ _ _ Ha Eb) as [(ps' & e' & Hf' & Hc') _].
  rewrite Hfs in Hf'. injection Hf' as <- <-.
  assert (clients s' = base.filter (λ f, f = fd psend ∨ reachable_by msg s f = true) (clients s))
    as Hcl.
  { rewrite Hc', Hc. clear. induction ps as [|p ps IH]; [done|]. csimpl. rewrite !filter_cons.
    unfold stays at 1. repeat case_decide; csimpl; rewrite ?IH; tauto. }
  split; [done|]. split.
  - intros f Hin Hne. rewrite Hcl, Hc in Hin.
    apply list_elem_of_filter in Hin as [Hr (p & -> & Hp)%list_elem_of_fmap].
    apply Hyes; [done..|]. by destruct Hr.
  - apply Hno. by right.
Qed.

(** Clients 4, 5 and 6 behind the listening socket 3. *)
Definition three_clients (rx : gmap Z (list recv_result)) (tx : gmap Z (list send_result)) : server :=
  Server [4; 5; 6] [Pollfd 3 0; Pollfd 4 0; Pollfd 5 0; Pollfd 6 0] rx tx ∅.

Lemma broadcast_reaches_others_witness :
  match broadcast 2 (lit "hi") (three_clients ∅ {[ 4 := [Took 0; SendIntr; Took 5]; 6 := [SendError] ]}) with
  | Ok s' =>
      clients s' = base.filter (λ f, f = 5 ∨ reachable_by (lit "hi")
        (three_clients ∅ {[ 4 := [Took 0; SendIntr; Took 5]; 6 := [SendError] ]}) f = true) [4; 5; 6] ∧
      (∀ f, f ∈ clients s' → f ≠ 5 → inbox s' f =
         inbox (three_clients ∅ {[ 4 := [Took 0; SendIntr; Took 5]; 6 := [SendError] ]}) f ++ lit "hi") ∧
      inbox s' 5 = inbox (three_clients ∅ {[ 4 := [Took 0; SendIntr; Took 5]; 6 := [SendError] ]}) 5
  | Blocked => True
  | Crash => False
  end.
Proof.
  apply (broadcast_reaches_others 3 (lit "hi") 2 (Pollfd 5 0)); [|apply (bool_decide_unpack _)|lia|done].
  - by exists [Pollfd 4 0; Pollfd 5 0; Pollfd 6 0], 0.
  - vm_compute. done.
Defined.

Lemma chat_aligned_witness :
  ∃ s, run_once [POLLIN] (Some 4) (start 3 ∅ ∅) = Ok s ∧
       aligned 3 s ∧ (length (clients s) <= MAX_CLIENTS)%nat.
Proof.
  eexists. split; [vm_compute; reflexivity|].
  apply (chat_aligned 3 ∅ ∅). eapply (runs_cons 3 [POLLIN] (Some 4)); [done|vm_compute; reflexivity|].
  constructor.
Defined.

(** The loop of [run] keeps its index while a broadcast inside it removes clients: when the
    sends to the two other clients fail, the next index is outside the vector; when one fails,
    the sender is read a second time and the server blocks in [recv]; and when the sender's own
    entry also reports an error, a healthy client, here 6, is disconnected as well. *)
Theorem run_index_goes_stale :
  run_once [0; 0; 0; POLLIN] None
    (three_clients {[ 6 := [Got (lit "hi")] ]} {[ 4 := [SendError]; 5 := [SendError] ]}) = Crash ∧
  run_once [0; 0; 0; POLLIN] None
    (three_clients {[ 6 := [Got (lit "hi")] ]} {[ 4 := [SendError]; 5 := [Took 1] ]}) = Blocked ∧
  ∃ s, run_once [0; 0; Z.lor POLLIN POLLHUP; 0] None
         (three_clients {[ 5 := [Got (lit "hi"); RecvIntr] ]} {[ 4 := [SendError]; 6 := [Took 1] ]}) = Ok s ∧
       clients s = [] ∧ inbox s 6 = lit "hi".
Proof.
  split; [vm_compute; reflexivity|]. split; [vm_compute; reflexivity|].
  eexists. split; [vm_compute; reflexivity|]. vm_compute. done.
Qed.
