(* ===== verification/AllocSpec.v ===== *)
(** * What an allocator promises

    The contract of malloc, free and realloc as the C standard describes them, for a
    client that keeps the rules: the specification that Realloc and MmMalloc both
    implement.  Also the copy of bytes and the rounding that both use. *)

From stdpp Require Import base gmap list numbers.
From Stdlib Require Import ZArith Lia Ascii.
From S2P Require Import Prelude CxxString.

Local Open Scope Z_scope.

(** What a client owns: for each live pointer, the requested bytes, [None] for a
    byte without a determined value. *)
Definition owned := gmap Z (list (option ascii)).

Inductive call :=
  | CMalloc (size : Z)
  | CFree (ptr : option Z)
  | CRealloc (ptr : option Z) (size : Z)
  | CStore (ptr : Z) (i : nat) (c : ascii)
  | CLoad (ptr : Z) (i : nat).

Inductive answer := AVoid | APtr (p : option Z) | AByte (c : option ascii).

(** The first bytes of [cs], filled up with undetermined ones. *)
Definition resize (n : Z) (cs : list (option ascii)) : list (option ascii) :=
  take (Z.to_nat n) cs ++ replicate (Z.to_nat n - length cs) None.

Section spec.
(** The alignment of what is handed out, and when a request for [n] bytes may fail. *)
Variables (align : Z) (may_fail : Z → Prop).

(** An aligned range apart from everything the client owns. *)
Definition fresh_range (live : owned) (p n : Z) : Prop :=
  (align | p) ∧ ∀ q cs, live !! q = Some cs →
    p + n <= q ∨ q + Z.of_nat (length cs) <= p.

(** malloc, free and realloc as the C standard describes them. *)
Inductive promises (live : owned) : call → answer → owned → Prop :=
  | p_malloc_0 : promises live (CMalloc 0) (APtr None) live
  | p_malloc_fail n : may_fail n → promises live (CMalloc n) (APtr None) live
  | p_malloc n p :
      0 < n → fresh_range live p n →
      promises live (CMalloc n) (APtr (Some p)) (<[p := resize n []]> live)
  | p_free_null : promises live (CFree None) AVoid live
  | p_free p : promises live (CFree (Some p)) AVoid (delete p live)
  | p_realloc_0 p : promises live (CRealloc p 0) (APtr None)
      (match p with Some p => delete p live | None => live end)
  | p_realloc_fail p n : may_fail n → promises live (CRealloc p n) (APtr None) live
  | p_realloc_null n p :
      0 < n → fresh_range live p n →
      promises live (CRealloc None n) (APtr (Some p)) (<[p := resize n []]> live)
  | p_realloc n p cs q :
      0 < n → live !! p = Some cs → fresh_range (delete p live) q n →
      promises live (CRealloc (Some p) n) (APtr (Some q))
        (<[q := resize n cs]> (delete p live))
  | p_store p i c cs :
      live !! p = Some cs → (i < length cs)%nat →
      promises live (CStore p i c) AVoid (<[p := <[i := Some c]> cs]> live)
  | p_load p i cs o c :
      live !! p = Some cs → cs !! i = Some o → (∀ b, o = Some b → c = Some b) →
      promises live (CLoad p i) (AByte c) live.
End spec.

(** What a client that keeps the rules may pass: sizes up to a limit, live pointers and
    offsets inside them. *)
Definition client_ok (limit : Z) (live : owned) (c : call) : Prop :=
  match c with
  | CMalloc n => 0 <= n <= limit
  | CFree p => ∀ q, p = Some q → is_Some (live !! q)
  | CRealloc p n => 0 <= n <= limit ∧ ∀ q, p = Some q → is_Some (live !! q)
  | CStore p i _ | CLoad p i => ∃ cs, live !! p = Some cs ∧ (i < length cs)%nat
  end.

Lemma length_resize n cs : 0 <= n → Z.of_nat (length (resize n cs)) = n.
Proof. intros. unfold resize. rewrite length_app, length_take, length_replicate. lia. Qed.

Lemma lookup_resize n cs i c :
  resize n cs !! i = Some (Some c) → (i < Z.to_nat n)%nat ∧ cs !! i = Some (Some c).
Proof.
  unfold resize. intros [Hi|[_ Hi]]%lookup_app_Some.
  - apply lookup_take_Some in Hi as [??]. done.
  - by apply lookup_replicate in Hi as [??].
Qed.

(** ** Copying bytes *)

Definition copy_bytes (dst src n : Z) (m : gmap Z ascii) : gmap Z ascii :=
  foldr (λ i m', partial_alter (λ _, m !! (src + i)) (dst + i) m') m (seqZ 0 n).

Lemma lookup_copy_bytes dst src n m x :
  copy_bytes dst src n m !! x =
  if bool_decide (dst <= x < dst + n) then m !! (src + (x - dst)) else m !! x.
Proof.
  unfold copy_bytes.
  assert (∀ l, foldr (λ i m', partial_alter (λ _, m !! (src + i)) (dst + i) m') m l !! x =
    if bool_decide (x - dst ∈ l) then m !! (src + (x - dst)) else m !! x) as ->.
  { induction l as [|y l IH]; simpl; [done|].
    destruct (decide (x = dst + y)) as [->|].
    - rewrite lookup_partial_alter_eq, bool_decide_eq_true_2; [|set_solver by lia].
      f_equal. lia.
    - rewrite lookup_partial_alter_ne, IH by done.
      do 2 case_bool_decide; set_solver by lia. }
  do 2 case_bool_decide; rewrite ?elem_of_seqZ in *; done || lia.
Qed.

(** ** Rounding *)

Lemma land_mask x k :
  0 <= x < 2 ^ 64 → 0 <= k → Z.land x (wrap64 (Z.lnot (2 ^ k - 1))) = x / 2 ^ k * 2 ^ k.
Proof.
  intros Hx Hk. unfold wrap64. rewrite <-Z.land_ones by lia.
  rewrite (Z.land_comm (Z.lnot _)), Z.land_assoc, Z.land_ones, Z.mod_small by lia.
  replace (2 ^ k - 1) with (Z.ones k) by (rewrite Z.ones_equiv; lia).
  rewrite <-Z.ldiff_land, Z.ldiff_ones_r, Z.shiftl_mul_pow2, Z.shiftr_div_pow2 by lia. done.
Qed.
