(* ===== verification/Realloc.v ===== *)
(** * The first-fit allocator of base_memory/my_realloc.cpp

    The heap is a chain of blocks threaded through their headers, grown by
    anonymous mappings.  The contract is that of malloc, free and realloc: live
    payloads are aligned, disjoint, large enough and keep what the client wrote.
    The system places mappings where it likes.  The code keeps the contract as long
    as no call releases a block beside a free block of a mapping apart from its own
    ([joins]): [coalesce] merges blocks that are neighbours in the chain without
    looking at their addresses, and then the allocator hands out unmapped memory. *)

From stdpp Require Import base gmap list strings.
From Stdlib Require Import ZArith Lia Ascii.
From S2P Require Import Prelude CxxString AllocSpec.

Local Open Scope Z_scope.

Definition ALIGNMENT : Z := 16.
Definition MMAP_THRESHOLED : Z := 4096.

(** The macro, on [size_t] operands. *)
Definition ALIGN_UP (size align : Z) : Z :=
  Z.land (wrap64 (size + align - 1)) (wrap64 (Z.lnot (align - 1))).

(** [sizeof(BlockHeader)]: a [size_t], a [bool] and a pointer, padded. *)
Definition sizeof_header : Z := 24.
Definition HEADER_SIZE : Z := Eval cbv in ALIGN_UP sizeof_header ALIGNMENT.

(** A header; its [next] pointer is the order of the chain below. *)
Record BlockHeader := Block { addr : Z; bsize : Z; is_free : bool }.
#[export] Instance BlockHeader_eq_dec : EqDecision BlockHeader.
Proof. solve_decision. Defined.

(** The chain from [g_heap_head], the mapped regions (start, length), and the bytes
    whose value is known.  Writing a header makes the bytes under it unknown. *)
Record heap := Heap {
  chain : list BlockHeader;
  mapped : list (Z * Z);
  mem : gmap Z ascii
}.

Definition empty_heap : heap := Heap [] [] ∅.

Definition set_chain (bs : list BlockHeader) : prog heap unit :=
  modify (λ h, Heap bs (mapped h) (mem h)).

Definition mapped_byte (rs : list (Z * Z)) (x : Z) : bool :=
  existsb (λ r, (r.1 <=? x) && (x <? r.1 + r.2)) rs.

(** Touching memory outside the mappings is a fault. *)
Definition accessible (rs : list (Z * Z)) (a n : Z) : bool :=
  forallb (mapped_byte rs) (seqZ a n).

Definition wipe (a n : Z) (m : gmap Z ascii) : gmap Z ascii :=
  foldr (λ x m, delete x m) m (seqZ a n).

(** Storing a header at [a]. *)
Definition write_header (a : Z) : prog heap unit :=
  h ← get;
  if accessible (mapped h) a sizeof_header
  then put (Heap (chain h) (mapped h) (wipe a sizeof_header (mem h)))
  else lift Undef.

(** The chain cut at the block whose header is at [p]. *)
Fixpoint cut_at (p : Z) (bs : list BlockHeader) :
    option (list BlockHeader * BlockHeader * list BlockHeader) :=
  match bs with
  | [] => None
  | b :: rest =>
      if addr b =? p then Some ([], b, rest)
      else match cut_at p rest with
           | Some (pre, c, post) => Some (b :: pre, c, post)
           | None => None
           end
  end.

(** Following a [BlockHeader*]; a pointer to anything but a header of the chain
    is the caller's error. *)
Definition block_at (p : Z) : prog heap (list BlockHeader * BlockHeader * list BlockHeader) :=
  h ← get; lift (deref (cut_at p (chain h))).

(** [mmap] answers the address of the mapping, or fails. *)
Definition request_os_mem (os : option Z) (size : Z) : prog heap (option Z) :=
  match os with
  | None => mret None
  | Some a => _ ← modify (λ h, Heap (chain h) (mapped h ++ [(a, size)]) (mem h)); mret (Some a)
  end.

(** The tail insertion is the same for an empty chain. *)
Definition init_new_region (os : option Z) (payload_size : Z) : prog heap (option Z) :=
  let total_size := ALIGN_UP (wrap64 (HEADER_SIZE + payload_size)) MMAP_THRESHOLED in
  r ← request_os_mem os total_size;
  match r with
  | None => mret None
  | Some a =>
      _ ← write_header a;
      h ← get;
      _ ← set_chain (chain h ++ [Block a (wrap64 (total_size - HEADER_SIZE)) true]);
      mret (Some a)
  end.

Fixpoint find_free_block (size : Z) (bs : list BlockHeader) : option Z :=
  match bs with
  | [] => None
  | curr :: rest =>
      if is_free curr && (size <=? bsize curr) then Some (addr curr)
      else find_free_block size rest
  end.

Definition split_block (p needed_payload : Z) : prog heap unit :=
  '(pre, b, post) ← block_at p;
  let remaining := wrap64 (bsize b - needed_payload) in
  if HEADER_SIZE + ALIGNMENT <? remaining then
    let new_block := p + HEADER_SIZE + needed_payload in
    _ ← write_header new_block;
    set_chain (pre ++ Block p needed_payload (is_free b)
                   :: Block new_block (wrap64 (remaining - HEADER_SIZE)) true :: post)
  else mret ().

(** [while (curr && curr->next)]: [curr] swallows its free successors. *)
Fixpoint coalesce_from (curr : BlockHeader) (rest : list BlockHeader) : list BlockHeader :=
  match rest with
  | [] => [curr]
  | next :: rest' =>
      if is_free curr && is_free next then
        coalesce_from
          (Block (addr curr) (wrap64 (bsize curr + (HEADER_SIZE + bsize next))) true) rest'
      else curr :: coalesce_from next rest'
  end.

Definition coalesce (bs : list BlockHeader) : list BlockHeader :=
  match bs with [] => [] | b :: rest => coalesce_from b rest end.

Definition set_free (p : Z) (f : bool) : prog heap unit :=
  '(pre, b, post) ← block_at p; set_chain (pre ++ Block p (bsize b) f :: post).

Definition my_malloc (os : option Z) (size : Z) : prog heap (option Z) :=
  if size =? 0 then mret None
  else
    let size := ALIGN_UP size ALIGNMENT in
    h ← get;
    block ← (match find_free_block size (chain h) with
             | Some p => mret (Some p)
             | None => init_new_region os size
             end);
    match block with
    | None => mret None
    | Some p =>
        _ ← set_free p false;
        _ ← split_block p size;
        mret (Some (p + HEADER_SIZE))
    end.

(** [nullptr] is [None]. *)
Definition my_free (ptr : option Z) : prog heap unit :=
  match ptr with
  | None => mret ()
  | Some ptr =>
      _ ← set_free (ptr - HEADER_SIZE) true;
      h ← get; set_chain (coalesce (chain h))
  end.

(** [std::memcpy]: the ranges must be mapped and must not overlap. *)
Definition memcpy (dst src n : Z) : prog heap unit :=
  h ← get;
  if accessible (mapped h) dst n && accessible (mapped h) src n
     && ((dst + n <=? src) || (src + n <=? dst))
  then put (Heap (chain h) (mapped h) (copy_bytes dst src n (mem h)))
  else lift Undef.

(** Scenario B, [None] when the successor cannot be used. *)
Definition grow_in_place (p new_size : Z) : prog heap (option unit) :=
  '(pre, b, post) ← block_at p;
  match post with
  | next :: post' =>
      if is_free next then
        let combined := wrap64 (bsize b + HEADER_SIZE + bsize next) in
        if new_size <=? combined then
          let leftover := wrap64 (combined - new_size) in
          if HEADER_SIZE + ALIGNMENT <? leftover then
            let remainder := p + HEADER_SIZE + new_size in
            _ ← write_header remainder;
            _ ← set_chain (pre ++ Block p new_size (is_free b)
                  :: Block remainder (wrap64 (leftover - HEADER_SIZE)) true :: post');
            mret (Some ())
          else
            _ ← set_chain (pre ++ Block p new_size (is_free b) :: post');
            mret (Some ())
        else mret None
      else mret None
  | [] => mret None
  end.

Definition my_realloc (os : option Z) (ptr : option Z) (new_size : Z) : prog heap (option Z) :=
  if new_size =? 0 then _ ← my_free ptr; mret None
  else
    match ptr with
    | None => my_malloc os new_size
    | Some q =>
        let new_size := ALIGN_UP new_size ALIGNMENT in
        let p := q - HEADER_SIZE in
        '(_, b, _) ← block_at p;
        let old_size := bsize b in
        if new_size <=? old_size then
          _ ← split_block p new_size; mret (Some q)
        else
          grown ← grow_in_place p new_size;
          match grown with
          | Some _ => mret (Some q)
          | None =>
              new_ptr ← my_malloc os new_size;
              match new_ptr with
              | None => mret None
              | Some q' =>
                  _ ← memcpy q' q old_size;
                  _ ← my_free (Some q);
                  mret (Some q')
              end
          end
    end.

(** The client's stores and loads through a pointer. *)
Definition store_byte (x : Z) (c : ascii) : prog heap unit :=
  h ← get;
  if mapped_byte (mapped h) x
  then put (Heap (chain h) (mapped h) (<[x := c]> (mem h)))
  else lift Undef.
Definition load_byte (x : Z) : prog heap (option ascii) :=
  h ← get; if mapped_byte (mapped h) x then mret (mem h !! x) else lift Undef.

(** [main]: four ints, grown to eight, shrunk to two, released. *)
Definition le_bytes (z : Z) : list ascii :=
  (λ k, ascii_of_N (Z.to_N (Z.land (Z.shiftr z (8 * k)) 255))) <$> [0; 1; 2; 3].
Fixpoint store_bytes (x : Z) (cs : list ascii) : prog heap unit :=
  match cs with [] => mret () | c :: cs' => _ ← store_byte x c; store_bytes (x + 1) cs' end.
Definition store_int (arr i v : Z) : prog heap unit := store_bytes (arr + 4 * i) (le_bytes v).
Definition load_int (arr i : Z) : prog heap (option Z) :=
  c0 ← load_byte (arr + 4 * i); c1 ← load_byte (arr + 4 * i + 1);
  c2 ← load_byte (arr + 4 * i + 2); c3 ← load_byte (arr + 4 * i + 3);
  mret (match c0, c1, c2, c3 with
        | Some a, Some b, Some c, Some d =>
            Some (Z.of_N (N_of_ascii a) + 256 * Z.of_N (N_of_ascii b)
                  + 65536 * Z.of_N (N_of_ascii c) + 16777216 * Z.of_N (N_of_ascii d))
        | _, _, _, _ => None
        end).
Fixpoint for_each {A} (ks : list Z) (f : Z → prog heap A) : prog heap (list A) :=
  match ks with
  | [] => mret []
  | i :: ks' => a ← f i; l ← for_each ks' f; mret (a :: l)
  end.
Definition non_null (p : option Z) : prog heap Z := lift (deref p).

(** The ints printed; [None] for one that was never written. *)
Definition main (os1 os2 os3 : option Z) : prog heap (list (option Z)) :=
  p ← my_realloc os1 None 16;
  arr ← non_null p;
  _ ← for_each [0; 1; 2; 3] (λ i, store_int arr i (i * 10));
  p ← my_realloc os2 (Some arr) 32;
  arr ← non_null p;
  out1 ← for_each [0; 1; 2; 3; 4; 5; 6; 7] (load_int arr);
  p ← my_realloc os3 (Some arr) 8;
  arr ← non_null p;
  out2 ← for_each [0; 1] (load_int arr);
  _ ← my_realloc None (Some arr) 0;
  mret (out1 ++ out2).

Example main_prints :
  main (Some 65536) None None empty_heap =
  (Ret [Some 0; Some 10; Some 20; Some 30; None; None; None; None; Some 0; Some 10],
   Heap [Block 65536 4064 true] [(65536, 4096)] (main (Some 65536) None None empty_heap).2.(mem)).
Proof. vm_compute. reflexivity. Qed.

(** ** Rounding *)

Lemma ALIGN_UP_spec size k :
  0 <= size → 0 <= k → size + 2 ^ k <= 2 ^ 64 →
  size <= ALIGN_UP size (2 ^ k) < size + 2 ^ k ∧ (2 ^ k | ALIGN_UP size (2 ^ k)).
Proof.
  intros Hs Hk Hb. unfold ALIGN_UP. assert (0 < 2 ^ k) by (apply Z.pow_pos_nonneg; lia).
  rewrite wrap64_small, land_mask by lia.
  pose proof (Z.div_mod (size + 2 ^ k - 1) (2 ^ k) ltac:(lia)).
  pose proof (Z.mod_pos_bound (size + 2 ^ k - 1) (2 ^ k) ltac:(lia)).
  split; [nia|]. exists ((size + 2 ^ k - 1) / 2 ^ k). done.
Qed.

Lemma align16_spec size :
  0 <= size <= 2 ^ 62 →
  size <= ALIGN_UP size ALIGNMENT < size + 16 ∧ (16 | ALIGN_UP size ALIGNMENT).
Proof. intros ?. apply (ALIGN_UP_spec size 4); lia. Qed.

Lemma align_page_spec size :
  0 <= size <= 2 ^ 63 →
  size <= ALIGN_UP size MMAP_THRESHOLED < size + 4096 ∧ (16 | ALIGN_UP size MMAP_THRESHOLED).
Proof.
  intros ?. destruct (ALIGN_UP_spec size 12) as [? [q Hq]]; [lia..|].
  split; [done|]. exists (q * 256). unfold MMAP_THRESHOLED. change 4096 with (2 ^ 12). lia.
Qed.

(** ** Memory primitives *)

Lemma lookup_wipe a n m x :
  wipe a n m !! x = if bool_decide (a <= x < a + n) then None else m !! x.
Proof.
  unfold wipe.
  assert (∀ l, foldr (λ y m, delete y m) m l !! x =
    if bool_decide (x ∈ l) then None else m !! x) as ->.
  { induction l as [|y l IH]; simpl; [done|].
    destruct (decide (x = y)) as [->|].
    - rewrite lookup_delete_eq, bool_decide_eq_true_2; [done|set_solver].
    - rewrite lookup_delete_ne, IH by done. do 2 case_bool_decide; set_solver. }
  do 2 case_bool_decide; rewrite ?elem_of_seqZ in *; done || lia.
Qed.

Lemma accessible_sub rs lo hi a n :
  (∀ x, lo <= x < hi → mapped_byte rs x = true) → lo <= a → a + n <= hi →
  accessible rs a n = true.
Proof.
  intros Hm ??. unfold accessible. apply Is_true_true, forallb_True, Forall_forall.
  intros x Hx%elem_of_seqZ. rewrite Hm by lia. done.
Qed.

(** ** The chain invariant *)

(** Blocks in address order inside [lo, hi), headers included, without overlap. *)
Fixpoint chain_in (lo : Z) (bs : list BlockHeader) (hi : Z) : Prop :=
  match bs with
  | [] => lo <= hi
  | b :: rest =>
      lo <= addr b ∧ 0 <= bsize b ∧ (16 | addr b) ∧ (16 | bsize b) ∧
      chain_in (addr b + HEADER_SIZE + bsize b) rest hi
  end.

Definition block_end (b : BlockHeader) : Z := addr b + HEADER_SIZE + bsize b.

Lemma chain_in_le lo bs hi : chain_in lo bs hi → lo <= hi.
Proof.
  revert lo. induction bs as [|b bs IH]; intros lo; simpl; [done|].
  intros (?&?&?&?&?%IH). unfold HEADER_SIZE in *. lia.
Qed.

Lemma chain_in_app lo pre bs hi :
  chain_in lo (pre ++ bs) hi ↔ ∃ mid, chain_in lo pre mid ∧ chain_in mid bs hi.
Proof.
  revert lo. induction pre as [|b pre IH]; intros lo; simpl.
  - split; [intros Hc; exists lo; split; [lia|done]|].
    intros (mid & ? & Hc). destruct bs as [|b bs]; simpl in *; [lia|intuition lia].
  - rewrite IH. naive_solver.
Qed.

Lemma chain_in_weaken lo lo' bs hi hi' :
  lo' <= lo → hi <= hi' → chain_in lo bs hi → chain_in lo' bs hi'.
Proof.
  revert lo lo'. induction bs as [|b bs IH]; intros lo lo' ??; simpl; [lia|].
  intros (?&?&?&?&?). split_and!; [lia|done..|]. eapply IH; [|done..]. lia.
Qed.

Lemma chain_in_elem lo bs hi b :
  chain_in lo bs hi → b ∈ bs → lo <= addr b ∧ 0 <= bsize b ∧ block_end b <= hi.
Proof.
  intros Hc [pre [post ->]]%list_elem_of_split. apply chain_in_app in Hc as (mid & H1 & H2).
  apply chain_in_le in H1. destruct H2 as (?&?&_&_&?%chain_in_le). unfold block_end. lia.
Qed.

(** Other blocks of the chain are before or after the one in the middle. *)
Lemma chain_in_around lo pre b post hi b' :
  chain_in lo (pre ++ b :: post) hi → b' ∈ pre ++ post →
  block_end b' <= addr b ∨ block_end b <= addr b'.
Proof.
  intros (mid & H1 & H2)%chain_in_app [He|He]%elem_of_app.
  - left. pose proof (chain_in_elem _ _ _ _ H1 He). destruct H2. lia.
  - right. destruct H2 as (_&_&_&_&H2). pose proof (chain_in_elem _ _ _ _ H2 He).
    unfold block_end at 1. lia.
Qed.

Lemma cut_at_spec p bs pre b post :
  cut_at p bs = Some (pre, b, post) → bs = pre ++ b :: post ∧ addr b = p.
Proof.
  revert pre. induction bs as [|c bs IH]; intros pre; simpl; [done|].
  destruct (Z.eqb_spec (addr c) p) as [<-|].
  - by intros [= <- <- <-].
  - destruct (cut_at p bs) as [[[pre' b'] post']|] eqn:E; [|done].
    intros [= <- <- <-]. destruct (IH _ eq_refl) as [-> ->]. done.
Qed.

Lemma cut_at_first pre b post :
  (∀ c, c ∈ pre → addr c ≠ addr b) → cut_at (addr b) (pre ++ b :: post) = Some (pre, b, post).
Proof.
  induction pre as [|c pre IH]; intros Hne; simpl; [by rewrite Z.eqb_refl|].
  rewrite IH by (intros; apply Hne; by right).
  destruct (Z.eqb_spec (addr c) (addr b)) as [E|]; [|done].
  by destruct (Hne c ltac:(by left)).
Qed.

Lemma coalesce_from_chain lo b rest hi :
  chain_in lo (b :: rest) hi → 0 <= lo → hi < 2 ^ 64 → chain_in lo (coalesce_from b rest) hi.
Proof.
  revert lo b. induction rest as [|n rest IH]; intros lo b Hc ??; simpl; [done|].
  destruct Hc as (?&?&?&?&Hn). destruct (is_free b && is_free n).
  - apply IH; [|done..]. destruct Hn as (?&?&?&?&Hn). pose proof (chain_in_le _ _ _ Hn).
    unfold HEADER_SIZE in *. simpl. rewrite wrap64_small by lia.
    split_and!; [done|lia|done| |].
    + apply Z.divide_add_r; [done|]. apply Z.divide_add_r; [by exists 2|done].
    + eapply chain_in_weaken; [..|exact Hn]; unfold HEADER_SIZE; lia.
  - simpl. split_and!; [done..|]. apply IH; [done| |done]. unfold HEADER_SIZE. lia.
Qed.

Lemma coalesce_chain lo bs hi :
  chain_in lo bs hi → 0 <= lo → hi < 2 ^ 64 → chain_in lo (coalesce bs) hi.
Proof. destruct bs; [done|]. apply coalesce_from_chain. Qed.

Lemma coalesce_from_keeps b c rest :
  b ∈ c :: rest → is_free b = false → b ∈ coalesce_from c rest.
Proof.
  revert c. induction rest as [|n rest IH]; intros c Hb Hf; simpl; [done|].
  destruct (is_free c && is_free n) eqn:E.
  - apply andb_true_iff in E as [? ?]. apply IH; [|done].
    do 2 (apply elem_of_cons in Hb as [Hb|Hb]; [congruence|]). by right.
  - apply elem_of_cons in Hb as [Hb|Hb]; apply elem_of_cons; [by left|right; by apply IH].
Qed.

(** A used block survives merging, with its size. *)
Lemma coalesce_keeps b bs : b ∈ bs → is_free b = false → b ∈ coalesce bs.
Proof. destruct bs; [done|]. apply coalesce_from_keeps. Qed.

(** After merging, no two neighbours are free. *)
Fixpoint merged (bs : list BlockHeader) : bool :=
  match bs with
  | b :: ((c :: _) as rest) => negb (is_free b && is_free c) && merged rest
  | _ => true
  end.

Lemma coalesce_from_head b rest :
  ∃ c l, coalesce_from b rest = c :: l ∧ is_free c = is_free b.
Proof.
  revert b. induction rest as [|n rest IH]; intros b; simpl; [by eauto|].
  destruct (is_free b) eqn:Hb, (is_free n); simpl; eauto.
Qed.

Lemma coalesce_from_merged b rest : merged (coalesce_from b rest) = true.
Proof.
  revert b. induction rest as [|n rest IH]; intros b; [done|]. cbn [coalesce_from].
  destruct (is_free b && is_free n) eqn:E; [apply IH|].
  pose proof (IH n) as Hn. destruct (coalesce_from_head n rest) as (c & l & Heq & Hc).
  rewrite Heq in *.
  change (merged (b :: c :: l)) with (negb (is_free b && is_free c) && merged (c :: l)).
  rewrite Hc, E, Hn. done.
Qed.

(** ** The mappings *)

(** The intervals that mappings made one after the other cover without a gap. *)
Definition add_run (acc : list (Z * Z)) (r : Z * Z) : list (Z * Z) :=
  match last acc with
  | Some (lo, hi) =>
      if hi =? r.1 then removelast acc ++ [(lo, r.1 + r.2)] else acc ++ [(r.1, r.1 + r.2)]
  | None => [(r.1, r.1 + r.2)]
  end.
Definition runs (rs : list (Z * Z)) : list (Z * Z) := foldl add_run [] rs.

Definition within (r : Z * Z) (b : BlockHeader) : bool :=
  (r.1 <=? addr b) && (block_end b <=? r.2).
Definition together (rs : list (Z * Z)) (b c : BlockHeader) : bool :=
  existsb (λ r, within r b && within r c) (runs rs).

(** Two neighbours of the chain are free although no run of mappings holds both. *)
Definition apart_free (rs : list (Z * Z)) (b c : BlockHeader) : bool :=
  is_free b && is_free c && negb (together rs b c).
Fixpoint joins_in (rs : list (Z * Z)) (bs : list BlockHeader) : bool :=
  match bs with
  | b :: ((c :: _) as rest) => apart_free rs b c || joins_in rs rest
  | _ => false
  end.
Definition free_at (p : Z) (bs : list BlockHeader) : list BlockHeader :=
  (λ b, if addr b =? p then Block (addr b) (bsize b) true else b) <$> bs.

(** With the block at [p] released, the chain has such neighbours. *)
Definition joins_at (p : Z) (h : heap) : bool := joins_in (mapped h) (free_at p (chain h)).

Definition runs_ok (rs : list (Z * Z)) : Prop :=
  (∀ i lo hi, runs rs !! i = Some (lo, hi) →
     0 < lo < hi ∧ hi < 2 ^ 64 ∧ ∀ x, lo <= x < hi → mapped_byte rs x = true) ∧
  (∀ i j r s, i ≠ j → runs rs !! i = Some r → runs rs !! j = Some s →
     r.2 <= s.1 ∨ s.2 <= r.1).

(** What mmap promises when it answers [a] for a mapping of [n] bytes: pages that
    belong to no other mapping. *)
Definition mmap_gives (rs : list (Z * Z)) (n : Z) (os : option Z) : Prop :=
  ∀ a, os = Some a →
    0 < a ∧ (MMAP_THRESHOLED | a) ∧ a + n < 2 ^ 64 ∧ ∀ x, a <= x < a + n → mapped_byte rs x = false.

Lemma mapped_byte_snoc rs r x :
  mapped_byte (rs ++ [r]) x = mapped_byte rs x || (r.1 <=? x) && (x <? r.1 + r.2).
Proof. unfold mapped_byte. rewrite existsb_app. simpl. by rewrite orb_false_r. Qed.

Lemma runs_snoc rs r : runs (rs ++ [r]) = add_run (runs rs) r.
Proof. apply foldl_snoc. Qed.

(** The new mapping is a run of its own, or prolongs the last one. *)
Lemma runs_snoc_cases rs a n :
  (runs (rs ++ [(a, n)]) = runs rs ++ [(a, a + n)]) ∨
  ∃ acc lo, runs rs = acc ++ [(lo, a)] ∧ runs (rs ++ [(a, n)]) = acc ++ [(lo, a + n)].
Proof.
  rewrite runs_snoc. unfold add_run. destruct (last (runs rs)) as [[lo hi]|] eqn:E.
  - apply last_Some in E as [acc Hacc]. rewrite Hacc. simpl.
    destruct (Z.eqb_spec hi a) as [->|]; [right|by left].
    exists acc, lo. by rewrite removelast_last.
  - apply last_None in E as ->. by left.
Qed.

Lemma together_snoc rs a n b c :
  0 <= n → together rs b c = true → together (rs ++ [(a, n)]) b c = true.
Proof.
  unfold together. rewrite !existsb_exists. intros Hn (r & Hr & Hw).
  destruct (runs_snoc_cases rs a n) as [E|(acc & lo & E & E')].
  - exists r. split; [|done]. rewrite E. apply in_app_iff. by left.
  - rewrite E'. rewrite E in Hr. apply in_app_iff in Hr as [?|[<-|[]]].
    + exists r. split; [|done]. apply in_app_iff. by left.
    + exists (lo, a + n). split; [apply in_app_iff; right; by left|].
      unfold within in *. simpl in *. zbool. repeat (apply andb_true_iff; split); lia.
Qed.

Lemma joins_in_app rs s t :
  joins_in rs (s ++ t) = false ↔
  joins_in rs s = false ∧ joins_in rs t = false ∧
  ∀ b c, last s = Some b → head t = Some c → apart_free rs b c = false.
Proof.
  induction s as [|b s IH]; [simpl; naive_solver|].
  destruct s as [|c s].
  - destruct t as [|c t]; simpl; [naive_solver|]. rewrite orb_false_iff. naive_solver.
  - change (last (b :: c :: s)) with (last (c :: s)).
    change (joins_in rs ((b :: c :: s) ++ t))
      with (apart_free rs b c || joins_in rs ((c :: s) ++ t)).
    change (joins_in rs (b :: c :: s)) with (apart_free rs b c || joins_in rs (c :: s)).
    rewrite !orb_false_iff, IH. naive_solver.
Qed.

Lemma joins_in_snoc rs a n bs :
  0 <= n → joins_in rs bs = false → joins_in (rs ++ [(a, n)]) bs = false.
Proof.
  intros Hn. induction bs as [|b [|c bs] IH]; [done..|].
  change (joins_in ?rs (b :: c :: bs)) with (apart_free rs b c || joins_in rs (c :: bs)).
  rewrite !orb_false_iff. intros [Hb ?]. split; [|by apply IH].
  unfold apart_free in *. destruct (is_free b && is_free c); [|done]. simpl in *.
  apply negb_false_iff in Hb. by rewrite (together_snoc rs a n).
Qed.

Section snoc.
Context (rs : list (Z * Z)) (a n : Z).
Hypothesis Hok : runs_ok rs.
Hypothesis Hn : 0 < n.
Hypothesis Hos : mmap_gives rs n (Some a).

Lemma run_outside i r : runs rs !! i = Some r → r.2 <= a ∨ a + n <= r.1.
Proof.
  destruct (Hos a eq_refl) as (_&_&_&Hfresh), Hok as [Hin _], r as [lo hi]. intros Hi.
  destruct (Hin i lo hi Hi) as (?&_&Hm). simpl.
  destruct (Z.leb_spec hi a); [lia|]. destruct (Z.leb_spec (a + n) lo); [lia|]. exfalso.
  pose proof (Hm (Z.max lo a) ltac:(lia)). rewrite Hfresh in *; [done|lia].
Qed.

Lemma mapped_byte_new x :
  mapped_byte rs x = true ∨ a <= x < a + n → mapped_byte (rs ++ [(a, n)]) x = true.
Proof.
  intros [Hx|Hx]; rewrite mapped_byte_snoc; [by rewrite Hx|].
  simpl. apply orb_true_iff. right. apply andb_true_iff. lia.
Qed.

(** Runs stay sound when the system adds a mapping. *)
Lemma runs_ok_snoc : runs_ok (rs ++ [(a, n)]).
Proof.
  pose proof run_outside as Hout. pose proof mapped_byte_new as Hmap.
  destruct (Hos a eq_refl) as (Ha & _ & Hroom & _), Hok as [Hin Hdis].
  assert (∃ acc r, (∀ i s, acc !! i = Some s → runs rs !! i = Some s) ∧
    runs (rs ++ [(a, n)]) = acc ++ [r] ∧ r.2 = a + n ∧ 0 < r.1 <= a ∧
    (∀ x, r.1 <= x < a → mapped_byte rs x = true) ∧
    ∀ i s, acc !! i = Some s → s.2 <= r.1 ∨ a + n <= s.1)
    as (acc & r & Hacc & E & Hr2 & Hr1 & Hrm & Hr).
  { destruct (runs_snoc_cases rs a n) as [E|(acc & lo & E & E')].
    - exists (runs rs), (a, a + n). split_and!; [done|done|done|cbn; lia..|exact Hout].
    - assert (∀ i s, acc !! i = Some s → runs rs !! i = Some s) as Hacc.
      { intros i s ?. rewrite E. by apply lookup_app_l_Some. }
      assert (runs rs !! length acc = Some (lo, a)) as Hlast.
      { rewrite E, lookup_app_r, Nat.sub_diag by lia. done. }
      destruct (Hin _ _ _ Hlast) as (?&?&?).
      exists acc, (lo, a + n). split_and!; [done|done|done|cbn; lia..|done|].
      intros i s Hi. pose proof (Hout i s (Hacc _ _ Hi)). simpl.
      apply lookup_lt_Some in Hi as ?.
      destruct (Hdis i (length acc) s (lo, a) ltac:(lia) (Hacc _ _ Hi) Hlast); simpl in *; [lia|].
      destruct s as [s1 s2]. destruct (Hin _ _ _ (Hacc _ _ Hi)). simpl in *. lia. }
  unfold runs_ok. rewrite E. split.
  - intros i lo hi [Hi|[_ Hi%list_lookup_singleton_Some]]%lookup_app_Some.
    + destruct (Hin _ _ _ (Hacc _ _ Hi)) as (?&?&Hm). split_and!; [lia..|]. auto.
    + destruct Hi as [_ ->]. simpl in *. split_and!; [lia..|]. intros x Hx. apply Hmap.
      destruct (Z.ltb_spec x a); [left; apply Hrm; lia|right; lia].
  - intros i j s t Hne Hi Hj. apply lookup_app_Some in Hi as [Hi|[? Hi]], Hj as [Hj|[? Hj]].
    + apply (Hdis i j); [done|by apply Hacc..].
    + apply list_lookup_singleton_Some in Hj as [_ <-]. rewrite Hr2.
      destruct (Hr _ _ Hi); lia.
    + apply list_lookup_singleton_Some in Hi as [_ <-]. rewrite Hr2.
      destruct (Hr _ _ Hj); lia.
    + apply list_lookup_singleton_Some in Hi as [Hi _], Hj as [Hj _]. lia.
Qed.
End snoc.

(** ** The operations on a well-formed heap *)

(** The chain visits the runs in the order they were made; the heap seen from one of
    them, whose blocks are [seg]. *)
Definition tiles (rs : list (Z * Z)) (segs : list (list BlockHeader)) : Prop :=
  Forall2 (λ r seg, chain_in r.1 seg r.2) (runs rs) segs.
Definition heap_in (SL SR : list (list BlockHeader)) (lo hi : Z) (seg : list BlockHeader)
    (h : heap) : Prop :=
  runs_ok (mapped h) ∧ chain h = concat SL ++ seg ++ concat SR ∧
  tiles (mapped h) (SL ++ seg :: SR) ∧ runs (mapped h) !! length SL = Some (lo, hi).
Definition heap_inv (h : heap) : Prop :=
  runs_ok (mapped h) ∧ ∃ segs, chain h = concat segs ∧ tiles (mapped h) segs.

(** The mapping [my_malloc size] asks for. *)
Definition mapping_size (size : Z) : Z :=
  ALIGN_UP (wrap64 (HEADER_SIZE + ALIGN_UP size ALIGNMENT)) MMAP_THRESHOLED.

(** [b] is still in the chain, header and payload untouched. *)
Definition kept (h h' : heap) (b : BlockHeader) : Prop :=
  b ∈ chain h' ∧ ∀ x, addr b <= x < block_end b → mem h' !! x = mem h !! x.
Definition apart (b b' : BlockHeader) : Prop :=
  block_end b' <= addr b ∨ block_end b <= addr b'.

Lemma heap_in_inv SL SR lo hi seg h : heap_in SL SR lo hi seg h → heap_inv h.
Proof.
  intros (?&Hc&?&_). split; [done|]. exists (SL ++ seg :: SR).
  by rewrite concat_app.
Qed.

(** What holds of the run in focus, and of the blocks of the other runs. *)
Lemma heap_in_run SL SR lo hi seg h :
  heap_in SL SR lo hi seg h →
  0 < lo ∧ hi < 2 ^ 64 ∧ chain_in lo seg hi ∧
  (∀ x, lo <= x < hi → mapped_byte (mapped h) x = true) ∧
  ∀ c, c ∈ concat SL ∨ c ∈ concat SR → 0 <= bsize c ∧ (block_end c <= lo ∨ hi <= addr c).
Proof.
  intros ([Hin Hdis]&_&Ht&Hr). destruct (Hin _ _ _ Hr) as (?&?&?). split_and!; [lia|done| |done|].
  - apply (Forall2_lookup_lr _ _ _ (length SL) (lo, hi) seg Ht Hr).
    by rewrite lookup_app_r, Nat.sub_diag by lia.
  - assert (∀ i s c, (SL ++ seg :: SR) !! i = Some s → i ≠ length SL → c ∈ s →
      0 <= bsize c ∧ (block_end c <= lo ∨ hi <= addr c)) as Hout.
    { intros i s c Hi Hne Hc.
      destruct (Forall2_lookup_r _ _ _ _ _ Ht Hi) as ([lo' hi'] & Hri & Hs).
      pose proof (chain_in_elem _ _ _ _ Hs Hc) as (?&?&?). split; [done|].
      destruct (Hdis i (length SL) _ _ Hne Hri Hr); simpl in *; lia. }
    intros c [Hc|Hc]; apply list_elem_of_In, in_concat in Hc as (s & Hs & Hc);
      apply list_elem_of_In in Hs, Hc; apply list_elem_of_lookup in Hs as [i Hi].
    + apply (Hout i s); [by apply lookup_app_l_Some| |done].
      apply lookup_lt_Some in Hi. lia.
    + apply (Hout (length SL + S i)%nat s); [|lia|done].
      rewrite lookup_app_r by lia. by replace (length SL + S i - length SL)%nat with (S i) by lia.
Qed.

Lemma heap_inv_focus h b :
  heap_inv h → b ∈ chain h → ∃ SL SR lo hi pre post, heap_in SL SR lo hi (pre ++ b :: post) h.
Proof.
  intros (Hok & segs & Hc & Ht) Hb. rewrite Hc in Hb.
  apply list_elem_of_In, in_concat in Hb as (s & Hs & Hb). apply list_elem_of_In in Hs, Hb.
  apply list_elem_of_split in Hs as (SL & SR & ->), Hb as (pre & post & ->).
  destruct (Forall2_lookup_r _ _ _ (length SL) (pre ++ b :: post) Ht) as ([lo hi] & Hr & _).
  { by rewrite lookup_app_r, Nat.sub_diag by lia. }
  exists SL, SR, lo, hi, pre, post. split_and!; [done| |done..].
  by rewrite Hc, concat_app.
Qed.

(** Replacing blocks of a run keeps the rest of the invariant. *)
Lemma heap_in_chain SL SR lo hi seg seg' h m :
  heap_in SL SR lo hi seg h → chain_in lo seg' hi →
  heap_in SL SR lo hi seg' (Heap (concat SL ++ seg' ++ concat SR) (mapped h) m).
Proof.
  intros (?&_&Ht&Hr) Hc. split_and!; [done..| |done]. cbn in *. unfold tiles in *.
  apply Forall2_app_inv_r in Ht as (r1 & r2 & H1 & H2 & Heq).
  apply Forall2_cons_inv_r in H2 as (r & r2' & _ & H2 & ->). rewrite Heq in *.
  apply Forall2_app; [done|]. constructor; [|done].
  rewrite <- (Forall2_length _ _ _ H1), lookup_app_r, Nat.sub_diag in Hr by lia.
  by injection Hr as ->.
Qed.

(** The blocks other than the one in the middle are apart from it. *)
Lemma heap_in_around SL SR lo hi pre b post h c :
  heap_in SL SR lo hi (pre ++ b :: post) h →
  c ∈ concat SL ++ pre ∨ c ∈ post ++ concat SR →
  0 <= bsize c ∧ (block_end c <= addr b ∨ block_end b <= addr c).
Proof.
  intros Hh Hc. destruct (heap_in_run _ _ _ _ _ _ Hh) as (_&_&Hci&_&Hout).
  rewrite !elem_of_app in Hc.
  pose proof (chain_in_elem _ _ _ b Hci ltac:(set_solver)) as (?&?&?).
  assert (c ∈ concat SL ∨ c ∈ concat SR ∨ c ∈ pre ++ post) as [Hs|[Hs|Hs]]
    by (rewrite elem_of_app; tauto).
  - destruct (Hout c ltac:(auto)). split; [done|lia].
  - destruct (Hout c ltac:(auto)). split; [done|lia].
  - split; [|by eapply chain_in_around].
    eapply chain_in_elem; [exact Hci|]. rewrite elem_of_app, elem_of_cons.
    apply elem_of_app in Hs. tauto.
Qed.

Lemma heap_in_addr SL SR lo hi pre b post h c :
  heap_in SL SR lo hi (pre ++ b :: post) h →
  c ∈ concat SL ++ pre ∨ c ∈ post ++ concat SR → addr c ≠ addr b.
Proof.
  intros Hh Hc. destruct (heap_in_around _ _ _ _ _ _ _ _ _ Hh Hc) as [? Ha].
  destruct (heap_in_run _ _ _ _ _ _ Hh) as (_&_&Hci&_).
  pose proof (chain_in_elem _ _ _ b Hci ltac:(set_solver)).
  unfold block_end, HEADER_SIZE in *. lia.
Qed.

Lemma middle_app {A} (L pre mid post R : list A) :
  L ++ (pre ++ mid ++ post) ++ R = (L ++ pre) ++ mid ++ post ++ R.
Proof. by rewrite <- !app_assoc. Qed.

Lemma block_at_ok SL SR lo hi h pre b post :
  heap_in SL SR lo hi (pre ++ b :: post) h →
  block_at (addr b) h = (Ret (concat SL ++ pre, b, post ++ concat SR), h).
Proof.
  intros Hh. unfold block_at. run_prog. pose proof Hh as (_&->&_).
  rewrite (middle_app _ pre [b] post). cbn [app]. rewrite cut_at_first; [done|].
  intros c Hc. eapply heap_in_addr; [exact Hh|by left].
Qed.

Lemma write_header_ok SL SR lo hi seg h a :
  heap_in SL SR lo hi seg h → lo <= a → a + sizeof_header <= hi →
  write_header a h = (Ret (), Heap (chain h) (mapped h) (wipe a sizeof_header (mem h))).
Proof.
  intros (_&_&_&Hm&_)%heap_in_run ??. unfold write_header. run_prog.
  by rewrite (accessible_sub _ lo hi).
Qed.

(** Splicing: the blocks between [pre] and [post] may change inside their extent. *)
Lemma chain_in_splice lo hi pre b post mid :
  chain_in lo (pre ++ b :: post) hi → chain_in (addr b) mid (block_end b) →
  chain_in lo (pre ++ mid ++ post) hi.
Proof.
  intros (m1 & H1 & (?&?&?&?&H2))%chain_in_app Hm. apply chain_in_app.
  exists (addr b). split; [by eapply chain_in_weaken; [..|exact H1]; lia|].
  apply chain_in_app. exists (block_end b). done.
Qed.

Lemma heap_in_splice SL SR lo hi pre b post mid h m :
  heap_in SL SR lo hi (pre ++ b :: post) h → chain_in (addr b) mid (block_end b) →
  heap_in SL SR lo hi (pre ++ mid ++ post)
    (Heap ((concat SL ++ pre) ++ mid ++ post ++ concat SR) (mapped h) m).
Proof.
  intros Hh Hm. rewrite <- middle_app.
  eapply heap_in_chain; [exact Hh|]. destruct (heap_in_run _ _ _ _ _ _ Hh) as (_&_&Hc&_).
  by eapply chain_in_splice.
Qed.

Lemma chain_in_block lo hi pre b post :
  chain_in lo (pre ++ b :: post) hi →
  lo <= addr b ∧ 0 <= bsize b ∧ (16 | addr b) ∧ (16 | bsize b) ∧ block_end b <= hi.
Proof.
  intros (m1 & H1%chain_in_le & (?&?&?&?&H2%chain_in_le))%chain_in_app.
  unfold block_end. split_and!; lia || done.
Qed.

Lemma set_free_ok SL SR lo hi h pre b post f :
  heap_in SL SR lo hi (pre ++ b :: post) h →
  ∃ h', set_free (addr b) f h = (Ret (), h') ∧
    heap_in SL SR lo hi (pre ++ Block (addr b) (bsize b) f :: post) h' ∧
    mapped h' = mapped h ∧ mem h' = mem h.
Proof.
  intros Hh. unfold set_free. run_prog. rewrite (block_at_ok _ _ _ _ _ _ _ _ Hh). cbn.
  eexists. split; [done|]. split; [|done].
  apply (heap_in_splice SL SR lo hi pre b post [Block (addr b) (bsize b) f] h _ Hh).
  destruct (heap_in_run _ _ _ _ _ _ Hh) as (_&_&Hc&_).
  apply chain_in_block in Hc as (?&?&?&?&?). unfold block_end. simpl. split_and!; done || lia.
Qed.

Lemma split_block_ok SL SR lo hi h pre b post needed :
  heap_in SL SR lo hi (pre ++ b :: post) h → 0 <= needed <= bsize b → (16 | needed) →
  ∃ h' s rest, split_block (addr b) needed h = (Ret (), h') ∧
    heap_in SL SR lo hi (pre ++ Block (addr b) s (is_free b) :: rest ++ post) h' ∧
    mapped h' = mapped h ∧ needed <= s <= bsize b ∧
    (∀ c, c ∈ rest → rest = [c] ∧ addr b < addr c < block_end b ∧ block_end c <= block_end b) ∧
    ∀ x, ¬ (addr b + HEADER_SIZE + needed <= x < block_end b) → mem h' !! x = mem h !! x.
Proof.
  intros Hh Hn Hdiv. destruct (heap_in_run _ _ _ _ _ _ Hh) as (Hlo&Hhi&Hc&_).
  unfold split_block. run_prog.
  rewrite (block_at_ok _ _ _ _ _ _ _ _ Hh). cbn -[HEADER_SIZE ALIGNMENT wrap64].
  pose proof (chain_in_block _ _ _ _ _ Hc) as (?&?&?&?&?).
  unfold block_end, HEADER_SIZE, ALIGNMENT in *.
  rewrite wrap64_small by lia. destruct (Z.ltb_spec (32 + 16) (bsize b - needed)).
  - rewrite (write_header_ok _ _ _ _ _ _ _ Hh) by (unfold sizeof_header; lia).
    rewrite wrap64_small by lia. cbn. eexists _, needed, [_]. split; [done|].
    split_and!; [|done|lia|lia| |].
    + apply (heap_in_splice SL SR lo hi pre b post [_; _] h _ Hh).
      unfold block_end, HEADER_SIZE. simpl.
      split_and!; [lia|lia|done|done|unfold HEADER_SIZE; lia|lia| | |unfold HEADER_SIZE; lia].
      * apply Z.divide_add_r; [|done]. apply Z.divide_add_r; [done|by exists 2].
      * apply Z.divide_sub_r; [by apply Z.divide_sub_r|by exists 2].
    + intros c ->%list_elem_of_singleton. cbn. split; [done|lia].
    + intros x Hx. cbn. rewrite lookup_wipe, bool_decide_eq_false_2; [done|].
      unfold sizeof_header. lia.
  - eexists h, (bsize b), []. split; [done|].
    split_and!; [by destruct b|done|lia|lia|by intros c ?%elem_of_nil|done].
Qed.

Lemma find_free_block_spec size bs p :
  find_free_block size bs = Some p →
  ∃ pre b post, bs = pre ++ b :: post ∧ addr b = p ∧ is_free b = true ∧ size <= bsize b.
Proof.
  induction bs as [|b bs IH]; simpl; [done|].
  destruct (is_free b && (size <=? bsize b)) eqn:E.
  - intros [= <-]. zbool. by exists [], b, bs.
  - intros (pre & c & post & -> & ?)%IH. by exists (b :: pre), c, post.
Qed.

Lemma mapping_size_spec size :
  0 < size <= 2 ^ 62 →
  HEADER_SIZE + ALIGN_UP size ALIGNMENT <= mapping_size size <= size + 8192 ∧
  (16 | mapping_size size).
Proof.
  intros Hs. unfold mapping_size. pose proof (align16_spec size ltac:(lia)) as [? _].
  unfold HEADER_SIZE in *. rewrite wrap64_small by lia.
  pose proof (align_page_spec (32 + ALIGN_UP size ALIGNMENT) ltac:(lia)) as [??].
  split; [lia|done].
Qed.

(** A new region is one free block that is large enough, at the end of the chain. *)
Lemma init_new_region_ok h size a :
  heap_inv h → 0 < size <= 2 ^ 62 → mmap_gives (mapped h) (mapping_size size) (Some a) →
  ∃ h' SL lo hi pre s, init_new_region (Some a) (ALIGN_UP size ALIGNMENT) h = (Ret (Some a), h') ∧
    heap_in SL [] lo hi (pre ++ [Block a s true]) h' ∧ concat SL ++ pre = chain h ∧
    mapped h' = mapped h ++ [(a, mapping_size size)] ∧
    ALIGN_UP size ALIGNMENT <= s ∧ ∀ b, b ∈ chain h → kept h h' b.
Proof.
  intros Hinv Hs Hos. destruct (Hos a eq_refl) as (Ha & [qa Hdiv] & Hroom & Hfresh).
  pose proof (mapping_size_spec size Hs) as [Hsz Hsdiv].
  unfold init_new_region. fold (mapping_size size). cbn [request_os_mem]. run_prog.
  set (T := mapping_size size) in *. set (S := ALIGN_UP size ALIGNMENT) in *.
  pose proof (align16_spec size ltac:(lia)) as [? _]. unfold HEADER_SIZE in Hsz.
  pose proof Hinv as (Hok & segs & Hch & Ht).
  pose proof (runs_ok_snoc _ a T Hok ltac:(lia) Hos) as Hok'.
  set (h1 := Heap (chain h) (mapped h ++ [(a, T)]) (mem h)).
  assert (∃ SL lo pre, heap_in SL [] lo (a + T) pre h1 ∧ lo <= a ∧ chain_in lo pre a)
    as (SL & lo & pre & Hh1 & Hlo & Hca).
  { destruct (runs_snoc_cases (mapped h) a T) as [E|(acc & lo & E & E')].
    - exists segs, a, []. split; [|cbn; lia]. unfold heap_in, tiles. cbn [mapped chain h1].
      rewrite E, Hch. split_and!; [done|by rewrite app_nil_r| |].
      + apply Forall2_app; [done|]. constructor; [cbn; lia|constructor].
      + rewrite <- (Forall2_length _ _ _ Ht), lookup_app_r, Nat.sub_diag by lia. done.
    - unfold tiles in Ht. rewrite E in Ht.
      apply Forall2_app_inv_l in Ht as (SL & l2 & H1 & H2 & ->).
      apply Forall2_cons_inv_l in H2 as (pre & l3 & Hpre & ->%Forall2_nil_inv_l & ->).
      cbn in Hpre. pose proof (chain_in_le _ _ _ Hpre).
      exists SL, lo, pre. split; [|done]. unfold heap_in, tiles. cbn [mapped chain h1].
      rewrite E', Hch. split_and!; [done|by rewrite concat_app| |].
      + apply Forall2_app; [done|]. constructor; [|constructor].
        eapply chain_in_weaken; [..|exact Hpre]; cbn; lia.
      + rewrite <- (Forall2_length _ _ _ H1), lookup_app_r, Nat.sub_diag by lia. done. }
  assert (concat SL ++ pre = chain h) as Hpre.
  { destruct Hh1 as (_&Hc&_). cbn in Hc. by rewrite app_nil_r in Hc. }
  rewrite (write_header_ok _ _ _ _ _ _ _ Hh1) by (unfold sizeof_header, HEADER_SIZE in *; lia).
  cbn -[wrap64 HEADER_SIZE]. rewrite (wrap64_small (T - HEADER_SIZE)) by (unfold HEADER_SIZE; lia).
  eexists _, SL, lo, (a + T), pre, (T - HEADER_SIZE). split; [done|].
  split; [|split; [done|split; [done|split; [unfold HEADER_SIZE; lia|]]]].
  - assert (∀ x, chain h ++ [x] = concat SL ++ (pre ++ [x]) ++ concat []) as ->
      by (intros x; rewrite <- Hpre; simpl; by rewrite app_nil_r, app_assoc).
    apply (heap_in_chain _ [] _ _ _ _ h1 _ Hh1). apply chain_in_app. exists a. split; [done|].
    unfold HEADER_SIZE. simpl. split_and!; [lia|lia|exists (qa * 256); unfold MMAP_THRESHOLED in *; lia| |unfold HEADER_SIZE; lia].
    apply Z.divide_sub_r; [done|by exists 2].
  - intros b Hb. split; [set_solver|]. intros x Hx. cbn.
    destruct (heap_inv_focus h b Hinv Hb) as (SL' & SR' & lo' & hi' & pre' & post' & Hf).
    destruct (heap_in_run _ _ _ _ _ _ Hf) as (_&_&Hc'&Hm'&_).
    pose proof (chain_in_block _ _ _ _ _ Hc') as (?&_&_&_&?).
    rewrite lookup_wipe, bool_decide_eq_false_2; [done|]. intros Hw.
    pose proof (Hm' x ltac:(lia)). rewrite Hfresh in *; [done|].
    unfold sizeof_header, HEADER_SIZE in *. lia.
Qed.

(** [p] is the payload of a new used block; the used blocks are where they were. *)
Definition obtained (h h' : heap) (p size : Z) : Prop :=
  ∃ b, b ∈ chain h' ∧ p = addr b + HEADER_SIZE ∧ is_free b = false ∧ size <= bsize b ∧
    (16 | addr b) ∧ ∀ c, c ∈ chain h → is_free c = false → kept h h' c ∧ apart b c.

Lemma kept_block_trans h1 h2 h3 b : kept h1 h2 b → kept h2 h3 b → kept h1 h3 b.
Proof. intros [_ H1] [? H2]. split; [done|]. intros x Hx. by rewrite H2, H1. Qed.

(** A used block is not the free one in the middle. *)
Lemma used_elsewhere (L pre post R : list BlockHeader) b c :
  c ∈ L ++ (pre ++ b :: post) ++ R → c ≠ b → c ∈ L ++ pre ∨ c ∈ post ++ R.
Proof. rewrite !elem_of_app, elem_of_cons. tauto. Qed.

(** Taking a free block, or its front, adds no pair of free neighbours. *)
Lemma joins_take rs pre b x rest post :
  is_free b = true → is_free x = false →
  (∀ c, c ∈ rest → rest = [c] ∧ addr b <= addr c ∧ block_end c <= block_end b) →
  joins_in rs pre = false → joins_in rs (b :: post) = false →
  joins_in rs (pre ++ x :: rest ++ post) = false.
Proof.
  intros Hb Hx Hrest Hpre Hpost. apply joins_in_app. split; [done|]. split.
  - assert (joins_in rs (rest ++ post) = false) as Hrp.
    { apply (joins_in_app rs [b] post) in Hpost as (_&Hp&Hb').
      apply joins_in_app. split; [|split; [done|]].
      - destruct rest as [|r rest]; [done|]. by destruct (Hrest r ltac:(by left)) as [-> _].
      - intros r c Hr Hc. destruct rest as [|r' rest]; [done|].
        destruct (Hrest r' ltac:(by left)) as ([= ->] & Ha & He). injection Hr as <-.
        specialize (Hb' b c eq_refl Hc). unfold apart_free in *. rewrite Hb in Hb'. simpl in Hb'.
        destruct (is_free c); [|by rewrite andb_false_r]. simpl in Hb'.
        apply negb_false_iff in Hb'. rewrite andb_true_r.
        replace (together rs r' c) with true; [by rewrite andb_false_r|]. symmetry.
        unfold together in *. apply existsb_exists in Hb' as (q & ? & Hq).
        apply existsb_exists. exists q. split; [done|]. unfold within in *. zbool.
        repeat (apply andb_true_iff; split); lia. }
    apply (joins_in_app rs [x] (rest ++ post)). split; [done|]. split; [done|].
    intros u v [= <-] _. unfold apart_free. by rewrite Hx.
  - intros u v _ [= <-]. unfold apart_free. by rewrite Hx, andb_false_r.
Qed.

Lemma free_at_app q s t : free_at q (s ++ t) = free_at q s ++ free_at q t.
Proof. apply fmap_app. Qed.

Lemma free_at_other q bs : (∀ b, b ∈ bs → addr b ≠ q) → free_at q bs = bs.
Proof.
  intros Hne. unfold free_at. rewrite <- (list_fmap_id bs) at 2. apply list_fmap_ext.
  intros i b Hi. destruct (Z.eqb_spec (addr b) q) as [E|]; [|done].
  by destruct (Hne b ltac:(by eapply list_elem_of_lookup_2)).
Qed.

Lemma take_block_ok SL SR lo hi h pre b post size :
  heap_in SL SR lo hi (pre ++ b :: post) h → is_free b = true →
  0 <= size <= bsize b → (16 | size) →
  ∃ h', (_ ← set_free (addr b) false; _ ← split_block (addr b) size;
         mret (Some (addr b + HEADER_SIZE))) h
        = (Ret (Some (addr b + HEADER_SIZE)), h') ∧
    heap_inv h' ∧ mapped h' = mapped h ∧ obtained h h' (addr b + HEADER_SIZE) size ∧
    ∀ c, c ∈ chain h → is_free c = false →
      joins_in (mapped h) (free_at (addr c) (concat SL ++ pre)) = false →
      joins_in (mapped h) (b :: free_at (addr c) (post ++ concat SR)) = false →
      joins_at (addr c) h' = false.
Proof.
  intros Hh Hfree Hsz Hdiv.
  destruct (set_free_ok _ _ _ _ h pre b post false Hh) as (h1 & E1 & Hh1 & Hm1 & Hmem1).
  destruct (split_block_ok _ _ _ _ h1 pre _ post size Hh1 Hsz Hdiv)
    as (h2 & s & rest & E2 & Hh2 & Hm2 & Hs & Hrest & Hmem2).
  cbn [addr bsize is_free] in *. exists h2. rewrite Hm2, Hm1.
  pose proof Hh as (_&Hc&_). pose proof Hh2 as (_&Hc2&_).
  assert (∀ c, c ∈ chain h → is_free c = false → c ∈ concat SL ++ pre ∨ c ∈ post ++ concat SR)
    as Helse.
  { intros c Hin Hused. rewrite Hc in Hin. eapply used_elsewhere; [exact Hin|congruence]. }
  split_and!; [|by eapply heap_in_inv|done| |].
  - run_prog. rewrite E1. cbn. rewrite E2. done.
  - destruct (heap_in_run _ _ _ _ _ _ Hh) as (_&_&Hci&_).
    exists (Block (addr b) s false). rewrite Hc2.
    split_and!; [set_solver|done|done|cbn; lia|by apply chain_in_block in Hci as (?&?&?&?)|].
    intros c Hin Hused. specialize (Helse c Hin Hused).
    destruct (heap_in_around _ _ _ _ _ _ _ _ _ Hh Helse) as [? Hapart]. split; [split|].
    + rewrite Hc2, !elem_of_app, elem_of_cons, elem_of_app.
      rewrite !elem_of_app in Helse. tauto.
    + intros x Hx. rewrite Hmem2, Hmem1; [done|]. unfold block_end, HEADER_SIZE in *. simpl. lia.
    + unfold apart, block_end in *. simpl. lia.
  - intros c Hin Hused Hl Hr. specialize (Helse c Hin Hused).
    destruct (heap_in_around _ _ _ _ _ _ _ _ _ Hh Helse) as [? Hapart].
    pose proof (heap_in_addr _ _ _ _ _ _ _ _ _ Hh Helse) as Hne.
    unfold joins_at. rewrite Hm2, Hm1, Hc2,
      (middle_app _ pre (Block (addr b) s false :: rest) post).
    rewrite !free_at_app, (free_at_other _ (_ :: rest)).
    + cbn [app]. rewrite free_at_app in Hl, Hr. apply (joins_take _ _ b); try done.
      intros d Hd. destruct (Hrest d Hd) as (?&?&?). unfold block_end in *. simpl in *.
      split_and!; [done|lia..].
    + intros d [->|Hd]%elem_of_cons; [done|]. destruct (Hrest d Hd) as (_&?&?).
      unfold block_end, HEADER_SIZE in *. simpl in *. lia.
Qed.

(** malloc: fails only when the system gives no memory, and then changes nothing. *)
Lemma my_malloc_ok h size os :
  heap_inv h → 0 < size <= 2 ^ 62 → mmap_gives (mapped h) (mapping_size size) os →
  (os = None ∧ my_malloc os size h = (Ret None, h)) ∨
  ∃ p h', my_malloc os size h = (Ret (Some p), h') ∧
    heap_inv h' ∧ obtained h h' p (ALIGN_UP size ALIGNMENT) ∧
    ∀ c, c ∈ chain h → is_free c = false → joins_at (addr c) h = false →
      joins_at (addr c) h' = false.
Proof.
  intros Hinv Hs Hos. unfold my_malloc. destruct (Z.eqb_spec size 0); [lia|]. run_prog.
  pose proof (align16_spec size ltac:(lia)) as [Hal Hdiv].
  destruct (find_free_block (ALIGN_UP size ALIGNMENT) (chain h)) as [p|] eqn:Hfind.
  - right. apply find_free_block_spec in Hfind as (pr & b & po & Heq & <- & Hfree & Hb).
    destruct (heap_inv_focus h b Hinv) as (SL & SR & lo & hi & pre & post & Hh);
      [rewrite Heq; set_solver|].
    destruct (take_block_ok _ _ _ _ h pre b post (ALIGN_UP size ALIGNMENT) Hh)
      as (h' & E & ? & Hm' & ? & Hj); [done|lia|done|].
    exists (addr b + HEADER_SIZE), h'. split; [exact E|]. split_and!; [done..|].
    intros c Hc Hu Hjoin. pose proof Hh as (_&Hch&_).
    unfold joins_at in Hjoin. rewrite Hch, (middle_app _ pre [b] post), free_at_app in Hjoin.
    apply joins_in_app in Hjoin as (Hj1 & Hj2 & _). apply (Hj c Hc Hu); [done|].
    rewrite free_at_app, (free_at_other _ [b]) in Hj2; [done|].
    intros d ->%list_elem_of_singleton. rewrite Hch in Hc.
    eapply used_elsewhere in Hc as Hc'; [|congruence].
    intros E'. by destruct (heap_in_addr _ _ _ _ _ _ _ _ _ Hh Hc').
  - destruct os as [a|]; [right|by left].
    destruct (init_new_region_ok h size a Hinv Hs Hos)
      as (h1 & SL & lo & hi & pre & s & E1 & Hh1 & Hpre & Hm1 & Hsz & Hk).
    rewrite E1.
    destruct (take_block_ok _ _ _ _ h1 pre (Block a s true) [] (ALIGN_UP size ALIGNMENT) Hh1)
      as (h' & E & Hh' & Hm' & (b & ?&?&?&?&?&Hold) & Hj); [done|cbn; lia|done|]. cbn [addr] in *.
    exists (a + HEADER_SIZE), h'. split; [exact E|]. split_and!; [done| |].
    + exists b. split_and!; [done..|]. intros c Hin Hused. pose proof (Hk c Hin) as Hkc.
      destruct (Hold c (proj1 Hkc) Hused). split; [by eapply kept_block_trans|done].
    + intros c Hin Hused Hjoin. apply (Hj c); [by apply Hk|done| |done].
      rewrite Hpre, Hm1. apply joins_in_snoc; [|done].
      pose proof (mapping_size_spec size Hs). unfold HEADER_SIZE in *. lia.
Qed.

(** Merging stays inside the runs when no run ends with a free block while the next
    one begins with a free block. *)
Lemma coalesce_app s t :
  (∀ b c, last s = Some b → head t = Some c → is_free b && is_free c = false) →
  coalesce (s ++ t) = coalesce s ++ coalesce t.
Proof.
  destruct s as [|b s]; [done|]. cbn [coalesce app].
  revert b. induction s as [|d s IH]; intros b Hb; cbn [app].
  - destruct t as [|c t]; [done|]. cbn. by rewrite (Hb b c).
  - cbn [coalesce_from]. destruct (is_free b && is_free d) eqn:E.
    + apply IH. intros u v Hu Hv. destruct s as [|e s].
      * injection Hu as <-. apply andb_true_iff in E as [_ E]. cbn.
        pose proof (Hb d v eq_refl Hv). by rewrite E in *.
      * by apply Hb.
    + cbn [app]. f_equal. apply IH. intros u v Hu Hv. by apply Hb.
Qed.

Lemma together_same_run rs segs i j b c :
  runs_ok rs → tiles rs segs → i ≠ j → b ∈ default [] (segs !! i) → c ∈ default [] (segs !! j) →
  together rs b c = false.
Proof.
  intros [Hin Hdis] Ht Hne Hb Hc. apply not_true_is_false. unfold together.
  rewrite existsb_exists. intros (r & Hr & Hw). apply list_elem_of_In in Hr.
  apply list_elem_of_lookup in Hr as [k Hk].
  assert (∀ i d, d ∈ default [] (segs !! i) → within r d = true → k = i) as Hsame.
  { intros i' d Hd Hwd. destruct (segs !! i') as [s|] eqn:Hi; [|by apply elem_of_nil in Hd].
    destruct (Forall2_lookup_r _ _ _ _ _ Ht Hi) as ([lo hi] & Hri & Hs).
    pose proof (chain_in_elem _ _ _ _ Hs Hd) as (?&?&?). cbn in *.
    destruct (decide (k = i')) as [|Hki]; [done|]. exfalso.
    unfold within in Hwd. zbool. pose proof (Hdis _ _ _ _ Hki Hk Hri) as Hd'.
    cbn in Hd'. unfold block_end, HEADER_SIZE in *. lia. }
  apply andb_true_iff in Hw as [Hwb Hwc]. apply Hne.
  by rewrite <- (Hsame i b), <- (Hsame j c).
Qed.

Lemma coalesce_concat rs segs :
  (∀ i j b c, i ≠ j → b ∈ default [] (segs !! i) → c ∈ default [] (segs !! j) →
     together rs b c = false) →
  joins_in rs (concat segs) = false → coalesce (concat segs) = concat (coalesce <$> segs).
Proof.
  induction segs as [|s segs IH]; intros Hapart Hj; [done|]. cbn in *.
  apply joins_in_app in Hj as (_ & Hj & Hb). rewrite coalesce_app; [f_equal|].
  - apply IH; [|done]. intros i j b c Hij. apply (Hapart (S i) (S j)). lia.
  - intros b c Hl Hh. specialize (Hb b c Hl Hh). unfold apart_free in Hb.
    destruct (is_free b && is_free c); [|done]. cbn in Hb. apply negb_false_iff in Hb.
    apply last_Some_elem_of in Hl. apply head_Some_elem_of in Hh.
    apply list_elem_of_In, in_concat in Hh as (t & Ht & Hc).
    apply list_elem_of_In in Ht, Hc. apply list_elem_of_lookup in Ht as [k Hk].
    rewrite (Hapart 0%nat (S k) b c) in Hb; [done|done|done|].
    change (c ∈ default [] (segs !! k)). by rewrite Hk.
Qed.

Lemma heap_inv_coalesce h :
  heap_inv h → joins_in (mapped h) (chain h) = false →
  heap_inv (Heap (coalesce (chain h)) (mapped h) (mem h)).
Proof.
  intros (Hok & segs & Hc & Ht) Hj. split; [done|]. exists (coalesce <$> segs). cbn. rewrite Hc in *.
  split.
  - eapply coalesce_concat; [|done]. intros. by eapply together_same_run.
  - apply Forall2_fmap_r, Forall2_same_length_lookup_2; [exact (Forall2_length _ _ _ Ht)|].
    intros i [lo hi] s Hi Hs. destruct Hok as [Hin _]. destruct (Hin _ _ _ Hi) as (?&?&_).
    apply coalesce_chain; [|simpl; lia..]. exact (Forall2_lookup_lr _ _ _ _ _ _ Ht Hi Hs).
Qed.

Lemma free_at_middle SL SR lo hi pre b post h :
  heap_in SL SR lo hi (pre ++ b :: post) h →
  free_at (addr b) (chain h) =
    (concat SL ++ pre) ++ Block (addr b) (bsize b) true :: post ++ concat SR.
Proof.
  intros Hh. pose proof Hh as (_&->&_). rewrite (middle_app _ pre [b] post), !free_at_app.
  rewrite <- (free_at_app _ _ pre), <- (free_at_app _ post),
    (free_at_other _ (concat SL ++ pre)), (free_at_other _ (post ++ concat SR)).
  - cbn. by rewrite Z.eqb_refl.
  - intros c Hc. eapply heap_in_addr; [exact Hh|by right].
  - intros c Hc. eapply heap_in_addr; [exact Hh|by left].
Qed.

(** free: the block is released and free neighbours are merged. *)
Lemma my_free_ok h b :
  heap_inv h → b ∈ chain h → joins_at (addr b) h = false →
  ∃ h', my_free (Some (addr b + HEADER_SIZE)) h = (Ret (), h') ∧ heap_inv h' ∧
    mapped h' = mapped h ∧ mem h' = mem h ∧ merged (chain h') = true ∧
    ∀ c, c ∈ chain h → addr c ≠ addr b → is_free c = false → c ∈ chain h'.
Proof.
  intros Hinv Hb Hj. destruct (heap_inv_focus h b Hinv Hb) as (SL & SR & lo & hi & pre & post & Hh).
  unfold my_free. run_prog. replace (addr b + HEADER_SIZE - HEADER_SIZE) with (addr b) by lia.
  destruct (set_free_ok _ _ _ _ h pre b post true Hh) as (h1 & -> & Hh1 & Hm1 & Hmem1).
  unfold joins_at in Hj. rewrite (free_at_middle _ _ _ _ _ _ _ _ Hh) in Hj.
  pose proof Hh1 as (_&Hc1&_). rewrite (middle_app _ pre [Block (addr b) (bsize b) true] post) in Hc1.
  cbn [app] in Hc1.
  rewrite <- Hc1, <- Hm1 in Hj.
  cbn. eexists. split; [done|]. cbn. split_and!; [|done|done| |].
  - apply heap_inv_coalesce; [by eapply heap_in_inv|done].
  - destruct (chain h1); [done|]. apply coalesce_from_merged.
  - intros c Hin Hne Hused. apply coalesce_keeps; [|done]. pose proof Hh as (_&Hc&_).
    rewrite Hc in Hin. eapply used_elsewhere in Hin; [|congruence]. rewrite Hc1, elem_of_app, elem_of_cons.
    tauto.
Qed.

(** Block [b] became a block at [q] of at least [size] bytes with the same
    contents; the other used blocks are where they were. *)
Definition resized (h h' : heap) (b : BlockHeader) (q size : Z) : Prop :=
  ∃ b', b' ∈ chain h' ∧ q = addr b' + HEADER_SIZE ∧ is_free b' = false ∧ size <= bsize b' ∧
    (16 | addr b') ∧
    (∀ i, 0 <= i < bsize b → i < size → mem h' !! (q + i) = mem h !! (addr b + HEADER_SIZE + i)) ∧
    ∀ c, c ∈ chain h → is_free c = false → addr c ≠ addr b → kept h h' c ∧ apart b' c.

Lemma split_live_ok SL SR lo hi pre b post h size :
  heap_in SL SR lo hi (pre ++ b :: post) h → is_free b = false → 0 <= size <= bsize b → (16 | size) →
  ∃ h', split_block (addr b) size h = (Ret (), h') ∧ heap_inv h' ∧
    resized h h' b (addr b + HEADER_SIZE) size.
Proof.
  intros Hh Hused Hsz Hdiv.
  destruct (split_block_ok _ _ _ _ h pre b post size Hh Hsz Hdiv)
    as (h' & s & rest & E & Hh' & Hm & Hs & Hrest & Hmem).
  exists h'. split_and!; [done|by eapply heap_in_inv|].
  destruct (heap_in_run _ _ _ _ _ _ Hh) as (_&_&Hc&_). pose proof Hh' as (_&Hc'&_).
  exists (Block (addr b) s (is_free b)). rewrite Hc'.
  split_and!; [set_solver|done|done|cbn; lia|by apply chain_in_block in Hc as (?&?&?&?)| |].
  - intros i Hi Hi'. rewrite Hmem; [done|]. lia.
  - intros c Hin Hcu Hne. pose proof Hh as (_&Hch&_). rewrite Hch in Hin.
    eapply used_elsewhere in Hin; [|congruence].
    destruct (heap_in_around _ _ _ _ _ _ _ _ _ Hh Hin) as [? Hap]. split; [split|].
    + rewrite Hc', !elem_of_app, elem_of_cons, elem_of_app. rewrite !elem_of_app in Hin. tauto.
    + intros x Hx. rewrite Hmem; [done|]. unfold block_end, HEADER_SIZE in *. lia.
    + unfold apart, block_end in *. simpl. lia.
Qed.

(** What the used blocks see when [b] and its free successor are replaced by
    [Block (addr b) size] and perhaps a remainder. *)
Lemma grown_resized SL SR lo hi h h' pre b next post size rest :
  heap_in SL SR lo hi (pre ++ b :: next :: post) h → is_free b = false →
  is_free next = true → bsize b <= size → addr b + HEADER_SIZE + size <= block_end next →
  chain h' = concat SL ++ (pre ++ Block (addr b) size (is_free b) :: rest ++ post) ++ concat SR →
  (∀ x, ¬ (block_end b <= x < block_end next) → mem h' !! x = mem h !! x) →
  resized h h' b (addr b + HEADER_SIZE) size.
Proof.
  intros Hh Hused Hfree Hsz Hfit Hc' Hmem.
  destruct (heap_in_run _ _ _ _ _ _ Hh) as (_&_&Hc&_).
  set (whole := Block (addr b) (block_end next - addr b - HEADER_SIZE) false).
  assert (heap_in SL SR lo hi (pre ++ whole :: post)
            (Heap (concat SL ++ (pre ++ whole :: post) ++ concat SR) (mapped h) (mem h))) as Hwhole.
  { eapply heap_in_chain; [exact Hh|]. apply chain_in_app in Hc as (m1 & H1 & ?&?&?&?&Hc).
    destruct Hc as (?&?&?&?&Hlast). apply chain_in_app. exists m1. split; [done|].
    unfold whole, block_end. simpl. unfold HEADER_SIZE in *. split_and!; [done|lia|done| |].
    - replace (_ - _ - _) with (addr next + bsize next - addr b) by lia.
      apply Z.divide_sub_r; [by apply Z.divide_add_r|done].
    - eapply chain_in_weaken; [..|exact Hlast]; lia. }
  exists (Block (addr b) size (is_free b)). rewrite Hc'.
  split_and!; [set_solver|done|done|cbn; lia|by apply chain_in_block in Hc as (?&?&?&?)| |].
  - intros i Hi _. apply Hmem. unfold block_end in *. lia.
  - intros c Hin Hcu Hne. pose proof Hh as (_&Hch&_). rewrite Hch in Hin.
    assert (c ∈ concat SL ++ pre ∨ c ∈ post ++ concat SR) as Hcin.
    { eapply used_elsewhere in Hin as [?|?]; [by left| |congruence]. right.
      cbn in *. destruct (proj1 (elem_of_cons _ _ _) H) as [->|]; [congruence|done]. }
    destruct (heap_in_around _ _ _ _ pre whole post _ c Hwhole Hcin) as [? Hap].
    unfold whole, block_end in Hap. cbn in Hap.
    pose proof (chain_in_elem _ _ _ b Hc ltac:(set_solver)) as (?&?&?).
    split; [split|].
    + rewrite Hc', !elem_of_app, elem_of_cons, elem_of_app. rewrite !elem_of_app in Hcin. tauto.
    + intros x Hx. apply Hmem. unfold block_end, HEADER_SIZE in *. lia.
    + unfold apart, block_end in *. simpl. lia.
Qed.

(** The successor of [b] lies in the same run when freeing [b] would not join two. *)
Lemma successor_in_run SL SR lo hi pre b post h next post' :
  heap_in SL SR lo hi (pre ++ b :: post) h → joins_at (addr b) h = false →
  post ++ concat SR = next :: post' → is_free next = true →
  ∃ post1, post = next :: post1 ∧ post' = post1 ++ concat SR.
Proof.
  intros Hh Hj Heq Hfree. destruct post as [|n post1]; [|naive_solver]. exfalso.
  unfold joins_at in Hj. rewrite (free_at_middle _ _ _ _ _ _ _ _ Hh) in Hj.
  cbn [app] in *. rewrite Heq in Hj. apply joins_in_app in Hj as (_&Hj&_).
  apply (joins_in_app _ [_] (next :: post')) in Hj as (_&_&Hj).
  specialize (Hj _ next eq_refl eq_refl). unfold apart_free in Hj. cbn in Hj.
  rewrite Hfree in Hj. cbn in Hj. apply negb_false_iff in Hj.
  destruct Hh as (Hok&_&Ht&_).
  assert (next ∈ concat SR) as Hn by (rewrite Heq; by left).
  apply list_elem_of_In, in_concat in Hn as (s & Hs & Hn). apply list_elem_of_In in Hs, Hn.
  apply list_elem_of_lookup in Hs as [k Hk].
  assert (together (mapped h) b next = false) as Hb.
  { apply (together_same_run _ _ (length SL) (length SL + S k) _ _ Hok Ht); [lia| |];
      rewrite lookup_app_r by lia.
    - rewrite Nat.sub_diag. cbn. set_solver.
    - replace (length SL + S k - length SL)%nat with (S k) by lia. cbn.
      change (next ∈ default [] (SR !! k)). by rewrite Hk. }
  unfold together, within, block_end in *. cbn in Hj. by rewrite Hj in Hb.
Qed.

Lemma grow_in_place_ok SL SR lo hi pre b post h size :
  heap_in SL SR lo hi (pre ++ b :: post) h → joins_at (addr b) h = false →
  is_free b = false → bsize b < size → (16 | size) →
  grow_in_place (addr b) size h = (Ret None, h) ∨
  ∃ h', grow_in_place (addr b) size h = (Ret (Some ()), h') ∧ heap_inv h' ∧
    resized h h' b (addr b + HEADER_SIZE) size.
Proof.
  intros Hh Hj Hused Hsz Hdiv. destruct (heap_in_run _ _ _ _ _ _ Hh) as (Hlo&Hhi&Hc&_).
  unfold grow_in_place. run_prog.
  rewrite (block_at_ok _ _ _ _ _ _ _ _ Hh). cbn -[HEADER_SIZE ALIGNMENT wrap64].
  destruct (post ++ concat SR) as [|next tl] eqn:Htl; [by left|].
  destruct (is_free next) eqn:Hfree; [|by left].
  destruct (successor_in_run _ _ _ _ _ _ _ _ _ _ Hh Hj Htl Hfree) as (post1 & -> & ->). clear Htl.
  pose proof (proj1 (chain_in_app _ _ _ _) Hc) as (m1 & H1 & H2).
  destruct H2 as (?&?&?&?&H2). destruct H2 as (?&?&?&?&H2).
  pose proof (chain_in_le _ _ _ H1). pose proof (chain_in_le _ _ _ H2).
  unfold HEADER_SIZE, ALIGNMENT in *.
  rewrite (wrap64_small (bsize b + 32 + bsize next)) by lia.
  destruct (Z.leb_spec size (bsize b + 32 + bsize next)); [right|by left].
  rewrite wrap64_small by lia.
  assert (∀ rest m, chain_in (addr b + 32 + size) rest (addr next + 32 + bsize next) →
    let h' := Heap ((concat SL ++ pre) ++ Block (addr b) size (is_free b) ::
                      rest ++ post1 ++ concat SR) (mapped h) m in
    (∀ x, ¬ (block_end b <= x < block_end next) → mem h' !! x = mem h !! x) →
    heap_inv h' ∧ resized h h' b (addr b + HEADER_SIZE) size) as Hgrown.
  { intros rest m Hrest h' Hmem.
    assert (chain h' = concat SL ++ (pre ++ Block (addr b) size (is_free b) :: rest ++ post1) ++ concat SR)
      as Hch by (unfold h'; cbn; by rewrite <- !app_assoc, <- app_comm_cons, <- app_assoc).
    split.
    - eapply (heap_in_inv SL SR lo hi). unfold h' in *. cbn in Hch. rewrite Hch.
      eapply heap_in_chain; [exact Hh|]. apply chain_in_app. exists m1. split; [done|].
      simpl. unfold HEADER_SIZE. split_and!; [lia|lia|done|done|].
      apply chain_in_app. eexists. split; [exact Hrest|exact H2].
    - eapply (grown_resized _ _ _ _ _ _ pre b next post1 size rest Hh); try done; [lia|].
      unfold block_end, HEADER_SIZE. lia. }
  destruct (Z.ltb_spec (32 + 16) (bsize b + 32 + bsize next - size)).
  - rewrite (write_header_ok _ _ _ _ _ _ _ Hh) by (unfold sizeof_header; lia).
    rewrite wrap64_small by lia. cbn. eexists. split; [done|]. apply (Hgrown [_]).
    + simpl. unfold HEADER_SIZE. split_and!; [lia|lia| | |lia].
      * apply Z.divide_add_r; [|done]. apply Z.divide_add_r; [done|by exists 2].
      * repeat first [apply Z.divide_sub_r|apply Z.divide_add_r|done|by exists 2].
    + intros x Hx. cbn. rewrite lookup_wipe, bool_decide_eq_false_2; [done|].
      unfold sizeof_header, block_end, HEADER_SIZE in *. lia.
  - cbn. eexists. split; [done|]. apply (Hgrown []); [simpl; lia|done].
Qed.

Lemma align16_idem size :
  0 <= size <= 2 ^ 61 → ALIGN_UP (ALIGN_UP size ALIGNMENT) ALIGNMENT = ALIGN_UP size ALIGNMENT.
Proof.
  intros ?. pose proof (align16_spec size ltac:(lia)) as [? [q1 ?]].
  pose proof (align16_spec (ALIGN_UP size ALIGNMENT) ltac:(lia)) as [? [q2 ?]]. lia.
Qed.

(** A block of the chain lies in mapped memory. *)
Lemma block_mapped h b x :
  heap_inv h → b ∈ chain h → addr b <= x < block_end b → mapped_byte (mapped h) x = true.
Proof.
  intros Hinv Hb Hx. destruct (heap_inv_focus h b Hinv Hb) as (SL & SR & lo & hi & pre & post & Hh).
  destruct (heap_in_run _ _ _ _ _ _ Hh) as (_&_&Hc&Hm&_). apply Hm.
  apply chain_in_block in Hc as (?&_&_&_&?). lia.
Qed.

Lemma block_shape h b :
  heap_inv h → b ∈ chain h → 0 < addr b ∧ 0 <= bsize b ∧ block_end b < 2 ^ 64.
Proof.
  intros Hinv Hb. destruct (heap_inv_focus h b Hinv Hb) as (SL & SR & lo & hi & pre & post & Hh).
  destruct (heap_in_run _ _ _ _ _ _ Hh) as (?&?&Hc&_).
  apply chain_in_block in Hc as (?&?&_&_&?). lia.
Qed.

Lemma memcpy_ok h b b' n :
  heap_inv h → b ∈ chain h → b' ∈ chain h → apart b' b → n <= bsize b → n <= bsize b' →
  memcpy (addr b' + HEADER_SIZE) (addr b + HEADER_SIZE) n h =
    (Ret (), Heap (chain h) (mapped h)
       (copy_bytes (addr b' + HEADER_SIZE) (addr b + HEADER_SIZE) n (mem h))).
Proof.
  intros Hinv Hb Hb' Hap Hn Hn'. unfold memcpy. run_prog. unfold apart, block_end in Hap.
  pose proof (block_shape _ _ Hinv Hb). pose proof (block_shape _ _ Hinv Hb').
  rewrite (accessible_sub _ (addr b') (block_end b')), (accessible_sub _ (addr b) (block_end b));
    try (intros; eapply block_mapped; [done| |done]; done); try (unfold block_end, HEADER_SIZE in *; lia).
  replace ((_ <=? _) || _) with true; [done|]. unfold HEADER_SIZE in *. lia.
Qed.

(** Scenario C: a new block, the copy, and the release of the old one. *)
Lemma move_ok h b size os :
  heap_inv h → b ∈ chain h → joins_at (addr b) h = false → is_free b = false → bsize b < size →
  0 < size <= 2 ^ 61 + 16 → ALIGN_UP size ALIGNMENT = size →
  mmap_gives (mapped h) (mapping_size size) os →
  (os = None ∧ my_malloc os size h = (Ret None, h)) ∨
  ∃ q h1 h2 h', my_malloc os size h = (Ret (Some q), h1) ∧
    memcpy q (addr b + HEADER_SIZE) (bsize b) h1 = (Ret (), h2) ∧
    my_free (Some (addr b + HEADER_SIZE)) h2 = (Ret (), h') ∧
    heap_inv h' ∧ resized h h' b q size.
Proof.
  intros Hinv Hb Hj Hused Hlt Hs Hal Hos.
  destruct (my_malloc_ok h size os) as [?|(q & h1 & E1 & Hh1 & Hob & Hj1)];
    [done|lia|done|by left|right].
  rewrite Hal in Hob. destruct Hob as (b' & Hb' & -> & Hu' & Hsz & Hdiv & Hold).
  destruct (Hold b Hb Hused) as [[Hb1 Hmem1] Hap].
  pose proof (block_shape _ _ Hh1 Hb1) as (?&?&?). pose proof (block_shape _ _ Hh1 Hb') as (?&?&?).
  pose proof (memcpy_ok h1 b b' (bsize b) Hh1 Hb1 Hb' Hap ltac:(lia) ltac:(lia)) as E2.
  destruct (my_free_ok (Heap (chain h1) (mapped h1)
      (copy_bytes (addr b' + HEADER_SIZE) (addr b + HEADER_SIZE) (bsize b) (mem h1))) b)
    as (h' & E3 & Hh' & Hm' & Hmem' & _ & Hkeep); [done|done|by apply Hj1|].
  eexists _, h1, _, h'. split_and!; [done..|]. cbn in Hkeep, Hmem'.
  exists b'. unfold apart, block_end, HEADER_SIZE in *.
  split_and!; [apply Hkeep; [done|lia|done]|done..| |].
  - intros i Hi Hi'. rewrite Hmem', lookup_copy_bytes, bool_decide_eq_true_2 by lia.
    rewrite Hmem1 by lia. f_equal. lia.
  - intros c Hin Hcu Hne. destruct (Hold c Hin Hcu) as [[Hcin Hcm] Hcap].
    split; [split|done]; [by apply Hkeep|]. intros x Hx.
    pose proof (block_shape _ _ Hh1 Hcin) as (?&?&?).
    rewrite Hmem', lookup_copy_bytes, bool_decide_eq_false_2; [by apply Hcm|].
    unfold apart, block_end, HEADER_SIZE in *. lia.
Qed.

(** realloc of a live block. *)
Lemma my_realloc_ok h b size os :
  heap_inv h → b ∈ chain h → joins_at (addr b) h = false → is_free b = false →
  0 < size <= 2 ^ 61 → mmap_gives (mapped h) (mapping_size size) os →
  (os = None ∧ my_realloc os (Some (addr b + HEADER_SIZE)) size h = (Ret None, h)) ∨
  ∃ q h', my_realloc os (Some (addr b + HEADER_SIZE)) size h = (Ret (Some q), h') ∧
    heap_inv h' ∧ resized h h' b q (ALIGN_UP size ALIGNMENT).
Proof.
  intros Hinv Hb Hj Hused Hs Hos. unfold my_realloc. destruct (Z.eqb_spec size 0); [lia|]. run_prog.
  replace (addr b + HEADER_SIZE - HEADER_SIZE) with (addr b) by lia.
  pose proof (align16_spec size ltac:(lia)) as [Hal Hdiv].
  assert (mapping_size (ALIGN_UP size ALIGNMENT) = mapping_size size) as Hms
    by (unfold mapping_size; by rewrite align16_idem by lia).
  set (S := ALIGN_UP size ALIGNMENT) in *.
  destruct (heap_inv_focus h b Hinv Hb) as (SL & SR & lo & hi & pre & post & Hh).
  rewrite (block_at_ok _ _ _ _ _ _ _ _ Hh). cbn beta iota.
  destruct (Z.leb_spec S (bsize b)).
  - right. destruct (split_live_ok _ _ _ _ pre b post h S Hh) as (h' & -> & ? & ?); [done|lia|done|].
    by eexists _, _.
  - destruct (grow_in_place_ok _ _ _ _ pre b post h S Hh) as [->|(h' & -> & ? & ?)]; [done..| |].
    + destruct (move_ok h b S os) as [[? ->]|(q & h1 & h2 & h' & -> & -> & -> & ? & ?)];
        [done..|lia|by apply align16_idem; lia|by rewrite Hms|by left|].
      right. by eexists _, _.
    + right. by eexists _, _.
Qed.

(** ** The contract of the allocator *)

(** [os] is what mmap would answer. *)
Definition perform (os : option Z) (c : call) : prog heap answer :=
  match c with
  | CMalloc n => p ← my_malloc os n; mret (APtr p)
  | CFree p => _ ← my_free p; mret AVoid
  | CRealloc p n => p ← my_realloc os p n; mret (APtr p)
  | CStore p i c => _ ← store_byte (p + Z.of_nat i) c; mret AVoid
  | CLoad p i => c ← load_byte (p + Z.of_nat i); mret (AByte c)
  end.

(** A client that keeps the rules, and a system that keeps those of mmap. *)
Definition legal (h : heap) (live : owned) (os : option Z) (c : call) : Prop :=
  client_ok (2 ^ 61) live c ∧
  match c with
  | CMalloc n | CRealloc _ n => mmap_gives (mapped h) (mapping_size n) os
  | _ => True
  end.

(** With the block of the call's pointer released, two neighbours in the chain are
    free that lie in mappings apart from each other: [coalesce] would merge them. *)
Definition joins (h : heap) (c : call) : bool :=
  match c with
  | CFree (Some p) | CRealloc (Some p) _ => joins_at (p - HEADER_SIZE) h
  | _ => false
  end.

(** Each live pointer is the payload of a used block that holds its bytes. *)
Definition holds (h : heap) (p : Z) (cs : list (option ascii)) (b : BlockHeader) : Prop :=
  b ∈ chain h ∧ p = addr b + HEADER_SIZE ∧ is_free b = false ∧
  Z.of_nat (length cs) <= bsize b ∧
  ∀ i c, cs !! i = Some (Some c) → mem h !! (p + Z.of_nat i) = Some c.
Definition represents (h : heap) (live : owned) : Prop :=
  heap_inv h ∧ ∀ p cs, live !! p = Some cs → ∃ b, holds h p cs b.

Lemma holds_kept h h' p cs b : holds h p cs b → kept h h' b → holds h' p cs b.
Proof.
  intros (?&->&?&?&Hm) [? Hk]. split_and!; [done..|]. intros i c Hi.
  rewrite Hk; [by apply Hm|]. apply lookup_lt_Some in Hi as ?. unfold block_end, HEADER_SIZE. lia.
Qed.

(** A used block apart from all others is a fresh range for the client. *)
Lemma represents_insert h h' (live live' : owned) p n b cs' :
  heap_inv h' → b ∈ chain h' → p = addr b + HEADER_SIZE → is_free b = false →
  ALIGN_UP n ALIGNMENT <= bsize b → 0 < n <= 2 ^ 61 → (16 | addr b) →
  Z.of_nat (length cs') = n →
  (∀ i c, cs' !! i = Some (Some c) → mem h' !! (p + Z.of_nat i) = Some c) →
  (∀ q cs, live' !! q = Some cs →
     ∃ c, holds h q cs c ∧ kept h h' c ∧ apart b c) →
  fresh_range ALIGNMENT live' p n ∧ represents h' (<[p := cs']> live').
Proof.
  intros Hinv Hb -> Hu Hsz Hn Hdiv Hlen Hbytes Hold.
  pose proof (align16_spec n ltac:(lia)) as [? _]. split; [split|split].
  - apply Z.divide_add_r; [done|by exists 2].
  - intros q cs Hq. destruct (Hold _ _ Hq) as (c & (?&->&_&?&_) & _ & Hap).
    unfold apart, block_end, HEADER_SIZE in *. lia.
  - done.
  - intros q cs [[<- <-]|[Hne Hq]]%lookup_insert_Some.
    + exists b. split_and!; try done. lia.
    + destruct (Hold _ _ Hq) as (c & Hc & Hk & _). exists c. by eapply holds_kept.
Qed.

Lemma simulate_malloc h live n os :
  represents h live → 0 < n <= 2 ^ 61 → mmap_gives (mapped h) (mapping_size n) os →
  (os = None ∧ my_malloc os n h = (Ret None, h)) ∨
  ∃ p h', my_malloc os n h = (Ret (Some p), h') ∧ fresh_range ALIGNMENT live p n ∧
    represents h' (<[p := resize n []]> live).
Proof.
  intros [Hinv Hr] Hn Hos.
  destruct (my_malloc_ok h n os) as [?|(p & h' & E & Hh' & (b & Hb & Hp & Hu & Hsz & Hdiv & Hold) & _)];
    [done|lia|done|by left|right].
  exists p, h'. split; [done|].
  eapply (represents_insert h h' live live p n b); [done..|lia|done| | |].
  - by rewrite length_resize by lia.
  - intros i c [_ Hi]%lookup_resize. done.
  - intros q cs Hq. destruct (Hr _ _ Hq) as (c & Hc). exists c.
    pose proof Hc as (?&_&?&_). split; [done|]. by apply Hold.
Qed.

Lemma simulate_free h live p cs :
  represents h live → live !! p = Some cs → joins_at (p - HEADER_SIZE) h = false →
  ∃ h', my_free (Some p) h = (Ret (), h') ∧ represents h' (delete p live).
Proof.
  intros [Hinv Hr] Hp Hj. destruct (Hr _ _ Hp) as (b & Hb & -> & _).
  replace (_ + _ - _) with (addr b) in Hj by lia.
  destruct (my_free_ok h b Hinv Hb Hj) as (h' & E & Hh' & _ & Hmem & _ & Hkeep).
  exists h'. split; [done|]. split; [done|].
  intros q cs' [Hne Hq]%lookup_delete_Some. destruct (Hr _ _ Hq) as (c & Hc).
  exists c. eapply holds_kept; [done|]. destruct Hc as (?&->&?&_).
  split; [|by rewrite Hmem]. apply Hkeep; [done|lia|done].
Qed.

Lemma simulate_realloc h live p cs n os :
  represents h live → live !! p = Some cs → joins_at (p - HEADER_SIZE) h = false →
  0 < n <= 2 ^ 61 → mmap_gives (mapped h) (mapping_size n) os →
  (os = None ∧ my_realloc os (Some p) n h = (Ret None, h)) ∨
  ∃ q h', my_realloc os (Some p) n h = (Ret (Some q), h') ∧ fresh_range ALIGNMENT (delete p live) q n ∧
    represents h' (<[q := resize n cs]> (delete p live)).
Proof.
  intros [Hinv Hr] Hp Hj Hn Hos. destruct (Hr _ _ Hp) as (b & Hb & -> & Hu & Hlen & Hbytes).
  replace (_ + _ - _) with (addr b) in Hj by lia.
  destruct (my_realloc_ok h b n os) as
    [?|(q & h' & E & Hh' & b' & Hb' & Hq & Hu' & Hsz & Hdiv & Hsame & Hold)]; [done..|by left|right].
  exists q, h'. split; [done|].
  pose proof (align16_spec n ltac:(lia)) as [? _].
  eapply (represents_insert h h' live _ q n b'); [done..|lia|done| | |].
  - by rewrite length_resize by lia.
  - intros i c [Hi Hc]%lookup_resize. apply lookup_lt_Some in Hc as ?.
    rewrite Hsame by lia. by apply Hbytes.
  - intros r cs' [Hne Hq']%lookup_delete_Some. destruct (Hr _ _ Hq') as (c & Hc).
    exists c. split; [done|]. destruct Hc as (?&->&?&_). apply Hold; [done..|lia].
Qed.

Lemma client_byte h live p cs i :
  represents h live → live !! p = Some cs → (i < length cs)%nat →
  mapped_byte (mapped h) (p + Z.of_nat i) = true.
Proof.
  intros [Hinv Hr] Hp Hi. destruct (Hr _ _ Hp) as (b & Hb & -> & _ & ? & _).
  eapply block_mapped; [done..|]. unfold block_end, HEADER_SIZE in *. lia.
Qed.

(** Different blocks of the chain are apart. *)
Lemma blocks_apart h b d :
  heap_inv h → b ∈ chain h → d ∈ chain h → d ≠ b → apart b d.
Proof.
  intros Hinv Hb Hd Hne. destruct (heap_inv_focus h b Hinv Hb) as (SL & SR & lo & hi & pre & post & Hh).
  pose proof Hh as (_&Hc&_). rewrite Hc in Hd. eapply used_elsewhere in Hd; [|done].
  by destruct (heap_in_around _ _ _ _ _ _ _ _ _ Hh Hd).
Qed.

Lemma simulate_store h live p cs i c :
  represents h live → live !! p = Some cs → (i < length cs)%nat →
  represents (Heap (chain h) (mapped h) (<[p + Z.of_nat i := c]> (mem h)))
    (<[p := <[i := Some c]> cs]> live).
Proof.
  intros [Hinv Hr] Hp Hi. destruct (Hr _ _ Hp) as (b & Hb & -> & Hu & Hlen & Hbytes).
  split; [done|]. intros q cs' [[<- <-]|[Hne Hq]]%lookup_insert_Some.
  - exists b. split_and!; try done; [by rewrite length_insert|]. cbn. intros j d Hj.
    destruct (decide (i = j)) as [->|].
    + rewrite list_lookup_insert_eq in Hj by done. simplify_eq. by rewrite lookup_insert_eq.
    + rewrite list_lookup_insert_ne in Hj by done. rewrite lookup_insert_ne by lia. by apply Hbytes.
  - destruct (Hr _ _ Hq) as (d & Hd). exists d. eapply holds_kept; [exact Hd|].
    destruct Hd as (Hd&->&_). split; [done|]. intros x Hx. cbn. apply lookup_insert_ne.
    pose proof (blocks_apart h b d Hinv Hb Hd ltac:(congruence)).
    unfold apart, block_end, HEADER_SIZE in *. lia.
Qed.

(** The call returns an answer the contract allows, in a heap that holds what the
    client then owns. *)
Definition simulated (h : heap) (live : owned) (os : option Z) (c : call) : Prop :=
  ∃ a h' live', perform os c h = (Ret a, h') ∧
    promises ALIGNMENT (λ _, os = None) live c a live' ∧ represents h' live'.

Lemma simulated_malloc h live n os :
  represents h live → legal h live os (CMalloc n) → simulated h live os (CMalloc n).
Proof.
  intros Hrep [Hn Hos]. cbn in Hn. unfold simulated, perform.
  destruct (decide (n = 0)) as [->|]; [eexists _, _, _; by eauto using promises|]. run_prog.
  destruct (simulate_malloc h live n os) as [[-> ->]|(p & h' & -> & ? & ?)];
    [done|lia|done|eexists _, _, _; by eauto using promises|].
  eexists _, _, _. split_and!; [done|apply p_malloc; [lia|done]|done].
Qed.

Lemma simulated_free h live os p :
  represents h live → legal h live os (CFree p) → joins h (CFree p) = false →
  simulated h live os (CFree p).
Proof.
  intros Hrep [Hlegal _] Hj. unfold simulated, perform.
  destruct p as [p|]; [|eexists _, _, _; by eauto using promises].
  destruct (Hlegal p eq_refl) as [cs Hp]. run_prog.
  destruct (simulate_free h live p cs Hrep Hp Hj) as (h' & -> & ?).
  eexists _, _, _; by eauto using promises.
Qed.

Lemma simulated_realloc h live p n os :
  represents h live → legal h live os (CRealloc p n) → joins h (CRealloc p n) = false →
  simulated h live os (CRealloc p n).
Proof.
  intros Hrep ([Hn Hlive] & Hos) Hj. unfold simulated, perform. run_prog.
  destruct (decide (n = 0)) as [->|Hn0].
  - destruct p as [p|]; [|eexists _, _, _; split_and!; [done|by eapply (p_realloc_0 _ _ live None)|done]].
    destruct (Hlive p eq_refl) as [cs Hp]. unfold my_realloc. run_prog.
    destruct (simulate_free h live p cs Hrep Hp Hj) as (h' & E & ?).
    change (0 =? 0) with true. cbn -[my_free]. rewrite E.
    eexists _, _, _. split_and!; [done|by eapply (p_realloc_0 _ _ live (Some p))|done].
  - destruct p as [p|].
    + destruct (Hlive p eq_refl) as [cs Hp].
      destruct (simulate_realloc h live p cs n os) as [[-> ->]|(q & h' & -> & ? & ?)];
        [done..|lia|done|eexists _, _, _; by eauto using promises|].
      eexists _, _, _. split_and!; [done|eapply p_realloc; [lia|done..]|done].
    + unfold my_realloc. destruct (Z.eqb_spec n 0); [lia|].
      destruct (simulate_malloc h live n os) as [[-> ->]|(q & h' & -> & ? & ?)];
        [done|lia|done|eexists _, _, _; by eauto using promises|].
      eexists _, _, _. split_and!; [done|apply p_realloc_null; [lia|done]|done].
Qed.

Lemma simulated_access h live os p i :
  represents h live → legal h live os (CLoad p i) →
  simulated h live os (CLoad p i) ∧ ∀ c, simulated h live os (CStore p i c).
Proof.
  intros Hrep [(cs & Hp & Hi) _]. unfold simulated, perform, load_byte, store_byte. run_prog.
  rewrite (client_byte h live p cs) by done. split.
  - destruct (lookup_lt_is_Some_2 cs i Hi) as [o Ho].
    eexists _, _, _. split_and!; [done| |done]. eapply p_load; [done..|]. intros d ->.
    destruct (proj2 Hrep _ _ Hp) as (b & _ & _ & _ & _ & Hbytes). by apply Hbytes.
  - intros c. eexists _, _, _. split_and!; [done|by eapply p_store|by apply simulate_store].
Qed.

(** A heap grown by mappings that follow one another never joins two. *)
Lemma one_run_joins h live c :
  represents h live → client_ok (2 ^ 61) live c → (length (runs (mapped h)) <= 1)%nat →
  joins h c = false.
Proof.
  intros [(Hok & segs & Hch & Ht) _] _ Hone.
  assert (∀ p bs, (∀ b, b ∈ bs → ∃ r, r ∈ runs (mapped h) ∧ within r b = true) →
    joins_in (mapped h) (free_at p bs) = false) as Hjoin.
  { intros p bs. induction bs as [|b [|c' bs] IH]; intros Hw; [done..|].
    specialize (IH ltac:(intros; apply Hw; by right)). unfold free_at in *.
    rewrite fmap_cons in *. rewrite fmap_cons in *.
    match goal with |- joins_in _ (?x :: ?y :: _) = _ => set (u := x); set (v := y) in * end.
    change (apart_free (mapped h) u v || joins_in (mapped h) (v :: ((λ b, if addr b =? p then
      Block (addr b) (bsize b) true else b) <$> bs)) = false).
    rewrite IH, orb_false_r. unfold apart_free. apply andb_false_iff. right.
    apply negb_false_iff. unfold together. apply existsb_exists.
    destruct (Hw b ltac:(by left)) as (r & Hr & Hb).
    destruct (Hw c' ltac:(right; by left)) as (r' & Hr' & Hc').
    assert (r' = r) as ->.
    { destruct (runs (mapped h)) as [|r1 [|r2 rs]]; [by apply elem_of_nil in Hr| |simpl in *; lia].
      apply list_elem_of_singleton in Hr, Hr'. congruence. }
    exists r. split; [by apply list_elem_of_In|].
    assert (within r u = within r b) as -> by (unfold u; by destruct (addr b =? p)).
    assert (within r v = within r c') as -> by (unfold v; by destruct (addr c' =? p)).
    by rewrite Hb, Hc'. }
  assert (∀ p, joins_at p h = false) as Hat.
  { intros p. unfold joins_at. apply Hjoin. intros b Hb. rewrite Hch in Hb.
    apply list_elem_of_In, in_concat in Hb as (s & Hs & Hb). apply list_elem_of_In in Hs, Hb.
    apply list_elem_of_lookup in Hs as [i Hi].
    destruct (Forall2_lookup_r _ _ _ _ _ Ht Hi) as (r & Hr & Hs).
    exists r. split; [by eapply list_elem_of_lookup_2|].
    pose proof (chain_in_elem _ _ _ _ Hs Hb) as (?&_&?). unfold within.
    apply andb_true_iff. lia. }
  destruct c as [|[p|]|[p|]| |]; simpl; done || apply Hat.
Qed.

(** Two mappings of a page at [a1] and [a2]; every block is released, then [n] bytes
    are asked for. *)
Definition two_regions (a1 a2 n : Z) : prog heap (option Z) :=
  p ← my_malloc (Some a1) 4000;
  q ← my_malloc (Some a2) 4000;
  _ ← my_free p;
  _ ← my_free q;
  my_malloc None n.

(** A request of 4000 bytes that needs a new page. *)
Lemma my_malloc_page h a :
  find_free_block 4000 (chain h) = None → (∀ b, b ∈ chain h → addr b ≠ a) →
  ∃ m, my_malloc (Some a) 4000 h = (Ret (Some (a + HEADER_SIZE)),
    Heap (chain h ++ [Block a 4000 false; Block (a + HEADER_SIZE + 4000) 32 true])
      (mapped h ++ [(a, 4096)]) m).
Proof.
  intros Hnone Hne. unfold my_malloc, init_new_region, request_os_mem. run_prog.
  change (4000 =? 0) with false. change (ALIGN_UP 4000 ALIGNMENT) with 4000.
  cbn beta iota. rewrite Hnone. change (ALIGN_UP (wrap64 (HEADER_SIZE + 4000)) MMAP_THRESHOLED) with 4096.
  change (wrap64 (4096 - HEADER_SIZE)) with 4064.
  assert (∀ x n, a <= x → x + n <= a + 4096 →
    accessible (mapped h ++ [(a, 4096)]) x n = true) as Hacc.
  { intros x n ??. apply (accessible_sub _ a (a + 4096)); [|lia..].
    intros y Hy. rewrite mapped_byte_snoc. simpl. apply orb_true_iff. right.
    apply andb_true_iff. lia. }
  unfold write_header, set_free, split_block, block_at. run_prog. cbn -[accessible wipe].
  rewrite Hacc by (unfold sizeof_header; lia). cbn -[accessible wipe].
  pose proof (cut_at_first (chain h) (Block a 4064 true) [] Hne) as Hcut. cbn [addr] in Hcut.
  rewrite Hcut. cbn -[accessible wipe].
  pose proof (cut_at_first (chain h) (Block a 4064 false) [] Hne) as Hcut'. cbn [addr] in Hcut'.
  rewrite Hcut'. cbn -[accessible wipe].
  change (HEADER_SIZE + ALIGNMENT <? wrap64 (4064 - 4000)) with true.
  unfold write_header. run_prog. cbn -[accessible wipe].
  rewrite Hacc by (unfold sizeof_header, HEADER_SIZE; lia). by eexists.
Qed.

Lemma my_free_at h pre b post :
  (∀ c, c ∈ pre → addr c ≠ addr b) → chain h = pre ++ b :: post →
  my_free (Some (addr b + HEADER_SIZE)) h =
    (Ret (), Heap (coalesce (pre ++ Block (addr b) (bsize b) true :: post)) (mapped h) (mem h)).
Proof.
  intros Hne Hc. unfold my_free, set_free, block_at. run_prog.
  replace (_ + _ - _) with (addr b) by lia. rewrite Hc, cut_at_first by done. done.
Qed.

(** Used and released, two pages that do not follow one another are merged, and the
    allocator then writes a header into the page after the first. *)
Lemma two_regions_fault a1 a2 :
  (MMAP_THRESHOLED | a1) → (MMAP_THRESHOLED | a2) → a1 ≠ a2 → a2 ≠ a1 + 4096 →
  (two_regions a1 a2 5000 empty_heap).1 = Undef.
Proof.
  intros [q1 H1] [q2 H2] Hne Hgap. unfold MMAP_THRESHOLED in *. unfold two_regions. run_prog.
  destruct (my_malloc_page empty_heap a1) as [m1 ->]; [done|by intros b ?%elem_of_nil|].
  cbn [chain mapped empty_heap app].
  match goal with |- context [my_malloc (Some a2) 4000 ?h] =>
    destruct (my_malloc_page h a2) as [m2 ->] end; [done| |].
  { cbn [chain]. intros b [->|[->|[]%elem_of_nil]%elem_of_cons]%elem_of_cons; unfold HEADER_SIZE; cbn; lia. }
  cbn [chain mapped app].
  rewrite (my_free_at _ [] (Block a1 4000 false) [Block (a1 + HEADER_SIZE + 4000) 32 true;
     Block a2 4000 false; Block (a2 + HEADER_SIZE + 4000) 32 true]); [|by intros c ?%elem_of_nil|done].
  change (coalesce _) with [Block a1 4064 true; Block a2 4000 false; Block (a2 + HEADER_SIZE + 4000) 32 true].
  cbn [mapped mem].
  rewrite (my_free_at _ [Block a1 4064 true] (Block a2 4000 false)
     [Block (a2 + HEADER_SIZE + 4000) 32 true]); [| |done].
  2:{ intros c ->%list_elem_of_singleton. cbn. lia. }
  change (coalesce _) with [Block a1 8160 true]. cbn [mapped mem].
  unfold my_malloc, set_free, split_block, block_at. run_prog.
  change (5000 =? 0) with false. change (ALIGN_UP 5000 ALIGNMENT) with 5008.
  cbn -[accessible wipe]. rewrite Z.eqb_refl. cbn -[accessible wipe]. rewrite Z.eqb_refl.
  cbn -[accessible wipe]. change (HEADER_SIZE + ALIGNMENT <? wrap64 (8160 - 5008)) with true.
  unfold write_header. run_prog. cbn -[accessible wipe].
  assert (accessible [(a1, 4096); (a2, 4096)] (a1 + HEADER_SIZE + 5008) sizeof_header = false)
    as ->; [|done].
  apply not_true_is_false. unfold accessible. rewrite forallb_forall. intros Hall.
  specialize (Hall (a1 + HEADER_SIZE + 5008)). cbv beta in Hall.
  assert (In (a1 + HEADER_SIZE + 5008) (seqZ (a1 + HEADER_SIZE + 5008) sizeof_header)) as Hin.
  { apply list_elem_of_In, elem_of_seqZ. unfold sizeof_header. lia. }
  specialize (Hall Hin). unfold mapped_byte, HEADER_SIZE in Hall. cbn in Hall. zbool. lia.
Qed.

(** C5. The allocator implements malloc, free and realloc on mappings the system
    places where it likes: every call of a client that keeps the rules returns (it
    never touches unmapped memory), hands out aligned ranges apart from all live ones,
    keeps every byte the client stored, and realloc carries the contents over, whether
    it shrinks, grows in place or moves, unless releasing the call's block would put it
    in the chain beside a free block of a mapping apart from its own.  That cannot
    happen while each mapping follows the one before it; with any two that do not, it
    does happen to a client that keeps the rules, and the allocator writes to unmapped
    memory. *)
Theorem allocator_refines :
  represents empty_heap ∅ ∧
  (∀ h live os c, represents h live → legal h live os c → joins h c = false →
     ∃ a h' live', perform os c h = (Ret a, h') ∧
       promises ALIGNMENT (λ _, os = None) live c a live' ∧ represents h' live') ∧
  (∀ h live c, represents h live → client_ok (2 ^ 61) live c →
     (length (runs (mapped h)) <= 1)%nat → joins h c = false) ∧
  (∀ a1 a2, (MMAP_THRESHOLED | a1) → (MMAP_THRESHOLED | a2) → a1 ≠ a2 → a2 ≠ a1 + 4096 →
     (two_regions a1 a2 5000 empty_heap).1 = Undef).
Proof.
  split_and!; [| |apply one_run_joins|apply two_regions_fault].
  - split; [|done]. split; [|exists []; split; [done|constructor]].
    split; intros i; intros; by destruct i.
  - intros h live os c Hrep Hlegal Hj. change (simulated h live os c). destruct c.
    + by apply simulated_malloc.
    + by apply simulated_free.
    + by apply simulated_realloc.
    + by apply simulated_access.
    + by apply simulated_access.
Qed.

Lemma page_runs_ok : runs_ok [(65536, 4096)].
Proof.
  unfold runs_ok. change (runs _) with [(65536, 69632)].
  split; [|by intros i j r s Hne [-> _]%list_lookup_singleton_Some
             [-> _]%list_lookup_singleton_Some].
  intros i lo hi [_ [= <- <-]]%list_lookup_singleton_Some. split_and!; [lia..|].
  intros x Hx. cbn. rewrite orb_false_r. apply andb_true_iff. lia.
Qed.

Lemma allocator_refines_witness :
  let h := Heap [Block 65536 4000 false; Block 69568 32 true] [(65536, 4096)] ∅ in
  let live := {[ 65568 := resize 4000 [] ]} in
  ∃ a h' live', perform (Some 1048576) (CRealloc (Some 65568) 8000) h = (Ret a, h') ∧
    promises ALIGNMENT (λ _, Some 1048576 = None) live (CRealloc (Some 65568) 8000) a live' ∧
    represents h' live'.
Proof.
  intros h live. destruct allocator_refines as (_ & Hstep & _). apply Hstep.
  - split.
    + split.
      * exact page_runs_ok.
      * exists [[Block 65536 4000 false; Block 69568 32 true]]. split; [done|].
        unfold tiles. change (runs (mapped h)) with [(65536, 69632)].
        constructor; [|constructor]. unfold HEADER_SIZE. simpl. unfold HEADER_SIZE.
        split_and!; first [lia|by exists 4096|by exists 250|by exists 4348|by exists 2].
    + intros p cs [<- <-]%lookup_singleton_Some. exists (Block 65536 4000 false).
      split_and!; [by left|done|done|by vm_compute|]. intros i c [_ Hi]%lookup_resize. done.
  - split; [split; [lia|]|].
    + intros q [= <-]. eexists. by apply lookup_singleton_Some.
    + intros a [= <-]. split_and!; [lia|by exists 256|by vm_compute|].
      change (mapping_size 8000) with 8192. intros x Hx. cbn.
      rewrite orb_false_r. apply andb_false_iff. lia.
  - by vm_compute.
Defined.

(** [coalesce] merges blocks of different mappings: after two mappings that are
    apart were used and released, a request of 5000 bytes makes the allocator
    itself write a header into unmapped memory, and one of 8150 bytes returns a
    pointer whose last byte is unmapped. *)
Theorem coalesce_joins_mappings :
  (two_regions 65536 1048576 5000 empty_heap).1 = Undef ∧
  ((p ← two_regions 65536 1048576 8150; p ← non_null p; store_byte p (ascii_of_nat 0)) empty_heap).1 = Ret () ∧
  ((p ← two_regions 65536 1048576 8150; p ← non_null p; store_byte (p + 8149) (ascii_of_nat 0)) empty_heap).1 = Undef.
Proof. split_and!; vm_compute; reflexivity. Qed.

(** The request that leaves too little for a header is granted in place. *)
Definition grow_once : prog heap unit :=
  p ← my_malloc (Some 65536) 16;
  q ← my_malloc None 16;
  r ← my_malloc None 16;
  _ ← my_free q;
  p ← my_realloc None p 32;
  _ ← my_free p;
  my_free r.

(** Growing in place loses what is left of the neighbour when it is too small
    for a block (the comment says it is swallowed): after everything was
    released, the 4096-byte mapping is one free block of 4032 bytes instead of
    4064, and the 32 bytes never come back. *)
Theorem growth_leaks_leftover :
  (grow_once empty_heap).1 = Ret () ∧ chain (grow_once empty_heap).2 = [Block 65536 4032 true] ∧
  chain (main (Some 65536) None None empty_heap).2 = [Block 65536 4064 true].
Proof. split_and!; vm_compute; reflexivity. Qed.

(** Rounding a request up overflows [size_t] near its maximum: asked for 2^64-1
    bytes, the allocator returns the payload of a block of size zero. *)
Theorem malloc_size_wraps h b rest :
  chain h = b :: rest → is_free b = true → heap_inv h → HEADER_SIZE + ALIGNMENT < bsize b →
  ∃ h', my_malloc None (2 ^ 64 - 1) h = (Ret (Some (addr b + HEADER_SIZE)), h') ∧
    head (chain h') = Some (Block (addr b) 0 false).
Proof.
  intros Heq Hfree Hinv Hb.
  pose proof (block_shape h b Hinv ltac:(rewrite Heq; by left)) as (?&?&?).
  assert (∀ x, addr b <= x < block_end b → mapped_byte (mapped h) x = true) as Hmap.
  { intros x Hx. eapply block_mapped; [done| |done]. rewrite Heq. by left. }
  unfold block_end, HEADER_SIZE, ALIGNMENT in *.
  unfold my_malloc. change (2 ^ 64 - 1 =? 0) with false. run_prog.
  change (ALIGN_UP (2 ^ 64 - 1) ALIGNMENT) with 0. rewrite Heq. cbn [find_free_block].
  rewrite Hfree. destruct (Z.leb_spec 0 (bsize b)); [|lia]. cbn [andb].
  unfold set_free, split_block, block_at, write_header. run_prog. rewrite Heq.
  destruct b as [p n f]. cbn [addr bsize is_free] in *. unfold HEADER_SIZE, ALIGNMENT in *.
  cbn -[wrap64 accessible wipe Z.ltb]. rewrite Z.eqb_refl.
  cbn -[wrap64 accessible wipe Z.ltb]. rewrite Z.eqb_refl. cbn -[wrap64 accessible wipe Z.ltb].
  rewrite wrap64_small by lia. replace (_ <? n - 0) with true by lia. run_prog.
  cbn -[wrap64 accessible wipe].
  rewrite (accessible_sub _ p (p + 32 + n)) by (done || unfold sizeof_header; lia).
  cbn -[wrap64 wipe]. eexists. by split.
Qed.

Lemma malloc_size_wraps_witness :
  let h := Heap [Block 65536 4064 true] [(65536, 4096)] ∅ in
  ∃ h', my_malloc None (2 ^ 64 - 1) h = (Ret (Some 65568), h') ∧
    head (chain h') = Some (Block 65536 0 false).
Proof.
  apply (malloc_size_wraps _ (Block 65536 4064 true) []); [done..| |by vm_compute].
  split.
  - exact page_runs_ok.
  - exists [[Block 65536 4064 true]]. split; [done|].
    unfold tiles. change (runs (mapped _)) with [(65536, 69632)].
    constructor; [|constructor]. simpl. unfold HEADER_SIZE.
    split_and!; first [lia|by exists 4096|by exists 254].
Defined.
