(* ===== verification/NetBytes.v ===== *)
(** * Byte order: the integers of a frame header

    [htons], [htonl] and the copies between integers and buffers, on a
    little-endian host, as the echo programs of base_byteorder and base_protobuf
    use them. *)

From stdpp Require Import base list strings.
From Stdlib Require Import ZArith Lia Ascii.
From S2P Require Import Prelude CxxString.

Local Open Scope Z_scope.

(** ** Integers in memory, on a little-endian host *)

Definition byte_of (z : Z) : ascii := ascii_of_N (Z.to_N (z mod 256)).
Definition val_of (c : ascii) : Z := Z.of_N (N_of_ascii c).

Lemma val_of_byte_of z : val_of (byte_of z) = z mod 256.
Proof.
  unfold val_of, byte_of. pose proof (Z.mod_pos_bound z 256 ltac:(lia)).
  rewrite N_ascii_embedding; lia.
Qed.

Lemma val_of_range c : 0 <= val_of c < 256.
Proof. unfold val_of. pose proof (N_ascii_bounded c). lia. Qed.

Lemma byte_of_val_of c : byte_of (val_of c) = c.
Proof.
  unfold byte_of. rewrite Z.mod_small by apply val_of_range. unfold val_of.
  rewrite N2Z.id. apply ascii_N_embedding.
Qed.

(** The object representation of a [uint16_t] and a [uint32_t], and loading one
    with [memcpy]. *)
Definition bytes16 (v : Z) : bytes := [byte_of v; byte_of (v / 256)].
Definition bytes32 (v : Z) : bytes :=
  [byte_of v; byte_of (v / 256); byte_of (v / 65536); byte_of (v / 16777216)].
Definition load16 (l : bytes) : Z :=
  match l with
  | a :: b :: _ => val_of a + 256 * val_of b
  | _ => 0
  end.
Definition load32 (l : bytes) : Z :=
  match l with
  | a :: b :: c :: d :: _ => val_of a + 256 * val_of b + 65536 * val_of c + 16777216 * val_of d
  | _ => 0
  end.

(** [htons] and [htonl] reverse the bytes; [ntohs] and [ntohl] are the same. *)
Definition htons (v : Z) : Z := load16 (rev (bytes16 v)).
Definition htonl (v : Z) : Z := load32 (rev (bytes32 v)).
Definition ntohs := htons.
Definition ntohl := htonl.

Lemma bytes16_load16 a b : bytes16 (load16 [a; b]) = [a; b].
Proof.
  unfold bytes16, load16. pose proof (val_of_range a). pose proof (val_of_range b).
  assert (byte_of (val_of a + 256 * val_of b) = a) as ->.
  { rewrite <-(byte_of_val_of a) at 2. unfold byte_of. do 2 f_equal.
    rewrite Z.mul_comm, Z_mod_plus_full. done. }
  replace ((val_of a + 256 * val_of b) / 256) with (val_of b); [by rewrite byte_of_val_of|].
  rewrite Z.mul_comm, Z_div_plus_full, Z.div_small by lia. lia.
Qed.

Lemma load16_range l : 0 <= load16 l < 2 ^ 16.
Proof.
  destruct l as [|a [|b l]]; simpl; try lia.
  pose proof (val_of_range a). pose proof (val_of_range b). lia.
Qed.

Lemma load32_range l : 0 <= load32 l < 2 ^ 32.
Proof.
  destruct l as [|a [|b [|c [|d l]]]]; simpl; try lia.
  pose proof (val_of_range a). pose proof (val_of_range b).
  pose proof (val_of_range c). pose proof (val_of_range d). lia.
Qed.

Lemma byte_of_small z q : byte_of (z + 256 * q) = byte_of z.
Proof. unfold byte_of. by rewrite Z.mul_comm, Z_mod_plus_full. Qed.

Lemma bytes32_load32 a b c d : bytes32 (load32 [a; b; c; d]) = [a; b; c; d].
Proof.
  unfold bytes32, load32. pose proof (val_of_range a). pose proof (val_of_range b).
  pose proof (val_of_range c). pose proof (val_of_range d).
  set (v := val_of a + 256 * val_of b + 65536 * val_of c + 16777216 * val_of d).
  assert (v / 256 = val_of b + 256 * (val_of c + 256 * val_of d)) as ->
    by (symmetry; apply (Z.div_unique_pos _ _ _ (val_of a)); lia).
  assert (v / 65536 = val_of c + 256 * val_of d) as ->
    by (symmetry; apply (Z.div_unique_pos _ _ _ (val_of a + 256 * val_of b)); lia).
  assert (v / 16777216 = val_of d) as ->
    by (symmetry; apply (Z.div_unique_pos _ _ _ (val_of a + 256 * val_of b + 65536 * val_of c)); lia).
  replace v with (val_of a + 256 * (val_of b + 256 * val_of c + 65536 * val_of d)) by lia.
  by rewrite !byte_of_small, !byte_of_val_of.
Qed.

Lemma load32_bytes32 v : 0 <= v < 2 ^ 32 → load32 (bytes32 v) = v.
Proof.
  intros Hv. unfold load32, bytes32. rewrite !val_of_byte_of.
  rewrite (Z.mod_small (v / 16777216)) by
    (split; [apply Z.div_pos; lia|apply Z.div_lt_upper_bound; lia]).
  pose proof (Z.div_mod v 256 ltac:(lia)). pose proof (Z.div_mod (v / 256) 256 ltac:(lia)).
  pose proof (Z.div_mod (v / 65536) 256 ltac:(lia)).
  rewrite Z.div_div in * by lia.
  replace (256 * 256) with 65536 in * by lia. replace (65536 * 256) with 16777216 in * by lia. lia.
Qed.

Lemma load16_bytes16 v : 0 <= v < 2 ^ 16 → load16 (bytes16 v) = v.
Proof.
  intros Hv. unfold load16, bytes16. rewrite !val_of_byte_of.
  rewrite (Z.mod_small (v / 256)) by
    (split; [apply Z.div_pos; lia|apply Z.div_lt_upper_bound; lia]).
  pose proof (Z.div_mod v 256 ltac:(lia)). lia.
Qed.

(** What is on the wire is the big-endian representation. *)
Lemma bytes16_htons v : bytes16 (htons v) = rev (bytes16 v).
Proof. apply bytes16_load16. Qed.
Lemma bytes32_htonl v : bytes32 (htonl v) = rev (bytes32 v).
Proof. apply bytes32_load32. Qed.
Lemma ntohs_htons v : 0 <= v < 2 ^ 16 → ntohs (htons v) = v.
Proof.
  intros Hv. unfold ntohs, htons at 1. rewrite bytes16_htons, rev_involutive.
  by apply load16_bytes16.
Qed.
Lemma ntohl_htonl v : 0 <= v < 2 ^ 32 → ntohl (htonl v) = v.
Proof.
  intros Hv. unfold ntohl, htonl at 1. rewrite bytes32_htonl, rev_involutive.
  by apply load32_bytes32.
Qed.
Lemma htons_range v : 0 <= htons v < 2 ^ 16.
Proof. apply load16_range. Qed.
Lemma htonl_range v : 0 <= htonl v < 2 ^ 32.
Proof. apply load32_range. Qed.
