(* ===== verification/MmMalloc.v ===== *)
(** * The boundary-tag allocator of csapp/chapter9/malloc: mm.c and memlib.c

    The heap is one range of bytes that [mem_sbrk] extends.  A block has its size and its
    allocated bit in a word before the payload (the header) and in the last word of the
    block (the footer), so that a freed block finds both neighbours; everything the
    allocator knows is in these words, and the model reads and writes them as the code
    does.  The contract is that of AllocSpec. *)

From stdpp Require Import base gmap list strings.
From Stdlib Require Import ZArith Lia Ascii.
From S2P Require Import Prelude CxxString NetBytes AllocSpec.

Local Open Scope Z_scope.

(** ** memlib.c *)

Definition MAX_HEAP : Z := 20 * 2 ^ 20.

(** [mem] has the bytes that have a determined value; a null [heap_listp] is 0. *)
Record heap := Heap { mem : gmap Z ascii; mem_brk : Z; heap_listp : Z }.

Definition NULL : Z := 0.

Section mm.
(** The first byte of the heap, as [Malloc] returned it. *)
Variable mem_heap : Z.

Definition mem_init : heap := Heap ∅ mem_heap NULL.
Definition mem_max_addr : Z := mem_heap + MAX_HEAP.

Definition mem_sbrk (incr : Z) : prog heap Z := λ h,
  if (incr <? 0) || (mem_max_addr <? mem_brk h + incr) then (Ret (-1), h)
  else (Ret (mem_brk h), Heap (mem h) (mem_brk h + incr) (heap_listp h)).
Definition mem_heapsize (h : heap) : Z := mem_brk h - mem_heap.

(** ** mm.c: constants and macros *)

Definition WSIZE : Z := 4.
Definition DSIZE : Z := 8.
Definition CHUNKSIZE : Z := 4096.

Definition PACK (size alloc : Z) : Z := Z.lor size alloc.

(** An [unsigned int] in memory; it is undefined to read one of which a byte is not
    determined, and to read or write outside the heap or off its alignment. *)
Definition read_word (m : gmap Z ascii) (p : Z) : option Z :=
  a ← m !! p; b ← m !! (p + 1); c ← m !! (p + 2); d ← m !! (p + 3); Some (load32 [a; b; c; d]).
Definition write_word (m : gmap Z ascii) (p v : Z) : gmap Z ascii :=
  match bytes32 v with
  | [a; b; c; d] => <[p := a]> (<[p + 1 := b]> (<[p + 2 := c]> (<[p + 3 := d]> m)))
  | _ => m
  end.
Definition word_at (p : Z) : bool :=
  (mem_heap <=? p) && (p + WSIZE <=? mem_max_addr) && (p mod WSIZE =? 0).

Definition GET (p : Z) : prog heap Z := λ h,
  (if word_at p then deref (read_word (mem h) p) else Undef, h).
Definition PUT (p v : Z) : prog heap unit := λ h,
  if word_at p then (Ret (), Heap (write_word (mem h) p (wrap32 v)) (mem_brk h) (heap_listp h))
  else (Undef, h).

Definition GET_SIZE (p : Z) : prog heap Z := v ← GET p; mret (Z.land v (wrap32 (Z.lnot 7))).
Definition GET_ALLOC (p : Z) : prog heap Z := v ← GET p; mret (Z.land v 1).

Definition HDRP (bp : Z) : Z := bp - WSIZE.
Definition FTRP (bp : Z) : prog heap Z := s ← GET_SIZE (HDRP bp); mret (bp + s - DSIZE).
Definition NEXT_BLKP (bp : Z) : prog heap Z := s ← GET_SIZE (bp - WSIZE); mret (bp + s).
Definition PREV_BLKP (bp : Z) : prog heap Z := s ← GET_SIZE (bp - DSIZE); mret (bp - s).

(** [PUT(HDRP(bp), v)] and [PUT(FTRP(bp), v)] *)
Definition put_header (bp v : Z) : prog heap unit := PUT (HDRP bp) v.
Definition put_footer (bp v : Z) : prog heap unit := f ← FTRP bp; PUT f v.

(** ** Operations *)

Definition coalesce (bp : Z) : prog heap Z :=
  prev ← PREV_BLKP bp; prev_footer ← FTRP prev; prev_alloc ← GET_ALLOC prev_footer;
  next ← NEXT_BLKP bp; next_alloc ← GET_ALLOC (HDRP next);
  size ← GET_SIZE (HDRP bp);
  if negb (prev_alloc =? 0) && negb (next_alloc =? 0) then mret bp
  else if negb (prev_alloc =? 0) then
    next ← NEXT_BLKP bp; next_size ← GET_SIZE (HDRP next);
    let size := wrap64 (size + next_size) in
    put_header bp (PACK size 0);;
    put_footer bp (PACK size 0);;
    mret bp
  else if negb (next_alloc =? 0) then
    prev ← PREV_BLKP bp; prev_size ← GET_SIZE (HDRP prev);
    let size := wrap64 (size + prev_size) in
    put_footer bp (PACK size 0);;
    prev ← PREV_BLKP bp;
    put_header prev (PACK size 0);;
    PREV_BLKP bp
  else
    prev ← PREV_BLKP bp; prev_size ← GET_SIZE (HDRP prev);
    next ← NEXT_BLKP bp; next_footer ← FTRP next; next_size ← GET_SIZE next_footer;
    let size := wrap64 (size + wrap32 (prev_size + next_size)) in
    prev ← PREV_BLKP bp;
    put_header prev (PACK size 0);;
    next ← NEXT_BLKP bp;
    put_footer next (PACK size 0);;
    PREV_BLKP bp.

(** The argument of [mem_sbrk] is an int. *)
Definition extend_heap (words : Z) : prog heap Z :=
  let size := if words mod 2 =? 0 then wrap64 (words * WSIZE) else wrap64 ((words + 1) * WSIZE) in
  bp ← mem_sbrk (sext 32 size);
  if bp =? -1 then mret NULL
  else
    put_header bp (PACK size 0);;
    put_footer bp (PACK size 0);;
    next ← NEXT_BLKP bp;
    put_header next (PACK 0 1);;
    coalesce bp.

Definition set_listp (p : Z) : prog heap unit := modify (λ h, Heap (mem h) (mem_brk h) p).

Definition mm_init : prog heap Z :=
  p ← mem_sbrk (4 * WSIZE);
  set_listp p;;
  if p =? -1 then mret (-1)
  else
    PUT p 0;;
    PUT (p + 1 * WSIZE) (PACK DSIZE 1);;
    PUT (p + 2 * WSIZE) (PACK DSIZE 1);;
    PUT (p + 3 * WSIZE) (PACK 0 1);;
    set_listp (p + 2 * WSIZE);;
    bp ← extend_heap (CHUNKSIZE / WSIZE);
    mret (if bp =? NULL then -1 else 0).

Definition place (bp asize : Z) : prog heap unit :=
  csize ← GET_SIZE (HDRP bp);
  if 2 * DSIZE <=? wrap64 (csize - asize) then
    put_header bp (PACK asize 1);;
    put_footer bp (PACK asize 1);;
    bp ← NEXT_BLKP bp;
    put_header bp (PACK (wrap64 (csize - asize)) 0);;
    put_footer bp (PACK (wrap64 (csize - asize)) 0)
  else
    put_header bp (PACK csize 1);;
    put_footer bp (PACK csize 1).

(** The loop of [find_fit]; every block has at least eight bytes. *)
Fixpoint find_fit_loop (fuel : nat) (asize bp : Z) : prog heap Z :=
  s ← GET_SIZE (HDRP bp);
  if 0 <? s then
    a ← GET_ALLOC (HDRP bp);
    s ← GET_SIZE (HDRP bp);
    if (a =? 0) && (asize <=? s) then mret bp
    else
      bp ← NEXT_BLKP bp;
      match fuel with
      | O => lift Undef
      | S fuel => find_fit_loop fuel asize bp
      end
  else mret NULL.
Definition find_fit (asize : Z) : prog heap Z :=
  h ← get; find_fit_loop (Z.to_nat (mem_heapsize h / DSIZE)) asize (heap_listp h).

(** [heap_listp == 0]: the heap is set up on first use. *)
Definition init_if_needed : prog heap unit :=
  h ← get; if heap_listp h =? NULL then mm_init;; mret () else mret ().

Definition adjust (size : Z) : Z :=
  if size <=? DSIZE then 2 * DSIZE
  else wrap64 (DSIZE * (wrap64 (size + DSIZE + (DSIZE - 1)) / DSIZE)).

Definition mm_malloc (size : Z) : prog heap Z :=
  init_if_needed;;
  if size =? 0 then mret NULL
  else
    let asize := adjust size in
    bp ← find_fit asize;
    if negb (bp =? NULL) then place bp asize;; mret bp
    else
      bp ← extend_heap (Z.max asize CHUNKSIZE / WSIZE);
      if bp =? NULL then mret NULL
      else place bp asize;; mret bp.

Definition mm_free (bp : Z) : prog heap unit :=
  if bp =? 0 then mret ()
  else
    size ← GET_SIZE (HDRP bp);
    init_if_needed;;
    put_header bp (PACK size 0);;
    put_footer bp (PACK size 0);;
    coalesce bp;; mret ().

Definition memcpy (dst src n : Z) : prog heap unit := λ h,
  if (mem_heap <=? dst) && (dst + n <=? mem_max_addr) && (mem_heap <=? src) &&
     (src + n <=? mem_max_addr) && ((dst + n <=? src) || (src + n <=? dst))
  then (Ret (), Heap (copy_bytes dst src n (mem h)) (mem_brk h) (heap_listp h))
  else (Undef, h).

Definition mm_realloc (ptr size : Z) : prog heap Z :=
  if size =? 0 then mm_free ptr;; mret 0
  else if ptr =? NULL then mm_malloc size
  else
    newptr ← mm_malloc size;
    if newptr =? NULL then mret 0
    else
      oldsize ← GET_SIZE (HDRP ptr);
      let oldsize := if size <? oldsize then size else oldsize in
      memcpy newptr ptr oldsize;;
      mm_free ptr;;
      mret newptr.

(** [checkheap] with what it prints. *)
Inductive message :=
  | HeapAt (p : Z) | BadPrologue | NotAligned (p : Z) | Mismatch | EndOfList (p : Z) | BadEpilogue.

Definition checkblock (bp : Z) : prog heap (list message) :=
  h ← GET (HDRP bp); p ← FTRP bp; f ← GET p;
  mret ((if bp mod 8 =? 0 then [] else [NotAligned bp]) ++ (if h =? f then [] else [Mismatch])).
Fixpoint check_loop (fuel : nat) (bp : Z) : prog heap (list message * Z) :=
  s ← GET_SIZE (HDRP bp);
  if 0 <? s then
    out ← checkblock bp;
    bp ← NEXT_BLKP bp;
    match fuel with
    | O => lift Undef
    | S fuel => '(rest, last) ← check_loop fuel bp; mret (out ++ rest, last)
    end
  else mret ([], bp).
Definition checkheap : prog heap (list message) :=
  h ← get;
  s ← GET_SIZE (HDRP (heap_listp h)); a ← GET_ALLOC (HDRP (heap_listp h));
  first ← checkblock (heap_listp h);
  '(blocks, bp) ← check_loop (Z.to_nat (mem_heapsize h / DSIZE)) (heap_listp h);
  s' ← GET_SIZE (HDRP bp); a' ← GET_ALLOC (HDRP bp);
  mret ((if negb (s =? DSIZE) || (a =? 0) then [BadPrologue] else []) ++ first ++ blocks ++
        (if negb (s' =? 0) || (a' =? 0) then [BadEpilogue] else [])).

(** ** A client's calls *)

Definition store_byte (x : Z) (c : ascii) : prog heap unit := λ h,
  if (mem_heap <=? x) && (x <? mem_max_addr)
  then (Ret (), Heap (<[x := c]> (mem h)) (mem_brk h) (heap_listp h)) else (Undef, h).
Definition load_byte (x : Z) : prog heap (option ascii) := λ h,
  (if (mem_heap <=? x) && (x <? mem_max_addr) then Ret (mem h !! x) else Undef, h).

Definition to_ptr (p : option Z) : Z := default NULL p.
Definition of_ptr (p : Z) : option Z := if p =? NULL then None else Some p.

Definition perform (c : call) : prog heap answer :=
  match c with
  | CMalloc n => p ← mm_malloc n; mret (APtr (of_ptr p))
  | CFree p => mm_free (to_ptr p);; mret AVoid
  | CRealloc p n => p ← mm_realloc (to_ptr p) n; mret (APtr (of_ptr p))
  | CStore p i c => store_byte (p + Z.of_nat i) c;; mret AVoid
  | CLoad p i => c ← load_byte (p + Z.of_nat i); mret (AByte c)
  end.
Fixpoint perform_all (cs : list call) : prog heap (list answer) :=
  match cs with
  | [] => mret []
  | c :: cs => a ← perform c; l ← perform_all cs; mret (a :: l)
  end.
End mm.

Example calls_run :
  (perform_all 65536 [CMalloc 1; CMalloc 100; CFree (Some 65552); CMalloc 5000; CFree (Some 65568);
     CMalloc 24; CRealloc (Some 65552) 100; CFree None; CRealloc (Some 70688) 0; CMalloc 0]
     (mem_init 65536)).1 =
  Ret [APtr (Some 65552); APtr (Some 65568); AVoid; APtr (Some 65680); AVoid;
       APtr (Some 65552); APtr (Some 70688); AVoid; APtr None; APtr None].
Proof. vm_compute. reflexivity. Qed.

#[local] Arguments read_word : simpl never.
#[local] Arguments write_word : simpl never.

(** ** Words *)

Lemma write_word_other m p v x : x < p ∨ p + 4 <= x → write_word m p v !! x = m !! x.
Proof. intros Hx. unfold write_word, bytes32. by rewrite !lookup_insert_ne by lia. Qed.

Lemma read_write_word m p v : 0 <= v < 2 ^ 32 → read_word (write_word m p v) p = Some v.
Proof.
  intros Hv. unfold read_word. pose proof (load32_bytes32 v Hv) as Hl.
  unfold write_word, bytes32 in *. cbv beta iota.
  rewrite lookup_insert_eq. cbn [mbind option_bind].
  rewrite (lookup_insert_ne _ p (p + 1)), lookup_insert_eq by lia. cbn [mbind option_bind].
  rewrite (lookup_insert_ne _ p (p + 2)), (lookup_insert_ne _ (p + 1) (p + 2)), lookup_insert_eq by lia. cbn [mbind option_bind].
  rewrite (lookup_insert_ne _ p (p + 3)), (lookup_insert_ne _ (p + 1) (p + 3)),
    (lookup_insert_ne _ (p + 2) (p + 3)), lookup_insert_eq by lia. cbn [mbind option_bind].
  by rewrite Hl.
Qed.

Lemma read_word_frame m m' p :
  (∀ x, p <= x < p + 4 → m' !! x = m !! x) → read_word m' p = read_word m p.
Proof. intros Hx. unfold read_word. by rewrite !Hx by lia. Qed.

Lemma read_write_other m p v q : q + 4 <= p ∨ p + 4 <= q → read_word (write_word m p v) q = read_word m q.
Proof. intros Hq. apply read_word_frame. intros x Hx. apply write_word_other. lia. Qed.

(** The word of a block of size [s]. *)
Definition tag (s : Z) (a : bool) : Z := s + (if a then 1 else 0).

Lemma tag_alloc s (a : bool) : (8 | s) → Z.land (tag s a) 1 = if a then 1 else 0.
Proof.
  intros [q ->]. unfold tag. pose proof (λ x, Z.land_ones x 1 ltac:(lia)) as Hl.
  change (Z.ones 1) with 1 in Hl. rewrite Hl.
  replace (q * 8) with (q * 4 * 2 ^ 1) by lia. rewrite Z.add_comm, Z.mod_add by lia. by destruct a.
Qed.

Lemma PACK_tag s (a : bool) : (8 | s) → 0 <= s → PACK s (if a then 1 else 0) = tag s a.
Proof.
  intros Hs Hn. unfold PACK, tag. destruct a; [|by rewrite Z.lor_0_r, Z.add_0_r].
  pose proof (tag_alloc s false Hs) as Hl. unfold tag in Hl. rewrite Z.add_0_r in Hl.
  rewrite Z.add_nocarry_lxor, Z.lxor_lor by done. done.
Qed.

Lemma tag_size s (a : bool) : (8 | s) → 0 <= s < 2 ^ 32 - 8 → Z.land (tag s a) (wrap32 (Z.lnot 7)) = s.
Proof.
  intros [q ->] Hs. unfold tag.
  assert (Hm : wrap32 (Z.lnot 7) = Z.ldiff (Z.ones 32) (Z.ones 3)) by done.
  rewrite Hm, Z.ldiff_land, Z.land_assoc, (Z.land_ones _ 32), Z.mod_small by (destruct a; lia).
  rewrite <- Z.ldiff_land, Z.ldiff_ones_r, Z.shiftl_mul_pow2, Z.shiftr_div_pow2 by lia.
  change (2 ^ 3) with 8. pose proof (Z.div_mod (q * 8 + (if a then 1 else 0)) 8 ltac:(lia)).
  pose proof (Z.mod_pos_bound (q * 8 + (if a then 1 else 0)) 8 ltac:(lia)). destruct a; lia.
Qed.


(** ** Blocks in memory *)

Section proofs.
Context (mem_heap : Z) (Hbase : 0 < mem_heap) (Hal : (8 | mem_heap)).

(** A store to a word. *)
Definition upd (h : heap) (p v : Z) : heap :=
  Heap (write_word (mem h) p (wrap32 v)) (mem_brk h) (heap_listp h).

Definition word_is (h : heap) (p v : Z) : Prop :=
  word_at mem_heap p = true ∧ read_word (mem h) p = Some v.
Definition hdr (h : heap) (bp s : Z) (a : bool) : Prop :=
  (8 | bp) ∧ (8 | s) ∧ 0 <= s < 2 ^ 32 - 8 ∧ word_is h (bp - 4) (tag s a).
Definition blk (h : heap) (bp s : Z) (a : bool) : Prop :=
  hdr h bp s a ∧ 8 <= s ∧ word_is h (bp + s - 8) (tag s a).

Lemma tag_range s (a : bool) : 0 <= s < 2 ^ 32 - 8 → 0 <= tag s a < 2 ^ 32.
Proof. unfold tag. destruct a; lia. Qed.

Lemma GET_run h p v : word_is h p v → GET mem_heap p h = (Ret v, h).
Proof. intros [Hp Hv]. unfold GET. by rewrite Hp, Hv. Qed.

Lemma PUT_run h p v : word_at mem_heap p = true → PUT mem_heap p v h = (Ret (), upd h p v).
Proof. intros Hp. unfold PUT. by rewrite Hp. Qed.

Lemma word_is_upd h p v : word_at mem_heap p = true → 0 <= v < 2 ^ 32 → word_is (upd h p v) p v.
Proof. intros Hp Hv. split; [done|]. cbn. rewrite wrap32_small by done. by apply read_write_word. Qed.

Lemma word_is_upd_ne h p v q w :
  q + 4 <= p ∨ p + 4 <= q → word_is h q w → word_is (upd h p v) q w.
Proof. intros Hq [? Hw]. split; [done|]. cbn. by rewrite read_write_other. Qed.

Lemma GET_SIZE_run h p s a :
  (8 | s) → 0 <= s < 2 ^ 32 - 8 → word_is h p (tag s a) → GET_SIZE mem_heap p h = (Ret s, h).
Proof. intros Hs Hr Hw. unfold GET_SIZE. run_prog. rewrite (GET_run _ _ _ Hw). by rewrite tag_size. Qed.

Lemma GET_ALLOC_run h p s (a : bool) :
  (8 | s) → word_is h p (tag s a) → GET_ALLOC mem_heap p h = (Ret (if a then 1 else 0), h).
Proof. intros Hs Hw. unfold GET_ALLOC. run_prog. rewrite (GET_run _ _ _ Hw). by rewrite tag_alloc. Qed.

Lemma hdr_size h bp s a : hdr h bp s a → GET_SIZE mem_heap (HDRP bp) h = (Ret s, h).
Proof. intros (_ & ? & ? & ?). by eapply GET_SIZE_run. Qed.
Lemma hdr_alloc h bp s (a : bool) :
  hdr h bp s a → GET_ALLOC mem_heap (HDRP bp) h = (Ret (if a then 1 else 0), h).
Proof. intros (_ & ? & ? & ?). by eapply GET_ALLOC_run. Qed.
Lemma hdr_next h bp s a : hdr h bp s a → NEXT_BLKP mem_heap bp h = (Ret (bp + s), h).
Proof. intros H%hdr_size. unfold NEXT_BLKP. run_prog. unfold HDRP in H. by rewrite H. Qed.
Lemma hdr_footer h bp s a : hdr h bp s a → FTRP mem_heap bp h = (Ret (bp + s - 8), h).
Proof. intros H%hdr_size. unfold FTRP. run_prog. by rewrite H. Qed.
Lemma blk_footer_size h bp s a : blk h bp s a → GET_SIZE mem_heap (bp + s - 8) h = (Ret s, h).
Proof. intros ((_ & ? & ? & _) & _ & ?). by eapply GET_SIZE_run. Qed.
Lemma blk_footer_alloc h bp s (a : bool) :
  blk h bp s a → GET_ALLOC mem_heap (bp + s - 8) h = (Ret (if a then 1 else 0), h).
Proof. intros ((_ & ? & ? & _) & _ & ?). by eapply GET_ALLOC_run. Qed.
Lemma blk_prev h pb ps a bp : blk h pb ps a → bp = pb + ps → PREV_BLKP mem_heap bp h = (Ret pb, h).
Proof.
  intros H%blk_footer_size ->. unfold PREV_BLKP, DSIZE. run_prog. rewrite H. do 2 f_equal. lia.
Qed.

Lemma put_header_run h bp v :
  word_at mem_heap (bp - 4) = true → put_header mem_heap bp v h = (Ret (), upd h (bp - 4) v).
Proof. apply PUT_run. Qed.
Lemma put_footer_run h bp s a v :
  hdr h bp s a → word_at mem_heap (bp + s - 8) = true →
  put_footer mem_heap bp v h = (Ret (), upd h (bp + s - 8) v).
Proof.
  intros H%hdr_footer Hw. unfold put_footer. run_prog. rewrite H. by apply PUT_run.
Qed.

Lemma hdr_upd_ne h p v bp s a : bp <= p ∨ p + 4 <= bp - 4 → hdr h bp s a → hdr (upd h p v) bp s a.
Proof. intros Hp (? & ? & ? & ?). do 3 (split; [done|]). apply word_is_upd_ne; [lia|done]. Qed.

(** The header word makes a header, with the footer word it makes a block. *)
Lemma hdr_upd h bp s (a : bool) :
  (8 | bp) → (8 | s) → 0 <= s < 2 ^ 32 - 8 → word_at mem_heap (bp - 4) = true →
  hdr (upd h (bp - 4) (tag s a)) bp s a.
Proof. intros. do 3 (split; [done|]). apply word_is_upd; [done|by apply tag_range]. Qed.
Lemma blk_upd h bp s (a : bool) :
  hdr h bp s a → 8 <= s → word_at mem_heap (bp + s - 8) = true →
  blk (upd h (bp + s - 8) (tag s a)) bp s a.
Proof.
  intros H Hs Hw. pose proof H as (? & ? & ? & ?).
  split; [apply hdr_upd_ne; [lia|done]|]. split; [done|]. apply word_is_upd; [done|by apply tag_range].
Qed.

Lemma upd_other h p v x : x < p ∨ p + 4 <= x → mem (upd h p v) !! x = mem h !! x.
Proof. apply write_word_other. Qed.

Lemma blk_frame h h' bp s a :
  (∀ x, bp - 4 <= x < bp + s - 4 → mem h' !! x = mem h !! x) → blk h bp s a → blk h' bp s a.
Proof.
  intros Hm ((? & ? & ? & ? & Hh) & ? & ? & Hf). split; [do 3 (split; [done|])|split; [done|]].
  - split; [done|]. rewrite <- Hh. apply read_word_frame. intros x Hx. apply Hm. lia.
  - split; [done|]. rewrite <- Hf. apply read_word_frame. intros x Hx. apply Hm. lia.
Qed.

Lemma prev_run h bp ps a :
  (8 | ps) → 0 <= ps < 2 ^ 32 - 8 → word_is h (bp - 8) (tag ps a) →
  PREV_BLKP mem_heap bp h = (Ret (bp - ps), h).
Proof.
  intros Hs Hr Hw. unfold PREV_BLKP, DSIZE. run_prog. by rewrite (GET_SIZE_run _ _ _ _ Hs Hr Hw).
Qed.

Lemma PACK_free s : PACK s 0 = tag s false.
Proof. unfold PACK, tag. by rewrite Z.lor_0_r, Z.add_0_r. Qed.

(** ** coalesce *)

(** Only the bytes of one region have changed. *)
Definition only_in (lo hi : Z) (h h' : heap) : Prop :=
  mem_brk h' = mem_brk h ∧ heap_listp h' = heap_listp h ∧
  ∀ x, ¬ (lo <= x < hi) → mem h' !! x = mem h !! x.

Lemma only_in_refl lo hi h : only_in lo hi h h.
Proof. done. Qed.
Lemma only_in_upd lo hi h h' p v :
  only_in lo hi h h' → lo <= p → p + 4 <= hi → only_in lo hi h (upd h' p v).
Proof.
  intros (Hb & Hl & Hm) Hlo Hhi. split; [done|]. split; [done|].
  intros x Hx. rewrite upd_other by lia. by apply Hm.
Qed.
Lemma only_in_weaken lo hi lo' hi' h h' :
  only_in lo hi h h' → lo' <= lo → hi <= hi' → only_in lo' hi' h h'.
Proof. intros (Hb & Hl & Hm) ? ?. split; [done|]. split; [done|]. intros x Hx. apply Hm. lia. Qed.

Section coalesce.
Context (h : heap) (bp pb ps s ns : Z).
Context (Hbp : bp = pb + ps) (Hs : blk h bp s false) (Hsum : ps + s + ns < 2 ^ 32 - 8).

Lemma coalesce_start (pa na : bool) :
  blk h pb ps pa → hdr h (bp + s) ns na →
  PREV_BLKP mem_heap bp h = (Ret pb, h) ∧ FTRP mem_heap pb h = (Ret (bp - 8), h) ∧
  GET_ALLOC mem_heap (bp - 8) h = (Ret (if pa then 1 else 0), h) ∧
  GET_SIZE mem_heap (HDRP pb) h = (Ret ps, h) ∧
  NEXT_BLKP mem_heap bp h = (Ret (bp + s), h) ∧
  GET_ALLOC mem_heap (HDRP (bp + s)) h = (Ret (if na then 1 else 0), h) ∧
  GET_SIZE mem_heap (HDRP (bp + s)) h = (Ret ns, h) ∧
  GET_SIZE mem_heap (HDRP bp) h = (Ret s, h).
Proof.
  intros Hp Hn. pose proof (blk_prev _ _ _ _ bp Hp Hbp). pose proof (hdr_footer _ _ _ _ (proj1 Hp)) as Hf.
  pose proof (blk_footer_alloc _ _ _ _ Hp) as Ha. rewrite <- Hbp in Hf, Ha.
  pose proof (hdr_size _ _ _ _ (proj1 Hp)). pose proof (hdr_next _ _ _ _ (proj1 Hs)).
  pose proof (hdr_alloc _ _ _ _ Hn). pose proof (hdr_size _ _ _ _ Hn).
  pose proof (hdr_size _ _ _ _ (proj1 Hs)). done.
Qed.

Ltac start Hp Hn :=
  destruct (coalesce_start _ _ Hp Hn) as (E1 & E2 & E3 & E4 & E5 & E6 & E7 & E8);
  unfold coalesce; run_prog; rewrite E1, E2, E3, E5, E6, E8; cbn [negb andb Z.eqb];
  rewrite ?E1, ?E4, ?E5, ?E7.

Lemma coalesce_case1 :
  blk h pb ps true → hdr h (bp + s) ns true → coalesce mem_heap bp h = (Ret bp, h).
Proof. intros Hp Hn. by start Hp Hn. Qed.

Lemma coalesce_case2 :
  blk h pb ps true → blk h (bp + s) ns false →
  ∃ h', coalesce mem_heap bp h = (Ret bp, h') ∧ blk h' bp (s + ns) false ∧
    only_in (bp - 4) (bp + s + ns - 4) h h'.
Proof.
  intros Hp Hn. start Hp (proj1 Hn). pose proof Hs as ((? & ? & ? & Hw & _) & ? & _).
  pose proof Hn as ((_ & ? & ? & _) & ? & Hwn & _). pose proof Hp as (_ & ? & _).
  rewrite (wrap64_small (s + ns)), PACK_free by lia.
  assert (Hh := hdr_upd h bp (s + ns) false ltac:(done) ltac:(by apply Z.divide_add_r) ltac:(lia) Hw).
  assert (Hwn' : word_at mem_heap (bp + (s + ns) - 8) = true) by (by rewrite Z.add_assoc).
  rewrite put_header_run by done. rewrite (put_footer_run _ _ _ _ _ Hh) by done.
  eexists. split; [done|]. split; [apply blk_upd; [done|lia|done]|].
  apply only_in_upd; [apply only_in_upd; [apply only_in_refl|..]|..]; lia.
Qed.

Lemma coalesce_case3 :
  blk h pb ps false → hdr h (bp + s) ns true →
  ∃ h', coalesce mem_heap bp h = (Ret pb, h') ∧ blk h' pb (ps + s) false ∧
    only_in (pb - 4) (bp + s - 4) h h'.
Proof.
  intros Hp Hn. start Hp Hn. pose proof Hs as (Hh & ? & Hw). pose proof Hh as (? & ? & ? & _).
  pose proof Hp as ((? & ? & ? & Hwp & _) & ? & Hwf). pose proof (proj1 Hn) as ?.
  pose proof Hn as (_ & _ & ? & _).
  rewrite (wrap64_small (s + ps)), PACK_free by lia.
  rewrite (put_footer_run _ _ _ _ _ Hh) by apply Hw.
  assert (Hr : 0 <= ps < 2 ^ 32 - 8) by lia.
  assert (Hwf1 : word_is (upd h (bp + s - 8) (tag (s + ps) false)) (bp - 8) (tag ps false)).
  { apply word_is_upd_ne; [lia|]. by rewrite Hbp. }
  rewrite (prev_run _ _ ps _ ltac:(done) Hr Hwf1).
  replace (bp - ps) with pb by lia. rewrite put_header_run by done.
  assert (Hwf2 := word_is_upd_ne _ (pb - 4) (tag (s + ps) false) (bp - 8) _ ltac:(lia) Hwf1).
  rewrite (prev_run _ _ ps _ ltac:(done) Hr Hwf2). replace (bp - ps) with pb by lia.
  rewrite (Z.add_comm ps s).
  eexists. split; [done|]. split.
  - split; [apply hdr_upd; [done|by apply Z.divide_add_r|lia|done]|]. split; [lia|].
    replace (pb + (s + ps) - 8) with (bp + s - 8) by lia. apply word_is_upd_ne; [lia|].
    apply word_is_upd; [apply Hw|apply tag_range; lia].
  - apply only_in_upd; [apply only_in_upd; [apply only_in_refl|..]|..]; lia.
Qed.

Lemma coalesce_case4 :
  blk h pb ps false → blk h (bp + s) ns false →
  ∃ h', coalesce mem_heap bp h = (Ret pb, h') ∧ blk h' pb (ps + s + ns) false ∧
    only_in (pb - 4) (bp + s + ns - 4) h h'.
Proof.
  intros Hp Hn. start Hp (proj1 Hn). pose proof Hs as (Hh & ? & Hw). pose proof Hh as (? & ? & ? & _).
  pose proof Hp as ((? & ? & ? & Hwp & _) & ? & Hwf). pose proof Hn as (Hhn & ? & Hwn).
  pose proof Hhn as (_ & ? & ? & _).
  rewrite (hdr_footer _ _ _ _ Hhn), (blk_footer_size _ _ _ _ Hn).
  rewrite (wrap32_small (ps + ns)), (wrap64_small (s + (ps + ns))), PACK_free by lia.
  rewrite E1, put_header_run by done.
  assert (Hh1 := hdr_upd_ne h (pb - 4) (tag (s + (ps + ns)) false) bp _ _ ltac:(lia) Hh).
  rewrite (hdr_next _ _ _ _ Hh1).
  assert (Hhn1 := hdr_upd_ne h (pb - 4) (tag (s + (ps + ns)) false) (bp + s) _ _ ltac:(lia) Hhn).
  rewrite (put_footer_run _ _ _ _ _ Hhn1) by apply Hwn.
  assert (Hr : 0 <= ps < 2 ^ 32 - 8) by lia.
  set (h2 := upd (upd h _ _) _ _).
  assert (Hwf2 : word_is h2 (bp - 8) (tag ps false)).
  { do 2 (apply word_is_upd_ne; [lia|]). by rewrite Hbp. }
  rewrite (prev_run _ _ ps _ ltac:(done) Hr Hwf2). replace (bp - ps) with pb by lia.
  replace (ps + s + ns) with (s + (ps + ns)) by lia.
  eexists. split; [done|]. split.
  - split; [apply hdr_upd_ne; [lia|apply hdr_upd]|split; [lia|]].
    + done.
    + by do 2 (apply Z.divide_add_r; [done|]).
    + lia.
    + done.
    + replace (pb + (s + (ps + ns)) - 8) with (bp + s + ns - 8) by lia.
      apply word_is_upd; [apply Hwn|apply tag_range; lia].
  - apply only_in_upd; [apply only_in_upd; [apply only_in_refl|..]|..]; lia.
Qed.
End coalesce.

(** ** The list of blocks *)

(** Blocks from [p] up to [e], each with its size and whether it is allocated. *)
Fixpoint blocks (h : heap) (p : Z) (L : list (Z * bool)) (e : Z) : Prop :=
  match L with
  | [] => p = e
  | (s, a) :: L => blk h p s a ∧ 16 <= s ∧ blocks h (p + s) L e
  end.
Definition sizes (L : list (Z * bool)) : Z := foldr (λ b n, b.1 + n) 0 L.

(** The allocated blocks with their payload's address. *)
Fixpoint used (p : Z) (L : list (Z * bool)) : list (Z * Z) :=
  match L with
  | [] => []
  | (s, a) :: L => (if a : bool then [(p, s)] else []) ++ used (p + s) L
  end.

(** No two neighbours are free; [a] is the bit of the block before the list. *)
Fixpoint merged (a : bool) (L : list (Z * bool)) : Prop :=
  match L with [] => True | (_, b) :: L => a || b = true ∧ merged b L end.
Definition last_bit (a : bool) (L : list (Z * bool)) : bool := foldl (λ _ b, b.2) a L.

Lemma merged_app a L1 L2 : merged a (L1 ++ L2) ↔ merged a L1 ∧ merged (last_bit a L1) L2.
Proof.
  revert a. induction L1 as [|[s b] L1 IH]; intros a; simpl; [naive_solver|].
  unfold last_bit in *. simpl. rewrite IH. naive_solver.
Qed.
Lemma merged_weaken a L : merged a L → merged true L.
Proof. destruct L as [|[s b] L]; simpl; [done|]. by intros [_ ?]. Qed.

Lemma blocks_end h p L e : blocks h p L e → e = p + sizes L ∧ 0 <= sizes L.
Proof.
  revert p. induction L as [|[s a] L IH]; simpl; intros p; [lia|].
  intros (_ & Hs & H%IH). lia.
Qed.

Lemma blocks_length h p L e : blocks h p L e → 16 * Z.of_nat (length L) <= sizes L.
Proof.
  revert p. induction L as [|[s a] L IH]; simpl; intros p; [lia|]. intros (_ & Hs & H%IH). lia.
Qed.

Lemma blocks_app h p L1 L2 e :
  blocks h p (L1 ++ L2) e ↔ blocks h p L1 (p + sizes L1) ∧ blocks h (p + sizes L1) L2 e.
Proof.
  revert p. induction L1 as [|[s a] L1 IH]; intros p; simpl.
  - rewrite Z.add_0_r. naive_solver.
  - rewrite IH, Z.add_assoc. naive_solver.
Qed.

Lemma blocks_frame h h' p L e :
  (∀ x, p - 4 <= x < e - 4 → mem h' !! x = mem h !! x) → blocks h p L e → blocks h' p L e.
Proof.
  revert p. induction L as [|[s a] L IH]; simpl; intros p Hm; [done|]. intros (Hb & Hs & HL).
  pose proof (blocks_end _ _ _ _ HL). split; [eapply blk_frame; [|done]|split; [done|apply IH; [|done]]];
    intros x Hx; apply Hm; lia.
Qed.

Lemma used_app p L1 L2 : used p (L1 ++ L2) = used p L1 ++ used (p + sizes L1) L2.
Proof.
  revert p. induction L1 as [|[s a] L1 IH]; intros p; simpl; [by rewrite Z.add_0_r|].
  by rewrite IH, <- app_assoc, Z.add_assoc.
Qed.

(** An allocated block is in the list, at its address. *)
Lemma used_split p L q s :
  (q, s) ∈ used p L → ∃ L1 L2, L = L1 ++ (s, true) :: L2 ∧ q = p + sizes L1.
Proof.
  revert p. induction L as [|[s' a] L IH]; intros p; simpl; [by intros ?%elem_of_nil|].
  intros [H|(L1 & L2 & -> & ->)%IH]%elem_of_app.
  - destruct a; [|by apply elem_of_nil in H]. apply list_elem_of_singleton in H.
    injection H as -> ->. exists [], L. by rewrite Z.add_0_r.
  - exists ((s', a) :: L1), L2. simpl. split; [done|lia].
Qed.

(** Allocated blocks lie between the ends, and two of them do not overlap. *)
Lemma used_range h p L e q s :
  blocks h p L e → (q, s) ∈ used p L → p <= q ∧ q + s <= e ∧ 16 <= s ∧ blk h q s true.
Proof.
  intros HL (L1 & L2 & -> & ->)%used_split. apply blocks_app in HL as [H1 (Hb & Hs & H2)].
  apply blocks_end in H1. apply blocks_end in H2. split_and!; [lia..|done].
Qed.

Lemma used_around h p L1 s a L2 e q t :
  blocks h p (L1 ++ (s, a) :: L2) e → (q, t) ∈ used p L1 ++ used (p + sizes L1 + s) L2 →
  q + t <= p + sizes L1 ∨ p + sizes L1 + s <= q.
Proof.
  intros [H1 (_ & _ & H2)]%blocks_app [Hq|Hq]%elem_of_app.
  - left. by apply (used_range _ _ _ _ _ _ H1) in Hq as (_ & ? & _).
  - right. by apply (used_range _ _ _ _ _ _ H2) in Hq as (? & _).
Qed.

(** ** The invariant *)

Record inv (h : heap) (L : list (Z * bool)) : Prop := {
  i_listp : heap_listp h = mem_heap + 8;
  i_prologue : blk h (mem_heap + 8) 8 true;
  i_blocks : blocks h (mem_heap + 16) L (mem_brk h);
  i_epilogue : hdr h (mem_brk h) 0 true;
  i_max : mem_brk h <= mem_max_addr mem_heap }.

Lemma inv_brk h L : inv h L → mem_brk h = mem_heap + 16 + sizes L ∧ 0 <= sizes L.
Proof. intros I. apply (blocks_end _ _ _ _ (i_blocks _ _ I)). Qed.

(** A change inside one free or freed region keeps everything around it. *)
Lemma inv_replace h h' L1 M L2 M' :
  inv h (L1 ++ M ++ L2) → sizes M' = sizes M →
  only_in (mem_heap + 16 + sizes L1 - 4) (mem_heap + 16 + sizes L1 + sizes M - 4) h h' →
  blocks h' (mem_heap + 16 + sizes L1) M' (mem_heap + 16 + sizes L1 + sizes M) →
  inv h' (L1 ++ M' ++ L2).
Proof.
  intros I Hsz (Hb & Hl & Hm) HM'. pose proof (i_blocks _ _ I) as HL.
  rewrite !blocks_app in HL. destruct HL as (H1 & HM & H2).
  pose proof (blocks_end _ _ _ _ H1). pose proof (blocks_end _ _ _ _ HM).
  pose proof (blocks_end _ _ _ _ H2).
  split.
  - rewrite Hl. apply I.
  - eapply blk_frame; [|apply I]. intros x Hx. apply Hm. lia.
  - rewrite !blocks_app, Hb, Hsz. split_and!; [|done|];
      (eapply blocks_frame; [|done]); intros x Hx; apply Hm; lia.
  - rewrite Hb. destruct (i_epilogue _ _ I) as (? & ? & ? & ? & Hw).
    do 4 (split; [done|]). rewrite <- Hw. apply read_word_frame. intros x Hx. apply Hm. lia.
  - rewrite Hb. apply I.
Qed.

Abbreviation base := (mem_heap + 16).

(** The neighbours of a block: the prologue or a block, a block or the epilogue. *)
Lemma previous h L1 L2 :
  inv h (L1 ++ L2) → ∃ pb ps, base + sizes L1 = pb + ps ∧ mem_heap + 8 <= pb ∧
    blk h pb ps (last_bit true L1) ∧
    (last_bit true L1 = false → ∃ L, L1 = L ++ [(ps, false)] ∧ pb = base + sizes L ∧ 16 <= ps).
Proof.
  intros I. destruct L1 as [|[ps pa] L _] using rev_ind.
  - exists (mem_heap + 8), 8. split; [simpl; lia|]. split; [lia|]. split; [apply I|done].
  - pose proof (i_blocks _ _ I) as HL. apply blocks_app in HL as [HL _].
    apply blocks_app in HL as [H1 (Hb & Hs & _)]. apply blocks_end in H1.
    assert (sizes (L ++ [(ps, pa)]) = sizes L + ps) as ->.
    { clear. unfold sizes. induction L as [|x L IH]; simpl; [lia|]. rewrite IH. lia. }
    assert (last_bit true (L ++ [(ps, pa)]) = pa) as -> by (unfold last_bit; by rewrite foldl_app).
    exists (base + sizes L), ps. split_and!; [lia..|done|]. intros ->. eauto.
Qed.

Lemma following h L1 L2 :
  inv h (L1 ++ L2) → ∃ ns na, hdr h (base + sizes L1) ns na ∧ base + sizes L1 + ns <= mem_brk h ∧
    (na = true → merged true L2 → merged false L2) ∧
    (na = false → ∃ L, L2 = (ns, false) :: L ∧ blk h (base + sizes L1) ns false ∧ 16 <= ns).
Proof.
  intros I. pose proof (i_blocks _ _ I) as HL. apply blocks_app in HL as [_ H2].
  destruct L2 as [|[ns na] L]; simpl in H2.
  - exists 0, true. rewrite H2. split; [apply I|]. split; [lia|done].
  - destruct H2 as (Hb & Hs & HL). apply blocks_end in HL. exists ns, na. split; [apply Hb|].
    split; [lia|]. split; [by intros -> [_ ?]|]. intros ->. by exists L.
Qed.

Lemma sizes_app L1 L2 : sizes (L1 ++ L2) = sizes L1 + sizes L2.
Proof. unfold sizes. induction L1 as [|x L1 IH]; simpl; [lia|]. rewrite IH. lia. Qed.

(** Neighbours that have become one free block. *)
Lemma merge_region h h' L1 M L2 s lo hi :
  inv h (L1 ++ M ++ L2) → sizes M = s → 16 <= s → blk h' (base + sizes L1) s false →
  only_in lo hi h h' → lo = base + sizes L1 - 4 → hi = base + sizes L1 + s - 4 →
  inv h' (L1 ++ (s, false) :: L2).
Proof.
  intros I Hsz Hs Hb O -> ->. apply (inv_replace h h' L1 M L2 [(s, false)]); simpl; [done|lia| |].
  - by rewrite Hsz.
  - split_and!; [done|lia..].
Qed.

(** [coalesce] makes one free block of a block and its free neighbours, and nothing else
    moves. *)
Lemma coalesce_inv h L1 s L2 :
  inv h (L1 ++ (s, false) :: L2) → merged true L1 → merged true L2 →
  ∃ h' L1' s' L2',
    coalesce mem_heap (base + sizes L1) h = (Ret (base + sizes L1'), h') ∧
    inv h' (L1' ++ (s', false) :: L2') ∧ merged true (L1' ++ (s', false) :: L2') ∧ s <= s' ∧
    used base (L1' ++ (s', false) :: L2') = used base (L1 ++ (s, false) :: L2) ∧
    only_in (base + sizes L1' - 4) (base + sizes L1' + s' - 4) h h'.
Proof.
  intros I HM1 HM2. pose proof (inv_brk _ _ I) as Hbrk. pose proof (i_max _ _ I) as Hmax.
  unfold mem_max_addr, MAX_HEAP in Hmax.
  assert (Hb : blk h (base + sizes L1) s false ∧ 16 <= s).
  { pose proof (i_blocks _ _ I) as HL. apply blocks_app in HL as [_ (? & ? & _)]. done. }
  destruct Hb as [Hb Hs].
  destruct (previous _ _ _ I) as (pb & ps & Hbp & Hpb & Hp & Hprev).
  assert (I' : inv h ((L1 ++ [(s, false)]) ++ L2)) by (by rewrite <- app_assoc).
  destruct (following _ _ _ I') as (ns & na & Hn & Hns & Hmn & Hnext).
  rewrite sizes_app in Hn, Hns, Hnext. simpl in Hn, Hns, Hnext. rewrite Z.add_0_r, Z.add_assoc in Hn, Hns, Hnext.
  assert (Hsum : ps + s + ns < 2 ^ 32 - 8) by lia.
  destruct (last_bit true L1) eqn:Epa, na.
  - exists h, L1, s, L2. rewrite (coalesce_case1 _ _ _ _ _ _ Hbp Hb Hp Hn).
    split_and!; try done.
    apply merged_app. rewrite Epa. simpl. auto.
  - destruct (Hnext eq_refl) as (L & -> & Hbn & Hns').
    destruct (coalesce_case2 _ _ _ _ _ _ Hbp Hb Hsum Hp Hbn) as (h' & -> & Hb' & Ho).
    exists h', L1, (s + ns), L. split; [done|]. split; [|split; [|split; [lia|split]]].
    + eapply (merge_region h h' L1 [(s, false); (ns, false)] L _ _ _ I); [simpl; lia|lia|done|exact Ho|lia|lia].
    + apply merged_app. rewrite Epa. simpl. destruct HM2 as [_ ?]. auto.
    + rewrite !used_app. simpl. by rewrite Z.add_assoc.
    + by rewrite Z.add_assoc.
  - destruct (Hprev eq_refl) as (L & -> & -> & Hps).
    destruct (coalesce_case3 _ _ _ _ _ _ Hbp Hb Hsum Hp Hn) as (h' & -> & Hb' & Ho).
    exists h', L, (ps + s), L2. rewrite sizes_app in *. simpl in *.
    split; [done|]. split; [|split; [|split; [lia|split]]].
    + rewrite <- app_assoc in I.
      by eapply (merge_region h h' L [(ps, false); (s, false)] L2 _ _ _ I); [simpl; lia|lia|done|exact Ho|lia|lia].
    + apply merged_app in HM1 as [? [HL _]]. apply merged_app. simpl. auto.
    + rewrite !used_app. simpl. rewrite app_nil_r, sizes_app. simpl. do 2 f_equal. lia.
    + eapply only_in_weaken; [done|lia..].
  - destruct (Hprev eq_refl) as (L & -> & -> & Hps). destruct (Hnext eq_refl) as (L' & -> & Hbn & Hns').
    destruct (coalesce_case4 _ _ _ _ _ _ Hbp Hb Hsum Hp Hbn) as (h' & -> & Hb' & Ho).
    exists h', L, (ps + s + ns), L'. rewrite sizes_app in *. simpl in *.
    split; [done|]. split; [|split; [|split; [lia|split]]].
    + rewrite <- app_assoc in I.
      by eapply (merge_region h h' L [(ps, false); (s, false); (ns, false)] L' _ _ _ I); [simpl; lia|lia|done|exact Ho|lia|lia].
    + apply merged_app in HM1 as [? [HL _]]. destruct HM2 as [_ ?]. apply merged_app. simpl. auto.
    + rewrite !used_app. simpl. rewrite app_nil_r, sizes_app. simpl. do 2 f_equal. lia.
    + eapply only_in_weaken; [done|lia..].
Qed.

(** ** place *)

Lemma word_at_header bp :
  (8 | bp) → mem_heap <= bp - 4 → bp <= mem_max_addr mem_heap → word_at mem_heap (bp - 4) = true.
Proof.
  intros [k ->] ? ?. unfold word_at, WSIZE. rewrite !andb_true_iff, !Z.leb_le, Z.eqb_eq.
  split; [lia|]. replace (k * 8 - 4) with ((k * 2 - 1) * 4) by lia. apply Z_mod_mult.
Qed.
Lemma word_at_footer bp s :
  (8 | bp) → (8 | s) → mem_heap <= bp + s - 8 → bp + s - 4 <= mem_max_addr mem_heap →
  word_at mem_heap (bp + s - 8) = true.
Proof.
  intros [i ->] [j ->] ? ?. unfold word_at, WSIZE. rewrite !andb_true_iff, !Z.leb_le, Z.eqb_eq.
  split; [lia|].
  replace (i * 8 + j * 8 - 8) with ((i * 2 + j * 2 - 2) * 4) by lia. apply Z_mod_mult.
Qed.

(** Writing a block's two words; the region is already the heap's. *)
Lemma put_block h bp s (a : bool) :
  (8 | bp) → (8 | s) → 8 <= s < 2 ^ 32 - 8 → mem_heap <= bp - 4 → bp + s - 4 <= mem_max_addr mem_heap →
  ∃ h1 h2, put_header mem_heap bp (tag s a) h = (Ret (), h1) ∧ hdr h1 bp s a ∧
    put_footer mem_heap bp (tag s a) h1 = (Ret (), h2) ∧ blk h2 bp s a ∧
    only_in (bp - 4) (bp + s - 4) h h2.
Proof.
  intros Hbp Hs Hr Hlo Hhi.
  assert (Hw : word_at mem_heap (bp - 4) = true) by (apply word_at_header; [done|lia..]).
  assert (Hf : word_at mem_heap (bp + s - 8) = true) by (apply word_at_footer; [done..|lia|lia]).
  assert (Hh := hdr_upd h bp s a Hbp Hs ltac:(lia) Hw).
  eexists _, _. rewrite put_header_run by done. split; [done|]. split; [done|].
  rewrite (put_footer_run _ _ _ _ _ Hh Hf). split; [done|].
  split; [apply blk_upd; [done|lia|done]|].
  apply only_in_upd; [apply only_in_upd; [apply only_in_refl|..]|..]; lia.
Qed.

Lemma only_in_trans lo hi h1 h2 h3 : only_in lo hi h1 h2 → only_in lo hi h2 h3 → only_in lo hi h1 h3.
Proof.
  intros (Hb & Hl & Hm) (Hb' & Hl' & Hm'). split; [congruence|]. split; [congruence|].
  intros x Hx. by rewrite Hm', Hm.
Qed.

Lemma inv_block h L1 s a L2 :
  inv h (L1 ++ (s, a) :: L2) →
  blk h (base + sizes L1) s a ∧ 16 <= s ∧ base <= base + sizes L1 ∧
  base + sizes L1 + s <= mem_brk h <= mem_heap + MAX_HEAP.
Proof.
  intros I. pose proof (i_blocks _ _ I) as HL. apply blocks_app in HL as [H1 (Hb & Hs & H2)].
  apply blocks_end in H1. apply blocks_end in H2. pose proof (i_max _ _ I). unfold mem_max_addr, MAX_HEAP in *. split; [done|]. lia.
Qed.

(** The start of a free block becomes an allocated one; a rest of at least sixteen bytes
    stays free. *)
Lemma place_inv h L1 s L2 asize :
  inv h (L1 ++ (s, false) :: L2) → merged true (L1 ++ (s, false) :: L2) →
  (8 | asize) → 16 <= asize <= s →
  ∃ h' t R,
    place mem_heap (base + sizes L1) asize h = (Ret (), h') ∧
    inv h' (L1 ++ (t, true) :: R ++ L2) ∧ merged true (L1 ++ (t, true) :: R ++ L2) ∧
    asize <= t ∧ sizes R = s - t ∧ used (base + sizes L1 + t) R = [] ∧
    only_in (base + sizes L1 - 4) (base + sizes L1 + s - 4) h h'.
Proof.
  intros I HM Hd Ha. destruct (inv_block _ _ _ _ _ I) as (Hb & Hs & Hlo & Hhi & Hmax).
  pose proof Hb as ((Hbp & Hds & Hr & _) & _ & _). unfold MAX_HEAP in Hmax.
  apply merged_app in HM as [HM1 [HM2 HM3]].
  unfold place. run_prog. rewrite (hdr_size _ _ _ _ (proj1 Hb)). rewrite wrap64_small by lia.
  unfold DSIZE. destruct (Z.leb_spec (2 * 8) (s - asize)) as [Hbig|Hsmall].
  - rewrite !PACK_free, (PACK_tag asize true) by (done || lia).
    destruct (put_block h (base + sizes L1) asize true) as (h1 & h2 & E1 & _ & E2 & Hb2 & O2);
      [done..|lia|lia|unfold mem_max_addr, MAX_HEAP; lia|]. rewrite E1, E2.
    rewrite (hdr_next _ _ _ _ (proj1 Hb2)).
    destruct (put_block h2 (base + sizes L1 + asize) (s - asize) false) as (h3 & h4 & E3 & _ & E4 & Hb4 & O4);
      [by apply Z.divide_add_r|by apply Z.divide_sub_r|lia|lia|unfold mem_max_addr, MAX_HEAP; lia|].
    rewrite E3, E4.
    assert (O : only_in (base + sizes L1 - 4) (base + sizes L1 + s - 4) h h4).
    { eapply only_in_trans; (eapply only_in_weaken; [eassumption|lia|lia]). }
    exists h4, asize, [(s - asize, false)]. split; [done|]. split.
    + apply (inv_replace h h4 L1 [(s, false)] L2 [(asize, true); (s - asize, false)]); simpl; [done|lia| |].
      * eapply only_in_weaken; [done|lia..].
      * split_and!; [|lia|done|lia..]. eapply blk_frame; [|exact Hb2]. intros x Hx. apply O4. lia.
    + split; [|simpl; split_and!; [lia|lia|done..]]. apply merged_app. split; [done|].
      simpl. rewrite orb_true_r. done.
  - rewrite !(PACK_tag s true) by (done || lia).
    destruct (put_block h (base + sizes L1) s true) as (h1 & h2 & E1 & _ & E2 & Hb2 & O2);
      [done..|lia|lia|unfold mem_max_addr, MAX_HEAP; lia|]. rewrite E1, E2.
    exists h2, s, []. split; [done|]. split.
    + apply (inv_replace h h2 L1 [(s, false)] L2 [(s, true)]); simpl; [done|lia| |].
      * eapply only_in_weaken; [done|lia..].
      * split_and!; [done|lia..].
    + split; [|simpl; split_and!; [lia|lia|done..]]. apply merged_app. split; [done|].
      simpl. rewrite orb_true_r. split; [done|]. by eapply merged_weaken.
Qed.

(** ** extend_heap, find_fit and mm_init *)

(** Allocated blocks keep their bytes, tags included. *)
Definition keeps (L : list (Z * bool)) (h h' : heap) : Prop :=
  ∀ q t, (q, t) ∈ used base L → ∀ x, q - 4 <= x < q + t - 4 → mem h' !! x = mem h !! x.

Lemma keeps_only_in h h' L1 s L2 lo hi :
  inv h (L1 ++ (s, false) :: L2) → only_in lo hi h h' →
  base + sizes L1 - 4 <= lo → hi <= base + sizes L1 + s - 4 →
  keeps (L1 ++ (s, false) :: L2) h h'.
Proof.
  intros I (_ & _ & Hm) Hlo Hhi q t Hq x Hx. apply Hm.
  rewrite used_app in Hq. simpl in Hq. apply (used_around _ _ _ _ _ _ _ _ _ (i_blocks _ _ I)) in Hq. lia.
Qed.

(** The new region as a free block at the end of the heap, before it is merged. *)
Lemma grow_inv h L n :
  inv h L → (8 | n) → 16 <= n → mem_brk h + n <= mem_max_addr mem_heap →
  ∃ h0 h1 h2 h3, mem_sbrk mem_heap n h = (Ret (mem_brk h), h0) ∧
    put_header mem_heap (mem_brk h) (tag n false) h0 = (Ret (), h1) ∧
    put_footer mem_heap (mem_brk h) (tag n false) h1 = (Ret (), h2) ∧
    NEXT_BLKP mem_heap (mem_brk h) h2 = (Ret (mem_brk h + n), h2) ∧
    put_header mem_heap (mem_brk h + n) (tag 0 true) h2 = (Ret (), h3) ∧
    inv h3 (L ++ [(n, false)]) ∧ keeps L h h3 ∧ mem_brk h3 = mem_brk h + n.
Proof.
  intros I Hd Hn Hroom. destruct (inv_brk _ _ I) as [Hbrk Hsz]. pose proof (i_epilogue _ _ I) as (Hdb & _).
  unfold mem_max_addr, MAX_HEAP in Hroom.
  set (h0 := Heap (mem h) (mem_brk h + n) (heap_listp h)).
  destruct (put_block h0 (mem_brk h) n false) as (h1 & h2 & E1 & _ & E2 & Hb2 & Hb' & Hl & Hm);
    [done..|lia|lia|unfold mem_max_addr, MAX_HEAP; lia|].
  assert (Hw : word_at mem_heap (mem_brk h + n - 4) = true).
  { apply word_at_header; [by apply Z.divide_add_r|lia|unfold mem_max_addr, MAX_HEAP; lia]. }
  exists h0, h1, h2, (upd h2 (mem_brk h + n - 4) (tag 0 true)).
  split; [|split; [done|split; [done|split; [apply (hdr_next _ _ _ _ (proj1 Hb2))|split;
    [by apply put_header_run|split; [|split; [|done]]]]]]].
  - unfold mem_sbrk, mem_max_addr, MAX_HEAP. ztest; [lia|lia|lia|done].
  - assert (Hsame : ∀ x, x < mem_brk h - 4 →
      mem (upd h2 (mem_brk h + n - 4) (tag 0 true)) !! x = mem h !! x).
    { intros x Hx. rewrite upd_other by lia. by rewrite Hm by lia. }
    split; cbn [heap_listp mem_brk upd].
    + rewrite Hl. apply I.
    + eapply blk_frame; [|apply I]. intros x Hx. apply Hsame. lia.
    + rewrite Hb', blocks_app, <- Hbrk. split.
      * eapply blocks_frame; [|apply I]. intros x Hx. by apply Hsame; lia.
      * simpl. split_and!; [|lia|done]. eapply blk_frame; [|exact Hb2].
        intros x Hx. rewrite upd_other by lia. done.
    + rewrite Hb'. apply hdr_upd; [by apply Z.divide_add_r|by exists 0|lia|done].
    + rewrite Hb'. unfold mem_max_addr, MAX_HEAP. simpl. lia.
  - intros q t Hq x Hx. destruct (used_range _ _ _ _ _ _ (i_blocks _ _ I) Hq) as (? & ? & _).
    rewrite upd_other by lia. rewrite Hm by lia. done.
Qed.

Lemma extend_inv h L n :
  inv h L → merged true L → (8 | n) → 16 <= n < 2 ^ 31 →
  (mem_max_addr mem_heap < mem_brk h + n ∧ extend_heap mem_heap (n / WSIZE) h = (Ret NULL, h)) ∨
  ∃ h' L1 s L2, extend_heap mem_heap (n / WSIZE) h = (Ret (base + sizes L1), h') ∧
    inv h' (L1 ++ (s, false) :: L2) ∧ merged true (L1 ++ (s, false) :: L2) ∧ n <= s ∧
    used base (L1 ++ (s, false) :: L2) = used base L ∧ keeps L h h' ∧ mem_brk h' = mem_brk h + n.
Proof.
  intros I HM Hd Hn. destruct (inv_brk _ _ I) as [Hbrk Hsz].
  assert (Hsize : (if n / WSIZE mod 2 =? 0 then wrap64 (n / WSIZE * WSIZE)
                   else wrap64 ((n / WSIZE + 1) * WSIZE)) = n).
  { destruct Hd as [k ->]. unfold WSIZE. replace (k * 8) with (k * 2 * 4) by lia.
    rewrite Z.div_mul, Z_mod_mult by lia. simpl. apply wrap64_small. lia. }
  unfold extend_heap. rewrite Hsize. rewrite sext_small by (simpl; lia).
  destruct (Z.ltb_spec (mem_max_addr mem_heap) (mem_brk h + n)) as [Hfull|Hroom].
  - left. split; [done|]. run_prog. unfold mem_sbrk.
    rewrite (proj2 (Z.ltb_lt _ _) Hfull), orb_true_r. done.
  - right. destruct (grow_inv h L n I Hd ltac:(lia) Hroom) as (h0 & h1 & h2 & h3 & E0 & E1 & E2 & E3 & E4 & I3 & K3 & B3).
    run_prog. rewrite E0. destruct (Z.eqb_spec (mem_brk h) (-1)) as [?|_]; [lia|].
    rewrite PACK_free, E1, E2, E3. change (PACK 0 1) with (tag 0 true). rewrite E4.
    destruct (coalesce_inv h3 L n [] I3 HM) as (h' & L1 & s & L2 & E & I' & HM' & Hs & Hu & O); [done|].
    rewrite <- Hbrk in E. exists h', L1, s, L2. split; [done|]. do 3 (split; [done|]).
    assert (Hu' : used base (L1 ++ (s, false) :: L2) = used base L).
    { rewrite Hu, used_app. simpl. apply app_nil_r. }
    split; [done|]. split; [|by rewrite <- B3; apply O].
    intros q t Hq x Hx. rewrite <- (K3 q t Hq x Hx). apply O.
    rewrite <- Hu', used_app in Hq. simpl in Hq.
    apply (used_around _ _ _ _ _ _ _ _ _ (i_blocks _ _ I')) in Hq. lia.
Qed.

(** The search finds the first free block that is large enough. *)
Lemma find_fit_spec h L asize p fuel :
  blocks h p L (mem_brk h) → hdr h (mem_brk h) 0 true → (length L <= fuel)%nat →
  (find_fit_loop mem_heap fuel asize p h = (Ret NULL, h) ∧ Forall (λ b, b.2 = false → b.1 < asize) L) ∨
  ∃ L1 s L2, L = L1 ++ (s, false) :: L2 ∧ asize <= s ∧
    find_fit_loop mem_heap fuel asize p h = (Ret (p + sizes L1), h).
Proof.
  revert p fuel. induction L as [|[s a] L IH]; simpl; intros p fuel HL He Hf.
  - left. split; [|done]. rewrite HL. destruct fuel; simpl; run_prog; by rewrite (hdr_size _ _ _ _ He).
  - destruct HL as (Hb & Hs & HL). destruct fuel as [|fuel]; [lia|]. simpl. run_prog.
    rewrite (hdr_size _ _ _ _ (proj1 Hb)). destruct (Z.ltb_spec 0 s); [|lia].
    rewrite (hdr_alloc _ _ _ _ (proj1 Hb)), (hdr_size _ _ _ _ (proj1 Hb)).
    destruct a; simpl.
    + rewrite (hdr_next _ _ _ _ (proj1 Hb)).
      destruct (IH _ fuel HL He ltac:(lia)) as [[-> HF]|(L1 & s' & L2 & -> & Hfit & ->)].
      * left. split; [done|]. by constructor.
      * right. exists ((s, true) :: L1), s', L2. simpl. by rewrite Z.add_assoc.
    + destruct (Z.leb_spec asize s).
      * right. exists [], s, L. simpl. by rewrite Z.add_0_r.
      * rewrite (hdr_next _ _ _ _ (proj1 Hb)).
        destruct (IH _ fuel HL He ltac:(lia)) as [[-> HF]|(L1 & s' & L2 & -> & Hfit & ->)].
        -- left. split; [done|]. by constructor.
        -- right. exists ((s, false) :: L1), s', L2. simpl. by rewrite Z.add_assoc.
Qed.

Lemma find_fit_inv h L asize :
  inv h L →
  (find_fit mem_heap asize h = (Ret NULL, h) ∧ Forall (λ b, b.2 = false → b.1 < asize) L) ∨
  ∃ L1 s L2, L = L1 ++ (s, false) :: L2 ∧ asize <= s ∧
    find_fit mem_heap asize h = (Ret (base + sizes L1), h).
Proof.
  intros I. destruct (inv_brk _ _ I) as [Hbrk _]. unfold find_fit. run_prog.
  assert (Hlen : 16 * Z.of_nat (length L) <= sizes L).
  { eapply blocks_length, I. }
  unfold mem_heapsize, DSIZE.
  assert (Hfuel : (S (length L) <= Z.to_nat ((mem_brk h - mem_heap) / 8))%nat).
  { pose proof (Z.div_le_lower_bound (mem_brk h - mem_heap) 8 (Z.of_nat (S (length L)))). lia. }
  destruct (Z.to_nat _) as [|fuel]; [lia|]. simpl. run_prog. rewrite (i_listp _ _ I).
  pose proof (i_prologue _ _ I) as Hp.
  rewrite (hdr_size _ _ _ _ (proj1 Hp)). change (0 <? 8) with true. cbv beta iota.
  rewrite (hdr_alloc _ _ _ _ (proj1 Hp)), (hdr_size _ _ _ _ (proj1 Hp)). simpl.
  rewrite (hdr_next _ _ _ _ (proj1 Hp)).
  replace (mem_heap + 8 + 8) with base by lia.
  apply (find_fit_spec h L asize base fuel); [apply I|apply I|lia].
Qed.

Lemma mm_init_ok h :
  mem_brk h = mem_heap → mem_heap + MAX_HEAP < 2 ^ 63 →
  ∃ h' L, mm_init mem_heap h = (Ret 0, h') ∧ inv h' L ∧ merged true L ∧ used base L = [] ∧
    mem_brk h' = mem_heap + 4112.
Proof.
  intros Hb Hend. unfold mm_init. run_prog. unfold WSIZE, DSIZE.
  assert (E0 : mem_sbrk mem_heap (4 * 4) h =
    (Ret mem_heap, Heap (mem h) (mem_heap + 16) (heap_listp h))).
  { unfold mem_sbrk, mem_max_addr, MAX_HEAP. rewrite Hb. ztest; [lia|lia|lia|done]. }
  rewrite E0. unfold set_listp at 1. run_prog. destruct (Z.eqb_spec mem_heap (-1)); [lia|].
  assert (Hw : ∀ k, 0 <= k < 4 → word_at mem_heap (mem_heap + 4 * k) = true).
  { intros k Hk. destruct Hal as [q Hq]. unfold word_at, WSIZE, mem_max_addr, MAX_HEAP.
    rewrite !andb_true_iff, !Z.leb_le, Z.eqb_eq. split; [lia|].
    replace (mem_heap + 4 * k) with ((q * 2 + k) * 4) by lia. apply Z_mod_mult. }
  rewrite PUT_run by (rewrite <- (Z.add_0_r mem_heap) at 2; by apply (Hw 0)).
  change (PACK 8 1) with (tag 8 true). change (PACK 0 1) with (tag 0 true).
  rewrite (PUT_run _ (mem_heap + 1 * 4)) by by apply (Hw 1).
  rewrite (PUT_run _ (mem_heap + 2 * 4)) by by apply (Hw 2).
  rewrite (PUT_run _ (mem_heap + 3 * 4)) by by apply (Hw 3).
  unfold set_listp. run_prog. set (h1 := Heap _ _ (mem_heap + 2 * 4)).
  assert (I : inv h1 []).
  { assert (Hd : (8 | mem_heap + 8)) by (apply Z.divide_add_r; [done|by exists 1]).
    split; [done| |simpl; lia| |unfold mem_max_addr, MAX_HEAP; simpl; lia].
    - split; [|split; [done|]].
      + split; [done|]. split; [by exists 1|]. split; [lia|].
        replace (mem_heap + 8 - 4) with (mem_heap + 1 * 4) by lia. split; [by apply (Hw 1)|].
        simpl. rewrite !read_write_other by lia. by rewrite read_write_word.
      + replace (mem_heap + 8 + 8 - 8) with (mem_heap + 2 * 4) by lia. split; [by apply (Hw 2)|].
        simpl. rewrite !read_write_other by lia. by rewrite read_write_word.
    - simpl. split; [apply Z.divide_add_r; [done|by exists 2]|]. split; [by exists 0|]. split; [lia|].
      replace (mem_heap + 16 - 4) with (mem_heap + 3 * 4) by lia. split; [by apply (Hw 3)|].
      simpl. by rewrite read_write_word. }
  destruct (extend_inv h1 [] 4096 I Logic.I ltac:(by exists 512) ltac:(lia)) as
    [[Hfull _]|(h' & L1 & s & L2 & E & I' & HM & Hs & Hu & _ & B)].
  - unfold mem_max_addr, MAX_HEAP in Hfull. simpl in Hfull. lia.
  - unfold CHUNKSIZE. unfold WSIZE in E. rewrite E.
    destruct (inv_block _ _ _ _ _ I') as (_ & _ & Hlo & _).
    destruct (Z.eqb_spec (base + sizes L1) NULL) as [H0|_]; [unfold NULL in H0; lia|].
    eexists _, _. split; [done|]. do 3 (split; [done|]). rewrite B. simpl. lia.
Qed.

(** ** mm_malloc *)

Lemma adjust_spec n : 0 < n <= 2 ^ 31 - 16 → (8 | adjust n) ∧ 16 <= adjust n < 2 ^ 31 ∧ n + 8 <= adjust n.
Proof.
  intros Hn. unfold adjust, DSIZE. destruct (Z.leb_spec n 8); [split; [by exists 2|lia]|].
  rewrite (wrap64_small (n + 8 + (8 - 1))) by lia.
  pose proof (Z.div_mod (n + 8 + (8 - 1)) 8 ltac:(lia)).
  pose proof (Z.mod_pos_bound (n + 8 + (8 - 1)) 8 ltac:(lia)).
  rewrite wrap64_small by lia. split; [|lia]. by exists ((n + 8 + (8 - 1)) / 8); lia.
Qed.

(** The address and size of a new block, among the allocated ones. *)
Definition obtained (L : list (Z * bool)) (n : Z) (p t : Z) (L' : list (Z * bool)) : Prop :=
  ∃ U1 U2, used base L = U1 ++ U2 ∧ used base L' = U1 ++ (p, t) :: U2 ∧ n + 8 <= t.

Lemma place_obtains h L1 s L2 asize n :
  inv h (L1 ++ (s, false) :: L2) → merged true (L1 ++ (s, false) :: L2) →
  (8 | asize) → 16 <= asize <= s → n + 8 <= asize →
  ∃ h' t L', place mem_heap (base + sizes L1) asize h = (Ret (), h') ∧ inv h' L' ∧ merged true L' ∧
    obtained (L1 ++ (s, false) :: L2) n (base + sizes L1) t L' ∧
    keeps (L1 ++ (s, false) :: L2) h h'.
Proof.
  intros I HM Hd Ha Hn.
  destruct (place_inv h L1 s L2 asize I HM Hd Ha) as (h' & t & R & E & I' & HM' & Ht & HR & Hu & O).
  exists h', t, (L1 ++ (t, true) :: R ++ L2). do 3 (split; [done|]). split.
  - exists (used base L1), (used (base + sizes L1 + s) L2). rewrite !used_app. simpl.
    rewrite used_app, Hu, HR. simpl. do 2 (split; [do 3 f_equal; lia || done|]). lia.
  - eapply keeps_only_in; [done..|lia|lia].
Qed.

Lemma malloc_ok h L n :
  inv h L → merged true L → 0 < n <= 2 ^ 31 - 16 →
  (mem_max_addr mem_heap < mem_brk h + Z.max (adjust n) CHUNKSIZE ∧
   mm_malloc mem_heap n h = (Ret NULL, h)) ∨
  ∃ p t h' L', mm_malloc mem_heap n h = (Ret p, h') ∧ inv h' L' ∧ merged true L' ∧
    obtained L n p t L' ∧ keeps L h h'.
Proof.
  intros I HM Hn. destruct (adjust_spec n Hn) as (Hd & Ha & Hna).
  assert (Hinit : init_if_needed mem_heap h = (Ret (), h)).
  { unfold init_if_needed. run_prog. rewrite (i_listp _ _ I).
    by destruct (Z.eqb_spec (mem_heap + 8) NULL) as [H0|_]; [unfold NULL in H0; lia|]. }
  assert (Hnn : ∀ h L1 L2, inv h (L1 ++ L2) → (base + sizes L1 =? NULL) = false).
  { intros h2 L1 L2 I2. apply Z.eqb_neq. unfold NULL. pose proof (i_blocks _ _ I2) as HL.
    apply blocks_app in HL as [H1%blocks_end _]. lia. }
  unfold mm_malloc. run_prog. rewrite Hinit. destruct (Z.eqb_spec n 0) as [?|_]; [lia|].
  destruct (find_fit_inv h L (adjust n) I) as [[-> _]|(L1 & s & L2 & -> & Hfit & ->)].
  - simpl. destruct (extend_inv h L (Z.max (adjust n) CHUNKSIZE) I HM) as
      [[Hfull ->]|(h1 & L1 & s & L2 & -> & I1 & HM1 & Hs & Hu & K1 & _)].
    { destruct (Z.max_spec (adjust n) CHUNKSIZE) as [[_ ->]|[_ ->]]; [by exists 512|done]. }
    { unfold CHUNKSIZE. lia. }
    { by left. }
    right. rewrite (Hnn _ _ _ I1).
    destruct (place_obtains h1 L1 s L2 (adjust n) n I1 HM1 Hd ltac:(lia) Hna) as
      (h' & t & L' & -> & I' & HM' & (U1 & U2 & HU & HU' & Ht) & K').
    exists (base + sizes L1), t, h', L'. do 3 (split; [done|]). split.
    + exists U1, U2. by rewrite <- Hu, HU.
    + intros q u Hq x Hx. rewrite K' with q u x; [by eapply K1|by rewrite Hu|done].
  - right. rewrite (Hnn _ _ _ I). simpl.
    destruct (place_obtains h L1 s L2 (adjust n) n I HM Hd ltac:(lia) Hna) as (h' & t & L' & -> & ?).
    exists (base + sizes L1), t, h', L'. done.
Qed.

(** ** What the other blocks see of a call *)

(** The allocated blocks at the addresses in [P] are still there, with their bytes. *)
Definition retains (P : Z → Prop) (h : heap) (L : list (Z * bool)) (h' : heap) (L' : list (Z * bool)) :=
  ∀ r v, (r, v) ∈ used base L → P r →
    (r, v) ∈ used base L' ∧ ∀ x, r - 4 <= x < r + v - 4 → mem h' !! x = mem h !! x.

Lemma used_sorted h p L e U1 q s U2 :
  blocks h p L e → used p L = U1 ++ (q, s) :: U2 →
  (∀ r t, (r, t) ∈ U1 → r + t <= q) ∧ (∀ r t, (r, t) ∈ U2 → q + s <= r).
Proof.
  revert p U1. induction L as [|[s0 a] L IH]; simpl; intros p U1.
  - by destruct U1.
  - intros (Hb & Hs & HL) HU. destruct a; simpl in HU; [|by eapply IH].
    destruct U1 as [|[r0 t0] U1]; simpl in HU.
    + injection HU as <- <- HU. split; [by intros ? ? ?%elem_of_nil|]. intros r t Hr.
      rewrite <- HU in Hr. by apply (used_range _ _ _ _ _ _ HL) in Hr as (? & _).
    + injection HU as <- <- HU. destruct (IH _ _ HL HU) as [H1 H2]. split; [|done].
      intros r t [[= -> ->]|Hr]%elem_of_cons; [|by apply H1].
      assert (Hq : (q, s) ∈ used (p + s0) L) by (rewrite HU; set_solver).
      by apply (used_range _ _ _ _ _ _ HL) in Hq as (? & _).
Qed.

(** Allocated blocks at different addresses are apart. *)
Lemma used_apart h L q s r t :
  inv h L → (q, s) ∈ used base L → (r, t) ∈ used base L → (q = r ∧ s = t) ∨ q + s <= r ∨ r + t <= q.
Proof.
  intros I Hq Hr. apply list_elem_of_split in Hq as (U1 & U2 & HU).
  destruct (used_sorted _ _ _ _ _ _ _ _ (i_blocks _ _ I) HU) as [H1 H2].
  rewrite HU in Hr. apply elem_of_app in Hr as [Hr|[[= -> ->]|Hr]%elem_of_cons]; [|by left|].
  - right. right. by eapply H1.
  - right. left. by eapply H2.
Qed.

(** A block that a call handed out: large enough, and apart from the blocks before. *)
Definition handed_out (P : Z → Prop) (L : list (Z * bool)) (n p t : Z) (L' : list (Z * bool)) : Prop :=
  (p, t) ∈ used base L' ∧ n + 8 <= t ∧
  ∀ r v, (r, v) ∈ used base L → P r → r + v <= p ∨ p + t <= r.

Lemma obtained_spec h h' L L' n p t :
  inv h' L' → obtained L n p t L' → keeps L h h' →
  handed_out (λ _, True) L n p t L' ∧ retains (λ _, True) h L h' L'.
Proof.
  intros I (U1 & U2 & HU & HU' & Hn) K. unfold handed_out, retains. rewrite HU'.
  destruct (used_sorted _ _ _ _ _ _ _ _ (i_blocks _ _ I) HU') as [H1 H2].
  split; [split; [set_solver|split; [done|]]|].
  - intros r v Hr _. rewrite HU in Hr. apply elem_of_app in Hr as [Hr|Hr]; [left; by eapply H1|].
    right. by eapply H2.
  - intros r v Hr _. split; [|by apply K]. rewrite HU in Hr. set_solver.
Qed.

(** ** mm_free *)

Lemma init_done h L : inv h L → init_if_needed mem_heap h = (Ret (), h).
Proof.
  intros I. unfold init_if_needed. run_prog. rewrite (i_listp _ _ I).
  destruct (Z.eqb_spec (mem_heap + 8) NULL) as [H0|_]; [unfold NULL in H0; lia|done].
Qed.

Lemma free_ok h L p t :
  inv h L → merged true L → (p, t) ∈ used base L →
  ∃ h' L', mm_free mem_heap p h = (Ret (), h') ∧ inv h' L' ∧ merged true L' ∧
    retains (λ r, r ≠ p) h L h' L'.
Proof.
  intros I HM Hp. destruct (used_split _ _ _ _ Hp) as (L1 & L2 & -> & ->).
  destruct (inv_block _ _ _ _ _ I) as (Hb & Hs & Hlo & Hhi & Hmax).
  pose proof Hb as ((Hd & Hdt & Hr & _) & _). unfold MAX_HEAP in Hmax.
  apply merged_app in HM as [HM1 [_ HM2]].
  unfold mm_free. run_prog. destruct (Z.eqb_spec (base + sizes L1) 0) as [?|_]; [lia|].
  rewrite (hdr_size _ _ _ _ (proj1 Hb)), (init_done _ _ I), PACK_free.
  destruct (put_block h (base + sizes L1) t false) as (h1 & h2 & -> & _ & -> & Hb2 & O2);
    [done..|lia|lia|unfold mem_max_addr, MAX_HEAP; lia|].
  assert (I2 : inv h2 (L1 ++ (t, false) :: L2)).
  { apply (inv_replace h h2 L1 [(t, true)] L2 [(t, false)]); simpl; [done|lia| |].
    - eapply only_in_weaken; [done|lia..].
    - split_and!; [done|lia..]. }
  destruct (coalesce_inv h2 L1 t L2 I2 HM1 HM2) as (h' & L1' & s' & L2' & -> & I' & HM' & _ & Hu & O).
  exists h', (L1' ++ (s', false) :: L2'). do 3 (split; [done|]).
  intros r v Hrv Hne. assert (Hrv' : (r, v) ∈ used base L1 ++ used (base + sizes L1 + t) L2).
  { rewrite used_app in Hrv. simpl in Hrv. apply elem_of_app in Hrv as [?|[[= ? ?]|?]%elem_of_cons];
      [set_solver|done|set_solver]. }
  assert (Hin : (r, v) ∈ used base (L1' ++ (s', false) :: L2')) by (by rewrite Hu, used_app).
  split; [done|]. intros x Hx. trans (mem h2 !! x).
  - apply O. rewrite used_app in Hin. simpl in Hin.
    apply (used_around _ _ _ _ _ _ _ _ _ (i_blocks _ _ I')) in Hin. lia.
  - apply O2. apply (used_around _ _ _ _ _ _ _ _ _ (i_blocks _ _ I)) in Hrv'. lia.
Qed.

(** ** mm_realloc and the client's bytes *)

(** Writing inside the payload of an allocated block leaves the heap as it is. *)
Lemma payload_inv h h' L q t lo hi :
  inv h L → (q, t) ∈ used base L → only_in lo hi h h' → q <= lo → hi <= q + t - 8 →
  inv h' L ∧ retains (λ r, r ≠ q) h L h' L.
Proof.
  intros I Hq O Hlo Hhi. split.
  - destruct (used_split _ _ _ _ Hq) as (L1 & L2 & -> & ->).
    destruct (inv_block _ _ _ _ _ I) as (Hb & Hs & _).
    apply (inv_replace h h' L1 [(t, true)] L2 [(t, true)]); simpl; [done..| |].
    + eapply only_in_weaken; [done|lia..].
    + split_and!; [|done|lia]. destruct Hb as ((? & ? & ? & ? & Hh) & ? & ? & Hf).
      destruct O as (_ & _ & Hm). split; [do 4 (split; [done|])|split; [done|split; [done|]]].
      * rewrite <- Hh. apply read_word_frame. intros x Hx. apply Hm. lia.
      * rewrite <- Hf. apply read_word_frame. intros x Hx. apply Hm. lia.
  - intros r v Hr Hne. split; [done|]. intros x Hx. apply O.
    destruct (used_apart _ _ _ _ _ _ I Hq Hr) as [[? _]|Hap]; [done|]. lia.
Qed.

Lemma realloc_ok h L p t n :
  inv h L → merged true L → (p, t) ∈ used base L → 0 < n <= 2 ^ 31 - 16 →
  (mem_max_addr mem_heap < mem_brk h + Z.max (adjust n) CHUNKSIZE ∧
   mm_realloc mem_heap p n h = (Ret NULL, h)) ∨
  ∃ q u h' L', mm_realloc mem_heap p n h = (Ret q, h') ∧ inv h' L' ∧ merged true L' ∧
    handed_out (λ r, r ≠ p) L n q u L' ∧ retains (λ r, r ≠ p) h L h' L' ∧
    ∀ i, 0 <= i < Z.min n (t - 8) → mem h' !! (q + i) = mem h !! (p + i).
Proof.
  intros I HM Hp Hn. destruct (used_range _ _ _ _ _ _ (i_blocks _ _ I) Hp) as (Hlo & Hhi & Ht & _).
  unfold mm_realloc. run_prog. destruct (Z.eqb_spec n 0) as [?|_]; [lia|].
  destruct (Z.eqb_spec p NULL) as [H0|_]; [unfold NULL in H0; lia|].
  destruct (malloc_ok h L n I HM Hn) as [[Hfull ->]|(q & u & h1 & L1 & -> & I1 & HM1 & Ho & K1)].
  { left. split; [done|]. by rewrite (proj2 (Z.eqb_eq NULL NULL) eq_refl). }
  right. destruct (obtained_spec _ _ _ _ _ _ _ I1 Ho K1) as [(Hq & Hu & Hap) R1].
  destruct (used_range _ _ _ _ _ _ (i_blocks _ _ I1) Hq) as (Hq1 & Hq2 & _ & _).
  destruct (Z.eqb_spec q NULL) as [H0|_]; [unfold NULL in H0; lia|].
  destruct (R1 p t Hp Logic.I) as [Hp1 Hm1].
  destruct (used_range _ _ _ _ _ _ (i_blocks _ _ I1) Hp1) as (_ & Hhi1 & _ & Hb1).
  rewrite (hdr_size _ _ _ _ (proj1 Hb1)). set (m := if n <? t then n else t).
  assert (Hm : m <= n ∧ m <= t ∧ 0 <= m ∧ Z.min n (t - 8) <= m) by (unfold m; ztest; lia).
  pose proof (i_max _ _ I1) as Hmax. unfold mem_max_addr, MAX_HEAP in Hmax.
  specialize (Hap p t Hp Logic.I) as Hpq.
  set (h2 := Heap (copy_bytes q p m (mem h1)) (mem_brk h1) (heap_listp h1)).
  assert (E2 : memcpy mem_heap q p m h1 = (Ret (), h2)).
  { unfold memcpy, mem_max_addr, MAX_HEAP.
    rewrite !(proj2 (Z.leb_le _ _)) by lia. simpl.
    replace ((q + m <=? p) || (p + m <=? q)) with true; [done|]. symmetry.
    rewrite orb_true_iff, !Z.leb_le. lia. }
  rewrite E2. assert (O2 : only_in q (q + m) h1 h2).
  { do 2 (split; [done|]). intros x Hx. simpl. rewrite lookup_copy_bytes. by case_bool_decide. }
  destruct (payload_inv h1 h2 L1 q u q (q + m) I1 Hq O2) as [I2 R2]; [lia..|].
  destruct (free_ok h2 L1 p t I2 HM1 Hp1) as (h3 & L3 & -> & I3 & HM3 & R3).
  destruct (R3 q u Hq ltac:(simpl; lia)) as [Hq3 Hm3].
  exists q, u, h3, L3. do 3 (split; [done|]). split; [|split].
  - split; [done|]. split; [done|]. intros r v Hr _. by apply Hap.
  - intros r v Hr Hne. destruct (R1 r v Hr Logic.I) as [Hr1 Hmr1].
    assert (r ≠ q) by (intros ->; specialize (Hap q v Hr Logic.I);
      apply (used_range _ _ _ _ _ _ (i_blocks _ _ I)) in Hr; lia).
    destruct (R2 r v Hr1) as [_ Hmr2]; [done|]. destruct (R3 r v Hr1 Hne) as [Hr3 Hmr3].
    split; [done|]. intros x Hx. by rewrite Hmr3, Hmr2, Hmr1.
  - intros i Hi. rewrite Hm3 by lia. simpl. rewrite lookup_copy_bytes, bool_decide_eq_true_2 by lia.
    replace (p + (q + i - q)) with (p + i) by lia. apply Hm1. lia.
Qed.

(** ** The contract *)

(** Each live pointer is an allocated block that holds its bytes. *)
Definition holds (h : heap) (L : list (Z * bool)) (live : owned) : Prop :=
  ∀ p cs, live !! p = Some cs → ∃ t, (p, t) ∈ used base L ∧ Z.of_nat (length cs) + 8 <= t ∧
    ∀ i c, cs !! i = Some (Some c) → mem h !! (p + Z.of_nat i) = Some c.

(** The heap before its first use, or set up. *)
Definition represents (h : heap) (live : owned) : Prop :=
  (heap_listp h = NULL ∧ mem_brk h = mem_heap ∧ live = ∅) ∨
  ∃ L, inv h L ∧ merged true L ∧ holds h L live.

(** A request may fail when what is left of the heap is less than the request and the
    start-up of the heap need. *)
Definition may_fail (h : heap) (n : Z) : Prop :=
  mem_max_addr mem_heap < mem_brk h + 4112 + Z.max (adjust n) CHUNKSIZE.

Lemma holds_retains P h L h' L' live :
  holds h L live → retains P h L h' L' → (∀ p, is_Some (live !! p) → P p) → holds h' L' live.
Proof.
  intros Hl HR HP p cs Hp. destruct (Hl p cs Hp) as (t & Ht & Hlen & Hbytes).
  destruct (HR p t Ht) as [Ht' Hm]; [by apply HP|]. exists t. split; [done|]. split; [done|].
  intros i c Hi. apply lookup_lt_Some in Hi as Hlt. rewrite Hm by lia. by apply Hbytes.
Qed.

Lemma holds_insert (P : Z → Prop) h L h' L' (live : owned) n p t cs :
  holds h L live → retains P h L h' L' → handed_out P L n p t L' → (∀ p, is_Some (live !! p) → P p) →
  inv h' L' → 0 < n → Z.of_nat (length cs) = n →
  (∀ i c, cs !! i = Some (Some c) → mem h' !! (p + Z.of_nat i) = Some c) →
  fresh_range 8 live p n ∧ holds h' L' (<[p := cs]> live).
Proof.
  intros Hl HR (Hp & Hn & Hap) HP I Hn0 Hlen Hbytes. split; [split|].
  - apply (used_range _ _ _ _ _ _ (i_blocks _ _ I)) in Hp as (_ & _ & _ & (Hd & _) & _). done.
  - intros q ds Hq. destruct (Hl q ds Hq) as (u & Hu & ? & _).
    specialize (Hap q u Hu (HP q ltac:(eauto))). lia.
  - intros q ds [[<- <-]|[Hne Hq]]%lookup_insert_Some.
    + exists t. split; [done|]. split; [lia|done].
    + by eapply (holds_retains P).
Qed.

(** Set up if it was not, with nothing else changed. *)
Lemma ready h live :
  mem_heap + MAX_HEAP < 2 ^ 63 → represents h live →
  ∃ h1 L, init_if_needed mem_heap h = (Ret (), h1) ∧ inv h1 L ∧ merged true L ∧ holds h1 L live ∧
    mem_brk h1 <= mem_brk h + 4112.
Proof.
  intros Hend [(Hl & Hb & ->)|(L & I & HM & Hh)].
  - destruct (mm_init_ok h Hb Hend) as (h1 & L & E & I & HM & _ & B). exists h1, L.
    split; [|do 2 (split; [done|]); split; [done|lia]].
    unfold init_if_needed. run_prog. rewrite Hl. change (NULL =? NULL) with true. cbv beta iota. by rewrite E.
  - exists h, L. split; [by eapply init_done|]. do 3 (split; [done|]). lia.
Qed.

Lemma malloc_after_init h h1 n :
  init_if_needed mem_heap h = (Ret (), h1) → init_if_needed mem_heap h1 = (Ret (), h1) →
  mm_malloc mem_heap n h = mm_malloc mem_heap n h1.
Proof. intros E E1. unfold mm_malloc. run_prog. by rewrite E, E1. Qed.

Lemma of_ptr_some p : 0 < p → of_ptr p = Some p.
Proof. intros Hp. unfold of_ptr, NULL. by destruct (Z.eqb_spec p 0); [lia|]. Qed.

(** The outcome of a request for [n] bytes that hands over [cs] from [live]. *)
Definition requested (h : heap) (live : owned) (n : Z) (cs : list (option ascii)) (r : outcome Z * heap)
    (live0 : owned) : Prop :=
  (∃ h', r = (Ret NULL, h') ∧ may_fail h n ∧ represents h' live0) ∨
  ∃ p h', r = (Ret p, h') ∧ 0 < p ∧ fresh_range 8 live p n ∧ represents h' (<[p := resize n cs]> live).

Lemma mm_simulate_malloc h live n :
  mem_heap + MAX_HEAP < 2 ^ 63 → represents h live → 0 < n <= 2 ^ 31 - 16 →
  requested h live n [] (mm_malloc mem_heap n h) live.
Proof.
  intros Hend Hrep Hn. destruct (ready h live Hend Hrep) as (h1 & L & E & I & HM & Hl & B).
  rewrite (malloc_after_init _ _ _ E (init_done _ _ I)).
  destruct (malloc_ok h1 L n I HM Hn) as [[Hfull E1]|(p & t & h' & L' & E1 & I' & HM' & Ho & K)].
  - left. exists h1. split; [done|]. split; [unfold may_fail; lia|]. right. eauto.
  - right. destruct (obtained_spec _ _ _ _ _ _ _ I' Ho K) as [Hout HR].
    destruct (holds_insert (λ _, True) h1 L h' L' live n p t (resize n [])) as [Hf Hl']; try done; [lia|..].
    + by apply length_resize; lia.
    + by intros i c [_ Hi]%lookup_resize.
    + exists p, h'. split; [done|]. split; [|split; [done|right; eauto]].
      destruct Hout as [Hp _]. apply (used_range _ _ _ _ _ _ (i_blocks _ _ I')) in Hp. lia.
Qed.

Lemma mm_simulate_free h live p cs :
  represents h live → live !! p = Some cs →
  ∃ h', mm_free mem_heap p h = (Ret (), h') ∧ represents h' (delete p live).
Proof.
  intros [(_ & _ & ->)|(L & I & HM & Hl)] Hp; [done|]. destruct (Hl p cs Hp) as (t & Ht & _).
  destruct (free_ok h L p t I HM Ht) as (h' & L' & E & I' & HM' & HR). exists h'. split; [done|].
  right. exists L'. split; [done|]. split; [done|]. apply (holds_retains (λ r, r ≠ p) h L); [|done|].
  - intros q ds [_ Hq]%lookup_delete_Some. by apply Hl.
  - intros q [ds [Hne _]%lookup_delete_Some]. done.
Qed.

Lemma mm_simulate_realloc h live p cs n :
  represents h live → live !! p = Some cs → 0 < n <= 2 ^ 31 - 16 →
  requested h (delete p live) n cs (mm_realloc mem_heap p n h) live.
Proof.
  intros [(_ & _ & ->)|(L & I & HM & Hl)] Hp Hn; [done|]. destruct (Hl p cs Hp) as (t & Ht & Hlen & Hbytes).
  destruct (realloc_ok h L p t n I HM Ht Hn) as
    [[Hfull E]|(q & u & h' & L' & E & I' & HM' & Ho & HR & Hcopy)].
  - left. exists h. split; [done|]. split; [unfold may_fail; lia|]. right. eauto.
  - right. destruct (holds_insert (λ r, r ≠ p) h L h' L' (delete p live) n q u (resize n cs))
      as [Hf Hl']; try done; [| |lia|..].
    + intros r ds [_ Hr]%lookup_delete_Some. by apply Hl.
    + by intros r [ds [Hne _]%lookup_delete_Some].
    + by apply length_resize; lia.
    + intros i c [Hi Hc]%lookup_resize. apply lookup_lt_Some in Hc as Hlt.
      rewrite Hcopy by lia. by apply Hbytes.
    + exists q, h'. split; [done|]. split; [|split; [done|right; eauto]].
      destruct Ho as [Hq _]. apply (used_range _ _ _ _ _ _ (i_blocks _ _ I')) in Hq. lia.
Qed.

Lemma client_range h live p cs i :
  represents h live → live !! p = Some cs → (i < length cs)%nat →
  ∃ L t, inv h L ∧ merged true L ∧ holds h L live ∧ (p, t) ∈ used base L ∧
    (mem_heap <=? p + Z.of_nat i) && (p + Z.of_nat i <? mem_max_addr mem_heap) = true ∧
    Z.of_nat (length cs) + 8 <= t.
Proof.
  intros [(_ & _ & ->)|(L & I & HM & Hl)] Hp Hi; [done|]. destruct (Hl p cs Hp) as (t & Ht & Hlen & _).
  exists L, t. do 4 (split; [done|]). split; [|done]. pose proof (i_max _ _ I).
  destruct (used_range _ _ _ _ _ _ (i_blocks _ _ I) Ht) as (? & ? & ? & _).
  rewrite andb_true_iff, Z.leb_le, Z.ltb_lt. lia.
Qed.

Lemma mm_simulate_store h live p cs i c :
  represents h live → live !! p = Some cs → (i < length cs)%nat →
  ∃ h', store_byte mem_heap (p + Z.of_nat i) c h = (Ret (), h') ∧
    represents h' (<[p := <[i := Some c]> cs]> live).
Proof.
  intros Hrep Hp Hi. destruct (client_range _ _ _ _ _ Hrep Hp Hi) as (L & t & I & HM & Hl & Ht & Hr & Hlen).
  unfold store_byte. rewrite Hr. eexists. split; [done|]. set (h' := Heap _ _ _).
  assert (O : only_in (p + Z.of_nat i) (p + Z.of_nat i + 1) h h').
  { do 2 (split; [done|]). intros x Hx. simpl. apply lookup_insert_ne. lia. }
  destruct (payload_inv h h' L p t _ _ I Ht O) as [I' HR]; [lia..|]. right. exists L.
  do 2 (split; [done|]). intros q ds [[<- <-]|[Hne Hq]]%lookup_insert_Some.
  - exists t. split; [done|]. split; [by rewrite length_insert|]. intros j d Hj.
    destruct (decide (i = j)) as [<-|Hij].
    + rewrite list_lookup_insert_eq in Hj by done. injection Hj as <-. apply lookup_insert_eq.
    + rewrite list_lookup_insert_ne in Hj by done. simpl. rewrite lookup_insert_ne by lia.
      destruct (Hl p cs Hp) as (? & _ & _ & Hb). by apply Hb.
  - destruct (Hl q ds Hq) as (u & Hu & Hul & Hb). destruct (HR q u Hu) as [_ Hm]; [done|].
    exists u. do 2 (split; [done|]). intros j d Hj. apply lookup_lt_Some in Hj as Hlt.
    rewrite Hm by lia. by apply Hb.
Qed.

(** ** checkheap *)

Lemma checkblock_silent h bp s a : blk h bp s a → checkblock mem_heap bp h = (Ret [], h).
Proof.
  intros (Hh & Hs & Hw). pose proof Hh as (Hd & _ & _ & Hwh). unfold checkblock. run_prog.
  rewrite (GET_run _ _ _ Hwh : GET mem_heap (HDRP bp) h = _), (hdr_footer _ _ _ _ Hh), (GET_run _ _ _ Hw).
  rewrite Z.eqb_refl. by rewrite (proj2 (Z.mod_divide bp 8 ltac:(lia)) Hd).
Qed.

Lemma check_loop_silent h L p fuel :
  blocks h p L (mem_brk h) → hdr h (mem_brk h) 0 true → (length L <= fuel)%nat →
  check_loop mem_heap fuel p h = (Ret ([], mem_brk h), h).
Proof.
  revert p fuel. induction L as [|[s a] L IH]; simpl; intros p fuel HL He Hf.
  - rewrite HL. destruct fuel; simpl; run_prog; by rewrite (hdr_size _ _ _ _ He).
  - destruct HL as (Hb & Hs & HL). destruct fuel as [|fuel]; [lia|]. simpl. run_prog.
    rewrite (hdr_size _ _ _ _ (proj1 Hb)). destruct (Z.ltb_spec 0 s); [|lia].
    rewrite (checkblock_silent _ _ _ _ Hb), (hdr_next _ _ _ _ (proj1 Hb)).
    by rewrite (IH _ fuel HL He ltac:(lia)).
Qed.

(** The code's own consistency check finds nothing to report in a heap of the invariant. *)
Lemma checkheap_silent h L : inv h L → checkheap mem_heap h = (Ret [], h).
Proof.
  intros I. destruct (inv_brk _ _ I) as [Hbrk _]. pose proof (blocks_length _ _ _ _ (i_blocks _ _ I)).
  assert (Hfuel : (S (length L) <= Z.to_nat ((mem_brk h - mem_heap) / 8))%nat).
  { pose proof (Z.div_le_lower_bound (mem_brk h - mem_heap) 8 (Z.of_nat (S (length L)))). lia. }
  unfold checkheap, mem_heapsize, DSIZE. run_prog. rewrite (i_listp _ _ I).
  pose proof (i_prologue _ _ I) as Hp. pose proof (i_epilogue _ _ I) as He.
  rewrite (hdr_size _ _ _ _ (proj1 Hp)), (hdr_alloc _ _ _ _ (proj1 Hp)), (checkblock_silent _ _ _ _ Hp).
  destruct (Z.to_nat _) as [|fuel]; [lia|]. simpl. run_prog.
  rewrite (hdr_size _ _ _ _ (proj1 Hp)). change (0 <? 8) with true. cbv beta iota.
  rewrite (checkblock_silent _ _ _ _ Hp), (hdr_next _ _ _ _ (proj1 Hp)).
  replace (mem_heap + 8 + 8) with base by lia.
  rewrite (check_loop_silent h L base fuel); [|apply I|done|lia].
  by rewrite (hdr_size _ _ _ _ He), (hdr_alloc _ _ _ _ He).
Qed.


(** The call returns an answer the contract allows, in a heap that holds what the client
    then owns. *)
Definition simulated (h : heap) (live : owned) (c : call) : Prop :=
  ∃ a h' live', perform mem_heap c h = (Ret a, h') ∧ promises 8 (may_fail h) live c a live' ∧
    represents h' live'.

Lemma mm_simulated_malloc h live n :
  mem_heap + MAX_HEAP < 2 ^ 63 → represents h live → 0 <= n <= 2 ^ 31 - 16 → simulated h live (CMalloc n).
Proof.
  intros Hend Hrep Hn. unfold simulated, perform. run_prog. destruct (decide (n = 0)) as [->|Hn0].
  - destruct (ready h live Hend Hrep) as (h1 & L & E & I & HM & Hl & _).
    unfold mm_malloc. run_prog. rewrite E. simpl. eexists _, _, _. split; [done|].
    split; [apply p_malloc_0|]. right. eauto.
  - destruct (mm_simulate_malloc h live n Hend Hrep ltac:(lia)) as
      [(h' & -> & Hf & Hr)|(p & h' & -> & Hp & Hf & Hr)]; eexists _, _, _; (split; [done|]).
    + split; [by apply p_malloc_fail|done].
    + rewrite of_ptr_some by done. split; [by apply p_malloc; [lia|]|done].
Qed.

Lemma mm_simulated_free h live p :
  represents h live → (∀ q, p = Some q → is_Some (live !! q)) → simulated h live (CFree p).
Proof.
  intros Hrep Hp. unfold simulated, perform. run_prog. destruct p as [p|]; simpl.
  - destruct (Hp p eq_refl) as [cs Hcs]. destruct (mm_simulate_free h live p cs Hrep Hcs) as (h' & -> & Hr).
    eexists _, _, _. split; [done|]. split; [apply p_free|done].
  - eexists _, _, _. split; [done|]. split; [apply p_free_null|done].
Qed.

Lemma mm_simulated_realloc h live p n :
  mem_heap + MAX_HEAP < 2 ^ 63 → represents h live → 0 <= n <= 2 ^ 31 - 16 →
  (∀ q, p = Some q → is_Some (live !! q)) → simulated h live (CRealloc p n).
Proof.
  intros Hend Hrep Hn Hp. unfold simulated, perform. run_prog. destruct (decide (n = 0)) as [->|Hn0].
  - unfold mm_realloc. run_prog. destruct p as [p|]; simpl.
    + destruct (Hp p eq_refl) as [cs Hcs]. destruct (mm_simulate_free h live p cs Hrep Hcs) as (h' & -> & Hr).
      eexists _, _, _. split; [done|]. split; [by apply (p_realloc_0 _ _ live (Some p))|done].
    + eexists _, _, _. split; [done|]. split; [by apply (p_realloc_0 _ _ live None)|done].
  - destruct p as [p|]; simpl.
    + destruct (Hp p eq_refl) as [cs Hcs].
      destruct (mm_simulate_realloc h live p cs n Hrep Hcs ltac:(lia)) as
        [(h' & -> & Hf & Hr)|(q & h' & -> & Hq & Hf & Hr)]; eexists _, _, _; (split; [done|]).
      * split; [by apply p_realloc_fail|done].
      * rewrite of_ptr_some by done. split; [eapply p_realloc; [lia|done..]|done].
    + unfold mm_realloc. run_prog. destruct (Z.eqb_spec n 0); [done|].
      change (NULL =? NULL) with true. cbv beta iota.
      destruct (mm_simulate_malloc h live n Hend Hrep ltac:(lia)) as
        [(h' & -> & Hf & Hr)|(q & h' & -> & Hq & Hf & Hr)]; eexists _, _, _; (split; [done|]).
      * split; [by apply p_realloc_fail|done].
      * rewrite of_ptr_some by done. split; [by apply p_realloc_null; [lia|]|done].
Qed.

Lemma mm_simulated_access h live p i cs :
  represents h live → live !! p = Some cs → (i < length cs)%nat →
  simulated h live (CLoad p i) ∧ ∀ c, simulated h live (CStore p i c).
Proof.
  intros Hrep Hp Hi. unfold simulated, perform. run_prog. split.
  - destruct (client_range _ _ _ _ _ Hrep Hp Hi) as (L & t & _ & _ & Hl & _ & Hr & _).
    unfold load_byte. rewrite Hr. destruct (lookup_lt_is_Some_2 cs i Hi) as [o Ho].
    eexists _, _, _. split; [done|]. split; [|done]. eapply p_load; [done..|]. intros b ->.
    destruct (Hl p cs Hp) as (_ & _ & _ & Hb). by apply Hb.
  - intros c. destruct (mm_simulate_store h live p cs i c Hrep Hp Hi) as (h' & -> & Hr).
    eexists _, _, _. split; [done|]. split; [by apply p_store|done].
Qed.
End proofs.

(** C6. The boundary-tag allocator implements malloc, free and realloc in one range of
    memory: wherever the heap lies, from the first call on (which sets the heap up), every
    call with live pointers and sizes below two gigabytes returns; what it hands out is
    aligned to eight bytes and apart from everything that is live; no tag or copy ever
    destroys a byte of the client, whichever neighbours a freed block is merged with; a
    request fails only when the heap has no room left for it, and then changes nothing the
    client owns. *)
Theorem mm_refines (mem_heap : Z) :
  0 < mem_heap → (8 | mem_heap) → mem_heap + MAX_HEAP < 2 ^ 63 →
  represents mem_heap (mem_init mem_heap) ∅ ∧
  ∀ h live c, represents mem_heap h live → client_ok (2 ^ 31 - 16) live c →
    ∃ a h' live', perform mem_heap c h = (Ret a, h') ∧
      promises 8 (may_fail mem_heap h) live c a live' ∧ represents mem_heap h' live'.
Proof.
  intros Hpos Hal Hend. split; [by left|]. intros h live c Hrep Hc.
  change (simulated mem_heap h live c). destruct c as [n|p|p n|p i c|p i]; simpl in Hc.
  - by apply mm_simulated_malloc.
  - by apply mm_simulated_free.
  - destruct Hc. by apply mm_simulated_realloc.
  - destruct Hc as (cs & Hp & Hi). by eapply mm_simulated_access.
  - destruct Hc as (cs & Hp & Hi). by eapply mm_simulated_access.
Qed.

Lemma mm_refines_witness :
  ∃ a h' live', perform 65536 (CMalloc 100) (mem_init 65536) = (Ret a, h') ∧
    promises 8 (may_fail 65536 (mem_init 65536)) ∅ (CMalloc 100) a live' ∧ represents 65536 h' live'.
Proof.
  destruct (mm_refines 65536) as [Hinit Hstep]; [done|by exists 8192|done|].
  apply (Hstep _ _ _ Hinit). simpl. lia.
Defined.

(** A block without a payload at the first address of the heap at 65536. *)
Definition empty_block (brk : Z) (r : outcome Z * heap) : Prop :=
  r.1 = Ret 65552 ∧ mem_brk r.2 = brk ∧ read_word (mem r.2) 65548 = Some (tag 8 true).

(** The sizes are not checked against the widths they pass through.  A request of
    [SIZE_MAX] bytes wraps around to a block of eight, and one of four gigabytes is cut to
    the int of [mem_sbrk]: both are answered with the first block of the heap, whose header
    then says eight bytes, tags included: no payload at all. *)
Theorem huge_requests_succeed :
  empty_block (65536 + 4112) (mm_malloc 65536 (2 ^ 64 - 1) (mem_init 65536)) ∧
  empty_block (65536 + 4120) (mm_malloc 65536 (2 ^ 32) (mem_init 65536)).
Proof. vm_compute. done. Qed.
