(* ===== verification/ByteEcho.v ===== *)
(** * The asynchronous echo of base_byteorder

    A server and its client that talk in frames: type, body length, body, in network
    byte order.  A session is the state machine its completion handlers form: bytes
    arrive in pieces of any size, and the reactor runs a handler when its read or
    write can complete. *)

From stdpp Require Import base list strings.
From Stdlib Require Import ZArith Lia Ascii.
From S2P Require Import Prelude CxxString NetBytes.

Local Open Scope Z_scope.

(** ** base_byteorder: type, body length, body *)

Definition HEADER_SIZE : nat := 6.
Definition MAX_BODY : Z := 4 * 1024 * 1024.

(** What [echo_back] and the client's [send_message] hand to the socket. *)
Definition header (type : Z) (body : bytes) : bytes :=
  bytes16 (htons type) ++ bytes32 (htonl (wrap32 (size body))).
Definition packet (type : Z) (body : bytes) : bytes := header type body ++ body.

(** The operation a session waits for.  A started write has its unsent part: what is
    left of the two integers, which are locals of [echo_back], and what is left
    of the body, which the handler keeps alive. *)
Inductive pending :=
  | AwaitHeader
  | AwaitBody (type len : Z)
  | Writing (locals body : bytes)
  | Ended.

(** [inbox] is what the kernel has received, [wire] what it was given to send. *)
Record session := Session { inbox : bytes; op : pending; wire : bytes }.

Definition set_op (o : pending) (s : session) : session := Session (inbox s) o (wire s).

Definition read_header (s : session) : session := set_op AwaitHeader s.
Definition start (stream : bytes) : session := read_header (Session stream AwaitHeader []).

(** [async_write] sends what the socket takes at once, [k] bytes; the rest stays
    for later, when [echo_back] has returned. *)
Definition echo_back (k : nat) (type : Z) (body : bytes) (s : session) : session :=
  let locals := header type body in
  Session (inbox s) (Writing (drop k locals) (drop (k - length locals) body))
    (wire s ++ take k (packet type body)).

Definition read_body (k : nat) (type len : Z) (s : session) : session :=
  if len =? 0 then echo_back k type [] s else set_op (AwaitBody type len) s.

(** The completion handler of the header read. *)
Definition on_header (k : nat) (buf : bytes) (s : session) : session :=
  let host_type := ntohs (load16 buf) in
  let host_len := ntohl (load32 (drop 2 buf)) in
  if MAX_BODY <? host_len then set_op Ended s else read_body k host_type host_len s.

Inductive event :=
  | Arrive (data : bytes)  (* the peer's bytes reach the socket *)
  | Ready (k : nat)        (* the reactor completes the pending read if it can *)
  | Sent (n : Z)           (* the socket takes [n] more bytes of the pending write *)
  | Fail.                  (* the pending operation ends with an error: [handle_error] *)

Definition step (s : session) (e : event) : outcome session :=
  match e with
  | Arrive data => Ret (Session (inbox s ++ data) (op s) (wire s))
  | Ready k =>
      match op s with
      | AwaitHeader =>
          if decide (HEADER_SIZE <= length (inbox s))%nat then
            Ret (on_header k (take HEADER_SIZE (inbox s))
                   (Session (drop HEADER_SIZE (inbox s)) (op s) (wire s)))
          else Ret s
      | AwaitBody type len =>
          if decide (Z.to_nat len <= length (inbox s))%nat then
            Ret (echo_back k type (take (Z.to_nat len) (inbox s))
                   (Session (drop (Z.to_nat len) (inbox s)) (op s) (wire s)))
          else Ret s
      | Writing _ _ | Ended => Ret s
      end
  | Sent n =>
      match op s with
      | Writing [] body =>
          let s' := Session (inbox s) (Writing [] (drop (Z.to_nat n) body))
                      (wire s ++ take (Z.to_nat n) body) in
          Ret (if size body <=? n then read_header s' else s')
      | Writing (_ :: _) _ => Undef
      | _ => Ret s
      end
  | Fail => Ret (set_op Ended s)
  end.

Fixpoint steps (s : session) (es : list event) : outcome session :=
  match es with
  | [] => Ret s
  | e :: es' => s' ← step s e; steps s' es'
  end.

(** The client. *)
Definition send_message (type : Z) (body : bytes) : bytes := packet type body.

Record Message := Msg { m_type : Z; m_body : bytes }.

(** [asio::read] of [n] bytes: throws at the end of the stream. *)
Definition asio_read (n : nat) (stream : bytes) : outcome (bytes * bytes) :=
  if decide (n <= length stream)%nat then Ret (take n stream, drop n stream)
  else Throw (RuntimeError (lit "End of file")).

Definition recv_message (stream : bytes) : outcome (Message * bytes) :=
  '(head, rest) ← asio_read HEADER_SIZE stream;
  let type := ntohs (load16 head) in
  let body_len := ntohl (load32 (drop 2 head)) in
  if 0 <? body_len then
    '(body, rest) ← asio_read (Z.to_nat body_len) rest;
    Ret (Msg type body, rest)
  else Ret (Msg type [], rest).

(** [main] after the connection: the line printed, given the server's answer. *)
Definition client_main (reply_stream : bytes) : outcome bytes :=
  let body := lit "HelloByteOrder" in
  '(reply, _) ← recv_message reply_stream;
  if (m_type reply =? 1) && bool_decide (m_body reply = body)
  then Ret (lit "[client] echo OK") else Ret (lit "[client] echo MISMATCH!").

(** The number of threads [main] adds, from [hardware_concurrency()]. *)
Definition extra_threads (suggested : Z) : Z :=
  if 0 <? suggested then Z.min (wrap32 (suggested - 1)) 3 else 0.

(** *** Frames *)

Lemma header_parse (h : bytes) :
  length h = HEADER_SIZE →
  bytes16 (htons (ntohs (load16 h))) ++ bytes32 (htonl (ntohl (load32 (drop 2 h)))) = h.
Proof.
  destruct h as [|a [|b [|c [|d [|e [|f [|g h]]]]]]]; try done. intros _.
  change (load16 (a :: b :: _)) with (load16 [a; b]).
  change (drop 2 [a; b; c; d; e; f]) with [c; d; e; f].
  unfold ntohs, ntohl. rewrite !bytes16_htons, !bytes32_htonl.
  by rewrite bytes16_load16, bytes32_load32, !rev_involutive.
Qed.

Lemma length_header type body : length (header type body) = HEADER_SIZE.
Proof. done. Qed.

Lemma parse_type type body rest :
  0 <= type < 2 ^ 16 → ntohs (load16 (header type body ++ rest)) = type.
Proof.
  intros Ht. change (load16 (header type body ++ rest)) with (load16 (bytes16 (htons type))).
  rewrite load16_bytes16 by apply htons_range. by apply ntohs_htons.
Qed.

Lemma parse_len type body rest :
  size body < 2 ^ 32 → ntohl (load32 (drop 2 (header type body ++ rest))) = size body.
Proof.
  intros Hs. change (load32 (drop 2 (header type body ++ rest)))
    with (load32 (bytes32 (htonl (wrap32 (size body))))).
  rewrite load32_bytes32 by apply htonl_range.
  unfold size in *. rewrite wrap32_small by lia. apply ntohl_htonl. lia.
Qed.

(** The answer to the frame with header [h] is that frame. *)
Lemma packet_of_header h body :
  length h = HEADER_SIZE → ntohl (load32 (drop 2 h)) = size body →
  packet (ntohs (load16 h)) body = h ++ body.
Proof.
  intros Hh Hl. unfold packet, header. f_equal. rewrite <-Hl.
  assert (0 <= ntohl (load32 (drop 2 h)) < 2 ^ 32) by apply htonl_range.
  rewrite wrap32_small by done. by apply header_parse.
Qed.

(** Whole frames, each within the limit. *)
Inductive framed : bytes → Prop :=
  | framed_nil : framed []
  | framed_snoc w h body :
      framed w → length h = HEADER_SIZE → ntohl (load32 (drop 2 h)) = size body →
      size body <= MAX_BODY → framed (w ++ h ++ body).

(** *** What a session has sent, after it received [rx] *)

(** The stream goes on, after the frames sent back, with a header that declares more than
    the limit. *)
Definition oversized (rx w : bytes) : Prop :=
  framed w ∧ ∃ h rest, length h = HEADER_SIZE ∧ MAX_BODY < ntohl (load32 (drop 2 h)) ∧
    rx = w ++ h ++ rest.

(** Between two operations whole frames have been sent back; a frame being written is
    sent in part; a session ends with an error or at a header beyond the limit. *)
Definition echoes (failed : Prop) (rx : bytes) (s : session) : Prop :=
  match op s with
  | AwaitHeader => framed (wire s) ∧ rx = wire s ++ inbox s
  | AwaitBody type len =>
      framed (wire s) ∧ ∃ h, length h = HEADER_SIZE ∧ type = ntohs (load16 h) ∧
        len = ntohl (load32 (drop 2 h)) ∧ 0 < len <= MAX_BODY ∧ rx = wire s ++ h ++ inbox s
  | Writing locals body =>
      framed (wire s ++ locals ++ body) ∧ rx = wire s ++ locals ++ body ++ inbox s
  | Ended => (failed ∧ wire s `prefix_of` rx) ∨ oversized rx (wire s)
  end.

(** Nothing more can be sent back: what is left of the stream is not a whole frame. *)
Definition answered (failed : Prop) (rx : bytes) (s : session) : Prop :=
  echoes failed rx s ∧
  match op s with
  | AwaitHeader => (length (inbox s) < HEADER_SIZE)%nat
  | AwaitBody _ len => size (inbox s) < len
  | Writing _ _ => False
  | Ended => True
  end.

(** The write in progress has bytes of the two integers left, and [echo_back], whose
    locals they are, has returned. *)
Definition header_cut (s : session) : bool :=
  match op s with Writing (_ :: _) _ => true | _ => false end.

Lemma echoes_wire failed rx s : echoes failed rx s → wire s `prefix_of` rx.
Proof. unfold echoes, oversized, prefix. destruct (op s); naive_solver. Qed.

Lemma echoes_mono (F G : Prop) rx s : (F → G) → echoes F rx s → echoes G rx s.
Proof. unfold echoes. destruct (op s); naive_solver. Qed.

(** What was written and what is left of an answer make the frame. *)
Lemma take_drop_packet k (h body : bytes) :
  take k (h ++ body) ++ drop k h ++ drop (k - length h) body = h ++ body.
Proof. by rewrite <-drop_app, take_drop. Qed.

Lemma echo_back_echoes failed k h body inb w o :
  framed w → length h = HEADER_SIZE → ntohl (load32 (drop 2 h)) = size body →
  size body <= MAX_BODY →
  echoes failed (w ++ h ++ body ++ inb) (echo_back k (ntohs (load16 h)) body (Session inb o w)).
Proof.
  intros Hw Hh Hl Hm. unfold echo_back, echoes. cbn [inbox op wire].
  pose proof (take_drop_packet k (header (ntohs (load16 h)) body) body) as Hp.
  fold (packet (ntohs (load16 h)) body) in Hp. rewrite (packet_of_header h body Hh Hl) in *.
  rewrite <-(app_assoc w), Hp. split; [by apply framed_snoc|].
  rewrite <-app_assoc. f_equal. apply (f_equal (.++ inb)) in Hp. cbn beta in Hp. by rewrite <-!app_assoc in Hp.
Qed.

Lemma on_header_echoes failed k h inb w o :
  framed w → length h = HEADER_SIZE →
  echoes failed (w ++ h ++ inb) (on_header k h (Session inb o w)).
Proof.
  intros Hw Hh. unfold on_header.
  destruct (Z.ltb_spec MAX_BODY (ntohl (load32 (drop 2 h)))) as [|Hle].
  { right. split; [done|]. by exists h, inb. }
  assert (0 <= ntohl (load32 (drop 2 h)) < 2 ^ 32) by apply htonl_range.
  unfold read_body. destruct (Z.eqb_spec (ntohl (load32 (drop 2 h))) 0).
  - apply (echo_back_echoes failed k h [] inb w); done.
  - split; [done|]. exists h. split_and!; done || lia.
Qed.

(** The bytes the peer sent with an event, and during a run. *)
Definition arrives (e : event) : bytes := match e with Arrive data => data | _ => [] end.
Definition received (es : list event) : bytes := es ≫= arrives.

Lemma ready_echoes failed rx s k :
  echoes failed rx s → ∃ s', step s (Ready k) = Ret s' ∧ echoes failed rx s'.
Proof.
  intros Hs. cbn [step]. destruct (op s) as [|type len|locals body|] eqn:Hop; [| |by eauto..].
  - case_decide as Hlen; [|by eauto]. eexists. split; [done|].
    unfold echoes in Hs. rewrite Hop in Hs. destruct Hs as [Hw ->].
    rewrite <-(take_drop HEADER_SIZE (inbox s)) at 1.
    apply on_header_echoes; [done..|]. rewrite length_take. lia.
  - case_decide as Hlen; [|by eauto]. eexists. split; [done|].
    unfold echoes in Hs. rewrite Hop in Hs.
    destruct Hs as (Hw & h & Hh & -> & -> & Hl & ->).
    set (len := ntohl _) in *. rewrite <-(take_drop (Z.to_nat len) (inbox s)) at 1.
    assert (size (take (Z.to_nat len) (inbox s)) = len) as Hsz
      by (unfold size; rewrite length_take; lia).
    apply echo_back_echoes; rewrite ?Hsz; done || lia.
Qed.

Lemma sent_echoes failed rx s n :
  echoes failed rx s →
  match step s (Sent n) with
  | Ret s' => header_cut s = false ∧ echoes failed rx s'
  | Undef => header_cut s = true
  | Throw _ => False
  end.
Proof.
  intros Hs. unfold header_cut. cbn [step].
  destruct (op s) as [|type len|[|c locals] body|] eqn:Hop; [done..| |done|done].
  split; [done|]. unfold echoes in Hs. rewrite Hop in Hs. destruct Hs as [Hw ->].
  cbn [app] in *. destruct (Z.leb_spec (size body) n); unfold read_header, set_op, echoes; cbn.
  - unfold size in *. rewrite (take_ge body) by lia. by rewrite app_assoc.
  - by rewrite <-!app_assoc, (app_assoc (take _ body)), take_drop.
Qed.

Lemma step_outcome failed rx s e :
  echoes failed rx s →
  match step s e with
  | Ret s' => echoes (failed ∨ e = Fail) (rx ++ arrives e) s'
  | Undef => header_cut s = true ∧ ∃ n, e = Sent n
  | Throw _ => False
  end.
Proof.
  intros Hs. destruct e as [data|k|n|]; cbn [arrives]; rewrite ?app_nil_r.
  - cbn [step]. apply (echoes_mono failed); [by left|]. unfold echoes in *. cbn [inbox op wire].
    destruct (op s).
    + destruct Hs as [? ->]. by rewrite app_assoc.
    + destruct Hs as (?&h&?&?&?&?&->). split; [done|]. exists h. by rewrite <-!app_assoc.
    + destruct Hs as (?&->). by rewrite <-!app_assoc.
    + destruct Hs as [[? Hp]|(?&h&rest&?&?&->)]; [left; split; [done|by apply prefix_app_r]|].
      right. split; [done|]. exists h, (rest ++ data). by rewrite <-!app_assoc.
  - destruct (ready_echoes _ _ _ k Hs) as (s' & -> & ?). apply (echoes_mono failed); [by left|done].
  - pose proof (sent_echoes _ _ _ n Hs) as Hn. destruct (step s (Sent n)); [|done|by eauto].
    apply (echoes_mono failed); [by left|apply Hn].
  - unfold echoes. left. split; [by right|]. by apply (echoes_wire failed rx s).
Qed.

Lemma steps_app s es1 es2 : steps s (es1 ++ es2) = s' ← steps s es1; steps s' es2.
Proof.
  revert s. induction es1 as [|e es1 IH]; intros s; [done|]. cbn.
  destruct (step s e); cbn; [apply IH|done..].
Qed.

Lemma steps_outcome failed rx s es :
  echoes failed rx s →
  match steps s es with
  | Ret s' => echoes (failed ∨ Fail ∈ es) (rx ++ received es) s'
  | Undef => ∃ es1 n es2 s1,
      es = es1 ++ Sent n :: es2 ∧ steps s es1 = Ret s1 ∧ header_cut s1 = true
  | Throw _ => False
  end.
Proof.
  revert failed rx s. induction es as [|e es IH]; intros failed rx s Hs.
  { cbn. rewrite app_nil_r. apply (echoes_mono failed); [by left|done]. }
  pose proof (step_outcome _ _ _ e Hs) as H1. cbn [steps]. destruct (step s e) as [s1| |] eqn:E.
  - cbn [mbind outcome_bind]. specialize (IH _ _ _ H1). destruct (steps s1 es); [|done|].
    + rewrite <-app_assoc in IH. revert IH. apply echoes_mono. rewrite elem_of_cons. intuition congruence.
    + destruct IH as (es1 & n & es2 & s2 & -> & Hs2 & Hc). exists (e :: es1), n, es2, s2.
      split; [done|]. split; [|done]. cbn [steps]. by rewrite E.
  - done.
  - destruct H1 as [Hc [n ->]]. by exists [], n, es, s.
Qed.

(** *** Everything received is answered *)

(** One turn of the reactor: the pending read, or progress of the pending write. *)
Definition turn (t : nat * Z) : list event := [Ready t.1; Sent t.2].

(** What bounds the turns a session still needs. *)
Definition load (s : session) : nat :=
  3 * length (inbox s) + match op s with Writing _ body => S (length body) | _ => 0 end.

Lemma ready_progress failed rx s k s' :
  echoes failed rx s → step s (Ready k) = Ret s' →
  (header_cut s' = true → header_cut s = true ∨ (k < HEADER_SIZE)%nat) ∧
  ((load s' < load s)%nat ∨ s' = s ∧ (answered failed rx s ∨ ∃ l b, op s = Writing l b)).
Proof.
  assert (∀ type b inb o w,
    (header_cut (echo_back k type b (Session inb o w)) = true → (k < HEADER_SIZE)%nat) ∧
    (load (echo_back k type b (Session inb o w)) <= 3 * length inb + S (length b))%nat) as Hecho.
  { intros type b inb o w. unfold echo_back, header_cut, load. cbn [op inbox].
    rewrite length_drop. split; [|lia]. intros Hc.
    destruct (decide (k < HEADER_SIZE)%nat) as [|Hk]; [done|].
    by rewrite drop_ge in Hc by (rewrite length_header; lia). }
  intros Hs Hst. cbn [step] in Hst. unfold answered, load at 2.
  destruct (op s) as [|type len|locals body|] eqn:Hop.
  - case_decide as Hlen; [|injection Hst as <-; split; [by left|right; split; [done|left; split; [done|lia]]]].
    injection Hst as <-. unfold on_header, read_body, HEADER_SIZE in *.
    destruct (_ <? _); [|destruct (_ =? 0)]; unfold set_op.
    + unfold header_cut, load. cbn. rewrite length_drop. split; [done|lia].
    + edestruct Hecho as [Hc Hl]. split; [by intros ?%Hc; right|left].
      eapply Nat.le_lt_trans; [apply Hl|]. rewrite length_drop. cbn. lia.
    + unfold header_cut, load. cbn. rewrite length_drop. split; [done|lia].
  - unfold echoes in Hs. rewrite Hop in Hs. destruct Hs as (Hw & h & Hh & Ht & Hd & Hlen & Hrx).
    case_decide as Hin; injection Hst as <-.
    + edestruct Hecho as [Hc Hl]. split; [by intros ?%Hc; right|left].
      eapply Nat.le_lt_trans; [apply Hl|]. rewrite length_drop, length_take. lia.
    + split; [by left|]. right. split; [done|]. left. unfold echoes. rewrite Hop.
      split; [eauto 10|]. unfold size. lia.
  - injection Hst as <-. split; [by left|]. right. eauto.
  - injection Hst as <-. split; [by left|]. right. split; [done|]. by left.
Qed.

Lemma sent_progress s n s' :
  1 <= n → step s (Sent n) = Ret s' →
  (load s' < load s)%nat ∨ s' = s ∧ ∀ l b, op s ≠ Writing l b.
Proof.
  intros Hn Hst. cbn [step] in Hst. unfold load.
  destruct (op s) as [| |[|c l] body|] eqn:Hop; simplify_eq; try by right. left.
  destruct (Z.leb_spec (size body) n); unfold read_header, set_op, size in *; cbn.
  - lia.
  - rewrite length_drop. lia.
Qed.

Lemma sent_not_cut s n s' : step s (Sent n) = Ret s' → header_cut s' = false.
Proof.
  cbn [step]. destruct (op s) as [| |[|c l] body|] eqn:Hop; intros [= <-]; unfold header_cut.
  all: rewrite ?Hop; try done. by destruct (size body <=? n).
Qed.

Lemma turn_progress failed rx s k n :
  echoes failed rx s → 1 <= n →
  match steps s (turn (k, n)) with
  | Ret s' => echoes failed rx s' ∧ header_cut s' = false ∧
      ((load s' < load s)%nat ∨ s' = s ∧ answered failed rx s)
  | Undef => header_cut s = true ∨ (k < HEADER_SIZE)%nat
  | Throw _ => False
  end.
Proof.
  intros Hs Hn. unfold turn. cbn [steps fst snd].
  destruct (ready_echoes _ _ _ k Hs) as (s1 & E & Hs1).
  destruct (ready_progress _ _ _ _ _ Hs E) as [Hcut Hload]. rewrite E. cbn [mbind outcome_bind].
  pose proof (sent_echoes _ _ _ n Hs1) as H2. destruct (step s1 (Sent n)) as [s2| |] eqn:E2;
    [|done|by apply Hcut].
  cbn [mbind outcome_bind].
  destruct H2 as [Hc1 Hs2]. split; [done|]. split; [by apply (sent_not_cut s1 n)|].
  destruct (sent_progress _ _ _ Hn E2) as [?|[-> Hnw]].
  - left. destruct Hload as [?|[-> _]]; lia.
  - destruct Hload as [?|[-> [?|(l & b & ?)]]]; [by left|by right|by destruct (Hnw l b)].
Qed.

Lemma no_load_answered failed rx s : echoes failed rx s → load s = 0%nat → answered failed rx s.
Proof.
  intros Hs Hl. split; [done|]. unfold echoes, load, HEADER_SIZE, size in *.
  destruct (op s) as [|type len| |]; [lia| |lia|done].
  destruct Hs as (_ & h & _ & _ & _ & Hlen & _). lia.
Qed.

Lemma answered_stays failed rx s ts : answered failed rx s → steps s (ts ≫= turn) = Ret s.
Proof.
  intros [_ Ha]. induction ts as [|[k n] ts IH]; [done|]. rewrite bind_cons, steps_app.
  assert (step s (Ready k) = Ret s ∧ step s (Sent n) = Ret s) as [E1 E2].
  { cbn [step]. unfold size, HEADER_SIZE in *. destruct (op s); [| |done|done].
    all: by rewrite decide_False by lia. }
  change (turn (k, n)) with [Ready k; Sent n]. cbn [steps]. rewrite E1. cbn [mbind outcome_bind].
  by rewrite E2.
Qed.

Lemma turns_answer failed rx s ts :
  echoes failed rx s → Forall (λ t, 1 <= t.2) ts → (load s <= length ts)%nat →
  match steps s (ts ≫= turn) with
  | Ret s' => answered failed rx s'
  | Undef => header_cut s = true ∨ Exists (λ t, t.1 < HEADER_SIZE)%nat ts
  | Throw _ => False
  end.
Proof.
  intros Hs Hts. revert s Hs. induction Hts as [|[k n] ts Hn _ IH]; intros s Hs Hl.
  { apply no_load_answered; [done|]. rewrite length_nil in Hl. lia. }
  rewrite bind_cons, steps_app. pose proof (turn_progress failed rx s k n Hs Hn) as Ht.
  destruct (steps s (turn (k, n))) as [s1| |]; cbn [mbind outcome_bind]; [|done|].
  - destruct Ht as (Hs1 & Hc1 & [Hlt|[-> Ha]]); [|by rewrite (answered_stays failed rx)].
    specialize (IH s1 Hs1 ltac:(rewrite length_cons in Hl; lia)). destruct (steps s1 (ts ≫= turn)); [done..|].
    right. apply Exists_cons_tl. destruct IH; [congruence|done].
  - destruct Ht; [by left|right; by apply Exists_cons_hd].
Qed.

(** C36. The echo session under every arrival of bytes, every cut of the writes and an error at
    any moment. While it runs it has sent back whole frames as they came, and the frame it
    is writing in part; it ends only by an error or at a header that declares more than
    [MAX_BODY]. Whatever state it is in, give it as many turns as it has work left, each taking
    at least a byte: everything received is then sent back but an incomplete frame at the end,
    unless the socket cuts the six header bytes of an answer. That alone is undefined: the rest
    of the write reads the locals of [echo_back], which has returned. *)
Theorem echo_outcome es :
  match steps (start []) es with
  | Ret s =>
      wire s `prefix_of` received es ∧ echoes (Fail ∈ es) (received es) s ∧
      ∀ ts, Forall (λ t, 1 <= t.2) ts → (load s <= length ts)%nat →
        match steps s (ts ≫= turn) with
        | Ret s' => answered (Fail ∈ es) (received es) s'
        | Undef => header_cut s = true ∨ Exists (λ t, t.1 < HEADER_SIZE)%nat ts
        | Throw _ => False
        end
  | Undef => ∃ es1 n es2 s1,
      es = es1 ++ Sent n :: es2 ∧ steps (start []) es1 = Ret s1 ∧ header_cut s1 = true
  | Throw _ => False
  end.
Proof.
  pose proof (steps_outcome False [] (start []) es) as Hes.
  assert (echoes False [] (start [])) as H0 by (by repeat constructor).
  specialize (Hes H0). destruct (steps (start []) es) as [s| |]; [|done..].
  assert (echoes (Fail ∈ es) (received es) s) as Hs
    by (revert Hes; apply echoes_mono; by intros [[]|]).
  split; [by eapply echoes_wire|]. split; [done|]. intros ts Hts Hl. by apply turns_answer.
Qed.

(** A message the server accepts. *)
Definition acceptable (m : Message) : Prop :=
  0 <= m_type m < 2 ^ 16 ∧ size (m_body m) <= MAX_BODY.
#[export] Instance acceptable_dec m : Decision (acceptable m).
Proof. unfold acceptable. apply _. Defined.
Definition stream_of (ms : list Message) : bytes := ms ≫= λ m, packet (m_type m) (m_body m).

(** One round of the reactor for a session: both reads and the write. *)
Definition round (k : nat) : list event := [Ready k; Ready k; Sent MAX_BODY].

Lemma header_read_completes k type body r w :
  0 <= type < 2 ^ 16 → size body <= MAX_BODY →
  step (Session (header type body ++ r) AwaitHeader w) (Ready k) =
  Ret (read_body k type (size body) (Session r AwaitHeader w)).
Proof.
  intros Ht Hb. assert (size body < 2 ^ 32) by (unfold MAX_BODY in Hb; lia).
  unfold step. cbn [op inbox wire]. rewrite decide_True by (rewrite length_app, length_header; lia).
  rewrite take_app_le, drop_app_le, take_ge, drop_ge by (rewrite ?length_header; done).
  unfold on_header. rewrite <-(app_nil_r (header type body)), parse_type, parse_len by done.
  destruct (Z.ltb_spec MAX_BODY (size body)); [lia|done].
Qed.

Lemma write_completes k type body inb o w :
  (HEADER_SIZE <= k)%nat → size body <= MAX_BODY →
  step (echo_back k type body (Session inb o w)) (Sent MAX_BODY) =
  Ret (Session inb AwaitHeader (w ++ packet type body)).
Proof.
  intros Hk Hsz. unfold echo_back, step. cbn [op inbox wire].
  rewrite (drop_ge (header type body)) by (by rewrite length_header). cbn beta iota zeta.
  unfold size in *. destruct (Z.leb_spec (Z.of_nat (length (drop (k - length (header type body)) body)))
    MAX_BODY) as [_|Hgt]; [|rewrite length_drop in Hgt; lia].
  rewrite (take_ge (drop _ body)) by (rewrite length_drop; lia).
  unfold read_header, set_op. cbn [inbox wire]. do 2 f_equal. rewrite <-app_assoc. f_equal.
  unfold packet. rewrite take_app, (take_ge (header type body)) by (by rewrite length_header).
  by rewrite <-app_assoc, take_drop.
Qed.

Lemma body_read_completes k type body r w :
  0 < size body →
  step (set_op (AwaitBody type (size body)) (Session (body ++ r) AwaitHeader w)) (Ready k) =
  Ret (echo_back k type body (Session r (AwaitBody type (size body)) w)).
Proof.
  intros Hsz. unfold step, set_op. cbn [op inbox wire]. unfold size in *. rewrite Nat2Z.id.
  rewrite decide_True by (rewrite length_app; lia). by rewrite take_app_length, drop_app_length.
Qed.

Lemma round_answers k m w rest :
  acceptable m → (HEADER_SIZE <= k)%nat →
  steps (Session (packet (m_type m) (m_body m) ++ rest) AwaitHeader w) (round k) =
  Ret (Session rest AwaitHeader (w ++ packet (m_type m) (m_body m))).
Proof.
  destruct m as [type body]. intros [Ht Hb] Hk. cbn [m_type m_body] in *.
  unfold round, packet at 1. rewrite <-app_assoc. cbn [steps].
  rewrite header_read_completes by done. cbn [mbind outcome_bind]. unfold read_body.
  destruct (Z.eqb_spec (size body) 0) as [Hz|Hz].
  - destruct body; [|done]. cbn [app].
    change (step (echo_back k type [] _) (Ready k)) with (Ret (echo_back k type [] (Session rest AwaitHeader w))).
    cbn [mbind outcome_bind]. by rewrite write_completes.
  - rewrite body_read_completes by (unfold size in *; lia). cbn [mbind outcome_bind].
    by rewrite write_completes.
Qed.

(** Three messages in two pieces, whose answers the socket takes in parts. *)
Example three_messages :
  let ms := [Msg 1 (lit "HelloByteOrder"); Msg 7 []; Msg 65535 (lit "x")] in
  steps (start []) ([Arrive (take 9 (stream_of ms)); Ready 6; Ready 6;
    Arrive (drop 9 (stream_of ms)); Ready 8; Sent 3; Sent 9] ++ ([(6%nat, 1); (7%nat, 2); (6%nat, 1)] ≫= turn)) =
  Ret (Session [] AwaitHeader (stream_of ms)).
Proof. by vm_compute. Qed.

Lemma recv_packet type body rest :
  0 <= type < 2 ^ 16 → size body < 2 ^ 32 →
  recv_message (packet type body ++ rest) = Ret (Msg type body, rest).
Proof.
  intros Ht Hb. unfold recv_message, asio_read, packet. rewrite <-app_assoc.
  rewrite decide_True by (rewrite length_app, length_header; lia). cbn [mbind outcome_bind].
  rewrite (take_app_length' (header type body)), (drop_app_length' (header type body)) by done.
  rewrite <-(app_nil_r (header type body)), parse_type, parse_len by done. cbn [app].
  destruct (Z.ltb_spec 0 (size body)); unfold size in *.
  - rewrite Nat2Z.id, decide_True by (rewrite length_app; lia). cbn [mbind outcome_bind].
    by rewrite take_app_length, drop_app_length.
  - by destruct body; [|simpl in *; lia].
Qed.

(** The client reads back what it sent: for every type and every body the server
    accepts, the reply decodes to the same message. *)
Theorem client_echo_roundtrip type body k :
  acceptable (Msg type body) → (HEADER_SIZE <= k)%nat →
  ∃ s, steps (start (send_message type body)) (round k) = Ret s ∧
    recv_message (wire s) = Ret (Msg type body, []).
Proof.
  intros Hm Hk. eexists. unfold send_message, start, read_header, set_op. cbn [inbox wire].
  rewrite <-(app_nil_r (packet type body)), (round_answers k (Msg type body)) by done.
  split; [done|]. cbn [wire app m_type m_body]. rewrite <-(app_nil_r (packet type body)).
  destruct Hm as [Ht Hb]. apply recv_packet; [done|]. unfold MAX_BODY in Hb. cbn in Hb. lia.
Qed.

Lemma client_echo_roundtrip_witness :
  ∃ s, steps (start (send_message 1 (lit "HelloByteOrder"))) (round 20) = Ret s ∧
    recv_message (wire s) = Ret (Msg 1 (lit "HelloByteOrder"), []).
Proof. apply client_echo_roundtrip; [by apply (bool_decide_unpack _); vm_compute|cbv; lia]. Defined.

Example client_prints_ok :
  (s ← steps (start (send_message 1 (lit "HelloByteOrder"))) (round 20); client_main (wire s))
  = Ret (lit "[client] echo OK").
Proof. by vm_compute. Qed.

(** [echo_back] hands [async_write] pointers to its own local variables: when the
    socket does not take the six header bytes before [echo_back] returns, the rest
    of the write reads a dead stack frame. *)
Theorem echo_header_dangles type body k n :
  acceptable (Msg type body) → (k < HEADER_SIZE)%nat →
  steps (start (packet type body)) [Ready k; Ready k; Sent n] = Undef.
Proof.
  intros [Ht Hb] Hk. cbn [m_type m_body] in *.
  assert (∀ b o, step (echo_back k type b (Session [] o [])) (Sent n) = Undef) as Hdead.
  { intros b o. unfold echo_back, step. cbn [op].
    pose proof (length_drop (header type b) k) as Hl. rewrite length_header in Hl.
    destruct (drop k (header type b)); [simpl in Hl; unfold HEADER_SIZE in *; lia|done]. }
  unfold start, read_header, set_op, packet. cbn [inbox wire steps].
  rewrite header_read_completes by done. cbn [mbind outcome_bind]. unfold read_body.
  destruct (Z.eqb_spec (size body) 0) as [Hz|Hz].
  - destruct body; [|done].
    change (step (echo_back k type [] _) (Ready k)) with (Ret (echo_back k type [] (Session [] AwaitHeader []))).
    cbn [mbind outcome_bind]. by rewrite Hdead.
  - rewrite <-(app_nil_r body) at 2. rewrite body_read_completes by (unfold size in *; lia).
    cbn [mbind outcome_bind]. by rewrite Hdead.
Qed.

Lemma echo_header_dangles_witness :
  steps (start (packet 1 (lit "Hello"))) [Ready 3; Ready 3; Sent 5] = Undef.
Proof. apply echo_header_dangles; [by apply (bool_decide_unpack _); vm_compute|cbv; lia]. Defined.

Lemma extra_threads_bounds suggested :
  0 <= suggested < 2 ^ 32 → 0 <= extra_threads suggested <= 3.
Proof.
  intros Hs. unfold extra_threads. destruct (Z.ltb_spec 0 suggested); [|lia].
  rewrite wrap32_small by lia. lia.
Qed.
