(* ===== verification/ProtoEcho.v ===== *)
(** * The protobuf echo of base_protobuf

    Frames of a total length, a type and a serialized message.  The message classes
    and their serialization are generated code on the protobuf library, so they
    are a parameter with the one law the programs rely on.  A session is the state
    machine of its handlers; the server runs them all in one [io.run()]. *)

From stdpp Require Import base list strings.
From Stdlib Require Import ZArith Lia Ascii.
From S2P Require Import Prelude CxxString NetBytes.

Local Open Scope Z_scope.

(** ** base_protobuf: total length, type, serialized message *)

(** What the programs rely on of a generated message class. *)
Class Codec (M : Type) := {
  SerializeToString : M → option bytes;
  ParseFromString : bytes → option M;
  parse_serialize m b : SerializeToString m = Some b → ParseFromString b = Some m
}.

Definition HEADER_SIZE : Z := 6.
Definition MAX_BODY : Z := 4 * 1024 * 1024.
Definition CHAT_MESSAGE : Z := 3.
Definition HEARTBEAT : Z := 4.

Section proto.
Context {Chat Beat : Type} `{Codec Chat} `{Codec Beat}.

(** The three buffers of [send_protobuf]. *)
Definition frame (msg_type : Z) (body : bytes) : bytes :=
  bytes32 (htonl (wrap32 (HEADER_SIZE + size body))) ++ bytes16 (htons msg_type) ++ body.

Inductive pending := AwaitHeader | AwaitBody (len : Z) | Ended.
Record session := Session { inbox : bytes; op : pending; msg_type : Z; wire : bytes }.

Definition start : session := Session [] AwaitHeader 0 [].

(** A synchronous write: [ok] tells whether the socket took it; without an
    [error_code] argument a failure is thrown. *)
Definition send_protobuf {M} `{Codec M} (ok : bool) (type : Z) (msg : M) (s : session) : outcome session :=
  match SerializeToString msg with
  | None => Ret s
  | Some body =>
      if ok then Ret (Session (inbox s) (op s) (msg_type s) (wire s ++ frame type body))
      else Throw (RuntimeError (lit "write"))
  end.

Definition read_loop (s : session) : session :=
  Session (inbox s) AwaitHeader (msg_type s) (wire s).

Definition on_body (ok : bool) (raw : bytes) (s : session) : outcome session :=
  s ← (if msg_type s =? CHAT_MESSAGE then
         match ParseFromString (M:=Chat) raw with
         | Some msg => send_protobuf ok CHAT_MESSAGE msg s
         | None => Ret s
         end
       else if msg_type s =? HEARTBEAT then
         match ParseFromString (M:=Beat) raw with
         | Some hb => send_protobuf ok HEARTBEAT hb s
         | None => Ret s
         end
       else Ret s);
  Ret (read_loop s).

Definition on_header (ok : bool) (buf : bytes) (s : session) : outcome session :=
  let total := ntohl (load32 buf) in
  let s := Session (inbox s) (op s) (ntohs (load16 (drop 4 buf))) (wire s) in
  if (total <? HEADER_SIZE) || (MAX_BODY <? total)
  then Ret (Session (inbox s) Ended (msg_type s) (wire s))
  else
    let body_len := wrap32 (total - HEADER_SIZE) in
    if body_len =? 0 then on_body ok [] s
    else Ret (Session (inbox s) (AwaitBody body_len) (msg_type s) (wire s)).

Inductive event := Arrive (data : bytes) | Ready (ok : bool) | Fail.

Definition step (s : session) (e : event) : outcome session :=
  match e with
  | Arrive data => Ret (Session (inbox s ++ data) (op s) (msg_type s) (wire s))
  | Ready ok =>
      match op s with
      | AwaitHeader =>
          if decide (6 <= length (inbox s))%nat
          then on_header ok (take 6 (inbox s)) (Session (drop 6 (inbox s)) (op s) (msg_type s) (wire s))
          else Ret s
      | AwaitBody len =>
          if decide (Z.to_nat len <= length (inbox s))%nat
          then on_body ok (take (Z.to_nat len) (inbox s))
                 (Session (drop (Z.to_nat len) (inbox s)) (op s) (msg_type s) (wire s))
          else Ret s
      | Ended => Ret s
      end
  | Fail => Ret (Session (inbox s) Ended (msg_type s) (wire s))
  end.

Fixpoint steps (s : session) (es : list event) : outcome session :=
  match es with
  | [] => Ret s
  | e :: es' => s' ← step s e; steps s' es'
  end.

(** The server: its sessions, and whether [io.run()] is still running.  An
    exception of a handler leaves [io.run()], is reported by [main], and the
    program ends. *)
Record server := Server { sessions : list session; running : bool }.
Definition server_init : server := Server [] true.

Inductive server_event := Accept (ok : bool) | On (i : nat) (e : event).

Definition server_step (srv : server) (e : server_event) : server :=
  if running srv then
    match e with
    | Accept ok => if ok then Server (sessions srv ++ [start]) true else srv
    | On i e =>
        match sessions srv !! i with
        | None => srv
        | Some s =>
            match step s e with
            | Ret s' => Server (<[i := s']> (sessions srv)) true
            | _ => Server (sessions srv) false
            end
        end
    end
  else srv.

(** The client's [recv_protobuf]: the result, the type, the body, the size it
    reserved for it, and what is left of the stream. *)
Record received_frame := Recv { ok : bool; r_type : Z; r_body : bytes; reserved : Z; r_rest : bytes }.

Definition client_recv (stream : bytes) : received_frame :=
  if decide (6 <= length stream)%nat then
    let total := ntohl (load32 stream) in
    let type := ntohs (load16 (drop 4 stream)) in
    let body_len := wrap32 (total - HEADER_SIZE) in
    let rest := drop 6 stream in
    if 0 <? body_len then
      if body_len <=? size rest
      then Recv true type (take (Z.to_nat body_len) rest) body_len (drop (Z.to_nat body_len) rest)
      else Recv false type rest body_len []
    else Recv true type [] 0 rest
  else Recv false 0 [] 0 [].

(** The server file's [recv_protobuf] checks the length first. *)
Definition server_recv (stream : bytes) : received_frame :=
  if decide (6 <= length stream)%nat then
    let total := ntohl (load32 stream) in
    let type := ntohs (load16 (drop 4 stream)) in
    let rest := drop 6 stream in
    if (total <? HEADER_SIZE) || (MAX_BODY <? total) then Recv false type [] 0 rest
    else
      let body_len := wrap32 (total - HEADER_SIZE) in
      if 0 <? body_len then
        if body_len <=? size rest
        then Recv true type (take (Z.to_nat body_len) rest) body_len (drop (Z.to_nat body_len) rest)
        else Recv false type rest body_len []
      else Recv true type [] 0 rest
  else Recv false 0 [] 0 [].

(** The client's [send_protobuf]. *)
Definition client_send {M} `{Codec M} (type : Z) (msg : M) : option bytes :=
  frame type <$> SerializeToString msg.

(** *** The contract: one reply per understood frame, in order *)

Definition reply (f : Z * bytes) : bytes :=
  let '(type, raw) := f in
  if type =? CHAT_MESSAGE then
    match ParseFromString (M:=Chat) raw ≫= SerializeToString with
    | Some body => frame CHAT_MESSAGE body
    | None => []
    end
  else if type =? HEARTBEAT then
    match ParseFromString (M:=Beat) raw ≫= SerializeToString with
    | Some body => frame HEARTBEAT body
    | None => []
    end
  else [].

(** A frame as it travels: its six header bytes determine type and length. *)
Definition is_frame (f : Z * bytes) (w : bytes) : Prop :=
  ∃ h, length h = 6%nat ∧ w = h ++ f.2 ∧ ntohl (load32 h) = HEADER_SIZE + size f.2 ∧
    ntohs (load16 (drop 4 h)) = f.1 ∧ HEADER_SIZE + size f.2 <= MAX_BODY.

Inductive framed : list (Z * bytes) → bytes → Prop :=
  | framed_nil : framed [] []
  | framed_snoc fs w f wf : framed fs w → is_frame f wf → framed (fs ++ [f]) (w ++ wf).

Definition sound (rx : bytes) (s : session) : Prop :=
  match op s with
  | AwaitHeader => ∃ fs w, framed fs w ∧ rx = w ++ inbox s ∧ wire s = fs ≫= reply
  | AwaitBody len =>
      ∃ fs w h, framed fs w ∧ rx = w ++ h ++ inbox s ∧ wire s = fs ≫= reply ∧
        length h = 6%nat ∧ ntohl (load32 h) = HEADER_SIZE + len ∧ 0 < len ∧
        HEADER_SIZE + len <= MAX_BODY ∧ ntohs (load16 (drop 4 h)) = msg_type s
  | Ended => ∃ fs w rest, framed fs w ∧ rx = w ++ rest ∧ wire s = fs ≫= reply
  end.

Lemma on_body_reply raw s :
  on_body true raw s =
  Ret (Session (inbox s) AwaitHeader (msg_type s) (wire s ++ reply (msg_type s, raw))).
Proof.
  unfold on_body, reply, send_protobuf, read_loop. destruct s as [i o t w]. cbn [msg_type inbox op wire].
  destruct (t =? CHAT_MESSAGE).
  - destruct (ParseFromString raw) as [m|]; cbn; [|by rewrite app_nil_r].
    destruct (SerializeToString m); cbn; [done|by rewrite app_nil_r].
  - destruct (t =? HEARTBEAT); cbn; [|by rewrite app_nil_r].
    destruct (ParseFromString raw) as [m|]; cbn; [|by rewrite app_nil_r].
    destruct (SerializeToString m); cbn; [done|by rewrite app_nil_r].
Qed.

(** A complete frame was read. *)
Lemma sound_next fs w h raw inb t tx :
  framed fs w → tx = fs ≫= reply → length h = 6%nat →
  ntohl (load32 h) = HEADER_SIZE + size raw → HEADER_SIZE + size raw <= MAX_BODY →
  ntohs (load16 (drop 4 h)) = t →
  sound (w ++ h ++ raw ++ inb) (Session inb AwaitHeader t (tx ++ reply (t, raw))).
Proof.
  intros Hw -> Hh Hl Hm Ht. exists (fs ++ [(t, raw)]), (w ++ h ++ raw). split_and!.
  - apply framed_snoc; [done|]. by exists h.
  - cbn. by rewrite <-!app_assoc.
  - cbn. by rewrite bind_app, bind_cons, app_nil_r.
Qed.

Lemma proto_on_header_sound fs w h inb o t tx :
  framed fs w → tx = fs ≫= reply → length h = 6%nat →
  ∃ s', on_header true h (Session inb o t tx) = Ret s' ∧ sound (w ++ h ++ inb) s'.
Proof.
  intros Hw Htx Hh. unfold on_header. cbn [inbox op msg_type wire].
  assert (0 <= ntohl (load32 h) < 2 ^ 32) as Hr by apply htonl_range.
  destruct ((ntohl (load32 h) <? HEADER_SIZE) || (MAX_BODY <? ntohl (load32 h))) eqn:E.
  - eexists. split; [done|]. by exists fs, w, (h ++ inb).
  - zbool. unfold HEADER_SIZE in *. rewrite wrap32_small by lia.
    destruct (Z.eqb_spec (ntohl (load32 h) - 6) 0).
    + eexists. split; [apply on_body_reply|]. apply (sound_next fs w h [] inb); try done;
        change (size []) with 0; unfold HEADER_SIZE; lia.
    + eexists. split; [done|]. exists fs, w, h. split_and!; try done; unfold HEADER_SIZE; lia.
Qed.

(** No write fails. *)
Definition writes_succeed (e : event) : Prop :=
  match e with Ready ok => ok = true | _ => True end.

Lemma proto_step_sound rx s e :
  sound rx s → writes_succeed e →
  ∃ s', step s e = Ret s' ∧ sound (rx ++ match e with Arrive data => data | _ => [] end) s'.
Proof.
  intros Hs He. destruct e as [data|k|]; cbn [step writes_succeed] in *; rewrite ?app_nil_r.
  - eexists. split; [done|]. unfold sound in *. cbn [inbox op wire msg_type]. destruct (op s).
    + destruct Hs as (fs&w&?&->&?). exists fs, w. by rewrite app_assoc.
    + destruct Hs as (fs&w&h&?&->&?). exists fs, w, h. by rewrite <-!app_assoc.
    + destruct Hs as (fs&w&r&?&->&?). exists fs, w, (r ++ data). by rewrite app_assoc.
  - subst k. destruct (op s) as [|len|] eqn:Hop; [| |by eauto]; (case_decide as Hlen; [|by eauto]);
      unfold sound in Hs; rewrite Hop in Hs.
    + destruct Hs as (fs & w & Hw & -> & Htx).
      replace (w ++ inbox s) with (w ++ take 6 (inbox s) ++ drop 6 (inbox s)) by (by rewrite take_drop).
      apply (proto_on_header_sound fs); [done..|].
      rewrite length_take. lia.
    + destruct Hs as (fs & w & h & Hw & -> & Htx & Hh & Hl & Hpos & Hm & Ht).
      eexists. split; [apply on_body_reply|]. cbn [inbox wire msg_type].
      rewrite <-(take_drop (Z.to_nat len) (inbox s)) at 1.
      assert (size (take (Z.to_nat len) (inbox s)) = len) as Hsz
        by (unfold size; rewrite length_take; lia).
      apply (sound_next fs w h); rewrite ?Hsz; done.
  - eexists. split; [done|]. unfold sound in *. cbn [op inbox wire]. destruct (op s); naive_solver.
Qed.

Definition received (es : list event) : bytes :=
  es ≫= λ e, match e with Arrive data => data | _ => [] end.

(** C37. Every understood frame gets one reply, in order: however the bytes arrive, as
    long as writes succeed a session's handlers return, and what it has sent are
    the replies to the whole frames it has read: the re-serialized chat message or
    heartbeat, nothing for an unknown type or a body that does not parse. *)
Theorem replies_in_order es :
  Forall writes_succeed es →
  ∃ s fs w rest, steps start es = Ret s ∧ framed fs w ∧ received es = w ++ rest ∧
    wire s = fs ≫= reply ∧ (op s = AwaitHeader → rest = inbox s).
Proof.
  assert (∀ rx s, sound rx s → Forall writes_succeed es →
    ∃ s', steps s es = Ret s' ∧ sound (rx ++ received es) s') as Hall.
  { induction es as [|e es IH]; intros rx s Hs Hes.
    - exists s. split; [done|]. by rewrite app_nil_r.
    - apply Forall_cons in Hes as [He Hes].
      destruct (proto_step_sound rx s e Hs He) as (s1 & E & Hs1).
      destruct (IH _ _ Hs1 Hes) as (s' & ? & ?). exists s'. cbn. rewrite E. split; [done|].
      by rewrite app_assoc. }
  intros Hes. destruct (Hall [] start) as (s & E & Hs); [by exists [], []; split_and!; [constructor|..]|done|].
  unfold sound in Hs. cbn [app] in Hs. destruct (op s) eqn:Hop.
  - destruct Hs as (fs & w & ? & ? & ?). by exists s, fs, w, (inbox s).
  - destruct Hs as (fs & w & h & ? & ? & ? & _). exists s, fs, w, (h ++ inbox s). split_and!; done || congruence.
  - destruct Hs as (fs & w & r & ? & ? & ?). exists s, fs, w, r. split_and!; done || congruence.
Qed.

(** *** The client *)

Lemma parse_frame type body rest :
  0 <= type < 2 ^ 16 → HEADER_SIZE + size body < 2 ^ 32 →
  ntohl (load32 (frame type body ++ rest)) = HEADER_SIZE + size body ∧
  ntohs (load16 (drop 4 (frame type body ++ rest))) = type ∧
  drop 6 (frame type body ++ rest) = body ++ rest.
Proof.
  intros Ht Hs. unfold size, HEADER_SIZE in *. split_and!; [| |done].
  - change (load32 (frame type body ++ rest)) with
      (load32 (bytes32 (htonl (wrap32 (HEADER_SIZE + size body))))).
    rewrite load32_bytes32 by apply htonl_range. unfold size, HEADER_SIZE.
    rewrite wrap32_small by lia. apply ntohl_htonl. lia.
  - change (load16 (drop 4 (frame type body ++ rest))) with (load16 (bytes16 (htons type))).
    rewrite load16_bytes16 by apply htons_range. by apply ntohs_htons.
Qed.

Lemma client_recv_frame type body rest :
  0 <= type < 2 ^ 16 → HEADER_SIZE + size body < 2 ^ 32 →
  client_recv (frame type body ++ rest) = Recv true type body (size body) rest.
Proof.
  intros Ht Hs. unfold client_recv.
  destruct (parse_frame type body rest Ht Hs) as (-> & -> & ->).
  rewrite decide_True by (simpl; lia). unfold size, HEADER_SIZE in *.
  rewrite wrap32_small by lia. replace (6 + Z.of_nat (length body) - 6) with (Z.of_nat (length body)) by lia.
  rewrite length_app, Nat2Z.id, take_app_length, drop_app_length.
  destruct (Z.ltb_spec 0 (Z.of_nat (length body))).
  - destruct (Z.leb_spec (Z.of_nat (length body)) (Z.of_nat (length body + length rest))); [done|lia].
  - destruct body; [done|simpl in *; lia].
Qed.

Lemma load32_take l : load32 (take 6 l) = load32 l.
Proof. by destruct l as [|? [|? [|? [|? ?]]]]. Qed.
Lemma load16_take l : load16 (drop 4 (take 6 l)) = load16 (drop 4 l).
Proof. by destruct l as [|? [|? [|? [|? [|? [|? ?]]]]]]. Qed.
Lemma length_frame type body : length (frame type body) = (6 + length body)%nat.
Proof. done. Qed.

(** The header of a frame within the limit is read. *)
Lemma proto_header_read_completes o type body t w :
  0 <= type < 2 ^ 16 → HEADER_SIZE + size body <= MAX_BODY →
  step (Session (frame type body) AwaitHeader t w) (Ready o) =
  if size body =? 0 then on_body o [] (Session body AwaitHeader type w)
  else Ret (Session body (AwaitBody (size body)) type w).
Proof.
  intros Ht Hm. assert (HEADER_SIZE + size body < 2 ^ 32) as Hs by (unfold MAX_BODY in Hm; lia).
  destruct (parse_frame type body [] Ht Hs) as (Hl & Hty & Hd). rewrite !app_nil_r in *.
  unfold step. cbn [inbox op msg_type wire]. rewrite length_frame, decide_True by lia.
  unfold on_header. cbn [inbox op msg_type wire]. rewrite load32_take, load16_take, Hl, Hty, Hd.
  unfold size, HEADER_SIZE in *.
  replace ((6 + Z.of_nat (length body) <? 6) || (MAX_BODY <? 6 + Z.of_nat (length body))) with false by lia.
  rewrite wrap32_small by lia.
  by replace (6 + Z.of_nat (length body) - 6) with (Z.of_nat (length body)) by lia.
Qed.

Lemma proto_body_read_completes o body type w :
  step (Session body (AwaitBody (size body)) type w) (Ready o) =
  on_body o body (Session [] (AwaitBody (size body)) type w).
Proof.
  unfold step, size. cbn [inbox op msg_type wire].
  rewrite Nat2Z.id, decide_True by lia. by rewrite firstn_all, drop_all.
Qed.

Lemma steps_cons s e es s' : step s e = Ret s' → steps s (e :: es) = steps s' es.
Proof. intros E. cbn [steps]. by rewrite E. Qed.
Lemma arrive_empty data t w :
  step (Session [] AwaitHeader t w) (Arrive data) = Ret (Session data AwaitHeader t w).
Proof. done. Qed.
Lemma ready_empty o t w :
  step (Session [] AwaitHeader t w) (Ready o) = Ret (Session [] AwaitHeader t w).
Proof. done. Qed.

(** The frame is read, header and body, and answered. *)
Lemma frame_answered type body :
  0 <= type < 2 ^ 16 → HEADER_SIZE + size body <= MAX_BODY →
  steps start [Arrive (frame type body); Ready true; Ready true] =
  Ret (Session [] AwaitHeader type (reply (type, body))).
Proof.
  intros Ht Hm. unfold start. rewrite (steps_cons _ _ _ _ (arrive_empty _ _ _)).
  pose proof (proto_header_read_completes true type body 0 [] Ht Hm) as E.
  destruct (Z.eqb_spec (size body) 0) as [Hz|].
  - destruct body; [|discriminate Hz]. rewrite on_body_reply in E. cbn [inbox msg_type wire] in E.
    rewrite (steps_cons _ _ _ _ E). by rewrite (steps_cons _ _ _ _ (ready_empty _ _ _)).
  - pose proof (proto_body_read_completes true body type []) as E'. rewrite on_body_reply in E'.
    rewrite (steps_cons _ _ _ _ E). by rewrite (steps_cons _ _ _ _ E').
Qed.

(** The client's chat message comes back: what it sends, the server's reply, and
    the parse of that reply give the message again, for every message whose
    serialization fits the limit. *)
Theorem chat_roundtrip (msg : Chat) b out :
  SerializeToString msg = Some b → HEADER_SIZE + size b <= MAX_BODY →
  client_send CHAT_MESSAGE msg = Some out →
  ∃ s, steps start [Arrive out; Ready true; Ready true] = Ret s ∧
    ok (client_recv (wire s)) = true ∧ r_type (client_recv (wire s)) = CHAT_MESSAGE ∧
    ParseFromString (r_body (client_recv (wire s))) = Some msg.
Proof.
  intros Hser Hm Hsend. unfold client_send in Hsend. rewrite Hser in Hsend.
  cbn in Hsend. injection Hsend as <-. eexists. split; [by apply frame_answered|].
  cbn [wire]. unfold reply. change (CHAT_MESSAGE =? CHAT_MESSAGE) with true. cbn beta iota.
  rewrite (parse_serialize msg b Hser). cbn [mbind option_bind]. rewrite Hser.
  rewrite <-(app_nil_r (frame _ _)), client_recv_frame by (done || unfold MAX_BODY in Hm; lia).
  cbn. split_and!; [done..|]. by apply parse_serialize.
Qed.

Lemma server_step_ok srv i s e s' :
  running srv = true → sessions srv !! i = Some s → step s e = Ret s' →
  server_step srv (On i e) = Server (<[i := s']> (sessions srv)) true.
Proof. intros Hr Hi E. unfold server_step. by rewrite Hr, Hi, E. Qed.

Lemma server_step_throw srv i s e x :
  running srv = true → sessions srv !! i = Some s → step s e = Throw x →
  server_step srv (On i e) = Server (sessions srv) false.
Proof. intros Hr Hi E. unfold server_step. by rewrite Hr, Hi, E. Qed.

Lemma stopped srv es : running srv = false → foldl server_step srv es = srv.
Proof.
  intros Hr. induction es as [|e es IH]; [done|]. cbn [foldl].
  assert (server_step srv e = srv) as -> by (unfold server_step; by rewrite Hr). exact IH.
Qed.

(** One client can stop the service: when the write of a reply fails, because the
    peer is gone, the exception leaves [io.run()] and no session is served again. *)
Theorem failed_write_stops_server srv i s (msg : Chat) b es :
  running srv = true → sessions srv !! i = Some s → op s = AwaitHeader →
  SerializeToString msg = Some b → HEADER_SIZE + size b <= MAX_BODY → b ≠ [] →
  inbox s = frame CHAT_MESSAGE b →
  foldl server_step srv ([On i (Ready true); On i (Ready false)] ++ es) =
  Server (<[i := Session b (AwaitBody (size b)) CHAT_MESSAGE (wire s)]> (sessions srv)) false.
Proof.
  intros Hrun Hi Hop Hser Hm Hb Hin. rewrite foldl_app. cbn [foldl].
  destruct s as [inb o t w]. cbn [op inbox wire msg_type] in *. subst o inb.
  pose proof (proto_header_read_completes true CHAT_MESSAGE b t w ltac:(unfold CHAT_MESSAGE; lia) Hm) as E.
  destruct (Z.eqb_spec (size b) 0); [by destruct b|].
  rewrite (server_step_ok _ _ _ _ _ Hrun Hi E).
  assert (step (Session b (AwaitBody (size b)) CHAT_MESSAGE w) (Ready false) =
    Throw (RuntimeError (lit "write"))) as E'.
  { rewrite proto_body_read_completes. unfold on_body. cbn [msg_type].
    change (CHAT_MESSAGE =? CHAT_MESSAGE) with true. cbn beta iota.
    rewrite (parse_serialize msg b Hser). unfold send_protobuf. by rewrite Hser. }
  erewrite server_step_throw; [by apply stopped|done| |exact E'].
  cbn [sessions]. apply list_lookup_insert_eq. by eapply lookup_lt_Some.
Qed.

(** The client does not check the length field: a header with a total below six
    makes it reserve almost 4 GiB, where the server file's reader refuses it. *)
Theorem client_length_underflows h :
  length h = 6%nat → ntohl (load32 h) < HEADER_SIZE →
  reserved (client_recv h) = 2 ^ 32 - HEADER_SIZE + ntohl (load32 h) ∧
  ok (server_recv h) = false ∧ reserved (server_recv h) = 0.
Proof.
  intros Hh Hl. assert (0 <= ntohl (load32 h) < 2 ^ 32) as Hr by apply htonl_range.
  unfold client_recv, server_recv. rewrite !decide_True by lia. unfold HEADER_SIZE in *.
  replace ((ntohl (load32 h) <? 6) || _) with true by lia. split; [|done].
  assert (wrap32 (ntohl (load32 h) - 6) = 2 ^ 32 - 6 + ntohl (load32 h)) as ->.
  { unfold wrap32. symmetry. apply (Z.mod_unique_pos _ _ (-1)); lia. }
  rewrite drop_ge by lia. change (size []) with 0.
  destruct (Z.ltb_spec 0 (2 ^ 32 - 6 + ntohl (load32 h))); [|lia].
  destruct (Z.leb_spec (2 ^ 32 - 6 + ntohl (load32 h)) 0); [lia|done].
Qed.
End proto.

(** A codec for the witnesses: a message is its bytes. *)
#[local] Instance bytes_codec : Codec bytes.
Proof. refine {| SerializeToString m := Some m; ParseFromString b := Some b |}. congruence. Defined.

Lemma replies_in_order_witness :
  let es := [Arrive (frame CHAT_MESSAGE (lit "hi")); Ready true; Ready true] in
  ∃ s fs w rest, steps (Chat:=bytes) (Beat:=bytes) start es = Ret s ∧ framed fs w ∧ received es = w ++ rest ∧
    wire s = fs ≫= reply (Chat:=bytes) (Beat:=bytes) ∧ (op s = AwaitHeader → rest = inbox s).
Proof. intros es. apply replies_in_order. by repeat constructor. Defined.

Lemma chat_roundtrip_witness :
  ∃ s, steps (Chat:=bytes) (Beat:=bytes) start
      [Arrive (frame CHAT_MESSAGE (lit "hi")); Ready true; Ready true] = Ret s ∧
    ok (client_recv (wire s)) = true ∧ r_type (client_recv (wire s)) = CHAT_MESSAGE ∧
    ParseFromString (M:=bytes) (r_body (client_recv (wire s))) = Some (lit "hi").
Proof.
  apply (chat_roundtrip (Chat:=bytes) (Beat:=bytes) (lit "hi") (lit "hi")); [done| |done].
  vm_compute. congruence.
Defined.

Lemma failed_write_stops_server_witness :
  let s := Session (frame CHAT_MESSAGE (lit "hi")) AwaitHeader 0 [] in
  foldl (server_step (Chat:=bytes) (Beat:=bytes)) (Server [s; start] true)
    ([On 0 (Ready true); On 0 (Ready false)] ++ [On 1 (Ready true)]) =
  Server [Session (lit "hi") (AwaitBody 2) CHAT_MESSAGE []; start] false.
Proof.
  intros s. apply (failed_write_stops_server (Chat:=bytes) (Beat:=bytes) (Server [s; start] true) 0 s (lit "hi") (lit "hi"));
    done || (vm_compute; congruence).
Defined.

Lemma client_length_underflows_witness :
  reserved (client_recv (replicate 6 (byte_of 0))) = 2 ^ 32 - 6 + 0 ∧
  ok (server_recv (replicate 6 (byte_of 0))) = false ∧
  reserved (server_recv (replicate 6 (byte_of 0))) = 0.
Proof. by apply (client_length_underflows (replicate 6 (byte_of 0))). Defined.
