(* ===== verification/AsioSession.v ===== *)
(** * The client session of base_asio/session.cpp

    A session that writes and reads through [async_write_some] and friends.  The
    asynchronous operations that were started are explicit: the reactor completes
    them in order, with any number of bytes, and runs their handler.  The queued
    writer ([write2socket]) keeps every byte in order; the three other ways in
    are shown to lose that: the one without a queue, the one that trusts a single
    send, and the reader that chains to the writer's handler. *)

From stdpp Require Import base list strings.
From Stdlib Require Import ZArith Lia Ascii.
From S2P Require Import Prelude CxxString.

Local Open Scope Z_scope.

Definition RECVSIZE : Z := 1024.

(** [msg_node]: for a sender the bytes to send; for a receiver the room. *)
Record msg_node := Node { _msg : bytes; _total_len : Z; _cur_len : Z }.

Definition send_msg_node (buf : bytes) : msg_node := Node buf (size buf) 0.
Definition recv_msg_node (total : Z) : msg_node := Node [] total 0.

(** [boost::asio::buffer(node->_msg + node->_cur_len, node->_total_len - node->_cur_len)] *)
Definition rest_of (n : msg_node) : bytes := drop (Z.to_nat (_cur_len n)) (_msg n).

Definition advance (n : msg_node) (bytes_transferred : Z) : msg_node :=
  Node (_msg n) (_total_len n) (sext 32 (_cur_len n + bytes_transferred)).

(** The handlers an operation can be started with; the captured [send_node] of
    [write_callback_err] is a pointer into the store. *)
Inductive handler :=
  | write_callback
  | write_callback_err (send_node : nat)
  | write_all_callback
  | read_call_back.

(** The session.  [store] holds the nodes of [write2socket_err], which are shared
    by the member [_send_node] and the handlers.  [writes] and [reads] are the
    operations in progress, oldest first, [wire] what was sent. *)
Record session := Session {
  store : list msg_node;
  _send_node : option nat;
  _send_queue : list msg_node;
  _recv_node : option msg_node;
  _send_pending : bool;
  _recv_pending : bool;
  writes : list (bytes * handler);
  reads : list (Z * handler);
  wire : bytes
}.

Definition new_session : session := Session [] None [] None false false [] [] [].

Definition set_queue (q : list msg_node) (p : bool) (s : session) : session :=
  Session (store s) (_send_node s) q (_recv_node s) p (_recv_pending s) (writes s) (reads s) (wire s).
Definition set_recv (n : option msg_node) (p : bool) (s : session) : session :=
  Session (store s) (_send_node s) (_send_queue s) n (_send_pending s) p (writes s) (reads s) (wire s).
Definition set_store (st : list msg_node) (n : option nat) (s : session) : session :=
  Session st n (_send_queue s) (_recv_node s) (_send_pending s) (_recv_pending s)
    (writes s) (reads s) (wire s).

(** Starting an operation. *)
Definition async_write_some (buf : bytes) (h : handler) (s : session) : session :=
  Session (store s) (_send_node s) (_send_queue s) (_recv_node s) (_send_pending s)
    (_recv_pending s) (writes s ++ [(buf, h)]) (reads s) (wire s).
Definition async_read_some (room : Z) (h : handler) (s : session) : session :=
  Session (store s) (_send_node s) (_send_queue s) (_recv_node s) (_send_pending s)
    (_recv_pending s) (writes s) (reads s ++ [(room, h)]) (wire s).

(** ** The operations of the class *)

Definition write2socket_err (buf : bytes) (s : session) : outcome session :=
  let node := send_msg_node buf in
  let p := length (store s) in
  Ret (async_write_some (rest_of node) (write_callback_err p)
         (set_store (store s ++ [node]) (Some p) s)).

(** It counts in the captured node and sends from the member. *)
Definition on_write_callback_err (ec : bool) (n : Z) (send_node : nat) (s : session) : outcome session :=
  if ec then Ret s
  else
    node ← deref (store s !! send_node);
    let node := advance node n in
    let s := set_store (<[send_node := node]> (store s)) (_send_node s) s in
    if _cur_len node <? _total_len node then
      p ← deref (_send_node s);
      member ← deref (store s !! p);
      Ret (async_write_some (rest_of member) (write_callback_err send_node) s)
    else Ret s.

Definition write2socket (buf : bytes) (s : session) : outcome session :=
  let s := set_queue (_send_queue s ++ [send_msg_node buf]) (_send_pending s) s in
  if _send_pending s then Ret s
  else
    let s := set_queue (_send_queue s) true s in
    front ← deref (head (_send_queue s));
    Ret (async_write_some (_msg front) write_callback s).

Definition on_write_callback (ec : bool) (n : Z) (s : session) : outcome session :=
  if ec then Ret s
  else
    match _send_queue s with
    | [] => Undef
    | send_data :: q =>
        let send_data := advance send_data n in
        let s := set_queue (send_data :: q) (_send_pending s) s in
        if _cur_len send_data <? _total_len send_data then
          Ret (async_write_some (rest_of send_data) write_callback s)
        else
          let s := set_queue q (_send_pending s) s in
          match q with
          | [] => Ret (set_queue q false s)
          | send_data :: _ => Ret (async_write_some (rest_of send_data) write_callback s)
          end
    end.

Definition write_all_to_socket (buf : bytes) (s : session) : outcome session :=
  let s := set_queue (_send_queue s ++ [send_msg_node buf]) (_send_pending s) s in
  if _send_pending s then Ret s
  else
    let s := async_write_some buf write_all_callback s in
    Ret (set_queue (_send_queue s) true s).

Definition on_write_all_callback (ec : bool) (n : Z) (s : session) : outcome session :=
  if ec then Ret s
  else
    match _send_queue s with
    | [] => Undef
    | _ :: q =>
        match q with
        | [] => Ret (set_queue q false s)
        | send_data :: _ =>
            Ret (async_write_some (rest_of send_data) write_callback (set_queue q (_send_pending s) s))
        end
    end.

(** [read_all_from_socket] starts [async_receive] with the same handler. *)
Definition read_from_socket (s : session) : outcome session :=
  if _recv_pending s then Ret s
  else
    let node := recv_msg_node RECVSIZE in
    let s := set_recv (Some node) (_recv_pending s) s in
    let s := async_read_some (_total_len node) read_call_back s in
    Ret (set_recv (_recv_node s) true s).
Definition read_all_from_socket := read_from_socket.

(** It does not look at the error code, and chains to the writer's handler. *)
Definition on_read_call_back (ec : bool) (n : Z) (s : session) : outcome session :=
  node ← deref (_recv_node s);
  let node := advance node n in
  let s := set_recv (Some node) (_recv_pending s) s in
  if _cur_len node <? _total_len node then
    Ret (async_read_some (_total_len node - _cur_len node) write_callback s)
  else Ret (set_recv None false s).

Definition read_all_callback (ec : bool) (n : Z) (s : session) : outcome session :=
  node ← deref (_recv_node s); Ret (set_recv None false s).

(** ** Calls of the client and completions by the reactor *)

Inductive event :=
  | Write (buf : bytes)
  | WriteErr (buf : bytes)
  | WriteAll (buf : bytes)
  | Read
  | WriteDone (ec : bool) (n : nat)   (* the oldest write ends, [n] bytes were sent *)
  | ReadDone (ec : bool) (n : nat).   (* the oldest read ends with [n] bytes *)

Definition run_handler (h : handler) (ec : bool) (n : Z) (s : session) : outcome session :=
  match h with
  | write_callback => on_write_callback ec n s
  | write_callback_err p => on_write_callback_err ec n p s
  | write_all_callback => on_write_all_callback ec n s
  | read_call_back => on_read_call_back ec n s
  end.

Definition step (s : session) (e : event) : outcome session :=
  match e with
  | Write buf => write2socket buf s
  | WriteErr buf => write2socket_err buf s
  | WriteAll buf => write_all_to_socket buf s
  | Read => read_from_socket s
  | WriteDone ec n =>
      match writes s with
      | [] => Ret s
      | (buf, h) :: ws =>
          let n := Nat.min n (length buf) in
          run_handler h ec (Z.of_nat n)
            (Session (store s) (_send_node s) (_send_queue s) (_recv_node s) (_send_pending s)
               (_recv_pending s) ws (reads s) (wire s ++ take n buf))
      end
  | ReadDone ec n =>
      match reads s with
      | [] => Ret s
      | (room, h) :: rs =>
          run_handler h ec (Z.min (Z.of_nat n) room)
            (Session (store s) (_send_node s) (_send_queue s) (_recv_node s) (_send_pending s)
               (_recv_pending s) (writes s) rs (wire s))
      end
  end.

Fixpoint steps (s : session) (es : list event) : outcome session :=
  match es with
  | [] => Ret s
  | e :: es' => s' ← step s e; steps s' es'
  end.

(** ** The queued writer *)

(** A client that only uses [write2socket], with messages that fit an [int]; no
    write fails. *)
Definition queued_event (e : event) : Prop :=
  match e with
  | Write buf => size buf < 2 ^ 31
  | WriteDone ec _ => ec = false
  | _ => False
  end.

(** What the client asked to send. *)
Definition asked (es : list event) : bytes :=
  es ≫= λ e, match e with Write buf => buf | _ => [] end.

Definition node_ok (n : msg_node) : Prop :=
  _total_len n = size (_msg n) ∧ size (_msg n) < 2 ^ 31 ∧ 0 <= _cur_len n <= _total_len n.

(** What is still to be sent of the queue. *)
Definition unsent (q : list msg_node) : bytes := q ≫= rest_of.

(** Idle with nothing queued, or exactly one write in progress: the rest of the
    front message. *)
Definition writer_inv (total : bytes) (s : session) : Prop :=
  Forall node_ok (_send_queue s) ∧ wire s ++ unsent (_send_queue s) = total ∧
  match _send_queue s with
  | [] => _send_pending s = false ∧ writes s = []
  | front :: q => _send_pending s = true ∧ writes s = [(rest_of front, write_callback)]
  end.

Lemma rest_of_new buf : rest_of (send_msg_node buf) = buf.
Proof. apply drop_0. Qed.
Lemma node_ok_new buf : size buf < 2 ^ 31 → node_ok (send_msg_node buf).
Proof. intros. unfold node_ok, send_msg_node, size in *. simpl. lia. Qed.
Lemma unsent_snoc q n : unsent (q ++ [n]) = unsent q ++ rest_of n.
Proof. unfold unsent. rewrite bind_app, bind_cons. simpl. by rewrite app_nil_r. Qed.

Lemma advance_spec n k :
  node_ok n → (k <= length (rest_of n))%nat →
  node_ok (advance n (Z.of_nat k)) ∧ _cur_len (advance n (Z.of_nat k)) = _cur_len n + Z.of_nat k ∧
  rest_of (advance n (Z.of_nat k)) = drop k (rest_of n).
Proof.
  intros (Ht & Hs & Hc) Hk. unfold rest_of in Hk. rewrite length_drop in Hk. unfold size in *.
  assert (sext 32 (_cur_len n + Z.of_nat k) = _cur_len n + Z.of_nat k) as E
    by (apply sext_small; lia).
  unfold node_ok, advance, rest_of, size. cbn [_msg _total_len _cur_len]. rewrite E.
  split_and!; try lia. rewrite drop_drop. f_equal. lia.
Qed.

Lemma writer_step total s e :
  writer_inv total s → queued_event e →
  ∃ s', step s e = Ret s' ∧
    writer_inv (total ++ match e with Write buf => buf | _ => [] end) s'.
Proof.
  destruct s as [st sn q rn sp rp ws rs w].
  intros (Hok & Hw & Hq) He. cbn [_send_queue wire _send_pending writes] in *.
  destruct e as [buf|buf|buf| |ec n|ec n]; try done; cbn [queued_event] in He.
  - cbn [step]. unfold write2socket, set_queue. cbn.
    pose proof (node_ok_new buf He) as Hnew.
    destruct q as [|front q].
    + destruct Hq as [-> ->]. eexists. split; [done|]. unfold writer_inv.
      cbn [_send_queue wire _send_pending writes app async_write_some store _send_node].
      rewrite rest_of_new. split_and!; [by apply Forall_singleton| |done..].
      rewrite <-Hw. cbn. by rewrite !app_nil_r.
    + destruct Hq as [-> ->]. eexists. split; [done|]. unfold writer_inv. cbn [_send_queue wire _send_pending writes app].
      split_and!; [rewrite app_comm_cons; by apply Forall_app; split; [|apply Forall_singleton]| |done..].
      change (front :: q ++ [send_msg_node buf]) with ((front :: q) ++ [send_msg_node buf]).
      rewrite unsent_snoc, rest_of_new, app_assoc. by rewrite Hw.
  - subst ec. rewrite app_nil_r. cbn [step writes]. destruct q as [|front q].
    { destruct Hq as [-> ->]. eexists. split; [done|]. by repeat split. }
    destruct Hq as [-> ->]. cbn [run_handler]. set (k := Nat.min n (length (rest_of front))).
    apply Forall_cons in Hok as [Hf Hok].
    destruct (advance_spec front k Hf ltac:(lia)) as (Hf' & Hcur & Hrest).
    assert (w ++ take k (rest_of front) ++ drop k (rest_of front) ++ unsent q = total) as Htot
      by (rewrite (app_assoc (take _ _)), take_drop; exact Hw).
    unfold on_write_callback, set_queue. cbn [_send_queue].
    destruct (Z.ltb_spec (_cur_len (advance front (Z.of_nat k))) (_total_len (advance front (Z.of_nat k)))).
    + eexists. split; [done|]. unfold writer_inv. cbn [_send_queue wire _send_pending writes app async_write_some store _send_node].
      split_and!; [by constructor| |done..]. unfold unsent. rewrite bind_cons, Hrest, <-app_assoc. exact Htot.
    + assert (drop k (rest_of front) = []) as Hnil.
      { rewrite <-Hrest. unfold rest_of. apply drop_ge. destruct Hf' as (?&?&?). unfold size in *. lia. }
      rewrite Hnil in Htot. cbn [app] in Htot.
      destruct q as [|next q]; cbn beta iota zeta; eexists; (split; [reflexivity|]); unfold writer_inv;
        cbn [_send_queue wire _send_pending writes app async_write_some store _send_node];
        (split_and!; [done| |done..]); rewrite <-app_assoc; exact Htot.
Qed.

Lemma writer_steps total s es :
  writer_inv total s → Forall queued_event es →
  ∃ s', steps s es = Ret s' ∧ writer_inv (total ++ asked es) s'.
Proof.
  revert total s. induction es as [|e es IH]; intros total s Hs Hes.
  - exists s. split; [done|]. by rewrite app_nil_r.
  - apply Forall_cons in Hes as [He Hes].
    destruct (writer_step total s e Hs He) as (s1 & E & Hs1).
    destruct (IH _ _ Hs1 Hes) as (s' & ? & ?). exists s'. cbn [steps]. rewrite E. split; [done|].
    unfold asked. by rewrite bind_cons, app_assoc.
Qed.

Lemma writer_init : writer_inv [] new_session.
Proof. by repeat constructor. Qed.

(** C38. The queued writer sends every message, whole and in order: under every
    interleaving of [write2socket] calls with completions of any number of bytes,
    nothing is undefined, what was sent is a prefix of the messages' concatenation,
    and once no write is in progress it is all of it. *)
Theorem queued_writer_exact es :
  Forall queued_event es →
  ∃ s, steps new_session es = Ret s ∧
    wire s ++ unsent (_send_queue s) = asked es ∧ (length (writes s) <= 1)%nat ∧
    (writes s = [] → wire s = asked es ∧ _send_pending s = false).
Proof.
  intros Hes. destruct (writer_steps [] new_session es writer_init Hes) as (s & E & Hok & Hw & Hq).
  exists s. split; [done|]. split; [done|]. destruct (_send_queue s) as [|front q].
  - destruct Hq as [Hp Hws]. rewrite Hws. cbn in Hw. rewrite app_nil_r in Hw. split; [simpl; lia|done].
  - destruct Hq as [_ ->]. split; [done|discriminate].
Qed.

Lemma queued_writer_exact_witness :
  let es := [Write (lit "Hello"); WriteDone false 2; Write (lit " World"); WriteDone false 9;
             WriteDone false 6] in
  ∃ s, steps new_session es = Ret s ∧
    wire s ++ unsent (_send_queue s) = asked es ∧ (length (writes s) <= 1)%nat ∧
    (writes s = [] → wire s = asked es ∧ _send_pending s = false).
Proof. intros es. apply queued_writer_exact. repeat (constructor; [done|]). constructor. Defined.

(** Progress: a completion that takes the whole buffer finishes the front message. *)
Lemma queue_drains total s :
  writer_inv total s →
  ∃ s', steps s (replicate (length (_send_queue s)) (WriteDone false (length total))) = Ret s' ∧
    wire s' = total ∧ writes s' = [].
Proof.
  remember (length (_send_queue s)) as m eqn:Hm. revert s Hm.
  induction m as [|m IH]; intros s Hm Hs; pose proof Hs as (Hok & Hw & Hq).
  - destruct (_send_queue s); [|done]. exists s. cbn in *. rewrite app_nil_r in Hw. naive_solver.
  - destruct (writer_step total s (WriteDone false (length total)) Hs eq_refl) as (s1 & E & Hs1).
    rewrite app_nil_r in Hs1. cbn [replicate steps]. rewrite E. cbn [mbind outcome_bind].
    apply IH; [|done].
    destruct s as [st sn q rn sp rp ws rs w]. cbn in *. destruct q as [|front q]; [done|].
    destruct Hq as [-> ->]. apply Forall_cons in Hok as [Hf Hok].
    unfold unsent in Hw. rewrite bind_cons in Hw.
    assert (length (rest_of front) <= length total)%nat as Hlen
      by (rewrite <-Hw, !length_app; lia).
    destruct (advance_spec front (length (rest_of front)) Hf ltac:(lia)) as (Hf' & Hcur & _).
    cbn [step writes run_handler] in E. rewrite (Nat.min_r _ _ Hlen) in E.
    unfold on_write_callback in E. cbn [_send_queue] in E.
    rewrite Hcur in E. destruct Hf as (?&?&?). unfold rest_of in E. rewrite length_drop in E.
    unfold size in *. cbn [advance _total_len] in E.
    destruct (Z.ltb_spec (_cur_len front + Z.of_nat (length (_msg front) - Z.to_nat (_cur_len front)))
      (_total_len front)); [lia|].
    destruct q; injection E as <-; cbn in *; lia.
Qed.

(** Nothing stays queued: from any state the queued writer reaches, as many
    completions as there are queued messages, each taking what it is offered,
    send everything that was asked for. *)
Theorem queued_writer_drains es :
  Forall queued_event es →
  ∃ s s', steps new_session es = Ret s ∧
    steps s (replicate (length (_send_queue s)) (WriteDone false (length (asked es)))) = Ret s' ∧
    wire s' = asked es ∧ writes s' = [].
Proof.
  intros Hes. destruct (writer_steps [] new_session es writer_init Hes) as (s & E & Hs).
  destruct (queue_drains _ _ Hs) as (s' & ? & ?). by exists s, s'.
Qed.

Lemma queued_writer_drains_witness :
  let es := [Write (lit "Hello"); WriteDone false 2; Write (lit " World")] in
  ∃ s s', steps new_session es = Ret s ∧
    steps s (replicate (length (_send_queue s)) (WriteDone false (length (asked es)))) = Ret s' ∧
    wire s' = asked es ∧ writes s' = [].
Proof. intros es. apply queued_writer_drains. repeat (constructor; [done|]). constructor. Defined.

(** ** The other ways in *)

(** Without the queue the peer gets garbage: [write2socket_err] sends Hello,
    five bytes of which two are taken, while a second call sends abcdef; the rest of
    the first message is then sent from the second one's bytes, because the handler
    reads the member [_send_node] instead of the node it captured. *)
Theorem unqueued_writer_mixes :
  ∃ s, steps new_session
    [WriteErr (lit "Hello"); WriteErr (lit "abcdef"); WriteDone false 2; WriteDone false 6;
     WriteDone false 6; WriteDone false 6] = Ret s ∧
    wire s = lit "Heabcdefabcdef" ∧ writes s = [].
Proof. eexists. split; [vm_compute; reflexivity|split; vm_compute; reflexivity]. Qed.

(** A short send loses the rest: [write_all_to_socket] pops the message when its
    one [async_send] completes, whatever number of bytes was sent. *)
Theorem write_all_loses_rest buf k :
  (k < length buf)%nat →
  ∃ s, steps new_session [WriteAll buf; WriteDone false k] = Ret s ∧
    wire s = take k buf ∧ _send_queue s = [] ∧ writes s = [] ∧ wire s ≠ buf.
Proof.
  intros Hk. eexists. cbn. rewrite Nat.min_l by lia. split; [done|]. cbn.
  split_and!; [done..|]. intros Heq. apply (f_equal length) in Heq. rewrite length_take in Heq. lia.
Qed.

Lemma write_all_loses_rest_witness :
  ∃ s, steps new_session [WriteAll (lit "Hello"); WriteDone false 3] = Ret s ∧
    wire s = lit "Hel" ∧ _send_queue s = [] ∧ writes s = [] ∧ wire s ≠ lit "Hello".
Proof. apply (write_all_loses_rest (lit "Hello") 3). cbv. lia. Defined.

(** A short read runs the writer's handler: [read_call_back] continues a read that
    leaves room with [write_callback], so the next bytes read pop an
    empty queue, which is undefined, or with a message in the queue count as sent. *)
Theorem short_read_runs_writer n m :
  Z.of_nat n + 2 <= RECVSIZE →
  steps new_session [Read; ReadDone false n; ReadDone false m] = Undef ∧
  ∃ s, steps new_session [Write (lit "Hello"); Read; ReadDone false n; ReadDone false 2;
      WriteDone false 5] = Ret s ∧
    wire s = lit "Hello" ∧ _send_pending s = false ∧ writes s = [(lit "llo", write_callback)].
Proof.
  intros Hn. unfold RECVSIZE in Hn.
  assert (∀ s, _recv_node s = Some (recv_msg_node RECVSIZE) →
    on_read_call_back false (Z.min (Z.of_nat n) RECVSIZE) s =
    Ret (async_read_some (RECVSIZE - Z.of_nat n) write_callback
      (set_recv (Some (Node [] RECVSIZE (Z.of_nat n))) (_recv_pending s) s))) as Hread.
  { intros s Hs. unfold on_read_call_back, RECVSIZE in *. rewrite Hs. cbn [deref mbind outcome_bind].
    rewrite Z.min_l by lia. unfold advance, recv_msg_node. cbn [_cur_len _total_len _msg].
    rewrite Z.add_0_l, sext_small by lia. destruct (Z.ltb_spec (Z.of_nat n) 1024); [done|lia]. }
  split.
  - cbn [steps step]. unfold read_from_socket. cbn -[on_read_call_back Z.min Z.of_nat RECVSIZE].
    rewrite Hread by done. done.
  - eexists. cbn [steps step]. unfold read_from_socket, write2socket.
    cbn -[on_read_call_back on_write_callback Z.min Z.of_nat RECVSIZE Nat.min take].
    rewrite Hread by done. cbn -[on_write_callback Z.min RECVSIZE].
    unfold RECVSIZE. rewrite Z.min_l by lia. vm_compute. done.
Qed.

Lemma short_read_runs_writer_witness :
  steps new_session [Read; ReadDone false 10; ReadDone false 20] = Undef ∧
  ∃ s, steps new_session [Write (lit "Hello"); Read; ReadDone false 10; ReadDone false 2;
      WriteDone false 5] = Ret s ∧
    wire s = lit "Hello" ∧ _send_pending s = false ∧ writes s = [(lit "llo", write_callback)].
Proof. apply (short_read_runs_writer 10 20). vm_compute. congruence. Defined.
