(* ===== verification/AsioEcho.v ===== *)
(** * The asynchronous echo servers of base_asio/async_server and base_asio_plus

    Three sessions and the accept loop that owns them.  [EchoSession] reads and
    answers in turns and is exact.  [PlusSession] adds a send queue; the queue on its
    own keeps order, but the read handler both queues the data and writes it
    itself, and each of the two completions pops the queue.  [TlvSession] parses
    length-prefixed messages with members nobody initialises. *)

From stdpp Require Import base gmap list strings.
From Stdlib Require Import ZArith Lia Ascii.
From S2P Require Import Prelude CxxString NetBytes.

Local Open Scope Z_scope.

Definition MAX_LENGTH : Z := 1024.

(** ** async_server/session.cpp *)

(** [_data] is the one buffer of a session: reads fill it and writes send from it. *)
Inductive echo_op := EReading | EWriting (n : nat) | EClosed.
Record echo_session := Echo { e_data : bytes; e_op : echo_op; e_wire : bytes }.

Definition e_start (s : echo_session) : echo_session := Echo (e_data s) EReading (e_wire s).

(** [async_read_some] put [data] at the front of the buffer. *)
Definition e_handle_read (ec : bool) (data : bytes) (s : echo_session) : echo_session :=
  let buf := data ++ drop (length data) (e_data s) in
  if ec then Echo buf EClosed (e_wire s)
  else Echo buf (EWriting (length data)) (e_wire s).

(** [async_write] sent the first [n] bytes of the buffer. *)
Definition e_handle_write (ec : bool) (n : nat) (s : echo_session) : echo_session :=
  if ec then Echo (e_data s) EClosed (e_wire s)
  else e_start (Echo (e_data s) (e_op s) (e_wire s ++ take n (e_data s))).

Inductive echo_event := EReadDone (ec : bool) (data : bytes) | EWriteDone (ec : bool).

Definition echo_step (s : echo_session) (e : echo_event) : echo_session :=
  match e, e_op s with
  | EReadDone ec data, EReading => e_handle_read ec data s
  | EWriteDone ec, EWriting n => e_handle_write ec n s
  | _, _ => s
  end.

(** The bytes of the reads that the session took. *)
Fixpoint taken (s : echo_session) (es : list echo_event) : bytes :=
  match es with
  | [] => []
  | e :: es' =>
      match e, e_op s with
      | EReadDone false data, EReading => data
      | _, _ => []
      end ++ taken (echo_step s e) es'
  end.

(** ** base_asio_plus/session.cpp *)

(** The buffers of a write in progress: the member array, or a queued node. *)
Inductive source := FromData (n : nat) | FromNode (data : bytes).
Record plus_session := Plus {
  p_data : bytes;
  p_queue : list bytes;          (* _send_queue *)
  p_reading : bool;              (* an [async_read_some] is in progress *)
  p_writes : list source;        (* the [async_write]s in progress, oldest first *)
  p_wire : bytes;
  p_cleared : bool               (* [_server->clear_session(_uuid)] was called *)
}.

Definition new_plus : plus_session := Plus [] [] false [] [] false.
Definition p_start (s : plus_session) : plus_session :=
  Plus (p_data s) (p_queue s) true (p_writes s) (p_wire s) (p_cleared s).

Definition p_send (msg : bytes) (s : plus_session) : plus_session :=
  let pending := negb (bool_decide (p_queue s = [])) in
  let s := Plus (p_data s) (p_queue s ++ [msg]) (p_reading s) (p_writes s) (p_wire s) (p_cleared s) in
  if pending then s
  else Plus (p_data s) (p_queue s) (p_reading s) (p_writes s ++ [FromNode msg]) (p_wire s) (p_cleared s).

Definition p_handle_read (ec : bool) (data : bytes) (s : plus_session) : plus_session :=
  let s := Plus (data ++ drop (length data) (p_data s)) (p_queue s) false (p_writes s) (p_wire s) (p_cleared s) in
  if ec then Plus (p_data s) (p_queue s) (p_reading s) (p_writes s) (p_wire s) true
  else
    let s := p_send (take (length data) (p_data s)) s in
    Plus (p_data s) (p_queue s) (p_reading s) (p_writes s ++ [FromData (length data)]) (p_wire s) (p_cleared s).

(** [std::queue::pop] on an empty queue is undefined. *)
Definition p_handle_write (ec : bool) (s : plus_session) : outcome plus_session :=
  if ec then Ret (Plus (p_data s) (p_queue s) (p_reading s) (p_writes s) (p_wire s) true)
  else
    match p_queue s with
    | [] => Undef
    | _ :: q =>
        let s := Plus (p_data s) q (p_reading s) (p_writes s) (p_wire s) (p_cleared s) in
        match q with
        | [] => Ret s
        | next_node :: _ =>
            Ret (Plus (p_data s) q (p_reading s) (p_writes s ++ [FromNode next_node]) (p_wire s) (p_cleared s))
        end
    end.

Inductive plus_event :=
  | PSend (msg : bytes)
  | PReadDone (ec : bool) (data : bytes)
  | PWriteDone (ec : bool).

Definition source_bytes (s : plus_session) (src : source) : bytes :=
  match src with FromData n => take n (p_data s) | FromNode d => d end.

Definition plus_step (s : plus_session) (e : plus_event) : outcome plus_session :=
  match e with
  | PSend msg => Ret (p_send msg s)
  | PReadDone ec data => Ret (if p_reading s then p_handle_read ec data s else s)
  | PWriteDone ec =>
      match p_writes s with
      | [] => Ret s
      | src :: ws =>
          p_handle_write ec
            (Plus (p_data s) (p_queue s) (p_reading s) ws
               (if ec then p_wire s else p_wire s ++ source_bytes s src) (p_cleared s))
      end
  end.

Fixpoint plus_steps (s : plus_session) (es : list plus_event) : outcome plus_session :=
  match es with
  | [] => Ret s
  | e :: es' => s' ← plus_step s e; plus_steps s' es'
  end.

(** ** base_asio_plus/server.cpp: the accept loop and the map of sessions *)

Inductive accept_error := ANone | AOther | AAborted.
Record server := Server {
  _sessions : gmap bytes plus_session;
  accepting : option bytes   (* the uuid of the session an [async_accept] waits with *)
}.

(** [make_shared<session>] draws a uuid. *)
Definition start_accept (uuid : bytes) (srv : server) : server := Server (_sessions srv) (Some uuid).
Definition server_run (uuid : bytes) : server := start_accept uuid (Server ∅ None).
Definition clear_session (uuid : bytes) (srv : server) : server :=
  Server (delete uuid (_sessions srv)) (accepting srv).

(** [map::insert] keeps an entry that is already there. *)
Definition handle_accept (new_session : bytes) (ec : accept_error) (next_uuid : bytes) (srv : server) : server :=
  let srv := Server (_sessions srv) None in
  let srv :=
    match ec with
    | ANone =>
        match _sessions srv !! new_session with
        | Some _ => srv
        | None => Server (<[new_session := p_start new_plus]> (_sessions srv)) (accepting srv)
        end
    | _ => srv
    end in
  match ec with AAborted => srv | _ => start_accept next_uuid srv end.

Inductive server_event :=
  | SAccept (ec : accept_error) (next_uuid : bytes)
  | SSession (uuid : bytes) (e : plus_event).

Definition server_step (srv : server) (e : server_event) : outcome server :=
  match e with
  | SAccept ec next =>
      match accepting srv with
      | Some uuid => Ret (handle_accept uuid ec next srv)
      | None => Ret srv
      end
  | SSession uuid e =>
      match _sessions srv !! uuid with
      | None => Ret srv
      | Some s =>
          s' ← plus_step s e;
          let srv := Server (<[uuid := s']> (_sessions srv)) (accepting srv) in
          Ret (if p_cleared s' then clear_session uuid srv else srv)
      end
  end.

(** ** base_asio_plus/tlv_session.cpp *)

Definition HEAD_LENGTH : Z := 2.
Definition MSG_MAX_LENGTH : Z := 2048.

(** [None] is an indeterminate member.  The receiving constructor sets neither length. *)
Record tlv_node := TlvNode { t_cur : option Z; t_total : option Z; t_data : bytes }.

Definition tlv_send_node (msg : bytes) : tlv_node :=
  TlvNode (Some 0) (Some (sext 32 (size msg + HEAD_LENGTH))) (bytes16 (size msg) ++ msg ++ [Ascii.zero]).
Definition tlv_recv_node (max_len : Z) : outcome tlv_node :=
  if max_len + 1 <? 0 then Throw BadAlloc
  else Ret (TlvNode None None (replicate (Z.to_nat (max_len + 1)) Ascii.zero)).
Definition tlv_clear (n : tlv_node) : outcome tlv_node :=
  total ← deref (t_total n);
  if total <=? size (t_data n)
  then Ret (TlvNode (Some 0) (t_total n) (replicate (Z.to_nat total) Ascii.zero ++ drop (Z.to_nat total) (t_data n)))
  else Undef.

(** [memcpy(node->_data + at, src, n)]. *)
Definition copy_into (n : tlv_node) (at_ : Z) (src : bytes) : outcome tlv_node :=
  if (0 <=? at_) && (at_ + size src <=? size (t_data n))
  then Ret (TlvNode (t_cur n) (t_total n)
              (take (Z.to_nat at_) (t_data n) ++ src ++ drop (Z.to_nat (at_ + size src)) (t_data n)))
  else Undef.

Record tlv_session := Tlv {
  _is_head_parse : option bool;
  _recv_head_node : option tlv_node;   (* [None] is the null pointer *)
  _recv_msg_node : option tlv_node;
  tlv_buf : bytes;                     (* _data, of MAX_LENGTH bytes *)
  tlv_sent : list tlv_node;
  tlv_cleared : bool
}.

(** The constructor mentions neither the flag nor the nodes. *)
Definition new_tlv : tlv_session := Tlv None None None [] [] false.

(** [memset(_data, 0, n)] on the array of 1024. *)
Definition tlv_memset (n : Z) (s : tlv_session) : outcome tlv_session :=
  if n <=? MAX_LENGTH
  then Ret (Tlv (_is_head_parse s) (_recv_head_node s) (_recv_msg_node s) [] (tlv_sent s) (tlv_cleared s))
  else Undef.

Definition tlv_send (msg : bytes) (s : tlv_session) : tlv_session :=
  Tlv (_is_head_parse s) (_recv_head_node s) (_recv_msg_node s) (tlv_buf s)
    (tlv_sent s ++ [tlv_send_node msg]) (tlv_cleared s).

Definition set_head (n : tlv_node) (s : tlv_session) : tlv_session :=
  Tlv (_is_head_parse s) (Some n) (_recv_msg_node s) (tlv_buf s) (tlv_sent s) (tlv_cleared s).
Definition set_msg (n : tlv_node) (s : tlv_session) : tlv_session :=
  Tlv (_is_head_parse s) (_recv_head_node s) (Some n) (tlv_buf s) (tlv_sent s) (tlv_cleared s).
Definition set_parsed (b : bool) (s : tlv_session) : tlv_session :=
  Tlv (Some b) (_recv_head_node s) (_recv_msg_node s) (tlv_buf s) (tlv_sent s) (tlv_cleared s).

(** One turn of the [while (bytes_transferred > 0)] loop continues or returns. *)
Inductive flow := Continue (cp_len bytes_transferred : Z) (s : tlv_session) | Return (s : tlv_session).

(** The message is complete: print it, send it back, forget the header. *)
Definition tlv_deliver (cp_len bytes_transferred : Z) (s : tlv_session) : outcome flow :=
  msg ← deref (_recv_msg_node s);
  total ← deref (t_total msg);
  msg ← copy_into msg total [Ascii.zero];
  let s := tlv_send (take (Z.to_nat total) (t_data msg)) (set_msg msg s) in
  let s := set_parsed false s in
  head ← deref (_recv_head_node s);
  head ← tlv_clear head;
  let s := set_head head s in
  if bytes_transferred <=? 0 then s ← tlv_memset MAX_LENGTH s; Ret (Return s)
  else Ret (Continue cp_len bytes_transferred s).

(** [n] bytes of [_data] from [cp_len] go to the node, whose length advances. *)
Definition tlv_fill (node : tlv_node) (cp_len n : Z) (s : tlv_session) : outcome tlv_node :=
  cur ← deref (t_cur node);
  node ← copy_into node cur (take (Z.to_nat n) (drop (Z.to_nat cp_len) (tlv_buf s)));
  Ret (TlvNode (Some (sext 32 (cur + n))) (t_total node) (t_data node)).

(** The branch [!_is_head_parse]. *)
Definition tlv_parse_head (cp_len bytes_transferred : Z) (s : tlv_session) : outcome flow :=
  head ← deref (_recv_head_node s);
  cur ← deref (t_cur head);
  if wrap64 (bytes_transferred + cur) <? HEAD_LENGTH then
    head ← tlv_fill head cp_len bytes_transferred s;
    s ← tlv_memset MSG_MAX_LENGTH (set_head head s);
    Ret (Return s)
  else
    let head_remain := HEAD_LENGTH - cur in
    head ← copy_into head cur (take (Z.to_nat head_remain) (drop (Z.to_nat cp_len) (tlv_buf s)));
    let s := set_head head s in
    let cp_len := cp_len + head_remain in
    let bytes_transferred := wrap64 (bytes_transferred - head_remain) in
    let data_len := sext 16 (load16 (t_data head)) in
    if MSG_MAX_LENGTH <? data_len then
      Ret (Return (Tlv (_is_head_parse s) (_recv_head_node s) (_recv_msg_node s) (tlv_buf s) (tlv_sent s) true))
    else
      msg ← tlv_recv_node data_len;
      let s := set_msg msg s in
      if bytes_transferred <? wrap64 data_len then
        msg ← tlv_fill msg cp_len bytes_transferred s;
        s ← tlv_memset MSG_MAX_LENGTH (set_msg msg s);
        Ret (Return (set_parsed true s))
      else
        msg ← tlv_fill msg cp_len data_len s;
        tlv_deliver (cp_len + data_len) (wrap64 (bytes_transferred - data_len)) (set_msg msg s).

(** The rest of a message whose header was parsed before. *)
Definition tlv_parse_body (cp_len bytes_transferred : Z) (s : tlv_session) : outcome flow :=
  msg ← deref (_recv_msg_node s);
  total ← deref (t_total msg);
  cur ← deref (t_cur msg);
  let remain_msg := sext 32 (total - cur) in
  if bytes_transferred <? wrap64 remain_msg then
    msg ← tlv_fill msg cp_len bytes_transferred s;
    s ← tlv_memset MAX_LENGTH (set_msg msg s);
    Ret (Return s)
  else
    msg ← tlv_fill msg cp_len remain_msg s;
    tlv_deliver (cp_len + remain_msg) (wrap64 (bytes_transferred - remain_msg)) (set_msg msg s).

Definition tlv_turn (cp_len bytes_transferred : Z) (s : tlv_session) : outcome flow :=
  parsed ← deref (_is_head_parse s);
  if (parsed : bool) then tlv_parse_body cp_len bytes_transferred s
  else tlv_parse_head cp_len bytes_transferred s.

Fixpoint tlv_loop (fuel : nat) (cp_len bytes_transferred : Z) (s : tlv_session) : outcome tlv_session :=
  match fuel with
  | O => Ret s
  | S fuel =>
      if 0 <? bytes_transferred then
        r ← tlv_turn cp_len bytes_transferred s;
        match r with
        | Return s => Ret s
        | Continue cp bt s => tlv_loop fuel cp bt s
        end
      else Ret s
  end.

(** Each turn that continues takes at least the two header bytes. *)
Definition tlv_handle_read (ec : bool) (data : bytes) (s : tlv_session) : outcome tlv_session :=
  let s := Tlv (_is_head_parse s) (_recv_head_node s) (_recv_msg_node s) data (tlv_sent s) (tlv_cleared s) in
  if ec then Ret (Tlv (_is_head_parse s) (_recv_head_node s) (_recv_msg_node s) data (tlv_sent s) true)
  else tlv_loop (S (length data)) 0 (size data) s.

(** ** Theorems: the plain echo *)

(** The echo session answers in turns: for any sequence of completions, what it
    has written, plus the write in progress, is exactly the data of the reads it
    took, and it never starts a read while the buffer is being written from. *)
Theorem echo_in_turns es :
  let s := foldl echo_step (Echo [] EReading []) es in
  match e_op s with
  | EReading => e_wire s = taken (Echo [] EReading []) es
  | EWriting n => e_wire s ++ take n (e_data s) = taken (Echo [] EReading []) es
  | EClosed => e_wire s `prefix_of` taken (Echo [] EReading []) es
  end.
Proof.
  set (ok := λ s rx, match e_op s with
    | EReading => e_wire s = rx
    | EWriting n => e_wire s ++ take n (e_data s) = rx
    | EClosed => e_wire s `prefix_of` rx end).
  assert (∀ s rx, ok s rx → ok (foldl echo_step s es) (rx ++ taken s es)) as Hall;
    [|by apply (Hall (Echo [] EReading []) [])].
  induction es as [|e es IH]; intros s rx Hs; cbn [foldl taken]; [by rewrite app_nil_r|].
  rewrite app_assoc. apply IH. clear IH. destruct s as [d o w], e as [[] data|[]], o as [|n|];
    unfold ok in *; cbn in *; rewrite ?app_nil_r; try done.
  - exists []. by rewrite app_nil_r.
  - by rewrite take_app_length, Hs.
  - by exists (take n d).
Qed.

(** ** The send queue of base_asio_plus on its own *)

Definition sends_only (e : plus_event) : Prop :=
  match e with PSend _ => True | PWriteDone ec => ec = false | PReadDone _ _ => False end.
Definition sent_messages (es : list plus_event) : bytes :=
  es ≫= λ e, match e with PSend msg => msg | _ => [] end.

Definition queue_inv (total : bytes) (s : plus_session) : Prop :=
  p_wire s ++ mjoin (p_queue s) = total ∧
  p_writes s = match p_queue s with [] => [] | front :: _ => [FromNode front] end.

Lemma queue_step total s e :
  queue_inv total s → sends_only e →
  ∃ s', plus_step s e = Ret s' ∧ queue_inv (total ++ match e with PSend msg => msg | _ => [] end) s'.
Proof.
  destruct s as [d q r ws w c]. intros [Hw Hq] He. unfold queue_inv in *. cbn in *.
  destruct e as [msg|ec data|ec]; cbn in *; [|done|subst ec].
  - eexists. split; [done|]. unfold p_send. cbn. destruct q as [|front q]; cbn; subst ws total.
    + by rewrite !app_nil_r.
    + split; [|done]. rewrite join_app. cbn. by rewrite app_nil_r, !app_assoc.
  - rewrite app_nil_r. destruct q as [|front q]; subst ws; [by eexists|].
    cbn. destruct q as [|next q]; eexists; (split; [done|]); cbn; (split; [|done]);
      rewrite <-Hw; cbn; by rewrite <-?app_assoc.
Qed.

(** The send queue keeps order: under every interleaving of [send] with
    completed writes no handler pops an empty queue, at most one write is in
    progress, and what was written followed by the queued messages is the
    concatenation of the messages sent. *)
Theorem send_queue_in_order es :
  Forall sends_only es →
  ∃ s, plus_steps new_plus es = Ret s ∧ p_wire s ++ mjoin (p_queue s) = sent_messages es ∧
    (length (p_writes s) <= 1)%nat ∧ (p_writes s = [] → p_wire s = sent_messages es).
Proof.
  assert (∀ total s, queue_inv total s → Forall sends_only es →
    ∃ s', plus_steps s es = Ret s' ∧ queue_inv (total ++ sent_messages es) s') as Hall.
  { induction es as [|e es IH]; intros total s Hs Hes.
    - exists s. split; [done|]. by rewrite app_nil_r.
    - apply Forall_cons in Hes as [He Hes].
      destruct (queue_step total s e Hs He) as (s1 & E & Hs1).
      destruct (IH _ _ Hs1 Hes) as (s' & ? & ?). exists s'. cbn [plus_steps]. rewrite E. split; [done|].
      unfold sent_messages. by rewrite bind_cons, app_assoc. }
  intros Hes. destruct (Hall [] new_plus) as (s & E & Hw & Hq); [by split|done|].
  exists s. split_and!; [done|done|rewrite Hq; destruct (p_queue s); simpl; lia|].
  intros Hn. rewrite Hq in Hn. destruct (p_queue s); [|done]. cbn in Hw. by rewrite app_nil_r in Hw.
Qed.

Lemma send_queue_in_order_witness :
  let es := [PSend (lit "ab"); PSend (lit "cd"); PWriteDone false; PSend (lit "ef")] in
  ∃ s, plus_steps new_plus es = Ret s ∧ p_wire s ++ mjoin (p_queue s) = sent_messages es ∧
    (length (p_writes s) <= 1)%nat ∧ (p_writes s = [] → p_wire s = sent_messages es).
Proof. intros es. apply send_queue_in_order. repeat (constructor; [done|]). constructor. Defined.

(** The echo of base_asio_plus breaks on its first message: the read handler
    both sends the data through the queue and writes it again itself, so the peer
    gets it twice and the second completion pops an empty queue; no further read
    is ever started. *)
Theorem plus_echo_double_pop data :
  ∃ s, plus_steps (p_start new_plus) [PReadDone false data; PWriteDone false] = Ret s ∧
    p_wire s = data ∧ p_writes s = [FromData (length data)] ∧ source_bytes s (FromData (length data)) = data ∧
    p_reading s = false ∧ plus_step s (PWriteDone false) = Undef.
Proof.
  eexists. split; [done|]. cbn. by rewrite !take_app_length.
Qed.

(** ** The accept loop *)

(** Accepting goes on until it is aborted: whatever happens to single accepts and
    sessions, the loop holds an accept in progress, and an event of one session
    leaves every other session as it was. *)
Theorem accept_goes_on srv e srv' :
  server_step srv e = Ret srv' → is_Some (accepting srv) →
  (∀ next, e ≠ SAccept AAborted next) →
  is_Some (accepting srv') ∧
  ∀ u, (∀ e', e ≠ SSession u e') → is_Some (_sessions srv !! u) → _sessions srv' !! u = _sessions srv !! u.
Proof.
  intros E [w Hacc] Hna. destruct e as [ec next|uuid pe]; cbn in E.
  - rewrite Hacc in E. injection E as <-. unfold handle_accept, start_accept. cbn.
    destruct ec; [| |by destruct (Hna next)]; cbn; (split; [done|]).
    + intros u _ [x Hx]. destruct (_sessions srv !! w) eqn:Hw; cbn; [done|].
      rewrite lookup_insert_ne; [done|]. congruence.
    + done.
  - destruct (_sessions srv !! uuid) as [s|] eqn:Hs; [|injection E as <-; by rewrite Hacc].
    destruct (plus_step s pe) as [s'| |]; cbn in E; [|done..]. injection E as <-.
    destruct (p_cleared s'); cbn; (split; [done|]); intros u Hu _;
      (assert (u ≠ uuid) by (intros ->; by apply (Hu pe))).
    + by rewrite lookup_delete_ne, lookup_insert_ne.
    + by rewrite lookup_insert_ne.
Qed.

Lemma accept_goes_on_witness :
  let srv := server_run (lit "u1") in
  let srv' := handle_accept (lit "u1") ANone (lit "u2") srv in
  is_Some (accepting srv') ∧
  ∀ u, (∀ e', SAccept ANone (lit "u2") ≠ SSession u e') → is_Some (_sessions srv !! u) →
    _sessions srv' !! u = _sessions srv !! u.
Proof. intros srv srv'. by apply (accept_goes_on srv (SAccept ANone (lit "u2"))). Defined.

(** ** The length-prefixed parser *)

(** The nodes the parser makes for messages have no length. *)
Definition no_length (s : tlv_session) : Prop :=
  match _recv_msg_node s with Some n => t_total n = None | None => True end.

(** No message is ever answered by the length-prefixed session: from every
    state its code can set up, even with the header node and the flag initialised
    as they were meant to be, a non-empty read is undefined, throws, or ends the
    session for a length over the limit.  As constructed, it is undefined. *)
Theorem tlv_never_answers s data :
  no_length s → data ≠ [] →
  (∃ s', tlv_handle_read false data s = Ret s' ∧ tlv_cleared s' = true ∧ tlv_sent s' = tlv_sent s) ∨
  tlv_handle_read false data s = Undef ∨ (∃ e, tlv_handle_read false data s = Throw e).
Proof.
  intros Hnl Hne. unfold tlv_handle_read. cbn -[tlv_turn size].
  assert (0 < size data) by (destruct data; [done|unfold size; simpl; lia]).
  destruct (Z.ltb_spec 0 (size data)); [|lia]. unfold tlv_turn. cbn [_is_head_parse].
  destruct (_is_head_parse s) as [[]|]; cbn [deref mbind outcome_bind]; [| |by auto].
  - unfold tlv_parse_body, no_length in *. cbn [_recv_msg_node].
    destruct (_recv_msg_node s) as [n|]; cbn; [|by auto]. rewrite Hnl. cbn. by auto.
  - unfold tlv_parse_head. cbn [_recv_head_node].
    destruct (_recv_head_node s) as [hd|]; cbn [deref mbind outcome_bind]; [|by auto].
    destruct (t_cur hd) as [cur|]; cbn [deref mbind outcome_bind]; [|by auto].
    destruct (_ <? HEAD_LENGTH).
    + destruct (tlv_fill _ _ _ _) eqn:E; cbn; [by auto|by eauto|by auto].
    + destruct (copy_into hd _ _) as [hd'| |]; cbn -[tlv_recv_node load16 sext wrap64 size Z.ltb]; [|by eauto|by auto].
      destruct (MSG_MAX_LENGTH <? _); [left; by eexists|right].
      unfold tlv_recv_node. destruct (_ + 1 <? 0); cbn -[sext wrap64 size]; [by eauto|].
      destruct (_ <? wrap64 _); cbn; by auto.
Qed.

Lemma tlv_never_answers_witness :
  (∃ s', tlv_handle_read false (lit "x") new_tlv = Ret s' ∧ tlv_cleared s' = true ∧
     tlv_sent s' = tlv_sent new_tlv) ∨
  tlv_handle_read false (lit "x") new_tlv = Undef ∨ (∃ e, tlv_handle_read false (lit "x") new_tlv = Throw e).
Proof. by apply tlv_never_answers. Defined.

Example tlv_first_read : tlv_handle_read false (lit "x") new_tlv = Undef.
Proof. done. Qed.
