(* ===== verification/NetFrame.v ===== *)
(** * The blocking TCP helpers of base_linux_net_api/net.hpp

    [send_all] and [recv_exact] loop over system calls that transfer some of the
    bytes, are interrupted or fail; [send_frame] and [recv_frame] put a length in
    front of a body with them; [port_number] reads a port; [unique_fd] owns a
    descriptor.  The answers of the system calls are a script that the functions
    consume, so that the theorems hold for every way the kernel cuts a stream. *)

From stdpp Require Import base gmap list strings.
From Stdlib Require Import ZArith Lia Ascii.
From S2P Require Import Prelude CxxString NetBytes.

Local Open Scope Z_scope.

(** ** System calls *)

(** The answer of one [send] or [recv]: at most [n] bytes, [EINTR], or another error. *)
Inductive answer := Some_bytes (n : nat) | Interrupted | Failed.

(** [out] is what the socket took; [inp] what the peer sent before it closed. *)
Record world := World { answers : list answer; out : bytes; inp : bytes }.

(** A call that has no answer yet blocks. *)
Inductive result (A : Type) :=
  | Done (a : A) (w : world)
  | Thrown (e : exn)
  | Blocked.
Arguments Done {A} a w.
Arguments Thrown {A} e.
Arguments Blocked {A}.


Definition io (A : Type) : Type := world → result A.
#[local] Instance io_bind : MBind io := λ A B k m w,
  match m w with
  | Done a w' => k a w'
  | Thrown e => Thrown e
  | Blocked => Blocked
  end.
#[local] Instance io_ret : MRet io := λ A a w, Done a w.
Definition raise {A} (what : string) : io A := λ _, Thrown (RuntimeError (lit what)).

(** ** send_all and recv_exact *)

Fixpoint send_loop (rs : list answer) (o i : bytes) (buf : bytes) : result unit :=
  match buf with
  | [] => Done () (World rs o i)
  | _ =>
      match rs with
      | [] => Blocked
      | Interrupted :: rs => send_loop rs o i buf
      | Failed :: _ => Thrown (RuntimeError (lit "send"))
      | Some_bytes n :: rs =>
          let n := Nat.min n (length buf) in
          if decide (n = O) then Thrown (RuntimeError (lit "send made no progress"))
          else send_loop rs (o ++ take n buf) i (drop n buf)
      end
  end.
Definition send_all (buf : bytes) : io unit := λ w,
  send_loop (answers w) (out w) (inp w) buf.

(** [room] bytes are still wanted, [got] is what arrived.  A closed peer answers with
    no bytes; an answer never has more than the room. *)
Fixpoint recv_loop (rs : list answer) (o i : bytes) (room : nat) (got : bytes) :
    result (option bytes) :=
  match room with
  | O => Done (Some got) (World rs o i)
  | _ =>
      match rs with
      | [] => Blocked
      | Interrupted :: rs => recv_loop rs o i room got
      | Failed :: _ => Thrown (RuntimeError (lit "recv"))
      | Some_bytes n :: rs =>
          match i with
          | [] =>
              match got with
              | [] => Done None (World rs o i)
              | _ => Thrown (RuntimeError (lit "EOF in the middle of a field"))
              end
          | _ =>
              let n := Nat.min (Nat.max 1 n) (Nat.min room (length i)) in
              recv_loop rs o (drop n i) (room - n) (got ++ take n i)
          end
      end
  end.
(** [None] is [false]: the peer closed before the first byte. *)
Definition recv_exact (n : nat) : io (option bytes) := λ w,
  recv_loop (answers w) (out w) (inp w) n [].

(** ** Frames *)

Definition max_frame : Z := 1024 * 1024.

Definition send_frame (body : bytes) : io unit :=
  if max_frame <? size body then raise "frame too large"
  else
    let len := htonl (wrap32 (size body)) in
    _ ← send_all (bytes32 len);
    send_all body.

(** [Some body], or [None] for [false]. *)
Definition recv_frame : io (option bytes) :=
  r ← recv_exact 4;
  match r with
  | None => mret None
  | Some len =>
      let size := ntohl (load32 len) in
      if max_frame <? size then raise "frame too large"
      else
        body ← recv_exact (Z.to_nat size);
        match body with
        | None => raise "EOF before body"
        | Some body => mret (Some body)
        end
  end.

(** The client of the protocol: sending a list of frames, receiving to the end. *)
Fixpoint send_frames (bodies : list bytes) : io unit :=
  match bodies with
  | [] => mret ()
  | b :: bs => _ ← send_frame b; send_frames bs
  end.
Fixpoint recv_frames (fuel : nat) : io (list bytes) :=
  match fuel with
  | O => λ _, Blocked
  | S fuel =>
      r ← recv_frame;
      match r with
      | None => mret []
      | Some b => bs ← recv_frames fuel; mret (b :: bs)
      end
  end.

(** ** Ports and descriptors *)

(** [std::stoul] on a string of digits. *)
Definition port_number (s : bytes) : outcome Z :=
  if bool_decide (s = []) || negb (forallb is_digit s) then Throw (RuntimeError (lit "port must be 0..65535"))
  else
    let n := digits_val 0 s in
    if size_max <? n then Throw OutOfRange
    else if 65535 <? n then Throw (RuntimeError (lit "port must be 0..65535"))
    else Ret n.

(** The program's [unique_fd] objects by name, the descriptors that are open, and
    whether one was closed that was not. *)
Record fds := Fds { objects : gmap nat Z; opened : gset Z; bad_close : bool }.
Definition close_fd (fd : Z) (s : fds) : fds :=
  if 0 <=? fd then Fds (objects s) (opened s ∖ {[fd]}) (bad_close s || bool_decide (fd ∉ opened s))
  else s.

Inductive fd_op :=
  | Construct (x : nat) (fd : Z)
  | MoveConstruct (x from : nat)
  | MoveAssign (x from : nat)
  | Destroy (x : nat).

Definition fd_of (x : nat) (s : fds) : Z := default (-1) (objects s !! x).
Definition set_fd (x : nat) (fd : Z) (s : fds) : fds :=
  Fds (<[x := fd]> (objects s)) (opened s) (bad_close s).

(** [std::exchange(other.fd_, -1)] and the store of its result. *)
Definition move_from (x from : nat) (s : fds) : fds := set_fd x (fd_of from s) (set_fd from (-1) s).

Definition fd_step (s : fds) (o : fd_op) : fds :=
  match o with
  | Construct x fd =>
      Fds (<[x := fd]> (objects s)) (if 0 <=? fd then {[fd]} ∪ opened s else opened s) (bad_close s)
  | MoveConstruct x from => move_from x from s
  | MoveAssign x from =>
      if decide (x = from) then s else move_from x from (close_fd (fd_of x s) s)
  | Destroy x =>
      let s := close_fd (fd_of x s) s in
      Fds (delete x (objects s)) (opened s) (bad_close s)
  end.

(** What the language guarantees of a program: objects are constructed once and
    used while they live; a new descriptor is one that is not open. *)
Definition fd_legal (s : fds) (o : fd_op) : Prop :=
  match o with
  | Construct x fd => objects s !! x = None ∧ (0 <= fd → fd ∉ opened s)
  | MoveConstruct x from => objects s !! x = None ∧ is_Some (objects s !! from)
  | MoveAssign x from => is_Some (objects s !! x) ∧ is_Some (objects s !! from)
  | Destroy x => is_Some (objects s !! x)
  end.

(** Programs that follow these rules. *)
Inductive fd_program : fds → list fd_op → fds → Prop :=
  | fd_end s : fd_program s [] s
  | fd_next s o os s' : fd_legal s o → fd_program (fd_step s o) os s' → fd_program s (o :: os) s'.

(** ** Sending *)

(** The script lets a transfer go on: no error, and each answer moves a byte. *)
Definition goes_on (r : answer) : Prop :=
  match r with Some_bytes n => n ≠ O | Interrupted => True | Failed => False end.
Definition moves (r : answer) : bool := match r with Some_bytes _ => true | _ => false end.

Definition n_moves (rs : list answer) : nat := length (filter (λ r, moves r = true) rs).

Lemma n_moves_cons r rs : n_moves (r :: rs) = ((if moves r then 1 else 0) + n_moves rs)%nat.
Proof. unfold n_moves. rewrite filter_cons. by destruct (moves r). Qed.
Lemma n_moves_app rs1 rs2 : n_moves (rs1 ++ rs2) = (n_moves rs1 + n_moves rs2)%nat.
Proof. unfold n_moves. by rewrite filter_app, length_app. Qed.

(** However the kernel cuts it, a send that ends has sent everything, and it ends
    when there are as many answers that move something as bytes. *)
Lemma send_loop_spec rs o i buf :
  Forall goes_on rs →
  (∃ rs' pre, rs = pre ++ rs' ∧ send_loop rs o i buf = Done () (World rs' (o ++ buf) i) ∧
     (n_moves pre <= length buf)%nat) ∨
  (send_loop rs o i buf = Blocked ∧ (n_moves rs < length buf)%nat).
Proof.
  revert o buf. induction rs as [|r rs IH]; intros o buf Hrs.
  - destruct buf; [left; exists [], []; cbn; by rewrite app_nil_r|right; cbn; split; [done|lia]].
  - apply Forall_cons in Hrs as [Hr Hrs]. destruct buf as [|c buf].
    { left. exists (r :: rs), []. cbn. by rewrite app_nil_r. }
    destruct r as [n| |]; [|by destruct (IH o (c :: buf) Hrs) as
      [(rs' & pre & -> & E & Hl)|[E Hl]]; [left; exists rs', (Interrupted :: pre)|right]|done].
    cbn [send_loop goes_on] in *. set (k := Nat.min n (length (c :: buf))).
    rewrite decide_False by (unfold k; simpl; lia).
    destruct (IH (o ++ take k (c :: buf)) (drop k (c :: buf)) Hrs) as [(rs' & pre & -> & E & Hl)|[E Hl]];
      rewrite length_drop in Hl; [left|right].
    + exists rs', (Some_bytes n :: pre). split; [done|].
      rewrite E, <-app_assoc, take_drop. split; [done|].
      rewrite n_moves_cons. unfold k in *. simpl in *. lia.
    + split; [done|]. rewrite n_moves_cons. unfold k in *. simpl in *. lia.
Qed.

(** [send_all] sends every byte: for every script of answers that move at least a
    byte or interrupt, it either is still waiting for an answer, and then fewer bytes
    were offered room than it has, or it has sent exactly the bytes it was given. *)
Theorem send_all_exact w buf :
  Forall goes_on (answers w) →
  (∃ rs', send_all buf w = Done () (World rs' (out w ++ buf) (inp w))) ∨
  (send_all buf w = Blocked ∧
   (n_moves (answers w) < length buf)%nat).
Proof.
  intros Hg. unfold send_all. destruct (send_loop_spec (answers w) (out w) (inp w) buf Hg)
    as [(rs' & pre & _ & E & _)|?]; [left; by exists rs'|by right].
Qed.

Lemma send_all_exact_witness :
  let w := World [Some_bytes 2; Interrupted; Some_bytes 9] [] [] in
  (∃ rs', send_all (lit "Hello") w = Done () (World rs' (lit "Hello") [])) ∨
  (send_all (lit "Hello") w = Blocked ∧ (2 < 5)%nat).
Proof. intros w. apply (send_all_exact w (lit "Hello")). repeat (constructor; [done|]). constructor. Defined.

(** ** Receiving *)

(** Enough bytes are there: the loop takes exactly what it wants, or waits. *)
Lemma recv_loop_enough rs o i room got :
  Forall goes_on rs → (room <= length i)%nat →
  (∃ rs' pre, rs = pre ++ rs' ∧
     recv_loop rs o i room got = Done (Some (got ++ take room i)) (World rs' o (drop room i)) ∧
     (n_moves pre <= room)%nat) ∨
  (recv_loop rs o i room got = Blocked ∧ (n_moves rs < room)%nat).
Proof.
  revert i room got. induction rs as [|r rs IH]; intros i room got Hrs Hi.
  - destruct room; [left; exists [], []; cbn; by rewrite take_0, app_nil_r|right; cbn; split; [done|lia]].
  - apply Forall_cons in Hrs as [Hr Hrs]. destruct room as [|room].
    { left. exists (r :: rs), []. cbn. by rewrite take_0, app_nil_r. }
    destruct r as [n| |]; [| |done].
    + destruct i as [|c i]; [simpl in Hi; lia|]. cbn [recv_loop].
      set (k := Nat.min (Nat.max 1 n) (Nat.min (S room) (length (c :: i)))).
      assert (1 <= k <= S room)%nat by (unfold k; simpl in *; lia).
      destruct (IH (drop k (c :: i)) (S room - k)%nat (got ++ take k (c :: i)) Hrs)
        as [(rs' & pre & -> & E & Hl)|[E Hl]]; [rewrite length_drop; lia|left|right].
      * exists rs', (Some_bytes n :: pre). split; [done|]. rewrite E, drop_drop, <-app_assoc.
        replace (take k (c :: i) ++ take (S room - k) (drop k (c :: i))) with (take (S room) (c :: i))
          by (rewrite take_take_drop; f_equal; lia).
        replace (k + (S room - k))%nat with (S room) by lia. split; [done|].
        rewrite n_moves_cons. simpl. lia.
      * split; [done|]. rewrite n_moves_cons. simpl. lia.
    + destruct (IH i (S room) got Hrs Hi) as [(rs' & pre & -> & E & Hl)|[E Hl]]; [left|right].
      * exists rs', (Interrupted :: pre). done.
      * done.
Qed.

(** The stream ends inside a field: nothing is returned. *)
Lemma recv_loop_short rs o i room got :
  (length i < room)%nat → got ++ i ≠ [] →
  recv_loop rs o i room got = Blocked ∨ ∃ e, recv_loop rs o i room got = Thrown e.
Proof.
  revert i room got. induction rs as [|r rs IH]; intros i room got Hi Hne.
  - destruct room; [lia|by left].
  - destruct room as [|room]; [lia|]. destruct r as [n| |]; cbn [recv_loop]; [|by apply IH|by eauto].
    destruct i as [|c i].
    + destruct got; [done|by eauto].
    + apply IH.
      * rewrite length_drop. simpl in *. lia.
      * rewrite <-app_assoc, take_drop. done.
Qed.

(** *** Frames on the wire *)

Definition frame_bytes (body : bytes) : bytes := bytes32 (htonl (size body)) ++ body.

Lemma frame_size body :
  size body <= max_frame →
  ntohl (load32 (bytes32 (htonl (size body)))) = size body.
Proof.
  intros Hb. unfold max_frame, size in *.
  rewrite load32_bytes32 by apply htonl_range. apply ntohl_htonl. lia.
Qed.

Lemma send_frame_spec w body :
  Forall goes_on (answers w) → size body <= max_frame →
  (length (frame_bytes body) <= n_moves (answers w))%nat →
  ∃ rs', Forall goes_on rs' ∧ (n_moves (answers w) <= n_moves rs' + length (frame_bytes body))%nat ∧
    send_frame body w = Done () (World rs' (out w ++ frame_bytes body) (inp w)).
Proof.
  intros Hg Hb Hn. unfold send_frame. destruct (Z.ltb_spec max_frame (size body)); [lia|].
  unfold max_frame, size, frame_bytes in *. rewrite wrap32_small by lia. unfold mbind, io_bind, send_all.
  rewrite length_app in Hn |- *. set (len := bytes32 _) in *.
  destruct (send_loop_spec (answers w) (out w) (inp w) len Hg)
    as [(rs1 & pre & Heq & -> & Hm)|[_ Hm]]; [|lia].
  rewrite Heq in *. apply Forall_app in Hg as [_ Hg]. rewrite n_moves_app in *. cbn [answers out inp].
  destruct (send_loop_spec rs1 (out w ++ len) (inp w) body Hg)
    as [(rs2 & pre2 & -> & -> & Hm2)|[_ Hm2]]; [|lia].
  exists rs2. apply Forall_app in Hg as [_ Hg]. rewrite n_moves_app in *.
  split_and!; [done|lia|by rewrite app_assoc].
Qed.

Lemma recv_frame_spec rs o body rest :
  Forall goes_on rs → size body <= max_frame → (length (frame_bytes body) <= n_moves rs)%nat →
  ∃ rs', Forall goes_on rs' ∧ (n_moves rs <= n_moves rs' + length (frame_bytes body))%nat ∧
    recv_frame (World rs o (frame_bytes body ++ rest)) = Done (Some body) (World rs' o rest).
Proof.
  intros Hg Hb Hn. unfold recv_frame, mbind, io_bind, recv_exact. cbn [answers out inp].
  assert (length (frame_bytes body) = 4 + length body)%nat as Hlen by done.
  destruct (recv_loop_enough rs o (frame_bytes body ++ rest) 4 [] Hg) as [(rs1 & pre & Heq & E & Hm)|[_ Hm]];
    [simpl; lia| |lia].
  rewrite E. subst rs. apply Forall_app in Hg as [_ Hg]. rewrite n_moves_app in *.
  change (take 4 (frame_bytes body ++ rest)) with (bytes32 (htonl (size body))).
  change (drop 4 (frame_bytes body ++ rest)) with (body ++ rest). cbn [app].
  rewrite frame_size by done. destruct (Z.ltb_spec max_frame (size body)); [lia|].
  cbn [answers out inp]. unfold size. rewrite Nat2Z.id.
  destruct (recv_loop_enough rs1 o (body ++ rest) (length body) [] Hg) as [(rs2 & pre2 & -> & E2 & Hm2)|[_ Hm2]];
    [rewrite length_app; lia| |lia].
  rewrite E2, take_app_length, drop_app_length. exists rs2.
  apply Forall_app in Hg as [_ Hg]. rewrite n_moves_app in *. split_and!; [done|lia|done].
Qed.

(** The peer's stream, cut short inside a frame. *)
Lemma recv_frame_cut rs o body k :
  (0 < k < length (frame_bytes body))%nat → size body <= max_frame → Forall goes_on rs →
  recv_frame (World rs o (take k (frame_bytes body))) = Blocked ∨
  ∃ e, recv_frame (World rs o (take k (frame_bytes body))) = Thrown e.
Proof.
  intros Hk Hb Hg. unfold recv_frame, mbind, io_bind, recv_exact. cbn [answers out inp].
  destruct (decide (k < 4)%nat) as [Hlt|Hge].
  - destruct (recv_loop_short rs o (take k (frame_bytes body)) 4 []) as [->|[e ->]]; [| |by auto|by eauto].
    + rewrite length_take. lia.
    + destruct k; [lia|]. done.
  - destruct (recv_loop_enough rs o (take k (frame_bytes body)) 4 [] Hg) as [(rs1 & pre & Heq & E & _)|[E _]];
      [rewrite length_take; simpl in *; lia| |by rewrite E; auto].
    rewrite E. subst rs. apply Forall_app in Hg as [_ Hg]. cbn [app].
    rewrite take_take, Nat.min_l by lia.
    change (take 4 (frame_bytes body)) with (bytes32 (htonl (size body))).
    rewrite frame_size by done. destruct (Z.ltb_spec max_frame (size body)); [lia|].
    cbn [answers out inp]. replace (Z.to_nat (size body)) with (length body) by (unfold size; lia).
    assert (drop 4 (take k (frame_bytes body)) = take (k - 4) body) as ->.
    { destruct k as [|[|[|[|k]]]]; try lia. simpl. by rewrite Nat.sub_0_r. }
    unfold frame_bytes in Hk. rewrite length_app in Hk.
    change (length (bytes32 _)) with 4%nat in Hk.
    destruct (decide (k = 4)%nat) as [->|].
    + change (take (4 - 4) body) with (@nil ascii). clear E.
      destruct (length body) as [|n] eqn:Hn; [lia|]. clear Hk.
      induction rs1 as [|r rs1 IH]; [by left|]. apply Forall_cons in Hg as [Hr Hg].
      destruct r as [m| |]; [by right; eexists|by apply IH|done].
    + destruct (recv_loop_short rs1 o (take (k - 4) body) (length body) []) as [->|[e ->]];
        [rewrite length_take; lia| |by auto|by eauto].
      destruct body; [simpl in *; lia|]. replace (k - 4)%nat with (S (k - 5)) by lia. done.
Qed.

Lemma io_bind_done {A B} (m : io A) (k : A → io B) w a w' : m w = Done a w' → (m ≫= k) w = k a w'.
Proof. unfold mbind, io_bind. by intros ->. Qed.

Lemma send_frames_spec bodies w :
  Forall (λ b, size b <= max_frame) bodies → Forall goes_on (answers w) →
  (length (bodies ≫= frame_bytes) <= n_moves (answers w))%nat →
  ∃ rs', send_frames bodies w = Done () (World rs' (out w ++ (bodies ≫= frame_bytes)) (inp w)).
Proof.
  intros Hsz. revert w. induction Hsz as [|b bs Hb _ IH]; intros w Hg Hn; cbn [send_frames].
  - exists (answers w). rewrite app_nil_r. by destruct w.
  - rewrite bind_cons, length_app in Hn.
    destruct (send_frame_spec w b Hg Hb ltac:(lia)) as (rs' & Hg' & Hm & Es).
    rewrite (io_bind_done _ _ _ _ _ Es).
    destruct (IH (World rs' (out w ++ frame_bytes b) (inp w)) Hg' ltac:(cbn [answers]; lia)) as [rs2 ->].
    exists rs2. by rewrite bind_cons, app_assoc.
Qed.

Lemma recv_end rs o :
  Forall goes_on rs → (1 <= n_moves rs)%nat → ∃ w, recv_frame (World rs o []) = Done None w.
Proof.
  intros Hg Hn. unfold recv_frame, mbind, io_bind, recv_exact. cbn [answers out inp].
  induction rs as [|r rs IH]; [unfold n_moves in Hn; simpl in Hn; lia|]. apply Forall_cons in Hg as [Hr Hg].
  destruct r as [m| |]; [by eexists|by apply IH|done].
Qed.

Lemma recv_frames_spec bodies rs fuel :
  Forall (λ b, size b <= max_frame) bodies → Forall goes_on rs →
  (length (bodies ≫= frame_bytes) < n_moves rs)%nat → (length bodies < fuel)%nat →
  ∃ w, recv_frames fuel (World rs [] (bodies ≫= frame_bytes)) = Done bodies w.
Proof.
  intros Hsz. revert rs fuel.
  induction Hsz as [|b bs Hb _ IH]; intros rs [|fuel] Hrs Hn Hfuel; try (simpl in Hfuel; lia);
    cbn [recv_frames].
  - destruct (recv_end rs [] Hrs ltac:(simpl in Hn; lia)) as [w E].
    exists w. by rewrite (io_bind_done _ _ _ _ _ E).
  - rewrite bind_cons. rewrite bind_cons, length_app in Hn.
    destruct (recv_frame_spec rs [] b (bs ≫= frame_bytes) Hrs Hb ltac:(lia)) as (rs' & Hrs' & Hm & E).
    rewrite (io_bind_done _ _ _ _ _ E).
    destruct (IH rs' fuel Hrs' ltac:(lia) ltac:(simpl in Hfuel; lia)) as [w E'].
    exists w. by rewrite (io_bind_done _ _ _ _ _ E').
Qed.

(** C30. Frames survive any cutting: what [send_frames] puts on a stream, however the
    kernel splits the sends and the receives and interrupts them, [recv_frames] gives
    back as the same list of bodies, ending cleanly at the end of the stream.  Both
    finish once the kernel has answered as often as there are bytes. *)
Theorem frames_roundtrip bodies w rs fuel :
  Forall (λ b, size b <= max_frame) bodies → out w = [] →
  Forall goes_on (answers w) → (length (bodies ≫= frame_bytes) <= n_moves (answers w))%nat →
  Forall goes_on rs → (length (bodies ≫= frame_bytes) < n_moves rs)%nat →
  (length bodies < fuel)%nat →
  ∃ w' w'', send_frames bodies w = Done () w' ∧
    recv_frames fuel (World rs [] (out w')) = Done bodies w''.
Proof.
  intros Hsz Hout Hg Hn Hrs Hn' Hfuel.
  destruct (send_frames_spec bodies w Hsz Hg Hn) as [rs' E]. rewrite Hout in E.
  destruct (recv_frames_spec bodies rs fuel Hsz Hrs Hn' Hfuel) as [w'' E'].
  by exists (World rs' (bodies ≫= frame_bytes) (inp w)), w''.
Qed.

Lemma frames_roundtrip_witness :
  let bodies := [lit "ab"; []; lit "cde"] in
  ∃ w' w'', send_frames bodies (World (replicate 20 (Some_bytes 2)) [] []) = Done () w' ∧
    recv_frames 4 (World (Interrupted :: replicate 20 (Some_bytes 3)) [] (out w')) = Done bodies w''.
Proof.
  intros bodies. apply frames_roundtrip.
  - by repeat (constructor; [vm_compute; congruence|]).
  - done.
  - by repeat (constructor; [done|]).
  - vm_compute. lia.
  - by repeat (constructor; [done|]).
  - vm_compute. lia.
  - vm_compute. lia.
Defined.

(** A broken stream never yields a wrong body: cut anywhere strictly inside a frame,
    [recv_frame] throws (or waits); cut before the first byte it reports the end. *)
Theorem cut_frame_throws rs o body k :
  Forall goes_on rs → size body <= max_frame → (k < length (frame_bytes body))%nat →
  match recv_frame (World rs o (take k (frame_bytes body))) with
  | Done r _ => k = O ∧ r = None
  | Thrown _ => k ≠ O
  | Blocked => True
  end.
Proof.
  intros Hg Hb Hk. destruct (decide (k = O)) as [->|Hk0].
  - rewrite take_0. unfold recv_frame, mbind, io_bind, recv_exact. cbn [answers out inp].
    clear -Hg. induction rs as [|r rs IH]; [done|]. apply Forall_cons in Hg as [Hr Hg].
    destruct r as [m| |]; [done|by apply IH|done].
  - destruct (recv_frame_cut rs o body k ltac:(lia) Hb Hg) as [->|[e ->]]; done.
Qed.

Lemma cut_frame_throws_witness :
  match recv_frame (World (replicate 9 (Some_bytes 1)) [] (take 6 (frame_bytes (lit "Hello")))) with
  | Done r _ => 6%nat = O ∧ r = None
  | Thrown _ => 6%nat ≠ O
  | Blocked => True
  end.
Proof.
  apply cut_frame_throws; [by repeat (constructor; [done|])|vm_compute; congruence|vm_compute; lia].
Defined.

(** ** Ports and descriptors *)

Lemma port_number_spec s :
  port_number s = match s with
    | [] => Throw (RuntimeError (lit "port must be 0..65535"))
    | _ => if forallb is_digit s then
             if digits_val 0 s <=? 65535 then Ret (digits_val 0 s)
             else if size_max <? digits_val 0 s then Throw OutOfRange
             else Throw (RuntimeError (lit "port must be 0..65535"))
           else Throw (RuntimeError (lit "port must be 0..65535"))
    end.
Proof.
  unfold port_number. destruct s as [|c s]; [done|]. cbn [bool_decide orb].
  rewrite bool_decide_eq_false_2 by done. cbn [orb].
  destruct (forallb is_digit (c :: s)); [|done]. cbn [negb].
  ztest; try done; unfold size_max in *; lia.
Qed.

(** A port text is accepted exactly when it prints back: every number from 0 to
    65535, printed in decimal, is read as itself, and whatever is accepted is a
    non-empty string of digits with a value in that range. *)
Theorem port_number_exact s n :
  (0 <= n <= 65535 → port_number (show_nat n) = Ret n) ∧
  (port_number s = Ret n → s ≠ [] ∧ Forall (λ c, is_digit c = true) s ∧
     n = digits_val 0 s ∧ n <= 65535).
Proof.
  rewrite !port_number_spec. split.
  - intros Hn. destruct (show_nat n) as [|c s'] eqn:E; [by destruct (show_nat_nonempty n)|].
    rewrite <-E. replace (forallb is_digit (show_nat n)) with true.
    + rewrite show_nat_val by lia. by destruct (Z.leb_spec n 65535); [|lia].
    + symmetry. apply forallb_forall. intros x Hx%list_elem_of_In.
      pose proof (show_nat_digits n ltac:(lia)) as Hd. rewrite Forall_forall in Hd. by apply Hd.
  - destruct s as [|c s]; [done|]. destruct (forallb is_digit (c :: s)) eqn:E; [|done].
    destruct (Z.leb_spec (digits_val 0 (c :: s)) 65535); [intros [= <-]|by case_match].
    split_and!; try done. apply Forall_forall. intros x Hx%list_elem_of_In.
    by apply (proj1 (forallb_forall _ _) E).
Qed.

Lemma port_number_exact_witness :
  (0 <= 9190 <= 65535 → port_number (show_nat 9190) = Ret 9190) ∧
  (port_number (lit "9190") = Ret 9190 → lit "9190" ≠ [] ∧
     Forall (λ c, is_digit c = true) (lit "9190") ∧ 9190 = digits_val 0 (lit "9190") ∧ 9190 <= 65535).
Proof. apply port_number_exact. Defined.

(** Open descriptors are exactly those held, each by one object. *)
Definition fd_inv (s : fds) : Prop :=
  bad_close s = false ∧
  (∀ fd, fd ∈ opened s ↔ 0 <= fd ∧ ∃ x, objects s !! x = Some fd) ∧
  ∀ x y fd, objects s !! x = Some fd → objects s !! y = Some fd → 0 <= fd → x = y.

Lemma construct_inv s x fd : fd_inv s → fd_legal s (Construct x fd) → fd_inv (fd_step s (Construct x fd)).
Proof.
  intros (Hbad & Hopen & Hone) [Hx Hfd]. unfold fd_step, fd_inv. cbn. split_and!; [done| |].
  - intros fd'. destruct (Z.leb_spec 0 fd) as [Hpos|Hneg]; rewrite ?elem_of_union, ?elem_of_singleton, Hopen.
    + split.
      * intros [->|[? [y Hy]]]; (split; [done|]); [exists x; apply lookup_insert_eq|].
        exists y. by rewrite lookup_insert_ne by congruence.
      * intros [? [y [[<- <-]|[_ Hy]]%lookup_insert_Some]]; [by left|right; eauto].
    + split.
      * intros [? [y Hy]]. split; [done|]. exists y. by rewrite lookup_insert_ne by congruence.
      * intros [? [y [[<- <-]|[_ Hy]]%lookup_insert_Some]]; [lia|eauto].
  - intros y z fd' [[<- <-]|[Hny Hy]]%lookup_insert_Some [[<- ?]|[Hnz Hz]]%lookup_insert_Some ?;
      subst; try done; [| |by eauto]; destruct (Hfd ltac:(done)); apply Hopen; eauto.
Qed.

Lemma destroy_inv s x : fd_inv s → fd_legal s (Destroy x) → fd_inv (fd_step s (Destroy x)).
Proof.
  intros (Hbad & Hopen & Hone) [fd Hx]. unfold fd_step, close_fd, fd_of. rewrite Hx. cbn.
  assert (∀ y z fd', delete x (objects s) !! y = Some fd' → delete x (objects s) !! z = Some fd' →
    0 <= fd' → y = z) as Hone' by (intros y z fd' [_ ?]%lookup_delete_Some [_ ?]%lookup_delete_Some; eauto).
  destruct (Z.leb_spec 0 fd); unfold fd_inv; cbn; (split_and!; [|intros fd'|done]).
  - rewrite Hbad. apply bool_decide_eq_false_2. intros Hn. apply Hn, Hopen. eauto.
  - rewrite elem_of_difference, elem_of_singleton, Hopen. split.
    + intros [[? [y Hy]] Hne]. split; [done|]. exists y. apply lookup_delete_Some. split; [|done].
      intros ->. congruence.
    + intros [? [y [Hne Hy]%lookup_delete_Some]]. split; [eauto|]. intros ->. apply Hne. by eapply Hone.
  - done.
  - rewrite Hopen. split; intros [? [y Hy]]; (split; [done|]); exists y.
    + apply lookup_delete_Some. split; [|done]. intros ->. assert (fd = fd') by congruence. lia.
    + by apply lookup_delete_Some in Hy as [??].
Qed.

Lemma move_inv s x from :
  fd_inv s → fd_legal s (MoveConstruct x from) → fd_inv (fd_step s (MoveConstruct x from)).
Proof.
  intros (Hbad & Hopen & Hone) [Hx [fd Hfrom]]. unfold fd_step, move_from, set_fd, fd_of, fd_inv. cbn.
  rewrite Hfrom. cbn. assert (x ≠ from) as Hne by congruence.
  assert (∀ y fd', 0 <= fd' → <[x:=fd]> (<[from:=-1]> (objects s)) !! y = Some fd' →
    (y = x ∧ fd' = fd) ∨ (y ≠ x ∧ y ≠ from ∧ objects s !! y = Some fd')) as Hcase.
  { intros y fd' ? [[<- <-]|[? [[<- <-]|[??]]%lookup_insert_Some]]%lookup_insert_Some; [by left|lia|by right]. }
  split_and!; [done| |].
  - intros fd'. rewrite Hopen. split; intros [? [y Hy]]; (split; [done|]).
    + destruct (decide (y = from)) as [->|].
      * exists x. rewrite lookup_insert_eq. congruence.
      * exists y. rewrite !lookup_insert_ne by congruence. done.
    + destruct (Hcase y fd' ltac:(done) Hy) as [[-> ->]|(?&?&?)]; eauto.
  - intros y z fd' Hy Hz ?.
    destruct (Hcase y fd' ltac:(done) Hy) as [[-> ->]|(?&Hyf&Hy')],
      (Hcase z _ ltac:(done) Hz) as [[-> ?]|(?&Hzf&Hz')]; subst; try done.
    + destruct Hzf. by eapply Hone.
    + destruct Hyf. by eapply Hone.
    + by eapply Hone.
Qed.

Lemma fd_step_inv s o : fd_inv s → fd_legal s o → fd_inv (fd_step s o).
Proof.
  intros Hs Ho. destruct o as [x fd|x from|x from|x].
  - by apply construct_inv.
  - by apply move_inv.
  - destruct Ho as [Hx Hfrom]. cbn [fd_step]. destruct (decide (x = from)) as [|Hne]; [done|].
    assert (move_from x from (close_fd (fd_of x s) s) =
      fd_step (fd_step s (Destroy x)) (MoveConstruct x from)) as ->.
    { unfold fd_step, move_from, set_fd, fd_of, close_fd. cbn.
      destruct (0 <=? _); cbn; rewrite lookup_delete_ne by done;
        f_equal; rewrite !(insert_insert_ne _ x from) by done; f_equal; by rewrite insert_delete_eq. }
    apply move_inv; [by apply destroy_inv|]. unfold fd_step, fd_legal, close_fd.
    destruct (0 <=? _); cbn; by rewrite lookup_delete_eq, lookup_delete_ne.
  - by apply destroy_inv.
Qed.

(** A descriptor has one owner and is closed once: along every program of
    constructions, moves, move assignments (to itself too) and destructions, no
    descriptor is closed twice or while another object holds it, and when every
    object is gone nothing stays open. *)
Theorem unique_fd_closes_once os s :
  fd_program (Fds ∅ ∅ false) os s →
  bad_close s = false ∧ (objects s = ∅ → opened s = ∅).
Proof.
  assert (∀ s0, fd_program s0 os s → fd_inv s0 → fd_inv s) as Hall
    by (induction 1; eauto using fd_step_inv).
  intros Hp. destruct (Hall _ Hp) as (Hbad & Hopen & _).
  { split_and!; [done| |done]. intros fd. cbn. split; [set_solver|]. by intros [_ [x Hx]]. }
  split; [done|]. intros Hobj. apply set_eq. intros fd. rewrite Hopen, Hobj.
  split; [by intros [_ [x Hx]]|set_solver].
Qed.

Lemma unique_fd_closes_once_witness :
  let s := fd_step (fd_step (fd_step (fd_step (fd_step (Fds ∅ ∅ false) (Construct 0 5))
    (Construct 1 7)) (MoveAssign 0 1)) (Destroy 1)) (Destroy 0) in
  bad_close s = false ∧ (objects s = ∅ → opened s = ∅).
Proof.
  intros s. apply (unique_fd_closes_once
    [Construct 0 5; Construct 1 7; MoveAssign 0 1; Destroy 1; Destroy 0]).
  repeat apply fd_next; try apply fd_end.
  - split; [done|set_solver].
  - split; [done|]. intros _. cbn. set_solver by lia.
  - split; by eexists.
  - by eexists.
  - by eexists.
Defined.
