(* ===== verification/Coroutines.v ===== *)
(** * The coroutine programs of base_coroutines

    [Generator] is 03_generator_cpp20.cpp: a lazy sequence of integers.
    The rest is 04_epoll_coroutines.cpp with task.hpp: an event loop that suspends
    coroutines on descriptors under unique tokens, and the four tasks of its
    demonstration.  A coroutine frame is a state of its body at an await; the
    kernel's answers to [send] and [recv] are a script, and its events are any
    sequence of tokens, stale ones included. *)

From stdpp Require Import base gmap list strings.
From Stdlib Require Import ZArith Lia Ascii.
From S2P Require Import Prelude CxxString.

Local Open Scope Z_scope.

(** ** 03_generator_cpp20.cpp *)

(** The frame of [numbers(count)]: before the loop, at a [co_yield], or finished. *)
Inductive numbers_pc := NStart | NYield (n : Z) | NDone.
Record generator := Gen { count : Z; pc : numbers_pc; current : Z; available : bool }.

Definition numbers (count : Z) : generator := Gen count NStart 0 false.

(** [handle_.resume()]: on to the next [co_yield] or to the end. *)
Definition gen_resume (g : generator) : outcome generator :=
  let yield n :=
    if n <=? count g then Gen (count g) (NYield n) n (available g)
    else Gen (count g) NDone (current g) (available g) in
  match pc g with
  | NStart => Ret (yield 1)
  | NYield n => if n =? int_max then Undef else Ret (yield (n + 1))
  | NDone => Undef
  end.

Definition gen_done (g : generator) : bool := match pc g with NDone => true | _ => false end.

Definition next (g : generator) : outcome (bool * generator) :=
  let g := Gen (count g) (pc g) (current g) false in
  if gen_done g then Ret (false, g)
  else
    g ← gen_resume g;
    let g := Gen (count g) (pc g) (current g) (negb (gen_done g)) in
    Ret (available g, g).

Definition value (g : generator) : outcome Z :=
  if available g then Ret (current g)
  else Throw (LogicError (lit "call next() successfully before value()")).

(** [while (sequence.next()) std::cout << sequence.value()] *)
Fixpoint drain (fuel : nat) (g : generator) : outcome (list Z) :=
  match fuel with
  | O => Ret []
  | S fuel =>
      '(more, g) ← next g;
      if (more : bool) then v ← value g; l ← drain fuel g; Ret (v :: l) else Ret []
  end.

(** ** 04_epoll_coroutines.cpp: the tasks' bodies *)

(** A socket pair's one direction: bytes in flight, and whether it was shut down. *)
Record chan := Chan { buf : bytes; shut : bool }.

(** Answers of the kernel to [send] and [recv]. *)
Inductive sys := Bytes (n : nat) | EINTR | EAGAIN | Error.

(** A body suspended at its next [co_await], or about to start. *)
Inductive spc := SStart | STimer | SSending.
Inductive coro :=
  | delayed_sender (socket timer : Z) (ch : nat) (message : bytes) (sent : nat) (at_ : spc)
  | receiver (socket : Z) (ch : nat) (received : bytes)
  | unused_wait (fd : Z) (resumed : bool).

(** How a resumed body stops. *)
Inductive stop := Await (fd : Z) (c : coro) | Finish (c : coro) | Raise (c : coro).

(** The send loop; at the end of the script the socket is full. *)
Fixpoint send_run (as_ : list sys) (ch : chan) (message : bytes) (sent : nat) : chan * nat * option bool :=
  if decide (length message <= sent)%nat then (Chan (buf ch) true, sent, Some true)
  else
    match as_ with
    | [] | EAGAIN :: _ => (ch, sent, None)
    | EINTR :: as_ => send_run as_ ch message sent
    | Error :: _ => (ch, sent, Some false)
    | Bytes n :: as_ =>
        let k := Nat.min n (length message - sent) in
        if decide (k = O) then (ch, sent, Some false)
        else send_run as_ (Chan (buf ch ++ take k (drop sent message)) (shut ch)) message (sent + k)
    end.

(** The receive loop with its buffer of 64; [recv] answers the end of the stream or
    [EAGAIN] when nothing is there; after the script it gives all there is. *)
Fixpoint recv_run (as_ : list sys) (ch : chan) (received : bytes) : chan * bytes * option bool :=
  match as_ with
  | [] => (Chan [] (shut ch), received ++ buf ch, if shut ch then Some true else None)
  | EINTR :: as_ => recv_run as_ ch received
  | Error :: _ => (ch, received, Some false)
  | EAGAIN :: _ => (ch, received, None)
  | Bytes n :: as_ =>
      match buf ch with
      | [] => (ch, received, if shut ch then Some true else None)
      | _ =>
          let k := Nat.min (Nat.max 1 n) (Nat.min 64 (length (buf ch))) in
          recv_run as_ (Chan (drop k (buf ch)) (shut ch)) (received ++ take k (buf ch))
      end
  end.

Abbreviation chans := (gmap nat chan).

Definition body_resume (as_ : list sys) (c : coro) (cs : chans) : stop * chans :=
  match c with
  | delayed_sender socket timer ch message sent SStart =>
      (Await timer (delayed_sender socket timer ch message sent STimer), cs)
  | delayed_sender socket timer ch message sent _ =>
      match cs !! ch with
      | None => (Raise c, cs)
      | Some cn =>
          let '(cn, sent, r) := send_run as_ cn message sent in
          let c := delayed_sender socket timer ch message sent SSending in
          (match r with
           | None => Await socket c
           | Some true => Finish c
           | Some false => Raise c
           end, <[ch := cn]> cs)
      end
  | receiver socket ch received =>
      match cs !! ch with
      | None => (Raise c, cs)
      | Some cn =>
          let '(cn, received, r) := recv_run as_ cn received in
          let c := receiver socket ch received in
          (match r with
           | None => Await socket c
           | Some true => Finish c
           | Some false => Raise c
           end, <[ch := cn]> cs)
      end
  | unused_wait fd false => (Await fd (unused_wait fd true), cs)
  | unused_wait fd true => (Finish c, cs)
  end.

(** ** The event loop *)

(** A frame: created, suspended in a [Waiter] that holds a token, or at its final
    suspend point, with an exception or without. *)
Inductive status := Created | Waiting (token : Z) | Final (error : bool).
Record frame := Frame { body : coro; st : status }.

Record loop := Loop {
  next_token : Z;
  waiting_ : gmap Z (Z * nat);     (* token to descriptor and task *)
  epoll : gmap Z Z;                (* the kernel's registrations: descriptor to token *)
  frames : gmap nat frame;
  channels : chans
}.

Definition loop_init (cs : chans) : loop := Loop 1 ∅ ∅ ∅ cs.

Definition set_frame (t : nat) (f : frame) (l : loop) : loop :=
  Loop (next_token l) (waiting_ l) (epoll l) (<[t := f]> (frames l)) (channels l).
Definition set_channels (cs : chans) (l : loop) : loop :=
  Loop (next_token l) (waiting_ l) (epoll l) (frames l) cs.

(** [EPOLL_CTL_ADD] fails on a descriptor that is registered; the token is used up. *)
Definition watch (fd : Z) (t : nat) (l : loop) : option Z * loop :=
  let token := next_token l in
  match epoll l !! fd with
  | Some _ => (None, Loop (wrap64 (token + 1)) (delete token (waiting_ l)) (epoll l) (frames l) (channels l))
  | None =>
      (Some token, Loop (wrap64 (token + 1)) (<[token := (fd, t)]> (waiting_ l))
         (<[fd := token]> (epoll l)) (frames l) (channels l))
  end.

Definition cancel (token : Z) (l : loop) : loop :=
  match waiting_ l !! token with
  | None => l
  | Some (fd, _) =>
      Loop (next_token l) (delete token (waiting_ l)) (delete fd (epoll l)) (frames l) (channels l)
  end.

(** [~Waiter]. *)
Definition drop_waiter (f : frame) (l : loop) : loop :=
  match st f with Waiting token => cancel token l | _ => l end.

(** The body runs to its next suspend point; [await_suspend] registers the frame, and
    when that throws, the exception ends the coroutine. *)
Definition run_body (as_ : list sys) (t : nat) (f : frame) (l : loop) : loop :=
  let '(r, cs) := body_resume as_ (body f) (channels l) in
  let l := set_channels cs l in
  match r with
  | Finish c => set_frame t (Frame c (Final false)) l
  | Raise c => set_frame t (Frame c (Final true)) l
  | Await fd c =>
      let '(token, l) := watch fd t l in
      set_frame t (Frame c (match token with Some k => Waiting k | None => Final true end)) l
  end.

(** [handle.resume()]: undefined for a destroyed or finished coroutine.  A frame that
    was suspended first destroys its [Waiter]. *)
Definition resume (as_ : list sys) (t : nat) (l : loop) : outcome loop :=
  f ← deref (frames l !! t);
  match st f with
  | Final _ => Undef
  | _ => Ret (run_body as_ t f (drop_waiter f l))
  end.

(** [h.done() && h.promise().error] *)
Definition failed (t : nat) (l : loop) : bool :=
  match frames l !! t with Some (Frame _ (Final e)) => e | _ => false end.
Definition rethrow_if_failed (t : nat) (l : loop) : outcome loop :=
  if failed t l then Throw (RuntimeError (lit "task")) else Ret l.

(** One event of a batch. *)
Definition on_event (as_ : list sys) (token : Z) (l : loop) : outcome loop :=
  match waiting_ l !! token with
  | None => Ret l
  | Some (_, t) =>
      l ← resume as_ t (cancel token l);
      rethrow_if_failed t l
  end.

(** [Task::resume]. *)
Definition task_resume (as_ : list sys) (t : nat) (l : loop) : outcome loop :=
  l ← match frames l !! t with
      | Some (Frame _ (Final _)) => Ret l
      | _ => resume as_ t l
      end;
  rethrow_if_failed t l.

(** [~Task]: destroying the frame destroys the [Waiter] it is suspended in. *)
Definition task_destroy (t : nat) (l : loop) : loop :=
  match frames l !! t with
  | None => l
  | Some f =>
      let l := drop_waiter f l in
      Loop (next_token l) (waiting_ l) (epoll l) (delete t (frames l)) (channels l)
  end.

Inductive event :=
  | Spawn (t : nat) (c : coro)
  | Start (t : nat) (as_ : list sys)
  | Ready (token : Z) (as_ : list sys)
  | Destroy (t : nat).

Definition step (l : loop) (e : event) : outcome loop :=
  match e with
  | Spawn t c => Ret (set_frame t (Frame c Created) l)
  | Start t as_ => task_resume as_ t l
  | Ready token as_ => on_event as_ token l
  | Destroy t => Ret (task_destroy t l)
  end.

Fixpoint steps (l : loop) (es : list event) : outcome loop :=
  match es with
  | [] => Ret l
  | e :: es' => l' ← step l e; steps l' es'
  end.

(** ** The generator *)

Lemma gen_from_yield n c fuel a :
  0 <= n → c < int_max → n <= c → Z.of_nat fuel > c - n →
  drain fuel (Gen c (NYield n) n a) = Ret (seqZ (n + 1) (c - n)).
Proof.
  intros H0 Hc Hn Hf. revert n a H0 Hn Hf. induction fuel as [|fuel IH]; intros n a H0 Hn Hf.
  - rewrite seqZ_nil by lia. done.
  - cbn [drain]. unfold next. cbn -[int_max]. destruct (Z.eqb_spec n int_max); [lia|].
    destruct (Z.leb_spec (n + 1) c).
    + cbn -[int_max seqZ]. rewrite IH by lia. cbn -[seqZ].
      rewrite (seqZ_cons (n + 1)) by lia. do 3 f_equal; lia.
    + cbn. rewrite seqZ_nil by lia. done.
Qed.

(** The generator yields exactly 1 to [count], then reports its end: for every
    [count] below the largest int, draining [numbers(count)] gives these values in
    order, and a generator that has not been advanced refuses [value()]. *)
Theorem generator_yields c fuel :
  c < int_max → Z.of_nat fuel > Z.max c 0 →
  drain fuel (numbers c) = Ret (seqZ 1 c) ∧
  value (numbers c) = Throw (LogicError (lit "call next() successfully before value()")).
Proof.
  intros Hc Hf. split; [|done]. destruct fuel as [|fuel]; [lia|].
  cbn [drain]. unfold next, numbers. cbn -[int_max]. destruct (Z.leb_spec 1 c).
  - cbn -[int_max seqZ]. rewrite gen_from_yield by lia. cbn -[seqZ].
    rewrite (seqZ_cons 1) by lia. done.
  - cbn. by rewrite seqZ_nil by lia.
Qed.

Lemma generator_yields_witness :
  drain 10 (numbers 5) = Ret [1; 2; 3; 4; 5] ∧
  value (numbers 5) = Throw (LogicError (lit "call next() successfully before value()")).
Proof. apply (generator_yields 5 10); [by vm_compute|done]. Defined.

(** ** The event loop keeps its tables *)

Definition fds_of (c : coro) : list Z :=
  match c with
  | delayed_sender socket timer _ _ _ _ => [socket; timer]
  | receiver socket _ _ => [socket]
  | unused_wait fd _ => [fd]
  end.

(** The tables agree, except that the tasks in [ex] have no entry although their
    frame may still name a token. *)
Record tables (ex : nat → Prop) (l : loop) : Prop := {
  t_sync fd token : epoll l !! fd = Some token ↔ ∃ t, waiting_ l !! token = Some (fd, t);
  t_link token fd t : waiting_ l !! token = Some (fd, t) →
    ¬ ex t ∧ ∃ f, frames l !! t = Some f ∧ st f = Waiting token ∧ fd ∈ fds_of (body f);
  t_wait t f token : ¬ ex t → frames l !! t = Some f → st f = Waiting token →
    ∃ fd, waiting_ l !! token = Some (fd, t);
  t_token t f token : frames l !! t = Some f → st f = Waiting token → 0 < token < next_token l;
  t_next : 0 < next_token l;
  t_uniq t1 t2 f1 f2 token : frames l !! t1 = Some f1 → frames l !! t2 = Some f2 →
    st f1 = Waiting token → st f2 = Waiting token → t1 = t2;
  t_own t1 t2 f1 f2 fd : frames l !! t1 = Some f1 → frames l !! t2 = Some f2 →
    fd ∈ fds_of (body f1) → fd ∈ fds_of (body f2) → t1 = t2
}.
Definition inv : loop → Prop := tables (λ _, False).

Lemma cancel_frames token l : frames (cancel token l) = frames l ∧ next_token (cancel token l) = next_token l.
Proof. unfold cancel. by destruct (waiting_ l !! token) as [[??]|]. Qed.

Lemma drop_waiter_tables l t f :
  inv l → frames l !! t = Some f → tables (eq t) (drop_waiter f l).
Proof.
  intros [Hs Hl Hw Ht Hn Hu Ho] Hf. cbn beta in Hl, Hw. unfold drop_waiter.
  destruct (st f) as [|token|e] eqn:Hst.
  1,3: split; try done; [intros k fd t' Hk; destruct (Hl _ _ _ Hk) as (_ & f' & Hf' & Hst' & ?);
         split; [intros ->; congruence|by exists f']|intros t' f' k _ Hf' Hst'; by apply (Hw t' f' k (λ x, x) Hf' Hst')].
  destruct (Hw t f token (λ x, x) Hf Hst) as [fd Hk]. unfold cancel. rewrite Hk.
  split; cbn; try done.
  - intros fd' k. rewrite lookup_delete_Some, Hs. split.
    + intros [Hne [t' Hk']]. exists t'. apply lookup_delete_Some. split; [congruence|done].
    + intros [t' [Hne Hk']%lookup_delete_Some]. split; [|eauto]. intros <-. apply Hne.
      assert (epoll l !! fd = Some token) by (apply Hs; eauto).
      assert (epoll l !! fd = Some k) by (apply Hs; eauto). congruence.
  - intros k fd' t' [Hne Hk']%lookup_delete_Some.
    destruct (Hl _ _ _ Hk') as (_ & f' & Hf' & Hst' & ?). split; [|by exists f'].
    intros ->. congruence.
  - intros t' f' k Hne Hf' Hst'. destruct (Hw t' f' k (λ x, x) Hf' Hst') as [fd' Hk'].
    exists fd'. apply lookup_delete_Some. split; [|done]. intros ->. congruence.
Qed.

Lemma drop_waiter_again l t f :
  tables (eq t) l → frames l !! t = Some f → drop_waiter f l = l.
Proof.
  intros HT Hf. unfold drop_waiter. destruct (st f) as [|token|e] eqn:Hst; try done.
  unfold cancel. destruct (waiting_ l !! token) as [[fd t']|] eqn:Hk; [|done].
  destruct (t_link _ _ HT _ _ _ Hk) as (Hne & f' & Hf' & Hst' & _).
  destruct Hne. by eapply (t_uniq _ _ HT).
Qed.

Lemma body_resume_fds as_ c cs r cs' :
  body_resume as_ c cs = (r, cs') →
  match r with
  | Await fd c' => fd ∈ fds_of c ∧ fds_of c' = fds_of c
  | Finish c' | Raise c' => fds_of c' = fds_of c
  end.
Proof.
  destruct c as [so ti ch m se p|so ch re|fd []]; cbn.
  - destruct p; [intros [= <- <-]; split; [set_solver|done]| |];
      (destruct (cs !! ch) as [cn|]; [|by intros [= <- <-]]);
      destruct (send_run as_ cn m se) as [[cn' se'] [[]|]]; intros [= <- <-]; by try (split; [set_solver|]).
  - destruct (cs !! ch) as [cn|]; [|by intros [= <- <-]].
    destruct (recv_run as_ cn re) as [[cn' re'] [[]|]]; intros [= <- <-]; by try (split; [set_solver|]).
  - by intros [= <- <-].
  - intros [= <- <-]. split; [set_solver|done].
Qed.

(** A frame that is not suspended in the loop. *)
Lemma settle_inv l t f c s' :
  tables (eq t) l → frames l !! t = Some f → fds_of c = fds_of (body f) → (∀ k, s' ≠ Waiting k) →
  inv (set_frame t (Frame c s') l).
Proof.
  intros [Hs Hl Hw Ht Hn Hu Ho] Hf Hc Hnw. split; cbn; try done.
  - intros k fd t' Hk. destruct (Hl _ _ _ Hk) as (Hne & f' & ?&?&?).
    split; [tauto|]. exists f'. by rewrite lookup_insert_ne.
  - intros t' f' k _ [[<- <-]|[Hne Hf']]%lookup_insert_Some Hst; [by destruct (Hnw k)|eauto].
  - intros t' f' k [[<- <-]|[Hne Hf']]%lookup_insert_Some Hst; [by destruct (Hnw k)|eauto].
  - intros t1 t2 f1 f2 k [[<- <-]|[? Hf1]]%lookup_insert_Some [[<- <-]|[? Hf2]]%lookup_insert_Some Hs1 Hs2;
      try done; [by destruct (Hnw k)|by destruct (Hnw k)|eauto].
  - intros t1 t2 f1 f2 fd [[<- <-]|[? Hf1]]%lookup_insert_Some [[<- <-]|[? Hf2]]%lookup_insert_Some Hs1 Hs2;
      try done; cbn in *; rewrite ?Hc in *; eauto.
Qed.

(** A frame that awaits one of its descriptors: nobody else holds that descriptor, so
    the registration succeeds. *)
Lemma await_inv l t f c fd :
  tables (eq t) l → frames l !! t = Some f → fds_of c = fds_of (body f) → fd ∈ fds_of (body f) →
  next_token l + 1 < 2 ^ 64 →
  ∃ l', watch fd t l = (Some (next_token l), l') ∧ next_token l' = next_token l + 1 ∧
    inv (set_frame t (Frame c (Waiting (next_token l))) l').
Proof.
  intros [Hs Hl Hw Ht Hn Hu Ho] Hf Hc Hfd Hmax. unfold watch.
  destruct (epoll l !! fd) as [k|] eqn:Hk.
  { apply Hs in Hk as [t' Hk]. destruct (Hl _ _ _ Hk) as (Hne & f' & Hf' & _ & Hfd').
    destruct Hne. by eapply Ho. }
  rewrite wrap64_small by lia. eexists. split; [done|]. split; [done|].
  assert (∀ k fd' t', waiting_ l !! k = Some (fd', t') → k ≠ next_token l) as Hfresh.
  { intros k fd' t' Hk' ->. destruct (Hl _ _ _ Hk') as (_ & f' & Hf' & Hst' & _).
    specialize (Ht _ _ _ Hf' Hst'). lia. }
  split; cbn.
  - intros fd' k. split.
    + intros [[<- <-]|[Hne Hk']]%lookup_insert_Some; [exists t; apply lookup_insert_eq|].
      apply Hs in Hk' as [t' Hk']. exists t'. rewrite lookup_insert_ne; [done|]. by eapply not_eq_sym, Hfresh.
    + intros [t' [[<- [= <- <-]]|[Hne Hk']]%lookup_insert_Some]; [apply lookup_insert_eq|].
      assert (epoll l !! fd' = Some k) by (apply Hs; eauto). rewrite lookup_insert_ne; [done|congruence].
  - intros k fd' t' [[<- [= <- <-]]|[Hne Hk']]%lookup_insert_Some; (split; [tauto|]).
    + eexists. rewrite lookup_insert_eq. split; [done|]. cbn. by rewrite Hc.
    + destruct (Hl _ _ _ Hk') as (Hne' & f' & ?&?&?). exists f'. by rewrite lookup_insert_ne.
  - intros t' f' k _ [[<- <-]|[Hne Hf']]%lookup_insert_Some Hst; cbn in Hst.
    + injection Hst as <-. exists fd. apply lookup_insert_eq.
    + destruct (Hw t' f' k Hne Hf' Hst) as [fd' Hk']. exists fd'.
      rewrite lookup_insert_ne; [done|]. by eapply not_eq_sym, Hfresh.
  - intros t' f' k [[<- <-]|[Hne Hf']]%lookup_insert_Some Hst; cbn in Hst; [injection Hst as <-; lia|].
    specialize (Ht _ _ _ Hf' Hst). lia.
  - lia.
  - intros t1 t2 f1 f2 k [[<- <-]|[? Hf1]]%lookup_insert_Some [[<- <-]|[? Hf2]]%lookup_insert_Some Hs1 Hs2;
      try done; cbn in *; [injection Hs1 as <-; specialize (Ht _ _ _ Hf2 Hs2); lia
        |injection Hs2 as <-; specialize (Ht _ _ _ Hf1 Hs1); lia|eauto].
  - intros t1 t2 f1 f2 fd' [[<- <-]|[? Hf1]]%lookup_insert_Some [[<- <-]|[? Hf2]]%lookup_insert_Some Hs1 Hs2;
      try done; cbn in *; rewrite ?Hc in *; eauto.
Qed.

Lemma run_body_inv as_ t f l :
  tables (eq t) l → frames l !! t = Some f → next_token l + 1 < 2 ^ 64 →
  inv (run_body as_ t f l) ∧ next_token (run_body as_ t f l) <= next_token l + 1 ∧
  (failed t (run_body as_ t f l) = true → ∃ c, (body_resume as_ (body f) (channels l)).1 = Raise c).
Proof.
  intros HT Hf Hmax. unfold run_body.
  destruct (body_resume as_ (body f) (channels l)) as [r cs] eqn:E.
  apply body_resume_fds in E.
  assert (tables (eq t) (set_channels cs l)) as HT' by (by destruct HT; split).
  destruct r as [fd c|c|c].
  - destruct E as [Hfd Hc].
    destruct (await_inv (set_channels cs l) t f c fd HT' Hf Hc Hfd Hmax) as (l' & -> & Hn & Hi).
    split_and!; [done|cbn in *; lia|]. unfold failed. cbn. by rewrite lookup_insert_eq.
  - split_and!; [by eapply settle_inv|cbn; lia|]. unfold failed. cbn. by rewrite lookup_insert_eq.
  - split_and!; [by eapply settle_inv|cbn; lia|eauto].
Qed.

Lemma drop_waiter_frames f l :
  frames (drop_waiter f l) = frames l ∧ next_token (drop_waiter f l) = next_token l ∧
  channels (drop_waiter f l) = channels l.
Proof. unfold drop_waiter, cancel. destruct (st f); [done| |done]. by destruct (waiting_ l !! token) as [[??]|]. Qed.

Lemma resume_inv as_ t f l :
  tables (eq t) (drop_waiter f l) → frames l !! t = Some f → (∀ e, st f ≠ Final e) →
  next_token l + 1 < 2 ^ 64 →
  ∃ l', resume as_ t l = Ret l' ∧ inv l' ∧ next_token l' <= next_token l + 1 ∧
    (failed t l' = true → ∃ c, (body_resume as_ (body f) (channels l)).1 = Raise c).
Proof.
  intros HT Hf Hnf Hmax. destruct (drop_waiter_frames f l) as (Hfr & Hn & Hch).
  destruct (run_body_inv as_ t f (drop_waiter f l) HT ltac:(by rewrite Hfr) ltac:(lia)) as (?&?&Hfail).
  exists (run_body as_ t f (drop_waiter f l)). unfold resume. rewrite Hf. rewrite Hch in Hfail.
  split_and!; [|done|lia|done]. cbn. destruct (st f) as [| |e]; [done..|by destruct (Hnf e)].
Qed.

(** *** Histories *)

(** What the program guarantees: a new task has a fresh name and descriptors that no
    other task holds, and only existing tasks are started. *)
Definition legal (l : loop) (e : event) : Prop :=
  match e with
  | Spawn t c =>
      frames l !! t = None ∧
      ∀ t' f fd, frames l !! t' = Some f → fd ∈ fds_of (body f) → fd ∉ fds_of c
  | Start t _ => is_Some (frames l !! t)
  | Ready _ _ | Destroy _ => True
  end.

Lemma spawn_inv l t c : inv l → legal l (Spawn t c) → inv (set_frame t (Frame c Created) l).
Proof.
  intros [Hs Hl Hw Ht Hn Hu Ho] [Hnew Hown]. split; cbn; try done.
  - intros k fd t' Hk. destruct (Hl _ _ _ Hk) as (Hne & f' & ?&?&?).
    split; [done|]. exists f'. rewrite lookup_insert_ne; [done|congruence].
  - intros t' f' k ? [[<- <-]|[Hne Hf']]%lookup_insert_Some Hst; [done|eauto].
  - intros t' f' k [[<- <-]|[Hne Hf']]%lookup_insert_Some Hst; [done|eauto].
  - intros t1 t2 f1 f2 k [[<- <-]|[? Hf1]]%lookup_insert_Some [[<- <-]|[? Hf2]]%lookup_insert_Some Hs1 Hs2;
      try done; eauto.
  - intros t1 t2 f1 f2 fd [[<- <-]|[? Hf1]]%lookup_insert_Some [[<- <-]|[? Hf2]]%lookup_insert_Some Hs1 Hs2;
      try done; cbn in *; [by destruct (Hown _ _ fd Hf2)|by destruct (Hown _ _ fd Hf1)|eauto].
Qed.

Lemma destroy_inv_loop l t : inv l → inv (task_destroy t l) ∧ next_token (task_destroy t l) = next_token l.
Proof.
  intros Hi. unfold task_destroy. destruct (frames l !! t) as [f|] eqn:Hf; [|done].
  destruct (drop_waiter_frames f l) as (Hfr & Hn' & _). split; [|done].
  destruct (drop_waiter_tables l t f Hi Hf) as [Hs Hl Hw Ht Hn Hu Ho]. split; cbn; try done.
  - intros k fd t' Hk. destruct (Hl _ _ _ Hk) as (Hne & f' & ?&?&?).
    split; [tauto|]. exists f'. by rewrite lookup_delete_ne.
  - intros t' f' k _ [Hne Hf']%lookup_delete_Some Hst. eauto.
  - intros t' f' k [Hne Hf']%lookup_delete_Some Hst. eauto.
  - intros t1 t2 f1 f2 k [_ ?]%lookup_delete_Some [_ ?]%lookup_delete_Some. eauto.
  - intros t1 t2 f1 f2 fd [_ ?]%lookup_delete_Some [_ ?]%lookup_delete_Some. eauto.
Qed.

(** One event: the loop goes on, or a task's exception leaves it. *)
Lemma loop_step_inv l e :
  inv l → legal l e → next_token l + 1 < 2 ^ 64 →
  (∃ l', step l e = Ret l' ∧ inv l' ∧ next_token l' <= next_token l + 1) ∨
  step l e = Throw (RuntimeError (lit "task")).
Proof.
  intros Hi Hlegal Hmax. destruct e as [t c|t as_|token as_|t]; cbn [step].
  - left. eexists. split; [done|]. split; [by apply spawn_inv|cbn; lia].
  - destruct Hlegal as [f Hf]. unfold task_resume. rewrite Hf. destruct f as [c s'].
    assert (∀ l', inv l' → next_token l' <= next_token l + 1 →
      (∃ l'', rethrow_if_failed t l' = Ret l'' ∧ inv l'' ∧ next_token l'' <= next_token l + 1) ∨
      rethrow_if_failed t l' = Throw (RuntimeError (lit "task"))) as Hre
      by (intros l' ??; unfold rethrow_if_failed; destruct (failed t l'); [by right|left; eauto]).
    destruct s' as [|k|e]; [| |by apply Hre; [|lia]];
      (destruct (resume_inv as_ t (Frame c _) l (drop_waiter_tables _ _ _ Hi Hf) Hf ltac:(done) Hmax)
        as (l' & -> & ? & ? & _); by apply Hre).
  - unfold on_event. destruct (waiting_ l !! token) as [[fd t]|] eqn:Hk; [|left; eexists; split; [done|split; [done|lia]]].
    destruct (t_link _ _ Hi _ _ _ Hk) as (_ & f & Hf & Hst & _).
    assert (drop_waiter f l = cancel token l) as Hdw by (unfold drop_waiter; by rewrite Hst).
    pose proof (drop_waiter_tables l t f Hi Hf) as HT. rewrite Hdw in HT.
    destruct (cancel_frames token l) as [Hfr Hn].
    assert (drop_waiter f (cancel token l) = cancel token l) as Hagain
      by (apply (drop_waiter_again _ t); [done|by rewrite Hfr]).
    destruct (resume_inv as_ t f (cancel token l)) as (l' & -> & ? & ? & _);
      [by rewrite Hagain|by rewrite Hfr|congruence|lia|].
    cbn. unfold rethrow_if_failed. destruct (failed t l'); [by right|left].
    eexists. split; [done|]. split; [done|lia].
  - left. destruct (destroy_inv_loop l t Hi) as [? ?]. eexists. split; [done|]. split; [done|lia].
Qed.

Inductive history : loop → list event → outcome loop → Prop :=
  | h_end l : history l [] (Ret l)
  | h_step l e l' es r : legal l e → step l e = Ret l' → history l' es r → history l (e :: es) r
  | h_throw l e es x : legal l e → step l e = Throw x → history l (e :: es) (Throw x)
  | h_undef l e es : legal l e → step l e = Undef → history l (e :: es) Undef.

(** C8. The event loop resumes only what waits: along every legal history of up to 2^63
    spawns, starts, epoll events with any token (also stale or repeated ones) and
    destructions, no finished or destroyed coroutine is resumed, each token in the
    table belongs to the suspended frame that holds it, the kernel's registrations
    are exactly the table, and when the table is empty every task is either not
    started or finished. *)
Theorem event_loop_safe cs es r :
  history (loop_init cs) es r → Z.of_nat (length es) < 2 ^ 63 →
  match r with
  | Undef => False
  | Throw x => x = RuntimeError (lit "task")
  | Ret l =>
      (∀ token fd t, waiting_ l !! token = Some (fd, t) →
         epoll l !! fd = Some token ∧ ∃ f, frames l !! t = Some f ∧ st f = Waiting token) ∧
      (∀ fd token, epoll l !! fd = Some token → ∃ t, waiting_ l !! token = Some (fd, t)) ∧
      (waiting_ l = ∅ → ∀ t f, frames l !! t = Some f → st f = Created ∨ ∃ e, st f = Final e)
  end.
Proof.
  assert (∀ l, history l es r → inv l → next_token l + Z.of_nat (length es) < 2 ^ 64 →
    match r with Undef => False | Throw x => x = RuntimeError (lit "task") | Ret l => inv l end) as Hall.
  { induction 1 as [l|l e l' es r Hlegal E _ IH|l e es x Hlegal E|l e es Hlegal E];
      intros Hi Hmax; try done; simpl in Hmax;
      destruct (loop_step_inv l e Hi Hlegal ltac:(lia)) as [(l2 & E2 & ? & ?)|E2]; try congruence.
    assert (l2 = l') as -> by congruence. apply IH; [done|lia]. }
  intros Hh Hlen. pose proof (Hall _ Hh) as Hr.
  assert (inv (loop_init cs)) as Hinit.
  { unfold loop_init. split; cbn [epoll waiting_ frames next_token]; intros *; rewrite ?lookup_empty;
      try done; try lia. by split; [|intros [? ?]]. }
  specialize (Hr Hinit ltac:(cbn; lia)). destruct r as [l|x|]; [|done..].
  destruct Hr as [Hs Hl Hw Ht Hn Hu Ho]. split_and!.
  - intros token fd t Hk. split; [apply Hs; eauto|].
    destruct (Hl _ _ _ Hk) as (_ & f & ?&?&_). eauto.
  - intros fd token. apply Hs.
  - intros Hnil t f Hf. destruct (st f) as [|k|e] eqn:Hst; [by left| |by eauto].
    destruct (Hw t f k (λ x, x) Hf Hst) as [fd Hk]. by rewrite Hnil in Hk.
Qed.

Lemma event_loop_safe_witness :
  let cs : chans := {[ 0%nat := Chan [] false ]} in
  let es := [Spawn 0 (receiver 3 0 []); Start 0 []; Ready 7 []; Ready 1 []; Destroy 0] in
  match steps (loop_init cs) es with
  | Undef => False
  | Throw x => x = RuntimeError (lit "task")
  | Ret l =>
      (∀ token fd t, waiting_ l !! token = Some (fd, t) →
         epoll l !! fd = Some token ∧ ∃ f, frames l !! t = Some f ∧ st f = Waiting token) ∧
      (∀ fd token, epoll l !! fd = Some token → ∃ t, waiting_ l !! token = Some (fd, t)) ∧
      (waiting_ l = ∅ → ∀ t f, frames l !! t = Some f → st f = Created ∨ ∃ e, st f = Final e)
  end.
Proof.
  intros cs es. apply (event_loop_safe cs es); [|done].
  eapply h_step; [by split; [|intros ???]|reflexivity|].
  eapply h_step; [by eexists|reflexivity|].
  do 3 (eapply h_step; [done|reflexivity|]). vm_compute. constructor.
Defined.

(** ** What the tasks transfer *)

(** A sender's and a receiver's progress on their channel: what is in flight
    and was received is what was sent so far, and the channel is shut only after
    the whole message. *)
Lemma send_run_spec as_ ch message sent ch' sent' r :
  (sent <= length message)%nat → send_run as_ ch message sent = (ch', sent', r) →
  (sent <= sent' <= length message)%nat ∧
  buf ch' = buf ch ++ take (sent' - sent) (drop sent message) ∧
  (r = Some true → sent' = length message ∧ shut ch' = true) ∧
  (r ≠ Some true → shut ch' = shut ch).
Proof.
  revert ch sent. induction as_ as [|a as_ IH]; intros ch sent Hle; cbn [send_run];
    (case_decide; [intros [= <- <- <-]; split_and!; try done; try lia; rewrite ?Nat.sub_diag, ?take_0, ?app_nil_r; done || (intros; split; [lia|done])|]).
  - intros [= <- <- <-]. by rewrite Nat.sub_diag, take_0, app_nil_r.
  - destruct a as [n| | |]; [|by apply IH|intros [= <- <- <-]; by rewrite Nat.sub_diag, take_0, app_nil_r..].
    case_decide; [intros [= <- <- <-]; by rewrite Nat.sub_diag, take_0, app_nil_r|].
    set (k := Nat.min n (length message - sent)) in *. intros E.
    apply IH in E as (Hr & Hb & Ht & Hf); [|lia]. cbn [buf shut] in *. split_and!; [lia|lia| |done|done].
    rewrite Hb, <-app_assoc. f_equal.
    rewrite <-drop_drop, take_take_drop. f_equal. lia.
Qed.

Lemma recv_run_spec as_ ch received ch' received' r :
  recv_run as_ ch received = (ch', received', r) →
  received' ++ buf ch' = received ++ buf ch ∧ shut ch' = shut ch ∧
  (r = Some true → buf ch' = [] ∧ shut ch = true).
Proof.
  revert ch received. induction as_ as [|a as_ IH]; intros ch received; cbn [recv_run].
  - intros [= <- <- <-]. cbn. rewrite app_nil_r. split_and!; [done..|]. by destruct (shut ch).
  - destruct a as [n| | |]; [|by apply IH|by intros [= <- <- <-]..].
    destruct (buf ch) as [|c b] eqn:Hb.
    + intros [= <- <- <-]. rewrite Hb. split_and!; [done..|]. by destruct (shut ch).
    + intros E. apply IH in E as (Heq & Hs & Hr). cbn [buf shut] in *.
      rewrite Heq, <-app_assoc, take_drop. done.
Qed.

(** The channel a body uses. *)
Definition chan_of (c : coro) : option nat :=
  match c with
  | delayed_sender _ _ ch _ _ _ | receiver _ ch _ => Some ch
  | unused_wait _ _ => None
  end.
Definition stop_coro (r : stop) : coro := match r with Await _ c | Finish c | Raise c => c end.

(** What one event does to frames and channels. *)
Definition turn (l l' : loop) (t : nat) (as_ : list sys) : Prop :=
  ∃ f r cs s, frames l !! t = Some f ∧ (∀ e, st f ≠ Final e) ∧
    body_resume as_ (body f) (channels l) = (r, cs) ∧
    frames l' = <[t := Frame (stop_coro r) s]> (frames l) ∧ channels l' = cs ∧
    (s = Final false → ∃ c, r = Finish c).

Lemma resume_turn as_ t l0 l l' :
  frames l0 = frames l → channels l0 = channels l → resume as_ t l0 = Ret l' → turn l l' t as_.
Proof.
  intros Hfr Hch. unfold resume. rewrite Hfr. destruct (frames l !! t) as [f|] eqn:Hf; [|done].
  cbn. intros E. assert (l' = run_body as_ t f (drop_waiter f l0) ∧ ∀ e, st f ≠ Final e) as [-> Hnf]
    by (destruct (st f); by simplify_eq). clear E.
  destruct (drop_waiter_frames f l0) as (Hfr' & _ & Hch'). unfold run_body.
  rewrite Hch', Hch. destruct (body_resume as_ (body f) (channels l)) as [r cs] eqn:E.
  exists f, r, cs. destruct r as [fd c|c|c].
  - unfold watch. destruct (epoll _ !! fd).
    + exists (Final true). split_and!; [done..| |done|done]. cbn. by rewrite Hfr', Hfr.
    + exists (Waiting (next_token (set_channels cs (drop_waiter f l0)))).
      split_and!; [done..| |done|done]. cbn. by rewrite Hfr', Hfr.
  - exists (Final false). split_and!; [done..| |done|eauto]. cbn. by rewrite Hfr', Hfr.
  - exists (Final true). split_and!; [done..| |done|done]. cbn. by rewrite Hfr', Hfr.
Qed.

Lemma step_cases l e l' :
  step l e = Ret l' →
  (frames l' = frames l ∧ channels l' = channels l) ∨
  (∃ t as_, turn l l' t as_) ∨
  (∃ t c, e = Spawn t c ∧ frames l' = <[t := Frame c Created]> (frames l) ∧ channels l' = channels l) ∨
  (∃ t, e = Destroy t ∧ frames l' = delete t (frames l) ∧ channels l' = channels l).
Proof.
  assert (∀ t l1 l2, rethrow_if_failed t l1 = Ret l2 → l2 = l1) as Hre
    by (intros t l1 l2; unfold rethrow_if_failed; destruct (failed t l1); congruence).
  destruct e as [t c|t as_|token as_|t]; cbn [step]; intros E.
  - injection E as <-. right. right. left. by exists t, c.
  - unfold task_resume in E.
    destruct (frames l !! t) as [[c [| |e]]|] eqn:Hf.
    3: cbn in E; apply Hre in E as ->; by left.
    all: right; left; exists t, as_; destruct (resume as_ t l) as [l1| |] eqn:Er; try done;
      cbn in E; apply Hre in E as ->; by eapply resume_turn.
  - unfold on_event in E. destruct (waiting_ l !! token) as [[fd t]|] eqn:Hk; [|injection E as <-; by left].
    right. left. exists t, as_. destruct (resume as_ t (cancel token l)) as [l1| |] eqn:Er; try done.
    cbn in E. apply Hre in E as ->. eapply resume_turn; [..|exact Er];
      unfold cancel; by rewrite Hk.
  - injection E as <-. unfold task_destroy. destruct (frames l !! t) as [f|] eqn:Hf; [|by left].
    right. right. right. exists t. cbn.
    destruct (drop_waiter_frames f l) as (-> & _ & ->). done.
Qed.

(** A message on its way from task [ts] to task [tr] over channel [ch]. *)
Definition transfer (m : bytes) (ch ts tr : nat) (l : loop) : Prop :=
  ts ≠ tr ∧
  (∃ cn so ti se pc ss sr re s, channels l !! ch = Some cn ∧
     frames l !! ts = Some (Frame (delayed_sender so ti ch m se pc) ss) ∧
     frames l !! tr = Some (Frame (receiver sr ch re) s) ∧
     (se <= length m)%nat ∧ re ++ buf cn = take se m ∧ (shut cn = true → se = length m) ∧
     (s = Final false → re = m)) ∧
  ∀ t f, frames l !! t = Some f → chan_of (body f) = Some ch → t = ts ∨ t = tr.

(** Other tasks leave a channel alone. *)
Lemma body_resume_other as_ c cs r cs' ch :
  body_resume as_ c cs = (r, cs') → chan_of c ≠ Some ch →
  cs' !! ch = cs !! ch ∧ chan_of (stop_coro r) = chan_of c.
Proof.
  destruct c as [so ti ch' m se p|so ch' re|fd []]; cbn; intros E Hne.
  - destruct p; [by injection E as <- <-| |];
      (destruct (cs !! ch') as [cn|]; [|by injection E as <- <-]);
      destruct (send_run as_ cn m se) as [[cn' se'] [[]|]]; injection E as <- <-;
      by rewrite lookup_insert_ne by congruence.
  - destruct (cs !! ch') as [cn|]; [|by injection E as <- <-].
    destruct (recv_run as_ cn re) as [[cn' re'] [[]|]]; injection E as <- <-;
      by rewrite lookup_insert_ne by congruence.
  - by injection E as <- <-.
  - by injection E as <- <-.
Qed.

Lemma turn_transfer m ch ts tr l l' t as_ :
  transfer m ch ts tr l → turn l l' t as_ → transfer m ch ts tr l'.
Proof.
  intros (Hne & (cn & so & ti & se & pc & ss & sr & re & s & Hch & Hts & Htr & Hle & Hbuf & Hshut & Hfin) & Hoth)
    (f & r & cs & s' & Hf & Hnf & E & Hfr & Hcs & Hs').
  split; [done|]. rewrite Hfr, Hcs. split.
  - destruct (decide (t = ts)) as [->|Hts'].
    { rewrite Hts in Hf. injection Hf as <-. cbn [body] in E.
      assert (∃ pc' cn' se', stop_coro r = delayed_sender so ti ch m se' pc' ∧ cs !! ch = Some cn' ∧
        (se' <= length m)%nat ∧ re ++ buf cn' = take se' m ∧ (shut cn' = true → se' = length m))
        as (pc' & cn' & se' & Hr & ?&?&?&?).
      { cbn in E. rewrite Hch in E. destruct pc.
        1: injection E as <- <-; by exists STimer, cn, se.
        all: destruct (send_run as_ cn m se) as [[cn' se'] r'] eqn:Er;
          apply send_run_spec in Er as (Hr & Hb & Ht & Hf); [|done]; injection E as <- <-;
          exists SSending, cn', se'; rewrite lookup_insert_eq;
          (split_and!; [by destruct r' as [[]|]|done|lia| |]);
          [rewrite Hb, app_assoc, Hbuf, take_take_drop; f_equal; lia|];
          intros Hsh; destruct (decide (r' = Some true)) as [->|Hr']; [by apply Ht|];
          rewrite (Hf Hr') in Hsh; specialize (Hshut Hsh); lia. }
      exists cn', so, ti, se', pc', s', sr, re, s. rewrite lookup_insert_eq, lookup_insert_ne by done.
      by rewrite Hr. }
    destruct (decide (t = tr)) as [->|Htr'].
    { rewrite Htr in Hf. injection Hf as <-. cbn [body st] in *. cbn in E. rewrite Hch in E.
      destruct (recv_run as_ cn re) as [[cn' re'] r'] eqn:Er. apply recv_run_spec in Er as (Hb & Hsh & Ht).
      exists cn', so, ti, se, pc, ss, sr, re', s'. injection E as <- <-.
      rewrite lookup_insert_eq, lookup_insert_ne, lookup_insert_eq by done.
      split_and!; [done|done|by destruct r' as [[]|]|done|by rewrite Hb|by rewrite Hsh|].
      intros Hfinal. destruct (Hs' Hfinal) as [c Hc]. destruct r' as [[]|]; try done.
      destruct (Ht eq_refl) as [Hnil Hshut']. specialize (Hshut Hshut').
      rewrite Hnil, app_nil_r in Hb. rewrite Hb, Hbuf, Hshut. apply firstn_all. }
    assert (chan_of (body f) ≠ Some ch) as Hc by (intros Hc; destruct (Hoth _ _ Hf Hc); done).
    destruct (body_resume_other _ _ _ _ _ ch E Hc) as [Hcn _].
    exists cn, so, ti, se, pc, ss, sr, re, s. rewrite Hcn, !lookup_insert_ne by done. done.
  - intros t' f' [[<- <-]|[? Hf']]%lookup_insert_Some Hc; [|by eapply Hoth].
    cbn [body] in Hc. destruct (decide (chan_of (body f) = Some ch)) as [Hc'|Hc']; [by eapply Hoth|].
    destruct (body_resume_other _ _ _ _ _ ch E Hc') as [_ Heq]. congruence.
Qed.

(** A history that leaves the two tasks alive and gives nobody else their channel. *)
Definition keeps_transfer (ch ts tr : nat) (e : event) : Prop :=
  match e with
  | Spawn t c => t ≠ ts ∧ t ≠ tr ∧ chan_of c ≠ Some ch
  | Destroy t => t ≠ ts ∧ t ≠ tr
  | _ => True
  end.

(** A message arrives whole: under every schedule of the loop, with sends and
    receives cut and interrupted in any way and other tasks running, what the receiver
    got is always a prefix of the message, and if it ends without an exception it
    has the whole message. *)
Theorem message_delivered es l l' m ch ts tr :
  steps l es = Ret l' → transfer m ch ts tr l → Forall (keeps_transfer ch ts tr) es →
  ∃ sr re s, frames l' !! tr = Some (Frame (receiver sr ch re) s) ∧
    re `prefix_of` m ∧ (s = Final false → re = m).
Proof.
  intros E Ht Hes. assert (transfer m ch ts tr l') as Ht'.
  { revert l E Ht. induction Hes as [|e es He _ IH]; intros l E Ht; cbn in E; [by injection E as <-|].
    destruct (step l e) as [l1| |] eqn:Es; try done. cbn in E. apply (IH l1 E).
    destruct (step_cases _ _ _ Es) as [[Hf Hc]|[(t & as_ & Hturn)|[(t & c & -> & Hf & Hc)|(t & -> & Hf & Hc)]]].
    - unfold transfer. rewrite Hf, Hc. exact Ht.
    - by eapply turn_transfer.
    - destruct He as (?&?&Hnc). unfold transfer. rewrite Hf, Hc, !lookup_insert_ne by done.
      destruct Ht as (?&?&Hoth). split_and!; [done|done|].
      intros t' f' [[<- <-]|[? Hf']]%lookup_insert_Some Hcc; [done|by eapply Hoth].
    - destruct He as (?&?). unfold transfer. rewrite Hf, Hc, !lookup_delete_ne by done.
      destruct Ht as (?&?&Hoth). split_and!; [done|done|].
      intros t' f' [_ Hf']%lookup_delete_Some. by apply Hoth. }
  destruct Ht' as (_ & (cn & so & ti & se & pc & ss & sr & re & s & _ & _ & Htr & _ & Hbuf & _ & Hfin) & _).
  exists sr, re, s. split_and!; [done| |done]. exists (buf cn ++ drop se m).
  by rewrite app_assoc, Hbuf, take_drop.
Qed.

Definition demo_message : bytes := lit "hello A" ++ [newline].
Definition demo_loop : loop :=
  Loop 1 ∅ ∅ (<[0%nat := Frame (receiver 3 0 []) Created]>
    (<[1%nat := Frame (delayed_sender 4 5 0 demo_message 0 SStart) Created]> ∅))
    (<[0%nat := Chan [] false]> ∅).
Definition demo_events : list event :=
  [Start 0 []; Start 1 []; Ready 2 [Bytes 3; EINTR; Bytes 1]; Ready 1 [Bytes 2; EAGAIN];
   Ready 3 [Bytes 9]; Ready 4 []].

Lemma message_delivered_witness :
  ∃ sr re s, frames (match steps demo_loop demo_events with Ret l => l | _ => demo_loop end) !! 0%nat
      = Some (Frame (receiver sr 0 re) s) ∧
    re `prefix_of` demo_message ∧ (s = Final false → re = demo_message).
Proof.
  apply (message_delivered demo_events demo_loop _ demo_message 0 1 0).
  - vm_compute. reflexivity.
  - split; [done|]. split.
    + exists (Chan [] false), 4, 5, 0%nat, SStart, Created, 3, [], Created.
      split_and!; try done. cbn. lia.
    + intros t f Hf _. unfold demo_loop in Hf. cbn [frames] in Hf.
      apply lookup_insert_Some in Hf as [[<- _]|[_ Hf]]; [by right|].
      apply lookup_insert_Some in Hf as [[<- _]|[_ Hf]]; [by left|]. by rewrite lookup_empty in Hf.
  - by repeat constructor.
Defined.

Example demo_receiver_done :
  (l ← steps demo_loop demo_events; Ret (st <$> frames l !! 0%nat)) = Ret (Some (Final false)).
Proof. vm_compute. reflexivity. Qed.
