(* ===== verification/BaseMemory.v ===== *)
(** * The growable array and the slot pool of base_memory

    [DArray] of darray_demo.cpp doubles its buffer with realloc; its contract is a
    list.  [MemPool] of mempool.cpp hands out the slots of one block from a stack;
    its contract is that the slots in use are distinct.  The answers of malloc and
    realloc are inputs. *)

From stdpp Require Import base gmap list strings.
From Stdlib Require Import ZArith Lia.
From S2P Require Import Prelude CxxString.

Local Open Scope Z_scope.

(** ** DArray *)

Definition sizeof_int : Z := 4.

(** [_data]: the ints of the block, [None] for one without a value. *)
Record DArray := Arr { _capacity : Z; _size : Z; _data : list (option Z) }.

Definition alloc_ints (n : Z) : list (option Z) :=
  replicate (Z.to_nat (wrap64 (n * sizeof_int) / sizeof_int)) None.

(** [ok] is whether malloc gave memory. *)
Definition DArray_ctor (ok : bool) : outcome DArray :=
  if ok then Ret (Arr 2 0 (alloc_ints 2)) else Throw BadAlloc.

(** realloc keeps the ints that fit. *)
Definition darray_resize (ok : bool) (new_capacity : Z) : prog DArray unit :=
  if ok then
    modify (λ a, let fresh := alloc_ints new_capacity in
      Arr new_capacity (_size a)
        (take (length fresh) (_data a) ++ drop (length (_data a)) fresh))
  else throw BadAlloc.

Definition darray_add (ok : bool) (val : Z) : prog DArray unit :=
  a ← get;
  _ ← (if _size a =? _capacity a then darray_resize ok (wrap64 (_capacity a * 2)) else mret ());
  a ← get;
  if _size a <? Z.of_nat (length (_data a))
  then put (Arr (_capacity a) (wrap64 (_size a + 1)) (<[Z.to_nat (_size a) := Some val]> (_data a)))
  else lift Undef.

Definition darray_get (idx : Z) (a : DArray) : outcome (option Z) :=
  if _size a <=? idx then Throw OutOfRange
  else deref (_data a !! Z.to_nat idx).

Definition darray_size (a : DArray) : Z := _size a.
Definition darray_capacity (a : DArray) : Z := _capacity a.

(** A history of [add] calls, with the answers of realloc; [bad_alloc] is caught by
    the caller. *)
Definition darray_adds (vs : list (Z * bool)) (a : DArray) : list (outcome unit) * DArray :=
  foldl (λ '(rs, a) '(v, ok), let '(r, a') := darray_add ok v a in (rs ++ [r], a')) ([], a) vs.

(** The values whose [add] did not throw. *)
Fixpoint kept_values (n cap : Z) (vs : list (Z * bool)) : list Z :=
  match vs with
  | [] => []
  | (v, ok) :: vs' =>
      if n =? cap then
        if ok then v :: kept_values (n + 1) (cap * 2) vs' else kept_values n cap vs'
      else v :: kept_values (n + 1) cap vs'
  end.

(** The array holds [l]. *)
Definition darray_holds (a : DArray) (l : list Z) : Prop :=
  _size a = Z.of_nat (length l) ∧ 2 <= _capacity a ∧ _size a <= _capacity a ∧
  _capacity a <= Z.max 2 (2 * _size a) ∧
  Z.of_nat (length (_data a)) = _capacity a ∧ take (length l) (_data a) = Some <$> l.

Lemma alloc_ints_length n : 0 <= n < 2 ^ 62 → Z.of_nat (length (alloc_ints n)) = n.
Proof.
  intros Hn. unfold alloc_ints, sizeof_int. rewrite length_replicate, wrap64_small by lia.
  rewrite Z.div_mul by lia. lia.
Qed.

Lemma take_insert_snoc {A} (l : list A) i x :
  (i < length l)%nat → take (S i) (<[i := x]> l) = take i l ++ [x].
Proof.
  intros Hi. rewrite (take_S_r _ _ x) by (by apply list_lookup_insert_eq).
  by rewrite take_insert_ge by lia.
Qed.

Lemma darray_add_ok ok v a l :
  darray_holds a l → Z.of_nat (length l) < 2 ^ 60 →
  if (_size a =? _capacity a) && negb ok then darray_add ok v a = (Throw BadAlloc, a)
  else ∃ a', darray_add ok v a = (Ret (), a') ∧ darray_holds a' (l ++ [v]) ∧
    _capacity a' = if _size a =? _capacity a then _capacity a * 2 else _capacity a.
Proof.
  intros (Hs & Hc & Hle & Hmax & Hlen & Hdata) Hb. unfold darray_add. run_prog.
  destruct (Z.eqb_spec (_size a) (_capacity a)) as [Heq|Hne]; cbn [andb].
  - destruct ok; cbn [negb]; [|done]. unfold darray_resize. run_prog.
    rewrite wrap64_small by lia. set (fresh := alloc_ints (_capacity a * 2)).
    assert (Z.of_nat (length fresh) = _capacity a * 2) as Hf by (apply alloc_ints_length; lia).
    cbn [_size _data _capacity]. rewrite take_ge by lia.
    set (data := _data a ++ drop (length (_data a)) fresh).
    assert (Z.of_nat (length data) = _capacity a * 2) as Hd
      by (unfold data; rewrite length_app, length_drop; lia).
    destruct (Z.ltb_spec (_size a) (Z.of_nat (length data))); [|lia].
    rewrite wrap64_small by lia. eexists. split; [done|]. split; [|done].
    unfold darray_holds. cbn [_size _data _capacity].
    rewrite length_insert, length_app, fmap_app. cbn [length]. split_and!; try lia.
    replace (length l + 1)%nat with (S (length l)) by lia.
    rewrite Hs, Nat2Z.id, take_insert_snoc by lia. f_equal.
    unfold data. by rewrite take_app_le by lia.
  - run_prog. destruct (Z.ltb_spec (_size a) (Z.of_nat (length (_data a)))); [|lia].
    rewrite wrap64_small by lia. eexists. split; [done|]. split; [|done].
    unfold darray_holds. cbn [_size _data _capacity].
    rewrite length_insert, length_app, fmap_app. cbn [length]. split_and!; try lia.
    replace (length l + 1)%nat with (S (length l)) by lia.
    rewrite Hs, Nat2Z.id, take_insert_snoc by lia. by f_equal.
Qed.

Lemma kept_length n cap vs : (length (kept_values n cap vs) <= length vs)%nat.
Proof.
  revert n cap. induction vs as [|[v ok] vs IH]; intros n cap; simpl; [lia|].
  specialize (IH (n + 1) cap) as H1. specialize (IH (n + 1) (cap * 2)) as H2.
  specialize (IH n cap) as H3. destruct (n =? cap), ok; simpl; lia.
Qed.

(** The array is a list: after any history of [add] calls, whichever reallocations
    fail, it holds exactly the values whose call did not throw; [get] answers each
    of them by index and throws from the size on, a failed [add] throws [bad_alloc]
    and changes nothing, and the capacity stays within twice the size. *)
Theorem darray_is_list vs a :
  DArray_ctor true = Ret a → Z.of_nat (length vs) < 2 ^ 60 →
  ∃ rs a', darray_adds vs a = (rs, a') ∧ Forall (λ r, r = Ret () ∨ r = Throw BadAlloc) rs ∧
    let l := kept_values 0 2 vs in
    darray_size a' = Z.of_nat (length l) ∧ darray_capacity a' <= Z.max 2 (2 * darray_size a') ∧
    (∀ i, darray_get (Z.of_nat i) a' =
      match l !! i with Some v => Ret (Some v) | None => Throw OutOfRange end).
Proof.
  intros [= <-] Hb. unfold darray_adds.
  assert (∀ rs a l, darray_holds a l → Z.of_nat (length l + length vs) < 2 ^ 60 →
    Forall (λ r, r = Ret () ∨ r = Throw BadAlloc) rs →
    ∃ rs' a', foldl (λ '(rs, a) '(v, ok), let '(r, a') := darray_add ok v a in (rs ++ [r], a')) (rs, a) vs = (rs', a') ∧
      Forall (λ r, r = Ret () ∨ r = Throw BadAlloc) rs' ∧
      darray_holds a' (l ++ kept_values (_size a) (_capacity a) vs)) as Hall.
  { clear Hb. induction vs as [|[v ok] vs IH]; intros rs a l Ha Hb Hrs; cbn [foldl kept_values].
    - exists rs, a. by rewrite app_nil_r.
    - simpl in Hb. pose proof (darray_add_ok ok v a l Ha ltac:(lia)) as Hadd.
      destruct ((_size a =? _capacity a) && negb ok) eqn:E.
      + rewrite Hadd. apply andb_true_iff in E as [-> Hok]. destruct ok; [done|].
        apply (IH _ a l Ha ltac:(lia)). apply Forall_app. split; [done|]. by apply Forall_singleton; right.
      + destruct Hadd as (a1 & -> & Ha1 & Hc1).
        destruct (IH (rs ++ [Ret ()]) a1 (l ++ [v]) Ha1) as (rs' & a' & Hf & ? & Ha').
        { rewrite length_app. simpl. lia. }
        { apply Forall_app. split; [done|]. by apply Forall_singleton; left. }
        exists rs', a'. split; [done|]. split; [done|]. rewrite Hc1 in Ha'.
        assert (_size a1 = _size a + 1) as Hs1
          by (destruct Ha as [-> _], Ha1 as [-> _]; rewrite length_app; simpl; lia).
        rewrite Hs1, <-app_assoc in Ha'.
        destruct (_size a =? _capacity a), ok; try done. }
  destruct (Hall [] (Arr 2 0 (alloc_ints 2)) []) as (rs & a' & -> & Hrs & Ha');
    [by repeat split|simpl; lia|done|].
  exists rs, a'. split; [done|]. split; [done|]. cbn [_size _capacity app] in Ha'.
  destruct Ha' as (Hs & Hc & Hle & Hmax & Hlen & Hdata). split_and!; [done|done|].
  intros i. unfold darray_get. destruct (Z.leb_spec (_size a') (Z.of_nat i)) as [Hi|Hi].
  - rewrite lookup_ge_None_2; [done|lia].
  - destruct (lookup_lt_is_Some_2 (kept_values 0 2 vs) i) as [v Hv]; [lia|]. rewrite Hv, Nat2Z.id.
    assert (_data a' !! i = Some (Some v)) as ->; [|done].
    rewrite <-(lookup_take_lt _ (length (kept_values 0 2 vs))) by lia.
    by rewrite Hdata, list_lookup_fmap, Hv.
Qed.

Lemma darray_is_list_witness :
  let vs := [(10, true); (20, true); (30, false); (40, true)] in
  ∃ rs a', darray_adds vs (Arr 2 0 (alloc_ints 2)) = (rs, a') ∧
    Forall (λ r, r = Ret () ∨ r = Throw BadAlloc) rs ∧
    let l := kept_values 0 2 vs in
    darray_size a' = Z.of_nat (length l) ∧ darray_capacity a' <= Z.max 2 (2 * darray_size a') ∧
    (∀ i, darray_get (Z.of_nat i) a' =
      match l !! i with Some v => Ret (Some v) | None => Throw OutOfRange end).
Proof. intros vs. by apply (darray_is_list vs). Defined.

(** ** MemPool *)

(** The block starts at [_pool]; the top of the stack is the head. *)
Record MemPool := Pool { _obj_size : Z; _total_size : Z; _pool : Z; _free_stk : list Z }.

(** [pool] is malloc's answer to [obj_size * total_size]. *)
Definition MemPool_ctor (obj_size total_size : Z) (pool : option Z) : outcome MemPool :=
  match pool with
  | None => Throw BadAlloc
  | Some p =>
      Ret (Pool obj_size total_size p
             (rev ((λ i, p + wrap64 (i * obj_size)) <$> seqZ 0 total_size)))
  end.

Definition allocate : prog MemPool (option Z) :=
  m ← get;
  match _free_stk m with
  | [] => mret None
  | p :: stk => _ ← put (Pool (_obj_size m) (_total_size m) (_pool m) stk); mret (Some p)
  end.
Definition deallocate (ptr : Z) : prog MemPool unit :=
  modify (λ m, Pool (_obj_size m) (_total_size m) (_pool m) (ptr :: _free_stk m)).

(** The client's calls and the slots it holds; it gives back what it holds. *)
Inductive pool_call := Allocate | Deallocate (i : nat).
Definition pool_step (m : MemPool) (live : list Z) (c : pool_call) : MemPool * list Z :=
  match c with
  | Allocate =>
      match allocate m with
      | (Ret (Some p), m') => (m', live ++ [p])
      | (_, m') => (m', live)
      end
  | Deallocate i =>
      match live !! i with
      | Some p => ((deallocate p m).2, delete i live)
      | None => (m, live)
      end
  end.
Definition pool_run (m : MemPool) (cs : list pool_call) : MemPool * list Z :=
  foldl (λ '(m, live) c, pool_step m live c) (m, []) cs.

Definition slots (obj_size total_size p : Z) : list Z :=
  (λ i, p + i * obj_size) <$> seqZ 0 total_size.

Lemma slots_NoDup obj_size total_size p : 0 < obj_size → NoDup (slots obj_size total_size p).
Proof. intros Ho. apply NoDup_fmap_2; [intros i j Hij; nia|apply NoDup_seqZ]. Qed.

(** The pool hands out each slot to one owner: along every history in which the
    client returns only what it holds, the slots it holds together with the free
    ones are exactly the slots of the block, each once, and [allocate] answers
    [nullptr] only when all slots are held. *)
Theorem pool_slots_owned_once obj_size total_size p m cs :
  0 < obj_size → 0 <= total_size → obj_size * total_size < 2 ^ 64 →
  MemPool_ctor obj_size total_size (Some p) = Ret m →
  let '(m', live) := pool_run m cs in
  live ++ _free_stk m' ≡ₚ slots obj_size total_size p ∧ NoDup (live ++ _free_stk m') ∧
  ((allocate m').1 = Ret None ↔ Z.of_nat (length live) = total_size).
Proof.
  intros Ho Ht Hsz [= <-]. unfold pool_run.
  assert (∀ m live, live ++ _free_stk m ≡ₚ slots obj_size total_size p →
    let '(m', live') := foldl (λ '(m, live) c, pool_step m live c) (m, live) cs in
    live' ++ _free_stk m' ≡ₚ slots obj_size total_size p) as Hall.
  { induction cs as [|c cs IH]; intros m live Hm; cbn [foldl]; [done|].
    destruct (pool_step m live c) as [m1 live1] eqn:E. apply IH. rewrite <-Hm. destruct c as [|i].
    - unfold pool_step, allocate in E. run_prog in E.
      destruct (_free_stk m) as [|q stk] eqn:Hstk; injection E as <- <-; cbn; [by rewrite Hstk|].
      by rewrite <-app_assoc.
    - unfold pool_step in E. destruct (live !! i) as [q|] eqn:Hi; injection E as <- <-; [|done].
      cbn. rewrite delete_take_drop.
      transitivity ((take i live ++ q :: drop (S i) live) ++ _free_stk m);
        [solve_Permutation|by rewrite take_drop_middle]. }
  specialize (Hall (Pool obj_size total_size p (rev ((λ i, p + wrap64 (i * obj_size)) <$> seqZ 0 total_size))) []).
  assert (((λ i, p + wrap64 (i * obj_size)) <$> seqZ 0 total_size) = slots obj_size total_size p) as Hsl.
  { apply list_fmap_ext. intros k i Hk. apply list_elem_of_lookup_2, elem_of_seqZ in Hk.
    rewrite wrap64_small; [done|nia]. }
  cbn [_free_stk app] in Hall. rewrite Hsl in *. specialize (Hall ltac:(by rewrite <-Permutation_rev)).
  destruct (foldl _ _ cs) as [m' live]. split_and!; [done| |].
  - rewrite Hall. by apply slots_NoDup.
  - apply Permutation_length in Hall. unfold slots in Hall.
    rewrite length_app, length_fmap, length_seqZ in Hall. unfold allocate. run_prog.
    destruct (_free_stk m') as [|q stk]; cbn in *; (split; [intros E|intros E; try done]); lia || done.
Qed.

Lemma pool_slots_owned_once_witness :
  let '(m', live) := pool_run (Pool 40 3 4096 [4176; 4136; 4096])
    [Allocate; Allocate; Deallocate 0; Allocate] in
  live ++ _free_stk m' ≡ₚ slots 40 3 4096 ∧ NoDup (live ++ _free_stk m') ∧
  ((allocate m').1 = Ret None ↔ Z.of_nat (length live) = 3).
Proof.
  exact (pool_slots_owned_once 40 3 4096 (Pool 40 3 4096 [4176; 4136; 4096])
    [Allocate; Allocate; Deallocate 0; Allocate]
    ltac:(lia) ltac:(lia) ltac:(lia) ltac:(vm_compute; reflexivity)).
Defined.

(** The pool does not check what it gets back: a slot returned twice is handed out
    to two owners. *)
Theorem double_deallocate_shares obj_size total_size p m q m1 :
  MemPool_ctor obj_size total_size (Some p) = Ret m → allocate m = (Ret (Some q), m1) →
  let m2 := (deallocate q (deallocate q m1).2).2 in
  (allocate m2).1 = Ret (Some q) ∧ (allocate (allocate m2).2).1 = Ret (Some q).
Proof. done. Qed.

Lemma double_deallocate_shares_witness :
  let m2 := (deallocate 4176 (deallocate 4176 (Pool 40 3 4096 [4136; 4096])).2).2 in
  (allocate m2).1 = Ret (Some 4176) ∧ (allocate (allocate m2).2).1 = Ret (Some 4176).
Proof.
  apply (double_deallocate_shares 40 3 4096 (Pool 40 3 4096 [4176; 4136; 4096]) 4176
    (Pool 40 3 4096 [4136; 4096])); vm_compute; reflexivity.
Defined.
