(* ===== verification/LogSinks.v ===== *)
(** * Messages and sinks of the asynchronous logger

    The sequential parts of task/asynchronous_log_sys_demo/logger.h (and of its first
    version logger_v0.h): how a message is built from a format with placeholders,
    and how the sinks write it, above all the file that rotates by size and by date.
    The clock and the results of opening a file are inputs ([fenv]); the file system
    is a map from names to contents. *)

From stdpp Require Import base gmap list strings sorting.
From Stdlib Require Import ZArith Lia Ascii.
From S2P Require Import Prelude CxxString.

Local Open Scope Z_scope.

(** ** Messages *)

Inductive log_level := INFO | DEBUG | WARN | ERROR | OTHER_LEVEL (n : Z).

Definition level_to_str (level : log_level) : bytes :=
  match level with
  | INFO => lit "[INFO]   "
  | DEBUG => lit "[DEBUG]  "
  | WARN => lit "[WARN]   "
  | ERROR => lit "[ERROR]  "
  | OTHER_LEVEL _ => lit "[UNKNOWN] "
  end.

(** The [switch] of the first version has no default. *)
Definition level_to_str_v0 (level : log_level) : bytes :=
  match level with
  | INFO => lit "[INFO]  "
  | DEBUG => lit "[DEBUG] "
  | WARN => lit "[WARN]  "
  | ERROR => lit "[ERROR] "
  | OTHER_LEVEL _ => []
  end.

Definition hole : bytes := lit "{}".

(** The first loop of [format_msg]: [oss], [arg_idx] and [pos] when it ends. *)
Fixpoint fill_loop (fuel : nat) (format : bytes) (arg_strs : list bytes)
    (oss : bytes) (arg_idx pos placeholder : Z) : outcome (bytes * Z * Z) :=
  if placeholder =? npos then Ret (oss, arg_idx, pos)
  else
    match fuel with
    | O => Undef
    | S fuel =>
        piece ← substr format pos (placeholder - pos);
        let oss := oss ++ piece in
        '(oss, arg_idx) ←
          (if arg_idx <? Z.of_nat (length arg_strs)
           then a ← deref (arg_strs !! Z.to_nat arg_idx); Ret (oss ++ a, arg_idx + 1)
           else Ret (oss ++ hole, arg_idx));
        let pos := placeholder + 2 in
        fill_loop fuel format arg_strs oss arg_idx pos (find_str format hole pos)
    end.

(** The second loop, over the arguments that are left. *)
Fixpoint append_loop (fuel : nat) (arg_strs : list bytes) (oss : bytes) (arg_idx : Z) :
    outcome bytes :=
  if arg_idx <? Z.of_nat (length arg_strs) then
    match fuel with
    | O => Undef
    | S fuel =>
        a ← deref (arg_strs !! Z.to_nat arg_idx);
        append_loop fuel arg_strs (oss ++ a) (arg_idx + 1)
    end
  else Ret oss.

Definition format_msg (time format : bytes) (arg_strs : list bytes) : outcome bytes :=
  '(oss, arg_idx, pos) ←
    fill_loop (length format) format arg_strs [] 0 0 (find_str format hole 0);
  rest ← substr format pos npos;
  oss ← append_loop (length arg_strs) arg_strs (oss ++ rest) arg_idx;
  Ret (lit "[" ++ time ++ lit "] " ++ oss).

(** The string that [logger::log] hands to the queue. *)
Definition log_string (level : log_level) (time format : bytes) (args : list bytes) :
    outcome bytes :=
  s ← format_msg time format args; Ret (level_to_str level ++ s).
Definition log_string_v0 (level : log_level) (time format : bytes) (args : list bytes) :
    outcome bytes :=
  s ← format_msg time format args; Ret (level_to_str_v0 level ++ s).

(** ** The rotating file *)

(** The file system, and one call's view of the outside: the date, whether [open]
    succeeds and whether [tellp] does. *)
Abbreviation files := (gmap bytes bytes).
Record fenv := FEnv { today : bytes; open_ok : bool; tell_ok : bool }.

Record rotating_file_sink := FSink {
  base_name : bytes; ext : bytes; ofs : option bytes; max_byte : Z; curr_size : Z;
  rotate_by_date : bool; curr_date : bytes; file_idx : Z }.

Definition set_ofs (f : rotating_file_sink) (o : option bytes) :=
  FSink (base_name f) (ext f) o (max_byte f) (curr_size f) (rotate_by_date f)
    (curr_date f) (file_idx f).
Definition set_size (f : rotating_file_sink) (n : Z) :=
  FSink (base_name f) (ext f) (ofs f) (max_byte f) n (rotate_by_date f)
    (curr_date f) (file_idx f).
Definition set_name (f : rotating_file_sink) (d : bytes) (i : Z) :=
  FSink (base_name f) (ext f) (ofs f) (max_byte f) (curr_size f) (rotate_by_date f) d i.

Definition file_name (base date : bytes) (idx : Z) (ext : bytes) : bytes :=
  base ++ lit "_" ++ date ++ lit "_" ++ show_nat idx ++ ext.
Definition make_file_name (f : rotating_file_sink) : bytes :=
  file_name (base_name f) (curr_date f) (file_idx f) (ext f).

Abbreviation sink_prog := (prog (rotating_file_sink * files)).

(** [open_file]: opening for appending creates the file when it is not there. *)
Definition open_file (e : fenv) : sink_prog unit :=
  '(f, fs) ← get;
  let f := set_ofs f None in
  let filename := make_file_name f in
  if open_ok e then
    let content := default [] (fs !! filename) in
    let pos := if tell_ok e then size content else 0 in
    put (set_size (set_ofs f (Some filename)) pos, <[filename := content]> fs)
  else
    put (f, fs);; throw (RuntimeError (lit "Failed to open log files: " ++ filename)).

Definition rotate_if_need (e : fenv) (next_writ_size : Z) : sink_prog unit :=
  '(f, fs) ← get;
  if rotate_by_date f && negb (str_eqb (today e) (curr_date f)) then
    put (set_name f (today e) 0, fs);; open_file e
  else if (0 <? max_byte f) && (max_byte f <? wrap64 (curr_size f + next_writ_size)) then
    put (set_name f (curr_date f) (wrap64 (file_idx f + 1)), fs);; open_file e
  else mret ().

(** [_ofs << line] on a closed stream writes nothing. *)
Definition append (o : option bytes) (line : bytes) (fs : files) : files :=
  match o with
  | Some n => <[n := default [] (fs !! n) ++ line]> fs
  | None => fs
  end.

Definition file_write (e : fenv) (msg : bytes) : sink_prog unit :=
  let line := msg ++ [newline] in
  rotate_if_need e (size line);;
  '(f, fs) ← get;
  put (set_size f (wrap64 (curr_size f + size line)), append (ofs f) line fs).

(** The constructor: on an exception there is no object. *)
Definition new_file_sink (e : fenv) (base : bytes) (max : Z) (by_date : bool) (ext : bytes) :
    prog files rotating_file_sink := λ fs,
  match open_file e (FSink base ext None max 0 by_date (today e) 0, fs) with
  | (Ret (), (f, fs')) => (Ret f, fs')
  | (Throw x, (_, fs')) => (Throw x, fs')
  | (Undef, (_, fs')) => (Undef, fs')
  end.

(** A sequence of writes; it stops at the first exception. *)
Fixpoint file_writes (l : list (fenv * bytes)) : sink_prog unit :=
  match l with
  | [] => mret ()
  | (e, msg) :: l => file_write e msg;; file_writes l
  end.

(** ** Messages: the loops compute a one-pass substitution *)

(** Each placeholder takes the next argument, or stays when there is none; the
    second component is the arguments not used. *)
Fixpoint fill (f : bytes) (args : list bytes) : bytes * list bytes :=
  match f with
  | [] => ([], args)
  | c :: f1 =>
      match f1 with
      | c2 :: f2 =>
          if Ascii.eqb "{" c && Ascii.eqb "}" c2 then
            match args with
            | a :: args => let '(o, r) := fill f2 args in (a ++ o, r)
            | [] => let '(o, r) := fill f2 [] in (hole ++ o, r)
            end
          else let '(o, r) := fill f1 args in (c :: o, r)
      | [] => ([c], args)
      end
  end.

Definition fill_all (f : bytes) (args : list bytes) : bytes :=
  let '(o, r) := fill f args in o ++ mjoin r.

Lemma starts_with_hole c c2 f :
  starts_with hole (c :: c2 :: f) = Ascii.eqb "{" c && Ascii.eqb "}" c2.
Proof. simpl. by rewrite andb_true_r. Qed.

Lemma find_sub_cons2 c c2 f :
  find_sub hole (c :: c2 :: f) =
    if Ascii.eqb "{" c && Ascii.eqb "}" c2 then Some 0%nat else S <$> find_sub hole (c2 :: f).
Proof. rewrite <-(starts_with_hole _ _ f). reflexivity. Qed.

Lemma fill_cons2 c c2 f args :
  fill (c :: c2 :: f) args =
    if Ascii.eqb "{" c && Ascii.eqb "}" c2 then
      match args with
      | a :: args => let '(o, r) := fill f args in (a ++ o, r)
      | [] => let '(o, r) := fill f [] in (hole ++ o, r)
      end
    else let '(o, r) := fill (c2 :: f) args in (c :: o, r).
Proof. reflexivity. Qed.

Lemma find_hole_None f args : find_sub hole f = None → fill f args = (f, args).
Proof.
  revert args. induction f as [|c f1 IH]; intros args; [done|]. destruct f1 as [|c2 f]; [done|].
  rewrite find_sub_cons2, fill_cons2. destruct (_ && _); [done|].
  intros Hf%fmap_None. by rewrite IH.
Qed.

Lemma find_hole_Some f i :
  find_sub hole f = Some i →
  ∃ w f', f = w ++ hole ++ f' ∧ length w = i ∧
    ∀ args, fill f args =
      match args with
      | a :: args => let '(o, r) := fill f' args in (w ++ a ++ o, r)
      | [] => let '(o, r) := fill f' [] in (w ++ hole ++ o, r)
      end.
Proof.
  revert i. induction f as [|c f1 IH]; intros i; [done|]. destruct f1 as [|c2 f].
  - simpl. by rewrite andb_false_r.
  - rewrite find_sub_cons2. setoid_rewrite fill_cons2. destruct (_ && _) eqn:E.
    + intros [= <-]. apply andb_true_iff in E as [<-%Ascii.eqb_eq <-%Ascii.eqb_eq].
      by exists [], f.
    + intros (j & Ej & ->)%fmap_Some. destruct (IH j Ej) as (w & f' & Hw & Hl & Hfill).
      exists (c :: w), f'. split; [by rewrite Hw|]. split; [simpl; congruence|].
      intros args. rewrite Hfill. destruct args as [|a l];
        [by destruct (fill f' []) | by destruct (fill f' l)].
Qed.

Lemma find_hole_app pre f :
  find_str (pre ++ f) hole (size pre) =
    match find_sub hole f with Some i => size pre + Z.of_nat i | None => npos end.
Proof.
  unfold find_str, size. rewrite length_app. ztest; [lia|].
  by rewrite Nat2Z.id, drop_app_length.
Qed.

Lemma fill_loop_spec args fuel pre f oss k :
  (length f <= fuel)%nat → size (pre ++ f) < npos → (k <= length args)%nat →
  ∃ o j pre' t,
    fill_loop fuel (pre ++ f) args oss (Z.of_nat k) (size pre)
      (find_str (pre ++ f) hole (size pre)) = Ret (oss ++ o, Z.of_nat j, size pre') ∧
    pre ++ f = pre' ++ t ∧ fill f (drop k args) = (o ++ t, drop j args) ∧
    (j <= length args)%nat.
Proof.
  revert pre f oss k. induction fuel as [|fuel IH]; intros pre f oss k Hf Hn Hk;
    rewrite find_hole_app.
  - destruct f; [|simpl in Hf; lia]. exists [], k, pre, []. by rewrite !app_nil_r.
  - destruct (find_sub hole f) as [i|] eqn:Ei; cbn [fill_loop].
    2: { rewrite Z.eqb_refl. exists [], k, pre, f. rewrite app_nil_r.
         by rewrite find_hole_None. }
    destruct (find_hole_Some _ _ Ei) as (w & f' & -> & <- & Hfill).
    unfold size in Hn. rewrite !length_app in Hn, Hf. simpl in Hn, Hf.
    destruct (Z.eqb_spec (size pre + Z.of_nat (length w)) npos) as [E|_].
    { unfold size in E. lia. }
    replace (size pre + Z.of_nat (length w) - size pre) with (size w) by (unfold size; lia).
    rewrite substr_app. cbn [mbind outcome_bind].
    replace (size pre + Z.of_nat (length w) + 2) with (size (pre ++ w ++ hole))
      by (unfold size; rewrite !length_app; simpl; lia).
    replace (pre ++ w ++ hole ++ f') with ((pre ++ w ++ hole) ++ f') by by rewrite <-!app_assoc.
    assert (Hn' : size ((pre ++ w ++ hole) ++ f') < npos)
      by (unfold size; rewrite !length_app; simpl; lia).
    destruct (Z.ltb_spec (Z.of_nat k) (Z.of_nat (length args))) as [Hlt|Hge].
    + rewrite Nat2Z.id. destruct (lookup_lt_is_Some_2 args k) as [a Ha]; [lia|].
      rewrite Ha. cbn [mbind outcome_bind deref].
      replace (Z.of_nat k + 1) with (Z.of_nat (S k)) by lia.
      destruct (IH (pre ++ w ++ hole) f' ((oss ++ w) ++ a) (S k))
        as (o & j & pre' & t & Hl & Ht & Ho & Hj); [lia|done|lia|].
      exists (w ++ a ++ o), j, pre', t. rewrite Hl, <-!app_assoc. split; [done|].
      split; [by rewrite <-Ht, <-!app_assoc|]. split; [|done].
      by rewrite Hfill, (drop_S args a k Ha), Ho.
    + assert (k = length args) as -> by lia.
      destruct (IH (pre ++ w ++ hole) f' ((oss ++ w) ++ hole) (length args))
        as (o & j & pre' & t & Hl & Ht & Ho & Hj); [lia|done|lia|].
      exists (w ++ hole ++ o), j, pre', t. cbn [mbind outcome_bind].
      rewrite Hl, <-!app_assoc. split; [done|].
      split; [by rewrite <-Ht, <-!app_assoc|]. split; [|done].
      rewrite Hfill, drop_all in *. by rewrite Ho.
Qed.

Lemma append_loop_spec fuel args oss k :
  (length args - k <= fuel)%nat → (k <= length args)%nat →
  append_loop fuel args oss (Z.of_nat k) = Ret (oss ++ mjoin (drop k args)).
Proof.
  revert oss k. induction fuel as [|fuel IH]; intros oss k Hf Hk; cbn [append_loop]; ztest.
  - lia.
  - rewrite drop_ge by lia. by rewrite app_nil_r.
  - rewrite Nat2Z.id. destruct (lookup_lt_is_Some_2 args k) as [a Ha]; [lia|].
    rewrite Ha. cbn [mbind outcome_bind deref].
    replace (Z.of_nat k + 1) with (Z.of_nat (S k)) by lia.
    rewrite IH by lia. rewrite (drop_S args a k Ha). cbn [mjoin list_join].
    by rewrite app_assoc.
  - rewrite drop_ge by lia. by rewrite app_nil_r.
Qed.

(** [format_msg] terminates without running past the format or the arguments,
    and its positions, substrings and index compute the one-pass substitution:
    placeholder number i becomes argument number i, a placeholder without an
    argument is kept, and arguments without a placeholder are appended. *)
Theorem format_msg_exact time format args :
  size format < npos →
  format_msg time format args = Ret (lit "[" ++ time ++ lit "] " ++ fill_all format args).
Proof.
  intros Hn. unfold format_msg.
  destruct (fill_loop_spec args (length format) [] format [] 0)
    as (o & j & pre & t & Hl & Ht & Ho & Hj); [done|done|lia|].
  change (size []) with 0 in Hl. change (Z.of_nat 0) with 0 in Hl. cbn [app] in Hl, Ht.
  rewrite Hl. cbn [mbind outcome_bind]. rewrite Ht.
  rewrite substr_tail by (rewrite Ht in Hn; unfold size in *; rewrite length_app in Hn; lia).
  cbn [mbind outcome_bind]. rewrite append_loop_spec by lia. cbn [mbind outcome_bind].
  unfold fill_all. rewrite drop_0 in Ho. rewrite <-Ht, Ho, <-app_assoc. done.
Qed.

Lemma format_msg_exact_witness :
  format_msg (lit "t") (lit "User {} did {} in {} s")
    [lit "10"; lit "login"] = Ret (lit "[t] User 10 did login in {} s") ∧
  format_msg (lit "t") (lit "Multiple placeholder: {}") [lit "1"; lit "2"; lit "3"] =
    Ret (lit "[t] Multiple placeholder: 123").
Proof.
  split.
  - rewrite (format_msg_exact (lit "t") (lit "User {} did {} in {} s")) by (vm_compute; done).
    vm_compute. reflexivity.
  - rewrite (format_msg_exact (lit "t") (lit "Multiple placeholder: {}")) by (vm_compute; done).
    vm_compute. reflexivity.
Defined.

(** ** The rotating file: names *)

Lemma show_nat_inj i j : 0 <= i → 0 <= j → show_nat i = show_nat j → i = j.
Proof. intros Hi Hj E. by rewrite <-(show_nat_val i), E, show_nat_val. Qed.

Lemma file_name_inj base ext d1 i1 d2 i2 :
  length d1 = length d2 → 0 <= i1 → 0 <= i2 →
  file_name base d1 i1 ext = file_name base d2 i2 ext → d1 = d2 ∧ i1 = i2.
Proof.
  unfold file_name. intros Hd H1 H2 E. apply (inj (app base)), (inj (app (lit "_"))) in E.
  apply app_inj_1 in E as [-> E]; [|done]. split; [done|].
  apply (inj (app (lit "_"))), app_inv_tail in E. by apply show_nat_inj.
Qed.

(** ** The rotating file: what it has written

    A run of the sink opens a sequence of files, each under a later date or with the
    next number of the same date. *)

Record entry := Entry { e_date : bytes; e_idx : Z; e_lines : list bytes }.

Definition entry_lt (a b : entry) : Prop :=
  str_ltb (e_date a) (e_date b) = true ∨ (e_date a = e_date b ∧ e_idx a < e_idx b).

Definition within (max : Z) (e : entry) : Prop :=
  max <= 0 ∨ size (unlines (e_lines e)) <= max ∨ length (e_lines e) = 1%nat.

Definition date_ok (d : bytes) : Prop := length d = 10%nat.

(** No file of the family exists yet. *)
Definition fresh_family (base ext : bytes) (fs : files) : Prop :=
  ∀ d i, date_ok d → 0 <= i → fs !! file_name base d i ext = None.

Lemma sorted_last hist last e :
  StronglySorted entry_lt (hist ++ [last]) → e ∈ hist → entry_lt e last.
Proof.
  intros Hs He. apply StronglySorted_app in Hs as (Hs & _ & _). apply Hs; [done|set_solver].
Qed.

Section rotation.
Context (base sext : bytes) (max : Z) (by_date : bool) (fs0 : files).
Context (Hfresh : fresh_family base sext fs0).

Definition entry_name (e : entry) : bytes := file_name base (e_date e) (e_idx e) sext.

(** The files [hist], then [last], hold the lines written, in order. *)
Record written (hist : list entry) (last : entry) (msgs : list bytes)
    (f : rotating_file_sink) (fs : files) : Prop := {
  w_base : base_name f = base;
  w_ext : ext f = sext;
  w_max : max_byte f = max;
  w_rot : rotate_by_date f = by_date;
  w_ofs : ofs f = Some (entry_name last);
  w_date : curr_date f = e_date last;
  w_idx : file_idx f = e_idx last;
  w_size : curr_size f = size (unlines (e_lines last));
  w_valid : Forall (λ e, date_ok (e_date e) ∧ 0 <= e_idx e) (hist ++ [last]);
  w_order : StronglySorted entry_lt (hist ++ [last]);
  w_content : ∀ e, e ∈ hist ++ [last] → fs !! entry_name e = Some (unlines (e_lines e));
  w_frame : ∀ n, (∀ e, e ∈ hist ++ [last] → n ≠ entry_name e) → fs !! n = fs0 !! n;
  w_within : Forall (λ e, max <= 0 ∨ size (unlines (e_lines e)) <= max ∨
                          (length (e_lines e) <= 1)%nat) (hist ++ [last]);
  w_lines : mjoin (e_lines <$> (hist ++ [last])) = msgs }.

Lemma entry_name_neq a b :
  date_ok (e_date a) ∧ 0 <= e_idx a → date_ok (e_date b) ∧ 0 <= e_idx b →
  entry_lt a b → entry_name a ≠ entry_name b.
Proof.
  unfold date_ok. intros [Ha1 Ha2] [Hb1 Hb2] Hlt E.
  apply file_name_inj in E as [E1 E2]; [|congruence|done|done].
  destruct Hlt as [Hlt|[_ Hlt]]; [|lia]. by rewrite E1, str_ltb_irrefl in Hlt.
Qed.

Lemma str_ltb_trans s t u : str_ltb s t = true → str_ltb t u = true → str_ltb s u = true.
Proof.
  intros H1 H2. destruct (str_ltb s u) eqn:E; [done|].
  pose proof (str_ltb_asym _ _ H2) as H3. by rewrite (str_ltb_neg_trans _ _ _ E H3) in H1.
Qed.

Lemma entry_lt_trans a b c : entry_lt a b → entry_lt b c → entry_lt a c.
Proof.
  intros [H1|[H1 H1']] [H2|[H2 H2']]; unfold entry_lt.
  - left. by eapply str_ltb_trans.
  - left. by rewrite <-H2.
  - left. by rewrite H1.
  - right. split; [congruence|lia].
Qed.

Lemma unlines_app l1 l2 : unlines (l1 ++ l2) = unlines l1 ++ unlines l2.
Proof. unfold unlines. by rewrite fmap_app, join_app. Qed.

Lemma written_unique hist last msgs f fs :
  written hist last msgs f fs → ∀ e, e ∈ hist → entry_name e ≠ entry_name last.
Proof using Type.
  intros W e He. pose proof (w_valid _ _ _ _ _ W) as Hv. apply Forall_app in Hv as [Hv Hl].
  rewrite Forall_singleton in Hl. pose proof (w_order _ _ _ _ _ W) as Ho.
  rewrite Forall_forall in Hv. apply entry_name_neq; [by apply Hv|exact Hl|].
  by eapply sorted_last.
Qed.

(** Opening a later name starts an empty file. *)
Lemma open_file_written hist last msgs f fs env d i :
  written hist last msgs f fs → open_ok env = true → date_ok d → 0 <= i →
  entry_lt last (Entry d i []) →
  ∃ f' fs', open_file env (set_name f d i, fs) = (Ret (), (f', fs')) ∧
    written (hist ++ [last]) (Entry d i []) msgs f' fs'.
Proof using Hfresh.
  intros W Hopen Hd Hi Hlt. set (new := Entry d i []).
  assert (Hbase := w_base _ _ _ _ _ W). assert (Hext := w_ext _ _ _ _ _ W).
  assert (Hnew : ∀ e, e ∈ hist ++ [last] → entry_lt e new).
  { intros e [He|He%list_elem_of_singleton]%elem_of_app; [|by subst].
    eapply entry_lt_trans; [|done]. eapply sorted_last; [|done].
    exact (w_order _ _ _ _ _ W). }
  assert (Hne : ∀ e, e ∈ hist ++ [last] → entry_name e ≠ entry_name new).
  { intros e He. apply entry_name_neq; [|done|by apply Hnew].
    pose proof (w_valid _ _ _ _ _ W) as Hv. rewrite Forall_forall in Hv. by apply Hv. }
  assert (Habs : fs !! entry_name new = None).
  { rewrite (w_frame _ _ _ _ _ W); [by apply Hfresh|].
    intros e He E. by apply (Hne e He). }
  unfold open_file. run_prog. rewrite Hopen.
  assert (Hname : make_file_name (set_ofs (set_name f d i) None) = entry_name new).
  { unfold make_file_name, entry_name. simpl. by rewrite Hbase, Hext. }
  rewrite Hname, Habs. eexists _, _. split; [reflexivity|].
  destruct W. split; simpl; try done.
  - by destruct (tell_ok env).
  - apply Forall_app. split; [done|]. by apply Forall_singleton.
  - apply StronglySorted_app. split; [|split; [done|]]; [|by repeat constructor].
    intros e1 e2 He1 ->%list_elem_of_singleton. by apply Hnew.
  - intros e [He|He%list_elem_of_singleton]%elem_of_app.
    + rewrite lookup_insert_ne by (apply not_eq_sym; by apply Hne). by apply w_content0.
    + subst. by rewrite lookup_insert_eq.
  - intros n Hn. rewrite lookup_insert_ne.
    + apply w_frame0. intros e He. apply Hn. set_solver.
    + apply not_eq_sym, Hn. set_solver.
  - apply Forall_app. split; [done|]. apply Forall_singleton. right. right. simpl. lia.
  - by rewrite fmap_app, join_app, w_lines0, app_nil_r.
Qed.

(** Appending a line to the current file. *)
Lemma append_written hist last msgs f fs msg :
  written hist last msgs f fs →
  size (unlines (msgs ++ [msg])) < 2 ^ 64 →
  max <= 0 ∨ size (unlines (e_lines last ++ [msg])) <= max ∨ e_lines last = [] →
  written hist (Entry (e_date last) (e_idx last) (e_lines last ++ [msg])) (msgs ++ [msg])
    (set_size f (wrap64 (curr_size f + size (msg ++ [newline]))))
    (append (ofs f) (msg ++ [newline]) fs).
Proof using Type.
  clear Hfresh. intros W Hbig Hin. pose proof (written_unique _ _ _ _ _ W) as Hne.
  assert (Hl : unlines (e_lines last ++ [msg]) = unlines (e_lines last) ++ msg ++ [newline]).
  { rewrite unlines_app. unfold unlines at 2. simpl. by rewrite app_nil_r. }
  destruct W. split; simpl; try done.
  - rewrite w_size0, Hl, wrap64_small; [unfold size; rewrite !length_app; lia|].
    rewrite <-w_lines0, fmap_app, join_app in Hbig. simpl in Hbig. rewrite app_nil_r in Hbig.
    rewrite <-app_assoc, unlines_app, Hl in Hbig. unfold size in *.
    rewrite !length_app in *. lia.
  - apply Forall_app in w_valid0 as [??]. apply Forall_app. split; [done|].
    by rewrite Forall_singleton in *.
  - apply StronglySorted_app in w_order0 as (Ho & Hh & _). apply StronglySorted_app.
    split; [|split; [done|by repeat constructor]].
    intros e1 e2 He1 ->%list_elem_of_singleton. apply (Ho e1 last); [done|set_solver].
  - intros e He. rewrite w_ofs0. unfold append.
    assert (Hlast : fs !! entry_name last = Some (unlines (e_lines last)))
      by (apply w_content0; set_solver).
    apply elem_of_app in He as [He|He%list_elem_of_singleton].
    + rewrite lookup_insert_ne by (apply not_eq_sym; by apply Hne).
      apply w_content0. set_solver.
    + subst e. unfold entry_name. simpl. rewrite lookup_insert_eq, Hl.
      unfold entry_name in Hlast. by rewrite Hlast.
  - intros n Hn. rewrite w_ofs0. unfold append. rewrite lookup_insert_ne.
    + apply w_frame0. intros e [He|He%list_elem_of_singleton]%elem_of_app.
      * apply Hn. set_solver.
      * subst e. specialize (Hn (Entry (e_date last) (e_idx last) (e_lines last ++ [msg]))).
        apply Hn. set_solver.
    + apply not_eq_sym.
      apply (Hn (Entry (e_date last) (e_idx last) (e_lines last ++ [msg]))). set_solver.
  - apply Forall_app in w_within0 as [??]. apply Forall_app. split; [done|].
    apply Forall_singleton. simpl. destruct Hin as [Hin|[Hin| ->]]; [by left|by right; left|].
    right. right. simpl. lia.
  - rewrite <-w_lines0, !fmap_app, !join_app. simpl. by rewrite !app_nil_r, app_assoc.
Qed.

(** One write: the outside opens files, and its clock does not go back. *)
Definition env_ok (prev : bytes) (e : fenv) : Prop :=
  open_ok e = true ∧ date_ok (today e) ∧ str_leb prev (today e) = true.

Lemma rotate_written hist last msgs f fs env msg :
  written hist last msgs f fs → env_ok (curr_date f) env →
  e_idx last <= Z.of_nat (length msgs) → size (unlines (msgs ++ [msg])) < 2 ^ 64 →
  ∃ hist' last' f' fs',
    rotate_if_need env (size (msg ++ [newline])) (f, fs) = (Ret (), (f', fs')) ∧
    written hist' last' msgs f' fs' ∧ e_idx last' <= Z.of_nat (length msgs) + 1 ∧
    (max <= 0 ∨ size (unlines (e_lines last' ++ [msg])) <= max ∨ e_lines last' = []) ∧
    curr_date f' = (if by_date then today env else curr_date f).
Proof using Hfresh.
  intros W (Hopen & Hday & Hclock) Hfew Hbig.
  assert (Hlast : date_ok (e_date last) ∧ 0 <= e_idx last).
  { pose proof (w_valid _ _ _ _ _ W) as Hv. rewrite Forall_app, Forall_singleton in Hv.
    apply Hv. }
  unfold rotate_if_need. run_prog. rewrite (w_rot _ _ _ _ _ W), (w_max _ _ _ _ _ W).
  destruct (by_date && negb (str_eqb (today env) (curr_date f))) eqn:Hrot.
  - apply andb_true_iff in Hrot as [-> Hne%negb_true_iff%bool_decide_eq_false].
    destruct (open_file_written _ _ _ _ _ env (today env) 0 W Hopen)
      as (f1 & fs1 & Ho & W1); [done|done| |].
    { left. rewrite <-(w_date _ _ _ _ _ W). simpl. apply negb_true_iff in Hclock.
      destruct (str_ltb (curr_date f) (today env)) eqn:E; [done|].
      by destruct Hne, (str_ltb_total _ _ E Hclock). }
    eexists _, _, _, _. split; [exact Ho|]. split; [exact W1|]. split; [simpl; lia|].
    split; [by right; right|]. by rewrite (w_date _ _ _ _ _ W1).
  - assert (Hdate : curr_date f = if by_date then today env else curr_date f).
    { destruct by_date; [|done]. simpl in Hrot.
      by apply negb_false_iff, bool_decide_eq_true in Hrot. }
    destruct ((0 <? max) && _) eqn:Hsz.
    + assert (Hidx : e_idx last + 1 < 2 ^ 64).
      { pose proof (unlines_length (msgs ++ [msg])) as Hu.
        unfold size in Hbig. rewrite length_app in Hu. simpl in Hu. lia. }
      rewrite (w_idx _ _ _ _ _ W), (wrap64_small (e_idx last + 1)) by lia.
      destruct (open_file_written _ _ _ _ _ env (curr_date f) (e_idx last + 1) W Hopen)
        as (f1 & fs1 & Ho & W1).
      { rewrite (w_date _ _ _ _ _ W). apply Hlast. }
      { lia. }
      { right. split; [by rewrite (w_date _ _ _ _ _ W)|simpl; lia]. }
      eexists _, _, _, _. split; [exact Ho|]. split; [exact W1|]. split; [simpl; lia|].
      split; [by right; right|]. by rewrite <-Hdate, (w_date _ _ _ _ _ W1).
    + eexists _, _, _, _. split; [reflexivity|]. split; [exact W|]. split; [lia|].
      split; [|done].
      assert (Hl : size (unlines (e_lines last ++ [msg])) =
                   size (unlines (e_lines last)) + size (msg ++ [newline])).
      { rewrite unlines_app. unfold unlines at 2, size. simpl.
        rewrite app_nil_r, !length_app. lia. }
      rewrite Hl. rewrite (w_size _ _ _ _ _ W) in Hsz.
      rewrite wrap64_small in Hsz.
      * apply andb_false_iff in Hsz as [Hsz|Hsz]; zbool; [by left|right; left; lia].
      * rewrite <-(w_lines _ _ _ _ _ W), fmap_app, join_app in Hbig. simpl in Hbig.
        rewrite app_nil_r, <-app_assoc, unlines_app in Hbig.
        rewrite <-Hl. unfold size in *. rewrite length_app in Hbig. lia.
Qed.

Lemma file_write_written hist last msgs f fs env msg :
  written hist last msgs f fs → env_ok (curr_date f) env →
  e_idx last <= Z.of_nat (length msgs) → size (unlines (msgs ++ [msg])) < 2 ^ 64 →
  ∃ hist' last' f' fs', file_write env msg (f, fs) = (Ret (), (f', fs')) ∧
    written hist' last' (msgs ++ [msg]) f' fs' ∧
    e_idx last' <= Z.of_nat (length (msgs ++ [msg])) ∧
    curr_date f' = (if by_date then today env else curr_date f).
Proof using Hfresh.
  intros W He Hfew Hbig.
  destruct (rotate_written _ _ _ _ _ _ _ W He Hfew Hbig)
    as (hist' & last' & f' & fs' & Hr & W' & Hfew' & Hin & Hd).
  unfold file_write. run_prog. rewrite Hr. eexists _, _, _, _. split; [reflexivity|].
  split; [by apply append_written|]. split; [|done]. rewrite length_app. simpl. lia.
Qed.

(** The dates of a sequence of writes do not go back from [prev]. *)
Fixpoint clock_ok (prev : bytes) (l : list (fenv * bytes)) : Prop :=
  match l with
  | [] => True
  | (e, _) :: l => env_ok prev e ∧ clock_ok (today e) l
  end.

Lemma str_leb_trans s t u : str_leb s t = true → str_leb t u = true → str_leb s u = true.
Proof using Type.
  unfold str_leb. intros H1%negb_true_iff H2%negb_true_iff. apply negb_true_iff.
  by eapply str_ltb_neg_trans.
Qed.

Lemma clock_ok_weaken prev prev' l :
  str_leb prev' prev = true → clock_ok prev l → clock_ok prev' l.
Proof using Type.
  destruct l as [|[e m] l]; [done|]. intros Hle [(Ho & Hd & Hc) Hl].
  split; [|done]. split; [done|]. split; [done|]. by eapply str_leb_trans.
Qed.

Lemma file_writes_written l hist last msgs f fs :
  written hist last msgs f fs → clock_ok (curr_date f) l →
  e_idx last <= Z.of_nat (length msgs) → size (unlines (msgs ++ l.*2)) < 2 ^ 64 →
  ∃ hist' last' f' fs', file_writes l (f, fs) = (Ret (), (f', fs')) ∧
    written hist' last' (msgs ++ l.*2) f' fs'.
Proof using Hfresh.
  revert hist last msgs f fs. induction l as [|[e m] l IH]; intros hist last msgs f fs W Hc Hfew Hbig.
  - rewrite app_nil_r. by eexists _, _, _, _.
  - destruct Hc as [He Hc]. cbn [fmap list_fmap fst snd] in *.
    rewrite cons_middle, app_assoc in Hbig |- *.
    destruct (file_write_written _ _ _ _ _ e m W He Hfew)
      as (hist1 & last1 & f1 & fs1 & Hw & W1 & Hfew1 & Hd1).
    { rewrite unlines_app in Hbig. unfold size in *. rewrite length_app in Hbig. lia. }
    destruct (IH _ _ _ _ _ W1) as (hist2 & last2 & f2 & fs2 & Hw2 & W2); [|done|done|].
    { rewrite Hd1. destruct by_date; [done|]. eapply clock_ok_weaken; [|done]. apply He. }
    eexists _, _, _, _. split; [|exact W2]. cbn [file_writes]. run_prog. by rewrite Hw.
Qed.

Lemma new_file_sink_written e :
  open_ok e = true → date_ok (today e) →
  ∃ f fs, new_file_sink e base max by_date sext fs0 = (Ret f, fs) ∧
    curr_date f = today e ∧ written [] (Entry (today e) 0 []) [] f fs.
Proof using Hfresh.
  intros Ho Hd. unfold new_file_sink, open_file. run_prog. rewrite Ho.
  assert (Hname : make_file_name (set_ofs (FSink base sext None max 0 by_date (today e) 0) None) =
    entry_name (Entry (today e) 0 [])) by done.
  assert (Habs : fs0 !! entry_name (Entry (today e) 0 []) = None) by by apply Hfresh.
  rewrite Hname, Habs.
  eexists _, _. split; [reflexivity|]. split; [done|]. split; simpl; try done.
  - by destruct (tell_ok e).
  - by apply Forall_singleton.
  - by repeat constructor.
  - intros e' ->%list_elem_of_singleton. by rewrite lookup_insert_eq.
  - intros n Hn. rewrite lookup_insert_ne; [done|]. apply not_eq_sym, Hn. set_solver.
  - apply Forall_singleton. right. right. simpl. lia.
Qed.

(** A new sink, then writes: it does not fail, and what is [written]. *)
Lemma sink_run_written e l :
  open_ok e = true → date_ok (today e) → clock_ok (today e) l →
  size (unlines l.*2) < 2 ^ 64 →
  ∃ f fs f' fs' hist last, new_file_sink e base max by_date sext fs0 = (Ret f, fs) ∧
    file_writes l (f, fs) = (Ret (), (f', fs')) ∧ written hist last l.*2 f' fs'.
Proof using Hfresh.
  intros Ho Hd Hc Hbig. destruct (new_file_sink_written e Ho Hd) as (f & fs & Hn & Hcd & W).
  destruct (file_writes_written l _ _ _ _ _ W) as (hist & last & f' & fs' & Hw & W').
  - by rewrite Hcd.
  - simpl. lia.
  - done.
  - by eexists f, fs, f', fs', hist, last.
Qed.
End rotation.

Lemma sorted_fmap_NoDup {A B} (R : A → A → Prop) (g : A → B) l :
  StronglySorted R l → (∀ x y, x ∈ l → y ∈ l → R x y → g x ≠ g y) → NoDup (g <$> l).
Proof.
  induction 1 as [|x l Hl IH Hx]; intros Hne; simpl; constructor.
  - intros (y & Hy & Hin)%list_elem_of_fmap. rewrite Forall_forall in Hx.
    apply (Hne x y); [set_solver|set_solver|by apply Hx|done].
  - apply IH. intros y z Hy Hz. apply Hne; set_solver.
Qed.

(** The files of the entries have their lines as contents. *)
Definition family_files (base sext : bytes) (es : list entry) (fs : files) : Prop :=
  ∀ e, e ∈ es → fs !! file_name base (e_date e) (e_idx e) sext = Some (unlines (e_lines e)).

(** Starting in a directory without files of the family, on a clock that does not
    go back and opens that succeed, every write succeeds; the sink opens files with
    strictly increasing (date, number) and so with different names, their contents in
    that order are exactly the lines written, in order and once, and no other file of
    the file system changes. *)
Theorem rotation_exact base sext max by_date fs0 e l :
  fresh_family base sext fs0 → open_ok e = true → date_ok (today e) →
  clock_ok (today e) l → size (unlines l.*2) < 2 ^ 64 →
  ∃ f fs f' fs' es,
    new_file_sink e base max by_date sext fs0 = (Ret f, fs) ∧
    file_writes l (f, fs) = (Ret (), (f', fs')) ∧
    StronglySorted entry_lt es ∧ NoDup (entry_name base sext <$> es) ∧
    mjoin (e_lines <$> es) = l.*2 ∧ family_files base sext es fs' ∧
    ∀ n, (∀ e, e ∈ es → n ≠ entry_name base sext e) → fs' !! n = fs0 !! n.
Proof.
  intros Hf Ho Hd Hc Hbig.
  destruct (sink_run_written _ _ max by_date _ Hf e l Ho Hd Hc Hbig)
    as (f & fs & f' & fs' & hist & last & Hn & Hw & W).
  exists f, fs, f', fs', (hist ++ [last]). pose proof (w_valid _ _ _ _ _ _ _ _ _ _ W) as Hv.
  rewrite Forall_forall in Hv. destruct W.
  split; [done|]. split; [done|]. split; [done|]. split; [|done].
  apply (sorted_fmap_NoDup entry_lt); [done|]. intros e1 e2 H1 H2.
  apply entry_name_neq; by apply Hv.
Qed.

(** The environment of the examples: a date, with every call succeeding. *)
Definition on_day (d : string) : fenv := FEnv (lit d) true true.

Lemma rotation_exact_witness :
  ∃ f fs f' fs' es,
    new_file_sink (on_day "2026-06-11") (lit "log") 12 true (lit ".txt") ∅ = (Ret f, fs) ∧
    file_writes [(on_day "2026-06-11", lit "start"); (on_day "2026-06-11", lit "second");
                 (on_day "2026-06-12", lit "third")] (f, fs) = (Ret (), (f', fs')) ∧
    StronglySorted entry_lt es ∧ NoDup (entry_name (lit "log") (lit ".txt") <$> es) ∧
    mjoin (e_lines <$> es) = [lit "start"; lit "second"; lit "third"] ∧
    family_files (lit "log") (lit ".txt") es fs' ∧
    ∀ n, (∀ e, e ∈ es → n ≠ entry_name (lit "log") (lit ".txt") e) → fs' !! n = (∅ : files) !! n.
Proof.
  apply (rotation_exact (lit "log") (lit ".txt") 12 true ∅ (on_day "2026-06-11")
    [(on_day "2026-06-11", lit "start"); (on_day "2026-06-11", lit "second");
     (on_day "2026-06-12", lit "third")]).
  - intros d i _ _. apply lookup_empty.
  - reflexivity.
  - reflexivity.
  - repeat split; vm_compute; reflexivity.
  - vm_compute. reflexivity.
Defined.

(** C35. A sink with a positive limit whose numbered names are all new, whose files can be
    opened, on well-formed days that do not go back and for less than 2^64 bytes in all,
    keeps the limit: every file is as it was before the sink was made, or at most
    [max_byte] bytes long, or a single line that is longer than the limit. *)
Theorem rotation_bounds base sext max by_date fs0 e l :
  fresh_family base sext fs0 → open_ok e = true → date_ok (today e) →
  clock_ok (today e) l → size (unlines l.*2) < 2 ^ 64 → 0 < max →
  ∃ f fs f' fs',
    new_file_sink e base max by_date sext fs0 = (Ret f, fs) ∧
    file_writes l (f, fs) = (Ret (), (f', fs')) ∧
    ∀ n c, fs' !! n = Some c →
      fs0 !! n = Some c ∨ size c <= max ∨ ∃ m, m ∈ l.*2 ∧ c = m ++ [newline].
Proof.
  intros Hf Ho Hd Hc Hbig Hmax.
  destruct (sink_run_written _ _ max by_date _ Hf e l Ho Hd Hc Hbig)
    as (f & fs & f' & fs' & hist & last & Hn & Hw & W).
  exists f, fs, f', fs'. split; [done|]. split; [done|]. intros n c Hnc. destruct W.
  destruct (decide (n ∈ entry_name base sext <$> (hist ++ [last]))) as [Hin|Hout].
  - apply list_elem_of_fmap in Hin as (en & -> & Hin). right.
    rewrite (w_content0 en Hin) in Hnc. injection Hnc as <-.
    rewrite Forall_forall in w_within0.
    destruct (w_within0 en Hin) as [?|[?|Hlen]]; [lia|by left|].
    destruct (e_lines en) as [|m [|??]] eqn:El; [left; unfold size; simpl; lia| |simpl in Hlen; lia].
    right. exists m. split; [|unfold unlines; simpl; by rewrite app_nil_r].
    rewrite <-w_lines0. apply list_elem_of_join. exists [m].
    split; [set_solver|]. rewrite <-El. by apply list_elem_of_fmap_2.
  - left. rewrite <-Hnc. symmetry. apply w_frame0. intros en Hen ->. apply Hout.
    by apply list_elem_of_fmap_2.
Qed.

Lemma rotation_bounds_witness :
  ∃ f fs f' fs',
    new_file_sink (on_day "2026-06-11") (lit "log") 12 true (lit ".txt") ∅ = (Ret f, fs) ∧
    file_writes [(on_day "2026-06-11", lit "start"); (on_day "2026-06-11", lit "second");
                 (on_day "2026-06-11", lit "a line over the limit")] (f, fs) =
      (Ret (), (f', fs')) ∧
    ∀ n c, fs' !! n = Some c →
      (∅ : files) !! n = Some c ∨ size c <= 12 ∨
      ∃ m, m ∈ [lit "start"; lit "second"; lit "a line over the limit"] ∧ c = m ++ [newline].
Proof.
  apply (rotation_bounds (lit "log") (lit ".txt") 12 true ∅ (on_day "2026-06-11")
    [(on_day "2026-06-11", lit "start"); (on_day "2026-06-11", lit "second");
     (on_day "2026-06-11", lit "a line over the limit")]).
  - intros d i _ _. apply lookup_empty.
  - reflexivity.
  - reflexivity.
  - repeat split; vm_compute; reflexivity.
  - vm_compute. reflexivity.
  - reflexivity.
Defined.

(** Rotation by size goes on to the next number once and does not look at what it
    finds there: when that file exists, the line is appended to it whatever its size. *)
Theorem reopened_file_overfills e f fs msg old :
  let name := file_name (base_name f) (curr_date f) (file_idx f + 1) (ext f) in
  (rotate_by_date f && negb (str_eqb (today e) (curr_date f))) = false →
  open_ok e = true → 0 < max_byte f < curr_size f + size (msg ++ [newline]) →
  0 <= file_idx f < 2 ^ 64 - 1 → curr_size f + size (msg ++ [newline]) < 2 ^ 64 →
  fs !! name = Some old →
  ∃ f' fs', file_write e msg (f, fs) = (Ret (), (f', fs')) ∧
    fs' !! name = Some (old ++ msg ++ [newline]).
Proof.
  intros name Hday Ho Hmax Hidx Hsize Hold. unfold file_write, rotate_if_need, open_file. run_prog.
  rewrite Hday, Ho, !wrap64_small by (unfold size in *; lia).
  destruct (Z.ltb_spec 0 (max_byte f)); [|lia].
  destruct (Z.ltb_spec (max_byte f) (curr_size f + size (msg ++ [newline]))); [|lia]. simpl.
  eexists _, _. split; [reflexivity|].
  change (make_file_name _) with name. by rewrite Hold, lookup_insert_eq, lookup_insert_eq.
Qed.

Lemma reopened_file_overfills_witness :
  let full := lit "0123456789" in
  let fs : files := <[file_name (lit "log") (lit "2026-06-11") 1 (lit ".txt") := full]> ∅ in
  let f := FSink (lit "log") (lit ".txt") None 10 10 true (lit "2026-06-11") 0 in
  ∃ f' fs', file_write (on_day "2026-06-11") (lit "more") (f, fs) = (Ret (), (f', fs')) ∧
    fs' !! file_name (lit "log") (lit "2026-06-11") 1 (lit ".txt") =
      Some (full ++ lit "more" ++ [newline]) ∧
    size (full ++ lit "more" ++ [newline]) = 15.
Proof.
  intros full fs f.
  destruct (reopened_file_overfills (on_day "2026-06-11") f fs (lit "more") full)
    as (f' & fs' & Hw & Hn); [reflexivity|reflexivity|split; vm_compute; reflexivity| | | |].
  - split; [vm_compute; discriminate|vm_compute; reflexivity].
  - vm_compute. reflexivity.
  - vm_compute. reflexivity.
  - exists f', fs'. split; [exact Hw|]. split; [exact Hn|reflexivity].
Defined.
