(* ===== verification/AsyncLogger.v ===== *)
(** * The asynchronous logger: callers, the queue and the worker

    The concurrent part of task/asynchronous_log_sys_demo/logger.h and of its first
    version logger_v0.h.  Every critical section of [log_queue]'s mutex is one step,
    and so is the worker's loop over the sinks, which holds the sink mutex.  The
    notifications after a critical section are steps of their own, so that other
    threads run between the two; a waiting worker may also wake without one.  A run
    is a sequence of events, each naming the thread that moves. *)

From stdpp Require Import base gmap list strings sorting.
From Stdlib Require Import ZArith Lia Ascii.
From S2P Require Import Prelude CxxString LogSinks.

Local Open Scope Z_scope.

(** ** [log_queue]: its critical sections *)

Record log_queue := LQ { lq_items : list bytes; is_shutdown : bool }.

Definition lq_empty (q : log_queue) : bool :=
  match lq_items q with [] => true | _ => false end.

Definition push (msg : bytes) (q : log_queue) : bool * log_queue :=
  if is_shutdown q then (false, q) else (true, LQ (lq_items q ++ [msg]) (is_shutdown q)).

(** The predicate of [pop]'s wait, and what [pop] does once it holds. *)
Definition pop_ready (q : log_queue) : bool := negb (lq_empty q) || is_shutdown q.
Definition pop_taken (q : log_queue) : outcome (option bytes * log_queue) :=
  if lq_empty q && is_shutdown q then Ret (None, q)
  else match lq_items q with
       | [] => Undef
       | msg :: rest => Ret (Some msg, LQ rest (is_shutdown q))
       end.

Definition shutdown (q : log_queue) : log_queue := LQ (lq_items q) true.

(** ** The sinks *)

Record world := World { cout : bytes; fsys : files }.

(** [stream_sink] is the one file of the first version, [null_sink] an empty
    [unique_ptr]. *)
Inductive log_sink :=
  | console_sink
  | file_sink (f : rotating_file_sink)
  | stream_sink (name : option bytes)
  | null_sink.

Definition sink_write (e : fenv) (msg : bytes) (k : log_sink) : prog world log_sink := λ w,
  match k with
  | console_sink => (Ret k, World (cout w ++ msg ++ [newline]) (fsys w))
  | file_sink f =>
      match file_write e msg (f, fsys w) with
      | (Ret (), (f', fs)) => (Ret (file_sink f'), World (cout w) fs)
      | (Throw x, (_, fs)) => (Throw x, World (cout w) fs)
      | (Undef, (_, fs)) => (Undef, World (cout w) fs)
      end
  | stream_sink o => (Ret k, World (cout w) (append o (msg ++ [newline]) (fsys w)))
  | null_sink => (Ret k, w)
  end.

(** The loop of [process_queue]; [env i] is what sink number [i] sees of the outside. *)
Fixpoint write_sinks (env : nat → fenv) (msg : bytes) (i : nat) (ks : list log_sink) :
    prog world (list log_sink) :=
  match ks with
  | [] => mret []
  | k :: ks =>
      k ← sink_write (env i) msg k;
      ks ← write_sinks env msg (S i) ks;
      mret (k :: ks)
  end.

(** ** Threads *)

(** The worker: about to take the queue's mutex in [pop], waiting on the condition
    variable, between [pop] and the end of the loop's body, or finished.  An
    exception that leaves the thread's function ends the process. *)
Inductive worker_pc :=
  | AtPop | Waiting | Writing (msg : bytes) | Exited | Terminated (msg : bytes).

(** A caller: outside the logger; between a push and its [notify_one]; in the
    destructor before [notify_all], before [join], after it. *)
Inductive caller_pc := Calling | OwesOne | OwesAll | Joining | Joined.

#[export] Instance worker_pc_eq_dec : EqDecision worker_pc.
Proof. solve_decision. Defined.
#[export] Instance caller_pc_eq_dec : EqDecision caller_pc.
Proof. solve_decision. Defined.

Record logger := Logger {
  lqueue : log_queue; worker : worker_pc; callers : gmap nat caller_pc;
  sinks : list log_sink; out : world }.

(** The constructor: the worker has started. *)
Definition new_logger (ks : list log_sink) (w : world) : logger :=
  Logger (LQ [] false) AtPop ∅ ks w.

Definition caller (s : logger) (t : nat) : caller_pc := default Calling (callers s !! t).

Definition set_caller (s : logger) (t : nat) (c : caller_pc) : logger :=
  Logger (lqueue s) (worker s) (<[t := c]> (callers s)) (sinks s) (out s).
Definition set_worker (s : logger) (c : worker_pc) : logger :=
  Logger (lqueue s) c (callers s) (sinks s) (out s).
Definition set_queue (s : logger) (q : log_queue) : logger :=
  Logger q (worker s) (callers s) (sinks s) (out s).
Definition set_sinks (s : logger) (ks : list log_sink) (w : world) : logger :=
  Logger (lqueue s) (worker s) (callers s) ks w.

(** A notification reaches the worker when it is waiting. *)
Definition wake (s : logger) : logger :=
  match worker s with Waiting => set_worker s AtPop | _ => s end.

Inductive event :=
  | Log (t : nat) (level : log_level) (time format : bytes) (args : list bytes)
  | Notify (t : nat)
  | Destroy (t : nat)
  | Join (t : nat)
  | AddSink (t : nat) (k : log_sink)
  | Worker (env : nat → fenv)
  | Spurious.

(** What a run shows: pushes with their result, failures to build a message, and
    messages that went through the sinks. *)
Inductive obs := Pushed (msg : bytes) (ok : bool) | Failed | Wrote (msg : bytes).

Section logger.
(** The first version notifies inside the critical section. *)
Variable v0 : bool.

Definition log (t : nat) (level : log_level) (time format : bytes) (args : list bytes)
    (s : logger) : logger * list obs :=
  match (if v0 then log_string_v0 else log_string) level time format args with
  | Ret msg =>
      let '(ok, q) := push msg (lqueue s) in
      let s := set_queue s q in
      (if ok : bool then if v0 then wake s else set_caller s t OwesOne else s, [Pushed msg ok])
  | _ => (s, [Failed])
  end.

Definition worker_step (env : nat → fenv) (s : logger) : option (logger * list obs) :=
  match worker s with
  | AtPop =>
      if pop_ready (lqueue s) then
        match pop_taken (lqueue s) with
        | Ret (Some msg, q) => Some (set_worker (set_queue s q) (Writing msg), [])
        | Ret (None, q) => Some (set_worker (set_queue s q) Exited, [])
        | _ => None
        end
      else Some (set_worker s Waiting, [])
  | Writing msg =>
      match write_sinks env msg 0 (sinks s) (out s) with
      | (Ret ks, w) => Some (set_worker (set_sinks s ks w) AtPop, [Wrote msg])
      | (_, w) => Some (set_worker (set_sinks s (sinks s) w) (Terminated msg), [])
      end
  | _ => None
  end.

(** [None]: the event cannot happen in this state. *)
Definition step (s : logger) (e : event) : option (logger * list obs) :=
  match worker s with
  | Terminated _ => None
  | _ =>
      match e with
      | Log t level time format args =>
          match caller s t with
          | Calling => Some (log t level time format args s)
          | _ => None
          end
      | Notify t =>
          match caller s t with
          | OwesOne => Some (wake (set_caller s t Calling), [])
          | OwesAll => Some (wake (set_caller s t Joining), [])
          | _ => None
          end
      | Destroy t =>
          match caller s t with
          | Calling => Some (set_caller (set_queue s (shutdown (lqueue s))) t OwesAll, [])
          | _ => None
          end
      | Join t =>
          match caller s t, worker s with
          | Joining, Exited => Some (set_caller s t Joined, [])
          | _, _ => None
          end
      | AddSink t k =>
          match caller s t with
          | Calling => Some (set_sinks s (sinks s ++ [k]) (out s), [])
          | _ => None
          end
      | Worker env => worker_step env s
      | Spurious => match worker s with Waiting => Some (set_worker s AtPop, []) | _ => None end
      end
  end.

Fixpoint run_logger (s : logger) (es : list event) : option (logger * list obs) :=
  match es with
  | [] => Some (s, [])
  | e :: es =>
      '(s, o) ← step s e;
      '(s, o') ← run_logger s es;
      Some (s, o ++ o')
  end.

(** ** The invariant of every run *)

Definition accepted (os : list obs) : list bytes :=
  omap (λ o, match o with Pushed m true => Some m | _ => None end) os.
Definition wrote (os : list obs) : list bytes :=
  omap (λ o, match o with Wrote m => Some m | _ => None end) os.
Definition in_flight (s : logger) : list bytes :=
  match worker s with Writing m | Terminated m => [m] | _ => [] end.
Definition owes (c : caller_pc) : Prop := c = OwesOne ∨ c = OwesAll.
Definition past_shutdown (c : caller_pc) : bool :=
  match c with OwesAll | Joining | Joined => true | _ => false end.

Record inv (s : logger) (os : list obs) : Prop := {
  i_flow : accepted os = wrote os ++ in_flight s ++ lq_items (lqueue s);
  i_sleep : worker s = Waiting →
    (lq_items (lqueue s) = [] ∧ is_shutdown (lqueue s) = false) ∨ ∃ t, owes (caller s t);
  i_exited : worker s = Exited → lq_items (lqueue s) = [] ∧ is_shutdown (lqueue s) = true;
  i_past : ∀ t, past_shutdown (caller s t) = true → is_shutdown (lqueue s) = true;
  i_joined : ∀ t, caller s t = Joined → worker s = Exited }.

Lemma accepted_app a b : accepted (a ++ b) = accepted a ++ accepted b.
Proof using Type. apply omap_app. Qed.
Lemma wrote_app a b : wrote (a ++ b) = wrote a ++ wrote b.
Proof using Type. apply omap_app. Qed.

Lemma caller_set s t c t' :
  caller (set_caller s t c) t' = if decide (t = t') then c else caller s t'.
Proof using Type.
  unfold caller. simpl. case_decide; [subst; by rewrite lookup_insert_eq|].
  by rewrite lookup_insert_ne.
Qed.

Lemma wake_eq s :
  lqueue (wake s) = lqueue s ∧ callers (wake s) = callers s ∧ sinks (wake s) = sinks s ∧
  out (wake s) = out s ∧ worker (wake s) = (if decide (worker s = Waiting) then AtPop else worker s).
Proof using Type. unfold wake. by destruct (worker s) eqn:E; simpl; rewrite ?E. Qed.

Lemma wake_inv s os : inv s os → inv (wake s) os.
Proof using Type.
  intros Hi. unfold wake. destruct (worker s) eqn:E; try done.
  destruct Hi as [Hf _ _ Hp Hj]. unfold in_flight in Hf. rewrite E in Hf.
  split; try done. intros t Ht. apply Hj in Ht. congruence.
Qed.

(** Moving a caller on, when the queue and the worker stay. *)
Lemma set_caller_inv s os t c :
  inv s os → (owes (caller s t) → worker s = Waiting → owes c) →
  (past_shutdown c = true → is_shutdown (lqueue s) = true) →
  (c = Joined → worker s = Exited) → inv (set_caller s t c) os.
Proof using Type.
  intros [] Ho Hp Hj. split; simpl; try done.
  - intros Hw. destruct (i_sleep0 Hw) as [?|[t' Ht']]; [by left|right].
    destruct (decide (t = t')) as [<-|Hne].
    + exists t. rewrite caller_set, decide_True by done. auto.
    + exists t'. by rewrite caller_set, decide_False.
  - intros t'. rewrite caller_set. case_decide; [done|apply i_past0].
  - intros t'. rewrite caller_set. case_decide; [done|apply i_joined0].
Qed.

(** A notification that is delivered: the worker no longer waits, so nobody owes one. *)
Lemma notify_inv s os t c :
  inv s os → (past_shutdown c = true → is_shutdown (lqueue s) = true) → c ≠ Joined →
  inv (wake (set_caller s t c)) os.
Proof using Type.
  intros Hi Hp Hj. destruct (decide (worker s = Waiting)) as [Hw|Hw].
  - pose proof (wake_inv _ _ Hi) as [? ? ? ? ?]. unfold wake in *. simpl. rewrite Hw in *.
    split; simpl in *; try done.
    + intros t'. specialize (i_past0 t'). unfold caller in i_past0. simpl in i_past0.
      change (caller _ t') with (caller (set_caller s t c) t').
      rewrite caller_set. case_decide; auto.
    + intros t'. change (caller _ t') with (caller (set_caller s t c) t').
      rewrite caller_set. case_decide; [done|]. intros Ht. by apply (i_joined0 t') in Ht.
  - assert (wake (set_caller s t c) = set_caller s t c) as ->.
    { unfold wake. simpl. by destruct (worker s). }
    apply set_caller_inv; auto; done.
Qed.

Lemma log_inv t level time format args s os s' o :
  inv s os → caller s t = Calling → log t level time format args s = (s', o) →
  inv s' (os ++ o).
Proof using Type.
  intros Hi Ht. unfold log. destruct ((if v0 then _ else _) _ _ _ _) as [msg|x|].
  2,3: intros [= <- <-]; destruct Hi; split; try done;
    by rewrite accepted_app, wrote_app, !app_nil_r.
  unfold push. destruct (is_shutdown (lqueue s)) eqn:Hsd.
  { intros [= <- <-]. destruct Hi. split; simpl; auto. rewrite accepted_app, wrote_app.
    by rewrite !app_nil_r. }
  intros [= <- <-]. destruct Hi as [Hf Hs He Hp Hj].
  assert (Hflow : accepted (os ++ [Pushed msg true]) =
    wrote (os ++ [Pushed msg true]) ++ in_flight s ++ lq_items (lqueue s) ++ [msg]).
  { rewrite accepted_app, wrote_app, Hf. simpl. by rewrite app_nil_r, <-!app_assoc. }
  assert (Hx : worker s ≠ Exited) by (intros E; apply He in E as [_ E]; congruence).
  destruct v0.
  - unfold wake. simpl. destruct (worker s) eqn:E; split; simpl; try done;
      unfold in_flight in *; simpl; rewrite ?E in *; try done; naive_solver.
  - split; try done.
    + intros _. right. exists t. rewrite caller_set, decide_True by done. by left.
    + intros t'. rewrite caller_set. case_decide; [done|].
      intros Hpast%Hp. congruence.
    + intros t'. rewrite caller_set. case_decide; [done|]. apply Hj.
Qed.

Lemma worker_inv env s os s' o :
  inv s os → worker_step env s = Some (s', o) → inv s' (os ++ o).
Proof using Type.
  intros [Hf Hs He Hp Hj]. unfold worker_step. unfold in_flight in Hf.
  destruct (worker s) eqn:E; try done.
  - unfold pop_ready, pop_taken. destruct (lqueue s) as [items sd] eqn:Eq. simpl in *.
    unfold lq_empty. simpl. destruct items as [|m items]; [destruct sd|]; simpl;
      intros [= <- <-]; rewrite app_nil_r; split; simpl; try done; rewrite ?Eq; simpl; try done.
    + intros _. by left.
    + intros t Ht. specialize (Hj t Ht). congruence.
    + intros t Ht. specialize (Hj t Ht). congruence.
  - destruct (write_sinks _ _ _ _ _) as [[ks|x|] w]; intros [= <- <-]; split; simpl; try done;
      rewrite ?accepted_app, ?wrote_app, ?app_nil_r; simpl; rewrite ?app_nil_r; try done.
    + by rewrite Hf, <-app_assoc.
    + intros t Ht. specialize (Hj t Ht). congruence.
    + intros t Ht. specialize (Hj t Ht). congruence.
    + intros t Ht. specialize (Hj t Ht). congruence.
Qed.

Lemma destructor_inv s os t :
  inv s os → inv (set_caller (set_queue s (shutdown (lqueue s))) t OwesAll) os.
Proof using Type.
  intros [Hf Hs He Hp Hj]. split; simpl; try done.
  - intros _. right. exists t. rewrite caller_set, decide_True by done. by right.
  - intros Hx. by destruct (He Hx).
  - intros t'. rewrite caller_set. case_decide; [done|]. apply Hj.
Qed.

Lemma logger_step_inv s os e s' o : inv s os → step s e = Some (s', o) → inv s' (os ++ o).
Proof using Type.
  intros Hi Hstep. unfold step in Hstep.
  destruct e as [t level time format args|t|t|t|t k|env|];
    try (destruct (caller s t) eqn:Ec; try by destruct (worker s)).
  - destruct (log t level time format args s) as [s1 o1] eqn:El.
    assert (s1 = s' ∧ o1 = o) as [<- <-] by by destruct (worker s); simplify_eq.
    by eapply log_inv.
  - assert (wake (set_caller s t Calling) = s' ∧ [] = o) as [<- <-]
      by by destruct (worker s); simplify_eq.
    rewrite app_nil_r. by apply notify_inv.
  - assert (wake (set_caller s t Joining) = s' ∧ [] = o) as [<- <-]
      by by destruct (worker s); simplify_eq.
    rewrite app_nil_r. apply notify_inv; [done| |done]. intros _. apply (i_past _ _ Hi t).
    by rewrite Ec.
  - assert (set_caller (set_queue s (shutdown (lqueue s))) t OwesAll = s' ∧ [] = o) as [<- <-]
      by by destruct (worker s); simplify_eq.
    rewrite app_nil_r. by apply destructor_inv.
  - destruct (worker s) eqn:E; try done. injection Hstep as <- <-. rewrite app_nil_r.
    apply set_caller_inv; [done|rewrite Ec; by intros [?|?]|intros _|done].
    apply (i_past _ _ Hi t). by rewrite Ec.
  - assert (set_sinks s (sinks s ++ [k]) (out s) = s' ∧ [] = o) as [<- <-]
      by by destruct (worker s); simplify_eq.
    rewrite app_nil_r. destruct Hi. by split.
  - eapply worker_inv; [done|]. by destruct (worker s) eqn:E.
  - destruct (worker s) eqn:E; try done. injection Hstep as <- <-. rewrite app_nil_r.
    pose proof (wake_inv _ _ Hi) as Hw. unfold wake in Hw. by rewrite E in Hw.
Qed.

Lemma logger_run_inv s os es s' o :
  inv s os → run_logger s es = Some (s', o) → inv s' (os ++ o).
Proof using Type.
  revert s os o. induction es as [|e es IH]; intros s os o Hi.
  - intros [= <- <-]. by rewrite app_nil_r.
  - cbn [run_logger]. intros ([s1 o1] & Hs & H)%bind_Some. cbn in H.
    apply bind_Some in H as ([s2 o2] & Hr & H). injection H as <- <-.
    rewrite app_assoc. eapply IH; [|done]. by eapply logger_step_inv.
Qed.

Lemma new_logger_inv ks w : inv (new_logger ks w) [].
Proof using Type.
  split; simpl; try done; intros t; unfold caller; simpl; by rewrite lookup_empty.
Qed.

(** ** Termination: after [shutdown] the worker has a bounded number of steps left *)

Definition work (s : logger) : nat :=
  2 * length (lq_items (lqueue s)) +
  match worker s with AtPop => 1 | Waiting | Writing _ => 2 | Exited | Terminated _ => 0 end.

Definition is_worker (e : event) : bool := match e with Worker _ => true | _ => false end.
Definition worker_turns (es : list event) : nat := length (List.filter is_worker es).

Lemma wake_work s : (work (wake s) <= work s)%nat.
Proof using Type. unfold wake, work. destruct (worker s) eqn:E; simpl; rewrite ?E; lia. Qed.

Lemma work_step s e s' o :
  is_shutdown (lqueue s) = true → step s e = Some (s', o) →
  is_shutdown (lqueue s') = true ∧ (work s' + (if is_worker e then 1 else 0) <= work s)%nat.
Proof using Type.
  intros Hsd Hstep. unfold step in Hstep.
  destruct e as [t level time format args|t|t|t|t k|env|]; simpl;
    try (destruct (caller s t) eqn:Ec; try by destruct (worker s)).
  - assert (s' = s) as ->; [|split; [done|lia]].
    unfold log, push in Hstep. rewrite Hsd in Hstep.
    assert (set_queue s (lqueue s) = s) as Hq by by destruct s.
    destruct ((if v0 then _ else _) _ _ _ _); destruct (worker s); congruence.
  - pose proof (wake_work (set_caller s t Calling)) as Hw.
    pose proof (wake_eq (set_caller s t Calling)) as (Hq & _).
    destruct (worker s); simplify_eq; rewrite Hq; split; try done;
      change (work (set_caller s t Calling)) with (work s) in Hw; lia.
  - pose proof (wake_work (set_caller s t Joining)) as Hw.
    pose proof (wake_eq (set_caller s t Joining)) as (Hq & _).
    destruct (worker s); simplify_eq; rewrite Hq; split; try done;
      change (work (set_caller s t Joining)) with (work s) in Hw; lia.
  - destruct (worker s) eqn:E; simplify_eq; (split; [done|unfold work; simpl; rewrite E; lia]).
  - destruct (worker s) eqn:E; simplify_eq; (split; [done|unfold work; simpl; rewrite E; lia]).
  - destruct (worker s) eqn:E; simplify_eq; (split; [done|unfold work; simpl; rewrite E; lia]).
  - unfold worker_step, pop_ready, pop_taken, lq_empty, work in *. rewrite Hsd in Hstep.
    destruct (worker s) eqn:E; try done.
    + rewrite orb_true_r in Hstep. destruct (lq_items (lqueue s)) eqn:El; simplify_eq/=;
        (split; [done|rewrite ?El; simpl; lia]).
    + destruct (write_sinks _ _ _ _ _) as [[ks|x|] w]; simplify_eq/=; (split; [done|lia]).
  - destruct (worker s) eqn:E; simplify_eq; (split; [done|unfold work; simpl; rewrite E; lia]).
Qed.

Lemma work_run s es s' o :
  is_shutdown (lqueue s) = true → run_logger s es = Some (s', o) →
  is_shutdown (lqueue s') = true ∧ (work s' + worker_turns es <= work s)%nat.
Proof using Type.
  revert s o. induction es as [|e es IH]; intros s o Hsd.
  - intros [= <- <-]. split; [done|]. unfold worker_turns. simpl. lia.
  - cbn [run_logger]. intros ([s1 o1] & Hs & H)%bind_Some. cbn in H.
    apply bind_Some in H as ([s2 o2] & Hr & H). injection H as <- <-.
    destruct (work_step _ _ _ _ Hsd Hs) as [Hsd1 Hw1].
    destruct (IH _ _ Hsd1 Hr) as [Hsd2 Hw2]. split; [done|].
    unfold worker_turns in *. simpl. destruct (is_worker e); simpl; lia.
Qed.

(** Neither the worker nor a pending notification can move. *)
Definition stuck (s : logger) : Prop :=
  (∀ env, step s (Worker env) = None) ∧ (∀ t, step s (Notify t) = None).

Lemma stuck_worker s os :
  inv s os → stuck s →
  match worker s with
  | Waiting => lq_items (lqueue s) = [] ∧ is_shutdown (lqueue s) = false
  | Exited | Terminated _ => True
  | _ => False
  end.
Proof using Type.
  intros Hi [Hw Hn]. specialize (Hw (λ _, FEnv [] true true)).
  unfold step, worker_step in Hw. destruct (worker s) eqn:E; try done.
  - unfold pop_ready, pop_taken, lq_empty in Hw.
    by destruct (lq_items (lqueue s)), (is_shutdown (lqueue s)).
  - destruct (i_sleep _ _ Hi E) as [?|(t & [Ht|Ht])]; [done| |]; exfalso;
      specialize (Hn t); unfold step in Hn; by rewrite E, Ht in Hn.
  - by destruct (write_sinks _ _ _ _ _) as [[ks|x|] w].
Qed.

End logger.

(** C9. Whatever the order in which callers, notifications, spurious wake-ups and the
    worker run, messages reach the sinks in the order in which [push] accepted them,
    each once: those accepted are those written, then the one in the worker's hands,
    then the queue.  No wake-up is lost: when neither the worker nor a pending
    notification can move, the worker waits on an empty open queue or has stopped, and
    unless the process was terminated everything accepted has been written. *)
Theorem messages_in_order v0 ks w es s os :
  run_logger v0 (new_logger ks w) es = Some (s, os) →
  accepted os = wrote os ++ in_flight s ++ lq_items (lqueue s) ∧
  (stuck v0 s → (∀ m, worker s ≠ Terminated m) → accepted os = wrote os).
Proof.
  intros Hr. pose proof (logger_run_inv _ _ _ _ _ _ (new_logger_inv ks w) Hr) as Hi. simpl in Hi.
  split; [apply Hi|]. intros Hst Ht. rewrite (i_flow _ _ Hi).
  pose proof (stuck_worker _ _ _ Hi Hst) as Hw. unfold in_flight.
  destruct (worker s) eqn:E; try done.
  - destruct Hw as [-> _]. by rewrite app_nil_r.
  - destruct (i_exited _ _ Hi E) as [-> _]. by rewrite app_nil_r.
  - by destruct (Ht msg).
Qed.

(** A schedule of the example: the worker goes to sleep, two messages are pushed before
    the first notification, and the worker takes both. *)
Definition quiet : nat → fenv := λ _, on_day "2026-06-11".
Definition demo_events : list event :=
  [Worker quiet; Log 0 INFO (lit "t") (lit "a {}") [lit "1"];
   Log 1 WARN (lit "t") (lit "b") []; Notify 1; Worker quiet; Worker quiet; Notify 0;
   Worker quiet; Worker quiet; Destroy 0; Log 1 DEBUG (lit "t") (lit "late") [];
   Worker quiet; Notify 0; Join 0].

Lemma messages_in_order_witness :
  ∃ s os, run_logger false (new_logger [console_sink] (World [] ∅)) demo_events = Some (s, os) ∧
    accepted os = wrote os ++ in_flight s ++ lq_items (lqueue s) ∧
    cout (out s) = lit "[INFO]   [t] a 1" ++ newline :: lit "[WARN]   [t] b" ++ [newline].
Proof.
  destruct (run_logger false (new_logger [console_sink] (World [] ∅)) demo_events)
    as [[s os]|] eqn:Hr; [|vm_compute in Hr; discriminate].
  exists s, os. split; [reflexivity|]. split; [apply (messages_in_order _ _ _ _ _ _ Hr)|].
  vm_compute in Hr. injection Hr as <- <-. reflexivity.
Defined.

Lemma accepted_after_shutdown v0 s e s' o :
  is_shutdown (lqueue s) = true → step v0 s e = Some (s', o) → accepted o = [].
Proof.
  intros Hsd Hstep. unfold step in Hstep.
  destruct e as [t level time format args|t|t|t|t k|env|];
    try (destruct (caller s t) eqn:Ec; try by destruct (worker s)).
  - unfold log, push in Hstep. rewrite Hsd in Hstep.
    destruct ((if v0 then _ else _) _ _ _ _); destruct (worker s); by simplify_eq.
  - destruct (worker s); by simplify_eq.
  - destruct (worker s); by simplify_eq.
  - destruct (worker s); by simplify_eq.
  - destruct (worker s); by simplify_eq.
  - destruct (worker s); by simplify_eq.
  - unfold worker_step, pop_taken in Hstep. destruct (worker s); split_matches; done.
  - destruct (worker s); by simplify_eq.
Qed.

Lemma accepted_run_after_shutdown v0 s es s' o :
  is_shutdown (lqueue s) = true → run_logger v0 s es = Some (s', o) → accepted o = [].
Proof.
  revert s o. induction es as [|e es IH]; intros s o Hsd.
  - by intros [= <- <-].
  - cbn [run_logger]. intros ([s1 o1] & Hs & H)%bind_Some. cbn in H.
    apply bind_Some in H as ([s2 o2] & Hr & H). injection H as <- <-.
    destruct (work_step _ _ _ _ _ Hsd Hs) as [Hsd1 _].
    rewrite accepted_app, (IH _ _ Hsd1 Hr).
    by rewrite (accepted_after_shutdown _ _ _ _ _ Hsd Hs).
Qed.

(** Once the destructor has shut the queue down nothing more is accepted, and the
    worker has at most two turns per queued message and two more left, in every
    schedule.  When it and the notifications cannot move it has left its loop with
    every accepted message written, so that the destructor's [join] returns, unless
    a sink's exception has terminated the process. *)
Theorem shutdown_terminates v0 ks w es s os es' s' os' :
  run_logger v0 (new_logger ks w) es = Some (s, os) → is_shutdown (lqueue s) = true →
  run_logger v0 s es' = Some (s', os') →
  accepted os' = [] ∧ (worker_turns es' <= 2 * length (lq_items (lqueue s)) + 2)%nat ∧
  (stuck v0 s' →
    (worker s' = Exited ∧ accepted os = wrote (os ++ os') ∧
     ∀ t, caller s' t = Joining → is_Some (step v0 s' (Join t))) ∨
    ∃ m, worker s' = Terminated m).
Proof.
  intros Hr Hsd Hr'. pose proof (logger_run_inv _ _ _ _ _ _ (new_logger_inv ks w) Hr) as Hi. simpl in Hi.
  pose proof (logger_run_inv _ _ _ _ _ _ Hi Hr') as Hi'.
  destruct (work_run _ _ _ _ _ Hsd Hr') as [Hsd' Hwork].
  pose proof (accepted_run_after_shutdown _ _ _ _ _ Hsd Hr') as Hacc.
  split; [done|]. split.
  { unfold work in Hwork. destruct (worker s); lia. }
  intros Hst. pose proof (stuck_worker _ _ _ Hi' Hst) as Hw.
  pose proof (i_flow _ _ Hi') as Hf. rewrite accepted_app, Hacc, app_nil_r in Hf.
  unfold in_flight in Hf. destruct (worker s') eqn:E; try done; [|left|right; by eexists].
  - destruct Hw as [_ Hw]. congruence.
  - split; [done|]. destruct (i_exited _ _ Hi' E) as [Hnil _]. rewrite Hnil, !app_nil_r in Hf.
    split; [done|]. intros t Ht. unfold step. rewrite E, Ht. by eexists.
Qed.

Lemma shutdown_terminates_witness :
  ∃ s os, run_logger false (new_logger [console_sink] (World [] ∅))
      [Log 0 INFO (lit "t") (lit "a") []; Notify 0; Destroy 0] = Some (s, os) ∧
    ∀ es' s' os', run_logger false s es' = Some (s', os') → (worker_turns es' <= 4)%nat.
Proof.
  destruct (run_logger false (new_logger [console_sink] (World [] ∅))
    [Log 0 INFO (lit "t") (lit "a") []; Notify 0; Destroy 0]) as [[s os]|] eqn:Hr;
    [|vm_compute in Hr; discriminate].
  pose proof Hr as Hc. vm_compute in Hc. injection Hc as Hs _.
  exists s, os. split; [reflexivity|]. intros es' s' os' Hr'.
  destruct (shutdown_terminates _ _ _ _ _ _ _ _ _ Hr ltac:(rewrite <-Hs; reflexivity) Hr')
    as (_ & Ht & _).
  rewrite <-Hs in Ht. exact Ht.
Defined.

(** ** The logger of main.cpp: a console and a rotating file *)

(** What the file, sink number 1, sees of the outside during a run. *)
Definition clocks (es : list event) : list (fenv * bytes) :=
  omap (λ e, match e with Worker env => Some (env 1%nat, []) | _ => None end) es.

Definition no_new_sink (e : event) : Prop := match e with AddSink _ _ => False | _ => True end.

(** Steps other than a write leave sinks and outputs alone. *)
Lemma quiet_step v0 s e s' o :
  no_new_sink e → step v0 s e = Some (s', o) →
  (sinks s' = sinks s ∧ out s' = out s ∧ wrote o = [] ∧ ∀ m, worker s' ≠ Terminated m) ∨
  ∃ env msg ks w, e = Worker env ∧ worker s = Writing msg ∧
    write_sinks env msg 0 (sinks s) (out s) = (ks, w) ∧
    match ks with
    | Ret ks => s' = set_worker (set_sinks s ks w) AtPop ∧ o = [Wrote msg]
    | _ => True
    end.
Proof.
  intros He Hstep. unfold step in Hstep.
  assert (Halive : ∀ m, worker s ≠ Terminated m) by (intros m E; by rewrite E in Hstep).
  assert (Hwake : ∀ s1 : logger, sinks s1 = sinks s → out s1 = out s → worker s1 = worker s →
    sinks (wake s1) = sinks s ∧ out (wake s1) = out s ∧ ∀ m, worker (wake s1) ≠ Terminated m).
  { intros s1 <- <- Hw. destruct (wake_eq s1) as (_ & _ & H3 & H4 & H5).
    rewrite H3, H4. split; [done|]. split; [done|]. intros m. rewrite H5, Hw.
    destruct (decide (worker s = Waiting)); [discriminate|apply Halive]. }
  destruct e as [t level time format args|t|t|t|t k|env|]; try done;
    try (destruct (caller s t) eqn:Ec; try by destruct (worker s)).
  - left. assert (log v0 t level time format args s = (s', o)) as El
      by by destruct (worker s); simplify_eq.
    unfold log, push in El. destruct ((if v0 then _ else _) _ _ _ _) as [msg|?|];
      [|by injection El as <- <-|by injection El as <- <-].
    destruct (is_shutdown (lqueue s)); [by injection El as <- <-|].
    injection El as <- <-. destruct v0; [|done].
    destruct (Hwake (set_queue s (LQ (lq_items (lqueue s) ++ [msg]) false))) as (-> & -> & ?); done.
  - left. assert (wake (set_caller s t Calling) = s' ∧ [] = o) as [<- <-]
      by by destruct (worker s); simplify_eq.
    destruct (Hwake (set_caller s t Calling)) as (-> & -> & ?); done.
  - left. assert (wake (set_caller s t Joining) = s' ∧ [] = o) as [<- <-]
      by by destruct (worker s); simplify_eq.
    destruct (Hwake (set_caller s t Joining)) as (-> & -> & ?); done.
  - left. destruct (worker s) eqn:E; simplify_eq; simpl; rewrite E; done.
  - left. destruct (worker s) eqn:E; simplify_eq; simpl; rewrite E; done.
  - unfold worker_step, pop_taken in Hstep. destruct (worker s) as [| |msg| |m] eqn:E; try done.
    + left. split_matches; done.
    + right. destruct (write_sinks env msg 0 (sinks s) (out s)) as [ks w] eqn:Ew.
      exists env, msg, ks, w. split; [done|]. split; [done|]. split; [done|].
      destruct ks; [|done|done]. by injection Hstep as <- <-.
  - left. destruct (worker s) eqn:E; by simplify_eq.
Qed.
Section two_sinks.
Context (base sext : bytes) (max : Z) (by_date : bool) (fs0 : files).
Context (Hfresh : fresh_family base sext fs0).

(** The console and the files have what was written. *)
Definition sinks_hold (s : logger) (os : list obs) : Prop :=
  ∃ f hist last, sinks s = [console_sink; file_sink f] ∧
    written base sext max by_date fs0 hist last (wrote os) f (fsys (out s)) ∧
    e_idx last <= Z.of_nat (length (wrote os)) ∧ cout (out s) = unlines (wrote os).

Definition date_before (s : logger) (prev : bytes) : Prop :=
  ∀ f, sinks s = [console_sink; file_sink f] → str_leb (curr_date f) prev = true.

Lemma written_prefix os s o :
  inv s (os ++ o) → ∃ r, accepted (os ++ o) = wrote (os ++ o) ++ r.
Proof using Type. intros []. by eexists. Qed.

(** The worker's writes reach the console and the file. *)
Lemma both_written msgs f hist last w env msg :
  written base sext max by_date fs0 hist last msgs f (fsys w) →
  e_idx last <= Z.of_nat (length msgs) → cout w = unlines msgs →
  env_ok (curr_date f) (env 1%nat) → size (unlines (msgs ++ [msg])) < 2 ^ 64 →
  ∃ f' w' hist' last', write_sinks env msg 0 [console_sink; file_sink f] w =
      (Ret [console_sink; file_sink f'], w') ∧
    written base sext max by_date fs0 hist' last' (msgs ++ [msg]) f' (fsys w') ∧
    e_idx last' <= Z.of_nat (length (msgs ++ [msg])) ∧ cout w' = unlines (msgs ++ [msg]) ∧
    curr_date f' = (if by_date then today (env 1%nat) else curr_date f).
Proof using Hfresh.
  intros W Hfew Hc He Hbig.
  destruct (file_write_written _ _ _ _ _ Hfresh _ _ _ _ _ (env 1%nat) msg W He Hfew Hbig)
    as (hist' & last' & f' & fs' & Hw & W' & Hfew' & Hd).
  exists f', (World (cout w ++ msg ++ [newline]) fs'), hist', last'. cbn [write_sinks].
  run_prog. cbn [sink_write fsys cout]. rewrite Hw. split; [reflexivity|]. split; [done|].
  split; [done|]. split; [|done]. simpl. rewrite Hc, unlines_app. unfold unlines at 3.
  simpl. by rewrite app_nil_r.
Qed.

Lemma run_holds v0 es s os s' o :
  inv s os → sinks_hold s os → (∀ m, worker s ≠ Terminated m) →
  Forall no_new_sink es → (∃ prev, date_before s prev ∧ clock_ok prev (clocks es)) →
  run_logger v0 s es = Some (s', o) → size (unlines (accepted (os ++ o))) < 2 ^ 64 →
  sinks_hold s' (os ++ o) ∧ (∀ m, worker s' ≠ Terminated m).
Proof using Hfresh.
  revert s os o. induction es as [|e es IH]; intros s os o Hi Hs Halive Hno (prev & Hp & Hc).
  - intros [= <- <-] _. rewrite app_nil_r. done.
  - cbn [run_logger]. intros ([s1 o1] & Hstep & H)%bind_Some. cbn in H.
    apply bind_Some in H as ([s2 o2] & Hr & H). injection H as <- <-.
    apply Forall_cons in Hno as [He Hno]. rewrite app_assoc. intros Hbig.
    pose proof (logger_step_inv _ _ _ _ _ _ Hi Hstep) as Hi1.
    destruct (quiet_step _ _ _ _ _ He Hstep)
      as [(Hk & Ho & Hw & Ha)|(env & msg & ks & w & -> & Hwk & Hws & Hks)].
    + apply IH with s1; try done.
      * destruct Hs as (f & hist & last & H1 & H2 & H3 & H4). exists f, hist, last.
        by rewrite wrote_app, Hw, app_nil_r, Hk, Ho.
      * destruct e; try (exists prev; split; [intros f; rewrite Hk; apply Hp|exact Hc]).
        cbn in Hc. destruct Hc as [Henv Hc]. exists (today (env 1%nat)).
        split; [|done]. intros f. rewrite Hk. intros Hf. apply Hp in Hf.
        eapply str_leb_trans; [exact Hf|apply Henv].
    + destruct Hs as (f & hist & last & H1 & H2 & H3 & H4).
      cbn in Hc. destruct Hc as [Henv Hc].
      assert (Hcd : env_ok (curr_date f) (env 1%nat)).
      { destruct Henv as (? & ? & ?). split; [done|]. split; [done|].
        eapply str_leb_trans; [by apply Hp|done]. }
      destruct (both_written (wrote os) f hist last (out s) env msg)
        as (f' & w' & hist' & last' & Hw' & W' & Hfew & Hcout & Hd); try done.
      { destruct (logger_run_inv _ _ _ _ _ _ Hi1 Hr) as [Hf _ _ _ _].
        pose proof (i_flow _ _ Hi) as Hf0. unfold in_flight in Hf0. rewrite Hwk in Hf0.
        rewrite !accepted_app, Hf0 in Hbig. rewrite app_assoc, <-!app_assoc in Hbig.
        rewrite app_assoc, !unlines_app in Hbig. unfold size in *.
        rewrite unlines_app. rewrite !length_app in *. lia. }
      rewrite H1, Hw' in Hws. injection Hws as <- <-. destruct Hks as [-> ->].
      apply IH with (set_worker (set_sinks s [console_sink; file_sink f'] w') AtPop); try done.
      * exists f', hist', last'. rewrite wrote_app. done.
      * exists (today (env 1%nat)). split; [|done]. intros f1 [= <-]. rewrite Hd.
        destruct by_date; [|apply Hcd]. unfold str_leb. by rewrite str_ltb_irrefl.
Qed.
End two_sinks.

(** C34. End to end: a logger with a console and a rotating file, in a directory without
    files of the family.  Once a destructor's [join] has returned, whatever the callers
    and the schedule did before, the console shows exactly the accepted messages, one per
    line in the order accepted, and so do the files the sink opened, taken in order. *)
Theorem logger_end_to_end base sext max by_date fs0 e0 f0 fs1 es s os t :
  fresh_family base sext fs0 → open_ok e0 = true → date_ok (today e0) →
  new_file_sink e0 base max by_date sext fs0 = (Ret f0, fs1) →
  Forall no_new_sink es → clock_ok (today e0) (clocks es) →
  run_logger false (new_logger [console_sink; file_sink f0] (World [] fs1)) es = Some (s, os) →
  size (unlines (accepted os)) < 2 ^ 64 → caller s t = Joined →
  cout (out s) = unlines (accepted os) ∧
  ∃ ens, StronglySorted entry_lt ens ∧ family_files base sext ens (fsys (out s)) ∧
    mjoin (e_lines <$> ens) = accepted os.
Proof.
  intros Hf Ho Hd Hnew Hno Hc Hr Hbig Hj.
  destruct (new_file_sink_written _ _ max by_date _ Hf e0 Ho Hd) as (f & fs & Hn & Hcd & W).
  rewrite Hn in Hnew. injection Hnew as -> ->.
  pose proof (new_logger_inv [console_sink; file_sink f0] (World [] fs1)) as Hi0.
  destruct (run_holds base sext max by_date fs0 Hf false es _ [] s os Hi0)
    as [Hs _]; try done.
  - exists f0, [], (Entry (today e0) 0 []). simpl. done.
  - exists (today e0). split; [|done]. intros f1 [= <-]. rewrite Hcd.
    unfold str_leb. by rewrite str_ltb_irrefl.
  - pose proof (logger_run_inv _ _ _ _ _ _ (new_logger_inv _ _) Hr) as Hi. simpl in Hi, Hs.
    pose proof (i_joined _ _ Hi _ Hj) as Hx. destruct (i_exited _ _ Hi Hx) as [Hnil _].
    pose proof (i_flow _ _ Hi) as Hfl. unfold in_flight in Hfl. rewrite Hx, Hnil in Hfl.
    rewrite app_nil_r in Hfl. rewrite Hfl.
    destruct Hs as (f & hist & last & H1 & H2 & H3 & H4). split; [done|].
    exists (hist ++ [last]). destruct H2. done.
Qed.

(** main.cpp's four messages, and the destructor at the end of its block. *)
Definition main_events : list event :=
  [Log 0 INFO (lit "t") (lit "START...") []; Notify 0;
   Log 0 INFO (lit "t") (lit "User {} performed {} in {} seconds")
     [lit "10"; lit "login"; lit "1.5"]; Notify 0;
   Worker quiet; Worker quiet;
   Log 0 DEBUG (lit "t") (lit "Hello {}") [lit "nss"]; Notify 0;
   Log 0 WARN (lit "t") (lit "Multiple placeholder: {}") [lit "1"; lit "2"; lit "3"]; Notify 0;
   Destroy 0; Notify 0; Worker quiet; Worker quiet; Worker quiet; Worker quiet;
   Worker quiet; Worker quiet; Worker quiet; Join 0].

Definition main_sink : rotating_file_sink :=
  FSink (lit "log") (lit ".txt") (Some (lit "log_2026-06-11_0.txt")) (1024 * 1024) 0 true
    (lit "2026-06-11") 0.
Definition main_files : files := {[ lit "log_2026-06-11_0.txt" := [] ]}.
Definition main_start : logger :=
  new_logger [console_sink; file_sink main_sink] (World [] main_files).
Definition main_lines : list bytes :=
  [lit "[INFO]   [t] START..."; lit "[INFO]   [t] User 10 performed login in 1.5 seconds";
   lit "[DEBUG]  [t] Hello nss"; lit "[WARN]   [t] Multiple placeholder: 123"].

Lemma logger_end_to_end_witness :
  ∃ s os, run_logger false main_start main_events = Some (s, os) ∧ accepted os = main_lines ∧
    cout (out s) = unlines (accepted os) ∧
    ∃ ens, StronglySorted entry_lt ens ∧
      family_files (lit "log") (lit ".txt") ens (fsys (out s)) ∧
      mjoin (e_lines <$> ens) = accepted os.
Proof.
  assert (Hrun : match run_logger false main_start main_events with
    | Some (s, os) => accepted os = main_lines ∧ caller s 0 = Joined | None => False end)
    by (vm_compute; split; reflexivity).
  destruct (run_logger false main_start main_events) as [[s os]|] eqn:Hr; [|destruct Hrun].
  destruct Hrun as [Hacc Hj]. exists s, os. split; [reflexivity|]. split; [exact Hacc|].
  apply (logger_end_to_end (lit "log") (lit ".txt") (1024 * 1024) true ∅
    (on_day "2026-06-11") main_sink main_files main_events s os 0%nat).
  - intros d i _ _. apply lookup_empty.
  - reflexivity.
  - reflexivity.
  - vm_compute. reflexivity.
  - repeat constructor.
  - repeat split; vm_compute; reflexivity.
  - exact Hr.
  - rewrite Hacc. vm_compute. reflexivity.
  - exact Hj.
Defined.

(** When the file of a new day cannot be opened, the exception leaves the worker's
    function: the process ends, with the message and the queue lost; the handler around
    main's calls is in another thread. *)
Theorem open_failure_terminates v0 s msg f env :
  worker s = Writing msg → sinks s = [file_sink f] → open_ok (env 0%nat) = false →
  rotate_by_date f = true → today (env 0%nat) ≠ curr_date f →
  ∃ s', step v0 s (Worker env) = Some (s', []) ∧ worker s' = Terminated msg ∧
    lq_items (lqueue s') = lq_items (lqueue s) ∧ ∀ e, step v0 s' e = None.
Proof.
  intros Hw Hs Ho Hr Hd. unfold step, worker_step. rewrite Hw, Hs.
  assert (Hf : ∃ fs', file_write (env 0%nat) msg (f, fsys (out s)) =
    (Throw (RuntimeError (lit "Failed to open log files: " ++
       make_file_name (set_name f (today (env 0%nat)) 0))),
     (set_ofs (set_name f (today (env 0%nat)) 0) None, fs'))).
  { unfold file_write, rotate_if_need, open_file. run_prog. rewrite Hr, Ho.
    unfold str_eqb. rewrite bool_decide_eq_false_2 by done. by eexists. }
  destruct Hf as [fs' Hf]. cbn [write_sinks]. run_prog. cbn [sink_write]. rewrite Hf.
  eexists. split; [reflexivity|]. done.
Qed.

Lemma open_failure_terminates_witness :
  let s := Logger (LQ [lit "next"] false) (Writing (lit "first")) ∅ [file_sink main_sink]
             (World [] main_files) in
  ∃ s', step false s (Worker (λ _, FEnv (lit "2026-06-12") false true)) = Some (s', []) ∧
    worker s' = Terminated (lit "first") ∧ lq_items (lqueue s') = [lit "next"] ∧
    ∀ e, step false s' e = None.
Proof.
  intros s. apply (open_failure_terminates false s (lit "first") main_sink
    (λ _, FEnv (lit "2026-06-12") false true)); try reflexivity.
  vm_compute. discriminate.
Defined.
