(* ===== verification/SharedPtr.v ===== *)
(** * [SimpleSharedPtr] of base_memory/simple_shared_ptr.h

    A reference-counted pointer.  Handles are variables of the program, objects and
    control blocks live on heaps of their own, so a double delete or the use of a
    freed block is undefined behaviour of the model.  The first part is sequential;
    the last part has threads that release handles of one object at the same time,
    where the decrement and the test of [release] are two atomic operations. *)

From stdpp Require Import base gmap list strings.
From Stdlib Require Import ZArith Lia.
From S2P Require Import Prelude CxxString.

Local Open Scope Z_scope.

Abbreviation loc := positive.

(** ** Handles and memory *)

Record sptr := SPtr { _ptr : option loc; _control : option loc }.

#[export] Instance sptr_eq_dec : EqDecision sptr.
Proof. solve_decision. Defined.

(** [_ref_cnt] of every live control block, the live objects, and the handles in
    scope. *)
Record mem (T : Type) := Mem { vars : gmap nat sptr; objs : gmap loc T; ctls : gmap loc Z }.
Arguments Mem {T} vars objs ctls.
Arguments vars {T} m.
Arguments objs {T} m.
Arguments ctls {T} m.

Section shared_ptr.
Context {T : Type}.
Abbreviation sp_prog := (prog (mem T)).
Implicit Types (x y : nat) (m : mem T).

Definition read_var x : sp_prog sptr := λ m, (deref (vars m !! x), m).
Definition write_var x (h : sptr) : sp_prog unit :=
  modify (λ m, Mem (<[x := h]> (vars m)) (objs m) (ctls m)).

Definition load_cnt (c : loc) : sp_prog Z := λ m, (deref (ctls m !! c), m).
(** [_ref_cnt ++] and [_ref_cnt --] on a [std::atomic<int>], which wraps. *)
Definition add_cnt (c : loc) (d : Z) : sp_prog unit := λ m,
  match ctls m !! c with
  | Some n => (Ret (), Mem (vars m) (objs m) (<[c := sext 32 (n + d)]> (ctls m)))
  | None => (Undef, m)
  end.
Definition new_control : sp_prog loc := λ m,
  let c := fresh (dom (ctls m)) in (Ret c, Mem (vars m) (objs m) (<[c := 1]> (ctls m))).
Definition delete_control (c : loc) : sp_prog unit := λ m,
  match ctls m !! c with
  | Some _ => (Ret (), Mem (vars m) (objs m) (delete c (ctls m)))
  | None => (Undef, m)
  end.
Definition new_obj (p : loc) (v : T) : sp_prog unit :=
  modify (λ m, Mem (vars m) (<[p := v]> (objs m)) (ctls m)).
Definition delete_obj (p : option loc) : sp_prog unit := λ m,
  match p with
  | None => (Ret (), m)
  | Some l =>
      match objs m !! l with
      | Some _ => (Ret (), Mem (vars m) (delete l (objs m)) (ctls m))
      | None => (Undef, m)
      end
  end.

(** ** The members *)

Definition release x : sp_prog unit :=
  h ← read_var x;
  match _control h with
  | None => mret ()
  | Some c =>
      add_cnt c (-1);;
      n ← load_cnt c;
      if n =? 0 then
        delete_obj (_ptr h);;
        write_var x (SPtr None (Some c));;
        delete_control c;;
        write_var x (SPtr None None)
      else mret ()
  end.

Definition ctor_default x : sp_prog unit := write_var x (SPtr None None).
Definition ctor_raw x (p : option loc) : sp_prog unit :=
  match p with
  | Some _ => c ← new_control; write_var x (SPtr p (Some c))
  | None => write_var x (SPtr p None)
  end.
Definition destructor x : sp_prog unit :=
  release x;; modify (λ m, Mem (delete x (vars m)) (objs m) (ctls m)).
Definition increment (c : option loc) : sp_prog unit :=
  match c with Some c => add_cnt c 1 | None => mret () end.
Definition copy_ctor x other : sp_prog unit :=
  o ← read_var other;
  write_var x (SPtr (_ptr o) (_control o));;
  increment (_control o).
Definition copy_assign x other : sp_prog unit :=
  if decide (x = other) then mret ()
  else
    release x;;
    o ← read_var other;
    write_var x (SPtr (_ptr o) (_control o));;
    increment (_control o).
Definition move_ctor x other : sp_prog unit :=
  o ← read_var other;
  write_var x (SPtr (_ptr o) (_control o));;
  write_var other (SPtr None None).
Definition move_assign x other : sp_prog unit :=
  if decide (x = other) then mret ()
  else
    release x;;
    o ← read_var other;
    write_var x (SPtr (_ptr o) (_control o));;
    write_var other (SPtr None None).
(** [operator->] and [get]. *)
Definition get_ptr x : sp_prog (option loc) := h ← read_var x; mret (_ptr h).
(** [operator*] *)
Definition deref_obj x : sp_prog T :=
  h ← read_var x; m ← get; lift (deref (l ← _ptr h; objs m !! l)).
Definition use_cnt x : sp_prog Z :=
  h ← read_var x;
  match _control h with Some c => load_cnt c | None => mret 0 end.
Definition reset x (p : option loc) : sp_prog unit :=
  h ← read_var x;
  if decide (_ptr h = p) then mret ()
  else
    release x;;
    h ← read_var x;
    write_var x (SPtr p (_control h));;
    match p with
    | Some _ => c ← new_control; write_var x (SPtr p (Some c))
    | None => write_var x (SPtr p None)
    end.

(** ** Histories of calls *)

Inductive op :=
  | New (p : loc) (v : T)
  | CtorDefault x | CtorRaw x (p : option loc) | CopyCtor x y | MoveCtor x y
  | CopyAssign x y | MoveAssign x y | Reset x (p : option loc) | Dtor x.

Definition exec (o : op) : sp_prog unit :=
  match o with
  | New p v => new_obj p v
  | CtorDefault x => ctor_default x
  | CtorRaw x p => ctor_raw x p
  | CopyCtor x y => copy_ctor x y
  | MoveCtor x y => move_ctor x y
  | CopyAssign x y => copy_assign x y
  | MoveAssign x y => move_assign x y
  | Reset x p => reset x p
  | Dtor x => destructor x
  end.

Fixpoint exec_all (os : list op) : sp_prog unit :=
  match os with [] => mret () | o :: os => exec o;; exec_all os end.

(** ** The specification: who owns what *)

(** The object of every handle; the objects made by [new] and not yet handed to a
    handle; the value of every object made. *)
Record spec := Spec { owner : gmap nat (option loc); raw : gset loc; value : gmap loc T }.

Definition owned (a : spec) (x : nat) : option loc := mjoin (owner a !! x).
Definition live (a : spec) (l : loc) : Prop := l ∈ raw a ∨ ∃ x, owner a !! x = Some (Some l).

Definition set_owner (a : spec) (x : nat) (p : option loc) : spec :=
  Spec (<[x := p]> (owner a)) (raw a) (value a).
Definition adopt (p : option loc) (a : spec) : spec :=
  match p with Some l => Spec (owner a) (raw a ∖ {[l]}) (value a) | None => a end.

Definition spec_op (o : op) (a : spec) : spec :=
  match o with
  | New p v => Spec (owner a) ({[p]} ∪ raw a) (<[p := v]> (value a))
  | CtorDefault x => set_owner a x None
  | CtorRaw x p => set_owner (adopt p a) x p
  | CopyCtor x y | CopyAssign x y => set_owner a x (owned a y)
  | MoveCtor x y => set_owner (set_owner a x (owned a y)) y None
  | MoveAssign x y =>
      if decide (x = y) then a else set_owner (set_owner a x (owned a y)) y None
  | Reset x p => set_owner (adopt p a) x p
  | Dtor x => Spec (delete x (owner a)) (raw a) (value a)
  end.

(** Calls a program may make: constructors on new variables, members on variables in
    scope; [new] gives the address of no living object; an address is handed over once
    (or is the handle's own, in [reset]); fewer than 2^31 handles. *)
Definition legal (o : op) (a : spec) : Prop :=
  Z.of_nat (base.size (owner a)) < 2 ^ 31 - 1 ∧
  match o with
  | New p v => p ∉ raw a ∧ map_Forall (λ _ q, q ≠ Some p) (owner a)
  | CtorDefault x => owner a !! x = None
  | CtorRaw x p => owner a !! x = None ∧ (∀ l, p = Some l → l ∈ raw a)
  | CopyCtor x y | MoveCtor x y => owner a !! x = None ∧ is_Some (owner a !! y)
  | CopyAssign x y | MoveAssign x y => is_Some (owner a !! x) ∧ is_Some (owner a !! y)
  | Reset x p =>
      is_Some (owner a !! x) ∧ (p = owned a x ∨ p = None ∨ ∃ l, p = Some l ∧ l ∈ raw a)
  | Dtor x => is_Some (owner a !! x)
  end.

Fixpoint legal_all (os : list op) (a : spec) : Prop :=
  match os with [] => True | o :: os => legal o a ∧ legal_all os (spec_op o a) end.
Definition spec_all (os : list op) (a : spec) : spec := foldl (λ a o, spec_op o a) a os.

(** ** Counting handles *)

Definition shares (c : loc) (kv : nat * sptr) : Prop := _control kv.2 = Some c.
#[local] Instance shares_dec c kv : Decision (shares c kv).
Proof. unfold shares. apply _. Defined.
Definition cnt (vs : gmap nat sptr) (c : loc) : Z := Z.of_nat (base.size (filter (shares c) vs)).
Definition one (h : sptr) (c : loc) : Z := if decide (_control h = Some c) then 1 else 0.

Lemma cnt_insert vs x h c :
  vs !! x = None → cnt (<[x := h]> vs) c = cnt vs c + one h c.
Proof using Type.
  intros Hx. unfold cnt, one. destruct (decide (_control h = Some c)) as [E|E].
  - rewrite map_filter_insert_True by done.
    rewrite map_size_insert_None; [lia|]. apply map_lookup_filter_None. by left.
  - rewrite map_filter_insert_False by done. rewrite delete_id by done. lia.
Qed.

Lemma cnt_delete vs x h c :
  vs !! x = Some h → cnt vs c = cnt (delete x vs) c + one h c.
Proof using Type.
  intros Hx. rewrite <-(cnt_insert (delete x vs) x) by apply lookup_delete_eq.
  by rewrite insert_delete_id.
Qed.

Lemma cnt_le vs c : 0 <= cnt vs c <= Z.of_nat (base.size vs).
Proof using Type.
  split; [unfold cnt; lia|]. unfold cnt. apply inj_le.
  apply (map_subseteq_size (filter (shares c) vs)), map_filter_subseteq.
Qed.

Lemma cnt_pos vs c : 0 < cnt vs c → ∃ x h, vs !! x = Some h ∧ _control h = Some c.
Proof using Type.
  unfold cnt. intros Hc. destruct (decide (filter (shares c) vs = ∅)) as [E|E].
  - rewrite E, map_size_empty in Hc. lia.
  - apply map_choose in E as (x & h & Hh). apply map_lookup_filter_Some in Hh as [Hh Hs].
    by exists x, h.
Qed.

Lemma one_null c : one (SPtr None None) c = 0.
Proof using Type. unfold one. by rewrite decide_False. Qed.
Lemma one_same p c : one (SPtr p (Some c)) c = 1.
Proof using Type. unfold one. by rewrite decide_True. Qed.
Lemma one_other p c c' : c ≠ c' → one (SPtr p (Some c)) c' = 0.
Proof using Type. intros ?. unfold one. rewrite decide_False; simpl; congruence. Qed.

(** ** The invariant

    [vs] are the handles that count, [gm] gives the object of every control block. *)
Record inv (vs : gmap nat sptr) (gm : gmap loc loc) (rw : gset loc) (vl : gmap loc T)
    (ob : gmap loc T) (ct : gmap loc Z) : Prop := {
  i_pair : ∀ x h, vs !! x = Some h →
    h = SPtr None None ∨ ∃ p c, h = SPtr (Some p) (Some c) ∧ gm !! c = Some p;
  i_inj : ∀ c1 c2 p, gm !! c1 = Some p → gm !! c2 = Some p → c1 = c2;
  i_cnt : ∀ c p, gm !! c = Some p → ct !! c = Some (cnt vs c) ∧ 0 < cnt vs c;
  i_ctl : ∀ c, gm !! c = None → ct !! c = None;
  i_obj : ∀ l v, ob !! l = Some v ↔ vl !! l = Some v ∧ (l ∈ rw ∨ ∃ c, gm !! c = Some l);
  i_raw : ∀ c p, gm !! c = Some p → p ∉ rw;
  i_val : ∀ l, (l ∈ rw ∨ ∃ c, gm !! c = Some l) → is_Some (vl !! l) }.

Lemma inv_attach_null vs gm rw vl ob ct x :
  inv vs gm rw vl ob ct → vs !! x = None → inv (<[x := SPtr None None]> vs) gm rw vl ob ct.
Proof using Type.
  intros [Hp Hi Hc Ht Ho Hr Hv] Hx. split; try done.
  - intros y h. rewrite lookup_insert. case_decide; [intros [= <-]; by left|apply Hp].
  - intros c p Hg. rewrite cnt_insert, one_null, Z.add_0_r by done. by apply (Hc c p).
Qed.

Lemma inv_detach_null vs gm rw vl ob ct x :
  inv vs gm rw vl ob ct → vs !! x = Some (SPtr None None) → inv (delete x vs) gm rw vl ob ct.
Proof using Type.
  intros [Hp Hi Hc Ht Ho Hr Hv] Hx. split; try done.
  - intros y h [_ Hy]%lookup_delete_Some. by apply (Hp y).
  - intros c p Hg. destruct (Hc _ _ Hg) as [H1 H2]. 
    rewrite (cnt_delete _ _ _ _ Hx), one_null, Z.add_0_r in H1, H2. done.
Qed.

(** A copy of a counted handle. *)
Lemma inv_attach_share vs gm rw vl ob ct x y p c :
  inv vs gm rw vl ob ct → vs !! x = None → vs !! y = Some (SPtr (Some p) (Some c)) →
  Z.of_nat (base.size vs) < 2 ^ 31 - 1 →
  ct !! c = Some (cnt vs c) ∧
  inv (<[x := SPtr (Some p) (Some c)]> vs) gm rw vl ob (<[c := sext 32 (cnt vs c + 1)]> ct).
Proof using Type.
  intros [Hp Hi Hc Ht Ho Hr Hv] Hx Hy Hsz.
  assert (Hg : gm !! c = Some p).
  { destruct (Hp _ _ Hy) as [?|(p' & c' & E & Hg)]; [done|]. by injection E as -> ->. }
  destruct (Hc _ _ Hg) as [Hct Hpos]. split; [done|].
  pose proof (cnt_le vs c) as Hle. rewrite sext_small by lia. split; try done.
  - intros y' h. rewrite lookup_insert. case_decide; [|apply Hp].
    intros [= <-]. right. by exists p, c.
  - intros c' p' Hg'. rewrite cnt_insert by done.
    destruct (Hc _ _ Hg') as [H1 H2]. rewrite lookup_insert. case_decide; subst.
    + rewrite one_same. split; [done|lia].
    + rewrite one_other, Z.add_0_r by congruence. done.
  - intros c' Hg'. rewrite lookup_insert_ne by congruence. by apply Ht.
Qed.

(** A new control block for an object that no handle has. *)
Lemma inv_attach_new vs gm rw vl ob ct x l :
  inv vs gm rw vl ob ct → vs !! x = None → l ∈ rw →
  let c := fresh (dom ct) in
  inv (<[x := SPtr (Some l) (Some c)]> vs) (<[c := l]> gm) (rw ∖ {[l]}) vl ob (<[c := 1]> ct).
Proof using Type.
  intros [Hp Hi Hc Ht Ho Hr Hv] Hx Hl c.
  assert (Hfc : ct !! c = None) by (apply not_elem_of_dom, is_fresh).
  assert (Hfg : gm !! c = None).
  { destruct (gm !! c) eqn:E; [|done]. destruct (Hc _ _ E). congruence. }
  assert (Hno : ∀ c', gm !! c' ≠ Some l) by (intros c' E; by destruct (Hr _ _ E)).
  assert (Hzero : cnt vs c = 0).
  { pose proof (cnt_le vs c). destruct (decide (0 < cnt vs c)) as [Hpos|]; [|lia].
    destruct (cnt_pos _ _ Hpos) as (y & h & Hy & Hh).
    destruct (Hp _ _ Hy) as [->|(p & c' & -> & Hg)]; [done|]. simpl in Hh. congruence. }
  split.
  - intros y h. rewrite lookup_insert. case_decide.
    + intros [= <-]. right. exists l, c. by rewrite lookup_insert_eq.
    + intros Hy. destruct (Hp _ _ Hy) as [?|(p & c' & ? & Hg)]; [by left|right].
      exists p, c'. rewrite lookup_insert_ne by congruence. done.
  - intros c1 c2 p. rewrite !lookup_insert. repeat case_decide; naive_solver.
  - intros c' p. rewrite cnt_insert, !lookup_insert by done.
    case_decide; subst.
    + intros _. by rewrite one_same, Hzero.
    + intros Hg. rewrite one_other, Z.add_0_r by congruence. by apply (Hc c' p).
  - intros c'. rewrite !lookup_insert. case_decide; [done|apply Ht].
  - intros l' v. rewrite Ho. split; intros [Hvl Hl']; (split; [done|]).
    + destruct (decide (l' = l)) as [->|Hne].
      * right. exists c. by rewrite lookup_insert_eq.
      * destruct Hl' as [?|[c' Hg]]; [left; set_solver|right]. exists c'.
        rewrite lookup_insert_ne by congruence. done.
    + destruct Hl' as [?|[c' Hg]]; [left; set_solver|].
      rewrite lookup_insert in Hg. case_decide; [left; by injection Hg as <-|right; eauto].
  - intros c' p. rewrite lookup_insert. case_decide; [intros [= <-]; set_solver|].
    intros Hg. apply Hr in Hg. set_solver.
  - intros l' [Hl'|[c' Hg]]; [apply Hv; left; set_solver|].
    rewrite lookup_insert in Hg. case_decide; apply Hv; [left; by injection Hg as <-|right; eauto].
Qed.

(** A handle that is not the last of its object leaves; the count goes down. *)
Lemma inv_detach_shared vs gm rw vl ob ct x p c :
  inv vs gm rw vl ob ct → vs !! x = Some (SPtr (Some p) (Some c)) → cnt vs c ≠ 1 →
  inv (delete x vs) gm rw vl ob (<[c := cnt vs c - 1]> ct).
Proof using Type.
  intros [Hp Hi Hc Ht Ho Hr Hv] Hx Hne.
  assert (Hg : gm !! c = Some p).
  { destruct (Hp _ _ Hx) as [?|(p' & c' & E & Hg)]; [done|]. by injection E as -> ->. }
  destruct (Hc _ _ Hg) as [_ Hpos]. split; try done.
  - intros y h [_ Hy]%lookup_delete_Some. by apply (Hp y).
  - intros c' p' Hg'. destruct (Hc _ _ Hg') as [H1 H2].
    pose proof (cnt_delete vs x _ c' Hx) as Hd. rewrite lookup_insert. case_decide; subst.
    + rewrite one_same in Hd. split; [f_equal; lia|lia].
    + rewrite one_other, Z.add_0_r in Hd by done. by rewrite <-Hd.
  - intros c' Hg'. rewrite lookup_insert_ne by congruence. by apply Ht.
Qed.

(** The last handle leaves: the object and the control block go. *)
Lemma inv_detach_last vs gm rw vl ob ct x p c :
  inv vs gm rw vl ob ct → vs !! x = Some (SPtr (Some p) (Some c)) → cnt vs c = 1 →
  inv (delete x vs) (delete c gm) rw vl (delete p ob) (delete c ct).
Proof using Type.
  intros [Hp Hi Hc Ht Ho Hr Hv] Hx Hone.
  assert (Hg : gm !! c = Some p).
  { destruct (Hp _ _ Hx) as [?|(p' & c' & E & Hg)]; [done|]. by injection E as -> ->. }
  assert (Hzero : cnt (delete x vs) c = 0).
  { rewrite (cnt_delete _ _ _ _ Hx), one_same in Hone. lia. }
  split.
  - intros y h Hy. pose proof Hy as [_ Hy']%lookup_delete_Some.
    destruct (Hp _ _ Hy') as [?|(p' & c' & -> & Hg')]; [by left|right].
    exists p', c'. split; [done|]. apply lookup_delete_Some. split; [|done]. intros <-.
    rewrite (cnt_delete _ _ _ _ Hy), one_same in Hzero.
    pose proof (cnt_le (delete y (delete x vs)) c). lia.
  - intros c1 c2 q [_ H1]%lookup_delete_Some [_ H2]%lookup_delete_Some. by eapply Hi.
  - intros c' q [Hne Hg']%lookup_delete_Some. destruct (Hc _ _ Hg') as [H1 H2].
    rewrite lookup_delete_ne by done.
    pose proof (cnt_delete vs x _ c' Hx) as Hd. rewrite one_other, Z.add_0_r in Hd by done.
    by rewrite <-Hd.
  - intros c' Hg'. destruct (decide (c = c')) as [->|Hne]; [by rewrite lookup_delete_eq|].
    rewrite lookup_delete_ne in Hg' by done. rewrite lookup_delete_ne by done. by apply Ht.
  - intros l v. rewrite lookup_delete_Some, Ho. split.
    + intros (Hne & Hvl & [?|[c' Hg']]); (split; [done|]); [by left|right].
      exists c'. apply lookup_delete_Some. split; [|done]. congruence.
    + intros [Hvl Hl]. split; [|split; [done|]].
      * intros <-. destruct Hl as [Hl|[c' [Hne Hg']%lookup_delete_Some]].
        { by apply (Hr _ _ Hg). } { apply Hne. by eapply Hi. }
      * destruct Hl as [?|[c' [_ Hg']%lookup_delete_Some]]; [by left|right; eauto].
  - intros c' q [_ Hg']%lookup_delete_Some. by eapply Hr.
  - intros l [Hl|[c' [_ Hg']%lookup_delete_Some]]; apply Hv; [by left|right; eauto].
Qed.

Lemma release_spec vs gm rw vl ob ct x h :
  inv vs gm rw vl ob ct → vs !! x = Some h → Z.of_nat (base.size vs) < 2 ^ 31 - 1 →
  ∃ gm' h' ob' ct', release x (Mem vs ob ct) = (Ret (), Mem (<[x := h']> vs) ob' ct') ∧
    inv (delete x vs) gm' rw vl ob' ct'.
Proof using Type.
  intros Hi Hx Hsz. unfold release, read_var. run_prog. cbn [vars objs ctls]. rewrite Hx.
  cbn [deref]. destruct (i_pair _ _ _ _ _ _ Hi _ _ Hx) as [->|(p & c & -> & Hg)].
  - exists gm, (SPtr None None), ob, ct. rewrite insert_id by done.
    split; [done|by apply inv_detach_null].
  - cbn [_control]. destruct (i_cnt _ _ _ _ _ _ Hi _ _ Hg) as [Hct Hpos].
    unfold add_cnt, load_cnt. cbn [vars objs ctls]. rewrite Hct. cbn [deref ctls].
    pose proof (cnt_le vs c) as Hle. rewrite sext_small by lia.
    rewrite lookup_insert_eq. cbn [deref]. destruct (Z.eqb_spec (cnt vs c + -1) 0) as [E|E].
    + destruct (i_val _ _ _ _ _ _ Hi p) as [v Hv]; [right; by exists c|].
      assert (Hob : ob !! p = Some v).
      { apply (i_obj _ _ _ _ _ _ Hi). split; [done|right; by exists c]. }
      unfold delete_obj, write_var, delete_control. cbn [_ptr vars objs ctls].
      rewrite Hob. unfold modify. cbn [vars objs ctls]. rewrite lookup_insert_eq.
      exists (delete c gm), (SPtr None None), (delete p ob), (delete c ct).
      cbn [vars objs ctls]. rewrite insert_insert_eq, delete_insert_eq. split; [done|].
      apply inv_detach_last; [done|done|lia].
    + exists gm, (SPtr (Some p) (Some c)), ob, (<[c := cnt vs c - 1]> ct).
      rewrite (insert_id vs) by done. split; [done|].
      eapply inv_detach_shared; [done|done|lia].
Qed.

(** A handle moves from one variable to another. *)
Lemma move_keeps_inv vs gm rw vl ob ct x y o :
  inv vs gm rw vl ob ct → vs !! x = None → vs !! y = Some o →
  inv (<[y := SPtr None None]> (<[x := o]> vs)) gm rw vl ob ct.
Proof using Type.
  intros [Hp Hi Hc Ht Ho Hr Hv] Hx Hy. assert (Hne : x ≠ y) by congruence. split; try done.
  - intros z h. rewrite !lookup_insert. repeat case_decide; subst.
    + intros [= <-]. by left.
    + intros [= <-]. by apply (Hp y).
    + apply Hp.
  - intros c p Hg. assert (cnt (<[y := SPtr None None]> (<[x := o]> vs)) c = cnt vs c) as ->;
      [|by apply (Hc c p)].
    rewrite <-insert_delete_eq, cnt_insert, one_null, Z.add_0_r by apply lookup_delete_eq.
    rewrite delete_insert_ne, cnt_insert by (try rewrite lookup_delete_ne; done).
    by rewrite <-cnt_delete.
Qed.

Lemma share_spec vs gm rw vl ob ct x y o W :
  inv vs gm rw vl ob ct → vs !! x = None → vs !! y = Some o →
  Z.of_nat (base.size vs) < 2 ^ 31 - 1 →
  ∃ ct', increment (_control o) (Mem W ob ct) = (Ret (), Mem W ob ct') ∧
    inv (<[x := o]> vs) gm rw vl ob ct'.
Proof using Type.
  intros Hi Hx Hy Hsz. destruct (i_pair _ _ _ _ _ _ Hi _ _ Hy) as [->|(p & c & -> & Hg)].
  - exists ct. split; [done|]. by apply inv_attach_null.
  - destruct (inv_attach_share _ _ _ _ _ _ x y p c Hi Hx Hy Hsz) as [Hct Hi'].
    eexists. split; [|exact Hi']. simpl. unfold add_cnt. simpl. by rewrite Hct.
Qed.

(** ** The simulation *)

Definition refines (m : mem T) (a : spec) : Prop :=
  owner a = _ptr <$> vars m ∧ ∃ gm, inv (vars m) gm (raw a) (value a) (objs m) (ctls m).

Lemma refines_var m a x :
  refines m a → is_Some (owner a !! x) → ∃ h, vars m !! x = Some h ∧ owned a x = _ptr h.
Proof using Type.
  intros [Ho _] [p Hp]. unfold owned. rewrite Ho, lookup_fmap in *.
  destruct (vars m !! x) as [h|]; [by exists h|done].
Qed.

Lemma refines_none m a x : refines m a → owner a !! x = None → vars m !! x = None.
Proof using Type. intros [Ho _]. rewrite Ho, lookup_fmap. by destruct (vars m !! x). Qed.

Lemma refines_size m a : refines m a → base.size (vars m) = base.size (owner a).
Proof using Type. intros [-> _]. by rewrite map_size_fmap. Qed.

Lemma owned_not_raw m a x l : refines m a → owned a x = Some l → l ∉ raw a.
Proof using Type.
  intros [Ho (gm & Hi)]. unfold owned. rewrite Ho, lookup_fmap.
  destruct (vars m !! x) as [h|] eqn:Hx; [|done].
  destruct (i_pair _ _ _ _ _ _ Hi _ _ Hx) as [->|(p & c & -> & Hg)]; [done|].
  intros [= ->]. by eapply i_raw.
Qed.

Lemma sptr_eta h : SPtr (_ptr h) (_control h) = h.
Proof using Type. by destruct h. Qed.

Lemma exec_new m a p v :
  refines m a → legal (New p v) a →
  ∃ m', new_obj p v m = (Ret (), m') ∧ refines m' (spec_op (New p v) a).
Proof using Type.
  intros [Ho (gm & [Hp Hi Hc Ht Hob Hr Hv])] (_ & Hraw & Hno).
  assert (Hng : ∀ c, gm !! c ≠ Some p).
  { intros c Hg. destruct (Hc _ _ Hg) as [_ Hpos]. destruct (cnt_pos _ _ Hpos) as (x & h & Hx & Hh).
    destruct (Hp _ _ Hx) as [->|(p' & c' & -> & Hg')]; [done|]. simpl in Hh.
    apply (Hno x (Some p)); [|done]. rewrite Ho, lookup_fmap, Hx. simpl. congruence. }
  eexists. split; [reflexivity|]. split; [done|]. exists gm. split; simpl; try done.
  - intros l w. rewrite !lookup_insert. case_decide; subst.
    + set_solver.
    + rewrite Hob. set_solver.
  - intros c q Hg. pose proof (Hr _ _ Hg). set_solver.
  - intros l Hl. rewrite lookup_insert. case_decide; [by eexists|]. apply Hv. set_solver.
Qed.

Lemma exec_ctor_raw m a x p :
  refines m a → legal (CtorRaw x p) a →
  ∃ m', ctor_raw x p m = (Ret (), m') ∧ refines m' (spec_op (CtorRaw x p) a).
Proof using Type.
  intros HR (_ & Hx & Hl). pose proof (refines_none _ _ _ HR Hx) as Hvx.
  destruct HR as [Ho (gm & Hi)]. destruct p as [l|]; (eexists; split; [reflexivity|]).
  - split; [simpl; by rewrite Ho, fmap_insert|]. eexists. simpl.
    apply inv_attach_new; [done|done|by apply Hl].
  - split; [simpl; by rewrite Ho, fmap_insert|]. exists gm. by apply inv_attach_null.
Qed.

Lemma exec_copy_ctor m a x y :
  refines m a → legal (CopyCtor x y) a →
  ∃ m', copy_ctor x y m = (Ret (), m') ∧ refines m' (spec_op (CopyCtor x y) a).
Proof using Type.
  intros HR (Hsz & Hx & Hy). pose proof (refines_none _ _ _ HR Hx) as Hvx.
  destruct (refines_var _ _ _ HR Hy) as (o & Hvy & Hoy).
  rewrite <-(refines_size _ _ HR) in Hsz. destruct HR as [Ho (gm & Hi)].
  unfold copy_ctor, read_var, write_var. run_prog. rewrite Hvy. cbn [deref]. rewrite sptr_eta.
  destruct (share_spec _ _ _ _ _ _ x y o (<[x := o]> (vars m)) Hi Hvx Hvy Hsz) as (ct & Hr & Hi').
  rewrite Hr. eexists. split; [reflexivity|].
  split; [simpl; by rewrite Ho, Hoy, fmap_insert|by exists gm].
Qed.

Lemma exec_move_ctor m a x y :
  refines m a → legal (MoveCtor x y) a →
  ∃ m', move_ctor x y m = (Ret (), m') ∧ refines m' (spec_op (MoveCtor x y) a).
Proof using Type.
  intros HR (Hsz & Hx & Hy). pose proof (refines_none _ _ _ HR Hx) as Hvx.
  destruct (refines_var _ _ _ HR Hy) as (o & Hvy & Hoy). destruct HR as [Ho (gm & Hi)].
  unfold move_ctor, read_var, write_var. run_prog. rewrite Hvy. cbn [deref]. rewrite sptr_eta.
  eexists. split; [reflexivity|]. split; [simpl; by rewrite Ho, Hoy, !fmap_insert|].
  exists gm. by apply move_keeps_inv.
Qed.

Lemma exec_copy_assign m a x y :
  refines m a → legal (CopyAssign x y) a →
  ∃ m', copy_assign x y m = (Ret (), m') ∧ refines m' (spec_op (CopyAssign x y) a).
Proof using Type.
  intros HR (Hsz & Hx & Hy). destruct (refines_var _ _ _ HR Hx) as (h & Hvx & Hox).
  destruct (refines_var _ _ _ HR Hy) as (o & Hvy & Hoy).
  rewrite <-(refines_size _ _ HR) in Hsz. destruct HR as [Ho (gm & Hi)].
  unfold copy_assign. case_decide as Hxy.
  - subst y. eexists. split; [reflexivity|]. split; [|by exists gm]. simpl. rewrite <-Ho.
    apply insert_id. rewrite Ho, lookup_fmap, Hvx, Hox. done.
  - destruct m as [vs ob ct]. simpl in *.
    destruct (release_spec _ _ _ _ _ _ _ _ Hi Hvx Hsz) as (gm' & h' & ob' & ct' & Hr & Hi').
    unfold read_var, write_var. run_prog. rewrite Hr. cbn [vars].
    rewrite lookup_insert_ne, Hvy by done. cbn [deref]. rewrite sptr_eta.
    cbn [objs ctls]. rewrite insert_insert_eq.
    destruct (share_spec _ _ _ _ _ _ x y o (<[x := o]> vs) Hi') as (ct2 & Hr2 & Hi2).
    { apply lookup_delete_eq. } { by rewrite lookup_delete_ne. }
    { rewrite map_size_delete, Hvx. lia. }
    rewrite Hr2. rewrite insert_delete_eq in Hi2. eexists. split; [reflexivity|].
    split; [simpl; by rewrite Ho, Hoy, fmap_insert|by exists gm'].
Qed.

Lemma exec_move_assign m a x y :
  refines m a → legal (MoveAssign x y) a →
  ∃ m', move_assign x y m = (Ret (), m') ∧ refines m' (spec_op (MoveAssign x y) a).
Proof using Type.
  intros HR (Hsz & Hx & Hy). destruct (refines_var _ _ _ HR Hx) as (h & Hvx & Hox).
  destruct (refines_var _ _ _ HR Hy) as (o & Hvy & Hoy).
  rewrite <-(refines_size _ _ HR) in Hsz. unfold move_assign. simpl. case_decide as Hxy.
  - eexists. split; [reflexivity|done].
  - destruct HR as [Ho (gm & Hi)]. destruct m as [vs ob ct]. simpl in *.
    destruct (release_spec _ _ _ _ _ _ _ _ Hi Hvx Hsz) as (gm' & h' & ob' & ct' & Hr & Hi').
    unfold read_var, write_var. run_prog. rewrite Hr. cbn [vars].
    rewrite lookup_insert_ne, Hvy by done. cbn [deref]. rewrite sptr_eta.
    cbn [objs ctls vars]. rewrite insert_insert_eq.
    eexists. split; [reflexivity|]. split; [simpl; by rewrite Ho, Hoy, !fmap_insert|].
    exists gm'. simpl. rewrite <-(insert_delete_eq vs x o).
    apply move_keeps_inv; [done|apply lookup_delete_eq|by rewrite lookup_delete_ne].
Qed.

Lemma exec_dtor m a x :
  refines m a → legal (Dtor x) a →
  ∃ m', destructor x m = (Ret (), m') ∧ refines m' (spec_op (Dtor x) a).
Proof using Type.
  intros HR (Hsz & Hx). destruct (refines_var _ _ _ HR Hx) as (h & Hvx & Hox).
  rewrite <-(refines_size _ _ HR) in Hsz. destruct HR as [Ho (gm & Hi)].
  destruct m as [vs ob ct]. simpl in *.
  destruct (release_spec _ _ _ _ _ _ _ _ Hi Hvx Hsz) as (gm' & h' & ob' & ct' & Hr & Hi').
  unfold destructor. run_prog. rewrite Hr. cbn [vars objs ctls]. rewrite delete_insert_eq.
  eexists. split; [reflexivity|]. split; [simpl; by rewrite Ho, fmap_delete|by exists gm'].
Qed.

Lemma adopt_owned m a x p :
  refines m a → p = owned a x → adopt p a = a.
Proof using Type.
  intros HR ->. destruct (owned a x) as [l|] eqn:E; [|done].
  pose proof (owned_not_raw _ _ _ _ HR E). destruct a as [ow rw vl]. simpl in *.
  f_equal. set_solver.
Qed.

Lemma exec_reset m a x p :
  refines m a → legal (Reset x p) a →
  ∃ m', reset x p m = (Ret (), m') ∧ refines m' (spec_op (Reset x p) a).
Proof using Type.
  intros HR (Hsz & Hx & Hp). destruct (refines_var _ _ _ HR Hx) as (h & Hvx & Hox).
  rewrite <-(refines_size _ _ HR) in Hsz. unfold reset, read_var. run_prog. rewrite Hvx.
  cbn [deref]. case_decide as Hhp.
  - eexists. split; [reflexivity|]. simpl. rewrite (adopt_owned _ _ x _ HR) by congruence.
    destruct HR as [Ho (gm & Hi)]. split; [|by exists gm]. simpl. rewrite <-Ho.
    apply insert_id. by rewrite Ho, lookup_fmap, Hvx, <-Hhp.
  - destruct HR as [Ho (gm & Hi)]. destruct m as [vs ob ct]. simpl in *.
    destruct (release_spec _ _ _ _ _ _ _ _ Hi Hvx Hsz) as (gm' & h' & ob' & ct' & Hr & Hi').
    rewrite Hr. cbn [vars]. rewrite lookup_insert_eq. cbn [deref]. unfold write_var, new_control.
    run_prog. cbn [vars objs ctls]. destruct p as [l|].
    + destruct Hp as [Hp|[Hp|(l' & [= <-] & Hl)]]; [congruence|done|].
      eexists. split; [reflexivity|]. split; [simpl; by rewrite !insert_insert_eq, fmap_insert, Ho|].
      eexists. simpl. rewrite !insert_insert_eq, <-(insert_delete_eq vs).
      apply inv_attach_new; [done|apply lookup_delete_eq|done].
    + eexists. split; [reflexivity|]. split; [simpl; by rewrite Ho, !insert_insert_eq, fmap_insert|].
      exists gm'. simpl. rewrite !insert_insert_eq, <-(insert_delete_eq vs).
      apply inv_attach_null; [done|apply lookup_delete_eq].
Qed.

Lemma exec_refines m a o :
  refines m a → legal o a → ∃ m', exec o m = (Ret (), m') ∧ refines m' (spec_op o a).
Proof using Type.
  destruct o; intros HR Hl.
  - by apply exec_new.
  - destruct Hl as [_ Hx]. pose proof (refines_none _ _ _ HR Hx). destruct HR as [Ho (gm & Hi)].
    eexists. split; [reflexivity|]. split; [simpl; by rewrite Ho, fmap_insert|].
    exists gm. by apply inv_attach_null.
  - by apply exec_ctor_raw.
  - by apply exec_copy_ctor.
  - by apply exec_move_ctor.
  - by apply exec_copy_assign.
  - by apply exec_move_assign.
  - by apply exec_reset.
  - by apply exec_dtor.
Qed.

Lemma exec_all_refines os m a :
  refines m a → legal_all os a → ∃ m', exec_all os m = (Ret (), m') ∧ refines m' (spec_all os a).
Proof using Type.
  revert m a. induction os as [|o os IH]; intros m a HR Hl; [by exists m|].
  destruct Hl as [Hl Hls]. destruct (exec_refines _ _ _ HR Hl) as (m1 & He & HR1).
  destruct (IH _ _ HR1 Hls) as (m2 & He2 & HR2). exists m2. split; [|done].
  cbn [exec_all]. run_prog. by rewrite He.
Qed.

Definition mem0 : mem T := Mem ∅ ∅ ∅.
Definition spec0 : spec := Spec ∅ ∅ ∅.

Lemma refines_init : refines mem0 spec0.
Proof using Type.
  split; [simpl; by rewrite fmap_empty|]. exists ∅. split; simpl; try done.
  - intros l v. rewrite !lookup_empty. naive_solver.
  - set_solver.
Qed.

(** The number of handles that own [l]. *)
Definition owns (l : loc) (kv : nat * option loc) : Prop := kv.2 = Some l.
#[local] Instance owns_dec l kv : Decision (owns l kv).
Proof. unfold owns. apply _. Defined.
Definition owners (a : spec) (l : loc) : Z := Z.of_nat (base.size (filter (owns l) (owner a))).

Lemma refines_cnt m a gm c l :
  owner a = _ptr <$> vars m → inv (vars m) gm (raw a) (value a) (objs m) (ctls m) →
  gm !! c = Some l → cnt (vars m) c = owners a l.
Proof using Type.
  intros Ho Hi Hg. unfold cnt, owners. rewrite Ho, map_filter_fmap, map_size_fmap.
  f_equal. f_equal. apply map_filter_ext. intros x h Hx. unfold shares, owns. simpl.
  destruct (i_pair _ _ _ _ _ _ Hi _ _ Hx) as [->|(p & c' & -> & Hg')]; [done|]. simpl.
  split; intros [= ->]; [congruence|]. f_equal. by eapply i_inj.
Qed.
End shared_ptr.

(** C10. Every history of legal calls runs without undefined behaviour (no object or
    control block is deleted twice or used after it is deleted), and afterwards a handle
    points to the object the specification says it owns, [use_cnt] is the number of
    handles that own the object (0 for a null handle), exactly the objects with an owner
    or not yet handed over are alive with their values, so that each is deleted when its
    last owner goes, and every control block still has a handle. *)
Theorem shared_ptr_refines {T} (os : list (op (T := T))) :
  legal_all os spec0 →
  let a := spec_all os spec0 in
  ∃ m, exec_all os mem0 = (Ret (), m) ∧
    (∀ x, is_Some (owner a !! x) →
      get_ptr x m = (Ret (owned a x), m) ∧
      use_cnt x m = (Ret (match owned a x with Some l => owners a l | None => 0 end), m) ∧
      ∀ l, owned a x = Some l → ∃ v, value a !! l = Some v ∧ deref_obj x m = (Ret v, m)) ∧
    (∀ l v, objs m !! l = Some v ↔ value a !! l = Some v ∧ live a l) ∧
    (∀ c, is_Some (ctls m !! c) → ∃ x h, vars m !! x = Some h ∧ _control h = Some c).
Proof.
  intros Hl a. destruct (exec_all_refines _ _ _ refines_init Hl) as (m & He & HR).
  fold a in HR. exists m. split; [done|].
  pose proof HR as [Ho (gm & Hi)].
  assert (Hlive : ∀ l, live a l ↔ l ∈ raw a ∨ ∃ c, gm !! c = Some l).
  { intros l. unfold live. apply or_iff_compat_l. rewrite Ho. split.
    - intros (x & Hx). rewrite lookup_fmap in Hx. destruct (vars m !! x) as [h|] eqn:E; [|done].
      destruct (i_pair _ _ _ _ _ _ Hi _ _ E) as [->|(p & c & -> & Hg)]; [done|].
      injection Hx as ->. by exists c.
    - intros (c & Hg). destruct (i_cnt _ _ _ _ _ _ Hi _ _ Hg) as [_ Hpos].
      destruct (cnt_pos _ _ Hpos) as (x & h & Hx & Hh). exists x. rewrite lookup_fmap, Hx.
      destruct (i_pair _ _ _ _ _ _ Hi _ _ Hx) as [->|(p & c' & -> & Hg')]; [done|].
      simpl in *. congruence. }
  split; [|split].
  - intros x Hx. destruct (refines_var _ _ _ HR Hx) as (h & Hvx & Hox).
    unfold get_ptr, use_cnt, deref_obj, read_var, load_cnt. run_prog. rewrite Hvx, Hox.
    cbn [deref]. split; [done|].
    destruct (i_pair _ _ _ _ _ _ Hi _ _ Hvx) as [->|(p & c & -> & Hg)]; [done|].
    destruct (i_cnt _ _ _ _ _ _ Hi _ _ Hg) as [Hct _]. cbn [_control _ptr]. split.
    + by rewrite Hct, (refines_cnt _ _ _ _ _ Ho Hi Hg).
    + intros l [= <-]. destruct (i_val _ _ _ _ _ _ Hi p) as [v Hv]; [right; by exists c|].
      exists v. split; [done|].
      assert (Hob : objs m !! p = Some v)
        by (apply (i_obj _ _ _ _ _ _ Hi); split; [done|right; by exists c]).
      cbn. by rewrite Hob.
  - intros l v. by rewrite Hlive, (i_obj _ _ _ _ _ _ Hi).
  - intros c [n Hc]. destruct (gm !! c) as [p|] eqn:Hg.
    + destruct (i_cnt _ _ _ _ _ _ Hi _ _ Hg) as [_ Hpos]. by apply cnt_pos.
    + by rewrite (i_ctl _ _ _ _ _ _ Hi _ Hg) in Hc.
Qed.

(** main of simple_shared_ptr.cpp: three handles, and their counts on the way. *)
Definition main_ops : list (op (T := string)) :=
  [CtorDefault 1; New 1 "jason"; CtorRaw 2 (Some 1%positive); CopyCtor 3 2; CopyAssign 1 3;
   New 2 "Tom"; Reset 2 (Some 2%positive)].

#[export] Instance legal_dec {T} (o : op (T := T)) a : Decision (legal o a).
Proof.
  destruct o; simpl; try apply _.
  - apply and_dec; [apply _|]. apply and_dec; [apply _|].
    destruct p as [l|]; [|left; done].
    destruct (decide (l ∈ raw a)); [left; by intros ? [= <-]|right; naive_solver].
  - apply and_dec; [apply _|]. apply and_dec; [apply _|]. apply or_dec; [apply _|].
    apply or_dec; [apply _|]. destruct p as [l|]; [|right; naive_solver].
    destruct (decide (l ∈ raw a)); [left; by exists l|right; naive_solver].
Defined.
#[export] Instance legal_all_dec {T} (os : list (op (T := T))) a : Decision (legal_all os a).
Proof. revert a. induction os; simpl; apply _. Defined.

Lemma shared_ptr_refines_witness :
  ∃ m, exec_all main_ops mem0 = (Ret (), m) ∧
    use_cnt 1 m = (Ret 2, m) ∧ use_cnt 2 m = (Ret 1, m) ∧ use_cnt 3 m = (Ret 2, m) ∧
    deref_obj 2 m = (Ret "Tom"%string, m).
Proof.
  destruct (shared_ptr_refines main_ops) as (m & He & Hx & _).
  { apply (bool_decide_unpack _). vm_compute. exact I. }
  exists m. split; [exact He|].
  destruct (Hx 1%nat) as (_ & H1 & _); [vm_compute; by eexists|].
  destruct (Hx 2%nat) as (_ & H2 & Hd); [vm_compute; by eexists|].
  destruct (Hx 3%nat) as (_ & H3 & _); [vm_compute; by eexists|].
  split; [exact H1|]. split; [exact H2|]. split; [exact H3|].
  destruct (Hd 2%positive) as (v & Hv & Hr); [vm_compute; reflexivity|].
  vm_compute in Hv. injection Hv as <-. exact Hr.
Defined.

(** ** Threads that release handles of one object at the same time

    In [release] the decrement and the test of the counter are two operations on the
    atomic; so are the two deletes that follow. *)

Inductive release_pc := AtDecr | AtTest | AtDeletePtr | AtDeleteControl | Released.
#[export] Instance release_pc_eq_dec : EqDecision release_pc.
Proof. solve_decision. Defined.

Record shared_block := Block {
  ref_cnt : Z; block_live : bool; object_live : bool; pcs : list release_pc }.

(** [n] handles, one per thread. *)
Definition shared_by (n : nat) : shared_block :=
  Block (Z.of_nat n) true true (replicate n AtDecr).

(** Thread [t] runs its next operation. *)
Definition release_step (s : shared_block) (t : nat) : outcome shared_block :=
  let at_ c := <[t := c]> (pcs s) in
  match pcs s !! t with
  | Some AtDecr =>
      if block_live s then Ret (Block (ref_cnt s - 1) true (object_live s) (at_ AtTest))
      else Undef
  | Some AtTest =>
      if block_live s then
        Ret (Block (ref_cnt s) true (object_live s)
               (at_ (if ref_cnt s =? 0 then AtDeletePtr else Released)))
      else Undef
  | Some AtDeletePtr =>
      if object_live s then Ret (Block (ref_cnt s) (block_live s) false (at_ AtDeleteControl))
      else Undef
  | Some AtDeleteControl =>
      if block_live s then Ret (Block (ref_cnt s) false (object_live s) (at_ Released))
      else Undef
  | _ => Ret s
  end.

Fixpoint release_run (s : shared_block) (ts : list nat) : outcome shared_block :=
  match ts with [] => Ret s | t :: ts => s ← release_step s t; release_run s ts end.

Definition waiting (l : list release_pc) : Z := Z.of_nat (length (filter (.= AtDecr) l)).

Lemma waiting_insert l t c c' :
  l !! t = Some c → c' ≠ AtDecr →
  waiting (<[t := c']> l) = waiting l - (if decide (c = AtDecr) then 1 else 0).
Proof.
  intros Hl Hc. pose proof (lookup_lt_Some _ _ _ Hl) as Hlt.
  rewrite <-(take_drop_middle _ _ _ Hl) at 2. rewrite insert_take_drop by done.
  unfold waiting. rewrite !filter_app, !length_app, !filter_cons.
  rewrite (decide_False (P := c' = AtDecr)) by done. case_decide; simpl; lia.
Qed.

(** The counter is the number of threads that have not decremented it; when it is zero
    some thread is on its way to the deletes, or they are done. *)
Definition block_inv (s : shared_block) : Prop :=
  ref_cnt s = waiting (pcs s) ∧
  (0 < ref_cnt s ∨ AtTest ∈ pcs s ∨ AtDeletePtr ∈ pcs s ∨
   (object_live s = false ∧ (AtDeleteControl ∈ pcs s ∨ block_live s = false))).

Lemma elem_of_insert_other (l : list release_pc) t c c' x :
  l !! t = Some c → x ∈ l → x ≠ c → x ∈ <[t := c']> l.
Proof.
  intros Hl Hx Hne. apply list_elem_of_lookup in Hx as [i Hi]. apply list_elem_of_lookup.
  exists i. rewrite list_lookup_insert_ne by congruence. done.
Qed.

Lemma elem_of_insert_self (l : list release_pc) t c c' : l !! t = Some c → c' ∈ <[t := c']> l.
Proof.
  intros Hl. apply list_elem_of_lookup. exists t.
  apply list_lookup_insert_eq. by eapply lookup_lt_Some.
Qed.

Lemma release_step_inv s t s' : block_inv s → release_step s t = Ret s' → block_inv s'.
Proof.
  intros [Hc Hd]. unfold release_step. destruct (pcs s !! t) as [c|] eqn:Ht;
    [|by intros [= <-]].
  pose proof (elem_of_insert_self _ _ _ AtTest Ht).
  pose proof (elem_of_insert_self _ _ _ AtDeletePtr Ht).
  pose proof (elem_of_insert_self _ _ _ AtDeleteControl Ht).
  pose proof (λ c' x, elem_of_insert_other _ _ _ c' x Ht) as Hother.
  destruct c; [destruct (block_live s) eqn:Hb|destruct (block_live s) eqn:Hb|
    destruct (object_live s) eqn:Hob|destruct (block_live s) eqn:Hb|];
    try done; intros [= <-]; unfold block_inv; simpl.
  - rewrite (waiting_insert _ _ _ _ Ht) by done. rewrite decide_True by done.
    split; [lia|]. right. by left.
  - destruct (Z.eqb_spec (ref_cnt s) 0) as [E|E];
      rewrite (waiting_insert _ _ _ _ Ht), decide_False, Z.sub_0_r by done; (split; [done|]).
    + right. right. by left.
    + left. unfold waiting in Hc. lia.
  - rewrite (waiting_insert _ _ _ _ Ht), decide_False, Z.sub_0_r by done. split; [done|].
    right. right. right. split; [done|]. by left.
  - rewrite (waiting_insert _ _ _ _ Ht), decide_False, Z.sub_0_r by done. split; [done|].
    destruct Hd as [?|[?|[?|[? _]]]]; [by left| | |].
    + right. left. by apply Hother.
    + right. right. left. by apply Hother.
    + right. right. right. by split; [|right].
  - by split.
Qed.

Lemma release_run_inv ts s s' : block_inv s → release_run s ts = Ret s' → block_inv s'.
Proof.
  revert s. induction ts as [|t ts IH]; intros s Hi; cbn [release_run]; [by intros [= <-]|].
  destruct (release_step s t) as [s1| |] eqn:E; cbn [mbind outcome_bind]; [|done|done].
  apply IH. by eapply release_step_inv.
Qed.

Lemma waiting_replicate n : waiting (replicate n AtDecr) = Z.of_nat n.
Proof.
  unfold waiting. induction n as [|n IH]; [done|]. cbn [replicate].
  rewrite filter_cons_True by done. cbn [length]. lia.
Qed.

Lemma waiting_released l : Forall (.= Released) l → waiting l = 0.
Proof.
  unfold waiting. induction 1 as [|c l -> _ IH]; [done|]. by rewrite filter_cons_False.
Qed.

(** Nothing leaks: when any number of threads release their handles in any order of
    operations and all have returned without undefined behaviour, the object and its
    control block have been deleted. *)
Theorem concurrent_release_no_leak n ts s :
  (0 < n)%nat → release_run (shared_by n) ts = Ret s → Forall (.= Released) (pcs s) →
  object_live s = false ∧ block_live s = false.
Proof.
  intros Hn Hr Hall.
  assert (Hi : block_inv (shared_by n)).
  { split; simpl; [by rewrite waiting_replicate|left; lia]. }
  pose proof (release_run_inv _ _ _ Hi Hr) as [Hc Hd]. pose proof (waiting_released _ Hall) as Hw.
  rewrite Forall_forall in Hall.
  destruct Hd as [?|[Hx|[Hx|[? [Hx|?]]]]]; [lia|by apply Hall in Hx..|done].
Qed.

Lemma concurrent_release_no_leak_witness :
  ∃ s, release_run (shared_by 2) [0; 0; 1; 1; 1; 1]%nat = Ret s ∧
    object_live s = false ∧ block_live s = false.
Proof.
  eexists. split; [reflexivity|].
  eapply (concurrent_release_no_leak 2 [0; 0; 1; 1; 1; 1]%nat); [lia|reflexivity|].
  repeat constructor.
Defined.

(** Two threads that release the last two handles can both see the count zero and
    both delete the object: the second delete is undefined behaviour. *)
Theorem concurrent_release_deletes_twice :
  (∃ s, release_run (shared_by 2) [0; 1; 0; 1; 0]%nat = Ret s ∧ object_live s = false ∧
        pcs s = [AtDeleteControl; AtDeletePtr]) ∧
  release_run (shared_by 2) [0; 1; 0; 1; 0; 1]%nat = Undef.
Proof. split; [eexists; repeat split; reflexivity|reflexivity]. Qed.
