(* ===== verification/BstMap.v ===== *)
(** * [bst_map::map] of base_stl/map_demo.h

    An unbalanced search tree with parent pointers.  Nodes live in a heap, so that a
    dangling pointer, a null dereference or a leaked node is visible; the keys and
    values in order are the sorted association list of SortedAssoc. *)

From stdpp Require Import base gmap list sets strings sorting.
From Stdlib Require Import ZArith Lia.
From S2P Require Import Prelude SortedAssoc.

Abbreviation loc := positive.

(** ** Nodes and the heap *)

Record tree_node (K V : Type) := TNode {
  _data : K * V; _left : option loc; _right : option loc; _parent : option loc }.
Arguments TNode {K V} _data _left _right _parent.
Arguments _data {K V} t.
Arguments _left {K V} t.
Arguments _right {K V} t.
Arguments _parent {K V} t.

Record bst (K V : Type) := Bst { heap : gmap loc (tree_node K V); _root : option loc }.
Arguments Bst {K V} heap _root.
Arguments heap {K V} b.
Arguments _root {K V} b.

Section bst_map.
Context {K V : Type} `{KeyOrder K} (dflt : V).
Abbreviation node := (tree_node K V).
Abbreviation bst_prog := (prog (bst K V)).
Implicit Types (k : K) (v : V) (h : gmap loc (tree_node K V)).

(** [*p]: undefined behaviour through a null or a dangling pointer. *)
Definition load (p : option loc) : bst_prog node := λ s, (deref (l ← p; heap s !! l), s).
Definition store_with (p : option loc) (f : node → node) : bst_prog unit := λ s,
  match p with
  | Some l =>
      match heap s !! l with
      | Some n => (Ret (), Bst (<[l := f n]> (heap s)) (_root s))
      | None => (Undef, s)
      end
  | None => (Undef, s)
  end.
Definition set_left (p q : option loc) : bst_prog unit :=
  store_with p (λ n, TNode (_data n) q (_right n) (_parent n)).
Definition set_right (p q : option loc) : bst_prog unit :=
  store_with p (λ n, TNode (_data n) (_left n) q (_parent n)).
Definition set_parent (p q : option loc) : bst_prog unit :=
  store_with p (λ n, TNode (_data n) (_left n) (_right n) q).
Definition set_data (p : option loc) (d : K * V) : bst_prog unit :=
  store_with p (λ n, TNode d (_left n) (_right n) (_parent n)).
Definition set_root (p : option loc) : bst_prog unit := modify (λ s, Bst (heap s) p).
Definition new_node k v (parent : option loc) : bst_prog loc := λ s,
  let l := fresh (dom (heap s)) in
  (Ret l, Bst (<[l := TNode (k, v) None None parent]> (heap s)) (_root s)).
Definition delete_node (p : option loc) : bst_prog unit := λ s,
  match p with
  | Some l =>
      match heap s !! l with
      | Some _ => (Ret (), Bst (delete l (heap s)) (_root s))
      | None => (Undef, s)
      end
  | None => (Ret (), s)
  end.

(** Loops follow pointers at most once per node: the fuel is the number of nodes. *)
Definition fuel : bst_prog nat := s ← get; mret (size (heap s)).

(** ** The private members *)

(** [while (node->_left) node = node->_left] *)
Fixpoint minium_loop (fuel : nat) (p : loc) : bst_prog loc :=
  n ← load (Some p);
  match _left n, fuel with
  | None, _ => mret p
  | Some q, S fuel => minium_loop fuel q
  | Some _, O => lift Undef
  end.
Definition minium (p : option loc) : bst_prog (option loc) :=
  match p with
  | None => mret None
  | Some l => f ← fuel; q ← minium_loop f l; mret (Some q)
  end.

Fixpoint maximun_loop (fuel : nat) (p : loc) : bst_prog loc :=
  n ← load (Some p);
  match _right n, fuel with
  | None, _ => mret p
  | Some q, S fuel => maximun_loop fuel q
  | Some _, O => lift Undef
  end.
Definition maximun (p : option loc) : bst_prog loc :=
  match p with
  | None => throw OutOfRange
  | Some l => f ← fuel; maximun_loop f l
  end.

(** [while (p != nullptr && node == p->_right)] *)
Fixpoint climb (fuel : nat) (node : loc) (p : option loc) : bst_prog (option loc) :=
  match p with
  | None => mret None
  | Some q =>
      pn ← load (Some q);
      if decide (_right pn = Some node) then
        match fuel with
        | O => lift Undef
        | S fuel => climb fuel q (_parent pn)
        end
      else mret p
  end.
Definition successor (p : option loc) : bst_prog (option loc) :=
  n ← load p;
  match _right n, p with
  | Some r, _ => minium (Some r)
  | None, Some l => f ← fuel; climb f l (_parent n)
  | None, None => lift Undef
  end.

(** [clear(node)], a recursion over the nodes. *)
Fixpoint clear_node (fuel : nat) (p : option loc) : bst_prog unit :=
  match p, fuel with
  | None, _ => mret ()
  | Some _, O => lift Undef
  | Some _, S fuel =>
      n ← load p;
      clear_node fuel (_left n);;
      clear_node fuel (_right n);;
      delete_node p
  end.

(** ** The public members *)

Definition map_ctor : bst K V := Bst ∅ None.

Definition clear : bst_prog unit :=
  f ← fuel; s ← get;
  clear_node (S f) (_root s);;
  set_root None.

Fixpoint find_loop (fuel : nat) k (curr : option loc) : bst_prog (option loc) :=
  match curr, fuel with
  | None, _ => mret None
  | Some _, O => lift Undef
  | Some _, S fuel =>
      n ← load curr;
      if klt k (_data n).1 then find_loop fuel k (_left n)
      else if klt (_data n).1 k then find_loop fuel k (_right n)
      else mret curr
  end.
Definition find k : bst_prog (option loc) :=
  f ← fuel; s ← get; find_loop f k (_root s).

(** The loop of [insert] from [curr] under [parent], and what follows it. *)
Fixpoint insert_loop (fuel : nat) k v (curr parent : option loc) : bst_prog unit :=
  match curr, fuel with
  | Some _, O => lift Undef
  | Some _, S fuel =>
      n ← load curr;
      if klt k (_data n).1 then insert_loop fuel k v (_left n) curr
      else if klt (_data n).1 k then insert_loop fuel k v (_right n) curr
      else set_data curr ((_data n).1, v)
  | None, _ =>
      pn ← load parent;
      if klt k (_data pn).1 then l ← new_node k v parent; set_left parent (Some l)
      else l ← new_node k v parent; set_right parent (Some l)
  end.
Definition insert k v : bst_prog unit :=
  s ← get;
  match _root s with
  | None => l ← new_node k v None; set_root (Some l)
  | Some _ => f ← fuel; insert_loop f k v (_root s) None
  end.

(** The end of [erase]: [node] has at most one child. *)
Definition unlink (p : option loc) : bst_prog unit :=
  n ← load p;
  let child := match _left n with Some _ => _left n | None => _right n end in
  (match child with Some _ => set_parent child (_parent n) | None => mret () end);;
  (match _parent n with
   | None => set_root child
   | Some _ =>
       pn ← load (_parent n);
       if decide (p = _left pn) then set_left (_parent n) child
       else set_right (_parent n) child
   end);;
  delete_node p.
Definition erase k : bst_prog unit :=
  p ← find k;
  match p with
  | None => mret ()
  | Some _ =>
      n ← load p;
      match _left n, _right n with
      | Some _, Some _ =>
          succ ← successor p;
          sn ← load succ;
          set_data p (_data sn);;
          unlink succ
      | _, _ => unlink p
      end
  end.

(** [operator[]] returns a reference into the node. *)
Definition index k : bst_prog (option loc) :=
  p ← find k;
  match p with
  | Some _ => mret p
  | None =>
      insert k dflt;;
      p ← find k;
      n ← load p;
      mret p
  end.

(** Iterators: a node pointer.  [operator++] returns a reference through the new one. *)
Definition begin : bst_prog (option loc) := s ← get; minium (_root s).
Definition end_ : option loc := None.
Definition it_get (it : option loc) : bst_prog (K * V) := n ← load it; mret (_data n).
Definition it_incr (it : option loc) : bst_prog (option loc) :=
  it ← successor it; n ← load it; mret it.
Definition it_incr_post (it : option loc) : bst_prog (option loc * option loc) :=
  it' ← it_incr it; mret (it, it').

(** The loop of main: [for (it = begin(); it != end(); ++ it)] with the elements it
    prints.  Running out of fuel counts as leaving the loop, so that an undefined run is
    one of the code. *)
Fixpoint print_loop (fuel : nat) (it : option loc) : bst_prog (list (K * V)) :=
  match it, fuel with
  | None, _ => mret []
  | Some _, O => mret []
  | Some _, S fuel =>
      d ← it_get it;
      it ← it_incr it;
      rest ← print_loop fuel it;
      mret (d :: rest)
  end.
(** The same loop, left after the element number [n]. *)
Fixpoint print_first (n : nat) (it : option loc) : bst_prog (list (K * V)) :=
  match it, n with
  | None, _ => mret []
  | Some _, O => mret []
  | Some _, S O => d ← it_get it; mret [d]
  | Some _, S n =>
      d ← it_get it;
      it ← it_incr it;
      rest ← print_first n it;
      mret (d :: rest)
  end.

(** ** The tree a heap holds *)

Inductive tree := Leaf | Node (a : loc) (l : tree) (d : K * V) (r : tree).

Fixpoint nodes (t : tree) : list (loc * (K * V)) :=
  match t with Leaf => [] | Node a l d r => nodes l ++ (a, d) :: nodes r end.
Definition addrs (t : tree) : list loc := (nodes t).*1.
Definition entries (t : tree) : list (K * V) := (nodes t).*2.
#[local] Arguments addrs : simpl never.
#[local] Arguments entries : simpl never.
Definition rootp (t : tree) : option loc := match t with Leaf => None | Node a _ _ _ => Some a end.

(** [t] lies in the heap under the parent [p]. *)
Fixpoint rep h (p : option loc) (t : tree) : Prop :=
  match t with
  | Leaf => True
  | Node a l d r =>
      h !! a = Some (TNode d (rootp l) (rootp r) p) ∧ rep h (Some a) l ∧ rep h (Some a) r
  end.

Lemma addrs_node a l d r : addrs (Node a l d r) = addrs l ++ a :: addrs r.
Proof using Type. unfold addrs. simpl. by rewrite fmap_app. Qed.
Lemma entries_node a l d r : entries (Node a l d r) = entries l ++ d :: entries r.
Proof using Type. unfold entries. simpl. by rewrite fmap_app. Qed.

Lemma elem_of_addrs b a l d r :
  b ∈ addrs (Node a l d r) ↔ b ∈ addrs l ∨ b = a ∨ b ∈ addrs r.
Proof using Type. rewrite addrs_node, elem_of_app, elem_of_cons. done. Qed.

Lemma NoDup_addrs_node a l d r :
  NoDup (addrs (Node a l d r)) →
  NoDup (addrs l) ∧ NoDup (addrs r) ∧ a ∉ addrs l ∧ a ∉ addrs r ∧
  (∀ b, b ∈ addrs l → b ∉ addrs r).
Proof using Type.
  rewrite addrs_node, NoDup_app, NoDup_cons. intros (Hl & Hlr & Ha & Hr). split_and!; try done.
  - intros Hal. apply (Hlr a Hal). by left.
  - intros b Hb Hbr. apply (Hlr b Hb). by right.
Qed.

Lemma rootp_in t a : rootp t = Some a → a ∈ addrs t.
Proof using Type. destruct t; [done|]. intros [= ->]. apply elem_of_addrs. by right; left. Qed.

Lemma rep_frame h h' p t :
  (∀ b, b ∈ addrs t → h' !! b = h !! b) → rep h p t → rep h' p t.
Proof using Type.
  revert p. induction t as [|a l IHl d r IHr]; intros p Hf; [done|]. intros (Ha & Hl & Hr).
  split; [|split].
  - rewrite Hf; [done|]. apply elem_of_addrs. by right; left.
  - apply IHl; [|done]. intros b Hb. apply Hf, elem_of_addrs. by left.
  - apply IHr; [|done]. intros b Hb. apply Hf, elem_of_addrs. by right; right.
Qed.

Lemma rep_out h p t b n : b ∉ addrs t → rep h p t → rep (<[b := n]> h) p t.
Proof using Type.
  intros Hb. apply rep_frame. intros c Hc. apply lookup_insert_ne. by intros ->.
Qed.

Lemma rep_reparent h p q a l d r :
  NoDup (addrs (Node a l d r)) → rep h p (Node a l d r) →
  rep (<[a := TNode d (rootp l) (rootp r) q]> h) q (Node a l d r).
Proof using Type.
  intros (_ & _ & Hl & Hr & _)%NoDup_addrs_node (Ha & Hrl & Hrr).
  split; [by rewrite lookup_insert_eq|]. split; by apply rep_out.
Qed.

Lemma rep_lookup h p t b : rep h p t → b ∈ addrs t → is_Some (h !! b).
Proof using Type.
  revert p. induction t as [|a l IHl d r IHr]; intros p; [by intros _ ?%elem_of_nil|].
  intros (Ha & Hl & Hr) [?|[->|?]]%elem_of_addrs; [by eapply IHl|by eexists|by eapply IHr].
Qed.

(** The whole map. *)
Record holds (s : bst K V) (t : tree) : Prop := {
  h_rep : rep (heap s) None t;
  h_root : _root s = rootp t;
  h_nodup : NoDup (addrs t);
  h_dom : ∀ b, is_Some (heap s !! b) → b ∈ addrs t;
  h_sorted : ssorted (entries t) }.

Lemma holds_size s t : holds s t → size (heap s) = length (addrs t).
Proof using Type.
  intros Hh. rewrite <-size_dom.
  assert (dom (heap s) = list_to_set (addrs t)) as ->.
  { apply set_eq. intros b. rewrite elem_of_dom, elem_of_list_to_set. split; [apply Hh|].
    eapply rep_lookup, Hh. }
  apply size_list_to_set, Hh.
Qed.

Lemma ssorted_node a l d r :
  ssorted (entries (Node a l d r)) →
  ssorted (entries l) ∧ ssorted (entries r) ∧ below d.1 (entries l) ∧ above d.1 (entries r).
Proof using Type. rewrite entries_node. destruct d as [k v]. apply ssorted_mid. Qed.

(** ** [find] *)

Fixpoint tfind k (t : tree) : option loc :=
  match t with
  | Leaf => None
  | Node a l d r => if klt k d.1 then tfind k l else if klt d.1 k then tfind k r else Some a
  end.

Lemma find_loop_spec s p t k f :
  rep (heap s) p t → (length (addrs t) <= f)%nat →
  find_loop f k (rootp t) s = (Ret (tfind k t), s).
Proof using Type.
  revert p f. induction t as [|a l IHl d r IHr]; intros p f; [by destruct f|].
  intros (Ha & Hl & Hr). rewrite addrs_node, length_app. simpl.
  destruct f as [|f]; intros Hf; [lia|]. cbn [find_loop]. unfold load. run_prog.
  cbn. rewrite Ha. cbn. destruct (klt k d.1); [eapply IHl; [done|lia]|].
  destruct (klt d.1 k); [eapply IHr; [done|lia]|done].
Qed.

Lemma find_spec s t k : holds s t → find k s = (Ret (tfind k t), s).
Proof using Type.
  intros Hh. unfold find, fuel. run_prog. rewrite (h_root _ _ Hh).
  eapply find_loop_spec; [apply Hh|]. by rewrite (holds_size _ _ Hh).
Qed.

(** What [find] returns, in terms of the sorted list. *)
Lemma tfind_Some t k a :
  ssorted (entries t) → tfind k t = Some a →
  ∃ v N1 N2, nodes t = N1 ++ (a, (k, v)) :: N2.
Proof using Type.
  induction t as [|b l IHl [k' v'] r IHr]; [done|]. intros (Hl & Hr & _ & _)%ssorted_node. simpl.
  destruct (klt k k') eqn:E1; [|destruct (klt k' k) eqn:E2].
  - intros Hf. destruct (IHl Hl Hf) as (v & N1 & N2 & ->).
    exists v, N1, (N2 ++ (b, (k', v')) :: nodes r). by rewrite <-app_assoc.
  - intros Hf. destruct (IHr Hr Hf) as (v & N1 & N2 & ->).
    exists v, (nodes l ++ (b, (k', v')) :: N1), N2. by rewrite <-app_assoc.
  - intros [= <-]. rewrite (klt_total _ _ E1 E2). by exists v', (nodes l), (nodes r).
Qed.

Lemma tfind_None t k :
  ssorted (entries t) → tfind k t = None → sl_lookup k (entries t) = None.
Proof using Type.
  induction t as [|b l IHl [k' v'] r IHr]; [done|]. intros Hs.
  pose proof (ssorted_node _ _ _ _ Hs) as (Hl & Hr & Hbl & _). simpl in *. rewrite entries_node.
  destruct (klt k k') eqn:E1; [|destruct (klt k' k) eqn:E2; [|done]].
  - rewrite sl_lookup_before by done. auto.
  - rewrite sl_lookup_after by done. auto.
Qed.

Lemma tfind_lookup t k N1 N2 a v :
  ssorted (entries t) → nodes t = N1 ++ (a, (k, v)) :: N2 →
  sl_lookup k (entries t) = Some v ∧ sl_remove k (entries t) = N1.*2 ++ N2.*2 ∧
  ssorted (N1.*2 ++ N2.*2).
Proof using Type.
  unfold entries. intros Hs Hn. rewrite Hn, fmap_app in Hs |- *. simpl in *.
  pose proof Hs as (_ & _ & Hb & _)%ssorted_mid.
  split; [by apply sl_lookup_at|]. split; [by apply sl_remove_at|].
  rewrite <-(sl_remove_at k _ v) by done. by apply sl_remove_sorted.
Qed.

(** ** [insert] *)

Fixpoint tins k v (x : loc) (t : tree) : tree :=
  match t with
  | Leaf => Node x Leaf (k, v) Leaf
  | Node a l d r =>
      if klt k d.1 then Node a (tins k v x l) d r
      else if klt d.1 k then Node a l d (tins k v x r) else Node a l (d.1, v) r
  end.

Lemma entries_tins k v x t :
  ssorted (entries t) → entries (tins k v x t) = sl_insert k v (entries t).
Proof using Type.
  induction t as [|a l IHl [k' v'] r IHr]; [done|]. intros Hs.
  pose proof (ssorted_node _ _ _ _ Hs) as (Hl & Hr & Hb & _). simpl in *.
  destruct (klt k k') eqn:E1; [|destruct (klt k' k) eqn:E2]; rewrite !entries_node.
  - by rewrite IHl, sl_insert_before.
  - by rewrite IHr, sl_insert_after.
  - rewrite (klt_total _ _ E1 E2). by rewrite sl_insert_at.
Qed.

Lemma rootp_tins k v x t : t ≠ Leaf → rootp (tins k v x t) = rootp t.
Proof using Type. destruct t as [|a l d r]; [done|]. simpl. by destruct (klt k d.1), (klt d.1 k). Qed.

Lemma addrs_tins_cases k v x t :
  addrs (tins k v x t) = addrs t ∨
  ∃ A1 A2, addrs t = A1 ++ A2 ∧ addrs (tins k v x t) = A1 ++ x :: A2.
Proof using Type.
  induction t as [|a l IHl d r IHr]; simpl; [right; by exists [], []|].
  destruct (klt k d.1); [|destruct (klt d.1 k)]; rewrite !addrs_node.
  - destruct IHl as [->|(A1 & A2 & -> & ->)]; [by left|right].
    exists A1, (A2 ++ a :: addrs r). by rewrite <-!app_assoc.
  - destruct IHr as [->|(A1 & A2 & -> & ->)]; [by left|right].
    exists (addrs l ++ a :: A1), A2. by rewrite <-!app_assoc.
  - by left.
Qed.

Lemma addrs_tins k v x t b : b ∈ addrs (tins k v x t) → b ∈ addrs t ∨ b = x.
Proof using Type.
  destruct (addrs_tins_cases k v x t) as [->|(A1 & A2 & -> & ->)]; [by left|].
  rewrite !elem_of_app, elem_of_cons. naive_solver.
Qed.
Lemma addrs_tins_old k v x t b : b ∈ addrs t → b ∈ addrs (tins k v x t).
Proof using Type.
  destruct (addrs_tins_cases k v x t) as [->|(A1 & A2 & -> & ->)]; [done|].
  rewrite !elem_of_app, elem_of_cons. naive_solver.
Qed.
Lemma NoDup_tins k v x t : x ∉ addrs t → NoDup (addrs t) → NoDup (addrs (tins k v x t)).
Proof using Type.
  destruct (addrs_tins_cases k v x t) as [->|(A1 & A2 & -> & ->)]; [done|].
  intros Hx Hd. rewrite <-Permutation_middle. by apply NoDup_cons.
Qed.

(** Storing through the parent's pointer. *)
Lemma new_leaf s k v q :
  new_node k v q s =
    (Ret (fresh (dom (heap s))),
     Bst (<[fresh (dom (heap s)) := TNode (k, v) None None q]> (heap s)) (_root s)).
Proof using Type. done. Qed.

Lemma fresh_dom h : h !! fresh (dom h) = None.
Proof using Type. apply not_elem_of_dom, is_fresh. Qed.

Lemma insert_loop_spec s k v f p a l d r q :
  rep (heap s) p (Node a l d r) → NoDup (addrs (Node a l d r)) →
  (length (addrs (Node a l d r)) <= f)%nat →
  ∃ h', insert_loop f k v (Some a) q s = (Ret (), Bst h' (_root s)) ∧
    rep h' p (tins k v (fresh (dom (heap s))) (Node a l d r)) ∧
    ∀ b, b ∉ addrs (tins k v (fresh (dom (heap s))) (Node a l d r)) → h' !! b = heap s !! b.
Proof using Type.
  set (x := fresh (dom (heap s))). pose proof (fresh_dom (heap s)) as Hx. fold x in Hx.
  remember (Node a l d r) as t eqn:Et. revert a l d r p q f Et.
  induction t as [|a l IHl d r IHr]; [done|]. intros ? ? ? ? p q f [= <- <- <- <-] Hrep Hnd.
  pose proof (NoDup_addrs_node _ _ _ _ Hnd) as (Hnl & Hnr & Hal & Har & Hlr).
  destruct Hrep as (Ha & Hl & Hr).
  assert (Hax : a ≠ x) by (intros ->; congruence).
  assert (Hxl : x ∉ addrs l) by (intros Hb; destruct (rep_lookup _ _ _ _ Hl Hb); congruence).
  assert (Hxr : x ∉ addrs r) by (intros Hb; destruct (rep_lookup _ _ _ _ Hr Hb); congruence).
  rewrite addrs_node, length_app. simpl. destruct f as [|f]; intros Hf; [lia|].
  cbn [insert_loop]. unfold load. run_prog. cbn. rewrite Ha. cbn [deref _data _left _right].
  fold x. destruct (klt k d.1) eqn:E1; [|destruct (klt d.1 k) eqn:E2].
  - destruct l as [|b ll dl lr].
    + destruct f; cbn [insert_loop rootp]; unfold load, new_node, set_left, store_with;
        run_prog; cbn; rewrite Ha; cbn [deref _data]; rewrite E1; cbn [heap _root]; fold x;
        rewrite lookup_insert_ne, Ha by done.
      all: eexists; split; [reflexivity|]; split;
        [|intros c Hc; rewrite !elem_of_addrs in Hc; rewrite !lookup_insert_ne by naive_solver; done].
      all: cbn; split; [by rewrite lookup_insert_eq|]; split;
        [rewrite lookup_insert_ne, lookup_insert_eq by done; done|].
      all: by apply rep_out, rep_out.
    + destruct (IHl _ _ _ _ (Some a) (Some a) f eq_refl Hl Hnl) as (h' & Hi & Hrep & Hfr); [lia|].
      exists h'. split; [exact Hi|]. split.
      * cbn [rep]. rewrite rootp_tins by done. split; [|split; [exact Hrep|]].
        { rewrite Hfr; [done|]. by intros [?| ?]%addrs_tins. }
        { eapply rep_frame; [|exact Hr]. intros c Hc. apply Hfr.
          intros [?| ->]%addrs_tins; [by apply (Hlr c)|done]. }
      * intros c Hc. apply Hfr. intros Hc'. apply Hc, elem_of_addrs. by left.
  - destruct r as [|b rl dr rr].
    + destruct f; cbn [insert_loop rootp]; unfold load, new_node, set_right, store_with;
        run_prog; cbn; rewrite Ha; cbn [deref _data]; rewrite E1; cbn [heap _root]; fold x;
        rewrite lookup_insert_ne, Ha by done.
      all: eexists; split; [reflexivity|]; split;
        [|intros c Hc; rewrite !elem_of_addrs in Hc; rewrite !lookup_insert_ne by naive_solver; done].
      all: cbn; split; [by rewrite lookup_insert_eq|]; split;
        [by apply rep_out, rep_out|].
      all: rewrite lookup_insert_ne, lookup_insert_eq by done; done.
    + destruct (IHr _ _ _ _ (Some a) (Some a) f eq_refl Hr Hnr) as (h' & Hi & Hrep & Hfr); [lia|].
      exists h'. split; [exact Hi|]. split.
      * cbn [rep]. rewrite rootp_tins by done. split; [|split; [|exact Hrep]].
        { rewrite Hfr; [done|]. by intros [?| ?]%addrs_tins. }
        { eapply rep_frame; [|exact Hl]. intros c Hc. apply Hfr.
          intros [?| ->]%addrs_tins; [by apply (Hlr c)|done]. }
      * intros c Hc. apply Hfr. intros Hc'. apply Hc, elem_of_addrs. by right; right.
  - unfold set_data, store_with. rewrite Ha. cbn. eexists. split; [reflexivity|].
    split; [cbn; split; [by rewrite lookup_insert_eq|split; by apply rep_out]|].
    intros c Hc. rewrite lookup_insert_ne; [done|]. intros ->. apply Hc, elem_of_addrs. by right; left.
Qed.

Lemma holds_dom_fresh s t : holds s t → fresh (dom (heap s)) ∉ addrs t.
Proof using Type.
  intros Hh Hb. destruct (rep_lookup _ _ _ _ (h_rep _ _ Hh) Hb) as [n Hn].
  by rewrite fresh_dom in Hn.
Qed.

Lemma insert_spec s t k v :
  holds s t →
  ∃ s', insert k v s = (Ret (), s') ∧ holds s' (tins k v (fresh (dom (heap s))) t).
Proof using Type.
  intros Hh. pose proof (holds_dom_fresh _ _ Hh) as Hx. destruct Hh as [Hrep Hroot Hnd Hdom Hs].
  unfold insert, fuel. run_prog. rewrite Hroot. destruct t as [|a l d r].
  - cbn. eexists. split; [reflexivity|]. split; simpl.
    + split; [by rewrite lookup_insert_eq|done].
    + done.
    + apply NoDup_singleton.
    + intros b [n [[<- _]|[_ Hn]]%lookup_insert_Some]; [by left|].
      exfalso. apply (not_elem_of_nil b), (Hdom b). by eexists.
    + repeat constructor.
  - cbn [rootp].
    destruct (insert_loop_spec s k v (size (heap s)) None a l d r None Hrep Hnd)
      as (h' & Hi & Hr' & Hfr).
    { by rewrite (holds_size s (Node a l d r)). }
    rewrite Hi. eexists. split; [reflexivity|]. split; cbn [heap _root].
    + done.
    + by rewrite rootp_tins.
    + by apply NoDup_tins.
    + intros b [n Hn]. destruct (decide (b ∈ addrs (tins k v (fresh (dom (heap s))) (Node a l d r))))
        as [?|Hb]; [done|]. rewrite Hfr in Hn by done. apply addrs_tins_old, Hdom. by eexists.
    + rewrite entries_tins by done. by apply sl_insert_sorted.
Qed.

(** ** [minium] and [successor] *)

Lemma minium_loop_spec s p a l d r f :
  rep (heap s) p (Node a l d r) → (length (addrs l) <= f)%nat →
  ∃ y A n, addrs (Node a l d r) = y :: A ∧ minium_loop f a s = (Ret y, s) ∧
    heap s !! y = Some n ∧ _left n = None.
Proof using Type.
  remember (Node a l d r) as t eqn:Et. revert a l d r p f Et.
  induction t as [|a l IHl d r _]; [done|]. intros ? ? ? ? p f [= <- <- <- <-] (Ha & Hl & _) Hf.
  rewrite addrs_node. destruct l as [|b ll dl lr].
  - exists a, (addrs r), (TNode d None (rootp r) p). split; [done|]. split; [|done].
    destruct f; cbn [minium_loop]; unfold load; run_prog; cbn; by rewrite Ha.
  - rewrite addrs_node, length_app in Hf. simpl in Hf. destruct f as [|f]; [lia|].
    destruct (IHl _ _ _ _ (Some a) f eq_refl Hl) as (y & A & n & -> & Hm & Hy); [lia|].
    exists y, (A ++ a :: addrs r), n. split; [done|]. split; [|done].
    cbn [minium_loop]. unfold load. run_prog. cbn. by rewrite Ha.
Qed.

Lemma minium_spec s p a l d r :
  rep (heap s) p (Node a l d r) → (length (addrs l) <= size (heap s))%nat →
  ∃ y A n, addrs (Node a l d r) = y :: A ∧ minium (Some a) s = (Ret (Some y), s) ∧
    heap s !! y = Some n ∧ _left n = None.
Proof using Type.
  intros Hrep Hf. destruct (minium_loop_spec _ _ _ _ _ _ _ Hrep Hf) as (y & A & n & Ha & Hm & Hy).
  exists y, A, n. split; [done|]. split; [|done]. unfold minium, fuel. run_prog. by rewrite Hm.
Qed.

(** From the last node of a subtree [successor] climbs out of it. *)
Lemma climb_last s t p A a f :
  rep (heap s) p t → NoDup (addrs t) → addrs t = A ++ [a] → (length (addrs t) <= f)%nat →
  ∃ n f' b, heap s !! a = Some n ∧ _right n = None ∧ rootp t = Some b ∧
    (f - length (addrs t) <= f')%nat ∧ climb f a (_parent n) s = climb f' b p s.
Proof using Type.
  revert p A f. induction t as [|b l _ d r IHr]; intros p A f; [by destruct A|].
  intros (Hb & Hl & Hr) Hnd. pose proof (NoDup_addrs_node _ _ _ _ Hnd) as (_ & Hnr & _).
  rewrite addrs_node. destruct r as [|c rl dr rr].
  - intros [_ [= ->]]%app_inj_tail Hf. eexists _, f, a. split; [exact Hb|].
    split; [done|]. split; [done|]. split; [lia|done].
  - remember (Node c rl dr rr) as t eqn:Et. intros Heq. rewrite length_app. simpl. intros Hf.
    assert (Hz : ∃ Z, addrs t = Z ++ [a]).
    { destruct (addrs t) as [|z Z _] eqn:Ez using rev_ind.
      { subst t. rewrite addrs_node in Ez. by destruct (addrs rl). }
      rewrite app_comm_cons, app_assoc in Heq. apply app_inj_tail in Heq as [_ ->]. by exists Z. }
    destruct Hz as [Z Ez].
    destruct (IHr (Some b) Z f Hr Hnr Ez) as (n & f1 & c' & Hn & Hrn & Hc' & Hf1 & Hc); [lia|].
    destruct f1 as [|f1]; [lia|].
    exists n, f1, b. split; [done|]. split; [done|]. split; [done|].
    split; [simpl; lia|].
    rewrite Hc. cbn [climb]. unfold load. run_prog. cbn. rewrite Hb. cbn.
    by rewrite decide_True.
Qed.

Lemma successor_right s a n r :
  heap s !! a = Some n → _right n = Some r → successor (Some a) s = minium (Some r) s.
Proof using Type. intros Ha Hr. unfold successor, load. run_prog. cbn. rewrite Ha. cbn. by rewrite Hr. Qed.
Lemma successor_up s a n :
  heap s !! a = Some n → _right n = None →
  successor (Some a) s = climb (size (heap s)) a (_parent n) s.
Proof using Type.
  intros Ha Hr. unfold successor, load, fuel. run_prog. cbn. rewrite Ha. cbn. by rewrite Hr.
Qed.

(** [successor] goes to the next node in order. *)
Lemma successor_next s t p A1 A2 a b :
  rep (heap s) p t → NoDup (addrs t) → addrs t = A1 ++ a :: b :: A2 →
  (length (addrs t) <= size (heap s))%nat → successor (Some a) s = (Ret (Some b), s).
Proof using Type.
  revert p A1 A2. induction t as [|c l IHl d r IHr]; intros p A1 A2; [by destruct A1|].
  intros (Hc & Hl & Hr) Hnd.
  pose proof (NoDup_addrs_node _ _ _ _ Hnd) as (Hnl & Hnr & Hcl & Hcr & Hlr).
  rewrite addrs_node, length_app. simpl. intros Heq Hf.
  apply app_eq_inv in Heq as [(k & El & Ek)|(k & -> & Ek)].
  - destruct k as [|a' [|b' k]]; simpl in Ek.
    + injection Ek as <- Er. destruct r as [|c' rl dr rr].
      { done. }
      destruct (minium_spec s _ _ _ _ _ Hr) as (y & A & n & Hy & Hm & _).
      { rewrite addrs_node, length_app in Hf. lia. }
      rewrite (successor_right _ _ _ _ Hc eq_refl), Hm. congruence.
    + injection Ek as <- <- _.
      destruct (climb_last s l _ A1 a (size (heap s)) Hl Hnl El)
        as (n & f' & b' & Hn & Hrn & Hb & Hf' & Hclimb); [lia|].
      rewrite (successor_up _ _ _ Hn Hrn), Hclimb.
      assert (rootp r ≠ Some b') as Hne.
      { intros Hrb%rootp_in. apply (Hlr b'); [by apply rootp_in|done]. }
      destruct f'; cbn [climb]; unfold load; run_prog; cbn; rewrite Hc; cbn;
        by rewrite decide_False.
    + injection Ek as <- <- _. eapply IHl; [done|done|exact El|lia].
  - destruct k as [|z k]; simpl in Ek.
    + injection Ek as <- Er. destruct r as [|c' rl dr rr]; [done|].
      destruct (minium_spec s _ _ _ _ _ Hr) as (y & A & n & Hy & Hm & _).
      { rewrite addrs_node, length_app in Hf. lia. }
      rewrite (successor_right _ _ _ _ Hc eq_refl), Hm. congruence.
    + injection Ek as <- Er. eapply IHr; [done|done|exact Er|lia].
Qed.

Lemma successor_last s t A a :
  rep (heap s) None t → NoDup (addrs t) → addrs t = A ++ [a] →
  (length (addrs t) <= size (heap s))%nat → successor (Some a) s = (Ret None, s).
Proof using Type.
  intros Hrep Hnd Ha Hf.
  destruct (climb_last s t None A a (size (heap s)) Hrep Hnd Ha Hf)
    as (n & f' & b & Hn & Hrn & _ & _ & Hc).
  rewrite (successor_up _ _ _ Hn Hrn), Hc. by destruct f'.
Qed.

(** A node and its subtrees, inside the tree. *)
Lemma subtree_at h p t a n :
  rep h p t → a ∈ addrs t → h !! a = Some n →
  ∃ l r N1 N2, nodes t = N1 ++ nodes l ++ (a, _data n) :: nodes r ++ N2 ∧
    _left n = rootp l ∧ _right n = rootp r ∧ rep h (Some a) l ∧ rep h (Some a) r.
Proof using Type.
  revert p. induction t as [|b l IHl d r IHr]; intros p; [by intros _ ?%elem_of_nil|].
  intros (Hb & Hl & Hr) [Ha|[->|Ha]]%elem_of_addrs Hn.
  - destruct (IHl _ Hl Ha Hn) as (l' & r' & N1 & N2 & E & ?). cbn [nodes]. rewrite E.
    exists l', r', N1, (N2 ++ (b, d) :: nodes r). split; [|done].
    by rewrite <-!app_assoc, <-!app_comm_cons, <-app_assoc.
  - rewrite Hb in Hn. injection Hn as <-. exists l, r, [], []. split; [|done].
    cbn [nodes]. by rewrite app_nil_r.
  - destruct (IHr _ Hr Ha Hn) as (l' & r' & N1 & N2 & E & ?). cbn [nodes]. rewrite E.
    exists l', r', (nodes l ++ (b, d) :: N1), N2. split; [|done].
    by rewrite <-!app_assoc, <-app_comm_cons.
Qed.

(** ** [erase] *)

Definition only_child (l r : tree) : tree := match l with Leaf => r | _ => l end.

Fixpoint tunlink (x : loc) (t : tree) : tree :=
  match t with
  | Leaf => Leaf
  | Node a l d r =>
      if decide (a = x) then only_child l r else Node a (tunlink x l) d (tunlink x r)
  end.

Lemma tunlink_out x t : x ∉ addrs t → tunlink x t = t.
Proof using Type.
  induction t as [|a l IHl d r IHr]; [done|]. rewrite elem_of_addrs. intros Hx. simpl.
  rewrite decide_False by naive_solver. rewrite IHl, IHr; naive_solver.
Qed.

Lemma reparent_child s c p q :
  rep (heap s) p c → NoDup (addrs c) →
  ∃ h1, (match rootp c with Some _ => set_parent (rootp c) q | None => mret () end) s =
      (Ret (), Bst h1 (_root s)) ∧ rep h1 q c ∧
    ∀ b, b ∉ addrs c → h1 !! b = heap s !! b.
Proof using Type.
  destruct c as [|a l d r]; intros Hrep Hnd.
  - exists (heap s). by destruct s.
  - pose proof Hrep as (Ha & _ & _). cbn [rootp]. unfold set_parent, store_with. rewrite Ha. cbn.
    eexists. split; [reflexivity|]. split; [by eapply rep_reparent|].
    intros b Hb. apply lookup_insert_ne. intros ->. apply Hb, elem_of_addrs. by right; left.
Qed.

Lemma child_rootp l r :
  match rootp l with Some _ => rootp l | None => rootp r end = rootp (only_child l r).
Proof using Type. by destruct l. Qed.

Lemma only_child_rep h p l r : rep h p l → rep h p r → rep h p (only_child l r).
Proof using Type. by destruct l. Qed.
Lemma only_child_addrs l r b : b ∈ addrs (only_child l r) → b ∈ addrs l ∨ b ∈ addrs r.
Proof using Type. destruct l; naive_solver. Qed.
Lemma only_child_NoDup l r : NoDup (addrs l) → NoDup (addrs r) → NoDup (addrs (only_child l r)).
Proof using Type. by destruct l. Qed.

Lemma unlink_root s x l d r :
  rep (heap s) None (Node x l d r) → NoDup (addrs (Node x l d r)) →
  ∃ s', unlink (Some x) s = (Ret (), s') ∧ rep (heap s') None (only_child l r) ∧
    _root s' = rootp (only_child l r) ∧ heap s' !! x = None ∧
    ∀ b, b ∉ addrs (Node x l d r) → heap s' !! b = heap s !! b.
Proof using Type.
  intros (Hx & Hl & Hr) Hnd.
  pose proof (NoDup_addrs_node _ _ _ _ Hnd) as (Hnl & Hnr & Hxl & Hxr & _).
  destruct (reparent_child s (only_child l r) (Some x) None) as (h1 & Hs & Hrep & Hfr).
  { by apply only_child_rep. } { by apply only_child_NoDup. }
  assert (Hxc : x ∉ addrs (only_child l r)) by by intros [?|?]%only_child_addrs.
  unfold unlink, load, set_root. run_prog. cbn. rewrite Hx. cbn. rewrite child_rootp.
  unfold mret, prog_ret in Hs. cbn in Hs. rewrite Hs. cbn. rewrite Hfr, Hx by done. cbn.
  eexists. split; [reflexivity|]. cbn. split; [|split; [done|split; [apply lookup_delete_eq|]]].
  - eapply rep_frame; [|exact Hrep]. intros b Hb. apply lookup_delete_ne. by intros ->.
  - intros b Hb. rewrite elem_of_addrs in Hb. rewrite lookup_delete_ne by naive_solver.
    apply Hfr. intros [?|?]%only_child_addrs; naive_solver.
Qed.

(** The parent of [x] is the node [a], which gets the child instead. *)
Lemma unlink_child s x q a n xl dx xr :
  rep (heap s) (Some a) (Node x xl dx xr) → NoDup (addrs (Node x xl dx xr)) →
  heap s !! a = Some n → a ∉ addrs (Node x xl dx xr) →
  q = (if decide (Some x = _left n)
       then TNode (_data n) (rootp (only_child xl xr)) (_right n) (_parent n)
       else TNode (_data n) (_left n) (rootp (only_child xl xr)) (_parent n)) →
  ∃ s', unlink (Some x) s = (Ret (), s') ∧ rep (heap s') (Some a) (only_child xl xr) ∧
    heap s' !! a = Some q ∧ _root s' = _root s ∧ heap s' !! x = None ∧
    ∀ b, b ∉ addrs (Node x xl dx xr) → b ≠ a → heap s' !! b = heap s !! b.
Proof using Type.
  intros (Hx & Hl & Hr) Hnd Ha Hax ->.
  pose proof (NoDup_addrs_node _ _ _ _ Hnd) as (Hnl & Hnr & Hxl & Hxr & _).
  rewrite elem_of_addrs in Hax.
  destruct (reparent_child s (only_child xl xr) (Some x) (Some a)) as (h1 & Hs & Hrep & Hfr).
  { by apply only_child_rep. } { by apply only_child_NoDup. }
  assert (Hxc : x ∉ addrs (only_child xl xr)) by by intros [?|?]%only_child_addrs.
  assert (Hac : a ∉ addrs (only_child xl xr)) by (intros [?|?]%only_child_addrs; naive_solver).
  assert (Hne : a ≠ x) by naive_solver.
  unfold unlink, load, set_left, set_right, store_with. run_prog. cbn. rewrite Hx. cbn.
  rewrite child_rootp. unfold mret, prog_ret in Hs. cbn in Hs. rewrite Hs. cbn.
  rewrite Hfr, Ha by done. cbn.
  case_decide; rewrite Hfr, Ha by done; cbn; rewrite lookup_insert_ne, Hfr, Hx by done; cbn;
    (eexists; split; [reflexivity|]; cbn; split;
     [|split; [by rewrite lookup_delete_ne, lookup_insert_eq|
       split; [done|split; [apply lookup_delete_eq|]]]]).
  1, 3: eapply rep_frame; [|exact Hrep]; intros b Hb;
    rewrite lookup_delete_ne, lookup_insert_ne by (intros ->; done); done.
  all: intros b Hb Hba; rewrite elem_of_addrs in Hb;
    rewrite lookup_delete_ne, lookup_insert_ne by naive_solver; apply Hfr;
    intros [?|?]%only_child_addrs; naive_solver.
Qed.

Lemma rootp_tunlink x t : rootp t ≠ Some x → rootp (tunlink x t) = rootp t.
Proof using Type. destruct t as [|a l d r]; [done|]. simpl. intros Hx. by rewrite decide_False by congruence. Qed.

Lemma unlink_sub s x p a l d r :
  rep (heap s) p (Node a l d r) → NoDup (addrs (Node a l d r)) →
  x ∈ addrs (Node a l d r) → x ≠ a →
  ∃ s', unlink (Some x) s = (Ret (), s') ∧ rep (heap s') p (tunlink x (Node a l d r)) ∧
    _root s' = _root s ∧ heap s' !! x = None ∧
    ∀ b, b ∉ addrs (Node a l d r) → heap s' !! b = heap s !! b.
Proof using Type.
  remember (Node a l d r) as t eqn:Et. revert a l d r p Et.
  induction t as [|a l IHl d r IHr]; [done|]. intros ? ? ? ? p [= <- <- <- <-] (Ha & Hl & Hr) Hnd.
  pose proof (NoDup_addrs_node _ _ _ _ Hnd) as (Hnl & Hnr & Hal & Har & Hlr).
  intros [Hx|[->|Hx]]%elem_of_addrs Hxa; [|done|].
  - assert (Hxr : x ∉ addrs r) by by apply Hlr.
    assert (Ht : tunlink x (Node a l d r) = Node a (tunlink x l) d r).
    { simpl. rewrite decide_False by done. by rewrite (tunlink_out x r). }
    rewrite Ht. destruct l as [|y yl dy yr]; [by apply elem_of_nil in Hx|].
    destruct (decide (x = y)) as [->|Hxy].
    + destruct (unlink_child s y _ a _ yl dy yr Hl Hnl Ha Hal eq_refl)
        as (s' & Hu & Hrep & Ha' & Hroot & Hgone & Hfr).
      exists s'. split; [done|]. cbn [_left rootp _data _right _parent] in Ha'.
      rewrite decide_True in Ha' by done. split; [|split; [done|split; [done|]]].
      * cbn [tunlink]. rewrite decide_True by done. split; [done|]. split; [done|].
        eapply rep_frame; [|exact Hr]. intros b Hb. apply Hfr; [|by intros ->].
        intros Hb'. by apply (Hlr b).
      * intros b Hb. rewrite elem_of_addrs in Hb. apply Hfr; naive_solver.
    + destruct (IHl _ _ _ _ (Some a) eq_refl Hl Hnl Hx Hxy)
        as (s' & Hu & Hrep & Hroot & Hgone & Hfr).
      exists s'. split; [done|]. split; [|split; [done|split; [done|]]].
      * split; [|split; [done|]].
        { rewrite Hfr by done. rewrite rootp_tunlink by (simpl; congruence). done. }
        { eapply rep_frame; [|exact Hr]. intros b Hb. apply Hfr. intros Hb'. by apply (Hlr b). }
      * intros b Hb. rewrite elem_of_addrs in Hb. apply Hfr; naive_solver.
  - assert (Hxl : x ∉ addrs l) by (intros Hb; by apply (Hlr x)).
    assert (Ht : tunlink x (Node a l d r) = Node a l d (tunlink x r)).
    { simpl. rewrite decide_False by done. by rewrite (tunlink_out x l). }
    rewrite Ht. destruct r as [|y yl dy yr]; [by apply elem_of_nil in Hx|].
    destruct (decide (x = y)) as [->|Hxy].
    + destruct (unlink_child s y _ a _ yl dy yr Hr Hnr Ha Har eq_refl)
        as (s' & Hu & Hrep & Ha' & Hroot & Hgone & Hfr).
      exists s'. split; [done|]. cbn [_left rootp _data _right _parent] in Ha'.
      rewrite decide_False in Ha' by (intros E; symmetry in E; by apply rootp_in in E).
      split; [|split; [done|split; [done|]]].
      * cbn [tunlink]. rewrite decide_True by done. split; [done|]. split; [|done].
        eapply rep_frame; [|exact Hl]. intros b Hb. apply Hfr; [|by intros ->].
        by apply Hlr.
      * intros b Hb. rewrite elem_of_addrs in Hb. apply Hfr; naive_solver.
    + destruct (IHr _ _ _ _ (Some a) eq_refl Hr Hnr Hx Hxy)
        as (s' & Hu & Hrep & Hroot & Hgone & Hfr).
      exists s'. split; [done|]. split; [|split; [done|split; [done|]]].
      * split; [|split; [|done]].
        { rewrite Hfr by done. rewrite rootp_tunlink by (simpl; congruence). done. }
        { eapply rep_frame; [|exact Hl]. intros b Hb. apply Hfr. by apply Hlr. }
      * intros b Hb. rewrite elem_of_addrs in Hb. apply Hfr; naive_solver.
Qed.

Lemma unlink_spec s t x :
  rep (heap s) None t → _root s = rootp t → NoDup (addrs t) → x ∈ addrs t →
  ∃ s', unlink (Some x) s = (Ret (), s') ∧ rep (heap s') None (tunlink x t) ∧
    _root s' = rootp (tunlink x t) ∧ heap s' !! x = None ∧
    ∀ b, b ∉ addrs t → heap s' !! b = heap s !! b.
Proof using Type.
  intros Hrep Hroot Hnd Hx. destruct t as [|a l d r]; [by apply elem_of_nil in Hx|].
  destruct (decide (x = a)) as [->|Hne].
  - simpl. rewrite decide_True by done. by apply (unlink_root s a l d r).
  - destruct (unlink_sub s x None a l d r Hrep Hnd Hx Hne) as (s' & Hu & Hr & Hrt & Hg & Hf).
    exists s'. split; [done|]. split; [done|]. split; [|done].
    rewrite Hrt, Hroot. symmetry. apply rootp_tunlink. simpl. congruence.
Qed.

(** The node [x] has at most one child. *)
Fixpoint lone (x : loc) (t : tree) : Prop :=
  match t with
  | Leaf => True
  | Node a l _ r => (a = x → l = Leaf ∨ r = Leaf) ∧ lone x l ∧ lone x r
  end.

Lemma lone_heap h p t x n :
  rep h p t → h !! x = Some n → _left n = None ∨ _right n = None → lone x t.
Proof using Type.
  intros Hrep Hx Hn. revert p Hrep. induction t as [|a l IHl d r IHr]; [done|].
  intros p (Ha & Hl & Hr). split; [|split; [by eapply IHl|by eapply IHr]].
  intros ->. rewrite Ha in Hx. injection Hx as <-. simpl in Hn.
  destruct Hn; [left; by destruct l|right; by destruct r].
Qed.

Definition not_at (x : loc) (q : loc * (K * V)) : Prop := q.1 ≠ x.
#[local] Instance not_at_dec x q : Decision (not_at x q).
Proof using Type. unfold not_at. apply _. Defined.

Lemma filter_not_at x (N : list (loc * (K * V))) : x ∉ N.*1 → filter (not_at x) N = N.
Proof using Type.
  induction N as [|q N IH]; [done|]. rewrite fmap_cons, not_elem_of_cons. intros [Hq HN].
  rewrite filter_cons_True by (unfold not_at; congruence). by rewrite IH.
Qed.

Lemma nodes_tunlink x t :
  lone x t → NoDup (addrs t) → nodes (tunlink x t) = filter (not_at x) (nodes t).
Proof using Type.
  induction t as [|a l IHl d r IHr]; [done|]. intros (Ha & Hl & Hr) Hnd.
  pose proof (NoDup_addrs_node _ _ _ _ Hnd) as (Hnl & Hnr & Hal & Har & Hlr).
  simpl. rewrite filter_app. case_decide as E.
  - subst x. rewrite filter_cons_False by (unfold not_at; by intros []).
    rewrite (filter_not_at a (nodes l)), (filter_not_at a (nodes r)) by done.
    destruct (Ha eq_refl) as [->| ->]; [done|]. rewrite app_nil_r. by destruct l.
  - rewrite filter_cons_True by done. simpl. by rewrite IHl, IHr.
Qed.

Lemma filter_split x d (N1 N2 : list (loc * (K * V))) :
  NoDup (N1 ++ (x, d) :: N2).*1 → filter (not_at x) (N1 ++ (x, d) :: N2) = N1 ++ N2.
Proof using Type.
  rewrite fmap_app, fmap_cons, NoDup_app, NoDup_cons. intros (_ & H1 & H2 & _).
  rewrite filter_app, filter_cons_False by (unfold not_at; by intros []).
  rewrite !filter_not_at; [done|done|]. intros Hx. apply (H1 x Hx). by left.
Qed.

(** Removing a node with at most one child. *)
Lemma unlink_holds s t x d N1 N2 n :
  rep (heap s) None t → _root s = rootp t → NoDup (addrs t) →
  (∀ b, is_Some (heap s !! b) → b ∈ addrs t) →
  nodes t = N1 ++ (x, d) :: N2 → ssorted (N1.*2 ++ N2.*2) →
  heap s !! x = Some n → _left n = None ∨ _right n = None →
  ∃ s' t', unlink (Some x) s = (Ret (), s') ∧ holds s' t' ∧ nodes t' = N1 ++ N2.
Proof using Type.
  intros Hrep Hroot Hnd Hdom Hn Hs Hx Hone.
  assert (Hxt : x ∈ addrs t) by (apply Hdom; by eexists).
  destruct (unlink_spec s t x Hrep Hroot Hnd Hxt) as (s' & Hu & Hr' & Hrt & Hg & Hf).
  assert (Hnodes : nodes (tunlink x t) = N1 ++ N2).
  { rewrite nodes_tunlink by (try eapply lone_heap; done). rewrite Hn. apply filter_split.
    by rewrite <-Hn. }
  exists s', (tunlink x t). split; [done|]. split; [|done]. unfold addrs in *. split.
  - done.
  - done.
  - unfold addrs. rewrite Hnodes. rewrite Hn, fmap_app, fmap_cons, NoDup_app, NoDup_cons in Hnd.
    rewrite fmap_app, NoDup_app. destruct Hnd as (H1 & H2 & _ & H3). split; [done|].
    split; [|done]. intros b Hb Hb2. apply (H2 b Hb). by right.
  - intros b Hb. unfold addrs. rewrite Hnodes. destruct (decide (b ∈ (nodes t).*1)) as [Hin|Hout].
    + rewrite Hn, fmap_app, fmap_cons, elem_of_app, elem_of_cons in Hin.
      rewrite fmap_app, elem_of_app. destruct Hin as [?|[->|?]]; [by left| |by right].
      simpl in Hb. rewrite Hg in Hb. by destruct Hb.
    + rewrite Hf in Hb by done. by destruct Hout; apply Hdom.
  - unfold entries. by rewrite Hnodes, fmap_app.
Qed.

(** Overwriting the pair of one node. *)
Fixpoint tset (x : loc) (e : K * V) (t : tree) : tree :=
  match t with
  | Leaf => Leaf
  | Node a l d r => Node a (tset x e l) (if decide (a = x) then e else d) (tset x e r)
  end.

Lemma rootp_tset x e t : rootp (tset x e t) = rootp t.
Proof using Type. by destruct t. Qed.
Lemma nodes_tset x e t :
  nodes (tset x e t) = (λ q, if decide (q.1 = x) then (q.1, e) else q) <$> nodes t.
Proof using Type.
  induction t as [|a l IHl d r IHr]; [done|]. simpl. rewrite fmap_app, fmap_cons, IHl, IHr.
  simpl. by case_decide.
Qed.
Lemma addrs_tset x e t : addrs (tset x e t) = addrs t.
Proof using Type.
  unfold addrs. rewrite nodes_tset, <-list_fmap_compose. apply list_fmap_ext.
  intros i q _. simpl. by case_decide.
Qed.
Lemma fmap_set_out x e (N : list (loc * (K * V))) :
  x ∉ N.*1 → (λ q, if decide (q.1 = x) then (q.1, e) else q) <$> N = N.
Proof using Type.
  induction N as [|q N IH]; [done|]. rewrite fmap_cons, not_elem_of_cons. intros [Hq HN].
  rewrite fmap_cons, IH by done. by rewrite decide_False by congruence.
Qed.
Lemma nodes_tset_split x e d t N1 N2 :
  NoDup (addrs t) → nodes t = N1 ++ (x, d) :: N2 → nodes (tset x e t) = N1 ++ (x, e) :: N2.
Proof using Type.
  intros Hnd Hn. unfold addrs in Hnd. rewrite nodes_tset.
  rewrite Hn, fmap_app, fmap_cons, NoDup_app, NoDup_cons in Hnd. destruct Hnd as (_ & H1 & H2 & _).
  rewrite Hn, fmap_app, fmap_cons. simpl. rewrite decide_True by done.
  rewrite !fmap_set_out; [done|done|]. intros Hx. apply (H1 x Hx). by left.
Qed.

Lemma rep_tset h p t x e n :
  rep h p t → h !! x = Some n →
  rep (<[x := TNode e (_left n) (_right n) (_parent n)]> h) p (tset x e t).
Proof using Type.
  intros Hrep Hx. revert p Hrep. induction t as [|a l IHl d r IHr]; [done|].
  intros p (Ha & Hl & Hr). cbn [tset rep]. rewrite !rootp_tset. split; [|split; [by apply IHl|by apply IHr]].
  case_decide as E.
  - subst a. rewrite lookup_insert_eq. rewrite Ha in Hx. by injection Hx as <-.
  - by rewrite lookup_insert_ne.
Qed.

Lemma rep_data h p t x d : rep h p t → (x, d) ∈ nodes t → ∃ n, h !! x = Some n ∧ _data n = d.
Proof using Type.
  revert p. induction t as [|a l IHl d' r IHr]; intros p; [by intros _ ?%elem_of_nil|].
  intros (Ha & Hl & Hr). simpl. rewrite elem_of_app, elem_of_cons.
  intros [?|[[= -> ->]|?]]; [by eapply IHl|by eexists|by eapply IHr].
Qed.

Lemma sl_remove_absent k (l : list (K * V)) : sl_lookup k l = None → sl_remove k l = l.
Proof using Type.
  induction l as [|[k' v'] l IH]; [done|]. simpl.
  destruct (klt k k'); [done|]. destruct (klt k' k); [|done]. intros Hl. by rewrite IH.
Qed.

Lemma split_unique (a : loc) (d d' : K * V) N1 N2 M1 M2 :
  NoDup (N1 ++ (a, d) :: N2).*1 → N1 ++ (a, d) :: N2 = M1 ++ (a, d') :: M2 → N2 = M2.
Proof using Type.
  rewrite fmap_app, fmap_cons, NoDup_app, NoDup_cons. intros (_ & H1 & H2 & _) E.
  apply app_eq_inv in E as [([|q k] & -> & Ek)|([|q k] & -> & Ek)].
  - by injection Ek.
  - injection Ek as <- _. exfalso. apply (H1 a); [|by left].
    rewrite fmap_app, elem_of_app. right. by left.
  - by injection Ek.
  - injection Ek as <- ->. exfalso. apply H2. rewrite fmap_app, elem_of_app. right. by left.
Qed.

(** A node with two children: the pair of its successor moves in, and that node goes. *)
Lemma erase_two s t a k v N1 N2 n la ra :
  holds s t → nodes t = N1 ++ (a, (k, v)) :: N2 → heap s !! a = Some n →
  _left n = Some la → _right n = Some ra →
  ∃ s' t', (succ ← successor (Some a);
            sn ← load succ;
            set_data (Some a) (_data sn);; unlink succ) s = (Ret (), s') ∧
    holds s' t' ∧ entries t' = N1.*2 ++ N2.*2.
Proof using Type.
  intros Hh Hn Ha Hla Hra. pose proof (holds_size _ _ Hh) as Hsz.
  destruct Hh as [Hrep Hroot Hnd Hdom Hs].
  assert (Hat : a ∈ addrs t) by (apply Hdom; by eexists).
  destruct (subtree_at _ _ _ _ _ Hrep Hat Ha) as (l & r & M1 & M2 & Hn' & Hl & Hr & _ & Hrr).
  rewrite app_assoc in Hn'. assert (HN2 : N2 = nodes r ++ M2).
  { eapply (split_unique a (k, v) (_data n) N1); [by rewrite <-Hn|by rewrite <-Hn, Hn']. }
  destruct r as [|r0 rl rd rr]; [simpl in Hr; congruence|].
  destruct (minium_spec s _ _ _ _ _ Hrr) as (y & A & ny & Hy & Hm & Hny & Hyl).
  { rewrite Hsz. unfold addrs. rewrite Hn', !length_fmap. cbn [nodes].
    rewrite !length_app. cbn [length]. rewrite !length_app. lia. }
  unfold addrs in Hy. destruct (nodes (Node r0 rl rd rr)) as [|[y' dy] R] eqn:ER; [done|].
  rewrite fmap_cons in Hy. injection Hy as -> HA. simpl in HN2. subst N2. clear Hn'.
  destruct (rep_data _ _ _ y dy Hrep) as (n' & Hn2 & Hdy).
  { rewrite Hn. rewrite elem_of_app, !elem_of_cons. naive_solver. }
  rewrite Hny in Hn2. injection Hn2 as <-.
  assert (Hay : a ≠ y).
  { intros ->. unfold addrs in Hnd. rewrite Hn, fmap_app, !fmap_cons, NoDup_app, NoDup_cons in Hnd.
    destruct Hnd as (_ & _ & Hx & _). apply Hx. by left. }
  set (s1 := Bst (<[a := TNode dy (_left n) (_right n) (_parent n)]> (heap s)) (_root s)).
  destruct (unlink_holds s1 (tset a dy t) y dy (N1 ++ [(a, dy)]) (R ++ M2) ny)
    as (s' & t' & Hu & Hh' & Hnt).
  - by apply rep_tset.
  - simpl. by rewrite rootp_tset.
  - by rewrite addrs_tset.
  - intros b [m Hb]. rewrite addrs_tset. simpl in Hb. apply lookup_insert_Some in Hb.
    destruct Hb as [[<- _]|[_ Hb]]; [done|]. apply Hdom. by eexists.
  - rewrite (nodes_tset_split a dy (k, v) t N1 _ Hnd Hn). by rewrite <-app_assoc.
  - unfold entries in Hs. rewrite Hn, fmap_app, !fmap_cons in Hs. simpl in Hs.
    rewrite fmap_app. simpl. rewrite <-app_assoc. simpl.
    destruct (ssorted_mid (N1.*2) k v (dy :: (R ++ M2).*2)) as [Hmid _].
    pose proof (sl_remove_sorted k _ Hs) as Hrs. rewrite sl_remove_at in Hrs; [done|].
    by apply Hmid.
  - simpl. by rewrite lookup_insert_ne.
  - by left.
  - exists s', t'. split; [|split; [done|]].
    + run_prog. rewrite (successor_right _ _ _ _ Ha Hra). cbn [rootp] in Hr.
      rewrite Hra in Hr. injection Hr as ->. rewrite Hm. unfold load. cbn. rewrite Hny. cbn.
      unfold set_data, store_with. rewrite Ha, Hdy. exact Hu.
    + unfold entries. rewrite Hnt, !fmap_app, fmap_cons. simpl.
      by rewrite <-app_assoc, fmap_app.
Qed.

Lemma erase_spec s t k :
  holds s t →
  ∃ s' t', erase k s = (Ret (), s') ∧ holds s' t' ∧ entries t' = sl_remove k (entries t).
Proof using Type.
  intros Hh. unfold erase. pose proof (find_spec s t k Hh) as Hf. run_prog. rewrite Hf.
  destruct (tfind k t) as [a|] eqn:Ek.
  2: { exists s, t. split; [done|]. split; [done|]. symmetry.
       apply sl_remove_absent, tfind_None; [apply Hh|done]. }
  destruct (tfind_Some t k a (h_sorted _ _ Hh) Ek) as (v & N1 & N2 & Hn).
  destruct (tfind_lookup t k N1 N2 a v (h_sorted _ _ Hh) Hn) as (_ & Hrem & Hsr).
  destruct (rep_data _ _ _ a (k, v) (h_rep _ _ Hh)) as (n & Ha & Hd).
  { rewrite Hn, elem_of_app, elem_of_cons. right. by left. }
  rewrite Hrem. unfold load at 1. cbn. rewrite Ha. cbn.
  assert (Hone : _left n = None ∨ _right n = None →
    ∃ s' t', unlink (Some a) s = (Ret (), s') ∧ holds s' t' ∧ entries t' = N1.*2 ++ N2.*2).
  { intros Hn1. destruct Hh as [Hrep Hroot Hnd Hdom Hs].
    destruct (unlink_holds s t a (k, v) N1 N2 n) as (s' & t' & Hu & Hh' & Hnt); try done.
    exists s', t'. split; [done|]. split; [done|]. unfold entries. by rewrite Hnt, fmap_app. }
  destruct (_left n) as [la|] eqn:Hla; [destruct (_right n) as [ra|] eqn:Hra|]; auto.
  destruct (erase_two s t a k v N1 N2 n la ra Hh Hn Ha Hla Hra) as (s' & t' & He & Hh' & Ht').
  exists s', t'. split; [|done]. exact He.
Qed.

(** ** [operator[]], [clear], iteration *)

Lemma sl_insert_insert k v w (l : list (K * V)) : sl_insert k v (sl_insert k w l) = sl_insert k v l.
Proof using Type.
  induction l as [|[k' v'] l IH]; simpl; [by rewrite !klt_irrefl|].
  destruct (klt k k') eqn:E1; [simpl; by rewrite !klt_irrefl|].
  destruct (klt k' k) eqn:E2; simpl; [by rewrite E1, E2, IH|by rewrite !klt_irrefl].
Qed.

Lemma found_data s t k a :
  holds s t → tfind k t = Some a →
  ∃ n, heap s !! a = Some n ∧ (_data n).1 = k ∧ sl_lookup k (entries t) = Some (_data n).2.
Proof using Type.
  intros Hh Ek. destruct (tfind_Some t k a (h_sorted _ _ Hh) Ek) as (v & N1 & N2 & Hn).
  destruct (tfind_lookup t k N1 N2 a v (h_sorted _ _ Hh) Hn) as (Hl & _ & _).
  destruct (rep_data _ _ _ a (k, v) (h_rep _ _ Hh)) as (n & Ha & Hd).
  { rewrite Hn, elem_of_app, elem_of_cons. right. by left. }
  exists n. by rewrite Hd.
Qed.

(** Writing through the reference that [operator[]] returns. *)
Lemma assign_spec s t k v a :
  holds s t → tfind k t = Some a →
  ∃ s' t', (n ← load (Some a); set_data (Some a) ((_data n).1, v)) s = (Ret (), s') ∧
    holds s' t' ∧ entries t' = sl_insert k v (entries t).
Proof using Type.
  intros Hh Ek. destruct (found_data _ _ _ _ Hh Ek) as (n & Ha & Hk & _).
  destruct (tfind_Some t k a (h_sorted _ _ Hh) Ek) as (v0 & N1 & N2 & Hn).
  destruct Hh as [Hrep Hroot Hnd Hdom Hs].
  assert (Hent : entries (tset a (k, v) t) = sl_insert k v (entries t)).
  { unfold entries in *. rewrite (nodes_tset_split a (k, v) (k, v0) t N1 N2 Hnd Hn), Hn in *.
    rewrite !fmap_app, !fmap_cons in *. simpl in *. symmetry. apply sl_insert_at.
    by apply ssorted_mid in Hs as (_ & _ & ? & _). }
  run_prog. unfold load, set_data, store_with. cbn. rewrite Ha. cbn. rewrite Hk.
  eexists _, (tset a (k, v) t). split; [reflexivity|]. split; [split|done].
  - by apply rep_tset.
  - simpl. by rewrite rootp_tset.
  - by rewrite addrs_tset.
  - intros b [m Hb]. rewrite addrs_tset. simpl in Hb. apply lookup_insert_Some in Hb.
    destruct Hb as [[<- _]|[_ Hb]]; apply Hdom; by eexists.
  - rewrite Hent. by apply sl_insert_sorted.
Qed.

Lemma index_spec s t k :
  holds s t →
  ∃ s' t' a, index k s = (Ret (Some a), s') ∧ holds s' t' ∧ tfind k t' = Some a ∧
    entries t' = match sl_lookup k (entries t) with
                 | Some _ => entries t
                 | None => sl_insert k dflt (entries t)
                 end.
Proof using Type.
  intros Hh. unfold index. run_prog. rewrite (find_spec s t k Hh).
  destruct (tfind k t) as [a|] eqn:Ek.
  - exists s, t, a. split; [done|]. split; [done|]. split; [done|].
    destruct (found_data _ _ _ _ Hh Ek) as (n & _ & _ & ->). done.
  - rewrite (tfind_None t k (h_sorted _ _ Hh) Ek).
    destruct (insert_spec s t k dflt Hh) as (s' & Hi & Hh'). rewrite Hi, (find_spec s' _ k Hh').
    set (t' := tins k dflt (fresh (dom (heap s))) t) in *.
    assert (He : entries t' = sl_insert k dflt (entries t)) by (apply entries_tins, Hh).
    destruct (tfind k t') as [a|] eqn:Ek'.
    + destruct (found_data _ _ _ _ Hh' Ek') as (n & Ha & _ & _).
      unfold load. cbn. rewrite Ha. cbn. by exists s', t', a.
    + pose proof (tfind_None t' k (h_sorted _ _ Hh') Ek') as Hn.
      by rewrite He, sl_lookup_insert, decide_True in Hn.
Qed.

Lemma clear_node_spec s p t f :
  rep (heap s) p t → NoDup (addrs t) → (length (addrs t) <= f)%nat →
  ∃ h', clear_node f (rootp t) s = (Ret (), Bst h' (_root s)) ∧
    (∀ b, b ∈ addrs t → h' !! b = None) ∧ ∀ b, b ∉ addrs t → h' !! b = heap s !! b.
Proof using Type.
  revert s p f. induction t as [|a l IHl d r IHr]; intros s p f.
  - intros _ _ _. exists (heap s). destruct f; (split; [by destruct s|]);
      (split; [by intros b ?%elem_of_nil|done]).
  - intros (Ha & Hl & Hr) Hnd.
    pose proof (NoDup_addrs_node _ _ _ _ Hnd) as (Hnl & Hnr & Hal & Har & Hlr).
    rewrite addrs_node, length_app. simpl. destruct f as [|f]; intros Hf; [lia|].
    cbn [clear_node]. unfold load. run_prog. cbn. rewrite Ha. cbn.
    destruct (IHl s (Some a) f Hl Hnl) as (h1 & H1 & Hd1 & Hf1); [lia|]. rewrite H1.
    destruct (IHr (Bst h1 (_root s)) (Some a) f) as (h2 & H2 & Hd2 & Hf2); [|done|lia|].
    { eapply rep_frame; [|exact Hr]. intros b Hb. apply Hf1. intros Hb'. by apply (Hlr b). }
    rewrite H2. cbn. rewrite Hf2 by done. cbn. rewrite Hf1, Ha by done.
    eexists. split; [reflexivity|].
    assert (Hin : ∀ b, b ∈ addrs l ++ a :: addrs r ↔ b ∈ addrs l ∨ b = a ∨ b ∈ addrs r).
    { intros b. by rewrite elem_of_app, elem_of_cons. }
    split; intros b; rewrite Hin; intros Hb.
    + apply lookup_delete_None. destruct (decide (a = b)) as [|Hne]; [by left|right].
      destruct (decide (b ∈ addrs r)) as [?|Hbr]; [by apply Hd2|]. rewrite Hf2 by done.
      apply Hd1. naive_solver.
    + rewrite lookup_delete_ne by naive_solver. rewrite Hf2 by naive_solver.
      apply Hf1. naive_solver.
Qed.

Lemma clear_spec s t : holds s t → clear s = (Ret (), map_ctor).
Proof using Type.
  intros Hh. unfold clear, fuel, set_root. run_prog. rewrite (h_root _ _ Hh).
  destruct (clear_node_spec s None t (S (size (heap s))) (h_rep _ _ Hh) (h_nodup _ _ Hh))
    as (h' & Hc & Hd & Hf); [rewrite (holds_size _ _ Hh); lia|].
  rewrite Hc. unfold map_ctor. do 2 f_equal. simpl. apply map_empty. intros b.
  destruct (decide (b ∈ addrs t)) as [Hb|Hb]; [by apply Hd|].
  rewrite Hf by done. destruct (heap s !! b) as [n|] eqn:E; [|done].
  destruct Hb. apply (h_dom _ _ Hh). by eexists.
Qed.

Lemma begin_spec s t : holds s t → begin s = (Ret (head (addrs t)), s).
Proof using Type.
  intros Hh. unfold begin. run_prog. rewrite (h_root _ _ Hh). destruct t as [|a l d r]; [done|].
  destruct (minium_spec s None a l d r (h_rep _ _ Hh)) as (y & A & n & Hy & Hm & _).
  { rewrite (holds_size _ _ Hh), addrs_node, length_app. lia. }
  cbn [rootp]. by rewrite Hm, Hy.
Qed.

(** An iterator at an element moves to the next one; at the last one the increment reads
    through a null pointer. *)
Lemma it_get_spec s t M1 a d M2 :
  holds s t → nodes t = M1 ++ (a, d) :: M2 → it_get (Some a) s = (Ret d, s).
Proof using Type.
  intros Hh Hn. destruct (rep_data _ _ _ a d (h_rep _ _ Hh)) as (n & Ha & Hd);
    [rewrite Hn, elem_of_app, elem_of_cons; right; by left|].
  unfold it_get, load. run_prog. cbn. rewrite Ha. by subst d.
Qed.

Lemma it_incr_spec s t M1 a d M2 :
  holds s t → nodes t = M1 ++ (a, d) :: M2 →
  it_incr (Some a) s =
    (match M2 with (b, _) :: _ => Ret (Some b) | [] => Undef end, s).
Proof using Type.
  intros Hh Hn. unfold it_incr. run_prog. destruct M2 as [|[b e] M2].
  - rewrite (successor_last s t (M1.*1) a); [done|apply Hh|apply Hh| |by rewrite (holds_size _ _ Hh)].
    unfold addrs. by rewrite Hn, fmap_app.
  - rewrite (successor_next s t None (M1.*1) (M2.*1) a b); [|apply Hh|apply Hh| |
      by rewrite (holds_size _ _ Hh)].
    2: { unfold addrs. by rewrite Hn, fmap_app. }
    destruct (rep_data _ _ _ b e (h_rep _ _ Hh)) as (nb & Hb & _).
    { rewrite Hn, elem_of_app, !elem_of_cons. naive_solver. }
    unfold load. cbn. by rewrite Hb.
Qed.

Lemma print_loop_spec s t M1 a d M2 f :
  holds s t → nodes t = M1 ++ (a, d) :: M2 → (length M2 < f)%nat →
  print_loop f (Some a) s = (Undef, s).
Proof using Type.
  intros Hh. revert M1 a d f. induction M2 as [|[b e] M2 IH]; intros M1 a d f Hn Hf.
  all: destruct f as [|f]; [lia|].
  all: cbn [print_loop]; run_prog;
    rewrite (it_get_spec s t _ _ _ _ Hh Hn), (it_incr_spec s t _ _ _ _ Hh Hn); try done.
  rewrite (IH (M1 ++ [(a, d)]) b e f); [done|by rewrite <-app_assoc|simpl in Hf; lia].
Qed.

Lemma print_first_spec s t M1 a d M2 n :
  holds s t → nodes t = M1 ++ (a, d) :: M2 →
  print_first n (Some a) s =
    (if (n <=? S (length M2))%nat then Ret (take n (d :: M2.*2)) else Undef, s).
Proof using Type.
  intros Hh. revert M1 a d n. induction M2 as [|[b e] M2 IH]; intros M1 a d [|[|n]] Hn; try done;
    try (cbn [print_first]; run_prog; by rewrite (it_get_spec s t _ _ _ _ Hh Hn)).
  all: change (print_first (S (S n)) (Some a)) with
    (d ← it_get (Some a); it ← it_incr (Some a); rest ← print_first (S n) it; mret (d :: rest)).
  all: run_prog; rewrite (it_get_spec s t _ _ _ _ Hh Hn), (it_incr_spec s t _ _ _ _ Hh Hn); try done.
  rewrite (IH (M1 ++ [(a, d)]) b e (S n)) by (by rewrite <-app_assoc).
  cbn [length]. change (S (S n) <=? S (S (length M2)))%nat with (S n <=? S (length M2))%nat.
  by destruct (S n <=? S (length M2))%nat.
Qed.

(** ** Histories of calls *)

Inductive op :=
  | Insert k v | Erase k | Find k | Index k | Assign k v | Clear | First (n : nat) | Items.
Inductive answer := Done | Value (v : option V) | Listing (l : list (K * V)).

Definition exec (o : op) : bst_prog answer :=
  match o with
  | Insert k v => insert k v;; mret Done
  | Erase k => erase k;; mret Done
  | Find k =>
      p ← find k;
      match p with
      | Some _ => n ← load p; mret (Value (Some (_data n).2))
      | None => mret (Value None)
      end
  | Index k => p ← index k; n ← load p; mret (Value (Some (_data n).2))
  | Assign k v => p ← index k; n ← load p; set_data p ((_data n).1, v);; mret Done
  | Clear => clear;; mret Done
  | First n => it ← begin; l ← print_first n it; mret (Listing l)
  | Items => f ← fuel; it ← begin; l ← print_loop f it; mret (Listing l)
  end.

(** What the sorted list answers; [None] is a call that is undefined. *)
Definition spec_op (o : op) (l : list (K * V)) : option (answer * list (K * V)) :=
  match o with
  | Insert k v | Assign k v => Some (Done, sl_insert k v l)
  | Erase k => Some (Done, sl_remove k l)
  | Find k => Some (Value (sl_lookup k l), l)
  | Index k =>
      Some match sl_lookup k l with
           | Some v => (Value (Some v), l)
           | None => (Value (Some dflt), sl_insert k dflt l)
           end
  | Clear => Some (Done, [])
  | First n =>
      match l with
      | [] => Some (Listing [], [])
      | _ => if (n <=? length l)%nat then Some (Listing (take n l), l) else None
      end
  | Items => match l with [] => Some (Listing [], []) | _ => None end
  end.

Fixpoint exec_all (os : list op) : bst_prog (list answer) :=
  match os with
  | [] => mret []
  | o :: os => a ← exec o; l ← exec_all os; mret (a :: l)
  end.
Fixpoint spec_all (os : list op) (l : list (K * V)) : option (list answer * list (K * V)) :=
  match os with
  | [] => Some ([], l)
  | o :: os =>
      '(a, l) ← spec_op o l;
      '(as_, l) ← spec_all os l;
      Some (a :: as_, l)
  end.

Lemma map_ctor_holds : holds map_ctor Leaf.
Proof using Type.
  split; simpl; [done|done|apply NoDup_nil_2| |constructor].
  intros b. rewrite lookup_empty. by intros [].
Qed.

Lemma exec_spec s t o :
  holds s t →
  match spec_op o (entries t) with
  | Some (a, l) => ∃ s' t', exec o s = (Ret a, s') ∧ holds s' t' ∧ entries t' = l
  | None => (exec o s).1 = Undef
  end.
Proof using Type.
  intros Hh. destruct o as [k v|k|k|k|k v| |n|]; unfold exec.
  - destruct (insert_spec s t k v Hh) as (s' & Hi & Hh'). run_prog. rewrite Hi.
    eexists _, _. split; [reflexivity|]. split; [exact Hh'|apply entries_tins, Hh].
  - destruct (erase_spec s t k Hh) as (s' & t' & He & Hh' & Ht'). run_prog. rewrite He.
    by eexists _, _.
  - pose proof (find_spec s t k Hh) as Hf. run_prog. rewrite Hf.
    exists s, t. split; [|done]. destruct (tfind k t) as [a|] eqn:Ek.
    + destruct (found_data _ _ _ _ Hh Ek) as (n & Ha & _ & Hl). unfold load. cbn. rewrite Ha. cbn.
      by rewrite Hl.
    + simpl. by rewrite (tfind_None t k (h_sorted _ _ Hh) Ek).
  - destruct (index_spec s t k Hh) as (s' & t' & a & Hi & Hh' & Ek & Ht').
    destruct (found_data _ _ _ _ Hh' Ek) as (n & Ha & _ & Hl). run_prog. rewrite Hi.
    unfold load. cbn. rewrite Ha. cbn. rewrite Ht' in Hl.
    destruct (sl_lookup k (entries t)) as [v|] eqn:El; cbn; exists s', t'.
    + rewrite El in Hl. injection Hl as ->. done.
    + rewrite sl_lookup_insert, decide_True in Hl by done. injection Hl as ->. done.
  - destruct (index_spec s t k Hh) as (s1 & t1 & a & Hi & Hh1 & Ek & Ht1).
    destruct (assign_spec s1 t1 k v a Hh1 Ek) as (s' & t' & Ha & Hh' & Ht').
    exists s', t'. split; [|split; [done|]].
    + revert Ha. run_prog. rewrite Hi. destruct (load (Some a) s1) as [[n| |] s2]; [|done|done].
      by intros ->.
    + rewrite Ht', Ht1. cbn. destruct (sl_lookup k (entries t)); [done|apply sl_insert_insert].
  - run_prog. rewrite (clear_spec s t Hh). exists map_ctor, Leaf. split; [done|].
    split; [apply map_ctor_holds|done].
  - run_prog. rewrite (begin_spec s t Hh). unfold addrs. cbn [spec_op].
    unfold entries at 1 2 3. destruct (nodes t) as [|[a d] N] eqn:En.
    { exists s, t. split; [by destruct n|]. split; [done|]. unfold entries. by rewrite En. }
    cbn [fmap list_fmap head fst snd]. rewrite (print_first_spec s t [] a d N n Hh En).
    cbn [length]. rewrite length_fmap. destruct (n <=? S (length N))%nat; [|done].
    exists s, t. split; [done|]. split; [done|]. unfold entries. by rewrite En.
  - unfold fuel. run_prog. rewrite (begin_spec s t Hh), (holds_size _ _ Hh). cbn [spec_op].
    unfold entries, addrs. destruct (nodes t) as [|[a d] N] eqn:En.
    { exists s, t. split; [done|]. split; [done|]. by rewrite En. }
    cbn [fmap list_fmap head fst snd].
    rewrite (print_loop_spec s t [] a d N _ Hh En); [done|]. cbn. rewrite length_fmap. lia.
Qed.

Lemma exec_all_spec os s t :
  holds s t →
  match spec_all os (entries t) with
  | Some (as_, l) => ∃ s' t', exec_all os s = (Ret as_, s') ∧ holds s' t' ∧ entries t' = l
  | None => (exec_all os s).1 = Undef
  end.
Proof using Type.
  revert s t. induction os as [|o os IH]; intros s t Hh; [by exists s, t|].
  pose proof (exec_spec s t o Hh) as H1. cbn [exec_all spec_all].
  destruct (spec_op o (entries t)) as [[a l]|]; cbn.
  2: { run_prog. destruct (exec o s) as [r s1]. cbn in H1. by rewrite H1. }
  destruct H1 as (s1 & t1 & H1 & Hh1 & <-). specialize (IH s1 t1 Hh1). run_prog. rewrite H1.
  destruct (spec_all os (entries t1)) as [[as_ l]|]; cbn.
  - destruct IH as (s2 & t2 & H2 & Hh2 & Ht2). exists s2, t2. by rewrite H2.
  - destruct (exec_all os s1) as [r s2]. cbn in IH. by rewrite IH.
Qed.
End bst_map.

(** C11. Every history of insert, erase, find, [operator[]], clear and loops over the
    elements runs without a null or dangling pointer and answers as the sorted association
    list does: an insertion replaces the value of an equal key, [operator[]] inserts the
    default, a loop from [begin] that is left at an element has read the first pairs in key
    order.  Afterwards the heap holds exactly the nodes of the tree, one per key, so nothing
    leaks.  The one exception is a history with a loop that goes on past the last element of
    a map that is not empty, as that of main does: it is undefined. *)
Theorem bst_refines {K V} `{KeyOrder K} (dflt : V) (os : list op) :
  match spec_all dflt os [] with
  | Some (answers, l) =>
      ∃ s, exec_all dflt os map_ctor = (Ret answers, s) ∧
        size (heap s) = length l ∧ ssorted l ∧
        ∃ t, rep (heap s) None t ∧ _root s = rootp t ∧ entries t = l
  | None => (exec_all dflt os map_ctor).1 = Undef
  end.
Proof.
  pose proof (exec_all_spec dflt os map_ctor Leaf map_ctor_holds) as He.
  change (entries Leaf) with (@nil (K * V)) in *.
  destruct (spec_all dflt os []) as [[answers l]|]; [|done].
  destruct He as (s & t & He & Hh & <-). exists s. split; [done|].
  split; [|split; [apply Hh|exists t; split; [apply Hh|split; [apply Hh|done]]]].
  rewrite (holds_size _ _ Hh). unfold addrs, entries. by rewrite !length_fmap.
Qed.

(** The loop of main increments its iterator past the last element, and
    [operator++] then returns a reference through a null pointer: after any history that
    leaves the map not empty, [for (it = begin(); it != end(); ++ it)] is undefined. *)
Theorem increment_past_last_undefined {K V} `{KeyOrder K} (dflt : V) (os : list op) answers l s :
  spec_all dflt os [] = Some (answers, l) → l ≠ [] → (exec_all dflt os map_ctor).2 = s →
  ∃ it, begin s = (Ret (Some it), s) ∧
    ∀ f, (size (heap s) <= f)%nat → print_loop f (Some it) s = (Undef, s).
Proof.
  intros Hs Hne <-. pose proof (exec_all_spec dflt os map_ctor Leaf map_ctor_holds) as He.
  change (entries Leaf) with (@nil (K * V)) in *. rewrite Hs in He.
  destruct He as (s & t & -> & Hh & <-). cbn [snd].
  unfold entries in Hne. destruct (nodes t) as [|[a d] N] eqn:En; [done|].
  exists a. split.
  - rewrite (begin_spec _ _ Hh). unfold addrs. by rewrite En.
  - intros f Hf. rewrite (holds_size _ _ Hh) in Hf. unfold addrs in Hf.
    rewrite En, length_fmap in Hf. simpl in Hf. by apply (print_loop_spec s t [] a d N f).
Qed.

(** The calls of main before its loop. *)
Definition main_history : list (op (K := Z) (V := string)) :=
  [Insert 4%Z "four"; Insert 3%Z "three"; Erase 3%Z; Find 3%Z; Insert 1%Z "one";
   Insert 2%Z "two"; Insert 5%Z "five"; Insert 6%Z "six"; Erase 4%Z]%string.

Example main_first_three :
  spec_all EmptyString (main_history ++ [First 3]) [] =
  Some ([Done; Done; Done; Value None; Done; Done; Done; Done; Done;
         Listing [(1%Z, "one"%string); (2%Z, "two"%string); (5%Z, "five"%string)]],
        [(1%Z, "one"%string); (2%Z, "two"%string); (5%Z, "five"%string); (6%Z, "six"%string)]).
Proof. reflexivity. Qed.
Example main_loop_undefined : spec_all EmptyString (main_history ++ [Items]) [] = None.
Proof. reflexivity. Qed.

Lemma increment_past_last_undefined_witness :
  let s := (exec_all EmptyString main_history map_ctor).2 in
  ∃ it, begin s = (Ret (Some it), s) ∧
    ∀ f, (size (heap s) <= f)%nat → print_loop f (Some it) s = (Undef, s).
Proof.
  eapply (increment_past_last_undefined EmptyString main_history); [reflexivity| |reflexivity].
  discriminate.
Defined.
