(* ===== verification/LogicLayer.v ===== *)
(** * The layered server of base_logic_layer

    [Module MsgNode] is msg_node.cpp: the nodes of the message header with an id.  The
    rest is the server of base_logic_layer/test: sessions that cut a byte stream into
    messages (session.cpp), the session manager, the login manager, the logic system with
    its queue and its thread, and the top of the network server.  A run is a sequence of
    events: bytes that arrive, completions and failures of reads, steps of the logic
    thread, and the signal that stops the server. *)

From stdpp Require Import base gmap list sets strings.
From Stdlib Require Import ZArith Lia Ascii.
From S2P Require Import Prelude CxxString NetBytes.

Local Open Scope Z_scope.

(** ** msg_node.cpp *)

Module MsgNode.

(** [_data.resize(max_len)]: a negative [short] becomes a huge [size_t]. *)
Record msg_node := Node { _cur_len : Z; _total_len : Z; _data : bytes }.
Definition HEAD_TOTAL_LEN : Z := 4.
Definition zero_byte : ascii := ascii_of_nat 0.

Definition msg_node_ctor (max_len : Z) : outcome msg_node :=
  if max_len <? 0 then Throw (LogicError (lit "vector::_M_default_append"))
  else Ret (Node 0 max_len (replicate (Z.to_nat max_len) zero_byte)).
Definition clear (n : msg_node) : msg_node := Node 0 (_total_len n) [].

Record recv_node := Recv { r_node : msg_node; r_id : Z }.
Definition recv_node_ctor (max_len id : Z) : outcome recv_node :=
  n ← msg_node_ctor max_len; Ret (Recv n id).

(** [memcpy] of [n] bytes of [src] to [dst] at [at_]: undefined outside either, and so
    is a negative length, which becomes a huge one. *)
Definition memcpy (dst : bytes) (at_ n : Z) (src : bytes) : outcome bytes :=
  if (n <? 0) || (size src <? n) || (size dst <? at_ + n) then Undef
  else Ret (take (Z.to_nat at_) dst ++ take (Z.to_nat n) src ++ drop (Z.to_nat (at_ + n)) dst).

Record send_node := Send { s_node : msg_node; s_id : Z }.

(** The argument of the base class, [max_len + HEAD_TOTAL_LEN], is an int that is
    converted to [short]. *)
Definition send_node_ctor (data : bytes) (max_len msg_id : Z) : outcome send_node :=
  n ← msg_node_ctor (sext 16 (max_len + HEAD_TOTAL_LEN));
  d ← memcpy (_data n) 0 2 (bytes16 (htons (wrap16 msg_id)));
  d ← memcpy d 2 2 (bytes16 (htons (wrap16 max_len)));
  d ← memcpy d 4 max_len data;
  Ret (Send (Node (_cur_len n) (_total_len n) d) msg_id).

(** What a receiver reads back: id, length and data. *)
Definition parse (wire : bytes) : Z * Z * bytes :=
  (ntohs (load16 (take 2 wire)), ntohs (load16 (take 2 (drop 2 wire))), drop 4 wire).

End MsgNode.

(** ** message.hpp and config.h *)

Record LogicMessage := Msg { session_id : Z; msg_type : Z; body : bytes }.
Definition MSG_LOGIN : Z := 1.
Definition MSG_CHAT : Z := 2.
Definition HEAD_LEN : nat := 4.
Definition MAX_BODY : Z := 4 * 1024 * 1024.

(** ** Sessions: what the peer has sent, how much of it has been read, what was sent
    back, and the read that is pending *)

Inductive read_state := NoRead | ReadHeader | ReadBody (body_len : Z).
Record Session := Sess {
  recv : bytes; rpos : nat; sent : bytes; is_open : bool; reading : read_state }.

(** [Session::send]: a header of four bytes, then the data. *)
Definition frame (data : bytes) : bytes := bytes32 (htonl (wrap32 (size data))) ++ data.

(** ** login_mgr.cpp *)

Record LoginMgr := Login { _online_users : gmap Z Z; _session_to_user : gmap Z Z }.

(** ** The server *)

Inductive handler := HandleLogin | HandleChat.

(** The logic thread in [run]: at the loop's test; holding the mutex before the wait's
    predicate; holding it before it goes to sleep; asleep; holding it after the wait;
    with a message and without the mutex; finished. *)
Inductive logic_pc :=
  | AtTop | AtPredicate | Blocking | Asleep | AfterWait | Dispatching (m : LogicMessage) | Finished.

(** [NetworkServer::stop] after [close_all]: before [_stop = true], before [notify_all],
    done. *)
Inductive stop_pc := Running | Closed | StopSet | Notified.

Record server := Server {
  _next_id : Z;
  objects : gmap Z Session;
  _sessions : gset Z;
  _queue : list LogicMessage;
  _stop : bool;
  logic : logic_pc;
  _handlers : gmap Z handler;
  logins : LoginMgr;
  stopping : stop_pc }.

Section server.
(** [std::hash<std::string>] *)
Variable hash : bytes → Z.

Definition handle_login (m : LogicMessage) (l : LoginMgr) : LoginMgr :=
  let user_id := hash (body m) in
  Login (<[user_id := session_id m]> (_online_users l))
        (<[session_id m := user_id]> (_session_to_user l)).
Definition handle_logout (sid : Z) (l : LoginMgr) : LoginMgr :=
  match _session_to_user l !! sid with
  | None => l
  | Some user_id => Login (delete user_id (_online_users l)) (delete sid (_session_to_user l))
  end.
Definition is_online (user_id : Z) (l : LoginMgr) : bool :=
  bool_decide (is_Some (_online_users l !! user_id)).
Definition get_user_by_session (sid : Z) (l : LoginMgr) : Z :=
  default 0 (_session_to_user l !! sid).

(** *** Updates of the server's fields *)

Definition set_object (s : server) (id : Z) (o : Session) : server :=
  Server (_next_id s) (<[id := o]> (objects s)) (_sessions s) (_queue s) (_stop s) (logic s)
    (_handlers s) (logins s) (stopping s).
Definition set_sessions (s : server) (l : gset Z) : server :=
  Server (_next_id s) (objects s) l (_queue s) (_stop s) (logic s) (_handlers s) (logins s)
    (stopping s).
Definition set_queue (s : server) (q : list LogicMessage) : server :=
  Server (_next_id s) (objects s) (_sessions s) q (_stop s) (logic s) (_handlers s) (logins s)
    (stopping s).
Definition set_logic (s : server) (p : logic_pc) : server :=
  Server (_next_id s) (objects s) (_sessions s) (_queue s) (_stop s) p (_handlers s) (logins s)
    (stopping s).
Definition set_logins (s : server) (l : LoginMgr) : server :=
  Server (_next_id s) (objects s) (_sessions s) (_queue s) (_stop s) (logic s) (_handlers s) l
    (stopping s).
Definition set_stopping (s : server) (b : bool) (p : stop_pc) : server :=
  Server (_next_id s) (objects s) (_sessions s) (_queue s) b (logic s) (_handlers s) (logins s) p.

(** *** session_manager.cpp *)

Definition add_session (id : Z) (s : server) : server := set_sessions s ({[id]} ∪ _sessions s).
Definition remove_session (id : Z) (s : server) : server := set_sessions s (_sessions s ∖ {[id]}).
Definition get_session (id : Z) (s : server) : option Session :=
  if decide (id ∈ _sessions s) then objects s !! id else None.

(** *** session.cpp *)

Definition close (id : Z) (r : read_state) (s : server) : server :=
  match objects s !! id with
  | Some o => remove_session id (set_object s id (Sess (recv o) (rpos o) (sent o) false r))
  | None => s
  end.

(** The same with the manager's mutex: the state is whether this thread holds it, and to
    lock it twice is undefined. *)
Abbreviation locked := (prog (bool * server)).
Definition lock_guard (critical : locked unit) : locked unit := λ '(held, s),
  if held : bool then (Undef, (held, s))
  else let '(r, (_, s)) := critical (true, s) in (r, (false, s)).
Definition remove_session_locking (id : Z) : locked unit :=
  lock_guard (modify (λ '(held, s), (held, remove_session id s))).
Definition close_locking (id : Z) (r : read_state) : locked unit :=
  '(held, s) ← get;
  match objects s !! id with
  | Some o =>
      put (held, set_object s id (Sess (recv o) (rpos o) (sent o) false r));;
      remove_session_locking id
  | None => mret ()
  end.

(** [SessionManager::close_all] *)
Fixpoint close_each (ids : list Z) : locked unit :=
  match ids with [] => mret () | id :: ids => close_locking id NoRead;; close_each ids end.
Definition close_all_locking : locked unit :=
  lock_guard ('(held, s) ← get;
              close_each (elements (_sessions s));;
              modify (λ '(held, s), (held, set_sessions s ∅))).
Definition close_all (s : server) : outcome server :=
  match close_all_locking (false, s) with
  | (Ret (), (_, s)) => Ret s
  | (Throw x, _) => Throw x
  | (Undef, _) => Undef
  end.

(** [send] by the logic thread; a failed write ends in [handle_error] and [close]. *)
Definition send (id : Z) (data : bytes) (write_ok : bool) (s : server) : server :=
  match get_session id s with
  | None => s
  | Some o =>
      if write_ok
      then set_object s id (Sess (recv o) (rpos o) (sent o ++ frame data) (is_open o) (reading o))
      else close id (reading o) s
  end.

(** The logic thread has the queue's mutex. *)
Definition mutex_held (s : server) : bool :=
  match logic s with AtPredicate | Blocking | AfterWait => true | _ => false end.

(** [notify_one] or [notify_all]: the sleeping thread goes on to the predicate. *)
Definition wake (s : server) : server :=
  match logic s with Asleep => set_logic s AtPredicate | _ => s end.

Definition post_message (sid mt : Z) (data : bytes) (s : server) : server :=
  wake (set_queue s (_queue s ++ [Msg sid mt data])).

Definition register_handler (mt : Z) (h : handler) (s : server) : server :=
  Server (_next_id s) (objects s) (_sessions s) (_queue s) (_stop s) (logic s)
    (<[mt := h]> (_handlers s)) (logins s) (stopping s).

(** [on_message]: post, and read the next header. *)
Definition on_message (id : Z) (o : Session) (data : bytes) (s : server) : server :=
  let s := post_message id 0 data s in
  set_object s id (Sess (recv o) (rpos o + length data) (sent o) (is_open o) ReadHeader).

(** The completion of the pending read, when the bytes are there. *)
Definition read_complete (id : Z) (s : server) : option server :=
  o ← objects s !! id;
  if is_open o then
    let unread := drop (rpos o) (recv o) in
    match reading o with
    | NoRead => None
    | ReadHeader =>
        if decide (HEAD_LEN <= length unread)%nat then
          let body_len := ntohl (load32 (take HEAD_LEN unread)) in
          let at_ r := set_object s id
            (Sess (recv o) (rpos o + HEAD_LEN) (sent o) (is_open o) r) in
          if (body_len =? 0) || (MAX_BODY <? body_len) then Some (close id NoRead (at_ NoRead))
          else Some (at_ (ReadBody body_len))
        else None
    | ReadBody n =>
        if mutex_held s then None
        else if decide (Z.to_nat n <= length unread)%nat
        then Some (on_message id o (take (Z.to_nat n) unread) s) else None
    end
  else None.

(** *** logic_system.cpp *)

Definition dispatch (m : LogicMessage) (write_ok : bool) (s : server) : server :=
  match _handlers s !! msg_type m with
  | Some HandleLogin => set_logins s (handle_login m (logins s))
  | Some HandleChat => send (session_id m) (body m) write_ok s
  | None => send (session_id m) (body m) write_ok s
  end.

(** One step of [run]; [write_ok] is the result of the write a dispatch may make. *)
Definition logic_step (write_ok : bool) (s : server) : option server :=
  match logic s with
  | AtTop => Some (set_logic s (if _stop s then Finished else AtPredicate))
  | AtPredicate =>
      Some (set_logic s (match _queue s with
                         | [] => if _stop s then AfterWait else Blocking
                         | _ => AfterWait
                         end))
  | Blocking => Some (set_logic s Asleep)
  | Asleep => None
  | AfterWait =>
      if _stop s then Some (set_logic s Finished)
      else match _queue s with
           | [] => None
           | m :: q => Some (set_logic (set_queue s q) (Dispatching m))
           end
  | Dispatching m => Some (set_logic (dispatch m write_ok s) AtTop)
  | Finished => None
  end.

(** *** network_server.cpp *)

Definition network_server : server :=
  register_handler MSG_CHAT HandleChat
    (register_handler MSG_LOGIN HandleLogin
       (Server 1 ∅ ∅ [] false AtTop ∅ (Login ∅ ∅) Running)).

Inductive event :=
  | Accept
  | Arrive (id : Z) (data : bytes)
  | Complete (id : Z)
  | Fail (id : Z)
  | Logic (write_ok : bool)
  | Spurious
  | Signal
  | SetStop
  | NotifyAll.

(** [None]: the event cannot happen in this state. *)
Definition step (s : server) (e : event) : option (outcome server) :=
  match e with
  | Accept =>
      match stopping s with
      | Running =>
          let id := _next_id s in
          let o := Sess [] 0 [] true ReadHeader in
          Some (Ret (add_session id
            (Server (wrap64 (id + 1)) (<[id := o]> (objects s)) (_sessions s) (_queue s)
               (_stop s) (logic s) (_handlers s) (logins s) (stopping s))))
      | _ => None
      end
  | Arrive id data =>
      o ← objects s !! id;
      if is_open o
      then Some (Ret (set_object s id (Sess (recv o ++ data) (rpos o) (sent o) true (reading o))))
      else None
  | Complete id => Ret <$> read_complete id s
  | Fail id =>
      o ← objects s !! id;
      match reading o with NoRead => None | _ => Some (Ret (close id NoRead s)) end
  | Logic write_ok => Ret <$> logic_step write_ok s
  | Spurious => match logic s with Asleep => Some (Ret (set_logic s AtPredicate)) | _ => None end
  | Signal =>
      match stopping s with
      | Running => Some (s ← close_all s; Ret (set_stopping s (_stop s) Closed))
      | _ => None
      end
  | SetStop =>
      match stopping s with Closed => Some (Ret (set_stopping s true StopSet)) | _ => None end
  | NotifyAll =>
      match stopping s with
      | StopSet => Some (Ret (wake (set_stopping s (_stop s) Notified)))
      | _ => None
      end
  end.

Fixpoint run_server (s : server) (es : list event) : option (outcome server) :=
  match es with
  | [] => Some (Ret s)
  | e :: es =>
      match step s e with
      | Some (Ret s) => run_server s es
      | Some (Throw x) => Some (Throw x)
      | Some Undef => Some Undef
      | None => None
      end
  end.
End server.

(** ** The nodes of msg_node.cpp *)

Lemma copy_within dst at_ n src :
  0 <= at_ → 0 <= n <= size src → at_ + n <= size dst →
  MsgNode.memcpy dst at_ n src =
    Ret (take (Z.to_nat at_) dst ++ take (Z.to_nat n) src ++ drop (Z.to_nat (at_ + n)) dst).
Proof.
  intros Ha Hn Hd. unfold MsgNode.memcpy. destruct (Z.ltb_spec n 0); [lia|].
  destruct (Z.ltb_spec (size src) n); [lia|]. destruct (Z.ltb_spec (size dst) (at_ + n)); [lia|].
  done.
Qed.

Lemma send_node_wire data max_len msg_id :
  0 <= max_len <= size data → max_len + 4 < 2 ^ 15 →
  MsgNode.send_node_ctor data max_len msg_id =
    Ret (MsgNode.Send (MsgNode.Node 0 (max_len + 4)
      (bytes16 (htons (wrap16 msg_id)) ++ bytes16 (htons (wrap16 max_len)) ++
       take (Z.to_nat max_len) data)) msg_id).
Proof.
  intros Hm Hs. unfold MsgNode.send_node_ctor, MsgNode.msg_node_ctor, MsgNode.HEAD_TOTAL_LEN.
  rewrite sext_small by lia. destruct (Z.ltb_spec (max_len + 4) 0); [lia|]. simpl.
  rewrite Z2Nat.inj_add by lia. rewrite Nat.add_comm. simpl.
  rewrite copy_within; [|lia|by vm_compute|unfold size; cbn [length app take drop]; rewrite ?length_replicate; lia].
  simpl. rewrite copy_within; [|lia|by vm_compute|unfold size; cbn [length app take drop]; rewrite ?length_replicate; lia].
  simpl. rewrite drop_0. rewrite copy_within; [|lia|lia|unfold size; cbn [length app take drop]; rewrite ?length_replicate; lia].
  replace (Z.to_nat (4 + max_len)) with (4 + Z.to_nat max_len)%nat by lia. simpl.
  rewrite drop_ge by (rewrite length_replicate; lia). by rewrite app_nil_r.
Qed.

(** A send node holds the id, the length and the first [max_len] bytes of the data
    as a receiver reads them back, for every length up to 32763; from 32764 on the sum
    with the header's length overflows the [short] it is converted to, and the
    constructor throws. *)
Theorem send_node_bounds data max_len msg_id :
  0 <= max_len < 2 ^ 15 → max_len <= size data → - 2 ^ 15 <= msg_id < 2 ^ 15 →
  if max_len <=? 32763 then
    ∃ n, MsgNode.send_node_ctor data max_len msg_id = Ret n ∧
      MsgNode._total_len (MsgNode.s_node n) = size (MsgNode._data (MsgNode.s_node n)) ∧
      MsgNode.parse (MsgNode._data (MsgNode.s_node n)) =
        (wrap16 msg_id, max_len, take (Z.to_nat max_len) data)
  else ∃ what, MsgNode.send_node_ctor data max_len msg_id = Throw (LogicError what).
Proof.
  intros Hm Hs Hid. destruct (Z.leb_spec max_len 32763) as [Hle|Hgt].
  - eexists. split; [apply send_node_wire; lia|].
    assert (Hw : 0 <= wrap16 msg_id < 2 ^ 16) by (unfold wrap16; apply Z.mod_pos_bound; lia).
    assert (Hl : wrap16 max_len = max_len) by (unfold wrap16; apply Z.mod_small; lia).
    split.
    + cbn [MsgNode.s_node MsgNode._data MsgNode._total_len]. unfold size in *.
      rewrite !length_app, length_take. simpl. lia.
    + unfold MsgNode.parse. cbn [MsgNode.s_node MsgNode._data].
      unfold bytes16. cbn [take drop app]. rewrite !take_0, drop_0.
      change (load16 [byte_of (htons (wrap16 msg_id)); byte_of (htons (wrap16 msg_id) / 256)])
        with (load16 (bytes16 (htons (wrap16 msg_id)))).
      change (load16 [byte_of (htons (wrap16 max_len)); byte_of (htons (wrap16 max_len) / 256)])
        with (load16 (bytes16 (htons (wrap16 max_len)))).
      rewrite !load16_bytes16 by apply htons_range.
      rewrite !ntohs_htons by lia. by rewrite Hl.
  - unfold MsgNode.send_node_ctor, MsgNode.msg_node_ctor, MsgNode.HEAD_TOTAL_LEN.
    assert (sext 16 (max_len + 4) = max_len + 4 - 2 ^ 16) as ->.
    { unfold sext. change (2 ^ (16 - 1)) with 32768. change (2 ^ 16) with 65536.
      rewrite <-(Z.mod_unique (max_len + 4 + 32768) 65536 1 (max_len + 4 + 32768 - 65536)); lia. }
    destruct (Z.ltb_spec (max_len + 4 - 2 ^ 16) 0); [by eexists|lia].
Qed.

Lemma send_node_bounds_witness :
  (∃ n, MsgNode.send_node_ctor (lit "hello") 5 (-2) = Ret n ∧
    MsgNode.parse (MsgNode._data (MsgNode.s_node n)) = (65534, 5, lit "hello")) ∧
  ∃ what, MsgNode.send_node_ctor (replicate (Z.to_nat 32764) "x"%char) 32764 1 = Throw (LogicError what).
Proof.
  split.
  - destruct (send_node_bounds (lit "hello") 5 (-2)) as (n & Hn & _ & Hp);
      [split; vm_compute; congruence|vm_compute; congruence|split; vm_compute; congruence|].
    exists n. split; [exact Hn|exact Hp].
  - apply (send_node_bounds (replicate (Z.to_nat 32764) "x"%char) 32764 1).
    + split; vm_compute; congruence.
    + unfold size. rewrite length_replicate, Z2Nat.id; [|vm_compute; congruence]. vm_compute; congruence.
    + split; vm_compute; congruence.
Defined.

(** ** The echo: what the server has read, and what it has answered *)

Definition waiting (s : server) : list LogicMessage :=
  match logic s with Dispatching m => [m] | _ => [] end ++ _queue s.
Definition from (id : Z) (ms : list LogicMessage) : list bytes :=
  body <$> filter (λ m, session_id m = id) ms.
Definition frames (l : list bytes) : bytes := mjoin (frame <$> l).
Definition header (r : read_state) : bytes :=
  match r with ReadBody n => bytes32 (htonl n) | _ => [] end.

(** An open session: it has read the frames of [done], which it has answered, those of
    the messages of its that wait, and perhaps a header. *)
Definition sess_ok (o : Session) (wait : list bytes) : Prop :=
  (rpos o <= length (recv o))%nat ∧
  (∀ n, reading o = ReadBody n → 1 <= n <= MAX_BODY) ∧
  ∃ done, sent o = frames done ∧
    take (rpos o) (recv o) = frames (done ++ wait) ++ header (reading o).

Record inv (s : server) : Prop := {
  i_hand : _handlers s !! 0 = None;
  i_login : logins s = Login ∅ ∅;
  i_msgs : Forall (λ m, msg_type m = 0 ∧ session_id m < _next_id s) (waiting s);
  i_open : ∀ id o, objects s !! id = Some o → is_open o = true →
    id ∈ _sessions s ∧ sess_ok o (from id (waiting s));
  i_reg : ∀ id, id ∈ _sessions s → ∃ o, objects s !! id = Some o ∧ is_open o = true;
  i_ids : ∀ id, is_Some (objects s !! id) → id < _next_id s }.

Lemma from_app id a b : from id (a ++ b) = from id a ++ from id b.
Proof. unfold from. by rewrite filter_app, fmap_app. Qed.
Lemma from_cons_eq m ms : from (session_id m) (m :: ms) = body m :: from (session_id m) ms.
Proof. unfold from. by rewrite filter_cons_True. Qed.
Lemma from_cons_ne id m ms : session_id m ≠ id → from id (m :: ms) = from id ms.
Proof. intros Hne. unfold from. by rewrite filter_cons_False. Qed.
Lemma frames_app a b : frames (a ++ b) = frames a ++ frames b.
Proof. unfold frames. by rewrite fmap_app, join_app. Qed.

Lemma frames_one b : frames [b] = frame b.
Proof. unfold frames. rewrite fmap_cons. cbn [fmap list_fmap mjoin list_join]. apply app_nil_r. Qed.

(** The fields that the invariant reads. *)
Lemma inv_ext s s' :
  inv s → _handlers s' = _handlers s → logins s' = logins s → waiting s' = waiting s →
  objects s' = objects s → _sessions s' = _sessions s → _next_id s' = _next_id s → inv s'.
Proof.
  intros [] H1 H2 H3 H4 H5 H6. split; rewrite ?H1, ?H2, ?H3, ?H4, ?H5, ?H6; done.
Qed.

Lemma waiting_wake s : waiting (wake s) = waiting s.
Proof. unfold wake, waiting. by destruct (logic s) eqn:E; simpl; rewrite ?E. Qed.

(** Replacing an open session by one that is as good. *)
Lemma inv_set_object s id o o' :
  inv s → objects s !! id = Some o → is_open o = true → is_open o' = true →
  sess_ok o' (from id (waiting s)) → inv (set_object s id o').
Proof.
  intros [Hh Hl Hm Ho Hr Hi] Hid Hop Hop' Hok. split; try done.
  - intros id1 o1. simpl. rewrite lookup_insert. case_decide; [|apply Ho].
    subst. intros [= <-] _. split; [by eapply Ho|done].
  - intros id1 Hin. simpl. rewrite lookup_insert. case_decide; [by exists o'|by apply Hr].
  - intros id1 [o1 Ho1]. simpl in Ho1. apply lookup_insert_Some in Ho1.
    destruct Ho1 as [[<- _]|[_ Ho1]]; apply Hi; by eexists.
Qed.

Lemma inv_close s id r : inv s → inv (close id r s).
Proof.
  intros [Hh Hl Hm Ho Hr Hi]. unfold close. destruct (objects s !! id) as [o|] eqn:Hid; [|by split].
  split; try done.
  - intros id1 o1. simpl. rewrite lookup_insert. case_decide; [by intros [= <-]|].
    intros H1 H2. destruct (Ho _ _ H1 H2). split; [set_solver|done].
  - intros id1 Hin. simpl in *. rewrite lookup_insert_ne by set_solver. apply Hr. set_solver.
  - intros id1 [o1 Ho1]. simpl in Ho1. apply lookup_insert_Some in Ho1.
    destruct Ho1 as [[<- _]|[_ Ho1]]; apply Hi; by eexists.
Qed.

Lemma set_object_twice s id o o' : set_object (set_object s id o) id o' = set_object s id o'.
Proof. unfold set_object. simpl. by rewrite insert_insert_eq. Qed.

(** A header is on the wire as it is parsed. *)
Lemma header_bytes (h : bytes) :
  length h = 4%nat → bytes32 (htonl (ntohl (load32 h))) = h ∧ 0 <= ntohl (load32 h).
Proof.
  intros Hl. destruct h as [|a [|b [|c [|d [|]]]]]; try done.
  split; [|apply htonl_range]. unfold ntohl. rewrite bytes32_htonl.
  rewrite bytes32_htonl, rev_involutive. apply bytes32_load32.
Qed.

Lemma set_object_close id o r s :
  objects s !! id = Some o →
  close id r (set_object s id (Sess (recv o) (rpos o + HEAD_LEN) (sent o) true r)) =
  remove_session id (set_object s id (Sess (recv o) (rpos o + HEAD_LEN) (sent o) false r)).
Proof. intros Ho. unfold close. simpl. rewrite lookup_insert_eq. by rewrite set_object_twice. Qed.

Lemma inv_drop_object s id o' :
  inv s → is_Some (objects s !! id) → is_open o' = false →
  inv (remove_session id (set_object s id o')).
Proof.
  intros [Hh Hl Hm Ho Hr Hi] Hid Hop. split; try done.
  - intros id1 o1. simpl. rewrite lookup_insert. case_decide; [intros [= <-]; congruence|].
    intros H1 H2. destruct (Ho _ _ H1 H2). split; [set_solver|done].
  - intros id1 Hin. simpl in *. rewrite lookup_insert_ne by set_solver. apply Hr. set_solver.
  - intros id1 H1. simpl in H1. apply Hi. rewrite lookup_insert in H1. by case_decide; subst.
Qed.

(** A complete header. *)
Lemma header_inv s id o h :
  inv s → objects s !! id = Some o → is_open o = true → reading o = ReadHeader →
  h = take HEAD_LEN (drop (rpos o) (recv o)) → length h = HEAD_LEN →
  let n := ntohl (load32 h) in
  (n =? 0) || (MAX_BODY <? n) = false →
  inv (set_object s id (Sess (recv o) (rpos o + HEAD_LEN) (sent o) true (ReadBody n))).
Proof.
  intros Hi Ho Hop Er Hh Hlen n Hn. destruct (i_open _ Hi _ _ Ho Hop) as (Hin & Hpos & _ & done & Hs & Ht).
  destruct (header_bytes h Hlen) as [Hb Hpos0]. fold n in Hpos0, Hb.
  apply inv_set_object with o; [done|done|done|done|]. split; [|split].
  - simpl. rewrite Hh, length_take, length_drop in Hlen. lia.
  - simpl. intros ? [= <-]. zbool. lia.
  - exists done. split; [done|]. simpl. rewrite <-take_take_drop, Ht, <-Hh, Er. simpl.
    by rewrite app_nil_r, Hb.
Qed.

(** A complete body: one more message waits. *)
Lemma on_message_inv s id o n data :
  inv s → objects s !! id = Some o → is_open o = true → reading o = ReadBody n →
  data = take (Z.to_nat n) (drop (rpos o) (recv o)) → size data = n →
  inv (on_message id o data s).
Proof.
  intros Hi Ho Hop Er Hdata Hd.
  pose proof (i_open _ Hi _ _ Ho Hop) as (Hin & Hpos & Hn & done & Hs & Ht).
  destruct (Hn n Er) as [Hn1 Hn2]. unfold on_message, post_message.
  set (s1 := wake (set_queue s (_queue s ++ [Msg id 0 data]))).
  assert (Hw : waiting s1 = waiting s ++ [Msg id 0 data]).
  { unfold s1. rewrite waiting_wake. unfold waiting. simpl. by rewrite app_assoc. }
  assert (Hsame : _handlers s1 = _handlers s ∧ logins s1 = logins s ∧ objects s1 = objects s ∧
    _sessions s1 = _sessions s ∧ _next_id s1 = _next_id s).
  { unfold s1, wake. simpl. by destruct (logic s). }
  destruct Hsame as (E1 & E2 & E3 & E4 & E5). clearbody s1.
  destruct Hi as [Hh Hl Hm Hopn Hreg Hids].
  assert (Hlen : length data = Z.to_nat n) by (unfold size in Hd; lia).
  split; simpl; rewrite ?E1, ?E2; try done.
  - change (waiting (set_object s1 id _)) with (waiting s1). rewrite Hw, E5.
    apply Forall_app. split; [done|]. apply Forall_singleton. split; [done|].
    apply Hids. by eexists.
  - intros id1 o1. change (waiting (set_object s1 id _)) with (waiting s1).
    rewrite E3, E4, Hw, from_app, lookup_insert. case_decide as E.
    + subst id1. intros [= <-] _. split; [done|].
      assert (from id [Msg id 0 data] = [data]) as -> by apply (from_cons_eq (Msg id 0 data)).
      split; [simpl; rewrite Hdata, length_take, length_drop in *; lia|].
      split; [done|]. exists done. split; [done|]. simpl.
      rewrite <-take_take_drop, Ht, Hlen, <-Hdata, app_nil_r, app_assoc, frames_app, <-app_assoc.
      rewrite <-frames_app, (frames_app (done ++ _)). f_equal. rewrite Er, frames_one. unfold frame, header.
      rewrite Hd. unfold wrap32. rewrite Z.mod_small; [done|].
      unfold MAX_BODY in Hn2. lia.
    + rewrite from_cons_ne by done. rewrite app_nil_r. by apply Hopn.
  - intros id1. rewrite E4, E3. intros H1. rewrite lookup_insert.
    case_decide; [by eexists|by apply Hreg].
  - intros id1. rewrite E3, E5. intros H1. apply Hids. rewrite lookup_insert in H1.
    case_decide; [subst; by eexists|done].
Qed.

Lemma read_complete_inv s id s' : inv s → read_complete id s = Some s' → inv s'.
Proof.
  intros Hi. unfold read_complete. intros (o & Ho & Hr)%bind_Some.
  destruct (is_open o) eqn:Hop; [|done]. cbn zeta in Hr.
  destruct (reading o) as [| |n] eqn:Er; [done| |].
  - destruct (decide _) as [Hlen|]; [|done]. rewrite length_drop in Hlen.
    destruct (_ || _) eqn:Ec; injection Hr as <-.
    + rewrite set_object_close by done. apply inv_drop_object; [done|by eexists|done].
    + eapply header_inv; [done|done|done|done|reflexivity| |done].
      unfold HEAD_LEN in *. rewrite length_take, length_drop. lia.
  - destruct (mutex_held s); [done|]. destruct (decide _) as [Hlen|]; [|done].
    injection Hr as <-. eapply on_message_inv; [done|done|done|done|reflexivity|].
    destruct (i_open _ Hi _ _ Ho Hop) as (_ & _ & Hn & _). destruct (Hn n Er).
    unfold size. rewrite length_take. lia.
Qed.

(** A dispatched message is answered, or its session is gone. *)
Lemma dispatch_inv hash s m b :
  inv s → logic s = Dispatching m → inv (set_logic (dispatch hash m b s) AtTop).
Proof.
  intros [Hh Hl Hm Ho Hr Hi] Hlog. assert (Hw : waiting s = m :: _queue s).
  { unfold waiting. by rewrite Hlog. }
  rewrite Hw in Hm, Ho. apply Forall_cons in Hm as [[Hty _] Hm].
  unfold dispatch. rewrite Hty, Hh. unfold send, get_session.
  assert (Hother : ∀ id o, session_id m ≠ id → objects s !! id = Some o → is_open o = true →
    id ∈ _sessions s ∧ sess_ok o (from id (_queue s))).
  { intros id o Hne H1 H2. rewrite <-(from_cons_ne id m) by done. by apply Ho. }
  assert (Hgone : session_id m ∉ _sessions s → ∀ id o, objects s !! id = Some o →
    is_open o = true → id ∈ _sessions s ∧ sess_ok o (from id (_queue s))).
  { intros Hn id o H1 H2. apply Hother; [|done|done]. intros <-. apply Hn.
    by eapply Ho. }
  case_decide as Hin; [|split; try done; by apply Hgone].
  destruct (Hr _ Hin) as (o & Hobj & Hop). rewrite Hobj.
  destruct (Ho _ _ Hobj Hop) as (_ & Hpos & Hn & done & Hs & Ht). rewrite from_cons_eq in Ht.
  destruct b.
  - split; simpl; try done.
    + intros id o1. rewrite lookup_insert. case_decide as E.
      * subst id. intros [= <-] _. split; [done|]. split; [done|]. split; [done|].
        exists (done ++ [body m]). split; simpl.
        { by rewrite frames_app, frames_one, Hs. }
        { by rewrite <-app_assoc. }
      * intros H1 H2. by apply Hother.
    + intros id H1. rewrite lookup_insert. case_decide; [by eexists|by apply Hr].
    + intros id H1. apply Hi. rewrite lookup_insert in H1. by case_decide; subst.
  - unfold close. rewrite Hobj. split; simpl; try done.
    + intros id o1. rewrite lookup_insert. case_decide as E; [by intros [= <-]|].
      intros H1 H2. destruct (Hother _ _ E H1 H2). split; [set_solver|done].
    + intros id H1. rewrite lookup_insert_ne by set_solver. apply Hr. set_solver.
    + intros id H1. apply Hi. rewrite lookup_insert in H1. by case_decide; subst.
Qed.

Lemma logic_step_inv hash b s s' : inv s → logic_step hash b s = Some s' → inv s'.
Proof.
  intros Hi. unfold logic_step. destruct (logic s) as [| | | | |m|] eqn:E; try done.
  - intros [= <-]. apply (inv_ext s); try done.
    unfold waiting. simpl. rewrite E. by destruct (_stop s).
  - intros [= <-]. apply (inv_ext s); try done.
    unfold waiting. simpl. rewrite E. by destruct (_queue s), (_stop s).
  - intros [= <-]. apply (inv_ext s); try done.
    unfold waiting. simpl. by rewrite E.
  - destruct (_stop s).
    + intros [= <-]. apply (inv_ext s); try done.
      unfold waiting. simpl. by rewrite E.
    + destruct (_queue s) eqn:Eq; [done|]. intros [= <-].
      apply (inv_ext s); try done.
      unfold waiting. simpl. by rewrite E, Eq.
  - intros [= <-]. by apply dispatch_inv.
Qed.

Lemma accept_inv s :
  inv s → 0 <= _next_id s < 2 ^ 64 - 1 →
  inv (add_session (_next_id s)
    (Server (wrap64 (_next_id s + 1)) (<[_next_id s := Sess [] 0 [] true ReadHeader]> (objects s))
       (_sessions s) (_queue s) (_stop s) (logic s) (_handlers s) (logins s) (stopping s))).
Proof.
  intros [Hh Hl Hm Ho Hr Hi] Hb.
  assert (Hnone : from (_next_id s) (waiting s) = []).
  { unfold from. clear -Hm. induction (waiting s) as [|m l IH]; [done|].
    apply Forall_cons in Hm as [[_ Hm] Hm']. rewrite filter_cons_False by lia. auto. }
  split; simpl; try done; rewrite ?wrap64_small by lia.
  - eapply Forall_impl; [exact Hm|]. intros m [? ?]. split; [done|]. simpl. lia.
  - intros id o. change (waiting (add_session _ _)) with (waiting s).
    rewrite lookup_insert. case_decide as E.
    + subst id. intros [= <-] _. split; [set_solver|]. rewrite Hnone. split; [done|].
      split; [done|]. by exists [].
    + intros H1 H2. destruct (Ho _ _ H1 H2). split; [set_solver|done].
  - intros id. rewrite lookup_insert. case_decide; [by eexists|]. intros H1. apply Hr. set_solver.
  - intros id H1. rewrite lookup_insert in H1. case_decide; [subst; lia|].
    specialize (Hi id H1). lia.
Qed.

Lemma arrive_inv s id o data :
  inv s → objects s !! id = Some o → is_open o = true →
  inv (set_object s id (Sess (recv o ++ data) (rpos o) (sent o) true (reading o))).
Proof.
  intros Hi Ho Hop. destruct (i_open _ Hi _ _ Ho Hop) as (_ & Hpos & Hn & done & Hs & Ht).
  apply inv_set_object with o; [done|done|done|done|]. split; [simpl; rewrite length_app; lia|].
  split; [done|]. exists done. split; [done|]. simpl. by rewrite take_app_le.
Qed.

(** [close] is what the code does when the mutex is free. *)
Lemma close_locking_free id r s : close_locking id r (false, s) = (Ret (), (false, close id r s)).
Proof.
  unfold close_locking, close. run_prog. by destruct (objects s !! id).
Qed.

Lemma close_all_empty s : _sessions s = ∅ → close_all s = Ret s.
Proof.
  intros E. unfold close_all, close_all_locking, lock_guard. run_prog. rewrite E, elements_empty.
  simpl. unfold set_sessions. rewrite <-E. by destruct s.
Qed.

Lemma close_all_registered s : inv s → _sessions s ≠ ∅ → close_all s = Undef.
Proof.
  intros Hi Hne. unfold close_all, close_all_locking, lock_guard. run_prog.
  destruct (elements (_sessions s)) as [|id ids] eqn:E.
  { by apply elements_empty_inv, leibniz_equiv in E. }
  destruct (i_reg _ Hi id) as (o & Ho & _).
  { apply elem_of_elements. rewrite E. by left. }
  cbn [close_each]. unfold close_locking, remove_session_locking, lock_guard. run_prog.
  by rewrite Ho.
Qed.

Lemma close_all_inv s s' : inv s → close_all s = Ret s' → s' = s ∧ _sessions s = ∅.
Proof.
  intros Hi. destruct (decide (_sessions s = ∅)) as [E|E].
  - rewrite close_all_empty by done. by intros [= <-].
  - by rewrite close_all_registered.
Qed.

Lemma server_step_inv hash s e s' :
  inv s → 0 <= _next_id s < 2 ^ 64 - 1 → step hash s e = Some (Ret s') →
  inv s' ∧ 0 <= _next_id s' <= _next_id s + 1.
Proof.
  intros Hi Hb. unfold step. destruct e as [|id data|id|id|b| | | |].
  - destruct (stopping s) eqn:Est; try done. intros [= <-]. rewrite <-Est.
    split; [by apply accept_inv|].
    simpl. rewrite wrap64_small; lia.
  - intros (o & Ho & Hr)%bind_Some. destruct (is_open o) eqn:Hop; [|done]. injection Hr as <-.
    split; [by apply arrive_inv|simpl; lia].
  - intros (s1 & Hr & [= <-])%fmap_Some. split; [by eapply read_complete_inv|].
    revert Hr. unfold read_complete, close, on_message, post_message, wake.
    intros (o & Ho & Hr)%bind_Some. split_matches; simpl; lia.
  - intros (o & Ho & Hr)%bind_Some. destruct (reading o); try done; injection Hr as <-;
      (split; [by apply inv_close|unfold close; rewrite Ho; simpl; lia]).
  - intros (s1 & Hr & [= <-])%fmap_Some. split; [by eapply logic_step_inv|].
    revert Hr. unfold logic_step, dispatch, send, close. intros Hr.
    split_matches; simpl; lia.
  - destruct (logic s) eqn:E; try done. intros [= <-]. split; [|simpl; lia].
    apply (inv_ext s); try done. unfold waiting. simpl. by rewrite E.
  - destruct (stopping s); try done. destruct (close_all s) as [s1| |] eqn:Ec; try done.
    apply close_all_inv in Ec as [-> _]; [|done]. intros [= <-]. split; [|simpl; lia]. by apply (inv_ext s).
  - destruct (stopping s); try done. intros [= <-]. split; [|simpl; lia]. by apply (inv_ext s).
  - destruct (stopping s); try done. intros [= <-]. unfold wake. simpl.
    destruct (logic s) eqn:E; (split; [|simpl; lia]).
    all: apply (inv_ext s); try done; unfold waiting; simpl; by rewrite E.
Qed.

Lemma network_server_inv : inv network_server.
Proof.
  split; simpl; try done. intros id. rewrite lookup_empty. by intros [].
Qed.

(** The logic thread goes to sleep on an empty queue only: a message is posted under the
    mutex, so not between the predicate and the sleep. *)
Definition awake_for_messages (s : server) : Prop :=
  match logic s with Blocking | Asleep => _queue s = [] | _ => True end.

Lemma step_awake hash s e s' :
  inv s → awake_for_messages s → step hash s e = Some (Ret s') → awake_for_messages s'.
Proof.
  unfold awake_for_messages. intros Hi Ha Hs. unfold step in Hs. destruct e as [|id data|id|id|b| | | |].
  - destruct (stopping s); try done. by injection Hs as <-.
  - apply bind_Some in Hs as (o & _ & Hs). destruct (is_open o); [|done]. by injection Hs as <-.
  - apply fmap_Some in Hs as (s1 & Hr & [= <-]). revert Hr. unfold read_complete.
    intros (o & _ & Hr)%bind_Some. destruct (is_open o); [|done]. cbn zeta in Hr.
    destruct (reading o); [done| |].
    + destruct (decide _); [|done]. destruct (_ || _); injection Hr as <-; [|done].
      unfold close. simpl. by rewrite lookup_insert_eq.
    + unfold mutex_held in Hr. destruct (decide _); [|by destruct (logic s)].
      unfold on_message, post_message, wake in Hr. simpl in Hr.
      destruct (logic s) eqn:E; try done; injection Hr as <-; simpl; by rewrite ?E.
  - apply bind_Some in Hs as (o & Ho & Hs). destruct (reading o); try done;
      injection Hs as <-; unfold close; by rewrite Ho.
  - apply fmap_Some in Hs as (s1 & Hr & [= <-]). unfold logic_step in Hr.
    destruct (logic s) eqn:E; try done.
    + injection Hr as <-. simpl. by destruct (_stop s).
    + injection Hr as <-. simpl. by destruct (_queue s), (_stop s).
    + by injection Hr as <-.
    + destruct (_stop s); [by injection Hr as <-|]. destruct (_queue s); [done|].
      by injection Hr as <-.
    + by injection Hr as <-.
  - destruct (logic s); try done. by injection Hs as <-.
  - destruct (stopping s); try done. destruct (close_all s) as [s1| |] eqn:Ec; try done.
    apply close_all_inv in Ec as [-> _]; [|done]. by injection Hs as <-.
  - destruct (stopping s); try done. by injection Hs as <-.
  - destruct (stopping s); try done. injection Hs as <-. unfold wake. simpl.
    by destruct (logic s) eqn:E; simpl; rewrite ?E.
Qed.

(** What a session was sent is complete frames from the start of what it sent, also when
    it is closed. *)
Definition sent_prefix (o : Session) : Prop :=
  ∃ done, sent o = frames done ∧ sent o `prefix_of` recv o.
Definition all_prefix (s : server) : Prop := ∀ id o, objects s !! id = Some o → sent_prefix o.

Lemma open_prefix s id o : inv s → objects s !! id = Some o → is_open o = true → sent_prefix o.
Proof.
  intros Hi Ho Hop. destruct (i_open _ Hi _ _ Ho Hop) as (_ & _ & _ & done & Hs & Ht).
  exists done. split; [done|]. rewrite <-(take_drop (rpos o) (recv o)), Ht, frames_app, Hs, <-app_assoc.
  by apply prefix_app_r, prefix_app_r.
Qed.

(** Closing a session is the only step that leaves it closed; it keeps its bytes. *)
Definition same_bytes (s s' : server) : Prop :=
  ∀ id o', objects s' !! id = Some o' → is_open o' = true ∨
    ∃ o, objects s !! id = Some o ∧ sent o = sent o' ∧ recv o = recv o'.

Lemma same_bytes_refl s s' : objects s' = objects s → same_bytes s s'.
Proof. intros E id o'. rewrite E. eauto. Qed.

Lemma close_bytes id r s : same_bytes s (close id r s).
Proof.
  unfold close. intros id' o'. destruct (objects s !! id) as [o|] eqn:Ho; [|eauto]. simpl.
  rewrite lookup_insert. case_decide; [|eauto]. intros [= <-]. right. subst. by eauto.
Qed.

Lemma insert_open_bytes s s' id o :
  objects s' = <[id := o]> (objects s) → is_open o = true → same_bytes s s'.
Proof.
  intros E Ho id' o'. rewrite E, lookup_insert. case_decide; [intros [= <-]; by left|eauto].
Qed.

Lemma read_complete_bytes id s s' : read_complete id s = Some s' → same_bytes s s'.
Proof.
  unfold read_complete. intros (o & Ho & Hr)%bind_Some.
  destruct (is_open o) eqn:Hop; [|done]. cbn zeta in Hr. destruct (reading o); [done| |].
  - destruct (decide _); [|done]. destruct (_ || _); injection Hr as <-.
    + intros id' o'. unfold close. simpl. rewrite lookup_insert_eq. simpl.
      rewrite insert_insert_eq, lookup_insert. case_decide; [|eauto]. intros [= <-].
      right. subst. by eauto.
    + by eapply insert_open_bytes.
  - destruct (mutex_held s); [done|]. destruct (decide _); [|done]. injection Hr as <-.
    unfold on_message, post_message, wake. simpl.
    destruct (logic s); (eapply insert_open_bytes; [reflexivity|done]).
Qed.

Lemma send_bytes id data b s : inv s → same_bytes s (send id data b s).
Proof.
  intros Hi. unfold send, get_session. case_decide as Hin; [|by apply same_bytes_refl].
  destruct (i_reg _ Hi id Hin) as (o & Ho & Hop). rewrite Ho.
  destruct b; [by eapply insert_open_bytes|apply close_bytes].
Qed.

Lemma logic_step_bytes hash b s s' : inv s → logic_step hash b s = Some s' → same_bytes s s'.
Proof.
  intros Hi. unfold logic_step. intros Hs.
  destruct (logic s) as [| | | | |m|] eqn:E; try done;
    try (split_matches; by apply same_bytes_refl).
  injection Hs as <-. change (same_bytes s (dispatch hash m b s)). unfold dispatch.
  case_match; [|by apply send_bytes]. case_match; [by apply same_bytes_refl|by apply send_bytes].
Qed.

Lemma step_bytes hash s e s' : inv s → step hash s e = Some (Ret s') → same_bytes s s'.
Proof.
  intros Hi. unfold step. destruct e as [|id data|id|id|b| | | |].
  - destruct (stopping s); try done. intros [= <-]. by eapply insert_open_bytes.
  - intros (o & Ho & Hr)%bind_Some. destruct (is_open o) eqn:Hop; [|done]. injection Hr as <-.
    by eapply insert_open_bytes.
  - intros (s1 & Hr & [= <-])%fmap_Some. by eapply read_complete_bytes.
  - intros (o & Ho & Hr)%bind_Some. destruct (reading o); try done; injection Hr as <-; apply close_bytes.
  - intros (s1 & Hr & [= <-])%fmap_Some. by eapply logic_step_bytes.
  - destruct (logic s); try done. intros [= <-]. by apply same_bytes_refl.
  - destruct (stopping s); try done. destruct (close_all s) as [s1| |] eqn:Ec; try done.
    apply close_all_inv in Ec as [-> _]; [|done]. intros [= <-]. by apply same_bytes_refl.
  - destruct (stopping s); try done. intros [= <-]. by apply same_bytes_refl.
  - destruct (stopping s); try done. intros [= <-]. unfold wake. simpl.
    by destruct (logic s); apply same_bytes_refl.
Qed.

Lemma step_prefix hash s e s' :
  inv s → inv s' → all_prefix s → step hash s e = Some (Ret s') → all_prefix s'.
Proof.
  intros Hi Hi' Hp Hs id o' Ho'.
  destruct (step_bytes _ _ _ _ Hi Hs id o' Ho') as [Hop|(o & Ho & E1 & E2)].
  - by eapply open_prefix.
  - unfold sent_prefix. rewrite <-E1, <-E2. by eapply Hp.
Qed.

Lemma run_server_inv hash es s s' :
  inv s → awake_for_messages s → 0 <= _next_id s → _next_id s + Z.of_nat (length es) < 2 ^ 64 →
  all_prefix s → run_server hash s es = Some (Ret s') →
  inv s' ∧ awake_for_messages s' ∧ all_prefix s'.
Proof.
  revert s. induction es as [|e es IH]; intros s Hi Ha H0 Hb Hp; cbn [run_server]; [by intros [= <-]|].
  destruct (step hash s e) as [[s1| |]|] eqn:Es; try done. simpl in Hb.
  destruct (server_step_inv _ _ _ _ Hi ltac:(lia) Es) as [Hi1 Hn].
  apply IH; [done|exact (step_awake _ _ _ _ Hi Ha Es)|lia|lia|exact (step_prefix _ _ _ _ Hi Hi1 Hp Es)].
Qed.

Lemma run_from_start hash es s :
  run_server hash network_server es = Some (Ret s) → Z.of_nat (length es) < 2 ^ 63 →
  inv s ∧ awake_for_messages s ∧ all_prefix s.
Proof.
  intros Hr Hlen.
  apply (run_server_inv hash es network_server); [apply network_server_inv|exact I|simpl; lia..| |done].
  intros id o. cbn. by rewrite lookup_empty.
Qed.


(** A demonstration: two sessions, frames cut in two. *)
Definition demo : list event :=
  [Accept; Accept; Arrive 1 (frame (lit "hello") ++ take 3 (frame (lit "x")));
   Arrive 2 (frame (lit "you")); Complete 1; Logic true; Complete 2; Logic true; Logic true;
   Complete 1; Logic true; Logic true; Complete 2; Logic true; Logic true; Logic true;
   Logic true; Logic true; Logic true; Logic true; Logic true].


(** Sessions post every message with type 0, so the handlers that the server
    registers for logins and chats are never called: in every run no message of another
    type waits and the login tables stay empty. *)
Theorem handlers_never_called hash es s :
  run_server hash network_server es = Some (Ret s) → Z.of_nat (length es) < 2 ^ 63 →
  Forall (λ m, msg_type m = 0 ∧ _handlers s !! msg_type m = None) (waiting s) ∧
  ∀ user sid, is_online user (logins s) = false ∧ get_user_by_session sid (logins s) = 0.
Proof.
  intros Hr Hlen. destruct (run_from_start _ _ _ Hr Hlen) as (Hi & Hq & _). split.
  - eapply Forall_impl; [exact (i_msgs _ Hi)|]. intros m [Hm _]. simpl. rewrite Hm.
    split; [done|apply (i_hand _ Hi)].
  - intros user sid. rewrite (i_login _ Hi). done.
Qed.

Lemma handlers_never_called_witness :
  ∃ s, run_server (λ _, 0) network_server demo = Some (Ret s) ∧ is_online 0 (logins s) = false.
Proof.
  destruct (run_server (λ _, 0) network_server demo) as [[s| |]|] eqn:Hr;
    try (vm_compute in Hr; discriminate).
  exists s. split; [reflexivity|].
  apply (handlers_never_called (λ _, 0) demo s Hr ltac:(vm_compute; reflexivity)). exact 0.
Defined.

(** Stopping while a session is registered is undefined: [close_all] holds the
    manager's mutex when the session's [close] locks it again to remove the session.
    Without sessions the stop goes on. *)
Theorem stop_with_sessions_undefined hash es s :
  run_server hash network_server es = Some (Ret s) → Z.of_nat (length es) < 2 ^ 63 →
  stopping s = Running →
  step hash s Signal =
    Some (if decide (_sessions s = ∅) then Ret (set_stopping s (_stop s) Closed) else Undef).
Proof.
  intros Hr Hlen Hst. destruct (run_from_start _ _ _ Hr Hlen) as [Hi _]. unfold step. rewrite Hst.
  case_decide as E; [by rewrite close_all_empty|by rewrite close_all_registered].
Qed.

Lemma stop_with_sessions_undefined_witness :
  ∃ s, run_server (λ _, 0) network_server [Accept] = Some (Ret s) ∧
    step (λ _, 0) s Signal = Some Undef.
Proof.
  destruct (run_server (λ _, 0) network_server [Accept]) as [[s| |]|] eqn:Hr;
    try (vm_compute in Hr; discriminate).
  exists s. split; [reflexivity|].
  pose proof (stop_with_sessions_undefined (λ _, 0) [Accept] s Hr ltac:(vm_compute; reflexivity)) as Hs.
  vm_compute in Hr. injection Hr as <-. rewrite Hs by reflexivity. vm_compute. reflexivity.
Defined.

(** [stop] sets the flag without the mutex: between the thread's test and its sleep. *)
Definition lost_stop : list event :=
  [Logic true; Logic true; Signal; SetStop; NotifyAll; Logic true].

Lemma asleep_forever hash es s s' :
  logic s = Asleep → objects s = ∅ → stopping s = Notified → Spurious ∉ es →
  run_server hash s es = Some (Ret s') → logic s' = Asleep.
Proof.
  intros Hl Ho Hst. revert s Hl Ho Hst. induction es as [|e es IH]; intros s Hl Ho Hst Hsp;
    cbn [run_server]; [by intros [= <-]|]. apply not_elem_of_cons in Hsp as [Hne Hsp].
  assert (step hash s e = None) as ->; [|done].
  destruct e; simpl; unfold read_complete, logic_step; rewrite ?Ho, ?Hl, ?Hst, ?lookup_empty; done.
Qed.

(** The wake-up of [LogicSystem::stop] can be lost: there is a run of a server
    without sessions in which the signal comes after the logic thread has tested the flag
    and before it sleeps; the thread then sleeps for ever (unless it wakes spuriously),
    and [run], which joins it, does not return. *)
Theorem stop_wakeup_lost hash :
  ∃ s, run_server hash network_server lost_stop = Some (Ret s) ∧ _stop s = true ∧
    stopping s = Notified ∧ logic s = Asleep ∧
    ∀ es s', Spurious ∉ es → run_server hash s es = Some (Ret s') → logic s' = Asleep.
Proof.
  eexists. split; [vm_compute; reflexivity|]. split; [done|]. split; [done|]. split; [done|].
  intros es s' Hsp. by apply asleep_forever.
Qed.

(** When two sessions log in under one name, the logout of the first takes the user
    off line although the second session still belongs to the user. *)
Theorem logout_takes_other_session_offline hash name t1 t2 :
  let l := handle_logout 1 (handle_login hash (Msg 2 t2 name)
             (handle_login hash (Msg 1 t1 name) (Login ∅ ∅))) in
  is_online (hash name) l = false ∧ get_user_by_session 2 l = hash name.
Proof.
  intros l. unfold l, handle_logout, handle_login, is_online, get_user_by_session. simpl.
  rewrite lookup_insert_ne, lookup_insert_eq by done. simpl. split.
  - apply bool_decide_eq_false_2. rewrite lookup_delete_eq. by intros [].
  - by rewrite lookup_delete_ne, lookup_insert_eq.
Qed.
