(* ===== verification/Threads.v ===== *)
(** * The locking examples of base_thread_cpp

    Interleavings of threads at the level of single reads and writes.  [Module Counter] is
    03_mutex_cpp20.cpp, threads that increment one counter under a mutex, and
    04_atomic_cpp20.cpp, the same with an atomic; [Module Transfer] is
    08_scoped_lock_cpp20.cpp, transfers between two accounts under two mutexes that
    [std::scoped_lock] takes together, which the library promises to do without deadlock;
    [Module Worker] is 09_worker_queue_cpp20.cpp, a worker that waits on a condition variable
    for jobs and for the close.  A step names the thread that moves; [None] is a thread that
    cannot move.  Each [inv] is the invariant, each [steps] or [work] the measure. *)

From stdpp Require Import base list numbers.
From Stdlib Require Import ZArith Lia.
From S2P Require Import Prelude CxxString.

Local Open Scope Z_scope.

(** ** Sums over the threads *)

Section sums.
Context {A : Type} (f : A → Z).

Definition total (l : list A) : Z := foldr (λ x z, f x + z) 0 l.

Lemma total_insert l t x y :
  l !! t = Some x → total (<[t := y]> l) = total l - f x + f y.
Proof.
  revert t. induction l as [|a l IH]; intros [|t]; simpl; try done.
  - intros [= ->]. lia.
  - intros Ht. rewrite (IH t Ht). lia.
Qed.

Lemma total_nonneg l : (∀ x, 0 <= f x) → 0 <= total l.
Proof. intros Hf. induction l as [|a l IH]; simpl; [lia|]. specialize (Hf a). lia. Qed.

Lemma total_nonneg_on l : (∀ t x, l !! t = Some x → 0 <= f x) → 0 <= total l.
Proof.
  induction l as [|a l IH]; simpl; intros Hf; [done|].
  specialize (Hf O a eq_refl) as Ha. specialize (IH (λ t x Ht, Hf (S t) x Ht)). lia.
Qed.

Lemma total_zero_on l : (∀ t x, l !! t = Some x → 0 <= f x) → total l <= 0 →
  ∀ t x, l !! t = Some x → f x = 0.
Proof.
  induction l as [|a l IH]; simpl; intros Hf Hz t x; [done|].
  pose proof (Hf O a eq_refl). pose proof (total_nonneg_on l (λ t x Ht, Hf (S t) x Ht)).
  destruct t as [|t]; simpl; [intros [= ->]; lia|].
  apply IH; [intros; by eapply (Hf (S _))|lia].
Qed.

Lemma total_all_zero l : (∀ t x, l !! t = Some x → f x = 0) → total l = 0.
Proof.
  induction l as [|a l IH]; simpl; intros Hf; [done|].
  rewrite (Hf O a eq_refl), IH; [done|]. intros t x. apply (Hf (S t)).
Qed.

Lemma total_pos l : 0 < total l → ∃ t x, l !! t = Some x ∧ 0 < f x.
Proof.
  induction l as [|a l IH]; simpl; [lia|]. intros Hpos.
  destruct (decide (0 < f a)) as [Ha|Ha]; [by exists O, a|].
  destruct IH as (t & x & Ht & Hx); [lia|]. by exists (S t), x.
Qed.

Lemma total_replicate k x : total (replicate k x) = Z.of_nat k * f x.
Proof.
  induction k as [|k IH]; [done|].
  replace (total (replicate (S k) x)) with (f x + total (replicate k x)) by done. lia.
Qed.

Lemma total_bound l t x : (∀ x, 0 <= f x) → l !! t = Some x → f x <= total l.
Proof.
  intros Hf. revert t. induction l as [|a l IH]; intros [|t]; simpl; try done.
  - intros [= ->]. pose proof (total_nonneg l Hf). lia.
  - intros Ht. specialize (IH t Ht). pose proof (Hf a). lia.
Qed.
End sums.

Lemma sext_add_l x y : sext 32 (sext 32 x + y) = sext 32 (x + y).
Proof.
  unfold sext. f_equal.
  replace ((x + 2 ^ (32 - 1)) mod 2 ^ 32 - 2 ^ (32 - 1) + y + 2 ^ (32 - 1))
    with ((x + 2 ^ (32 - 1)) mod 2 ^ 32 + y) by lia.
  rewrite Zplus_mod_idemp_l. f_equal. lia.
Qed.

(** ** 03_mutex_cpp20.cpp and 04_atomic_cpp20.cpp *)

Module Counter.

(** A thread in [increment], with the rounds it has left: at the lock of a round (or
    done, with none left); after the lock; with the value it has read; about to unlock. *)
Inductive pc := AtLock (m : nat) | Locked (m : nat) | Read (m : nat) (v : Z) | AtUnlock (m : nat).

Record state := State { owner : option nat; counter : Z; pcs : list pc }.

Definition start (k n : nat) : state := State None 0 (replicate k (AtLock n)).

Definition at_ (s : state) (t : nat) (c : pc) : list pc := <[t := c]> (pcs s).

(** [std::lock_guard lock(mutex); ++counter;] and the end of the round. *)
Definition step (s : state) (t : nat) : option (outcome state) :=
  match pcs s !! t with
  | Some (AtLock (S m)) =>
      match owner s with
      | None => Some (Ret (State (Some t) (counter s) (at_ s t (Locked (S m)))))
      | Some _ => None
      end
  | Some (Locked m) => Some (Ret (State (owner s) (counter s) (at_ s t (Read m (counter s)))))
  | Some (Read m v) =>
      if is_int (v + 1)
      then Some (Ret (State (owner s) (v + 1) (at_ s t (AtUnlock (pred m)))))
      else Some Undef
  | Some (AtUnlock m) => Some (Ret (State None (counter s) (at_ s t (AtLock m))))
  | _ => None
  end.

Fixpoint run (s : state) (ts : list nat) : option (outcome state) :=
  match ts with
  | [] => Some (Ret s)
  | t :: ts => match step s t with Some (Ret s) => run s ts | r => r end
  end.

(** The atomic counter: [fetch_add] is one step. *)
Record atomic_state := Atomic { a_counter : Z; rounds : list nat }.
Definition atomic_start (k n : nat) : atomic_state := Atomic 0 (replicate k n).
Definition atomic_step (s : atomic_state) (t : nat) : option atomic_state :=
  match rounds s !! t with
  | Some (S m) => Some (Atomic (sext 32 (a_counter s + 1)) (<[t := m]> (rounds s)))
  | _ => None
  end.
Fixpoint atomic_run (s : atomic_state) (ts : list nat) : option atomic_state :=
  match ts with [] => Some s | t :: ts => s ← atomic_step s t; atomic_run s ts end.

(** Increments still to be written, and steps still to be made. *)
Definition left_ (c : pc) : Z :=
  match c with AtLock m | Locked m | Read m _ | AtUnlock m => Z.of_nat m end.
Definition steps (c : pc) : Z :=
  match c with
  | AtLock m => 4 * Z.of_nat m
  | Locked m => 4 * Z.of_nat m - 1
  | Read m _ => 4 * Z.of_nat m - 2
  | AtUnlock m => 4 * Z.of_nat m + 1
  end.
Definition inside (c : pc) : bool := match c with AtLock _ => false | _ => true end.
Definition finished (s : state) : Prop := ∀ t c, pcs s !! t = Some c → c = AtLock 0.

Record inv (total_rounds : Z) (s : state) : Prop := {
  i_count : counter s + total left_ (pcs s) = total_rounds;
  i_owner : ∀ t c, pcs s !! t = Some c → inside c = true → owner s = Some t;
  i_held : ∀ t, owner s = Some t → ∃ c, pcs s !! t = Some c ∧ inside c = true;
  i_read : ∀ t m v, pcs s !! t = Some (Read m v) → v = counter s;
  i_pos : ∀ t c, pcs s !! t = Some c →
    match c with Locked O | Read O _ => False | _ => True end;
  i_nonneg : 0 <= counter s }.

Lemma left_nonneg c : 0 <= left_ c.
Proof. destruct c; simpl; lia. Qed.

Lemma at_lookup s t c t' c' :
  at_ s t c !! t' = Some c' → (t' = t ∧ c' = c) ∨ (t' ≠ t ∧ pcs s !! t' = Some c').
Proof.
  unfold at_. intros H. apply list_lookup_insert_Some in H.
  destruct H as [(-> & <- & _)|[? ?]]; [by left|by right].
Qed.

Lemma read_safe R s t m v :
  inv R s → R <= int_max → pcs s !! t = Some (Read m v) → is_int (v + 1) = true.
Proof.
  intros I HR Ht. rewrite (i_read _ _ I _ _ _ Ht). pose proof (i_pos _ _ I _ _ Ht) as Hm.
  pose proof (total_bound left_ _ _ _ left_nonneg Ht) as Hb. simpl in Hb.
  pose proof (i_count _ _ I). pose proof (i_nonneg _ _ I).
  destruct m as [|m]; [done|]. unfold is_int, int_min. apply andb_true_iff. lia.
Qed.

(** The thread [t] moves to [c'] and nobody else is inside, or [t] was. *)
Lemma counter_step_inv R s t s' :
  inv R s → R <= int_max → step s t = Some (Ret s') →
  inv R s' ∧ total steps (pcs s') = total steps (pcs s) - 1.
Proof.
  intros I HR. unfold step. destruct (pcs s !! t) as [c|] eqn:Ht; [|done].
  assert (Hsafe : ∀ m v, c = Read m v → is_int (v + 1) = true).
  { intros m v ->. by eapply read_safe. }
  destruct I as [Hc Ho Hh Hr Hp Hn].
  assert (Halone : owner s = None ∨ owner s = Some t → ∀ t' c', t' ≠ t → pcs s !! t' = Some c' →
    inside c' = false).
  { intros Hown t' c' Hne Ht'. destruct (inside c') eqn:E; [|done].
    pose proof (Ho _ _ Ht' E). destruct Hown; congruence. }
  destruct c as [[|m]|m|m v|m]; [done|destruct (owner s) eqn:Eo; [done|]| |
    rewrite (Hsafe m v eq_refl)|]; intros [= <-].
  all: (split; [|unfold at_; simpl; rewrite (total_insert _ _ _ _ _ Ht); simpl]).
  - split; simpl; try done.
    + unfold at_. rewrite (total_insert _ _ _ _ _ Ht). simpl. lia.
    + intros t' c' [[-> ->]|[Hne Ht']]%at_lookup; [done|]. intros Hin.
      rewrite (Halone (or_introl eq_refl) _ _ Hne Ht') in Hin. done.
    + intros t' [= <-]. exists (Locked (S m)). split; [|done]. unfold at_.
      apply list_lookup_insert_eq. by eapply lookup_lt_Some.
    + intros t' m' v [[-> ?]|[Hne Ht']]%at_lookup; [done|by eapply Hr].
    + intros t' c' [[-> ->]|[Hne Ht']]%at_lookup; [done|by eapply Hp].
  - lia.
  - pose proof (Ho _ _ Ht eq_refl) as Eo. split; simpl; try done.
    + unfold at_. rewrite (total_insert _ _ _ _ _ Ht). simpl. lia.
    + intros t' c' [[-> ->]|[Hne Ht']]%at_lookup; [done|by apply Ho].
    + intros t' Ht'. rewrite Eo in Ht'. injection Ht' as <-. exists (Read m (counter s)). split; [|done].
      unfold at_. apply list_lookup_insert_eq. by eapply lookup_lt_Some.
    + intros t' m' v [[-> [= -> ->]]|[Hne Ht']]%at_lookup; [done|by eapply Hr].
    + intros t' c' [[-> ->]|[Hne Ht']]%at_lookup; [|by eapply Hp].
      by specialize (Hp _ _ Ht); destruct m.
  - lia.
  - pose proof (Ho _ _ Ht eq_refl) as Eo. pose proof (Hr _ _ _ Ht) as Ev.
    specialize (Hp _ _ Ht) as Hm. destruct m as [|m]; [done|]. split; simpl; try lia.
    + unfold at_. rewrite (total_insert _ _ _ _ _ Ht). simpl. lia.
    + intros t' c' [[-> ->]|[Hne Ht']]%at_lookup; [done|by apply Ho].
    + intros t' Ht'. rewrite Eo in Ht'. injection Ht' as <-. exists (AtUnlock m). split; [|done].
      unfold at_. apply list_lookup_insert_eq. by eapply lookup_lt_Some.
    + intros t' m' v' [[-> ?]|[Hne Ht']]%at_lookup; [done|].
      pose proof (Ho _ _ Ht' eq_refl). congruence.
    + intros t' c' [[-> ->]|[Hne Ht']]%at_lookup; [done|by eapply Hp].
  - specialize (Hp _ _ Ht). destruct m; [done|]. simpl. lia.
  - pose proof (Ho _ _ Ht eq_refl) as Eo. split; simpl; try done.
    + unfold at_. rewrite (total_insert _ _ _ _ _ Ht). simpl. lia.
    + intros t' c' [[-> ->]|[Hne Ht']]%at_lookup; [done|]. intros Hin.
      rewrite (Halone (or_intror Eo) _ _ Hne Ht') in Hin. done.
    + intros t' m' v' [[-> ?]|[Hne Ht']]%at_lookup; [done|by eapply Hr].
    + intros t' c' [[-> ->]|[Hne Ht']]%at_lookup; [done|by eapply Hp].
  - lia.
Qed.

Lemma counter_start_inv k n : inv (Z.of_nat k * Z.of_nat n) (start k n).
Proof.
  assert (Hall : ∀ t c, replicate k (AtLock n) !! t = Some c → c = AtLock n).
  { intros t c Ht. by apply lookup_replicate in Ht as [-> _]. }
  unfold start. split; simpl; try done.
  - by rewrite total_replicate.
  - intros t c ->%Hall. done.
  - intros t m v Ht%Hall. done.
  - intros t c ->%Hall. done.
Qed.

Lemma steps_nonneg R s : inv R s → ∀ t c, pcs s !! t = Some c →
  0 <= steps c ∧ (inside c = true → 0 < steps c).
Proof.
  intros I t c Ht. pose proof (i_pos _ _ I _ _ Ht).
  destruct c as [m|[|m]|[|m]|m]; simpl; done || split; intros; done || lia.
Qed.

(** While there is a step left, some thread can make one. *)
Lemma counter_progress R s : inv R s → R <= int_max → 0 < total steps (pcs s) →
  ∃ t s', step s t = Some (Ret s').
Proof.
  intros I HR Hpos.
  assert (Hin : ∀ t c, pcs s !! t = Some c → inside c = true → ∃ s', step s t = Some (Ret s')).
  { intros t c Ht Hc. unfold step. rewrite Ht. destruct c as [m|m|m v|m]; [done| | |]; eauto.
    rewrite (read_safe _ _ _ _ _ I HR Ht). eauto. }
  destruct (owner s) as [t|] eqn:Eo.
  - destruct (i_held _ _ I t Eo) as (c & Ht & Hc). exists t. by eapply Hin.
  - destruct (total_pos _ _ Hpos) as (t & c & Ht & Hc). exists t.
    destruct (inside c) eqn:Ec; [by eapply Hin|]. destruct c as [[|m]| | |]; try done.
    unfold step. rewrite Ht, Eo. eauto.
Qed.

Lemma counter_run_inv R s ts r : inv R s → R <= int_max → run s ts = Some r →
  ∃ s', r = Ret s' ∧ inv R s' ∧ total steps (pcs s') = total steps (pcs s) - Z.of_nat (length ts).
Proof.
  intros I HR. revert s I. induction ts as [|t ts IH]; simpl; intros s I Hrun.
  - injection Hrun as <-. exists s. split; [done|]. split; [done|lia].
  - assert (Hret : ∀ r, step s t = Some r → ∃ s', r = Ret s').
    { intros r' E. destruct (pcs s !! t) as [c|] eqn:Ht; unfold step in E; rewrite Ht in E; [|done].
      destruct c as [[|m]|m|m v|m]; try done; try (injection E as <-; eauto; done).
      - destruct (owner s); [done|]. injection E as <-. eauto.
      - rewrite (read_safe _ _ _ _ _ I HR Ht) in E. injection E as <-. eauto. }
    destruct (step s t) as [r'|] eqn:E; [|done]. destruct (Hret r' eq_refl) as [s1 ->].
    destruct (counter_step_inv R s t s1 I HR E) as [I1 H1].
    destruct (IH s1 I1 Hrun) as (s' & -> & I' & H'). exists s'. split; [done|].
    split; [done|]. lia.
Qed.

(** C39. The mutex makes the increments add up: [k] threads that each increment [n] times, with
    [k * n] in the range of int, never overflow and never lose an increment.  Under every
    schedule the program makes exactly [4 * k * n] steps: before that some thread can always
    move (no deadlock), and after it every thread has ended and the counter is [k * n]. *)
Theorem mutex_counter_exact (k n : nat) (ts : list nat) (r : outcome state) :
  Z.of_nat k * Z.of_nat n <= int_max → run (start k n) ts = Some r →
  ∃ s, r = Ret s ∧ Z.of_nat (length ts) <= 4 * Z.of_nat k * Z.of_nat n ∧
    (Z.of_nat (length ts) < 4 * Z.of_nat k * Z.of_nat n → ∃ t s', step s t = Some (Ret s')) ∧
    (Z.of_nat (length ts) = 4 * Z.of_nat k * Z.of_nat n →
      finished s ∧ owner s = None ∧ counter s = Z.of_nat k * Z.of_nat n).
Proof.
  intros HR Hrun. destruct (counter_run_inv _ _ _ _ (counter_start_inv k n) HR Hrun) as (s & -> & I & Hs).
  replace (total steps (pcs (start k n))) with (4 * Z.of_nat k * Z.of_nat n) in Hs
    by (simpl; rewrite total_replicate; simpl; lia).
  pose proof (steps_nonneg _ _ I) as Hnn.
  assert (Hz := total_nonneg_on steps (pcs s) (λ t c Ht, proj1 (Hnn t c Ht))).
  exists s. split; [done|]. split; [lia|]. split.
  - intros Hlt. apply (counter_progress _ s I HR). lia.
  - intros Heq. assert (Hfin : finished s).
    { intros t c Ht. destruct (Hnn t c Ht) as [_ Hin].
      assert (steps c = 0) as H0.
      { eapply total_zero_on; [intros ? ? ?; by eapply Hnn|lia|done]. }
      pose proof (i_pos _ _ I _ _ Ht).
      destruct c as [m|[|m]|[|m] v|m]; simpl in *; try done; try lia. f_equal. lia. }
    split; [done|]. split.
    + destruct (owner s) as [t|] eqn:Eo; [|done].
      destruct (i_held _ _ I t Eo) as (c & Ht & Hc). rewrite (Hfin t c Ht) in Hc. done.
    + pose proof (i_count _ _ I) as Hc. rewrite (total_all_zero left_) in Hc; [lia|].
      intros t c Ht. by rewrite (Hfin t c Ht).
Qed.

Lemma mutex_counter_exact_witness :
  ∃ s, run (start 2 1) [0;0;0;0;1;1;1;1]%nat = Some (Ret s) ∧ counter s = 2.
Proof.
  destruct (mutex_counter_exact 2 1 [0;0;0;0;1;1;1;1]%nat
    (Ret (State None 2 [AtLock 0; AtLock 0]))) as (s & Hs & _ & _ & Hend); [done|by vm_compute|].
  exists s. split; [rewrite <- Hs; by vm_compute|]. by apply Hend.
Defined.

(** The atomic counter counts the steps modulo the width of int, in any order. *)
Lemma atomic_counter_exact k n ts s :
  atomic_run (atomic_start k n) ts = Some s →
  a_counter s = sext 32 (Z.of_nat (length ts)) ∧
  Z.of_nat (length ts) + total Z.of_nat (rounds s) = Z.of_nat k * Z.of_nat n.
Proof.
  assert (Hgen : ∀ s0 j, a_counter s0 = sext 32 j → atomic_run s0 ts = Some s →
    a_counter s = sext 32 (j + Z.of_nat (length ts)) ∧
    Z.of_nat (length ts) + total Z.of_nat (rounds s) = total Z.of_nat (rounds s0)).
  { induction ts as [|t ts IH]; simpl; intros s0 j Hj Hrun.
    - injection Hrun as <-. rewrite Z.add_0_r. split; [done|lia].
    - destruct (atomic_step s0 t) as [s1|] eqn:E; simpl in Hrun; [|done].
      unfold atomic_step in E. destruct (rounds s0 !! t) as [[|m]|] eqn:Et; try done.
      injection E as <-. eapply (IH _ (j + 1)) in Hrun.
      + simpl in Hrun. rewrite (total_insert _ _ _ _ _ Et) in Hrun.
        destruct Hrun as [-> Hsum]. split; [f_equal; lia|lia].
      + simpl. rewrite Hj. apply sext_add_l. }
  intros Hrun. destruct (Hgen (atomic_start k n) 0 eq_refl Hrun) as [Hc Hs].
  split; [done|]. rewrite Hs. simpl. by rewrite total_replicate.
Qed.
End Counter.

(** ** 08_scoped_lock_cpp20.cpp *)

Module Transfer.

(** A thread in its loop, with the rounds it has left: before [std::scoped_lock]; holding
    both mutexes; [from.balance] read and written; [to.balance] read; about to unlock. *)
Inductive pc := AtLock (m : nat) | Locked (m : nat) | ReadFrom (m : nat) (v : Z) | Taken (m : nat)
  | ReadTo (m : nat) (v : Z) | AtUnlock (m : nat).

(** The two accounts ([true] is [a], [false] is [b]) and the two threads ([true] moves from
    [a] to [b], [false] from [b] to [a]). *)
Record state := State {
  held_a : option bool; held_b : option bool;
  balance_a : Z; balance_b : Z;
  pc_first : pc; pc_second : pc }.

Definition start (n m : nat) : state := State None None 1000 1000 (AtLock n) (AtLock m).

Definition pc_of (s : state) (t : bool) : pc := if t then pc_first s else pc_second s.
Definition goto (s : state) (t : bool) (c : pc) : state :=
  if t then State (held_a s) (held_b s) (balance_a s) (balance_b s) c (pc_second s)
  else State (held_a s) (held_b s) (balance_a s) (balance_b s) (pc_first s) c.
Definition balance (s : state) (acc : bool) : Z := if acc then balance_a s else balance_b s.
Definition set_balance (s : state) (acc : bool) (v : Z) : state :=
  if acc then State (held_a s) (held_b s) v (balance_b s) (pc_first s) (pc_second s)
  else State (held_a s) (held_b s) (balance_a s) v (pc_first s) (pc_second s).
Definition set_held (s : state) (h : option bool) : state :=
  State h h (balance_a s) (balance_b s) (pc_first s) (pc_second s).

(** [transfer(from, to)]: thread [true] has [from = a], thread [false] has [from = b]. *)
Definition step (s : state) (t : bool) : option (outcome state) :=
  match pc_of s t with
  | AtLock O => None
  | AtLock m =>
      match held_a s, held_b s with
      | None, None => Some (Ret (goto (set_held s (Some t)) t (Locked m)))
      | _, _ => None
      end
  | Locked m => Some (Ret (goto s t (ReadFrom m (balance s t))))
  | ReadFrom m v =>
      if is_int (v - 1) then Some (Ret (goto (set_balance s t (v - 1)) t (Taken m)))
      else Some Undef
  | Taken m => Some (Ret (goto s t (ReadTo m (balance s (negb t)))))
  | ReadTo m v =>
      if is_int (v + 1) then Some (Ret (goto (set_balance s (negb t) (v + 1)) t (AtUnlock (pred m))))
      else Some Undef
  | AtUnlock m => Some (Ret (goto (set_held s None) t (AtLock m)))
  end.

Fixpoint run (s : state) (ts : list bool) : option (outcome state) :=
  match ts with
  | [] => Some (Ret s)
  | t :: ts => match step s t with Some (Ret s) => run s ts | r => r end
  end.

(** Withdrawals and deposits a thread still has to make, and its steps. *)
Definition out_left (c : pc) : Z :=
  match c with
  | AtLock m | Locked m | ReadFrom m _ | AtUnlock m => Z.of_nat m
  | Taken m | ReadTo m _ => Z.of_nat m - 1
  end.
Definition in_left (c : pc) : Z :=
  match c with
  | AtLock m | Locked m | ReadFrom m _ | Taken m | ReadTo m _ | AtUnlock m => Z.of_nat m
  end.
Definition steps (c : pc) : Z :=
  match c with
  | AtLock m => 6 * Z.of_nat m
  | Locked m => 6 * Z.of_nat m - 1
  | ReadFrom m _ => 6 * Z.of_nat m - 2
  | Taken m => 6 * Z.of_nat m - 3
  | ReadTo m _ => 6 * Z.of_nat m - 4
  | AtUnlock m => 6 * Z.of_nat m + 1
  end.
Definition inside (c : pc) : bool := match c with AtLock _ => false | _ => true end.

Definition holding (h : option bool) (t : bool) : bool :=
  match h with Some u => Bool.eqb u t | None => false end.

(** What a thread has read is still there, and inside a round one is left. *)
Definition current (s : state) (t : bool) : Prop :=
  match pc_of s t with
  | ReadFrom m v => v = balance s t ∧ 0 < Z.of_nat m
  | ReadTo m v => v = balance s (negb t) ∧ 0 < Z.of_nat m
  | Locked m | Taken m => 0 < Z.of_nat m
  | _ => True
  end.

Record inv (n m : nat) (s : state) : Prop := {
  i_held : held_a s = held_b s;
  i_owner : ∀ t, inside (pc_of s t) = holding (held_a s) t;
  i_current : ∀ t, current s t;
  i_out : out_left (pc_first s) <= Z.of_nat n ∧ in_left (pc_first s) <= Z.of_nat n ∧
          out_left (pc_second s) <= Z.of_nat m ∧ in_left (pc_second s) <= Z.of_nat m;
  i_a : balance_a s = 1000 - (Z.of_nat n - out_left (pc_first s)) + (Z.of_nat m - in_left (pc_second s));
  i_b : balance_b s = 1000 - (Z.of_nat m - out_left (pc_second s)) + (Z.of_nat n - in_left (pc_first s)) }.

Definition total_steps (s : state) : Z := steps (pc_first s) + steps (pc_second s).

Lemma transfer_start_inv n m : inv n m (start n m).
Proof. split; simpl; try lia; [done|intros []; done|intros []; done]. Qed.

Lemma is_int_small x : - 2000000000 <= x <= 2000000000 → is_int x = true.
Proof. intros Hx. unfold is_int, int_min, int_max. apply andb_true_iff. lia. Qed.

Definition small (n m : nat) : Prop := Z.of_nat n <= 1000000000 ∧ Z.of_nat m <= 1000000000.

Lemma out_nonneg s t : current s t → 0 <= out_left (pc_of s t) ∧ 0 <= in_left (pc_of s t).
Proof. unfold current. destruct (pc_of s t); simpl; lia. Qed.

Lemma balance_small n m s acc : small n m → inv n m s → - 1000000000 <= balance s acc <= 1000001000.
Proof.
  intros [Hn Hm] [_ _ Hc Ho Ha Hb].
  pose proof (out_nonneg s true (Hc true)). pose proof (out_nonneg s false (Hc false)).
  unfold pc_of in *. destruct acc; simpl; lia.
Qed.

Lemma transfer_step_inv n m s t r :
  small n m → inv n m s → step s t = Some r →
  ∃ s', r = Ret s' ∧ inv n m s' ∧ total_steps s' = total_steps s - 1.
Proof.
  intros Hsm I. pose proof (balance_small n m s) as Hb. specialize (Hb) as Hb.
  assert (Hbt := Hb t Hsm I). assert (Hbn := Hb (negb t) Hsm I). clear Hb.
  destruct I as [Hh Ho Hc Hl Ia Ib].
  pose proof (Ho true) as Hot. pose proof (Ho false) as Hof.
  pose proof (Hc true) as Hct. pose proof (Hc false) as Hcf.
  destruct s as [ha hb a b p q]. simpl in *. subst hb.
  unfold step. destruct ha as [[]|], t; simpl in *;
    destruct p as [[|k]|k|k v|k|k v|k]; simpl in *; try discriminate;
    destruct q as [[|j]|j|j w|j|j w|j]; simpl in *; try discriminate; try done.
  all: unfold current in Hct, Hcf; simpl in Hct, Hcf.
  all: repeat match goal with H : _ ∧ _ |- _ => destruct H end; subst.
  all: rewrite ?is_int_small by lia.
  all: intros [= <-]; eexists; (split; [done|]); (split; [split|]);
    unfold total_steps; simpl; try lia; try done.
  all: try (intros []; unfold current; simpl; done || lia).
Qed.

Lemma transfer_progress n m s : small n m → inv n m s → 0 < total_steps s → ∃ t s', step s t = Some (Ret s').
Proof.
  intros Hsm I Hpos.
  assert (Hgo : ∀ t, step s t ≠ None → ∃ t s', step s t = Some (Ret s')).
  { intros t Ht. destruct (step s t) as [r|] eqn:E; [|done].
    destruct (transfer_step_inv n m s t r Hsm I E) as (s' & -> & _). eauto. }
  destruct I as [Hh Ho Hc Hl Ia Ib]. pose proof (Ho true). pose proof (Ho false).
  destruct s as [ha hb a b p q]. simpl in *. subst hb. unfold total_steps in Hpos. simpl in Hpos.
  destruct ha as [[]|].
  - apply (Hgo true). unfold step. simpl. destruct p as [[|k]|k|k v|k|k v|k]; try done;
      try discriminate; by destruct (is_int _).
  - apply (Hgo false). unfold step. simpl. destruct q as [[|k]|k|k v|k|k v|k]; try done;
      try discriminate; by destruct (is_int _).
  - destruct p as [[|k]|k|k v|k|k v|k]; try discriminate.
    + apply (Hgo false). unfold step. simpl.
      destruct q as [[|j]|j|j w|j|j w|j]; try discriminate; done.
    + by apply (Hgo true).
Qed.

Lemma transfer_run_inv n m s ts r :
  small n m → inv n m s → run s ts = Some r →
  ∃ s', r = Ret s' ∧ inv n m s' ∧ total_steps s' = total_steps s - Z.of_nat (length ts).
Proof.
  intros Hsm. revert s. induction ts as [|t ts IH]; simpl; intros s I Hrun.
  - injection Hrun as <-. exists s. split; [done|]. split; [done|lia].
  - destruct (step s t) as [r'|] eqn:E; [|done].
    destruct (transfer_step_inv n m s t r' Hsm I E) as (s1 & -> & I1 & H1).
    destruct (IH s1 I1 Hrun) as (s' & -> & I' & H'). exists s'. split; [done|]. split; [done|lia].
Qed.

(** Transfers keep the money: with [n] transfers from [a] to [b] and [m] back, under every
    schedule, no read or write is undefined, the balances sum to 2000 whenever no thread
    holds the mutexes, the two threads never wait for each other for ever (before the last
    of the [6 * (n + m)] steps one of them can move), and at the end the accounts hold
    [1000 - n + m] and [1000 - m + n]: the two times 1000 of [main]. *)
Theorem transfers_exact (n m : nat) (ts : list bool) (r : outcome state) :
  small n m → run (start n m) ts = Some r →
  ∃ s, r = Ret s ∧ Z.of_nat (length ts) <= 6 * (Z.of_nat n + Z.of_nat m) ∧
    (held_a s = None → balance_a s + balance_b s = 2000) ∧
    (Z.of_nat (length ts) < 6 * (Z.of_nat n + Z.of_nat m) → ∃ t s', step s t = Some (Ret s')) ∧
    (Z.of_nat (length ts) = 6 * (Z.of_nat n + Z.of_nat m) →
      pc_first s = AtLock 0 ∧ pc_second s = AtLock 0 ∧
      balance_a s = 1000 - Z.of_nat n + Z.of_nat m ∧ balance_b s = 1000 - Z.of_nat m + Z.of_nat n).
Proof.
  intros Hsm Hrun. destruct (transfer_run_inv _ _ _ _ _ Hsm (transfer_start_inv n m) Hrun) as (s & -> & I & Hs).
  replace (total_steps (start n m)) with (6 * (Z.of_nat n + Z.of_nat m)) in Hs
    by (unfold total_steps; simpl; lia).
  pose proof (λ Hpos, transfer_progress n m s Hsm I Hpos) as Hprog.
  destruct I as [Hh Ho Hc Hl Ia Ib]. pose proof (Ho true). pose proof (Ho false).
  pose proof (Hc true) as Hc1. pose proof (Hc false) as Hc2.
  destruct s as [ha hb a b p q]. unfold total_steps, current in *. simpl in *.
  exists (State ha hb a b p q). simpl. split; [done|]. split; [|split; [|split]].
  - destruct p, q; simpl in *; lia.
  - intros ->. simpl in *. destruct p; try discriminate. destruct q; try discriminate.
    simpl in *. lia.
  - intros Hlt. apply Hprog. lia.
  - intros Heq. destruct p as [[|k]|k|k v|k|k v|k]; simpl in *;
      destruct q as [[|j]|j|j w|j|j w|j]; simpl in *; try lia. repeat split; lia || done.
Qed.

Lemma transfers_exact_witness :
  ∃ s, run (start 1 1) [false; false; false; false; false; false; true; true; true; true; true; true]
       = Some (Ret s) ∧ balance_a s = 1000 ∧ balance_b s = 1000.
Proof.
  destruct (transfers_exact 1 1 [false; false; false; false; false; false; true; true; true; true; true; true]
    (Ret (State None None 1000 1000 (AtLock 0) (AtLock 0)))) as (s & Hs & _ & _ & _ & Hend);
    [done|by vm_compute|].
  exists s. split; [rewrite <- Hs; by vm_compute|].
  destruct Hend as (_ & _ & Ha & Hb); [done|]. split; lia.
Defined.
End Transfer.

(** ** 09_worker_queue_cpp20.cpp *)

Module Worker.

(** The main thread: the values still to be pushed, at the lock or at the notification after
    a push; closing; notifying everybody; in [join]; back from it. *)
Inductive main_pc := Push (vs : list Z) | Notify (vs : list Z) | NotifyAll | Join | Joined.
(** The worker: at the lock of a round or after a wake-up, with the predicate to be tested
    under the lock; asleep in [wait]; after [lock.unlock()] with a job; returned. *)
Inductive worker_pc := AtWait | Asleep | Adding (job : Z) | Returned.

Record state := State {
  jobs : list Z; closed : bool; sum : Z; main : main_pc; worker : worker_pc }.

Definition start (vs : list Z) : state := State [] false 0 (Push vs) AtWait.

(** [Spurious] is a wake-up without a notification.  A critical section is one step. *)
Inductive event := Main | Work | Spurious.

Definition woken (w : worker_pc) : worker_pc := match w with Asleep => AtWait | _ => w end.

Definition main_step (s : state) : option state :=
  match main s with
  | Push (v :: vs) => Some (State (jobs s ++ [v]) (closed s) (sum s) (Notify vs) (worker s))
  | Push [] => Some (State (jobs s) true (sum s) NotifyAll (worker s))
  | Notify vs => Some (State (jobs s) (closed s) (sum s) (Push vs) (woken (worker s)))
  | NotifyAll => Some (State (jobs s) (closed s) (sum s) Join (woken (worker s)))
  | Join =>
      match worker s with
      | Returned => Some (State (jobs s) (closed s) (sum s) Joined (worker s))
      | _ => None
      end
  | Joined => None
  end.

(** [changed.wait(lock, stop, ...)], the test after it, [front], [pop_front] and [+=]; no
    stop is requested before [join] returns. *)
Definition worker_step (s : state) : option (outcome state) :=
  match worker s with
  | AtWait =>
      Some (Ret match jobs s with
      | job :: js => State js (closed s) (sum s) (main s) (Adding job)
      | [] => State [] (closed s) (sum s) (main s) (if closed s then Returned else Asleep)
      end)
  | Adding job =>
      if is_int (sum s + job) then Some (Ret (State (jobs s) (closed s) (sum s + job) (main s) AtWait))
      else Some Undef
  | _ => None
  end.

Definition step (s : state) (e : event) : option (outcome state) :=
  match e with
  | Main => Ret <$> main_step s
  | Work => worker_step s
  | Spurious =>
      match worker s with
      | Asleep => Some (Ret (State (jobs s) (closed s) (sum s) (main s) AtWait))
      | _ => None
      end
  end.

Fixpoint run (s : state) (es : list event) : option (outcome state) :=
  match es with
  | [] => Some (Ret s)
  | e :: es => match step s e with Some (Ret s) => run s es | r => r end
  end.

(** What is still to be added, in the order in which it will be. *)
Definition unpushed (p : main_pc) : list Z := match p with Push vs | Notify vs => vs | _ => [] end.
Definition in_hand (w : worker_pc) : list Z := match w with Adding j => [j] | _ => [] end.
Definition pending (s : state) : list Z := in_hand (worker s) ++ jobs s ++ unpushed (main s).

(** Every prefix of the values has a sum that fits an int. *)
Fixpoint sums_fit (acc : Z) (vs : list Z) : Prop :=
  match vs with [] => True | v :: vs => is_int (acc + v) = true ∧ sums_fit (acc + v) vs end.
Record inv (result : Z) (s : state) : Prop := {
  i_sum : foldl Z.add (sum s) (pending s) = result;
  i_fit : sums_fit (sum s) (pending s);
  i_closed : closed s = match main s with Push _ | Notify _ => false | _ => true end;
  i_asleep : worker s = Asleep →
    match main s with
    | Push _ => jobs s = []
    | Notify _ | NotifyAll => True
    | Join | Joined => False
    end;
  i_returned : worker s = Returned → closed s = true ∧ jobs s = [];
  i_joined : main s = Joined → worker s = Returned }.

(** An upper bound of the steps without further spurious wake-ups. *)
Definition main_work (p : main_pc) : nat :=
  match p with
  | Push vs => 6 * length vs + 6
  | Notify vs => 6 * length vs + 8
  | NotifyAll => 3
  | Join => 1
  | Joined => 0
  end.
Definition worker_work (w : worker_pc) : nat :=
  match w with AtWait => 2 | Asleep => 1 | Adding _ => 3 | Returned => 0 end.
Definition work (s : state) : nat := main_work (main s) + worker_work (worker s) + 2 * length (jobs s).
Fixpoint spurious (es : list event) : nat :=
  match es with [] => O | Spurious :: es => S (spurious es) | _ :: es => spurious es end.

Lemma queue_step_inv R s e r :
  inv R s → step s e = Some r →
  ∃ s', r = Ret s' ∧ inv R s' ∧
    match e with Spurious => work s' = S (work s) | _ => work s' < work s end%nat.
Proof.
  intros [Hs Hf Hc Ha Hr Hj] He. destruct s as [js cl sm mn wk].
  unfold pending, step, main_step, worker_step, work in *.
  destruct e, mn as [[|v vs]|vs| | |]; simpl in *; try discriminate; subst;
    destruct wk as [| |j|]; simpl in *; try discriminate; destruct js as [|j' js];
    simpl in *; try destruct Hf as [Hf1 Hf2]; rewrite ?Hf1 in He; injection He as <-;
    eexists; (split; [done|]); (split; [split|]); unfold pending; simpl;
    rewrite <- ?app_assoc, ?app_nil_r, ?length_app in *; simpl in *; try done; try lia.
  all: try (destruct (Hr eq_refl); done).
  all: try (specialize (Hj eq_refl); done).
Qed.

Lemma queue_run_inv R s es r :
  inv R s → run s es = Some r →
  ∃ s', r = Ret s' ∧ inv R s' ∧ (length es + work s' <= work s + 2 * spurious es)%nat.
Proof.
  revert s. induction es as [|e es IH]; simpl; intros s I Hrun.
  - injection Hrun as <-. exists s. split; [done|]. split; [done|lia].
  - destruct (step s e) as [r'|] eqn:E; [|done].
    destruct (queue_step_inv R s e r' I E) as (s1 & -> & I1 & H1).
    destruct (IH s1 I1 Hrun) as (s' & -> & I' & H'). exists s'. split; [done|]. split; [done|].
    destruct e; lia.
Qed.

Lemma queue_progress R s : inv R s → main s ≠ Joined → ∃ e r, e ≠ Spurious ∧ step s e = Some r.
Proof.
  intros [Hs Hf Hc Ha Hr Hj] Hm. destruct s as [js cl sm mn wk]. simpl in *.
  destruct mn as [[|v vs]|vs| | |]; [..|done].
  all: try (exists Main; eexists; split; done).
  destruct wk as [| |j|]; [exists Work; eexists; split; done|by destruct (Ha eq_refl)| |
    exists Main; eexists; split; done].
  exists Work. unfold step, worker_step. simpl. destruct (is_int _); eexists; split; done.
Qed.

(** No value and no wake-up is lost: whatever the schedule and the spurious wake-ups, the
    program of the worker queue is never undefined as long as the sums of the values fit an
    int.  Apart from spurious wake-ups it makes at most [6 * length vs + 8] steps, until
    [join] has returned some thread can move (a sleeping worker never misses the close), and
    then the worker has ended, the queue is empty and [total] is the sum of all values. *)
Theorem worker_drains (vs : list Z) (es : list event) (r : outcome state) :
  sums_fit 0 vs → run (start vs) es = Some r →
  ∃ s, r = Ret s ∧ (length es <= 6 * length vs + 8 + 2 * spurious es)%nat ∧
    (main s ≠ Joined → ∃ e r', e ≠ Spurious ∧ step s e = Some r') ∧
    (main s = Joined → worker s = Returned ∧ jobs s = [] ∧ sum s = foldl Z.add 0 vs).
Proof.
  intros Hfit Hrun.
  assert (inv (foldl Z.add 0 vs) (start vs)) as I by (by split).
  destruct (queue_run_inv _ _ _ _ I Hrun) as (s & -> & I' & Hlen). exists s. split; [done|].
  split; [unfold work in Hlen; simpl in Hlen; lia|]. split; [by eapply queue_progress|].
  intros Hm. destruct I' as [Hs _ _ _ Hr Hj]. specialize (Hj Hm) as Hw.
  destruct (Hr Hw) as [_ Hjs]. split; [done|]. split; [done|].
  unfold pending in Hs. by rewrite Hm, Hw, Hjs in Hs.
Qed.

Lemma worker_drains_witness :
  ∃ s, run (start [4; 5]) [Work; Spurious; Work; Main; Main; Work; Main; Work; Main; Main; Work; Work;
         Main; Work; Main] = Some (Ret s) ∧ sum s = 9.
Proof.
  destruct (worker_drains [4; 5] [Work; Spurious; Work; Main; Main; Work; Main; Work; Main; Main; Work; Work;
         Main; Work; Main] (Ret (State [] true 9 Joined Returned))) as (s & Hs & _ & _ & Hend);
    [by vm_compute|by vm_compute|].
  exists s. split; [rewrite <- Hs; by vm_compute|]. injection Hs as <-. by apply Hend.
Defined.
End Worker.
