(* ===== verification/Patterns.v ===== *)
(** * Small programs of design_patterns/code

    A Module each: [Interpreter] (interpreter/), [Chain] of responsibility (cor/), [Command]
    with undo (command/), [Memento] with its history (memento/), the [Document] state
    machine (state/), the chat room [Mediator] (mediator/) and the list with its iterator
    [MyList] (iterator/).  What is printed is a list of values that name the lines. *)

From stdpp Require Import base gmap list strings.
From Stdlib Require Import ZArith Lia.
From S2P Require Import Prelude CxxString.

Local Open Scope Z_scope.
#[local] Arguments is_int : simpl never.

(** ** interpreter/ *)

Module Interpreter.

Abbreviation Context := (gmap bytes Z).
Definition set_variable (name : bytes) (value : Z) (c : Context) : Context := <[name := value]> c.

Inductive Expression :=
  | NumberExpression (value : Z)
  | VariableExpression (name : bytes)
  | AddExpression (left right : Expression)
  | MultiplyExpression (left right : Expression).

Section interpret.
(** test.cpp throws for a variable that is not set, the headers read 0. *)
Variables (strict : bool) (c : Context).

Definition get_variable (name : bytes) : outcome Z :=
  match c !! name with
  | Some v => Ret v
  | None => if strict then Throw (RuntimeError (lit "Variable not found: " ++ name)) else Ret 0
  end.

(** Arithmetic of int; the left operand first (the language leaves the order open, which
    shows only in which of two missing variables is named). *)
Fixpoint interpret (e : Expression) : outcome Z :=
  match e with
  | NumberExpression v => Ret v
  | VariableExpression name => get_variable name
  | AddExpression l r =>
      a ← interpret l; b ← interpret r; if is_int (a + b) then Ret (a + b) else Undef
  | MultiplyExpression l r =>
      a ← interpret l; b ← interpret r; if is_int (a * b) then Ret (a * b) else Undef
  end.
End interpret.

(** The reference: the value over the integers, and that every part fits an int. *)
Fixpoint value (c : Context) (e : Expression) : Z :=
  match e with
  | NumberExpression v => v
  | VariableExpression name => default 0 (c !! name)
  | AddExpression l r => value c l + value c r
  | MultiplyExpression l r => value c l * value c r
  end.
Fixpoint fits (c : Context) (e : Expression) : bool :=
  match e with
  | NumberExpression _ | VariableExpression _ => true
  | AddExpression l r => fits c l && fits c r && is_int (value c l + value c r)
  | MultiplyExpression l r => fits c l && fits c r && is_int (value c l * value c r)
  end.
Fixpoint variables (e : Expression) : gset bytes :=
  match e with
  | NumberExpression _ => ∅
  | VariableExpression name => {[name]}
  | AddExpression l r | MultiplyExpression l r => variables l ∪ variables r
  end.

Lemma interpret_value c e : interpret false c e = if fits c e then Ret (value c e) else Undef.
Proof.
  induction e as [v|x|l IHl r IHr|l IHl r IHr]; simpl; [done| | |].
  - unfold get_variable. by destruct (c !! x).
  - rewrite IHl, IHr. destruct (fits c l), (fits c r); simpl; try done.
  - rewrite IHl, IHr. destruct (fits c l), (fits c r); simpl; try done.
Qed.

Lemma interpret_strict c e : variables e ⊆ dom c → interpret true c e = interpret false c e.
Proof.
  induction e as [v|x|l IHl r IHr|l IHl r IHr]; simpl; intros Hv; [done| | |].
  - unfold get_variable. assert (Hx : x ∈ dom c) by set_solver. apply elem_of_dom in Hx as [v ->]. done.
  - by rewrite IHl, IHr by set_solver.
  - by rewrite IHl, IHr by set_solver.
Qed.

(** The interpreter is the arithmetic of the integers exactly as long as every intermediate
    value fits an int, and undefined otherwise; the version that throws agrees with it on
    every expression whose variables are set, and throws on a variable that is not. *)
Theorem interpret_exact (c : Context) (e : Expression) :
  interpret false c e = (if fits c e then Ret (value c e) else Undef) ∧
  (variables e ⊆ dom c → interpret true c e = interpret false c e) ∧
  ∀ x, c !! x = None → interpret true c (VariableExpression x) =
    Throw (RuntimeError (lit "Variable not found: " ++ x)).
Proof.
  split; [apply interpret_value|]. split; [apply interpret_strict|].
  intros x Hx. simpl. unfold get_variable. by rewrite Hx.
Qed.

(** The expression of test.cpp. *)
Example main_interprets :
  interpret true (set_variable (lit "x") 3 ∅)
    (MultiplyExpression (VariableExpression (lit "x"))
       (AddExpression (NumberExpression 4) (NumberExpression 5))) = Ret 27.
Proof. vm_compute. reflexivity. Qed.
End Interpreter.

(** ** cor/handler.hpp *)

Module Chain.

Inductive Approver := TeamLeader | Manager | Director | Boss.
Definition loc := positive.

(** The objects, each with its class and its [nxt_]. *)
Definition approvers := gmap loc (Approver * option loc).

Definition set_next (a : loc) (nxt : option loc) (h : approvers) : outcome approvers :=
  match h !! a with
  | Some (k, _) => Ret (<[a := (k, nxt)]> h)
  | None => Undef
  end.

Inductive line := Approves (k : Approver) (days : Z) | Escalates (k : Approver) (days : Z) | Nobody (k : Approver).

(** The days a class approves; [None] is any number. *)
Definition authority (k : Approver) : option Z :=
  match k with TeamLeader => Some 1 | Manager => Some 3 | Director => Some 7 | Boss => None end.
Definition approves (k : Approver) (days : Z) : bool :=
  match authority k with Some n => days <=? n | None => true end.

(** [HandleRequest]; a ring of approvers recurses for ever, which is running out of fuel. *)
Fixpoint handle_request (fuel : nat) (h : approvers) (a : loc) (days : Z) : outcome (list line) :=
  match h !! a with
  | None => Undef
  | Some (k, nxt) =>
      if approves k days then Ret [Approves k days]
      else match nxt, fuel with
           | Some b, S fuel => out ← handle_request fuel h b days; Ret (Escalates k days :: out)
           | Some _, O => Undef
           | None, _ => Ret [Nobody k]
           end
  end.

(** The approvers from [a] on, in order. *)
Fixpoint linked (h : approvers) (a : loc) (ks : list Approver) : Prop :=
  match ks with
  | [] => False
  | k :: ks => ∃ nxt, h !! a = Some (k, nxt) ∧
      match nxt, ks with
      | None, [] => True
      | Some b, _ :: _ => linked h b ks
      | _, _ => False
      end
  end.
Fixpoint answer (ks : list Approver) (days : Z) : list line :=
  match ks with
  | [] => []
  | k :: ks =>
      if approves k days then [Approves k days]
      else match ks with [] => [Nobody k] | _ => Escalates k days :: answer ks days end
  end.

Lemma handle_linked h a ks days fuel :
  linked h a ks → (length ks <= fuel)%nat → handle_request fuel h a days = Ret (answer ks days).
Proof.
  revert a fuel. induction ks as [|k ks IH]; simpl; intros a fuel; [done|].
  intros (nxt & Ha & Hn) Hf. destruct fuel as [|fuel]; [lia|]. simpl. rewrite Ha.
  destruct (approves k days); [done|]. destruct nxt as [b|], ks as [|k' ks]; try done.
  rewrite (IH b fuel Hn) by (simpl in *; lia). done.
Qed.

Lemma answer_shape ks days :
  ks ≠ [] → ∃ pre k post, ks = pre ++ k :: post ∧ Forall (λ k, approves k days = false) pre ∧
    (approves k days = false → post = []) ∧
    answer ks days = ((λ k, Escalates k days) <$> pre) ++
      [if approves k days then Approves k days else Nobody k].
Proof.
  induction ks as [|k ks IH]; [done|]. intros _. simpl. destruct (approves k days) eqn:Ek.
  - exists [], k, ks. simpl. rewrite Ek. done.
  - destruct ks as [|k' ks].
    + exists [], k, []. simpl. by rewrite Ek.
    + destruct (IH ltac:(done)) as (pre & j & post & -> & Hpre & Hlast & Hans).
      exists (k :: pre), j, post. rewrite Hans. simpl. split; [done|]. split; [by constructor|done].
Qed.

(** Along a chain a request is passed up to the first approver with the authority for it,
    who approves it, each one before it having passed it on; without such an approver the
    last one says that nobody handles it.  The calls end within the length of the chain. *)
Theorem request_reaches_authority (h : approvers) (a : loc) (ks : list Approver) (days : Z) :
  linked h a ks →
  ∃ pre k post, ks = pre ++ k :: post ∧ Forall (λ k, approves k days = false) pre ∧
    (approves k days = false → post = []) ∧
    handle_request (length ks) h a days =
      Ret (((λ k, Escalates k days) <$> pre) ++ [if approves k days then Approves k days else Nobody k]).
Proof.
  intros Hl. destruct (answer_shape ks days) as (pre & k & post & Hks & Hpre & Hlast & Hans).
  { by destruct ks. }
  exists pre, k, post. rewrite (handle_linked h a ks days) by done. by rewrite Hans.
Qed.

(** The chain of main.cpp. *)
Definition main_chain : outcome approvers :=
  let h := <[1%positive := (TeamLeader, None)]> (<[2%positive := (Manager, None)]>
           (<[3%positive := (Director, None)]> (<[4%positive := (Boss, None)]> ∅))) in
  h ← set_next 1%positive (Some 2%positive) h;
  h ← set_next 2%positive (Some 3%positive) h;
  set_next 3%positive (Some 4%positive) h.

Lemma request_reaches_authority_witness :
  ∃ h, main_chain = Ret h ∧
    handle_request 4 h 1%positive 6 = Ret [Escalates TeamLeader 6; Escalates Manager 6; Approves Director 6].
Proof.
  destruct main_chain as [h| |] eqn:E; [|by vm_compute in E..]. exists h. split; [done|].
  assert (Hl : linked h 1%positive [TeamLeader; Manager; Director; Boss]).
  { vm_compute in E. injection E as <-. simpl. repeat (eexists; split; [reflexivity|]). done. }
  destruct (request_reaches_authority h _ _ 6 Hl) as (pre & k & post & Hks & Hpre & Hlast & E').
  simpl length in E'. rewrite E'. f_equal.
  destruct pre as [|k1 [|k2 [|k3 [|k4 pre]]]]; simpl in Hks; simplify_eq; simpl in *; try done.
  - by specialize (Hlast eq_refl).
  - by specialize (Hlast eq_refl).
  - by apply Forall_cons in Hpre as [_ [_ [? _]%Forall_cons]%Forall_cons].
  - by destruct pre.
Defined.
End Chain.

(** ** command/command.hpp *)

Module Command.

Record TV := Tv { volume_ : Z }.
Inductive line := On | Off | Up (v : Z) | Down (v : Z) | NothingToUndo.
Inductive command := TurnOnCommand | TurnOffCommand | VolumeUpCommand.

(** What a receiver's operation prints; [++volume_] is undefined at the ends of int. *)
Definition volume_up (tv : TV) : outcome (TV * line) :=
  if is_int (volume_ tv + 1) then Ret (Tv (volume_ tv + 1), Up (volume_ tv + 1)) else Undef.
Definition volume_down (tv : TV) : outcome (TV * line) :=
  if is_int (volume_ tv - 1) then Ret (Tv (volume_ tv - 1), Down (volume_ tv - 1)) else Undef.

Definition exe (c : command) (tv : TV) : outcome (TV * line) :=
  match c with TurnOnCommand => Ret (tv, On) | TurnOffCommand => Ret (tv, Off) | VolumeUpCommand => volume_up tv end.
Definition undo (c : command) (tv : TV) : outcome (TV * line) :=
  match c with TurnOnCommand => Ret (tv, Off) | TurnOffCommand => Ret (tv, On) | VolumeUpCommand => volume_down tv end.

(** The remote control: the history has the last command at its head. *)
Record remote := Remote { tv : TV; history_ : list command }.

Definition press_button (c : command) (r : remote) : outcome (remote * line) :=
  '(t, l) ← exe c (tv r); Ret (Remote t (c :: history_ r), l).
Definition press_undo (r : remote) : outcome (remote * line) :=
  match history_ r with
  | [] => Ret (r, NothingToUndo)
  | last :: rest => '(t, l) ← undo last (tv r); Ret (Remote t rest, l)
  end.

#[local] Arguments press_button : simpl never.
#[local] Arguments press_undo : simpl never.

Inductive press := Button (c : command) | Undo.
Definition do_press (p : press) (r : remote) : outcome (remote * line) :=
  match p with Button c => press_button c r | Undo => press_undo r end.
Fixpoint presses (ps : list press) (r : remote) : outcome (remote * list line) :=
  match ps with
  | [] => Ret (r, [])
  | p :: ps => '(r, l) ← do_press p r; '(r, ls) ← presses ps r; Ret (r, l :: ls)
  end.

(** What an undo prints for a command. *)
Definition opposite (l : line) : line :=
  match l with On => Off | Off => On | Up v => Down (v - 1) | Down v => Up (v + 1) | NothingToUndo => NothingToUndo end.

Lemma undo_press c r r' l :
  is_int (volume_ (tv r)) = true → press_button c r = Ret (r', l) →
  press_undo r' = Ret (r, opposite l) ∧ is_int (volume_ (tv r')) = true.
Proof.
  destruct r as [[v] h]. unfold press_button, press_undo. simpl. intros Hv.
  destruct c; simpl; unfold volume_up, volume_down; simpl.
  - intros [= <- <-]. done.
  - intros [= <- <-]. done.
  - destruct (is_int (v + 1)) eqn:E; [|done]. intros [= <- <-]. simpl.
    unfold volume_down. simpl. replace (v + 1 - 1) with v by lia. by rewrite Hv.
Qed.

Lemma presses_app ps qs r :
  presses (ps ++ qs) r = ('(r, ls) ← presses ps r; '(r, ls') ← presses qs r; Ret (r, ls ++ ls')).
Proof.
  revert r. induction ps as [|p ps IH]; intros r; simpl.
  - by destruct (presses qs r) as [[? ?]| |].
  - destruct (do_press p r) as [[r1 l]| |]; simpl; [|done..]. rewrite IH.
    destruct (presses ps r1) as [[r2 ls]| |]; simpl; [|done..].
    by destruct (presses qs r2) as [[r3 ls']| |].
Qed.

(** Undo is the inverse: after any buttons that did not overflow, as many undos print the
    opposite lines in the opposite order and bring volume and history back. *)
Theorem undo_restores (cs : list command) (r r' : remote) (ls : list line) :
  is_int (volume_ (tv r)) = true → presses (Button <$> cs) r = Ret (r', ls) →
  presses ((Button <$> cs) ++ replicate (length cs) Undo) r = Ret (r, ls ++ rev (opposite <$> ls)).
Proof.
  intros Hv Hp. rewrite presses_app, Hp. simpl.
  enough (H : presses (replicate (length cs) Undo) r' = Ret (r, rev (opposite <$> ls))) by by rewrite H.
  revert r Hv ls Hp. induction cs as [|c cs IH]; intros r Hv ls Hp.
  - by injection Hp as <- <-.
  - rewrite fmap_cons in Hp. cbn [presses do_press] in Hp.
    destruct (press_button c r) as [[r1 l]| |] eqn:E; cbn [mbind outcome_bind] in Hp; [|done..].
    destruct (presses (Button <$> cs) r1) as [[r2 ls']| |] eqn:E'; cbn [mbind outcome_bind] in Hp; [|done..].
    injection Hp as <- <-. destruct (undo_press _ _ _ _ Hv E) as [Hu Hv1].
    change (length (c :: cs)) with (S (length cs)). rewrite replicate_S_end, presses_app, (IH r1 Hv1 ls' E'). simpl. by rewrite Hu.
Qed.

Lemma undo_restores_witness :
  presses [Button VolumeUpCommand; Button TurnOffCommand; Undo; Undo] (Remote (Tv 10) []) =
    Ret (Remote (Tv 10) [], [Up 11; Off; On; Down 10]).
Proof.
  apply (undo_restores [VolumeUpCommand; TurnOffCommand] (Remote (Tv 10) [])
    (Remote (Tv 11) [TurnOffCommand; VolumeUpCommand]) [Up 11; Off]); done.
Defined.
End Command.

(** ** memento/ *)

Module Memento.

Record Editor := Ed { txt_ : bytes; cursorPos_ : Z }.
Record EditorMemento := Snapshot { m_text : bytes; m_pos : Z }.

(** [txt_.insert(cursorPos_, input)] throws past the end; the cursor is an int, a negative
    one a huge position. *)
Definition type (input : bytes) (e : Editor) : outcome Editor :=
  let pos := wrap64 (cursorPos_ e) in
  if size (txt_ e) <? pos then Throw OutOfRange
  else Ret (Ed (take (Z.to_nat pos) (txt_ e) ++ input ++ drop (Z.to_nat pos) (txt_ e))
               (sext 32 (wrap64 (cursorPos_ e + size input)))).
Definition move_cursor (pos : Z) (e : Editor) : Editor :=
  if (0 <=? pos) && (pos <=? sext 32 (size (txt_ e))) then Ed (txt_ e) pos else e.
Definition create_memento (e : Editor) : EditorMemento := Snapshot (txt_ e) (cursorPos_ e).
Definition restore (m : EditorMemento) (e : Editor) : Editor := Ed (m_text m) (m_pos m).

(** caretaker.hpp: the last snapshot is the head. *)
Definition History := list EditorMemento.
Definition push (m : EditorMemento) (h : History) : History := m :: h.
Definition pop (h : History) : option EditorMemento * History :=
  match h with [] => (None, []) | m :: h => (Some m, h) end.

Inductive action := Type_ (input : bytes) | Move (pos : Z) | Save | Undo.
Definition act (a : action) (s : Editor * History) : outcome (Editor * History) :=
  let '(e, h) := s in
  match a with
  | Type_ input => e ← type input e; Ret (e, h)
  | Move pos => Ret (move_cursor pos e, h)
  | Save => Ret (e, push (create_memento e) h)
  | Undo => match pop h with (Some m, h) => Ret (restore m e, h) | (None, h) => Ret (e, h) end
  end.
Fixpoint acts (l : list action) (s : Editor * History) : outcome (Editor * History) :=
  match l with [] => Ret s | a :: l => s ← act a s; acts l s end.

(** The cursor is in the text, here and in every snapshot, and the texts that the rest of
    the actions can make fit an int. *)
Definition within (limit : Z) (t : bytes) (pos : Z) : Prop := 0 <= pos <= size t ∧ size t <= limit.
Definition editor_ok (limit : Z) (s : Editor * History) : Prop :=
  within limit (txt_ s.1) (cursorPos_ s.1) ∧ Forall (λ m, within limit (m_text m) (m_pos m)) s.2.
Definition typed (a : action) : Z := match a with Type_ input => size input | _ => 0 end.
Definition total_typed (l : list action) : Z := foldr (λ a n, typed a + n) 0 l.

Lemma text_size_nonneg (t : bytes) : 0 <= size t.
Proof. unfold size. lia. Qed.

Lemma within_weaken n m t pos : within n t pos → n <= m → within m t pos.
Proof. unfold within. lia. Qed.

Lemma act_ok a s n :
  editor_ok n s → n + typed a <= int_max → ∃ s', act a s = Ret s' ∧ editor_ok (n + typed a) s'.
Proof.
  destruct s as [[t pos] h]. intros [[Hp Ht] Hh] Hn. simpl in *. pose proof (text_size_nonneg t).
  unfold int_max in Hn.
  assert (Hweak : ∀ k, 0 <= k → Forall (λ m, within (n + k) (m_text m) (m_pos m)) h).
  { intros k Hk. eapply Forall_impl; [exact Hh|]. intros m Hm. eapply within_weaken; [exact Hm|lia]. }
  destruct a as [input|p| |]; simpl in *.
  - pose proof (text_size_nonneg input). unfold type. simpl. rewrite wrap64_small by lia.
    destruct (Z.ltb_spec (size t) pos); [lia|]. eexists. split; [done|]. split; [|by apply Hweak]. simpl.
    rewrite (wrap64_small (pos + _)), sext_small by lia. unfold within, size in *.
    rewrite !length_app, length_take, length_drop. lia.
  - eexists. split; [done|]. split; [|by apply Hweak]. simpl. unfold move_cursor. simpl.
    rewrite sext_small by lia. destruct (_ && _) eqn:E; zbool; split; simpl; lia.
  - eexists. split; [done|]. split; [split; simpl; lia|]. constructor; [split; simpl; lia|by apply Hweak].
  - destruct h as [|m h]; simpl; (eexists; split; [done|]).
    + split; [split; simpl; lia|done].
    + pose proof (Hweak 0 ltac:(lia)) as [Hm Hh']%Forall_cons. by split.
Qed.

Lemma acts_app l1 l2 s : acts (l1 ++ l2) s = (s ← acts l1 s; acts l2 s).
Proof.
  revert s. induction l1 as [|a l1 IH]; intros s; simpl; [done|].
  destruct (act a s) as [s'| |]; simpl; [apply IH|done..].
Qed.

Lemma acts_ok l s n :
  editor_ok n s → n + total_typed l <= int_max → ∃ s', acts l s = Ret s' ∧ editor_ok (n + total_typed l) s'.
Proof.
  revert s n. induction l as [|a l IH]; simpl; intros s n Hs Hn.
  - exists s. by rewrite Z.add_0_r.
  - assert (0 <= total_typed l).
    { clear. induction l as [|a l IH]; simpl; [lia|]. pose proof (text_size_nonneg []).
      assert (0 <= typed a) by (destruct a; simpl; try lia; apply text_size_nonneg). lia. }
    destruct (act_ok a s n Hs ltac:(lia)) as (s1 & E & H1). rewrite E. simpl.
    destruct (IH s1 _ H1 ltac:(lia)) as (s' & E' & H'). exists s'. split; [done|].
    by rewrite Z.add_assoc.
Qed.

(** Actions without [Save] and [Undo] leave the snapshots alone. *)
Definition edits (a : action) : bool := match a with Type_ _ | Move _ => true | _ => false end.
Lemma edits_keep_history l s s' : forallb edits l = true → acts l s = Ret s' → s'.2 = s.2.
Proof.
  revert s. induction l as [|a l IH]; simpl; intros s Hl Hacts; [by injection Hacts as <-|].
  apply andb_true_iff in Hl as [Ha Hl]. destruct (act a s) as [s1| |] eqn:E; simpl in Hacts; [|done..].
  rewrite (IH s1 Hl Hacts). destruct s as [e h], a; simpl in *; try done.
  - destruct (type input e); simpl in E; [by injection E as <-|done..].
  - by injection E as <-.
Qed.

(** Undo gives back what was saved: any actions on an editor whose cursor is in its text run
    without an exception as long as the text fits an int, the cursor stays in the text, and
    a [Save], any editing and an [Undo] restore text, cursor and history exactly. *)
Theorem save_edit_undo (s : Editor * History) (n : Z) (l : list action) :
  editor_ok n s → n + total_typed l <= int_max → 
  (∃ s', acts l s = Ret s' ∧ editor_ok (n + total_typed l) s') ∧
  (forallb edits l = true → acts (Save :: l ++ [Undo]) s = Ret s).
Proof.
  intros Hs Hn. split; [by apply acts_ok|]. intros Hl. simpl. destruct s as [e h]. simpl.
  rewrite acts_app. destruct Hs as [He Hh].
  destruct (acts_ok l (e, push (create_memento e) h) n) as (s' & E & _); [|done|].
  { split; [done|]. by constructor. }
  rewrite E. pose proof (edits_keep_history _ _ _ Hl E) as H2. destruct s' as [e' h'].
  simpl in *. subst h'. simpl. by destruct e.
Qed.

Lemma save_edit_undo_witness :
  acts [Save; Type_ (lit "!!!"); Move 0; Undo] (Ed (lit "Hello World") 11, []) =
    Ret (Ed (lit "Hello World") 11, []).
Proof.
  apply (save_edit_undo (Ed (lit "Hello World") 11, []) 11 [Type_ (lit "!!!"); Move 0]); [|done|done].
  split; [unfold within, size; simpl; lia|constructor].
Defined.
End Memento.

(** ** state/ *)

Module Document.

Inductive DocumentState := DraftState | ReviewState | PublishedState.
Record Document := Doc { state_ : DocumentState; content_ : bytes }.
Inductive line := Transition (from to : DocumentState) | MayEdit | OnlyComments | Closed | Submitted | Passed | Again.

(** [SetState] with the null test of its argument. *)
Definition set_state (next : option DocumentState) (d : Document) : Document * list line :=
  match next with
  | None => (d, [])
  | Some st => (Doc st (content_ d), [Transition (state_ d) st])
  end.
Definition edit (text : bytes) (d : Document) : bool * Document * list line :=
  match state_ d with
  | DraftState => (true, Doc (state_ d) text, [MayEdit])
  | ReviewState => (false, d, [OnlyComments])
  | PublishedState => (false, d, [Closed])
  end.
Definition publish (d : Document) : Document * list line :=
  match state_ d with
  | DraftState => let '(d, ls) := set_state (Some ReviewState) d in (d, Submitted :: ls)
  | ReviewState => let '(d, ls) := set_state (Some PublishedState) d in (d, Passed :: ls)
  | PublishedState => (d, [Again])
  end.

Inductive request := Edit (text : bytes) | Publish.
Definition serve (r : request) (d : Document) : Document :=
  match r with Edit text => (edit text d).1.2 | Publish => (publish d).1 end.
Definition serve_all (rs : list request) (d : Document) : Document := foldl (λ d r, serve r d) d rs.

Definition rank (s : DocumentState) : nat := match s with DraftState => 0 | ReviewState => 1 | PublishedState => 2 end.
Definition is_publish (r : request) : bool := match r with Publish => true | _ => false end.
(** The last text accepted: edits before the first [Publish]. *)
Fixpoint drafted (rs : list request) (t : bytes) : bytes :=
  match rs with [] | Publish :: _ => t | Edit text :: rs => drafted rs text end.

Lemma serve_all_cons r rs d : serve_all (r :: rs) d = serve_all rs (serve r d).
Proof. done. Qed.

Lemma frozen rs d : state_ d ≠ DraftState → content_ (serve_all rs d) = content_ d.
Proof.
  revert d. induction rs as [|r rs IH]; intros [st t] Hd; [done|].
  rewrite serve_all_cons, IH; destruct st, r; simpl in *; done.
Qed.

(** The review protects the text: after any requests the state is that of as many [Publish]
    requests, at most published, and the content is the last edit before the first of them;
    nothing changes it from then on. *)
Theorem document_life (t : bytes) (rs : list request) :
  rank (state_ (serve_all rs (Doc DraftState t))) = Nat.min 2 (length (List.filter is_publish rs)) ∧
  content_ (serve_all rs (Doc DraftState t)) = drafted rs t.
Proof.
  split.
  - assert (H : ∀ d, rank (state_ (serve_all rs d)) =
      Nat.min 2 (rank (state_ d) + length (List.filter is_publish rs))%nat); [|by rewrite H].
    induction rs as [|r rs IH]; intros [st u]; [by destruct st|].
    rewrite serve_all_cons, IH. destruct st, r; simpl; lia.
  - revert t. induction rs as [|[text|] rs IH]; intros t; [done|apply IH|]. by rewrite serve_all_cons, frozen.
Qed.
End Document.

(** ** mediator/mediator.hpp *)

Module Mediator.

Definition user := nat.
Inductive line :=
  | Sends (u : user) (msg : bytes)
  | Relays (u : user) (msg : bytes)
  | Receives (u : user) (from : user) (msg : bytes).

(** A chat room is the users added, in order; a user is an object, not a name. *)
Definition ChatRoom := list user.
Definition add_colleague (u : user) (r : ChatRoom) : ChatRoom := r ++ [u].
Fixpoint relay (members : list user) (sender : user) (msg : bytes) : list line :=
  match members with
  | [] => []
  | m :: ms => (if decide (m = sender) then [] else [Receives m sender msg]) ++ relay ms sender msg
  end.
Definition send_message (sender : user) (msg : bytes) (r : ChatRoom) : list line :=
  Relays sender msg :: relay r sender msg.
Definition send (u : user) (msg : bytes) (r : ChatRoom) : list line :=
  Sends u msg :: send_message u msg r.

(** A message reaches every user of the room but its sender, as often as the user was added,
    in the order of joining, and nobody else. *)
Theorem everyone_else_receives (joined : list user) (u : user) (msg : bytes) :
  send u msg (foldl (λ r v, add_colleague v r) [] joined) =
  Sends u msg :: Relays u msg :: ((λ m, Receives m u msg) <$> filter (.≠ u) joined).
Proof.
  assert (H : ∀ r, foldl (λ r v, add_colleague v r) r joined = r ++ joined).
  { induction joined as [|v vs IH]; intros r; simpl; [by rewrite app_nil_r|].
    rewrite IH. unfold add_colleague. by rewrite <- app_assoc. }
  rewrite H. unfold send, send_message. do 2 f_equal. clear H. simpl.
  induction joined as [|v vs IH]; [done|]. simpl. rewrite filter_cons, IH.
  destruct (decide (v = u)) as [->|Hne]; [by rewrite decide_False by auto|by rewrite decide_True].
Qed.
End Mediator.

(** ** iterator/itlist.hpp *)

Module MyList.

Section list.
Context {T : Type}.

(** The array, [None] when null; a cell without a value has not been written. *)
Record MyList := Lst { data_ : option (list (option T)); size_ : Z; capacity_ : Z }.
Definition empty_list : MyList := Lst None 0 0.

Definition int_ok (x : Z) : outcome Z := if is_int x then Ret x else Undef.
Definition cells (d : option (list (option T))) : list (option T) := default [] d.

(** The copy loop reads [size_] cells of the old array. *)
Definition grow (l : MyList) : outcome MyList :=
  c ← (if capacity_ l =? 0 then Ret 4 else int_ok (capacity_ l * 2));
  if Z.of_nat (length (cells (data_ l))) <? size_ l then Undef
  else Ret (Lst (Some (take (Z.to_nat (size_ l)) (cells (data_ l)) ++
                       replicate (Z.to_nat (c - size_ l)) None)) (size_ l) c).
Definition push_back (val : T) (l : MyList) : outcome MyList :=
  l ← (if capacity_ l <=? size_ l then grow l else Ret l);
  if Z.of_nat (length (cells (data_ l))) <=? size_ l then Undef
  else n ← int_ok (size_ l + 1);
       Ret (Lst (Some (<[Z.to_nat (size_ l) := Some val]> (cells (data_ l)))) n (capacity_ l)).
Fixpoint push_all (vs : list T) (l : MyList) : outcome MyList :=
  match vs with [] => Ret l | v :: vs => l ← push_back v l; push_all vs l end.

Definition count (l : MyList) : Z := size_ l.
Definition get_item (idx : Z) (l : MyList) : outcome T :=
  if idx <? 0 then Undef
  else match cells (data_ l) !! Z.to_nat idx with Some (Some v) => Ret v | _ => Undef end.

(** The iterator is its index; [idx_ >= list_.count()] compares as size_t. *)
Definition first : Z := 0.
Definition next (idx : Z) : outcome Z := int_ok (idx + 1).
Definition is_done (idx : Z) (l : MyList) : bool := count l <=? wrap64 idx.
Fixpoint iterate (fuel : nat) (idx : Z) (l : MyList) : outcome (list T) :=
  if is_done idx l then Ret []
  else match fuel with
       | O => Undef
       | S fuel => v ← get_item idx l; i ← next idx; vs ← iterate fuel i l; Ret (v :: vs)
       end.

(** The list holds [vs]: filled cells, then the rest of the capacity. *)
Definition holds_values (l : MyList) (vs : list T) : Prop :=
  size_ l = Z.of_nat (length vs) ∧ take (length vs) (cells (data_ l)) = Some <$> vs ∧
  Z.of_nat (length (cells (data_ l))) = capacity_ l ∧
  size_ l <= capacity_ l <= Z.max 4 (2 * size_ l) ∧ (capacity_ l = 0 ∨ 4 <= capacity_ l).

Lemma grow_ok l vs :
  holds_values l vs → Z.of_nat (length vs) < 2 ^ 30 → capacity_ l <= size_ l →
  ∃ l', grow l = Ret l' ∧ size_ l' = size_ l ∧ take (length vs) (cells (data_ l')) = Some <$> vs ∧
    Z.of_nat (length (cells (data_ l'))) = capacity_ l' ∧
    size_ l < capacity_ l' <= Z.max 4 (2 * size_ l) ∧ 4 <= capacity_ l'.
Proof.
  intros (Hs & Ht & Hc & Hb & H4) Hn Hfull. unfold grow.
  assert (Hcap : ∃ c, (if capacity_ l =? 0 then Ret 4 else int_ok (capacity_ l * 2)) = Ret c ∧
    size_ l < c <= Z.max 4 (2 * size_ l) ∧ 4 <= c).
  { destruct (Z.eqb_spec (capacity_ l) 0); [exists 4; split; [done|lia]|].
    exists (capacity_ l * 2). unfold int_ok. replace (is_int _) with true; [split; [done|lia]|].
    symmetry. unfold is_int, int_min, int_max. apply andb_true_iff. lia. }
  destruct Hcap as (c & -> & Hc1 & Hc2). simpl.
  destruct (Z.ltb_spec (Z.of_nat (length (cells (data_ l)))) (size_ l)); [lia|].
  eexists. split; [done|]. simpl. split; [done|].
  assert (Hlen : (length vs <= length (cells (data_ l)))%nat) by lia.
  split; [|rewrite length_app, length_take, length_replicate; lia].
  rewrite Hs, Nat2Z.id, take_app_le by (rewrite length_take; lia).
  by rewrite take_take, Nat.min_id.
Qed.

Lemma push_back_holds l vs v :
  holds_values l vs → Z.of_nat (length vs) < 2 ^ 30 →
  ∃ l', push_back v l = Ret l' ∧ holds_values l' (vs ++ [v]).
Proof.
  intros Hl Hn.
  assert (Hroom : ∃ l1, (if capacity_ l <=? size_ l then grow l else Ret l) = Ret l1 ∧
    size_ l1 = size_ l ∧ take (length vs) (cells (data_ l1)) = Some <$> vs ∧
    Z.of_nat (length (cells (data_ l1))) = capacity_ l1 ∧
    size_ l < capacity_ l1 <= Z.max 4 (2 * size_ l) ∧ 4 <= capacity_ l1).
  { destruct (Z.leb_spec (capacity_ l) (size_ l)); [by apply (grow_ok l vs)|].
    destruct Hl as (? & ? & ? & ? & ?). exists l. repeat split; done || lia. }
  destruct Hroom as (l1 & E & Hs1 & Ht & Hc & Hb & H4). destruct Hl as (Hs & _).
  unfold push_back. rewrite E. simpl.
  destruct (Z.leb_spec (Z.of_nat (length (cells (data_ l1)))) (size_ l1)); [lia|].
  unfold int_ok. replace (is_int (size_ l1 + 1)) with true.
  2: { symmetry. unfold is_int, int_min, int_max. apply andb_true_iff. lia. }
  simpl. eexists. split; [done|]. unfold holds_values. simpl.
  rewrite length_app, length_insert. simpl. split; [lia|]. split; [|lia].
  rewrite Hs1, Hs, Nat2Z.id. replace (length vs + 1)%nat with (S (length vs)) by lia.
  rewrite (take_S_r _ _ (Some v)).
  - rewrite take_insert_ge by lia. by rewrite Ht, fmap_app.
  - apply list_lookup_insert_eq. lia.
Qed.

Lemma iterate_from l vs k fuel :
  holds_values l vs → Z.of_nat (length vs) < 2 ^ 30 → (k <= length vs)%nat → (length vs - k <= fuel)%nat →
  iterate fuel (Z.of_nat k) l = Ret (drop k vs).
Proof.
  intros (Hs & Ht & _) Hn. revert k. induction fuel as [|fuel IH]; intros k Hk Hf.
  - replace k with (length vs) by lia. simpl. unfold is_done, count. rewrite wrap64_small, Hs, Z.leb_refl by lia.
    by rewrite drop_ge.
  - simpl. unfold is_done, count. rewrite wrap64_small, Hs by lia.
    destruct (Z.leb_spec (Z.of_nat (length vs)) (Z.of_nat k)); [by rewrite drop_ge by lia|].
    destruct (lookup_lt_is_Some_2 vs k ltac:(lia)) as [v Hv].
    assert (Hcell : cells (data_ l) !! k = Some (Some v)).
    { rewrite <- (lookup_take_lt _ (length vs)) by lia. rewrite Ht, list_lookup_fmap, Hv. done. }
    unfold get_item. destruct (Z.ltb_spec (Z.of_nat k) 0); [lia|]. rewrite Nat2Z.id, Hcell. simpl.
    unfold next, int_ok. replace (is_int (Z.of_nat k + 1)) with true.
    2: { symmetry. unfold is_int, int_min, int_max. apply andb_true_iff. lia. }
    simpl. replace (Z.of_nat k + 1) with (Z.of_nat (S k)) by lia.
    rewrite IH by lia. simpl. by rewrite (drop_S _ _ _ Hv).
Qed.

Lemma push_all_holds l ws vs :
  holds_values l ws → Z.of_nat (length ws + length vs) < 2 ^ 30 →
  ∃ l', push_all vs l = Ret l' ∧ holds_values l' (ws ++ vs).
Proof.
  revert l ws. induction vs as [|v vs IH]; simpl; intros l ws Hl Hn.
  - exists l. by rewrite app_nil_r.
  - destruct (push_back_holds l ws v Hl ltac:(lia)) as (l1 & E & H1). rewrite E. simpl.
    destruct (IH l1 (ws ++ [v]) H1) as (l' & E' & H'); [rewrite length_app; simpl; lia|].
    exists l'. split; [done|]. by rewrite <- app_assoc in H'.
Qed.

(** The iterator visits what was pushed: up to 2^30 values can be pushed without undefined
    behaviour, whatever growing moves them, and the loop of main from [first] until
    [is_done] ends after one turn per value with the values in order. *)
Theorem iteration_visits_pushed (vs : list T) :
  Z.of_nat (length vs) < 2 ^ 30 →
  ∃ l, push_all vs empty_list = Ret l ∧ count l = Z.of_nat (length vs) ∧
    iterate (length vs) first l = Ret vs.
Proof.
  intros Hn. destruct (push_all_holds empty_list [] vs) as (l & E & Hl).
  { split; [done|]. split; [done|]. simpl. lia. }
  { simpl. lia. }
  exists l. split; [done|]. split; [apply Hl|]. by apply (iterate_from l vs 0); [..|lia|lia].
Qed.
End list.
Arguments MyList T : clear implicits.

Lemma iteration_visits_pushed_witness :
  ∃ l, push_all [10; 20; 30] empty_list = Ret l ∧ iterate 3 first l = Ret [10; 20; 30].
Proof.
  destruct (iteration_visits_pushed [10; 20; 30] ltac:(done)) as (l & E & _ & H). by exists l.
Defined.
End MyList.
