(* ===== verification/Rio.v ===== *)
(** * The Rio package of csapp.c: robust reads and writes

    [rio_readn], [rio_writen] and the buffered [rio_read], [rio_readnb],
    [rio_readlineb] over a descriptor whose kernel may cut every transfer,
    interrupt it (EINTR) or fail it.  The stream a reader still has to deliver is
    the unread part of its buffer followed by what the kernel holds; the
    buffered functions refine readers of that plain list.

    Functions that loop take fuel and return [None] without it; every theorem
    about a result says that fuel above the number of the kernel's answers
    (plus the bytes asked for, or the room of the line) suffices. *)

From stdpp Require Import base list strings.
From Stdlib Require Import ZArith Lia Ascii.
From S2P Require Import Prelude CxxString.

Local Open Scope Z_scope.

(** ** The kernel behind one descriptor

    [answers] are the kernel's decisions for the calls to come: move up to
    [k] bytes, or fail with an error number.  With no decision left it moves
    everything asked for.  [errno] keeps its value when a call succeeds. *)

Inductive answer := Moves (k : nat) | Fails (e : Z).
Record world := World { inp : bytes; out : bytes; answers : list answer; errno : Z }.

Definition EINTR : Z := 4.

(** [read(fd, buf, count)] with [count > 0]: 0 is the end of the stream only,
    so a successful read of a stream that has bytes moves at least one. *)
Definition sys_read (count : nat) (w : world) : Z * bytes * world :=
  match answers w with
  | [] =>
      let data := take count (inp w) in
      (size data, data, World (drop count (inp w)) (out w) [] (errno w))
  | Moves k :: rest =>
      let n := Nat.min count (Nat.max 1 k) in
      let data := take n (inp w) in
      (size data, data, World (drop n (inp w)) (out w) rest (errno w))
  | Fails e :: rest => (-1, [], World (inp w) (out w) rest e)
  end.

(** [write(fd, buf, len)]: a write may move nothing and return 0. *)
Definition sys_write (buf : bytes) (w : world) : Z * world :=
  match answers w with
  | [] => (size buf, World (inp w) (out w ++ buf) [] (errno w))
  | Moves k :: rest =>
      let data := take k buf in
      (size data, World (inp w) (out w ++ data) rest (errno w))
  | Fails e :: rest => (-1, World (inp w) (out w) rest e)
  end.

(** ** Unbuffered transfers *)

(** The loop of [rio_readn]: [nleft] bytes wanted, [got] in the user's buffer. *)
Fixpoint rio_readn_loop (fuel n nleft : nat) (got : bytes) (w : world) : option (Z * bytes * world) :=
  match fuel with
  | O => None
  | S fuel =>
      if (nleft =? 0)%nat then Some (Z.of_nat (n - nleft), got, w)
      else
        let '(nread, data, w') := sys_read nleft w in
        if nread <? 0 then
          if errno w' =? EINTR then rio_readn_loop fuel n nleft got w'
          else Some (-1, got, w')
        else if nread =? 0 then Some (Z.of_nat (n - nleft), got, w')
        else rio_readn_loop fuel n (nleft - Z.to_nat nread) (got ++ data) w'
  end.
Definition rio_readn (fuel n : nat) (w : world) := rio_readn_loop fuel n n [] w.

Fixpoint rio_writen_loop (fuel n : nat) (bufp : bytes) (w : world) : option (Z * world) :=
  match fuel with
  | O => None
  | S fuel =>
      match bufp with
      | [] => Some (Z.of_nat n, w)
      | _ :: _ =>
          let '(nwritten, w') := sys_write bufp w in
          if nwritten <=? 0 then
            if errno w' =? EINTR then rio_writen_loop fuel n bufp w'
            else Some (-1, w')
          else rio_writen_loop fuel n (drop (Z.to_nat nwritten) bufp) w'
      end
  end.
Definition rio_writen (fuel : nat) (usrbuf : bytes) (w : world) :=
  rio_writen_loop fuel (length usrbuf) usrbuf w.

(** ** Buffered reads *)

Definition RIO_BUFSIZE : nat := Z.to_nat 8192.
#[local] Arguments RIO_BUFSIZE : simpl never.
#[local] Arguments size : simpl never.

(** [rio_bufptr] is the offset of the next unread byte in [rio_buf]. *)
Record rio_t := Rio { rio_fd : Z; rio_cnt : Z; rio_bufptr : nat; rio_buf : bytes }.

Definition rio_readinitb (rp : rio_t) (fd : Z) : rio_t := Rio fd 0 0 (rio_buf rp).

(** The refill loop of [rio_read]: [inl] when the function returns from it. *)
Fixpoint rio_refill (fuel : nat) (rp : rio_t) (w : world) : option (Z + unit) * rio_t * world :=
  match fuel with
  | O => (None, rp, w)
  | S fuel =>
      if rio_cnt rp <=? 0 then
        let '(nread, data, w') := sys_read RIO_BUFSIZE w in
        let buf := data ++ drop (length data) (rio_buf rp) in
        if nread <? 0 then
          let rp' := Rio (rio_fd rp) nread (rio_bufptr rp) buf in
          if errno w' =? EINTR then rio_refill fuel rp' w' else (Some (inl (-1)), rp', w')
        else if nread =? 0 then (Some (inl 0), Rio (rio_fd rp) nread (rio_bufptr rp) buf, w')
        else rio_refill fuel (Rio (rio_fd rp) nread 0 buf) w'
      else (Some (inr ()), rp, w)
  end.

(** [None]: out of fuel.  The comparison [rio_cnt < n] is of a positive count. *)
Definition rio_read (fuel : nat) (rp : rio_t) (n : nat) (w : world) : option (Z * bytes) * rio_t * world :=
  match rio_refill fuel rp w with
  | (None, rp', w') => (None, rp', w')
  | (Some (inl r), rp', w') => (Some (r, []), rp', w')
  | (Some (inr _), rp', w') =>
      let cnt := if rio_cnt rp' <? Z.of_nat n then Z.to_nat (rio_cnt rp') else n in
      let data := take cnt (drop (rio_bufptr rp') (rio_buf rp')) in
      (Some (Z.of_nat cnt, data),
       Rio (rio_fd rp') (rio_cnt rp' - Z.of_nat cnt) (rio_bufptr rp' + cnt) (rio_buf rp'), w')
  end.

(** [rio_readnb]: the result and what was stored in the user's buffer. *)
Fixpoint rio_readnb_loop (fuel n nleft : nat) (got : bytes) (rp : rio_t) (w : world) :
    option (Z * bytes) * rio_t * world :=
  match fuel with
  | O => (None, rp, w)
  | S fuel' =>
      if (nleft =? 0)%nat then (Some (Z.of_nat (n - nleft), got), rp, w)
      else
        match rio_read fuel rp nleft w with
        | (None, rp', w') => (None, rp', w')
        | (Some (nread, data), rp', w') =>
            if nread <? 0 then (Some (-1, got), rp', w')
            else if nread =? 0 then (Some (Z.of_nat (n - nleft), got), rp', w')
            else rio_readnb_loop fuel' n (nleft - Z.to_nat nread) (got ++ data) rp' w'
        end
  end.
Definition rio_readnb (fuel n : nat) (rp : rio_t) (w : world) := rio_readnb_loop fuel n n [] rp w.

(** [rio_readlineb]: [room] is [maxlen - n], the turns the loop may still
    take, [got] the [n - 1] bytes stored.  The result holds what the user's buffer
    starts with: the line and the null byte, or on an error or at the end of the
    stream the bytes stored without one. *)
Fixpoint rio_readlineb_loop (fuel room : nat) (got : bytes) (rp : rio_t) (w : world) :
    option (Z * bytes) * rio_t * world :=
  match room with
  | O => (Some (size got, got ++ ["000"%char]), rp, w)
  | S room =>
      match rio_read fuel rp 1 w with
      | (None, rp', w') => (None, rp', w')
      | (Some (rc, data), rp', w') =>
          if rc =? 1 then
            let got' := got ++ data in
            if bool_decide (data = [newline]) then (Some (size got', got' ++ ["000"%char]), rp', w')
            else rio_readlineb_loop fuel room got' rp' w'
          else if rc =? 0 then
            if size got =? 0 then (Some (0, []), rp', w')
            else (Some (size got, got ++ ["000"%char]), rp', w')
          else (Some (-1, got), rp', w')
      end
  end.
Definition rio_readlineb (fuel maxlen : nat) (rp : rio_t) (w : world) :=
  rio_readlineb_loop fuel (maxlen - 1) [] rp w.

(** ** Reference readers of a plain stream *)

(** The first line of [s], its newline included, cut after [room] bytes. *)
Fixpoint first_line (room : nat) (s : bytes) : bytes * bytes :=
  match room, s with
  | O, _ => ([], s)
  | _, [] => ([], [])
  | S room, c :: s =>
      if bool_decide (c = newline) then ([c], s)
      else let '(l, s') := first_line room s in (c :: l, s')
  end.

Inductive rio_op := ReadN (n : nat) | ReadLine (maxlen : nat).

Definition plain_op (o : rio_op) (s : bytes) : (Z * bytes) * bytes :=
  match o with
  | ReadN n => ((size (take n s), take n s), drop n s)
  | ReadLine maxlen =>
      let '(l, s') := first_line (maxlen - 1) s in
      if bool_decide (s = []) && (1 <? maxlen)%nat then ((0, []), s')
      else ((size l, l ++ ["000"%char]), s')
  end.
Fixpoint plain_run (os : list rio_op) (s : bytes) : list (Z * bytes) * bytes :=
  match os with
  | [] => ([], s)
  | o :: os => let '(r, s') := plain_op o s in let '(rs, s'') := plain_run os s' in (r :: rs, s'')
  end.

Definition rio_do (fuel : nat) (o : rio_op) (rp : rio_t) (w : world) :=
  match o with
  | ReadN n => rio_readnb fuel n rp w
  | ReadLine maxlen => rio_readlineb fuel maxlen rp w
  end.
Fixpoint rio_run (fuel : nat) (os : list rio_op) (rp : rio_t) (w : world) :
    option (list (Z * bytes)) * rio_t * world :=
  match os with
  | [] => (Some [], rp, w)
  | o :: os =>
      match rio_do fuel o rp w with
      | (None, rp', w') => (None, rp', w')
      | (Some r, rp', w') =>
          let '(rs, rp'', w'') := rio_run fuel os rp' w' in (cons r <$> rs, rp'', w'')
      end
  end.

(** ** Invariants *)

(** Interruptions only: what the Rio functions promise to survive. *)
Definition passes (a : answer) : Prop := match a with Moves _ => True | Fails e => e = EINTR end.
Definition patient (w : world) : Prop := Forall passes (answers w).

(** The unread bytes lie inside the buffer. *)
Definition rio_ok (rp : rio_t) : Prop :=
  length (rio_buf rp) = RIO_BUFSIZE ∧ (rio_bufptr rp + Z.to_nat (rio_cnt rp) ≤ RIO_BUFSIZE)%nat.
Definition unread (rp : rio_t) : bytes := take (Z.to_nat (rio_cnt rp)) (drop (rio_bufptr rp) (rio_buf rp)).
Definition stream (rp : rio_t) (w : world) : bytes := unread rp ++ inp w.

(** A successful read takes a non-empty prefix, unless the stream has ended. *)
Lemma sys_read_cases count w :
  (0 < count)%nat →
  (∃ e rest, answers w = Fails e :: rest ∧ sys_read count w = (-1, [], World (inp w) (out w) rest e)) ∨
  (∃ data w', sys_read count w = (size data, data, w') ∧ inp w = data ++ inp w' ∧
     (length data ≤ count)%nat ∧ (inp w ≠ [] → data ≠ []) ∧ out w' = out w ∧
     errno w' = errno w ∧ answers w' = tail (answers w)).
Proof.
  intros Hc. destruct w as [s o [|[k|e] rest] en]; unfold sys_read; cbn [answers inp out errno tail].
  - right. exists (take count s), (World (drop count s) o [] en). cbn. rewrite take_drop, length_take.
    split_and!; try done; [lia|]. destruct s, count; done || lia.
  - right. set (n := Nat.min count (Nat.max 1 k)).
    exists (take n s), (World (drop n s) o rest en). cbn. rewrite take_drop, length_take.
    split_and!; try done; [lia|]. assert (1 ≤ n)%nat by lia. destruct s, n; done || lia.
  - left. by exists e, rest.
Qed.

Lemma patient_tail w w' : patient w → answers w' = tail (answers w) → patient w'.
Proof. unfold patient. intros H ->. destruct (answers w); [done|]. by inversion H. Qed.

Lemma size_pos_neg (data : bytes) : (size data <? 0) = false.
Proof. apply Z.ltb_ge. unfold size. lia. Qed.
Lemma size_zero (data : bytes) : (size data =? 0) = bool_decide (data = []).
Proof. by destruct data. Qed.
Lemma to_nat_size (data : bytes) : Z.to_nat (size data) = length data.
Proof. unfold size. lia. Qed.

(** ** Unbuffered transfers *)

Lemma rio_readn_loop_spec fuel n nleft got w :
  patient w → (nleft ≤ n)%nat → (length (answers w) + nleft < fuel)%nat →
  ∃ w', rio_readn_loop fuel n nleft got w =
          Some (Z.of_nat (n - nleft + length (take nleft (inp w))), got ++ take nleft (inp w), w') ∧
        inp w' = drop nleft (inp w) ∧ out w' = out w ∧ patient w'.
Proof.
  revert nleft got w. induction fuel as [|fuel IH]; intros nleft got w Hp Hn Hf; [lia|].
  cbn [rio_readn_loop]. destruct (Nat.eqb_spec nleft 0) as [->|Hnz].
  { rewrite take_0, drop_0, app_nil_r, Nat.add_0_r. eauto 6. }
  destruct (sys_read_cases nleft w ltac:(lia))
    as [(e & rest & Ha & ->)|(data & w' & -> & Hi & Hl & Hne & Ho & He & Ha)].
  - assert (e = EINTR) as -> by (unfold patient in Hp; rewrite Ha in Hp; by inversion Hp).
    cbn [errno]. rewrite Z.eqb_refl. change (-1 <? 0) with true. cbn [negb].
    destruct (IH nleft got (World (inp w) (out w) rest EINTR)) as (w' & -> & H); cbn; [| |rewrite Ha in Hf; cbn in Hf; lia|by eauto].
    + unfold patient in *. rewrite Ha in Hp. by inversion Hp. 
    + done.
  - rewrite size_pos_neg, size_zero. case_bool_decide as Hd.
    { assert (inp w = []) as E by (destruct (inp w); [done|by destruct Hne]).
      rewrite E, take_nil, drop_nil, app_nil_r, Nat.add_0_r. subst data. exists w'. cbn in Hi. rewrite Hi in E.
      split_and!; eauto using patient_tail. }
    rewrite to_nat_size. assert (0 < length data)%nat by (destruct data; [done|cbn; lia]).
    destruct (IH (nleft - length data)%nat (got ++ data) w') as (w'' & -> & Hi' & Ho' & Hp'').
    + eauto using patient_tail.
    + lia.
    + rewrite Ha. destruct (answers w); cbn in *; lia.
    + exists w''. rewrite Hi. rewrite take_app_ge, drop_app_ge, length_app, <-app_assoc by lia.
      split_and!; [do 3 f_equal; lia|by rewrite Hi'|congruence|done].
Qed.

(** Robust reading: whatever way the kernel cuts and interrupts the transfer,
    [rio_readn] returns the first [n] bytes of the stream, or all of it if it is
    shorter, and leaves the rest in the kernel. *)
Theorem rio_readn_exact fuel n w :
  patient w → (length (answers w) + n < fuel)%nat →
  ∃ w', rio_readn fuel n w = Some (size (take n (inp w)), take n (inp w), w') ∧
        inp w' = drop n (inp w) ∧ out w' = out w.
Proof.
  intros Hp Hf. destruct (rio_readn_loop_spec fuel n n [] w) as (w' & E & H & ? & ?); [done..|].
  exists w'. unfold rio_readn. rewrite E. rewrite Nat.sub_diag. done.
Qed.
Lemma rio_readn_exact_witness :
  ∃ w', rio_readn 9 3 (World (lit "abcde") [] [Moves 1; Fails EINTR; Moves 7] 0) = Some (3, lit "abc", w') ∧
        inp w' = lit "de" ∧ out w' = [].
Proof.
  apply (rio_readn_exact 9 3 (World (lit "abcde") [] [Moves 1; Fails EINTR; Moves 7] 0)); [|cbn; lia].
  repeat constructor.
Defined.

(** A write moves a prefix; it returns 0 when that prefix is empty. *)
Lemma sys_write_cases buf w :
  buf ≠ [] →
  (∃ e rest, answers w = Fails e :: rest ∧ sys_write buf w = (-1, World (inp w) (out w) rest e)) ∨
  (∃ k w', sys_write buf w = (size (take k buf), w') ∧ out w' = out w ++ take k buf ∧
     inp w' = inp w ∧ errno w' = errno w ∧ answers w' = tail (answers w) ∧
     (head (answers w) = Some (Moves k) ∨ answers w = [] ∧ take k buf = buf)).
Proof.
  intros Hb. destruct w as [s o [|[k|e] rest] en]; unfold sys_write; cbn [answers inp out errno tail].
  - right. exists (length buf), (World s (o ++ buf) [] en). rewrite firstn_all. cbn. split_and!; eauto.
  - right. exists k, (World s (o ++ take k buf) rest en). cbn. split_and!; eauto.
  - left. by exists e, rest.
Qed.

(** The kernel of a blocking descriptor: a write that succeeds moves something. *)
Definition advances (a : answer) : Prop := match a with Moves k => (0 < k)%nat | Fails e => e = EINTR end.

Lemma rio_writen_loop_spec fuel n bufp w :
  Forall advances (answers w) → (length (answers w) + 1 < fuel)%nat →
  ∃ w', rio_writen_loop fuel n bufp w = Some (Z.of_nat n, w') ∧ out w' = out w ++ bufp ∧
        inp w' = inp w ∧ Forall advances (answers w').
Proof.
  revert bufp w. induction fuel as [|fuel IH]; intros bufp w Hp Hf; [lia|].
  cbn [rio_writen_loop]. destruct bufp as [|c bufp]; [exists w; by rewrite app_nil_r|].
  destruct (sys_write_cases (c :: bufp) w ltac:(done))
    as [(e & rest & Ha & ->)|(k & w' & -> & Ho & Hi & He & Ha & Hk)].
  - rewrite Ha in Hp, Hf. inversion Hp as [|?? He Hr]; subst. cbn in He; subst e. cbn in Hf.
    destruct (IH (c :: bufp) (World (inp w) (out w) rest EINTR)) as (w' & E & H); cbn; [done|lia|].
    exists w'. rewrite E. done.
  - assert (take k (c :: bufp) ≠ [] ∧ (answers w = [] → drop k (c :: bufp) = [])) as [Hne Hall].
    { destruct Hk as [Hk|[-> E]].
      - destruct (answers w) as [|a rest]; [done|]. injection Hk as ->. inversion Hp as [|?? Hk _]; subst.
        cbn in Hk. destruct k; [lia|]. done.
      - rewrite E. split; [done|]. intros _. apply (f_equal length) in E. rewrite length_take in E.
        apply drop_ge. lia. }
    destruct (size (take k (c :: bufp)) <=? 0) eqn:Hs.
    { apply Z.leb_le in Hs. unfold size in Hs. destruct (take k (c :: bufp)); [done|]. cbn in Hs. lia. }
    rewrite to_nat_size, drop_taken.
    destruct (answers w) as [|a rest] eqn:Ea.
    + rewrite Hall by done. destruct fuel; [cbn in Hf; lia|]. cbn. exists w'.
      split_and!; [done| |done|by rewrite Ha]. rewrite Ho. specialize (Hall eq_refl).
      rewrite <-(take_drop k (c :: bufp)) at 2. by rewrite Hall, app_nil_r.
    + destruct (IH (drop k (c :: bufp)) w') as (w'' & -> & Ho' & Hi' & Hp').
      * rewrite Ha. by inversion Hp.
      * rewrite Ha. cbn in *. lia.
      * exists w''. split_and!; [done| |congruence|done]. by rewrite Ho', Ho, <-app_assoc, take_drop.
Qed.

(** Whatever the kernel does, the result of [rio_writen] is the length of the buffer,
    all of it written, or -1 and a prefix is. *)
Lemma rio_writen_loop_result fuel n bufp w r w' :
  rio_writen_loop fuel n bufp w = Some (r, w') →
  r = Z.of_nat n ∧ out w' = out w ++ bufp ∨ r = -1 ∧ ∃ k, out w' = out w ++ take k bufp.
Proof.
  revert bufp w. induction fuel as [|fuel IH]; intros bufp w; cbn [rio_writen_loop]; [done|].
  destruct bufp as [|c bufp]; [intros [= <- <-]; left; by rewrite app_nil_r|].
  destruct (sys_write_cases (c :: bufp) w ltac:(done))
    as [(e & rest & Ha & ->)|(k & w1 & -> & Ho & Hi & He & Ha & Hk)].
  - change (-1 <=? 0) with true. cbn iota. destruct (_ =? _).
    + intros [[??]|[??]]%IH; auto.
    + intros [= <- <-]. right. split; [done|]. exists O. by rewrite take_0, app_nil_r.
  - destruct (size (take k (c :: bufp)) <=? 0) eqn:Hs.
    + apply Z.leb_le in Hs. assert (take k (c :: bufp) = []) as Ht.
      { unfold size in Hs. destruct (take k (c :: bufp)); [done|cbn in Hs; lia]. }
      rewrite Ht, app_nil_r in Ho. destruct (_ =? _).
      * rewrite <-Ho. apply IH.
      * intros [= <- <-]. right. split; [done|]. exists O. by rewrite take_0, app_nil_r.
    + rewrite to_nat_size, drop_taken.
      intros [[-> E]|[-> (k' & E)]]%IH.
      * left. split; [done|]. by rewrite E, Ho, <-app_assoc, take_drop.
      * right. split; [done|]. exists (k + k')%nat. rewrite E, Ho, <-app_assoc. f_equal.
        by rewrite take_take_drop.
Qed.

(** Robust writing: every byte is written, in order, whatever way the kernel cuts
    and interrupts the transfer. *)
Theorem rio_writen_exact fuel usrbuf w :
  Forall advances (answers w) → (length (answers w) + 1 < fuel)%nat →
  ∃ w', rio_writen fuel usrbuf w = Some (size usrbuf, w') ∧ out w' = out w ++ usrbuf ∧ inp w' = inp w.
Proof.
  intros Hp Hf. destruct (rio_writen_loop_spec fuel (length usrbuf) usrbuf w) as (w' & E & ? & ? & _);
    [done..|]. exists w'. done.
Qed.
Lemma rio_writen_exact_witness :
  ∃ w', rio_writen 9 (lit "hello") (World [] (lit ">") [Fails EINTR; Moves 2; Moves 1] 0) = Some (5, w') ∧
        out w' = lit ">hello" ∧ inp w' = [].
Proof.
  apply (rio_writen_exact 9 (lit "hello") (World [] (lit ">") [Fails EINTR; Moves 2; Moves 1] 0)); [|cbn; lia].
  repeat constructor.
Defined.

(** A write that returns 0 leaves [errno] alone, and [rio_writen] reads it: right
    after an interruption the same answer is taken for an interruption and tried
    again, without one it is reported as an error. *)
Theorem rio_writen_zero_reads_errno n c bufp k rest inp out errno fuel :
  rio_writen_loop (S fuel) n (c :: bufp) (World inp out (Moves 0 :: replicate k (Moves 0) ++ rest) errno) =
  if errno =? EINTR then rio_writen_loop fuel n (c :: bufp) (World inp out (replicate k (Moves 0) ++ rest) errno)
  else Some (-1, World inp out (replicate k (Moves 0) ++ rest) errno).
Proof. cbn [rio_writen_loop]. cbn. rewrite app_nil_r. done. Qed.

(** ** The buffered reader *)

Lemma rio_refill_spec fuel rp w :
  patient w → rio_ok rp → (length (answers w) + 1 < fuel)%nat →
  ∃ r rp' w', rio_refill fuel rp w = (Some r, rp', w') ∧ rio_ok rp' ∧ patient w' ∧
    stream rp' w' = stream rp w ∧ out w' = out w ∧ rio_fd rp' = rio_fd rp ∧
    (length (answers w') ≤ length (answers w))%nat ∧
    (r = inr () ∧ 0 < rio_cnt rp' ∨ r = inl 0 ∧ stream rp w = []).
Proof.
  revert rp w. induction fuel as [|fuel IH]; intros rp w Hp Hok Hf; [lia|].
  cbn [rio_refill]. destruct (Z.leb_spec (rio_cnt rp) 0) as [Hc|Hc]; [|by eauto 15].
  assert (stream rp w = inp w) as Hs.
  { unfold stream, unread. replace (Z.to_nat (rio_cnt rp)) with O by lia. by rewrite take_0. }
  destruct Hok as [Hlen Hptr].
  destruct (sys_read_cases RIO_BUFSIZE w ltac:(unfold RIO_BUFSIZE; lia))
    as [(e & rest & Ha & ->)|(data & w' & -> & Hi & Hl & Hne & Ho & He & Ha)].
  - unfold patient in Hp. rewrite Ha in Hp, Hf. inversion Hp as [|?? E Hr]; subst. cbn in E; subst e.
    change (-1 <? 0) with true. cbn [errno length app]. rewrite drop_0, Z.eqb_refl.
    destruct (IH (Rio (rio_fd rp) (-1) (rio_bufptr rp) (rio_buf rp)) (World (inp w) (out w) rest EINTR))
      as (r & rp' & w' & -> & H1 & H2 & H3 & H4 & H5 & H6 & H7); cbn in *; [done| |lia|].
    { split; cbn; [done|lia]. }
    exists r, rp', w'. rewrite Ha, Hs. unfold stream, unread in H3, H7. cbn in *.
    do 7 (split; [done || lia|]). done.
  - rewrite size_pos_neg, size_zero.
    assert (length (data ++ drop (length data) (rio_buf rp)) = RIO_BUFSIZE) as Hlen'
      by (rewrite length_app, length_drop; lia).
    assert (length (answers w') ≤ length (answers w))%nat by (rewrite Ha; destruct (answers w); cbn; lia).
    case_bool_decide as Hd.
    + subst data. assert (inp w = []) as E by (destruct (inp w); [done|by destruct Hne]).
      eexists _, _, _. split; [done|]. split; [split; cbn [rio_cnt rio_bufptr rio_buf]; [done|rewrite to_nat_size; cbn [length]; clear -Hptr; lia]|].

      split; [eauto using patient_tail|]. rewrite Hs, E. unfold stream, unread. cbn. rewrite Hi in E. cbn in E.
      rewrite E. do 4 (split; [done|]). by right.
    + assert (0 < size data) by (unfold size; destruct data; [done|cbn; lia]).
      destruct fuel as [|fuel]; [lia|]. cbn [rio_refill rio_cnt].
      destruct (Z.leb_spec (size data) 0); [lia|].
      eexists _, _, _. split; [done|]. split; [split; cbn; [done|rewrite to_nat_size; lia]|].
      split; [eauto using patient_tail|]. rewrite Hs, Hi. unfold stream, unread. cbn [rio_cnt rio_bufptr rio_buf].
      rewrite to_nat_size, drop_0, take_app_length. do 4 (split; [done|]). by left.
Qed.

(** One [rio_read]: a non-empty prefix of the stream, at most [n] bytes. *)
Lemma rio_read_spec fuel rp n w :
  (0 < n)%nat → patient w → rio_ok rp → (length (answers w) + 1 < fuel)%nat →
  ∃ data rp' w', rio_read fuel rp n w = (Some (size data, data), rp', w') ∧ rio_ok rp' ∧ patient w' ∧
    stream rp w = data ++ stream rp' w' ∧ (length data ≤ n)%nat ∧ (stream rp w ≠ [] → data ≠ []) ∧
    (length (answers w') ≤ length (answers w))%nat ∧ out w' = out w ∧ rio_fd rp' = rio_fd rp.
Proof.
  intros Hn Hp Hok Hf. unfold rio_read.
  destruct (rio_refill_spec fuel rp w Hp Hok Hf)
    as (r & rp' & w' & -> & [Hlen Hptr] & Hp' & Hs & Ho & Hfd & Hl & [[-> Hc]|[-> He]]).
  - set (cnt := if _ : bool then _ else _).
    assert (0 < cnt ≤ n ∧ cnt ≤ Z.to_nat (rio_cnt rp'))%nat as [[Hc1 Hc2] Hc3]
      by (subst cnt; destruct (Z.ltb_spec (rio_cnt rp') (Z.of_nat n)); lia).
    set (data := take cnt _).
    assert (length data = cnt) as Hd by (subst data; rewrite length_take, length_drop; lia).
    eexists data, _, w'. split; [unfold size; by rewrite Hd|].
    split; [split; cbn; [done|lia]|]. split; [done|]. split.
    { rewrite <-Hs. unfold stream, unread. cbn [rio_cnt rio_bufptr rio_buf]. rewrite app_assoc. f_equal.
      rewrite Nat.add_comm, <-drop_drop. subst data.
      replace (Z.to_nat (rio_cnt rp' - Z.of_nat cnt)) with (Z.to_nat (rio_cnt rp') - cnt)%nat by lia.
      rewrite <-(take_drop cnt (take (Z.to_nat (rio_cnt rp')) (drop (rio_bufptr rp') (rio_buf rp')))).
      rewrite take_take, Nat.min_l by lia. f_equal. rewrite skipn_firstn_comm, !drop_drop. by rewrite Nat.add_comm. }
    split; [lia|]. split; [intros _ ->; cbn in Hd; lia|]. done.
  - exists [], rp', w'. split; [done|]. split; [done|]. split; [done|]. rewrite Hs, He.
    split; [done|]. split; [cbn; lia|]. done.
Qed.

Lemma rio_readnb_loop_spec fuel n nleft got rp w :
  patient w → rio_ok rp → (nleft ≤ n)%nat → (length (answers w) + nleft + 1 < fuel)%nat →
  ∃ rp' w', rio_readnb_loop fuel n nleft got rp w =
      (Some (Z.of_nat (n - nleft + length (take nleft (stream rp w))), got ++ take nleft (stream rp w)), rp', w') ∧
    rio_ok rp' ∧ patient w' ∧ stream rp' w' = drop nleft (stream rp w) ∧
    (length (answers w') ≤ length (answers w))%nat.
Proof.
  revert nleft got rp w. induction fuel as [|fuel IH]; intros nleft got rp w Hp Hok Hn Hf; [lia|].
  cbn [rio_readnb_loop]. destruct (Nat.eqb_spec nleft 0) as [->|Hnz].
  { rewrite take_0, drop_0, app_nil_r, Nat.add_0_r. eauto 8. }
  destruct (rio_read_spec (S fuel) rp nleft w) as
    (data & rp' & w' & -> & Hok' & Hp' & Hs & Hl & Hne & Ha & _); [lia|done..|lia|].
  rewrite size_pos_neg, size_zero. case_bool_decide as Hd.
  { assert (stream rp w = []) as E by (destruct (stream rp w); [done|by destruct Hne]).
    rewrite E, take_nil, drop_nil, app_nil_r, Nat.add_0_r. subst data. cbn in Hs. rewrite Hs in E. eauto 8. }
  rewrite to_nat_size. assert (0 < length data)%nat by (destruct data; [done|cbn; lia]).
  destruct (IH (nleft - length data)%nat (got ++ data) rp' w') as (rp'' & w'' & -> & Ho & Hp2 & Hs2 & Ha2);
    [done..|lia|lia|].
  exists rp'', w''. rewrite Hs. rewrite take_app_ge, drop_app_ge, length_app, <-app_assoc by lia.
  split; [do 4 f_equal; lia|]. do 3 (split; [done|]). lia.
Qed.

(** [rio_readlineb] reads the first line of the stream. *)
Lemma rio_readlineb_loop_spec fuel room got rp w :
  patient w → rio_ok rp → (length (answers w) + 1 < fuel)%nat →
  ∃ rp' w', rio_readlineb_loop fuel room got rp w =
      (Some (if bool_decide (stream rp w = []) && (0 <? room)%nat && (size got =? 0) then (0, [])
             else (size (got ++ (first_line room (stream rp w)).1),
                   (got ++ (first_line room (stream rp w)).1) ++ ["000"%char])), rp', w') ∧
    rio_ok rp' ∧ patient w' ∧ stream rp' w' = (first_line room (stream rp w)).2 ∧
    (length (answers w') ≤ length (answers w))%nat.
Proof.
  revert got rp w. induction room as [|room IH]; intros got rp w Hp Hok Hf; cbn [rio_readlineb_loop].
  { rewrite andb_false_r. cbn. rewrite app_nil_r. eauto 8. }
  destruct (rio_read_spec fuel rp 1 w) as
    (data & rp' & w' & -> & Hok' & Hp' & Hs & Hl & Hne & Ha & _); [lia|done..|].
  rewrite Hs. destruct data as [|c [|c' data]]; [| |cbn in Hl; lia].
  - assert (stream rp w = []) as E by (destruct (stream rp w); [done|by destruct Hne]).
    rewrite E in Hs. cbn in Hs. rewrite <-Hs. cbn.
    destruct (size got =? 0); [eauto 8|]. rewrite app_nil_r. eauto 8.
  - change (size [c] =? 1) with true. cbn iota. cbn [app first_line].
    rewrite (bool_decide_ext ([c] = [newline]) (c = newline)) by (split; congruence).
    rewrite (bool_decide_false (c :: stream rp' w' = [])) by done. cbn [andb].
    case_bool_decide as Hc; [by eauto 8|].
    destruct (IH (got ++ [c]) rp' w') as (rp'' & w'' & -> & H1 & H2 & H3 & H4); [done..|lia|].
    exists rp'', w''. rewrite (proj2 (Z.eqb_neq (size (got ++ [c])) 0))
      by (unfold size; rewrite length_app; cbn; lia).
    rewrite andb_false_r. destruct (first_line room (stream rp' w')) as [l s']; cbn in *.
    rewrite <-app_assoc. do 4 (split; [done|]). lia.
Qed.

Lemma rio_do_spec fuel o rp w :
  patient w → rio_ok rp →
  (length (answers w) + match o with ReadN n => n | _ => 0 end + 1 < fuel)%nat →
  ∃ rp' w', rio_do fuel o rp w = (Some (plain_op o (stream rp w)).1, rp', w') ∧
    rio_ok rp' ∧ patient w' ∧ stream rp' w' = (plain_op o (stream rp w)).2 ∧
    (length (answers w') ≤ length (answers w))%nat.
Proof.
  intros Hp Hok Hf. destruct o as [n|maxlen]; cbn [rio_do plain_op].
  - destruct (rio_readnb_loop_spec fuel n n [] rp w) as (rp' & w' & E & H); [done..|].
    exists rp', w'. unfold rio_readnb. rewrite E, Nat.sub_diag. done.
  - destruct (rio_readlineb_loop_spec fuel (maxlen - 1) [] rp w) as (rp' & w' & E & H); [done|done|lia|].
    exists rp', w'. unfold rio_readlineb. rewrite E. change (size [] =? 0) with true.
    rewrite andb_true_r. cbn [app].
    assert ((0 <? maxlen - 1)%nat = (1 <? maxlen)%nat) as ->
      by (destruct (Nat.ltb_spec 0 (maxlen - 1)), (Nat.ltb_spec 1 maxlen); lia).
    destruct (first_line (maxlen - 1) (stream rp w)) as [l s'] eqn:El. cbn [fst snd] in *.
    destruct H as (H1 & H2 & H3 & H4). by destruct (bool_decide (stream rp w = []) && (1 <? maxlen)%nat).
Qed.

Lemma rio_run_spec fuel os rp w :
  patient w → rio_ok rp →
  Forall (λ o, (length (answers w) + match o with ReadN n => n | _ => 0 end + 1 < fuel)%nat) os →
  ∃ rp' w', rio_run fuel os rp w = (Some (plain_run os (stream rp w)).1, rp', w') ∧
            stream rp' w' = (plain_run os (stream rp w)).2.
Proof.
  revert rp w. induction os as [|o os IH]; intros rp w Hp Hok Hf; cbn [rio_run plain_run]; [eauto|].
  inversion Hf as [|?? Ho Hos]; subst.
  destruct (rio_do_spec fuel o rp w) as (rp' & w' & -> & Hok' & Hp' & Hs & Ha); [done..|].
  destruct (IH rp' w') as (rp'' & w'' & E & Hs'); [done..| |].
  { eapply Forall_impl; [exact Hos|]. intros o' ?. cbn. destruct o'; lia. }
  exists rp'', w''. rewrite E. rewrite Hs in Hs' |- *.
  destruct (plain_op o (stream rp w)) as [r s']. cbn in *. by destruct (plain_run os s').
Qed.

(** C21. Any mixture of buffered reads of blocks and lines, under any cutting and
    interrupting of the kernel's transfers, answers what the reference readers
    answer on the plain stream, and leaves the same bytes to be read. *)
Theorem rio_refines_stream fuel os rp w :
  patient w → rio_ok rp →
  Forall (λ o, (length (answers w) + match o with ReadN n => n | _ => 0 end + 1 < fuel)%nat) os →
  ∃ rp' w', rio_run fuel os rp w = (Some (plain_run os (stream rp w)).1, rp', w') ∧
            stream rp' w' = (plain_run os (stream rp w)).2.
Proof. apply rio_run_spec. Qed.
Lemma rio_refines_stream_witness :
  ∃ rp' w', rio_run 20 [ReadLine 80; ReadN 2; ReadLine 3; ReadLine 80]
      (rio_readinitb (Rio 0 0 0 (replicate RIO_BUFSIZE "000"%char)) 4)
      (World (lit "a" ++ [newline] ++ lit "bcdefg") [] [Moves 1; Fails EINTR; Moves 3] 0) =
    (Some [(2, [ "a"%char; newline; "000"%char ]); (2, lit "bc"); (2, lit "de" ++ ["000"%char]);
           (2, lit "fg" ++ ["000"%char])], rp', w') ∧ stream rp' w' = [].
Proof.
  apply (rio_refines_stream 20 [ReadLine 80; ReadN 2; ReadLine 3; ReadLine 80]
    (rio_readinitb (Rio 0 0 0 (replicate RIO_BUFSIZE "000"%char)) 4)
    (World (lit "a" ++ [newline] ++ lit "bcdefg") [] [Moves 1; Fails EINTR; Moves 3] 0)).
  - repeat constructor.
  - split; [apply length_replicate|cbn; unfold RIO_BUFSIZE; lia].
  - repeat constructor; cbn; lia.
Defined.

(** ** Failing reads *)

Lemma rio_refill_any fuel rp w r rp' w' :
  rio_ok rp → rio_refill fuel rp w = (Some r, rp', w') →
  rio_ok rp' ∧ stream rp' w' = stream rp w ∧ (r = inr () ∧ 0 < rio_cnt rp' ∨ r = inl 0 ∨ r = inl (-1)).
Proof.
  revert rp w. induction fuel as [|fuel IH]; intros rp w [Hlen Hptr]; cbn [rio_refill]; [done|].
  destruct (Z.leb_spec (rio_cnt rp) 0) as [Hc|Hc].
  2: { intros [= <- <- <-]. split; [done|]. split; [done|]. by left. }
  assert (∀ c b, c <= 0 → stream (Rio (rio_fd rp) c (rio_bufptr rp) b) w = stream rp w) as Hs.
  { intros c b ?. unfold stream, unread. cbn.
    replace (Z.to_nat (rio_cnt rp)) with O by lia. replace (Z.to_nat c) with O by lia. done. }
  destruct (sys_read_cases RIO_BUFSIZE w ltac:(unfold RIO_BUFSIZE; lia))
    as [(e & rest & Ha & ->)|(data & w1 & -> & Hi & Hl & Hne & Ho & He & Ha)].
  - change (-1 <? 0) with true. cbn [errno length app]. rewrite drop_0.
    assert (rio_ok (Rio (rio_fd rp) (-1) (rio_bufptr rp) (rio_buf rp))) as Hok by (split; cbn; [done|lia]).
    destruct (e =? EINTR).
    + intros (H1 & H2 & H3)%IH; [|done]. rewrite H2. split; [done|]. split; [by apply Hs|done].
    + intros [= <- <- <-]. split; [done|]. split; [by apply Hs|]. auto.
  - rewrite size_pos_neg, size_zero.
    assert (length (data ++ drop (length data) (rio_buf rp)) = RIO_BUFSIZE) as Hlen'
      by (rewrite length_app, length_drop; lia).
    case_bool_decide as Hd.
    + intros [= <- <- <-]. subst data.
      split; [split; cbn [rio_cnt rio_bufptr rio_buf]; [done|rewrite to_nat_size; cbn [length]; clear -Hptr; lia]|].
      split; [|auto]. rewrite <-(Hs (size []) (rio_buf rp)) by done. unfold stream, unread. cbn. by rewrite Hi.
    + intros (H1 & H2 & H3)%IH; [|split; cbn [rio_cnt rio_bufptr rio_buf]; [done|rewrite to_nat_size; clear -Hl; lia]].
      rewrite H2. split; [done|]. split; [|done]. rewrite <-(Hs 0 []) by lia.
      unfold stream, unread. cbn [rio_cnt rio_bufptr rio_buf].
      by rewrite to_nat_size, drop_0, take_app_length, Hi.
Qed.

Lemma rio_read_any fuel rp n w r data rp' w' :
  rio_ok rp → rio_read fuel rp n w = (Some (r, data), rp', w') →
  rio_ok rp' ∧ stream rp w = data ++ stream rp' w' ∧ (r = size data ∨ r = -1 ∧ data = []).
Proof.
  intros Hok. unfold rio_read. destruct (rio_refill fuel rp w) as [[[o|] rp1] w1] eqn:E; [|done].
  apply rio_refill_any in E as ([Hlen Hptr] & Hs & [[-> Hc]|Hr]); [| |done].
  - intros [= <- <- <- <-].
    set (cnt := if _ : bool then _ else _). set (d := take cnt _).
    assert (cnt ≤ Z.to_nat (rio_cnt rp1))%nat
      by (subst cnt; destruct (Z.ltb_spec (rio_cnt rp1) (Z.of_nat n)); lia).
    assert (length d = cnt) as Hd by (subst d; rewrite length_take, length_drop; lia).
    split; [split; cbn; [done|lia]|]. split; [|left; unfold size; by rewrite Hd].
    rewrite <-Hs. unfold stream, unread. cbn [rio_cnt rio_bufptr rio_buf]. rewrite app_assoc. f_equal.
    subst d. replace (Z.to_nat (rio_cnt rp1 - Z.of_nat cnt)) with (Z.to_nat (rio_cnt rp1) - cnt)%nat by lia.
    rewrite <-(take_drop cnt (take (Z.to_nat (rio_cnt rp1)) (drop (rio_bufptr rp1) (rio_buf rp1)))).
    rewrite take_take, Nat.min_l by lia. f_equal. by rewrite skipn_firstn_comm, drop_drop.
  - destruct Hr as [-> | ->]; intros [= <- <- <- <-]; (split; [done|]; split; [by rewrite Hs|auto]).
Qed.

Lemma rio_readnb_loop_any fuel n nleft pre s rp w r got rp' w' :
  rio_ok rp → s = pre ++ stream rp w → n = (length pre + nleft)%nat →
  rio_readnb_loop fuel n nleft pre rp w = (Some (r, got), rp', w') →
  rio_ok rp' ∧ s = got ++ stream rp' w' ∧ (length got ≤ n)%nat ∧ (r = size got ∨ r = -1).
Proof.
  revert rp w nleft pre. induction fuel as [|fuel IH]; intros rp w nleft pre Hok Hs Hn;
    cbn [rio_readnb_loop]; [done|].
  destruct (Nat.eqb_spec nleft 0) as [->|Hnz].
  { intros [= <- <- <- <-]. split; [done|]. split; [done|]. split; [lia|]. left. unfold size. lia. }
  destruct (rio_read (S fuel) rp nleft w) as [[[[nread data]|] rp1] w1] eqn:E; [|done].
  assert (length data ≤ nleft)%nat as Hl.
  { unfold rio_read in E. destruct (rio_refill (S fuel) rp w) as [[[[x|[]]|] rp2] w2]; simplify_eq; [cbn; lia|].
    rewrite length_take. destruct (Z.ltb_spec (rio_cnt rp2) (Z.of_nat nleft)); lia. }
  apply rio_read_any in E as (Hok1 & Hs1 & Hr); [|done]. rewrite Hs1, app_assoc in Hs.
  destruct Hr as [-> | [-> ->]].
  - rewrite size_pos_neg, size_zero. case_bool_decide as Hd.
    + subst data. rewrite app_nil_r in Hs. intros [= <- <- <- <-]. split; [done|].
      split; [done|]. split; [lia|]. left. unfold size. lia.
    + rewrite to_nat_size. intros H. eapply IH in H; [exact H|done|done|]. rewrite length_app. lia.
  - change (-1 <? 0) with true. rewrite app_nil_r in Hs. intros [= <- <- <- <-].
    split; [done|]. split; [done|]. split; [lia|]. by right.
Qed.

(** Whatever the kernel answers, errors included, [rio_readnb] stores the bytes
    that come next and the reader goes on behind them; but after an error it
    returns -1 and not their number. *)
Theorem rio_readnb_error_resumes fuel n rp w r got rp' w' :
  rio_ok rp → rio_readnb fuel n rp w = (Some (r, got), rp', w') →
  rio_ok rp' ∧ stream rp w = got ++ stream rp' w' ∧ (length got ≤ n)%nat ∧ (r = size got ∨ r = -1).
Proof. intros Hok. by apply rio_readnb_loop_any. Qed.
Lemma rio_readnb_error_resumes_witness :
  let rp := Rio 4 0 0 (replicate RIO_BUFSIZE "000"%char) in
  let w := World (lit "abcdef") [] [Moves 2; Fails 104] 0 in
  ∃ rp' w', rio_readnb 9 5 rp w = (Some (-1, lit "ab"), rp', w') ∧
    rio_ok rp' ∧ stream rp w = lit "ab" ++ stream rp' w' ∧ (2 ≤ 5)%nat ∧ (-1 = 2 ∨ -1 = -1).
Proof.
  intros rp w. eexists _, _. split; [by vm_compute|].
  apply (rio_readnb_error_resumes 9 5 rp w); [|by vm_compute].
  split; [apply length_replicate|cbn; unfold RIO_BUFSIZE; lia].
Defined.

(** ** Lines over a connection *)

Definition line_bytes (l : bytes) : bytes := l ++ [newline].

Lemma first_line_full room l s :
  newline ∉ l → (length l < room)%nat → first_line room (line_bytes l ++ s) = (line_bytes l, s).
Proof.
  unfold line_bytes. revert room. induction l as [|c l IH]; intros [|room] Hn Hr; cbn in *; try lia.
  - done.
  - apply not_elem_of_cons in Hn as [Hc Hn]. rewrite bool_decide_false by done.
    by rewrite IH by (done || lia).
Qed.

Lemma plain_lines maxlen ls s :
  Forall (λ l, (newline ∉ l) ∧ length l + 1 < maxlen)%nat ls →
  plain_run ((λ _, ReadLine maxlen) <$> ls) (concat (line_bytes <$> ls) ++ s) =
  ((λ l, (size (line_bytes l), line_bytes l ++ ["000"%char])) <$> ls, s).
Proof.
  induction 1 as [|l ls [Hn Hl] _ IH]; [done|]. cbn [fmap list_fmap concat plain_run plain_op].
  rewrite <-app_assoc, first_line_full by (done || lia).
  rewrite (bool_decide_false (line_bytes l ++ _ = [])) by (unfold line_bytes; destruct l; done).
  cbn [andb]. change (list_fmap _ _ ?f ?x) with (f <$> x). by rewrite IH.
Qed.

(** Lines written with one [rio_writen] over a connection that cuts and interrupts
    the transfers of both sides are read back by [rio_readlineb], one per call, each
    with its newline and a null byte, provided they fit the buffer. *)
Theorem rio_lines_roundtrip ls maxlen w fuel rp as_ en :
  Forall (λ l, (newline ∉ l) ∧ length l + 1 < maxlen)%nat ls →
  out w = [] → Forall advances (answers w) → (length (answers w) + 1 < fuel)%nat →
  unread rp = [] → rio_ok rp → Forall passes as_ → (length as_ + 1 < fuel)%nat →
  ∃ w1 rp' w2,
    rio_writen fuel (concat (line_bytes <$> ls)) w = Some (size (concat (line_bytes <$> ls)), w1) ∧
    rio_run fuel ((λ _, ReadLine maxlen) <$> ls) rp (World (out w1) [] as_ en) =
      (Some ((λ l, (size (line_bytes l), line_bytes l ++ ["000"%char])) <$> ls), rp', w2) ∧
    stream rp' w2 = [].
Proof.
  intros Hls Ho Hw Hf Hu Hok Has Hf'.
  destruct (rio_writen_loop_spec fuel (length (concat (line_bytes <$> ls))) (concat (line_bytes <$> ls)) w)
    as (w1 & E1 & Ho1 & _); [done..|].
  assert (stream rp (World (out w1) [] as_ en) = concat (line_bytes <$> ls) ++ []) as Hs.
  { unfold stream. by rewrite Hu, app_nil_r, Ho1, Ho. }
  pose proof (plain_lines maxlen ls [] Hls) as Hp. rewrite <-Hs in Hp.
  destruct (rio_run_spec fuel ((λ _, ReadLine maxlen) <$> ls) rp (World (out w1) [] as_ en))
    as (rp' & w2 & E2 & Hs2); [done..| |].
  { apply Forall_fmap, Forall_true. intros. cbn. lia. }
  exists w1, rp', w2. rewrite E2, Hs2, Hp. done.
Qed.
Lemma rio_lines_roundtrip_witness :
  let ls := [lit "hello"; []; lit "bye"] in
  let rp := Rio 4 0 0 (replicate RIO_BUFSIZE "000"%char) in
  ∃ w1 rp' w2,
    rio_writen 9 (concat (line_bytes <$> ls)) (World [] [] [Moves 3; Fails EINTR] 0) = Some (11, w1) ∧
    rio_run 9 ((λ _, ReadLine 80) <$> ls) rp (World (out w1) [] [Moves 1; Moves 2; Fails EINTR; Moves 4] 0) =
      (Some ((λ l, (size (line_bytes l), line_bytes l ++ ["000"%char])) <$> ls), rp', w2) ∧
    stream rp' w2 = [].
Proof.
  intros ls rp.
  apply (rio_lines_roundtrip ls 80 (World [] [] [Moves 3; Fails EINTR] 0) 9 rp
           [Moves 1; Moves 2; Fails EINTR; Moves 4] 0).
  - repeat constructor; cbn; try lia; apply (bool_decide_unpack _); by vm_compute.
  - done.
  - repeat constructor.
  - cbn; lia.
  - done.
  - split; [apply length_replicate|cbn; unfold RIO_BUFSIZE; lia].
  - repeat constructor.
  - cbn; lia.
Defined.

(** The buffer of [rio_readlineb] holds at most [maxlen] bytes, the null byte
    included, unless [maxlen] is 0: then one byte is stored all the same. *)
Theorem rio_readlineb_bounds fuel maxlen rp w r stored rp' w' :
  patient w → rio_ok rp → (length (answers w) + 1 < fuel)%nat →
  rio_readlineb fuel maxlen rp w = (Some (r, stored), rp', w') →
  (length stored ≤ Nat.max 1 maxlen)%nat ∧ (maxlen = 0%nat → length stored = 1%nat) ∧
  (maxlen = 1%nat → r = 0).
Proof.
  intros Hp Hok Hf E.
  destruct (rio_do_spec fuel (ReadLine maxlen) rp w) as (rp1 & w1 & E1 & _); [done..|lia|].
  cbn [rio_do] in E1. rewrite E in E1. injection E1 as E1 _ _.
  assert (length (first_line (maxlen - 1) (stream rp w)).1 ≤ maxlen - 1)%nat as Hl.
  { generalize (maxlen - 1)%nat (stream rp w). clear. induction n as [|n IH]; intros [|c s]; cbn; try lia.
    case_bool_decide; cbn; [lia|]. specialize (IH s). destruct (first_line n s); cbn in *; lia. }
  cbn [plain_op] in E1. destruct (first_line (maxlen - 1) (stream rp w)) as [l s'] eqn:El. cbn [fst] in *.
  destruct (bool_decide (stream rp w = []) && (1 <? maxlen)%nat) eqn:Hb; cbn [fst] in E1;
    injection E1 as -> ->.
  - apply andb_prop in Hb as [_ Hb%Nat.ltb_lt]. cbn. lia.
  - rewrite length_app. cbn [length]. split; [lia|]. split.
    + intros ->. destruct l; [done|cbn in Hl; lia].
    + intros ->. destruct l; [done|cbn in Hl; lia].
Qed.
Lemma rio_readlineb_bounds_witness :
  let rp := Rio 4 0 0 (replicate RIO_BUFSIZE "000"%char) in
  let w := World (lit "abcdef") [] [Moves 2] 0 in
  ∃ rp' w', rio_readlineb 9 1 rp w = (Some (0, ["000"%char]), rp', w') ∧
    (1 ≤ Nat.max 1 1)%nat ∧ (1 = 0 → 1 = 1)%nat ∧ (1%nat = 1%nat → 0 = 0).
Proof.
  intros rp w. eexists _, _. split; [by vm_compute|].
  apply (rio_readlineb_bounds 9 1 rp w 0 ["000"%char] rp w); [repeat constructor| |cbn; lia|by vm_compute].
  split; [apply length_replicate|cbn; unfold RIO_BUFSIZE; lia].
Defined.
