(* ===== verification/Csapp.v ===== *)
(** * The wrappers of csapp.c: calls that end the process when they fail

    Every wrapper calls one function of the system, compares its result with the
    value that means failure, and either returns it or prints a message and calls
    [exit].  The functions of the system are the argument [k], their result;
    pointers are addresses with [NULL] = 0.  [Open_clientfd] and [Open_listenfd]
    wrap the two helpers that set up a socket, modelled with the set of open
    descriptors. *)

From stdpp Require Import base list gmap strings.
From Stdlib Require Import ZArith Lia Ascii.
From S2P Require Import Prelude CxxString NetBytes Rio.

Local Open Scope Z_scope.

(** What a wrapper does: return, or print to stderr and leave with a status. *)
Inductive effect (A : Type) := Returns (a : A) | Exits (status : Z) (stderr : bytes).
Arguments Returns {A}. Arguments Exits {A}.

Definition NULL : Z := 0.
Definition MAP_FAILED : Z := -1.
Definition EOF : Z := -1.

Section Wrappers.
Variable strerror : Z → bytes.
(** A number printed with [%d]. *)
Variable show : Z → bytes.

Definition unix_error {A} (msg : string) (errno : Z) : effect A :=
  Exits 0 (lit msg ++ lit ": " ++ strerror errno ++ [newline]).
Definition posix_error {A} (code : Z) (msg : string) : effect A :=
  Exits 0 (lit msg ++ lit ": " ++ strerror code ++ [newline]).
Definition dns_error {A} (msg : string) (h_errno : Z) : effect A :=
  Exits 0 (lit msg ++ lit ": DNS error " ++ show h_errno ++ [newline]).
Definition app_error {A} (msg : string) : effect A := Exits 0 (lit msg ++ [newline]).

(** The shape most wrappers have: [if ((rc = f(..)) < 0) unix_error(msg); return rc;] *)
Definition negative_fails (msg : string) (k errno : Z) : effect Z :=
  if k <? 0 then unix_error msg errno else Returns k.
Definition null_fails (msg : string) (k errno : Z) : effect Z :=
  if k =? NULL then unix_error msg errno else Returns k.
Definition nonzero_fails (msg : string) (k : Z) : effect Z :=
  if negb (k =? 0) then posix_error k msg else Returns k.

(** Process control and signals *)
Definition Fork := negative_fails "Fork error".
Definition Execve := negative_fails "Execve error".
Definition Wait := negative_fails "Wait error".
Definition Waitpid := negative_fails "Waitpid error".
Definition Kill := negative_fails "Kill error".
Definition Setpgid := negative_fails "Setpgid error".
Definition Getpgrp (k : Z) : effect Z := Returns k.
(** [rc] is unsigned: the comparison [rc < 0] is of a number that has wrapped. *)
Definition Sleep (k errno : Z) : effect Z :=
  let rc := k mod 2 ^ 32 in if rc <? 0 then unix_error "Sleep error" errno else Returns rc.
Definition Alarm (k : Z) : effect Z := Returns (k mod 2 ^ 32).
(** [sigaction] gives a result and the old handler. *)
Definition Signal (k old_handler errno : Z) : effect Z :=
  if k <? 0 then unix_error "Signal error" errno else Returns old_handler.
Definition Sigprocmask := negative_fails "Sigprocmask error".
Definition Sigemptyset := negative_fails "Sigemptyset error".
Definition Sigfillset := negative_fails "Sigfillset error".
Definition Sigaddset := negative_fails "Sigaddset error".
Definition Sigdelset := negative_fails "Sigdelset error".
Definition Sigismember := negative_fails "Sigismember error".

(** Files and memory *)
Definition Open := negative_fails "Open error".
Definition Read := negative_fails "Read error".
Definition Write := negative_fails "Write error".
Definition Lseek := negative_fails "Lseek error".
Definition Close := negative_fails "Close error".
Definition Select := negative_fails "Select error".
Definition Dup2 := negative_fails "Dup2 error".
Definition Stat := negative_fails "Stat error".
Definition Fstat := negative_fails "Fstat error".
Definition Mmap (k errno : Z) : effect Z :=
  if k =? MAP_FAILED then unix_error "mmap error" errno else Returns k.
Definition Munmap := negative_fails "munmap error".
Definition Malloc := null_fails "Malloc error".
Definition Realloc := null_fails "Realloc error".
Definition Calloc := null_fails "Calloc error".

(** Standard I/O; [ferror] is the stream's error flag after the call. *)
Definition Fclose (k errno : Z) : effect Z :=
  if negb (k =? 0) then unix_error "Fclose error" errno else Returns k.
Definition Fdopen := null_fails "Fdopen error".
Definition Fgets (k : Z) (ferror : bool) : effect Z :=
  if (k =? NULL) && ferror then app_error "Fgets error" else Returns k.
Definition Fopen := null_fails "Fopen error".
Definition Fputs (k errno : Z) : effect Z :=
  if k =? EOF then unix_error "Fputs error" errno else Returns k.
Definition Fread (nmemb k : Z) (ferror : bool) (errno : Z) : effect Z :=
  if (k <? nmemb) && ferror then unix_error "Fread error" errno else Returns k.
Definition Fwrite (nmemb k errno : Z) : effect Z :=
  if k <? nmemb then unix_error "Fwrite error" errno else Returns k.

(** Sockets and names *)
Definition Socket := negative_fails "Socket error".
Definition Setsockopt := negative_fails "Setsockopt error".
Definition Bind := negative_fails "Bind error".
Definition Listen := negative_fails "Listen error".
Definition Accept := negative_fails "Accept error".
Definition Connect := negative_fails "Connect error".
Definition Gethostbyname (k h_errno : Z) : effect Z :=
  if k =? NULL then dns_error "Gethostbyname error" h_errno else Returns k.
Definition Gethostbyaddr (k h_errno : Z) : effect Z :=
  if k =? NULL then dns_error "Gethostbyaddr error" h_errno else Returns k.

(** Threads and semaphores *)
Definition Pthread_create := nonzero_fails "Pthread_create error".
Definition Pthread_cancel := nonzero_fails "Pthread_cancel error".
Definition Pthread_join := nonzero_fails "Pthread_join error".
Definition Pthread_detach := nonzero_fails "Pthread_detach error".
Definition Sem_init := negative_fails "Sem_init error".
Definition P := negative_fails "P error".
Definition V := negative_fails "V error".

(** ** The robust readers and writers that end the process *)

Definition Rio_readn (fuel n : nat) (w : world) : option (effect (Z * bytes) * world) :=
  match rio_readn fuel n w with
  | None => None
  | Some (r, got, w') =>
      Some (if r <? 0 then unix_error "Rio_readn error" (Rio.errno w') else Returns (r, got), w')
  end.
Definition Rio_writen (fuel : nat) (usrbuf : bytes) (w : world) : option (effect unit * world) :=
  match rio_writen fuel usrbuf w with
  | None => None
  | Some (r, w') =>
      Some (if negb (r =? size usrbuf) then unix_error "Rio_writen error" (Rio.errno w') else Returns (), w')
  end.
Definition Rio_readnb (fuel n : nat) (rp : rio_t) (w : world) : option (effect (Z * bytes)) * rio_t * world :=
  match rio_readnb fuel n rp w with
  | (None, rp', w') => (None, rp', w')
  | (Some (rc, got), rp', w') =>
      (Some (if rc <? 0 then unix_error "Rio_readnb error" (Rio.errno w') else Returns (rc, got)), rp', w')
  end.
Definition Rio_readlineb (fuel maxlen : nat) (rp : rio_t) (w : world) :
    option (effect (Z * bytes)) * rio_t * world :=
  match rio_readlineb fuel maxlen rp w with
  | (None, rp', w') => (None, rp', w')
  | (Some (rc, got), rp', w') =>
      (Some (if rc <? 0 then unix_error "Rio_readlineb error" (Rio.errno w') else Returns (rc, got)), rp', w')
  end.

(** ** Client and server sockets

    [fds] is the set of open descriptors.  The kernel's answers: the descriptor
    [socket] returns (negative: failure), whether each later call succeeds. *)

Record sockaddr := Sockaddr { sin_addr : bytes; sin_port : Z }.
Definition socket (k : Z) (fds : gset Z) : gset Z := if k <? 0 then fds else {[k]} ∪ fds.

(** [hp] is the result of [gethostbyname], the first address of the host;
    [connected] is what [connect] returns for an address. *)
Definition open_clientfd (sock : Z) (hp : option bytes) (connected : sockaddr → Z) (port : Z)
    (fds : gset Z) : Z * gset Z :=
  let clientfd := sock in
  let fds := socket sock fds in
  if clientfd <? 0 then (-1, fds)
  else
    match hp with
    | None => (-2, fds)
    | Some addr =>
        let serveraddr := Sockaddr addr (htons port) in
        if connected serveraddr <? 0 then (-1, fds) else (clientfd, fds)
    end.

Definition INADDR_ANY : bytes := bytes32 (htonl 0).

Definition open_listenfd (sock opt : Z) (bound : sockaddr → Z) (listening : Z) (port : Z)
    (fds : gset Z) : Z * gset Z :=
  let listenfd := sock in
  let fds := socket sock fds in
  if listenfd <? 0 then (-1, fds)
  else if opt <? 0 then (-1, fds)
  else
    let serveraddr := Sockaddr INADDR_ANY (htons (port mod 2 ^ 16)) in
    if bound serveraddr <? 0 then (-1, fds)
    else if listening <? 0 then (-1, fds)
    else (listenfd, fds).

Definition Open_clientfd sock hp connected port fds (errno h_errno : Z) : effect Z * gset Z :=
  let '(rc, fds) := open_clientfd sock hp connected port fds in
  (if rc <? 0 then
     if rc =? -1 then unix_error "Open_clientfd Unix error" errno
     else dns_error "Open_clientfd DNS error" h_errno
   else Returns rc, fds).
Definition Open_listenfd sock opt bound listening port fds (errno : Z) : effect Z * gset Z :=
  let '(rc, fds) := open_listenfd sock opt bound listening port fds in
  (if rc <? 0 then unix_error "Open_listenfd error" errno else Returns rc, fds).

(** ** Every wrapper checks the value its call documents for failure *)

Inductive failure := Negative | Null | MapFailed | IsEOF | Nonzero.
Definition means_failure (f : failure) (k : Z) : bool :=
  match f with
  | Negative => k <? 0
  | Null => k =? 0
  | MapFailed => k =? -1
  | IsEOF => k =? -1
  | Nonzero => negb (k =? 0)
  end.

(** The wrappers with the failure value of the call in its manual page. *)
Definition manual_pages : list (string * failure * (Z → Z → effect Z)) :=
  [("Fork error", Negative, Fork); ("Execve error", Negative, Execve); ("Wait error", Negative, Wait);
   ("Waitpid error", Negative, Waitpid); ("Kill error", Negative, Kill); ("Setpgid error", Negative, Setpgid);
   ("Sigprocmask error", Negative, Sigprocmask); ("Sigemptyset error", Negative, Sigemptyset);
   ("Sigfillset error", Negative, Sigfillset); ("Sigaddset error", Negative, Sigaddset);
   ("Sigdelset error", Negative, Sigdelset); ("Sigismember error", Negative, Sigismember);
   ("Open error", Negative, Open); ("Read error", Negative, Read); ("Write error", Negative, Write);
   ("Lseek error", Negative, Lseek); ("Close error", Negative, Close); ("Select error", Negative, Select);
   ("Dup2 error", Negative, Dup2); ("Stat error", Negative, Stat); ("Fstat error", Negative, Fstat);
   ("mmap error", MapFailed, Mmap); ("munmap error", Negative, Munmap); ("Malloc error", Null, Malloc);
   ("Realloc error", Null, Realloc); ("Calloc error", Null, Calloc); ("Fclose error", Nonzero, Fclose);
   ("Fdopen error", Null, Fdopen); ("Fopen error", Null, Fopen); ("Fputs error", IsEOF, Fputs);
   ("Socket error", Negative, Socket); ("Setsockopt error", Negative, Setsockopt);
   ("Bind error", Negative, Bind); ("Listen error", Negative, Listen); ("Accept error", Negative, Accept);
   ("Connect error", Negative, Connect); ("Sem_init error", Negative, Sem_init);
   ("P error", Negative, P); ("V error", Negative, V)]%string.

(** Every wrapper returns exactly the result of its call when that result does not
    mean failure, and otherwise prints its message with the text of [errno] and
    ends the process - with status 0, the status of success. *)
Theorem wrappers_check :
  Forall (λ '(msg, f, wrapper), ∀ k errno,
    wrapper k errno =
    if means_failure f k then Exits 0 (lit msg ++ lit ": " ++ strerror errno ++ [newline]) else Returns k)
  manual_pages.
Proof. repeat constructor. Qed.

(** What the ending versions of the Rio functions return is never an error value,
    and a writer that returns has written everything. *)
Theorem Rio_returns_complete fuel n maxlen usrbuf rp w :
  match Rio_readn fuel n w with Some (Returns (r, _), _) => 0 <= r | _ => True end ∧
  match (Rio_readnb fuel n rp w).1.1 with Some (Returns (r, _)) => 0 <= r | _ => True end ∧
  match (Rio_readlineb fuel maxlen rp w).1.1 with Some (Returns (r, _)) => 0 <= r | _ => True end ∧
  match Rio_writen fuel usrbuf w with
  | Some (Returns _, w') => out w' = out w ++ usrbuf
  | _ => True
  end.
Proof.
  unfold Rio_readn, Rio_readnb, Rio_readlineb, Rio_writen. split; [|split; [|split]].
  - destruct (rio_readn fuel n w) as [[[r got] w']|]; [|done]. destruct (Z.ltb_spec r 0); [done|lia].
  - destruct (rio_readnb fuel n rp w) as [[[[r got]|] rp'] w']; cbn; [|done].
    destruct (Z.ltb_spec r 0); [done|lia].
  - destruct (rio_readlineb fuel maxlen rp w) as [[[[r got]|] rp'] w']; cbn; [|done].
    destruct (Z.ltb_spec r 0); [done|lia].
  - destruct (rio_writen fuel usrbuf w) as [[r w']|] eqn:E; [|done].
    destruct (Z.eqb_spec r (size usrbuf)); cbn; [|done]. apply rio_writen_loop_result in E as [[_ E]|[-> _]]; [done|unfold size in *; lia].
Qed.

End Wrappers.

Lemma htons_mod v : htons (v mod 2 ^ 16) = htons v.
Proof.
  assert (bytes16 (v mod 2 ^ 16) = bytes16 v) as E; [|unfold htons; by rewrite E].
  pose proof (Z.div_mod v (2 ^ 16) ltac:(lia)) as Hv. set (r := v mod 2 ^ 16) in *. set (q := v / 2 ^ 16) in *.
  unfold bytes16. rewrite Hv at 1 2.
  replace (2 ^ 16 * q + r) with (r + 256 * (256 * q)) by lia. rewrite byte_of_small. do 2 f_equal.
  rewrite (Z.mul_comm 256 (256 * q)), Z_div_plus_full by lia.
  by rewrite byte_of_small.
Qed.

(** A listening socket is returned bound to the port modulo 2^16 on every address;
    a failure is reported as -1, and every failure after [socket] leaves the new
    descriptor open with nobody to close it. *)
Theorem open_listenfd_spec sock opt bound listening port fds :
  sock ∉ fds →
  let '(r, fds') := open_listenfd sock opt bound listening port fds in
  (0 <= r → r = sock ∧ fds' = {[sock]} ∪ fds ∧ 0 <= opt ∧ 0 <= listening ∧
            ∃ sa, 0 <= bound sa ∧ sin_addr sa = INADDR_ANY ∧ ntohs (sin_port sa) = port mod 2 ^ 16) ∧
  (r < 0 → r = -1 ∧ (sock < 0 → fds' = fds) ∧ (0 <= sock → sock ∈ fds' ∖ fds)).
Proof.
  intros Hs. unfold open_listenfd, socket.
  destruct (Z.ltb_spec sock 0); [split; [lia|]; intros; split; [done|]; split; [done|lia]|].
  assert (∀ r, r = -1 → (0 <= r → False) ∧
    (r < 0 → r = -1 ∧ (sock < 0 → {[sock]} ∪ fds = fds) ∧ (0 <= sock → sock ∈ ({[sock]} ∪ fds) ∖ fds))) as Hneg.
  { intros r ->. split; [lia|]. intros _. split; [done|]. split; [lia|]. set_solver. }
  pose proof (Hneg (-1) eq_refl) as [_ Hn].
  destruct (Z.ltb_spec opt 0); [split; [lia|exact Hn]|].
  destruct (Z.ltb_spec (bound (Sockaddr INADDR_ANY (htons (port mod 2 ^ 16)))) 0); [split; [lia|exact Hn]|].
  destruct (Z.ltb_spec listening 0); [split; [lia|exact Hn]|].
  split; [|lia]. intros _. do 4 (split; [done|]). eexists. split; [eassumption|]. split; [done|].
  cbn [sin_port]. apply ntohs_htons, Z.mod_pos_bound. lia.
Qed.
Lemma open_listenfd_spec_witness :
  3 ∉ ({[1]} : gset Z) ∧
  let '(r, fds') := open_listenfd 3 0 (λ _, -1) 0 8080 {[1]} in
  (0 <= r → r = 3 ∧ fds' = {[3]} ∪ {[1]} ∧ 0 <= 0 ∧ 0 <= 0 ∧
            ∃ sa, 0 <= -1 ∧ sin_addr sa = INADDR_ANY ∧ ntohs (sin_port sa) = 8080 mod 2 ^ 16) ∧
  (r < 0 → r = -1 ∧ (3 < 0 → fds' = {[1]}) ∧ (0 <= 3 → 3 ∈ fds' ∖ {[1]})).
Proof.
  split; [apply (bool_decide_unpack _); by vm_compute|].
  apply (open_listenfd_spec 3 0 (λ _, -1) 0 8080 {[1]}). apply (bool_decide_unpack _); by vm_compute.
Defined.

(** A client socket is returned connected to the host's address at the port modulo
    2^16; an unknown host gives -2 and every other failure -1, and both leave the
    descriptor open when [socket] had made one. *)
Theorem open_clientfd_spec sock hp connected port fds :
  sock ∉ fds →
  let '(r, fds') := open_clientfd sock hp connected port fds in
  (0 <= r → r = sock ∧ fds' = {[sock]} ∪ fds ∧
            ∃ sa, 0 <= connected sa ∧ Some (sin_addr sa) = hp ∧ ntohs (sin_port sa) = port mod 2 ^ 16) ∧
  (r = -2 ↔ 0 <= sock ∧ hp = None) ∧
  (r < 0 → 0 <= sock → sock ∈ fds' ∖ fds).
Proof.
  intros Hs. unfold open_clientfd, socket.
  destruct (Z.ltb_spec sock 0); [split; [lia|]; split; lia|].
  destruct hp as [addr|]; [|split; [lia|]; split; [done|set_solver]].
  destruct (Z.ltb_spec (connected (Sockaddr addr (htons port))) 0).
  { split; [lia|]. split; [split; [lia|by intros [_ ?]]|set_solver]. }
  split; [|split; [split; [lia|by intros [_ ?]]|lia]].
  intros _. do 2 (split; [done|]). eexists. split; [eassumption|]. split; [done|].
  cbn [sin_port]. rewrite <-(htons_mod port). apply ntohs_htons, Z.mod_pos_bound. lia.
Qed.
Lemma open_clientfd_spec_witness :
  4 ∉ ({[1]} : gset Z) ∧
  let '(r, fds') := open_clientfd 4 (Some [byte_of 127; byte_of 0; byte_of 0; byte_of 1]) (λ _, 0) 70000 {[1]} in
  (0 <= r → r = 4 ∧ fds' = {[4]} ∪ {[1]} ∧
            ∃ sa, 0 <= 0 ∧ Some (sin_addr sa) = Some [byte_of 127; byte_of 0; byte_of 0; byte_of 1] ∧
                  ntohs (sin_port sa) = 70000 mod 2 ^ 16) ∧
  (r = -2 ↔ 0 <= 4 ∧ Some [byte_of 127; byte_of 0; byte_of 0; byte_of 1] = None) ∧
  (r < 0 → 0 <= 4 → 4 ∈ fds' ∖ {[1]}).
Proof.
  split; [apply (bool_decide_unpack _); by vm_compute|].
  apply (open_clientfd_spec 4 (Some [byte_of 127; byte_of 0; byte_of 0; byte_of 1]) (λ _, 0) 70000 {[1]}).
  apply (bool_decide_unpack _); by vm_compute.
Defined.
