(* ===== verification/EchoPool.v ===== *)
(** * Echo servers over select: chapter12/echoservers.c and select_server_demo.c

    Module [Pool] is the server of echoservers.c: a table of clients with one Rio
    buffer each, turned by [select].  Module [SelectServer] is the one of
    select_server_demo.c, which reads blocks without a buffer.  Module
    [WebServer] is the loop body of chapter11/echo_server.c.  The kernel decides
    which descriptors are ready and what each read and write moves; [exit] is an
    exception nobody catches. *)

From stdpp Require Import base list gmap strings.
From Stdlib Require Import ZArith Lia Ascii.
From S2P Require Import Prelude CxxString Rio.

Local Open Scope Z_scope.

Definition FD_SETSIZE : nat := Z.to_nat 1024.
Definition MAXLINE : nat := Z.to_nat 8192.
Lemma FD_SETSIZE_val : Z.of_nat FD_SETSIZE = 1024.
Proof. done. Qed.
Lemma MAXLINE_val : Z.of_nat MAXLINE = 8192.
Proof. done. Qed.
#[local] Opaque FD_SETSIZE MAXLINE.
#[local] Arguments size : simpl never.

(** [FD_SET] writes outside the bit map for a descriptor that has no bit. *)
Definition FD_SET (fd : Z) (fds : gset Z) : outcome (gset Z) :=
  if (0 <=? fd) && (fd <? Z.of_nat FD_SETSIZE) then Ret ({[fd]} ∪ fds) else Undef.

(** A connection: the world its reads see and the one its writes see. *)
Record conn := Conn { rd : world; wr : world }.

Definition exit {A} (msg : string) : outcome A := Throw (RuntimeError (lit msg)).

(** Fuel for one call: every answer is used at most once. *)
Definition calls (w : world) : nat := length (answers w) + 2.

Module Pool.

Record pool := MkPool {
  maxfd : Z;
  read_set : gset Z;
  ready_set : gset Z;
  nready : Z;
  maxi : Z;
  clientfd : list Z;
  clientrio : list rio_t
}.

(** [conns]: the connections by descriptor, with what has been sent on them. *)
Record server := MkServer { the_pool : pool; byte_cnt : Z; conns : gmap Z conn; opened : gset Z }.

Definition zero_rio : rio_t := Rio 0 0 0 (replicate RIO_BUFSIZE "000"%char).

(** The pool is static, so its members start as zeros. *)
Definition init_pool (listenfd : Z) : outcome pool :=
  rs ← FD_SET listenfd ∅;
  Ret (MkPool listenfd rs ∅ 0 (-1) (replicate FD_SETSIZE (-1)) (replicate FD_SETSIZE zero_rio)).

Definition add_client (connfd : Z) (p : pool) : outcome pool :=
  match list_find (λ fd, fd < 0) (clientfd p) with
  | Some (i, _) =>
      rio ← deref (clientrio p !! i);
      rs ← FD_SET connfd (read_set p);
      Ret (MkPool
        (if maxfd p <? connfd then connfd else maxfd p)
        rs (ready_set p) (nready p - 1)
        (if maxi p <? Z.of_nat i then Z.of_nat i else maxi p)
        (<[i := connfd]> (clientfd p))
        (<[i := rio_readinitb rio connfd]> (clientrio p)))
  | None => exit "add_client error: Too many clients"
  end.

(** Reading one line with the reader [rio], counting its bytes and echoing it: the
    number of bytes (0: end of the stream) and the connection afterwards.
    [Rio_readlineb] and [Rio_writen] end the process on an error; [bc] is
    [byte_cnt], an int. *)
Definition echo_line (bc : Z) (rio : rio_t) (c : conn) : outcome (Z * conn) :=
  match rio_readlineb (calls (rd c)) MAXLINE rio (rd c) with
  | (None, _, _) => Undef
  | (Some (n, buf), _, rd') =>
      if n <? 0 then exit "Rio_readlineb error"
      else if n =? 0 then Ret (0, Conn rd' (wr c))
      else if 2 ^ 31 <=? bc + n then Undef
      else
        match rio_writen (calls (wr c)) (take (Z.to_nat n) buf) (wr c) with
        | None => Undef
        | Some (r, wr') =>
            if negb (r =? n) then exit "Rio_writen error" else Ret (n, Conn rd' wr')
        end
  end.

(** One turn of the loop of [check_clients].  The reader is a copy of the client's:
    [rio = p->clientrio[i]]. *)
Definition check_client (i : nat) (s : server) : outcome server :=
  let p := the_pool s in
  if 0 <? nready p then
    connfd ← deref (clientfd p !! i);
    rio ← deref (clientrio p !! i);
    if (0 <? connfd) && bool_decide (connfd ∈ ready_set p) then
      c ← deref (conns s !! connfd);
      r ← echo_line (byte_cnt s) rio c;
      if negb (r.1 =? 0) then
        Ret (MkServer
               (MkPool (maxfd p) (read_set p) (ready_set p) (nready p - 1) (maxi p) (clientfd p) (clientrio p))
               (byte_cnt s + r.1) (<[connfd := r.2]> (conns s)) (opened s))
      else Ret (MkServer
             (MkPool (maxfd p) (read_set p ∖ {[connfd]}) (ready_set p) (nready p - 1) (maxi p)
                (<[i := -1]> (clientfd p)) (clientrio p))
             (byte_cnt s) (<[connfd := r.2]> (conns s)) (opened s ∖ {[connfd]}))
    else Ret s
  else Ret s.

Fixpoint check_from (slots : list nat) (s : server) : outcome server :=
  match slots with
  | [] => Ret s
  | i :: slots => s' ← check_client i s; check_from slots s'
  end.
Definition check_clients (s : server) : outcome server :=
  check_from (seq 0 (Z.to_nat (maxi (the_pool s) + 1))) s.

(** One turn of [main]: [select] answers [ready]; [accept] answers a descriptor and its
    connection, or fails. *)
Definition turn (listenfd : Z) (ready : gset Z) (incoming : option (Z * conn)) (s : server) : outcome server :=
  let p := the_pool s in
  let p := MkPool (maxfd p) (read_set p) ready (Z.of_nat (base.size ready)) (maxi p) (clientfd p) (clientrio p) in
  s ← (if bool_decide (listenfd ∈ ready) then
         match incoming with
         | None => exit "Accept error"
         | Some (connfd, c) =>
             p' ← add_client connfd p;
             Ret (MkServer p' (byte_cnt s) (<[connfd := c]> (conns s)) ({[connfd]} ∪ opened s))
         end
       else Ret (MkServer p (byte_cnt s) (conns s) (opened s)));
  check_clients s.

(** [main] before its loop, and turns without new clients. *)
Definition start (listenfd : Z) : outcome server :=
  p ← init_pool listenfd; Ret (MkServer p 0 ∅ {[listenfd]}).
Fixpoint turns (listenfd : Z) (readies : list (gset Z)) (s : server) : outcome server :=
  match readies with
  | [] => Ret s
  | ready :: readies => s' ← turn listenfd ready None s; turns listenfd readies s'
  end.

(** ** One line from a fresh copy of a reader *)

Lemma rio_read_buffered fuel rp c u w :
  rio_ok rp → 0 < rio_cnt rp → unread rp = c :: u →
  ∃ rp', rio_read (S fuel) rp 1 w = (Some (1, [c]), rp', w) ∧ rio_ok rp' ∧ unread rp' = u ∧
         (u ≠ [] → 0 < rio_cnt rp').
Proof.
  intros [Hlen Hptr] Hc Hu. unfold rio_read. cbn [rio_refill].
  destruct (Z.leb_spec (rio_cnt rp) 0); [lia|].
  assert ((if rio_cnt rp <? Z.of_nat 1 then Z.to_nat (rio_cnt rp) else 1%nat) = 1%nat) as ->
    by (destruct (Z.ltb_spec (rio_cnt rp) (Z.of_nat 1)); lia).
  unfold unread in Hu. destruct (drop (rio_bufptr rp) (rio_buf rp)) as [|c' d] eqn:Hd.
  { by rewrite take_nil in Hu. }
  destruct (Z.to_nat (rio_cnt rp)) as [|cnt] eqn:Hcnt; [lia|]. cbn in Hu. injection Hu as -> Hu.
  eexists. split; [done|]. split; [split; cbn; [done|lia]|].
  unfold unread. cbn [rio_cnt rio_bufptr rio_buf].
  replace (Z.to_nat (rio_cnt rp - Z.of_nat 1)) with cnt by lia.
  rewrite <-drop_drop, Hd. cbn [drop]. rewrite drop_0. split; [done|].
  intros Hne. destruct cnt; [|lia]. cbn in Hu. by subst u.
Qed.

Lemma buffered_line fuel room got l rest rp w :
  rio_ok rp → 0 < rio_cnt rp → unread rp = line_bytes l ++ rest → newline ∉ l → (length l < room)%nat →
  ∃ rp', rio_readlineb_loop (S fuel) room got rp w =
  (Some (size (got ++ line_bytes l), (got ++ line_bytes l) ++ ["000"%char]), rp', w).
Proof.
  unfold line_bytes. revert room got rp. induction l as [|c l IH]; intros [|room] got rp Hok Hc Hu Hn Hr;
    cbn [length] in Hr; try lia; cbn [rio_readlineb_loop].
  - destruct (rio_read_buffered fuel rp newline rest w Hok Hc Hu) as (rp' & -> & _).
    change (1 =? 1) with true. cbn iota. rewrite bool_decide_true by done. eauto.
  - apply not_elem_of_cons in Hn as [Hnc Hn].
    destruct (rio_read_buffered fuel rp c _ w Hok Hc Hu) as (rp' & -> & Hok' & Hu' & Hc').
    change (1 =? 1) with true. cbn iota. rewrite bool_decide_false by congruence.
    destruct (IH room (got ++ [c]) rp') as (rp'' & ->); [done|apply Hc'; by destruct l|done|done|lia|].
    rewrite <-!app_assoc. cbn. eauto.
Qed.

(** A reader that has just been initialised. *)
Definition fresh_rio (rio : rio_t) : Prop :=
  rio_cnt rio = 0 ∧ rio_bufptr rio = O ∧ length (rio_buf rio) = RIO_BUFSIZE.

(** The kernel hands over the segment [seg] with the next read. *)
Definition arrives (seg later : bytes) (w w' : world) : Prop :=
  answers w = Moves (length seg) :: answers w' ∧ inp w = seg ++ later ∧ inp w' = later ∧
  out w' = out w ∧ errno w' = errno w ∧ (0 < length seg ≤ RIO_BUFSIZE)%nat.

Lemma arrives_read seg later w w' : arrives seg later w w' → sys_read RIO_BUFSIZE w = (size seg, seg, w').
Proof.
  intros (Ha & Hi & Hi' & Ho & He & Hl & Hl'). destruct w as [i o as_ e], w' as [i' o' as' e']; cbn in *. subst.
  unfold sys_read. cbn [answers inp out errno].
  rewrite Nat.max_r, Nat.min_r by lia. by rewrite take_app_length, drop_app_length.
Qed.

Lemma echo_line_segment bc rio l rest later w w' wr :
  fresh_rio rio → arrives (line_bytes l ++ rest) later w w' → newline ∉ l →
  (length l + 1 < MAXLINE)%nat → Forall advances (answers wr) →
  ∃ wr', echo_line bc rio (Conn w wr) =
      (if 2 ^ 31 <=? bc + size (line_bytes l) then Undef else Ret (size (line_bytes l), Conn w' wr')) ∧
  out wr' = out wr ++ line_bytes l ∧ Forall advances (answers wr').
Proof.
  intros (Hc & Hptr & Hbuf) Harr Hn Hl Hw. pose proof (arrives_read _ _ _ _ Harr) as Hrd.
  destruct Harr as (Ha & Hi & Hi' & Ho & He & Hseg & Hseg').
  unfold echo_line, calls. cbn [rd]. rewrite Ha. cbn [length Nat.add].
  unfold rio_readlineb. destruct (MAXLINE - 1)%nat as [|room] eqn:Hm; [lia|].
  set (seg := line_bytes l ++ rest) in *.
  (* the first byte refills the buffer, the others are read from it *)
    assert (∀ fuel, ∃ rp', rio_readlineb_loop (S (S fuel)) (S room) [] rio w =
     (Some (size (line_bytes l), line_bytes l ++ ["000"%char]), rp', w')) as Hread.
  { intros fuel.
    set (rp1 := Rio (rio_fd rio) (size seg) 0 (seg ++ drop (length seg) (rio_buf rio))).
    assert (rio_ok rp1 ∧ unread rp1 = seg) as [Hok Hu].
    { split; [split; cbn [rp1 rio_cnt rio_bufptr rio_buf]|].
      - rewrite length_app, length_drop. lia.
      - rewrite to_nat_size. lia.
      - unfold unread. cbn [rp1 rio_cnt rio_bufptr rio_buf].
        by rewrite to_nat_size, drop_0, take_app_length. }
    assert (0 < size seg) as Hpos by (unfold size; lia).
    assert (∀ n, rio_read (S (S fuel)) rio n w = rio_read (S fuel) rp1 n w') as Hrr.
    { intros n. unfold rio_read. cbn [rio_refill]. rewrite Hc, Hrd. change (0 <=? 0) with true. cbn iota.
      rewrite size_pos_neg, size_zero, bool_decide_false by (intros E; by rewrite E in Hseg; cbn in Hseg; lia).
      cbn [rio_refill rio_cnt]. fold rp1. cbn [rp1 rio_cnt]. destruct (Z.leb_spec (size seg) 0); [lia|]. done. }
    cbn [rio_readlineb_loop]. rewrite Hrr. destruct l as [|c l].
    - destruct (rio_read_buffered fuel rp1 newline rest w') as (rp' & -> & _); [done..|].
      change (1 =? 1) with true. cbn iota. rewrite bool_decide_true by done. eauto.
    - apply not_elem_of_cons in Hn as [Hnc Hn].
      destruct (rio_read_buffered fuel rp1 c (line_bytes l ++ rest) w') as (rp2 & -> & Hok2 & Hu2 & Hc2); [done..|].
      change (1 =? 1) with true. cbn iota. rewrite bool_decide_false by congruence. cbn [app].
      destruct (buffered_line (S fuel) room [c] l rest rp2 w') as (rp' & ->);
        [done|apply Hc2; unfold line_bytes; by destruct l|done|done|cbn in Hl; lia|]. eauto. }
  replace (length (answers w') + 2)%nat with (S (S (length (answers w')))) by lia.
  destruct (Hread (S (length (answers w')))) as (rp' & ->). cbn [EchoPool.wr].
  assert (0 < size (line_bytes l)) as Hpos by (unfold size, line_bytes; rewrite length_app; cbn; lia).
  destruct (Z.ltb_spec (size (line_bytes l)) 0); [lia|].
  destruct (Z.eqb_spec (size (line_bytes l)) 0); [lia|].
  rewrite to_nat_size, take_app_length. destruct (2 ^ 31 <=? bc + size (line_bytes l)).
  { exists (World [] (out wr ++ line_bytes l) [] 0). split; [done|]. split; [done|constructor]. }
  destruct (rio_writen_loop_spec (calls wr) (length (line_bytes l)) (line_bytes l) wr)
    as (wr' & E & Ho' & _ & Hw'); [done|unfold calls; lia|].
  unfold rio_writen, calls in *. rewrite E. change (Z.of_nat (length (line_bytes l))) with (size (line_bytes l)).
  rewrite Z.eqb_refl. cbn [negb]. eauto.
Qed.

(** ** The table of clients *)

#[local] Opaque echo_line.

Definition slot (p : pool) (i : nat) (fd : Z) : Prop := clientfd p !! i = Some fd ∧ 0 < fd.

Record pool_ok (listenfd : Z) (s : server) : Prop := {
  ok_len : length (clientfd (the_pool s)) = FD_SETSIZE;
  ok_rio_len : length (clientrio (the_pool s)) = FD_SETSIZE;
  ok_rio : Forall fresh_rio (clientrio (the_pool s));
  ok_slot i fd : clientfd (the_pool s) !! i = Some fd → fd = -1 ∨ 0 < fd ∧ fd ≠ listenfd;
  ok_inj i j fd : slot (the_pool s) i fd → slot (the_pool s) j fd → i = j;
  ok_watch fd : fd ∈ read_set (the_pool s) ↔ fd = listenfd ∨ ∃ i, slot (the_pool s) i fd;
  ok_bits fd : fd ∈ read_set (the_pool s) → 0 <= fd <= maxfd (the_pool s) ∧ fd < Z.of_nat FD_SETSIZE;
  ok_high i fd : slot (the_pool s) i fd → Z.of_nat i <= maxi (the_pool s);
  ok_maxi : -1 <= maxi (the_pool s) < Z.of_nat FD_SETSIZE;
  ok_open : opened s = read_set (the_pool s);
  ok_conn i fd : slot (the_pool s) i fd → is_Some (conns s !! fd)
}.

Lemma fresh_zero : fresh_rio zero_rio.
Proof. split; [done|]. split; [done|]. apply length_replicate. Qed.

Lemma init_ok listenfd p :
  init_pool listenfd = Ret p → 0 < listenfd → pool_ok listenfd (MkServer p 0 ∅ {[listenfd]}).
Proof.
  unfold init_pool, FD_SET. destruct ((0 <=? listenfd) && _) eqn:Hb; [|done].
  zbool. intros [= <-] Hl.
  assert (∀ i fd, ¬ slot (MkPool listenfd ({[listenfd]} ∪ ∅) ∅ 0 (-1) (replicate FD_SETSIZE (-1))
    (replicate FD_SETSIZE zero_rio)) i fd) as Hno.
  { intros i fd [[-> _]%lookup_replicate ?]. lia. }
  split; cbn [the_pool clientfd clientrio read_set maxfd maxi conns opened];
    try (by intros; exfalso; eapply Hno).
  - apply length_replicate.
  - apply length_replicate.
  - apply Forall_replicate, fresh_zero.
  - intros i fd [-> _]%lookup_replicate. by left.
  - intros fd. split; [set_solver|]. intros [->|[i Hs]]; [set_solver|by destruct (Hno i fd)].
  - set_solver.
  - pose proof FD_SETSIZE_val. lia.
  - set_solver.
Qed.

(** Only the sets and the counter change when a turn begins or a line is echoed. *)
Lemma pool_ok_same listenfd s p' bc cs :
  pool_ok listenfd s →
  maxfd p' = maxfd (the_pool s) → read_set p' = read_set (the_pool s) → maxi p' = maxi (the_pool s) →
  clientfd p' = clientfd (the_pool s) → clientrio p' = clientrio (the_pool s) →
  (∀ fd, is_Some (conns s !! fd) → is_Some (cs !! fd)) →
  pool_ok listenfd (MkServer p' bc cs (opened s)).
Proof.
  intros [] E1 E2 E3 E4 E5 Hc. assert (∀ i fd, slot p' i fd ↔ slot (the_pool s) i fd) as Hs
    by (intros; unfold slot; by rewrite E4).
  split; cbn; rewrite ?E1, ?E2, ?E3, ?E4, ?E5; try done; try (by setoid_rewrite Hs).
  intros i fd Hsl. rewrite Hs in Hsl. eauto.
Qed.

Lemma add_client_ok listenfd s connfd c p' :
  pool_ok listenfd s → 0 < connfd → connfd ∉ opened s → add_client connfd (the_pool s) = Ret p' →
  pool_ok listenfd (MkServer p' (byte_cnt s) (<[connfd := c]> (conns s)) ({[connfd]} ∪ opened s)).
Proof.
  intros Hok Hpos Hnew. destruct Hok. rewrite ok_open0 in Hnew. unfold add_client.
  destruct (list_find _ _) as [[i fd0]|] eqn:Hf; [|done].
  apply list_find_Some in Hf as (Hi & Hneg & _).
  assert (i < FD_SETSIZE)%nat as Hlt by (rewrite <-ok_len0; by apply lookup_lt_Some in Hi).
  destruct (clientrio (the_pool s) !! i) as [rio|] eqn:Hr.
  2: { apply lookup_ge_None in Hr. lia. }
  cbn [deref mbind outcome_bind]. unfold FD_SET. destruct ((0 <=? connfd) && _) eqn:Hb; [|done].
  zbool. cbn [mbind outcome_bind]. intros [= <-].
  set (p' := MkPool _ _ _ _ _ _ _).
  assert (∀ j fd, slot p' j fd ↔ (j = i ∧ fd = connfd) ∨ (j ≠ i ∧ slot (the_pool s) j fd)) as Hs.
  { intros j fd. unfold slot. cbn [p' clientfd]. destruct (decide (j = i)) as [->|Hj].
    - rewrite list_lookup_insert_eq by lia. naive_solver.
    - rewrite list_lookup_insert_ne by done. naive_solver. }
  assert (∀ j fd, slot (the_pool s) j fd → fd ≠ connfd).
  { intros j fd Hsl ->. apply Hnew, ok_watch0. eauto. }
  split; cbn [the_pool conns opened]; try (cbn [p' clientfd clientrio read_set maxfd maxi]).
  - by rewrite length_insert.
  - by rewrite length_insert.
  - apply Forall_insert; [done|]. unfold fresh_rio. cbn. split; [done|]. split; [done|].
    by apply (Forall_lookup_1 _ _ _ _ ok_rio0) in Hr as (_ & _ & ?).
  - intros j fd. destruct (decide (j = i)) as [->|Hj].
    + rewrite list_lookup_insert_eq by lia. intros [= <-]. right. split; [done|]. intros ->.
      apply Hnew, ok_watch0. by left.
    + rewrite list_lookup_insert_ne by done. apply ok_slot0.
  - intros j k fd Hj Hk. apply Hs in Hj, Hk. naive_solver.
  - intros fd. rewrite elem_of_union, elem_of_singleton, ok_watch0. setoid_rewrite Hs. split.
    + intros [->|[->|[j Hj]]]; [eauto|by left|].
      right. exists j. right. split; [|done]. intros ->. destruct Hj as [E ?]. rewrite Hi in E. simplify_eq. lia.
    + naive_solver.
  - intros fd. rewrite elem_of_union, elem_of_singleton. intros [->|Hfd%ok_bits0].
    + destruct (Z.ltb_spec (maxfd (the_pool s)) connfd); lia.
    + destruct (Z.ltb_spec (maxfd (the_pool s)) connfd); lia.
  - intros j fd [[-> ->]|[Hj Hsl%ok_high0]]%Hs; destruct (Z.ltb_spec (maxi (the_pool s)) (Z.of_nat i)); lia.
  - destruct (Z.ltb_spec (maxi (the_pool s)) (Z.of_nat i)); lia.
  - by rewrite ok_open0.
  - intros j fd Hsl. destruct (decide (fd = connfd)) as [->|Hne]; [rewrite lookup_insert_eq; eauto|].
    rewrite lookup_insert_ne by done. apply Hs in Hsl as [[_ ?]|[_ Hsl]]; [done|eauto].
Qed.

(** What serving one client does to the connections, and whether it stays open. *)
Definition served (s s' : server) (fd : Z) : Prop :=
  ∃ bc rio c n c', fresh_rio rio ∧ conns s !! fd = Some c ∧ echo_line bc rio c = Ret (n, c') ∧
  conns s' !! fd = Some c' ∧ (fd ∈ opened s' ↔ n ≠ 0).
Definition untouched (s s' : server) (fd : Z) : Prop :=
  conns s' !! fd = conns s !! fd ∧ (fd ∈ opened s' ↔ fd ∈ opened s).

(** A client that select reported. *)
Definition pending (s : server) (i : nat) (fd : Z) : Prop :=
  slot (the_pool s) i fd ∧ fd ∈ ready_set (the_pool s).

Lemma check_client_spec listenfd s i s' :
  pool_ok listenfd s → check_client i s = Ret s' →
  (∀ fd, pending s i fd → 0 < nready (the_pool s)) →
  pool_ok listenfd s' ∧ maxi (the_pool s') = maxi (the_pool s) ∧
  ready_set (the_pool s') = ready_set (the_pool s) ∧
  (∀ j fd, j ≠ i → slot (the_pool s') j fd ↔ slot (the_pool s) j fd) ∧
  ((∃ fd, pending s i fd ∧ nready (the_pool s') = nready (the_pool s) - 1 ∧ served s s' fd ∧
      ∀ fd', fd' ≠ fd → untouched s s' fd') ∨
   (∀ fd, ¬ pending s i fd) ∧ s' = s).
Proof.
  intros Hok Hcheck Hpos. unfold check_client in Hcheck.
  destruct (0 <? nready (the_pool s)) eqn:Hn.
  2: { simplify_eq. do 4 (split; [done|]). right. split; [|done]. intros fd Hp%Hpos. zbool. lia. }
  destruct (clientfd (the_pool s) !! i) as [fd|] eqn:Hfd; [|done].
  destruct (clientrio (the_pool s) !! i) as [rio|] eqn:Hrio; [|done].
  cbn [deref mbind outcome_bind] in Hcheck.
  destruct ((0 <? fd) && bool_decide (fd ∈ ready_set (the_pool s))) eqn:Hr.
  2: { simplify_eq. do 4 (split; [done|]). right. split; [|done]. intros fd' [[E ?] Hin].
       rewrite Hfd in E. simplify_eq. apply andb_false_iff in Hr as [Hr|Hr]; zbool; [lia|].
       by apply bool_decide_eq_false in Hr. }
  apply andb_prop in Hr as [Hfdpos Hin%bool_decide_eq_true]. zbool.
  assert (slot (the_pool s) i fd) as Hslot by done.
  destruct (ok_conn _ _ Hok i fd Hslot) as [c Hc]. rewrite Hc in Hcheck.
  apply bind_Ret in Hcheck as (c0 & [= <-] & Hcheck).
  apply bind_Ret in Hcheck as ([n c'] & Hecho & Hcheck). cbn [fst snd] in Hcheck.
  assert (fresh_rio rio) as Hfresh by (by apply (Forall_lookup_1 _ _ _ _ (ok_rio _ _ Hok)) in Hrio).
  assert (fd ∈ opened s) as Hopen.
  { rewrite (ok_open _ _ Hok). apply (ok_watch _ _ Hok). eauto. }
  destruct (Z.eqb_spec n 0) as [->|Hn0]; cbn [negb] in Hcheck.
  - injection Hcheck as <-. set (p' := MkPool _ _ _ _ _ _ _).
    assert (∀ j fd', slot p' j fd' ↔ j ≠ i ∧ slot (the_pool s) j fd') as Hs.
    { intros j fd'. unfold slot. cbn [p' clientfd]. destruct (decide (j = i)) as [->|Hj].
      - rewrite list_lookup_insert_eq by (by apply lookup_lt_Some in Hfd). naive_solver lia.
      - rewrite list_lookup_insert_ne by done. naive_solver. }
    split; [|split; [done|]; split; [done|]; split].
    + destruct Hok. split; cbn [the_pool conns opened]; try cbn [p' clientfd clientrio read_set maxfd maxi].
      * by rewrite length_insert.
      * done.
      * done.
      * intros j fd'. destruct (decide (j = i)) as [->|Hj].
        -- rewrite list_lookup_insert_eq by (by apply lookup_lt_Some in Hfd). intros [= <-]. by left.
        -- rewrite list_lookup_insert_ne by done. apply ok_slot0.
      * intros j k fd' [_ Hj]%Hs [_ Hk]%Hs. eauto.
      * intros fd'. rewrite elem_of_difference, elem_of_singleton, ok_watch0. setoid_rewrite Hs.
        destruct (ok_slot0 i fd Hfd) as [->|[_ Hl]]; [lia|]. split.
        -- intros [[->|[j Hj]] Hne]; [by left|]. right. exists j. split; [|done]. intros ->.
           destruct Hj as [E _]. rewrite Hfd in E. by simplify_eq.
        -- intros [->|[j [Hj Hsl]]]; [split; [by left|done]|]. split; [eauto|]. intros ->. apply Hj. by eapply ok_inj0.
      * intros fd' [Hfd' _]%elem_of_difference. by apply ok_bits0.
      * intros j fd' [_ Hsl]%Hs. by apply ok_high0 in Hsl.
      * done.
      * by rewrite ok_open0.
      * intros j fd' [_ Hsl]%Hs. destruct (decide (fd' = fd)) as [->|Hne]; [rewrite lookup_insert_eq; eauto|].
        rewrite lookup_insert_ne by done. eauto.
    + intros j fd' Hj. cbn [the_pool]. rewrite Hs. naive_solver.
    + left. exists fd. split; [by split|]. split; [done|]. split.
      * exists (byte_cnt s), rio, c, 0, c'. cbn [conns opened]. rewrite lookup_insert_eq. split_and!; try done; try set_solver.
      * intros fd' Hne. split; cbn [conns opened]; [by rewrite lookup_insert_ne by done|]. set_solver.
  - injection Hcheck as <-. cbn [the_pool].
    split; [|split; [done|]; split; [done|]; split; [done|]].
    + apply pool_ok_same; try done. intros fd' Hfd'. destruct (decide (fd' = fd)) as [->|Hne].
      * rewrite lookup_insert_eq. eauto.
      * by rewrite lookup_insert_ne by done.
    + left. exists fd. split; [by split|]. split; [done|]. split.
      * exists (byte_cnt s), rio, c, n, c'. cbn [conns opened]. rewrite lookup_insert_eq. done.
      * intros fd' Hne. split; cbn [conns opened]; [by rewrite lookup_insert_ne by done|]. done.
Qed.

(** ** All clients select reported *)

Definition hot (s : server) (i : nat) : bool :=
  match clientfd (the_pool s) !! i with
  | Some fd => (0 <? fd) && bool_decide (fd ∈ ready_set (the_pool s))
  | None => false
  end.
Definition n_hot (s : server) (slots : list nat) : nat := length (filter (λ i, hot s i = true) slots).

Lemma hot_pending s i : hot s i = true ↔ ∃ fd, pending s i fd.
Proof.
  unfold hot, pending, slot. destruct (clientfd (the_pool s) !! i) as [fd|].
  - rewrite andb_true_iff, Z.ltb_lt, bool_decide_eq_true. naive_solver.
  - naive_solver.
Qed.

Lemma n_hot_cons s i slots : n_hot s (i :: slots) = ((if hot s i then 1 else 0) + n_hot s slots)%nat.
Proof.
  unfold n_hot. rewrite filter_cons.
  destruct (hot s i); [rewrite decide_True by done|rewrite decide_False by done]; done.
Qed.
Lemma n_hot_ext s s1 slots : (∀ j, j ∈ slots → hot s1 j = hot s j) → n_hot s1 slots = n_hot s slots.
Proof.
  induction slots as [|i slots IH]; intros H; [done|].
  rewrite !n_hot_cons, (H i) by left. f_equal. apply IH. intros j Hj. apply H. by right.
Qed.

Lemma n_hot_bound listenfd s slots :
  pool_ok listenfd s → NoDup slots →
  (n_hot s slots ≤ base.size (ready_set (the_pool s) ∖ {[listenfd]}))%nat.
Proof.
  intros Hok Hnd. unfold n_hot. set (hs := filter _ slots).
  rewrite <-(length_fmap (λ i, default (-1) (clientfd (the_pool s) !! i)) hs).
  rewrite <-(size_list_to_set (C := gset Z)).
  - apply subseteq_size. intros fd. rewrite elem_of_list_to_set. intros (i & -> & Hi)%list_elem_of_fmap.
    apply list_elem_of_filter in Hi as [Hi _]. apply hot_pending in Hi as (fd & [Hfd Hpos] & Hin).
    rewrite Hfd. cbn. apply elem_of_difference. split; [done|]. rewrite elem_of_singleton. intros ->.
    destruct (ok_slot _ _ Hok _ _ Hfd) as [->|[_ ?]]; [lia|done].
  - apply NoDup_fmap_2_strong; [|by apply NoDup_filter].
    intros i j Hi Hj E. apply list_elem_of_filter in Hi as [Hi _], Hj as [Hj _].
    apply hot_pending in Hi as (fd & [Hfd Hpos] & _), Hj as (fd' & [Hfd' Hpos'] & _).
    rewrite Hfd, Hfd' in E. cbn in E. subst fd'. by eapply (ok_inj _ _ Hok).
Qed.

Lemma served_untouched s s1 s2 fd : served s s1 fd → untouched s1 s2 fd → served s s2 fd.
Proof.
  intros (bc & rio & c & n & c' & H1 & H2 & H3 & H4 & H5) [E1 E2]. exists bc, rio, c, n, c'.
  do 3 (split; [done|]). rewrite E1, E2. done.
Qed.
Lemma untouched_served s s1 s2 fd : untouched s s1 fd → served s1 s2 fd → served s s2 fd.
Proof. intros [E1 E2] (bc & rio & c & n & c' & H). exists bc, rio, c, n, c'. by rewrite <-E1. Qed.
Lemma untouched_trans s s1 s2 fd : untouched s s1 fd → untouched s1 s2 fd → untouched s s2 fd.
Proof. intros [E1 E2] [E3 E4]. split; [congruence|]. by rewrite E4, E2. Qed.

Lemma check_from_spec listenfd slots s s' :
  NoDup slots → pool_ok listenfd s → check_from slots s = Ret s' →
  Z.of_nat (n_hot s slots) <= nready (the_pool s) →
  pool_ok listenfd s' ∧
  (∀ i fd, i ∈ slots → pending s i fd → served s s' fd) ∧
  (∀ fd, (∀ i, i ∈ slots → ¬ pending s i fd) → untouched s s' fd).
Proof.
  intros Hnd. revert s. induction Hnd as [|i slots Hi Hnd IH]; intros s Hok; cbn [check_from].
  { intros [= ->] _. split; [done|]. split; [by intros ?? ?%not_elem_of_nil|]. intros fd _. by split. }
  intros (s1 & Hc & Hrest)%bind_Ret Hn.
  pose proof (n_hot_cons s i slots) as Hcount.
  assert (∀ fd, pending s i fd → 0 < nready (the_pool s)) as Hpos.
  { intros fd Hp. assert (hot s i = true) as E by (apply hot_pending; eauto). rewrite E in Hcount. lia. }
  destruct (check_client_spec _ _ _ _ Hok Hc Hpos) as (Hok1 & _ & Hready & Hslots & Hcase).
  assert (∀ j fd, j ≠ i → pending s1 j fd ↔ pending s j fd) as Hpend.
  { intros j fd Hj. unfold pending. by rewrite Hready, (Hslots j fd Hj). }
  assert (n_hot s1 slots = n_hot s slots) as Hsame.
  { apply n_hot_ext. intros j Hj. apply eq_bool_prop_intro. rewrite !Is_true_true, !hot_pending.
    assert (j ≠ i) by (by intros ->). by setoid_rewrite Hpend. }
  destruct Hcase as [(fd0 & Hp0 & Hnr & Hserved & Hothers)|[Hnone ->]].
  - assert (hot s i = true) as E by (apply hot_pending; eauto). rewrite E in Hcount.
    destruct (IH s1 Hok1 Hrest ltac:(lia)) as (Hok' & Hs' & Hu').
    assert (∀ j, j ∈ slots → ¬ pending s1 j fd0) as Hfd0.
    { intros j Hj Hp. assert (j ≠ i) by (by intros ->). rewrite Hpend in Hp by done.
      by pose proof (ok_inj _ _ Hok _ _ _ (proj1 Hp) (proj1 Hp0)). }
    split; [done|]. split.
    + intros j fd [->|Hj]%elem_of_cons Hp.
      * assert (fd = fd0) as -> by (destruct Hp as [[? _] _], Hp0 as [[? _] _]; congruence).
        eapply served_untouched; [done|]. by apply Hu'.
      * assert (j ≠ i) by (by intros ->). eapply untouched_served; [|by apply (Hs' j); [|apply Hpend]].
        apply Hothers. intros ->. by apply (Hfd0 j Hj), Hpend.
    + intros fd Hnp. assert (fd ≠ fd0) by (intros ->; by apply (Hnp i); [left|]).
      eapply untouched_trans; [by apply Hothers|]. apply Hu'. intros j Hj Hp.
      assert (j ≠ i) by (by intros ->). apply (Hnp j); [by right|by apply Hpend].
  - destruct (IH s Hok Hrest ltac:(lia)) as (Hok' & Hs' & Hu'). split; [done|]. split.
    + intros j fd [->|Hj]%elem_of_cons Hp; [by destruct (Hnone fd)|eauto].
    + intros fd Hnp. apply Hu'. intros j Hj. apply Hnp. by right.
Qed.

(** The state in which [main] calls [check_clients]. *)
Definition arrive (ready : gset Z) (s : server) : server :=
  let p := the_pool s in
  MkServer (MkPool (maxfd p) (read_set p) ready (Z.of_nat (base.size ready)) (maxi p) (clientfd p) (clientrio p))
  (byte_cnt s) (conns s) (opened s).

Lemma arrive_ok listenfd ready s : pool_ok listenfd s → pool_ok listenfd (arrive ready s).
Proof. intros Hok. by apply pool_ok_same. Qed.

Lemma add_client_nready connfd p p' :
  add_client connfd p = Ret p' → nready p' = nready p - 1 ∧ ready_set p' = ready_set p.
Proof.
  unfold add_client. destruct (list_find _ _) as [[i fd]|]; [|done].
  intros (rio & _ & H)%bind_Ret. apply bind_Ret in H as (rs & _ & [= <-]). done.
Qed.
Lemma add_client_slot connfd p p' j fd :
  add_client connfd p = Ret p' → slot p j fd → slot p' j fd.
Proof.
  unfold add_client. destruct (list_find _ _) as [[i fd']|] eqn:Hf; [|done].
  apply list_find_Some in Hf as (Hi & Hneg & _).
  intros (rio & _ & H)%bind_Ret [Hj Hpos]. apply bind_Ret in H as (rs & _ & [= <-]).
  split; [|done]. cbn [clientfd]. rewrite list_lookup_insert_ne; [done|]. intros ->.
  rewrite Hi in Hj. simplify_eq. lia.
Qed.

Lemma seq_all_slots listenfd s i fd :
  pool_ok listenfd s → slot (the_pool s) i fd → i ∈ seq 0 (Z.to_nat (maxi (the_pool s) + 1)).
Proof. intros Hok Hs%(ok_high _ _ Hok). apply elem_of_seq. lia. Qed.

Lemma turn_spec listenfd ready incoming s s' :
  pool_ok listenfd s → ready ⊆ read_set (the_pool s) →
  (∀ connfd c, incoming = Some (connfd, c) → 0 < connfd ∧ connfd ∉ opened s) →
  turn listenfd ready incoming s = Ret s' →
  pool_ok listenfd s' ∧
  (∀ fd, fd ∈ ready → fd ≠ listenfd → served s s' fd) ∧
  (∀ fd, fd ∉ ready → fd ∈ opened s → untouched s s' fd) ∧
  (∀ connfd c, incoming = Some (connfd, c) → listenfd ∈ ready →
   connfd ∈ opened s' ∧ conns s' !! connfd = Some c).
Proof.
  intros Hok Hsub Hnew Hturn. unfold turn in Hturn.
  apply bind_Ret in Hturn as (s1 & Haccept & Hcheck).
  assert (pool_ok listenfd s1 ∧ ready_set (the_pool s1) = ready ∧
    Z.of_nat (base.size (ready ∖ {[listenfd]})) <= nready (the_pool s1) ∧
    (∀ i fd, slot (the_pool s) i fd → slot (the_pool s1) i fd) ∧
    (∀ fd, fd ∈ opened s → untouched s s1 fd) ∧
    (∀ connfd c, incoming = Some (connfd, c) → listenfd ∈ ready →
       connfd ∈ opened s1 ∧ conns s1 !! connfd = Some c ∧ connfd ∉ ready))
    as (Hok1 & Hr1 & Hn1 & Hs1 & Hu1 & Hin1).
  { case_bool_decide as Hl.
    - destruct incoming as [[connfd c]|]; [|done]. destruct (Hnew connfd c eq_refl) as [Hpos Hno].
      apply bind_Ret in Haccept as (p' & Hadd & [= <-]).
      pose proof (add_client_ok listenfd (arrive ready s) connfd c p' (arrive_ok _ _ _ Hok) Hpos Hno Hadd) as Hok1.
      destruct (add_client_nready _ _ _ Hadd) as [Hn1 Hr1]. cbn in Hn1, Hr1.
      split; [done|]. split; [done|]. split; [|split; [|split]].
      + cbn [the_pool]. rewrite Hn1, size_difference, size_singleton by set_solver.
        assert (base.size ({[listenfd]} : gset Z) ≤ base.size ready)%nat as Hsz by (apply subseteq_size; set_solver).
        rewrite size_singleton in Hsz. lia.
      + intros i fd Hs. by eapply add_client_slot in Hadd.
      + intros fd Hfd. split; cbn [conns opened]; [|set_solver].
        rewrite lookup_insert_ne; [done|]. by intros ->.
      + intros connfd' c' [= <- <-] _. cbn [conns opened]. rewrite lookup_insert_eq. split; [set_solver|].
        split; [done|]. intros ?%Hsub. by rewrite <-(ok_open _ _ Hok) in *.
    - simplify_eq. split; [by apply arrive_ok|]. split; [done|]. split; [|split; [done|split; [done|done]]].
      cbn [the_pool nready arrive]. apply inj_le, subseteq_size. set_solver. }
  destruct (check_from_spec listenfd _ s1 s' (NoDup_seq _ _) Hok1 Hcheck) as (Hok' & Hserved & Hrest).
  { eapply Z.le_trans; [|exact Hn1]. apply inj_le. rewrite <-Hr1. by apply n_hot_bound, NoDup_seq. }
  assert (∀ fd, fd ∉ ready → untouched s1 s' fd) as Hquiet.
  { intros fd Hfd. apply Hrest. intros i _ [_ Hin]. by rewrite Hr1 in Hin. }
  split; [done|]. split; [|split].
  - intros fd Hfd Hne. assert (fd ∈ opened s) as Ho by (rewrite (ok_open _ _ Hok); by apply Hsub).
    pose proof Ho as Ho'. rewrite (ok_open _ _ Hok), (ok_watch _ _ Hok) in Ho'.
    destruct Ho' as [->|[i Hsl]]; [done|]. eapply untouched_served; [by apply Hu1|].
    apply (Hserved i); [eapply seq_all_slots; eauto|]. split; [eauto|]. by rewrite Hr1.
  - intros fd Hfd Ho. eapply untouched_trans; [by apply Hu1|]. by apply Hquiet.
  - intros connfd c Hi Hl. destruct (Hin1 connfd c Hi Hl) as (Ho & Hc & Hnr).
    destruct (Hquiet connfd Hnr) as [E1 E2]. by rewrite E1, E2.
Qed.
(** C24. Every turn of the server keeps its tables consistent with the set of watched
    descriptors, reads one line from each client that select reported and writes it
    back (closing the ones at their end), leaves the other clients alone, and
    enters a new client. *)
Theorem turn_serves_ready listenfd ready incoming s s' :
  pool_ok listenfd s → ready ⊆ read_set (the_pool s) →
  (∀ connfd c, incoming = Some (connfd, c) → 0 < connfd ∧ connfd ∉ opened s) →
  turn listenfd ready incoming s = Ret s' →
  pool_ok listenfd s' ∧
  (∀ fd, fd ∈ ready → fd ≠ listenfd → served s s' fd) ∧
  (∀ fd, fd ∉ ready → fd ∈ opened s → untouched s s' fd) ∧
  (∀ connfd c, incoming = Some (connfd, c) → listenfd ∈ ready →
   connfd ∈ opened s' ∧ conns s' !! connfd = Some c).
Proof. apply turn_spec. Qed.

Lemma start_ok listenfd s : start listenfd = Ret s → 0 < listenfd → pool_ok listenfd s.
Proof. intros (p & Hp & [= <-])%bind_Ret ?. by apply init_ok. Qed.

Lemma start_sets listenfd s :
  start listenfd = Ret s → read_set (the_pool s) = {[listenfd]} ∪ ∅ ∧ opened s = {[listenfd]}.
Proof.
  intros (p & Hp & [= <-])%bind_Ret. apply bind_Ret in Hp as (rs & Hrs & [= <-]).
  unfold FD_SET in Hrs. destruct (_ && _)%bool; [|done]. by injection Hrs as <-.
Qed.

Definition returns {A} (o : outcome A) : bool := match o with Ret _ => true | _ => false end.
Lemma returns_Ret {A} (o : outcome A) : returns o = true → ∃ a, o = Ret a.
Proof. destruct o; [eauto|done..]. Qed.

(** A client that sends two lines in one segment. *)
Definition two_lines : conn :=
  Conn (World (line_bytes (lit "one") ++ line_bytes (lit "two")) [] [] 0) (World [] [] [] 0).

Lemma turn_serves_ready_witness :
  ∃ s0 s1 s2, start 3 = Ret s0 ∧ turn 3 {[3]} (Some (4, two_lines)) s0 = Ret s1 ∧
  turn 3 {[4]} None s1 = Ret s2 ∧ pool_ok 3 s2 ∧ served s1 s2 4 ∧ out <$> (wr <$> conns s2 !! 4) = Some (line_bytes (lit "one")).
Proof.
  destruct (returns_Ret (start 3)) as [s0 E0]; [by vm_compute|].
  assert (returns (start 3 ≫= turn 3 {[3]} (Some (4, two_lines))) = true) as H1 by (by vm_compute).
  rewrite E0 in H1. apply returns_Ret in H1 as [s1 E1]. cbn [mbind outcome_bind] in E1.
  assert (returns ((start 3 ≫= turn 3 {[3]} (Some (4, two_lines))) ≫= turn 3 {[4]} None) = true) as H2 by (by vm_compute).
  rewrite E0 in H2. cbn [mbind outcome_bind] in H2. rewrite E1 in H2. apply returns_Ret in H2 as [s2 E2].
  cbn [mbind outcome_bind] in E2.
  assert (match (start 3 ≫= turn 3 {[3]} (Some (4, two_lines))) ≫= turn 3 {[4]} None with
          | Ret s => bool_decide (out <$> (wr <$> conns s !! 4) = Some (line_bytes (lit "one")))
          | _ => false end = true) as H3 by (by vm_compute).
  assert (match start 3 ≫= turn 3 {[3]} (Some (4, two_lines)) with
          | Ret s => bool_decide (4 ∈ read_set (the_pool s))
          | _ => false end = true) as H4 by (by vm_compute).
  rewrite E0 in H3, H4. cbn [mbind outcome_bind] in H3, H4. rewrite E1 in H3, H4.
  cbn [mbind outcome_bind] in H3. rewrite E2 in H3. apply bool_decide_eq_true in H3, H4.
  destruct (start_sets 3 s0 E0) as [Hr0 Ho0].
  destruct (turn_serves_ready 3 {[3]} (Some (4, two_lines)) s0 s1) as (Hok1 & _).
  - by apply (start_ok 3).
  - rewrite Hr0. set_solver.
  - intros connfd c [= <- <-]. split; [lia|]. rewrite Ho0. set_solver.
  - done.
  - destruct (turn_serves_ready 3 {[4]} None s1 s2) as (Hok2 & Hserved & _);
      [done|set_solver|done|done|].
    exists s0, s1, s2. do 4 (split; [done|]). split; [|done]. apply Hserved; [set_solver|done].
Defined.

(** ** Lines that arrive together *)

Lemma turn_one_client listenfd s s' fd w w' wr l rest later :
  pool_ok listenfd s → fd ≠ listenfd → fd ∈ opened s → conns s !! fd = Some (Conn w wr) →
  arrives (line_bytes l ++ rest) later w w' → newline ∉ l → (length l + 1 < MAXLINE)%nat →
  Forall advances (answers wr) → turn listenfd {[fd]} None s = Ret s' →
  pool_ok listenfd s' ∧ fd ∈ opened s' ∧
  ∃ wr', conns s' !! fd = Some (Conn w' wr') ∧ out wr' = out wr ++ line_bytes l ∧ Forall advances (answers wr').
Proof.
  intros Hok Hl Ho Hc Harr Hn Hlen Hw Ht.
  destruct (turn_spec listenfd {[fd]} None s s') as (Hok' & Hs & _);
    [done|by rewrite <-(ok_open _ _ Hok); set_solver|done|done|].
  destruct (Hs fd) as (bc & rio & c & n & c' & Hf & Hc' & He & Hcs & Hop); [set_solver|done|].
  rewrite Hc in Hc'. injection Hc' as <-.
  destruct (echo_line_segment bc rio l rest later w w' wr) as (wr' & E & Ho' & Hw'); [done..|].
  rewrite E in He. destruct (2 ^ 31 <=? bc + size (line_bytes l)); [done|]. injection He as <- <-. split; [done|]. split; [|eauto].
  apply Hop. unfold size, line_bytes. rewrite length_app. cbn. lia.
Qed.

(** A server on descriptor 3 that has accepted one client on 4. *)
Lemma one_client c :
  ∃ s1, start 3 ≫= turn 3 {[3]} (Some (4, c)) = Ret s1 ∧ pool_ok 3 s1 ∧ 4 ∈ opened s1 ∧ conns s1 !! 4 = Some c.
Proof.
  assert (returns (start 3 ≫= turn 3 {[3]} (Some (4, c))) = true) as H1 by (by vm_compute).
  apply returns_Ret in H1 as [s1 E1]. exists s1. split; [done|].
  apply bind_Ret in E1 as (s0 & E0 & E1). destruct (start_sets 3 s0 E0) as [Hr0 Ho0].
  destruct (turn_spec 3 {[3]} (Some (4, c)) s0 s1) as (Hok1 & _ & _ & Hnew).
  - by apply (start_ok 3).
  - rewrite Hr0. set_solver.
  - intros connfd c' [= <- <-]. split; [lia|]. rewrite Ho0. set_solver.
  - done.
  - split; [done|]. apply (Hnew 4 c); [done|set_solver].
Qed.

(** When one read brings a line and more, the server echoes the line and loses the
    rest: [check_clients] reads through a copy of the client's buffer, so the bytes
    after the line are neither sent back nor left to be read. *)
Theorem pool_keeps_first_line_only listenfd s s' fd w w' wr l rest later :
  pool_ok listenfd s → fd ≠ listenfd → fd ∈ opened s → conns s !! fd = Some (Conn w wr) →
  arrives (line_bytes l ++ rest) later w w' → newline ∉ l → (length l + 1 < MAXLINE)%nat →
  Forall advances (answers wr) → turn listenfd {[fd]} None s = Ret s' →
  ∃ wr', conns s' !! fd = Some (Conn w' wr') ∧ out wr' = out wr ++ line_bytes l ∧ inp w' = later ∧
         Forall fresh_rio (clientrio (the_pool s')).
Proof.
  intros Hok Hl Ho Hc Harr Hn Hlen Hw Ht.
  destruct (turn_one_client listenfd s s' fd w w' wr l rest later) as (Hok' & _ & wr' & ? & ? & _); [done..|].
  exists wr'. do 2 (split; [done|]). split; [apply Harr|apply (ok_rio _ _ Hok')].
Qed.

Lemma pool_keeps_first_line_only_witness :
  let seg := line_bytes (lit "one") ++ line_bytes (lit "two") in
  let c := Conn (World seg [] [Moves 8] 0) (World [] [] [] 0) in
  ∃ s1 s2, start 3 ≫= turn 3 {[3]} (Some (4, c)) = Ret s1 ∧ turn 3 {[4]} None s1 = Ret s2 ∧
  ∃ wr', conns s2 !! 4 = Some (Conn (World [] [] [] 0) wr') ∧ out wr' = [] ++ line_bytes (lit "one") ∧
         inp (World [] [] [] 0) = [] ∧ Forall fresh_rio (clientrio (the_pool s2)).
Proof.
  intros seg c. destruct (one_client c) as (s1 & E1 & Hok & Ho & Hc).
  assert (returns ((start 3 ≫= turn 3 {[3]} (Some (4, c))) ≫= turn 3 {[4]} None) = true) as H2 by (by vm_compute).
  rewrite E1 in H2. apply returns_Ret in H2 as [s2 E2]. cbn [mbind outcome_bind] in E2.
  exists s1, s2. do 2 (split; [done|]).
  apply (pool_keeps_first_line_only 3 s1 s2 4 (World seg [] [Moves 8] 0) (World [] [] [] 0) (World [] [] [] 0)
    (lit "one") (line_bytes (lit "two")) []); try done.
  - repeat (split; [done|]). unfold RIO_BUFSIZE. cbn. lia.
  - apply (bool_decide_unpack _). by vm_compute.
  - cbn. pose proof MAXLINE_val. lia.
Defined.

(** The segments [ls] arrive one by one, each a whole line. *)
Fixpoint one_by_one (ls : list bytes) (w w' : world) : Prop :=
  match ls with
  | [] => w' = w
  | l :: ls => ∃ later w1, arrives (line_bytes l ++ []) later w w1 ∧ one_by_one ls w1 w'
  end.

(** A client whose lines arrive one per segment, as an interactive client's do, gets
    every line back, in order, one per turn. *)
Theorem interactive_client_echoed listenfd fd ls s s' w w' wr :
  pool_ok listenfd s → fd ≠ listenfd → fd ∈ opened s → conns s !! fd = Some (Conn w wr) →
  one_by_one ls w w' → Forall (λ l, (newline ∉ l) ∧ (length l + 1 < MAXLINE)%nat) ls →
  Forall advances (answers wr) → turns listenfd ((λ _, {[fd]}) <$> ls) s = Ret s' →
  ∃ wr', conns s' !! fd = Some (Conn w' wr') ∧ out wr' = out wr ++ concat (line_bytes <$> ls).
Proof.
  revert s w wr. induction ls as [|l ls IH]; intros s w wr Hok Hl Ho Hc Harr Hls Hw Ht; cbn in Ht.
  { injection Ht as <-. cbn in Harr. subst. exists wr. by rewrite app_nil_r. }
  apply bind_Ret in Ht as (s1 & Ht1 & Ht). destruct Harr as (later & w1 & Harr & Hrest).
  inversion Hls as [|?? [Hn Hlen] Hls']; subst.
  destruct (turn_one_client listenfd s s1 fd w w1 wr l [] later) as (Hok1 & Ho1 & wr1 & Hc1 & Hout1 & Hw1); [done..|].
  destruct (IH s1 w1 wr1) as (wr' & Hc' & Hout); [done..|]. exists wr'. split; [done|].
  by rewrite Hout, Hout1, <-app_assoc.
Qed.

Lemma interactive_client_echoed_witness :
  let c := Conn (World (line_bytes (lit "one") ++ line_bytes (lit "two")) [] [Moves 4; Moves 4] 0) (World [] [] [] 0) in
  ∃ s1 s2, start 3 ≫= turn 3 {[3]} (Some (4, c)) = Ret s1 ∧ turns 3 [{[4]}; {[4]}] s1 = Ret s2 ∧
  ∃ wr', conns s2 !! 4 = Some (Conn (World [] [] [] 0) wr') ∧
         out wr' = [] ++ concat (line_bytes <$> [lit "one"; lit "two"]).
Proof.
  intros c. destruct (one_client c) as (s1 & E1 & Hok & Ho & Hc).
  assert (returns ((start 3 ≫= turn 3 {[3]} (Some (4, c))) ≫= turns 3 [{[4]}; {[4]}]) = true) as H2 by (by vm_compute).
  rewrite E1 in H2. apply returns_Ret in H2 as [s2 E2]. cbn [mbind outcome_bind] in E2.
  exists s1, s2. do 2 (split; [done|]).
  apply (interactive_client_echoed 3 4 [lit "one"; lit "two"] s1 s2
    (World (line_bytes (lit "one") ++ line_bytes (lit "two")) [] [Moves 4; Moves 4] 0) (World [] [] [] 0) (World [] [] [] 0));
    try done.
  - exists (line_bytes (lit "two")), (World (line_bytes (lit "two")) [] [Moves 4] 0). split.
    { repeat (split; [done|]). unfold RIO_BUFSIZE. cbn. lia. }
    exists [], (World [] [] [] 0). split; [|done]. repeat (split; [done|]). unfold RIO_BUFSIZE. cbn. lia.
  - pose proof MAXLINE_val. repeat constructor; try (cbn; lia); apply (bool_decide_unpack _); by vm_compute.
Defined.

(** ** The table is never full *)

Lemma used_slots_bound listenfd s :
  pool_ok listenfd s → ∃ i, clientfd (the_pool s) !! i = Some (-1).
Proof.
  intros Hok. destruct (decide (-1 ∈ clientfd (the_pool s))) as [[i Hi]%list_elem_of_lookup|Hno]; [eauto|].
  exfalso. assert (∀ i fd, clientfd (the_pool s) !! i = Some fd → 0 < fd < 1024) as Hall.
  { intros i fd Hi. destruct (ok_slot _ _ Hok _ _ Hi) as [->|[Hpos _]].
    - exfalso. by eapply Hno, list_elem_of_lookup_2.
    - assert (fd ∈ read_set (the_pool s)) as Hin by (apply (ok_watch _ _ Hok); right; by exists i).
      apply (ok_bits _ _ Hok) in Hin. pose proof FD_SETSIZE_val. lia. }
  assert (NoDup (clientfd (the_pool s))) as Hnd.
  { apply NoDup_alt. intros i j fd Hi Hj.
    apply (ok_inj _ _ Hok i j fd); (split; [done|]; eapply Hall; eauto). }
  assert (length (Z.to_nat <$> clientfd (the_pool s)) ≤ length (seq 1 1023))%nat as Hle.
  { apply submseteq_length, NoDup_submseteq.
    - apply NoDup_fmap_2_strong; [|done]. intros x y [i Hi]%list_elem_of_lookup [j Hj]%list_elem_of_lookup E.
      apply Hall in Hi, Hj. lia.
    - intros n (fd & -> & [i Hi]%list_elem_of_lookup)%list_elem_of_fmap. apply Hall in Hi.
      apply elem_of_seq. lia. }
  rewrite length_fmap, length_seq, (ok_len _ _ Hok) in Hle. pose proof FD_SETSIZE_val. lia.
Qed.

(** The error exit for a full table is unreachable: there is always a slot, and
    what happens first is that [FD_SET] is given a descriptor beyond its bit map. *)
Theorem too_many_clients_unreachable listenfd s connfd :
  pool_ok listenfd s → 0 < connfd →
  (connfd < 1024 → ∃ p', add_client connfd (the_pool s) = Ret p') ∧
  (1024 <= connfd → add_client connfd (the_pool s) = Undef).
Proof.
  intros Hok Hpos. destruct (used_slots_bound listenfd s Hok) as [k Hk].
  unfold add_client. destruct (list_find _ _) as [[i fd]|] eqn:Hf.
  2: { apply list_find_None in Hf. apply (Forall_lookup_1 _ _ _ _ Hf) in Hk. lia. }
  apply list_find_Some in Hf as (Hi & _ & _).
  destruct (clientrio (the_pool s) !! i) as [rio|] eqn:Hr.
  2: { apply lookup_ge_None in Hr. apply lookup_lt_Some in Hi. destruct Hok. lia. }
  cbn [deref mbind outcome_bind]. unfold FD_SET. rewrite FD_SETSIZE_val.
  split; intros H.
  - rewrite (proj2 (Z.leb_le 0 connfd)), (proj2 (Z.ltb_lt connfd 1024)) by lia. cbn. eauto.
  - rewrite (proj2 (Z.ltb_ge connfd 1024)), andb_false_r by lia. done.
Qed.
Lemma too_many_clients_unreachable_witness :
  ∃ s1, start 3 ≫= turn 3 {[3]} (Some (4, two_lines)) = Ret s1 ∧
  (5 < 1024 → ∃ p', add_client 5 (the_pool s1) = Ret p') ∧ (1024 <= 5 → add_client 5 (the_pool s1) = Undef).
Proof.
  destruct (one_client two_lines) as (s1 & E1 & Hok & _). exists s1. split; [done|].
  apply (too_many_clients_unreachable 3 s1 5); [done|lia].
Defined.
End Pool.

Module SelectServer.

(** The variables of [main]; [conns] and [opened] as in [Pool]. *)
Record server := MkServer {
  read_set : gset Z;
  fd_list : list Z;
  max_idx : Z;
  conns : gmap Z conn;
  opened : gset Z
}.

Definition start (listenfd : Z) : outcome server :=
  rs ← FD_SET listenfd ∅; Ret (MkServer rs (replicate FD_SETSIZE (-1)) (-1) ∅ {[listenfd]}).

(** Case A: [connfd] is what [accept] returned, -1 included. *)
Definition new_client (connfd : Z) (c : conn) (s : server) : outcome server :=
  rs ← FD_SET connfd (read_set s);
  let '(fds, i) :=
    match list_find (λ fd, fd < 0) (fd_list s) with
    | Some (i, _) => (<[i := connfd]> (fd_list s), i)
    | None => (fd_list s, FD_SETSIZE)
    end in
  Ret (MkServer rs fds (if max_idx s <? Z.of_nat i then Z.of_nat i else max_idx s)
         (<[connfd := c]> (conns s)) ({[connfd]} ∪ opened s)).

(** [read] and, when it brought something, [write] of the same bytes, whose result is
    not looked at. *)
Definition echo_block (c : conn) : Z * conn :=
  let '(n, data, rd') := sys_read MAXLINE (rd c) in
  (n, Conn rd' (if 0 <? n then (sys_write data (wr c)).2 else wr c)).

(** Case B for one index; an index beyond the array is read all the same. *)
Definition check_fd (ready : gset Z) (i : nat) (s : server) : outcome server :=
  fd ← deref (fd_list s !! i);
  if (0 <? fd) && bool_decide (fd ∈ ready) then
    c ← deref (conns s !! fd);
    let '(n, c') := echo_block c in
    if 0 <? n then Ret (MkServer (read_set s) (fd_list s) (max_idx s) (<[fd := c']> (conns s)) (opened s))
    else Ret (MkServer (read_set s ∖ {[fd]}) (<[i := -1]> (fd_list s)) (max_idx s) (<[fd := c']> (conns s))
                (opened s ∖ {[fd]}))
  else Ret s.

Fixpoint check_fds (ready : gset Z) (slots : list nat) (s : server) : outcome server :=
  match slots with
  | [] => Ret s
  | i :: slots => s' ← check_fd ready i s; check_fds ready slots s'
  end.

Definition turn (listenfd : Z) (ready : gset Z) (incoming : Z * conn) (s : server) : outcome server :=
  s ← (if bool_decide (listenfd ∈ ready) then new_client incoming.1 incoming.2 s else Ret s);
  check_fds ready (seq 0 (Z.to_nat (max_idx s + 1))) s.

(** A failed [accept] is not noticed: the turn sets bit -1 of the watched set. *)
Theorem failed_accept_undefined listenfd ready c s :
  listenfd ∈ ready → turn listenfd ready (-1, c) s = Undef.
Proof. intros H. unfold turn. by rewrite bool_decide_true. Qed.
Lemma failed_accept_undefined_witness :
  turn 3 {[3]} (-1, Conn (World [] [] [] 0) (World [] [] [] 0)) (MkServer {[3]} [] (-1) ∅ {[3]}) = Undef.
Proof. apply failed_accept_undefined. set_solver. Defined.

Lemma check_fds_quiet ready slots s :
  Forall (λ i, ∃ fd, fd_list s !! i = Some fd ∧ ¬ (0 < fd ∧ fd ∈ ready)) slots → check_fds ready slots s = Ret s.
Proof.
  induction 1 as [|i slots (fd & Hfd & Hno) _ IH]; [done|]. cbn [check_fds].
  assert (check_fd ready i s = Ret s) as ->; [|exact IH].
  unfold check_fd. rewrite Hfd. cbn [deref mbind outcome_bind].
  destruct ((0 <? fd) && bool_decide (fd ∈ ready)) eqn:E; [|done].
  apply andb_prop in E as [?%Z.ltb_lt ?%bool_decide_eq_true]. by destruct Hno.
Qed.

(** A turn in which one client is ready writes back the block it sent - or only the
    part of it that [write] took, the rest being lost. *)
Theorem one_ready_client listenfd s fd i c data rd' :
  fd ≠ listenfd → 0 < fd → fd_list s !! i = Some fd → Z.of_nat i <= max_idx s < Z.of_nat (length (fd_list s)) →
  (∀ j, fd_list s !! j = Some fd → j = i) →
  conns s !! fd = Some c → sys_read MAXLINE (rd c) = (size data, data, rd') → data ≠ [] →
  ∃ s' wr', turn listenfd {[fd]} (0, c) s = Ret s' ∧ conns s' !! fd = Some (Conn rd' wr') ∧
  opened s' = opened s ∧
  match answers (wr c) with
  | [] => out wr' = out (wr c) ++ data
  | Moves k :: _ => out wr' = out (wr c) ++ take k data
  | Fails _ :: _ => out wr' = out (wr c)
  end.
Proof.
  intros Hl Hpos Hi Hmax Huniq Hc Hrd Hne.
  assert (0 < size data) as Hsz by (unfold size; destruct data; [done|cbn; lia]).
  set (wr' := (sys_write data (wr c)).2).
  set (s' := MkServer (read_set s) (fd_list s) (max_idx s) (<[fd := Conn rd' wr']> (conns s)) (opened s)).
  assert (check_fd {[fd]} i s = Ret s') as Hcheck.
  { unfold check_fd. rewrite Hi. cbn [deref mbind outcome_bind].
    rewrite (proj2 (Z.ltb_lt 0 fd)), bool_decide_true by (done || set_solver). cbn [andb].
    rewrite Hc. cbn [deref mbind outcome_bind]. unfold echo_block. rewrite Hrd.
    by rewrite (proj2 (Z.ltb_lt 0 (size data))). }
  exists s', wr'. split; [|split; [by apply lookup_insert_eq|split; [done|]]].
  - unfold turn. rewrite bool_decide_false by set_solver. cbn [mbind outcome_bind].
    replace (Z.to_nat (max_idx s + 1)) with (i + S (Z.to_nat (max_idx s) - i))%nat by lia.
    rewrite seq_app. cbn [seq Nat.add].
    assert (∀ a b s0, check_fds {[fd]} (a ++ b) s0 = check_fds {[fd]} a s0 ≫= check_fds {[fd]} b) as Happ.
    { intros a b. induction a as [|j a IH]; intros s0; [done|]. cbn [app check_fds].
      destruct (check_fd {[fd]} j s0); [apply IH|done..]. }
    assert (∀ j, (j < length (fd_list s))%nat → j ≠ i → ∃ fd', fd_list s !! j = Some fd' ∧ ¬ (0 < fd' ∧ fd' ∈ ({[fd]} : gset Z))) as Hq.
    { intros j Hj Hji. destruct (lookup_lt_is_Some_2 _ _ Hj) as [fd' Hfd']. exists fd'. split; [done|].
      intros [_ ->%elem_of_singleton]. by apply Hji, Huniq. }
    rewrite Happ, check_fds_quiet.
    2: { apply Forall_forall. intros j ?%elem_of_seq. apply Hq; lia. }
    cbn [mbind outcome_bind check_fds]. rewrite Hcheck. cbn [mbind outcome_bind].
    apply check_fds_quiet, Forall_forall. intros j ?%elem_of_seq. apply Hq; lia.
  - unfold wr', sys_write. by destruct (answers (wr c)) as [|[k|e] ?].
Qed.
Lemma one_ready_client_witness :
  let c := Conn (World (lit "hello") [] [] 0) (World [] [] [Moves 2] 0) in
  let s := MkServer ({[4]} ∪ {[3]}) [4; -1] 0 {[4 := c]} {[3; 4]} in
  ∃ s' wr', turn 3 {[4]} (0, c) s = Ret s' ∧ conns s' !! 4 = Some (Conn (World [] [] [] 0) wr') ∧
  opened s' = opened s ∧ out wr' = [] ++ take 2 (lit "hello").
Proof.
  intros c s. apply (one_ready_client 3 s 4 0 c (lit "hello") (World [] [] [] 0)); try done.
  intros [|[|j]]; done.
Defined.
End SelectServer.

Module WebServer.

(** The response of the loop body, and its length field. *)
Definition body : bytes := lit "<html><body>Hello from WSL!</body></html>".
Definition header (len : string) : bytes :=
  lit "HTTP/1.1 200 OK" ++ [cr; newline] ++ lit "Content-Type: text/html; charset=utf-8" ++ [cr; newline] ++
  lit "Content-Length: " ++ lit len ++ [cr; newline] ++ lit "Connection: close" ++ [cr; newline] ++ [cr; newline].
Definition response : bytes := header "38" ++ body.

(** What happens to descriptors: open ones, and whether one was closed that was not open. *)
Record fds := Fds { opened : gset Z; bad_close : bool }.
Definition close (fd : Z) (s : fds) : fds :=
  Fds (opened s ∖ {[fd]}) (bad_close s || negb (bool_decide (fd ∈ opened s))).

(** One connection: [read], one [write] when something came, and two [close]s. *)
Definition serve (connfd : Z) (c : conn) (s : fds) : conn * fds :=
  let '(n, data, rd') := sys_read MAXLINE (rd c) in
  let wr' := if 0 <? n then (sys_write response (wr c)).2 else wr c in
  (Conn rd' wr', close connfd (close connfd s)).

(** The length field of the response says 38, three bytes less than the body has,
    so a client that obeys it drops the end of the page; and each connection is
    closed a second time after its descriptor has been given back. *)
Theorem response_length_wrong connfd c s :
  size body = 41 ∧ response = header "38" ++ body ∧
  (answers (rd c) = [] → inp (rd c) ≠ [] → answers (wr c) = [] →
   out (wr (serve connfd c s).1) = out (wr c) ++ response) ∧
  bad_close (serve connfd c s).2 = true.
Proof.
  split; [done|]. split; [done|]. split.
  - intros Ha Hi Hw. unfold serve, sys_read. rewrite Ha.
    assert (0 < size (take MAXLINE (inp (rd c)))) as Hs.
    { pose proof MAXLINE_val. unfold size. rewrite length_take. destruct (inp (rd c)); [done|cbn; lia]. }
    rewrite (proj2 (Z.ltb_lt _ _) Hs). cbn [fst EchoPool.wr]. unfold sys_write. by rewrite Hw.
  - unfold serve. destruct (sys_read MAXLINE (rd c)) as [[n data] rd']. cbn [snd close bad_close opened].
    rewrite (bool_decide_false (connfd ∈ opened s ∖ {[connfd]})) by set_solver. apply orb_true_r.
Qed.
End WebServer.
