(* ===== verification/Semaphores.v ===== *)
(** * Threads of the C programs: semaphores and a task queue

    [Module BoundedBuffer] is chapter12/threads/p_and_c_demo.c, a producer and a
    consumer around a ring of five places guarded by three semaphores.  [Module
    TaskQueue] is concurrent/code/c_tasks_queue.c, a worker that takes tasks from a
    linked list under a mutex and a condition variable.  A critical section of the
    queue is one step; the steps of the ring are single operations.  A step names the
    thread that moves; [None] is a thread that cannot. *)

From stdpp Require Import base numbers gmap list.
From Stdlib Require Import ZArith Lia.
From S2P Require Import Prelude.

Module BoundedBuffer.

Definition BUF_SIZE : nat := 5.
(** The number of items both loops run through. *)
Definition ITEMS : nat := 10.

(** Where a thread is in the body of its loop: before [sem_wait] of its counting
    semaphore, before [sem_wait(&mutex)], before the access to the buffer, before
    the move of its index, before [sem_post(&mutex)], before the last [sem_post]. *)
Inductive stage := Wait | Lock | Access | Advance | Unlock | Post.

(** [i] is the loop variable; the loop is over when it exceeds [ITEMS]. *)
Record thread := Thread { i : nat; at_ : stage }.

Record state := State {
  buffer : list nat; front : nat; rear : nat;
  mutex : nat; slots : nat; items : nat;
  producer : thread; consumer : thread;
  consumed : list nat  (* what the consumer took, in order *)
}.

Definition start : state :=
  State (replicate BUF_SIZE 0) 0 0 1 BUF_SIZE 0 (Thread 1 Wait) (Thread 1 Wait) [].

(** [sem_wait] blocks at 0. *)
Definition sem_wait (v : nat) : option nat := match v with O => None | S v => Some v end.
Definition sem_post (v : nat) : nat := S v.

Definition produce (s : state) : option state :=
  let '(State b f r m sl it (Thread i a) c out) := s in
  if ITEMS <? i then None
  else
    match a with
    | Wait => sl' ← sem_wait sl; Some (State b f r m sl' it (Thread i Lock) c out)
    | Lock => m' ← sem_wait m; Some (State b f r m' sl it (Thread i Access) c out)
    | Access => Some (State (<[r := i]> b) f r m sl it (Thread i Advance) c out)
    | Advance => Some (State b f ((r + 1) mod BUF_SIZE) m sl it (Thread i Unlock) c out)
    | Unlock => Some (State b f r (sem_post m) sl it (Thread i Post) c out)
    | Post => Some (State b f r m sl (sem_post it) (Thread (i + 1) Wait) c out)
    end.

Definition consume (s : state) : option state :=
  let '(State b f r m sl it p (Thread i a) out) := s in
  if ITEMS <? i then None
  else
    match a with
    | Wait => it' ← sem_wait it; Some (State b f r m sl it' p (Thread i Lock) out)
    | Lock => m' ← sem_wait m; Some (State b f r m' sl it p (Thread i Access) out)
    | Access => item ← b !! f; Some (State b f r m sl it p (Thread i Advance) (out ++ [item]))
    | Advance => Some (State b ((f + 1) mod BUF_SIZE) r m sl it p (Thread i Unlock) out)
    | Unlock => Some (State b f r (sem_post m) sl it p (Thread i Post) out)
    | Post => Some (State b f r m (sem_post sl) it p (Thread (i + 1) Wait) out)
    end.

(** A schedule: [true] lets the producer move, [false] the consumer. *)
Definition step (s : state) (t : bool) : option state := if t then produce s else consume s.
Fixpoint run (s : state) (ts : list bool) : option state :=
  match ts with
  | [] => Some s
  | t :: ts => s' ← step s t; run s' ts
  end.

(** ** The invariant *)

Definition rank (a : stage) : nat :=
  match a with Wait => 0 | Lock => 1 | Access => 2 | Advance => 3 | Unlock => 4 | Post => 5 end.
(** How often a thread has passed a point of its body that [r] steps precede. *)
Definition passed (r : nat) (t : thread) : nat := i t - 1 + (if r <? rank (at_ t) then 1 else 0).
Definition inside (t : thread) : nat :=
  if (1 <? rank (at_ t)) && (rank (at_ t) <? 5) then 1 else 0.

Record inv (s : state) : Prop := {
  inv_p : 1 ≤ i (producer s) ≤ ITEMS + 1 ∧ (i (producer s) = ITEMS + 1 → at_ (producer s) = Wait);
  inv_c : 1 ≤ i (consumer s) ≤ ITEMS + 1 ∧ (i (consumer s) = ITEMS + 1 → at_ (consumer s) = Wait);
  inv_slots : slots s + passed 0 (producer s) = BUF_SIZE + (i (consumer s) - 1);
  inv_items : items s + passed 0 (consumer s) = i (producer s) - 1;
  inv_mutex : mutex s + inside (producer s) + inside (consumer s) = 1;
  inv_rear : rear s = passed 3 (producer s) mod BUF_SIZE;
  inv_front : front s = passed 3 (consumer s) mod BUF_SIZE;
  inv_len : length (buffer s) = BUF_SIZE;
  inv_buffer k : passed 2 (consumer s) < k ≤ passed 2 (producer s) →
               buffer s !! ((k - 1) mod BUF_SIZE) = Some k;
  inv_out : consumed s = seq 1 (passed 2 (consumer s))
}.

Definition steps_left (t : thread) : nat := 6 * (ITEMS + 1 - i t) - rank (at_ t).

Lemma start_inv : inv start.
Proof. split; cbn; try lia; try done. Qed.

#[local] Opaque Nat.modulo.

Lemma succ_mod x : ((x mod BUF_SIZE) + 1) mod BUF_SIZE = (x + 1) mod BUF_SIZE.
Proof. unfold BUF_SIZE. by rewrite Nat.Div0.add_mod_idemp_l. Qed.

(** Items less than a buffer apart lie in different places. *)
Lemma mod_apart x y : x < y → y < x + BUF_SIZE → x mod BUF_SIZE ≠ y mod BUF_SIZE.
Proof.
  unfold BUF_SIZE. intros H1 H2 E. pose proof (Nat.div_mod_eq x 5). pose proof (Nat.div_mod_eq y 5).
  pose proof (Nat.mod_upper_bound x 5 ltac:(lia)). pose proof (Nat.mod_upper_bound y 5 ltac:(lia)). nia.
Qed.

Ltac thread_facts := unfold passed, inside, sem_post, ITEMS, BUF_SIZE in *; cbn in *.

Lemma produce_inv s s' : inv s → produce s = Some s' →
  inv s' ∧ S (steps_left (producer s')) = steps_left (producer s) ∧ consumer s' = consumer s.
Proof.
  destruct s as [b f r m sl it [pi pa] [ci ca] out]. intros [Hp Hc Hsl Hit Hm Hr Hf Hlen Hb Ho].
  cbn [producer consumer i at_ slots items mutex rear front buffer consumed] in *. unfold produce.
  destruct (Nat.ltb_spec ITEMS pi); [done|]. destruct pa.
  - destruct sl as [|sl]; cbn [sem_wait mbind option_bind]; [done|]. intros [= <-].
    split; [|split; [unfold steps_left, ITEMS in *; cbn in *; lia|done]].
    split; thread_facts; try done; try lia.
  - destruct m as [|m]; cbn [sem_wait mbind option_bind]; [done|]. intros [= <-].
    split; [|split; [unfold steps_left, ITEMS in *; cbn in *; lia|done]].
    split; thread_facts; try done; try lia.
  - intros [= <-]. split; [|split; [unfold steps_left, ITEMS in *; cbn in *; lia|done]].
    split; thread_facts; try done; try lia.
    + by rewrite length_insert.
    + intros k Hk. rewrite Nat.add_0_r in Hr.
      destruct (decide (k = pi)) as [->|Hne].
      * rewrite Hr. apply list_lookup_insert_eq. rewrite Hlen. unfold BUF_SIZE. apply Nat.mod_upper_bound. lia.
      * rewrite list_lookup_insert_ne; [apply Hb; lia|]. rewrite Hr. apply not_eq_sym, mod_apart; [lia|].
        unfold BUF_SIZE in *. destruct (rank ca); cbn in *; lia.
  - intros [= <-]. split; [|split; [unfold steps_left, ITEMS in *; cbn in *; lia|done]].
    split; thread_facts; try done; try lia. rewrite Hr, succ_mod. f_equal. lia.
  - intros [= <-]. split; [|split; [unfold steps_left, ITEMS in *; cbn in *; lia|done]].
    split; thread_facts; try done; try lia.
  - intros [= <-]. split; [|split; [unfold steps_left, ITEMS in *; cbn in *; lia|done]].
    split; thread_facts; try done; try lia.
    + split; [lia|done].
    + rewrite Hr. f_equal. lia.
    + intros k Hk. apply Hb. lia.
Qed.

Lemma consume_inv s s' : inv s → consume s = Some s' →
  inv s' ∧ S (steps_left (consumer s')) = steps_left (consumer s) ∧ producer s' = producer s.
Proof.
  destruct s as [b f r m sl it [pi pa] [ci ca] out]. intros [Hp Hc Hsl Hit Hm Hr Hf Hlen Hb Ho].
  cbn [producer consumer i at_ slots items mutex rear front buffer consumed] in *. unfold consume.
  destruct (Nat.ltb_spec ITEMS ci); [done|]. destruct ca.
  - destruct it as [|it]; cbn [sem_wait mbind option_bind]; [done|]. intros [= <-].
    split; [|split; [unfold steps_left, ITEMS in *; cbn in *; lia|done]].
    split; thread_facts; try done; try lia.
  - destruct m as [|m]; cbn [sem_wait mbind option_bind]; [done|]. intros [= <-].
    split; [|split; [unfold steps_left, ITEMS in *; cbn in *; lia|done]].
    split; thread_facts; try done; try lia.
  - (* the item is the one the producer wrote there *)
    assert (b !! f = Some ci) as ->.
    { rewrite Hf. thread_facts. replace (ci - 1 + 0) with (ci - 1) by lia. apply Hb.
      destruct pa; cbn in *; lia. }
    cbn [mbind option_bind]. intros [= <-].
    split; [|split; [unfold steps_left, ITEMS in *; cbn in *; lia|done]].
    split; thread_facts; try done; try lia.
    + intros k Hk. apply Hb. lia.
    + rewrite Ho. replace (ci - 1 + 1) with (S (ci - 1 + 0)) by lia. rewrite seq_S. do 2 f_equal. lia.
  - intros [= <-]. split; [|split; [unfold steps_left, ITEMS in *; cbn in *; lia|done]].
    split; thread_facts; try done; try lia. rewrite Hf, succ_mod. f_equal. lia.
  - intros [= <-]. split; [|split; [unfold steps_left, ITEMS in *; cbn in *; lia|done]].
    split; thread_facts; try done; try lia.
  - intros [= <-]. split; [|split; [unfold steps_left, ITEMS in *; cbn in *; lia|done]].
    split; thread_facts; try done; try lia.
    + split; [lia|done].
    + rewrite Hf. f_equal. lia.
    + intros k Hk. apply Hb. lia.
    + rewrite Ho. f_equal. lia.
Qed.

Lemma step_inv s t s' : inv s → step s t = Some s' →
  inv s' ∧ S (steps_left (producer s') + steps_left (consumer s')) = steps_left (producer s) + steps_left (consumer s).
Proof.
  intros Hi. destruct t; cbn [step].
  - intros H. destruct (produce_inv _ _ Hi H) as (H1 & H2 & ->). split; [done|lia].
  - intros H. destruct (consume_inv _ _ Hi H) as (H1 & H2 & ->). split; [done|lia].
Qed.

Lemma run_inv s ts s' : inv s → run s ts = Some s' →
  inv s' ∧ length ts + (steps_left (producer s') + steps_left (consumer s')) = steps_left (producer s) + steps_left (consumer s).
Proof.
  revert s. induction ts as [|t ts IH]; intros s Hi; cbn [run].
  - intros [= ->]. done.
  - destruct (step s t) as [s1|] eqn:E; cbn [mbind option_bind]; [|done].
    intros H. destruct (step_inv _ _ _ Hi E) as [Hi1 Hm]. destruct (IH s1 Hi1 H) as [Hi' Hm'].
    split; [done|]. cbn [length]. lia.
Qed.

(** When neither thread can move, both loops are over. *)
Lemma no_deadlock s : inv s → produce s = None → consume s = None →
  i (producer s) = ITEMS + 1 ∧ i (consumer s) = ITEMS + 1.
Proof.
  destruct s as [b f r m sl it [pi pa] [ci ca] out]. intros [Hp Hc Hsl Hit Hm Hr Hf Hlen Hb Ho].
  cbn [producer consumer i at_ slots items mutex rear front buffer consumed] in *.
  assert (is_Some (b !! f)) as [x Hx].
  { apply lookup_lt_is_Some. rewrite Hlen, Hf. unfold BUF_SIZE. apply Nat.mod_upper_bound. lia. }
  unfold produce, consume. rewrite Hx.
  destruct (Nat.ltb_spec ITEMS pi), (Nat.ltb_spec ITEMS ci).
  - intros _ _. unfold ITEMS in *. lia.
  - assert (pa = Wait) as -> by (apply Hp; unfold ITEMS in *; lia).
    destruct ca, it, m; cbn [sem_wait mbind option_bind]; try done; intros _ _; thread_facts; lia.
  - assert (ca = Wait) as -> by (apply Hc; unfold ITEMS in *; lia).
    destruct pa, sl, m; cbn [sem_wait mbind option_bind]; try done; intros _ _; thread_facts; lia.
  - destruct pa, ca; try destruct sl; try destruct m; try destruct it; cbn [sem_wait mbind option_bind];
      try done; intros _ _; thread_facts; lia.
Qed.

(** C26. Under every interleaving of producer and consumer, waits included: what the
    consumer has taken is an initial part of 1, 2, .. 10, so that no item is lost,
    repeated or overwritten in the ring of five places; the two threads are never
    inside the mutex together; every schedule has at most 120 steps, and when
    neither thread can move, both have returned and all ten items were taken. *)
Theorem bounded_buffer_exact ts s :
  run start ts = Some s →
  consumed s = seq 1 (length (consumed s)) ∧ inside (producer s) + inside (consumer s) ≤ 1 ∧
  length ts ≤ 120 ∧
  (produce s = None → consume s = None →
   length ts = 120 ∧ consumed s = seq 1 ITEMS ∧ slots s = BUF_SIZE ∧ items s = 0 ∧ mutex s = 1).
Proof.
  intros H. destruct (run_inv _ _ _ start_inv H) as [Hi Hm].
  change (steps_left (producer start) + steps_left (consumer start)) with 120 in Hm.
  split; [rewrite (inv_out _ Hi) at 1; f_equal; rewrite (inv_out _ Hi); by rewrite length_seq|].
  split; [pose proof (inv_mutex _ Hi); lia|]. split; [lia|]. intros H1 H2.
  destruct (no_deadlock s Hi H1 H2) as [Hpi Hci].
  destruct Hi as [[_ Hp] [_ Hc] Hsl Hit Hmu _ _ _ _ Ho]. specialize (Hp Hpi). specialize (Hc Hci).
  destruct s as [b f r m sl it [pi pa] [ci ca] out]. cbn in Hp, Hc, Hpi, Hci. subst. thread_facts.
  unfold steps_left in Hm. cbn in Hm. split; [lia|]. split; [done|]. lia.
Qed.
Lemma bounded_buffer_exact_witness :
  let ts := concat (replicate 10 (replicate 6 true ++ replicate 6 false)) in
  ∃ s, run start ts = Some s ∧ produce s = None ∧ consume s = None ∧
  consumed s = seq 1 (length (consumed s)) ∧ inside (producer s) + inside (consumer s) ≤ 1 ∧
  length ts ≤ 120 ∧
  (produce s = None → consume s = None →
   length ts = 120 ∧ consumed s = seq 1 ITEMS ∧ slots s = BUF_SIZE ∧ items s = 0 ∧ mutex s = 1).
Proof.
  intros ts. eexists. split; [by vm_compute|]. split; [done|]. split; [done|].
  apply (bounded_buffer_exact ts). by vm_compute.
Defined.
End BoundedBuffer.

Module TaskQueue.

Local Open Scope Z_scope.

(** A [Task]: its argument and the next one; its function is [sampleTask]. *)
Record task := Task { arg : positive; next : option positive }.

(** [tasks] and [ints] are the live blocks of the heap, [fresh] the next address that
    [malloc] gives out. *)
Record heap := Heap { tasks : gmap positive task; ints : gmap positive Z; fresh : positive }.
Record queue := Queue { head : option positive; tail : option positive; stop : bool }.

Definition initQueue : queue := Queue None None false.

(** The critical section of [enqueue], after [newTask] was filled in. *)
Definition enqueue (newTask : positive) (q : queue) (h : heap) : outcome (queue * heap) :=
  match tail q with
  | Some t =>
      n ← deref (tasks h !! t);
      Ret (Queue (head q) (Some newTask) (stop q),
           Heap (<[t := Task (arg n) (Some newTask)]> (tasks h)) (ints h) (fresh h))
  | None => Ret (Queue (Some newTask) (Some newTask) (stop q), h)
  end.

Definition dequeue (q : queue) (h : heap) : outcome (option positive * queue) :=
  match head q with
  | Some t =>
      n ← deref (tasks h !! t);
      Ret (Some t, Queue (next n) (if next n is Some _ then tail q else None) (stop q))
  | None => Ret (None, q)
  end.

(** [free] of a block that is not live is undefined. *)
Definition free_task (t : positive) (h : heap) : outcome heap :=
  _ ← deref (tasks h !! t); Ret (Heap (delete t (tasks h)) (ints h) (fresh h)).

(** [sampleTask]: prints and frees its argument. *)
Definition sampleTask (a : positive) (h : heap) : outcome (Z * heap) :=
  v ← deref (ints h !! a); Ret (v, Heap (tasks h) (delete a (ints h)) (fresh h)).

(** Main: before the allocations for value [k], before the critical section of [enqueue]
    (of the stop flag when [k] is 10), before [pthread_join], after it. *)
Inductive main_pc := Alloc (k : Z) | Link (k : Z) (newTask : positive) | Join | Finished.
(** Worker: before the critical section, in [pthread_cond_wait], before calling the
    task's function, before [free(task)], returned. *)
Inductive worker_pc := AtLock | Asleep | Call (t : positive) | Free (t : positive) | Returned.

Record state := State {
  the_queue : queue; the_heap : heap; main : main_pc; worker : worker_pc; printed : list Z
}.
Definition start : state := State initQueue (Heap ∅ ∅ 1) (Alloc 0) AtLock [].

Definition woken (w : worker_pc) : worker_pc := match w with Asleep => AtLock | _ => w end.

Definition main_step (s : state) : option (outcome state) :=
  let '(State q h m w out) := s in
  match m with
  | Alloc k =>
      if 10 <=? k then
        (* stop = 1 and the signal, under the mutex *)
        Some (Ret (State (Queue (head q) (tail q) true) h Join (woken w) out))
      else
        let a := fresh h in
        let t := Pos.succ a in
        Some (Ret (State q (Heap (<[t := Task a None]> (tasks h)) (<[a := k]> (ints h)) (Pos.succ t))
                     (Link k t) w out))
  | Link k t =>
      Some (r ← enqueue t q h; Ret (State r.1 r.2 (Alloc (k + 1)) (woken w) out))
  | Join => match w with Returned => Some (Ret (State q h Finished w out)) | _ => None end
  | Finished => None
  end.

Definition worker_step (s : state) : option (outcome state) :=
  let '(State q h m w out) := s in
  match w with
  | AtLock =>
      if bool_decide (head q = None) && negb (stop q) then Some (Ret (State q h m Asleep out))
      else if stop q && bool_decide (head q = None) then Some (Ret (State q h m Returned out))
      else Some (r ← dequeue q h;
                 Ret (State r.2 h m (match r.1 with Some t => Call t | None => AtLock end) out))
  | Call t =>
      Some (n ← deref (tasks h !! t); r ← sampleTask (arg n) h;
            Ret (State q r.2 m (Free t) (out ++ [r.1])))
  | Free t => Some (h' ← free_task t h; Ret (State q h' m AtLock out))
  | Asleep | Returned => None
  end.

(** A schedule: a thread moves, or the worker's wait ends without a signal. *)
Inductive event := Main | Work | Spurious.
#[local] Instance event_eq_dec : EqDecision event.
Proof. solve_decision. Defined.
Definition step (s : state) (e : event) : option (outcome state) :=
  match e with
  | Main => main_step s
  | Work => worker_step s
  | Spurious =>
      match worker s with
      | Asleep => Some (Ret (State (the_queue s) (the_heap s) (main s) AtLock (printed s)))
      | _ => None
      end
  end.
Fixpoint run (s : state) (es : list event) : option (outcome state) :=
  match es with
  | [] => Some (Ret s)
  | e :: es =>
      match step s e with
      | Some (Ret s') => run s' es
      | Some o => match es with [] => Some o | _ => None end
      | None => None
      end
  end.

(** ** The queue in memory *)

(** An entry: the task's address, its argument's and the value there. *)
Abbreviation entry := (positive * positive * Z)%type.
Definition addr (e : entry) : positive := e.1.1.
Definition cell (e : entry) : positive := e.1.2.
Definition value (e : entry) : Z := e.2.

(** The tasks from [hd] on are the entries [es], linked in their order. *)
Fixpoint linked (ts : gmap positive task) (hd : option positive) (es : list entry) : Prop :=
  match es with
  | [] => hd = None
  | e :: es => hd = Some (addr e) ∧ ∃ nx, ts !! addr e = Some (Task (cell e) nx) ∧ linked ts nx es
  end.

Lemma linked_frame ts ts' hd es :
  linked ts hd es → (∀ e, e ∈ es → ts' !! addr e = ts !! addr e) → linked ts' hd es.
Proof.
  revert hd. induction es as [|e es IH]; intros hd; cbn [linked]; [done|].
  intros (-> & nx & Hn & Hl) Hsame. split; [done|]. exists nx. split; [by rewrite Hsame by left|].
  apply IH; [done|]. intros e' He'. apply Hsame. by right.
Qed.

Lemma linked_snoc ts hd es e e' :
  linked ts hd (es ++ [e]) → NoDup (addr <$> es ++ [e]) → addr e' ∉ addr <$> es ++ [e] →
  ts !! addr e' = Some (Task (cell e') None) →
  linked (<[addr e := Task (cell e) (Some (addr e'))]> ts) hd (es ++ [e; e']).
Proof.
  revert hd. induction es as [|x es IH]; intros hd; cbn [linked app fmap list_fmap].
  - intros (-> & nx & Hn & ->) _ Hne He'. split; [done|]. exists (Some (addr e')).
    rewrite lookup_insert_eq. split; [done|]. split; [done|]. exists None.
    rewrite lookup_insert_ne; [done|]. intros E. apply Hne. rewrite E. by left.
  - intros (-> & nx & Hn & Hl) [Hx Hnd]%NoDup_cons Hne He'. split; [done|]. exists nx.
    apply not_elem_of_cons in Hne as [Hne1 Hne2]. rewrite lookup_insert_ne.
    + split; [done|]. by apply IH.
    + intros E. apply Hx. rewrite <-E, fmap_app. set_solver.
Qed.

(** ** The invariant *)

Definition issued (m : main_pc) : Z := match m with Alloc k => k | Link k _ => k + 1 | _ => 10 end.

(** The worker holds the task [hand]; [live] are the entries whose argument is live. *)
Definition in_hand (w : worker_pc) (ts : gmap positive task) (hand live : list entry) : Prop :=
  match w with
  | Call t => ∃ e nx, hand = [e] ∧ live = [e] ∧ addr e = t ∧ ts !! t = Some (Task (cell e) nx)
  | Free t => ∃ e, hand = [e] ∧ live = [] ∧ addr e = t
  | _ => hand = [] ∧ live = []
  end.
(** The entry main has filled in and not linked yet. *)
Definition unlinked (m : main_pc) (ts : gmap positive task) (pend : list entry) : Prop :=
  match m with
  | Link k t => ∃ e, pend = [e] ∧ addr e = t ∧ value e = k ∧ ts !! t = Some (Task (cell e) None)
  | _ => pend = []
  end.

Record holds (s : state) (es hand live pend : list entry) : Prop := {
  h_linked : linked (tasks (the_heap s)) (head (the_queue s)) es;
  h_tail : tail (the_queue s) = addr <$> last es;
  h_nodup : NoDup (addr <$> hand ++ es ++ pend);
  h_cells : NoDup (cell <$> live ++ es ++ pend);
  h_hand : in_hand (worker s) (tasks (the_heap s)) hand live;
  h_pend : unlinked (main s) (tasks (the_heap s)) pend;
  h_ints e : e ∈ live ++ es ++ pend → ints (the_heap s) !! cell e = Some (value e);
  h_tasks t : is_Some (tasks (the_heap s) !! t) ↔ t ∈ addr <$> hand ++ es ++ pend;
  h_args a : is_Some (ints (the_heap s) !! a) ↔ a ∈ cell <$> live ++ es ++ pend;
  h_fresh e : e ∈ hand ++ live ++ es ++ pend → (addr e < fresh (the_heap s))%positive ∧ (cell e < fresh (the_heap s))%positive;
  h_values : printed s ++ (value <$> live ++ es ++ pend) = seqZ 0 (issued (main s));
  h_count : match main s with Alloc k => 0 <= k <= 10 | Link k _ => 0 <= k < 10 | _ => True end;
  h_stop : stop (the_queue s) = match main s with Join | Finished => true | _ => false end;
  h_sleep : worker s = Asleep → es = [] ∧ stop (the_queue s) = false;
  h_returned : worker s = Returned → es = [] ∧ stop (the_queue s) = true;
  h_finished : main s = Finished → worker s = Returned
}.
Definition inv (s : state) : Prop := ∃ es hand live pend, holds s es hand live pend.

Lemma start_holds : holds start [] [] [] [].
Proof.
  split; try done; try (by apply NoDup_nil_2); try set_solver.
  - intros t. cbn. rewrite lookup_empty. split; [by intros [? ?]|set_solver].
  - intros t. cbn. rewrite lookup_empty. split; [by intros [? ?]|set_solver].
Qed.

Lemma in_hand_woken w ts hand live : in_hand w ts hand live → in_hand (woken w) ts hand live.
Proof. by destruct w. Qed.

Lemma in_hand_frame w ts ts' hand live :
  in_hand w ts hand live → (∀ e, e ∈ hand → ts' !! addr e = ts !! addr e) → in_hand w ts' hand live.
Proof.
  destruct w; cbn [in_hand]; try done. intros (e & nx & -> & -> & <- & H) Hs. exists e, nx.
  do 3 (split; [done|]). by rewrite Hs by left.
Qed.

(** Main allocates the cell and the task. *)
Lemma alloc_inv q h k w out :
  inv (State q h (Alloc k) w out) → k < 10 →
  inv (State q (Heap (<[Pos.succ (fresh h) := Task (fresh h) None]> (tasks h)) (<[fresh h := k]> (ints h))
                  (Pos.succ (Pos.succ (fresh h)))) (Link k (Pos.succ (fresh h))) w out).
Proof.
  intros (es & hand & live & pend & H) Hk. destruct H.
  cbn [the_queue the_heap main worker printed issued unlinked] in *. subst pend. rewrite !app_nil_r in *.
  set (a := fresh h) in *. set (t := Pos.succ a) in *. set (e := (t, a, k) : entry).
  assert (∀ e', e' ∈ hand ++ live ++ es → addr e' ≠ t ∧ cell e' ≠ a) as Hnew.
  { intros e' [? ?]%h_fresh0. lia. }
  assert (t ∉ addr <$> hand ++ es) as Ht.
  { intros (e' & E & He')%list_elem_of_fmap. destruct (Hnew e') as [? ?]; [set_solver|congruence]. }
  assert (a ∉ cell <$> live ++ es) as Ha.
  { intros (e' & E & He')%list_elem_of_fmap. destruct (Hnew e') as [? ?]; [set_solver|congruence]. }
  exists es, hand, live, [e].
  split; cbn [the_queue the_heap main worker printed issued tasks ints fresh]; rewrite ?(app_assoc _ es [e]).
  - apply (linked_frame (tasks h)); [done|]. intros e' He'. apply lookup_insert_ne, not_eq_sym, Hnew. set_solver.
  - done.
  - rewrite fmap_app, NoDup_app. split; [done|]. split; [|apply NoDup_singleton].
    intros x Hx ->%list_elem_of_singleton. by apply Ht.
  - rewrite fmap_app, NoDup_app. split; [done|]. split; [|apply NoDup_singleton].
    intros x Hx ->%list_elem_of_singleton. by apply Ha.
  - eapply in_hand_frame; [done|]. intros e' He'. apply lookup_insert_ne, not_eq_sym, Hnew. set_solver.
  - exists e. do 3 (split; [done|]). by rewrite lookup_insert_eq.
  - intros e' [He'| ->%list_elem_of_singleton]%elem_of_app; [|by rewrite lookup_insert_eq].
    rewrite lookup_insert_ne; [by apply h_ints0|]. apply not_eq_sym, Hnew. set_solver.
  - intros x. rewrite fmap_app, elem_of_app. change (addr <$> [e]) with [t].
    rewrite list_elem_of_singleton, <-h_tasks0.
    destruct (decide (x = t)) as [->|Hx]; [rewrite lookup_insert_eq; naive_solver|].
    rewrite lookup_insert_ne by done. naive_solver.
  - intros x. rewrite fmap_app, elem_of_app. change (cell <$> [e]) with [a].
    rewrite list_elem_of_singleton, <-h_args0.
    destruct (decide (x = a)) as [->|Hx]; [rewrite lookup_insert_eq; naive_solver|].
    rewrite lookup_insert_ne by done. naive_solver.
  - intros e' He'. destruct (decide (e' = e)) as [->|Hne]; [cbn; lia|].
    destruct (h_fresh0 e'); [set_solver|lia].
  - rewrite fmap_app, app_assoc, h_values0, seqZ_app by lia. done.
  - lia.
  - done.
  - done.
  - done.
  - done.
Qed.

(** Main links the task and signals. *)
Lemma link_inv q h k t w out :
  inv (State q h (Link k t) w out) →
  ∃ q' h', enqueue t q h = Ret (q', h') ∧ inv (State q' h' (Alloc (k + 1)) (woken w) out).
Proof.
  intros (es & hand & live & pend & H). destruct H.
  cbn [the_queue the_heap main worker printed issued] in *.
  destruct h_pend0 as (e & -> & He & Hv & Hnode).
  assert (∀ q' h', linked (tasks h') (head q') (es ++ [e]) → tail q' = Some t → ints h' = ints h → fresh h' = fresh h →
    (∀ x, is_Some (tasks h' !! x) ↔ is_Some (tasks h !! x)) →
    (∀ e', e' ∈ hand → tasks h' !! addr e' = tasks h !! addr e') → stop q' = stop q →
    inv (State q' h' (Alloc (k + 1)) (woken w) out)) as Hgoal.
  { intros q' h' H1 H2 H3 H4 H5 H6 H7. exists (es ++ [e]), hand, live, [].
    split; cbn [the_queue the_heap main worker printed issued]; rewrite ?app_nil_r, ?H3, ?H4, ?H7; try done.
    - by rewrite H2, last_snoc; cbn; rewrite He.
    - eapply in_hand_frame, H6. by apply in_hand_woken.
    - intros x. by rewrite H5.
    - lia.
    - intros Hw. by destruct w.
    - intros Hw. destruct w; cbn in Hw; try done. destruct (h_returned0 Hw) as [_ Hs]. by rewrite h_stop0 in Hs. }
  unfold enqueue. destruct (last es) as [el|] eqn:Hlast.
  - cbn in h_tail0. rewrite h_tail0. apply last_Some in Hlast as [es' ->].
    rewrite <-app_assoc in *. cbn [app] in *.
    assert (∃ nx, tasks h !! addr el = Some (Task (cell el) nx)) as [nx Hel].
    { clear -h_linked0. revert h_linked0. generalize (head q). induction es' as [|x es' IH]; intros hd; cbn [linked app].
      - intros (_ & nx & Hn & _). eauto.
      - intros (_ & nx & _ & Hl). by apply IH in Hl. }
    rewrite Hel. cbn [deref mbind outcome_bind arg].
    eexists _, _. split; [done|]. apply Hgoal; cbn [tasks ints fresh head tail stop]; try done.
    + rewrite <-He. rewrite fmap_app in h_nodup0.
      apply NoDup_app in h_nodup0 as (_ & _ & Hnd). apply linked_snoc.
      * done.
      * rewrite cons_middle, app_assoc, fmap_app in Hnd. by apply NoDup_app in Hnd as (? & _ & _).
      * rewrite cons_middle, app_assoc, fmap_app in Hnd. apply NoDup_app in Hnd as (_ & Hd & _).
        intros Hin. apply (Hd _ Hin). by left.
      * by rewrite He.
    + intros x. destruct (decide (x = addr el)) as [->|Hx].
      * rewrite lookup_insert_eq, Hel. naive_solver.
      * by rewrite lookup_insert_ne.
    + intros e' He'. apply lookup_insert_ne. intros E. rewrite fmap_app in h_nodup0.
      apply NoDup_app in h_nodup0 as (_ & Hd & _). apply (Hd (addr e')); [by apply list_elem_of_fmap_2|].
      rewrite <-E. rewrite fmap_app. set_solver.
  - rewrite h_tail0. cbn [fmap option_fmap option_map]. apply last_None in Hlast as ->. cbn [app] in *.
    eexists _, _. split; [done|]. apply Hgoal; cbn [tasks ints fresh head tail stop]; try done.
    cbn. rewrite He. split; [done|]. exists None. by rewrite Hnode.
Qed.

(** Main sets the flag and signals. *)
Lemma stop_inv q h k w out :
  inv (State q h (Alloc k) w out) → 10 <= k → inv (State (Queue (head q) (tail q) true) h Join (woken w) out).
Proof.
  intros (es & hand & live & pend & H) Hk. destruct H.
  cbn [the_queue the_heap main worker printed issued unlinked] in *. exists es, hand, live, pend.
  assert (k = 10) as -> by lia.
  split; cbn [the_queue the_heap main worker printed issued head tail stop]; try done.
  - by apply in_hand_woken.
  - intros Hw. by destruct w.
  - intros Hw. destruct w; try done. destruct (h_returned0 eq_refl). by split.
Qed.

(** The worker in its critical section: it sleeps, returns or takes the first task. *)
Lemma take_inv q h m out :
  inv (State q h m AtLock out) →
  ∃ q' w', worker_step (State q h m AtLock out) = Some (Ret (State q' h m w' out)) ∧ inv (State q' h m w' out) ∧
  (w' = Asleep ∧ q' = q ∨ w' = Returned ∧ q' = q ∨ ∃ t, head q = Some t ∧ w' = Call t).
Proof.
  intros (es & hand & live & pend & H). destruct H.
  cbn [the_queue the_heap main worker printed] in *. destruct h_hand0 as [-> ->]. cbn [app] in *.
  cbn [worker_step]. destruct es as [|e es].
  - cbn in h_linked0. rewrite h_linked0. rewrite bool_decide_true by done. destruct (stop q) eqn:Hs; cbn [negb andb].
    + exists q, Returned. split; [done|]. split; [|by auto]. exists [], [], [], pend.
      split; cbn [the_queue the_heap main worker printed]; try done. by rewrite Hs.
    + exists q, Asleep. split; [done|]. split; [|by auto]. exists [], [], [], pend.
      split; cbn [the_queue the_heap main worker printed]; try done; try (by rewrite Hs).
      intros ->. by specialize (h_finished0 eq_refl).
  - destruct h_linked0 as (Hhead & nx & Hnode & Hl). rewrite Hhead, bool_decide_false, andb_false_l, andb_false_r by done.
    unfold dequeue. rewrite Hhead, Hnode. cbn [deref mbind outcome_bind next fst snd].
    eexists _, _. split; [done|]. split; [|eauto].
    exists es, [e], [e], pend.
    split; cbn [the_queue the_heap main worker printed head tail stop]; try done.
    + rewrite h_tail0. destruct es as [|e' es]; [by rewrite Hl|]. destruct Hl as (-> & _). by rewrite last_cons_cons.
    + by exists e, nx.
    + intros e' He'. apply h_fresh0. set_solver.
    + intros ->. by specialize (h_finished0 eq_refl).
Qed.

(** The task's function prints and frees the argument. *)
Lemma call_inv q h m t out :
  inv (State q h m (Call t) out) →
  ∃ v h', worker_step (State q h m (Call t) out) = Some (Ret (State q h' m (Free t) (out ++ [v]))) ∧
          inv (State q h' m (Free t) (out ++ [v])).
Proof.
  intros (es & hand & live & pend & H). destruct H.
  cbn [the_queue the_heap main worker printed] in *. destruct h_hand0 as (e & nx & -> & -> & <- & Hnode).
  cbn [app] in *. cbn [worker_step]. rewrite Hnode. cbn [deref mbind outcome_bind arg].
  unfold sampleTask. rewrite (h_ints0 e) by left. cbn [deref mbind outcome_bind fst snd].
  eexists _, _. split; [done|]. exists es, [e], [], pend.
  rewrite fmap_cons in h_cells0. apply NoDup_cons in h_cells0 as [Hcell Hnd].
  split; cbn [the_queue the_heap main worker printed tasks ints fresh app]; try done.
  - by exists e.
  - intros e' He'. rewrite lookup_delete_ne; [apply h_ints0; by right|].
    intros E. apply Hcell. rewrite E. by apply list_elem_of_fmap_2.
  - intros a. destruct (decide (a = cell e)) as [->|Hne].
    + rewrite lookup_delete_eq. split; [by intros [? ?]|done].
    + rewrite lookup_delete_ne, h_args0, fmap_cons, elem_of_cons by done. naive_solver.
  - intros e' He'. apply h_fresh0. set_solver.
  - rewrite <-app_assoc. done.
  - intros ->. by specialize (h_finished0 eq_refl).
Qed.

Lemma free_inv q h m t out :
  inv (State q h m (Free t) out) →
  ∃ h', worker_step (State q h m (Free t) out) = Some (Ret (State q h' m AtLock out)) ∧ inv (State q h' m AtLock out).
Proof.
  intros (es & hand & live & pend & H). destruct H.
  cbn [the_queue the_heap main worker printed] in *. destruct h_hand0 as (e & -> & -> & <-).
  cbn [app] in *. cbn [worker_step]. unfold free_task.
  destruct (proj2 (h_tasks0 (addr e))) as [n Hn]; [by left|]. rewrite Hn. cbn [deref mbind outcome_bind].
  eexists. split; [done|]. exists es, [], [], pend.
  rewrite fmap_cons in h_nodup0. apply NoDup_cons in h_nodup0 as [Haddr Hnd].
  assert (∀ e', e' ∈ es ++ pend → delete (addr e) (tasks h) !! addr e' = tasks h !! addr e') as Hsame.
  { intros e' He'. apply lookup_delete_ne. intros E. apply Haddr. rewrite E. by apply list_elem_of_fmap_2. }
  split; cbn [the_queue the_heap main worker printed tasks ints fresh app]; try done.
  - eapply linked_frame; [done|]. intros e' He'. apply Hsame. set_solver.
  - destruct m; cbn [unlinked] in *; try done. destruct h_pend0 as (e' & -> & ? & ? & ?). exists e'.
    do 3 (split; [done|]). subst newTask. rewrite Hsame by set_solver. done.
  - intros x. destruct (decide (x = addr e)) as [->|Hne].
    + rewrite lookup_delete_eq. split; [by intros [? ?]|done].
    + rewrite lookup_delete_ne, h_tasks0, fmap_cons, elem_of_cons by done. naive_solver.
  - intros e' He'. apply h_fresh0. set_solver.
  - intros ->. by specialize (h_finished0 eq_refl).
Qed.

(** ** Every step keeps the invariant and makes progress *)

Definition main_work (m : main_pc) : Z :=
  match m with Alloc k => 4 * (10 - k) + 4 | Link k _ => 4 * (10 - k) + 3 | Join => 1 | Finished => 0 end.
Definition worker_work (w : worker_pc) : Z :=
  match w with AtLock => 2 | Asleep => 0 | Call _ => 1 | Free _ => 3 | Returned => 0 end.
(** A task that has not run yet costs the worker three more. *)
Definition work (s : state) : Z :=
  main_work (main s) + worker_work (worker s) + 3 * (10 - Z.of_nat (length (printed s))).
Definition spurious (es : list event) : nat := length (filter (λ e, e = Spurious) es).

Lemma woken_work w : worker_work (woken w) <= worker_work w + 2.
Proof. by destruct w. Qed.

Lemma step_work s e s' : inv s → step s e = Some (Ret s') →
  work s' + 1 <= work s + (match e with Spurious => 3 | _ => 0 end).
Proof.
  destruct s as [q h m w out]. intros Hi. destruct e; cbn [step].
  - destruct m as [k|k t| |]; cbn [main_step]; [| | |done].
    + destruct (Z.leb_spec 10 k); intros [= <-]; unfold work; cbn [main worker printed main_work];
        pose proof (woken_work w); [|lia].
      destruct Hi as (? & ? & ? & ? & []). cbn in h_count0. lia.
    + intros [= Hb]. apply bind_Ret in Hb as ([q' h'] & _ & [= <-]).
      unfold work. cbn [main worker printed main_work]. pose proof (woken_work w). lia.
    + destruct w; intros [= <-]. unfold work. cbn. lia.
  - destruct w as [| |t|t|]; [|done| | |done].
    + destruct (take_inv _ _ _ _ Hi) as (q' & w' & -> & _ & Hw). intros [= <-].
      unfold work. cbn [main worker printed worker_work]. destruct Hw as [[-> _]|[[-> _]|(t & _ & ->)]]; cbn; lia.
    + destruct (call_inv _ _ _ _ _ Hi) as (v & h' & -> & _). intros [= <-].
      unfold work. cbn [main worker printed worker_work]. rewrite length_app. cbn. lia.
    + destruct (free_inv _ _ _ _ _ Hi) as (h' & -> & _). intros [= <-]. unfold work. cbn. lia.
  - cbn [worker the_queue the_heap main printed]. destruct w; try done. intros [= <-]. unfold work. cbn. lia.
Qed.

Lemma task_step_inv s e : inv s →
  match step s e with Some (Ret s') => inv s' | Some _ => False | None => True end.
Proof.
  destruct s as [q h m w out]. intros Hi. destruct e; cbn [step].
  - destruct m as [k|k t| |]; cbn [main_step].
    + destruct (Z.leb_spec 10 k); [by eapply stop_inv|by apply alloc_inv].
    + destruct (link_inv _ _ _ _ _ _ Hi) as (q' & h' & -> & Hi'). exact Hi'.
    + destruct w; try done. destruct Hi as (es & hand & live & pend & H). exists es, hand, live, pend.
      destruct H. by split.
    + done.
  - destruct w as [| |t|t|]; [|done| | |done].
    + destruct (take_inv _ _ _ _ Hi) as (q' & w' & -> & Hi' & _). exact Hi'.
    + destruct (call_inv _ _ _ _ _ Hi) as (v & h' & -> & Hi'). exact Hi'.
    + destruct (free_inv _ _ _ _ _ Hi) as (h' & -> & Hi'). exact Hi'.
  - cbn [worker the_queue the_heap main printed]. destruct w; try done.
    destruct Hi as (es & hand & live & pend & H). exists es, hand, live, pend. destruct H. split; cbn [the_queue the_heap main worker printed in_hand] in *; try done.
    by intros ?%h_finished0.
Qed.

Lemma run_inv_queue s es r : inv s → run s es = Some r →
  ∃ s', r = Ret s' ∧ inv s' ∧ Z.of_nat (length es) + work s' <= work s + 3 * Z.of_nat (spurious es).
Proof.
  revert s. induction es as [|e es IH]; intros s Hi; cbn [run].
  - intros [= <-]. exists s. cbn. split; [done|]. split; [done|]. lia.
  - pose proof (task_step_inv s e Hi) as Hstep. pose proof (step_work s e) as Hwork.
    destruct (step s e) as [[s1| |]|]; try done. intros (s' & -> & Hi' & Hl)%IH; [|done].
    exists s'. split; [done|]. split; [done|]. specialize (Hwork s1 Hi eq_refl).
    assert (spurious (e :: es) = (match e with Spurious => 1 | _ => 0 end) + spurious es)%nat as Hs.
    { unfold spurious. rewrite filter_cons. by destruct e. }
    rewrite Hs. cbn [length]. destruct e; lia.
Qed.

Lemma work_nonneg s : inv s → 0 <= work s.
Proof.
  intros (es & hand & live & pend & []). apply (f_equal length) in h_values0.
  rewrite length_app, length_seqZ in h_values0. unfold work.
  assert (0 <= worker_work (worker s)) by (destruct (worker s); done).
  destruct (main s); cbn [main_work issued] in *; lia.
Qed.

(** When neither thread can move, both have returned. *)
Lemma queue_no_deadlock s : inv s → main_step s = None → worker_step s = None →
  main s = Finished ∧ worker s = Returned.
Proof.
  destruct s as [q h m w out]. intros (es & hand & live & pend & H). destruct H.
  cbn [the_queue the_heap main worker printed] in *. intros Hm Hw.
  destruct m as [k|k t| |]; cbn [main_step] in Hm.
  - destruct (10 <=? k); done.
  - done.
  - rewrite h_stop0 in *. destruct w; cbn [worker_step] in Hw; try done.
    + destruct (_ && _)%bool; [done|]. by destruct (_ && _)%bool.
    + by destruct (h_sleep0 eq_refl).
  - by split; [|apply h_finished0].
Qed.

(** C22. Under every interleaving of main and the worker, spurious wake-ups included: no
    step touches a freed block, the values printed are an initial part of 0, 1, .. 9;
    there are at most 76 steps and three more per spurious wake-up; and when neither thread can move both have returned, all ten tasks have run in
    the order of their submission and every block has been freed. *)
Theorem task_queue_exact es r :
  run start es = Some r →
  ∃ s, r = Ret s ∧ printed s `prefix_of` seqZ 0 10 ∧ (length es ≤ 76 + 3 * spurious es)%nat ∧
  (main_step s = None → worker_step s = None →
   printed s = seqZ 0 10 ∧ tasks (the_heap s) = ∅ ∧ ints (the_heap s) = ∅ ∧ worker s = Returned).
Proof.
  intros Hrun. destruct (run_inv_queue start es r) as (s & -> & Hi & Hl); [exists [], [], [], []; apply start_holds|done|].
  exists s. split; [done|]. pose proof (work_nonneg s Hi) as Hw. change (work start) with 76 in Hl. pose proof Hi as (qs & hand & live & pend & H). destruct H. split.
  - trans (seqZ 0 (issued (main s))); [rewrite <-h_values0; by eexists|].
    assert (0 <= issued (main s) <= 10) as [Hi1 Hi2] by (destruct (main s); cbn [issued]; lia).
    exists (seqZ (issued (main s)) (10 - issued (main s))).
    replace 10 with (issued (main s) + (10 - issued (main s))) at 1 by lia. rewrite seqZ_app by lia. done.
  - split; [lia|]. intros Hm Hwk. destruct (queue_no_deadlock s Hi Hm Hwk) as [Em Ew]. rewrite Em, Ew in *.
    destruct (h_returned0 eq_refl) as [-> _]. destruct h_hand0 as [-> ->]. cbn in h_pend0. subst pend.
    cbn [app fmap list_fmap] in *. rewrite app_nil_r in h_values0. split; [done|].
    split; [|split; [|done]]; apply map_eq; intros x; rewrite lookup_empty.
    + destruct (tasks (the_heap s) !! x) eqn:E; [|done]. exfalso.
      assert (is_Some (tasks (the_heap s) !! x)) as Hx by (by rewrite E). apply h_tasks0 in Hx. set_solver.
    + destruct (ints (the_heap s) !! x) eqn:E; [|done]. exfalso.
      assert (is_Some (ints (the_heap s) !! x)) as Hx by (by rewrite E). apply h_args0 in Hx. set_solver.
Qed.
Lemma task_queue_exact_witness :
  let es := [Work; Spurious] ++ concat (replicate 10 [Main; Main; Work; Work; Work]) ++ [Main; Work; Main] in
  ∃ r, run start es = Some r ∧
  ∃ s, r = Ret s ∧ printed s `prefix_of` seqZ 0 10 ∧ (length es ≤ 76 + 3 * spurious es)%nat ∧
  (main_step s = None → worker_step s = None →
   printed s = seqZ 0 10 ∧ tasks (the_heap s) = ∅ ∧ ints (the_heap s) = ∅ ∧ worker s = Returned).
Proof. intros es. eexists. split; [by vm_compute|]. apply (task_queue_exact es). by vm_compute. Defined.
End TaskQueue.
