(* ===== verification/ChatPoll.v ===== *)
(** * The chat program of base_io_multiplexing/chat_poll.c

    A server that waits for its clients with [poll] and passes what each sends to
    all others, and the client program.  The kernel decides per round what is
    readable, what [accept] and [recv] return, and what each [send] moves (the
    worlds of [Rio]).  [Module Server] and [Module Client]; [port_arg] is the
    argument parser they share. *)

From stdpp Require Import base list gmap strings.
From Stdlib Require Import ZArith Lia Ascii.
From S2P Require Import Prelude CxxString NetBytes Rio.

Local Open Scope Z_scope.
#[local] Arguments size : simpl never.

(** ** port_arg *)

(** [strtoul] in base 10: leading white space, an optional sign, digits.  The result is
    the value modulo 2^64 (ULONG_MAX when it does not fit) and the rest of the
    string; without a digit nothing is consumed. *)
Definition ULONG_MAX : Z := 2 ^ 64 - 1.
Definition strtoul (s : bytes) : Z * bytes :=
  match scan_int (skip_spaces s) with
  | (None, _) => (0, s)
  | (Some v, rest) => (if ULONG_MAX <? Z.abs v then ULONG_MAX else v mod 2 ^ 64, rest)
  end.

(** [Some port], or [None] for -1. *)
Definition port_arg (s : bytes) : option Z :=
  let '(n, e) := strtoul s in
  if bool_decide (s = []) || negb (bool_decide (e = [])) || (65535 <? n) then None else Some n.

(** ** Sending everything *)

Inductive sent := Complete | Broken | Stalled.

(** The loop around [send]: an error other than EINTR breaks it (with the close of
    the socket), a [send] that moves nothing ends it. *)
Fixpoint send_loop (fuel : nat) (data : bytes) (w : world) : option (sent * world) :=
  match fuel with
  | O => None
  | S fuel =>
      match data with
      | [] => Some (Complete, w)
      | _ :: _ =>
          let '(n, w') := sys_write data w in
          if n <? 0 then
            if errno w' =? EINTR then send_loop fuel data w' else Some (Broken, w')
          else if n =? 0 then Some (Stalled, w')
          else send_loop fuel (drop (Z.to_nat n) data) w'
      end
  end.
(** Each turn uses an answer of the kernel or is the last but one. *)
Definition send_fuel (w : world) : nat := length (answers w) + 2.

Lemma send_loop_total data w : ∃ r w', send_loop (send_fuel w) data w = Some (r, w').
Proof.
  unfold send_fuel. remember (length (answers w) + 2)%nat as fuel eqn:E.
  assert (length (answers w) + 2 ≤ fuel)%nat as Hf by lia. clear E. revert data w Hf. induction fuel as [|fuel IH]; intros data w Hf; [lia|].
  cbn [send_loop]. destruct data as [|c data]; [eauto|].
  destruct (sys_write_cases (c :: data) w ltac:(done))
    as [(e & rest & Ha & ->)|(k & w1 & -> & Ho & Hi & He & Ha & Hk)].
  - change (-1 <? 0) with true. cbn iota. destruct (_ =? _); [|eauto].
    apply IH. cbn. rewrite Ha in Hf. cbn in Hf. lia.
  - rewrite size_pos_neg, size_zero. case_bool_decide; [eauto|]. rewrite to_nat_size.
    destruct (answers w) as [|a rest].
    + destruct Hk as [?|[_ Hk]]; [done|]. rewrite Hk. destruct fuel; [cbn in Hf; lia|].
      rewrite drop_all. eauto.
    + apply IH. rewrite Ha. cbn in *. lia.
Qed.

(** What a loop has sent is a prefix, and everything when it is complete. *)
Lemma send_loop_prefix fuel data w r w' :
  send_loop fuel data w = Some (r, w') →
  ∃ k, out w' = out w ++ take k data ∧ (r = Complete → take k data = data).
Proof.
  revert data w. induction fuel as [|fuel IH]; intros data w; cbn [send_loop]; [done|].
  destruct data as [|c data]; [intros [= <- <-]; exists O; by rewrite app_nil_r|].
  destruct (sys_write_cases (c :: data) w ltac:(done))
    as [(e & rest & Ha & ->)|(k & w1 & -> & Ho & Hi & He & Ha & Hk)].
  - change (-1 <? 0) with true. cbn iota. destruct (_ =? _); [by intros H%IH|].
    intros [= <- <-]. exists O. by rewrite app_nil_r.
  - rewrite size_pos_neg, size_zero. case_bool_decide as Hd.
    + intros [= <- <-]. exists O. rewrite Hd in Ho. by rewrite Ho, !app_nil_r.
    + rewrite to_nat_size, drop_taken. intros (k' & Ho' & Hr)%IH.
      exists (k + k')%nat. rewrite Ho', Ho, <-app_assoc, take_take_drop.
      split; [done|]. intros ->. specialize (Hr eq_refl).
      rewrite <-(take_take_drop _ k k'), Hr. apply take_drop.
Qed.

(** A kernel that only cuts and interrupts lets everything through. *)
Lemma send_loop_complete fuel data w :
  Forall advances (answers w) → (length (answers w) + 1 < fuel)%nat →
  ∃ w', send_loop fuel data w = Some (Complete, w') ∧ out w' = out w ++ data ∧ Forall advances (answers w').
Proof.
  revert data w. induction fuel as [|fuel IH]; intros data w Hp Hf; [lia|].
  cbn [send_loop]. destruct data as [|c data]; [exists w; by rewrite app_nil_r|].
  destruct (sys_write_cases (c :: data) w ltac:(done))
    as [(e & rest & Ha & ->)|(k & w1 & -> & Ho & Hi & He & Ha & Hk)].
  - rewrite Ha in Hp, Hf. inversion Hp as [|?? He Hr]; subst. cbn in He; subst e. cbn in Hf.
    change (-1 <? 0) with true. cbn [errno]. rewrite Z.eqb_refl.
    destruct (IH (c :: data) (World (inp w) (out w) rest EINTR)) as (w' & -> & H); [done|cbn; lia|eauto].
  - assert (take k (c :: data) ≠ []) as Hne.
    { destruct Hk as [Hk|[_ ->]]; [|done]. destruct (answers w) as [|a rest]; [done|].
      injection Hk as ->. inversion Hp as [|?? Hk _]; subst. cbn in Hk. destruct k; [lia|done]. }
    rewrite size_pos_neg, size_zero, bool_decide_false, to_nat_size, drop_taken by done.
    destruct (answers w) as [|a rest] eqn:Ea.
    + destruct Hk as [Hk|[_ Hk]]; [done|]. destruct fuel; [cbn in Hf; lia|].
      assert (drop k (c :: data) = []) as ->.
      { apply (f_equal length) in Hk. rewrite length_take in Hk. apply drop_ge. lia. }
      cbn. exists w1. rewrite Hk in Ho. rewrite Ha. done.
    + destruct (IH (drop k (c :: data)) w1) as (w2 & -> & Ho2 & Hp2).
      * rewrite Ha. by inversion Hp.
      * rewrite Ha. cbn in *. lia.
      * exists w2. split; [done|]. by rewrite Ho2, Ho, <-app_assoc, take_drop.
Qed.

Lemma skip_spaces_int z : skip_spaces (show_int z) = show_int z.
Proof.
  unfold show_int. destruct (z <? 0) eqn:Hz; [done|].
  pose proof (show_nat_digits z ltac:(lia)) as Hd. destruct (show_nat z) as [|c s] eqn:E; [done|].
  inversion Hd as [|?? Hc _]; subst. cbn [skip_spaces]. by rewrite (digit_not_space c Hc).
Qed.

(** A printed number is accepted exactly when it is a port number - or lies between
    -(2^64 - 1) and -(2^64 - 65535): -18446744073709551615 is read as port 1. *)
Theorem port_arg_spec z :
  port_arg (show_int z) =
  if (0 <=? z) && (z <=? 65535) then Some z
  else if (1 - 2 ^ 64 <=? z) && (z <=? 65535 - 2 ^ 64) then Some (z + 2 ^ 64)
  else None.
Proof.
  assert (scan_int (show_int z) = (Some z, [])) as Hscan by (by rewrite <-(app_nil_r (show_int z)), scan_show_int).
  unfold port_arg, strtoul. rewrite skip_spaces_int, Hscan.
  rewrite (bool_decide_false (show_int z = [])), bool_decide_true by
    (done || (unfold show_int; destruct (z <? 0); [done|apply show_nat_nonempty])).
  cbn [negb orb]. unfold ULONG_MAX.
  destruct (Z.ltb_spec (2 ^ 64 - 1) (Z.abs z)) as [Hbig|Hsmall].
  { rewrite (proj2 (Z.ltb_lt 65535 (2 ^ 64 - 1))) by lia. ztest; try done; lia. }
  destruct (Z.leb_spec 0 z) as [Hz|Hz].
  - rewrite Z.mod_small by lia. ztest; try done; lia.
  - replace (z mod 2 ^ 64) with (z + 2 ^ 64) by (apply (Z.mod_unique_pos _ _ (-1)); lia).
    ztest; try done; lia.
Qed.

Module Server.

Definition MAX_CLIENTS : nat := 64.
Definition LINE_SIZE : nat := 2048.

(** One entry of [fds], 1 to [MAX_CLIENTS]: the descriptor and the world its sends see. *)
Record client := Client { fd : Z; wr : world }.

(** What [poll] reports on an entry, with what [recv] will return: hang-up or error; bytes;
    nothing more ([recv] returns 0 or fails). *)
Inductive report := Quiet | Hangup | Line (data : bytes) | Ended.

Record server := MkServer { slots : list client; opened : gset Z }.

Definition no_client : client := Client (-1) (World [] [] [] 0).
Definition start (l : Z) : server := MkServer (replicate MAX_CLIENTS no_client) {[l]}.

(** [close(fds[i].fd); fds[i].fd = -1] *)
Definition drop_client (c : client) : client := Client (-1) (wr c).

(** One turn of the loop of [broadcast], for entry [i]. *)
Definition send_to (from : nat) (data : bytes) (i : nat) (c : client) : client :=
  if (0 <=? fd c) && negb (i =? from)%nat then
    match send_loop (send_fuel (wr c)) data (wr c) with
    | Some (Broken, w') => Client (-1) w'
    | Some (_, w') => Client (fd c) w'
    | None => c
    end
  else c.
Definition closed (old new : list client) : gset Z :=
  list_to_set ((λ '(c, c'), fd c) <$> filter (λ '(c, c'), 0 <= fd c ∧ fd c' < 0) (zip old new)).
(** [from] is an index of [fds]: 0 is the listener, entry [i] of [slots] is [fds[i + 1]]. *)
Definition broadcast (from : nat) (data : bytes) (s : server) : server :=
  let new := imap (λ i c, send_to from data (S i) c) (slots s) in
  MkServer new (opened s ∖ closed (slots s) new).

(** [close(c); fds[i].fd = -1] *)
Definition leave (i : nat) (c : client) (s : server) : server :=
  MkServer (<[i := drop_client c]> (slots s)) (opened s ∖ {[fd c]}).

(** One turn of the loop over the clients, and the loop from entry [i] on. *)
Definition serve_client (i : nat) (r : report) (s : server) : server :=
  match slots s !! i with
  | Some c =>
      if 0 <=? fd c then
        match r with
        | Quiet => s
        | Hangup | Ended => leave i c s
        | Line data => broadcast (S i) data s
        end
      else s
  | None => s
  end.
Fixpoint serve_from (i : nat) (reports : list report) (s : server) : server :=
  match reports with
  | [] => s
  | r :: reports => serve_from (S i) reports (serve_client i r s)
  end.

(** The announcement, at most 27 bytes of the 64 that [snprintf] may fill. *)
Definition joined (c : Z) : bytes := lit "[user " ++ show_int c ++ lit " joined]" ++ [newline].

(** [poll] reported the listener and [accept] returned descriptor [c], whose sends will
    see [w]: [None] when the table is full and the rest of the round is skipped. *)
Definition enter (c : Z) (w : world) (s : server) : server + server :=
  match list_find (λ e, fd e < 0) (slots s) with
  | Some (i, _) =>
      inr (broadcast 0 (joined c) (MkServer (<[i := Client c w]> (slots s)) ({[c]} ∪ opened s)))
  | None => inl (MkServer (slots s) (opened s))
  end.

(** One round of the loop. *)
Definition round (incoming : option (Z * world)) (reports : list report) (s : server) : server :=
  match incoming with
  | Some (c, w) =>
      match enter c w s with
      | inl s' => s'
      | inr s' => serve_from 0 reports s'
      end
  | None => serve_from 0 reports s
  end.

(** ** Descriptors are closed once and never leaked *)

Record fds_ok (l : Z) (s : server) : Prop := {
  fds_open x : x ∈ opened s ↔ x = l ∨ 0 <= x ∧ ∃ i c, slots s !! i = Some c ∧ fd c = x;
  fds_distinct i j c c' : slots s !! i = Some c → slots s !! j = Some c' → fd c = fd c' → 0 <= fd c → i = j;
  fds_listener i c : slots s !! i = Some c → fd c ≠ l
}.

Lemma elem_closed old new x :
  length old = length new →
  x ∈ closed old new ↔ 0 <= x ∧ ∃ i c c', old !! i = Some c ∧ new !! i = Some c' ∧ fd c = x ∧ fd c' < 0.
Proof.
  intros Hlen. unfold closed. rewrite elem_of_list_to_set, list_elem_of_fmap. split.
  - intros ([c c'] & -> & [[H1 H2] Hin]%list_elem_of_filter). split; [done|].
    apply list_elem_of_lookup in Hin as [i Hi]. apply lookup_zip_Some in Hi as [Hi Hi']. by exists i, c, c'.
  - intros (Hx & i & c & c' & Hi & Hi' & <- & Hc). exists (c, c'). split; [done|].
    apply list_elem_of_filter. split; [done|]. apply list_elem_of_lookup. exists i.
    by apply lookup_zip_Some.
Qed.

Lemma send_to_fd from data i c : fd (send_to from data i c) = fd c ∨ fd (send_to from data i c) = -1.
Proof.
  unfold send_to. destruct (_ && _)%bool; [|by left]. by destruct (send_loop _ _ _) as [[[] ?]|]; auto.
Qed.

(** Clearing some entries and closing exactly their descriptors. *)
Lemma clear_ok l s new :
  fds_ok l s → length (slots s) = length new → l ≠ -1 →
  (∀ i c c', slots s !! i = Some c → new !! i = Some c' → fd c' = fd c ∨ fd c' = -1) →
  fds_ok l (MkServer new (opened s ∖ closed (slots s) new)).
Proof.
  intros [Ho Hd Hl] Hlen Hl1 Hnew.
  assert (∀ i c', new !! i = Some c' → ∃ c, slots s !! i = Some c ∧ (fd c' = fd c ∨ fd c' = -1)) as Hback.
  { intros i c' Hi. destruct (lookup_lt_is_Some_2 (slots s) i) as [c Hc].
    { rewrite Hlen. by apply lookup_lt_Some in Hi. }
    exists c. split; [done|]. by eapply Hnew. }
  split; cbn [slots opened].
  - intros x. rewrite elem_of_difference, Ho, (elem_closed _ _ _ Hlen). split.
    + intros [[->|(Hx & i & c & Hi & Hc)] Hno]; [by left|]. right. split; [done|].
      destruct (lookup_lt_is_Some_2 new i) as [c' Hc']; [rewrite <-Hlen; by apply lookup_lt_Some in Hi|].
      exists i, c'. split; [done|]. destruct (Hnew i c c') as [E|E]; [done|done|congruence|].
      exfalso. apply Hno. split; [done|]. exists i, c, c'. rewrite E. done.
    + intros [->|(Hx & i & c' & Hi & Hc)].
      * split; [by left|]. intros (_ & i & c & c' & Hi & _ & E & _). by eapply Hl.
      * destruct (Hback i c' Hi) as (c & Hic & [E|E]); [|lia].
        split; [right; split; [done|]; exists i, c; split; [done|congruence]|].
        intros (_ & j & d & d' & Hj & Hj' & E' & Hneg).
        assert (j = i) as -> by (apply (Hd j i d c); [done..|congruence|lia]). simplify_eq. lia.
  - intros i j c c' Hi Hj E Hpos.
    destruct (Hback i c Hi) as (d & Hdi & [Ed|Ed]); [|lia].
    destruct (Hback j c' Hj) as (d' & Hdj & [Ed'|Ed']); [|lia].
    apply (Hd i j d d'); [done..|congruence|lia].
  - intros i c' Hi. destruct (Hback i c' Hi) as (c & Hic & [->| ->]); [by eapply Hl|done].
Qed.

Lemma broadcast_ok l from data s : fds_ok l s → l ≠ -1 → fds_ok l (broadcast from data s).
Proof.
  intros Hok Hl. apply clear_ok; [done| |done|].
  - by rewrite length_imap.
  - intros i c c' Hi Hi'. rewrite list_lookup_imap, Hi in Hi'. injection Hi' as <-. apply send_to_fd.
Qed.

Lemma leave_ok l i c s :
  fds_ok l s → l ≠ -1 → slots s !! i = Some c → 0 <= fd c → fds_ok l (leave i c s).
Proof.
  intros Hok Hl Hi Hpos. unfold leave.
  assert (opened s ∖ {[fd c]} = opened s ∖ closed (slots s) (<[i := drop_client c]> (slots s))) as ->.
  { apply leibniz_equiv. intros x. rewrite !elem_of_difference, elem_of_singleton, elem_closed by by rewrite length_insert.
    split; intros [H1 H2]; (split; [done|]); contradict H2.
    - destruct H2 as (Hx & j & d & d' & Hj & Hj' & <- & Hneg). destruct (decide (j = i)) as [->|Hji]; [congruence|].
      rewrite list_lookup_insert_ne in Hj' by done. simplify_eq. lia.
    - subst x. split; [done|]. exists i, c, (drop_client c).
      rewrite list_lookup_insert_eq by (by apply lookup_lt_Some in Hi). done. }
  apply clear_ok; [done|by rewrite length_insert|done|].
  intros j d d' Hj Hj'. destruct (decide (j = i)) as [->|Hji].
  - rewrite list_lookup_insert_eq in Hj' by (by apply lookup_lt_Some in Hi). simplify_eq. by right.
  - rewrite list_lookup_insert_ne in Hj' by done. simplify_eq. by left.
Qed.

Lemma serve_from_ok l i reports s : fds_ok l s → l ≠ -1 → fds_ok l (serve_from i reports s).
Proof.
  intros Hok Hl. revert i s Hok. induction reports as [|r reports IH]; intros i s Hok; cbn [serve_from]; [done|].
  apply IH. unfold serve_client. destruct (slots s !! i) as [c|] eqn:Hi; [|done].
  destruct (Z.leb_spec 0 (fd c)); [|done]. destruct r; [done| |by apply broadcast_ok|]; by apply leave_ok.
Qed.

Lemma start_fds_ok l : 0 <= l → fds_ok l (start l).
Proof.
  intros Hl. split; cbn [start slots opened].
  - intros x. rewrite elem_of_singleton. split; [by left|]. intros [->|(Hx & i & c & Hi & <-)]; [done|].
    apply lookup_replicate in Hi as [-> _]. cbn in Hx. lia.
  - intros i j c c' [-> _]%lookup_replicate _ _ ?. cbn in *. lia.
  - intros i c [-> _]%lookup_replicate. cbn. lia.
Qed.

(** In every round, whatever the kernel reports and however sends break, the open
    descriptors are the listener's and those of the clients in the table, each
    client in one entry - except that a client turned away from a full table has its
    descriptor closed at once. *)
Theorem round_fds_ok l incoming reports s :
  fds_ok l s → 0 <= l → (∀ c w, incoming = Some (c, w) → 0 <= c ∧ c ∉ opened s) →
  fds_ok l (round incoming reports s).
Proof.
  intros Hok Hl Hin. unfold round. destruct incoming as [[c w]|]; [|apply serve_from_ok; [done|lia]].
  destruct (Hin c w eq_refl) as [Hc Hno]. unfold enter.
  destruct (list_find _ _) as [[i e]|] eqn:Hf; [|by destruct Hok].
  apply list_find_Some in Hf as (Hi & Hneg & _).
  apply serve_from_ok; [|lia]. apply broadcast_ok; [|lia]. pose proof (lookup_lt_Some _ _ _ Hi) as Hlt.
  destruct Hok as [Ho Hd Hlis]. rewrite Ho in Hno. split; cbn [slots opened].
  - intros x. rewrite elem_of_union, elem_of_singleton, Ho. split.
    + intros [->|[->|(Hx & j & d & Hj & Hdx)]]; [|by left|].
      * right. split; [done|]. exists i, (Client c w). by rewrite list_lookup_insert_eq.
      * right. split; [done|]. exists j, d. rewrite list_lookup_insert_ne; [done|]. intros ->. simplify_eq. lia.
    + intros [->|(Hx & j & d & Hj & Hdx)]; [auto|]. destruct (decide (j = i)) as [->|Hji].
      * rewrite list_lookup_insert_eq in Hj by done. simplify_eq. by left.
      * rewrite list_lookup_insert_ne in Hj by done. right. right. eauto.
  - intros j k d d' Hj Hk E Hpos.
    destruct (decide (j = i)) as [->|Hji], (decide (k = i)) as [->|Hki]; try done.
    + rewrite list_lookup_insert_eq in Hj by done. rewrite list_lookup_insert_ne in Hk by done. simplify_eq.
      exfalso. apply Hno. right. split; [done|]. exists k, d'. by rewrite <-E.
    + rewrite list_lookup_insert_eq in Hk by done. rewrite list_lookup_insert_ne in Hj by done. simplify_eq.
      exfalso. apply Hno. right. split; [done|]. by exists j, d.
    + rewrite list_lookup_insert_ne in Hj, Hk by done. by apply (Hd j k d d').
  - intros j d Hj. destruct (decide (j = i)) as [->|Hji].
    + rewrite list_lookup_insert_eq in Hj by done. simplify_eq. cbn. intros ->. apply Hno. by left.
    + rewrite list_lookup_insert_ne in Hj by done. by eapply Hlis.
Qed.

(** ** What the clients hear *)

(** The bytes entry [j] is sent while the reports from entry [i] on are served. *)
Fixpoint heard (j i : nat) (reports : list report) : bytes :=
  match reports with
  | [] => []
  | r :: reports =>
      match r with
      | Quiet => heard j (S i) reports
      | Line data => if (i =? j)%nat then heard j (S i) reports else data ++ heard j (S i) reports
      | Hangup | Ended => if (i =? j)%nat then [] else heard j (S i) reports
      end
  end.
Definition leaves (r : report) : bool := match r with Hangup | Ended => true | _ => false end.

(** The kernel reports nothing on entries without a descriptor, and its sends get through. *)
Definition well (s : server) (i : nat) (reports : list report) : Prop :=
  ∀ j c, slots s !! (i + j)%nat = Some c →
  (fd c < 0 → reports !! j = Some Quiet ∨ reports !! j = None).
Definition smooth (s : server) : Prop :=
  ∀ j c, slots s !! j = Some c → 0 <= fd c → Forall advances (answers (wr c)).

Lemma send_to_smooth from data i c :
  (0 <= fd c → Forall advances (answers (wr c))) →
  fd (send_to from data i c) = fd c ∧
  (0 <= fd c → Forall advances (answers (wr (send_to from data i c)))) ∧
  out (wr (send_to from data i c)) =
  out (wr c) ++ (if (0 <=? fd c) && negb (i =? from)%nat then data else []).
Proof.
  intros Hw. unfold send_to. destruct ((0 <=? fd c) && negb (i =? from)%nat) eqn:E.
  - apply andb_prop in E as [Hfd _]. zbool. specialize (Hw Hfd).
    destruct (send_loop_complete (send_fuel (wr c)) data (wr c)) as (w' & -> & Ho & Hw');
      [done|unfold send_fuel; lia|]. done.
  - by rewrite app_nil_r.
Qed.

Lemma broadcast_smooth from data s j c :
  smooth s → slots s !! j = Some c →
  ∃ c', slots (broadcast from data s) !! j = Some c' ∧ fd c' = fd c ∧
  (0 <= fd c → Forall advances (answers (wr c'))) ∧
  out (wr c') = out (wr c) ++ (if (0 <=? fd c) && negb (S j =? from)%nat then data else []).
Proof.
  intros Hs Hj. cbn [broadcast slots]. rewrite list_lookup_imap, Hj. eexists. split; [done|].
  apply send_to_smooth. intros. by eapply Hs.
Qed.

(** What one report sends to entry [j]. *)
Definition hears (j i : nat) (r : report) : bytes :=
  match r with Line data => if (i =? j)%nat then [] else data | _ => [] end.

Lemma serve_client_spec i r s e j c :
  smooth s → slots s !! i = Some e → (fd e < 0 → r = Quiet) → slots s !! j = Some c →
  ∃ c1, slots (serve_client i r s) !! j = Some c1 ∧
  fd c1 = (if (j =? i)%nat && leaves r then -1 else fd c) ∧
  (0 <= fd c1 → Forall advances (answers (wr c1))) ∧
  out (wr c1) = out (wr c) ++ (if 0 <=? fd c then hears j i r else []).
Proof.
  intros Hs He Hquiet Hj. unfold serve_client. rewrite He.
  assert (∀ r, hears j i r = [] → (j =? i)%nat && leaves r = false →
    ∃ c1, slots s !! j = Some c1 ∧ fd c1 = (if (j =? i)%nat && leaves r then -1 else fd c) ∧
    (0 <= fd c1 → Forall advances (answers (wr c1))) ∧
    out (wr c1) = out (wr c) ++ (if 0 <=? fd c then hears j i r else [])) as Hsame.
  { intros r' Hr Hl. exists c. rewrite Hr, Hl. destruct (0 <=? fd c); rewrite app_nil_r; eauto. }
  assert (∀ r, leaves r = true →
    ∃ c1, slots (leave i e s) !! j = Some c1 ∧ fd c1 = (if (j =? i)%nat && leaves r then -1 else fd c) ∧
    (0 <= fd c1 → Forall advances (answers (wr c1))) ∧
    out (wr c1) = out (wr c) ++ (if 0 <=? fd c then hears j i r else [])) as Hleave.
  { intros r' Hl. assert (hears j i r' = []) as Hr by (by destruct r'). cbn [leave slots]. rewrite Hl, Hr, andb_true_r.
    destruct (Nat.eqb_spec j i) as [->|Hne].
    - rewrite list_lookup_insert_eq by (by apply lookup_lt_Some in He). assert (c = e) as -> by congruence.
      exists (drop_client e). cbn. destruct (0 <=? fd e); rewrite app_nil_r; repeat split; lia.
    - rewrite list_lookup_insert_ne by done. exists c. destruct (0 <=? fd c); rewrite app_nil_r; eauto. }
  destruct (Z.leb_spec 0 (fd e)); [|rewrite Hquiet by done; apply Hsame; [done|apply andb_false_r]].
  destruct r as [| |data|]; [apply Hsame; [done|apply andb_false_r]|by apply Hleave| |by apply Hleave].
  destruct (broadcast_smooth (S i) data s j c Hs Hj) as (c1 & H1 & H2 & H3 & H4). exists c1.
  split; [done|]. rewrite andb_false_r, H2. split; [done|]. split; [done|]. rewrite H4.
  cbn [hears Nat.eqb]. rewrite (Nat.eqb_sym i j). f_equal. by destruct (0 <=? fd c), (j =? i)%nat.
Qed.

Lemma serve_client_slots i r s : length (slots (serve_client i r s)) = length (slots s).
Proof.
  unfold serve_client. destruct (slots s !! i) as [c|]; [|done]. destruct (0 <=? fd c); [|done].
  destruct r; cbn [leave broadcast slots]; rewrite ?length_insert, ?length_imap; done.
Qed.

Lemma heard_cons j i r reports :
  heard j i (r :: reports) = hears j i r ++ (if (j =? i)%nat && leaves r then [] else heard j (S i) reports).
Proof. cbn [heard]. rewrite (Nat.eqb_sym i j). destruct r; cbn; rewrite ?(Nat.eqb_sym i j); by destruct (j =? i)%nat. Qed.

Lemma serve_from_heard i reports s j c :
  well s i reports → smooth s → (i + length reports ≤ length (slots s))%nat → slots s !! j = Some c →
  ∃ c', slots (serve_from i reports s) !! j = Some c' ∧
  out (wr c') = out (wr c) ++ (if 0 <=? fd c then heard j i reports else []) ∧
  (∀ r, reports !! (j - i)%nat = Some r → (i ≤ j)%nat → leaves r = true → fd c' = -1) ∧
  ((∀ r, reports !! (j - i)%nat = Some r → (i ≤ j)%nat → leaves r = false) → fd c' = fd c).
Proof.
  revert i s c. induction reports as [|r reports IH]; intros i s c Hwell Hs Hlen Hj; cbn [serve_from].
  { exists c. destruct (0 <=? fd c); rewrite app_nil_r; done. }
  cbn [length] in Hlen. destruct (lookup_lt_is_Some_2 (slots s) i) as [e He]; [lia|].
  assert (fd e < 0 → r = Quiet) as Hquiet.
  { intros Hneg. destruct (Hwell O e) as [[= ->]|?]; [by rewrite Nat.add_0_r|done..]. }
  assert (∀ k d1, slots (serve_client i r s) !! k = Some d1 → ∃ d, slots s !! k = Some d ∧
    fd d1 = (if (k =? i)%nat && leaves r then -1 else fd d) ∧
    (0 <= fd d1 → Forall advances (answers (wr d1)))) as Hback.
  { intros k d1 Hk. destruct (lookup_lt_is_Some_2 (slots s) k) as [d Hd].
    { rewrite <-(serve_client_slots i r). by apply lookup_lt_Some in Hk. }
    destruct (serve_client_spec i r s e k d) as (d2 & H1 & H2 & H3 & _); [done..|]. simplify_eq. eauto. }
  destruct (serve_client_spec i r s e j c) as (c1 & Hc1 & Hf1 & _ & Ho1); [done..|].
  destruct (IH (S i) (serve_client i r s) c1) as (c' & H1 & H2 & H3 & H4).
  - intros k d1 Hk Hneg. destruct (Hback _ _ Hk) as (d & Hd & Hfd & _). apply (Hwell (S k) d).
    + by replace (i + S k)%nat with (S i + k)%nat by lia.
    + rewrite (proj2 (Nat.eqb_neq (S i + k) i)) in Hfd by lia. cbn in Hfd. lia.
  - intros k d1 Hk. by destruct (Hback _ _ Hk) as (d & _ & _ & Ha).
  - rewrite serve_client_slots. lia.
  - done.
  - exists c'. split; [done|]. rewrite H2, Ho1, <-app_assoc, heard_cons. split; [|split].
    + f_equal. destruct (Z.leb_spec 0 (fd c)) as [Hpos|Hneg].
      * destruct ((j =? i)%nat && leaves r); rewrite Hf1; [done|]. by rewrite (proj2 (Z.leb_le 0 (fd c))).
      * destruct ((j =? i)%nat && leaves r); rewrite Hf1; [done|]. by rewrite (proj2 (Z.leb_gt 0 (fd c))).
    + intros r0 Hr0 Hij Hl. destruct (decide (j = i)) as [->|Hne].
      * rewrite Nat.sub_diag in Hr0. cbn in Hr0. simplify_eq. rewrite H4, Hf1, Nat.eqb_refl, Hl; [done|].
        intros; lia.
      * apply (H3 r0); [|lia|done]. replace (j - i)%nat with (S (j - S i)) in Hr0 by lia. done.
    + intros Hstay. rewrite H4, Hf1.
      * destruct (Nat.eqb_spec j i) as [->|Hne]; [|done]. rewrite (Hstay r); [done| |lia].
        by rewrite Nat.sub_diag.
      * intros r0 Hr0 Hij. apply (Hstay r0); [|lia]. by replace (j - i)%nat with (S (j - S i)) by lia.
Qed.

(** C25. In a round in which all sends get through, and in which a client that joins finds
    a free place in the table, every client is sent the announcement of that client and then, in the order of the table, exactly what the
    other ready clients sent, up to its own departure; the clients that hung up or
    ended leave the table and no others. *)
Theorem round_delivers incoming reports s j c :
  length (slots s) = length reports → smooth s →
  (∀ c w, incoming = Some (c, w) → 0 <= c ∧ Forall advances (answers w)) →
  (∀ k e, slots s !! k = Some e → fd e < 0 → reports !! k = Some Quiet) →
  (incoming ≠ None → ∃ k e, slots s !! k = Some e ∧ fd e < 0) →
  slots s !! j = Some c → 0 <= fd c →
  ∃ c', slots (round incoming reports s) !! j = Some c' ∧
  out (wr c') = out (wr c) ++ (if incoming is Some (x, _) then joined x else []) ++ heard j 0 reports ∧
  (∀ r, reports !! j = Some r → fd c' = if leaves r then -1 else fd c).
Proof.
  intros Hlen Hs Hin Hpoll Hroom Hj Hfd.
  assert (∀ s1 c1, length (slots s1) = length (slots s) → smooth s1 →
    (∀ k e, slots s1 !! k = Some e → fd e < 0 → reports !! k = Some Quiet) →
    slots s1 !! j = Some c1 → fd c1 = fd c →
    ∃ c', slots (serve_from 0 reports s1) !! j = Some c' ∧ out (wr c') = out (wr c1) ++ heard j 0 reports ∧
      (∀ r, reports !! j = Some r → fd c' = if leaves r then -1 else fd c)) as Hserve.
  { intros s1 c1 Hl1 Hs1 Hp1 Hj1 Hf1.
    destruct (serve_from_heard 0 reports s1 j c1) as (c' & H1 & H2 & H3 & H4); [|done|lia|done|].
    { intros k d Hk Hneg. left. by apply (Hp1 k d). }
    exists c'. split; [done|]. rewrite H2, Hf1, (proj2 (Z.leb_le 0 (fd c))) by done. split; [done|].
    rewrite Nat.sub_0_r in *. intros r Hr. destruct (leaves r) eqn:El; [by apply (H3 r); [|lia|]|].
    rewrite H4, Hf1; [done|]. intros r' Hr' _. by simplify_eq. }
  unfold round. destruct incoming as [[x w]|]; [|by apply Hserve].
  destruct (Hin x w eq_refl) as [Hx Hw]. unfold enter.
  destruct (list_find (λ e, fd e < 0) (slots s)) as [[i e]|] eqn:Hf.
  2: { destruct Hroom as (k & e & Hk & Hneg); [done|]. apply list_find_None in Hf.
       by apply (Forall_lookup_1 _ _ _ _ Hf) in Hk. }
  apply list_find_Some in Hf as (Hi & Hneg & _). pose proof (lookup_lt_Some _ _ _ Hi) as Hlt.
  set (s1 := MkServer (<[i := Client x w]> (slots s)) ({[x]} ∪ opened s)).
  assert (smooth s1) as Hs1.
  { intros k d Hk. cbn in Hk. destruct (decide (k = i)) as [->|Hki].
    - rewrite list_lookup_insert_eq in Hk by done. by simplify_eq.
    - rewrite list_lookup_insert_ne in Hk by done. by apply Hs in Hk. }
  assert (slots s1 !! j = Some c) as Hj1.
  { cbn. rewrite list_lookup_insert_ne; [done|]. intros ->. simplify_eq. lia. }
  destruct (broadcast_smooth 0 (joined x) s1 j c Hs1 Hj1) as (c1 & Hc1 & Hf1 & Ha1 & Ho1).
  assert (∀ k d1, slots (broadcast 0 (joined x) s1) !! k = Some d1 → ∃ d, slots s1 !! k = Some d ∧ fd d1 = fd d ∧
     (0 <= fd d1 → Forall advances (answers (wr d1)))) as Hback.
  { intros k d1 Hk. destruct (lookup_lt_is_Some_2 (slots s1) k) as [d Hd].
    { apply lookup_lt_Some in Hk. cbn [broadcast slots] in Hk. by rewrite length_imap in Hk. }
    destruct (broadcast_smooth 0 (joined x) s1 k d Hs1 Hd) as (d2 & Hd2 & Hfd2 & Ha2 & _). simplify_eq.
    exists d. split; [done|]. split; [done|]. by rewrite Hfd2. }
  destruct (Hserve (broadcast 0 (joined x) s1) c1) as (c' & H1 & H2 & H3); [..|done|done|].
  - cbn. by rewrite length_imap, length_insert.
  - intros k d1 Hk. by destruct (Hback k d1 Hk) as (d & _ & _ & Ha).
  - intros k d1 Hk Hn. destruct (Hback k d1 Hk) as (d & Hd & Hfd1 & _). cbn in Hd.
    destruct (decide (k = i)) as [->|Hki]; [by apply (Hpoll i e)|].
    rewrite list_lookup_insert_ne in Hd by done. apply (Hpoll k d); [done|lia].
  - exists c'. split; [done|]. split; [|done]. rewrite H2, Ho1, (proj2 (Z.leb_le 0 (fd c))), <-app_assoc by done.
    done.
Qed.
Definition three : server :=
  MkServer [Client 4 (World [] [] [Moves 3] 0); Client 5 (World [] [] [] 0); no_client] {[3; 4; 5]}.

Lemma three_smooth : smooth three.
Proof.
  intros [|[|[|k]]] c Hk Hc; cbn in Hk; simplify_eq; cbn in *; try lia; repeat constructor.
Qed.

Lemma round_delivers_witness :
  ∃ c', slots (round (Some (6, World [] [] [] 0)) [Line (lit "hi"); Ended; Quiet] three) !! 1%nat = Some c' ∧
  out (wr c') = [] ++ joined 6 ++ heard 1 0 [Line (lit "hi"); Ended; Quiet] ∧
  (∀ r, [Line (lit "hi"); Ended; Quiet] !! 1%nat = Some r → fd c' = if leaves r then -1 else 5).
Proof.
  apply (round_delivers (Some (6, World [] [] [] 0)) [Line (lit "hi"); Ended; Quiet] three 1 (Client 5 (World [] [] [] 0))).
  - done.
  - apply three_smooth.
  - intros c w [= <- <-]. split; [lia|constructor].
  - intros [|[|[|k]]] e Hk Hneg; cbn in Hk; simplify_eq; cbn in *; try lia; done.
  - intros _. by exists 2%nat, no_client.
  - done.
  - done.
Defined.

Lemma round_fds_ok_witness :
  fds_ok 3 (round (Some (4, World [] [] [] 0)) [Line (lit "hi")] (start 3)).
Proof.
  apply (round_fds_ok 3 (Some (4, World [] [] [] 0)) [Line (lit "hi")] (start 3)); [by apply start_fds_ok|lia|].
  intros c w [= <- <-]. split; [lia|]. cbn. set_solver.
Defined.

(** While the table is full, a round in which somebody tries to join serves nobody:
    the reports on the clients are skipped with the connection turned away. *)
Theorem full_table_skips_round c w reports s :
  Forall (λ e, 0 <= fd e) (slots s) → round (Some (c, w)) reports s = s.
Proof.
  intros Hall. unfold round, enter. destruct (list_find _ _) as [[i e]|] eqn:Hf; [|by destruct s].
  apply list_find_Some in Hf as (Hi & Hneg & _). apply (Forall_lookup_1 _ _ _ _ Hall) in Hi. lia.
Qed.
Lemma full_table_skips_round_witness :
  let s := MkServer [Client 4 (World [] [] [] 0)] {[3; 4]} in
  round (Some (5, World [] [] [] 0)) [Line (lit "hi")] s = s.
Proof. intros s. apply (full_table_skips_round 5 (World [] [] [] 0) [Line (lit "hi")] s). repeat constructor. done. Defined.
End Server.

Module Client.

(** The state of the loop: whether entry 0 (stdin) is still watched, the socket's sends,
    what reached the terminal, whether [shutdown(s, SHUT_WR)] was called. *)
Record client := MkClient { watches_stdin : bool; sock : world; screen : world; shut : bool }.
Definition start (sock screen : world) : client := MkClient true sock screen false.

(** What [poll] reports on stdin: nothing, a hang-up without data, or data ready with what
    [read] returns ([None]: end of file or an error). *)
Inductive stdin_report := Nothing | Hung_up | Typed (r : option bytes).

(** The loop around [send]: here a [send] that moves nothing is tried again. *)
Fixpoint send_line (fuel : nat) (data : bytes) (w : world) : option (sent * world) :=
  match fuel with
  | O => None
  | S fuel =>
      match data with
      | [] => Some (Complete, w)
      | _ :: _ =>
          let '(n, w') := sys_write data w in
          if n <? 0 then
            if errno w' =? EINTR then send_line fuel data w' else Some (Broken, w')
          else send_line fuel (drop (Z.to_nat n) data) w'
      end
  end.

(** The copy to the terminal: [write] until nothing is left or it moves nothing. *)
Definition show (data : bytes) (w : world) : world :=
  match send_loop (send_fuel w) data w with Some (_, w') => w' | None => w end.

(** One round: [inl status] when the client returns, [inr] its next state.  [hup]: POLLHUP
    or POLLERR on the socket; [arrived]: POLLIN on it with what [recv] returns. *)
Definition round (hup : bool) (arrived : option (option bytes)) (stdin : stdin_report) (c : client) : Z + client :=
  if hup then inl 0
  else
    match arrived with
    | Some None => inl 0
    | _ =>
        let c := match arrived with
                 | Some (Some data) => MkClient (watches_stdin c) (sock c) (show data (screen c)) (shut c)
                 | _ => c
                 end in
        if watches_stdin c then
          match stdin with
          | Typed None => inr (MkClient false (sock c) (screen c) true)
          | Typed (Some data) =>
              match send_line (send_fuel (sock c)) data (sock c) with
              | Some (Broken, _) => inl 1
              | Some (_, w') => inr (MkClient (watches_stdin c) w' (screen c) (shut c))
              | None => inr c
              end
          | Nothing | Hung_up => inr c
          end
        else inr c
  end.

Fixpoint rounds (rs : list (option bytes * option bytes)) (c : client) : Z + client :=
  match rs with
  | [] => inr c
  | (arrived, typed) :: rs =>
      match round false (Some <$> arrived) (if typed is Some d then Typed (Some d) else Nothing) c with
      | inl z => inl z
      | inr c' => rounds rs c'
      end
  end.

Lemma send_line_complete fuel data w :
  Forall advances (answers w) → (length (answers w) + 1 < fuel)%nat →
  ∃ w', send_line fuel data w = Some (Complete, w') ∧ out w' = out w ++ data ∧ Forall advances (answers w').
Proof.
  intros Hp Hf. destruct (send_loop_complete fuel data w Hp Hf) as (w' & E & H). exists w'. split; [|done].
  clear H Hp Hf. revert data w E. induction fuel as [|fuel IH]; intros data w; cbn [send_loop send_line]; [done|].
  destruct data as [|x data]; [done|]. destruct (sys_write (x :: data) w) as [n w1].
  destruct (n <? 0); [destruct (errno w1 =? EINTR); [apply IH|done]|].
  destruct (n =? 0); [done|apply IH].
Qed.

(** As long as both ends stay up and transfers are only cut and interrupted, the client
    shows everything that arrives and sends everything that is typed, in order. *)
Theorem client_relays rs c :
  watches_stdin c = true → Forall advances (answers (sock c)) → Forall advances (answers (screen c)) →
  ∃ c', rounds rs c = inr c' ∧
  out (screen c') = out (screen c) ++ concat (default [] <$> rs.*1) ∧
  out (sock c') = out (sock c) ++ concat (default [] <$> rs.*2).
Proof.
  revert c. induction rs as [|[arrived typed] rs IH]; intros c Hw Hs Hsc; cbn [rounds].
  { exists c. cbn. by rewrite !app_nil_r. }
  assert (∃ sc, out sc = out (screen c) ++ default [] arrived ∧ Forall advances (answers sc) ∧
    round false (Some <$> arrived) (if typed is Some d then Typed (Some d) else Nothing) c =
    round false None (if typed is Some d then Typed (Some d) else Nothing) (MkClient (watches_stdin c) (sock c) sc (shut c)))
    as (sc & Hsc1 & Hsc2 & ->).
  { destruct arrived as [data|]; cbn [fmap option_fmap option_map default].
    - destruct (send_loop_complete (send_fuel (screen c)) data (screen c)) as (w' & E & Ho & Ha);
        [done|unfold send_fuel; lia|]. exists w'. split; [done|]. split; [done|]. unfold round, show. by rewrite E.
    - exists (screen c). rewrite app_nil_r. split; [done|]. split; [done|]. by destruct c. }
  assert (∃ so, out so = out (sock c) ++ default [] typed ∧ Forall advances (answers so) ∧
    round false None (if typed is Some d then Typed (Some d) else Nothing) (MkClient (watches_stdin c) (sock c) sc (shut c)) =
    inr (MkClient (watches_stdin c) so sc (shut c))) as (so & Hso1 & Hso2 & ->).
  { unfold round. cbn [watches_stdin sock screen shut]. rewrite Hw. destruct typed as [data|]; cbn [default].
    - destruct (send_line_complete (send_fuel (sock c)) data (sock c)) as (w' & E & Ho & Ha);
        [done|unfold send_fuel; lia|]. exists w'. rewrite E. done.
    - exists (sock c). rewrite app_nil_r. done. }
  destruct (IH (MkClient (watches_stdin c) so sc (shut c))) as (c' & H1 & H2 & H3); [done..|].
  exists c'. split; [done|]. cbn [fmap list_fmap fst snd concat]. rewrite H2, H3. cbn [screen sock].
  by rewrite Hsc1, Hso1, <-!app_assoc.
Qed.
Lemma client_relays_witness :
  let c := start (World [] [] [Moves 2; Fails EINTR] 0) (World [] [] [] 0) in
  ∃ c', rounds [(Some (lit "hello"), None); (None, Some (lit "bye"))] c = inr c' ∧
  out (screen c') = [] ++ lit "hello" ++ [] ∧ out (sock c') = [] ++ [] ++ lit "bye".
Proof.
  intros c. apply (client_relays [(Some (lit "hello"), None); (None, Some (lit "bye"))] c); [done|repeat constructor..].
Defined.

(** When the server closes after the client has ended its input, the socket reports
    hang-up and the last data together: the client leaves without reading the data. *)
Theorem hangup_drops_data data stdin c : round true (Some (Some data)) stdin c = inl 0.
Proof. done. Qed.

(** A hang-up of stdin without data, as the end of a pipe gives, is not taken for the
    end of the input: the client goes round its loop for ever and never shuts down
    its sending side. *)
Theorem stdin_hangup_spins n c :
  watches_stdin c = true → Nat.iter n (λ r, if r is inr c' then round false None Hung_up c' else r) (inr c) = inr c.
Proof. intros Hw. induction n as [|n IH]; [done|].
  rewrite Nat.iter_succ, IH. unfold round. by rewrite Hw. Qed.
Lemma stdin_hangup_spins_witness :
  let c := start (World [] [] [] 0) (World [] [] [] 0) in
  Nat.iter 3 (λ r, if r is inr c' then round false None Hung_up c' else r) (inr c) = inr c.
Proof. intros c. by apply (stdin_hangup_spins 3 c). Defined.
End Client.
