(* ===== verification/EffectiveValues.v ===== *)
(** * Value types and algorithms of the Effective C++ examples

    The classes and templates under src/cplusplus/effective_c++/code whose objects
    are plain values: the rational numbers of items 19, 21, 24 and 46, the dates of
    item 18, the set of item 38, the template code of items 44, 47 and 48, and the
    integer parser of item 53.  A signed operation whose result is no [int] is
    [Undef]; [std::size_t] wraps modulo [2 ^ 64]. *)

From stdpp Require Import base numbers gmap list strings.
From Stdlib Require Import Ascii ZArith Znumtheory Lia.
From S2P Require Import Prelude CxxString.

Local Open Scope Z_scope.

(** ** Signed arithmetic *)

(** The result of an operation on [int]. *)
Definition arith (x : Z) : outcome Z := if is_int x then Ret x else Undef.
Definition imul (x y : Z) : outcome Z := arith (x * y).
Definition iadd (x y : Z) : outcome Z := arith (x + y).
Definition ineg (x : Z) : outcome Z := arith (- x).
Definition idiv (x y : Z) : outcome Z := if y =? 0 then Undef else arith (Z.quot x y).

(** [std::gcd] requires both absolute values to be an [int]. *)
Definition gcd (m n : Z) : outcome Z :=
  if is_int (Z.abs m) && is_int (Z.abs n) then Ret (Z.gcd m n) else Undef.

Lemma is_int_iff x : is_int x = true ↔ int_min <= x <= int_max.
Proof. unfold is_int. rewrite andb_true_iff, !Z.leb_le. lia. Qed.
Lemma is_int_false x : is_int x = false ↔ x < int_min ∨ int_max < x.
Proof. unfold is_int. rewrite andb_false_iff, !Z.leb_gt. lia. Qed.
Lemma is_int_abs x : is_int x = true → x ≠ int_min → is_int (Z.abs x) = true.
Proof. rewrite !is_int_iff. unfold int_min, int_max. lia. Qed.

Lemma arith_ret x : is_int x = true → arith x = Ret x.
Proof. unfold arith. by intros ->. Qed.
Lemma arith_inv x y : arith x = Ret y → y = x.
Proof. unfold arith. destruct (is_int x); [|done]. by intros [= ->]. Qed.
Lemma arith_cases x :
  (arith x = Ret x ∧ int_min <= x <= int_max) ∨
  (arith x = Undef ∧ ¬ int_min <= x <= int_max).
Proof.
  unfold arith. rewrite <-is_int_iff. destruct (is_int x); [by left|by right].
Qed.

Lemma gcd_ret m n :
  is_int m = true → is_int n = true → m ≠ int_min → n ≠ int_min →
  gcd m n = Ret (Z.gcd m n).
Proof. intros. unfold gcd. by rewrite !is_int_abs. Qed.

(** Dividing two numbers by their greatest common divisor. *)
Lemma div_gcd m n :
  n ≠ 0 →
  let g := Z.gcd m n in
  0 < g ∧ Z.quot m g * g = m ∧ Z.quot n g * g = n ∧
  Z.gcd (Z.quot m g) (Z.quot n g) = 1.
Proof.
  intros Hn g. assert (0 < g) as Hg.
  { pose proof (Z.gcd_nonneg m n). assert (g ≠ 0); [|unfold g in *; lia].
    intros [_ ?]%Z.gcd_eq_0. done. }
  destruct (Z.gcd_divide_l m n) as [a Ha]. destruct (Z.gcd_divide_r m n) as [b Hb].
  fold g in Ha, Hb.
  assert (Z.quot m g = a) as Ea by (rewrite Ha; apply Z.quot_mul; lia).
  assert (Z.quot n g = b) as Eb by (rewrite Hb; apply Z.quot_mul; lia).
  rewrite Ea, Eb. repeat split; [done|lia..|].
  assert (g = g * Z.gcd a b) as E; [|nia].
  rewrite <-(Z.abs_eq g) at 2 by lia.
  rewrite <-Z.gcd_mul_mono_l. unfold g at 1. f_equal; lia.
Qed.

Lemma idiv_gcd m n :
  n ≠ 0 → is_int m = true → is_int n = true → m ≠ int_min → n ≠ int_min →
  idiv m (Z.gcd m n) = Ret (Z.quot m (Z.gcd m n)) ∧
  idiv n (Z.gcd m n) = Ret (Z.quot n (Z.gcd m n)).
Proof.
  intros Hn Hm Hn'. rewrite is_int_iff in Hm, Hn'. intros.
  destruct (div_gcd m n Hn) as (Hg & Em & En & _). unfold idiv.
  rewrite (proj2 (Z.eqb_neq _ _)) by lia.
  split; apply arith_ret, is_int_iff; unfold int_min, int_max in *; nia.
Qed.

(** Reduced fractions of the same value agree up to the sign. *)
Lemma reduced_unique a b c d :
  b ≠ 0 → d ≠ 0 → Z.gcd a b = 1 → Z.gcd c d = 1 → a * d = c * b →
  (a = c ∧ b = d) ∨ (a = - c ∧ b = - d).
Proof.
  intros Hb Hd Gab Gcd E.
  assert (b | d) as Hbd.
  { apply (Gauss b a d). { exists c. lia. } apply Zgcd_1_rel_prime. by rewrite Z.gcd_comm. }
  assert (d | b) as Hdb.
  { apply (Gauss d c b). { exists a. lia. } apply Zgcd_1_rel_prime. by rewrite Z.gcd_comm. }
  destruct (Z.divide_antisym _ _ Hbd Hdb) as [->| ->]; [left|right]; split; try done; nia.
Qed.

(** ** Items 19, 21, 24 and 46: rational numbers *)

Record Rational := MkRational { numerator : Z; denominator : Z }.
#[export] Instance Rational_eq_dec : EqDecision Rational.
Proof. solve_decision. Defined.

(** Two representations of the same number. *)
Definition same_value (q r : Rational) : Prop :=
  numerator q * denominator r = numerator r * denominator q.

Lemma same_value_trans q m r :
  denominator m ≠ 0 → same_value q m → same_value m r → same_value q r.
Proof.
  unfold same_value. intros Hm E1 E2. apply (Z.mul_reg_l _ _ (denominator m)); [done|].
  transitivity (numerator q * denominator m * denominator r); [ring|].
  rewrite E1. transitivity (numerator m * denominator r * denominator q); [ring|].
  rewrite E2. ring.
Qed.

(** What both reducing constructors establish: coprime, with a denominator. *)
Definition reduced (q : Rational) : Prop :=
  denominator q ≠ 0 ∧ Z.gcd (numerator q) (denominator q) = 1 ∧
  Z.abs (numerator q) <= int_max ∧ Z.abs (denominator q) <= int_max.

Module Normalized.

Definition normalize (q : Rational) : outcome Rational :=
  q' ← (if denominator q <? 0 then
          n ← ineg (numerator q);
          d ← ineg (denominator q);
          Ret (MkRational n d)
        else Ret q);
  divisor ← gcd (numerator q') (denominator q');
  n ← idiv (numerator q') divisor;
  d ← idiv (denominator q') divisor;
  Ret (MkRational n d).

Definition rational (n d : Z) : outcome Rational :=
  if d =? 0 then Throw InvalidArgument else normalize (MkRational n d).

(** The type's invariant: reduced, with a positive denominator. *)
Definition canonical (q : Rational) : Prop := reduced q ∧ 0 < denominator q.

Lemma canonical_unique q r : canonical q → canonical r → same_value q r → q = r.
Proof.
  intros [(Hq & Gq & _) Pq] [(Hr & Gr & _) Pr] E.
  destruct q as [a b], r as [c d]; cbn in *.
  destruct (reduced_unique a b c d) as [[-> ->]|[? ?]]; [done..|lia].
Qed.

Lemma rational_ret n d :
  d ≠ 0 → is_int n = true → is_int d = true → n ≠ int_min → d ≠ int_min →
  ∃ q, rational n d = Ret q ∧ canonical q ∧ numerator q * d = n * denominator q.
Proof.
  intros Hd Hn Hd' Hn1 Hd1. unfold rational, normalize. cbn [numerator denominator].
  rewrite (proj2 (Z.eqb_neq _ _)) by done.
  assert (∀ n' d', d' ≠ 0 → is_int n' = true → is_int d' = true → n' ≠ int_min →
            d' ≠ int_min → 0 < d' → n' * d = n * d' →
            ∃ q, (divisor ← gcd n' d'; a ← idiv n' divisor; b ← idiv d' divisor;
                  Ret (MkRational a b)) = Ret q ∧
                 canonical q ∧ numerator q * d = n * denominator q) as Hpos.
  { intros n' d' ? In Id ??? E. rewrite gcd_ret by done. cbn.
    destruct (idiv_gcd n' d') as [-> ->]; [done..|]. cbn.
    destruct (div_gcd n' d') as (Hg & En & Ed & G); [done|].
    rewrite is_int_iff in In, Id.
    eexists. split; [done|]. unfold canonical, reduced. cbn.
    set (g := Z.gcd n' d') in *. unfold int_min, int_max in *.
    repeat split; try done; nia. }
  destruct (Z.ltb_spec d 0); [|apply Hpos; cbn; (done || lia)].
  rewrite is_int_iff in Hn, Hd'. unfold int_min, int_max in *.
  unfold ineg. rewrite !arith_ret by (apply is_int_iff; unfold int_min, int_max; lia).
  cbn. apply Hpos; cbn; try (apply is_int_iff; unfold int_min, int_max); lia.
Qed.

Lemma rational_undef n d :
  d ≠ 0 → n = int_min ∨ d = int_min → rational n d = Undef.
Proof.
  intros Hd Hm. unfold rational, normalize. cbn [numerator denominator].
  rewrite (proj2 (Z.eqb_neq _ _)) by done.
  destruct (Z.ltb_spec d 0).
  - unfold ineg.
    destruct (arith_cases (- n)) as [[-> ?]|[-> ?]]; [|done]. cbn.
    destruct (arith_cases (- d)) as [[-> ?]|[-> ?]]; [|done].
    unfold int_min, int_max in *; lia.
  - cbn. unfold gcd. replace (is_int (Z.abs n)) with false; [done|]. symmetry.
    apply is_int_false. unfold int_min, int_max in *; lia.
Qed.

(** C27. The constructor of item 19 on any two [int]s: it throws exactly on a zero
    denominator, is undefined exactly when an argument is [INT_MIN], and otherwise
    builds the canonical form of the fraction: reduced, with a positive denominator,
    and the only object that any fraction of the same value can give. *)
Theorem rational_canonical n d :
  is_int n = true → is_int d = true →
  (rational n d = Throw InvalidArgument ↔ d = 0) ∧
  (rational n d = Undef ↔ d ≠ 0 ∧ (n = int_min ∨ d = int_min)) ∧
  (d ≠ 0 → n ≠ int_min → d ≠ int_min →
   ∃ q, rational n d = Ret q ∧ canonical q ∧ same_value q (MkRational n d) ∧
        ∀ r, canonical r → same_value r (MkRational n d) → r = q).
Proof.
  intros Hn Hd. pose proof (rational_undef n d) as HU.
  pose proof (λ a, rational_ret n d a Hn Hd) as HR.
  assert (d = 0 → rational n d = Throw InvalidArgument) as HT.
  { by intros ->. }
  destruct (Z.eq_dec d 0) as [E|E]; [|destruct (Z.eq_dec n int_min) as [E1|E1];
    [|destruct (Z.eq_dec d int_min) as [E2|E2]]].
  { rewrite (HT E). split; [done|]. split; [|done]. by split; [|intros []]. }
  1, 2: rewrite HU by tauto; split; [done|]; split; [|done]; tauto.
  destruct (HR E E1 E2) as (q & Hq & Cq & Vq). rewrite Hq.
  split; [done|]. split; [by split; [|intros [_ []]]|].
  intros _ _ _. exists q. split; [done|]. split; [done|]. split; [exact Vq|].
  intros r Cr Vr. apply canonical_unique; [done..|].
  apply (same_value_trans _ (MkRational n d)); [done..|]. by unfold same_value in *.
Qed.

Lemma rational_canonical_witness :
  is_int (-6) = true ∧ ∃ q, rational (-6) (-8) = Ret q ∧ canonical q ∧
  same_value q (MkRational (-6) (-8)) ∧
  ∀ r, canonical r → same_value r (MkRational (-6) (-8)) → r = q.
Proof.
  split; [reflexivity|].
  apply (rational_canonical (-6) (-8)); [reflexivity|reflexivity|lia|discriminate..].
Defined.

Example main_fraction : rational (-6) (-8) = Ret (MkRational 3 4).
Proof. reflexivity. Qed.

End Normalized.

Module Reduced.

(** items 21 and 24: [std::gcd] is positive, the sign stays where it was. *)
Definition rational (n d : Z) : outcome Rational :=
  if d =? 0 then Throw InvalidArgument
  else
    divisor ← gcd n d;
    n' ← idiv n divisor;
    d' ← idiv d divisor;
    Ret (MkRational n' d').

(** The conversion from [int] that item 24 leaves implicit. *)
Definition from_int (n : Z) : outcome Rational := rational n 1.

(** [operator*] *)
Definition mul (left right : Rational) : outcome Rational :=
  n ← imul (numerator left) (numerator right);
  d ← imul (denominator left) (denominator right);
  rational n d.

(** [operator<<] *)
Definition print (q : Rational) : bytes :=
  show_int (numerator q) ++ "/"%char :: show_int (denominator q).

Lemma reduced_ret n d :
  d ≠ 0 → is_int n = true → is_int d = true → n ≠ int_min → d ≠ int_min →
  ∃ q, rational n d = Ret q ∧ reduced q ∧
       numerator q * d = n * denominator q ∧ 0 < denominator q * d.
Proof.
  intros Hd Hn Hd' Hn1 Hd1. unfold rational.
  rewrite (proj2 (Z.eqb_neq _ _)) by done. rewrite gcd_ret by done. cbn.
  destruct (idiv_gcd n d) as [-> ->]; [done..|]. cbn.
  destruct (div_gcd n d Hd) as (Hg & En & Ed & G).
  rewrite is_int_iff in Hn, Hd'.
  eexists. split; [done|]. unfold reduced. cbn.
  set (g := Z.gcd n d) in *. unfold int_min, int_max in *.
  repeat split; try done; nia.
Qed.

Lemma reduced_undef n d :
  d ≠ 0 → is_int n = true → is_int d = true → n = int_min ∨ d = int_min →
  rational n d = Undef.
Proof.
  intros Hd Hn Hd' Hm. unfold rational.
  rewrite (proj2 (Z.eqb_neq _ _)) by done. unfold gcd.
  replace (is_int (Z.abs n) && is_int (Z.abs d)) with false; [done|]. symmetry.
  apply andb_false_iff. rewrite !is_int_false. unfold int_min, int_max in *.
  destruct Hm as [-> | ->]; [left|right]; lia.
Qed.

(** The product of two in-range factors: what the [int] products decide. *)
Definition fits (x : Z) : Prop := Z.abs x <= int_max.

(** [operator*] of items 21 and 24 keeps its objects reduced and returns the
    exact product whenever numerator and denominator products fit an [int] other
    than [INT_MIN]; it is undefined behaviour otherwise, and it never throws. *)
Theorem product_exact l r :
  reduced l → reduced r →
  let n := numerator l * numerator r in
  let d := denominator l * denominator r in
  (fits n ∧ fits d →
   ∃ q, mul l r = Ret q ∧ reduced q ∧ same_value q (MkRational n d) ∧
        0 < denominator q * d) ∧
  (¬ (fits n ∧ fits d) → mul l r = Undef).
Proof.
  intros (Hl & _) (Hr & _) n d. unfold mul, imul. fold n d.
  assert (d ≠ 0) as Hd by (unfold d; nia). unfold fits. split.
  - intros [Fn Fd].
    rewrite !arith_ret by (apply is_int_iff; unfold int_min, int_max in *; lia). cbn.
    destruct (reduced_ret n d) as (q & -> & Rq & Vq & Sq);
      [done|apply is_int_iff; unfold int_min, int_max in *; lia..| | |by exists q];
      unfold int_min, int_max in *; lia.
  - intros Hf. destruct (arith_cases n) as [[-> ?]|[-> ?]]; [|done]. cbn.
    destruct (arith_cases d) as [[-> ?]|[-> ?]]; [|done]. cbn.
    apply reduced_undef; [done|by apply is_int_iff..|].
    destruct (Z.eq_dec n int_min); [by left|].
    destruct (Z.eq_dec d int_min); [by right|].
    destruct Hf. unfold int_min, int_max in *. lia.
Qed.

Lemma product_exact_witness :
  reduced (MkRational 1 2) ∧ reduced (MkRational 2 1) ∧
  ∃ q, mul (MkRational 1 2) (MkRational 2 1) = Ret q ∧ reduced q ∧
       same_value q (MkRational 2 2) ∧ 0 < denominator q * 2.
Proof.
  assert (reduced (MkRational 1 2)) as H1 by (vm_compute; repeat split; discriminate).
  assert (reduced (MkRational 2 1)) as H2 by (vm_compute; repeat split; discriminate).
  split; [done|]. split; [done|].
  apply (product_exact (MkRational 1 2) (MkRational 2 1) H1 H2).
  vm_compute; split; discriminate.
Defined.

Example half_times_2 : (two ← from_int 2; q ← mul (MkRational 1 2) two; Ret (print q))
  = Ret (lit "1/1").
Proof. reflexivity. Qed.

(** Unlike item 19's, these objects are not canonical: one number, two objects. *)
Example sign_not_normalized :
  ∃ q r, rational 1 (-2) = Ret q ∧ rational (-1) 2 = Ret r ∧ q ≠ r ∧ same_value q r.
Proof. exists (MkRational 1 (-2)), (MkRational (-1) 2). done. Qed.

End Reduced.

(** item46_hidden_friend.cpp ([Rational<int>]) checks the denominator and does not
    reduce; item46.cpp and cpp20.cpp do not check it either. *)
Module HiddenFriend.

Definition rational (n d : Z) : outcome Rational :=
  if d =? 0 then Throw InvalidArgument else Ret (MkRational n d).

Definition mul (left right : Rational) : outcome Rational :=
  n ← imul (numerator left) (numerator right);
  d ← imul (denominator left) (denominator right);
  rational n d.

End HiddenFriend.

Module Unchecked.

Definition rational (n d : Z) : Rational := MkRational n d.

(** item46.cpp: [operator*] *)
Definition mul (lhs rhs : Rational) : outcome Rational :=
  n ← imul (numerator lhs) (numerator rhs);
  d ← imul (denominator lhs) (denominator rhs);
  Ret (rational n d).

(** cpp20.cpp: [operator+] *)
Definition plus (lhs rhs : Rational) : outcome Rational :=
  a ← imul (numerator lhs) (denominator rhs);
  b ← imul (numerator rhs) (denominator lhs);
  n ← iadd a b;
  d ← imul (denominator lhs) (denominator rhs);
  Ret (rational n d).

(** A returned sum is the sum; a zero denominator on either side stays one. *)
Lemma plus_exact l r q :
  plus l r = Ret q →
  numerator q = numerator l * denominator r + numerator r * denominator l ∧
  denominator q = denominator l * denominator r.
Proof.
  intros (a & ->%arith_inv & (b & ->%arith_inv & (n & ->%arith_inv
    & (d & ->%arith_inv & [= <-])%bind_Ret)%bind_Ret)%bind_Ret)%bind_Ret.
  done.
Qed.

Example a_plus_2 : plus (rational 1 2) (rational 2 1) = Ret (MkRational 5 2).
Proof. reflexivity. Qed.

End Unchecked.

(** ** Item 18: a date *)

Module Calendar.

(** [enum class Month], [jan = 1]. *)
Inductive Month := jan | feb | mar | apr | may | jun | jul | aug | sep | oct | nov | dec.

Record Date := MkDate { year_ : Z; month_ : Month; day_ : Z }.

Definition date (year : Z) (month : Month) (day : Z) : outcome Date :=
  if (day <? 1) || (31 <? day) then Throw OutOfRange
  else Ret (MkDate year month day).

Definition isInYear (d : Date) (year : Z) : bool := year_ d =? year.

(** The last day of a month. *)
Definition last_day (m : Month) (leap : bool) : Z :=
  match m with
  | feb => if leap then 29 else 28
  | apr | jun | sep | nov => 30
  | _ => 31
  end.

(** The check keeps every real date and lets through days that five of the months
    do not have. *)
Lemma date_check y m d leap :
  (∃ x, date y m d = Ret x) ↔
  1 <= d <= last_day m leap ∨ last_day m leap < d <= 31.
Proof.
  assert (28 <= last_day m leap <= 31) by (destruct m, leap; cbn; lia).
  unfold date. split.
  - intros [x E]. destruct (Z.ltb_spec d 1), (Z.ltb_spec 31 d); cbn in E; try done. lia.
  - intros ?. rewrite (proj2 (Z.ltb_ge d 1)), (proj2 (Z.ltb_ge 31 d)) by lia. cbn. eauto.
Qed.

Example february_31 : date 2026 feb 31 = Ret (MkDate 2026 feb 31).
Proof. reflexivity. Qed.

End Calendar.

(** ** Item 38: a set kept in a vector *)

Module IntSet.

Definition IntSet := list Z.

(** [std::find(...) != end()] *)
Definition contains (s : IntSet) (value : Z) : bool := existsb (Z.eqb value) s.

Definition insert (s : IntSet) (value : Z) : bool * IntSet :=
  if contains s value then (false, s) else (true, s ++ [value]).

Definition size (s : IntSet) : nat := length s.

(** A run of insertions from an empty set: the answers, and the set. *)
Fixpoint inserts (s : IntSet) (vs : list Z) : list bool * IntSet :=
  match vs with
  | [] => ([], s)
  | v :: vs' =>
      let '(b, s1) := insert s v in
      let '(bs, s2) := inserts s1 vs' in (b :: bs, s2)
  end.

(** The abstract set of a run: an insertion answers whether the value is new. *)
Fixpoint set_inserts (X : gset Z) (vs : list Z) : list bool * gset Z :=
  match vs with
  | [] => ([], X)
  | v :: vs' =>
      let '(bs, Y) := set_inserts (X ∪ {[v]}) vs' in (bool_decide (v ∉ X) :: bs, Y)
  end.

Lemma contains_spec s v : contains s v = bool_decide (v ∈ s).
Proof.
  apply eq_bool_prop_intro. rewrite !Is_true_true, bool_decide_eq_true, list_elem_of_In.
  unfold contains. rewrite existsb_exists. split.
  - intros (x & Hx & ->%Z.eqb_eq). done.
  - intros ?. exists v. split; [done|apply Z.eqb_refl].
Qed.

Lemma set_insert_spec s v :
  NoDup s →
  fst (insert s v) = bool_decide (v ∉ s) ∧ NoDup (snd (insert s v)) ∧
  list_to_set (C := gset Z) (snd (insert s v)) = list_to_set s ∪ {[v]}.
Proof.
  intros Hs. unfold insert. rewrite contains_spec. case_bool_decide; cbn.
  - rewrite bool_decide_eq_false_2 by tauto. set_solver.
  - rewrite bool_decide_eq_true_2 by done. split; [done|]. split.
    + apply NoDup_app. split; [done|]. split; [|apply NoDup_singleton].
      intros x Hx ->%list_elem_of_singleton. done.
    + rewrite list_to_set_app_L. set_solver.
Qed.

Lemma inserts_refine s vs :
  NoDup s →
  let '(bs, s') := inserts s vs in
  set_inserts (list_to_set s) vs = (bs, list_to_set s') ∧ NoDup s'.
Proof.
  revert s. induction vs as [|v vs IH]; intros s Hs; cbn; [done|].
  destruct (set_insert_spec s v Hs) as (Hb & Hn & Hset).
  destruct (insert s v) as [b s1]; cbn in *.
  specialize (IH s1 Hn). destruct (inserts s1 vs) as [bs s2].
  rewrite Hset in IH. destruct IH as [-> ?]. split; [|done].
  repeat f_equal. rewrite Hb. apply bool_decide_ext. by rewrite elem_of_list_to_set.
Qed.

Lemma inserts_elements s vs v : v ∈ snd (inserts s vs) ↔ v ∈ s ∨ v ∈ vs.
Proof.
  revert s. induction vs as [|w vs IH]; intros s; cbn; [set_solver|].
  assert (v ∈ snd (insert s w) ↔ v ∈ s ∨ v = w) as E.
  { unfold insert. rewrite contains_spec. case_bool_decide; cbn; set_solver. }
  destruct (insert s w) as [b s1]; cbn in *. specialize (IH s1).
  destruct (inserts s1 vs) as [bs s2]; cbn in *. rewrite IH, E. set_solver.
Qed.

(** [IntSet] keeps its elements without duplicates and implements a set: over any
    sequence of insertions from the empty set, each answer says whether the value was
    new, and at the end the vector lists each element of the set once, so that
    [size] is its cardinality and [contains] its membership. *)
Theorem intset_refines_set vs :
  let '(answers, s) := inserts [] vs in
  set_inserts ∅ vs = (answers, list_to_set s) ∧ NoDup s ∧
  size s = stdpp.base.size (list_to_set (C := gset Z) s) ∧
  ∀ v, contains s v = bool_decide (v ∈ vs).
Proof.
  pose proof (inserts_refine [] vs (NoDup_nil_2 (A := Z))) as H.
  pose proof (inserts_elements [] vs) as He.
  destruct (inserts [] vs) as [bs s]. destruct H as [E Hn].
  split; [exact E|]. split; [done|]. split; [by rewrite size_list_to_set|].
  intros v. rewrite contains_spec. apply bool_decide_ext. rewrite He. set_solver.
Qed.

Example main_set : inserts [] [7; 7; 9] = ([true; false; true], [7; 9]).
Proof. reflexivity. Qed.

End IntSet.

(** ** Item 44: code that does not depend on the template arguments *)

Module PointerBox.

(** [T *slots_[4]] and [count_]; [None] is the null pointer. *)
Record box (A : Type) := Box { slots_ : list (option A); count_ : nat }.
Arguments Box {A} slots_ count_.
Arguments slots_ {A} b.
Arguments count_ {A} b.

Definition CAPACITY : nat := 4.
Definition empty {A} : box A := Box (replicate CAPACITY None) 0.

(** [for (i = count_; i > 0; --i) slots_[i] = slots_[i - 1];] an index outside the
    array is undefined. *)
Fixpoint shift {A} (i : nat) (slots : list (option A)) : outcome (list (option A)) :=
  match i with
  | O => Ret slots
  | S j =>
      x ← deref (slots !! j);
      if (i <? length slots)%nat then shift j (<[i := x]> slots) else Undef
  end.

(** [Before::PointerBox<T>::push] *)
Definition push {A} (p : option A) (b : box A) : outcome (box A) :=
  if (CAPACITY <=? count_ b)%nat then Ret b
  else
    slots ← shift (count_ b) (slots_ b);
    if (0 <? length slots)%nat then Ret (Box (<[0%nat := p]> slots) (S (count_ b)))
    else Undef.

(** [After]: the same algorithm once, on [void *], behind a cast. *)
Definition push_impl {V} : option V → box V → outcome (box V) := push.
(** [static_cast<void *>(p)]; null stays null. *)
Definition cast {A V} (to_void : A → V) (p : option A) : option V := to_void <$> p.
Definition push_after {A V} (to_void : A → V) (p : option A) (b : box V) : outcome (box V) :=
  push_impl (cast to_void p) b.

Definition wf {A} (b : box A) : Prop :=
  length (slots_ b) = CAPACITY ∧ (count_ b <= CAPACITY)%nat.
(** The pointers a box holds, the latest first. *)
Definition contents {A} (b : box A) : list (option A) := take (count_ b) (slots_ b).

Lemma shift_spec {A} i (slots : list (option A)) :
  (i < length slots)%nat →
  shift i slots = Ret (take 1 slots ++ take i slots ++ drop (S i) slots).
Proof.
  revert slots. induction i as [|i IH]; intros slots Hi.
  { destruct slots as [|x slots]; [cbn in Hi; lia|done]. }
  destruct (lookup_lt_is_Some_2 slots i) as [x Hx]; [lia|].
  cbn [shift]. rewrite Hx. cbn [deref mbind outcome_bind].
  rewrite (proj2 (Nat.ltb_lt _ _)) by done.
  rewrite IH by (rewrite length_insert; lia). f_equal.
  rewrite !take_insert_ge by lia.
  rewrite (drop_S (<[S i:=x]> slots) x (S i)) by (apply list_lookup_insert_eq; lia).
  rewrite drop_insert_lt by lia.
  rewrite (take_S_r slots i x), <-!app_assoc by done. done.
Qed.

Lemma push_spec {A} p (b : box A) :
  wf b →
  ∃ b', push p b = Ret b' ∧ wf b' ∧
  contents b' = if (count_ b <? CAPACITY)%nat then p :: contents b else contents b.
Proof.
  intros [Hl Hc]. unfold push, contents. destruct b as [slots n]; cbn [slots_ count_] in *.
  destruct (Nat.leb_spec CAPACITY n), (Nat.ltb_spec n CAPACITY); try lia; [by eexists; repeat split|].
  rewrite shift_spec by lia. cbn [mbind outcome_bind].
  destruct slots as [|x slots]; [unfold CAPACITY in *; cbn in *; lia|].
  rewrite (proj2 (Nat.ltb_lt _ _)) by (cbn; lia).
  set (l := take n (x :: slots) ++ drop (S n) (x :: slots)).
  change (<[0%nat := p]> (take 1 (x :: slots) ++ l)) with (p :: l).
  eexists. split; [done|]. unfold wf. cbn [slots_ count_ length take]. split.
  - unfold l. rewrite length_app, length_take, length_drop. lia.
  - unfold l. rewrite take_app_le by (rewrite length_take; lia).
    by rewrite take_take, Nat.min_id.
Qed.

(** A sequence of pushes. *)
Fixpoint push_all {A B} (f : option A → box B → outcome (box B)) (ps : list (option A))
    (b : box B) : outcome (box B) :=
  match ps with
  | [] => Ret b
  | p :: ps' => b' ← f p b; push_all f ps' b'
  end.

Lemma push_all_spec {A B} (g : A → B) ps (b : box B) :
  wf b →
  ∃ b', push_all (push_after g) ps b = Ret b' ∧ wf b' ∧
  contents b' = reverse (take (CAPACITY - count_ b) (cast g <$> ps)) ++ contents b.
Proof.
  revert b. induction ps as [|p ps IH]; intros b Hb; cbn [push_all].
  { exists b. rewrite fmap_nil, take_nil. by split. }
  destruct (push_spec (cast g p) b Hb) as (b1 & E & Hb1 & Ec).
  change (push_after g p b) with (push (cast g p) b). rewrite E. cbn [mbind outcome_bind].
  destruct (IH b1 Hb1) as (b2 & -> & Hb2 & Ec2).
  exists b2. split; [done|]. split; [done|]. rewrite Ec2.
  assert (∀ c : box B, wf c → length (contents c) = count_ c) as Hlen.
  { intros c [? ?]. unfold contents. rewrite length_take. lia. }
  pose proof (Hlen _ Hb1) as H1. pose proof (Hlen _ Hb) as H0.
  destruct (Nat.ltb_spec (count_ b) CAPACITY); rewrite Ec in *.
  - cbn in H1. rewrite <-H1, H0, fmap_cons.
    replace (CAPACITY - count_ b)%nat with (S (CAPACITY - S (count_ b))) by lia.
    cbn [take]. by rewrite reverse_cons, <-app_assoc.
  - replace (CAPACITY - count_ b1)%nat with O by lia.
    by replace (CAPACITY - count_ b)%nat with O by lia.
Qed.

(** Moving the algorithm of [PointerBox] behind a [void *] changes nothing: for
    every sequence of pushes both versions finish without leaving their arrays, they
    hold the first four pointers that were pushed, the latest first, and the
    factored one holds exactly the other's pointers after the cast. *)
Theorem factoring_preserves {A V} (to_void : A → V) ps :
  ∃ b c, push_all push ps empty = Ret b ∧
  push_all (push_after to_void) ps empty = Ret c ∧
  contents b = reverse (take CAPACITY ps) ∧
  contents c = cast to_void <$> contents b.
Proof.
  destruct (push_all_spec to_void ps empty) as (c & Ec & _ & Cc); [by repeat split; cbn; lia|].
  destruct (push_all_spec (@id A) ps empty) as (b & Eb & _ & Cb); [by repeat split; cbn; lia|].
  assert (∀ p : option A, cast id p = p) as Hid by (by intros []).
  assert (push_all (push_after id) ps (@empty A) = push_all push ps empty) as E.
  { generalize (@empty A). clear -Hid. induction ps as [|p ps IH]; intros b; cbn; [done|].
    change (push_after id p b) with (push (cast id p) b). rewrite Hid. destruct (push p b); cbn; auto. }
  rewrite E in Eb. exists b, c. split; [done|]. split; [done|].
  change (contents (@empty A)) with (@nil (option A)) in Cb.
  change (contents (@empty V)) with (@nil (option V)) in Cc.
  rewrite app_nil_r in Cb, Cc. cbn [count_ empty] in Cb, Cc. rewrite Nat.sub_0_r in Cb, Cc.
  rewrite (list_fmap_ext _ id) in Cb by (intros ?? _; apply Hid). rewrite list_fmap_id in Cb.
  split; [done|]. by rewrite Cb, Cc, <-fmap_take, fmap_reverse.
Qed.

End PointerBox.

Module SquareMatrix.
Section matrix.
Context {T : Type} (zero one : T).

(** [makeIdentity(data, side)]: the two loops; a write outside the array is undefined. *)
Definition write (d : list T) (i : nat) (x : T) : outcome (list T) :=
  if (i <? length d)%nat then Ret (<[i := x]> d) else Undef.

Fixpoint column_loop (n side row column : nat) (d : list T) : outcome (list T) :=
  match n with
  | O => Ret d
  | S n' =>
      d' ← write d (row * side + column) (if (row =? column)%nat then one else zero);
      column_loop n' side row (S column) d'
  end.

Fixpoint row_loop (n side row : nat) (d : list T) : outcome (list T) :=
  match n with
  | O => Ret d
  | S n' => d' ← column_loop side side row 0 d; row_loop n' side (S row) d'
  end.

Definition makeIdentity (side : nat) (d : list T) : outcome (list T) :=
  row_loop side side 0 d.

(** [SquareMatrix<T, N>]: [std::array<T, N * N> values_{}] and [setIdentity]. *)
Definition values_ (N : nat) : list T := replicate (N * N) zero.
Definition setIdentity (N : nat) (values : list T) : outcome (list T) :=
  makeIdentity N values.

(** Cell [k] of the identity. *)
Definition cell (side k : nat) : T :=
  if (k / side =? k mod side)%nat then one else zero.

Lemma column_loop_spec n side row column d :
  (column + n = side)%nat → (row * side + side <= length d)%nat →
  ∃ d', column_loop n side row column d = Ret d' ∧ length d' = length d ∧
  ∀ k, d' !! k = if decide (row * side + column <= k < row * side + side)%nat
                   then Some (cell side k) else d !! k.
Proof.
  revert column d. induction n as [|n IH]; intros column d Hn Hd; cbn [column_loop].
  { exists d. split; [done|]. split; [done|]. intros k. rewrite decide_False by lia. done. }
  unfold write. rewrite (proj2 (Nat.ltb_lt _ _)) by lia. cbn [mbind outcome_bind].
  destruct (IH (S column) (<[(row * side + column)%nat :=
                 if (row =? column)%nat then one else zero]> d)) as (d' & -> & Hl & Hk).
  { lia. } { rewrite length_insert. lia. }
  rewrite length_insert in Hl. exists d'. split; [done|]. split; [done|].
  intros k. rewrite Hk. destruct (decide (k = row * side + column)%nat) as [->|Hne].
  - rewrite decide_False, decide_True by lia. rewrite list_lookup_insert_eq by lia.
    f_equal. unfold cell.
    rewrite Nat.div_add_l, Nat.div_small, Nat.add_0_r by lia.
    by rewrite Nat.add_comm, Nat.Div0.mod_add, Nat.mod_small by lia.
  - rewrite list_lookup_insert_ne by done.
    destruct (decide (row * side + S column <= k < row * side + side)%nat);
      [rewrite decide_True by lia; done|by rewrite decide_False by lia].
Qed.

Lemma row_loop_spec n side row d :
  (row + n = side)%nat → (side * side <= length d)%nat →
  ∃ d', row_loop n side row d = Ret d' ∧ length d' = length d ∧
  ∀ k, d' !! k = if decide (row * side <= k < side * side)%nat
                   then Some (cell side k) else d !! k.
Proof.
  revert row d. induction n as [|n IH]; intros row d Hn Hd; cbn [row_loop].
  { exists d. split; [done|]. split; [done|]. intros k.
    rewrite decide_False by (replace row with side by lia; lia). done. }
  assert (row * side + side <= side * side)%nat by nia.
  destruct (column_loop_spec side side row 0 d) as (d1 & -> & Hl1 & Hk1); [lia..|].
  cbn [mbind outcome_bind].
  destruct (IH (S row) d1) as (d' & -> & Hl & Hk); [lia..|].
  exists d'. split; [done|]. split; [congruence|]. intros k. rewrite Hk, Hk1. cbn.
  repeat case_decide; try done; lia.
Qed.

(** [makeIdentity] on an array with room for [side * side] elements writes inside
    it only, makes element [r * side + c] one exactly when [r = c] and zero
    otherwise, and leaves what lies behind the matrix alone, for every side. *)
Theorem identity_written side d :
  (side * side <= length d)%nat →
  ∃ d', makeIdentity side d = Ret d' ∧ length d' = length d ∧
  (∀ r c, (r < side)%nat → (c < side)%nat →
       d' !! (r * side + c)%nat = Some (if (r =? c)%nat then one else zero)) ∧
  (∀ k, (side * side <= k)%nat → d' !! k = d !! k).
Proof.
  intros Hd. destruct (row_loop_spec side side 0 d) as (d' & E & Hl & Hk); [lia..|].
  exists d'. split; [done|]. split; [done|]. split.
  - intros r c Hr Hc. rewrite Hk, decide_True by nia. f_equal. unfold cell.
    rewrite Nat.div_add_l, Nat.div_small, Nat.add_0_r by lia.
    by rewrite Nat.add_comm, Nat.Div0.mod_add, Nat.mod_small by lia.
  - intros k ?. by rewrite Hk, decide_False by lia.
Qed.

End matrix.

Lemma identity_written_witness :
  (2 * 2 <= length (values_ 0 2))%nat ∧
  ∃ d', makeIdentity 0 1 2 (values_ 0 2) = Ret d' ∧ length d' = length (values_ 0 2) ∧
  (∀ r c, (r < 2)%nat → (c < 2)%nat →
       d' !! (r * 2 + c)%nat = Some (if (r =? c)%nat then 1 else 0)) ∧
  (∀ k, (2 * 2 <= k)%nat → d' !! k = values_ 0 2 !! k).
Proof.
  split; [cbn; lia|]. apply (identity_written 0 1 2 (values_ 0 2)). cbn. lia.
Defined.

Example identity_3 : setIdentity 0 1 3 (values_ 0 3) = Ret [1; 0; 0; 0; 1; 0; 0; 0; 1].
Proof. reflexivity. Qed.

End SquareMatrix.

(** ** Item 47: an algorithm chosen by the iterator's category *)

Module Traits.

(** A position in a container of [len] elements, [len] being [end()]; the tag that
    [std::iterator_traits] gives for a vector and for a list. *)
Inductive category := random_access_iterator_tag | bidirectional_iterator_tag.

(** [position += distance]; leaving [begin(), end()] is undefined. *)
Definition plus_assign (len position distance : Z) : outcome Z :=
  let p := position + distance in
  if (0 <=? p) && (p <=? len) then Ret p else Undef.

(** [while (distance > 0) { ++position; --distance; }]; [++] at [end()] is undefined. *)
Fixpoint linear_loop (fuel : nat) (len position distance : Z) : option (outcome Z) :=
  match fuel with
  | O => None
  | S fuel' =>
      if 0 <? distance then
        if position <? len then linear_loop fuel' len (position + 1) (distance - 1)
        else Some Undef
      else Some (Ret position)
  end.

Definition linear_fuel (distance : Z) : nat := S (Z.to_nat distance).

(** [advanceBy]: a list's tag converts to [std::input_iterator_tag]. *)
Definition advanceBy (c : category) (len position distance : Z) : option (outcome Z) :=
  match c with
  | random_access_iterator_tag => Some (plus_assign len position distance)
  | bidirectional_iterator_tag =>
      linear_loop (linear_fuel distance) len position distance
  end.

Lemma linear_loop_spec fuel len position distance :
  0 <= position <= len → (Z.to_nat distance < fuel)%nat →
  linear_loop fuel len position distance = Some (plus_assign len position (Z.max 0 distance)).
Proof.
  revert position distance. induction fuel as [|fuel IH]; intros p d Hp Hf; [lia|].
  cbn [linear_loop]. unfold plus_assign in *.
  destruct (Z.ltb_spec 0 d); [destruct (Z.ltb_spec p len)|].
  - rewrite IH by lia. by replace (p + 1 + Z.max 0 (d - 1)) with (p + Z.max 0 d) by lia.
  - rewrite (proj2 (Z.leb_gt (p + _) len)), andb_false_r by lia. done.
  - replace (p + Z.max 0 d) with p by lia.
    by rewrite (proj2 (Z.leb_le 0 p)), (proj2 (Z.leb_le p len)) by lia.
Qed.

(** Both overloads of [advanceBy] end, and from any valid position they agree
    for every distance that is not negative: the same position, or undefined
    behaviour past the end.  For a negative distance the list stays where it is
    while the vector steps back. *)
Theorem advance_agrees len position distance :
  0 <= position <= len →
  (0 <= distance →
   advanceBy bidirectional_iterator_tag len position distance =
   advanceBy random_access_iterator_tag len position distance) ∧
  (distance < 0 →
   advanceBy bidirectional_iterator_tag len position distance = Some (Ret position) ∧
   advanceBy random_access_iterator_tag len position distance =
   Some (if 0 <=? position + distance then Ret (position + distance) else Undef)).
Proof.
  intros Hp. cbn [advanceBy]. rewrite linear_loop_spec by (unfold linear_fuel; lia).
  unfold plus_assign. split; intros Hd.
  - by rewrite Z.max_r by lia.
  - rewrite Z.max_l, Z.add_0_r by lia.
    rewrite (proj2 (Z.leb_le 0 position)), (proj2 (Z.leb_le position len)) by lia.
    rewrite (proj2 (Z.leb_le (position + distance) len)) by lia. by rewrite !andb_true_r.
Qed.

Lemma advance_agrees_witness :
  0 <= 0 <= 4 ∧ advanceBy bidirectional_iterator_tag 4 0 2 =
                advanceBy random_access_iterator_tag 4 0 2.
Proof. split; [lia|]. apply (proj1 (advance_agrees 4 0 2 ltac:(lia))); lia. Defined.

End Traits.

(** ** Item 48: the factorial at compile time *)

Module Factorials.

(** [Factorial<N>::value] *)
Fixpoint Factorial (n : nat) : Z :=
  match n with
  | O => 1
  | S m => wrap64 (Z.of_nat n * Factorial m)
  end.

(** [constexpr factorial]: the loop over [current], a [std::size_t]. *)
Fixpoint factorial_loop (fuel : nat) (number current result : Z) : option Z :=
  match fuel with
  | O => None
  | S fuel' =>
      if current <=? number then
        factorial_loop fuel' number (wrap64 (current + 1)) (wrap64 (result * current))
      else Some result
  end.

Definition factorial (fuel : nat) (number : Z) : option Z :=
  factorial_loop fuel number 2 1.

(** The mathematical factorial. *)
Fixpoint fact (n : nat) : Z :=
  match n with O => 1 | S m => Z.of_nat n * fact m end.

Lemma Factorial_fact n : Factorial n = fact n mod 2 ^ 64.
Proof.
  induction n as [|n IH]; [reflexivity|]. cbn [Factorial fact]. unfold wrap64.
  by rewrite IH, Z.mul_mod_idemp_r.
Qed.

Lemma factorial_loop_spec k c r fuel :
  1 <= c → c + Z.of_nat k < 2 ^ 64 → (k < fuel)%nat →
  r = fact (Z.to_nat c - 1) mod 2 ^ 64 →
  factorial_loop fuel (c + Z.of_nat k - 1) c r = Some (fact (Z.to_nat c + k - 1) mod 2 ^ 64).
Proof.
  revert c r fuel. induction k as [|k IH]; intros c r [|fuel] Hc Hk Hf Hr; [lia| |lia|].
  - cbn [factorial_loop]. rewrite (proj2 (Z.leb_gt _ _)) by lia. rewrite Hr.
    by replace (Z.to_nat c + 0 - 1)%nat with (Z.to_nat c - 1)%nat by lia.
  - cbn [factorial_loop]. rewrite (proj2 (Z.leb_le _ _)) by lia.
    rewrite wrap64_small by lia.
    replace (c + Z.of_nat (S k) - 1) with (c + 1 + Z.of_nat k - 1) by lia.
    rewrite IH; [by replace (Z.to_nat (c + 1) + k - 1)%nat with (Z.to_nat c + S k - 1)%nat by lia|lia..|].
    unfold wrap64. rewrite Hr, Z.mul_mod_idemp_l by lia.
    replace (Z.to_nat (c + 1) - 1)%nat with (S (Z.to_nat c - 1)) by lia.
    cbn [fact]. f_equal. replace (Z.of_nat (S (Z.to_nat c - 1))) with c by lia. lia.
Qed.

Lemma factorial_runs_forever fuel c r :
  0 <= c <= size_max → factorial_loop fuel size_max c r = None.
Proof.
  revert c r. induction fuel as [|fuel IH]; intros c r Hc; [done|].
  cbn [factorial_loop]. rewrite (proj2 (Z.leb_le _ _)) by (unfold size_max in *; lia). apply IH.
  pose proof (wrap64_range (c + 1)). unfold size_max in *. lia.
Qed.

Lemma fact_66 n : (66 <= n)%nat → fact n mod 2 ^ 64 = 0.
Proof.
  intros (m & ->)%Nat.le_sum. induction m as [|m IH]; [by vm_compute|].
  rewrite Nat.add_succ_r. cbn [fact]. by rewrite <-Z.mul_mod_idemp_r, IH, Z.mul_0_r by lia.
Qed.

(** The recursive template and the [constexpr] loop compute the same number, the
    factorial modulo [2 ^ 64], for every argument below [2 ^ 64 - 1], the loop ending
    after as many turns as the argument says; the results are the factorial up to 20
    and 0 from 66 on.  On [2 ^ 64 - 1] the counter wraps and the loop never ends. *)
Theorem factorial_template_agrees :
  (∀ n fuel, Z.of_nat n < size_max → (n < fuel)%nat →
   factorial fuel (Z.of_nat n) = Some (Factorial n)) ∧
  (∀ n, Factorial n = fact n mod 2 ^ 64) ∧
  (∀ n, (n <= 20)%nat → Factorial n = fact n) ∧
  (∀ n, (66 <= n)%nat → Factorial n = 0) ∧
  (∀ fuel, factorial fuel size_max = None).
Proof.
  split; [|split; [exact Factorial_fact|split; [|split]]].
  - intros n fuel Hn Hf. rewrite Factorial_fact. unfold factorial, size_max in *.
    destruct n as [|n].
    { destruct fuel as [|fuel]; [lia|reflexivity]. }
    replace (Z.of_nat (S n)) with (2 + Z.of_nat n - 1) by lia.
    rewrite factorial_loop_spec by (lia || reflexivity). by replace (Z.to_nat 2 + n - 1)%nat with (S n) by lia.
  - intros n Hn. do 21 (destruct n as [|n]; [vm_compute; reflexivity|]). lia.
  - intros n Hn. rewrite Factorial_fact. by apply fact_66.
  - intros fuel. apply factorial_runs_forever. unfold size_max. lia.
Qed.

Example static_asserts : Factorial 5 = 120 ∧ factorial 7 6 = Some 720 ∧ Factorial 21 ≠ fact 21.
Proof. vm_compute. repeat split; discriminate. Qed.

End Factorials.

(** ** Item 53: [parseInteger] *)

Module Parse.

(** [std::from_chars] to [int], base 10: a minus sign only, no spaces; the value
    (none on an error) and the unread rest. *)
Definition from_chars (s : bytes) : option Z * bytes :=
  let '(neg, s1) := match s with
                    | c :: s' => if Ascii.eqb c "-" then (true, s') else (false, s)
                    | [] => (false, s)
                    end in
  let '(d, r) := span_digits s1 in
  match d with
  | [] => (None, s)
  | _ =>
      let v := if (neg : bool) then - digits_val 0 d else digits_val 0 d in
      (if is_int v then Some v else None, r)
  end.

Definition parseInteger (text : bytes) : option Z :=
  let '(value, position) := from_chars text in
  match value, position with
  | Some v, [] => Some v
  | _, _ => None
  end.

(** [DoublingProcessor::process] *)
Definition doubling (value : Z) : outcome bytes :=
  v ← imul value 2; Ret (lit "DoublingProcessor: " ++ show_int v ++ [newline]).

(** The texts of [int]s: an optional minus sign and digits, the value in range. *)
Definition int_text (s : bytes) (v : Z) : Prop :=
  ∃ neg d, s = (if (neg : bool) then ["-"%char] else []) ++ d ∧ d ≠ [] ∧
    Forall (λ c, is_digit c = true) d ∧
    v = (if neg then - digits_val 0 d else digits_val 0 d) ∧ is_int v = true.

Lemma span_digits_spec s d r :
  span_digits s = (d, r) → s = d ++ r ∧ Forall (λ c, is_digit c = true) d.
Proof.
  revert d r. induction s as [|c s IH]; intros d r; cbn; [by intros [= <- <-]|].
  destruct (is_digit c) eqn:Ec; [|by intros [= <- <-]].
  destruct (span_digits s) as [d' r'].
  intros [= <- <-]. destruct (IH d' r' eq_refl) as [-> ?]. by split; [|constructor].
Qed.

Lemma span_all_digits d : Forall (λ c, is_digit c = true) d → span_digits d = (d, []).
Proof. intros. rewrite <-(app_nil_r d) at 1. by apply span_digits_app. Qed.

Lemma parse_int_text s v : parseInteger s = Some v ↔ int_text s v.
Proof.
  unfold parseInteger, from_chars, int_text. split.
  - destruct s as [|c s]; [done|].
    destruct (Ascii.eqb c "-") eqn:Ec; [apply Ascii.eqb_eq in Ec as ->|];
      (destruct (span_digits _) as [d r] eqn:Es;
       destruct (span_digits_spec _ _ _ Es) as [E Hd]; destruct d as [|x d]; [done|];
       destruct (is_int _) eqn:Ei; [|done]; destruct r; [|done]; intros [= <-];
       rewrite app_nil_r in E; subst).
    + exists true, (x :: d). done.
    + exists false, (x :: d). done.
  - intros (neg & d & -> & Hne & Hd & Ev & Hi). pose proof (span_all_digits d Hd) as Es.
    destruct neg; cbn [app].
    + cbn. rewrite Es. destruct d; [done|]. rewrite <-Ev, Hi. done.
    + destruct d as [|x d]; [done|].
      replace (Ascii.eqb x "-") with false.
      * rewrite Es, <-Ev, Hi. done.
      * symmetry. apply Ascii.eqb_neq. intros ->. by inversion Hd.
Qed.

(** [parseInteger] accepts exactly the texts of [int]s (an optional minus sign,
    at least one digit, nothing else, the value in range) and returns their value,
    and it reads back every [int] that [operator<<] prints. *)
Theorem parseInteger_exact :
  (∀ s v, parseInteger s = Some v ↔ int_text s v) ∧
  (∀ v, is_int v = true → parseInteger (show_int v) = Some v).
Proof.
  split; [exact parse_int_text|]. intros v Hv. apply parse_int_text.
  unfold int_text, show_int. destruct (Z.ltb_spec v 0).
  - exists true, (show_nat (- v)). split; [done|]. split; [apply show_nat_nonempty|].
    split; [apply show_nat_digits; lia|]. rewrite show_nat_val by lia. split; [lia|done].
  - exists false, (show_nat v). split; [done|]. split; [apply show_nat_nonempty|].
    split; [apply show_nat_digits; lia|]. by rewrite show_nat_val by lia.
Qed.

Example main_parse : parseInteger (lit "42") = Some 42 ∧
  doubling 42 = Ret (lit "DoublingProcessor: 84" ++ [newline]) ∧
  parseInteger (lit "+42") = None ∧ parseInteger (lit " 42") = None.
Proof. done. Qed.

End Parse.
