(* ===== verification/Unwind.v ===== *)
(** * Computations with exceptions, destructors and fuel

    A computation transforms a world and ends by returning, by an exception, in
    [std::terminate] or in undefined behaviour; [scoped] is a local object, whose
    destructor runs when its block is left. *)

From stdpp Require Import base tactics.
From S2P Require Import Prelude.

(** [Terminated] is [std::terminate], [Undefined] undefined behaviour. *)
Inductive res (A : Type) := Done (a : A) | Raised (e : exn) | Terminated | Undefined.
Arguments Done {A} a.
Arguments Raised {A} e.
Arguments Terminated {A}.
Arguments Undefined {A}.

(** The ways of leaving a block that run its destructors. *)
Definition exits {A} (r : res A) : Prop :=
  match r with Done _ | Raised _ => True | Terminated | Undefined => False end.

(** [None] is a computation that has not ended within its fuel. *)
Definition comp (W A : Type) : Type := W → option (res A * W).

#[export] Instance comp_ret {W} : MRet (comp W) := λ A a w, Some (Done a, w).
#[export] Instance comp_bind {W} : MBind (comp W) := λ A B k m w,
  match m w with
  | None => None
  | Some (Done a, w') => k a w'
  | Some (Raised e, w') => Some (Raised e, w')
  | Some (Terminated, w') => Some (Terminated, w')
  | Some (Undefined, w') => Some (Undefined, w')
  end.

Definition raising {W A} (e : exn) : comp W A := λ w, Some (Raised e, w).
(** The rest of a body, however it ends. *)
Definition leave {W A} (r : res A) : comp W A := λ w, Some (r, w).
Definition read {W A} (f : W → A) : comp W A := λ w, Some (Done (f w), w).
Definition modifies {W} (f : W → W) : comp W unit := λ w, Some (Done (), f w).

(** [try { body } catch (const std::exception &e) { handler(e); }] *)
Definition catching {W A} (body : comp W A) (handler : exn → comp W A) : comp W A := λ w,
  match body w with
  | Some (Raised e, w') => handler e w'
  | r => r
  end.

(** A block with a local object, whose constructor has run: the destructor runs on
    both ways out, and an exception that leaves it while another is on its way
    ends in [std::terminate]. *)
Definition scoped {W A} (destructor : comp W unit) (body : comp W A) : comp W A := λ w,
  match body w with
  | None => None
  | Some (Terminated, w1) => Some (Terminated, w1)
  | Some (Undefined, w1) => Some (Undefined, w1)
  | Some (Done a, w1) =>
      match destructor w1 with
      | None => None
      | Some (Done _, w2) => Some (Done a, w2)
      | Some (Raised e, w2) => Some (Raised e, w2)
      | Some (Terminated, w2) => Some (Terminated, w2)
      | Some (Undefined, w2) => Some (Undefined, w2)
      end
  | Some (Raised e, w1) =>
      match destructor w1 with
      | None => None
      | Some (Done _, w2) => Some (Raised e, w2)
      | Some (Undefined, w2) => Some (Undefined, w2)
      | Some (_, w2) => Some (Terminated, w2)
      end
  end.

(** A destructor that is [modifies f] runs exactly once on either way out. *)
Lemma scoped_update {W A} (f : W → W) (body : comp W A) w :
  scoped (modifies f) body w =
  match body w with
  | None => None
  | Some (Terminated, w1) => Some (Terminated, w1)
  | Some (Undefined, w1) => Some (Undefined, w1)
  | Some (r, w1) => Some (r, f w1)
  end.
Proof. unfold scoped, modifies. by destruct (body w) as [[[]]|]. Qed.
