(* ===== verification/EffectiveResources.v ===== *)
(** * Resources and exceptions in the Effective C++ examples

    The classes under src/cplusplus/effective_c++/code that own something: the
    session of item 8, the bitmap of item 11, the leases and widgets of items 13 and
    17, the profile of item 29, the stack unwinding of exception_stack.cpp, the new
    handler of item 49 and the placement forms of item 52.  The computations
    are those of [Unwind]. *)

From stdpp Require Import base numbers gmap list strings.
From Stdlib Require Import Ascii ZArith Lia.
From S2P Require Import Prelude CxxString Unwind.

(** ** exception_stack.cpp *)

Module Unwinding.

(** The world is the output. *)
Definition output := list bytes.
Definition print (l : bytes) : comp output unit := modifies (λ out, out ++ [l]).

Record Trace := MkTrace { name_ : bytes; throwInDestructor_ : bool }.

Definition construct (t : Trace) : comp output unit :=
  print (lit "construct " ++ name_ t).
Definition destroy (t : Trace) : comp output unit :=
  print (lit "destroy " ++ name_ t) ;;
  if throwInDestructor_ t then
    print (lit "destructor throws: " ++ name_ t) ;;
    raising (RuntimeError (lit "exception from destructor"))
  else mret ().

(** A block that declares a [Trace]. *)
Definition with_trace {A} (t : Trace) (body : comp output A) : comp output A :=
  construct t ;; scoped (destroy t) body.

Definition foo : comp output unit :=
  with_trace (MkTrace (lit "foo::a") true)
    (print (lit "foo: before first throw") ;;
     raising (RuntimeError (lit "first exception from foo"))).
Definition bar : comp output unit := with_trace (MkTrace (lit "bar::b") false) foo.

Definition what (e : exn) : bytes :=
  match e with RuntimeError w | LogicError w => w | _ => [] end.

Definition main : comp output unit :=
  catching (with_trace (MkTrace (lit "main::m") false) bar)
    (λ e, print (lit "caught: " ++ what e)) ;;
  print (lit "main end").

(** Blocks inside each other, the outermost [Trace] first. *)
Definition nest {A} (ts : list Trace) (body : comp output A) : comp output A :=
  foldr with_trace body ts.

Definition ctor_lines (ts : list Trace) : output :=
  (λ t, lit "construct " ++ name_ t) <$> ts.
Definition dtor_lines (ts : list Trace) : output :=
  (λ t, lit "destroy " ++ name_ t) <$> ts.

Lemma nest_cons {A} t ts (body : comp output A) out :
  nest (t :: ts) body out =
  scoped (destroy t) (nest ts body) (out ++ [lit "construct " ++ name_ t]).
Proof. reflexivity. Qed.

Lemma destroy_spec t out :
  destroy t out =
  if throwInDestructor_ t
  then Some (Raised (RuntimeError (lit "exception from destructor")),
             out ++ [lit "destroy " ++ name_ t; lit "destructor throws: " ++ name_ t])
  else Some (Done (), out ++ [lit "destroy " ++ name_ t]).
Proof.
  unfold destroy, print, modifies. run_prog. unfold comp_bind. cbn beta iota.
  destruct (throwInDestructor_ t); [|done]. unfold raising. by rewrite <-app_assoc.
Qed.

(** A body that prints something and raises [e]. *)
Definition raises {A} (body : comp output A) (e : exn) : Prop :=
  ∀ out, ∃ o, body out = Some (Raised e, out ++ o).

(** Blocks whose destructors do not throw pass an exception on, destroying inside out. *)
Lemma nest_quiet {A} (ts : list Trace) (body : comp output A) e out :
  Forall (λ t, throwInDestructor_ t = false) ts → raises body e →
  ∃ o, nest ts body out =
  Some (Raised e, out ++ ctor_lines ts ++ o ++ dtor_lines (reverse ts)).
Proof.
  intros Hts Hb. revert out. induction Hts as [|t ts Ht Hts IH]; intros out.
  - destruct (Hb out) as [o E]. exists o. cbn. by rewrite app_nil_r.
  - rewrite nest_cons. destruct (IH (out ++ [lit "construct " ++ name_ t])) as (o & E).
    exists o. unfold scoped. rewrite E, destroy_spec, Ht. cbn beta iota.
    unfold dtor_lines, ctor_lines. by rewrite reverse_cons, fmap_app, fmap_cons, <-!app_assoc.
Qed.

(** An exception that meets a throwing destructor ends the program. *)
Lemma nest_throwing {A} (outer inner : list Trace) t (body : comp output A) e out :
  throwInDestructor_ t = true →
  Forall (λ t, throwInDestructor_ t = false) inner → raises body e →
  ∃ o, nest (outer ++ t :: inner) body out =
  Some (Terminated,
      out ++ ctor_lines (outer ++ t :: inner) ++ o ++ dtor_lines (reverse inner)
      ++ [lit "destroy " ++ name_ t; lit "destructor throws: " ++ name_ t]).
Proof.
  intros Ht Hi Hb. revert out. induction outer as [|u outer IH]; intros out; cbn [app];
    rewrite nest_cons; unfold scoped.
  - destruct (nest_quiet inner body e (out ++ [lit "construct " ++ name_ t]) Hi Hb)
      as (o & E).
    exists o. rewrite E, destroy_spec, Ht. cbn beta iota.
    unfold ctor_lines. by rewrite fmap_cons, <-!app_assoc.
  - destruct (IH (out ++ [lit "construct " ++ name_ u])) as (o & E).
    exists o. rewrite E. unfold ctor_lines. by rewrite fmap_cons, <-!app_assoc.
Qed.

(** Stack unwinding through any number of nested blocks that hold a [Trace] each:
    when no destructor throws, the exception reaches the handler after every object
    was destroyed, inside out; when one throws, the program ends in [std::terminate]
    right there, so that the handler never runs and the objects further out are
    never destroyed. *)
Theorem unwinding_exact {A} (ts : list Trace) (body : comp output A) e handler out :
  raises body e →
  (Forall (λ t, throwInDestructor_ t = false) ts →
   ∃ o, catching (nest ts body) handler out =
        handler e (out ++ ctor_lines ts ++ o ++ dtor_lines (reverse ts))) ∧
  (∀ outer t inner, ts = outer ++ t :: inner → throwInDestructor_ t = true →
   Forall (λ t, throwInDestructor_ t = false) inner →
   ∃ o, catching (nest ts body) handler out =
        Some (Terminated,
          out ++ ctor_lines ts ++ o ++ dtor_lines (reverse inner)
          ++ [lit "destroy " ++ name_ t; lit "destructor throws: " ++ name_ t])).
Proof.
  intros Hb. unfold catching. split.
  - intros Hts. destruct (nest_quiet ts body e out Hts Hb) as [o ->]. by exists o.
  - intros outer t inner -> Ht Hi.
    destruct (nest_throwing outer inner t body e out Ht Hi Hb) as [o ->]. by exists o.
Qed.

Lemma unwinding_exact_witness :
  let e := RuntimeError (lit "first exception from foo") in
  let body := print (lit "foo: before first throw") ;; raising (A := unit) e in
  let m := MkTrace (lit "main::m") false in
  let b := MkTrace (lit "bar::b") false in
  let a := MkTrace (lit "foo::a") true in
  raises body e ∧
  ∃ o, catching (nest [m; b; a] body) (λ _, print (lit "caught")) [] =
  Some (Terminated, [] ++ ctor_lines [m; b; a] ++ o ++ dtor_lines (reverse [])
      ++ [lit "destroy " ++ name_ a; lit "destructor throws: " ++ name_ a]).
Proof.
  intros e body m b a.
  assert (raises body e) as H by (intros out; by eexists).
  split; [exact H|].
  by apply (proj2 (unwinding_exact [m; b; a] body e (λ _, print (lit "caught")) [] H)
              [m; b] a []).
Defined.

Example main_output :
  main [] = Some (Terminated,
    [lit "construct main::m"; lit "construct bar::b"; lit "construct foo::a";
   lit "foo: before first throw"; lit "destroy foo::a";
   lit "destructor throws: foo::a"]).
Proof. reflexivity. Qed.

End Unwinding.

(** ** Item 8: the session *)

Module Session.

Record Session := MkSession { name_ : bytes; closeWillFail_ : bool; closed_ : bool }.

(** The session and what was printed, on standard output and standard error. *)
Record world := World { session : Session; out : list bytes; err : list bytes }.

Definition what (e : exn) : bytes :=
  match e with RuntimeError w | LogicError w => w | _ => [] end.

Definition close : comp world unit :=
  s ← read session;
  if closed_ s then mret ()
  else if closeWillFail_ s then raising (RuntimeError (lit "close failed: " ++ name_ s))
  else
    modifies (λ w, World (MkSession (name_ s) (closeWillFail_ s) true)
                       (out w ++ [lit "closed " ++ name_ s]) (err w)).

(** [~Session() noexcept] *)
Definition destructor : comp world unit :=
  s ← read session;
  if closed_ s then mret ()
  else
    catching close
        (λ e, modifies (λ w, World (session w) (out w)
                               (err w ++ [lit "cleanup warning: " ++ what e]))).

(** What closing does to a session, however it is reached. *)
Definition close_line (s : Session) : list bytes :=
  if closed_ s || closeWillFail_ s then [] else [lit "closed " ++ name_ s].
Definition warning (s : Session) : list bytes :=
  if closed_ s || negb (closeWillFail_ s) then []
  else [lit "cleanup warning: close failed: " ++ name_ s].
Definition after_close (s : Session) : Session :=
  MkSession (name_ s) (closeWillFail_ s) (closed_ s || negb (closeWillFail_ s)).

Lemma close_spec s o e :
  close (World s o e) =
  Some (if negb (closed_ s) && closeWillFail_ s
        then Raised (RuntimeError (lit "close failed: " ++ name_ s)) else Done (),
        World (after_close s) (o ++ close_line s) e).
Proof.
  unfold close, close_line, after_close. run_prog. unfold comp_bind, read, raising, modifies.
  cbn beta iota. destruct s as [n f c]. cbn.
  destruct c, f; cbn; rewrite ?app_nil_r; reflexivity.
Qed.

Lemma destructor_spec s o e :
  destructor (World s o e) =
  Some (Done (), World (after_close s) (o ++ close_line s) (e ++ warning s)).
Proof.
  unfold destructor. run_prog. unfold comp_bind, read. cbn beta iota.
  destruct s as [n f c]. cbn [session closed_]. destruct c; cbn beta iota.
  { unfold close_line, warning, after_close. cbn. by rewrite !app_nil_r. }
  unfold catching. rewrite close_spec. cbn [closed_ closeWillFail_ negb andb].
  unfold close_line, warning, after_close.
  destruct f; cbn; [done|]. by rewrite app_nil_r.
Qed.

(** [main]'s way to call it: [try { failing.close(); } catch ...]. *)
Definition attempt : comp world unit :=
  catching close
    (λ e, modifies (λ w, World (session w) (out w)
                             (err w ++ [lit "explicit close reports: " ++ what e]))).
Fixpoint attempts (n : nat) : comp world unit :=
  match n with O => mret () | S n' => attempt ;; attempts n' end.

Definition reports (n : nat) (s : Session) : list bytes :=
  if closed_ s || negb (closeWillFail_ s) then []
  else replicate n (lit "explicit close reports: close failed: " ++ name_ s).

Lemma after_close_idem s : after_close (after_close s) = after_close s.
Proof. destruct s as [n f c]. by destruct f, c. Qed.

Lemma attempt_spec s o e :
  attempt (World s o e) =
  Some (Done (), World (after_close s) (o ++ close_line s) (e ++ reports 1 s)).
Proof.
  unfold attempt, catching. rewrite close_spec.
  destruct s as [n f c]; unfold after_close, close_line, reports; cbn.
  destruct c, f; cbn; by rewrite ?app_nil_r.
Qed.

Lemma attempts_spec n s o e :
  attempts n (World s o e) =
  Some (Done (), World (if (n =? 0)%nat then s else after_close s)
                       (o ++ if (n =? 0)%nat then [] else close_line s) (e ++ reports n s)).
Proof.
  revert s o e. induction n as [|n IH]; intros s o e.
  { unfold reports. cbn. destruct (_ || _); by rewrite !app_nil_r. }
  change (attempts (S n)) with (attempt ;; attempts n).
  unfold mbind, comp_bind. rewrite attempt_spec. cbn beta iota. rewrite IH.
  destruct s as [m f c]; unfold after_close, close_line, reports; cbn.
  destruct n, c, f; cbn; by rewrite <-?app_assoc, ?app_nil_r.
Qed.

(** However often [close] is called explicitly and in whichever way the block is
    left, the session's life ends the same: a session that can close prints "closed"
    exactly once, one that cannot reports every explicit call and one warning from
    the destructor, and the destructor neither raises nor turns the exception that
    is on its way into [std::terminate]. *)
Theorem session_closes_once n s o e (r : res unit) :
  exits r →
  scoped destructor (attempts n ;; leave r) (World s o e) =
  Some (r, World (after_close s) (o ++ close_line s) (e ++ reports n s ++ warning s)).
Proof.
  intros Hr.
  assert ((if (n =? 0)%nat then [] else close_line s) ++
          close_line (if (n =? 0)%nat then s else after_close s) = close_line s) as E1.
  { destruct n as [|n]; [done|]. destruct s as [m f c].
    unfold close_line, after_close; cbn. by destruct c, f. }
  assert (after_close (if (n =? 0)%nat then s else after_close s) = after_close s) as E2.
  { destruct n as [|n]; [done|]. apply after_close_idem. }
  assert (warning (if (n =? 0)%nat then s else after_close s) = warning s) as E3.
  { destruct n as [|n]; [done|]. destruct s as [m f c].
    unfold warning, after_close; cbn. by destruct c, f. }
  unfold scoped, mbind, comp_bind, leave. rewrite attempts_spec. cbn beta iota.
  destruct r as [[]|x| |]; [| |done|done]; rewrite destructor_spec, <-!app_assoc, E1, E2, E3; done.
Qed.

Lemma session_closes_once_witness :
  let s := MkSession (lit "failing-session") true false in
  exits (Raised (A := unit) BadAlloc) ∧
  scoped destructor (attempts 1 ;; leave (A := unit) (Raised BadAlloc)) (World s [] []) =
  Some (Raised BadAlloc,
    World (after_close s) ([] ++ close_line s) ([] ++ reports 1 s ++ warning s)).
Proof. intros s. split; [done|]. by apply (session_closes_once 1 s [] [] (Raised BadAlloc)). Defined.

Example main_failing_session :
  scoped destructor attempt (World (MkSession (lit "x") true false) [] []) =
  Some (Done (), World (MkSession (lit "x") true false) []
    [lit "explicit close reports: close failed: x"; lit "cleanup warning: close failed: x"]).
Proof. reflexivity. Qed.

End Session.

(** ** Item 29: the profile *)

Module Profile.

Record Profile := MkProfile { name_ : bytes; scores_ : list Z }.

Definition failed_update : exn := RuntimeError (lit "failure after changing name").

Definition updateUnsafe (name : bytes) (scores : list Z) (simulateFailure : bool) :
    comp Profile unit :=
  modifies (λ p, MkProfile name (scores_ p)) ;;
  (if simulateFailure then raising failed_update else mret ()) ;;
  modifies (λ p, MkProfile (name_ p) scores).

(** [swap] exchanges both members. *)
Definition swap (l r : Profile) : Profile * Profile := (r, l).

(** The [throw] stands before the commit: [swap] is never reached. *)
Definition updateStrong (name : bytes) (scores : list Z) : comp Profile unit :=
  let next := MkProfile name scores in
  raising (A := unit) failed_update ;;
  modifies (λ p, fst (swap p next)).

(** [updateUnsafe] sets both members, or, when it fails, leaves the new name with
    the old scores, a state that is neither; [updateStrong] always fails and never
    changes anything, whatever it is given: the update it promises cannot happen. *)
Theorem profile_updates p name scores :
  updateUnsafe name scores false p = Some (Done (), MkProfile name scores) ∧
  updateUnsafe name scores true p = Some (Raised failed_update, MkProfile name (scores_ p)) ∧
  (name ≠ name_ p → scores ≠ scores_ p →
   MkProfile name (scores_ p) ≠ p ∧ MkProfile name (scores_ p) ≠ MkProfile name scores) ∧
  updateStrong name scores p = Some (Raised failed_update, p).
Proof.
  split; [done|]. split; [done|]. split; [|done].
  intros Hn Hs. destruct p as [n sc]; cbn in *. split; intros [=]; congruence.
Qed.

Lemma profile_updates_witness :
  lit "Grace" ≠ name_ (MkProfile (lit "Ada") [90%Z; 95%Z]) ∧
  MkProfile (lit "Grace") [90%Z; 95%Z] ≠ MkProfile (lit "Ada") [90%Z; 95%Z].
Proof.
  split; [discriminate|].
  apply (profile_updates (MkProfile (lit "Ada") [90%Z; 95%Z]) (lit "Grace") [100%Z]);
    discriminate.
Defined.

(** [main] passes [simulateFailure = false]: the update is complete. *)
Example main_profile :
  snd <$> updateUnsafe (lit "Grace") [100%Z] false (MkProfile (lit "Ada") [90%Z; 95%Z])
  = Some (MkProfile (lit "Grace") [100%Z]).
Proof. reflexivity. Qed.

End Profile.

(** ** Item 49: a new handler per class *)

Module NewHandler.
Section handlers.

(** Functions of type [std::new_handler], and what calling one does. *)
Context {H : Type}.

Record world := World {
  new_handler : option H;          (* the global one; [None] is a null pointer *)
  currentHandler_ : option H;
  failNextAllocation_ : bool;
  mallocs : nat;                   (* calls of [malloc] so far *)
  sizes : list Z                   (* what they asked for *)
}.

(** [std::malloc]: what the [n]-th call returns, [None] for a null pointer. *)
Context (malloc_result : nat → option Z).
Context (handle : H → comp world unit).

Definition set_new_handler (h : option H) : comp world unit :=
  modifies (λ w, World h (currentHandler_ w) (failNextAllocation_ w) (mallocs w) (sizes w)).
Definition get_new_handler : comp world (option H) := read new_handler.

Definition malloc (n : Z) : comp world (option Z) := λ w,
  Some (Done (malloc_result (mallocs w)),
        World (new_handler w) (currentHandler_ w) (failNextAllocation_ w)
              (S (mallocs w)) (sizes w ++ [n])).

Definition setNewHandler (h : option H) : comp world (option H) := λ w,
  Some (Done (currentHandler_ w),
        World (new_handler w) h (failNextAllocation_ w) (mallocs w) (sizes w)).
Definition failNextAllocationForDemo : comp world unit :=
  modifies (λ w, World (new_handler w) (currentHandler_ w) true (mallocs w) (sizes w)).
Definition allowAllocationAfterHandler : comp world unit :=
  modifies (λ w, World (new_handler w) (currentHandler_ w) false (mallocs w) (sizes w)).

(** [if (!failNextAllocation_) if (void *memory = malloc(size)) return memory;] *)
Definition try_malloc (n : Z) : comp world (option Z) :=
  fail ← read failNextAllocation_;
  if (fail : bool) then mret None else malloc n.

(** The [while (true)] loop of [operator new]. *)
Fixpoint new_loop (fuel : nat) (n : Z) : comp world Z :=
  match fuel with
  | O => λ _, None
  | S fuel' =>
      memory ← try_malloc n;
      match memory with
      | Some p => mret p
      | None =>
          handler ← get_new_handler;
          match handler with
          | None => raising BadAlloc
          | Some h => handle h ;; new_loop fuel' n
          end
      end
  end.

(** [NewHandlerGuard guard{handler};]: the constructor, and its destructor behind
    the rest of the block. *)
Definition with_guard {A} (handler : option H) (body : comp world A) : comp world A :=
  old ← get_new_handler;
  set_new_handler handler ;;
  scoped (set_new_handler old) body.

Definition operator_new (fuel : nat) (n : Z) : comp world Z :=
  current ← read currentHandler_;
  with_guard current (new_loop fuel (if (n =? 0)%Z then 1%Z else n)).

(** The global handler replaced. *)
Definition install (h : option H) (w : world) : world :=
  World h (currentHandler_ w) (failNextAllocation_ w) (mallocs w) (sizes w).

Lemma operator_new_run fuel n w :
  operator_new fuel n w =
  match new_loop fuel (if (n =? 0)%Z then 1%Z else n) (install (currentHandler_ w) w) with
  | None => None
  | Some (Terminated, w1) => Some (Terminated, w1)
  | Some (Undefined, w1) => Some (Undefined, w1)
  | Some (r, w1) => Some (r, install (new_handler w) w1)
  end.
Proof. unfold operator_new, with_guard. apply scoped_update. Qed.

(** What a turn of the loop asks [malloc] for, and the world behind it. *)
Definition attempted (w : world) : option Z :=
  if failNextAllocation_ w then None else malloc_result (mallocs w).
Definition counted (n : Z) (w : world) : world :=
  if failNextAllocation_ w then w
  else World (new_handler w) (currentHandler_ w) false (S (mallocs w)) (sizes w ++ [n]).

Lemma new_loop_S fuel n w :
  new_loop (S fuel) n w =
  match attempted w with
  | Some p => Some (Done p, counted n w)
  | None =>
      match new_handler w with
      | None => Some (Raised BadAlloc, counted n w)
      | Some h => (handle h ;; new_loop fuel n) (counted n w)
      end
  end.
Proof.
  destruct w as [g c [] k sz]; cbn [new_loop]; unfold try_malloc, get_new_handler,
    attempted, counted, malloc, read, raising; run_prog; unfold comp_bind, comp_ret;
    cbn [new_handler currentHandler_ failNextAllocation_ mallocs sizes].
  - by destruct g.
  - destruct (malloc_result k); cbn; [done|]. by destruct g.
Qed.

(** Whatever the handlers do (install other handlers, throw, allow or forbid
    allocations) and whatever [malloc] answers, [Widget]'s [operator new] leaves the
    global handler as it found it, on its normal return, on [std::bad_alloc] and on
    an exception of the handler. *)
Theorem new_restores_handler fuel n w r w' :
  operator_new fuel n w = Some (r, w') → exits r →
  new_handler w' = new_handler w.
Proof.
  rewrite operator_new_run. intros E Hr.
  destruct (new_loop _ _ _) as [[[p|e| |] w1]|]; by simplify_eq.
Qed.

(** Without a handler a failed allocation is [std::bad_alloc], at once. *)
Lemma new_without_handler fuel n w :
  currentHandler_ w = None → failNextAllocation_ w = true →
  operator_new (S fuel) n w = Some (Raised BadAlloc, w).
Proof.
  intros Hc Hf. rewrite operator_new_run. destruct w as [g c f k sz]; cbn in *. subst.
  reflexivity.
Qed.

End handlers.
Arguments world : clear implicits.

(** The program's two handlers, with the text they write to [stderr] left out. *)
Inductive handler := widgetOutOfMemory | globalHandler.

Definition handle (h : handler) : comp (world handler) unit :=
  match h with
  | widgetOutOfMemory => allowAllocationAfterHandler
  | globalHandler => raising BadAlloc
  end.

Section demo.
Context (malloc_result : nat → option Z).

(** The world in which [main] allocates: both handlers set, a failure ordered. *)
Definition prepared (k : nat) (sz : list Z) : world handler :=
  World (Some globalHandler) (Some widgetOutOfMemory) true k sz.

(** The loop under [widgetOutOfMemory], which gives nothing back: it repeats [malloc]. *)
Lemma retry_loop j n g k sz fuel p :
  (∀ i, i < j → malloc_result (k + i) = None) → malloc_result (k + j) = Some p →
  j < fuel →
  new_loop malloc_result handle fuel n (World (Some widgetOutOfMemory) g false k sz) =
  Some (Done p, World (Some widgetOutOfMemory) g false (k + S j) (sz ++ replicate (S j) n)).
Proof.
  revert k sz fuel. induction j as [|j IH]; intros k sz [|fuel] Hnone Hp Hf; try lia.
  - rewrite Nat.add_0_r in Hp. rewrite new_loop_S. unfold attempted. cbn. rewrite Hp.
    by rewrite Nat.add_1_r.
  - pose proof (Hnone 0 ltac:(lia)) as H0. rewrite Nat.add_0_r in H0.
    rewrite new_loop_S. unfold attempted, counted. cbn [failNextAllocation_ mallocs].
    rewrite H0. unfold mbind, comp_bind. cbn. rewrite IH; [..|lia].
    + replace (k + S (S j)) with (S k + S j) by lia. by rewrite <-app_assoc.
    + intros i Hi. rewrite Nat.add_succ_comm. apply Hnone. lia.
    + by rewrite Nat.add_succ_comm.
Qed.

Lemma retry_forever fuel n g k sz :
  (∀ i, malloc_result (k + i) = None) →
  new_loop malloc_result handle fuel n (World (Some widgetOutOfMemory) g false k sz) = None.
Proof.
  revert k sz. induction fuel as [|fuel IH]; intros k sz Hnone; [done|].
  pose proof (Hnone 0) as H0. rewrite Nat.add_0_r in H0.
  rewrite new_loop_S. unfold attempted, counted. cbn [failNextAllocation_ mallocs].
  rewrite H0. unfold mbind, comp_bind. cbn. apply (IH (S k)). intros i. rewrite Nat.add_succ_comm. apply Hnone.
Qed.

(** C40. [main]'s allocation, with [widgetOutOfMemory] as the class's handler: the
    ordered failure calls it once, and then [malloc] is repeated until it succeeds.
    If the [j]-th further call is the first to give memory, [operator new] returns it
    after [j + 1] calls, with the global handler restored; if [malloc] never gives
    memory, it never returns, since the handler releases nothing. *)
Theorem new_returns_when_malloc_does k sz n fuel :
  (∀ j p, (∀ i, i < j → malloc_result (k + i) = None) → malloc_result (k + j) = Some p →
   S j < fuel →
   operator_new malloc_result handle fuel n (prepared k sz) =
   Some (Done p, World (Some globalHandler) (Some widgetOutOfMemory) false (k + S j)
                         (sz ++ replicate (S j) (if (n =? 0)%Z then 1%Z else n)))) ∧
  ((∀ i, malloc_result (k + i) = None) →
   operator_new malloc_result handle fuel n (prepared k sz) = None).
Proof.
  split.
  - intros j p Hnone Hp Hf. destruct fuel as [|fuel]; [lia|].
    rewrite operator_new_run, new_loop_S. unfold mbind, comp_bind. cbn.
    by rewrite (retry_loop j _ _ _ _ _ p) by (done || lia).
  - intros Hnone. destruct fuel as [|fuel]; [done|].
    rewrite operator_new_run, new_loop_S. unfold mbind, comp_bind. cbn.
    by rewrite retry_forever.
Qed.

End demo.

(** [main]: the handlers are installed, one [Widget] is allocated. *)
Definition main (malloc_result : nat → option Z) (fuel : nat) : comp (world handler) (bool) :=
  set_new_handler (Some globalHandler) ;;
  setNewHandler (Some widgetOutOfMemory) ;;
  failNextAllocationForDemo ;;
  operator_new malloc_result handle fuel 4 ;;
  h ← get_new_handler;
  mret (match h with Some globalHandler => true | _ => false end).

Example main_restored :
  fst <$> main (λ n, if (n <? 2)%nat then None else Some 4096%Z) 5 (World None None false 0 [])
  = Some (Done true).
Proof. reflexivity. Qed.

Lemma new_restores_handler_witness :
  operator_new (λ _, Some 16%Z) handle 2 4 (prepared 0 []) =
  Some (Done 16%Z, World (Some globalHandler) (Some widgetOutOfMemory) false 1 [4%Z]) ∧
  new_handler (World (Some globalHandler) (Some widgetOutOfMemory) false 1 [4%Z]) =
  new_handler (prepared 0 []).
Proof.
  split; [reflexivity|].
  by apply (new_restores_handler (λ _, Some 16%Z) handle 2 4 (prepared 0 []) (Done 16%Z)).
Defined.

Lemma new_returns_when_malloc_does_witness :
  operator_new (λ n, if n =? 1 then Some 16%Z else None) handle 3 0 (prepared 0 []) =
  Some (Done 16%Z, World (Some globalHandler) (Some widgetOutOfMemory) false (0 + 2)
                         ([] ++ replicate 2 1%Z)).
Proof.
  apply (proj1 (new_returns_when_malloc_does _ 0 [] 0 3) 1 16%Z); [|done|lia].
  intros [|i] Hi; [done|lia].
Defined.

End NewHandler.

(** ** Item 11: copy and swap *)

Module Bitmap.
Section bitmap.

(** The heap of [int] cells, by address. *)
Local Notation heap := (gmap Z Z).
(** [new int]: a fresh address, or [std::bad_alloc]. *)
Context (new_int : heap → option Z).

(** Owners are variables of type [BitmapHolder]; each holds a pointer [pixel_]. *)
Record world := World { cells : heap; pixel_ : gmap positive Z }.

(** [new int(v)] *)
Definition alloc (v : Z) : comp world Z := λ w,
  match new_int (cells w) with
  | Some p => Some (Done p, World (<[p := v]> (cells w)) (pixel_ w))
  | None => Some (Raised BadAlloc, w)
  end.

(** A dereference or [delete] of what is no live cell. *)
Definition load (p : Z) : comp world Z := λ w,
  match cells w !! p with
  | Some v => Some (Done v, w)
  | None => Some (Undefined, w)
  end.
Definition delete (p : Z) : comp world unit := λ w,
  match cells w !! p with
  | Some _ => Some (Done (), World (base.delete p (cells w)) (pixel_ w))
  | None => Some (Undefined, w)
  end.
Definition pixel_of (x : positive) : comp world Z := λ w,
  match pixel_ w !! x with
  | Some p => Some (Done p, w)
  | None => Some (Undefined, w)
  end.
Definition set_pixel (x : positive) (p : Z) : comp world unit :=
  modifies (λ w, World (cells w) (<[x := p]> (pixel_ w))).

(** [BitmapHolder x{pixel};] *)
Definition construct (x : positive) (pixel : Z) : comp world unit :=
  p ← alloc pixel; set_pixel x p.

(** [BitmapHolder(const BitmapHolder &rhs)] *)
Definition copy_construct (rhs : positive) : comp world Z :=
  q ← pixel_of rhs; v ← load q; alloc v.

(** [x = rhs]: the parameter is a copy, the two pointers are swapped, and the
    parameter is destroyed with the old cell. *)
Definition assign (x rhs : positive) : comp world unit :=
  parameter ← copy_construct rhs;
  old ← pixel_of x;
  set_pixel x parameter ;;
  delete old.

Definition value (x : positive) : comp world Z := p ← pixel_of x; load p.

(** Every owner holds a cell of its own, and no cell is without an owner. *)
Definition owned (w : world) : Prop :=
  (∀ x p, pixel_ w !! x = Some p → is_Some (cells w !! p)) ∧
  (∀ x y p, pixel_ w !! x = Some p → pixel_ w !! y = Some p → x = y) ∧
  (∀ p, is_Some (cells w !! p) → ∃ x, pixel_ w !! x = Some p).

(** The value an owner holds. *)
Definition holds (w : world) (x : positive) : option Z :=
  p ← pixel_ w !! x; cells w !! p.

Context (new_int_fresh : ∀ h p, new_int h = Some p → h !! p = None).

Lemma holds_owned w x : owned w → is_Some (pixel_ w !! x) → ∃ p v,
  pixel_ w !! x = Some p ∧ cells w !! p = Some v ∧ holds w x = Some v.
Proof.
  intros (Hl & _) [p Hp]. destruct (Hl _ _ Hp) as [v Hv].
  exists p, v. split; [done|]. split; [done|]. unfold holds. by rewrite Hp.
Qed.

(** An assignment that got its memory: [x] holds the value of [rhs] in a cell of its
    own, the old cell is gone. *)
Lemma assign_done w x rhs q v p n :
  owned w → pixel_ w !! rhs = Some q → cells w !! q = Some v →
  pixel_ w !! x = Some p → new_int (cells w) = Some n →
  assign x rhs w =
  Some (Done (), World (base.delete p (<[n := v]> (cells w))) (<[x := n]> (pixel_ w))).
Proof.
  intros (Hl & _) Hq Hv Hp Hn. destruct (Hl _ _ Hp) as [u Hu].
  assert (p ≠ n) as Hpn. { intros ->. by rewrite (new_int_fresh _ _ Hn) in Hu. }
  unfold assign, copy_construct, pixel_of, load, alloc, set_pixel, modifies, delete.
  unfold mbind, comp_bind. rewrite Hq, Hv, Hn. cbn [pixel_ cells]. rewrite Hp.
  cbn [pixel_ cells]. by rewrite lookup_insert_ne, Hu.
Qed.

(** Copy and swap: between owners that hold one live cell each, none shared and
    none lost, an assignment either fails in the copy and changes nothing, or ends
    with [x] holding the value of [rhs], every other owner what it held, and the
    same ownership: nothing leaks and nothing is deleted twice, for [x = x] too. *)
Theorem copy_and_swap w x rhs :
  owned w → is_Some (pixel_ w !! x) → is_Some (pixel_ w !! rhs) →
  (new_int (cells w) = None → assign x rhs w = Some (Raised BadAlloc, w)) ∧
  (∀ n, new_int (cells w) = Some n →
   ∃ w', assign x rhs w = Some (Done (), w') ∧ owned w' ∧
   holds w' x = holds w rhs ∧ (∀ y, y ≠ x → holds w' y = holds w y) ∧
   base.size (cells w') = base.size (cells w)).
Proof.
  intros Ho Hx Hr.
  destruct (holds_owned w x Ho Hx) as (p & u & Hp & Hu & _).
  destruct (holds_owned w rhs Ho Hr) as (q & v & Hq & Hv & Hhr). split.
  - intros Hn. unfold assign, copy_construct, pixel_of, load, alloc, mbind, comp_bind.
    by rewrite Hq, Hv, Hn.
  - intros n Hn. rewrite (assign_done w x rhs q v p n) by done.
    pose proof (new_int_fresh _ _ Hn) as Hf. destruct Ho as (Hl & Hd & Hc).
    assert (p ≠ n) by congruence.
    assert (∀ y, y ≠ x → pixel_ w !! y ≠ Some p) as Hy by eauto.
    assert (∀ y r, pixel_ w !! y = Some r → r ≠ n) as Hnn.
    { intros y r Hr' ->. destruct (Hl _ _ Hr') as [? ?]. congruence. }
    eexists. split; [done|]. unfold holds, owned. cbn [pixel_ cells].
    split; [split; [|split]|split; [|split]].
    + intros y r [[<- <-]|[? Hr']]%lookup_insert_Some.
      * rewrite lookup_delete_ne, lookup_insert_eq by done. eauto.
      * rewrite lookup_delete_ne by (intros ->; by apply (Hy y)).
        rewrite lookup_insert_ne by (intros ->; by apply (Hnn y r)). eauto.
    + intros y z r [[<- <-]|[? H1]]%lookup_insert_Some [[<- E]|[? H2]]%lookup_insert_Some;
        [done|by apply Hnn in H2|subst; by apply Hnn in H1|eauto].
    + intros r [u' [? [[<- _]|[? Hr']]%lookup_insert_Some]%lookup_delete_Some].
      { exists x. by rewrite lookup_insert_eq. }
      destruct (Hc r) as [y Hyr]; [eauto|]. exists y.
      rewrite lookup_insert_ne; [done|]. intros <-. congruence.
    + rewrite lookup_insert_eq. cbn.
      rewrite lookup_delete_ne, lookup_insert_eq by done.
      by rewrite Hq.
    + intros y ?. rewrite lookup_insert_ne by done.
      destruct (pixel_ w !! y) as [r|] eqn:Hyr; [|done]. cbn.
      rewrite lookup_delete_ne by (intros ->; by apply (Hy y)).
      by rewrite lookup_insert_ne by (intros ->; by apply (Hnn y r)).
    + rewrite map_size_delete_Some by (eexists; by rewrite lookup_insert_ne).
      rewrite map_size_insert_None by done. lia.
Qed.

End bitmap.

(** A memory that always has a fresh cell. *)
Definition some_fresh (h : gmap Z Z) : option Z := Some (fresh (dom h)).
Lemma some_fresh_fresh h p : some_fresh h = Some p → h !! p = None.
Proof. intros [= <-]. apply not_elem_of_dom, is_fresh. Qed.

(** [main]: a self assignment, then an assignment from another holder. *)
Definition main : comp world (Z * Z) :=
  construct some_fresh 1 10 ;;
  assign some_fresh 1 1 ;;
  a ← value 1;
  construct some_fresh 2 20 ;;
  assign some_fresh 1 2 ;;
  b ← value 1;
  mret (a, b).

Example main_values : fst <$> main (World ∅ ∅) = Some (Done (10%Z, 20%Z)).
Proof. vm_compute. reflexivity. Qed.

Lemma copy_and_swap_witness :
  let w := World {[7%Z := 10%Z]} {[1%positive := 7%Z]} in
  ∃ w', assign some_fresh 1 1 w = Some (Done (), w') ∧ owned w' ∧
  holds w' 1 = holds w 1 ∧ (∀ y, y ≠ 1%positive → holds w' y = holds w y) ∧
  base.size (cells w') = base.size (cells w).
Proof.
  intros w.
  assert (owned w) as Ho.
  { unfold owned, w. cbn [cells pixel_]. split; [|split].
    - intros x p [<- <-]%lookup_singleton_Some. by rewrite lookup_singleton_eq.
    - by intros x y p [<- _]%lookup_singleton_Some [<- _]%lookup_singleton_Some.
    - intros p [v [<- _]%lookup_singleton_Some]. exists 1%positive.
      by rewrite lookup_singleton_eq. }
  assert (is_Some (pixel_ w !! 1%positive)) as Hx by (by eexists).
  by apply (proj2 (copy_and_swap some_fresh some_fresh_fresh w 1 1 Ho Hx Hx)
              (fresh (dom (cells w)))).
Defined.
End Bitmap.

(** ** Items 13, 17 and 52: owning objects, and expressions that create them *)

Module Creation.
Section memory.

(** Whether the [n]-th global allocation gives memory. *)
Context (memory : nat → bool).

(** The live objects, the number of the next one, and the output. *)
Record world := World { live : gset nat; next : nat; log : list bytes }.

Definition print (l : bytes) : comp world unit :=
  modifies (λ w, World (live w) (next w) (log w ++ [l])).

(** [::operator new] and [::operator delete] *)
Definition global_new : comp world nat := λ w,
  if memory (next w) then
    Some (Done (next w), World (live w ∪ {[next w]}) (S (next w)) (log w))
  else Some (Raised BadAlloc, World (live w) (S (next w)) (log w)).
Definition global_delete (p : nat) : comp world unit := λ w,
  if decide (p ∈ live w) then
    Some (Done (), World (live w ∖ {[p]}) (next w) (log w))
  else Some (Undefined, w).

(** item52: [sizeof(Widget)] is that of an [int]. *)
Definition sizeof_Widget : Z := 4.
Definition constructor (shouldThrow : bool) : comp world unit :=
  print (lit "Widget constructor") ;;
  if shouldThrow then raising (RuntimeError (lit "constructor failed")) else mret ().
Definition placement_new : comp world nat :=
  print (lit "logging placement new: " ++ show_int sizeof_Widget ++ lit " byte(s)") ;;
  global_new.
Definition placement_delete (p : nat) : comp world unit :=
  print (lit "matching placement delete after constructor failure") ;;
  global_delete p.
Definition operator_delete (p : nat) : comp world unit :=
  print (lit "ordinary delete") ;; global_delete p.

(** [new (std::cout) Widget{shouldThrow}]: a failing constructor calls the matching
    placement delete. *)
Definition new_Widget (shouldThrow : bool) : comp world nat :=
  p ← placement_new;
  catching (constructor shouldThrow ;; mret p)
    (λ e, placement_delete p ;; raising e).
(** [delete widget] *)
Definition delete_Widget (p : nat) : comp world unit :=
  print (lit "Widget destructor") ;; operator_delete p.

Definition new_lines (shouldThrow : bool) : list bytes :=
  [lit "logging placement new: 4 byte(s)"; lit "Widget constructor"] ++
  if shouldThrow then [lit "matching placement delete after constructor failure"] else [].

Lemma fresh_removed (X : gset nat) n : n ∉ X → (X ∪ {[n]}) ∖ {[n]} = X.
Proof. set_solver. Qed.

(** item52's lines up to the second [delete]. *)
Definition new_and_delete (shouldThrow : bool) : comp world unit :=
  p ← new_Widget shouldThrow; delete_Widget p.

(** A placement [new] expression followed by [delete]: when memory runs out the
    heap is untouched and [std::bad_alloc] is passed on; when the constructor throws,
    the matching placement delete gives the memory back before the exception goes on;
    when it succeeds, the ordinary operator delete does.  No way leaks. *)
Theorem new_expression_leaks_nothing shouldThrow w :
  next w ∉ live w →
  new_and_delete shouldThrow w =
  if memory (next w) then
  Some (if shouldThrow then Raised (RuntimeError (lit "constructor failed")) else Done (),
          World (live w) (S (next w))
                (log w ++ new_lines shouldThrow ++
                 if shouldThrow then [] else [lit "Widget destructor"; lit "ordinary delete"]))
  else
  Some (Raised BadAlloc,
          World (live w) (S (next w)) (log w ++ [lit "logging placement new: 4 byte(s)"])).
Proof.
  intros Hn. destruct w as [X n l]; cbn in Hn.
  unfold new_and_delete, new_Widget, placement_new, global_new, catching, print, modifies,
    constructor, delete_Widget, operator_delete, placement_delete, global_delete, print,
    mbind, comp_bind, mret, comp_ret, raising. cbn [live next log].
  destruct (memory n); [|done].
  destruct shouldThrow; cbn [live next log modifies];
    rewrite decide_True by set_solver; rewrite fresh_removed by done;
    by rewrite <-!app_assoc.
Qed.

(** item17 and test.cpp: [priority] throws when it is told to. *)
Definition priority (shouldThrow : bool) : comp world Z :=
  if shouldThrow then raising (RuntimeError (lit "priority calculation failed"))
  else mret 10%Z.
Definition processWidget (priorityValue : Z) : comp world unit :=
  print (lit "process priority " ++ show_int priorityValue).

(** [std::make_shared<Widget>()], and the last owner's destructor. *)
Definition make_shared : comp world nat :=
  p ← global_new; print (lit "construct Widget") ;; mret p.
Definition release (p : nat) : comp world unit :=
  print (lit "destroy Widget") ;; global_delete p.

(** item17's [try] block. *)
Definition owned_block (shouldThrow : bool) : comp world unit :=
  widget ← make_shared;
  scoped (release widget) (v ← priority shouldThrow; processWidget v).

(** test.cpp's [leakDemo], with the argument of [priority] left open: the raw pointer
    has no owner when [priority] throws. *)
Definition leakDemo (shouldThrow : bool) : comp world unit :=
  raw ← make_shared;
  v ← priority shouldThrow;
  scoped (release raw) (processWidget v).

Definition processed (shouldThrow : bool) : list bytes :=
  if shouldThrow then [] else [lit "process priority 10"].

(** Handing the object to its owner before anything can throw: item 17's block
    destroys the widget exactly once and gives its memory back whether [priority]
    throws or not, while [leakDemo], which differs in that order alone, keeps the
    widget alive for ever when it throws. *)
Theorem ownership_before_throw shouldThrow w :
  next w ∉ live w → memory (next w) = true →
  let failed := RuntimeError (lit "priority calculation failed") in
  owned_block shouldThrow w =
  Some (if shouldThrow then Raised failed else Done (),
          World (live w) (S (next w))
            (log w ++ [lit "construct Widget"] ++ processed shouldThrow ++ [lit "destroy Widget"])) ∧
  leakDemo shouldThrow w =
  Some (if shouldThrow then Raised failed else Done (),
          World (if shouldThrow then live w ∪ {[next w]} else live w) (S (next w))
            (log w ++ [lit "construct Widget"] ++ processed shouldThrow ++
             if shouldThrow then [] else [lit "destroy Widget"])).
Proof.
  intros Hn Hm failed. destruct w as [X n l]; cbn in Hn, Hm.
  unfold owned_block, leakDemo, make_shared, global_new, scoped, release, priority,
    processWidget, print, modifies, global_delete, mbind, comp_bind, mret, comp_ret, raising.
  cbn [live next log]. rewrite Hm. cbn [live next log].
  destruct shouldThrow; cbn [live next log];
    rewrite ?decide_True by set_solver; rewrite ?fresh_removed by done;
    by rewrite <-!app_assoc.
Qed.

(** item13: the lease is released on the way to the handler. *)
Definition sendRequest : comp world unit :=
  print (lit "acquire lease 42") ;;
  scoped (print (lit "release lease 42"))
    (print (lit "request starts") ;; raising (RuntimeError (lit "network error"))).

Lemma sendRequest_releases w :
  sendRequest w =
  Some (Raised (RuntimeError (lit "network error")),
        World (live w) (next w)
          (((log w ++ [lit "acquire lease 42"]) ++ [lit "request starts"])
           ++ [lit "release lease 42"])).
Proof. reflexivity. Qed.

End memory.

Lemma new_expression_leaks_nothing_witness :
  next (World ∅ 0 []) ∉ live (World ∅ 0 []) ∧
  new_and_delete (λ _, true) true (World ∅ 0 []) =
  Some (Raised (RuntimeError (lit "constructor failed")),
          World ∅ 1 ([] ++ new_lines true ++ [])).
Proof.
  split; [set_solver|].
  apply (new_expression_leaks_nothing (λ _, true) true (World ∅ 0 [])). set_solver.
Defined.

Lemma ownership_before_throw_witness :
  next (World ∅ 0 []) ∉ live (World ∅ 0 []) ∧
  leakDemo (λ _, true) true (World ∅ 0 []) =
  Some (Raised (RuntimeError (lit "priority calculation failed")),
          World (∅ ∪ {[0]}) 1 ([] ++ [lit "construct Widget"] ++ [] ++ [])).
Proof.
  split; [set_solver|].
  apply (ownership_before_throw (λ _, true) true (World ∅ 0 [])); [set_solver|done].
Defined.

End Creation.
