(* ===== verification/SegList.v ===== *)
(** * The segregated-list allocator of chapter9/malloc/flsp.c

    The whole allocator on a memory of bytes: block headers and footers of four
    bytes, and in a free block a predecessor and a successor pointer, the second one
    four bytes behind the first.  [W] is the width of a pointer; the code is written
    for [W = 4], and on a machine with [W = 8] the two fields overlap.  An access
    outside the block that [mem_init] obtained is [Undefined]; loops over a free list
    take fuel, [None] being a loop that has not ended.  The debugging output is left
    out. *)

From stdpp Require Import base numbers gmap list.
From Stdlib Require Import ZArith Lia.
From S2P Require Import Prelude CxxString Unwind.

Local Open Scope Z_scope.

(** ** Bytes *)

(** The [n] low bytes of a number, the lowest first, and back. *)
Fixpoint bytes_of (n : nat) (v : Z) : list Z :=
  match n with O => [] | S n' => v mod 256 :: bytes_of n' (v / 256) end.
Fixpoint value_of (bs : list Z) : Z :=
  match bs with [] => 0 | b :: bs' => b + 256 * value_of bs' end.

Fixpoint store_bytes (a : Z) (bs : list Z) (m : gmap Z Z) : gmap Z Z :=
  match bs with [] => m | b :: bs' => <[a := b]> (store_bytes (a + 1) bs' m) end.
Fixpoint load_bytes (n : nat) (a : Z) (m : gmap Z Z) : option (list Z) :=
  match n with
  | O => Some []
  | S n' => b ← m !! a; bs ← load_bytes n' (a + 1) m; Some (b :: bs)
  end.

Lemma length_bytes_of n v : length (bytes_of n v) = n.
Proof. revert v. induction n as [|n IH]; intros v; cbn; [done|]. by rewrite IH. Qed.

Lemma value_bytes_of n v : value_of (bytes_of n v) = v mod 256 ^ Z.of_nat n.
Proof.
  revert v. induction n as [|n IH]; intros v; [by rewrite Z.mod_1_r|].
  cbn [bytes_of value_of]. rewrite IH, Nat2Z.inj_succ, Z.pow_succ_r by lia.
  rewrite Z.rem_mul_r by lia. done.
Qed.

Lemma lookup_store_bytes a bs m x :
  store_bytes a bs m !! x =
  if decide (a <= x < a + Z.of_nat (length bs)) then bs !! Z.to_nat (x - a) else m !! x.
Proof.
  revert a. induction bs as [|b bs IH]; intros a; cbn [store_bytes length].
  { by rewrite decide_False by lia. }
  destruct (decide (x = a)) as [->|Hne].
  { rewrite lookup_insert_eq, decide_True by lia. by rewrite Z.sub_diag. }
  rewrite lookup_insert_ne, IH by done.
  destruct (decide (a + 1 <= x < a + 1 + Z.of_nat (length bs))).
  - rewrite decide_True by lia.
    by replace (Z.to_nat (x - a)) with (S (Z.to_nat (x - (a + 1)))) by lia.
  - by rewrite decide_False by lia.
Qed.

Lemma load_bytes_ext n a m m' :
  (∀ x, a <= x < a + Z.of_nat n → m' !! x = m !! x) →
  load_bytes n a m' = load_bytes n a m.
Proof.
  revert a. induction n as [|n IH]; intros a H; [done|]. cbn [load_bytes].
  rewrite H by lia. rewrite IH; [done|]. intros x ?. apply H. lia.
Qed.

Lemma load_store_same n a v m :
  load_bytes n a (store_bytes a (bytes_of n v) m) = Some (bytes_of n v).
Proof.
  revert a v m. induction n as [|n IH]; intros a v m; [done|].
  cbn [bytes_of store_bytes load_bytes]. rewrite lookup_insert_eq. cbn.
  rewrite (load_bytes_ext _ _ (store_bytes (a + 1) (bytes_of n (v / 256)) m)).
  - by rewrite IH.
  - intros x ?. by rewrite lookup_insert_ne by lia.
Qed.

Lemma load_store_other n a v k b m :
  b + Z.of_nat k <= a ∨ a + Z.of_nat n <= b →
  load_bytes k b (store_bytes a (bytes_of n v) m) = load_bytes k b m.
Proof.
  intros H. apply load_bytes_ext. intros x ?.
  rewrite lookup_store_bytes, length_bytes_of, decide_False by lia. done.
Qed.

Lemma bytes_of_app n k v :
  bytes_of (n + k) v = bytes_of n v ++ bytes_of k (v / 256 ^ Z.of_nat n).
Proof.
  revert v. induction n as [|n IH]; intros v; [by rewrite Z.div_1_r|].
  cbn [Nat.add bytes_of app]. rewrite IH, Nat2Z.inj_succ, Z.pow_succ_r by lia.
  by rewrite Z.div_div by lia.
Qed.
Lemma store_bytes_app a l1 l2 m :
  store_bytes a (l1 ++ l2) m = store_bytes a l1 (store_bytes (a + Z.of_nat (length l1)) l2 m).
Proof.
  revert a. induction l1 as [|b l1 IH]; intros a; cbn [app store_bytes length].
  { by rewrite Z.add_0_r. }
  rewrite IH. by replace (a + 1 + Z.of_nat (length l1)) with (a + Z.of_nat (S (length l1))) by lia.
Qed.
Lemma load_bytes_app n k a m :
  load_bytes (n + k) a m =
  (l1 ← load_bytes n a m; l2 ← load_bytes k (a + Z.of_nat n) m; Some (l1 ++ l2)).
Proof.
  revert a. induction n as [|n IH]; intros a.
  { cbn. rewrite Z.add_0_r. by destruct (load_bytes k a m). }
  cbn [Nat.add load_bytes]. destruct (m !! a) as [b|]; [|done]. cbn. rewrite IH.
  replace (a + 1 + Z.of_nat n) with (a + Z.of_nat (S n)) by lia.
  destruct (load_bytes n (a + 1) m); [|done]. cbn. by destruct (load_bytes k _ m).
Qed.
Lemma value_of_app l1 l2 :
  value_of (l1 ++ l2) = value_of l1 + 256 ^ Z.of_nat (length l1) * value_of l2.
Proof.
  induction l1 as [|b l1 IH]; cbn [app value_of length]; [lia|].
  rewrite IH, Nat2Z.inj_succ, Z.pow_succ_r by lia. ring.
Qed.

(** ** The allocator *)

Definition WSIZE : Z := 4.
Definition DSIZE : Z := 8.
Definition CHUNKSIZE : Z := 2 ^ 12.
Definition SEGLIST_COUNT : nat := 15.
Definition HEAP_BYTES : Z := 20 * 1024 * 1024.

(** [get_index]: the loop over the size classes. *)
Fixpoint index_loop (n i : nat) (size : Z) : nat :=
  match n with
  | O => (SEGLIST_COUNT - 1)%nat
  | S n' => if size <=? Z.shiftl 32 (Z.of_nat i) then i else index_loop n' (S i) size
  end.
Definition get_index (size : Z) : nat := index_loop (SEGLIST_COUNT - 1) 0 size.

(** The block size for a request, in [size_t]. *)
Definition adjusted (size : Z) : Z :=
  if size <=? DSIZE then 2 * DSIZE
  else wrap64 (DSIZE * (wrap64 (size + DSIZE + 7) / DSIZE)).

Definition PACK (size alloc : Z) : Z := Z.lor size alloc.
Definition HDRP (bp : Z) : Z := bp - WSIZE.

(** The bytes that were written, [mem_brk], [free_lists] and [heap_listp]. *)
Record state := State { mem : gmap Z Z; brk : Z; free_lists : list Z; heap_listp : Z }.

Definition set_mem (m : gmap Z Z) (s : state) : state :=
  State m (brk s) (free_lists s) (heap_listp s).
Definition set_lists (l : list Z) (s : state) : state :=
  State (mem s) (brk s) l (heap_listp s).

Section allocator.

(** The width of a pointer in bytes, and where [mem_init]'s block lies. *)
Context (W : nat) (mem_heap : Z).

Definition mem_init : state :=
  State ∅ mem_heap (replicate SEGLIST_COUNT 0) 0.

Definition valid (a : Z) (n : nat) : bool :=
  (mem_heap <=? a) && (a + Z.of_nat n <=? mem_heap + HEAP_BYTES).

Definition load (n : nat) (a : Z) : comp state Z := λ s,
  if valid a n then
    match load_bytes n a (mem s) with
    | Some bs => Some (Done (value_of bs), s)
    | None => Some (Undefined, s)
    end
  else Some (Undefined, s).
Definition store (n : nat) (a v : Z) : comp state unit := λ s,
  if valid a n then Some (Done (), set_mem (store_bytes a (bytes_of n v) (mem s)) s)
  else Some (Undefined, s).

Definition GET (p : Z) : comp state Z := load 4 p.
Definition PUT (p v : Z) : comp state unit := store 4 p v.
Definition GET_SIZE (p : Z) : comp state Z := v ← GET p; mret (Z.land v (2 ^ 32 - 8)).
Definition GET_ALLOC (p : Z) : comp state Z := v ← GET p; mret (Z.land v 1).
Definition FTRP (bp : Z) : comp state Z := n ← GET_SIZE (HDRP bp); mret (bp + n - DSIZE).
Definition NEXT_BLKP (bp : Z) : comp state Z := n ← GET_SIZE (bp - WSIZE); mret (bp + n).
Definition PREV_BLKP (bp : Z) : comp state Z := n ← GET_SIZE (bp - DSIZE); mret (bp - n).

Definition GET_PRED (bp : Z) : comp state Z := load W bp.
Definition GET_SUCC (bp : Z) : comp state Z := load W (bp + WSIZE).
Definition SET_PRED (bp v : Z) : comp state unit := store W bp v.
Definition SET_SUCC (bp v : Z) : comp state unit := store W (bp + WSIZE) v.

(** [free_lists[i]] *)
Definition get_head (i : nat) : comp state Z := λ s,
  match free_lists s !! i with
  | Some h => Some (Done h, s)
  | None => Some (Undefined, s)
  end.
Definition set_head (i : nat) (h : Z) : comp state unit := λ s,
  if (i <? length (free_lists s))%nat
  then Some (Done (), set_lists (<[i := h]> (free_lists s)) s)
  else Some (Undefined, s).

Definition mem_sbrk (incr : Z) : comp state Z := λ s,
  if incr <? 0 then Some (Done (-1), s)
  else Some (Done (brk s), State (mem s) (brk s + incr) (free_lists s) (heap_listp s)).

Definition insert_node (bp size : Z) : comp state unit :=
  let index := get_index size in
  head ← get_head index;
  SET_SUCC bp head ;;
  SET_PRED bp 0 ;;
  head ← get_head index;
  (if head =? 0 then mret () else SET_PRED head bp) ;;
  set_head index bp.

Definition delete_node (bp : Z) : comp state unit :=
  size ← GET_SIZE (HDRP bp);
  let index := get_index size in
  pred ← GET_PRED bp;
  succ ← GET_SUCC bp;
  (if pred =? 0 then set_head index succ else SET_SUCC pred succ) ;;
  succ ← GET_SUCC bp;
  if succ =? 0 then mret () else pred ← GET_PRED bp; SET_PRED succ pred.

(** [for (bp = head; bp != NULL; bp = GET_SUCC(bp)) if (asize <= ...) return bp;] *)
Fixpoint walk (fuel : nat) (asize bp : Z) : comp state (option Z) :=
  match fuel with
  | O => λ _, None
  | S fuel' =>
      if bp =? 0 then mret None
      else
        size ← GET_SIZE (HDRP bp);
        if asize <=? size then mret (Some bp)
        else succ ← GET_SUCC bp; walk fuel' asize succ
  end.

(** [for (i = index; i < SEGLIST_COUNT; i++)], [n] lists to go. *)
Fixpoint search (fuel n i : nat) (asize : Z) : comp state (option Z) :=
  match n with
  | O => mret None
  | S n' =>
      head ← get_head i;
      found ← walk fuel asize head;
      match found with
      | Some bp => mret (Some bp)
      | None => search fuel n' (S i) asize
      end
  end.
Definition find_fit (fuel : nat) (asize : Z) : comp state (option Z) :=
  let index := get_index asize in search fuel (SEGLIST_COUNT - index) index asize.

Definition write_tags (bp size alloc : Z) : comp state unit :=
  PUT (HDRP bp) (PACK size alloc) ;;
  footer ← FTRP bp;
  PUT footer (PACK size alloc).

Definition coalesce (bp : Z) : comp state Z :=
  prev ← PREV_BLKP bp;
  prev_footer ← FTRP prev;
  prev_alloc ← GET_ALLOC prev_footer;
  next ← NEXT_BLKP bp;
  next_alloc ← GET_ALLOC (HDRP next);
  size ← GET_SIZE (HDRP bp);
  before ← (if prev_alloc =? 0 then
              p ← PREV_BLKP bp;
              delete_node p ;;
              n ← GET_SIZE (HDRP p);
              write_tags p (size + n) 0 ;;
              mret (p, size + n)
            else mret (bp, size));
  let '(bp, size) := before : Z * Z in
  after ← (if next_alloc =? 0 then
             q ← NEXT_BLKP bp;
             delete_node q ;;
             n ← GET_SIZE (HDRP q);
             write_tags bp (size + n) 0 ;;
             mret (size + n)
           else mret size);
  insert_node bp after ;;
  mret bp.

(** [None] is the null pointer. *)
Definition extend_heap (words : Z) : comp state (option Z) :=
  let size := if words mod 2 =? 0 then words * WSIZE else (words + 1) * WSIZE in
  bp ← mem_sbrk (sext 32 size);
  if bp =? -1 then mret None
  else
    write_tags bp size 0 ;;
    next ← NEXT_BLKP bp;
    PUT (HDRP next) (PACK 0 1) ;;
    p ← coalesce bp;
    mret (Some p).

Definition mm_init : comp state Z :=
  modifies (set_lists (replicate SEGLIST_COUNT 0)) ;;
  p ← mem_sbrk (4 * WSIZE);
  if p =? -1 then mret (-1)
  else
    PUT p 0 ;;
    PUT (p + 1 * WSIZE) (PACK DSIZE 1) ;;
    PUT (p + 2 * WSIZE) (PACK DSIZE 1) ;;
    PUT (p + 3 * WSIZE) (PACK 0 1) ;;
    modifies (λ s, State (mem s) (brk s) (free_lists s) (p + 2 * WSIZE)) ;;
    bp ← extend_heap (CHUNKSIZE / WSIZE);
    mret (match bp with None => -1 | Some _ => 0 end).

Definition place (bp asize : Z) : comp state unit :=
  csize ← GET_SIZE (HDRP bp);
  delete_node bp ;;
  if 2 * DSIZE <=? csize - asize then
    write_tags bp asize 1 ;;
    next ← NEXT_BLKP bp;
    write_tags next (csize - asize) 0 ;;
    insert_node next (csize - asize)
  else write_tags bp csize 1.

(** The loops that [mm_malloc] writes out are those of [find_fit]. *)
Definition mm_malloc (fuel : nat) (size : Z) : comp state (option Z) :=
  if size =? 0 then mret None
  else
    let asize := adjusted size in
    found ← find_fit fuel asize;
    match found with
    | Some bp => place bp asize ;; mret (Some bp)
    | None =>
        let extendsize := Z.max asize CHUNKSIZE in
        bp ← extend_heap (extendsize / WSIZE);
        match bp with
        | None => mret None
        | Some bp => place bp asize ;; mret (Some bp)
        end
    end.

Definition mm_free (bp : Z) : comp state unit :=
  size ← GET_SIZE (HDRP bp);
  write_tags bp size 0 ;;
  coalesce bp ;;
  mret ().

(** [main]: the two addresses it prints. *)
Definition main (fuel : nat) : comp state (option (option Z * option Z)) :=
  r ← mm_init;
  if r <? 0 then mret None
  else
    p1 ← mm_malloc fuel 128;
    match p1 with
    | None => mret (Some (p1, None))
    | Some bp => mm_free bp ;; p2 ← mm_malloc fuel 128; mret (Some (p1, p2))
    end.

End allocator.

Example main_reuses :
  fst <$> main 4 4096 5 (mem_init 4096) = Some (Done (Some (Some 4112, Some 4112))) ∧
  fst <$> main 8 (2 ^ 46) 5 (mem_init (2 ^ 46)) =
    Some (Done (Some (Some (2 ^ 46 + 16), Some (2 ^ 46 + 16)))).
Proof. split; vm_compute; reflexivity. Qed.

(** ** Sizes *)

Lemma index_loop_spec n i size :
  (i + n = SEGLIST_COUNT - 1)%nat →
  let k := index_loop n i size in
  (i <= k <= SEGLIST_COUNT - 1)%nat ∧
  ((k < SEGLIST_COUNT - 1)%nat → size <= 32 * 2 ^ Z.of_nat k) ∧
  (∀ j, (i <= j < k)%nat → 32 * 2 ^ Z.of_nat j < size).
Proof.
  revert i. induction n as [|n IH]; intros i Hn; cbn [index_loop].
  { split; [lia|]. split; [lia|]. intros j Hj. lia. }
  rewrite Z.shiftl_mul_pow2 by lia.
  destruct (Z.leb_spec size (32 * 2 ^ Z.of_nat i)).
  { split; [lia|]. split; [done|]. intros j Hj. lia. }
  destruct (IH (S i)) as (H1 & H2 & H3); [lia|]. split; [lia|]. split; [done|].
  intros j Hj. destruct (decide (j = i)) as [->|]; [lia|]. apply H3. lia.
Qed.

(** The size classes and the block sizes.  [get_index] names one of the 15 lists,
    the first whose bound [32 * 2 ^ i] is large enough, the last one beyond them all.
    The block size for a request is a multiple of 8, at least 16, with room for the
    request, a header and a footer, and wastes at most 7 bytes behind 16; but
    [size + 15] wraps for the 15 largest requests, which get 0 or 8 bytes. *)
Theorem size_classes :
  (∀ size, let k := get_index size in
     (k < SEGLIST_COUNT)%nat ∧
     ((k < SEGLIST_COUNT - 1)%nat → size <= 32 * 2 ^ Z.of_nat k) ∧
     (∀ j, (j < k)%nat → 32 * 2 ^ Z.of_nat j < size)) ∧
  (∀ size, 0 < size < 2 ^ 64 - 15 →
     adjusted size mod 8 = 0 ∧ 2 * DSIZE <= adjusted size ∧
     size + DSIZE <= adjusted size <= size + 15) ∧
  (∀ size, 2 ^ 64 - 15 <= size < 2 ^ 64 → adjusted size <= 8).
Proof.
  split; [|split].
  - intros size k.
    pose proof (index_loop_spec (SEGLIST_COUNT - 1) 0 size eq_refl) as H. cbv zeta in H.
    fold (get_index size) in H. destruct H as (H1 & H2 & H3).
    split; [unfold k, SEGLIST_COUNT in *; lia|]. split; [exact H2|]. intros j Hj. apply H3. split; [lia|exact Hj].
  - intros size Hs. unfold adjusted, DSIZE, wrap64. destruct (Z.leb_spec size 8); [split; [done|lia]|].
    pose proof (Z.div_mod (size + 8 + 7) 8 ltac:(lia)).
    pose proof (Z.mod_pos_bound (size + 8 + 7) 8 ltac:(lia)).
    rewrite (Z.mod_small (size + 8 + 7)) by lia. rewrite (Z.mod_small (8 * _)) by lia.
    rewrite (Z.mul_comm 8), Z.mod_mul by lia. lia.
  - intros size Hs. unfold adjusted, DSIZE, wrap64.
    rewrite (proj2 (Z.leb_gt _ _)) by lia.
    replace ((size + 8 + 7) mod 2 ^ 64) with (size + 15 - 2 ^ 64).
    + assert (0 <= (size + 15 - 2 ^ 64) / 8 <= 1).
      { split; [apply Z.div_pos; lia|]. apply Z.lt_succ_r, Z.div_lt_upper_bound; lia. }
      rewrite (Z.mod_small (8 * _)) by lia. lia.
    + rewrite <-(Z.mod_small (size + 15 - 2 ^ 64) (2 ^ 64)) by lia.
      rewrite <-(Z.mod_add (size + 15 - 2 ^ 64) 1) by lia. f_equal. lia.
Qed.

(** ** Words of four bytes *)

Definition word (m : gmap Z Z) (a : Z) : option Z := value_of <$> load_bytes 4 a m.

Lemma word_store_same a v m :
  0 <= v < 2 ^ 32 → word (store_bytes a (bytes_of 4 v) m) a = Some v.
Proof.
  intros Hv. unfold word. rewrite load_store_same. cbn [fmap option_fmap option_map].
  rewrite value_bytes_of, Z.mod_small by done. done.
Qed.
Lemma word_store_other a v b m :
  4 <= Z.abs (b - a) → word (store_bytes a (bytes_of 4 v) m) b = word m b.
Proof. intros H. unfold word. rewrite load_store_other by lia. done. Qed.

(** ** The free lists with pointers of four bytes *)

Section ilp32.
Context (mem_heap : Z).
Context (heap_low : 0 < mem_heap) (heap_high : mem_heap + HEAP_BYTES <= 2 ^ 32).

(** A block whose two pointer fields lie in the heap. *)
Definition node (b : Z) : Prop := mem_heap <= b ∧ b + 8 <= mem_heap + HEAP_BYTES.

Definition first (n : Z) (l : list Z) : Z := default n (head l).
Definition final (p : Z) (l : list Z) : Z := default p (last l).

(** A doubly linked segment between [p] and [n]. *)
Fixpoint linked (m : gmap Z Z) (p : Z) (l : list Z) (n : Z) : Prop :=
  match l with
  | [] => True
  | b :: l' => word m b = Some p ∧ word m (b + 4) = Some (first n l') ∧ linked m b l' n
  end.

Lemma linked_app m p l1 l2 n :
  linked m p (l1 ++ l2) n ↔ linked m p l1 (first n l2) ∧ linked m (final p l1) l2 n.
Proof.
  revert p. induction l1 as [|b l1 IH]; intros p; cbn [app linked]; [unfold final; cbn; tauto|].
  rewrite IH. replace (final p (b :: l1)) with (final b l1).
  - destruct l1; cbn; tauto.
  - unfold final. destruct l1 as [|c l1]; [done|]. rewrite last_cons_cons.
    destruct (last (c :: l1)) eqn:E; [done|]. by apply last_None in E.
Qed.

Lemma linked_ext m m' p l n :
  (∀ b, b ∈ l → word m' b = word m b ∧ word m' (b + 4) = word m (b + 4)) →
  linked m p l n → linked m' p l n.
Proof.
  revert p. induction l as [|b l IH]; intros p H; cbn [linked]; [done|].
  destruct (H b ltac:(set_solver)) as [-> ->]. intros (? & ? & ?).
  split; [done|]. split; [done|]. apply IH; [set_solver|done].
Qed.

(** The fifteen lists: every block lies in the heap, is in one place of one list, and
    two blocks do not overlap. *)
Record lists_ok (s : state) (L : list (list Z)) : Prop := {
  ok_heads : free_lists s = first 0 <$> L;
  ok_linked : ∀ i l, L !! i = Some l → linked (mem s) 0 l 0;
  ok_node : ∀ i l b, L !! i = Some l → b ∈ l → node b;
  ok_nodup : ∀ i l, L !! i = Some l → NoDup l;
  ok_apart : ∀ i j l k b c, L !! i = Some l → L !! j = Some k → b ∈ l → c ∈ k →
    (i = j ∧ b = c) ∨ 8 <= Z.abs (b - c)
}.

Lemma valid_field b : node b → valid mem_heap b 4 = true ∧ valid mem_heap (b + 4) 4 = true.
Proof.
  unfold node, valid. intros [? ?]. split; apply andb_true_iff; split; apply Z.leb_le; lia.
Qed.

Lemma load_word a v s :
  valid mem_heap a 4 = true → word (mem s) a = Some v → load mem_heap 4 a s = Some (Done v, s).
Proof.
  intros Hv Hw. unfold load. rewrite Hv. unfold word in Hw.
  destruct (load_bytes 4 a (mem s)); [|done]. by injection Hw as ->.
Qed.

Lemma store_word a v s :
  valid mem_heap a 4 = true →
  store mem_heap 4 a v s = Some (Done (), set_mem (store_bytes a (bytes_of 4 v) (mem s)) s).
Proof. intros Hv. unfold store. by rewrite Hv. Qed.

(** What a change of the memory must keep for the blocks of a list. *)
Definition same_fields (m m' : gmap Z Z) (b : Z) : Prop :=
  word m' b = word m b ∧ word m' (b + 4) = word m (b + 4).

(** Storing into one field of a block leaves the blocks apart from it alone. *)
Lemma store_field_other a v b c m :
  8 <= Z.abs (b - c) → a = b ∨ a = b + 4 → same_fields m (store_bytes a (bytes_of 4 v) m) c.
Proof. intros Hbc Ha. split; apply word_store_other; lia. Qed.

Lemma same_fields_trans m1 m2 m3 b :
  same_fields m1 m2 b → same_fields m2 m3 b → same_fields m1 m3 b.
Proof. unfold same_fields. intros [? ?] [? ?]. split; congruence. Qed.

(** A segment whose head gets a new predecessor. *)
Lemma linked_new_pred m p q b l n :
  (∀ c, c ∈ l → 8 <= Z.abs (b - c)) → 0 <= q < 2 ^ 32 →
  linked m p (b :: l) n → linked (store_bytes b (bytes_of 4 q) m) q (b :: l) n.
Proof.
  intros Hl Hq (? & ? & ?). cbn [linked]. split; [by apply word_store_same|].
  split; [rewrite word_store_other by lia; done|].
  apply (linked_ext m); [|done]. intros c Hc. apply (store_field_other b q b); auto.
Qed.

(** A segment whose last block gets a new successor. *)
Lemma linked_new_succ m p q l b n n' :
  (∀ c, c ∈ l → 8 <= Z.abs (b - c)) → 0 <= q < 2 ^ 32 → n' = q →
  linked m p (l ++ [b]) n → linked (store_bytes (b + 4) (bytes_of 4 q) m) p (l ++ [b]) n'.
Proof.
  intros Hl Hq -> H. apply linked_app in H as [H1 H2]. apply linked_app. split.
  - apply (linked_ext m); [|done]. intros c Hc. apply (store_field_other (b + 4) q b); auto.
  - cbn [linked first] in *. destruct H2 as (? & _ & _). split; [rewrite word_store_other by lia; done|].
    split; [by apply word_store_same|done].
Qed.

Lemma first_head (L : list (list Z)) (i : nat) (l : list Z) : L !! i = Some l → (first 0 <$> L) !! i = Some (first 0 l).
Proof. intros H. by rewrite list_lookup_fmap, H. Qed.

Lemma node_addr b : node b → 0 < b ∧ 0 <= b < 2 ^ 32.
Proof. unfold node. lia. Qed.

(** The memory behind an insertion in front of [l]. *)
Definition pushed (m : gmap Z Z) (bp : Z) (l : list Z) : gmap Z Z :=
  let m2 := store_bytes bp (bytes_of 4 0) (store_bytes (bp + 4) (bytes_of 4 (first 0 l)) m) in
  match l with [] => m2 | h :: _ => store_bytes h (bytes_of 4 bp) m2 end.

Lemma seg_insert_run s L bp size l :
  lists_ok s L → node bp → L !! get_index size = Some l →
  insert_node 4 mem_heap bp size s =
  Some (Done (), State (pushed (mem s) bp l) (brk s)
                       (<[get_index size := bp]> (free_lists s)) (heap_listp s)).
Proof.
  intros Hok Hbp HL. pose proof (first_head _ _ _ HL) as Hh. rewrite <-(ok_heads _ _ Hok) in Hh.
  destruct (valid_field bp Hbp) as [V1 V2].
  unfold insert_node, get_head, set_head, SET_SUCC, SET_PRED, WSIZE, mbind, comp_bind.
  rewrite Hh, (store_word (bp + 4)), (store_word bp) by done. cbn [free_lists set_mem mem].
  rewrite Hh. apply lookup_lt_Some in Hh as Hlt.
  destruct l as [|h l]; cbn [first head default pushed]; unfold first; cbn [head default].
  - rewrite Z.eqb_refl. unfold mret, comp_ret. cbn [free_lists set_mem]. by rewrite (proj2 (Nat.ltb_lt _ _)).
  - assert (node h) as Hn by (eapply (ok_node _ _ Hok); [done|set_solver]).
    destruct (valid_field h Hn) as [V3 _]. cbn [from_option id].
    rewrite (proj2 (Z.eqb_neq h 0)) by (pose proof (node_addr h Hn); lia).
    rewrite store_word by done. cbn [free_lists set_mem mem].
    by rewrite (proj2 (Nat.ltb_lt _ _)).
Qed.

Lemma pushed_other m bp l c :
  8 <= Z.abs (bp - c) → (∀ h, head l = Some h → 8 <= Z.abs (h - c)) →
  same_fields m (pushed m bp l) c.
Proof.
  intros Hb Hh.
  assert (same_fields m (store_bytes bp (bytes_of 4 0)
            (store_bytes (bp + 4) (bytes_of 4 (first 0 l)) m)) c) as H2.
  { eapply same_fields_trans; eapply store_field_other; eauto. }
  unfold pushed. destruct l as [|h l]; [done|].
  eapply same_fields_trans; [exact H2|]. eapply store_field_other; [by apply Hh|by left].
Qed.

Lemma pushed_linked m bp l :
  node bp → (∀ c, c ∈ l → node c ∧ 8 <= Z.abs (bp - c)) →
  (∀ h l', l = h :: l' → ∀ c, c ∈ l' → 8 <= Z.abs (h - c)) →
  linked m 0 l 0 → linked (pushed m bp l) 0 (bp :: l) 0.
Proof.
  intros Hbp Hl Hh H. unfold pushed.
  set (m1 := store_bytes (bp + 4) _ m). set (m2 := store_bytes bp _ m1).
  assert (word m2 bp = Some 0) as E1 by (apply word_store_same; lia).
  assert (word m2 (bp + 4) = Some (first 0 l)) as E2.
  { unfold m2. rewrite word_store_other by lia. apply word_store_same.
    destruct l as [|h l]; cbn; [lia|]. apply node_addr, Hl. set_solver. }
  destruct l as [|h l]; [done|].
  assert (linked m2 0 (h :: l) 0) as H2.
  { apply (linked_ext m); [|done]. intros c Hc.
    destruct (Hl c Hc) as [_ Hd].
    apply (same_fields_trans _ m1);
      [apply (store_field_other (bp + 4) _ bp)|apply (store_field_other bp _ bp)]; auto. }
  destruct (Hl h) as [Hn Hd]; [set_solver|].
  split; [rewrite word_store_other by lia; exact E1|].
  split; [rewrite word_store_other by lia; exact E2|].
  apply (linked_new_pred m2 0); [by apply (Hh h l)|by apply node_addr|done].
Qed.

Lemma insert_pushes s L bp size l :
  lists_ok s L → node bp → L !! get_index size = Some l →
  (∀ i k c, L !! i = Some k → c ∈ k → 8 <= Z.abs (bp - c)) →
  ∃ s', insert_node 4 mem_heap bp size s = Some (Done (), s') ∧
    lists_ok s' (<[get_index size := bp :: l]> L) ∧
    brk s' = brk s ∧ heap_listp s' = heap_listp s ∧
    ∀ a, (∀ b, b = bp ∨ head l = Some b → a < b ∨ b + 8 <= a) → mem s' !! a = mem s !! a.
Proof.
  intros Hok Hbp HL Hap. rewrite (seg_insert_run s L bp size l) by done.
  eexists. split; [done|]. cbn [brk heap_listp mem].
  split; [|split; [done|split; [done|]]].
  - set (i := get_index size) in *. apply lookup_lt_Some in HL as Hlt.
    assert (∀ j k, <[i := bp :: l]> L !! j = Some k →
              (j = i ∧ k = bp :: l) ∨ (j ≠ i ∧ L !! j = Some k)) as Hcase.
    { intros j k. destruct (decide (j = i)) as [->|].
      - rewrite list_lookup_insert_eq by done. intros [= <-]. by left.
      - rewrite list_lookup_insert_ne by done. by right. }
    constructor; cbn [free_lists mem].
    + by rewrite list_fmap_insert, (ok_heads _ _ Hok).
    + intros j k [[-> ->]|[Hj Hk]]%Hcase.
      * apply pushed_linked; [done| | |by apply (ok_linked _ _ Hok i)].
        -- intros c Hc. split; [by apply (ok_node _ _ Hok i l)|by apply (Hap i l)].
        -- intros h l' -> c Hc. destruct (ok_apart _ _ Hok i i (h :: l') (h :: l') h c)
             as [[_ <-]|?]; [done|done|set_solver|set_solver| |done].
           pose proof (ok_nodup _ _ Hok _ _ HL) as Hnd. by apply NoDup_cons in Hnd as [? _].
      * apply (linked_ext (mem s)); [|by apply (ok_linked _ _ Hok j)].
        intros c Hc. apply pushed_other; [by apply (Hap j k)|]. intros h Hh.
        destruct (ok_apart _ _ Hok i j l k h c) as [[<- _]|?]; try done.
        destruct l; [done|]. injection Hh as ->. set_solver.
    + intros j k b [[-> ->]|[_ Hk]]%Hcase Hb; [|by apply (ok_node _ _ Hok j k)].
      apply elem_of_cons in Hb as [->|Hb]; [done|by apply (ok_node _ _ Hok i l)].
    + intros j k [[-> ->]|[_ Hk]]%Hcase; [|by apply (ok_nodup _ _ Hok j)].
      apply NoDup_cons. split; [|by apply (ok_nodup _ _ Hok i)].
      intros Hin. specialize (Hap i l bp HL Hin). lia.
    + intros j j' k k' b c Hk Hk' Hb Hc. apply Hcase in Hk, Hk'.
      assert (∀ j k c, (j = i ∧ k = bp :: l) ∨ (j ≠ i ∧ L !! j = Some k) → c ∈ k →
                (j = i ∧ c = bp) ∨ ∃ k0, L !! j = Some k0 ∧ c ∈ k0) as Hin.
      { intros ? ? d [[-> ->]|[? ?]] Hd; [|right; eauto].
        apply elem_of_cons in Hd as [->|?]; [by left|right; eauto]. }
      destruct (Hin _ _ _ Hk Hb) as [[-> ->]|(k0 & Hk0 & Hb0)];
        destruct (Hin _ _ _ Hk' Hc) as [[-> ->]|(k1 & Hk1 & Hc1)]; [by left|..].
      * right. by apply (Hap j' k1).
      * right. rewrite <-Z.abs_opp, Z.opp_sub_distr, Z.add_comm. by apply (Hap j k0).
      * by apply (ok_apart _ _ Hok j j' k0 k1).
  - intros a Ha. unfold pushed.
    assert (∀ x v m, (a < x ∨ x + 4 <= a) → store_bytes x (bytes_of 4 v) m !! a = m !! a) as Hst.
    { intros x v m Hx. rewrite lookup_store_bytes, length_bytes_of, decide_False by lia. done. }
    pose proof (Ha bp (or_introl eq_refl)).
    destruct l as [|h l]; [|pose proof (Ha h (or_intror eq_refl))]; by rewrite !Hst by lia.
Qed.

(** The memory behind the removal of a block between [l1] and [l2]. *)
Definition removed (m : gmap Z Z) (l1 l2 : list Z) : gmap Z Z :=
  let m1 := match last l1 with
            | Some p => store_bytes (p + 4) (bytes_of 4 (first 0 l2)) m
            | None => m
            end in
  match l2 with q :: _ => store_bytes q (bytes_of 4 (final 0 l1)) m1 | [] => m1 end.

Lemma removed_other m l1 l2 c :
  (∀ p, last l1 = Some p → 8 <= Z.abs (p - c)) → (∀ q, head l2 = Some q → 8 <= Z.abs (q - c)) →
  same_fields m (removed m l1 l2) c.
Proof.
  intros Hp Hq. unfold removed.
  assert (same_fields m (match last l1 with
            | Some p => store_bytes (p + 4) (bytes_of 4 (first 0 l2)) m | None => m end) c).
  { destruct (last l1) as [p|]; [|done]. apply (store_field_other _ _ p); auto. }
  destruct l2 as [|q l2]; [done|]. eapply same_fields_trans; [done|].
  apply (store_field_other _ _ q); auto.
Qed.

Lemma removed_linked m l1 bp l2 :
  (∀ c, c ∈ l1 ++ bp :: l2 → node c) → NoDup (l1 ++ bp :: l2) →
  (∀ b c, b ∈ l1 ++ bp :: l2 → c ∈ l1 ++ bp :: l2 → b ≠ c → 8 <= Z.abs (b - c)) →
  linked m 0 (l1 ++ bp :: l2) 0 → linked (removed m l1 l2) 0 (l1 ++ l2) 0.
Proof.
  intros Hn Hnd Hap H. apply linked_app in H as [H1 (_ & _ & H2)].
  apply NoDup_app in Hnd as (Hnd1 & Hd12 & [Hb2 Hnd2]%NoDup_cons).
  assert (∀ l, (∀ c, c ∈ l → c ∈ l1 ++ bp :: l2) → 0 <= first 0 l < 2 ^ 32 ∧ 0 <= final 0 l < 2 ^ 32)
    as Hrange.
  { intros l Hl. split.
    - destruct l as [|x l]; cbn; [lia|]. apply node_addr, Hn, Hl. set_solver.
    - unfold final. destruct (last l) as [x|] eqn:E; cbn; [|lia].
      apply node_addr, Hn, Hl. by apply last_Some_elem_of. }
  apply linked_app. unfold removed.
  set (m1 := match last l1 with Some p => _ | None => m end).
  assert (linked m1 0 l1 (first 0 l2) ∧ linked m1 bp l2 0) as [E1 E2].
  { unfold m1. destruct l1 as [|p l1 _] using rev_ind; [done|]. rewrite last_snoc. split.
    - apply (linked_new_succ _ _ (first 0 l2) l1 p bp); [|apply Hrange; set_solver|done|done].
      intros c Hc. apply Hap; [set_solver..|]. intros ->.
      apply NoDup_app in Hnd1 as (_ & Hnd1 & _). apply (Hnd1 c); set_solver.
    - apply (linked_ext m); [|done]. intros c Hc.
      apply (store_field_other _ _ p); [|by right]. apply Hap; [set_solver..|].
      intros ->. apply (Hd12 c); set_solver. }
  destruct l2 as [|q l2]; [done|]. split.
  - apply (linked_ext m1); [|done]. intros c Hc.
    apply (store_field_other _ _ q); [|by left]. apply Hap; [set_solver..|].
    intros ->. apply (Hd12 c); set_solver.
  - apply (linked_new_pred m1 bp); [|apply Hrange; set_solver|done].
    intros c Hc. apply Hap; [set_solver..|]. intros ->. by apply NoDup_cons in Hnd2 as [? _].
Qed.

Lemma seg_delete_run s L i l1 bp l2 h :
  lists_ok s L → L !! i = Some (l1 ++ bp :: l2) →
  valid mem_heap (bp - 4) 4 = true → word (mem s) (bp - 4) = Some h →
  get_index (Z.land h (2 ^ 32 - 8)) = i →
  delete_node 4 mem_heap bp s =
  Some (Done (), State (removed (mem s) l1 l2) (brk s)
                       (if l1 then <[i := first 0 l2]> (free_lists s) else free_lists s)
                       (heap_listp s)).
Proof.
  intros Hok HL Vh Wh Hi.
  pose proof (ok_linked _ _ Hok _ _ HL) as H. apply linked_app in H as [_ (Wp & Ws & _)].
  assert (∀ c, c ∈ l1 ++ bp :: l2 → node c) as Hn by eauto using ok_node.
  pose proof (ok_nodup _ _ Hok _ _ HL) as Hnd.
  apply NoDup_app in Hnd as (_ & Hd12 & [Hb2 _]%NoDup_cons).
  destruct (valid_field bp) as [V1 V2]; [apply Hn; set_solver|].
  assert (i < length (free_lists s))%nat as Hlt.
  { rewrite (ok_heads _ _ Hok), length_fmap. by eapply lookup_lt_Some. }
  unfold delete_node, GET_SIZE, GET, HDRP, GET_PRED, GET_SUCC, SET_PRED, WSIZE.
  unfold mbind, comp_bind, mret, comp_ret.
  rewrite (load_word (bp - 4) h) by done. rewrite Hi.
  rewrite (load_word bp (final 0 l1)), (load_word (bp + 4) (first 0 l2)) by done.
  assert (∀ c, c ∈ l1 ++ bp :: l2 → c ≠ bp → 8 <= Z.abs (c - bp)) as Hap.
  { intros c Hc Hne. destruct (ok_apart _ _ Hok i i _ _ c bp HL HL) as [[_ ?]|?];
      [done|set_solver|done|done]. }
  (* the first half: the state [s1], in which the block's own fields still stand *)
  set (m1 := match last l1 with
             | Some p => store_bytes (p + 4) (bytes_of 4 (first 0 l2)) (mem s) | None => mem s end).
  set (s1 := State m1 (brk s) (if l1 then <[i := first 0 l2]> (free_lists s) else free_lists s)
                   (heap_listp s)).
  assert ((if final 0 l1 =? 0 then set_head i (first 0 l2)
           else SET_SUCC 4 mem_heap (final 0 l1) (first 0 l2)) s = Some (Done (), s1)) as ->.
  { unfold s1, m1, set_head, SET_SUCC, WSIZE. destruct l1 as [|p l1 _] using rev_ind.
    - unfold final. cbn [last default from_option id]. rewrite Z.eqb_refl.
      by rewrite (proj2 (Nat.ltb_lt _ _)).
    - unfold final. rewrite last_snoc. cbn [default from_option id].
      assert (node p) as Np by (apply Hn; set_solver). destruct (valid_field p Np) as [_ Vp].
      rewrite (proj2 (Z.eqb_neq _ _)) by (pose proof (node_addr p Np); lia).
      rewrite store_word by done. destruct l1; done. }
  assert (same_fields (mem s) m1 bp) as [Ep Es].
  { unfold m1. destruct (last l1) as [p|] eqn:El; [|done].
    apply last_Some_elem_of in El as El'.
    apply (store_field_other _ _ p); [|by right]. apply Hap; [set_solver|].
    intros ->. apply (Hd12 bp); set_solver. }
  rewrite (load_word (bp + 4) (first 0 l2) s1) by (done || exact (eq_trans Es Ws)).
  unfold removed. fold m1. destruct l2 as [|q l2]; [done|].
  assert (node q) as Nq by (apply Hn; set_solver). destruct (valid_field q Nq) as [Vq _].
  cbn [first head default from_option id]. unfold first. cbn [head default from_option id].
  rewrite (proj2 (Z.eqb_neq q 0)) by (pose proof (node_addr q Nq); lia).
  rewrite (load_word bp (final 0 l1) s1) by (done || exact (eq_trans Ep Wp)).
  rewrite store_word by done. done.
Qed.

Lemma delete_removes s L i l1 bp l2 h :
  lists_ok s L → L !! i = Some (l1 ++ bp :: l2) →
  valid mem_heap (bp - 4) 4 = true → word (mem s) (bp - 4) = Some h →
  get_index (Z.land h (2 ^ 32 - 8)) = i →
  ∃ s', delete_node 4 mem_heap bp s = Some (Done (), s') ∧
    lists_ok s' (<[i := l1 ++ l2]> L) ∧
    brk s' = brk s ∧ heap_listp s' = heap_listp s ∧
    ∀ a, (∀ b, last l1 = Some b ∨ head l2 = Some b → a < b ∨ b + 8 <= a) →
         mem s' !! a = mem s !! a.
Proof.
  intros Hok HL Vh Wh Hi. rewrite (seg_delete_run s L i l1 bp l2 h) by done.
  eexists. split; [done|]. cbn [brk heap_listp mem].
  split; [|split; [done|split; [done|]]].
  - apply lookup_lt_Some in HL as Hlt.
    assert (∀ j k, <[i := l1 ++ l2]> L !! j = Some k →
              (j = i ∧ k = l1 ++ l2) ∨ (j ≠ i ∧ L !! j = Some k)) as Hcase.
    { intros j k. destruct (decide (j = i)) as [->|].
      - rewrite list_lookup_insert_eq by done. intros [= <-]. by left.
      - rewrite list_lookup_insert_ne by done. by right. }
    assert (∀ j k, <[i := l1 ++ l2]> L !! j = Some k →
              ∃ k0, L !! j = Some k0 ∧ k ⊆ k0) as Hsub.
    { intros j k [[-> ->]|[_ ?]]%Hcase; [|eauto]. exists (l1 ++ bp :: l2). set_solver. }
    constructor; cbn [free_lists mem].
    + rewrite list_fmap_insert. destruct l1 as [|p l1]; [by rewrite (ok_heads _ _ Hok)|].
      rewrite (ok_heads _ _ Hok). symmetry. apply list_insert_id.
      by rewrite list_lookup_fmap, HL.
    + intros j k [[-> ->]|[Hj Hk]]%Hcase.
      * apply (removed_linked _ _ bp); [intros c; by apply (ok_node _ _ Hok i)
          |by apply (ok_nodup _ _ Hok i)| |by apply (ok_linked _ _ Hok i)].
        intros b c Hb Hc Hne. by destruct (ok_apart _ _ Hok i i _ _ b c HL HL) as [[_ ?]|?].
      * apply (linked_ext (mem s)); [|by apply (ok_linked _ _ Hok j)].
        intros c Hc. apply removed_other.
        -- intros p Hp. apply last_Some_elem_of in Hp.
           destruct (ok_apart _ _ Hok i j _ k p c HL Hk) as [[<- _]|?]; set_solver.
        -- intros q Hq. apply head_Some_elem_of in Hq.
           destruct (ok_apart _ _ Hok i j _ k q c HL Hk) as [[<- _]|?]; set_solver.
    + intros j k b Hk Hb. destruct (Hsub _ _ Hk) as (k0 & Hk0 & Hin).
      by apply (ok_node _ _ Hok j k0), Hin.
    + intros j k [[-> ->]|[_ Hk]]%Hcase; [|by apply (ok_nodup _ _ Hok j)].
      pose proof (ok_nodup _ _ Hok _ _ HL) as Hnd.
      apply NoDup_app in Hnd as (? & Hd & [_ ?]%NoDup_cons).
      apply NoDup_app. split; [done|]. split; [|done]. set_solver.
    + intros j j' k k' b c Hk Hk' Hb Hc.
      destruct (Hsub _ _ Hk) as (k0 & Hk0 & H0). destruct (Hsub _ _ Hk') as (k1 & Hk1 & H1).
      apply (ok_apart _ _ Hok j j' k0 k1); auto.
  - intros a Ha. unfold removed.
    assert (∀ x v m, (a < x ∨ x + 4 <= a) → store_bytes x (bytes_of 4 v) m !! a = m !! a) as Hst.
    { intros x v m Hx. rewrite lookup_store_bytes, length_bytes_of, decide_False by lia. done. }
    destruct l2 as [|q l2]; [|pose proof (Ha q (or_intror eq_refl)); rewrite Hst by lia];
      (destruct (last l1) as [p|] eqn:E; [|done]);
      pose proof (Ha p (or_introl eq_refl)); by rewrite Hst by lia.
Qed.

(** Every free block has a readable header. *)
Definition headers (s : state) (L : list (list Z)) (hdr : Z → Z) : Prop :=
  ∀ i l b, L !! i = Some l → b ∈ l →
    valid mem_heap (b - 4) 4 = true ∧ word (mem s) (b - 4) = Some (hdr b).
Definition large_enough (hdr : Z → Z) (asize b : Z) : bool :=
  asize <=? Z.land (hdr b) (2 ^ 32 - 8).

Lemma walk_finds s p l hdr asize fuel :
  linked (mem s) p l 0 →
  (∀ b, b ∈ l → node b ∧ valid mem_heap (b - 4) 4 = true ∧ word (mem s) (b - 4) = Some (hdr b)) →
  (length l < fuel)%nat →
  walk 4 mem_heap fuel asize (first 0 l) s =
  Some (Done (List.find (large_enough hdr asize) l), s).
Proof.
  revert p fuel. induction l as [|b l IH]; intros p [|fuel] Hl Hb Hf; [cbn in Hf; lia|done|cbn in Hf; lia|].
  destruct (Hb b) as (Nb & Vh & Wh); [apply elem_of_cons; by left|]. destruct Hl as (_ & Ws & Hl).
  destruct (valid_field b Nb) as [_ Vs]. cbn [walk first head default from_option id].
  unfold first. cbn [head default from_option id].
  rewrite (proj2 (Z.eqb_neq b 0)) by (pose proof (node_addr b Nb); lia).
  unfold GET_SIZE, GET, HDRP, GET_SUCC, WSIZE, mbind, comp_bind, mret, comp_ret.
  rewrite (load_word (b - 4) (hdr b)) by done. cbn [List.find].
  change (asize <=? Z.land (hdr b) (2 ^ 32 - 8)) with (large_enough hdr asize b).
  destruct (large_enough hdr asize b); [done|].
  rewrite (load_word (b + 4) (first 0 l)) by done.
  cbn [length] in Hf. apply (IH b); [done| |lia].
  intros c Hc. apply Hb, elem_of_cons. by right.
Qed.

Lemma find_app {A} (f : A → bool) l k :
  List.find f (l ++ k) = match List.find f l with Some x => Some x | None => List.find f k end.
Proof. induction l as [|x l IH]; cbn; [done|]. by destruct (f x). Qed.

Lemma search_finds s L hdr asize fuel n i :
  lists_ok s L → headers s L hdr → (i + n = length L)%nat →
  (∀ l, l ∈ L → (length l < fuel)%nat) →
  search 4 mem_heap fuel n i asize s =
  Some (Done (List.find (large_enough hdr asize) (concat (drop i L))), s).
Proof.
  intros Hok Hh. revert i. induction n as [|n IH]; intros i Hi Hf; cbn [search].
  { rewrite drop_ge by lia. done. }
  destruct (lookup_lt_is_Some_2 L i) as [l Hl]; [lia|].
  pose proof (first_head _ _ _ Hl) as Hhd. rewrite <-(ok_heads _ _ Hok) in Hhd.
  rewrite (drop_S _ _ _ Hl). cbn [concat]. rewrite find_app.
  unfold get_head at 1. unfold mbind at 1, comp_bind at 1. rewrite Hhd.
  unfold mbind at 1, comp_bind at 1.
  rewrite (walk_finds s 0 l hdr).
  - destruct (List.find _ l); [done|]. apply IH; [lia|done].
  - by apply (ok_linked _ _ Hok i).
  - intros b Hb. split; [by apply (ok_node _ _ Hok i l)|]. by apply (Hh i l).
  - apply Hf. by eapply list_elem_of_lookup_2.
Qed.

(** C23. With pointers of four bytes the free lists of flsp.c are what they mean to be.
    On memory that represents the sequences [L], [insert_node] puts a block in front
    of the sequence of its size class, [delete_node] takes exactly that block out of
    the middle of its sequence, and [find_fit] ends and returns the first block, in
    the order of the lists from the request's class on, that is large enough; no
    other list and no byte outside the touched blocks' pointer fields changes. *)
Theorem free_lists_refine s L :
  lists_ok s L → length L = SEGLIST_COUNT →
  (∀ bp size l, node bp → L !! get_index size = Some l →
     (∀ i k c, L !! i = Some k → c ∈ k → 8 <= Z.abs (bp - c)) →
     ∃ s', insert_node 4 mem_heap bp size s = Some (Done (), s') ∧
       lists_ok s' (<[get_index size := bp :: l]> L) ∧
       ∀ a, (∀ b, b = bp ∨ head l = Some b → a < b ∨ b + 8 <= a) → mem s' !! a = mem s !! a) ∧
  (∀ i l1 bp l2 h, L !! i = Some (l1 ++ bp :: l2) →
     valid mem_heap (bp - 4) 4 = true → word (mem s) (bp - 4) = Some h →
     get_index (Z.land h (2 ^ 32 - 8)) = i →
     ∃ s', delete_node 4 mem_heap bp s = Some (Done (), s') ∧
       lists_ok s' (<[i := l1 ++ l2]> L) ∧
       ∀ a, (∀ b, last l1 = Some b ∨ head l2 = Some b → a < b ∨ b + 8 <= a) →
            mem s' !! a = mem s !! a) ∧
  (∀ asize hdr fuel, headers s L hdr → (∀ l, l ∈ L → (length l < fuel)%nat) →
     find_fit 4 mem_heap fuel asize s =
     Some (Done (List.find (large_enough hdr asize) (concat (drop (get_index asize) L))), s)).
Proof.
  intros Hok Hlen. split; [|split].
  - intros bp size l Hbp HL Hap.
    destruct (insert_pushes s L bp size l) as (s' & ? & ? & _ & _ & ?); [done..|by exists s'].
  - intros i l1 bp l2 h HL Vh Wh Hi.
    destruct (delete_removes s L i l1 bp l2 h) as (s' & ? & ? & _ & _ & ?); [done..|by exists s'].
  - intros asize hdr fuel Hh Hf. apply search_finds; [done..| |done]. rewrite Hlen.
    pose proof (index_loop_spec (SEGLIST_COUNT - 1) 0 asize eq_refl) as H. cbv zeta in H.
    fold (get_index asize) in H. unfold SEGLIST_COUNT in *. lia.
Qed.

End ilp32.

Lemma no_blocks (mem_heap : Z) : lists_ok mem_heap (mem_init mem_heap) (replicate SEGLIST_COUNT []).
Proof.
  constructor; [done|..].
  all: intros ? ?; intros; repeat match goal with
    | H : replicate _ _ !! _ = Some _ |- _ => apply lookup_replicate in H as [-> _]
    end; try done; try apply NoDup_nil_2; set_solver.
Qed.

(** The first block of a heap at address 4096. *)
Lemma free_lists_refine_witness :
  ∃ s', insert_node 4 4096 4112 4096 (mem_init 4096) = Some (Done (), s') ∧
    lists_ok 4096 s' (<[get_index 4096 := [4112]]> (replicate SEGLIST_COUNT [])) ∧
    ∀ a, (∀ b, b = 4112 ∨ head (@nil Z) = Some b → a < b ∨ b + 8 <= a) →
         mem s' !! a = mem (mem_init 4096) !! a.
Proof.
  apply (proj1 (free_lists_refine 4096 ltac:(lia) ltac:(unfold HEAP_BYTES; lia) (mem_init 4096)
                  (replicate SEGLIST_COUNT []) (no_blocks 4096) eq_refl)).
  - unfold node, HEAP_BYTES. lia.
  - done.
  - intros i k c [-> _]%lookup_replicate Hc. set_solver.
Defined.

(** ** Pointers of eight bytes *)

Section lp64.
Context (mem_heap : Z).

(** Two stores of eight bytes four bytes apart: the second cuts the first in half. *)
Lemma overlap_load a v m :
  0 <= v < 2 ^ 64 →
  let m' := store_bytes a (bytes_of 8 0) (store_bytes (a + 4) (bytes_of 8 v) m) in
  value_of <$> load_bytes 8 (a + 4) m' = Some (v - v mod 2 ^ 32) ∧
  value_of <$> load_bytes 4 (a + 8) m' = Some (v / 2 ^ 32).
Proof.
  intros Hv m'.
  assert (m' = store_bytes a (bytes_of 4 0) (store_bytes (a + 4) (bytes_of 4 0)
                 (store_bytes (a + 4) (bytes_of 4 v)
                    (store_bytes (a + 8) (bytes_of 4 (v / 2 ^ 32)) m)))) as ->.
  { unfold m'. change 8%nat with (4 + 4)%nat. rewrite !bytes_of_app, !store_bytes_app.
    rewrite !length_bytes_of. change (256 ^ Z.of_nat 4) with (2 ^ 32).
    rewrite Z.div_0_l by lia. by replace (a + 4 + Z.of_nat 4) with (a + 8) by lia. }
  assert (0 <= v / 2 ^ 32 < 2 ^ 32) as Hq.
  { split; [apply Z.div_pos; lia|apply Z.div_lt_upper_bound; lia]. }
  assert (∀ n, load_bytes 4 (a + 8) (store_bytes a (bytes_of 4 0)
            (store_bytes (a + 4) (bytes_of 4 0) (store_bytes (a + 4) (bytes_of 4 v)
               (store_bytes (a + 8) (bytes_of 4 (v / 2 ^ 32)) n)))) =
            Some (bytes_of 4 (v / 2 ^ 32))) as E2.
  { intros n. rewrite !load_store_other by lia. apply load_store_same. }
  split.
  - change 8%nat with (4 + 4)%nat. rewrite load_bytes_app.
    replace (a + 4 + Z.of_nat 4) with (a + 8) by lia. rewrite E2.
    rewrite (load_store_other 4 a 0 4 (a + 4)), load_store_same by lia.
    cbn [mbind option_bind fmap option_fmap option_map].
    rewrite value_of_app, length_bytes_of, !value_bytes_of.
    change (256 ^ Z.of_nat 4) with (2 ^ 32). rewrite (Z.mod_small (v / _)) by done.
    pose proof (Z.div_mod v (2 ^ 32) ltac:(lia)). rewrite Z.mod_0_l by lia. f_equal. lia.
  - rewrite E2. cbn [fmap option_fmap option_map].
    rewrite value_bytes_of. change (256 ^ Z.of_nat 4) with (2 ^ 32). by rewrite Z.mod_small.
Qed.

(** The program of the failing run: three blocks of [n] bytes and a fourth behind them,
    of which the first and the second or third go back, then a request for [r] bytes. *)
Definition three_requests (W : nat) (n r : Z) (second_too : bool) : comp state (option Z) :=
  mm_init W mem_heap ;;
  a ← mm_malloc W mem_heap 5 n;
  b ← mm_malloc W mem_heap 5 n;
  c ← mm_malloc W mem_heap 5 n;
  mm_malloc W mem_heap 5 n ;;
  mm_free W mem_heap (default 0 a) ;;
  mm_free W mem_heap (default 0 (if second_too then b else c)) ;;
  mm_malloc W mem_heap 5 r.

Lemma insert_cuts s bp size h :
  free_lists s !! get_index size = Some h → 0 <= h < 2 ^ 64 →
  mem_heap <= bp → bp + 12 <= mem_heap + HEAP_BYTES →
  (h ≠ 0 → valid mem_heap h 8 = true ∧ 12 <= Z.abs (h - bp)) →
  ∃ s', insert_node 8 mem_heap bp size s = Some (Done (), s') ∧
    GET_SUCC 8 mem_heap bp s' = Some (Done (h - h mod 2 ^ 32), s') ∧
    GET mem_heap (bp + 8) s' = Some (Done (h / 2 ^ 32), s').
Proof.
  intros Hh Hr H1 H2 Hv. apply lookup_lt_Some in Hh as Hlt.
  assert (valid mem_heap bp 8 = true ∧ valid mem_heap (bp + 4) 8 = true ∧
          valid mem_heap (bp + 8) 4 = true) as (V1 & V2 & V3).
  { unfold valid. repeat split; apply andb_true_iff; split; apply Z.leb_le; lia. }
  destruct (overlap_load bp h (mem s) Hr) as [E1 E2].
  set (m2 := store_bytes bp (bytes_of 8 0) (store_bytes (bp + 4) (bytes_of 8 h) (mem s))) in *.
  set (m3 := if h =? 0 then m2 else store_bytes h (bytes_of 8 bp) m2).
  exists (State m3 (brk s) (<[get_index size := bp]> (free_lists s)) (heap_listp s)).
  assert (∀ k b, bp <= b → b + Z.of_nat k <= bp + 12 → load_bytes k b m3 = load_bytes k b m2) as E3.
  { intros k b Hb Hk. unfold m3. destruct (Z.eqb_spec h 0); [done|].
    destruct (Hv n) as [_ ?]. apply load_store_other. lia. }
  split; [|split].
  - unfold insert_node, get_head, set_head, SET_SUCC, SET_PRED, WSIZE, store, mbind, comp_bind.
    rewrite Hh, V2, V1. cbn [free_lists set_mem mem]. rewrite Hh. unfold m3.
    destruct (Z.eqb_spec h 0).
    + unfold mret, comp_ret. cbn [free_lists set_mem]. by rewrite (proj2 (Nat.ltb_lt _ _)).
    + destruct (Hv n) as [V _]. rewrite V. cbn [free_lists set_mem mem].
      by rewrite (proj2 (Nat.ltb_lt _ _)).
  - unfold GET_SUCC, WSIZE, load. rewrite V2. cbn [mem]. rewrite E3 by lia.
    destruct (load_bytes 8 (bp + 4) m2); [|done]. by injection E1 as ->.
  - unfold GET, load. rewrite V3. cbn [mem]. rewrite E3 by lia.
    destruct (load_bytes 4 (bp + 8) m2); [|done]. by injection E2 as ->.
Qed.

End lp64.

(** With pointers of eight bytes, those of the machines the program runs on, the
    predecessor field reaches over the successor field and both over the footer of a
    block of 16 bytes.  Every [insert_node] leaves a successor whose low half is gone
    (so the list behind its first block is lost unless it was empty) and writes the
    high half where the footer of a smallest block stands.  Freeing two blocks and
    asking for one that is larger, or freeing two neighbours of 16 bytes, then goes
    wrong: it accesses memory that is outside the heap or was never written, where
    pointers of four bytes work. *)
Theorem wide_pointers_overlap :
  (∀ mem_heap s bp size h,
     free_lists s !! get_index size = Some h → 0 <= h < 2 ^ 64 →
     mem_heap <= bp → bp + 12 <= mem_heap + HEAP_BYTES →
     (h ≠ 0 → valid mem_heap h 8 = true ∧ 12 <= Z.abs (h - bp)) →
     ∃ s', insert_node 8 mem_heap bp size s = Some (Done (), s') ∧
       GET_SUCC 8 mem_heap bp s' = Some (Done (h - h mod 2 ^ 32), s') ∧
       GET mem_heap (bp + 8) s' = Some (Done (h / 2 ^ 32), s')) ∧
  fst <$> three_requests (2 ^ 46) 8 32 56 false (mem_init (2 ^ 46)) = Some Undefined ∧
  fst <$> three_requests (2 ^ 46) 8 8 24 true (mem_init (2 ^ 46)) = Some Undefined ∧
  fst <$> three_requests 4096 4 32 56 false (mem_init 4096) = Some (Done (Some 4272)) ∧
  fst <$> three_requests 4096 4 8 24 true (mem_init 4096) = Some (Done (Some 4112)).
Proof.
  split; [exact insert_cuts|]. repeat split; vm_compute; reflexivity.
Qed.
