(* ===== verification/Setup.v ===== *)
(** * Starting and stopping the socket programs

    What main and the set-up functions of framework_server.cpp and chat_demo.cpp do
    around the event loops that [FrameworkServer] and [ChatServer] model: the command
    line, the system calls in their order, any of which may fail, and the descriptors
    that are closed on every way out.  The loops themselves are parameters here.
    [Acceptor] is the accepting side of the Asio servers of base_byteorder. *)

From stdpp Require Import base numbers gmap list strings.
From Stdlib Require Import Ascii ZArith Lia.
From S2P Require Import Prelude CxxString NetBytes EffectiveValues Unwind Rio ChatPoll.

Local Open Scope Z_scope.

(** ** System calls and descriptors *)

(** The calls of the set-up code, with the descriptors and numbers they are given. *)
Inductive call :=
  | Socket
  | Setsockopt (fd : Z)
  | Bind (fd port : Z)
  | Listen (fd backlog : Z)
  | Getsockname (fd : Z)
  | EpollCreate
  | Eventfd
  | EpollAdd (epfd fd : Z)
  | Sigaction (signal : Z)
  | Connect (fd port : Z)
  | Close (fd : Z).

(** [oks] says which of the next calls succeed ([true] when it is used up); [bad_close]
    is set by a [close] of what is not open. *)
Record world := World {
  oks : list bool;
  next_fd : Z;
  open_fds : gset Z;
  bad_close : bool;
  calls : list call;
  err : list bytes
}.

(** A call that only succeeds or fails. *)
Definition sys (c : call) : comp world bool := λ w,
  Some (Done (default true (head (oks w))),
        World (tail (oks w)) (next_fd w) (open_fds w) (bad_close w) (calls w ++ [c]) (err w)).

(** A call that makes a descriptor: a fresh one, or [-1]. *)
Definition sys_fd (c : call) : comp world Z := λ w,
  if default true (head (oks w)) then
    Some (Done (next_fd w),
          World (tail (oks w)) (next_fd w + 1) (open_fds w ∪ {[next_fd w]}) (bad_close w)
                (calls w ++ [c]) (err w))
  else
    Some (Done (-1),
          World (tail (oks w)) (next_fd w) (open_fds w) (bad_close w) (calls w ++ [c]) (err w)).

Definition close (fd : Z) : comp world unit :=
  modifies (λ w, World (oks w) (next_fd w) (open_fds w ∖ {[fd]})
                       (bad_close w || negb (bool_decide (fd ∈ open_fds w)))
                       (calls w ++ [Close fd]) (err w)).

(** [perror(what)] and [std::cerr << what]; the system's part of a text is left out. *)
Definition complain (what : bytes) : comp world unit :=
  modifies (λ w, World (oks w) (next_fd w) (open_fds w) (bad_close w) (calls w) (err w ++ [what])).

(** [~unique_fd] and [~Socket] *)
Definition release (fd : Z) : comp world unit := if 0 <=? fd then close fd else mret ().

(** A block that owns the descriptor it has just asked for. *)
Definition with_fd {A} (acquire : comp world Z) (body : Z → comp world A) : comp world A :=
  fd ← acquire; scoped (release fd) (body fd).

(** ** Clean code *)

(** Descriptors are numbered from 0, below the next one. *)
Definition fds_ok (w : world) : Prop := 0 <= next_fd w ∧ ∀ fd, fd ∈ open_fds w → fd < next_fd w.

(** Code that ends, by returning or by an exception, with the descriptors it found. *)
Definition clean {A} (m : comp world A) : Prop := ∀ w, fds_ok w →
  ∃ r w', m w = Some (r, w') ∧ exits r ∧ fds_ok w' ∧
    open_fds w' = open_fds w ∧ bad_close w' = bad_close w ∧ next_fd w <= next_fd w'.

Lemma clean_ret {A} (a : A) : clean (mret a).
Proof. intros w Hw. exists (Done a), w. repeat split; try done; apply Hw. Qed.
Lemma clean_raising {A} e : clean (raising (A := A) e).
Proof. intros w Hw. exists (Raised e), w. repeat split; try done; apply Hw. Qed.
Lemma clean_sys c : clean (sys c).
Proof. intros w Hw. eexists _, _. split; [done|]. cbn. repeat split; try done; apply Hw. Qed.
Lemma clean_complain what : clean (complain what).
Proof. intros w Hw. eexists _, _. split; [done|]. cbn. repeat split; try done; apply Hw. Qed.

Lemma clean_bind {A B} (m : comp world A) (k : A → comp world B) :
  clean m → (∀ a, clean (k a)) → clean (m ≫= k).
Proof.
  intros Hm Hk w Hw. destruct (Hm w Hw) as (r & w1 & E & Hr & Hw1 & E1 & E2 & E3).
  unfold mbind, comp_bind. rewrite E. destruct r as [a|e| |]; try done.
  - destruct (Hk a w1 Hw1) as (r & w2 & -> & Hr2 & Hw2 & F1 & F2 & F3).
    exists r, w2. repeat split; try done; try congruence; try apply Hw2; lia.
  - exists (Raised e), w1. repeat split; try done; apply Hw1.
Qed.

Lemma clean_catching {A} (m : comp world A) h : clean m → (∀ e, clean (h e)) → clean (catching m h).
Proof.
  intros Hm Hh w Hw. destruct (Hm w Hw) as (r & w1 & E & Hr & Hw1 & E1 & E2 & E3).
  unfold catching. rewrite E. destruct r as [a|e| |]; try done.
  - exists (Done a), w1. repeat split; try done; apply Hw1.
  - destruct (Hh e w1 Hw1) as (r & w2 & -> & Hr2 & Hw2 & F1 & F2 & F3).
    exists r, w2. repeat split; try done; try congruence; try apply Hw2; lia.
Qed.

(** The owner gives back exactly its descriptor, however the block ends. *)
Lemma clean_with_fd {A} c (body : Z → comp world A) :
  (∀ fd, clean (body fd)) → clean (with_fd (sys_fd c) body).
Proof.
  intros Hb w [Hn Ho]. unfold with_fd, sys_fd, mbind, comp_bind.
  destruct (default true (head (oks w))).
  - set (w1 := World _ _ (open_fds w ∪ {[next_fd w]}) _ _ _).
    assert (fds_ok w1) as Hw1.
    { split; cbn; [lia|]. intros fd [Hfd%Ho| ->%elem_of_singleton]%elem_of_union; lia. }
    destruct (Hb (next_fd w) w1 Hw1) as (r & w2 & E & Hr & [Hn2 Ho2] & E1 & E2 & E3).
    cbn [next_fd open_fds bad_close w1] in *. unfold release.
    rewrite (proj2 (Z.leb_le 0 _)) by done. unfold close. rewrite scoped_update, E.
    assert (next_fd w ∉ open_fds w) as Hnew by (intros ?%Ho; lia).
    destruct r as [a|e| |]; try done; (eexists _, _; split; [done|]; cbn;
      rewrite E1, E2, bool_decide_true by set_solver;
      replace ((open_fds w ∪ {[next_fd w]}) ∖ {[next_fd w]}) with (open_fds w) by set_solver;
      rewrite orb_false_r; repeat split; try done; cbn; try lia;
      intros fd Hfd%Ho; lia).
  - set (w1 := World _ _ (open_fds w) _ _ _).
    assert (fds_ok w1) as Hw1 by (by split).
    destruct (Hb (-1) w1 Hw1) as (r & w2 & E & Hr & Hw2 & E1 & E2 & E3).
    unfold scoped, release, mret, comp_ret. rewrite E. cbn.
    destruct r as [a|e| |]; try done; (eexists _, _; split; [done|];
      repeat split; try done; apply Hw2).
Qed.

Create HintDb clean.
#[export] Hint Resolve clean_ret clean_raising clean_sys clean_complain clean_bind
  clean_catching clean_with_fd : clean.

(** Cleanness follows the structure of the code. *)
Ltac clean_code :=
  repeat first
    [ done | apply clean_ret | apply clean_raising | apply clean_sys | apply clean_complain
    | apply clean_with_fd; intros ? | apply clean_catching; [|intros ?]
    | apply clean_bind; [|intros ?] | case_match ].

(** The value of code that returns. *)
Definition returns {A} (P : A → Prop) (m : comp world A) : Prop :=
  ∀ w a w', m w = Some (Done a, w') → P a.

Lemma returns_ret {A} (P : A → Prop) a : P a → returns P (mret a).
Proof. intros Ha w b w' [= <- _]. done. Qed.
Lemma returns_raising {A} (P : A → Prop) e : returns P (raising e).
Proof. intros w a w' [=]. Qed.
Lemma returns_bind {A B} (P : B → Prop) (m : comp world A) (k : A → comp world B) :
  (∀ a, returns P (k a)) → returns P (m ≫= k).
Proof.
  intros Hk w b w'. unfold mbind, comp_bind.
  destruct (m w) as [[[a|e| |] w1]|]; intros H; simplify_eq. by apply (Hk a w1 b w').
Qed.
Lemma returns_scoped {A} (P : A → Prop) d (m : comp world A) : returns P m → returns P (scoped d m).
Proof.
  intros Hm w b w'. unfold scoped. destruct (m w) as [[[a|e| |] w1]|] eqn:E; intros H; simplify_eq.
  - destruct (d w1) as [[[] w2]|]; simplify_eq. by apply (Hm w b w1).
  - destruct (d w1) as [[[] w2]|]; simplify_eq.
Qed.
Lemma returns_with_fd {A} (P : A → Prop) c (body : Z → comp world A) :
  (∀ fd, returns P (body fd)) → returns P (with_fd c body).
Proof. intros H. apply returns_bind. intros fd. by apply returns_scoped. Qed.
Lemma returns_catching {A} (P : A → Prop) (m : comp world A) h :
  returns P m → (∀ e, returns P (h e)) → returns P (catching m h).
Proof.
  intros Hm Hh w b w'. unfold catching. destruct (m w) as [[[a|e| |] w1]|] eqn:E; intros H; simplify_eq.
  - by apply (Hm w b w').
  - by apply (Hh e w1 b w').
Qed.

Ltac returns_code tac :=
  repeat first
    [ apply returns_raising | apply returns_with_fd; intros ? | apply returns_catching; [|intros ?]
    | apply returns_bind; intros ? | case_match | apply returns_ret; tac ].

Definition what (e : exn) : bytes :=
  match e with RuntimeError w | LogicError w => w | _ => [] end.
Definition fail {A} (what : bytes) : comp world A := raising (RuntimeError what).
Definition check (c : call) (what : bytes) : comp world unit :=
  ok ← sys c; if (ok : bool) then mret () else fail what.

Lemma clean_check c what : clean (check c what).
Proof. unfold check, fail. clean_code. Qed.

(** Calls that succeed, and an owner's block that returns. *)
Lemma then_check {A} c what (m : comp world A) n fds bad cs er :
  (check c what ;; m) (World [] n fds bad cs er) = m (World [] n fds bad (cs ++ [c]) er).
Proof. reflexivity. Qed.
Lemma with_fd_ok {A} c (body : Z → comp world A) n fds bad cs er :
  with_fd (sys_fd c) body (World [] n fds bad cs er) =
  scoped (release n) (body n) (World [] (n + 1) (fds ∪ {[n]}) bad (cs ++ [c]) er).
Proof. reflexivity. Qed.
Definition closed (fd : Z) (w : world) : world :=
  World (oks w) (next_fd w) (open_fds w ∖ {[fd]})
        (bad_close w || negb (bool_decide (fd ∈ open_fds w))) (calls w ++ [Close fd]) (err w).
Lemma scoped_release {A} fd (m : comp world A) a w w1 :
  0 <= fd → m w = Some (Done a, w1) →
  scoped (release fd) m w = Some (Done a, closed fd w1).
Proof.
  intros Hfd E. unfold release. rewrite (proj2 (Z.leb_le 0 fd)) by done.
  unfold close. by rewrite scoped_update, E.
Qed.

(** ** framework_server.cpp *)

Module Framework.

(** The lambda [parse]: [std::from_chars] to [unsigned], the whole text. *)
Definition parse (s : bytes) : option Z :=
  let '(d, r) := span_digits s in
  match d, r with
  | _ :: _, [] => if digits_val 0 d <? 2 ^ 32 then Some (digits_val 0 d) else None
  | _, _ => None
  end.

Section server.
(** The event loop, from the thread pool on: [FrameworkServer]. *)
Context (serve : Z → Z → Z → Z → comp world unit).

Definition run_server (port workers : Z) : comp world Z :=
  with_fd (sys_fd Socket) (λ listener,
    if listener <? 0 then fail (lit "socket")
    else
      check (Setsockopt listener) (lit "setsockopt") ;;
      check (Bind listener port) (lit "bind") ;;
      check (Listen listener 128) (lit "listen") ;;
      check (Getsockname listener) (lit "getsockname") ;;
      with_fd (sys_fd EpollCreate) (λ epfd,
        if epfd <? 0 then fail (lit "epoll_create1")
        else
          with_fd (sys_fd Eventfd) (λ notify,
            if notify <? 0 then fail (lit "eventfd")
            else
              check (EpollAdd epfd listener) (lit "epoll_ctl ADD") ;;
              check (EpollAdd epfd notify) (lit "epoll_ctl ADD") ;;
              serve listener epfd notify workers ;;
              mret 0))).

Definition SIGINT : Z := 2.
Definition SIGTERM : Z := 15.

(** The arguments behind the program's name: the port and the number of workers. *)
Definition arguments (argv : list bytes) : outcome (Z * Z) :=
  match argv with
  | [] | _ :: _ :: _ :: _ =>
      Throw (RuntimeError (lit "usage: framework_server PORT [WORKERS]"))
  | p :: rest =>
      match parse p with
      | Some port =>
          if 65535 <? port then Throw (RuntimeError (lit "invalid port"))
          else
            match rest with
            | [] => Ret (port, 4)
            | n :: _ =>
                match parse n with
                | Some count =>
                    if (count =? 0) || (128 <? count)
                    then Throw (RuntimeError (lit "workers must be 1..128"))
                    else Ret (port, count)
                | None => Throw (RuntimeError (lit "workers must be 1..128"))
                end
            end
      | None => Throw (RuntimeError (lit "invalid port"))
      end
  end.

(** [main]: the function-try-block, and its handler; the result is the exit code. *)
Definition attempt (argv : list bytes) : comp world Z :=
  match arguments argv with
  | Ret (port, count) =>
      check (Sigaction SIGINT) (lit "sigaction") ;;
      check (Sigaction SIGTERM) (lit "sigaction") ;;
      run_server port count
  | Throw e => raising e
  | Undef => leave Undefined
  end.
Definition main (argv : list bytes) : comp world Z :=
  catching
    (attempt argv)
    (λ e, complain (what e) ;; mret 1).

Lemma arguments_defined argv : arguments argv ≠ Undef.
Proof. unfold arguments. repeat case_match; done. Qed.

(** The calls of a set-up that succeeds, [n] being the first descriptor. *)
Definition set_up_calls (n port : Z) : list call :=
  [Sigaction SIGINT; Sigaction SIGTERM; Socket; Setsockopt n; Bind n port; Listen n 128;
   Getsockname n; EpollCreate; Eventfd; EpollAdd (n + 1) n; EpollAdd (n + 1) (n + 2)].

Context (serve_clean : ∀ l e n k, clean (serve l e n k)).

Lemma framework_clean argv : clean (main argv).
Proof using serve_clean.
  unfold main, attempt. apply clean_catching; [|intros e; clean_code].
  destruct (arguments argv) as [[port count]|e|] eqn:E.
  - unfold run_server, fail.
    repeat first [apply clean_check | apply serve_clean | progress clean_code].
  - clean_code.
  - by apply arguments_defined in E.
Qed.

Lemma run_server_all n fds bad cs er port count w1 :
  0 <= n →
  serve n (n + 1) (n + 1 + 1) count
    (World [] (n + 1 + 1 + 1) (((fds ∪ {[n]}) ∪ {[n + 1]}) ∪ {[n + 1 + 1]}) bad
           (cs ++ set_up_calls n port) er) = Some (Done (), w1) →
  (check (Sigaction SIGINT) (lit "sigaction") ;;
   check (Sigaction SIGTERM) (lit "sigaction") ;; run_server port count)
    (World [] n fds bad cs er) =
  Some (Done 0, closed n (closed (n + 1) (closed (n + 1 + 1) w1))).
Proof.
  intros Hn Hs. rewrite !then_check. unfold run_server. rewrite with_fd_ok.
  apply scoped_release; [done|]. rewrite (proj2 (Z.ltb_ge n 0)) by lia.
  rewrite !then_check, with_fd_ok.
  apply scoped_release; [lia|]. rewrite (proj2 (Z.ltb_ge (n + 1) 0)) by lia. rewrite with_fd_ok.
  apply scoped_release; [lia|]. rewrite (proj2 (Z.ltb_ge (n + 1 + 1) 0)) by lia.
  rewrite !then_check. unfold mbind, comp_bind, set_up_calls in *.
  rewrite <-!app_assoc in *. cbn [app] in *.
  replace (n + 2) with (n + 1 + 1) in Hs by lia. by rewrite Hs.
Qed.

(** framework_server from its command line to its exit: it always ends with exit
    code 0 or 1 and with exactly the descriptors it started with, each closed once,
    whichever of its system calls fails; arguments that are no port up to 65535 and
    no 1 to 128 workers make no call at all and end with 1; and when every call
    succeeds the loop gets the three descriptors with the listener and the event
    counter registered. *)
Theorem framework_exits argv w :
  fds_ok w →
  ∃ code w', main argv w = Some (Done code, w') ∧ (code = 0 ∨ code = 1) ∧
    open_fds w' = open_fds w ∧ bad_close w' = bad_close w ∧
    (∀ e, arguments argv = Throw e → code = 1 ∧ calls w' = calls w) ∧
    (∀ port count, arguments argv = Ret (port, count) → oks w = [] →
       let n := next_fd w in
       let w0 := World [] (n + 1 + 1 + 1)
                   (((open_fds w ∪ {[n]}) ∪ {[n + 1]}) ∪ {[n + 1 + 1]}) (bad_close w)
                   (calls w ++ set_up_calls n port) (err w) in
       ∀ w1, serve n (n + 1) (n + 1 + 1) count w0 = Some (Done (), w1) →
       code = 0 ∧ calls w' = calls w1 ++ [Close (n + 1 + 1); Close (n + 1); Close n]).
Proof using serve_clean.
  intros Hw. destruct (framework_clean argv w Hw) as (r & w' & E & Hr & _ & E1 & E2 & _).
  assert (∀ w code w', main argv w = Some (Done code, w') → code = 0 ∨ code = 1) as Hcode.
  { apply (returns_catching (λ code, code = 0 ∨ code = 1)).
    - unfold attempt, run_server, fail. returns_code ltac:(by left). by intros ???.
    - intros e. returns_code ltac:(by right). }
  assert (∃ code, r = Done code) as [code ->].
  { unfold main, catching in E. destruct (attempt argv w) as [[[c|e| |] w1]|];
      unfold mbind, comp_bind, mret, comp_ret, complain, modifies in E; simplify_eq; (done || eauto). }
  exists code, w'. split; [done|]. split; [by eapply Hcode|]. split; [done|]. split; [done|].
  unfold main, catching, attempt in E. split.
  - intros e Ea. rewrite Ea in E.
    unfold raising, mbind, comp_bind, mret, comp_ret, complain, modifies in E. by simplify_eq.
  - intros port count Ea Hoks n w0 w1 Hs. destruct Hw as [Hn _].
    rewrite Ea in E. destruct w as [ok nx fds bad cs er]. cbn in Hoks, Hn. subst ok.
    unfold w0, n in *. cbn [next_fd open_fds bad_close calls err] in *.
    rewrite (run_server_all nx fds bad cs er port count w1) in E by done.
    simplify_eq. unfold closed. cbn [calls]. by rewrite <-!app_assoc.
Qed.

End server.

Definition fresh_process : world := World [] 3 {[0; 1; 2]} false [] [].
Lemma fresh_process_ok : fds_ok fresh_process.
Proof. split; cbn; [lia|]. set_solver by lia. Qed.

Lemma framework_exits_witness :
  ∃ code w', main (λ _ _ _ _, mret ()) [lit "8080"; lit "0"] fresh_process = Some (Done code, w') ∧
    (code = 0 ∨ code = 1) ∧ open_fds w' = open_fds fresh_process ∧ bad_close w' = false ∧
    code = 1 ∧ calls w' = [].
Proof.
  destruct (framework_exits (λ _ _ _ _, mret ()) ltac:(intros; apply clean_ret)
              [lit "8080"; lit "0"] fresh_process fresh_process_ok)
    as (code & w' & H1 & H2 & H3 & H4 & H5 & _).
  exists code, w'. split; [exact H1|]. split; [exact H2|]. split; [exact H3|]. split; [exact H4|].
  exact (H5 (RuntimeError (lit "workers must be 1..128")) eq_refl).
Defined.

(** A failing [listen]: the message, exit code 1, the socket closed. *)
Example listen_fails :
  main (λ _ _ _ _, mret ()) [lit "8080"] (World [true; true; true; true; true; false] 3 ∅ false [] []) =
  Some (Done 1, World [] 4 ∅ false
    [Sigaction 2; Sigaction 15; Socket; Setsockopt 3; Bind 3 8080; Listen 3 128; Close 3]
    [lit "listen"]).
Proof. vm_compute. reflexivity. Qed.

End Framework.

(** ** chat_demo.cpp *)

Module Chat.
Section chat.

(** [ChatServer::run] ([ChatServer]) and the loop of [run_client]; [inet_pton]. *)
Context (run : Z → comp world unit) (relay : Z → comp world unit) (inet_pton : bytes → bool).

(** [ChatServer::start] behind [listen_socket_.reset(socket(...))]. *)
Definition start (fd port : Z) : comp world bool :=
  if fd <? 0 then complain (lit "socket") ;; mret false
  else
    sys (Setsockopt fd) ;;
    bound ← sys (Bind fd port);
    if negb bound then complain (lit "bind") ;; mret false
    else
      listening ← sys (Listen fd 32);
      if negb listening then complain (lit "listen") ;; mret false else mret true.

(** The block of [main] that owns the server; [~ChatServer] closes its listener. *)
Definition serve (port : Z) : comp world Z :=
  with_fd (sys_fd Socket) (λ fd,
    started ← start fd port;
    if negb started then mret 1 else run fd ;; mret 0).

Definition run_client (ip : bytes) (port : Z) : comp world unit :=
  with_fd (sys_fd Socket) (λ sock,
    if sock <? 0 then complain (lit "socket")
    else if negb (inet_pton ip) then complain (lit "Invalid IPv4 address")
    else
      connected ← sys (Connect sock port);
      if negb connected then complain (lit "connect") else relay sock).

(** [main], with the arguments behind the program's name. *)
Definition main (argv : list bytes) : comp world Z :=
  match argv with
  | mode :: _ :: _ =>
      match port_arg (List.last argv []) with
      | None => complain (lit "Invalid port") ;; mret 1
      | Some port =>
          if str_eqb mode (lit "server") && (length argv =? 2)%nat then serve port
          else if str_eqb mode (lit "client") && (length argv =? 3)%nat then
            run_client (nth 1 argv []) port ;; mret 0
          else complain (lit "Invalid arguments") ;; mret 1
      end
  | _ => complain (lit "Usage") ;; mret 1
  end.

(** The command lines that do something. *)
Definition command (argv : list bytes) : option (bool * Z) :=
  match argv with
  | [m; p] => if str_eqb m (lit "server") then pair true <$> port_arg p else None
  | [m; ip; p] => if str_eqb m (lit "client") then pair false <$> port_arg p else None
  | _ => None
  end.

Context (run_clean : ∀ fd, clean (run fd)) (relay_clean : ∀ fd, clean (relay fd)).

Lemma chat_clean argv : clean (main argv).
Proof using run_clean relay_clean.
  unfold main, serve, run_client, start.
  repeat first [apply run_clean | apply relay_clean | progress clean_code].
Qed.

(** A command line that is none makes no call. *)
Lemma main_refuses argv w :
  command argv = None → ∃ text, main argv w = (complain text ;; mret 1) w.
Proof.
  intros Hc. unfold main, command in *.
  destruct argv as [|m [|p rest]]; [by eexists..|].
  destruct (port_arg (List.last (m :: p :: rest) [])) as [port|] eqn:Ep; [|by eexists].
  destruct rest as [|q [|q' rest]]; cbn [List.last length Nat.eqb] in *.
  - rewrite andb_false_r. destruct (str_eqb m (lit "server")); [by rewrite Ep in Hc|by eexists].
  - rewrite andb_false_r. destruct (str_eqb m (lit "client")); [by rewrite Ep in Hc|by eexists].
  - rewrite !andb_false_r. by eexists.
Qed.

Lemma command_cases argv b port :
  command argv = Some (b, port) →
  ∃ m ip p, argv = (if (b : bool) then [m; p] else [m; ip; p]) ∧ port_arg p = Some port ∧
    str_eqb m (if b then lit "server" else lit "client") = true.
Proof.
  unfold command. destruct argv as [|m [|p [|q [|]]]]; try done.
  - destruct (str_eqb m _) eqn:E; [|done]. destruct (port_arg p) eqn:Ep; [|done].
    intros [= <- <-]. by exists m, [], p.
  - destruct (str_eqb m _) eqn:E; [|done]. destruct (port_arg q) eqn:Ep; [|done].
    intros [= <- <-]. by exists m, p, q.
Qed.

Lemma main_serves argv port : command argv = Some (true, port) → main argv = serve port.
Proof.
  intros (m & ip & p & -> & Hp & Hm)%command_cases. unfold main. cbn [List.last length].
  by rewrite Hp, Hm.
Qed.
Lemma main_connects argv port :
  command argv = Some (false, port) → main argv = (run_client (nth 1 argv []) port ;; mret 0).
Proof.
  intros (m & ip & p & -> & Hp & Hm)%command_cases. unfold main. cbn [List.last length].
  by rewrite Hp, Hm, andb_false_r.
Qed.

(** Whether the [i]-th of the next calls succeeds. *)
Definition ok (w : world) (i : nat) : bool := default true (oks w !! i).

Context (run_returns : ∀ fd w1 e w2, run fd w1 ≠ Some (Raised e, w2)).
Context (relay_returns : ∀ fd w1 e w2, relay fd w1 ≠ Some (Raised e, w2)).

Lemma scoped_done {A} fd (m : comp world A) a w w1 :
  m w = Some (Done a, w1) → ∃ w2, scoped (release fd) m w = Some (Done a, w2).
Proof.
  intros E. unfold scoped, release. rewrite E. unfold close, modifies, mret, comp_ret.
  destruct (0 <=? fd); by eexists.
Qed.

Lemma returned (m : comp world unit) w :
  clean m → (∀ e w2, m w ≠ Some (Raised e, w2)) → fds_ok w → ∃ w2, m w = Some (Done (), w2).
Proof.
  intros Hm Hr Hw. destruct (Hm w Hw) as ([[]|e| |] & w2 & E & Hx & _); try done; [by eexists|].
  by apply Hr in E.
Qed.

Lemma start_spec fd port w :
  ∃ w', start fd port w =
    Some (Done ((0 <=? fd) && ok w 1 && ok w 2), w') ∧
    (fds_ok w → fds_ok w').
Proof.
  unfold start, ok. destruct (Z.ltb_spec fd 0).
  { rewrite (proj2 (Z.leb_gt 0 fd)) by done. eexists. split; [reflexivity|exact id]. }
  rewrite (proj2 (Z.leb_le 0 fd)) by done.
  unfold sys, complain, modifies, mbind, comp_bind, mret, comp_ret. cbn [oks].
  destruct (oks w) as [|a [|b [|c l]]]; cbn; try destruct b; try destruct c; cbn;
    (eexists; split; [reflexivity|exact id]).
Qed.

(** The server's exit code: [socket], [bind] and [listen] are the first, third and
    fourth call. *)
Lemma serve_code port w :
  fds_ok w → ∃ w', serve port w = Some (Done (if ok w 0 && ok w 2 && ok w 3 then 0 else 1), w').
Proof using run_clean run_returns.
  intros [Hn Ho]. unfold serve, with_fd, sys_fd. unfold mbind at 1, comp_bind at 1.
  unfold ok at 1. rewrite <-head_lookup.
  destruct (default true (head (oks w))); cbn [andb].
  - set (w1 := World _ _ (open_fds w ∪ {[next_fd w]}) _ _ _).
    destruct (start_spec (next_fd w) port w1) as (w2 & E & Hw2).
    assert (fds_ok w2) as Hok2.
    { apply Hw2. split; cbn; [lia|].
      intros fd [Hfd%Ho| ->%elem_of_singleton]%elem_of_union; lia. }
    rewrite (proj2 (Z.leb_le 0 _)) in E by done.
    replace (ok w1 1) with (ok w 2) in E by (unfold ok; cbn; by rewrite lookup_tail).
    replace (ok w1 2) with (ok w 3) in E by (unfold ok; cbn; by rewrite lookup_tail).
    cbn [andb] in E. destruct (ok w 2 && ok w 3).
    + destruct (returned (run (next_fd w)) w2) as [w3 E3]; [done..|].
      eapply scoped_done. unfold mbind, comp_bind. rewrite E. cbn. by rewrite E3.
    + eapply scoped_done. unfold mbind, comp_bind. by rewrite E.
  - set (w1 := World _ _ (open_fds w) _ _ _).
    destruct (start_spec (-1) port w1) as (w2 & E & _).
    eapply scoped_done. unfold mbind, comp_bind. by rewrite E.
Qed.

Lemma client_returns ip port w : fds_ok w → ∃ w', run_client ip port w = Some (Done (), w').
Proof using relay_clean relay_returns.
  intros [Hn Ho]. unfold run_client, with_fd, sys_fd. unfold mbind at 1, comp_bind at 1.
  assert (∀ fd w, fds_ok w → ∃ w',
            (if fd <? 0 then complain (lit "socket")
             else if negb (inet_pton ip) then complain (lit "Invalid IPv4 address")
             else connected ← sys (Connect fd port);
                  if negb connected then complain (lit "connect") else relay fd) w =
            Some (Done (), w')) as Hbody.
  { intros fd w0 Hw0. destruct (fd <? 0); [by eexists|]. destruct (inet_pton ip); [|by eexists].
    cbn [negb]. unfold sys, mbind, comp_bind.
    destruct (default true (head (oks w0))); cbn [negb]; [|by eexists].
    by apply returned. }
  destruct (default true (head (oks w))).
  - set (w1 := World _ _ (open_fds w ∪ {[next_fd w]}) _ _ _).
    destruct (Hbody (next_fd w) w1) as [w2 E]; [|by eapply scoped_done].
    split; cbn; [lia|]. intros fd [Hfd%Ho| ->%elem_of_singleton]%elem_of_union; lia.
  - destruct (Hbody (-1) (World (tail (oks w)) (next_fd w) (open_fds w) (bad_close w)
                             (calls w ++ [Socket]) (err w))) as [w2 E]; [by split|].
    by eapply scoped_done.
Qed.

(** chat_demo from its command line to its exit: it ends with exactly the
    descriptors it started with, each closed once, whichever system call fails.  A
    command line other than [server PORT] and [client IP PORT] makes no call and
    exits with 1; the server exits with 0 exactly when [socket], [bind] and [listen]
    succeed, whatever [setsockopt] does; a client exits with 0 even when it could not
    connect. *)
Theorem chat_exits argv w :
  fds_ok w →
  ∃ code w', main argv w = Some (Done code, w') ∧
    open_fds w' = open_fds w ∧ bad_close w' = bad_close w ∧
    (command argv = None → code = 1 ∧ calls w' = calls w) ∧
    (∀ port, command argv = Some (true, port) →
       code = if ok w 0 && ok w 2 && ok w 3 then 0 else 1) ∧
    (∀ port, command argv = Some (false, port) → code = 0).
Proof using run_clean relay_clean run_returns relay_returns.
  intros Hw. destruct (chat_clean argv w Hw) as (r & w' & E & Hr & _ & E1 & E2 & _).
  destruct (command argv) as [[[] port]|] eqn:Ec.
  - apply main_serves in Ec as Em.
    destruct (serve_code port w Hw) as [w1 E3]. rewrite Em, E3 in E. simplify_eq.
    eexists _, w'. rewrite Em. split; [done|]. by repeat split.
  - apply main_connects in Ec as Em.
    destruct (client_returns (nth 1 argv []) port w Hw) as [w1 E3].
    unfold mbind, comp_bind in Em. rewrite Em, E3 in E. unfold mret, comp_ret in E. simplify_eq.
    eexists _, w'. rewrite Em, E3. split; [done|]. by repeat split.
  - destruct (main_refuses argv w Ec) as [text Em]. rewrite Em in E.
    unfold complain, modifies, mbind, comp_bind, mret, comp_ret in *. simplify_eq.
    eexists _, _. rewrite Em. split; [done|]. by repeat split.
Qed.

End chat.

Lemma chat_exits_witness :
  let w := World [true; false; true; false] 3 {[0; 1; 2]} false [] [] in
  ∃ code w', main (λ _, mret ()) (λ _, mret ()) (λ _, true) [lit "server"; lit "9000"] w =
    Some (Done code, w') ∧ open_fds w' = open_fds w ∧ bad_close w' = false ∧ code = 1.
Proof.
  intros w. assert (fds_ok w) as Hw by (split; cbn; [lia|set_solver by lia]).
  destruct (chat_exits (λ _, mret ()) (λ _, mret ()) (λ _, true) (λ _, clean_ret ())
              (λ _, clean_ret ()) ltac:(done) ltac:(done) [lit "server"; lit "9000"] w Hw)
    as (code & w' & H1 & H2 & H3 & _ & H4 & _).
  exists code, w'. split; [exact H1|]. split; [exact H2|]. split; [exact H3|].
  exact (H4 9000 eq_refl).
Defined.

(** A [bind] that fails: exit code 1, the socket closed. *)
Example bind_fails :
  main (λ _, mret ()) (λ _, mret ()) (λ _, true) [lit "server"; lit "80"]
    (World [true; true; false] 3 ∅ false [] []) =
  Some (Done 1, World [] 4 ∅ false [Socket; Setsockopt 3; Bind 3 80; Close 3] [lit "bind"]).
Proof. vm_compute. reflexivity. Qed.

End Chat.

(** ** base_byteorder/server.cpp: the accepting side *)

Module Acceptor.

(** What [async_accept] hands to its handler: an error, or a socket with its number,
    and whether its peer is still connected. *)
Inductive accepted := AcceptError | Accepted (sock : nat) (connected : bool).

(** The accepts that are under way, and the sessions that were started. *)
Record server := Server { pending : nat; sessions : list nat }.

Definition do_accept (s : server) : server := Server (S (pending s)) (sessions s).

(** [Session::start]: [remote_endpoint()] throws when the peer is gone. *)
Definition session_start (sock : nat) (connected : bool) (s : server) : outcome server :=
  if connected then Ret (Server (pending s) (sessions s ++ [sock]))
  else Throw (RuntimeError (lit "remote_endpoint")).

(** The handler. *)
Definition on_accept (s : server) (r : accepted) : outcome server :=
  let s := Server (pending s - 1) (sessions s) in
  s' ← match r with
       | AcceptError => Ret s
       | Accepted sock connected => session_start sock connected s
       end;
  Ret (do_accept s').

(** The constructor, and the handlers that [io.run()] calls; an exception ends it. *)
Definition construct : server := do_accept (Server 0 []).
Fixpoint io_run (s : server) (rs : list accepted) : outcome server :=
  match rs with
  | [] => Ret s
  | r :: rs' => s' ← on_accept s r; io_run s' rs'
  end.

Definition started (rs : list accepted) : list nat :=
  omap (λ r, match r with Accepted k _ => Some k | AcceptError => None end) rs.
Definition peer_gone (r : accepted) : bool :=
  match r with Accepted _ false => true | _ => false end.

Lemma io_run_spec p ss rs :
  io_run (Server (S p) ss) rs =
  if existsb peer_gone rs then Throw (RuntimeError (lit "remote_endpoint"))
  else Ret (Server (S p) (ss ++ started rs)).
Proof.
  revert ss. induction rs as [|[|k []] rs IH]; intros ss; cbn [io_run existsb peer_gone orb].
  - unfold started. cbn. by rewrite app_nil_r.
  - unfold on_accept, do_accept. cbn. rewrite Nat.sub_0_r. by rewrite IH.
  - unfold on_accept, do_accept, session_start. cbn. rewrite Nat.sub_0_r, IH.
    destruct (existsb peer_gone rs); [done|]. unfold started. cbn. by rewrite <-app_assoc.
  - done.
Qed.

(** The server keeps exactly one accept under way and starts one session per
    accepted socket, in order, through any number of failed accepts; but a single
    client that is gone before its session starts ends [io.run()] with the exception
    of [remote_endpoint()], and with it the acceptance of all later clients. *)
Theorem accepts_until_peer_gone rs :
  io_run construct rs =
  if existsb peer_gone rs then Throw (RuntimeError (lit "remote_endpoint"))
  else Ret (Server 1 (started rs)).
Proof. unfold construct, do_accept. by rewrite io_run_spec. Qed.

End Acceptor.
