(* ===== verification/IoMux.v ===== *)
(** * The comparison of select, poll and epoll (io_mux_cmp.cpp)

    One program, three event loops over the same helpers [accept_available] and
    [read_available].  The kernel decides per round what has arrived and what the
    wait reports; a run over a list of rounds ends [Running].  The theorems: no loop
    ever leaks, doubly closes or overruns a descriptor set, [read_available] takes
    everything there is, and the three loops do the same on the same rounds. *)

From stdpp Require Import base numbers gmap list strings.
From Stdlib Require Import Ascii ZArith Lia.
From S2P Require Import Prelude CxxString.

Local Open Scope Z_scope.

(** ** The kernel *)

(** [errno]; [EWOULDBLOCK] is [EAGAIN]. *)
Inductive errno := EINTR | EAGAIN | Eother.

(** What the next calls of [recv] on a connection find, and those of [accept4]: a
    new connection comes with what it has already sent. *)
Inductive rx := Data (c : ascii) (s : bytes) | Eof | RecvFails (e : errno).
Inductive ax := Conn (sent : list rx) | AcceptFails (e : errno).

(** [oks]: which of the other system calls succeed, [true] when it is used up.
    [bad_close] is set by a [close] of what is not open. *)
Record kernel := Kernel {
  oks : list bool;
  open_fds : gset Z;
  bad_close : bool;
  backlog : list ax;
  input : gmap Z (list rx);
  out : list bytes;
  err : list bytes
}.

(** POSIX: the lowest descriptor that is not open. *)
Definition lowest (X : gset Z) : Z :=
  default 0 (head (filter (λ fd, fd ∉ X) (Z.of_nat <$> seq 0 (S (base.size X))))).

Definition opened (fd : Z) (s : list rx) (k : kernel) : kernel :=
  Kernel (oks k) (open_fds k ∪ {[fd]}) (bad_close k) (backlog k) (<[fd := s]> (input k))
         (out k) (err k).

Definition print (s : bytes) (k : kernel) : kernel :=
  Kernel (oks k) (open_fds k) (bad_close k) (backlog k) (input k) (out k ++ [s]) (err k).
(** [perror(s)] and [fprintf(stderr, s)]; the system's part of a text is left out. *)
Definition complain (s : bytes) (k : kernel) : kernel :=
  Kernel (oks k) (open_fds k) (bad_close k) (backlog k) (input k) (out k) (err k ++ [s]).

Definition close (fd : Z) (k : kernel) : kernel :=
  Kernel (oks k) (open_fds k ∖ {[fd]})
         (bad_close k || negb (bool_decide (fd ∈ open_fds k)))
         (backlog k) (delete fd (input k)) (out k) (err k).

(** A call that only succeeds or fails. *)
Definition syscall (k : kernel) : bool * kernel :=
  (default true (head (oks k)),
   Kernel (tail (oks k)) (open_fds k) (bad_close k) (backlog k) (input k) (out k) (err k)).
(** [socket] and [epoll_create1]: a descriptor, or [None] for -1. *)
Definition new_fd (k : kernel) : option Z * kernel :=
  let '(ok, k') := syscall k in
  if ok then (Some (lowest (open_fds k')), opened (lowest (open_fds k')) [] k') else (None, k').

(** [accept4] on a non-blocking listener *)
Definition accept4 (k : kernel) : (Z + errno) * kernel :=
  let rest := Kernel (oks k) (open_fds k) (bad_close k) (tail (backlog k)) (input k) (out k) (err k) in
  match backlog k with
  | [] => (inr EAGAIN, k)
  | AcceptFails e :: _ => (inr e, rest)
  | Conn s :: _ => (inl (lowest (open_fds k)), opened (lowest (open_fds k)) s rest)
  end.

Inductive received := Got (s : bytes) | Closed | Failed (e : errno).

(** [recv(fd, buf, sizeof buf, 0)] on a non-blocking connection: at most 1024 bytes *)
Definition BUFFER : nat := 1024.
Definition with_input (fd : Z) (l : list rx) (k : kernel) : kernel :=
  Kernel (oks k) (open_fds k) (bad_close k) (backlog k) (<[fd := l]> (input k)) (out k) (err k).
Definition pending (fd : Z) (k : kernel) : list rx := default [] (input k !! fd).
Definition left_over (s : bytes) (l : list rx) : list rx :=
  match s with [] => l | c :: s => Data c s :: l end.
Definition recv (fd : Z) (k : kernel) : received * kernel :=
  if negb (bool_decide (fd ∈ open_fds k)) then (Failed Eother, k)
  else
    match pending fd k with
    | [] => (Failed EAGAIN, k)
    | Data c s :: l =>
        (Got (take BUFFER (c :: s)), with_input fd (left_over (drop BUFFER (c :: s)) l) k)
    | Eof :: _ => (Closed, k)
    | RecvFails e :: l => (Failed e, with_input fd l k)
    end.

(** ** Code with a local state *)

(** A run has a value, waits for the next round, has called [exit], or is undefined. *)
Inductive ends (A : Type) := Go (a : A) | Running | Exit (code : Z) | Bad.
Arguments Go {A} a.
Arguments Running {A}.
Arguments Exit {A} code.
Arguments Bad {A}.

(** [None] is a loop that has not ended within its fuel. *)
Definition step (L A : Type) : Type := L * kernel → option (ends A * (L * kernel)).

#[export] Instance step_ret {L} : MRet (step L) := λ A a w, Some (Go a, w).
#[export] Instance step_bind {L} : MBind (step L) := λ A B f m w,
  match m w with
  | None => None
  | Some (Go a, w') => f a w'
  | Some (Running, w') => Some (Running, w')
  | Some (Exit c, w') => Some (Exit c, w')
  | Some (Bad, w') => Some (Bad, w')
  end.

Definition local {L} : step L L := λ w, Some (Go w.1, w).
Definition set_local {L} (l : L) : step L unit := λ w, Some (Go (), (l, w.2)).
Definition sys {L A} (f : kernel → A * kernel) : step L A := λ '(l, k),
  let '(a, k') := f k in Some (Go a, (l, k')).
Definition does {L} (f : kernel → kernel) : step L unit := λ '(l, k), Some (Go (), (l, f k)).
Definition ending {L A} (e : ends A) : step L A := λ w, Some (e, w).
Definition die {L A} (op : bytes) : step L A := does (complain op) ;; ending (Exit 1).

(** ** The helpers *)

Definition accepted_line (fd : Z) : bytes := lit "accepted fd=" ++ show_int fd ++ [newline].
Definition received_line (fd : Z) (s : bytes) : bytes :=
  lit "fd=" ++ show_int fd ++ lit " received " ++ show_int (Z.of_nat (length s)) ++ lit " bytes: "
  ++ s ++ [newline].
Definition eof_line (fd : Z) : bytes := lit "fd=" ++ show_int fd ++ lit " EOF" ++ [newline].

Fixpoint accept_loop {L} (fuel : nat) (add_client : Z → step L unit) : step L unit :=
  match fuel with
  | O => λ _, None
  | S fuel =>
      r ← sys accept4;
      match r with
      | inl fd => does (print (accepted_line fd)) ;; add_client fd ;; accept_loop fuel add_client
      | inr EINTR => accept_loop fuel add_client
      | inr EAGAIN => mret ()
      | inr Eother => does (complain (lit "accept4"))
      end
  end.
Definition accept_available {L} (add_client : Z → step L unit) : step L unit := λ w,
  accept_loop (S (length (backlog w.2))) add_client w.

(** The result: whether the connection remains open. *)
Fixpoint read_loop (fuel : nat) (fd : Z) (k : kernel) : option (bool * kernel) :=
  match fuel with
  | O => None
  | S fuel =>
      match recv fd k with
      | (Got s, k') => read_loop fuel fd (print (received_line fd s) k')
      | (Closed, k') => Some (false, print (eof_line fd) k')
      | (Failed EINTR, k') => read_loop fuel fd k'
      | (Failed EAGAIN, k') => Some (true, k')
      | (Failed Eother, k') => Some (false, complain (lit "recv") k')
      end
  end.
(** The calls of [recv] that find something. *)
Definition answers (l : list rx) : nat :=
  list_sum ((λ r, match r with Data _ s => S (length s) | _ => 1%nat end) <$> l).
Definition read_available (fd : Z) (k : kernel) : option (bool * kernel) :=
  read_loop (S (answers (pending fd k))) fd k.
Definition reads {L} (fd : Z) : step L bool := λ '(l, k),
  match read_available fd k with Some (b, k') => Some (Go b, (l, k')) | None => None end.

(** ** Rounds *)

Record flags := Flags { pollin : bool; pollhup : bool; pollerr : bool; pollnval : bool }.
Definition no_flags : flags := Flags false false false false.
(** [revents & (POLLIN | POLLHUP | POLLERR | POLLNVAL)] *)
Definition some_flag (f : flags) : bool := pollin f || pollhup f || pollerr f || pollnval f.

Inductive waited := Interrupted | WaitFails | Ready (evs : list (Z * flags)).

(** What arrives before the wait ends, and what the wait finds. *)
Record round := Round { conns : list ax; data : gmap Z (list rx); wait : waited }.
Definition deliver (r : round) (k : kernel) : kernel :=
  Kernel (oks k) (open_fds k) (bad_close k) (backlog k ++ conns r)
         (union_with (λ old new, Some (old ++ new)) (input k) (data r)) (out k) (err k).

Definition flags_of (evs : list (Z * flags)) (fd : Z) : flags :=
  default no_flags ((list_to_map evs : gmap Z flags) !! fd).

(** [for (;;)] around one turn. *)
Fixpoint loop {L} (turn : waited → step L unit) (rs : list round) : step L unit :=
  match rs with
  | [] => ending Running
  | r :: rs => does (deliver r) ;; turn (wait r) ;; loop turn rs
  end.

(** ** select *)

Definition FD_SETSIZE : Z := 1024.

(** [FD_SET] of each client, outside the set's size undefined, and the largest one. *)
Fixpoint fd_sets (clients : list Z) (reads : gset Z) (maxfd : Z) : ends (gset Z * Z) :=
  match clients with
  | [] => Go (reads, maxfd)
  | fd :: clients =>
      if (0 <=? fd) && (fd <? FD_SETSIZE)
      then fd_sets clients ({[fd]} ∪ reads) (Z.max maxfd fd)
      else Bad
  end.

(** [FD_ISSET] once [select(maxfd + 1, &reads, ...)] has returned: a descriptor is
    left in the set when a read would not block. *)
Definition select_isset (evs : list (Z * flags)) (reads : gset Z) (maxfd fd : Z) : bool :=
  bool_decide (fd ∈ reads) && (fd <? maxfd + 1) &&
  (pollin (flags_of evs fd) || pollhup (flags_of evs fd) || pollerr (flags_of evs fd)).

Definition select_add (fd : Z) : step (list Z) unit :=
  if FD_SETSIZE <=? fd then does (close fd)
  else clients ← local; set_local (clients ++ [fd]).

Fixpoint select_scan (fuel i : nat) (isset : Z → bool) : step (list Z) unit :=
  match fuel with
  | O => λ _, None
  | S fuel =>
      clients ← local;
      match clients !! i with
      | None => mret ()
      | Some fd =>
          if isset fd then
            alive ← reads fd;
            if (alive : bool) then select_scan fuel (S i) isset
            else does (close fd) ;; set_local (delete i clients) ;; select_scan fuel i isset
          else select_scan fuel (S i) isset
      end
  end.

Definition select_turn (listener : Z) (r : waited) : step (list Z) unit :=
  clients ← local;
  '(reads, maxfd) ← ending (fd_sets clients {[listener]} listener);
  match r with
  | Interrupted => mret ()
  | WaitFails => die (lit "select")
  | Ready evs =>
      let isset := select_isset evs reads maxfd in
      (if isset listener then accept_available select_add else mret ()) ;;
      now ← local;
      select_scan (S (length now)) 0 isset
  end.

Definition run_select (listener : Z) (rs : list round) : step (list Z) unit :=
  if FD_SETSIZE <=? listener
  then does (complain (lit "listener fd exceeds FD_SETSIZE")) ;; ending (Exit 1)
  else set_local [] ;; loop (select_turn listener) rs.

(** ** poll *)

Record pollfd := Pollfd { pfd : Z; revents : flags }.

(** [poll] fills [revents]; a descriptor that is not open is invalid. *)
Definition polled (evs : list (Z * flags)) (k : kernel) (p : pollfd) : pollfd :=
  Pollfd (pfd p)
    (if bool_decide (pfd p ∈ open_fds k) then
       let f := flags_of evs (pfd p) in Flags (pollin f) (pollhup f) (pollerr f) false
     else Flags false false false true).

Definition poll_add (fd : Z) : step (list pollfd) unit :=
  fds ← local; set_local (fds ++ [Pollfd fd no_flags]).

Fixpoint poll_scan (fuel i : nat) : step (list pollfd) unit :=
  match fuel with
  | O => λ _, None
  | S fuel =>
      fds ← local;
      match fds !! i with
      | None => mret ()
      | Some p =>
          let rev := revents p in
          let remove := does (close (pfd p)) ;; set_local (delete i fds) ;; poll_scan fuel i in
          if some_flag rev then
            if pollnval rev then remove
            else
              alive ← reads (pfd p);
              if negb (alive : bool) || pollerr rev then remove else poll_scan fuel (S i)
          else poll_scan fuel (S i)
      end
  end.

Definition poll_turn (r : waited) : step (list pollfd) unit :=
  match r with
  | Interrupted => mret ()
  | WaitFails => die (lit "poll")
  | Ready evs =>
      (λ '(fds, k), Some (Go (), (polled evs k <$> fds, k))) ;;
      fds ← local;
      match fds with
      | [] => ending Bad
      | first :: _ =>
          (if pollin (revents first) then accept_available poll_add else mret ()) ;;
          now ← local;
          poll_scan (length now) 1
      end
  end.

Definition run_poll (listener : Z) (rs : list round) : step (list pollfd) unit :=
  set_local [Pollfd listener no_flags] ;; loop poll_turn rs.

(** ** epoll *)

Definition MAX_EVENTS : nat := 64.

(** The state is the interest list of the epoll instance. *)
Definition epoll_add (listener fd : Z) : step (gset Z) unit :=
  ok ← sys syscall;
  if (ok : bool) then watched ← local; set_local (watched ∪ {[fd]})
  else
    does (complain (lit "epoll_ctl ADD")) ;;
    (if fd =? listener then ending (Exit 1) else mret ()) ;;
    does (close fd).

Fixpoint epoll_events (listener : Z) (evs : list (Z * flags)) : step (gset Z) unit :=
  match evs with
  | [] => mret ()
  | (fd, f) :: evs =>
      (if fd =? listener then accept_available (epoll_add listener)
       else if pollin f || pollhup f || pollerr f then
         alive ← reads fd;
         if negb (alive : bool) || pollerr f then
           watched ← local; set_local (watched ∖ {[fd]}) ;; does (close fd)
         else mret ()
       else mret ()) ;;
      epoll_events listener evs
  end.

(** [epoll_wait] reports at most 64 of the descriptors it watches. *)
Definition epoll_wait (evs : list (Z * flags)) (watched : gset Z) : list (Z * flags) :=
  take MAX_EVENTS (filter (λ e, e.1 ∈ watched) evs).

Definition epoll_turn (listener : Z) (r : waited) : step (gset Z) unit :=
  match r with
  | Interrupted => mret ()
  | WaitFails => die (lit "epoll_wait")
  | Ready evs => watched ← local; epoll_events listener (epoll_wait evs watched)
  end.

Definition run_epoll (listener : Z) (rs : list round) : step (gset Z) unit :=
  epfd ← sys new_fd;
  match epfd with
  | None => die (lit "epoll_create1")
  | Some _ => set_local ∅ ;; epoll_add listener listener ;; loop (epoll_turn listener) rs
  end.

(** ** main *)

Definition call_or_die {L} (op : bytes) : step L unit :=
  ok ← sys syscall; if (ok : bool) then mret () else die op.

Definition make_listener : step unit Z :=
  fd ← sys new_fd;
  match fd with
  | None => die (lit "socket")
  | Some fd =>
      call_or_die (lit "setsockopt") ;;
      call_or_die (lit "bind") ;;
      call_or_die (lit "listen") ;;
      mret fd
  end.

(** The local state of a function that is called. *)
Definition calling {L A} (l : L) (m : step L A) : step unit A := λ '(_, k),
  match m (l, k) with
  | Some (r, (_, k')) => Some (r, ((), k'))
  | None => None
  end.

(** [argv] without the program's name. *)
Definition main (argv : list bytes) (rs : list round) : step unit Z :=
  match argv with
  | [mode] =>
      listener ← make_listener;
      does (print (lit "listening on 127.0.0.1:9090" ++ [newline])) ;;
      if str_eqb mode (lit "select") then calling [] (run_select listener rs) ;; mret 0
      else if str_eqb mode (lit "poll") then calling [] (run_poll listener rs) ;; mret 0
      else if str_eqb mode (lit "epoll") then calling ∅ (run_epoll listener rs) ;; mret 0
      else
        does (complain (lit "unknown mode")) ;;
        does (close listener) ;;
        mret 2
  | _ => does (complain (lit "usage")) ;; mret 2
  end.

(** ** Reading everything *)

(** What a connection delivers before its next error or pause, whether it then
    remains open, and whether it has ended. *)
Fixpoint payload (l : list rx) : bytes :=
  match l with
  | Data c s :: l => (c :: s) ++ payload l
  | RecvFails EINTR :: l => payload l
  | _ => []
  end.
Fixpoint survives (l : list rx) : bool :=
  match l with
  | Data _ _ :: l | RecvFails EINTR :: l => survives l
  | [] | RecvFails EAGAIN :: _ => true
  | Eof :: _ | RecvFails Eother :: _ => false
  end.
Fixpoint hangs_up (l : list rx) : bool :=
  match l with
  | Data _ _ :: l | RecvFails EINTR :: l => hangs_up l
  | Eof :: _ => true
  | _ => false
  end.

(** A part of the kernel's state that reading leaves alone. *)
Definition same_fds (k k' : kernel) : Prop :=
  oks k' = oks k ∧ open_fds k' = open_fds k ∧ bad_close k' = bad_close k ∧ backlog k' = backlog k.

#[export] Instance same_fds_pre : PreOrder same_fds.
Proof. split; [done|]. intros ??? (?&?&?&?) (?&?&?&?). repeat split; congruence. Qed.

Lemma left_over_payload s l : payload (left_over s l) = s ++ payload l.
Proof. by destruct s. Qed.
Lemma left_over_survives s l : survives (left_over s l) = survives l.
Proof. by destruct s. Qed.
Lemma left_over_hangs_up s l : hangs_up (left_over s l) = hangs_up l.
Proof. by destruct s. Qed.
Lemma left_over_answers s l : answers (left_over s l) = (length s + answers l)%nat.
Proof. by destruct s. Qed.
Lemma pending_with fd l k : pending fd (with_input fd l k) = l.
Proof. unfold pending. cbn. by rewrite lookup_insert_eq. Qed.

(** The messages of a reading: the data in chunks of at most the buffer's size. *)
Definition messages (fd : Z) (l : list rx) (chunks : list bytes) : Prop :=
  concat chunks = payload l ∧ Forall (λ s, 1 ≤ length s ≤ BUFFER)%nat chunks.
Definition printed (fd : Z) (l : list rx) (chunks : list bytes) : list bytes :=
  (received_line fd <$> chunks) ++ if hangs_up l then [eof_line fd] else [].

Lemma read_loop_spec fuel fd k :
  fd ∈ open_fds k → (answers (pending fd k) < fuel)%nat →
  ∃ chunks k', read_loop fuel fd k = Some (survives (pending fd k), k') ∧ same_fds k k' ∧
    messages fd (pending fd k) chunks ∧ out k' = out k ++ printed fd (pending fd k) chunks.
Proof.
  unfold messages, printed. revert k. induction fuel as [|fuel IH]; intros k Hfd Hf; [lia|].
  cbn [read_loop]. unfold recv. rewrite bool_decide_true by done. cbn [negb].
  destruct (pending fd k) as [|[c s| |e] l] eqn:El.
  - exists [], k. by rewrite app_nil_r.
  - set (k1 := print _ _).
    assert (pending fd k1 = left_over (drop BUFFER (c :: s)) l) as E1 by apply pending_with.
    destruct (IH k1) as (chunks & k' & E & Hk' & [Hc Hall] & Ho); [done| |].
    { rewrite E1, left_over_answers, length_drop.
      change (answers _) with (S (length s) + answers l)%nat in Hf. cbn [length]. unfold BUFFER. lia. }
    rewrite E, E1, left_over_survives. exists (take BUFFER (c :: s) :: chunks), k'.
    rewrite E1, left_over_payload in Hc. rewrite E1, left_over_hangs_up in Ho. split_and!.
    + done.
    + by transitivity k1.
    + cbn [concat payload]. by rewrite Hc, app_assoc, take_drop.
    + constructor; [|done]. rewrite length_take. cbn [length]. unfold BUFFER. lia.
    + rewrite Ho. unfold k1, print. cbn [out with_input]. by rewrite <-app_assoc.
  - exists [], (print (eof_line fd) k). done.
  - destruct e; cbn [survives hangs_up payload].
    + destruct (IH (with_input fd l k)) as (chunks & k' & E & Hk' & Hm & Ho); [done| |].
      { rewrite pending_with. change (answers _) with (S (answers l)) in Hf. lia. }
      rewrite pending_with in *. eauto 10.
    + exists [], (with_input fd l k). by rewrite app_nil_r.
    + exists [], (complain (lit "recv") (with_input fd l k)). by rewrite app_nil_r.
Qed.

(** [read_available] on any descriptor. *)
Lemma read_available_total fd k :
  ∃ b k', read_available fd k = Some (b, k') ∧ same_fds k k'.
Proof.
  destruct (decide (fd ∈ open_fds k)) as [Hfd|Hfd].
  - destruct (read_loop_spec (S (answers (pending fd k))) fd k) as (_ & k' & E & Hk & _);
      [done|lia|]. eauto.
  - unfold read_available. cbn [read_loop]. unfold recv. rewrite bool_decide_false by done.
    by eexists _, _.
Qed.

(** ** Descriptors *)

Lemma lowest_spec (X : gset Z) : lowest X ∉ X ∧ 0 <= lowest X <= Z.of_nat (base.size X).
Proof.
  unfold lowest. set (l := Z.of_nat <$> seq 0 (S (base.size X))).
  destruct (filter (λ fd, fd ∉ X) l) as [|fd fds] eqn:E.
  - assert (list_to_set l ⊆ X) as Hsub.
    { intros fd Hfd%elem_of_list_to_set. destruct (decide (fd ∈ X)) as [|Hn]; [done|].
      assert (fd ∈ filter (λ fd, fd ∉ X) l) as Hin by by apply list_elem_of_filter.
      rewrite E in Hin. by apply not_elem_of_nil in Hin. }
    apply subseteq_size in Hsub. rewrite size_list_to_set in Hsub.
    + unfold l in Hsub. rewrite length_fmap, length_seq in Hsub. lia.
    + apply NoDup_fmap; [apply _|apply NoDup_seq].
  - assert (fd ∈ filter (λ fd, fd ∉ X) l) as Hin by (rewrite E; left).
    apply list_elem_of_filter in Hin as [Hn Hin]. cbn. split; [done|].
    apply list_elem_of_fmap in Hin as (n & -> & Hn'%elem_of_seq). lia.
Qed.

(** The descriptors of the process: those of its start and the connections. *)
Definition accounted (base X : gset Z) (k : kernel) : Prop :=
  open_fds k = base ∪ X ∧ X ## base ∧ bad_close k = false.

Lemma accounted_same base X k k' : same_fds k k' → accounted base X k → accounted base X k'.
Proof. intros (_ & E1 & E2 & _) (? & ? & ?). split_and!; [congruence|done|congruence]. Qed.

Lemma accounted_close base X fd k :
  accounted base X k → fd ∈ X → accounted base (X ∖ {[fd]}) (close fd k).
Proof.
  intros (E & Hd & Hb) Hfd. unfold accounted. cbn.
  rewrite Hb, E, bool_decide_true by set_solver. split_and!; [set_solver..|done].
Qed.

Lemma accounted_new base X fd k k' :
  accounted base X k → fd ∉ open_fds k → open_fds k' = open_fds k ∪ {[fd]} →
  bad_close k' = bad_close k → accounted base (X ∪ {[fd]}) k'.
Proof. intros (E & Hd & Hb) Hfd E1 E2. split_and!; [set_solver..|congruence]. Qed.

Lemma remove_nth (l : list Z) i x :
  NoDup l → l !! i = Some x →
  NoDup (delete i l) ∧ (list_to_set (delete i l) : gset Z) = list_to_set l ∖ {[x]}.
Proof.
  intros Hnd Hi. rewrite delete_take_drop.
  assert (l = take i l ++ x :: drop (S i) l) as El by (symmetry; by apply take_drop_middle).
  revert El. generalize (take i l) (drop (S i) l). intros l1 l2 ->.
  apply NoDup_app in Hnd as (H1 & H2 & [H3 H4]%NoDup_cons). split.
  - apply NoDup_app. split_and!; [done| |done]. intros y Hy Hy'. apply (H2 y Hy). by right.
  - apply set_eq. intros y.
    rewrite elem_of_difference, elem_of_singleton, !elem_of_list_to_set, !elem_of_app, elem_of_cons.
    split; [|naive_solver]. intros [Hy|Hy]; (split; [tauto|intros ->]); [|done].
    apply (H2 x Hy). left.
Qed.

(** ** Triples *)

(** [J] is what holds between two rounds; code ends by itself, in [exit(1)] if at all. *)
Section triples.
Context {L : Type} (J : L → kernel → Prop).

Definition ended {A} (Q : A → L → kernel → Prop) (r : ends A) (l : L) (k : kernel) : Prop :=
  match r with
  | Go a => Q a l k
  | Running => J l k
  | Exit c => c = 1
  | Bad => False
  end.
Definition triple {A} (P : L → kernel → Prop) (m : step L A) (Q : A → L → kernel → Prop) : Prop :=
  ∀ l k, P l k → ∃ r l' k', m (l, k) = Some (r, (l', k')) ∧ ended Q r l' k'.

Lemma triple_bind {A B} P (m : step L A) Q (f : A → step L B) R :
  triple P m Q → (∀ a, triple (Q a) (f a) R) → triple P (m ≫= f) R.
Proof.
  intros Hm Hf l k HP. unfold mbind, step_bind.
  destruct (Hm l k HP) as (r & l1 & k1 & -> & H1). destruct r as [a| |c|]; [|eauto 6..].
  by apply Hf.
Qed.
Lemma triple_ret {A} (a : A) P (Q : A → L → kernel → Prop) :
  (∀ l k, P l k → Q a l k) → triple P (mret a) Q.
Proof. intros H l k HP. exists (Go a), l, k. split; [done|]. by apply H. Qed.
Lemma triple_does f P (Q : unit → L → kernel → Prop) :
  (∀ l k, P l k → Q () l (f k)) → triple P (does f) Q.
Proof. intros H l k HP. exists (Go ()), l, (f k). split; [done|]. by apply H. Qed.
Lemma triple_pre {A} P P' (m : step L A) Q :
  (∀ l k, P l k → P' l k) → triple P' m Q → triple P m Q.
Proof. intros H Hm l k HP. by apply Hm, H. Qed.
Lemma triple_reads fd P (Q : bool → L → kernel → Prop) :
  (∀ l k k' b, P l k → same_fds k k' → Q b l k') → triple P (reads fd) Q.
Proof.
  intros H l k HP. unfold reads. destruct (read_available_total fd k) as (b & k' & -> & Hk).
  exists (Go b), l, k'. split; [done|]. by apply (H l k).
Qed.
Lemma triple_local P (Q : L → L → kernel → Prop) :
  (∀ l k, P l k → Q l l k) → triple P local Q.
Proof. intros H l k HP. exists (Go l), l, k. split; [done|]. by apply H. Qed.
Lemma triple_set l0 P (Q : unit → L → kernel → Prop) :
  (∀ l k, P l k → Q () l0 k) → triple P (set_local l0) Q.
Proof. intros H l k HP. exists (Go ()), l0, k. split; [done|]. by apply (H l). Qed.
Lemma triple_ends {A} (r : ends A) P Q :
  (∀ l k, P l k → ended Q r l k) → triple P (ending r) Q.
Proof. intros H l k HP. exists r, l, k. split; [done|]. by apply H. Qed.
Lemma triple_die {A} op P (Q : A → L → kernel → Prop) : triple P (die op) Q.
Proof. intros l k _. by exists (Exit 1), l, (complain op k). Qed.

(** Accepting: [add_client] is given a descriptor that was not open. *)
Lemma triple_accept (I : L → gset Z → bool → Prop) add_client :
  (∀ fd n, triple
     (λ l k, ∃ X, I l X (bad_close k) ∧ fd ∉ X ∧ 0 <= fd ∧ open_fds k = X ∪ {[fd]} ∧
                  length (backlog k) = n)
     (add_client fd)
     (λ _ l k, I l (open_fds k) (bad_close k) ∧ length (backlog k) = n)) →
  triple (λ l k, I l (open_fds k) (bad_close k)) (accept_available add_client)
         (λ _ l k, I l (open_fds k) (bad_close k)).
Proof.
  intros Hadd l k HI. unfold accept_available. cbn [snd].
  remember (S (length (backlog k))) as fuel eqn:Ef.
  assert (length (backlog k) < fuel)%nat as Hf by lia. clear Ef. revert l k HI Hf.
  induction fuel as [|fuel IH]; intros l k HI Hf; [lia|].
  cbn [accept_loop]. unfold mbind at 1, step_bind at 1, sys at 1. unfold accept4.
  destruct (backlog k) as [|[s|e] q] eqn:Eq; cbn in Hf.
  - by exists (Go ()), l, k.
  - cbn [tail]. destruct (lowest_spec (open_fds k)) as [Hn Hr].
    set (fd := lowest _) in *. set (k1 := opened _ _ _).
    unfold mbind, step_bind, does. cbn beta iota.
    destruct (Hadd fd (length q) l (print (accepted_line fd) k1)) as (r & l2 & k2 & -> & H2).
    { exists (open_fds k). cbn. repeat split; try done; lia. }
    destruct r as [[]| |c|]; [|eauto 6..].
    destruct H2 as [HI2 Hq]. apply IH; [done|]. lia.
  - destruct e.
    + apply IH; cbn; [done|lia].
    + eexists (Go ()), l, _. split; [reflexivity|done].
    + eexists (Go ()), l, _. split; [reflexivity|done].
Qed.

Lemma triple_loop turn rs :
  (∀ l k r, J l k → J l (deliver r k)) →
  (∀ r, r ∈ rs → triple J (turn (wait r)) (λ _, J)) →
  triple J (loop turn rs) (λ _ _ _, False).
Proof.
  intros Hd Ht. induction rs as [|r rs IH]; cbn [loop].
  { apply triple_ends. auto. }
  eapply triple_bind; [apply (triple_does _ _ (λ _, J)); auto|]. intros ?.
  eapply triple_bind; [apply Ht; left|]. intros ?. apply IH. intros r' Hr. apply Ht. by right.
Qed.
End triples.

(** ** The three loops keep account of the descriptors *)

Section accounts.
Context (base : gset Z) (listener : Z).

(** The state between two rounds: the clients are exactly what is open besides [base]. *)
Definition tracked (cl : list Z) (X : gset Z) (bad : bool) : Prop :=
  NoDup cl ∧ X = base ∪ list_to_set cl ∧ list_to_set cl ## base ∧ bad = false.
Definition select_inv (cl : list Z) (k : kernel) : Prop :=
  Forall (λ fd, 0 <= fd < FD_SETSIZE) cl ∧ tracked cl (open_fds k) (bad_close k).
Definition poll_inv (fds : list pollfd) (k : kernel) : Prop :=
  (∃ f, head fds = Some (Pollfd listener f)) ∧
  tracked (pfd <$> tail fds) (open_fds k) (bad_close k).
Definition epoll_inv (watched : gset Z) (k : kernel) : Prop :=
  ∃ X, watched = {[listener]} ∪ X ∧ accounted base X k.

Lemma tracked_same cl k k' :
  same_fds k k' → tracked cl (open_fds k) (bad_close k) → tracked cl (open_fds k') (bad_close k').
Proof. intros (_ & -> & -> & _) H. exact H. Qed.
Lemma tracked_app cl fd X b :
  tracked cl X b → fd ∉ X → tracked (cl ++ [fd]) (X ∪ {[fd]}) b.
Proof.
  intros (Hnd & -> & Hd & ->) Hfd. unfold tracked. rewrite list_to_set_app_L. cbn.
  split_and!; [|set_solver..]. apply NoDup_app. split_and!; [done| |apply NoDup_singleton].
  intros x Hx ->%list_elem_of_singleton. apply Hfd. set_solver.
Qed.
Lemma tracked_close cl i fd k :
  tracked cl (open_fds k) (bad_close k) → cl !! i = Some fd →
  tracked (delete i cl) (open_fds (close fd k)) (bad_close (close fd k)).
Proof.
  intros (Hnd & E & Hd & Hb) Hi. destruct (remove_nth cl i fd Hnd Hi) as [Hnd' E'].
  assert (fd ∈ (list_to_set cl : gset Z)) as Hin by by eapply elem_of_list_to_set, list_elem_of_lookup_2.
  destruct (accounted_close base (list_to_set cl) fd k) as (E1 & E2 & E3); [done..|].
  rewrite <-E' in E1, E2. done.
Qed.

(** *** select *)

Lemma fd_sets_ok cl R m :
  Forall (λ fd, 0 <= fd < FD_SETSIZE) cl →
  ∃ m', fd_sets cl R m = Go (list_to_set cl ∪ R, m') ∧ m <= m' ∧ Forall (λ fd, fd <= m') cl.
Proof.
  intros H. revert R m. induction H as [|fd cl [H0 H1] _ IH]; intros R m; cbn [fd_sets].
  - exists m. split_and!; [|lia|done]. do 2 f_equal. set_solver.
  - rewrite (proj2 (Z.leb_le 0 fd)), (proj2 (Z.ltb_lt fd _)) by done. cbn [andb].
    destruct (IH ({[fd]} ∪ R) (m `max` fd)) as (m' & -> & Hm & Hall). exists m'. split_and!.
    + do 2 f_equal. cbn. set_solver.
    + lia.
    + constructor; [lia|done].
Qed.

Lemma select_scan_keeps J isset fuel i :
  triple J (λ l k, select_inv l k ∧ (length l - i < fuel)%nat) (select_scan fuel i isset)
         (λ _, select_inv).
Proof.
  revert i. induction fuel as [|fuel IH]; intros i; [intros l k [_ H]; lia|]. cbn [select_scan].
  eapply triple_bind.
  { apply triple_local with (Q := λ a l k, a = l ∧ select_inv l k ∧ (length l - i < S fuel)%nat). auto. }
  intros cl. destruct (cl !! i) as [fd|] eqn:Hi; [|apply triple_ret; tauto].
  pose proof (lookup_lt_Some _ _ _ Hi).
  destruct (isset fd); [|eapply triple_pre, IH; intros l k (-> & Hl & Hf); split; [done|lia]].
  eapply triple_bind.
  { apply triple_reads with (Q := λ _ l k, cl = l ∧ select_inv l k ∧ (length l - i < S fuel)%nat).
    intros l k k' _ (-> & [Hr Ht] & Hf) Hk. split_and!; [done|split; [done|]|done].
    by apply (tracked_same _ k). }
  intros [].
  - eapply triple_pre, IH. intros l k (-> & Hl & Hf). split; [done|lia].
  - eapply triple_bind.
    { apply triple_does with (Q := λ _ l k, select_inv (delete i cl) k ∧ (length cl - i < S fuel)%nat).
      intros l k (-> & [Hr Ht] & Hf). split; [|done]. split; [by apply Forall_delete|].
      by apply tracked_close. }
    intros ?. eapply triple_bind; [|intros ?; apply IH].
    apply triple_set with (Q := λ _ l k, select_inv l k ∧ (length l - i < fuel)%nat).
    intros l k [Hl Hf]. split; [done|]. rewrite length_delete by eauto. lia.
Qed.

Lemma select_add_keeps J fd n :
  triple J
    (λ l k, ∃ X, (Forall (λ fd, 0 <= fd < FD_SETSIZE) l ∧ tracked l X (bad_close k)) ∧
       fd ∉ X ∧ 0 <= fd ∧ open_fds k = X ∪ {[fd]} ∧ length (backlog k) = n)
    (select_add fd)
    (λ _ l k, select_inv l k ∧ length (backlog k) = n).
Proof.
  unfold select_add. destruct (Z.leb_spec FD_SETSIZE fd) as [Hbig|Hsmall].
  - apply triple_does. intros l k (X & [Hr Ht] & Hfd & H0 & E & Hn).
    split; [|done]. split; [done|]. cbn. rewrite E, bool_decide_true by set_solver.
    replace ((X ∪ {[fd]}) ∖ {[fd]}) with X by set_solver. by rewrite orb_false_r.
  - intros l k (X & [Hr Ht] & Hfd & H0 & E & Hn). eexists (Go ()), _, _. split; [reflexivity|].
    split; [|done]. cbn. split; [apply Forall_app; split; [done|by constructor]|].
    rewrite E. by apply tracked_app.
Qed.

Lemma select_turn_keeps r :
  triple select_inv select_inv (select_turn listener r) (λ _, select_inv).
Proof.
  intros l k HI. unfold select_turn. unfold mbind at 1, step_bind at 1, local at 1. cbn [fst].
  destruct (fd_sets_ok l {[listener]} listener) as (m & -> & _); [by destruct HI|].
  unfold mbind at 1, step_bind at 1, ending at 1. destruct r as [| |evs].
  - by exists (Go ()), l, k.
  - by apply (triple_die _ _ (λ _ _, True)).
  - generalize (select_isset evs (list_to_set l ∪ {[listener]}) m). intros isset. revert l k HI.
    change (triple select_inv select_inv
      ((if isset listener then accept_available select_add else mret ()) ;;
       now ← local; select_scan (S (length now)) 0 isset) (λ _, select_inv)).
    eapply triple_bind.
    { destruct (isset listener); [|by apply triple_ret with (Q := λ _, select_inv)].
      apply (triple_accept _ (λ l X b,
        Forall (λ fd, 0 <= fd < FD_SETSIZE) l ∧ tracked l X b)). intros. apply select_add_keeps. }
    intros ?. eapply triple_bind; [apply triple_local with (Q := λ a l k, a = l ∧ select_inv l k); auto|].
    intros now. eapply triple_pre, select_scan_keeps. intros l k [-> Hl]. split; [done|lia].
Qed.

(** *** poll *)

Lemma poll_scan_keeps J fuel i :
  triple J (λ l k, poll_inv l k ∧ (length l - S i < fuel)%nat) (poll_scan fuel (S i)) (λ _, poll_inv).
Proof.
  revert i. induction fuel as [|fuel IH]; intros i; [intros l k [_ H]; lia|]. cbn [poll_scan].
  eapply triple_bind.
  { apply triple_local with (Q := λ a l k, a = l ∧ poll_inv l k ∧ (length l - S i < S fuel)%nat). auto. }
  intros fds. destruct (fds !! S i) as [[fd rev]|] eqn:Hi; [|apply triple_ret; tauto].
  pose proof (lookup_lt_Some _ _ _ Hi). cbn [revents pfd].
  set (P := λ l k, fds = l ∧ poll_inv l k ∧ (length l - S i < S fuel)%nat).
  assert (triple J P (poll_scan fuel (S (S i))) (λ _, poll_inv)) as Hnext.
  { eapply triple_pre, IH. intros l k (-> & Hl & Hf). split; [done|lia]. }
  assert (triple J P
    (does (close fd) ;; set_local (delete (S i) fds) ;; poll_scan fuel (S i)) (λ _, poll_inv)) as Hremove.
  { eapply triple_bind.
    { apply triple_does with (Q := λ _ l k, poll_inv (delete (S i) fds) k ∧ (length fds - S i < S fuel)%nat).
      intros l k (-> & [Hh Ht] & Hf). split; [|done]. destruct l as [|p l]; [done|].
      split; [done|].
      change (tail (delete (S i) (p :: l))) with (delete i l). rewrite list_fmap_delete.
      apply tracked_close; [done|]. rewrite list_lookup_fmap.
      change (l !! i = Some (Pollfd fd rev)) in Hi. cbn [tail]. by rewrite Hi. }
    intros ?. eapply triple_bind; [|intros ?; apply IH].
    apply triple_set with (Q := λ _ l k, poll_inv l k ∧ (length l - S i < fuel)%nat).
    intros l k [Hl Hf]. split; [done|]. rewrite length_delete by eauto. lia. }
  destruct (some_flag rev); [|done]. destruct (pollnval rev); [done|].
  eapply triple_bind with (Q := λ _, P); [|intros alive; by destruct (negb alive || pollerr rev)].
  apply triple_reads. intros l k k' _ (-> & [Hh Ht] & Hf) Hk. split_and!; [done|split; [done|]|done].
  by apply (tracked_same _ k).
Qed.

Lemma poll_add_keeps J fd n :
  triple J
    (λ l k, ∃ X, ((∃ f, head l = Some (Pollfd listener f)) ∧
                   tracked (pfd <$> tail l) X (bad_close k)) ∧
       fd ∉ X ∧ 0 <= fd ∧ open_fds k = X ∪ {[fd]} ∧ length (backlog k) = n)
    (poll_add fd)
    (λ _ l k, poll_inv l k ∧ length (backlog k) = n).
Proof.
  intros l k (X & [[f Hh] Ht] & Hfd & _ & E & Hn). eexists (Go ()), _, k. split; [reflexivity|].
  destruct l as [|p l]; [done|]. injection Hh as ->. split; [|done]. split; [by eexists|].
  change (tail _) with (l ++ [Pollfd fd no_flags]). rewrite fmap_app, E. by apply tracked_app.
Qed.

Lemma poll_turn_keeps r : triple poll_inv poll_inv (poll_turn r) (λ _, poll_inv).
Proof.
  destruct r as [| |evs]; [by apply triple_ret|by apply triple_die|].
  eapply triple_bind with (Q := λ _, poll_inv).
  { intros fds k [[f Hh] Ht]. eexists (Go ()), _, k. split; [reflexivity|].
    destruct fds as [|p fds]; [done|]. injection Hh as ->. split; [by eexists|]. cbn [tail fmap list_fmap] in *.
    by rewrite <-list_fmap_compose. }
  intros ?. eapply triple_bind; [apply triple_local with (Q := λ a l k, a = l ∧ poll_inv l k); auto|].
  intros [|p fds]; [intros l k [<- [[f Hh] _]]; done|].
  eapply triple_bind with (Q := λ _, poll_inv).
  { eapply triple_pre with (P' := poll_inv); [tauto|]. destruct (pollin _); [|by apply triple_ret].
    apply (triple_accept _ (λ l X b, (∃ f, head l = Some (Pollfd listener f)) ∧
                                     tracked (pfd <$> tail l) X b)).
    intros. apply poll_add_keeps. }
  intros ?. eapply triple_bind; [apply triple_local with (Q := λ a l k, a = l ∧ poll_inv l k); auto|].
  intros now. eapply triple_pre, poll_scan_keeps. intros l k [-> Hl]. split; [done|].
  destruct l; [by destruct Hl as [[? ?] _]|]. cbn. lia.
Qed.

(** *** epoll *)

Context (listener_base : listener ∈ base).

(** While a batch is served its remaining clients stay watched. *)
Definition serving (evs : list (Z * flags)) (watched X : gset Z) (bad : bool) : Prop :=
  (∃ Y, watched = {[listener]} ∪ Y ∧ X = base ∪ Y ∧ Y ## base ∧ bad = false) ∧
  NoDup evs.*1 ∧ Forall (λ e, e.1 ∈ watched) evs.

Lemma epoll_add_keeps J evs fd n :
  triple J
    (λ l k, ∃ X, serving evs l X (bad_close k) ∧
       fd ∉ X ∧ 0 <= fd ∧ open_fds k = X ∪ {[fd]} ∧ length (backlog k) = n)
    (epoll_add listener fd)
    (λ _ l k, serving evs l (open_fds k) (bad_close k) ∧ length (backlog k) = n).
Proof using listener_base.
  intros l k (X & [(Y & El & EX & Hd & Hb) [Hnd Hall]] & Hfd & _ & E & Hn).
  assert (fd ≠ listener) as Hne by (intros ->; set_solver).
  unfold epoll_add. unfold mbind at 1, step_bind at 1, sys at 1. unfold syscall.
  destruct (default true (head (oks k))).
  - eexists (Go ()), _, _. split; [reflexivity|]. split; [|done]. split_and!; [|done|].
    + exists (Y ∪ {[fd]}). cbn. split_and!; [set_solver..|done].
    + eapply Forall_impl; [exact Hall|]. intros e He. cbn. set_solver.
  - unfold mbind, step_bind, does. rewrite (proj2 (Z.eqb_neq _ _) Hne).
    eexists (Go ()), l, _. split; [reflexivity|]. split; [|done]. split_and!; [|done..].
    exists Y. cbn. rewrite E, Hb, bool_decide_true by set_solver. split_and!; [done|set_solver|done..].
Qed.

Lemma epoll_events_keeps J evs :
  triple J (λ l k, serving evs l (open_fds k) (bad_close k)) (epoll_events listener evs)
         (λ _, epoll_inv).
Proof using listener_base.
  induction evs as [|[fd f] evs IH]; cbn [epoll_events].
  { apply triple_ret. intros l k [(Y & -> & E & Hd & Hb) _]. by exists Y. }
  assert (∀ l k, serving ((fd, f) :: evs) l (open_fds k) (bad_close k) →
                 serving evs l (open_fds k) (bad_close k)) as Hmore.
  { intros l k (HY & Hnd & Hall). cbn in Hnd. split_and!; [done|by inversion Hnd|by inversion Hall]. }
  eapply triple_bind with (Q := λ _ l k, serving evs l (open_fds k) (bad_close k)); [|intros ?; apply IH].
  destruct (Z.eqb_spec fd listener) as [->|Hne].
  { eapply triple_pre; [exact Hmore|].
    apply (triple_accept _ (serving evs)). intros. apply epoll_add_keeps. }
  destruct (pollin f || pollhup f || pollerr f); [|by apply triple_ret].
  eapply triple_bind with (Q := λ _ l k, serving ((fd, f) :: evs) l (open_fds k) (bad_close k)).
  { apply triple_reads. intros l k k' _ HS (_ & -> & -> & _). exact HS. }
  intros alive. destruct (negb alive || pollerr f); [|by apply triple_ret].
  intros l k ((Y & El & EX & Hd & Hb) & Hnd & Hall). eexists (Go ()), _, _. split; [reflexivity|].
  cbn in Hnd. apply NoDup_cons in Hnd as [Hfd Hnd]. apply Forall_cons in Hall as [Hin Hall].
  cbn in Hin. assert (fd ∈ Y) as HfY by set_solver.
  destruct (accounted_close base Y fd k) as (E1 & E2 & E3); [done|done|].
  split_and!; [|done|].
  - exists (Y ∖ {[fd]}). split_and!; [set_solver|done..].
  - apply Forall_forall. intros e He. rewrite Forall_forall in Hall.
    assert (e.1 ≠ fd) as Hef by (intros <-; apply Hfd; by apply list_elem_of_fmap_2). set_solver.
Qed.

(** The kernel reports a descriptor once per [epoll_wait]. *)
Definition once (r : round) : Prop :=
  match wait r with Ready evs => NoDup evs.*1 | _ => True end.

Lemma epoll_turn_keeps r :
  once r → triple epoll_inv epoll_inv (epoll_turn listener (wait r)) (λ _, epoll_inv).
Proof using listener_base.
  unfold once. destruct (wait r) as [| |evs]; intros Hr; [by apply triple_ret|by apply triple_die|].
  eapply triple_bind; [apply triple_local with (Q := λ a l k, a = l ∧ epoll_inv l k); auto|].
  intros watched. eapply triple_pre, epoll_events_keeps.
  intros l k (-> & Y & El & E & Hd & Hb). split_and!; [by exists Y| |].
  - unfold epoll_wait. eapply sublist_NoDup; [exact Hr|].
    apply fmap_sublist. etransitivity; [apply sublist_take|apply sublist_filter].
  - apply Forall_take, Forall_forall. intros e He. by apply list_elem_of_filter in He as [? _].
Qed.
End accounts.

(** [run_epoll] up to its loop: the two calls of the set-up have succeeded. *)
Definition epoll_ready (k : kernel) : kernel :=
  snd (syscall (opened (lowest (open_fds k)) [] (snd (syscall k)))).
Lemma run_epoll_starts listener k rs :
  (∃ watched k', run_epoll listener rs (∅, k) = Some (Exit 1, (watched, k'))) ∨
  run_epoll listener rs (∅, k) = loop (epoll_turn listener) rs ({[listener]}, epoll_ready k).
Proof.
  assert ((∅ : gset Z) ∪ {[listener]} = {[listener]}) as E by set_solver.
  destruct k as [[|[] [|[] oks]] X b q i o e];
    unfold run_epoll, new_fd, epoll_add, syscall, die, mbind, mret, step_bind, step_ret, sys, does,
      local, set_local, ending; cbn -[loop lowest union empty singleton lit complain epoll_turn];
    rewrite ?Z.eqb_refl, ?E; eauto.
Qed.

(** C17. C40: From a listener that is open, on any kernel and any rounds, none of the three
    loops gets stuck or reaches undefined behaviour: it waits for the next round or has
    called [exit(1)]; between two rounds the open descriptors are those of the start and
    exactly the watched clients, each once, and no descriptor was closed twice. *)
Theorem loops_account_descriptors listener k rs :
  listener ∈ open_fds k → bad_close k = false → Forall once rs →
  (∃ r cl k', run_select listener rs ([], k) = Some (r, (cl, k')) ∧
     (r = Exit 1 ∨ r = Running ∧ select_inv (open_fds k) cl k')) ∧
  (∃ r fds k', run_poll listener rs ([], k) = Some (r, (fds, k')) ∧
     (r = Exit 1 ∨ r = Running ∧ poll_inv (open_fds k) listener fds k')) ∧
  (∃ r watched k' base, run_epoll listener rs (∅, k) = Some (r, (watched, k')) ∧
     (r = Exit 1 ∨ r = Running ∧ epoll_inv base listener watched k' ∧
        base = open_fds k ∪ {[lowest (open_fds k)]})).
Proof.
  intros Hl Hb Hr. set (base := open_fds k).
  assert (∀ X, tracked X [] X false) as Hempty.
  { intros X. split_and!; [constructor|set_solver..|done]. }
  split_and!.
  - unfold run_select. destruct (FD_SETSIZE <=? listener); [eexists (Exit 1), _, _; split; [reflexivity|by left]|].
    destruct (triple_loop (select_inv base) (select_turn listener) rs) with (l := @nil Z) (k := k)
      as (r & cl & k' & E & HQ).
    + done.
    + intros. apply select_turn_keeps.
    + split; [done|]. rewrite Hb. apply Hempty.
    + exists r, cl, k'. split; [exact E|]. destruct r; cbn in HQ; try done; subst; auto.
  - destruct (triple_loop (poll_inv base listener) poll_turn rs)
      with (l := [Pollfd listener no_flags]) (k := k) as (r & fds & k' & E & HQ).
    + done.
    + intros. apply poll_turn_keeps.
    + split; [by eexists|]. rewrite Hb. apply Hempty.
    + exists r, fds, k'. split; [exact E|]. destruct r; cbn in HQ; try done; subst; auto.
  - destruct (run_epoll_starts listener k rs) as [(W & k' & ->)| ->].
    { eexists (Exit 1), _, _, ∅. split; [reflexivity|by left]. }
    set (fd := lowest (open_fds k)).
    destruct (triple_loop (epoll_inv (base ∪ {[fd]}) listener) (epoll_turn listener) rs)
      with (l := {[listener]} : gset Z) (k := epoll_ready k) as (r & W & k' & E & HQ).
    + done.
    + intros r Hin. rewrite Forall_forall in Hr. apply epoll_turn_keeps; [set_solver|by apply Hr].
    + exists ∅. split; [set_solver|]. split_and!; [cbn; set_solver|set_solver|done].
    + exists r, W, k', (base ∪ {[fd]}). split; [exact E|]. destruct r; cbn in HQ; try done; subst; auto.
Qed.

(** ** The three loops agree *)

(** What [accept_available] accepts: the new descriptors in order. *)
Fixpoint gather (fuel : nat) (k : kernel) : option (list Z * kernel) :=
  match fuel with
  | O => None
  | S fuel =>
      match accept4 k with
      | (inl fd, k') =>
          '(fds, k'') ← gather fuel (print (accepted_line fd) k'); Some (fd :: fds, k'')
      | (inr EINTR, k') => gather fuel k'
      | (inr EAGAIN, k') => Some ([], k')
      | (inr Eother, k') => Some ([], complain (lit "accept4") k')
      end
  end.

(** Reading the clients that are ready, in order: those that stay. *)
Fixpoint sweep (ready : Z → bool) (cl : list Z) (k : kernel) : option (list Z * kernel) :=
  match cl with
  | [] => Some ([], k)
  | fd :: cl =>
      if ready fd then
        '(alive, k') ← read_available fd k;
        '(stay, k'') ← sweep ready cl (if (alive : bool) then k' else close fd k');
        Some (if (alive : bool) then fd :: stay else stay, k'')
      else
        '(stay, k'') ← sweep ready cl k; Some (fd :: stay, k'')
  end.

(** The kernel has room below [FD_SETSIZE] for what waits, and no call fails. *)
Definition calm (k : kernel) : Prop :=
  oks k = [] ∧ Z.of_nat (base.size (open_fds k) + length (backlog k)) <= FD_SETSIZE.

Lemma gather_total fuel k :
  (length (backlog k) < fuel)%nat → calm k →
  ∃ fds k', gather fuel k = Some (fds, k') ∧ oks k' = [] ∧ NoDup fds ∧
    Forall (λ fd, fd ∉ open_fds k ∧ 0 <= fd < FD_SETSIZE) fds.
Proof.
  revert k. induction fuel as [|fuel IH]; intros k Hf [Ho Hs]; [lia|].
  cbn [gather]. unfold accept4. destruct (backlog k) as [|[s|e] q] eqn:Eq; cbn in Hf.
  - exists [], k. split_and!; try done. constructor.
  - destruct (lowest_spec (open_fds k)) as [Hn Hr]. set (fd := lowest _) in *. cbn [tail].
    set (k1 := print _ _).
    assert (base.size (open_fds k1) = S (base.size (open_fds k))) as Es.
    { cbn. rewrite size_union by set_solver. rewrite size_singleton. lia. }
    cbn [length] in Hs. destruct (IH k1) as (fds & k' & -> & Ho' & Hnd & Hall).
    { cbn. lia. }
    { split; [done|]. rewrite Es. cbn. lia. }
    exists (fd :: fds), k'. split; [done|]. rewrite Forall_forall in Hall. split_and!; [done| |].
    + constructor; [|done]. intros [Hin _]%Hall. cbn in Hin. set_solver.
    + constructor; [split; [done|lia]|]. apply Forall_forall. intros x [Hx ?]%Hall.
      cbn in Hx. split; [set_solver|done].
  - cbn [length] in Hs. assert (Z.of_nat (base.size (open_fds k) + length q) <= FD_SETSIZE) by lia.
    destruct e.
    + match goal with |- context [gather fuel ?k0] => apply (IH k0) end; [cbn; lia|by split].
    + eexists [], _. split_and!; [reflexivity|done|constructor..].
    + eexists [], _. split_and!; [reflexivity|done|constructor..].
Qed.

(** A loop whose [add_client] appends accepts just that. *)
Lemma accept_loop_gather {L} (add_client : Z → step L unit) (ext : L → Z → L) fuel l k fds k' :
  (∀ fd l k, fd < FD_SETSIZE → oks k = [] → add_client fd (l, k) = Some (Go (), (ext l fd, k))) →
  calm k → (length (backlog k) < fuel)%nat → gather fuel k = Some (fds, k') →
  accept_loop fuel add_client (l, k) = Some (Go (), (foldl ext l fds, k')).
Proof.
  intros Hadd. revert l k fds. induction fuel as [|fuel IH]; intros l k fds [Ho Hs] Hf; [lia|].
  cbn [gather accept_loop]. unfold mbind at 2, step_bind at 1, sys, accept4.
  destruct (backlog k) as [|[s|e] q] eqn:Eq; cbn [length] in Hs, Hf.
  - by intros [= <- <-].
  - destruct (lowest_spec (open_fds k)) as [Hn Hr]. set (fd := lowest _) in *. cbn [tail].
    set (k1 := print _ _). intros H. apply bind_Some in H as ([fds' k2] & H & [= <- <-]).
    assert (base.size (open_fds k1) = S (base.size (open_fds k))) as Es.
    { cbn. rewrite size_union by set_solver. rewrite size_singleton. lia. }
    unfold mbind, step_bind, does. cbn beta iota. fold k1. rewrite Hadd by (done || lia).
    cbn [foldl]. apply IH; [split; [done|rewrite Es; cbn; lia]|cbn; lia|done].
  - assert (Z.of_nat (base.size (open_fds k) + length q) <= FD_SETSIZE) by lia.
    destruct e; [|by intros [= <- <-]..]. cbn [tail].
    intros Hg. apply IH; [by split|cbn; lia|done].
Qed.

Lemma sweep_total ready cl k : ∃ stay k', sweep ready cl k = Some (stay, k').
Proof.
  revert k. induction cl as [|fd cl IH]; intros k; cbn [sweep]; [by eexists _, _|].
  destruct (ready fd).
  - destruct (read_available_total fd k) as (b & k1 & -> & _). cbn.
    destruct (IH (if b then k1 else close fd k1)) as (stay & k' & ->). by eexists _, _.
  - destruct (IH k) as (stay & k' & ->). by eexists _, _.
Qed.

Lemma sweep_ext ready ready' cl k :
  (∀ fd, fd ∈ cl → ready fd = ready' fd) → sweep ready cl k = sweep ready' cl k.
Proof.
  revert k. induction cl as [|fd cl IH]; intros k H; [done|]. cbn [sweep].
  rewrite (H fd) by left.
  assert (∀ k, sweep ready cl k = sweep ready' cl k) as E by (intros; apply IH; intros; apply H; by right).
  destruct (ready' fd); [|by rewrite E]. destruct (read_available fd k) as [[[] k1]|]; [..|done]; cbn;
    by rewrite E.
Qed.

Lemma local_bind {L A} (f : L → step L A) l k : (local ≫= f) (l, k) = f l (l, k).
Proof. reflexivity. Qed.

(** The scans of [run_select] and [run_poll], and the events of [run_epoll], are sweeps. *)
Lemma select_scan_sweep isset rest pre k fuel stay k' :
  (length rest < fuel)%nat → sweep isset rest k = Some (stay, k') →
  select_scan fuel (length pre) isset (pre ++ rest, k) = Some (Go (), (pre ++ stay, k')).
Proof.
  revert rest pre k stay. induction fuel as [|fuel IH]; intros rest pre k stay Hf; [lia|].
  cbn [select_scan]. rewrite local_bind.
  destruct rest as [|fd rest]; cbn [sweep].
  { intros [= <- <-]. rewrite app_nil_r. by rewrite lookup_ge_None_2. }
  cbn in Hf. rewrite list_lookup_middle by done.
  assert (S (length pre) = length (pre ++ [fd])) as El by (rewrite length_app; cbn; lia).
  rewrite (cons_middle fd), app_assoc.
  destruct (isset fd); intros H.
  - apply bind_Some in H as ([alive k1] & Hread & H).
    apply bind_Some in H as ([s k2] & H & [= <- <-]).
    unfold mbind, step_bind, reads. rewrite Hread. destruct alive.
    + rewrite El, (IH _ _ k1 s) by (done || lia). by rewrite <-app_assoc.
    + unfold does, set_local. cbn [snd].
      rewrite <-!app_assoc. cbn [app]. rewrite delete_middle. apply IH; [lia|done].
  - apply bind_Some in H as ([s k2] & H & [= <- <-]).
    rewrite El, (IH _ _ k s) by (done || lia). by rewrite <-app_assoc.
Qed.

(** The entries of [fds] say which clients are ready, and none has failed. *)
Definition marks (ready : Z → bool) (p : pollfd) : Prop :=
  some_flag (revents p) = ready (pfd p) ∧ pollerr (revents p) = false ∧ pollnval (revents p) = false.

Lemma poll_scan_sweep ready rest pre k fuel stay k' :
  (length rest < fuel)%nat → Forall (marks ready) rest →
  sweep ready (pfd <$> rest) k = Some (stay, k') →
  ∃ rest', poll_scan fuel (length pre) (pre ++ rest, k) = Some (Go (), (pre ++ rest', k')) ∧
    pfd <$> rest' = stay.
Proof.
  revert rest pre k stay. induction fuel as [|fuel IH]; intros rest pre k stay Hf Hm; [lia|].
  cbn [poll_scan]. rewrite local_bind.
  destruct Hm as [|p rest (Hp1 & Hp2 & Hp3) Hm]; cbn [sweep fmap list_fmap].
  { intros [= <- <-]. exists []. rewrite app_nil_r. by rewrite lookup_ge_None_2. }
  cbn in Hf. rewrite list_lookup_middle by done. rewrite Hp1, Hp3, Hp2.
  assert (S (length pre) = length (pre ++ [p])) as El by (rewrite length_app; cbn; lia).
  rewrite (cons_middle p), app_assoc.
  destruct (ready (pfd p)); intros H.
  - apply bind_Some in H as ([alive k1] & Hread & H).
    apply bind_Some in H as ([s k2] & H & [= <- <-]).
    unfold mbind, step_bind, reads. rewrite Hread. destruct alive; cbn [negb orb].
    + destruct (IH rest (pre ++ [p]) k1 s) as (rest' & E & <-); [lia|done..|].
      rewrite El, E. exists (p :: rest'). by rewrite <-app_assoc.
    + unfold does, set_local. cbn [snd].
      rewrite <-!app_assoc. cbn [app]. rewrite delete_middle.
      destruct (IH rest pre (close (pfd p) k1) s) as (rest' & -> & <-); [lia|done..|]. eauto.
  - apply bind_Some in H as ([s k2] & H & [= <- <-]).
    destruct (IH rest (pre ++ [p]) k s) as (rest' & E & <-); [lia|done..|].
    rewrite El, E. exists (p :: rest'). by rewrite <-app_assoc.
Qed.

Lemma epoll_events_sweep listener (ready : Z → bool) evs cl B k stay k' :
  evs.*1 = filter (λ fd, ready fd = true) cl → Forall (λ e, pollin e.2 = true ∧ pollerr e.2 = false) evs →
  NoDup cl → listener ∉ cl → B ## list_to_set cl →
  sweep ready cl k = Some (stay, k') →
  epoll_events listener evs (B ∪ list_to_set cl, k) = Some (Go (), (B ∪ list_to_set stay, k')).
Proof.
  revert evs B k stay. induction cl as [|fd cl IH]; intros evs B k stay He Hf Hnd Hl HB; cbn [sweep].
  { intros [= <- <-]. cbn in He. by destruct evs. }
  apply NoDup_cons in Hnd as [Hfd Hnd]. apply not_elem_of_cons in Hl as [Hne Hl].
  assert (∀ (B : gset Z) l, B ∪ list_to_set (fd :: l) = (B ∪ {[fd]}) ∪ list_to_set l) as Eu by set_solver.
  rewrite (Eu B cl). rewrite filter_cons in He. destruct (ready fd) eqn:Er; intros H.
  - rewrite decide_True in He by done. destruct evs as [|[fd' f] evs]; [done|].
    injection He as -> He. apply Forall_cons in Hf as [[Hin Herr] Hf]. cbn in Hin, Herr.
    apply bind_Some in H as ([alive k1] & Hread & H).
    apply bind_Some in H as ([s k2] & H & [= <- <-]).
    cbn [epoll_events]. rewrite (proj2 (Z.eqb_neq fd listener)) by done. rewrite Hin, Herr.
    unfold mbind, step_bind, reads. cbn [orb]. rewrite Hread. destruct alive; cbn [negb orb].
    + rewrite (Eu B s). apply IH; try done. set_solver.
    + unfold does, set_local, local. cbn [fst snd].
      replace (((B ∪ {[fd]}) ∪ list_to_set cl) ∖ {[fd]}) with (B ∪ list_to_set cl)
        by (apply set_eq; intros x; pose proof (elem_of_list_to_set (C := gset Z) x cl);
            destruct (decide (x = fd)); set_solver).
      apply IH; try done. set_solver.
  - rewrite decide_False in He by done.
    apply bind_Some in H as ([s k2] & H & [= <- <-]). rewrite (Eu B s).
    apply IH; try done. set_solver.
Qed.

(** *** One turn *)

Lemma flags_of_plain evs fd :
  NoDup evs.*1 → Forall (λ e, pollin e.2 = true ∧ pollerr e.2 = false) evs →
  if bool_decide (fd ∈ evs.*1)
  then pollin (flags_of evs fd) = true ∧ pollerr (flags_of evs fd) = false
  else flags_of evs fd = no_flags.
Proof.
  intros Hnd Hf. unfold flags_of. case_bool_decide as Hin.
  - apply list_elem_of_fmap in Hin as ([fd' f] & -> & Hin).
    rewrite (elem_of_list_to_map_1 _ fd' f) by done. rewrite Forall_forall in Hf. by apply (Hf _ Hin).
  - by rewrite not_elem_of_list_to_map_1.
Qed.

Lemma filter_sublist (P : Z → Prop) `{!∀ x, Decision (P x)} l1 l2 :
  l1 `sublist_of` l2 → NoDup l2 → (∀ x, x ∈ l2 → P x ↔ x ∈ l1) → filter P l2 = l1.
Proof.
  induction 1 as [|x l1 l2 Hs IH|x l1 l2 Hs IH]; intros Hnd HP; [done|..];
    apply NoDup_cons in Hnd as [Hx Hnd]; rewrite filter_cons.
  - rewrite decide_True by (apply HP; left). f_equal. apply IH; [done|].
    intros y Hy. rewrite HP by (by right). rewrite elem_of_cons.
    split; [|auto]. intros [->|?]; [done|done].
  - rewrite decide_False.
    + apply IH; [done|]. intros y Hy. apply HP. by right.
    + rewrite HP by left. intros Hin. apply Hx. by eapply elem_of_sublist.
Qed.

Lemma filter_all {A} (P : A → Prop) `{!∀ x, Decision (P x)} l : Forall P l → filter P l = l.
Proof. induction 1 as [|x l Hx _ IH]; [done|]. by rewrite filter_cons, decide_True, IH. Qed.

(** Accepting the backlog when the listener is ready, whatever the loop. *)
Lemma accept_phase (b : bool) k :
  calm k →
  ∃ N k', NoDup N ∧ Forall (λ fd, fd ∉ open_fds k ∧ 0 <= fd < FD_SETSIZE) N ∧
    ∀ L (add : Z → step L unit) (ext : L → Z → L) l,
      (∀ fd l k, fd < FD_SETSIZE → oks k = [] → add fd (l, k) = Some (Go (), (ext l fd, k))) →
      (if b then accept_available add else mret ()) (l, k) = Some (Go (), (foldl ext l N, k')).
Proof.
  intros Hk. destruct b.
  - destruct (gather_total (S (length (backlog k))) k) as (N & k' & E & _ & Hnd & Hall); [lia|done|].
    exists N, k'. split_and!; [done..|]. intros L add ext l Hadd.
    by apply (accept_loop_gather add ext (S (length (backlog k)))); [..|lia|].
  - exists [], k. split_and!; [constructor..|]. done.
Qed.

Lemma foldl_append {A} (f : Z → A) l N :
  foldl (λ l fd, l ++ [f fd]) l N = l ++ (f <$> N).
Proof.
  revert l. induction N as [|fd N IH]; intros l; cbn; [by rewrite app_nil_r|].
  by rewrite IH, <-app_assoc.
Qed.
Lemma foldl_union (W : gset Z) N : foldl (λ W fd, W ∪ {[fd]}) W N = W ∪ list_to_set N.
Proof. revert W. induction N as [|fd N IH]; intros W; cbn; [|rewrite IH]; set_solver. Qed.

(** The same clients in the three representations. *)
Definition agree (listener : Z) (cl : list Z) (fds : list pollfd) (watched : gset Z) : Prop :=
  pfd <$> fds = listener :: cl ∧ watched = {[listener]} ∪ list_to_set cl.

(** A round on which the three interfaces promise the same: the wait does not fail,
    readiness is reported in the order of the watched descriptors, without an error
    condition, at most 64 at a time; no call fails and the new clients fit [fd_set]. *)
Definition orderly (listener : Z) (cl : list Z) (k : kernel) (r : waited) : Prop :=
  match r with
  | Interrupted => True
  | WaitFails => False
  | Ready evs =>
      evs.*1 `sublist_of` (listener :: cl) ∧
      Forall (λ e, pollin e.2 = true ∧ pollerr e.2 = false) evs ∧
      (length evs ≤ MAX_EVENTS)%nat ∧ calm k
  end.

Section turns.
Context (base : gset Z) (listener : Z) (listener_base : listener ∈ base).
Context (cl : list Z) (fds : list pollfd) (W : gset Z) (k : kernel) (evs : list (Z * flags)).
Context (Hinv : select_inv base cl k) (Hag : agree listener cl fds W).
Context (Hord : orderly listener cl k (Ready evs)).

Let ready (fd : Z) : bool := bool_decide (fd ∈ evs.*1).
Lemma all_NoDup : NoDup (listener :: cl).
Proof using Hinv listener_base.
  clear -Hinv listener_base. destruct Hinv as (_ & Hnd & _ & Hd & _). constructor; [set_solver|done].
Qed.

Lemma listed_open fd : fd ∈ listener :: cl → fd ∈ open_fds k.
Proof using Hinv listener_base. clear -Hinv listener_base. destruct Hinv as (_ & _ & -> & _). set_solver. Qed.

Lemma evs_NoDup : NoDup evs.*1.
Proof using Hinv listener_base Hord. eapply sublist_NoDup; [apply all_NoDup|by destruct Hord]. Qed.

Lemma plain_flags fd :
  if ready fd then pollin (flags_of evs fd) = true ∧ pollerr (flags_of evs fd) = false
  else flags_of evs fd = no_flags.
Proof using Hinv listener_base Hord. apply flags_of_plain; [apply evs_NoDup|]. by destruct Hord as (_ & ? & _). Qed.

Lemma select_ready m fd :
  Forall (λ fd, fd <= m) cl → listener <= m → fd ∈ listener :: cl →
  select_isset evs (list_to_set cl ∪ {[listener]}) m fd = ready fd.
Proof using Hinv listener_base Hord.
  intros Hm Hl Hfd. unfold select_isset.
  rewrite bool_decide_true by (clear -Hfd; set_solver).
  assert (fd <= m) as Hle.
  { apply elem_of_cons in Hfd as [->|Hfd]; [done|]. rewrite Forall_forall in Hm. by apply Hm. }
  rewrite (proj2 (Z.ltb_lt fd (m + 1))) by lia. cbn [andb].
  pose proof (plain_flags fd) as Hf. destruct (ready fd); [by destruct Hf as [-> _]|by rewrite Hf].
Qed.

Lemma poll_ready fd :
  fd ∈ listener :: cl → marks ready (polled evs k (Pollfd fd no_flags)).
Proof using Hinv listener_base Hord.
  intros Hfd. unfold marks, polled. cbn [pfd revents].
  rewrite bool_decide_true by by apply listed_open. unfold some_flag. cbn.
  pose proof (plain_flags fd) as Hf. destruct (ready fd).
  - by destruct Hf as [-> ->].
  - by rewrite Hf.
Qed.

(** The clients that have just been accepted are not ready. *)
Lemma not_ready fd : fd ∉ open_fds k → ready fd = false.
Proof using Hinv listener_base Hord.
  intros Hfd. apply bool_decide_eq_false_2. intros Hin. apply Hfd, listed_open.
  eapply elem_of_sublist; [exact Hin|]. by destruct Hord.
Qed.

Context (N : list Z) (k1 k2 : kernel) (stay : list Z).
Context (HN : NoDup N) (Hfresh : Forall (λ fd, fd ∉ open_fds k ∧ 0 <= fd < FD_SETSIZE) N).
Context (Hacc : ∀ L (add : Z → step L unit) (ext : L → Z → L) l,
  (∀ fd l k, fd < FD_SETSIZE → oks k = [] → add fd (l, k) = Some (Go (), (ext l fd, k))) →
  (if ready listener then accept_available add else mret ()) (l, k)
  = Some (Go (), (foldl ext l N, k1))).
Context (Hsweep : sweep ready (cl ++ N) k1 = Some (stay, k2)).

Lemma select_turn_sweeps : select_turn listener (Ready evs) (cl, k) = Some (Go (), (stay, k2)).
Proof using Hinv listener_base Hord Hacc Hsweep Hfresh.
  unfold select_turn. rewrite local_bind.
  destruct (fd_sets_ok cl {[listener]} listener) as (m & -> & Hm & Hle); [by destruct Hinv|].
  unfold mbind at 1, step_bind at 1, ending at 1.
  rewrite select_ready by (done || left).
  unfold mbind at 1, step_bind at 1.
  rewrite (Hacc _ select_add (λ l fd, l ++ [fd])).
  2: { intros fd l k0 Hfd _. unfold select_add. by rewrite (proj2 (Z.leb_gt _ _) Hfd). }
  rewrite (foldl_append (λ fd, fd)), list_fmap_id, local_bind.
  apply (select_scan_sweep _ (cl ++ N) []); [lia|]. rewrite <-Hsweep. apply sweep_ext.
  intros fd [Hfd|Hfd]%elem_of_app; [apply select_ready; [done..|by right]|].
  rewrite Forall_forall in Hfresh. destruct (Hfresh fd Hfd) as [Hn _].
  rewrite not_ready by done. unfold select_isset.
  rewrite bool_decide_false; [done|]. intros Hin. apply Hn, listed_open. clear -Hin. set_solver.
Qed.

Lemma poll_turn_sweeps :
  ∃ fds', poll_turn (Ready evs) (fds, k) = Some (Go (), (fds', k2)) ∧ pfd <$> fds' = listener :: stay.
Proof using Hinv Hag listener_base Hord Hacc Hsweep Hfresh.
  destruct Hag as [Efds _]. unfold poll_turn. unfold mbind at 1, step_bind at 1. rewrite local_bind.
  destruct fds as [|p ps]; [done|]. injection Efds as Ep Eps.
  assert (∀ p, polled evs k p = polled evs k (Pollfd (pfd p) no_flags)) as Epol by done.
  cbn [fmap list_fmap]. unfold mbind at 1, step_bind at 1.
  pose proof (poll_ready listener ltac:(left)) as (Hsome & Herr & _).
  assert (pollin (revents (polled evs k p)) = ready listener) as ->.
  { rewrite Epol, Ep. unfold polled. cbn [pfd]. rewrite bool_decide_true by (apply listed_open; left). cbn.
    pose proof (plain_flags listener) as Hf. destruct (ready listener); [by destruct Hf|by rewrite Hf]. }
  rewrite (Hacc _ poll_add (λ l fd, l ++ [Pollfd fd no_flags])) by done.
  rewrite foldl_append, local_bind. cbn [app].
  set (rest := (polled evs k <$> ps) ++ ((λ fd, Pollfd fd no_flags) <$> N)).
  change (polled evs k <$> ps) with (list_fmap _ _ (polled evs k) ps). fold rest.
  assert (pfd <$> rest = cl ++ N) as Erest.
  { unfold rest. rewrite fmap_app, <-!list_fmap_compose, <-Eps. f_equal. apply list_fmap_id. }
  destruct (poll_scan_sweep ready rest [polled evs k p] k1 (length (polled evs k p :: rest)) stay k2)
    as (rest' & E & Es); [cbn; lia| |by rewrite Erest|].
  - apply Forall_app. split; apply Forall_fmap, Forall_forall; intros x Hx; cbn.
    + rewrite Epol. apply poll_ready. right. rewrite <-Eps. by apply list_elem_of_fmap_2.
    + rewrite Forall_forall in Hfresh. destruct (Hfresh x Hx) as [Hn _].
      split_and!; [|done..]. by rewrite not_ready.
  - exists (polled evs k p :: rest'). split; [exact E|]. cbn. by rewrite Ep, Es.
Qed.

Lemma epoll_turn_sweeps :
  epoll_turn listener (Ready evs) (W, k) = Some (Go (), ({[listener]} ∪ list_to_set stay, k2)).
Proof using Hinv Hag listener_base Hord Hacc Hsweep Hfresh HN.
  destruct Hag as [_ EW]. destruct Hord as (Hsub & Hplain & Hlen & _).
  unfold epoll_turn. rewrite local_bind. unfold epoll_wait.
  rewrite filter_all.
  2: { apply Forall_forall. intros e He. rewrite EW, elem_of_union, elem_of_singleton, elem_of_list_to_set.
       apply elem_of_cons. eapply elem_of_sublist; [by apply list_elem_of_fmap_2|done]. }
  rewrite take_ge by done.
  pose proof all_NoDup as [Hlcl Hcl]%NoDup_cons.
  assert (NoDup (cl ++ N)) as Hnd.
  { apply NoDup_app. split_and!; [done| |done]. intros x Hx Hx'. rewrite Forall_forall in Hfresh.
    destruct (Hfresh x Hx') as [Hn _]. apply Hn, listed_open. by right. }
  assert (listener ∉ N) as HlN.
  { intros Hx. rewrite Forall_forall in Hfresh. destruct (Hfresh _ Hx) as [Hn _].
    apply Hn, listed_open. left. }
  assert (Hserve : ∀ evs2, evs2.*1 `sublist_of` cl → (∀ x, x ∈ cl ++ N → ready x = true ↔ x ∈ evs2.*1) →
    Forall (λ e, pollin e.2 = true ∧ pollerr e.2 = false) evs2 →
    epoll_events listener evs2 (foldl (λ W fd, W ∪ {[fd]}) W N, k1)
    = Some (Go (), ({[listener]} ∪ list_to_set stay, k2))).
  { intros evs2 Hs2 Hr2 Hp2. rewrite foldl_union, EW, <-assoc_L, <-list_to_set_app_L by apply _.
    apply (epoll_events_sweep _ ready); try done.
    - symmetry. apply filter_sublist; [by apply sublist_inserts_r|done|done].
    - rewrite not_elem_of_app. done.
    - rewrite list_to_set_app_L. set_solver. }
  assert (Hev : evs.*1 `sublist_of` cl ∨ ∃ f evs2, evs = (listener, f) :: evs2 ∧ evs2.*1 `sublist_of` cl).
  { apply sublist_cons_r in Hsub as [?|(l' & E & Hl')]; [by left|right].
    destruct evs as [|[x f] evs2]; [done|]. injection E as -> <-. eauto. }
  destruct Hev as [Hs|(f & evs2 & E & Hs)].
  - assert (ready listener = false) as Hl.
    { apply bool_decide_eq_false_2. intros Hin. apply Hlcl. by eapply elem_of_sublist. }
    assert (Some (Go (), (W, k)) = Some (Go (), (foldl (λ W fd, W ∪ {[fd]}) W N, k1))) as E.
    { rewrite Hl in Hacc. apply (Hacc _ (epoll_add listener)).
      intros fd l [] _ Ho. cbn in Ho. by subst. }
    injection E as E1 E2.
    rewrite E1 at 1. rewrite E2 at 1. apply Hserve; [done| |done].
    intros x _. apply bool_decide_eq_true.
  - rewrite E at 1. cbn [epoll_events]. rewrite Z.eqb_refl.
    assert (ready listener = true) as Hl by (apply bool_decide_eq_true_2; rewrite E; left).
    rewrite Hl in Hacc. unfold mbind, step_bind.
    rewrite (Hacc _ (epoll_add listener) (λ W fd, W ∪ {[fd]}) W).
    2: { intros fd l [] _ Ho. cbn in Ho. by subst. }
    apply Hserve; [done| |by rewrite E in Hplain; inversion Hplain].
    intros x Hx. unfold ready. rewrite bool_decide_eq_true, E. cbn. rewrite elem_of_cons.
    split; [|auto]. intros [->|?]; [|done]. apply elem_of_app in Hx as [?|?]; done.
Qed.
End turns.

Lemma turns_agree base listener cl fds W k r :
  listener ∈ base → select_inv base cl k → agree listener cl fds W → orderly listener cl k r →
  ∃ cl' fds' W' k',
    select_turn listener r (cl, k) = Some (Go (), (cl', k')) ∧
    poll_turn r (fds, k) = Some (Go (), (fds', k')) ∧
    epoll_turn listener r (W, k) = Some (Go (), (W', k')) ∧ agree listener cl' fds' W'.
Proof.
  intros Hl Hinv Hag Hord. destruct r as [| |evs]; [|done|].
  - destruct (fd_sets_ok cl {[listener]} listener) as (m & E & _); [by destruct Hinv|].
    exists cl, fds, W, k. split; [|done].
    unfold select_turn. rewrite local_bind. by rewrite E.
  - pose proof Hord as (_ & _ & _ & Hcalm).
    destruct (accept_phase (bool_decide (listener ∈ evs.*1)) k Hcalm) as (N & k1 & HN & Hf & Hacc).
    destruct (sweep_total (λ fd, bool_decide (fd ∈ evs.*1)) (cl ++ N) k1) as (stay & k2 & Hs).
    destruct (poll_turn_sweeps base listener Hl cl fds W k evs Hinv Hag Hord N k1 k2 stay Hf Hacc Hs)
      as (fds' & Ep & Efds).
    exists stay, fds', ({[listener]} ∪ list_to_set stay), k2. split_and!; [|done| |done].
    + by eapply select_turn_sweeps.
    + by eapply epoll_turn_sweeps.
Qed.

(** Rounds that are orderly for the clients the loop has at that time. *)
Fixpoint orderly_run (listener : Z) (cl : list Z) (k : kernel) (rs : list round) : Prop :=
  match rs with
  | [] => True
  | r :: rs =>
      orderly listener cl (deliver r k) (wait r) ∧
      match select_turn listener (wait r) (cl, deliver r k) with
      | Some (Go _, (cl', k')) => orderly_run listener cl' k' rs
      | _ => True
      end
  end.

Lemma loop_turn {L} (turn : waited → step L unit) r rs l l' k k' :
  turn (wait r) (l, deliver r k) = Some (Go (), (l', k')) →
  loop turn (r :: rs) (l, k) = loop turn rs (l', k').
Proof. intros E. cbn [loop]. unfold mbind, step_bind, does. cbn beta iota. by rewrite E. Qed.

(** C14. C39: The three loops of the comparison are interchangeable: started on the same
    descriptor table with the listener alone, on orderly rounds they accept, read and
    close the same descriptors in the same order with the same output, keep waiting, and
    end watching the same clients in the same kernel state. *)
Theorem loops_agree listener k rs :
  listener ∈ open_fds k → listener < FD_SETSIZE → bad_close k = false →
  orderly_run listener [] k rs →
  ∃ cl fds watched k',
    run_select listener rs ([], k) = Some (Running, (cl, k')) ∧
    run_poll listener rs ([], k) = Some (Running, (fds, k')) ∧
    loop (epoll_turn listener) rs ({[listener]}, k) = Some (Running, (watched, k')) ∧
    agree listener cl fds watched.
Proof.
  intros Hl Hs Hb Hord. unfold run_select. rewrite (proj2 (Z.leb_gt _ _) Hs).
  unfold run_poll, set_local, mbind, step_bind. cbn beta iota. cbn [snd].
  assert (select_inv (open_fds k) [] k) as Hinv.
  { split; [done|]. rewrite Hb. split_and!; [constructor|set_solver..|done]. }
  assert (agree listener [] [Pollfd listener no_flags] {[listener]}) as Hag.
  { split; [done|]. set_solver. }
  revert Hl Hinv Hag Hord. generalize (open_fds k) at 1 2 as base.
  generalize [Pollfd listener no_flags], ({[listener]} : gset Z), (@nil Z). clear Hs Hb.
  intros fds W cl base Hl. revert fds W cl k.
  induction rs as [|r rs IH]; intros fds W cl k Hinv Hag Hord.
  { by exists cl, fds, W, k. }
  destruct Hord as [Ho Hord]. assert (select_inv base cl (deliver r k)) as Hinv' by done.
  destruct (turns_agree base listener cl fds W (deliver r k) (wait r))
    as (cl' & fds' & W' & k' & E1 & E2 & E3 & Hag'); [done..|].
  rewrite E1 in Hord. rewrite !(loop_turn _ r rs _ _ k k') by done.
  apply IH; [|done..].
  destruct (select_turn_keeps base listener (wait r) cl (deliver r k) Hinv') as (r' & l' & k'' & E & HQ).
  rewrite E1 in E. injection E as <- <- <-. exact HQ.
Qed.

Example mux_kernel : kernel := Kernel [] {[0; 1; 2; 3]} false [] ∅ [] [].
Example mux_rounds : list round :=
  let f := Flags true false false false in
  [Round [Conn [Data "a"%char (lit "bc")]; Conn []] ∅ (Ready [(3, f)]);
   Round [] ∅ Interrupted;
   Round [Conn []] {[5 := [Data "z"%char []; Eof]]} (Ready [(3, f); (4, f); (5, f)])].

Lemma loops_account_descriptors_witness :
  ∃ r cl k', run_select 3 mux_rounds ([], mux_kernel) = Some (r, (cl, k')) ∧
    (r = Exit 1 ∨ r = Running ∧ select_inv {[0; 1; 2; 3]} cl k').
Proof.
  apply (loops_account_descriptors 3 mux_kernel mux_rounds).
  - set_solver.
  - reflexivity.
  - repeat constructor; set_solver.
Defined.

Lemma loops_agree_witness :
  ∃ cl fds watched k',
    run_select 3 mux_rounds ([], mux_kernel) = Some (Running, (cl, k')) ∧
    run_poll 3 mux_rounds ([], mux_kernel) = Some (Running, (fds, k')) ∧
    loop (epoll_turn 3) mux_rounds ({[3]}, mux_kernel) = Some (Running, (watched, k')) ∧
    agree 3 cl fds watched.
Proof.
  apply (loops_agree 3 mux_kernel mux_rounds).
  - set_solver.
  - reflexivity.
  - reflexivity.
  - vm_compute. repeat split; try discriminate; repeat constructor.
Defined.

(** Whatever a connection has sent, [read_available] takes all of it, up to the pause, the
    end or the error that follows it, prints it in order in chunks of at most 1024
    bytes, and says whether the connection remains. *)
Theorem read_available_drains fd k :
  fd ∈ open_fds k →
  ∃ chunks k', read_available fd k = Some (survives (pending fd k), k') ∧
    same_fds k k' ∧ messages fd (pending fd k) chunks ∧
    out k' = out k ++ printed fd (pending fd k) chunks.
Proof. intros Hfd. apply read_loop_spec; [done|lia]. Qed.

Lemma read_available_drains_witness :
  ∃ chunks k', read_available 3 mux_kernel = Some (survives (pending 3 mux_kernel), k') ∧
    same_fds mux_kernel k' ∧ messages 3 (pending 3 mux_kernel) chunks ∧
    out k' = out mux_kernel ++ printed 3 (pending 3 mux_kernel) chunks.
Proof. apply (read_available_drains 3 mux_kernel). set_solver. Defined.

(** The command lines that start no loop. *)
Lemma unknown_mode_closes mode rs k :
  ¬ (mode = lit "select" ∨ mode = lit "poll" ∨ mode = lit "epoll") →
  oks k = [] →
  ∃ k', main [mode] rs ((), k) = Some (Go 2, ((), k')) ∧ open_fds k' = open_fds k ∧
        bad_close k' = bad_close k.
Proof.
  intros Hm Ho. destruct k as [oks X b q i o e]. cbn in Ho. subst.
  destruct (lowest_spec X) as [Hn _]. eexists. split.
  - unfold main, str_eqb. rewrite !bool_decide_false by tauto. reflexivity.
  - cbn. rewrite bool_decide_true by set_solver. split; [set_solver|by rewrite orb_false_r].
Qed.
