(* ===== verification/IoLab.v ===== *)
(** * The advanced I/O exercises (io_lab.c)

    A process with a descriptor table, pipes, a regular file and the standard streams;
    the kernel's answers may interrupt, refuse or cut every call.  The commands of
    io_lab.c - pipe, dup, vectors, mmap, sendfile, splice, tee, fcntl - and main.  The
    theorems: every command returns with the descriptors it found, and what a command
    that succeeds has copied. *)

From stdpp Require Import base numbers gmap list strings.
From Stdlib Require Import Ascii ZArith Lia.
From S2P Require Import Prelude CxxString IoMux.

#[local] Arguments Z.of_nat : simpl never.

(** ** The process *)

(** What a descriptor refers to. *)
Inductive obj := Stdin | Stdout | Stderr | Regular | ReadEnd (p : nat) | WriteEnd (p : nat).
#[export] Instance obj_eq_dec : EqDecision obj.
Proof. solve_decision. Defined.

(** The kernel's answer to a call: an error, or leave to go on, a transfer being cut to
    [n] bytes.  Once the answers are used up, calls succeed in full. *)
Inductive answer := Refuse (e : errno) | Allow (n : nat).

Record world := World {
  answers : list answer;
  fds : gmap Z obj;
  other_fds : gmap Z obj;      (* of the process that waits for this one *)
  pipes : gmap nat bytes;
  nonblocking : gset nat;
  next_pipe : nat;
  regular : bool;              (* whether the file on disk is a regular one *)
  content : bytes;
  position : nat;              (* the offset of the open file *)
  inp : bytes;
  out : bytes;
  err : bytes;
  stdio : bytes;               (* the buffer of [stdout] *)
  bad_close : bool
}.

Definition with_answers (l : list answer) (w : world) : world :=
  World l (fds w) (other_fds w) (pipes w) (nonblocking w) (next_pipe w) (regular w) (content w)
        (position w) (inp w) (out w) (err w) (stdio w) (bad_close w).
Definition with_fds (f : gmap Z obj) (w : world) : world :=
  World (answers w) f (other_fds w) (pipes w) (nonblocking w) (next_pipe w) (regular w) (content w)
        (position w) (inp w) (out w) (err w) (stdio w) (bad_close w).
Definition with_other (f : gmap Z obj) (w : world) : world :=
  World (answers w) (fds w) f (pipes w) (nonblocking w) (next_pipe w) (regular w) (content w)
        (position w) (inp w) (out w) (err w) (stdio w) (bad_close w).
Definition with_pipe (p : nat) (s : bytes) (w : world) : world :=
  World (answers w) (fds w) (other_fds w) (<[p := s]> (pipes w)) (nonblocking w) (next_pipe w)
        (regular w) (content w) (position w) (inp w) (out w) (err w) (stdio w) (bad_close w).
Definition with_position (n : nat) (w : world) : world :=
  World (answers w) (fds w) (other_fds w) (pipes w) (nonblocking w) (next_pipe w) (regular w)
        (content w) n (inp w) (out w) (err w) (stdio w) (bad_close w).
Definition with_inp (s : bytes) (w : world) : world :=
  World (answers w) (fds w) (other_fds w) (pipes w) (nonblocking w) (next_pipe w) (regular w)
        (content w) (position w) s (out w) (err w) (stdio w) (bad_close w).
Definition with_out (s : bytes) (w : world) : world :=
  World (answers w) (fds w) (other_fds w) (pipes w) (nonblocking w) (next_pipe w) (regular w)
        (content w) (position w) (inp w) s (err w) (stdio w) (bad_close w).
Definition with_err (s : bytes) (w : world) : world :=
  World (answers w) (fds w) (other_fds w) (pipes w) (nonblocking w) (next_pipe w) (regular w)
        (content w) (position w) (inp w) (out w) s (stdio w) (bad_close w).
Definition with_stdio (s : bytes) (w : world) : world :=
  World (answers w) (fds w) (other_fds w) (pipes w) (nonblocking w) (next_pipe w) (regular w)
        (content w) (position w) (inp w) (out w) (err w) s (bad_close w).

(** Code that ends ([Some]) or waits for ever. *)
Definition code (A : Type) : Type := world → option (A * world).
#[export] Instance code_ret : MRet code := λ A a w, Some (a, w).
#[export] Instance code_bind : MBind code := λ A B f m w,
  match m w with Some (a, w') => f a w' | None => None end.
Definition update (f : world → world) : code unit := λ w, Some ((), f w).
Definition gets {A} (f : world → A) : code A := λ w, Some (f w, w).
Definition stuck {A} : code A := λ _, None.

(** ** System calls: [inl e] is -1 with [errno] *)

Definition ask : code (errno + nat) := λ w,
  match answers w with
  | [] => Some (inr 0%nat, w)
  | Refuse e :: l => Some (inl e, with_answers l w)
  | Allow n :: l => Some (inr n, with_answers l w)
  end.
(** A call that moves at most [most] bytes, at least [least] when there are any. *)
Definition amount (least most : nat) : code (errno + nat) := λ w,
  match answers w with
  | [] => Some (inr most, w)
  | Refuse e :: l => Some (inl e, with_answers l w)
  | Allow n :: l => Some (inr (Nat.min (Nat.max least n) most), with_answers l w)
  end.

Definition complain (what : bytes) : code unit := update (λ w, with_err (err w ++ what ++ [newline]) w).
(** [fail]: [perror], and the exit code. *)
Definition fail (what : bytes) : code Z := complain what ;; mret 1%Z.

Definition close (fd : Z) : code unit := update (λ w,
  World (answers w) (delete fd (fds w)) (other_fds w) (pipes w) (nonblocking w) (next_pipe w)
        (regular w) (content w) (position w) (inp w) (out w) (err w) (stdio w)
        (bad_close w || negb (bool_decide (is_Some (fds w !! fd))))).

(** The lowest descriptor that is free. *)
Definition install (o : obj) : code Z := λ w,
  let fd := lowest (dom (fds w)) in Some (fd, with_fds (<[fd := o]> (fds w)) w).

Definition pipe2 (nonblock : bool) : code (errno + Z * Z) :=
  ok ← ask;
  match ok with
  | inl e => mret (inl e)
  | inr _ =>
      p ← gets next_pipe;
      update (λ w,
        World (answers w) (fds w) (other_fds w) (<[p := []]> (pipes w))
              (if nonblock then nonblocking w ∪ {[p]} else nonblocking w) (S p) (regular w)
              (content w) (position w) (inp w) (out w) (err w) (stdio w) (bad_close w)) ;;
      r ← install (ReadEnd p);
      s ← install (WriteEnd p);
      mret (inr (r, s))
  end.

Definition PIPE_CAPACITY : nat := N.to_nat 65536.
Definition held (p : nat) (w : world) : bytes := default [] (pipes w !! p).

(** Whether anybody can still write to a pipe. *)
Definition has_writer (p : nat) (w : world) : bool :=
  bool_decide (Exists (λ e, e.2 = WriteEnd p) (map_to_list (fds w) ++ map_to_list (other_fds w))).

(** What is there to read: [None] is a pipe that is empty but not at its end. *)
Definition readable (o : obj) (w : world) : option (option bytes) :=
  match o with
  | Stdin => Some (Some (inp w))
  | Regular => Some (Some (drop (position w) (content w)))
  | ReadEnd p =>
      match held p w with
      | [] => Some (if has_writer p w then None else Some [])
      | s => Some (Some s)
      end
  | _ => None
  end.
(** Take [n] bytes from the front. *)
Definition consume (o : obj) (n : nat) (w : world) : world :=
  match o with
  | Stdin => with_inp (drop n (inp w)) w
  | Regular => with_position (position w + n) w
  | ReadEnd p => with_pipe p (drop n (held p w)) w
  | _ => w
  end.
(** How many of [n] bytes an object takes. *)
Definition room (o : obj) (n : nat) (w : world) : option nat :=
  match o with
  | Stdout | Stderr => Some n
  | WriteEnd p => Some (Nat.min n (PIPE_CAPACITY - length (held p w)))
  | _ => None
  end.
Definition produce (o : obj) (s : bytes) (w : world) : world :=
  match o with
  | Stdout => with_out (out w ++ s) w
  | Stderr => with_err (err w ++ s) w
  | WriteEnd p => with_pipe p (held p w ++ s) w
  | _ => w
  end.

(** [write]; [writev] is the same on the parts in a row.  Without room it waits. *)
Definition write (fd : Z) (data : bytes) : code (errno + nat) :=
  o ← gets (λ w, fds w !! fd);
  match o with
  | None => mret (inl Eother)
  | Some o =>
      r ← gets (room o (length data));
      match r with
      | None => mret (inl Eother)
      | Some n =>
          if (n =? 0)%nat && negb (length data =? 0)%nat then stuck
          else
            moved ← amount 0 n;
            match moved with
            | inl e => mret (inl e)
            | inr n => update (produce o (take n data)) ;; mret (inr n)
            end
      end
  end.

(** [read] and [readv]; what was read is the result. *)
Definition read (fd : Z) (len : nat) : code (errno + bytes) :=
  o ← gets (λ w, fds w !! fd);
  match o with
  | None => mret (inl Eother)
  | Some o =>
      r ← gets (readable o);
      match r with
      | None => mret (inl Eother)
      | Some None =>
          nb ← gets (λ w, match o with ReadEnd p => bool_decide (p ∈ nonblocking w) | _ => false end);
          if (nb : bool) then mret (inl EAGAIN) else stuck
      | Some (Some s) =>
          moved ← amount 1 (Nat.min len (length s));
          match moved with
          | inl e => mret (inl e)
          | inr n => update (consume o n) ;; mret (inr (take n s))
          end
      end
  end.

(** [splice], and [sendfile] from its file; [least] is 1 where a result of 0 means that
    the input has ended, and [tee] leaves the input where it is. *)
Definition transfer (keep : bool) (least : nat) (from to : Z) (len : nat) : code (errno + nat) :=
  a ← gets (λ w, fds w !! from);
  b ← gets (λ w, fds w !! to);
  match a, b with
  | Some a, Some b =>
      r ← gets (readable a);
      match r with
      | None => mret (inl Eother)
      | Some None => stuck
      | Some (Some s) =>
          let want := Nat.min len (length s) in
          t ← gets (room b want);
          match t with
          | None => mret (inl Eother)
          | Some n =>
              if (n =? 0)%nat && negb (want =? 0)%nat then stuck
              else
                moved ← amount least n;
                match moved with
                | inl e => mret (inl e)
                | inr n =>
                    update (λ w, produce b (take n s) (if keep then w else consume a n w)) ;;
                    mret (inr n)
                end
          end
      end
  | _, _ => mret (inl Eother)
  end.
Definition splice := transfer false.
Definition tee := transfer true 0.

Definition dup (fd : Z) : code (errno + Z) :=
  ok ← ask;
  o ← gets (λ w, fds w !! fd);
  match ok, o with
  | inr _, Some o => fd' ← install o; mret (inr fd')
  | inl e, _ => mret (inl e)
  | _, None => mret (inl Eother)
  end.
(** [dup2] closes the descriptor it replaces. *)
Definition dup2 (fd fd' : Z) : code (errno + unit) :=
  ok ← ask;
  o ← gets (λ w, fds w !! fd);
  match ok, o with
  | inr _, Some o => update (λ w, with_fds (<[fd' := o]> (fds w)) w) ;; mret (inr ())
  | inl e, _ => mret (inl e)
  | _, None => mret (inl Eother)
  end.

Definition STDIN_FILENO : Z := 0.
Definition STDOUT_FILENO : Z := 1.
Definition STDERR_FILENO : Z := 2.

(** [puts] and [printf] fill the buffer, [fflush] writes it to what descriptor 1 is. *)
Definition puts (s : bytes) : code unit := update (λ w, with_stdio (stdio w ++ s ++ [newline]) w).
Definition fflush : code unit := update (λ w,
  match fds w !! STDOUT_FILENO with
  | Some o => produce o (stdio w) (with_stdio [] w)
  | None => w
  end).

(** A call that is repeated while it is interrupted. *)
Fixpoint retry {A} (fuel : nat) (call : code (errno + A)) : code (errno + A) :=
  match fuel with
  | O => stuck
  | S fuel =>
      r ← call;
      match r with inl EINTR => retry fuel call | r => mret r end
  end.
(** Each interruption uses an answer. *)
Definition retrying {A} (call : code (errno + A)) : code (errno + A) := λ w,
  retry (S (length (answers w))) call w.

(** ** The commands *)

(** Each turn but the last uses an answer or moves something. *)
Fixpoint write_loop (fuel : nat) (fd : Z) (data : bytes) : code (errno + unit) :=
  match fuel with
  | O => stuck
  | S fuel =>
      match data with
      | [] => mret (inr ())
      | _ :: _ =>
          n ← write fd data;
          match n with
          | inl EINTR => write_loop fuel fd data
          | inl e => mret (inl e)
          | inr O => mret (inl Eother)
          | inr n => write_loop fuel fd (drop n data)
          end
      end
  end.
Definition write_all (fd : Z) (data : bytes) : code (errno + unit) := λ w,
  write_loop (S (length (answers w) + length data)) fd data w.

Definition close_pair (a b : Z) : code unit :=
  (if (0 <=? a)%Z then close a else mret ()) ;; (if (0 <=? b)%Z then close b else mret ()).

(** *** pipe *)

Definition message : bytes := lit "parent -> pipe -> child" ++ [newline].

(** The child, up to [_exit]. *)
Definition child (r s : Z) : code Z :=
  close s ;;
  got ← retrying (read r 128);
  match got with
  | inl _ => complain (lit "child read") ;; mret 2%Z
  | inr buf =>
      rc ← write_all STDOUT_FILENO buf;
      match rc with
      | inl _ => complain (lit "child write") ;; mret 2%Z
      | inr _ => close r ;; mret 0%Z
      end
  end.

(** A forked process: its own copy of the table, the same objects; it runs while the
    parent waits for it, and its table is gone when it has ended. *)
Definition run_child (table : gmap Z obj) (body : code Z) : code Z :=
  mine ← gets fds;
  theirs ← gets other_fds;
  buffered ← gets stdio;
  update (λ w, with_other mine (with_fds table w)) ;;
  status ← body;
  update (λ w, with_stdio buffered (with_other theirs (with_fds mine w))) ;;
  mret status.

Definition demo_pipe : code Z :=
  p ← pipe2 false;
  match p with
  | inl _ => fail (lit "pipe2")
  | inr (r, s) =>
      table ← gets fds;
      forked ← ask;
      match forked with
      | inl _ => close_pair r s ;; fail (lit "fork")
      | inr _ =>
          close r ;;
          rc ← write_all s message;
          close s ;;
          match rc with
          | inl _ => fail (lit "parent write")
          | inr _ =>
              waited ← retrying ask;
              match waited with
              | inl _ => fail (lit "waitpid")
              | inr _ =>
                  status ← run_child table (child r s);
                  mret (if (status =? 0)%Z then 0%Z else 1%Z)
              end
          end
      end
  end.

(** *** dup *)

Definition redirected_text : bytes := lit "这行原本写 stdout，现在重定向到 stderr".
Definition restored_text : bytes := lit "这行写回原来的 stdout".

Definition demo_dup : code Z :=
  saved ← dup STDOUT_FILENO;
  match saved with
  | inl _ => fail (lit "dup stdout")
  | inr saved =>
      redirected ← dup2 STDERR_FILENO STDOUT_FILENO;
      match redirected with
      | inl _ => close saved ;; fail (lit "dup2")
      | inr _ =>
          puts redirected_text ;;
          fflush ;;
          restored ← dup2 saved STDOUT_FILENO;
          match restored with
          | inl _ => close saved ;; fail (lit "restore stdout")
          | inr _ =>
              close saved ;;
              puts restored_text ;;
              mret 0%Z
          end
      end
  end.

(** *** vectors *)

Definition first : bytes := lit "分散读的第一块 ".
Definition second : bytes := lit "第二块" ++ [newline].

(** [||] of two calls that return 0 or -1. *)
Definition either {A} (m n : code (errno + A)) : code bool :=
  a ← m; match a with inl _ => mret true | inr _ =>
    b ← n; mret match b with inl _ => true | inr _ => false end end.

Definition demo_vectors : code Z :=
  p ← pipe2 false;
  match p with
  | inl _ => fail (lit "pipe2")
  | inr (r, s) =>
      written ← write s (first ++ second);
      match written with
      | inl _ => close_pair r s ;; fail (lit "writev")
      | inr _ =>
          close s ;;
          got ← read r (32 + 32);
          match got with
          | inl _ => close_pair r (-1) ;; fail (lit "readv")
          | inr data =>
              let na := Nat.min (length data) 32 in
              let nb := Nat.min (length data - 32) 32 in
              close r ;;
              failed ← either (write_all STDOUT_FILENO (take na data))
                              (write_all STDOUT_FILENO (take nb (drop 32 data)));
              if (failed : bool) then fail (lit "write") else mret 0%Z
          end
      end
  end.

(** *** Files *)

(** [open] on the command's file; [inl] with the message when it fails. *)
Definition open_input : code (errno + Z) :=
  ok ← ask;
  match ok with
  | inl e => complain (lit "open") ;; mret (inl e)
  | inr _ => update (with_position 0) ;; fd ← install Regular; mret (inr fd)
  end.

Definition demo_mmap : code Z :=
  opened ← open_input;
  match opened with
  | inl _ => mret 1%Z
  | inr fd =>
      st ← ask;
      match st with
      | inl _ => close fd ;; fail (lit "fstat")
      | inr _ =>
          reg ← gets regular;
          view ← gets content;
          if negb reg then close fd ;; complain (lit "mmap example requires a regular file") ;; mret 1%Z
          else if (length view =? 0)%nat then close fd ;; mret 0%Z
          else
            mapped ← ask;
            match mapped with
            | inl _ => close fd ;; fail (lit "mmap")
            | inr _ =>
                rc ← write_all STDOUT_FILENO view;
                unmapped ← ask;
                match unmapped with
                | inl _ => close fd ;; fail (lit "munmap")
                | inr _ =>
                    close fd ;;
                    match rc with inl _ => fail (lit "write") | inr _ => mret 0%Z end
                end
            end
      end
  end.

Definition MiB : nat := N.to_nat 1048576.

(** [sendfile] advances [offset] and leaves the descriptor's own offset alone; the
    model keeps the offset in the file. *)
Fixpoint sendfile_loop (fuel : nat) (fd : Z) (st_size : nat) : code (errno + unit) :=
  match fuel with
  | O => stuck
  | S fuel =>
      offset ← gets position;
      if (offset <? st_size)%nat then
        n ← transfer false 1 fd STDOUT_FILENO (Nat.min (st_size - offset) MiB);
        match n with
        | inl EINTR => sendfile_loop fuel fd st_size
        | inl e => mret (inl e)
        | inr O => mret (inr ())
        | inr _ => sendfile_loop fuel fd st_size
        end
      else mret (inr ())
  end.
Definition demo_sendfile : code Z :=
  opened ← open_input;
  match opened with
  | inl _ => mret 1%Z
  | inr fd =>
      st ← ask;
      match st with
      | inl _ => close fd ;; fail (lit "fstat")
      | inr _ =>
          st_size ← gets (λ w, length (content w));
          fuel ← gets (λ w, S (length (answers w) + st_size));
          sent ← sendfile_loop fuel fd st_size;
          match sent with
          | inl _ => close fd ;; fail (lit "sendfile")
          | inr _ => close fd ;; mret 0%Z
          end
      end
  end.

Inductive drained := Drained | Broken | Stalled.

(** [while (left > 0)]: from the pipe to the output *)
Fixpoint drain (fuel : nat) (r : Z) (left : nat) : code drained :=
  match fuel with
  | O => stuck
  | S fuel =>
      if (left =? 0)%nat then mret Drained
      else
        m ← splice 0 r STDOUT_FILENO left;
        match m with
        | inl EINTR => drain fuel r left
        | inl _ => mret Broken
        | inr O => mret Stalled
        | inr m => drain fuel r (left - m)
        end
  end.
Definition CHUNK : nat := N.to_nat 65536.
Fixpoint splice_loop (fuel : nat) (fd r s : Z) : code Z :=
  match fuel with
  | O => stuck
  | S fuel =>
      n ← splice 1 fd s CHUNK;
      match n with
      | inl EINTR => splice_loop fuel fd r s
      | inl _ => close fd ;; close_pair r s ;; fail (lit "splice file->pipe")
      | inr O => close fd ;; close_pair r s ;; mret 0%Z
      | inr n =>
          turns ← gets (λ w, S (length (answers w) + n));
          d ← drain turns r n;
          match d with
          | Drained => splice_loop fuel fd r s
          | Broken => close fd ;; close_pair r s ;; fail (lit "splice pipe->stdout")
          | Stalled => close fd ;; close_pair r s ;; complain (lit "splice made no progress") ;; mret 1%Z
          end
      end
  end.
Definition demo_splice : code Z :=
  opened ← open_input;
  match opened with
  | inl _ => mret 1%Z
  | inr fd =>
      p ← pipe2 false;
      match p with
      | inl _ => close fd ;; fail (lit "pipe2")
      | inr (r, s) =>
          fuel ← gets (λ w, S (S (length (answers w) + length (content w))));
          splice_loop fuel fd r s
      end
  end.

(** *** tee *)

(** The two [close_pair]s in front of every return once both pipes are there. *)
Definition tee_leave (a0 a1 b0 b1 : Z) (rc : code Z) : code Z :=
  close_pair a0 a1 ;; close_pair b0 b1 ;; rc.
(** The two pipes' data go to [stderr] and [stdout]. *)
Definition tee_forward (a0 a1 b0 b1 : Z) (n : nat) : code Z :=
  let leave := tee_leave a0 a1 b0 b1 in
  copy ← splice 0 b0 STDERR_FILENO n;
  match copy with
  | inl _ => leave (fail (lit "splice copy->stderr"))
  | inr _ =>
      source ← splice 0 a0 STDOUT_FILENO n;
      match source with
      | inl _ => leave (fail (lit "splice source->stdout"))
      | inr _ => leave (mret 0%Z)
      end
  end.
(** [tee] of the [n] bytes in the first pipe. *)
Definition tee_copy (a0 a1 b0 b1 : Z) (n : nat) : code Z :=
  let leave := tee_leave a0 a1 b0 b1 in
  copied ← retrying (tee a0 b1 n);
  match copied with
  | inl _ => leave (fail (lit "tee"))
  | inr copied =>
      if negb (copied =? n)%nat then
        leave (complain (lit "tee copied only part; shorten input and retry") ;; mret 1%Z)
      else tee_forward a0 a1 b0 b1 n
  end.
(** A pair is [{-1, -1}] until [pipe2] fills it. *)
Definition demo_tee : code Z :=
  a ← pipe2 false;
  match a with
  | inl _ => close_pair (-1) (-1) ;; close_pair (-1) (-1) ;; fail (lit "pipe2")
  | inr (a0, a1) =>
      b ← pipe2 false;
      match b with
      | inl _ => close_pair a0 a1 ;; close_pair (-1) (-1) ;; fail (lit "pipe2")
      | inr (b0, b1) =>
          n ← retrying (splice 1 STDIN_FILENO a1 4096);
          match n with
          | inl _ => tee_leave a0 a1 b0 b1 (fail (lit "splice stdin->pipe"))
          | inr O => tee_leave a0 a1 b0 b1 (mret 0%Z)
          | inr n => tee_copy a0 a1 b0 b1 n
          end
      end
  end.

(** *** fcntl *)

Definition demo_fcntl : code Z :=
  p ← pipe2 true;
  match p with
  | inl _ => fail (lit "pipe2")
  | inr (r, s) =>
      flags ← ask;
      match flags with
      | inl _ => close_pair r s ;; fail (lit "F_GETFL")
      | inr _ =>
          nb ← gets (λ w, match fds w !! r with
                          | Some (ReadEnd p) => bool_decide (p ∈ nonblocking w)
                          | _ => false
                          end);
          puts (lit "read end: O_NONBLOCK=" ++ if (nb : bool) then lit "yes" else lit "no") ;;
          c ← read r 1;
          match c with
          | inl EAGAIN => puts (lit "empty nonblocking pipe: read returns EAGAIN (not EOF)")
          | _ => mret ()
          end ;;
          size ← ask;
          match size with
          | inl _ => mret ()
          | inr _ => puts (lit "pipe capacity: " ++ show_nat (Z.of_nat PIPE_CAPACITY) ++ lit " bytes")
          end ;;
          close_pair r s ;;
          mret 0%Z
      end
  end.

(** *** main *)

(** [argv] without the program's name; the buffer of [stdout] is flushed at exit. *)
Definition dispatch (argv : list bytes) : code Z :=
  match argv with
  | [] => complain (lit "usage: io_lab pipe|dup|vectors|mmap FILE|sendfile FILE|splice FILE|tee|fcntl") ;; mret 2%Z
  | [c] =>
      if str_eqb c (lit "pipe") then demo_pipe
      else if str_eqb c (lit "dup") then demo_dup
      else if str_eqb c (lit "vectors") then demo_vectors
      else if str_eqb c (lit "tee") then demo_tee
      else if str_eqb c (lit "fcntl") then demo_fcntl
      else complain (lit "invalid arguments") ;; mret 2%Z
  | [c; _] =>
      if str_eqb c (lit "mmap") then demo_mmap
      else if str_eqb c (lit "sendfile") then demo_sendfile
      else if str_eqb c (lit "splice") then demo_splice
      else complain (lit "invalid arguments") ;; mret 2%Z
  | _ => complain (lit "invalid arguments") ;; mret 2%Z
  end.
Definition main (argv : list bytes) : code Z := rc ← dispatch argv; fflush ;; mret rc.

(** ** Weakest preconditions *)

(** The code ends, and [Q] holds of its result and of the state it leaves. *)
Definition wp {A} (m : code A) (Q : A → world → Prop) (w : world) : Prop :=
  match m w with Some (a, w') => Q a w' | None => False end.

(** A kernel that refuses nothing and moves at least something. *)
Definition generous (l : list answer) : Prop := Forall (λ a, ∃ n, a = Allow (S n)) l.

Lemma wp_bind {A B} (m : code A) (f : A → code B) Q w :
  wp m (λ a, wp (f a) Q) w → wp (m ≫= f) Q w.
Proof. unfold wp, mbind, code_bind. by destruct (m w) as [[a w']|]. Qed.
Lemma wp_ret {A} (a : A) (Q : A → world → Prop) w : Q a w → wp (mret a) Q w.
Proof. done. Qed.
Lemma wp_update f (Q : unit → world → Prop) w : Q () (f w) → wp (update f) Q w.
Proof. done. Qed.
Lemma wp_gets {A} (f : world → A) Q w : Q (f w) w → wp (gets f) Q w.
Proof. done. Qed.
Lemma wp_mono {A} (m : code A) (Q Q' : A → world → Prop) w :
  (∀ a w', Q a w' → Q' a w') → wp m Q w → wp m Q' w.
Proof. unfold wp. intros H. destruct (m w) as [[a w']|]; auto. Qed.

(** What an answer leaves: a suffix of the answers. *)
Definition used (l l' : list answer) : Prop := l' = l ∨ (length l' < length l)%nat.

Lemma wp_ask Q w :
  (∀ e l, (length l < length (answers w))%nat → ¬ generous (answers w) →
     Q (inl e) (with_answers l w)) →
  (∀ n l, used (answers w) l → (generous (answers w) → generous l) → Q (inr n) (with_answers l w)) →
  wp ask Q w.
Proof.
  intros He Hn. unfold wp, ask. destruct (answers w) as [|[e|n] l] eqn:E.
  - specialize (Hn 0%nat [] ltac:(by left) ltac:(done)). by destruct w; cbn in *; subst.
  - apply He; [cbn; lia|]. intros H. inversion H as [|?? [? ?]]. done.
  - apply Hn; [right; cbn; lia|]. by inversion 1.
Qed.

Lemma wp_amount least most Q w :
  (∀ e l, (length l < length (answers w))%nat → ¬ generous (answers w) →
     Q (inl e) (with_answers l w)) →
  (∀ n l, (Nat.min least most ≤ n ≤ most)%nat →
     (length l < length (answers w) ∨ l = answers w ∧ n = most)%nat →
     (generous (answers w) → generous l ∧ (0 < most → 0 < n)%nat) → Q (inr n) (with_answers l w)) →
  wp (amount least most) Q w.
Proof.
  intros He Hn. unfold wp, amount. destruct (answers w) as [|[e|n] l] eqn:E.
  - specialize (Hn most [] ltac:(lia) ltac:(by right) ltac:(done)). by destruct w; cbn in *; subst.
  - apply He; [cbn; lia|]. intros H. inversion H as [|?? [? ?]]. done.
  - apply Hn; [lia|left; cbn; lia|]. inversion 1 as [|?? [k [= ->]] ?]. split; [done|lia].
Qed.

(** ** Objects that take and give bytes *)

Definition sink (o : obj) : Prop :=
  match o with Stdout | Stderr | WriteEnd _ => True | _ => False end.
Definition fits (o : obj) (n : nat) (w : world) : Prop :=
  match o with
  | WriteEnd p => is_Some (pipes w !! p) ∧ (length (held p w) + n ≤ PIPE_CAPACITY)%nat
  | _ => True
  end.

Lemma room_fits o n w : sink o → fits o n w → room o n w = Some n.
Proof. destruct o; cbn; try done. intros _ [_ H]. f_equal. lia. Qed.

Lemma held_with_pipe p s w : held p (with_pipe p s w) = s.
Proof. unfold held. cbn. by rewrite lookup_insert_eq. Qed.
Lemma held_with_other_pipe p q s w : p ≠ q → held p (with_pipe q s w) = held p w.
Proof. intros. unfold held. cbn. by rewrite lookup_insert_ne. Qed.

Lemma produce_produce o s1 s2 l w :
  sink o → produce o s2 (with_answers l (produce o s1 w)) = produce o (s1 ++ s2) (with_answers l w).
Proof.
  destruct o as [| | | |p|p]; intros Ho; try done; cbn.
  - unfold with_out. cbn. by rewrite app_assoc.
  - unfold with_err. cbn. by rewrite app_assoc.
  - change (held p (with_answers l (with_pipe p (held p w ++ s1) w)))
      with (held p (with_pipe p (held p w ++ s1) w)).
    rewrite held_with_pipe, <-app_assoc. unfold with_pipe. cbn.
    change (held p (with_answers l w)) with (held p w). by rewrite insert_insert_eq.
Qed.
Lemma produce_nil o n w : sink o → fits o n w → produce o [] w = w.
Proof.
  destruct o as [| | | |p|p]; intros Ho Hp; try done; destruct w; cbn.
  - unfold with_out. cbn. by rewrite app_nil_r.
  - unfold with_err. cbn. by rewrite app_nil_r.
  - destruct Hp as [[s Hs] _]. cbn in Hs. unfold with_pipe, held. cbn.
    rewrite Hs. cbn. rewrite app_nil_r. by rewrite insert_id.
Qed.
Lemma fits_produce o s n w : fits o (length s + n) w → fits o n (produce o s w).
Proof.
  destruct o as [| | | |p|p]; try done. intros [_ H]. split; cbn.
  - rewrite lookup_insert_eq. by eexists.
  - rewrite held_with_pipe, length_app. lia.
Qed.
Lemma fits_le o n m w : (n ≤ m)%nat → fits o m w → fits o n w.
Proof. destruct o; try done. intros ? [? ?]. split; [done|]. lia. Qed.
Lemma produce_fds o s w : fds (produce o s w) = fds w.
Proof. by destruct o. Qed.
Lemma produce_answers o s w : answers (produce o s w) = answers w.
Proof. by destruct o. Qed.

(** ** Writing *)

Lemma wp_write fd o data Q w :
  fds w !! fd = Some o → sink o → fits o (length data) w →
  (∀ e l, (length l < length (answers w))%nat → ¬ generous (answers w) →
     Q (inl e) (with_answers l w)) →
  (∀ n l, (n ≤ length data)%nat →
     (length l < length (answers w) ∨ l = answers w ∧ n = length data)%nat →
     (generous (answers w) → generous l ∧ (0 < length data → 0 < n)%nat) →
     Q (inr n) (produce o (take n data) (with_answers l w))) →
  wp (write fd data) Q w.
Proof.
  intros Hfd Ho Hfit He Hn. unfold write. apply wp_bind, wp_gets. rewrite Hfd.
  apply wp_bind, wp_gets. rewrite room_fits by done.
  destruct (length data =? 0)%nat eqn:E0; cbn [negb andb];
    (apply wp_bind, wp_amount; [intros; apply wp_ret; auto|];
     intros n l Hle Hl Hg; apply wp_bind, wp_update, wp_ret; apply Hn; [lia|done..]).
Qed.

(** What [write_all] has written is a prefix, and everything when it returns 0. *)
Definition wrote (o : obj) (data : bytes) (w : world) (r : errno + unit) (w' : world) : Prop :=
  ∃ l k, w' = produce o (take k data) (with_answers l w) ∧
    (r = inr () → take k data = data) ∧ used (answers w) l ∧
    (generous (answers w) → r = inr () ∧ generous l).

Lemma used_trans l1 l2 l3 : used l1 l2 → used l2 l3 → used l1 l3.
Proof. unfold used. intros [->|?] [->|?]; auto. right. lia. Qed.
Lemma used_shorter l l' : (length l' < length l)%nat → used l l'.
Proof. by right. Qed.

Lemma wrote_more o data n l w r w' :
  sink o → wrote o (drop n data) (produce o (take n data) (with_answers l w)) r w' →
  used (answers w) l → (generous (answers w) → generous l) → wrote o data w r w'.
Proof.
  intros Ho (l' & k & -> & Hr & Hu & Hg) Hul Hgl. rewrite produce_answers in Hu, Hg.
  exists l', (n + k)%nat. split_and!.
  - rewrite produce_produce by done. by rewrite take_take_drop.
  - intros E. specialize (Hr E). by rewrite <-take_take_drop, Hr, take_drop.
  - by eapply used_trans.
  - intros H. auto.
Qed.

Lemma wp_write_loop fuel fd o data w :
  (length (answers w) + length data < fuel)%nat →
  fds w !! fd = Some o → sink o → fits o (length data) w →
  wp (write_loop fuel fd data) (wrote o data w) w.
Proof.
  revert data w. induction fuel as [|fuel IH]; intros data w Hf Hfd Ho Hfit; [lia|].
  cbn [write_loop]. destruct data as [|c data].
  { apply wp_ret. exists (answers w), 0%nat. split_and!; [|done|by left|done].
    replace (with_answers (answers w) w) with w by by destruct w.
    symmetry. by eapply produce_nil. }
  apply wp_bind. eapply wp_write; [done..| |].
  - intros e l Hl Hng. assert (wrote o (c :: data) w (inl e) (with_answers l w)) as Hw.
    { exists l, 0%nat. split_and!; [|done|by apply used_shorter|done].
      symmetry. eapply produce_nil; [done|]. by destruct o. }
    destruct e; [|by apply wp_ret..].
    eapply wp_mono; [|apply IH; [cbn in *; lia|done|done|by destruct o]].
    intros r w' (l' & k & -> & Hr & Hu & Hg). exists l', k.
    split_and!; [done|done| |done]. eapply used_trans; [by apply used_shorter|done].
  - intros [|n] l Hle Hl Hg.
    { apply wp_ret. exists l, 0%nat. split_and!; [done|done| |].
      - destruct Hl as [?|[-> _]]; [by right|by left].
      - intros [_ H]%Hg. specialize (H ltac:(cbn; lia)). lia. }
    eapply wp_mono; [|apply IH].
    + intros r w' Hw. eapply (wrote_more o (c :: data) (S n) l); try done.
      * destruct Hl as [?|[-> _]]; [by right|by left].
      * intros H. by apply Hg.
    + rewrite produce_answers, length_drop. cbn [length with_answers answers] in *.
      destruct Hl as [?|[-> ?]]; lia.
    + by rewrite produce_fds.
    + done.
    + apply fits_produce. eapply (fits_le _ _ (length (c :: data))); [|by destruct o].
      rewrite length_take, length_drop. cbn [length] in *. lia.
Qed.

Lemma wp_write_all fd o data w :
  fds w !! fd = Some o → sink o → fits o (length data) w →
  wp (write_all fd data) (wrote o data w) w.
Proof. intros. unfold write_all. apply wp_write_loop; try done. lia. Qed.

(** ** Descriptors *)

Lemma wp_install o (Q : Z → world → Prop) w :
  (∀ fd, fds w !! fd = None → (0 <= fd)%Z → Q fd (with_fds (<[fd := o]> (fds w)) w)) →
  wp (install o) Q w.
Proof.
  intros HQ. unfold wp, install. destruct (lowest_spec (dom (fds w))) as [Hn [H0 _]].
  apply HQ; [by apply not_elem_of_dom|done].
Qed.

(** The state after [pipe2]. *)
Definition piped (nb : bool) (l : list answer) (r s : Z) (w : world) : world :=
  World l (<[s := WriteEnd (next_pipe w)]> (<[r := ReadEnd (next_pipe w)]> (fds w))) (other_fds w)
        (<[next_pipe w := []]> (pipes w))
        (if nb then nonblocking w ∪ {[next_pipe w]} else nonblocking w) (S (next_pipe w))
        (regular w) (content w) (position w) (inp w) (out w) (err w) (stdio w) (bad_close w).

(** Two descriptors that were free. *)
Definition spare (F : gmap Z obj) (r s : Z) : Prop :=
  F !! r = None ∧ F !! s = None ∧ r ≠ s ∧ (0 <= r)%Z ∧ (0 <= s)%Z.

Lemma wp_pipe2 nb Q w :
  (∀ e l, ¬ generous (answers w) → Q (inl e) (with_answers l w)) →
  (∀ r s l, spare (fds w) r s → used (answers w) l → (generous (answers w) → generous l) →
     Q (inr (r, s)) (piped nb l r s w)) →
  wp (pipe2 nb) Q w.
Proof.
  intros He HQ. unfold pipe2. apply wp_bind, wp_ask; [intros; apply wp_ret; auto|].
  intros _ l Hu Hg. apply wp_bind, wp_gets, wp_bind, wp_update, wp_bind, wp_install.
  cbn [fds with_answers next_pipe]. intros r Hr Hr0. apply wp_bind, wp_install.
  cbn [fds with_fds]. intros s [Hs Hne]%lookup_insert_None Hs0. apply wp_ret.
  apply HQ; [|done..]. by repeat split.
Qed.

Lemma wp_close fd o (Q : unit → world → Prop) w :
  fds w !! fd = Some o → Q () (with_fds (delete fd (fds w)) w) → wp (close fd) Q w.
Proof.
  intros Hfd HQ. unfold close. apply wp_update.
  rewrite bool_decide_true by by eexists. cbn [negb]. rewrite orb_false_r. exact HQ.
Qed.
Lemma wp_close_pair r s a b (Q : unit → world → Prop) w :
  (0 <= r)%Z → (0 <= s)%Z → r ≠ s → fds w !! r = Some a → fds w !! s = Some b →
  Q () (with_fds (delete s (delete r (fds w))) w) → wp (close_pair r s) Q w.
Proof.
  intros Hr Hs Hne Ha Hb HQ. unfold close_pair.
  rewrite (proj2 (Z.leb_le 0 r)), (proj2 (Z.leb_le 0 s)) by done.
  apply wp_bind, (wp_close r a); [done|]. eapply (wp_close s b); [|done].
  cbn. by rewrite lookup_delete_ne.
Qed.
Lemma wp_close_none (Q : unit → world → Prop) w : Q () w → wp (close_pair (-1) (-1)) Q w.
Proof. done. Qed.

(** ** Reading and moving *)

Lemma has_writer_none p w :
  (∀ fd, fds w !! fd ≠ Some (WriteEnd p)) → (∀ fd, other_fds w !! fd ≠ Some (WriteEnd p)) →
  has_writer p w = false.
Proof.
  intros H1 H2. apply bool_decide_eq_false_2. rewrite Exists_exists.
  intros ([fd o] & [Hin%elem_of_map_to_list|Hin%elem_of_map_to_list]%elem_of_app & Ho);
    cbn in Ho; subst; naive_solver.
Qed.

Lemma readable_pipe p w :
  held p w ≠ [] ∨ has_writer p w = false → readable (ReadEnd p) w = Some (Some (held p w)).
Proof. cbn. destruct (held p w); [|done]. intros [?| ->]; done. Qed.

Lemma wp_read fd len o s Q w :
  fds w !! fd = Some o → readable o w = Some (Some s) →
  (∀ e l, (length l < length (answers w))%nat → ¬ generous (answers w) →
     Q (inl e) (with_answers l w)) →
  (∀ n l, (n ≤ Nat.min len (length s))%nat → used (answers w) l →
     (generous (answers w) → generous l) →
     Q (inr (take n s)) (consume o n (with_answers l w))) →
  wp (read fd len) Q w.
Proof.
  intros Hfd Hr He HQ. unfold read. apply wp_bind, wp_gets. rewrite Hfd.
  apply wp_bind, wp_gets. rewrite Hr. apply wp_bind, wp_amount; [intros; apply wp_ret; auto|].
  intros n l Hle Hl Hg. apply wp_bind, wp_update, wp_ret. apply HQ; [lia| |naive_solver].
  destruct Hl as [?|[-> _]]; [by right|by left].
Qed.

(** One call that moves bytes from a source to a sink. *)
Lemma wp_transfer keep least from to len a b s Q w :
  fds w !! from = Some a → fds w !! to = Some b → readable a w = Some (Some s) →
  sink b → fits b (Nat.min len (length s)) w →
  (∀ e l, (length l < length (answers w))%nat → ¬ generous (answers w) →
     Q (inl e) (with_answers l w)) →
  (∀ n l, (Nat.min least (Nat.min len (length s)) ≤ n ≤ Nat.min len (length s))%nat →
     (length l < length (answers w) ∨ l = answers w ∧ n = Nat.min len (length s))%nat →
     (generous (answers w) → generous l ∧ (0 < Nat.min len (length s) → 0 < n)%nat) →
     Q (inr n) (produce b (take n s)
                  (if (keep : bool) then with_answers l w else consume a n (with_answers l w)))) →
  wp (transfer keep least from to len) Q w.
Proof.
  intros Ha Hb Hr Ho Hf He HQ. unfold transfer.
  apply wp_bind, wp_gets, wp_bind, wp_gets. rewrite Ha, Hb.
  apply wp_bind, wp_gets. rewrite Hr. apply wp_bind, wp_gets. rewrite room_fits by done.
  destruct (Nat.min len (length s) =? 0)%nat eqn:E0; cbn [negb andb];
    (apply wp_bind, wp_amount; [intros; apply wp_ret; auto|];
     intros n l Hle Hl Hg; apply wp_bind, wp_update, wp_ret; by apply HQ).
Qed.

(** A call that leaves everything but the answers as it was when it is interrupted. *)
Lemma wp_retrying {A} (call : code (errno + A)) Q w :
  (∀ l, used (answers w) l → (generous (answers w) → generous l) →
     wp call (λ r w', match r with
                      | inl EINTR => ∃ l', w' = with_answers l' w ∧ (length l' < length l)%nat ∧
                                           ¬ generous l
                      | _ => Q r w'
                      end) (with_answers l w)) →
  wp (retrying call) Q w.
Proof.
  intros Hc. unfold retrying.
  assert (∀ fuel l, (length l < fuel)%nat → used (answers w) l → (generous (answers w) → generous l) →
    wp (retry fuel call) Q (with_answers l w)) as H.
  { induction fuel as [|fuel IH]; intros l Hl Hu Hg; [lia|]. cbn [retry]. apply wp_bind.
    eapply wp_mono; [|by apply Hc]. intros r w' Hr. destruct r as [[]|a]; [|by apply wp_ret..].
    destruct Hr as (l' & -> & Hl' & Hng). apply IH; [lia| |tauto].
    eapply used_trans; [exact Hu|by apply used_shorter]. }
  specialize (H (S (length (answers w))) (answers w) ltac:(lia) ltac:(by left) ltac:(done)).
  unfold wp in *. by destruct w.
Qed.

(** ** The state around a command *)

(** The standard streams are in place and nobody else uses the pipes to come. *)
Record started (w : world) : Prop := Started {
  std_in : fds w !! STDIN_FILENO = Some Stdin;
  std_out : fds w !! STDOUT_FILENO = Some Stdout;
  std_err : fds w !! STDERR_FILENO = Some Stderr;
  no_ends p fd : (next_pipe w ≤ p)%nat → fds w !! fd ≠ Some (WriteEnd p);
  no_other_ends p fd : (next_pipe w ≤ p)%nat → other_fds w !! fd ≠ Some (WriteEnd p);
  unbuffered : stdio w = []
}.

Definition restored (w w' : world) : Prop :=
  fds w' = fds w ∧ other_fds w' = other_fds w ∧ bad_close w' = bad_close w ∧ stdio w' = stdio w.

(** A command ends with the descriptors it found; it returns 0 only with its work
    [done], and it does so on a generous kernel under the condition [good]. *)
Definition settles (w : world) (good : Prop) (job : world → Prop) (rc : Z) (w' : world) : Prop :=
  restored w w' ∧ (rc = 0 ∨ rc = 1)%Z ∧ (rc = 0%Z → job w') ∧
  (generous (answers w) → good → rc = 0%Z).

(** Deletions undo insertions. *)
Ltac map_undo :=
  apply map_eq; intros ?fd; rewrite ?lookup_delete, ?lookup_insert, ?lookup_delete, ?lookup_insert;
  repeat case_decide; simplify_eq; try (congruence || reflexivity).
Ltac restore := split_and!; [cbn; try done; map_undo|done|done|done].

Lemma wp_fail what w good job w' :
  restored w w' → (generous (answers w) → ¬ good) → wp (fail what) (settles w good job) w'.
Proof.
  intros Hr Hg. apply wp_bind, wp_update, wp_ret. split_and!; [done|by right|done|].
  intros H H'. by destruct (Hg H).
Qed.
Lemma wp_return0 w (good : Prop) (job : world → Prop) w' :
  restored w w' → job w' → wp (mret 0%Z) (settles w good job) w'.
Proof. intros Hr Hj. apply wp_ret. by split_and!; [|left|..]. Qed.

Lemma wp_open_input Q w :
  (∀ e l, ¬ generous (answers w) →
     Q (inl e) (with_err (err w ++ lit "open" ++ [newline]) (with_answers l w))) →
  (∀ fd l, fds w !! fd = None → (0 <= fd)%Z → used (answers w) l →
     (generous (answers w) → generous l) →
     Q (inr fd) (with_fds (<[fd := Regular]> (fds w)) (with_position 0 (with_answers l w)))) →
  wp open_input Q w.
Proof.
  intros He HQ. apply wp_bind, wp_ask.
  - intros e l _ Hg. apply wp_bind, wp_update, wp_ret. by apply He.
  - intros _ l Hu Hg. apply wp_bind, wp_update, wp_bind, wp_install. intros fd Hfd H0.
    apply wp_ret. by apply HQ.
Qed.

(** ** mmap *)

Lemma demo_mmap_settles w :
  started w →
  wp demo_mmap (settles w (regular w = true) (λ w', out w' = out w ++ content w)) w.
Proof.
  intros Hw. apply wp_bind, wp_open_input.
  { intros e l Hng. apply wp_ret. split_and!; [restore|by right|done|done]. }
  intros fd l Hfd H0 Hu Hg. apply wp_bind. cbn [fds with_answers with_position with_fds].
  assert (∀ F : gmap Z obj, fds w = F → delete fd (<[fd := Regular]> F) = F) as Hundo.
  { intros ? <-. by apply delete_insert_id. }
  apply wp_ask.
  { intros e l1 _ Hng. apply wp_bind, (wp_close fd Regular); [cbn; apply lookup_insert_eq|].
    apply wp_fail; [restore|tauto]. }
  intros _ l1 Hu1 Hg1. apply wp_bind, wp_gets, wp_bind, wp_gets. cbn.
  destruct (regular w) eqn:Er; cbn [negb].
  2: { apply wp_bind, (wp_close fd Regular); [cbn; apply lookup_insert_eq|].
       apply wp_fail; [restore|done]. }
  destruct (Nat.eqb_spec (length (content w)) 0) as [E|_].
  { apply wp_bind, (wp_close fd Regular); [cbn; apply lookup_insert_eq|].
    apply wp_return0; [restore|]. apply nil_length_inv in E. cbn. by rewrite E, app_nil_r. }
  apply wp_bind, wp_ask.
  { intros e l2 _ Hng. apply wp_bind, (wp_close fd Regular); [cbn; apply lookup_insert_eq|].
    apply wp_fail; [restore|cbn in Hng; tauto]. }
  intros _ l2 Hu2 Hg2. apply wp_bind. eapply wp_mono; [|eapply (wp_write_all _ Stdout)]; [|..|done|done].
  2: { cbn. rewrite lookup_insert_ne; [apply Hw|]. intros ->. by rewrite (std_out w Hw) in Hfd. }
  intros rc w' (l3 & k & -> & Hrc & Hu3 & Hg3). cbn [produce answers with_answers] in *. apply wp_bind, wp_ask.
  { intros e l4 _ Hng. apply wp_bind, (wp_close fd Regular); [cbn; apply lookup_insert_eq|].
    apply wp_fail; [restore|cbn in Hng; naive_solver]. }
  intros _ l4 _ _. apply wp_bind, (wp_close fd Regular); [cbn; apply lookup_insert_eq|].
  destruct rc as [e|[]].
  - apply wp_fail; [restore|]. intros H _. destruct Hg3 as [? _]; [cbn; auto|done].
  - apply wp_return0; [restore|]. cbn. by rewrite Hrc.
Qed.

(** ** sendfile *)

(** [i] bytes of the file have been copied. *)
Definition copied (w : world) (l : list answer) (i : nat) : world :=
  with_position i (with_out (out w ++ take i (content w)) (with_answers l w)).

Lemma sendfile_loop_wp fuel fd w l i :
  fds w !! fd = Some Regular → fds w !! STDOUT_FILENO = Some Stdout →
  (length l + (length (content w) - i) < fuel)%nat →
  wp (sendfile_loop fuel fd (length (content w)))
     (λ r w', ∃ l' i', w' = copied w l' i' ∧ (r = inr () → (length (content w) ≤ i')%nat) ∧
                       (generous l → r = inr ())) (copied w l i).
Proof.
  intros Hfd Hout. revert l i. induction fuel as [|fuel IH]; intros l i Hf; [lia|].
  cbn [sendfile_loop]. apply wp_bind, wp_gets. cbn [position copied with_position].
  destruct (Nat.ltb_spec i (length (content w))) as [Hi|Hi].
  2: { apply wp_ret. exists l, i. done. }
  set (c := content w) in *.
  apply wp_bind, (wp_transfer _ _ _ _ _ Regular Stdout (drop i c)); [done..| |].
  - intros e l' Hl Hng. cbn in Hl, Hng. change (with_answers l' (copied w l i)) with (copied w l' i).
    destruct e.
    + eapply wp_mono; [|apply IH; lia]. intros r w' (l2 & i2 & -> & Hr & _).
      exists l2, i2. done.
    + apply wp_ret. exists l', i. done.
    + apply wp_ret. exists l', i. done.
  - intros n l' Hle Hl Hg. cbn in Hl, Hg. rewrite length_drop in *.
    assert (0 < Nat.min (Nat.min (length c - i) MiB) (length c - i))%nat as Hpos.
    { unfold MiB. lia. }
    assert (produce Stdout (take n (drop i c)) (consume Regular n (with_answers l' (copied w l i)))
            = copied w l' (i + n)) as ->.
    { unfold copied. cbn. unfold with_out, with_position. cbn. f_equal.
      by rewrite <-app_assoc, take_take_drop. }
    destruct n as [|n]; [lia|]. eapply wp_mono; [|apply IH; destruct Hl as [?|[-> ?]]; lia].
    intros r w' (l2 & i2 & -> & Hr & Hgen). exists l2, i2. split_and!; [done|done|].
    intros H. apply Hgen. by apply Hg.
Qed.

Lemma demo_sendfile_settles w :
  started w → wp demo_sendfile (settles w True (λ w', out w' = out w ++ content w)) w.
Proof.
  intros Hw. apply wp_bind, wp_open_input.
  { intros e l Hng. apply wp_ret. split_and!; [restore|by right|done|done]. }
  intros fd l Hfd H0 Hu Hg. apply wp_bind. cbn [fds with_answers with_position with_fds].
  apply wp_ask.
  { intros e l1 _ Hng. apply wp_bind, (wp_close fd Regular); [cbn; apply lookup_insert_eq|].
    apply wp_fail; [restore|tauto]. }
  intros _ l1 Hu1 Hg1. apply wp_bind, wp_gets, wp_bind, wp_gets. cbn in Hu1, Hg1.
  set (w1 := with_answers l1 _). apply wp_bind.
  assert (copied w1 l1 0 = w1) as E1.
  { unfold copied. cbn. unfold with_out. cbn. by rewrite app_nil_r. }
  pose proof (λ fuel, sendfile_loop_wp fuel fd w1 l1 0) as Hloop. rewrite E1 in Hloop.
  eapply wp_mono; [|apply Hloop].
  - intros r w' (l' & i' & -> & Hr & Hgen).
    destruct r as [e|[]]; apply wp_bind, (wp_close fd Regular); try (cbn; apply lookup_insert_eq).
    + apply wp_fail; [restore|]. intros H _. by specialize (Hgen (Hg1 (Hg H))).
    + apply wp_return0; [restore|]. cbn. by rewrite take_ge by (by apply Hr).
  - cbn. apply lookup_insert_eq.
  - cbn. rewrite lookup_insert_ne; [apply Hw|]. intros ->. by rewrite (std_out w Hw) in Hfd.
  - cbn. lia.
Qed.

(** ** splice *)

(** [i] bytes of the file have been read and [j] written, the rest is in the pipe. *)
Definition via (w : world) (p : nat) (l : list answer) (i j : nat) : world :=
  with_position i (with_out (out w ++ take j (content w))
    (with_pipe p (take (i - j) (drop j (content w))) (with_answers l w))).

Lemma via_drained w p l i j m l' :
  (m ≤ i - j)%nat →
  produce Stdout (take m (take (i - j) (drop j (content w))))
    (consume (ReadEnd p) m (with_answers l' (via w p l i j))) = via w p l' i (j + m).
Proof.
  intros Hm. unfold via. cbn.
  change (held p _) with (held p (with_pipe p (take (i - j) (drop j (content w))) w)).
  rewrite held_with_pipe. unfold with_out, with_pipe, with_position. cbn.
  rewrite insert_insert_eq, take_take, Nat.min_l by done.
  rewrite <-app_assoc, take_take_drop. f_equal. f_equal.
  replace (i - j)%nat with (m + (i - (j + m)))%nat at 1 by lia.
  by rewrite <-take_drop_commute, drop_drop.
Qed.

Lemma held_via w p l i j : held p (via w p l i j) = take (i - j) (drop j (content w)).
Proof. unfold via. apply held_with_pipe. Qed.

Lemma drain_wp fuel w p r l i j :
  fds w !! r = Some (ReadEnd p) → fds w !! STDOUT_FILENO = Some Stdout →
  (j ≤ i ≤ length (content w))%nat → (length l + (i - j) < fuel)%nat →
  wp (drain fuel r (i - j))
     (λ d w', ∃ l' j', w' = via w p l' i j' ∧ (j' ≤ i)%nat ∧ (d = Drained → j' = i) ∧
        used l l' ∧ (generous l → d = Drained ∧ generous l')) (via w p l i j).
Proof.
  intros Hr Hout. revert l j. induction fuel as [|fuel IH]; intros l j Hij Hf; [lia|].
  cbn [drain]. destruct (Nat.eqb_spec (i - j) 0) as [E|Hne].
  { apply wp_ret. exists l, j. split_and!; [done|lia|lia|by left|done]. }
  assert (length (take (i - j) (drop j (content w))) = i - j)%nat as Hlen.
  { rewrite length_take, length_drop. lia. }
  apply wp_bind, (wp_transfer _ _ _ _ _ (ReadEnd p) Stdout (take (i - j) (drop j (content w))));
    [done|done| |done|done| |].
  { rewrite <-(held_via w p l i j). apply readable_pipe. left. rewrite held_via.
    intros E. rewrite E in Hlen. cbn in Hlen. lia. }
  - intros e l' Hl Hng. cbn in Hl, Hng. change (with_answers l' _) with (via w p l' i j).
    destruct e.
    + eapply wp_mono; [|apply IH; lia]. intros d w' (l2 & j2 & -> & ? & ? & ? & _).
      exists l2, j2. split_and!; [done..| |done]. eapply used_trans; [by apply used_shorter|done].
    + apply wp_ret. exists l', j. split_and!; [done|lia|done|by apply used_shorter|done].
    + apply wp_ret. exists l', j. split_and!; [done|lia|done|by apply used_shorter|done].
  - intros m l' Hle Hl Hg. cbn in Hl, Hg. rewrite Hlen, Nat.min_id in *.
    rewrite via_drained by lia.
    assert (used l l') as Hu by (destruct Hl as [?|[-> _]]; [by right|by left]).
    destruct m as [|m].
    { apply wp_ret. exists l', (j + 0)%nat. split_and!; [done|lia|done|done|].
      intros Hgl. destruct (Hg Hgl) as [_ H']. lia. }
    replace (i - j - S m)%nat with (i - (j + S m))%nat by lia.
    eapply wp_mono; [|apply IH; destruct Hl as [?|[-> ?]]; lia].
    intros d w' (l2 & j2 & -> & ? & ? & ? & Hgen). exists l2, j2. split_and!; [done..| |].
    + by eapply used_trans.
    + intros Hgl. apply Hgen. by apply Hg.
Qed.

(** What [splice_loop] leaves behind: its three descriptors are closed. *)
Definition spliced (w : world) (fd r s : Z) (l : list answer) (rc : Z) (w' : world) : Prop :=
  fds w' = delete s (delete r (delete fd (fds w))) ∧ other_fds w' = other_fds w ∧
  bad_close w' = bad_close w ∧ stdio w' = stdio w ∧ (rc = 0 ∨ rc = 1)%Z ∧
  (rc = 0%Z → out w' = out w ++ content w) ∧ (generous l → rc = 0%Z).

Section splicing.
Context (w : world) (p : nat) (fd r s : Z).
Context (Hfd : fds w !! fd = Some Regular) (Hr : fds w !! r = Some (ReadEnd p)).
Context (Hs : fds w !! s = Some (WriteEnd p)) (Hout : fds w !! STDOUT_FILENO = Some Stdout).
Context (Hr0 : (0 <= r)%Z) (Hs0 : (0 <= s)%Z).

Lemma leave_splice rc l l1 i j :
  (∀ w1, wp rc (λ c w', w' = with_err (err w') w1 ∧ (c = 0 ∨ c = 1)%Z ∧
     (c = 0%Z → (length (content w) ≤ j)%nat) ∧ (generous l → c = 0%Z)) w1) →
  wp (close fd ;; close_pair r s ;; rc) (spliced w fd r s l) (via w p l1 i j).
Proof using Hfd Hr Hs Hr0 Hs0.
  intros Hrc. assert (fd ≠ r ∧ fd ≠ s ∧ r ≠ s) as (H1 & H2 & H3) by (split_and!; congruence).
  apply wp_bind, (wp_close fd Regular); [done|].
  apply wp_bind, (wp_close_pair r s (ReadEnd p) (WriteEnd p)); [done..| | |].
  { cbn. by rewrite lookup_delete_ne. }
  { cbn. by rewrite lookup_delete_ne. }
  eapply wp_mono; [|apply Hrc]. intros c w' (-> & Hc & Hdone & Hg). split_and!; try done.
  intros E. cbn. by rewrite take_ge by by apply Hdone.
Qed.

Lemma leave_broken what l l1 i j :
  ¬ generous l →
  wp (close fd ;; close_pair r s ;; fail what) (spliced w fd r s l) (via w p l1 i j).
Proof using Hfd Hr Hs Hr0 Hs0.
  intros Hng. apply leave_splice. intros w1. apply wp_bind, wp_update, wp_ret.
  split_and!; [done|by right|done|done].
Qed.

Lemma splice_loop_wp fuel l i :
  (i ≤ length (content w))%nat → (length l + (length (content w) - i) + 1 < fuel)%nat →
  wp (splice_loop fuel fd r s) (spliced w fd r s l) (via w p l i i).
Proof using Hfd Hr Hs Hr0 Hs0 Hout.
  revert l i. induction fuel as [|fuel IH]; intros l i Hi Hf; [lia|].
  cbn [splice_loop]. set (c := content w) in *.
  apply wp_bind, (wp_transfer _ _ _ _ _ Regular (WriteEnd p) (drop i c)); [done..| | |].
  { split.
    - unfold via. cbn. rewrite lookup_insert_eq. by eexists.
    - rewrite held_via, Nat.sub_diag. change (length (take 0 _)) with 0%nat.
      change PIPE_CAPACITY with CHUNK. lia. }
  - intros e l' Hl Hng. cbn in Hl, Hng. change (with_answers l' _) with (via w p l' i i).
    destruct e; [|by apply leave_broken..].
    eapply wp_mono; [|apply IH; [done|lia]]. intros rc w' (? & ? & ? & ? & ? & ? & _).
    by split_and!.
  - intros n l' Hle Hl Hg. cbn in Hl, Hg. rewrite length_drop in *.
    assert (used l l') as Hu by (destruct Hl as [?|[-> _]]; [by right|by left]).
    assert (produce (WriteEnd p) (take n (drop i c)) (consume Regular n (with_answers l' (via w p l i i)))
            = via w p l' (i + n) i) as ->.
    { unfold via. cbn. fold c.
      change (held p _) with (held p (with_pipe p (take (i - i) (drop i c)) w)).
      rewrite held_with_pipe, Nat.sub_diag. unfold with_pipe, with_position, with_out. cbn.
      rewrite insert_insert_eq. by replace (i + n - i)%nat with n by lia. }
    destruct n as [|n].
    { apply leave_splice. intros w1. apply wp_ret. split_and!; [by destruct w1|by left| |done].
      intros _. fold c. unfold CHUNK in Hle. lia. }
    apply wp_bind, wp_gets. change (answers (via w p l' (i + S n) i)) with l'.
    assert (S n = (i + S n) - i)%nat as En by lia. apply wp_bind.
    eapply wp_mono; [|rewrite En at 2; apply (drain_wp _ w p)]; [|done|done|fold c; lia|lia].
    intros d w' (l2 & j & -> & Hj & Hd & Hu2 & Hgen). destruct d.
    + specialize (Hd eq_refl) as ->. eapply wp_mono; [|apply IH; [lia|]].
      * intros rc w' (? & ? & ? & ? & ? & ? & Hrc). split_and!; try done.
        intros Hgl. apply Hrc, Hgen, Hg, Hgl.
      * assert (length l2 ≤ length l)%nat; [|lia].
        assert (length l' ≤ length l)%nat by (destruct Hu as [->|?]; lia).
        destruct Hu2 as [->|?]; lia.
    + apply leave_broken. intros Hgl. by destruct (Hgen (proj1 (Hg Hgl))).
    + apply leave_splice. intros w1. apply wp_bind, wp_update, wp_ret.
      split_and!; [done|by right|done|]. intros Hgl. by destruct (Hgen (proj1 (Hg Hgl))).
Qed.
End splicing.

Lemma demo_splice_settles w :
  started w → wp demo_splice (settles w True (λ w', out w' = out w ++ content w)) w.
Proof.
  intros Hw. apply wp_bind, wp_open_input.
  { intros e l Hng. apply wp_ret. split_and!; [restore|by right|done|done]. }
  intros fd l Hfd H0 Hu Hg. apply wp_bind, wp_pipe2; cbn.
  { intros e l1 Hng. apply wp_bind, (wp_close fd Regular); [cbn; apply lookup_insert_eq|].
    apply wp_fail; [restore|tauto]. }
  intros r s l1 (Hr & Hs & Hne & Hr0 & Hs0) Hu1 Hg1. cbn in *.
  apply lookup_insert_None in Hr as [Hr Hfr]. apply lookup_insert_None in Hs as [Hs Hfs].
  apply wp_bind, wp_gets. set (w1 := piped _ _ _ _ _).
  assert (via w1 (next_pipe w) l1 0 0 = w1) as E1.
  { unfold via, w1, piped, with_position, with_out, with_pipe. cbn.
    by rewrite app_nil_r, insert_insert_eq. }
  assert (fds w1 = <[s := WriteEnd (next_pipe w)]> (<[r := ReadEnd (next_pipe w)]>
                     (<[fd := Regular]> (fds w)))) as Ef by done.
  pose proof (λ fuel Ha Hb Hc Hd, splice_loop_wp w1 (next_pipe w) fd r s Ha Hb Hc Hd Hr0 Hs0 fuel l1 0)
    as Hloop. rewrite E1 in Hloop.
  eapply wp_mono; [|apply Hloop].
  - intros rc w' (E & ? & ? & ? & ? & Hout & Hgen). rewrite Ef in E.
    split_and!; [|done| |auto].
    + split_and!; [|done..]. rewrite E. map_undo.
    + intros ?%Hout. done.
  - rewrite Ef. by rewrite lookup_insert_ne, lookup_insert_ne, lookup_insert_eq by congruence.
  - rewrite Ef. by rewrite lookup_insert_ne, lookup_insert_eq.
  - rewrite Ef. by rewrite lookup_insert_eq.
  - rewrite Ef. pose proof (std_out w Hw) as E. rewrite !lookup_insert_ne; [done|congruence..].
  - lia.
  - cbn. lia.
Qed.

(** ** dup *)

Lemma wp_dup fd o (Q : errno + Z → world → Prop) w :
  fds w !! fd = Some o →
  (∀ e l, ¬ generous (answers w) → Q (inl e) (with_answers l w)) →
  (∀ fd' l, fds w !! fd' = None → (generous (answers w) → generous l) →
     Q (inr fd') (with_fds (<[fd' := o]> (fds w)) (with_answers l w))) →
  wp (dup fd) Q w.
Proof.
  intros Hfd He HQ. apply wp_bind, wp_ask.
  - intros e l _ Hg. apply wp_bind, wp_gets. by apply wp_ret, He.
  - intros n l _ Hg. apply wp_bind, wp_gets. cbn. rewrite Hfd.
    apply wp_bind, wp_install. intros fd' Hn _. by apply wp_ret, HQ.
Qed.
Lemma wp_dup2 fd fd' o (Q : errno + unit → world → Prop) w :
  fds w !! fd = Some o →
  (∀ e l, ¬ generous (answers w) → Q (inl e) (with_answers l w)) →
  (∀ l, (generous (answers w) → generous l) →
     Q (inr ()) (with_fds (<[fd' := o]> (fds w)) (with_answers l w))) →
  wp (dup2 fd fd') Q w.
Proof.
  intros Hfd He HQ. apply wp_bind, wp_ask.
  - intros e l _ Hg. apply wp_bind, wp_gets. by apply wp_ret, He.
  - intros n l _ Hg. apply wp_bind, wp_gets. cbn. rewrite Hfd. by apply wp_bind, wp_update, wp_ret, HQ.
Qed.

(** The descriptors are those of the start; when descriptor 1 could not be restored it
    still refers to the error stream. *)
Definition dup_settles (w : world) (rc : Z) (w' : world) : Prop :=
  dom (fds w') = dom (fds w) ∧ other_fds w' = other_fds w ∧ bad_close w' = bad_close w ∧
  (rc = 0 ∨ rc = 1)%Z ∧ (generous (answers w) → rc = 0%Z) ∧
  (rc = 1%Z → stdio w' = []) ∧
  (rc = 0%Z → fds w' = fds w ∧ out w' = out w ∧
     err w' = err w ++ redirected_text ++ [newline] ∧ stdio w' = restored_text ++ [newline]).

Lemma demo_dup_settles w : started w → wp demo_dup (dup_settles w) w.
Proof.
  intros Hw. pose proof (std_out w Hw) as Ho. pose proof (std_err w Hw) as He.
  pose proof (unbuffered w Hw) as Hb.
  apply wp_bind, (wp_dup _ Stdout); [done| |].
  { intros e l Hng. apply wp_bind, wp_update, wp_ret. split_and!; try done; by right. }
  intros saved l Hs Hg. assert (saved ≠ STDOUT_FILENO ∧ saved ≠ STDERR_FILENO) as [H1 H2].
  { split; congruence. }
  apply wp_bind, (wp_dup2 _ _ Stderr); [cbn; by rewrite lookup_insert_ne| |].
  { intros e l1 Hng. apply wp_bind, (wp_close saved Stdout); [cbn; apply lookup_insert_eq|].
    apply wp_bind, wp_update, wp_ret.
    split_and!; cbn; try done; [by rewrite delete_insert_id|by right|tauto]. }
  intros l1 Hg1. cbn in Hg1.
  apply wp_bind, wp_update, wp_bind, wp_update. cbn. rewrite lookup_insert_eq, Hb. cbn.
  apply wp_bind, (wp_dup2 _ _ Stdout).
  { cbn. rewrite lookup_insert_ne by done. apply lookup_insert_eq. }
  - intros e l2 Hng. cbn in Hng. apply wp_bind, (wp_close saved Stdout).
    { cbn. rewrite lookup_insert_ne by done. apply lookup_insert_eq. }
    apply wp_bind, wp_update, wp_ret. split_and!; cbn; try done; [|by right|tauto].
    rewrite delete_insert_ne, delete_insert_id by done. rewrite dom_insert_L.
    assert (STDOUT_FILENO ∈ dom (fds w)) by by apply elem_of_dom. set_solver.
  - intros l2 Hg2. apply wp_bind, (wp_close saved Stdout).
    { cbn. rewrite !lookup_insert_ne by done. apply lookup_insert_eq. }
    assert (delete saved (<[STDOUT_FILENO := Stdout]> (<[STDOUT_FILENO := Stderr]>
              (<[saved := Stdout]> (fds w)))) = fds w) as E by map_undo.
    apply wp_bind, wp_update, wp_ret. unfold dup_settles. cbn. rewrite E.
    split_and!; try done. by left.
Qed.

(** ** vectors *)

Definition text : bytes := first ++ second.
Lemma text_fits : (length text ≤ 32)%nat.
Proof. apply Nat.leb_le. reflexivity. Qed.
Lemma capacity_text n : (n ≤ 32)%nat → (n ≤ PIPE_CAPACITY)%nat.
Proof. unfold PIPE_CAPACITY. lia. Qed.

Lemma held_piped nb l r s w : held (next_pipe w) (piped nb l r s w) = [].
Proof. unfold held, piped. cbn. by rewrite lookup_insert_eq. Qed.

Lemma wp_either {A} (m n : code (errno + A)) Q w :
  wp m (λ a w', match a with
                | inl _ => Q true w'
                | inr _ => wp n (λ b w'', Q match b with inl _ => true | inr _ => false end w'') w'
                end) w →
  wp (either m n) Q w.
Proof.
  intros H. apply wp_bind. eapply wp_mono; [|exact H]. intros [e|a] w' Hw'; [exact Hw'|].
  apply wp_bind. exact Hw'.
Qed.

Lemma demo_vectors_settles w :
  started w →
  wp demo_vectors (settles w True (λ w', ∃ n, out w' = out w ++ take n text)) w.
Proof.
  intros Hw. apply wp_bind, wp_pipe2.
  { intros e l Hng. apply wp_fail; [restore|tauto]. }
  intros r s l (Hr & Hs & Hne & Hr0 & Hs0) Hu Hg. set (p := next_pipe w).
  set (w1 := piped _ _ _ _ _).
  assert (s ≠ STDOUT_FILENO ∧ r ≠ STDOUT_FILENO) as [Hs1 Hr1].
  { pose proof (std_out w Hw). split; congruence. }
  apply wp_bind, (wp_write _ (WriteEnd p)); [cbn; apply lookup_insert_eq|done| | |].
  { split; [cbn; rewrite lookup_insert_eq; by eexists|]. unfold p, w1. rewrite held_piped.
    cbn [length]. apply capacity_text, text_fits. }
  { intros e l1 _ Hng. apply wp_bind, (wp_close_pair r s (ReadEnd p) (WriteEnd p)); try done.
    - cbn. by rewrite lookup_insert_ne, lookup_insert_eq.
    - cbn. by rewrite lookup_insert_eq.
    - apply wp_fail; [restore|cbn in Hng; tauto]. }
  intros n l1 Hn Hl1 Hg1. cbn in Hg1. fold text in Hn |- *.
  apply wp_bind, (wp_close s (WriteEnd p)); [cbn; apply lookup_insert_eq|].
  set (w2 := with_fds _ _).
  assert (held p w2 = take n text) as Eh.
  { unfold w2, produce. change (held p (with_fds _ ?x)) with (held p x). rewrite held_with_pipe.
    change (held p (with_answers l1 w1)) with (held p w1). by unfold p, w1; rewrite held_piped. }
  assert (fds w2 = <[r := ReadEnd p]> (fds w)) as Ef by (cbn; map_undo).
  apply wp_bind, (wp_read _ _ (ReadEnd p) (held p w2)).
  { rewrite Ef. apply lookup_insert_eq. }
  { apply readable_pipe. right. apply has_writer_none.
    - intros fd. rewrite Ef, lookup_insert. case_decide; [done|].
      apply (no_ends w Hw). unfold p. lia.
    - intros fd. apply (no_other_ends w Hw). unfold p. lia. }
  { intros e l2 _ Hng. apply wp_bind. unfold close_pair. rewrite (proj2 (Z.leb_le 0 r)) by done.
    apply wp_bind, (wp_close r (ReadEnd p)).
    { change (fds _) with (fds w2). rewrite Ef. apply lookup_insert_eq. }
    apply wp_ret, wp_fail; [|cbn in Hng; naive_solver].
    split_and!; try done. change (delete r (fds w2) = fds w). rewrite Ef. map_undo. }
  intros k l2 Hk _ Hg2. rewrite Eh in *. set (data := take k (take n text)).
  assert (length data ≤ 32)%nat as Hlen.
  { pose proof text_fits. unfold data. rewrite !length_take. lia. }
  apply wp_bind, (wp_close r (ReadEnd p)).
  { change (fds _) with (fds w2). rewrite Ef. apply lookup_insert_eq. }
  set (w3 := with_fds _ _). assert (fds w3 = fds w) as E3.
  { change (delete r (fds w2) = fds w). rewrite Ef. map_undo. }
  assert (fds w3 !! STDOUT_FILENO = Some Stdout) as Ho by (rewrite E3; apply Hw).
  apply wp_bind, wp_either. eapply wp_mono; [|by apply (wp_write_all _ Stdout)].
  intros a w4 (l4 & k4 & -> & Ha & _ & Hg4).
  assert (generous (answers w) → generous (answers w3)) as Hg3 by (cbn in Hg2; naive_solver).
  destruct a as [e|[]].
  { apply wp_fail; [by repeat split|naive_solver]. }
  eapply wp_mono; [|by apply (wp_write_all _ Stdout)].
  intros b w5 (l5 & k5 & -> & Hb & _ & Hg5). cbn [answers produce with_out with_answers] in Hg5.
  destruct b as [e|[]].
  { apply wp_fail; [by repeat split|naive_solver]. }
  apply wp_return0; [by repeat split|]. exists (Nat.min k n). cbn.
  rewrite Ha, Hb, <-app_assoc by done. f_equal. fold data.
  rewrite (take_ge (drop 32 data)), (drop_ge data 32), app_nil_r by (rewrite ?length_drop; lia).
  rewrite take_ge by lia. unfold data. by rewrite take_take.
Qed.

(** ** pipe *)

Lemma message_fits : (0 < length message ≤ 32)%nat.
Proof. split; apply Nat.leb_le; reflexivity. Qed.

Section child.
Context (p : nat) (r s : Z) (w : world).
Context (Hr : fds w !! r = Some (ReadEnd p)) (Hs : fds w !! s = Some (WriteEnd p)).
Context (Hout : fds w !! STDOUT_FILENO = Some Stdout) (Hheld : held p w = message).

(** The child prints a part of the message; the rest of the parent's state is as it was. *)
Definition child_left (status : Z) (w' : world) : Prop :=
  bad_close w' = bad_close w ∧ (status = 0%Z → ∃ n, out w' = out w ++ take n message) ∧
  (generous (answers w) → status = 0%Z).

Lemma child_wp : wp (child r s) child_left w.
Proof using Hr Hs Hout Hheld.
  assert (r ≠ s ∧ s ≠ STDOUT_FILENO ∧ r ≠ STDOUT_FILENO) as (H1 & H2 & H3) by (split_and!; congruence).
  apply wp_bind, (wp_close s (WriteEnd p)); [done|]. set (w1 := with_fds _ _).
  apply wp_bind, wp_retrying. intros l Hu Hg. cbn [answers w1 with_fds] in Hu, Hg.
  apply (wp_read _ _ (ReadEnd p) message).
  { cbn. by rewrite lookup_delete_ne. }
  { pose proof (readable_pipe p (with_answers l w1)) as E.
    change (held p (with_answers l w1)) with (held p w) in E. rewrite Hheld in E. apply E. by left. }
  { intros e l1 Hl Hng. cbn in Hl, Hng. destruct e.
    - exists l1. done.
    - apply wp_bind, wp_update, wp_ret. split_and!; [done|done|tauto].
    - apply wp_bind, wp_update, wp_ret. split_and!; [done|done|tauto]. }
  intros n l1 _ _ Hg1. cbn in Hg1. apply wp_bind.
  eapply wp_mono; [|apply (wp_write_all _ Stdout); [|done|done]].
  2: { cbn. by rewrite lookup_delete_ne. }
  intros rc w' (l2 & k & -> & Hrc & _ & Hg2). cbn in Hg2. destruct rc as [e|[]].
  - apply wp_bind, wp_update, wp_ret. split_and!; [done|done|naive_solver].
  - apply wp_bind, (wp_close r (ReadEnd p)); [cbn; by rewrite lookup_delete_ne|].
    apply wp_ret. split_and!; [done| |done]. intros _. exists n. cbn [out with_fds produce with_out].
    by rewrite Hrc.
Qed.
End child.

Lemma demo_pipe_settles w :
  started w →
  wp demo_pipe (settles w True (λ w', ∃ n, out w' = out w ++ take n message)) w.
Proof.
  intros Hw. apply wp_bind, wp_pipe2.
  { intros e l Hng. apply wp_fail; [restore|tauto]. }
  intros r s l (Hr & Hs & Hne & Hr0 & Hs0) Hu Hg. set (p := next_pipe w).
  set (w1 := piped _ _ _ _ _).
  assert (fds w1 !! r = Some (ReadEnd p)) as Er by (cbn; by rewrite lookup_insert_ne, lookup_insert_eq).
  assert (fds w1 !! s = Some (WriteEnd p)) as Es by (cbn; by rewrite lookup_insert_eq).
  assert (fds w1 !! STDOUT_FILENO = Some Stdout) as Eo.
  { pose proof (std_out w Hw). cbn. rewrite !lookup_insert_ne by congruence. done. }
  assert (delete s (delete r (fds w1)) = fds w) as Eundo by (cbn; map_undo).
  apply wp_bind, wp_gets, wp_bind, wp_ask.
  { intros e l1 _ Hng. apply wp_bind, (wp_close_pair r s (ReadEnd p) (WriteEnd p)); try done.
    apply wp_fail; [by repeat split|cbn in Hng; tauto]. }
  intros _ l1 _ Hg1. cbn [answers w1 piped] in Hg1.
  apply wp_bind, (wp_close r (ReadEnd p)); [done|]. set (w2 := with_fds _ _).
  apply wp_bind. eapply wp_mono; [|apply (wp_write_all _ (WriteEnd p)); [|done|]].
  2: { change (delete r (fds w1) !! s = Some (WriteEnd p)). by rewrite lookup_delete_ne. }
  2: { split; [cbn; rewrite lookup_insert_eq; by eexists|].
       change (held p w2) with (held p w1). unfold p, w1. rewrite held_piped. cbn [length].
       apply capacity_text. pose proof message_fits. lia. }
  intros rc w' (l3 & k & -> & Hrc & _ & Hg3). cbn [answers w2 with_fds with_answers] in Hg3.
  apply wp_bind, (wp_close s (WriteEnd p)).
  { change (delete r (fds w1) !! s = Some (WriteEnd p)). by rewrite lookup_delete_ne. }
  destruct rc as [e|[]]; [apply wp_fail; [by repeat split|naive_solver]|].
  apply wp_bind, wp_retrying. intros l4 _ Hg4. cbn [answers produce with_fds with_answers with_pipe] in Hg4.
  apply wp_ask.
  { intros e l5 Hl Hng. cbn in Hl, Hng. destruct e; [by exists l5|..];
      (apply wp_fail; [by repeat split|naive_solver]). }
  intros _ l5 _ Hg5. cbn in Hg5. unfold run_child.
  apply wp_bind, wp_bind, wp_gets, wp_bind, wp_gets, wp_bind, wp_gets, wp_bind, wp_update, wp_bind.
  eapply wp_mono; [|apply (child_wp p r s); [exact Er|exact Es|exact Eo|]].
  - intros status w' (Hb & Hn & Hst). apply wp_bind, wp_update, wp_ret, wp_ret.
    split_and!.
    + by repeat split.
    + destruct (_ =? _)%Z; auto.
    + destruct (Z.eqb_spec status 0) as [->|]; [|done]. intros _. by apply Hn.
    + intros H _. rewrite Hst; [done|]. cbn. naive_solver.
  - cbn [produce]. unfold held at 1. cbn [pipes with_fds with_other with_answers with_pipe].
    rewrite lookup_insert_eq. cbn [default from_option id]. rewrite Hrc by done.
    change (held p (with_answers l3 w2)) with (held p w1). unfold p, w1. by rewrite held_piped.
Qed.

(** ** fcntl *)

Lemma demo_fcntl_settles w :
  started w →
  wp demo_fcntl (λ rc w', restored (with_stdio (stdio w') w) w' ∧ (rc = 0 ∨ rc = 1)%Z ∧
    (rc = 1%Z → stdio w' = []) ∧ out w' = out w ∧
    (rc = 0%Z → ∃ rest, stdio w' = (lit "read end: O_NONBLOCK=yes" ++ [newline]) ++
       (lit "empty nonblocking pipe: read returns EAGAIN (not EOF)" ++ [newline]) ++ rest)) w.
Proof.
  intros Hw. pose proof (unbuffered w Hw) as Hb. apply wp_bind, wp_pipe2.
  { intros e l Hng. apply wp_bind, wp_update, wp_ret. split_and!; try done. by right. }
  intros r s l (Hr & Hs & Hne & Hr0 & Hs0) Hu Hg. set (p := next_pipe w). set (w1 := piped _ _ _ _ _).
  assert (fds w1 !! r = Some (ReadEnd p)) as Er by (cbn; by rewrite lookup_insert_ne, lookup_insert_eq).
  assert (fds w1 !! s = Some (WriteEnd p)) as Es by (cbn; by rewrite lookup_insert_eq).
  assert (delete s (delete r (fds w1)) = fds w) as Eundo by (cbn; map_undo).
  apply wp_bind, wp_ask.
  { intros e l1 _ _. apply wp_bind, (wp_close_pair r s (ReadEnd p) (WriteEnd p)); try done.
    apply wp_bind, wp_update, wp_ret. split_and!; try done. by right. }
  intros _ l1 _ _. apply wp_bind, wp_gets. change (fds (with_answers l1 w1)) with (fds w1). rewrite Er.
  rewrite bool_decide_true by (cbn; set_solver).
  apply wp_bind, wp_update, wp_bind. set (w2 := with_stdio _ _).
  assert (wp (read r 1) (λ c w', c = inl EAGAIN ∧ w' = w2) w2) as Hread.
  { apply wp_bind, wp_gets. change (fds w2) with (fds w1). rewrite Er. apply wp_bind, wp_gets.
    cbn [readable]. change (held p w2) with (held p w1). unfold p at 1, w1 at 1. rewrite held_piped.
    assert (has_writer p w2 = true) as ->.
    { apply bool_decide_eq_true_2, Exists_exists. exists (s, WriteEnd p). split; [|done].
      apply elem_of_app. left. by apply elem_of_map_to_list. }
    apply wp_bind, wp_gets. rewrite bool_decide_true by (cbn; set_solver). by apply wp_ret. }
  eapply wp_mono; [|exact Hread]. intros c w' [-> ->].
  apply wp_bind, wp_update, wp_bind, wp_ask.
  - intros e l2 _ _. apply wp_bind, wp_ret, wp_bind, (wp_close_pair r s (ReadEnd p) (WriteEnd p)); try done.
    apply wp_ret. split_and!; try done; [by left|]. intros _. exists [].
    cbn -[lit]. by rewrite Hb, app_nil_r.
  - intros n l2 _ _. apply wp_bind, wp_update, wp_bind, (wp_close_pair r s (ReadEnd p) (WriteEnd p)); try done.
    apply wp_ret. split_and!; try done; [by left|]. intros _. eexists.
    cbn -[lit show_nat]. by rewrite Hb, <-!app_assoc.
Qed.

(** ** tee *)

Section teeing.
Context (w : world) (a0 a1 b0 b1 : Z).
Let pa : nat := next_pipe w.
Let pb : nat := S (next_pipe w).
Let F : gmap Z obj :=
  <[b1 := WriteEnd pb]> (<[b0 := ReadEnd pb]> (<[a1 := WriteEnd pa]> (<[a0 := ReadEnd pa]> (fds w)))).

(** With both pipes made: what they hold, the input and the two outputs. *)
Definition teed (l : list answer) (a b i o e : bytes) : world :=
  World l F (other_fds w) (<[pb := b]> (<[pa := a]> (pipes w))) (nonblocking w) (S pb)
        (regular w) (content w) (position w) i o e (stdio w) (bad_close w).

Lemma teed_a l a b i o e : held pa (teed l a b i o e) = a.
Proof. unfold held, teed. cbn. rewrite lookup_insert_ne by (unfold pa, pb; lia). by rewrite lookup_insert_eq. Qed.
Lemma teed_b l a b i o e : held pb (teed l a b i o e) = b.
Proof. unfold held, teed. cbn. by rewrite lookup_insert_eq. Qed.
Lemma teed_answers l' l a b i o e : with_answers l' (teed l a b i o e) = teed l' a b i o e.
Proof. done. Qed.

Lemma teed_in n l a b i o e :
  produce (WriteEnd pa) (take n i) (consume Stdin n (teed l a b i o e))
  = teed l (a ++ take n i) b (drop n i) o e.
Proof.
  cbn. change (held pa _) with (held pa (teed l a b i o e)). rewrite teed_a.
  unfold teed, with_inp, with_pipe. cbn. f_equal.
  rewrite insert_insert_ne by (unfold pa, pb; lia). by rewrite insert_insert_eq.
Qed.
Lemma teed_copy n l a b i o e :
  produce (WriteEnd pb) (take n a) (teed l a b i o e) = teed l a (b ++ take n a) i o e.
Proof. cbn. rewrite teed_b. unfold teed, with_pipe. cbn. by rewrite insert_insert_eq. Qed.
Lemma teed_err n l a b i o e :
  produce Stderr (take n b) (consume (ReadEnd pb) n (teed l a b i o e))
  = teed l a (drop n b) i o (e ++ take n b).
Proof. cbn. rewrite teed_b. unfold teed, with_pipe, with_err. cbn. by rewrite insert_insert_eq. Qed.
Lemma teed_out n l a b i o e :
  produce Stdout (take n a) (consume (ReadEnd pa) n (teed l a b i o e))
  = teed l (drop n a) b i (o ++ take n a) e.
Proof.
  cbn. rewrite teed_a. unfold teed, with_pipe, with_out. cbn. f_equal.
  rewrite insert_insert_ne by (unfold pa, pb; lia). by rewrite insert_insert_eq.
Qed.

(** Copied to both outputs: prefixes of what was taken from the input. *)
Definition tee_job (w' : world) : Prop :=
  ∃ n k1 k2, out w' = out w ++ take k2 (take n (inp w)) ∧ err w' = err w ++ take k1 (take n (inp w)) ∧
    inp w' = drop n (inp w) ∧
    (answers w = [] → n = Nat.min 4096 (length (inp w)) ∧ k1 = n ∧ k2 = n).

Context (Hw : started w) (Ha : spare (fds w) a0 a1)
  (Hb : spare (<[a1 := WriteEnd pa]> (<[a0 := ReadEnd pa]> (fds w))) b0 b1).

Lemma tee_ends :
  F !! a0 = Some (ReadEnd pa) ∧ F !! a1 = Some (WriteEnd pa) ∧
  F !! b0 = Some (ReadEnd pb) ∧ F !! b1 = Some (WriteEnd pb) ∧
  F !! STDIN_FILENO = Some Stdin ∧ F !! STDOUT_FILENO = Some Stdout ∧ F !! STDERR_FILENO = Some Stderr ∧
  delete b1 (delete b0 (delete a1 (delete a0 F))) = fds w ∧ (a0 ≠ b0 ∧ a1 ≠ b0 ∧ a0 ≠ b1 ∧ a1 ≠ b1).
Proof using Hw Ha Hb.
  destruct Ha as (Ha0 & Ha1 & Hnea & _), Hb as (Hb0 & Hb1 & Hneb & _), Hw as [Hi Ho He _ _ _].
  apply lookup_insert_None in Hb0 as [[Hb0 ?]%lookup_insert_None ?].
  apply lookup_insert_None in Hb1 as [[Hb1 ?]%lookup_insert_None ?].
  unfold F. rewrite !lookup_insert.
  split_and!; try done; try (repeat case_decide; simplify_eq; done). map_undo.
Qed.

Lemma tee_leave_wp rc l a b i o e Q :
  wp rc Q (with_fds (fds w) (teed l a b i o e)) →
  wp (tee_leave a0 a1 b0 b1 rc) Q (teed l a b i o e).
Proof using Hw Ha Hb.
  destruct tee_ends as (Fa0 & Fa1 & Fb0 & Fb1 & _ & _ & _ & Hundo & ? & ? & ? & ?).
  destruct Ha as (_ & _ & Hnea & Ha00 & Ha10), Hb as (_ & _ & Hneb & Hb00 & Hb10). intros HQ.
  apply wp_bind, (wp_close_pair a0 a1 (ReadEnd pa) (WriteEnd pa)); try done.
  apply wp_bind, (wp_close_pair b0 b1 (ReadEnd pb) (WriteEnd pb)); try done.
  - cbn. by rewrite !lookup_delete_ne by congruence.
  - cbn. by rewrite !lookup_delete_ne by congruence.
  - cbn [fds with_fds]. change (fds (teed l a b i o e)) with F. by rewrite Hundo.
Qed.

(** The kernel has not refused, or at all answered, more than at the start. *)
Definition meek (l : list answer) : Prop :=
  (generous (answers w) → generous l) ∧ (answers w = [] → l = []).
Lemma meek_used l l' : meek l → used l l' → (generous l → generous l') → meek l'.
Proof.
  intros [Hg He] Hu Hg'. split; [auto|]. intros E. rewrite (He E) in Hu.
  destruct Hu as [->|Hu]; [done|cbn in Hu; lia].
Qed.

Lemma tee_fail what l l' a b i o e :
  meek l → ¬ generous l →
  wp (tee_leave a0 a1 b0 b1 (fail what)) (settles w (answers w = []) tee_job) (teed l' a b i o e).
Proof using Hw Ha Hb.
  intros [Hg _] Hng. apply tee_leave_wp, wp_fail; [by repeat split|tauto].
Qed.

Lemma readable_a l a b i o e :
  a ≠ [] → readable (ReadEnd pa) (teed l a b i o e) = Some (Some a).
Proof.
  intros Hne. pose proof (readable_pipe pa (teed l a b i o e)) as E.
  rewrite teed_a in E. apply E. by left.
Qed.
Lemma readable_b l a b i o e :
  b ≠ [] → readable (ReadEnd pb) (teed l a b i o e) = Some (Some b).
Proof.
  intros Hne. pose proof (readable_pipe pb (teed l a b i o e)) as E.
  rewrite teed_b in E. apply E. by left.
Qed.

(** The last stage: [n > 0] bytes of the input are in both pipes. *)
Lemma tee_forward_wp n l :
  (0 < n ≤ length (inp w))%nat → meek l →
  (answers w = [] → n = Nat.min 4096 (length (inp w))) →
  wp (tee_forward a0 a1 b0 b1 n) (settles w (answers w = []) tee_job)
     (teed l (take n (inp w)) (take n (inp w)) (drop n (inp w)) (out w) (err w)).
Proof using Hw Ha Hb.
  intros Hn Hl Hall. destruct tee_ends as (Fa0 & Fa1 & Fb0 & Fb1 & Fi & Fo & Fe & _).
  set (line := take n (inp w)).
  assert (length line = n) as Hlen by (unfold line; rewrite length_take; lia).
  assert (line ≠ []) as Hne by (intros E; rewrite E in Hlen; cbn in Hlen; lia).
  apply wp_bind, (wp_transfer _ _ _ _ _ (ReadEnd pb) Stderr line);
    [done|done|by apply readable_b|done|done| |].
  { intros x l1 _ Hng. by apply (tee_fail _ l). }
  intros k1 l1 _ Hl1 Hg1. cbn [answers teed] in Hl1, Hg1. rewrite teed_answers, teed_err.
  assert (meek l1) as Hm1.
  { apply (meek_used l); [done| |naive_solver]. destruct Hl1 as [?|[-> _]]; [by right|by left]. }
  apply wp_bind, (wp_transfer _ _ _ _ _ (ReadEnd pa) Stdout line);
    [done|done|by apply readable_a|done|done| |].
  { intros x l2 _ Hng. by apply (tee_fail _ l1). }
  intros k2 l2 _ Hl2 _. cbn [answers teed] in Hl2. rewrite teed_answers, teed_out.
  apply tee_leave_wp, wp_return0; [by repeat split|]. exists n, k1, k2. split_and!; [done..|].
  intros Hz. destruct Hl as [_ Hl], Hm1 as [_ Hm1]. rewrite (Hl Hz), (Hm1 Hz), Hlen in *.
  destruct Hl1 as [Hl1|[_ ->]]; [cbn in Hl1; lia|]. destruct Hl2 as [Hl2|[_ ->]]; [cbn in Hl2; lia|].
  split_and!; [auto|lia|lia].
Qed.

Lemma tee_copy_wp n l :
  (0 < n ≤ length (inp w))%nat → (n ≤ 4096)%nat → meek l →
  (answers w = [] → n = Nat.min 4096 (length (inp w))) →
  wp (tee_copy a0 a1 b0 b1 n) (settles w (answers w = []) tee_job)
     (teed l (take n (inp w)) [] (drop n (inp w)) (out w) (err w)).
Proof using Hw Ha Hb.
  intros Hn Hmax Hl Hall. destruct tee_ends as (Fa0 & Fa1 & Fb0 & Fb1 & _).
  set (line := take n (inp w)).
  assert (length line = n) as Hlen by (unfold line; rewrite length_take; lia).
  assert (line ≠ []) as Hne by (intros E; rewrite E in Hlen; cbn in Hlen; lia).
  apply wp_bind, wp_retrying. intros l1 Hu1 Hg1. cbn [answers teed] in Hu1, Hg1. rewrite teed_answers.
  pose proof (meek_used _ _ Hl Hu1 Hg1) as Hm1.
  apply (wp_transfer _ _ _ _ _ (ReadEnd pa) (WriteEnd pb) line);
    [done|done|by apply readable_a|done| | |].
  { split; [cbn; rewrite lookup_insert_eq; by eexists|]. rewrite teed_b. cbn [length].
    unfold PIPE_CAPACITY. lia. }
  { intros x l2 Hl2 Hng. cbn in Hl2, Hng. destruct x; [by exists l2|by apply (tee_fail _ l1)..]. }
  intros c l2 Hc Hl2 Hg2. cbn [answers teed] in Hl2, Hg2. rewrite teed_answers, teed_copy, Hlen in *.
  cbn [app]. assert (meek l2) as Hm2.
  { apply (meek_used l1); [done| |naive_solver]. destruct Hl2 as [?|[-> _]]; [by right|by left]. }
  destruct (Nat.eqb_spec c n) as [->|Hcn]; cbn [negb].
  - rewrite (take_ge line) by lia. by apply tee_forward_wp.
  - apply tee_leave_wp, wp_bind, wp_update, wp_ret. split_and!; [by repeat split|by right|done|].
    intros _ Hz. destruct Hm1 as [_ Hm1]. rewrite (Hm1 Hz) in Hl2.
    destruct Hl2 as [Hl2|[_ ->]]; [cbn in Hl2; lia|lia].
Qed.
End teeing.

Lemma demo_tee_settles w :
  started w → wp demo_tee (settles w (answers w = []) (tee_job w)) w.
Proof.
  intros Hw. apply wp_bind, wp_pipe2.
  { intros e l Hng. apply wp_bind, wp_close_none, wp_bind, wp_close_none, wp_fail; [by repeat split|tauto]. }
  intros a0 a1 l Ha Hu Hg. apply wp_bind, wp_pipe2.
  { intros e l1 Hng. destruct Ha as (Ha0 & Ha1 & Hnea & Ha00 & Ha10).
    apply wp_bind, (wp_close_pair a0 a1 (ReadEnd (next_pipe w)) (WriteEnd (next_pipe w)));
      try done; [cbn; by rewrite lookup_insert_ne, lookup_insert_eq|cbn; by rewrite lookup_insert_eq|].
    apply wp_bind, wp_close_none, wp_fail; [restore|cbn in Hng; tauto]. }
  intros b0 b1 l1 Hb Hu1 Hg1. cbn [answers piped] in Hu1, Hg1.
  assert (meek w l1) as Hm1.
  { apply (meek_used w l); [|done..]. by apply (meek_used w (answers w)). }
  change (piped false l1 b0 b1 (piped false l a0 a1 w)) with (teed w a0 a1 b0 b1 l1 [] [] (inp w) (out w) (err w)).
  destruct (tee_ends w a0 a1 b0 b1 Hw Ha Hb) as (_ & Fa1 & _ & _ & Fi & _).
  apply wp_bind, wp_retrying. intros l2 Hu2 Hg2. cbn [answers teed] in Hu2, Hg2. rewrite teed_answers.
  pose proof (meek_used w _ _ Hm1 Hu2 Hg2) as Hm2.
  apply (wp_transfer _ _ _ _ _ Stdin (WriteEnd (next_pipe w)) (inp w)); [done..| | |].
  { split; [cbn; rewrite lookup_insert_ne, lookup_insert_eq by lia; by eexists|].
    rewrite teed_a. cbn [length]. unfold PIPE_CAPACITY. lia. }
  { intros e l3 Hl Hng. cbn in Hl, Hng. destruct e; [by exists l3|by apply (tee_fail _ _ _ _ _ Hw Ha Hb _ l2)..]. }
  intros n l3 Hn Hl3 Hg3. cbn [answers teed] in Hl3, Hg3. rewrite teed_answers, teed_in. cbn [app].
  assert (meek w l3) as Hm3.
  { apply (meek_used w l2); [done| |naive_solver]. destruct Hl3 as [?|[-> _]]; [by right|by left]. }
  assert (answers w = [] → n = Nat.min 4096 (length (inp w))) as Hall.
  { intros Hz. destruct Hm2 as [_ Hm2]. rewrite (Hm2 Hz) in Hl3. destruct Hl3 as [Hl3|[_ ->]]; [cbn in Hl3; lia|done]. }
  destruct n as [|n]; [|apply tee_copy_wp; try done; lia].
  apply tee_leave_wp; [done..|]. apply wp_return0; [by repeat split|]. exists 0%nat, 0%nat, 0%nat.
  split_and!; [by cbn; rewrite app_nil_r..|done|]. intros Hz. by rewrite <-(Hall Hz).
Qed.

(** ** The commands through main *)

Lemma wp_run {A} (m : code A) Q w : wp m Q w → ∃ a w', m w = Some (a, w') ∧ Q a w'.
Proof. unfold wp. destruct (m w) as [[a w']|]; [eauto|done]. Qed.

(** The flush at exit leaves the descriptors alone. *)
Lemma wp_fflush (Q : unit → world → Prop) w :
  (∀ w', fds w' = fds w → other_fds w' = other_fds w → bad_close w' = bad_close w → Q () w') →
  wp fflush Q w.
Proof.
  intros HQ. apply wp_update. destruct (fds w !! STDOUT_FILENO) as [o|]; [|by apply HQ].
  apply HQ; by destruct o.
Qed.
(** With an empty buffer it changes nothing. *)
Lemma wp_fflush_empty (Q : unit → world → Prop) w :
  fds w !! STDOUT_FILENO = Some Stdout → stdio w = [] → Q () w → wp fflush Q w.
Proof.
  intros Ho Hb HQ. apply wp_update. rewrite Ho, Hb. destruct w; cbn in *. subst.
  unfold with_out, with_stdio. cbn. by rewrite app_nil_r.
Qed.

Definition kept (w w' : world) : Prop :=
  dom (fds w') = dom (fds w) ∧ other_fds w' = other_fds w ∧ bad_close w' = bad_close w.
Lemma restored_kept w s w' : restored (with_stdio s w) w' → kept w w'.
Proof. intros (E & ? & ? & _). split_and!; [by rewrite E|done..]. Qed.
Lemma settles_kept w good job rc w' : settles w good job rc w' → kept w w' ∧ (0 <= rc <= 2)%Z.
Proof. intros ((E & ? & ? & _) & Hrc & _). split; [split_and!; [by rewrite E|done..]|lia]. Qed.
Lemma settles_silent w good job rc w' :
  started w → settles w good job rc w' → fds w' !! STDOUT_FILENO = Some Stdout ∧ stdio w' = [].
Proof. intros Hw ((E & _ & _ & Eb) & _). rewrite E, Eb. by split; apply Hw. Qed.

Lemma dispatch_kept argv w :
  started w → wp (dispatch argv) (λ rc w', kept w w' ∧ (0 <= rc <= 2)%Z) w.
Proof.
  intros Hw. assert (Hbad : ∀ what, wp (complain what ;; mret 2%Z) (λ rc w', kept w w' ∧ (0 <= rc <= 2)%Z) w).
  { intros what. by apply wp_bind, wp_update, wp_ret. }
  assert (Hset : ∀ m good job, wp m (settles w good job) w → wp m (λ rc w', kept w w' ∧ (0 <= rc <= 2)%Z) w).
  { intros m good job Hm. eapply wp_mono; [|exact Hm]. intros. by eapply settles_kept. }
  unfold dispatch. destruct argv as [|c [|f [|]]]; [done| | |done].
  - repeat case_match; [| | | | |done].
    + by eapply Hset, demo_pipe_settles.
    + eapply wp_mono; [|by apply demo_dup_settles]. intros rc w' (? & ? & ? & ? & _). repeat split; try done; lia.
    + by eapply Hset, demo_vectors_settles.
    + by eapply Hset, demo_tee_settles.
    + eapply wp_mono; [|by apply demo_fcntl_settles]. intros rc w' (Hr & ? & _).
      split; [by eapply restored_kept|lia].
  - repeat case_match; [| | |done].
    + by eapply Hset, demo_mmap_settles.
    + by eapply Hset, demo_sendfile_settles.
    + by eapply Hset, demo_splice_settles.
Qed.

(** C18. Whatever the kernel interrupts, refuses or cuts, every command line of io_lab ends
    with an exit code of 0, 1 or 2, with exactly the descriptors it found and without
    having closed one that was not open. *)
Theorem commands_return_descriptors argv w :
  started w →
  ∃ rc w', main argv w = Some (rc, w') ∧ dom (fds w') = dom (fds w) ∧
    bad_close w' = bad_close w ∧ (0 <= rc <= 2)%Z.
Proof.
  intros Hw. apply wp_run, wp_bind. eapply wp_mono; [|by apply dispatch_kept].
  intros rc w' [(Hd & _ & Hb) Hrc]. apply wp_bind, wp_fflush.
  intros w'' E _ Eb. apply wp_ret. split_and!; try lia; congruence.
Qed.

(** C19. The commands that copy a file to standard output: when they return 0 they have
    written exactly its contents, however the transfers were cut and interrupted; and
    they return 0 on any kernel that refuses nothing and always moves something. *)
Theorem file_commands_copy c path w :
  started w → c = lit "mmap" ∨ c = lit "sendfile" ∨ c = lit "splice" →
  ∃ rc w', main [c; path] w = Some (rc, w') ∧ fds w' = fds w ∧
    (rc = 0%Z → out w' = out w ++ content w) ∧
    (generous (answers w) → regular w = true → rc = 0%Z).
Proof.
  intros Hw Hc. apply wp_run, wp_bind.
  assert (∃ good : Prop, (regular w = true → good) ∧
    wp (dispatch [c; path]) (settles w good (λ w', out w' = out w ++ content w)) w) as (good & Hgood & Hd).
  { destruct Hc as [->|[->| ->]]; cbn [dispatch].
    - exists (regular w = true). split; [done|]. by apply demo_mmap_settles.
    - exists True. split; [done|]. by apply demo_sendfile_settles.
    - exists True. split; [done|]. by apply demo_splice_settles. }
  eapply wp_mono; [|exact Hd]. intros rc w' Hs.
  destruct (settles_silent _ _ _ _ _ Hw Hs) as [Ho Hb]. destruct Hs as ((E & _) & _ & Hj & Hg).
  apply wp_bind, wp_fflush_empty; [done..|]. apply wp_ret. auto.
Qed.

(** [tee] returns 0 only with prefixes of the input on both outputs; on a kernel that
    cuts nothing the whole line is on both, up to the 4096 bytes of the exercise. *)
Theorem tee_duplicates w :
  started w →
  ∃ rc w', main [lit "tee"] w = Some (rc, w') ∧ fds w' = fds w ∧ (rc = 0%Z → tee_job w w') ∧
    (answers w = [] → rc = 0%Z ∧ out w' = out w ++ take 4096 (inp w) ∧
       err w' = err w ++ take 4096 (inp w)).
Proof.
  intros Hw. apply wp_run, wp_bind. cbn [dispatch]. eapply wp_mono; [|by apply demo_tee_settles].
  intros rc w' Hs. destruct (settles_silent _ _ _ _ _ Hw Hs) as [Ho Hb].
  destruct Hs as ((E & _) & _ & Hj & Hg). apply wp_bind, wp_fflush_empty; [done..|]. apply wp_ret.
  split_and!; [done|done|]. intros Hz. assert (rc = 0%Z) as -> by (apply Hg; [by rewrite Hz; constructor|done]).
  split; [done|]. destruct (Hj eq_refl) as (n & k1 & k2 & -> & -> & _ & Hn).
  destruct (Hn Hz) as (En & -> & ->).
  assert (take n (take n (inp w)) = take 4096 (inp w)) as ->; [|done].
  rewrite take_take, Nat.min_id, En. destruct (Nat.le_ge_cases 4096 (length (inp w))).
  - by rewrite Nat.min_l.
  - rewrite Nat.min_r by done. by rewrite !take_ge.
Qed.

(** [dup] sends the first line to the error stream and the second to the output. *)
Theorem dup_redirects w :
  started w → generous (answers w) →
  ∃ w', main [lit "dup"] w = Some (0%Z, w') ∧ fds w' = fds w ∧
    err w' = err w ++ redirected_text ++ [newline] ∧ out w' = out w ++ restored_text ++ [newline].
Proof.
  intros Hw Hg. destruct (wp_run (main [lit "dup"])
    (λ rc w', rc = 0%Z ∧ fds w' = fds w ∧ err w' = err w ++ redirected_text ++ [newline] ∧
              out w' = out w ++ restored_text ++ [newline]) w) as (rc & w' & E & -> & H).
  - apply wp_bind. cbn [dispatch]. eapply wp_mono; [|by apply demo_dup_settles].
    intros rc w' (_ & _ & _ & _ & Hz & _ & Hj). specialize (Hz Hg) as ->.
    destruct (Hj eq_refl) as (Ef & Eo & Ee & Eb). apply wp_bind, wp_update.
    rewrite Ef, (std_out w Hw), Eb. apply wp_ret. split_and!; [done..|]. cbn -[lit restored_text].
    by rewrite Eo.
  - by exists w'.
Qed.

Example lab (l : list answer) : world :=
  World l {[0%Z := Stdin; 1%Z := Stdout; 2%Z := Stderr]} ∅ ∅ ∅ 0 true (lit "hello") 0 (lit "line")
        [] [] [] false.
Lemma lab_started l : started (lab l).
Proof.
  split; try done. intros p fd _. cbn.
  rewrite !lookup_insert, lookup_singleton. repeat case_decide; done.
Qed.
Example cuts : list answer := [Allow 1; Allow 2; Allow 1; Allow 3; Allow 1; Allow 2].

Lemma commands_return_descriptors_witness :
  ∃ rc w', main [lit "splice"; lit "f"] (lab [Allow 1; Refuse EAGAIN]) = Some (rc, w') ∧
    dom (fds w') = dom (fds (lab [])) ∧ bad_close w' = false ∧ (0 <= rc <= 2)%Z.
Proof. apply (commands_return_descriptors [lit "splice"; lit "f"] (lab [Allow 1; Refuse EAGAIN])), lab_started. Defined.

Lemma file_commands_copy_witness :
  ∃ rc w', main [lit "splice"; lit "f"] (lab cuts) = Some (rc, w') ∧ fds w' = fds (lab cuts) ∧
    (rc = 0%Z → out w' = [] ++ lit "hello") ∧ (generous cuts → true = true → rc = 0%Z).
Proof.
  apply (file_commands_copy (lit "splice") (lit "f") (lab cuts)); [apply lab_started|].
  right. right. reflexivity.
Defined.

Lemma tee_duplicates_witness :
  ∃ rc w', main [lit "tee"] (lab []) = Some (rc, w') ∧ fds w' = fds (lab []) ∧
    (rc = 0%Z → tee_job (lab []) w') ∧
    (@nil answer = [] → rc = 0%Z ∧ out w' = [] ++ take 4096 (lit "line") ∧ err w' = [] ++ take 4096 (lit "line")).
Proof. apply (tee_duplicates (lab [])), lab_started. Defined.

Lemma dup_redirects_witness :
  ∃ w', main [lit "dup"] (lab []) = Some (0%Z, w') ∧ fds w' = fds (lab []) ∧
    err w' = [] ++ redirected_text ++ [newline] ∧ out w' = [] ++ restored_text ++ [newline].
Proof. apply (dup_redirects (lab [])); [apply lab_started|constructor]. Defined.

(** A short transfer in the last two calls of [demo_tee] goes unnoticed: exit code 0 with
    one byte of the line on the error stream.  The same holds of a short [writev]. *)
Example tee_truncates :
  (λ r, (r.1, out r.2, err r.2)) <$> main [lit "tee"] (lab [Allow 0; Allow 0; Allow 4; Allow 4; Allow 1])
  = Some (0%Z, lit "line", lit "l").
Proof. reflexivity. Qed.
Example vectors_truncate :
  (λ r, (r.1, length (out r.2))) <$> main [lit "vectors"] (lab [Allow 0; Allow 25]) = Some (0%Z, 25%nat).
Proof. reflexivity. Qed.
