(* ===== verification/EpollEcho.v ===== *)
(** * The echo server on epoll (epoll_tcp_udp.cpp)

    One thread, non-blocking sockets, level- or edge-triggered notification.  The kernel
    holds what the peers have sent and the room there is for replies; a run is a list of
    rounds, each with what arrives and which of the ready descriptors the wait reports.
    The theorems: the tables of the server and of the kernel agree, what a peer gets
    is what it sent, and in both modes nobody is left waiting when the server sleeps. *)

From stdpp Require Import base numbers gmap list strings.
From Stdlib Require Import Ascii ZArith Lia.
From S2P Require Import Prelude CxxString IoMux ChatPoll.

Local Open Scope Z_scope.
#[local] Arguments Z.of_nat : simpl never.

(** ** Bits of an event *)

Definition EPOLLIN : Z := 1.
Definition EPOLLOUT : Z := 4.
Definition EPOLLERR : Z := 8.
Definition EPOLLHUP : Z := 16.
Definition EPOLLRDHUP : Z := 8192.
Definition EPOLLET : Z := 2 ^ 31.

(** [flags & mask] as a condition *)
Definition has (flags mask : Z) : bool := negb (Z.land flags mask =? 0).
Definition bits (b : bool) (mask : Z) : Z := if b then mask else 0.

(** ** The kernel *)

(** A connection: what has arrived and is unread, whether the peer has shut its side down or
    reset the connection, and how many bytes fit in the way to the peer.  [taken] is what
    [recv] has returned and [delivered] what [send] has taken, from the beginning. *)
Record conn := Conn {
  unread : bytes;
  fin : bool;
  reset : bool;
  room : nat;
  taken : bytes;
  delivered : bytes
}.

(** What the kernel does at a call: fail, or go on, moving at most [n] bytes. *)
Inductive answer := Signal | Error | Move (n : nat).

Inductive kind := Stream | Datagram | Epoll.
#[export] Instance kind_eq_dec : EqDecision kind.
Proof. solve_decision. Defined.

(** [others]: the open descriptors that are not connections.  [interest] is the epoll
    instance and [edge] the descriptors on which something has happened since they were
    last reported.  [gone]: the connections that have been closed. *)
Record kernel := Kernel {
  answers : list answer;
  oks : list bool;
  replies : list (option errno);
  others : gmap Z kind;
  conns : gmap Z conn;
  gone : list conn;
  interest : gmap Z Z;
  edge : gset Z;
  backlog : list conn;
  dgrams : list (Z * bytes);
  answered : list (Z * bytes);
  bad_close : bool;
  err : list bytes
}.

Definition with_answers (l : list answer) (k : kernel) : kernel :=
  Kernel l (oks k) (replies k) (others k) (conns k) (gone k) (interest k) (edge k) (backlog k)
         (dgrams k) (answered k) (bad_close k) (err k).
Definition with_oks (l : list bool) (k : kernel) : kernel :=
  Kernel (answers k) l (replies k) (others k) (conns k) (gone k) (interest k) (edge k) (backlog k)
         (dgrams k) (answered k) (bad_close k) (err k).
Definition with_others (m : gmap Z kind) (k : kernel) : kernel :=
  Kernel (answers k) (oks k) (replies k) m (conns k) (gone k) (interest k) (edge k) (backlog k)
         (dgrams k) (answered k) (bad_close k) (err k).
Definition with_conns (m : gmap Z conn) (k : kernel) : kernel :=
  Kernel (answers k) (oks k) (replies k) (others k) m (gone k) (interest k) (edge k) (backlog k)
         (dgrams k) (answered k) (bad_close k) (err k).
Definition with_gone (l : list conn) (k : kernel) : kernel :=
  Kernel (answers k) (oks k) (replies k) (others k) (conns k) l (interest k) (edge k) (backlog k)
         (dgrams k) (answered k) (bad_close k) (err k).
Definition with_interest (m : gmap Z Z) (k : kernel) : kernel :=
  Kernel (answers k) (oks k) (replies k) (others k) (conns k) (gone k) m (edge k) (backlog k)
         (dgrams k) (answered k) (bad_close k) (err k).
Definition with_edge (X : gset Z) (k : kernel) : kernel :=
  Kernel (answers k) (oks k) (replies k) (others k) (conns k) (gone k) (interest k) X (backlog k)
         (dgrams k) (answered k) (bad_close k) (err k).
Definition with_backlog (l : list conn) (k : kernel) : kernel :=
  Kernel (answers k) (oks k) (replies k) (others k) (conns k) (gone k) (interest k) (edge k) l
         (dgrams k) (answered k) (bad_close k) (err k).
Definition with_dgrams (l : list (Z * bytes)) (k : kernel) : kernel :=
  Kernel (answers k) (oks k) (replies k) (others k) (conns k) (gone k) (interest k) (edge k) (backlog k)
         l (answered k) (bad_close k) (err k).
Definition with_answered (rs : list (option errno)) (l : list (Z * bytes)) (k : kernel) : kernel :=
  Kernel (answers k) (oks k) rs (others k) (conns k) (gone k) (interest k) (edge k) (backlog k)
         (dgrams k) l (bad_close k) (err k).
Definition with_bad_close (b : bool) (k : kernel) : kernel :=
  Kernel (answers k) (oks k) (replies k) (others k) (conns k) (gone k) (interest k) (edge k) (backlog k)
         (dgrams k) (answered k) b (err k).
Definition complain (s : bytes) (k : kernel) : kernel :=
  Kernel (answers k) (oks k) (replies k) (others k) (conns k) (gone k) (interest k) (edge k) (backlog k)
         (dgrams k) (answered k) (bad_close k) (err k ++ [s]).

(** *** Calls on connections *)

(** The answer to a call; once they are used up every call moves all it can. *)
Definition next (k : kernel) : option answer * kernel :=
  (head (answers k), with_answers (tail (answers k)) k).
(** How much of [most] bytes a call moves: at least one. *)
Definition moves (a : option answer) (most : nat) : nat :=
  match a with Some (Move n) => Nat.min (Nat.max 1 n) most | _ => most end.

(** [accept4] on the non-blocking listener *)
Definition accept4 (k : kernel) : (Z + errno) * kernel :=
  let '(a, k) := next k in
  match a with
  | Some Signal => (inr EINTR, k)
  | Some Error => (inr Eother, k)
  | _ =>
      match backlog k with
      | [] => (inr EAGAIN, k)
      | c :: b =>
          let fd := lowest (dom (others k) ∪ dom (conns k)) in
          (inl fd, with_backlog b (with_conns (<[fd := c]> (conns k)) k))
      end
  end.

Definition read_some (n : nat) (c : conn) : conn :=
  Conn (drop n (unread c)) (fin c) (reset c) (room c) (taken c ++ take n (unread c)) (delivered c).
Definition deliver (s : bytes) (c : conn) : conn :=
  Conn (unread c) (fin c) (reset c) (room c - length s) (taken c) (delivered c ++ s).

(** [recv(fd, b, sizeof b, 0)], [b] having 4096 bytes *)
Definition BUFFER : nat := N.to_nat 4096.
Inductive received := Got (s : bytes) | Closed | Failed (e : errno).
Definition recv (fd : Z) (k : kernel) : received * kernel :=
  let '(a, k) := next k in
  match a with
  | Some Signal => (Failed EINTR, k)
  | Some Error => (Failed Eother, k)
  | _ =>
      match conns k !! fd with
      | None => (Failed Eother, k)
      | Some c =>
          if reset c then (Failed Eother, k)
          else
            match unread c with
            | [] => (if fin c then Closed else Failed EAGAIN, k)
            | _ :: _ =>
                let n := moves a (Nat.min BUFFER (length (unread c))) in
                (Got (take n (unread c)), with_conns (<[fd := read_some n c]> (conns k)) k)
            end
      end
  end.

(** [send(fd, data, size, MSG_NOSIGNAL)] *)
Definition send (fd : Z) (data : bytes) (k : kernel) : (nat + errno) * kernel :=
  let '(a, k) := next k in
  match a with
  | Some Signal => (inr EINTR, k)
  | Some Error => (inr Eother, k)
  | _ =>
      match conns k !! fd with
      | None => (inr Eother, k)
      | Some c =>
          if reset c then (inr Eother, k)
          else if (room c =? 0)%nat then (inr EAGAIN, k)
          else
            let n := moves a (Nat.min (room c) (length data)) in
            (inl n, with_conns (<[fd := deliver (take n data) c]> (conns k)) k)
      end
  end.

(** [close]: a descriptor leaves the epoll instance when it is closed. *)
Definition close (fd : Z) (k : kernel) : kernel :=
  let k := with_edge (edge k ∖ {[fd]}) (with_interest (delete fd (interest k)) k) in
  match conns k !! fd, others k !! fd with
  | Some c, _ => with_gone (gone k ++ [c]) (with_conns (delete fd (conns k)) k)
  | None, Some _ => with_others (delete fd (others k)) k
  | None, None => with_bad_close true k
  end.

(** *** Datagrams *)

Definition recvfrom (k : kernel) : (Z * bytes + errno) * kernel :=
  let '(a, k) := next k in
  match a with
  | Some Signal => (inr EINTR, k)
  | Some Error => (inr Eother, k)
  | _ =>
      match dgrams k with
      | [] => (inr EAGAIN, k)
      | d :: l => (inl d, with_dgrams l k)
      end
  end.
(** [sendto]: [None] is success. *)
Definition sendto (d : Z * bytes) (k : kernel) : option errno * kernel :=
  let e := default None (head (replies k)) in
  (e, with_answered (tail (replies k))
        (match e with None => answered k ++ [d] | Some _ => answered k end) k).

(** *** epoll *)

Definition syscall (k : kernel) : bool * kernel :=
  (default true (head (oks k)), with_oks (tail (oks k)) k).

(** [EPOLL_CTL_ADD] and [EPOLL_CTL_MOD]: a descriptor that is ready is reported again. *)
Definition watch (fd events : Z) (k : kernel) : kernel :=
  with_edge (edge k ∪ {[fd]}) (with_interest (<[fd := events]> (interest k)) k).
Definition unwatch (fd : Z) (k : kernel) : kernel :=
  with_edge (edge k ∖ {[fd]}) (with_interest (delete fd (interest k)) k).

Definition nonempty {A} (l : list A) : bool := match l with [] => false | _ => true end.

(** What holds of a descriptor now. *)
Definition conn_ready (c : conn) : Z :=
  Z.lor (bits (nonempty (unread c) || fin c || reset c) EPOLLIN)
 (Z.lor (bits (fin c || reset c) EPOLLRDHUP)
 (Z.lor (bits ((0 <? room c)%nat || reset c) EPOLLOUT)
        (bits (reset c) (Z.lor EPOLLERR EPOLLHUP)))).
Definition readiness (fd : Z) (k : kernel) : Z :=
  match conns k !! fd, others k !! fd with
  | Some c, _ => conn_ready c
  | None, Some Stream => bits (nonempty (backlog k)) EPOLLIN
  | None, Some Datagram => bits (nonempty (dgrams k)) EPOLLIN
  | None, _ => 0
  end.

(** What [epoll_wait] would report of a descriptor: EPOLLERR and EPOLLHUP always, the
    rest when asked for; an edge-triggered one only after something has happened. *)
Definition report (k : kernel) (fd : Z) : option Z :=
  match interest k !! fd with
  | None => None
  | Some mask =>
      let ev := Z.land (readiness fd k) (Z.lor mask (Z.lor EPOLLERR EPOLLHUP)) in
      if (ev =? 0) || (has mask EPOLLET && negb (bool_decide (fd ∈ edge k))) then None
      else Some ev
  end.

Definition MAX_EVENTS : nat := 128.

(** [choice]: which of the ready descriptors are reported, in which order. *)
Definition reported (choice : list Z) (k : kernel) : list (Z * Z) :=
  take MAX_EVENTS (omap (λ fd, (fd,.) <$> report k fd) (remove_dups choice)).
Definition epoll_wait (choice : list Z) (k : kernel) : list (Z * Z) * kernel :=
  let evs := reported choice k in (evs, with_edge (edge k ∖ list_to_set evs.*1) k).

(** ** What happens outside the server *)

Inductive arrival :=
  | Connects (first : bytes) (capacity : nat)
  | Sends (fd : Z) (s : bytes)
  | Shuts (fd : Z)
  | Resets (fd : Z)
  | Drains (fd : Z) (n : nat)
  | Asks (peer : Z) (s : bytes).

(** A peer that has shut its side down or reset the connection sends nothing more; room
    that appears is an event when there was none. *)
Definition on_conn (fd : Z) (event : conn → bool) (f : conn → conn) (k : kernel) : kernel :=
  match conns k !! fd with
  | Some c =>
      if reset c then k
      else with_edge (if event c then edge k ∪ {[fd]} else edge k)
                     (with_conns (<[fd := f c]> (conns k)) k)
  | None => k
  end.
Definition of_kind (x : kind) (k : kernel) : gset Z :=
  dom (filter (λ e : Z * kind, e.2 = x) (others k)).

Definition arrive (k : kernel) (a : arrival) : kernel :=
  match a with
  | Connects s n =>
      with_edge (edge k ∪ of_kind Stream k)
        (with_backlog (backlog k ++ [Conn s false false n [] []]) k)
  | Sends fd s =>
      on_conn fd (λ _, true) (λ c, if fin c then c else
        Conn (unread c ++ s) (fin c) (reset c) (room c) (taken c) (delivered c)) k
  | Shuts fd => on_conn fd (λ _, true) (λ c, Conn (unread c) true (reset c) (room c) (taken c) (delivered c)) k
  | Resets fd => on_conn fd (λ _, true) (λ c, Conn (unread c) (fin c) true (room c) (taken c) (delivered c)) k
  | Drains fd n =>
      on_conn fd (λ c, (room c =? 0)%nat) (λ c, Conn (unread c) (fin c) (reset c) (room c + n) (taken c) (delivered c)) k
  | Asks peer s =>
      with_edge (edge k ∪ of_kind Datagram k)
        (with_dgrams (dgrams k ++ [(peer, s)]) k)
  end.

Inductive waited := Interrupted | WaitFails | Ready (choice : list Z).
Record round := Round { arrivals : list arrival; wait : waited }.

(** ** Code of the server *)

(** A client's bytes to be sent, how many of them have been, and whether the input has
    ended. *)
Record client := Client { out : bytes; sent : nat; eof : bool }.

(** [udp]: the descriptor in the variable of that name. *)
Record world := World { kern : kernel; clients : gmap Z client; udp : Z }.

(** Code goes on, throws (the text without the system's part), or is still running
    when the rounds are used up; [None] is a loop out of fuel. *)
Inductive ends (A : Type) := Go (a : A) | Thrown (what : bytes) | Running.
Arguments Go {A} a.
Arguments Thrown {A} what.
Arguments Running {A}.

Definition code (A : Type) : Type := world → option (ends A * world).
#[export] Instance code_ret : MRet code := λ A a w, Some (Go a, w).
#[export] Instance code_bind : MBind code := λ A B f m w,
  match m w with
  | None => None
  | Some (Go a, w') => f a w'
  | Some (Thrown s, w') => Some (Thrown s, w')
  | Some (Running, w') => Some (Running, w')
  end.
Definition sys {A} (f : kernel → A * kernel) : code A := λ w,
  let '(a, k) := f (kern w) in Some (Go a, World k (clients w) (udp w)).
Definition does (f : kernel → kernel) : code unit := λ w,
  Some (Go (), World (f (kern w)) (clients w) (udp w)).
Definition gets {A} (f : world → A) : code A := λ w, Some (Go (f w), w).
Definition set_clients (f : gmap Z client → gmap Z client) : code unit := λ w,
  Some (Go (), World (kern w) (f (clients w)) (udp w)).
Definition set_udp (fd : Z) : code unit := λ w, Some (Go (), World (kern w) (clients w) fd).
Definition fail {A} (what : bytes) : code A := λ w, Some (Thrown what, w).
Definition still_running : code unit := λ w, Some (Running, w).

(** A local object whose destructor runs when its block is left. *)
Definition scoped {A} (destructor : world → world) (body : code A) : code A := λ w,
  match body w with
  | Some (Go a, w') => Some (Go a, destructor w')
  | Some (Thrown s, w') => Some (Thrown s, destructor w')
  | r => r
  end.
Definition catching {A} (body : code A) (handler : bytes → code A) : code A := λ w,
  match body w with
  | Some (Thrown s, w') => handler s w'
  | r => r
  end.

(** [ctl(ep, EPOLL_CTL_ADD / MOD, fd, events)] *)
Definition ctl (fd events : Z) : code unit :=
  ok ← sys syscall;
  if (ok : bool) then does (watch fd events) else fail (lit "epoll_ctl").

Definition base (et : bool) : Z := Z.lor EPOLLIN (bits et EPOLLET).
Definition client_events (et : bool) : Z := Z.lor (Z.lor EPOLLIN EPOLLRDHUP) (bits et EPOLLET).
Definition unsent (c : client) : bool := (sent c <? length (out c))%nat.
Definition update_events (c : client) (et : bool) : Z :=
  let e := bits (negb (eof c)) (Z.lor EPOLLIN EPOLLRDHUP) in
  let e := Z.lor e (bits et EPOLLET) in
  Z.lor e (bits (unsent c) EPOLLOUT).
Definition update (fd : Z) (c : client) (et : bool) : code unit := ctl fd (update_events c et).

(** [clients.emplace(c, Client{})] *)
Definition emplace (fd : Z) (m : gmap Z client) : gmap Z client :=
  match m !! fd with Some _ => m | None => <[fd := Client [] 0 false]> m end.

Fixpoint accept_loop (fuel : nat) (et : bool) : code unit :=
  match fuel with
  | O => λ _, None
  | S fuel =>
      r ← sys accept4;
      match r with
      | inr EINTR => accept_loop fuel et
      | inr EAGAIN => mret ()
      | inr Eother => does (complain (lit "accept4: "))
      | inl c => set_clients (emplace c) ;; ctl c (client_events et) ;; accept_loop fuel et
      end
  end.
(** Each turn but the last uses an answer or takes a connection. *)
Definition accept_all (et : bool) : code unit := λ w,
  accept_loop (S (length (answers (kern w)) + length (backlog (kern w)))) et w.

(** The datagram goes back to its sender; a reply that does not fit is dropped. *)
Definition reply (d : Z * bytes) : code unit :=
  e ← sys (sendto d);
  match e with
  | None | Some EAGAIN => mret ()
  | Some _ => does (complain (lit "sendto: "))
  end.
Fixpoint udp_loop (fuel : nat) : code unit :=
  match fuel with
  | O => λ _, None
  | S fuel =>
      r ← sys recvfrom;
      match r with
      | inr EINTR => udp_loop fuel
      | inr EAGAIN => mret ()
      | inr Eother => does (complain (lit "recvfrom: "))
      | inl d => reply d ;; udp_loop fuel
      end
  end.
Definition udp_all : code unit := λ w,
  udp_loop (S (length (answers (kern w)) + length (dgrams (kern w)))) w.

(** The loop around [recv]: whether the client is alive, and the client. *)
Fixpoint recv_loop (fuel : nat) (fd : Z) (c : client) : code (bool * client) :=
  match fuel with
  | O => λ _, None
  | S fuel =>
      r ← sys (recv fd);
      match r with
      | Got s => recv_loop fuel fd (Client (out c ++ s) (sent c) (eof c))
      | Closed => mret (true, Client (out c) (sent c) true)
      | Failed EINTR => recv_loop fuel fd c
      | Failed EAGAIN => mret (true, c)
      | Failed Eother => mret (false, c)
      end
  end.
Definition arrived (fd : Z) (k : kernel) : bytes := default [] (unread <$> conns k !! fd).
Definition recv_all (fd : Z) (c : client) : code (bool * client) := λ w,
  recv_loop (S (length (answers (kern w)) + length (arrived fd (kern w)))) fd c w.

Fixpoint send_loop (fuel : nat) (fd : Z) (c : client) : code (bool * client) :=
  match fuel with
  | O => λ _, None
  | S fuel =>
      if unsent c then
        r ← sys (send fd (drop (sent c) (out c)));
        match r with
        | inl (S n) => send_loop fuel fd (Client (out c) (sent c + S n) (eof c))
        | inr EINTR => send_loop fuel fd c
        | inr EAGAIN => mret (true, c)
        | inl O | inr Eother => mret (false, c)
        end
      else mret (true, c)
  end.
Definition send_all (fd : Z) (c : client) : code (bool * client) := λ w,
  ('(alive, c) ← send_loop (S (length (answers (kern w)) + length (out c))) fd c;
   mret (alive, if (sent c =? length (out c))%nat then Client [] 0 (eof c) else c)) w.

(** [::epoll_ctl(EPOLL_CTL_DEL)], whose result is not looked at, [::close] and [erase] *)
Definition drop_client (fd : Z) : code unit :=
  ok ← sys syscall;
  (if (ok : bool) then does (unwatch fd) else mret ()) ;;
  does (close fd) ;;
  set_clients (delete fd).

(** The two conditionals around reading and sending. *)
Definition client_io (fd flags : Z) (c : client) : code (bool * client) :=
  '(alive, c) ← (if has flags (Z.lor EPOLLIN (Z.lor EPOLLRDHUP EPOLLHUP))
                 then recv_all fd c else mret (true, c));
  if alive && (has flags EPOLLOUT || unsent c) then send_all fd c else mret (alive, c).

(** [clients.find(fd)] and the branch for a client: [c] is the entry of the table. *)
Definition client_event (et : bool) (fd flags : Z) : code unit :=
  it ← gets (λ w, clients w !! fd);
  match it with
  | None => mret ()
  | Some c =>
      '(alive, c) ← client_io fd flags c;
      set_clients <[fd := c]> ;;
      let alive := alive && negb (has flags EPOLLERR) in
      let alive := alive && negb (eof c && (sent c =? length (out c))%nat) in
      if (alive : bool) then update fd c et else drop_client fd
  end.

Fixpoint events_loop (et : bool) (tcp : Z) (evs : list (Z * Z)) : code unit :=
  match evs with
  | [] => mret ()
  | (fd, flags) :: evs =>
      dgram ← gets udp;
      (if fd =? tcp then accept_all et
       else if fd =? dgram then udp_all
       else client_event et fd flags) ;;
      events_loop et tcp evs
  end.

Definition turn (et : bool) (tcp : Z) (r : waited) : code unit :=
  match r with
  | Interrupted => mret ()
  | WaitFails => fail (lit "epoll_wait")
  | Ready choice => evs ← sys (epoll_wait choice); events_loop et tcp evs
  end.

(** [for (;;)] over the rounds there are. *)
Fixpoint serve (et : bool) (tcp : Z) (rs : list round) : code unit :=
  match rs with
  | [] => still_running
  | r :: rs =>
      does (λ k, foldl arrive k (arrivals r)) ;; turn et tcp (wait r) ;; serve et tcp rs
  end.

(** ** main *)

(** [socket] and [epoll_create1]: a descriptor, or -1. *)
Definition open_fd (x : kind) : code Z :=
  ok ← sys syscall;
  if (ok : bool) then
    fd ← gets (λ w, lowest (dom (others (kern w)) ∪ dom (conns (kern w))));
    does (λ k, with_others (<[fd := x]> (others k)) k) ;; mret fd
  else mret (-1).
Definition must (what : bytes) : code unit :=
  ok ← sys syscall; if (ok : bool) then mret () else fail what.

(** [~Fd] *)
Definition release (fd : Z) (w : world) : world :=
  if 0 <=? fd then World (close fd (kern w)) (clients w) (udp w) else w.

(** The second UDP socket, bound to the port the kernel has chosen for TCP; the move
    closes the first. *)
Definition rebind : code unit :=
  replacement ← open_fd Datagram;
  if replacement <? 0 then fail (lit "udp socket")
  else
    ok ← sys syscall;
    if (ok : bool) then
      (λ w, Some (Go (), release (udp w) w)) ;; set_udp replacement
    else (λ w, Some (Thrown (lit "udp bind allocated port"), release replacement w)).

Definition run (et : bool) (p : Z) (rs : list round) : code unit :=
  tcp ← open_fd Stream;
  scoped (release tcp) (
    (if tcp <? 0 then fail (lit "tcp socket") else mret ()) ;;
    first ← open_fd Datagram;
    set_udp first ;;
    scoped (λ w, release (udp w) w) (
      (if first <? 0 then fail (lit "udp socket") else mret ()) ;;
      must (lit "setsockopt") ;;
      must (lit "tcp bind") ;;
      must (lit "udp bind") ;;
      must (lit "listen") ;;
      must (lit "getsockname") ;;
      (if p =? 0 then rebind else mret ()) ;;
      ep ← open_fd Epoll;
      scoped (release ep) (
        (if ep <? 0 then fail (lit "epoll_create1") else mret ()) ;;
        ctl tcp (base et) ;;
        dgram ← gets udp;
        ctl dgram (base et) ;;
        serve et tcp rs))).

(** [argv] without the program's name; the result is the exit code. *)
Definition main (argv : list bytes) (rs : list round) : code Z :=
  catching
    (match argv with
     | port :: mode =>
         match mode with
         | _ :: _ :: _ => fail (lit "usage: epoll_tcp_udp PORT [lt|et]")
         | _ =>
             match port_arg port with
             | None => fail (lit "invalid port")
             | Some p =>
                 let et := bool_decide (mode = [lit "et"]) in
                 if negb et && negb (bool_decide (mode = [])) && negb (bool_decide (mode = [lit "lt"]))
                 then fail (lit "mode must be lt or et")
                 else run et p rs ;; mret 0
             end
         end
     | [] => fail (lit "usage: epoll_tcp_udp PORT [lt|et]")
     end)
    (λ what, does (complain what) ;; mret 1).

(** ** Facts about the kernel *)

Ltac unrun := unfold mbind, mret, code_bind, code_ret, sys, does, gets, set_clients, set_udp, fail.

(** A kernel that refuses nothing but what it must. *)
Definition fair (l : list answer) : Prop := Forall (λ a, a ≠ Error) l.

Lemma fair_tail l : fair l → fair (tail l).
Proof. destruct 1; [by constructor|done]. Qed.
Lemma fair_head l : fair l → head l ≠ Some Error.
Proof. destruct 1 as [|a l Ha]; cbn; [done|]. by intros [= ->]. Qed.

(** One connection replaced, some answers used. *)
Definition upd (fd : Z) (c : conn) (l : list answer) (k : kernel) : kernel :=
  with_conns (<[fd := c]> (conns k)) (with_answers l k).

Lemma upd_upd fd c1 c2 l1 l2 k : upd fd c2 l2 (upd fd c1 l1 k) = upd fd c2 l2 k.
Proof. unfold upd, with_conns, with_answers. cbn. by rewrite insert_insert_eq. Qed.
Lemma upd_id fd c k : conns k !! fd = Some c → upd fd c (answers k) k = k.
Proof. intros H. unfold upd, with_conns, with_answers. cbn. rewrite insert_id by done. by destruct k. Qed.
Lemma upd_answers fd c l k : conns k !! fd = Some c → with_answers l k = upd fd c l k.
Proof. intros H. unfold upd, with_conns, with_answers. cbn. by rewrite insert_id. Qed.

Lemma moves_range a most : (0 < most)%nat → (1 ≤ moves a most ≤ most)%nat.
Proof. intros. destruct a as [[| |n]|]; cbn; lia. Qed.

Lemma tail_le {A} (l : list A) : (length (tail l) ≤ length l)%nat.
Proof. destruct l; cbn; lia. Qed.
Lemma head_lt {A} (l : list A) a : head l = Some a → (length (tail l) < length l)%nat.
Proof. destruct l; cbn; [done|lia]. Qed.

(** ** Accepting, reading and sending *)

Lemma accept4_spec k :
  ∃ r k', accept4 k = (r, k') ∧
  match r with
  | inr EINTR => k' = with_answers (tail (answers k)) k ∧
      (length (tail (answers k)) < length (answers k))%nat
  | inr EAGAIN => k' = with_answers (tail (answers k)) k ∧ backlog k = []
  | inr Eother => k' = with_answers (tail (answers k)) k ∧ ¬ fair (answers k)
  | inl fd => ∃ cn b, backlog k = cn :: b ∧ fd ∉ dom (others k) ∧ fd ∉ dom (conns k) ∧
      k' = with_backlog b (with_conns (<[fd := cn]> (conns k)) (with_answers (tail (answers k)) k))
  end.
Proof.
  unfold accept4, next.
  destruct (head (answers k)) as [[| |n]|] eqn:Eh.
  1: { exists (inr EINTR). eexists. split; [done|]. split; [done|]. by eapply head_lt. }
  1: { exists (inr Eother). eexists. split; [done|]. split; [done|].
       intros H%fair_head. by rewrite Eh in H. }
  all: cbn; destruct (backlog k) as [|c b] eqn:Eb;
    [exists (inr EAGAIN); by eexists|];
    destruct (lowest_spec (dom (others k) ∪ dom (conns k))) as [Hn _];
    apply not_elem_of_union in Hn as [Hn1 Hn2];
    eexists (inl _), _; split; [done|]; by exists c, b.
Qed.

(** What [recv] does on a connection. *)
Lemma recv_spec fd cn k : conns k !! fd = Some cn →
  ∃ cn' r, recv fd k = (r, upd fd cn' (tail (answers k)) k) ∧
  match r with
  | Failed EINTR => cn' = cn ∧ (length (tail (answers k)) < length (answers k))%nat
  | Failed EAGAIN => cn' = cn ∧ reset cn = false ∧ unread cn = [] ∧ fin cn = false
  | Failed Eother => cn' = cn ∧ (fair (answers k) → reset cn = true)
  | Closed => cn' = cn ∧ reset cn = false ∧ unread cn = [] ∧ fin cn = true
  | Got s => reset cn = false ∧ ∃ n, (1 ≤ n ≤ length (unread cn))%nat ∧
      s = take n (unread cn) ∧ cn' = read_some n cn
  end.
Proof.
  intros Hcn. unfold recv, next.
  assert (with_answers (tail (answers k)) k = upd fd cn (tail (answers k)) k) as Hu
    by by apply upd_answers.
  change (conns (with_answers (tail (answers k)) k)) with (conns k).
  destruct (head (answers k)) as [[| |n]|] eqn:Eh.
  1: { exists cn, (Failed EINTR). rewrite Hu. split_and!; [done..|by eapply head_lt]. }
  1: { exists cn, (Failed Eother). rewrite Hu. split_and!; [done..|].
       intros H%fair_head. by rewrite Eh in H. }
  all: rewrite Hcn; destruct (reset cn) eqn:Er;
    [exists cn, (Failed Eother); by rewrite Hu|];
    destruct (unread cn) as [|x s] eqn:Es;
    [destruct (fin cn) eqn:Ef; [exists cn, Closed|exists cn, (Failed EAGAIN)]; by rewrite Hu|];
    set (a := moves _ _);
    assert (1 ≤ a ≤ Nat.min BUFFER (length (x :: s)))%nat as Ha by
      (apply moves_range; cbn [length]; unfold BUFFER; lia);
    exists (read_some a cn), (Got (take a (x :: s)));
    rewrite Hu; (split; [done|]);
    (split; [done|]); exists a; split_and!; [lia|lia|done..].
Qed.

(** What [send] does with at least one byte. *)
Lemma send_spec fd data cn k : conns k !! fd = Some cn → data ≠ [] →
  ∃ cn' r, send fd data k = (r, upd fd cn' (tail (answers k)) k) ∧
  match r with
  | inr EINTR => cn' = cn ∧ (length (tail (answers k)) < length (answers k))%nat
  | inr EAGAIN => cn' = cn ∧ reset cn = false ∧ room cn = 0%nat
  | inr Eother => cn' = cn ∧ (fair (answers k) → reset cn = true)
  | inl n => reset cn = false ∧ (1 ≤ n ≤ length data)%nat ∧ cn' = deliver (take n data) cn
  end.
Proof.
  intros Hcn Hd. unfold send, next.
  assert (with_answers (tail (answers k)) k = upd fd cn (tail (answers k)) k) as Hu
    by by apply upd_answers.
  change (conns (with_answers (tail (answers k)) k)) with (conns k).
  destruct (head (answers k)) as [[| |n]|] eqn:Eh.
  1: { exists cn, (inr EINTR). rewrite Hu. split_and!; [done..|by eapply head_lt]. }
  1: { exists cn, (inr Eother). rewrite Hu. split_and!; [done..|].
       intros H%fair_head. by rewrite Eh in H. }
  all: rewrite Hcn; destruct (reset cn) eqn:Er;
    [exists cn, (inr Eother); by rewrite Hu|];
    destruct (Nat.eqb_spec (room cn) 0) as [Er0|Er0];
    [exists cn, (inr EAGAIN); by rewrite Hu|];
    set (a := moves _ _);
    assert (1 ≤ a ≤ Nat.min (room cn) (length data))%nat as Ha by
      (apply moves_range; destruct data; cbn [length]; [done|lia]);
    exists (deliver (take a data) cn), (inl a);
    rewrite Hu; (split; [done|]);
    split_and!; [done|lia|lia|done].
Qed.

(** What the server knows of a connection. *)
Record agrees (c : client) (cn : conn) : Prop := {
  sent_bound : (sent c ≤ length (out c))%nat;
  in_transit : taken cn = delivered cn ++ drop (sent c) (out c);
  eof_fin : eof c = true → fin cn = true ∧ unread cn = []
}.

(** What handling a client leaves of its connection. *)
Definition same_input (cn cn' : conn) : Prop := fin cn' = fin cn ∧ reset cn' = reset cn.

Lemma recv_loop_spec fuel fd c cn w :
  conns (kern w) !! fd = Some cn → agrees c cn →
  (length (answers (kern w)) + length (unread cn) < fuel)%nat →
  ∃ alive c' cn' l,
    recv_loop fuel fd c w = Some (Go (alive, c'), World (upd fd cn' l (kern w)) (clients w) (udp w)) ∧
    agrees c' cn' ∧ same_input cn cn' ∧ (fair (answers (kern w)) → fair l) ∧
    (if alive : bool then reset cn = false ∧ unread cn' = [] ∧ eof c' = fin cn
     else fair (answers (kern w)) → reset cn = true).
Proof.
  revert c cn w. induction fuel as [|fuel IH]; intros c cn w Hcn Hag Hf; [lia|].
  cbn [recv_loop]. unrun. destruct (recv_spec fd cn (kern w) Hcn) as (cn1 & r & -> & Hr).
  pose proof (fair_tail (answers (kern w))) as Hfair.
  pose proof (tail_le (answers (kern w))) as Htl.
  destruct r as [s| |[]].
  - destruct Hr as (Hrs & n & Hn & -> & ->).
    destruct (IH (Client (out c ++ take n (unread cn)) (sent c) (eof c)) (read_some n cn)
      (World (upd fd (read_some n cn) (tail (answers (kern w))) (kern w)) (clients w) (udp w)))
      as (b & c' & cn' & l & -> & Ha & [H1 H2] & H3 & H4).
    { cbn. by rewrite lookup_insert_eq. }
    { destruct Hag as [Hb Ht He]. split; cbn.
      - rewrite length_app. lia.
      - rewrite drop_app_le by done. by rewrite Ht, (assoc_L (++)).
      - intros [_ Hn0]%He. rewrite Hn0 in Hn. cbn in Hn. lia. }
    { cbn [kern answers upd with_conns with_answers read_some unread]. rewrite length_drop. lia. }
    exists b, c', cn', l. cbn [kern clients udp answers upd with_conns with_answers fin reset read_some] in *.
    split; [by rewrite upd_upd|]. split_and!; [done|by split|auto|].
    destruct b; [done|auto].
  - destruct Hr as (-> & Hrs & Hu & Hfi). exists true, (Client (out c) (sent c) true), cn, (tail (answers (kern w))).
    split_and!; [done| |done|auto|done..]. by destruct Hag.
  - destruct Hr as [-> Hl].
    destruct (IH c cn (World (upd fd cn (tail (answers (kern w))) (kern w)) (clients w) (udp w)))
      as (b & c' & cn' & l & -> & Ha & [H1 H2] & H3 & H4);
      [cbn; by rewrite lookup_insert_eq|done|cbn [kern answers upd with_conns with_answers]; lia|].
    exists b, c', cn', l. cbn [kern clients udp answers upd with_conns with_answers] in *.
    split; [by rewrite upd_upd|]. split_and!; [done|by split|auto|].
    destruct b; [done|auto].
  - destruct Hr as (-> & Hrs & Hu & Hfi). exists true, c, cn, (tail (answers (kern w))).
    split_and!; [done..|auto|done|done|]. destruct (eof c) eqn:E; [|done].
    apply (eof_fin _ _ Hag) in E as [E _]. congruence.
  - destruct Hr as [-> Hrs]. exists false, c, cn, (tail (answers (kern w))).
    split_and!; [done..|auto|done].
Qed.

Lemma recv_all_spec fd c cn w :
  conns (kern w) !! fd = Some cn → agrees c cn →
  ∃ alive c' cn' l,
    recv_all fd c w = Some (Go (alive, c'), World (upd fd cn' l (kern w)) (clients w) (udp w)) ∧
    agrees c' cn' ∧ same_input cn cn' ∧ (fair (answers (kern w)) → fair l) ∧
    (if alive : bool then reset cn = false ∧ unread cn' = [] ∧ eof c' = fin cn
     else fair (answers (kern w)) → reset cn = true).
Proof.
  intros Hcn Hag. unfold recv_all. apply recv_loop_spec; [done..|].
  unfold arrived. rewrite Hcn. cbn. lia.
Qed.

Lemma unsent_drop c : (sent c ≤ length (out c))%nat → unsent c = false ↔ drop (sent c) (out c) = [].
Proof.
  intros H. unfold unsent. destruct (Nat.ltb_spec (sent c) (length (out c))).
  - split; [done|]. intros E%(f_equal length). rewrite length_drop in E. cbn in E. lia.
  - split; [intros _|done]. apply drop_ge. lia.
Qed.

Lemma epoll_send_spec fuel fd c cn w :
  conns (kern w) !! fd = Some cn → agrees c cn →
  (length (answers (kern w)) + (length (out c) - sent c) < fuel)%nat →
  ∃ alive c' cn' l,
    send_loop fuel fd c w = Some (Go (alive, c'), World (upd fd cn' l (kern w)) (clients w) (udp w)) ∧
    agrees c' cn' ∧ same_input cn cn' ∧ unread cn' = unread cn ∧ eof c' = eof c ∧
    (fair (answers (kern w)) → fair l) ∧
    (if alive : bool then unsent c' = false ∨ room cn' = 0%nat ∧ reset cn = false
     else fair (answers (kern w)) → reset cn = true).
Proof.
  revert c cn w. induction fuel as [|fuel IH]; intros c cn w Hcn Hag Hf; [lia|].
  cbn [send_loop]. unrun. destruct (unsent c) eqn:Eu.
  2: { exists true, c, cn, (answers (kern w)).
       split; [rewrite upd_id by done; by destruct w|]. split_and!; [done..|auto|by left]. }
  assert (drop (sent c) (out c) ≠ []) as Hd.
  { intros E%unsent_drop; [congruence|apply Hag]. }
  destruct (send_spec fd _ cn (kern w) Hcn Hd) as (cn1 & r & -> & Hr).
  pose proof (fair_tail (answers (kern w))) as Hfair.
  pose proof (tail_le (answers (kern w))) as Htl.
  destruct r as [[|n]|[]].
  - destruct Hr as (_ & ? & _). lia.
  - destruct Hr as (Hrs & Hn & ->). rewrite length_drop in Hn.
    destruct (IH (Client (out c) (sent c + S n) (eof c)) (deliver (take (S n) (drop (sent c) (out c))) cn)
      (World (upd fd (deliver (take (S n) (drop (sent c) (out c))) cn) (tail (answers (kern w))) (kern w))
             (clients w) (udp w)))
      as (b & c' & cn' & l & -> & Ha & [H1 H2] & H3 & H4 & H5 & H6).
    { cbn. by rewrite lookup_insert_eq. }
    { destruct Hag as [Hb Ht He]. split; cbn [sent out eof deliver taken delivered fin unread].
      - lia.
      - rewrite Ht, <-(assoc_L (++)). f_equal.
        rewrite <-(take_drop (S n) (drop (sent c) (out c))) at 1. by rewrite drop_drop.
      - done. }
    { cbn [kern answers upd with_conns with_answers sent out]. lia. }
    exists b, c', cn', l.
    cbn [kern clients udp answers upd with_conns with_answers fin reset unread eof deliver] in *.
    split; [by rewrite upd_upd|]. split_and!; [done|by split|done|done|auto|].
    destruct b; [done|auto].
  - destruct Hr as [-> Hl].
    destruct (IH c cn (World (upd fd cn (tail (answers (kern w))) (kern w)) (clients w) (udp w)))
      as (b & c' & cn' & l & -> & Ha & [H1 H2] & H3 & H4 & H5 & H6);
      [cbn; by rewrite lookup_insert_eq|done|cbn [kern answers upd with_conns with_answers]; lia|].
    exists b, c', cn', l. cbn [kern clients udp answers upd with_conns with_answers] in *.
    split; [by rewrite upd_upd|]. split_and!; [done|by split|done|done|auto|].
    destruct b; [done|auto].
  - destruct Hr as (-> & Hrs & Hu). exists true, c, cn, (tail (answers (kern w))).
    split_and!; [done..|auto|by right].
  - destruct Hr as [-> Hrs]. exists false, c, cn, (tail (answers (kern w))).
    split_and!; [done..|auto|done].
Qed.

Lemma send_all_spec fd c cn w :
  conns (kern w) !! fd = Some cn → agrees c cn →
  ∃ alive c' cn' l,
    send_all fd c w = Some (Go (alive, c'), World (upd fd cn' l (kern w)) (clients w) (udp w)) ∧
    agrees c' cn' ∧ same_input cn cn' ∧ unread cn' = unread cn ∧ eof c' = eof c ∧
    (fair (answers (kern w)) → fair l) ∧
    (if alive : bool then unsent c' = false ∨ room cn' = 0%nat ∧ reset cn = false
     else fair (answers (kern w)) → reset cn = true).
Proof.
  intros Hcn Hag.
  destruct (epoll_send_spec (S (length (answers (kern w)) + length (out c))) fd c cn w)
    as (b & c' & cn' & l & E & Ha & H1 & H2 & H3 & H4 & H5); [done..|lia|].
  unfold send_all. unfold mbind, code_bind. rewrite E.
  destruct (Nat.eqb_spec (sent c') (length (out c'))) as [Es|Es].
  - exists b, (Client [] 0 (eof c')), cn', l. split; [done|].
    destruct Ha as [Hb Ht He]. rewrite Es, drop_all in Ht.
    split_and!; [done|apply H1..|done|done|done|]. destruct b; [by left|done].
  - by exists b, c', cn', l.
Qed.

(** ** Datagrams *)

(** What answering datagrams leaves alone. *)
Record same_streams (k k' : kernel) : Prop := {
  ss_others : others k' = others k;
  ss_conns : conns k' = conns k;
  ss_gone : gone k' = gone k;
  ss_interest : interest k' = interest k;
  ss_edge : edge k' = edge k;
  ss_backlog : backlog k' = backlog k;
  ss_bad : bad_close k' = bad_close k
}.
Lemma same_streams_trans k1 k2 k3 : same_streams k1 k2 → same_streams k2 k3 → same_streams k1 k3.
Proof. intros [] []. split; congruence. Qed.

Lemma recvfrom_spec k :
  ∃ r, recvfrom k = (r, with_dgrams (match r with inl _ => tail (dgrams k) | inr _ => dgrams k end)
                          (with_answers (tail (answers k)) k)) ∧
  match r with
  | inr EINTR => (length (tail (answers k)) < length (answers k))%nat
  | inr EAGAIN => dgrams k = []
  | inr Eother => ¬ fair (answers k)
  | inl d => ∃ l, dgrams k = d :: l
  end.
Proof.
  unfold recvfrom, next. destruct (head (answers k)) as [[| |n]|] eqn:Eh.
  1: { exists (inr EINTR). split; [done|]. by eapply head_lt. }
  1: { exists (inr Eother). split; [done|]. intros H%fair_head. by rewrite Eh in H. }
  all: cbn; destruct (dgrams k) as [|d l] eqn:Ed;
    [exists (inr EAGAIN); split; [|done]; unfold with_dgrams, with_answers; cbn; by rewrite Ed
    |exists (inl d); split; [done|by exists l]].
Qed.

(** Whether every reply in the script is sent. *)
Definition all_sent (l : list (option errno)) : Prop := Forall (λ e, e = None) l.

Lemma reply_spec d w :
  ∃ k, reply d w = Some (Go (), World k (clients w) (udp w)) ∧ same_streams (kern w) k ∧
    answers k = answers (kern w) ∧ dgrams k = dgrams (kern w) ∧
    replies k = tail (replies (kern w)) ∧
    (default None (head (replies (kern w))) = None → answered k = answered (kern w) ++ [d]).
Proof.
  unfold reply, sendto. unrun. destruct (default None _) as [[]|] eqn:E;
    eexists; (split; [reflexivity|]); repeat split; by intros.
Qed.

Lemma udp_loop_spec fuel w :
  (length (answers (kern w)) + length (dgrams (kern w)) < fuel)%nat →
  ∃ k, udp_loop fuel w = Some (Go (), World k (clients w) (udp w)) ∧ same_streams (kern w) k ∧
    (fair (answers (kern w)) → fair (answers k) ∧ dgrams k = []) ∧
    (fair (answers (kern w)) → all_sent (replies (kern w)) →
     answered k = answered (kern w) ++ dgrams (kern w)).
Proof.
  revert w. induction fuel as [|fuel IH]; intros w Hf; [lia|]. cbn [udp_loop].
  pose proof (tail_le (answers (kern w))) as Htl.
  assert (fair (answers (kern w)) → fair (tail (answers (kern w)))) as Hft by apply fair_tail.
  destruct (recvfrom_spec (kern w)) as (r & E & Hr). unrun. rewrite E. clear E.
  destruct r as [d|[]].
  - destruct Hr as [l Ed]. rewrite Ed in *. cbn [tail].
    destruct (reply_spec d (World (with_dgrams l (with_answers (tail (answers (kern w))) (kern w)))
                                  (clients w) (udp w))) as (k2 & -> & Hs & Ha & Hd & Hre & Han).
    cbn in Ha, Hd, Hre, Han, Hs. cbn [clients udp].
    destruct (IH (World k2 (clients w) (udp w))) as (k & -> & Hs' & H1 & H2).
    { cbn [kern]. rewrite Ha, Hd. cbn in Hf. lia. }
    cbn in H1, H2, Hs'. exists k. rewrite Ha, Hd, Hre in *.
    split_and!; [done| |auto|].
    { apply same_streams_trans with k2; [by destruct Hs; split|done]. }
    intros Hfair Hall. rewrite H2, Han, <-(assoc_L (++)); [done|by destruct Hall|auto|].
    by destruct Hall; [constructor|].
  - destruct (IH (World (with_dgrams (dgrams (kern w)) (with_answers (tail (answers (kern w))) (kern w)))
                        (clients w) (udp w))) as (k & -> & Hs' & H1 & H2).
    { cbn. lia. }
    exists k. cbn in *. split_and!; [done|by destruct Hs'; split|auto|auto].
  - eexists. split; [done|]. split_and!; [done|cbn; auto|].
    cbn. intros _ _. by rewrite Hr, app_nil_r.
  - eexists. split; [done|]. split_and!; [done|done|done].
Qed.

(** ** Ways to end *)

(** Code that returns in [Q], throws in [T] or is still running in [R]. *)
Definition ends_in {A} (T R : world → Prop) (m : code A) (Q : A → world → Prop) (w : world) : Prop :=
  match m w with
  | Some (Go a, w') => Q a w'
  | Some (Thrown _, w') => T w'
  | Some (Running, w') => R w'
  | None => False
  end.

Section ends.
Context (T R : world → Prop).

Lemma ends_bind {A B} (m : code A) (f : A → code B) Q w :
  ends_in T R m (λ a, ends_in T R (f a) Q) w → ends_in T R (m ≫= f) Q w.
Proof. unfold ends_in, mbind, code_bind. by destruct (m w) as [[[] ?]|]. Qed.
Lemma ends_ret {A} (a : A) (Q : A → world → Prop) w : Q a w → ends_in T R (mret a) Q w.
Proof. done. Qed.
Lemma ends_sys {A} (f : kernel → A * kernel) a k (Q : A → world → Prop) w :
  f (kern w) = (a, k) → Q a (World k (clients w) (udp w)) → ends_in T R (sys f) Q w.
Proof. unfold ends_in, sys. by intros ->. Qed.
Lemma ends_does f (Q : unit → world → Prop) w :
  Q () (World (f (kern w)) (clients w) (udp w)) → ends_in T R (does f) Q w.
Proof. done. Qed.
Lemma ends_gets {A} (f : world → A) (Q : A → world → Prop) w : Q (f w) w → ends_in T R (gets f) Q w.
Proof. done. Qed.
Lemma ends_set f (Q : unit → world → Prop) w :
  Q () (World (kern w) (f (clients w)) (udp w)) → ends_in T R (set_clients f) Q w.
Proof. done. Qed.
Lemma ends_fail {A} what (Q : A → world → Prop) w : T w → ends_in T R (fail what) Q w.
Proof. done. Qed.
Lemma ends_mono {A} (m : code A) (Q Q' : A → world → Prop) w :
  (∀ a w', Q a w' → Q' a w') → ends_in T R m Q w → ends_in T R m Q' w.
Proof. unfold ends_in. intros H. destruct (m w) as [[[] ?]|]; auto. Qed.
Lemma ends_scoped {A} (T' : world → Prop) d (body : code A) Q w :
  (∀ w', T' w' → T (d w')) → ends_in T' R body (λ a w', Q a (d w')) w →
  ends_in T R (scoped d body) Q w.
Proof. unfold ends_in, scoped. intros H. destruct (body w) as [[[] ?]|]; auto. Qed.
Lemma ends_weaken {A} (T' R' : world → Prop) (m : code A) Q w :
  (∀ w', T' w' → T w') → (∀ w', R' w' → R w') → ends_in T' R' m Q w → ends_in T R m Q w.
Proof. unfold ends_in. intros HT HR. destruct (m w) as [[[] ?]|]; auto. Qed.
End ends.

(** ** The invariant of the loop *)

Section serving.
Context (et : bool) (tcp dgram : Z) (O : gmap Z kind) (clean : Prop).
Context (Htcp : O !! tcp = Some Stream) (Hudp : O !! dgram = Some Datagram).

(** Everything the peer has sent has come back to it. *)
Definition complete (cn : conn) : Prop :=
  fin cn = true ∧ unread cn = [] ∧ delivered cn = taken cn.
(** A connection that has been closed: for no other reason than that it was finished,
    unless the peer or the kernel has broken it. *)
Definition settled (cn : conn) : Prop :=
  delivered cn `prefix_of` taken cn ∧ (clean → reset cn = false → complete cn).

(** The server's table agrees with the connections. *)
Record accounts (w : world) : Prop := {
  a_dom : dom (clients w) = dom (conns (kern w));
  a_disj : dom (conns (kern w)) ## dom O;
  a_others : others (kern w) = O;
  a_udp : udp w = dgram;
  a_agree : ∀ fd c cn, clients w !! fd = Some c → conns (kern w) !! fd = Some cn → agrees c cn;
  a_backlog : Forall (λ cn, taken cn = delivered cn) (backlog (kern w));
  a_bad : bad_close (kern w) = false;
  a_gone : Forall settled (gone (kern w));
  a_fair : clean → fair (answers (kern w))
}.

(** Every client is watched for what the server waits for. *)
Record tables (w : world) : Prop := {
  t_client : ∀ fd c, clients w !! fd = Some c → interest (kern w) !! fd = Some (update_events c et);
  t_tcp : interest (kern w) !! tcp = Some (base et);
  t_udp : interest (kern w) !! dgram = Some (base et);
  t_dom : ∀ fd, is_Some (interest (kern w) !! fd) → fd ∈ dom (clients w) ∨ fd = tcp ∨ fd = dgram;
  t_eof : ∀ fd c, clients w !! fd = Some c → eof c = true → unsent c = true
}.

Definition wanted (c : client) (cn : conn) : Z :=
  Z.land (conn_ready cn) (Z.lor (update_events c et) (Z.lor EPOLLERR EPOLLHUP)).

(** With edges, nothing is ready that the next wait will not report, apart from [P],
    which is being handled. *)
Record awake (P : list Z) (w : world) : Prop := {
  w_client : et = true → ∀ fd c cn, clients w !! fd = Some c → conns (kern w) !! fd = Some cn →
    fd ∉ P → wanted c cn = 0 ∨ fd ∈ edge (kern w);
  w_tcp : et = true → clean → tcp ∉ P → backlog (kern w) = [] ∨ tcp ∈ edge (kern w);
  w_udp : et = true → clean → dgram ∉ P → dgrams (kern w) = [] ∨ dgram ∈ edge (kern w)
}.

Record serving (P : list Z) (w : world) : Prop := {
  s_accounts : accounts w;
  s_tables : tables w;
  s_awake : awake P w
}.

Abbreviation upto := (ends_in accounts (serving [])).

(** [ctl]: the descriptor is watched, or the server gives up. *)
Lemma upto_ctl fd events (Q : unit → world → Prop) w :
  accounts w →
  (∀ l, Q () (World (watch fd events (with_oks l (kern w))) (clients w) (udp w))) →
  upto (ctl fd events) Q w.
Proof.
  intros Ha HQ. unfold ctl. eapply ends_bind, ends_sys; [done|].
  destruct (default true _); [apply ends_does, HQ|]. by destruct Ha; split.
Qed.

Lemma tcp_free fd w : accounts w → fd ∈ dom (conns (kern w)) → fd ≠ tcp ∧ fd ≠ dgram.
Proof.
  intros Ha Hfd. assert (tcp ∈ dom O ∧ dgram ∈ dom O) as [H1 H2]
    by (split; apply elem_of_dom; eauto).
  pose proof (a_disj _ Ha). set_solver.
Qed.

(** *** accept *)

(** A connection that has just been accepted. *)
Definition admit_client (fd : Z) (cn : conn) (b : list conn) (l : list answer) (w : world) : world :=
  World (with_backlog b (with_conns (<[fd := cn]> (conns (kern w))) (with_answers l (kern w))))
        (<[fd := Client [] 0 false]> (clients w)) (udp w).

Lemma admit_accounts fd cn b w :
  accounts w → backlog (kern w) = cn :: b → fd ∉ dom O → fd ∉ dom (conns (kern w)) →
  accounts (admit_client fd cn b (tail (answers (kern w))) w).
Proof.
  intros [Hd Hj Ho Hu Hag Hb Hbad Hg Hf] Eb Hn1 Hn2.
  rewrite Eb in Hb. apply Forall_cons in Hb as [Hcn Hb]. split; cbn; try done.
  - by rewrite !dom_insert_L, Hd.
  - rewrite dom_insert_L. set_solver.
  - intros fd' c' cn'. destruct (decide (fd' = fd)) as [->|Hne].
    + rewrite !lookup_insert_eq. intros [= <-] [= <-]. split; cbn; [lia| |done].
      by rewrite app_nil_r.
    + rewrite !lookup_insert_ne by done. apply Hag.
  - intros Hc. by apply fair_tail, Hf.
Qed.

Lemma client_events_fresh : client_events et = update_events (Client [] 0 false) et.
Proof. by destruct et. Qed.

(** Watching a client. *)
Lemma serving_watch P fd c l w :
  accounts w → clients w !! fd = Some c → (eof c = true → unsent c = true) →
  (∀ fd' c', fd' ≠ fd → clients w !! fd' = Some c' →
     interest (kern w) !! fd' = Some (update_events c' et) ∧ (eof c' = true → unsent c' = true)) →
  interest (kern w) !! tcp = Some (base et) → interest (kern w) !! dgram = Some (base et) →
  (∀ fd', is_Some (interest (kern w) !! fd') →
     fd' ∈ dom (clients w) ∨ fd' = tcp ∨ fd' = dgram) →
  awake (fd :: P) w →
  serving P (World (watch fd (update_events c et) (with_oks l (kern w))) (clients w) (udp w)).
Proof.
  intros Ha Hc Heof Hcl Ht Hu Hdom [W1 W2 W3].
  assert (fd ≠ tcp ∧ fd ≠ dgram) as [Hn1 Hn2].
  { apply (tcp_free _ _ Ha). rewrite <-(a_dom _ Ha). by apply elem_of_dom. }
  split; [by destruct Ha; split| |].
  - split; cbn [kern interest watch with_edge with_interest with_oks clients].
    + intros fd' c' H. destruct (decide (fd' = fd)) as [->|Hne].
      * rewrite lookup_insert_eq. congruence.
      * rewrite lookup_insert_ne by done. by apply Hcl.
    + by rewrite lookup_insert_ne.
    + by rewrite lookup_insert_ne.
    + intros fd'. destruct (decide (fd' = fd)) as [->|Hne].
      * intros _. left. apply elem_of_dom. by eexists.
      * rewrite lookup_insert_ne by done. apply Hdom.
    + intros fd' c' H. destruct (decide (fd' = fd)) as [->|Hne]; [|by apply (Hcl fd')].
      rewrite Hc in H. injection H as <-. done.
  - split; cbn [kern edge watch with_edge with_interest with_oks clients conns backlog dgrams].
    + intros He fd' c' cn' H1 H2 H3. destruct (decide (fd' = fd)) as [->|Hne]; [right; set_solver|].
      destruct (W1 He fd' c' cn' H1 H2) as [|]; [set_solver|by left|right; set_solver].
    + intros He Hcln H3. destruct (W2 He Hcln) as [|]; [set_solver|by left|right; set_solver].
    + intros He Hcln H3. destruct (W3 He Hcln) as [|]; [set_solver|by left|right; set_solver].
Qed.

(** A handler that leaves the tables alone: the descriptors it has dealt with are awake
    again, or the kernel has failed it. *)
Lemma distinct : tcp ≠ dgram.
Proof. intros ->. congruence. Qed.

Lemma serving_quiet P l w :
  accounts w → tables w → awake (tcp :: P) w →
  (clean → fair l) → (clean → backlog (kern w) = []) →
  serving P (World (with_answers l (kern w)) (clients w) (udp w)).
Proof.
  intros Ha Ht [W1 W2 W3] Hf Hb. split.
  - by destruct Ha; split.
  - by destruct Ht; split.
  - split; cbn.
    + intros He fd c cn H1 H2 H3. apply (W1 He _ _ _ H1 H2).
      destruct (tcp_free fd w) as [? ?]; [done|by apply elem_of_dom|set_solver].
    + auto.
    + intros He Hc H3. apply W3; try done. pose proof distinct. set_solver.
Qed.

Lemma admit_serving P fd cn b l w :
  accounts w → tables w → awake (tcp :: P) w →
  backlog (kern w) = cn :: b → fd ∉ dom O → fd ∉ dom (conns (kern w)) →
  let w1 := admit_client fd cn b (tail (answers (kern w))) w in
  serving (tcp :: P) (World (watch fd (update_events (Client [] 0 false) et) (with_oks l (kern w1)))
                            (clients w1) (udp w1)).
Proof.
  intros Ha Ht [W1 W2 W3] Eb Hn1 Hn2 w1.
  assert (dom (clients w) = dom (conns (kern w))) as Hd by apply Ha.
  apply serving_watch; cbn.
  - by apply admit_accounts.
  - by rewrite lookup_insert_eq.
  - done.
  - intros fd' c' Hne. rewrite lookup_insert_ne by done. intros Hc.
    split; [by apply (t_client _ Ht)|by apply (t_eof _ Ht fd')].
  - apply Ht.
  - apply Ht.
  - intros fd' H%(t_dom _ Ht). rewrite dom_insert_L. set_solver.
  - split; cbn.
    + intros He fd' c' cn'. destruct (decide (fd' = fd)) as [->|Hne]; [set_solver|].
      rewrite !lookup_insert_ne by done. intros H1 H2 H3. apply (W1 He _ _ _ H1 H2). set_solver.
    + set_solver.
    + intros He Hc H3. apply W3; [done..|]. set_solver.
Qed.

Lemma accept_loop_serves fuel P w :
  accounts w → tables w → awake (tcp :: P) w →
  (length (answers (kern w)) + length (backlog (kern w)) < fuel)%nat →
  upto (accept_loop fuel et) (λ _ w', serving P w' ∧ conns (kern w) ⊆ conns (kern w')) w.
Proof.
  revert w. induction fuel as [|fuel IH]; intros w Ha Ht Hw Hf; [lia|].
  cbn [accept_loop].
  assert (clean → fair (tail (answers (kern w)))) as Hfair by eauto using fair_tail, a_fair.
  destruct (accept4_spec (kern w)) as (r & k & E & Hr).
  eapply ends_bind, ends_sys; [done|].
  destruct r as [fd|[]].
  - destruct Hr as (cn & b & Eb & Hn1 & Hn2 & ->). rewrite (a_others _ Ha) in Hn1.
    eapply ends_bind, ends_set. cbn [kern clients udp].
    assert (clients w !! fd = None) as Hnone by (apply not_elem_of_dom; by rewrite (a_dom _ Ha)).
    unfold emplace. rewrite Hnone.
    change (World _ (<[fd := Client [] 0 false]> (clients w)) (udp w))
      with (admit_client fd cn b (tail (answers (kern w))) w).
    pose proof (admit_accounts fd cn b w Ha Eb Hn1 Hn2) as Ha2.
    eapply ends_bind, upto_ctl; [done|]. intros l. rewrite client_events_fresh.
    destruct (admit_serving P fd cn b l w) as [A T W]; [done..|].
    eapply ends_mono; [|apply IH; [done..|]].
    { cbn. intros _ w' [Hs Hsub]. split; [done|]. etrans; [|done].
      apply insert_subseteq. by apply not_elem_of_dom. }
    cbn. rewrite Eb in Hf. cbn in Hf. pose proof (tail_le (answers (kern w))). lia.
  - destruct Hr as [-> Hl].
    apply (IH (World (with_answers (tail (answers (kern w))) (kern w)) (clients w) (udp w)));
      [by destruct Ha; split|by destruct Ht; split|by destruct Hw; split|cbn; lia].
  - destruct Hr as [-> Hb]. apply ends_ret. split; [by apply serving_quiet|done].
  - destruct Hr as [-> Hc]. apply ends_does.
    destruct (serving_quiet P (tail (answers (kern w))) w) as [A T W]; try done.
    { intros Hcl. destruct Hc. by apply (a_fair _ Ha). }
    split; [|done]. split; [by destruct A; split|by destruct T; split|by destruct W; split].
Qed.
(** *** Clients *)

Lemma client_io_spec fd flags c cn w :
  conns (kern w) !! fd = Some cn → agrees c cn →
  ∃ alive c' cn' l,
    client_io fd flags c w =
      Some (Go (alive, c'), World (upd fd cn' l (kern w)) (clients w) (udp w)) ∧
    agrees c' cn' ∧ reset cn' = reset cn ∧ (fair (answers (kern w)) → fair l) ∧
    ((alive : bool) = false → fair (answers (kern w)) → reset cn = true).
Proof.
  intros Hcn Hag. unfold client_io. unfold mbind, code_bind.
  assert (∃ alive c' cn' l,
    (if has flags (Z.lor EPOLLIN (Z.lor EPOLLRDHUP EPOLLHUP)) then recv_all fd c else mret (true, c)) w =
      Some (Go (alive, c'), World (upd fd cn' l (kern w)) (clients w) (udp w)) ∧
    agrees c' cn' ∧ reset cn' = reset cn ∧ (fair (answers (kern w)) → fair l) ∧
    ((alive : bool) = false → fair (answers (kern w)) → reset cn = true))
    as (b & c1 & cn1 & l1 & -> & Ha1 & Hr1 & Hf1 & Hb1).
  { destruct (has _ _).
    - destruct (recv_all_spec fd c cn w Hcn Hag) as (b & c1 & cn1 & l1 & E & Ha1 & [_ Hr1] & Hf1 & Hb1).
      exists b, c1, cn1, l1. split_and!; try done. by intros ->.
    - exists true, c, cn, (answers (kern w)). split_and!; try done.
      rewrite upd_id by done. by destruct w. }
  destruct (b && _) eqn:Eb; [|exists b, c1, cn1, l1; by split_and!].
  apply andb_prop in Eb as [-> _].
  destruct (send_all_spec fd c1 cn1 (World (upd fd cn1 l1 (kern w)) (clients w) (udp w)))
    as (b & c2 & cn2 & l2 & -> & Ha2 & [_ Hr2] & _ & _ & Hf2 & Hb2);
    [cbn; by rewrite lookup_insert_eq|done|].
  cbn [kern clients udp answers upd with_conns with_answers] in *.
  exists b, c2, cn2, l2. split_and!; [by rewrite upd_upd|done|congruence|auto|].
  intros ->. rewrite <-Hr1. auto.
Qed.

(** A client and its connection replaced. *)
Lemma accounts_upd fd c cn c' cn' l w :
  accounts w → clients w !! fd = Some c → conns (kern w) !! fd = Some cn →
  agrees c' cn' → (clean → fair l) →
  accounts (World (upd fd cn' l (kern w)) (<[fd := c']> (clients w)) (udp w)).
Proof.
  intros [Hd Hj Ho Hu Hag Hb Hbad Hg Hf] Hc Hcn Ha Hl.
  assert (fd ∈ dom (conns (kern w))) as Hin by (apply elem_of_dom; eauto).
  split; cbn; try done.
  - rewrite !dom_insert_L, Hd. set_solver.
  - rewrite dom_insert_L. set_solver.
  - intros fd' c1 cn1. destruct (decide (fd' = fd)) as [->|Hne].
    + rewrite !lookup_insert_eq. by intros [= <-] [= <-].
    + rewrite !lookup_insert_ne by done. apply Hag.
Qed.

Lemma drop_client_spec fd cn w :
  conns (kern w) !! fd = Some cn →
  ∃ k, drop_client fd w = Some (Go (), World k (delete fd (clients w)) (udp w)) ∧
    answers k = answers (kern w) ∧ others k = others (kern w) ∧
    conns k = delete fd (conns (kern w)) ∧ gone k = gone (kern w) ++ [cn] ∧
    interest k = delete fd (interest (kern w)) ∧ edge k = edge (kern w) ∖ {[fd]} ∧
    backlog k = backlog (kern w) ∧ dgrams k = dgrams (kern w) ∧ bad_close k = bad_close (kern w).
Proof.
  intros Hcn. unfold drop_client. unrun. cbn [syscall].
  destruct (default true _).
  - unfold close. cbn [kern clients udp conns others unwatch with_oks with_interest with_edge].
    rewrite Hcn. eexists. split; [reflexivity|]. cbn.
    rewrite delete_delete_eq. split_and!; try done. set_solver.
  - unfold close. cbn [kern clients udp conns others unwatch with_oks with_interest with_edge].
    rewrite Hcn. eexists. by split; [reflexivity|].
Qed.

Lemma drop_client_serves P fd c cn w :
  accounts w → clients w !! fd = Some c → conns (kern w) !! fd = Some cn → settled cn →
  (∀ fd' c', fd' ≠ fd → clients w !! fd' = Some c' →
     interest (kern w) !! fd' = Some (update_events c' et) ∧ (eof c' = true → unsent c' = true)) →
  interest (kern w) !! tcp = Some (base et) → interest (kern w) !! dgram = Some (base et) →
  (∀ fd', is_Some (interest (kern w) !! fd') →
     fd' ∈ dom (clients w) ∨ fd' = tcp ∨ fd' = dgram) →
  awake (fd :: P) w →
  upto (drop_client fd) (λ _ w', serving P w' ∧ conns (kern w') = delete fd (conns (kern w))) w.
Proof.
  intros Ha Hc Hcn Hset Hcl Ht Hu Hdom [W1 W2 W3].
  destruct (tcp_free fd w Ha) as [Hn1 Hn2]; [apply elem_of_dom; eauto|].
  destruct (drop_client_spec fd cn w Hcn) as (k & E & E1 & E2 & E3 & E4 & E5 & E6 & E7 & E8 & E9).
  unfold ends_in. rewrite E. split; [|done]. destruct Ha as [Hd Hj Ho Hu' Hag Hb Hbad Hg Hf].
  split; [split|split|split]; cbn [kern clients udp];
    rewrite ?E1, ?E2, ?E3, ?E4, ?E5, ?E6, ?E7, ?E8, ?E9; try done.
  - by rewrite !dom_delete_L, Hd.
  - rewrite dom_delete_L. set_solver.
  - intros fd' c' cn' [_ H1]%lookup_delete_Some [_ H2]%lookup_delete_Some. by eapply Hag.
  - apply Forall_app. by split; [|constructor].
  - intros fd' c' [Hne H]%lookup_delete_Some. rewrite lookup_delete_ne by done. by apply Hcl.
  - by rewrite lookup_delete_ne.
  - by rewrite lookup_delete_ne.
  - intros fd' [m [Hne H]%lookup_delete_Some]. rewrite dom_delete_L.
    destruct (Hdom fd') as [?|?]; [by eexists|set_solver|by right].
  - intros fd' c' [Hne H]%lookup_delete_Some. by apply (Hcl fd').
  - intros He fd' c' cn' [Hne H1]%lookup_delete_Some [_ H2]%lookup_delete_Some H3.
    destruct (W1 He fd' c' cn' H1 H2); [set_solver|by left|right; set_solver].
  - intros He Hcln H3. destruct (W2 He Hcln); [set_solver|by left|right; set_solver].
  - intros He Hcln H3. destruct (W3 He Hcln); [set_solver|by left|right; set_solver].
Qed.

Lemma client_event_serves P fd flags w :
  serving (fd :: P) w → fd ≠ tcp → fd ≠ dgram →
  (has flags EPOLLERR = true → ∀ cn, conns (kern w) !! fd = Some cn → reset cn = true) →
  upto (client_event et fd flags)
    (λ _ w', serving P w' ∧ ∀ fd', fd' ≠ fd → conns (kern w') !! fd' = conns (kern w) !! fd') w.
Proof.
  intros [Ha Ht Hw] Hn1 Hn2 Herr. unfold client_event. eapply ends_bind, ends_gets.
  destruct (clients w !! fd) as [c|] eqn:Ec.
  2: { apply ends_ret. split; [|done]. split; [done|done|].
       destruct Hw as [W1 W2 W3]. split; [|set_solver..].
       intros He fd' c' cn' H1 H2 H3. apply (W1 He _ _ _ H1 H2).
       assert (fd' ≠ fd) by congruence. set_solver. }
  assert (∃ cn, conns (kern w) !! fd = Some cn) as [cn Hcn].
  { apply elem_of_dom. rewrite <-(a_dom _ Ha). apply elem_of_dom. eauto. }
  destruct (client_io_spec fd flags c cn w Hcn) as (alive & c' & cn' & l & E & Hag & Hr & Hf & Hal);
    [by eapply (a_agree _ Ha)|].
  eapply ends_bind. unfold ends_in at 1. rewrite E. eapply ends_bind, ends_set. cbn [kern clients udp].
  set (w2 := World _ _ _).
  assert (accounts w2) as Ha2 by (eapply accounts_upd; eauto using a_fair).
  assert (clients w2 !! fd = Some c' ∧ conns (kern w2) !! fd = Some cn') as [Hc2 Hcn2]
    by (cbn; by rewrite !lookup_insert_eq).
  assert (∀ fd' c', fd' ≠ fd → clients w2 !! fd' = Some c' →
     interest (kern w2) !! fd' = Some (update_events c' et) ∧ (eof c' = true → unsent c' = true)) as Ht2.
  { cbn. intros fd' c1 Hne. rewrite lookup_insert_ne by done. intros H.
    split; [by apply (t_client _ Ht)|by apply (t_eof _ Ht fd')]. }
  assert (∀ fd', is_Some (interest (kern w2) !! fd') →
    fd' ∈ dom (clients w2) ∨ fd' = tcp ∨ fd' = dgram) as Hdom2.
  { cbn. intros fd' H%(t_dom _ Ht). rewrite dom_insert_L. set_solver. }
  assert (awake (fd :: P) w2) as Hw2.
  { destruct Hw as [W1 W2 W3]. split; cbn; [|done..].
    intros He fd' c1 cn1. destruct (decide (fd' = fd)) as [->|Hne]; [set_solver|].
    rewrite !lookup_insert_ne by done. by apply W1. }
  assert (∀ fd', fd' ≠ fd → conns (kern w2) !! fd' = conns (kern w) !! fd') as Hother
    by (cbn; intros; by rewrite lookup_insert_ne).
  destruct (_ && negb (eof c' && _)) eqn:Ealive.
  - apply andb_prop in Ealive as [Ealive Eeof%negb_true_iff].
    eapply upto_ctl; [done|]. intros ls. split; [|done].
    apply serving_watch; try done; [|apply Ht|apply Ht].
    intros He. rewrite He in Eeof. cbn in Eeof. unfold unsent.
    apply Nat.eqb_neq in Eeof. apply Nat.ltb_lt. pose proof (sent_bound _ _ Hag). lia.
  - eapply ends_mono; [|eapply (drop_client_serves P fd c' cn' w2); try done; [|apply Ht|apply Ht]].
    { intros _ w' [Hs ->]. split; [done|]. intros fd' Hne. rewrite lookup_delete_ne by done. auto. }
    split.
    + rewrite (in_transit _ _ Hag). by apply prefix_app_r.
    + intros Hcl Hres. destruct alive.
      2: { pose proof (Hal eq_refl (a_fair _ Ha Hcl)). congruence. }
      destruct (has flags EPOLLERR) eqn:Eerr.
      { pose proof (Herr eq_refl cn Hcn). congruence. }
      cbn in Ealive. apply negb_false_iff, andb_prop in Ealive as [Ee Es%Nat.eqb_eq].
      destruct (eof_fin _ _ Hag Ee) as [Hfin Hun]. split_and!; [done..|].
      rewrite (in_transit _ _ Hag), Es, drop_all. by rewrite app_nil_r.
Qed.
(** *** Datagrams, and a whole turn *)

Lemma udp_all_serves P w :
  accounts w → tables w → awake (dgram :: P) w →
  upto udp_all (λ _ w', serving P w' ∧ conns (kern w) ⊆ conns (kern w')) w.
Proof.
  intros Ha Ht [W1 W2 W3]. pose proof distinct as Hne. unfold udp_all, ends_in.
  destruct (udp_loop_spec (S (length (answers (kern w)) + length (dgrams (kern w)))) w)
    as (k & -> & [E1 E2 E3 E4 E5 E6 E7] & Hf & _); [lia|].
  split; [|cbn; by rewrite E2].
  split; [destruct Ha; split|destruct Ht; split|split]; cbn [kern clients udp];
    rewrite ?E1, ?E2, ?E3, ?E4, ?E5, ?E6, ?E7; try done.
  - intros Hc. by apply Hf, a_fair0.
  - intros He fd c cn H1 H2 H3. apply (W1 He _ _ _ H1 H2).
    destruct (tcp_free fd w) as [? ?]; [done|by apply elem_of_dom|set_solver].
  - intros He Hc H3. apply W2; [done..|]. set_solver.
  - intros He Hc H3. left. by apply Hf, (a_fair _ Ha).
Qed.

(** An event the wait has reported. *)
Definition event_ok (w : world) (e : Z * Z) : Prop :=
  e.1 = tcp ∨ e.1 = dgram ∨
  ∃ cn, conns (kern w) !! e.1 = Some cn ∧ (has e.2 EPOLLERR = true → reset cn = true).

Lemma events_loop_serves evs w :
  serving evs.*1 w → NoDup evs.*1 → Forall (event_ok w) evs →
  upto (events_loop et tcp evs) (λ _, serving []) w.
Proof.
  revert w. induction evs as [|[fd flags] evs IH]; intros w Hs Hnd Hok; [by apply ends_ret|].
  cbn [fmap list_fmap fst] in Hs, Hnd. apply NoDup_cons in Hnd as [Hni Hnd].
  apply Forall_cons in Hok as [Hfd Hok].
  assert (∀ w', serving evs.*1 w' →
    (∀ fd' cn, fd' ≠ fd → conns (kern w) !! fd' = Some cn → conns (kern w') !! fd' = Some cn) →
    upto (events_loop et tcp evs) (λ _, serving []) w') as Hrest.
  { intros w' Hs' Hsame. apply IH; [done..|]. rewrite Forall_forall in Hok.
    apply Forall_forall. intros [fd' f'] Hin. destruct (Hok _ Hin) as [H|[H|(cn & Hcn & Hf)]]; [by left|by right; left|].
    right; right. exists cn. split; [|done]. apply Hsame; [|done]. cbn.
    intros ->. apply Hni. apply list_elem_of_fmap. by exists (fd, f'). }
  cbn [events_loop]. eapply ends_bind, ends_gets. rewrite (a_udp _ (s_accounts _ _ Hs)).
  eapply ends_bind. destruct Hs as [Ha Ht Hw].
  destruct (Z.eqb_spec fd tcp) as [->|Hn1]; [|destruct (Z.eqb_spec fd dgram) as [->|Hn2]].
  - unfold accept_all. eapply ends_mono; [|apply accept_loop_serves; [done..|lia]].
    intros _ w' [Hs Hsub]. apply Hrest; [done|]. intros fd' cn _ H. by eapply lookup_weaken.
  - eapply ends_mono; [|by apply udp_all_serves].
    intros _ w' [Hs Hsub]. apply Hrest; [done|]. intros fd' cn _ H. by eapply lookup_weaken.
  - eapply ends_mono; [|apply client_event_serves; [done..|]].
    { intros _ w' [Hs Hsame]. apply Hrest; [done|]. intros fd' cn Hne H. by rewrite Hsame. }
    intros Herr cn Hcn. destruct Hfd as [?|[?|(cn' & Hcn' & Hr)]]; [done..|].
    cbn in Hcn', Hr. rewrite Hcn in Hcn'. injection Hcn' as <-. by apply Hr.
Qed.

Lemma conn_ready_err cn x : has (Z.land (conn_ready cn) x) EPOLLERR = true → reset cn = true.
Proof.
  unfold has, conn_ready. destruct (reset cn); [done|]. rewrite !orb_false_r.
  destruct (nonempty (unread cn) || fin cn), (fin cn), (0 <? room cn)%nat;
    cbn [bits]; rewrite <-Z.land_assoc, (Z.land_comm x), Z.land_assoc; by cbn.
Qed.

Lemma reported_fds choice k :
  NoDup (reported choice k).*1 ∧ Forall (λ e, report k e.1 = Some e.2) (reported choice k).
Proof.
  unfold reported. split.
  - eapply sublist_NoDup; [apply (NoDup_remove_dups choice)|].
    rewrite fmap_take. etrans; [apply sublist_take|].
    generalize (remove_dups choice). intros l. induction l as [|fd l IH]; [done|]. cbn.
    destruct (report k fd); cbn; [by apply sublist_skip|by apply sublist_cons].
  - apply Forall_take, Forall_forall. intros [fd ev] (fd' & _ & H)%list_elem_of_omap.
    apply fmap_Some in H as (ev' & H & [= -> ->]). done.
Qed.

Lemma turn_serves r w : serving [] w → upto (turn et tcp r) (λ _, serving []) w.
Proof.
  intros Hs. destruct r as [| |choice]; cbn [turn]; [done|apply Hs|].
  eapply ends_bind, ends_sys; [done|].
  destruct (reported_fds choice (kern w)) as [Hnd Hrep].
  destruct Hs as [Ha Ht [W1 W2 W3]].
  apply events_loop_serves; [|done|].
  - split; [by destruct Ha; split|by destruct Ht; split|]. split; cbn.
    + intros He fd c cn H1 H2 H3. destruct (W1 He fd c cn H1 H2); [set_solver|by left|right].
      apply elem_of_difference. split; [done|]. by rewrite elem_of_list_to_set.
    + intros He Hc H3. destruct (W2 He Hc); [set_solver|by left|right].
      apply elem_of_difference. split; [done|]. by rewrite elem_of_list_to_set.
    + intros He Hc H3. destruct (W3 He Hc); [set_solver|by left|right].
      apply elem_of_difference. split; [done|]. by rewrite elem_of_list_to_set.
  - eapply Forall_impl; [done|]. intros [fd ev] Hr. cbn in Hr. unfold event_ok. cbn.
    unfold report in Hr. destruct (interest (kern w) !! fd) as [mask|] eqn:Ei; [|done].
    destruct (t_dom _ Ht fd) as [Hd|[-> | ->]]; [by eexists|right; right|by left|by right; left].
    rewrite (a_dom _ Ha) in Hd. apply elem_of_dom in Hd as [cn Hcn]. exists cn. split; [done|].
    unfold readiness in Hr. rewrite Hcn in Hr. case_match; [done|]. injection Hr as <-.
    apply conn_ready_err.
Qed.
(** *** Arrivals and the loop *)

Lemma on_conn_serves fd event f w :
  serving [] w →
  (∀ c cn, agrees c cn → agrees c (f cn)) →
  (∀ cn, reset cn = false → event cn = false → conn_ready (f cn) = conn_ready cn) →
  serving [] (World (on_conn fd event f (kern w)) (clients w) (udp w)).
Proof.
  intros [Ha Ht Hw] Hf Hq. unfold on_conn.
  destruct (conns (kern w) !! fd) as [cn|] eqn:Ecn; [|split; [by destruct Ha; split|by destruct Ht; split|by destruct Hw; split]].
  destruct (reset cn) eqn:Er; [split; [by destruct Ha; split|by destruct Ht; split|by destruct Hw; split]|].
  destruct Ha as [Hd Hj Ho Hu Hag Hb Hbad Hg Hfair]. destruct Hw as [W1 W2 W3].
  assert (fd ∈ dom (conns (kern w))) as Hin by (apply elem_of_dom; eauto).
  assert (edge (kern w) ⊆ (if event cn then edge (kern w) ∪ {[fd]} else edge (kern w))) as Hsub
    by (destruct (event cn); set_solver).
  split; [split|by destruct Ht; split|split]; cbn; try done.
  - rewrite dom_insert_L. set_solver.
  - rewrite dom_insert_L. set_solver.
  - intros fd' c' cn'. destruct (decide (fd' = fd)) as [->|Hne].
    + rewrite lookup_insert_eq. intros H [= <-]. by eapply Hf, Hag.
    + rewrite lookup_insert_ne by done. apply Hag.
  - intros He fd' c' cn' H1 H2 _. destruct (decide (fd' = fd)) as [->|Hne].
    + rewrite lookup_insert_eq in H2. injection H2 as <-.
      destruct (event cn) eqn:Ev; [right; set_solver|].
      unfold wanted. rewrite Hq by done. apply (W1 He _ _ _ H1 Ecn). set_solver.
    + rewrite lookup_insert_ne in H2 by done.
      destruct (W1 He _ _ _ H1 H2); [set_solver|by left|right; set_solver].
  - intros He Hc H. destruct (W2 He Hc H); [by left|right; set_solver].
  - intros He Hc H. destruct (W3 He Hc H); [by left|right; set_solver].
Qed.

Lemma of_kind_in x fd k : others k !! fd = Some x → fd ∈ of_kind x k.
Proof. intros H. apply elem_of_dom. exists x. by apply map_lookup_filter_Some. Qed.

Lemma arrive_serves a w :
  serving [] w → serving [] (World (arrive (kern w) a) (clients w) (udp w)).
Proof.
  intros Hs. destruct a as [s n|fd s|fd|fd|fd n|peer s]; cbn [arrive].
  2: { apply on_conn_serves; [done| |done]. intros c cn [H1 H2 H3].
       destruct (fin cn) eqn:Ef; [by split; rewrite ?Ef|]. split; cbn; [done|done|].
       intros H%H3. by destruct H. }
  2: { apply on_conn_serves; [done| |done]. intros c cn [H1 H2 H3]. split; cbn; try done.
       intros H. by destruct (H3 H). }
  2: { apply on_conn_serves; [done| |done]. intros c cn [H1 H2 H3]. by split. }
  2: { apply on_conn_serves; [done| |].
       - intros c cn [H1 H2 H3]. by split.
       - intros cn Hr Hroom%Nat.eqb_neq. unfold conn_ready. cbn.
         destruct (room cn); [done|]. done. }
  all: destruct Hs as [Ha Ht [W1 W2 W3]]; pose proof (a_others _ Ha) as Ho;
    (split; [destruct Ha; split|by destruct Ht; split|split]); cbn; try done.
  - apply Forall_app. by split; [|repeat constructor].
  - intros He fd c cn H1 H2 H3. destruct (W1 He _ _ _ H1 H2 H3); [by left|right; set_solver].
  - intros _ _ _. right. apply elem_of_union_r, of_kind_in. by rewrite Ho.
  - intros He Hc H. destruct (W3 He Hc H); [by left|right; set_solver].
  - intros He fd c cn H1 H2 H3. destruct (W1 He _ _ _ H1 H2 H3); [by left|right; set_solver].
  - intros He Hc H. destruct (W2 He Hc H); [by left|right; set_solver].
  - intros _ _ _. right. apply elem_of_union_r, of_kind_in. by rewrite Ho.
Qed.

Lemma serve_serves rs w : serving [] w → upto (serve et tcp rs) (λ _ _, False) w.
Proof.
  revert w. induction rs as [|r rs IH]; intros w Hs; [done|]. cbn [serve].
  eapply ends_bind, ends_does, ends_bind. apply (ends_mono _ _ _ (λ _, serving [])); [intros []; apply IH|].
  apply turn_serves. revert w Hs. generalize (arrivals r). intros l.
  induction l as [|a l IHl]; intros w Hs; [by destruct w|]. cbn [foldl].
  apply (IHl (World (arrive (kern w) a) (clients w) (udp w))). by apply arrive_serves.
Qed.
(** *** The server at rest *)

(** Nothing waits for the server: what its peers have sent has come back to them, or will
    when they read on; a peer that has finished is only there because it does not read. *)
Record served (w : world) : Prop := {
  everything_read : ∀ fd cn, conns (kern w) !! fd = Some cn →
    reset cn = false ∧ unread cn = [] ∧ delivered cn `prefix_of` taken cn;
  everything_sent : ∀ fd cn, conns (kern w) !! fd = Some cn →
    room cn ≠ 0%nat → delivered cn = taken cn ∧ fin cn = false;
  queues_empty : et = false ∨ clean → backlog (kern w) = [] ∧ dgrams (kern w) = []
}.

Lemma wanted_zero c cn : wanted c cn = 0 →
  reset cn = false ∧ (eof c = false → unread cn = [] ∧ fin cn = false) ∧
  (unsent c = true → room cn = 0%nat).
Proof.
  assert (∀ n, (0 <? n)%nat = false → n = 0%nat) as Hn by (intros n H%Nat.ltb_ge; lia).
  assert (∀ s : bytes, nonempty s = false → s = []) as Hs by (by intros []).
  unfold wanted, conn_ready, update_events.
  destruct (nonempty (unread cn)) eqn:E1, (fin cn), (reset cn), (0 <? room cn)%nat eqn:E2,
    (eof c), et, (unsent c); cbn; try done; intros _; (split; [done|]); split; intros; try done; auto.
Qed.

Lemma update_events_et c : has (update_events c et) EPOLLET = et.
Proof. unfold update_events. by destruct et, (eof c), (unsent c). Qed.

Lemma at_rest w : serving [] w → (∀ fd, report (kern w) fd = None) → served w.
Proof.
  intros [Ha Ht [W1 W2 W3]] Hrep.
  assert (∀ fd cn, conns (kern w) !! fd = Some cn → ∃ c, clients w !! fd = Some c ∧ agrees c cn ∧
    (eof c = true → unsent c = true) ∧ wanted c cn = 0) as Hcl.
  { intros fd cn Hcn. assert (∃ c, clients w !! fd = Some c) as [c Hc].
    { apply elem_of_dom. rewrite (a_dom _ Ha). apply elem_of_dom. eauto. }
    exists c. split; [done|]. split; [by eapply (a_agree _ Ha)|]. split; [by apply (t_eof _ Ht fd)|].
    specialize (Hrep fd). unfold report, readiness in Hrep.
    rewrite (t_client _ Ht _ _ Hc), Hcn, update_events_et in Hrep. fold (wanted c cn) in Hrep.
    destruct (Z.eqb_spec (wanted c cn) 0) as [|Hz]; [done|].
    destruct et; [|done]. destruct (W1 eq_refl fd c cn Hc Hcn) as [|Hin]; [set_solver|done|].
    by rewrite bool_decide_true in Hrep. }
  split.
  - intros fd cn Hcn. destruct (Hcl fd cn Hcn) as (c & Hc & Hag & He & (Hr & Hin & Hout)%wanted_zero).
    split; [done|]. split; [|rewrite (in_transit _ _ Hag); by apply prefix_app_r].
    destruct (eof c) eqn:Ee; [by apply (eof_fin _ _ Hag)|by apply Hin].
  - intros fd cn Hcn Hroom.
    destruct (Hcl fd cn Hcn) as (c & Hc & Hag & He & (Hr & Hin & Hout)%wanted_zero).
    destruct (unsent c) eqn:Eu; [by destruct Hroom; apply Hout|].
    apply unsent_drop in Eu; [|apply Hag]. rewrite (in_transit _ _ Hag), Eu, app_nil_r.
    split; [done|]. destruct (eof c); [by specialize (He eq_refl)|by apply Hin].
  - intros Hec. assert (∀ fd x, O !! fd = Some x → conns (kern w) !! fd = None) as Hnone.
    { intros fd x Hx. apply not_elem_of_dom. assert (fd ∈ dom O) by (apply elem_of_dom; eauto).
      pose proof (a_disj _ Ha). set_solver. }
    assert (∀ fd, (et = true → clean → fd ∈ edge (kern w)) → (et = false ∨ clean) →
      has (base et) EPOLLET && negb (bool_decide (fd ∈ edge (kern w))) = false) as Hedge.
    { intros fd He [->|Hc]; [done|]. destruct et; [|done]. by rewrite bool_decide_true by auto. }
    split.
    + destruct (backlog (kern w)) as [|cn b] eqn:Eb; [done|]. exfalso.
      specialize (Hrep tcp). unfold report, readiness in Hrep.
      rewrite (t_tcp _ Ht), (Hnone _ _ Htcp), (a_others _ Ha), Htcp, Eb, Hedge in Hrep; [|..|done].
      * by destruct et.
      * intros He Hc. by destruct (W2 He Hc); [set_solver|..].
    + destruct (dgrams (kern w)) as [|d l] eqn:Eb; [done|]. exfalso.
      specialize (Hrep dgram). unfold report, readiness in Hrep.
      rewrite (t_udp _ Ht), (Hnone _ _ Hudp), (a_others _ Ha), Hudp, Eb, Hedge in Hrep; [|..|done].
      * by destruct et.
      * intros He Hc. by destruct (W3 He Hc); [set_solver|..].
Qed.
End serving.

(** ** main *)

Section starting.
Context (k0 : kernel).
(** Nothing has been connected or watched yet. *)
Record started : Prop := {
  st_conns : conns k0 = ∅;
  st_gone : gone k0 = [];
  st_interest : interest k0 = ∅;
  st_backlog : backlog k0 = [];
  st_dgrams : dgrams k0 = [];
  st_bad : bad_close k0 = false
}.

Abbreviation clean := (fair (answers k0)).

(** The state during the set-up: the descriptors [X], watched for [I], and [udp]. *)
Record blank (X : gmap Z kind) (I : gmap Z Z) (u : Z) (w : world) : Prop := {
  b_others : others (kern w) = X;
  b_interest : interest (kern w) = I;
  b_udp : udp w = u;
  b_conns : conns (kern w) = ∅;
  b_clients : clients w = ∅;
  b_gone : gone (kern w) = [];
  b_backlog : backlog (kern w) = [];
  b_dgrams : dgrams (kern w) = [];
  b_answers : answers (kern w) = answers k0;
  b_bad : bad_close (kern w) = false
}.

(** A state in which the server has given up: of its descriptors [X] are open. *)
Record ended (X : gmap Z kind) (w : world) : Prop := {
  e_others : others (kern w) = X;
  e_dom : dom (clients w) = dom (conns (kern w));
  e_disj : dom (conns (kern w)) ## dom X;
  e_gone : Forall (settled clean) (gone (kern w));
  e_bad : bad_close (kern w) = false
}.

Lemma blank_ended X I u w : blank X I u w → ended X w.
Proof. intros []. split; rewrite ?b_conns0, ?b_clients0, ?b_gone0; try done; set_solver. Qed.
Lemma accounts_ended dgram X w : accounts dgram X clean w → ended X w.
Proof. by intros []. Qed.

Lemma release_ended X fd x w :
  ended (<[fd := x]> X) w → fd ∉ dom X → 0 <= fd → ended X (release fd w) ∧ udp (release fd w) = udp w.
Proof.
  intros [Ho Hd Hj Hg Hb] Hfd Hpos. rewrite dom_insert_L in Hj.
  unfold release. rewrite (proj2 (Z.leb_le 0 fd)) by done. unfold close. cbn.
  assert (conns (kern w) !! fd = None) as -> by (apply not_elem_of_dom; set_solver).
  rewrite Ho, lookup_insert_eq. split; [|done]. split; cbn; try done; [|set_solver].
  rewrite delete_insert_eq. apply delete_id. by apply not_elem_of_dom.
Qed.
Lemma release_none w : release (-1) w = w.
Proof. done. Qed.

Section steps.
Context (T R : world → Prop).

Lemma ends_open_fd X I u x (Q : Z → world → Prop) w :
  blank X I u w →
  (∀ fd w', fd ∉ dom X → 0 <= fd → blank (<[fd := x]> X) I u w' → Q fd w') →
  (∀ w', blank X I u w' → Q (-1) w') →
  ends_in T R (open_fd x) Q w.
Proof.
  intros Hb Hok Hno. unfold open_fd. eapply ends_bind, ends_sys; [done|].
  destruct (default true _).
  - eapply ends_bind, ends_gets, ends_bind, ends_does, ends_ret. cbn.
    set (X' := dom _ ∪ dom _). destruct (lowest_spec X') as [Hn Hr].
    assert (dom X ⊆ X') as Hsub by (unfold X'; rewrite (b_others _ _ _ _ Hb); set_solver).
    apply Hok; [set_solver|lia|].
    destruct Hb. split; cbn; try done. by rewrite b_others0.
  - apply ends_ret, Hno. by destruct Hb.
Qed.

Lemma ends_must X I u what (Q : unit → world → Prop) w :
  blank X I u w → (∀ w', blank X I u w' → T w') → (∀ w', blank X I u w' → Q () w') →
  ends_in T R (must what) Q w.
Proof.
  intros Hb HT HQ. unfold must. eapply ends_bind, ends_sys; [done|].
  destruct (default true _); [apply ends_ret, HQ|apply ends_fail, HT]; by destruct Hb.
Qed.

Lemma ends_watch X I u fd events (Q : unit → world → Prop) w :
  blank X I u w → (∀ w', blank X I u w' → T w') →
  (∀ w', blank X (<[fd := events]> I) u w' → Q () w') →
  ends_in T R (ctl fd events) Q w.
Proof.
  intros Hb HT HQ. unfold ctl. eapply ends_bind, ends_sys; [done|].
  destruct (default true _); [apply ends_does, HQ|apply ends_fail, HT].
  - destruct Hb. split; cbn; try done. by rewrite b_interest0.
  - by destruct Hb.
Qed.

Lemma ends_rebind X u (Q : unit → world → Prop) w :
  blank (<[u := Datagram]> X) ∅ u w → u ∉ dom X → 0 <= u →
  (∀ w', ended (<[u := Datagram]> X) w' → udp w' = u → T w') →
  (∀ u' w', u' ∉ dom X → 0 <= u' → blank (<[u' := Datagram]> X) ∅ u' w' → Q () w') →
  ends_in T R rebind Q w.
Proof.
  intros Hb Hu Hu0 HT HQ. unfold rebind.
  eapply ends_bind, (ends_open_fd _ _ _ _ _ _ Hb).
  2: { intros w' Hb'. apply ends_fail, HT; [by eapply blank_ended|apply Hb']. }
  intros r w' Hr Hr0 Hb'. rewrite dom_insert_L in Hr.
  rewrite (proj2 (Z.ltb_ge r 0)) by lia. eapply ends_bind, ends_sys; [done|].
  destruct (default true _).
  - eapply ends_bind. unfold ends_in at 1. unfold ends_in, set_udp.
    apply (HQ r); [set_solver|done|]. destruct Hb'. cbn [udp kern clients]. rewrite b_udp0.
    unfold release. rewrite (proj2 (Z.leb_le 0 u)) by done.
    unfold close. cbn [kern conns others with_edge with_interest with_oks interest edge clients].
    rewrite b_conns0, lookup_empty, b_others0, lookup_insert_ne, lookup_insert_eq by set_solver.
    split; cbn; try done.
    + rewrite delete_insert_ne, delete_insert_eq by set_solver. f_equal.
      apply delete_id. by apply not_elem_of_dom.
    + by rewrite b_interest0, delete_empty.
  - unfold ends_in. destruct (release_ended (<[u := Datagram]> X) r Datagram
      (World (with_oks (tail (oks (kern w'))) (kern w')) (clients w') (udp w'))) as [He Hu'];
      [|by rewrite dom_insert_L; set_solver|done|apply HT; [done|by rewrite Hu'; apply Hb']].
    eapply blank_ended. by destruct Hb'; split.
Qed.
End steps.

Lemma fresh_key fd u x (X : gmap Z kind) : fd ∉ dom (<[u := x]> X) → u ≠ fd ∧ fd ∉ dom X.
Proof. rewrite dom_insert_L. set_solver. Qed.

(** The rounds are used up. *)
Definition still_serving (et : bool) (w : world) : Prop := ∃ tcp dgram O,
  O !! tcp = Some Stream ∧ O !! dgram = Some Datagram ∧
  serving et tcp dgram O clean [] w.

Lemma run_ends et p rs w :
  blank (others k0) ∅ (-1) w →
  ends_in (ended (others k0)) (still_serving et) (run et p rs) (λ _ _, False) w.
Proof.
  intros Hb. unfold run. set (X0 := others k0) in *.
  eapply ends_bind, (ends_open_fd _ _ _ _ _ _ _ _ Hb).
  2: { intros w' Hb'. eapply ends_scoped; [intros w1 H1; exact H1|].
       apply ends_bind, ends_fail. by eapply blank_ended. }
  clear w Hb. intros tcp w Ht Ht0 Hb. set (X1 := <[tcp := Stream]> X0) in *.
  apply (ends_scoped _ _ (ended X1)); [intros w' Hw'; by eapply release_ended|].
  rewrite (proj2 (Z.ltb_ge tcp 0)) by done. eapply ends_bind, ends_ret.
  eapply ends_bind, (ends_open_fd _ _ _ _ _ _ _ _ Hb).
  2: { intros w' Hb'. apply ends_bind. unfold ends_in at 1, set_udp.
       apply (ends_scoped _ _ (λ w, udp w = -1 ∧ ended X1 w)); [by intros w1 [-> H1]|].
       apply ends_bind, ends_fail. split; [done|]. eapply blank_ended. by destruct Hb'; split. }
  clear w Hb. intros u w Hu Hu0 Hb.
  apply ends_bind. unfold ends_in at 1, set_udp.
  set (T2 := λ w, ∃ u, udp w = u ∧ 0 <= u ∧ u ∉ dom X1 ∧ ended (<[u := Datagram]> X1) w).
  apply (ends_scoped _ _ T2).
  { intros w' (u' & -> & Hu1 & Hu2 & He). by eapply release_ended. }
  rewrite (proj2 (Z.ltb_ge u 0)) by done. eapply ends_bind, ends_ret.
  set (w1 := World _ _ _).
  assert (blank (<[u := Datagram]> X1) ∅ u w1) as Hb1 by (by destruct Hb; split).
  clearbody w1. clear w Hb.
  assert (∀ I u w, blank (<[u := Datagram]> X1) I u w → 0 <= u → u ∉ dom X1 → T2 w) as HT2.
  { intros I u' w' Hb' H1 H2. exists u'. split_and!; [apply Hb'|done|done|by eapply blank_ended]. }
  do 5 (eapply ends_bind, (ends_must _ _ _ _ _ _ _ _ Hb1);
    [intros; by eapply HT2|]; clear w1 Hb1; intros w1 Hb1).
  apply ends_bind.
  apply (ends_mono _ _ _ (λ _ w', ∃ u, blank (<[u := Datagram]> X1) ∅ u w' ∧ 0 <= u ∧ u ∉ dom X1)).
  2: { destruct (p =? 0); [|apply ends_ret; by exists u].
       apply (ends_rebind _ _ _ _ _ _ Hb1); [done|done| |].
       - intros w' He Hw'. by exists u.
       - intros u' w' H1 H2 Hb'. by exists u'. }
  clear u Hu Hu0 w1 Hb1. intros _ w (u & Hb & Hu0 & Hu). set (X2 := <[u := Datagram]> X1) in *.
  eapply ends_bind, (ends_open_fd _ _ _ _ _ _ _ _ Hb).
  2: { intros w' Hb'. apply (ends_scoped _ _ T2); [by intros w1 H1|].
       apply ends_bind, ends_fail. by eapply HT2. }
  clear w Hb. intros ep w Hep Hep0 Hb. set (X3 := <[ep := Epoll]> X2) in *.
  apply (ends_scoped _ _ (λ w, ended X3 w ∧ udp w = u)).
  { intros w' [He Hw']. destruct (release_ended _ _ _ _ He Hep Hep0) as [He' Hw2].
    exists u. split_and!; [congruence|done..]. }
  rewrite (proj2 (Z.ltb_ge ep 0)) by done. eapply ends_bind, ends_ret.
  assert (∀ I w, blank X3 I u w → ended X3 w ∧ udp w = u) as HT3.
  { intros I w' Hb'. split; [by eapply blank_ended|apply Hb']. }
  eapply ends_bind, (ends_watch _ _ _ _ _ _ _ _ _ Hb); [by apply HT3|].
  clear w Hb. intros w Hb.
  eapply ends_bind, ends_gets, ends_bind. rewrite (b_udp _ _ _ _ Hb).
  apply (ends_watch _ _ _ _ _ _ _ _ _ Hb); [by apply HT3|]. clear w Hb. intros w Hb.
  assert (X3 !! tcp = Some Stream ∧ X3 !! u = Some Datagram) as [Htcp Hudp].
  { apply fresh_key in Hep as [Hne1 [Hne2 _]%fresh_key]. apply fresh_key in Hu as [Hne3 _].
    unfold X3, X2, X1. split; [rewrite 2!lookup_insert_ne by done|rewrite lookup_insert_ne by done];
      by rewrite lookup_insert_eq. }
  eapply ends_weaken; [| |eapply ends_mono; [|apply (serve_serves et tcp u X3 clean Htcp Hudp)]].
  - intros w' Ha. split; [by eapply accounts_ended|apply Ha].
  - intros w' Hs. by exists tcp, u, X3.
  - done.
  - clear HT2 HT3. destruct Hb as [B1 B2 B3 B4 B5 B6 B7 B8 B9 B10]. split; split;
      rewrite ?B1, ?B2, ?B4, ?B5, ?B6, ?B7, ?B8, ?B9; try done.
    + by rewrite lookup_insert_ne, lookup_insert_eq by (intros ->; congruence).
    + by rewrite lookup_insert_eq.
    + intros fd [m H]. right. destruct (decide (fd = u)) as [->|]; [by right|].
      destruct (decide (fd = tcp)) as [->|]; [by left|].
      by rewrite !lookup_insert_ne, lookup_empty in H by done.
    + intros _ _ _. by left.
    + intros _ _ _. by left.
Qed.
End starting.

(** *** The theorems *)

(** The mode on the command line. *)
Definition edge_mode (argv : list bytes) : bool := bool_decide (tail argv = [lit "et"]).

(** C13. The program either stops with 1, its sockets and epoll instance closed once, or
    still runs; in both cases its table names exactly the connections that are open, and
    each connection that was closed had been answered in full unless the peer had reset it
    or the kernel had failed a call.  While it runs and the wait has nothing to report, the
    bytes of every connection in the table are read and sent back unless its peer leaves no
    room; in level mode, and in edge mode on a kernel that fails no call, no connection waits
    to be accepted and no datagram to be read either. *)
Theorem epoll_echo_serves argv rs k0 :
  started k0 →
  ∃ e w, main argv rs (World k0 ∅ (-1)) = Some (e, w) ∧
  dom (clients w) = dom (conns (kern w)) ∧ bad_close (kern w) = false ∧
  Forall (settled (fair (answers k0))) (gone (kern w)) ∧
  match e with
  | Go c => c = 1 ∧ others (kern w) = others k0
  | Running =>
      (∀ fd, report (kern w) fd = None) → served (edge_mode argv) (fair (answers k0)) w
  | Thrown _ => False
  end.
Proof.
  intros Hst.
  assert (blank k0 (others k0) ∅ (-1) (World k0 ∅ (-1))) as Hb by (destruct Hst; by split).
  unfold main. set (body := match argv with [] => _ | _ => _ end).
  assert (ends_in (ended k0 (others k0)) (still_serving k0 (edge_mode argv)) body (λ _ _, False)
            (World k0 ∅ (-1))) as Hbody.
  { assert (ended k0 (others k0) (World k0 ∅ (-1))) as He by (by eapply blank_ended).
    subst body. destruct argv as [|port mode]; [by apply ends_fail|].
    destruct mode as [|m [|]]; [| |by apply ends_fail].
    all: destruct (port_arg port) as [p|]; [|by apply ends_fail];
      case_match; [by apply ends_fail|];
      eapply ends_bind, ends_mono; [|by apply run_ends]; by intros. }
  unfold ends_in in Hbody. unfold catching.
  destruct (body _) as [[[c|what|] w]|]; [done| | |done].
  - eexists _, _. split; [reflexivity|]. destruct Hbody. by split_and!.
  - exists Running, w. split; [done|].
    destruct Hbody as (tcp & dgram & O & H1 & H2 & Hs). pose proof (s_accounts _ _ _ _ _ _ _ Hs) as Ha.
    split_and!; [apply Ha|apply Ha|apply Ha|]. by eapply at_rest.
Qed.

(** Unless the kernel fails a call, the loop of the UDP socket takes every datagram there
    is, and when the replies go out each is answered to its sender, in order and once. *)
Theorem datagrams_answered w :
  fair (answers (kern w)) →
  ∃ k, udp_all w = Some (Go (), World k (clients w) (udp w)) ∧ dgrams k = [] ∧
    (all_sent (replies (kern w)) → answered k = answered (kern w) ++ dgrams (kern w)).
Proof.
  intros Hf. unfold udp_all.
  destruct (udp_loop_spec (S (length (answers (kern w)) + length (dgrams (kern w)))) w)
    as (k & E & _ & H1 & H2); [lia|].
  exists k. split; [done|]. split; [by apply H1|auto].
Qed.

(** ** Runs *)

(** Whether no descriptor would be reported. *)
Definition asleep (k : kernel) : bool :=
  forallb (λ e, negb (bool_decide (is_Some (report k e.1)))) (map_to_list (interest k)).

Lemma asleep_spec k : asleep k = true → ∀ fd, report k fd = None.
Proof.
  unfold asleep. rewrite forallb_forall. intros H fd.
  destruct (report k fd) as [ev|] eqn:E; [|done].
  destruct (interest k !! fd) as [m|] eqn:Ei; [|by unfold report in E; rewrite Ei in E].
  specialize (H (fd, m)). cbn in H. rewrite E in H. by rewrite bool_decide_true in H;
    [specialize (H (proj1 (list_elem_of_In _ _) (proj2 (elem_of_map_to_list _ _ _) Ei)))|eexists].
Qed.

Definition fresh_kernel (l : list answer) : kernel :=
  Kernel l [] [] {[0 := Epoll]} ∅ [] ∅ ∅ [] [] [] false [].
Definition after {A} (r : option (ends A * world)) : option world := snd <$> r.

(** Two clients and a datagram: one client gets its reply in two steps and goes, the other
    does not read. *)
Definition sample : list round := [
  Round [Connects (lit "hello") 3; Connects (lit "world") 0; Asks 9 (lit "ping")] (Ready [1; 2]);
  Round [] (Ready [4; 5]);
  Round [Drains 4 10; Shuts 4] (Ready [5; 4]);
  Round [Shuts 5] (Ready [5])
].

Example sample_runs : ∃ w,
  main [lit "9000"; lit "et"] sample (World (fresh_kernel [Signal; Move 1]) ∅ (-1)) =
    Some (Running, w) ∧ asleep (kern w) = true ∧
  gone (kern w) = [Conn [] true false 8 (lit "hello") (lit "hello")] ∧
  conns (kern w) !! 5 = Some (Conn [] true false 0 (lit "world") []) ∧
  answered (kern w) = [(9, lit "ping")].
Proof. eexists. split; [vm_compute; reflexivity|]. by vm_compute. Qed.

Lemma epoll_echo_serves_witness :
  started (fresh_kernel [Signal; Move 1]) ∧ ∃ e w,
  main [lit "9000"; lit "et"] sample (World (fresh_kernel [Signal; Move 1]) ∅ (-1)) = Some (e, w) ∧
  dom (clients w) = dom (conns (kern w)) ∧ bad_close (kern w) = false ∧
  Forall (settled (fair [Signal; Move 1])) (gone (kern w)) ∧
  match e with
  | Go c => c = 1 ∧ others (kern w) = {[0 := Epoll]}
  | Running => (∀ fd, report (kern w) fd = None) →
      served (edge_mode [lit "9000"; lit "et"]) (fair [Signal; Move 1]) w
  | Thrown _ => False
  end.
Proof.
  assert (started (fresh_kernel [Signal; Move 1])) as H by done.
  split; [done|]. exact (epoll_echo_serves _ sample _ H).
Defined.

Lemma datagrams_answered_witness :
  let w := World (with_dgrams [(7, lit "a"); (8, lit "b")] (fresh_kernel [Signal])) ∅ 4 in
  fair (answers (kern w)) ∧ ∃ k, udp_all w = Some (Go (), World k ∅ 4) ∧ dgrams k = [] ∧
    (all_sent [] → answered k = [(7, lit "a"); (8, lit "b")]).
Proof.
  intros w. assert (fair (answers (kern w))) as Hf by (by repeat constructor).
  split; [done|]. exact (datagrams_answered w Hf).
Defined.

(** [accept4] fails once, say for want of descriptors, while somebody is waiting: with
    edges the server sleeps on, with levels it is woken again. *)
Theorem edge_strands_connection :
  let rs := [Round [Connects (lit "hello") 9] (Ready [1])] in
  ∃ w w', main [lit "9000"; lit "et"] rs (World (fresh_kernel [Error]) ∅ (-1)) = Some (Running, w) ∧
    (∀ fd, report (kern w) fd = None) ∧ backlog (kern w) ≠ [] ∧
    main [lit "9000"; lit "lt"] rs (World (fresh_kernel [Error]) ∅ (-1)) = Some (Running, w') ∧
    report (kern w') 1 = Some EPOLLIN.
Proof.
  eexists _, _. split; [vm_compute; reflexivity|]. split; [apply asleep_spec; by vm_compute|].
  split; [by vm_compute|]. split; [vm_compute; reflexivity|]. by vm_compute.
Qed.
