(* ===== verification/NetLabs.v ===== *)
(** * The laboratories of the socket and file calls

    Programs of base_linux_net_api (tcp_cpp20.cpp, udp_cpp20.cpp, api_lab.cpp and
    tcp_c17.c), base_io_multiplexing/nonblocking_connect.c and
    base_advanced_io/io_cpp20.cpp, a Module each, on the helpers of net.hpp.  The kernel's
    verdict on each call is a script.  The theorems: every program ends with the descriptors
    it found, on every way out; what it has sent or printed when it succeeds; and what a
    client and a server of the same program exchange. *)

From stdpp Require Import base numbers gmap list strings.
From Stdlib Require Import Ascii ZArith Lia.
From S2P Require Import Prelude CxxString NetBytes IoMux ChatPoll NetFrame Unwind.

Local Open Scope Z_scope.
#[local] Arguments Z.of_nat : simpl never.

(** ** The process *)

(** The kernel interrupts a call, refuses it, or lets it go on, moving at most [n] bytes.
    Once the script is used up calls succeed in full. *)
Inductive verdict := Intr | Refuse | Allow (n : nat).

(** [net]: the stream to the peer; [inbox] and [outbox]: datagrams with the other side's
    address; [held]: mappings and address lists that are not yet freed. *)
Record world := World {
  script : list verdict;
  open_fds : gset Z;
  bad_close : bool;
  held : Z;
  net : NetFrame.world;
  inbox : list (Z * bytes);
  outbox : list (Z * bytes);
  printed : bytes;
  err : list bytes
}.

Definition with_script (l : list verdict) (w : world) : world :=
  World l (open_fds w) (bad_close w) (held w) (net w) (inbox w) (outbox w) (printed w) (err w).
Definition with_fds (X : gset Z) (b : bool) (w : world) : world :=
  World (script w) X b (held w) (net w) (inbox w) (outbox w) (printed w) (err w).
Definition with_held (n : Z) (w : world) : world :=
  World (script w) (open_fds w) (bad_close w) n (net w) (inbox w) (outbox w) (printed w) (err w).
Definition with_net (n : NetFrame.world) (w : world) : world :=
  World (script w) (open_fds w) (bad_close w) (held w) n (inbox w) (outbox w) (printed w) (err w).
Definition with_boxes (i o : list (Z * bytes)) (w : world) : world :=
  World (script w) (open_fds w) (bad_close w) (held w) (net w) i o (printed w) (err w).
Definition with_texts (s : bytes) (l : list bytes) (w : world) : world :=
  World (script w) (open_fds w) (bad_close w) (held w) (net w) (inbox w) (outbox w) s l.

(** Code is a [comp] of [Unwind]; [None] is a process that waits for ever. *)
Definition waits {A} : comp world A := λ _, None.
Definition print (s : bytes) : comp world unit := modifies (λ w, with_texts (printed w ++ s) (err w) w).
(** Messages on the error stream, without the system's part. *)
Definition complain (s : bytes) : comp world unit := modifies (λ w, with_texts (printed w) (err w ++ [s]) w).

(** *** System calls *)

(** A call that only succeeds or fails. *)
Definition call : comp world bool := λ w,
  Some (Done (match script w with Intr :: _ | Refuse :: _ => false | _ => true end),
        with_script (tail (script w)) w).
(** [do n = call; while (n < 0 && errno == EINTR)] *)
Fixpoint after_signals (l : list verdict) : list verdict :=
  match l with Intr :: l => after_signals l | l => l end.
Definition retried : comp world bool := modifies (λ w, with_script (after_signals (script w)) w) ;; call.
(** The same for a call that moves up to [most] bytes: [None] is -1. *)
Definition retried_move (most : nat) : comp world (option nat) := λ w,
  let l := after_signals (script w) in
  Some (Done (match l with
              | [] => Some most
              | Allow n :: _ => Some (Nat.min n most)
              | _ => None
              end), with_script (tail l) w).

Definition close (fd : Z) : comp world unit := modifies (λ w,
  with_fds (open_fds w ∖ {[fd]}) (bad_close w || negb (bool_decide (fd ∈ open_fds w))) w).
(** A new descriptor when the kernel agrees, else -1. *)
Definition new_fd (ok : comp world bool) : comp world Z :=
  b ← ok;
  if (b : bool) then
    fd ← read (λ w, lowest (open_fds w));
    modifies (λ w, with_fds ({[fd]} ∪ open_fds w) (bad_close w) w) ;; mret fd
  else mret (-1).
Definition socket : comp world Z := new_fd call.
Definition accept : comp world Z := new_fd retried.

(** *** net.hpp *)

Definition fail {A} (what : string) : comp world A := raising (RuntimeError (lit what)).
Definition check (ok : bool) (what : string) : comp world unit := if ok then mret () else fail what.
(** [check(call, what)] *)
Definition checked (what : string) : comp world unit := ok ← call; check ok what.

(** [~unique_fd] *)
Definition release (fd : Z) : comp world unit := if 0 <=? fd then close fd else mret ().
(** A block with a [unique_fd]. *)
Definition owning {A} (fd : Z) (body : Z → comp world A) : comp world A := scoped (release fd) (body fd).

(** [make_socket] and the object that takes its result. *)
Definition with_socket {A} (body : Z → comp world A) : comp world A :=
  fd ← socket; check (negb (fd =? -1)) "socket" ;; owning fd body.
Definition bind_local (fd port : Z) : comp world unit := checked "bind".
(** The kernel chooses the port. *)
Definition bound_port (fd chosen : Z) : comp world Z := checked "getsockname" ;; mret chosen.

(** [send_frame], [recv_frame] and [send_all] on the stream *)
Definition stream {A} (m : io A) : comp world A := λ w,
  match m (net w) with
  | NetFrame.Done a n => Some (Done a, with_net n w)
  | NetFrame.Thrown e => Some (Raised e, w)
  | NetFrame.Blocked => None
  end.

(** [e.what()] *)
Definition what (e : exn) : bytes :=
  match e with
  | RuntimeError s | LogicError s => s
  | OutOfRange => lit "stoul"
  | InvalidArgument => lit "stoul"
  | BadAlloc => lit "std::bad_alloc"
  end.
Definition port_of (s : bytes) : comp world Z :=
  match port_number s with Ret p => mret p | Throw e => raising e | Undef => leave Undefined end.
(** [main(...) try { body } catch (const std::exception &e) { ...; return 1; }] *)
Definition guarded (body : comp world unit) : comp world Z :=
  catching (body ;; mret 0) (λ e, complain (what e) ;; mret 1).

(** ** tcp_cpp20.cpp *)

Module Tcp.

(** [while (recv_frame(peer, body)) send_frame(peer, body);] *)
Fixpoint echo_loop (fuel : nat) : comp world unit :=
  match fuel with
  | O => waits
  | S fuel =>
      r ← stream recv_frame;
      match r with
      | None => mret ()
      | Some body => stream (send_frame body) ;; echo_loop fuel
      end
  end.
(** A frame takes four bytes at least. *)
Definition echo : comp world unit := λ w, echo_loop (S (length (inp (net w)))) w.

Definition server (port chosen : Z) : comp world unit :=
  with_socket (λ listener,
    checked "setsockopt" ;;
    bind_local listener port ;;
    checked "listen" ;;
    p ← bound_port listener chosen;
    print (lit "PORT " ++ show_int p ++ [newline]) ;;
    raw ← accept;
    check (negb (raw =? -1)) "accept4" ;;
    owning raw (λ peer,
      checked "getpeername" ;;
      checked "inet_ntop" ;;
      complain (lit "peer ") ;;
      echo ;;
      checked "shutdown")).

Definition client (text : bytes) : comp world unit :=
  with_socket (λ fd,
    checked "connect" ;;
    stream (send_frame text) ;;
    checked "shutdown" ;;
    r ← stream recv_frame;
    match r with
    | None => fail "missing response"
    | Some reply =>
        print (reply ++ [newline]) ;;
        r ← stream recv_frame;
        match r with None => mret () | Some _ => fail "unexpected extra frame" end
    end).

Definition main (argv : list bytes) (chosen : Z) : comp world Z :=
  guarded (
    match argv with
    | mode :: port :: rest =>
        p ← port_of port;
        if str_eqb mode (lit "server") then server p chosen
        else if str_eqb mode (lit "client") then
          client (match rest with text :: _ => text | [] => lit "hello C++20" end)
        else fail "mode must be server or client"
    | _ => fail "usage: tcp_cpp20 server PORT | client PORT [TEXT]"
    end).

End Tcp.

(** ** udp_cpp20.cpp *)

Module Udp.

Definition BUFFER : nat := N.to_nat 65536.
Definition MAX_PAYLOAD : Z := 65507.

(** The first datagram, cut to the buffer; without one the call waits, or fails when it
    has a timeout. *)
Definition receive (timeout : bool) (what : string) : comp world (Z * bytes) :=
  ok ← retried;
  check ok what ;;
  l ← read inbox;
  match l with
  | [] => if timeout then fail what else waits
  | (peer, s) :: l => modifies (λ w, with_boxes l (outbox w) w) ;; mret (peer, take BUFFER s)
  end.

(** [sendto] or [send]: how much of the datagram was sent. *)
Definition transmit (peer : Z) (s : bytes) (what : string) : comp world nat :=
  n ← retried_move (length s);
  match n with
  | None => fail what
  | Some n => modifies (λ w, with_boxes (inbox w) (outbox w ++ [(peer, take n s)]) w) ;; mret n
  end.

Definition server (fd port chosen : Z) : comp world unit :=
  bind_local fd port ;;
  p ← bound_port fd chosen;
  print (lit "PORT " ++ show_int p ++ [newline]) ;;
  '(peer, s) ← receive false "recvfrom";
  sent ← transmit peer s "sendto";
  check (sent =? length s)%nat "unexpected datagram length".

Definition client (fd port : Z) (text : bytes) : comp world unit :=
  checked "UDP connect" ;;
  checked "timeout" ;;
  (if MAX_PAYLOAD <? size text then fail "IPv4 UDP payload too large" else mret ()) ;;
  n ← transmit port text "send";
  check (n =? length text)%nat "short datagram" ;;
  '(_, s) ← receive true "recv (timeout or network error)";
  print (s ++ [newline]).

Definition main (argv : list bytes) (chosen : Z) : comp world Z :=
  guarded (
    match argv with
    | mode :: port :: rest =>
        with_socket (λ fd,
          p ← port_of port;
          if str_eqb mode (lit "server") then server fd p chosen
          else if str_eqb mode (lit "client") then
            client fd p (match rest with text :: _ => text | [] => lit "hello UDP" end)
          else fail "mode must be server or client")
    | _ => fail "usage: udp_cpp20 server PORT | client PORT [TEXT]"
    end).

End Udp.

(** ** api_lab.cpp *)

Module ApiLab.

(** *** resolve *)

(** An address as [getaddrinfo] lists it, with what [getnameinfo] makes of it. *)
Record address := Address { is_ipv6 : bool; names : option (bytes * bytes) }.

Definition address_line (v6 : bool) (h s : bytes) : bytes :=
  (if v6 then lit "IPv6 " else lit "IPv4 ") ++ h ++ lit ":" ++ s ++ [newline].
Fixpoint print_addresses (l : list address) : comp world unit :=
  match l with
  | [] => mret ()
  | a :: l =>
      match names a with
      | None => fail "gai_strerror"
      | Some (h, s) => print (address_line (is_ipv6 a) h s) ;; print_addresses l
      end
  end.
(** [freeaddrinfo], the deleter of the [unique_ptr] *)
Definition free_list : comp world unit := modifies (λ w, with_held (held w - 1) w).
Definition resolve (found : option (list address)) (http : option Z) : comp world unit :=
  match found with
  | None => fail "gai_strerror"
  | Some l =>
      modifies (λ w, with_held (held w + 1) w) ;;
      scoped free_list (
        print_addresses l ;;
        match http with
        | Some port => print (lit "legacy service http/tcp = " ++ show_int port ++ [newline])
        | None => mret ()
        end)
  end.

(** *** options *)

(** [getsockopt] for each option, and its value. *)
Fixpoint print_options (l : list (Z * Z)) : comp world unit :=
  match l with
  | [] => mret ()
  | (option, value) :: l =>
      checked "getsockopt" ;;
      print (lit "option " ++ show_int option ++ lit " = " ++ show_int value ++ [newline]) ;;
      print_options l
  end.
Definition OPTIONS : list Z := [2; 7; 8; 18; 19].
Definition options (value : Z → Z) (onoff seconds : Z) : comp world unit :=
  with_socket (λ fd,
    checked "SO_SNDBUF" ;;
    print_options ((λ o, (o, value o)) <$> OPTIONS) ;;
    checked "SO_LINGER" ;;
    print (lit "linger enabled=" ++ show_int onoff ++ lit " seconds=" ++ show_int seconds ++ [newline])).

(** *** msg *)

Definition parts : bytes := lit "HEAD:" ++ lit "body".
Definition flag (b : bool) : bytes := if b then lit "1" else lit "0".
Definition message_line (s : bytes) (truncated : bool) : bytes :=
  lit "copied=" ++ show_int (Z.of_nat (length s)) ++ lit " truncated=" ++ flag truncated
  ++ lit " data=" ++ take 3 s ++ drop 3 s ++ [newline].
(** The two parts leave as one datagram; the receiver has room for 3 + 4 bytes. *)
Definition message (chosen : Z) : comp world unit :=
  with_socket (λ receiver, with_socket (λ sender,
    bind_local receiver 0 ;;
    dest ← bound_port receiver chosen;
    n ← retried_move (length parts);
    match n with
    | None => fail "sendmsg"
    | Some n =>
        modifies (λ w, with_boxes (inbox w ++ [(dest, take n parts)]) (outbox w) w) ;;
        check (n =? 9)%nat "unexpected sendmsg length" ;;
        checked "timeout" ;;
        ok ← retried;
        check ok "recvmsg" ;;
        l ← read inbox;
        match l with
        | [] => fail "recvmsg"
        | (_, s) :: l =>
            modifies (λ w, with_boxes l (outbox w) w) ;;
            print (message_line (take 7 s) (7 <? length s)%nat)
        end
    end)).

(** *** oob *)

(** The bytes of the connection are [out] of the stream: [sent] by one socket, read by
    the other from position [pos] on; [mark] is the position of the urgent byte. *)
Definition mark_line (at_mark : bool) (c : ascii) : bytes :=
  lit "mark=" ++ flag at_mark ++ lit " byte=" ++ [c] ++ [newline].
Fixpoint drain (fuel pos : nat) (mark : option nat) : comp world unit :=
  match fuel with
  | O => waits
  | S fuel =>
      ready ← retried_move 1;
      match ready with
      | None => fail "poll"
      | Some O => fail "OOB timeout"
      | Some (S _) =>
          checked "sockatmark" ;;
          ok ← retried;
          check ok "recv" ;;
          s ← read (λ w, out (net w));
          match s !! pos with
          | None => mret ()
          | Some c => print (mark_line (bool_decide (mark = Some pos)) c) ;; drain fuel (S pos) mark
          end
      end
  end.
Definition oob (chosen : Z) : comp world unit :=
  with_socket (λ listener,
    bind_local listener 0 ;;
    checked "listen" ;;
    with_socket (λ sender,
      bound_port listener chosen ;;
      checked "connect" ;;
      raw ← accept;
      check (negb (raw =? -1)) "accept4" ;;
      owning raw (λ receiver,
        checked "SO_OOBINLINE" ;;
        stream (send_all (lit "abc")) ;;
        n ← retried_move 1;
        match n with
        | None => fail "MSG_OOB"
        | Some O => fail "short OOB send"
        | Some (S _) =>
            at_ ← read (λ w, length (out (net w)));
            modifies (λ w, with_net (NetFrame.World (NetFrame.answers (net w)) (out (net w) ++ lit "!")
                                                    (inp (net w))) w) ;;
            stream (send_all (lit "xyz")) ;;
            checked "shutdown" ;;
            total ← read (λ w, length (out (net w)));
            drain (S total) 0 (Some at_)
        end))).

(** What the resolver and the socket options hold is the kernel's. *)
Record environment := Environment {
  found : bytes → bytes → option (list address);
  http : option Z;
  value : Z → Z;
  linger : Z * Z;
  chosen : Z
}.
Definition main (env : environment) (argv : list bytes) : comp world Z :=
  guarded (
    match argv with
    | mode :: rest =>
        if str_eqb mode (lit "resolve") then
          resolve (found env (match rest with h :: _ => h | [] => lit "localhost" end)
                             (match rest with _ :: s :: _ => s | _ => lit "80" end)) (http env)
        else if str_eqb mode (lit "options") then options (value env) (linger env).1 (linger env).2
        else if str_eqb mode (lit "msg") then message (chosen env)
        else if str_eqb mode (lit "oob") then oob (chosen env)
        else fail "unknown mode"
    | [] => fail "usage: api_lab resolve [HOST SERVICE] | options | msg | oob"
    end).

End ApiLab.

(** ** tcp_c17.c *)

Module TcpC.

Definition BUFFER : nat := N.to_nat 4096.
Definition EXIT_SUCCESS : Z := 0.
Definition EXIT_FAILURE : Z := 1.

(** [perror] or a message, and [goto cleanup] *)
Definition failed (s : string) : comp world Z := complain (lit s) ;; mret EXIT_FAILURE.

(** The loop around [send]; [Some false] is a [goto cleanup].  The stream's answers are
    those of [NetFrame]: without one the call waits. *)
Fixpoint send_rest (rs : list NetFrame.answer) (o : bytes) (buf : bytes) :
    option (bool * string * list NetFrame.answer * bytes) :=
  match buf with
  | [] => Some (true, "", rs, o)
  | _ =>
      match rs with
      | [] => None
      | Interrupted :: rs => send_rest rs o buf
      | Failed :: rs => Some (false, "send", rs, o)
      | Some_bytes n :: rs =>
          let n := Nat.min n (length buf) in
          if (n =? 0)%nat then Some (false, "send made no progress", rs, o)
          else send_rest rs (o ++ take n buf) (drop n buf)
      end
  end%string.

Fixpoint echo_loop (fuel : nat) (rs : list NetFrame.answer) (o i : bytes) :
    option (bool * string * NetFrame.world) :=
  match fuel with
  | O => None
  | S fuel =>
      match rs with
      | [] => None
      | Interrupted :: rs => echo_loop fuel rs o i
      | Failed :: rs => Some (false, "recv"%string, NetFrame.World rs o i)
      | Some_bytes n :: rs =>
          match i with
          | [] => Some (true, ""%string, NetFrame.World rs o i)
          | _ :: _ =>
              let n := Nat.min (Nat.max 1 n) (Nat.min BUFFER (length i)) in
              match send_rest rs o (take n i) with
              | None => None
              | Some (true, _, rs, o) => echo_loop fuel rs o (drop n i)
              | Some (false, s, rs, o) => Some (false, s, NetFrame.World rs o (drop n i))
              end
          end
      end
  end.
(** Each turn uses an answer. *)
Definition echo : comp world Z := λ w,
  match echo_loop (S (length (NetFrame.answers (net w)))) (NetFrame.answers (net w)) (out (net w))
                  (inp (net w)) with
  | None => None
  | Some (true, _, n) => Some (Done EXIT_SUCCESS, with_net n w)
  | Some (false, s, n) => failed s (with_net n w)
  end.

(** The port of the command line: 9000, a number, or [None]. *)
Definition port_arg (argv : list bytes) : option Z :=
  match argv with
  | [] => Some 9000
  | s :: _ =>
      let '(n, rest) := strtoul s in
      let overflow := match (scan_int (skip_spaces s)).1 with
                      | Some v => ULONG_MAX <? Z.abs v | None => false end in
      match s with
      | [] => None
      | c :: _ =>
          if Ascii.eqb c "-" || negb (bool_decide (rest = [])) || overflow || (65535 <? n)
          then None else Some n
      end
  end.

(** [goto cleanup] is the end of the two blocks. *)
Definition main (argv : list bytes) (chosen : Z) : comp world Z :=
  match argv with
  | _ :: _ :: _ => failed "usage: tcp_c17 [PORT]"
  | _ =>
      match port_arg argv with
      | None => failed "invalid port"
      | Some port =>
          listener ← socket;
          if listener =? -1 then failed "socket"
          else scoped (release listener) (
            ok ← call;
            if negb ok then failed "setsockopt" else
            ok ← call;
            if negb ok then failed "bind" else
            ok ← call;
            if negb ok then failed "listen" else
            ok ← call;
            if negb ok then failed "getsockname" else
            print (lit "PORT " ++ show_int chosen ++ [newline]) ;;
            peer ← accept;
            if peer =? -1 then failed "accept"
            else scoped (release peer) echo)
      end
  end.

End TcpC.

(** ** nonblocking_connect.c *)

Module Connect.

(** [strtol]: the value, clamped to a [long], and the rest of the string. *)
Definition LONG_MAX : Z := 2 ^ 63 - 1.
Definition strtol (s : bytes) : Z * bytes :=
  match scan_int (skip_spaces s) with
  | (None, _) => (0, s)
  | (Some v, rest) => (Z.max (- 2 ^ 63) (Z.min LONG_MAX v), rest)
  end.

Definition timeout_arg (s : bytes) : option Z :=
  let '(n, rest) := strtol s in
  if bool_decide (s = []) || negb (bool_decide (rest = [])) || (n <? 0) || (3600000 <? n)
  then None else Some n.

(** What the network does with the connection: [connect] returns at once, or is in
    progress, until [SO_ERROR] has its result or the time is up, or fails. *)
Inductive network := Immediate | Refused | Progress (so_error : Z) | Unanswered.

Definition failed (s : string) (code : Z) : comp world Z := complain (lit s) ;; mret code.

Section connect.
(** [inet_pton(AF_INET, s, &a) == 1] *)
Variable valid_ipv4 : bytes → bool.

Definition try_connect (n : network) (fd : Z) : comp world Z :=
  match n with
  | Immediate => print (lit "connected immediately" ++ [newline]) ;; close fd ;; mret 0
  | Refused => complain (lit "connect") ;; close fd ;; mret 1
  | _ =>
      rc ← retried;
      if negb rc then complain (lit "poll") ;; close fd ;; mret 1
      else
        match n with
        | Progress error =>
            ok ← call;
            if negb ok then complain (lit "getsockopt SO_ERROR") ;; close fd ;; mret 1
            else if negb (error =? 0) then complain (lit "connect completion") ;; close fd ;; mret 1
            else print (lit "connected" ++ [newline]) ;; close fd ;; mret 0
        | _ => complain (lit "connect timeout") ;; close fd ;; mret 1
        end
  end.

Definition main (argv : list bytes) (n : network) : comp world Z :=
  match argv with
  | [address; port; timeout] =>
      match ChatPoll.port_arg port with
      | None => failed "invalid port" 2
      | Some _ =>
          if negb (valid_ipv4 address) then failed "invalid IPv4 address" 2
          else
            match timeout_arg timeout with
            | None => failed "invalid timeout" 2
            | Some _ =>
                fd ← socket;
                if fd <? 0 then failed "socket" 1 else try_connect n fd
            end
      end
  | _ => failed "usage: nonblocking_connect IPv4 PORT TIMEOUT_MS" 2
  end.

End connect.
End Connect.

(** ** io_cpp20.cpp *)

Module IoCpp.

(** The file that [open] finds, with what [fstat] says of it. *)
Record file := File { is_regular : bool; st_size : Z; contents : bytes }.

(** [write_all]: each turn uses a verdict or writes what is left. *)
Fixpoint write_loop (l : list verdict) (o : bytes) (s : bytes) : option string * list verdict * bytes :=
  match s with
  | [] => (None, l, o)
  | _ =>
      match l with
      | [] => (None, [], o ++ s)
      | Intr :: l => write_loop l o s
      | Refuse :: l => (Some "write"%string, l, o)
      | Allow n :: l =>
          let n := Nat.min n (length s) in
          if (n =? 0)%nat then (Some "write made no progress"%string, l, o)
          else write_loop l (o ++ take n s) (drop n s)
      end
  end.
Definition write_all (s : bytes) : comp world unit := λ w,
  let '(e, l, o) := write_loop (script w) (printed w) s in
  Some (match e with None => Done () | Some e => Raised (RuntimeError (lit e)) end,
        with_texts o (err w) (with_script l w)).

(** [read_mapping]: the constructor maps the file unless it is empty, the destructor
    unmaps what was mapped. *)
Definition with_mapping {A} (f : file) (body : bytes → comp world A) : comp world A :=
  if st_size f =? 0 then body []
  else
    ok ← call;
    check ok "mmap" ;;
    modifies (λ w, with_held (held w + 1) w) ;;
    scoped (modifies (λ w, with_held (held w - 1) w)) (body (take (Z.to_nat (st_size f)) (contents f))).

Definition open_file : comp world Z := new_fd call.
Definition main (argv : list bytes) (f : file) : comp world Z :=
  guarded (
    match argv with
    | [_] =>
        fd ← open_file;
        owning fd (λ fd,
          check (negb (fd <? 0)) "open" ;;
          checked "fstat" ;;
          check (is_regular f) "input must be a regular file" ;;
          check (negb (st_size f <? 0)) "negative file size" ;;
          with_mapping f write_all)
    | _ => fail "usage: io_cpp20 FILE"
    end).

End IoCpp.

(** ** Descriptors, mappings and lists on every way out *)

Definition same (w w' : world) : Prop :=
  open_fds w' = open_fds w ∧ bad_close w' = bad_close w ∧ held w' = held w.
Lemma same_refl w : same w w.
Proof. done. Qed.
Lemma same_trans w1 w2 w3 : same w1 w2 → same w2 w3 → same w1 w3.
Proof. unfold same. intros (?&?&?) (?&?&?). split_and!; congruence. Qed.

(** Code that gives back what it takes, whether it returns or throws, or waits. *)
Definition clean {A} (m : comp world A) : Prop := ∀ w,
  match m w with None => True | Some (r, w') => exits r ∧ same w w' end.

Lemma tidy_ret {A} (a : A) : clean (mret a).
Proof. intros w. by split. Qed.
Lemma tidy_raising {A} e : clean (raising (A := A) e).
Proof. intros w. by split. Qed.
Lemma tidy_waits {A} : clean (waits (A := A)).
Proof. done. Qed.
Lemma tidy_read {A} (f : world → A) : clean (read f).
Proof. intros w. by split. Qed.
Lemma tidy_modifies f : (∀ w, same w (f w)) → clean (modifies f).
Proof. intros H w. by split. Qed.
Lemma tidy_bind {A B} (m : comp world A) (k : A → comp world B) :
  clean m → (∀ a, clean (k a)) → clean (m ≫= k).
Proof.
  intros Hm Hk w. specialize (Hm w). unfold mbind, comp_bind.
  destruct (m w) as [[[a|e| |] w1]|]; destruct Hm as [Hr H1] || done; try done.
  specialize (Hk a w1). destruct (k a w1) as [[r w2]|]; [|done].
  destruct Hk. split; [done|by eapply same_trans].
Qed.
Lemma tidy_catching {A} (m : comp world A) h : clean m → (∀ e, clean (h e)) → clean (catching m h).
Proof.
  intros Hm Hh w. specialize (Hm w). unfold catching.
  destruct (m w) as [[[a|e| |] w1]|]; destruct Hm as [Hr H1] || done; try done.
  specialize (Hh e w1). destruct (h e w1) as [[r w2]|]; [|done].
  destruct Hh. split; [done|by eapply same_trans].
Qed.
Lemma tidy_call : clean call.
Proof. intros w. by split. Qed.
Lemma tidy_retried : clean retried.
Proof. apply tidy_bind; [by apply tidy_modifies|intros; apply tidy_call]. Qed.
Lemma tidy_retried_move n : clean (retried_move n).
Proof. intros w. by split. Qed.
Lemma tidy_print s : clean (print s).
Proof. by apply tidy_modifies. Qed.
Lemma tidy_complain s : clean (complain s).
Proof. by apply tidy_modifies. Qed.
Lemma tidy_stream {A} (m : io A) : clean (stream m).
Proof. intros w. unfold stream. by destruct (m (net w)). Qed.
Lemma tidy_if {A} (b : bool) (m1 m2 : comp world A) : clean m1 → clean m2 → clean (if b then m1 else m2).
Proof. by destruct b. Qed.

Create HintDb labs.
#[export] Hint Resolve tidy_ret tidy_raising tidy_waits tidy_read tidy_call tidy_retried
  tidy_retried_move tidy_print tidy_complain tidy_stream tidy_bind tidy_catching tidy_if : labs.

Lemma tidy_check ok what : clean (check ok what).
Proof. unfold check, fail. auto with labs. Qed.
Lemma tidy_checked what : clean (checked what).
Proof. unfold checked. auto using tidy_check with labs. Qed.
Lemma tidy_port s : clean (port_of s).
Proof. unfold port_of. pose proof (port_number_spec s) as E. rewrite E. clear E.
  repeat case_match; auto with labs; intros w; by split.
Qed.
#[export] Hint Resolve tidy_check tidy_checked tidy_port : labs.

(** A call for a new descriptor: -1, or one that was not open. *)
Lemma tidy_new_fd {A} ok (k : Z → comp world A) :
  clean ok → clean (k (-1)) →
  (∀ fd X w, fd ∉ X → 0 <= fd → open_fds w = {[fd]} ∪ X →
     match k fd w with
     | None => True
     | Some (r, w') => exits r ∧ open_fds w' = X ∧ bad_close w' = bad_close w ∧ held w' = held w
     end) →
  clean (new_fd ok ≫= k).
Proof.
  intros Hok Hno Hk w. specialize (Hok w). unfold new_fd, mbind, comp_bind.
  destruct (ok w) as [[[[]|e| |] w1]|]; [| |done|by destruct Hok..|done].
  - destruct Hok as [_ (E1 & E2 & E3)]. cbn.
    destruct (lowest_spec (open_fds w1)) as [Hn Hl].
    specialize (Hk (lowest (open_fds w1)) (open_fds w1)
      (with_fds ({[lowest (open_fds w1)]} ∪ open_fds w1) (bad_close w1) w1) Hn ltac:(lia) eq_refl).
    destruct (k _ _) as [[r w2]|]; [|done]. destruct Hk as (? & ? & F2 & F3). cbn in F2, F3.
    split; [done|]. split_and!; congruence.
  - destruct Hok as [_ H1]. specialize (Hno w1). cbn. destruct (k (-1) w1) as [[r w2]|]; [|done].
    destruct Hno. split; [done|by eapply same_trans].
Qed.

(** The end of a block that owns a descriptor. *)
Lemma tidy_scoped {A} fd (body : comp world A) X w :
  clean body → fd ∉ X → 0 <= fd → open_fds w = {[fd]} ∪ X →
  match scoped (release fd) body w with
  | None => True
  | Some (r, w') => exits r ∧ open_fds w' = X ∧ bad_close w' = bad_close w ∧ held w' = held w
  end.
Proof.
  intros Hb Hn Hpos Ho. unfold release. rewrite (proj2 (Z.leb_le 0 fd)) by done.
  unfold close. rewrite scoped_update. specialize (Hb w).
  destruct (body w) as [[[a|e| |] w1]|]; [..|done]; destruct Hb as [Hr (E1 & E2 & E3)]; [| |done..].
  all: cbn; split_and!; [done|rewrite E1, Ho; set_solver| |done];
    rewrite E1, E2, Ho, bool_decide_true by set_solver; by rewrite orb_false_r.
Qed.

Lemma tidy_none {A} (body : comp world A) : clean body → clean (scoped (release (-1)) body).
Proof.
  intros Hb w. specialize (Hb w). unfold scoped.
  destruct (body w) as [[[a|e| |] w1]|]; [..|done]; by destruct Hb as [Hr H1].
Qed.

(** [unique_fd x(call); check(x)] and its block. *)
Lemma tidy_owning {A} ok what (body : Z → comp world A) :
  clean ok → (∀ fd, clean (body fd)) →
  clean (fd ← new_fd ok; check (negb (fd =? -1)) what ;; owning fd body).
Proof.
  intros Hok Hb. apply tidy_new_fd; [done| |].
  - apply tidy_bind; [auto with labs|]. intros _. by apply tidy_none.
  - intros fd X w Hn Hpos Ho. destruct (Z.eqb_spec fd (-1)); [lia|]. by apply tidy_scoped.
Qed.
Lemma tidy_with_socket {A} (body : Z → comp world A) :
  (∀ fd, clean (body fd)) → clean (with_socket body).
Proof. intros. apply tidy_owning; auto with labs. Qed.
(** [if (x == -1) goto cleanup;] and the rest up to the cleanup. *)
Lemma tidy_goto {A} ok (m : comp world A) (body : comp world A) :
  clean ok → clean m → clean body →
  clean (fd ← new_fd ok; if fd =? -1 then m else scoped (release fd) body).
Proof.
  intros Hok Hm Hb. apply tidy_new_fd; [done|done|].
  intros fd X w Hn Hpos Ho. destruct (Z.eqb_spec fd (-1)); [lia|]. by apply tidy_scoped.
Qed.
(** What is held is let go on the way out. *)
Lemma tidy_held {A} (body : comp world A) :
  clean body →
  clean (modifies (λ w, with_held (held w + 1) w) ;;
         scoped (modifies (λ w, with_held (held w - 1) w)) body).
Proof.
  intros Hb w. unfold mbind, comp_bind, modifies at 1. rewrite scoped_update.
  specialize (Hb (with_held (held w + 1) w)).
  destruct (body _) as [[[a|e| |] w1]|]; [..|done]; destruct Hb as [Hr (E1 & E2 & E3)]; [| |done..];
    (split; [done|]); cbn in *; split_and!; try done; cbn; lia.
Qed.
Lemma tidy_owned {A} ok (body : Z → comp world A) :
  clean ok → (∀ fd, clean (body fd)) → clean (fd ← new_fd ok; owning fd body).
Proof.
  intros Hok Hb. apply tidy_new_fd; [done|by apply tidy_none|].
  intros fd X w Hn Hpos Ho. by apply tidy_scoped.
Qed.
#[export] Hint Resolve tidy_owning tidy_with_socket tidy_goto tidy_held : labs.

Lemma tidy_guarded body : clean body → clean (guarded body).
Proof. unfold guarded. auto with labs. Qed.

(** Follow the code. *)
Ltac labs :=
  repeat first
    [ progress intros
    | solve [auto with labs]
    | apply tidy_guarded
    | apply tidy_with_socket
    | apply tidy_owning
    | apply tidy_owned
    | apply tidy_goto
    | apply tidy_held
    | apply tidy_bind
    | progress case_match ].

(** *** The programs *)

Lemma tcp_clean argv chosen : clean (Tcp.main argv chosen).
Proof.
  assert (clean Tcp.echo) as He.
  { unfold Tcp.echo. intros w. generalize (S (length (inp (net w)))). intros n. revert w.
    induction n as [|n IH]; [done|]. cbn [Tcp.echo_loop]. labs. }
  unfold Tcp.main, Tcp.server, Tcp.client, bind_local, bound_port, accept, fail. labs.
Qed.

Lemma udp_clean argv chosen : clean (Udp.main argv chosen).
Proof.
  assert (∀ f : world → world, (∀ w, same w (f w)) → clean (modifies f)) by apply tidy_modifies.
  unfold Udp.main, Udp.server, Udp.client, Udp.receive, Udp.transmit, bind_local, bound_port, fail.
  labs; by apply tidy_modifies.
Qed.

Lemma api_clean env argv : clean (ApiLab.main env argv).
Proof.
  assert (∀ l, clean (ApiLab.print_addresses l)) by (intros l; induction l; cbn; unfold fail; labs).
  assert (∀ l, clean (ApiLab.print_options l)) by (intros l; induction l as [|[]]; cbn; labs).
  assert (∀ n pos mark, clean (ApiLab.drain n pos mark)).
  { intros n. induction n; intros; [done|]. cbn [ApiLab.drain]. unfold fail. labs. }
  unfold ApiLab.main, ApiLab.resolve, ApiLab.options, ApiLab.message, ApiLab.oob, ApiLab.free_list,
    bind_local, bound_port, accept, fail.
  labs; by apply tidy_modifies.
Qed.

Lemma tcp_c_clean argv chosen : clean (TcpC.main argv chosen).
Proof.
  assert (clean TcpC.echo) as He.
  { intros w. unfold TcpC.echo. by destruct (TcpC.echo_loop _ _ _ _) as [[[[] s] n]|]. }
  unfold TcpC.main, TcpC.failed, accept, socket. labs.
Qed.

Lemma try_connect_spec n fd X w :
  fd ∉ X → open_fds w = {[fd]} ∪ X →
  match Connect.try_connect n fd w with
  | None => False
  | Some (r, w') => exits r ∧ open_fds w' = X ∧ bad_close w' = bad_close w ∧ held w' = held w
  end.
Proof.
  intros Hn Ho. unfold Connect.try_connect, retried, close, print, complain, modifies, call.
  unfold mbind, comp_bind, mret, comp_ret.
  assert (({[fd]} ∪ X) ∖ {[fd]} = X) as HX by set_solver.
  repeat case_match; simplify_eq; cbn; rewrite Ho, HX, bool_decide_true by set_solver;
    by rewrite orb_false_r.
Qed.

Lemma connect_clean valid argv n : clean (Connect.main valid argv n).
Proof.
  unfold Connect.main, Connect.failed, socket.
  repeat first [case_match | solve [labs]].
  apply tidy_new_fd; [auto with labs|labs|].
  intros fd X w Hn Hpos Ho. rewrite (proj2 (Z.ltb_ge fd 0)) by done.
  pose proof (try_connect_spec n fd X w Hn Ho) as Hs.
  by destruct (Connect.try_connect n fd w) as [[]|].
Qed.

Lemma io_clean argv f : clean (IoCpp.main argv f).
Proof.
  assert (∀ s, clean (IoCpp.write_all s)).
  { intros s w. unfold IoCpp.write_all. by destruct (IoCpp.write_loop _ _ _) as [[[] ?] ?]. }
  unfold IoCpp.main, IoCpp.with_mapping, IoCpp.open_file, fail. labs.
Qed.

(** The six programs: the index says which one a command line is for. *)
Inductive program :=
  | TcpProgram (chosen : Z)
  | UdpProgram (chosen : Z)
  | ApiProgram (env : ApiLab.environment)
  | TcpCProgram (chosen : Z)
  | ConnectProgram (valid_ipv4 : bytes → bool) (n : Connect.network)
  | IoProgram (f : IoCpp.file).
Definition main_of (p : program) (argv : list bytes) : comp world Z :=
  match p with
  | TcpProgram c => Tcp.main argv c
  | UdpProgram c => Udp.main argv c
  | ApiProgram env => ApiLab.main env argv
  | TcpCProgram c => TcpC.main argv c
  | ConnectProgram valid n => Connect.main valid argv n
  | IoProgram f => IoCpp.main argv f
  end.

(** *** Exit codes *)

Definition exit_code {A} (P : A → Prop) (m : comp world A) : Prop := ∀ w,
  match m w with None => True | Some (r, _) => ∃ c, r = Done c ∧ P c end.

Lemma code_bind_ {A B} P (m : comp world A) (k : A → comp world B) :
  exit_code (λ _, True) m → (∀ a, exit_code P (k a)) → exit_code P (m ≫= k).
Proof.
  intros Hm Hk w. specialize (Hm w). unfold mbind, comp_bind.
  destruct (m w) as [[r w1]|]; [|done]. destruct Hm as (a & -> & _). apply Hk.
Qed.
Lemma code_scoped {A} P fd (body : comp world A) :
  exit_code P body → exit_code P (scoped (release fd) body).
Proof.
  intros Hb w. specialize (Hb w). unfold scoped, release.
  destruct (body w) as [[r w1]|]; [|done]. destruct Hb as (c & -> & Hc).
  destruct (0 <=? fd); cbn; by exists c.
Qed.
Lemma code_simple {A} (f : world → A) (g : world → world) : exit_code (λ _, True) (λ w, Some (Done (f w), g w)).
Proof. intros w. by eexists. Qed.
Lemma code_new_fd ok : exit_code (λ _, True) ok → exit_code (λ _, True) (new_fd ok).
Proof.
  intros Hok. apply code_bind_; [done|]. intros [].
  - do 2 (apply code_bind_; [apply code_simple|intros]). apply code_simple.
  - apply code_simple.
Qed.
Lemma code_retried : exit_code (λ _, True) retried.
Proof. apply code_bind_; intros; apply code_simple. Qed.
Lemma code_ret {A} (P : A → Prop) a : P a → exit_code P (mret a).
Proof. intros H w. by exists a. Qed.

Definition is_code (c : Z) : Prop := c = 0 ∨ c = 1 ∨ c = 2.

Lemma guarded_code body w :
  match guarded body w with
  | Some (Done c, _) => is_code c
  | Some (Raised _, _) => False
  | _ => True
  end.
Proof.
  unfold guarded, catching, mbind, comp_bind.
  destruct (body w) as [[[a|e| |] w1]|]; try done; [by left|by right; left].
Qed.

Lemma tcp_c_codes argv chosen : exit_code is_code (TcpC.main argv chosen).
Proof.
  assert (∀ s, exit_code is_code (TcpC.failed s)) as Hf.
  { intros s w. exists 1. split; [done|]. by right; left. }
  assert (exit_code is_code TcpC.echo) as He.
  { intros w. unfold TcpC.echo. destruct (TcpC.echo_loop _ _ _ _) as [[[[] s] n]|]; [|apply Hf|done].
    exists 0. split; [done|by left]. }
  assert (exit_code (λ _, True) call) as Hc by apply code_simple.
  unfold TcpC.main, accept, socket.
  repeat first [ progress intros | done | apply Hf | apply He | apply Hc
               | apply code_scoped | apply code_new_fd | apply code_retried
               | apply code_bind_ | apply code_simple | progress case_match ].
Qed.

Lemma connect_codes valid argv n : exit_code is_code (Connect.main valid argv n).
Proof.
  assert (∀ s c, is_code c → exit_code is_code (Connect.failed s c)) as Hf by (intros s c Hc w; by exists c).
  assert (exit_code (λ _, True) call) as Hc by apply code_simple.
  unfold Connect.main, Connect.try_connect, socket.
  repeat first [ progress intros | done | apply Hf | apply Hc
               | apply code_new_fd | apply code_retried | apply code_ret
               | apply code_bind_ | apply code_simple | progress case_match ];
    unfold is_code; auto.
Qed.

(** *** Code that does not wait *)

Definition total {A} (m : comp world A) : Prop := ∀ w, m w ≠ None.

Lemma total_simple {A} (f : world → res A * world) : total (λ w, Some (f w)).
Proof. done. Qed.
Lemma total_bind {A B} (m : comp world A) (k : A → comp world B) :
  total m → (∀ a, total (k a)) → total (m ≫= k).
Proof.
  intros Hm Hk w. specialize (Hm w). unfold mbind, comp_bind.
  destruct (m w) as [[[] ?]|]; try done. apply Hk.
Qed.
Lemma total_catching {A} (m : comp world A) h : total m → (∀ e, total (h e)) → total (catching m h).
Proof.
  intros Hm Hh w. specialize (Hm w). unfold catching. destruct (m w) as [[[] ?]|]; try done. apply Hh.
Qed.
Lemma total_scoped {A} d (m : comp world A) : total d → total m → total (scoped d m).
Proof.
  intros Hd Hm w. specialize (Hm w). unfold scoped.
  destruct (m w) as [[[] w1]|]; try done; specialize (Hd w1); by destruct (d w1) as [[[] ?]|].
Qed.
Lemma total_release fd : total (release fd).
Proof. unfold release. by destruct (0 <=? fd). Qed.
Lemma total_check b what : total (check b what).
Proof. by destruct b. Qed.

Ltac total :=
  repeat first
    [ progress intros
    | apply total_bind | apply total_catching | apply total_scoped | apply total_release
    | apply total_check | apply total_simple | progress case_match | eassumption ].

(** Where a program may wait for ever: for the other end of a stream, or, as a UDP server,
    for a datagram. *)
Definition may_wait (p : program) (argv : list bytes) : bool :=
  match p, argv with
  | TcpProgram _, _ :: _ :: _ | TcpCProgram _, _ => true
  | UdpProgram _, mode :: _ :: _ => str_eqb mode (lit "server")
  | ApiProgram _, mode :: _ => str_eqb mode (lit "oob")
  | _, _ => false
  end.
Lemma never_waits p argv : may_wait p argv = false → total (main_of p argv).
Proof.
  assert (∀ l, total (ApiLab.print_addresses l)) as H1 by (intros l; induction l; cbn; total).
  assert (∀ l, total (ApiLab.print_options l)) as H2 by (intros l; induction l as [|[]]; cbn; unfold checked; total).
  assert (∀ s, total (IoCpp.write_all s)) as H3.
  { intros s w. unfold IoCpp.write_all. by destruct (IoCpp.write_loop _ _ _) as [[[] ?] ?]. }
  intros Hw. destruct p as [c|c|env|c|valid n|f]; cbn [main_of].
  - destruct argv as [|? [|]]; try done; unfold Tcp.main, guarded; total.
  - destruct argv as [|mode [|port rest]]; cbn [may_wait] in Hw; unfold Udp.main, guarded; [total|total|]. rewrite Hw.
    unfold Udp.client, Udp.receive, Udp.transmit, with_socket, owning, checked, port_of, retried_move, socket,
      new_fd, retried. total.
  - destruct argv as [|mode rest]; cbn [may_wait] in Hw; unfold ApiLab.main, guarded; [total|]. rewrite Hw.
    unfold ApiLab.resolve, ApiLab.options, ApiLab.message, with_socket, owning, checked, retried_move, socket,
      new_fd, retried, bind_local, bound_port, checked. total; auto.
  - done.
  - unfold Connect.main, Connect.try_connect, socket, new_fd, retried. total.
  - unfold IoCpp.main, IoCpp.with_mapping, guarded, owning, IoCpp.open_file, new_fd, checked. total; auto.
Qed.

(** C20. Every program, on every command line and whatever the kernel interrupts, refuses or
    cuts, ends - unless it waits for its peer for ever, which only servers, TCP clients and
    the urgent-byte laboratory do - with an exit code of 0, 1 or 2 and with the descriptors,
    mappings and address lists it found, having closed nothing twice. *)
Theorem labs_return_descriptors p argv w :
  match main_of p argv w with
  | None => may_wait p argv = true
  | Some (r, w') => (∃ c, r = Done c ∧ is_code c) ∧
      open_fds w' = open_fds w ∧ bad_close w' = bad_close w ∧ held w' = held w
  end.
Proof.
  assert (clean (main_of p argv)) as Hc.
  { destruct p; [apply tcp_clean|apply udp_clean|apply api_clean|apply tcp_c_clean
                |apply connect_clean|apply io_clean]. }
  specialize (Hc w). destruct (main_of p argv w) as [[r w']|] eqn:E.
  2: { destruct (may_wait p argv) eqn:Ew; [done|]. by destruct (never_waits p argv Ew w). }
  destruct Hc as [Hr Hs]. split; [|exact Hs].
  destruct p as [c|c|env|c|valid n|f]; cbn [main_of] in E.
  4: { pose proof (tcp_c_codes argv c w) as H. by rewrite E in H. }
  4: { pose proof (connect_codes valid argv n w) as H. by rewrite E in H. }
  all: unfold Tcp.main, Udp.main, ApiLab.main, IoCpp.main in E;
    match type of E with guarded ?b ?w0 = _ => pose proof (guarded_code b w0) as H end;
    rewrite E in H; destruct r; [by eexists|done..].
Qed.

(** ** What the programs achieve *)

(** *** tcp_c17.c *)

Lemma send_rest_spec rs o buf :
  match TcpC.send_rest rs o buf with
  | None => True
  | Some (true, _, rs', o') => o' = o ++ buf ∧ (length rs' ≤ length rs)%nat
  | Some (false, _, _, o') => ∃ p, p `prefix_of` buf ∧ o' = o ++ p
  end.
Proof.
  revert o buf. induction rs as [|a rs IH]; intros o buf; destruct buf as [|c buf]; cbn [TcpC.send_rest];
    [by rewrite app_nil_r|done|by rewrite app_nil_r|].
  destruct a as [n| |]; cbn [TcpC.send_rest].
  - destruct (Nat.eqb_spec (Nat.min n (length (c :: buf))) 0) as [E|E].
    { exists []. split; [apply prefix_nil|by rewrite app_nil_r]. }
    set (k := Nat.min _ _) in *. specialize (IH (o ++ take k (c :: buf)) (drop k (c :: buf))).
    destruct (TcpC.send_rest rs _ _) as [[[[[] s] rs'] o']|]; [| |done].
    + destruct IH as [-> Hl]. rewrite <-(assoc_L (++)), take_drop. split; [done|cbn; lia].
    + destruct IH as (p & [q Hq] & ->). exists (take k (c :: buf) ++ p).
      split; [|by rewrite (assoc_L (++))]. exists q.
      by rewrite <-(assoc_L (++)), <-Hq, take_drop.
  - specialize (IH o (c :: buf)). destruct (TcpC.send_rest rs _ _) as [[[[[] s] rs'] o']|]; [| |done..].
    + destruct IH as [-> Hl]. split; [done|cbn; lia].
    + done.
  - exists []. split; [apply prefix_nil|by rewrite app_nil_r].
Qed.

(** Reading and sending: an end of the loop with success is one at the end of the input. *)
Lemma tcp_c_echo_spec fuel rs o i :
  match TcpC.echo_loop fuel rs o i with
  | None => True
  | Some (true, _, n) => out n = o ++ i ∧ inp n = []
  | Some (false, _, n) => ∃ p, p `prefix_of` i ∧ out n = o ++ p
  end.
Proof.
  revert rs o i. induction fuel as [|fuel IH]; intros rs o i; [done|]. cbn [TcpC.echo_loop].
  destruct rs as [|[n| |] rs]; [done| |apply IH|].
  - destruct i as [|c i]; [by rewrite app_nil_r|].
    set (k := Nat.min (Nat.max 1 n) _). pose proof (send_rest_spec rs o (take k (c :: i))) as Hs.
    destruct (TcpC.send_rest _ _ _) as [[[[[] s] rs'] o']|]; [| |done].
    + destruct Hs as [-> _]. specialize (IH rs' (o ++ take k (c :: i)) (drop k (c :: i))).
      destruct (TcpC.echo_loop _ _ _ _) as [[[[] s'] w]|]; [| |done].
      * destruct IH as [-> ->]. by rewrite <-(assoc_L (++)), take_drop.
      * destruct IH as (p & [q Hq] & ->). exists (take k (c :: i) ++ p).
        split; [|by rewrite (assoc_L (++))]. exists q. by rewrite <-(assoc_L (++)), <-Hq, take_drop.
    + destruct Hs as (p & [q Hq] & ->). exists p. split; [|done].
      exists (q ++ drop k (c :: i)). by rewrite (assoc_L (++)), <-Hq, take_drop.
  - exists []. split; [apply prefix_nil|by rewrite app_nil_r].
Qed.

(** Set-up code: it returns, and the stream is as it was. *)
Definition silent {A} (m : comp world A) : Prop := ∀ w,
  match m w with None => True | Some (r, w') => (∃ a, r = Done a) ∧ net w' = net w end.
Definition achieves {A} (n : NetFrame.world) (Q : res A → NetFrame.world → Prop) (m : comp world A) : Prop :=
  ∀ w, net w = n → match m w with None => True | Some (r, w') => Q r (net w') end.

Lemma silent_simple {A} (f : world → A) (g : world → world) :
  (∀ w, net (g w) = net w) → silent (λ w, Some (Done (f w), g w)).
Proof. intros H w. split; [by eexists|apply H]. Qed.
Lemma silent_bind {A B} (m : comp world A) (k : A → comp world B) :
  silent m → (∀ a, silent (k a)) → silent (m ≫= k).
Proof.
  intros Hm Hk w. specialize (Hm w). unfold mbind, comp_bind.
  destruct (m w) as [[r w1]|]; [|done]. destruct Hm as [[a ->] <-]. apply Hk.
Qed.
Lemma silent_new_fd ok : silent ok → silent (new_fd ok).
Proof.
  intros Hok. apply silent_bind; [done|]. intros [].
  - do 2 (apply silent_bind; [by apply silent_simple|intros]). by apply silent_simple.
  - by apply silent_simple.
Qed.
Lemma silent_retried : silent retried.
Proof. apply silent_bind; intros; by apply silent_simple. Qed.
Lemma achieves_bind {A B} n Q (m : comp world A) (k : A → comp world B) :
  silent m → (∀ a, achieves n Q (k a)) → achieves n Q (m ≫= k).
Proof.
  intros Hm Hk w Hw. specialize (Hm w). unfold mbind, comp_bind.
  destruct (m w) as [[r w1]|]; [|done]. destruct Hm as [[a ->] Hn]. apply Hk. congruence.
Qed.
Lemma achieves_scoped {A} n (Q : res A → NetFrame.world → Prop) fd (body : comp world A) :
  achieves n (λ r n', (∃ a, r = Done a) ∧ Q r n') body → achieves n Q (scoped (release fd) body).
Proof.
  intros Hb w Hw. specialize (Hb w Hw). unfold scoped, release.
  destruct (body w) as [[r w1]|]; [|done]. destruct Hb as [[a ->] HQ]. by destruct (0 <=? fd).
Qed.

(** The server in C: it exits with success exactly when it has sent back everything up to
    the end of its peer's stream; otherwise what it has sent is a prefix of that. *)
Theorem tcp_c_echoes argv chosen w :
  match TcpC.main argv chosen w with
  | None => True
  | Some (r, w') => ∃ p, p `prefix_of` inp (net w) ∧ out (net w') = out (net w) ++ p ∧
      (r = Done TcpC.EXIT_SUCCESS → p = inp (net w) ∧ inp (net w') = [])
  end.
Proof.
  set (Q := λ (r : res Z) (n : NetFrame.world), ∃ p, p `prefix_of` inp (net w) ∧
    out n = out (net w) ++ p ∧ (r = Done TcpC.EXIT_SUCCESS → p = inp (net w) ∧ inp n = [])).
  set (Q' := λ r n, (∃ a : Z, r = Done a) ∧ Q r n).
  assert (∀ s, achieves (net w) Q' (TcpC.failed s)) as Hf.
  { intros s w1 Hw. split; [by eexists|]. exists []. cbn. rewrite Hw.
    split_and!; [apply prefix_nil|by rewrite app_nil_r|done]. }
  assert (achieves (net w) Q' TcpC.echo) as He.
  { intros w1 Hw. unfold TcpC.echo. rewrite Hw.
    pose proof (tcp_c_echo_spec (S (length (NetFrame.answers (net w)))) (NetFrame.answers (net w))
      (out (net w)) (inp (net w))) as H.
    destruct (TcpC.echo_loop _ _ _ _) as [[[[] s] n]|]; [| |done]; cbn.
    - destruct H as [Ho Hi]. split; [by eexists|]. by exists (inp (net w)).
    - destruct H as (p & Hp & Ho). split; [by eexists|]. by exists p. }
  assert (∀ m : comp world Z, achieves (net w) Q' m → achieves (net w) Q m) as Hweak.
  { intros m Hm w1 Hw. specialize (Hm w1 Hw). destruct (m w1) as [[r w2]|]; [apply Hm|done]. }
  assert (∀ fd m, achieves (net w) Q' m → achieves (net w) Q' (scoped (release fd) m)) as Hscope.
  { intros fd m Hm. apply achieves_scoped. intros w1 Hw. specialize (Hm w1 Hw).
    destruct (m w1) as [[r w2]|]; [|done]. by split; [apply Hm|]. }
  enough (achieves (net w) Q' (TcpC.main argv chosen)) as Hmain.
  { specialize (Hmain w eq_refl). destruct (TcpC.main argv chosen w) as [[r w2]|]; [apply Hmain|done]. }
  assert (silent call) as Hc by (by apply silent_simple).
  assert (∀ s, silent (print s)) as Hp by (intros; by apply silent_simple).
  unfold TcpC.main, accept, socket.
  repeat first [ progress intros | apply Hf | apply He | apply Hc | apply Hp | apply Hscope
               | apply achieves_bind | apply silent_new_fd | apply silent_retried
               | progress case_match ].
Qed.

(** *** Runs that nothing disturbs *)

(** What a program and its peer see of a process. *)
Record view := View {
  v_script : list verdict;
  v_net : NetFrame.world;
  v_in : list (Z * bytes);
  v_out : list (Z * bytes);
  v_printed : bytes
}.
Definition view_of (w : world) : view := View (script w) (net w) (inbox w) (outbox w) (printed w).

(** From any state that looks like [v] the code returns [a] in one that looks like [v']. *)
Definition returns {A} (m : comp world A) (v : view) (a : A) (v' : view) : Prop :=
  ∀ w, view_of w = v → ∃ w', m w = Some (Done a, w') ∧ view_of w' = v'.

Lemma gives_ret {A} (a : A) v : returns (mret a) v a v.
Proof. intros w Hw. by eexists. Qed.
Lemma gives_bind {A B} (m : comp world A) (k : A → comp world B) v a v1 b v2 :
  returns m v a v1 → returns (k a) v1 b v2 → returns (m ≫= k) v b v2.
Proof.
  intros Hm Hk w Hw. destruct (Hm w Hw) as (w1 & E & Hw1). unfold mbind, comp_bind. rewrite E.
  by apply Hk.
Qed.
Lemma gives_call n i o p : returns call (View [] n i o p) true (View [] n i o p).
Proof. intros [] [= -> <- <- <- <-]. by eexists. Qed.
Lemma gives_retried n i o p : returns retried (View [] n i o p) true (View [] n i o p).
Proof. intros [] [= -> <- <- <- <-]. by eexists. Qed.
Lemma gives_move k n i o p : returns (retried_move k) (View [] n i o p) (Some k) (View [] n i o p).
Proof. intros [] [= -> <- <- <- <-]. by eexists. Qed.
Lemma gives_checked what n i o p : returns (checked what) (View [] n i o p) () (View [] n i o p).
Proof. eapply gives_bind; [apply gives_call|apply gives_ret]. Qed.
Lemma gives_print s l n i o p : returns (print s) (View l n i o p) () (View l n i o (p ++ s)).
Proof. intros [] [= <- <- <- <- <-]. by eexists. Qed.
Lemma gives_complain s v : returns (complain s) v () v.
Proof. intros w Hw. eexists. split; [reflexivity|]. by rewrite <-Hw. Qed.
Lemma gives_read {A} (f : world → A) v a : (∀ w, view_of w = v → f w = a) → returns (read f) v a v.
Proof. intros H w Hw. exists w. unfold read. by rewrite (H w Hw). Qed.
Lemma gives_stream {A} (m : io A) l n i o p a n' :
  m n = NetFrame.Done a n' → returns (stream m) (View l n i o p) a (View l n' i o p).
Proof.
  intros H [] [= <- <- <- <- <-]. unfold stream. cbn in *. rewrite H. by eexists.
Qed.
Lemma gives_inbox l n i o p : returns (read inbox) (View l n i o p) i (View l n i o p).
Proof. apply gives_read. by intros w [= _ _ -> _ _]. Qed.
Lemma gives_push x l n i o p :
  returns (modifies (λ w, with_boxes (inbox w) (outbox w ++ x) w)) (View l n i o p) () (View l n i (o ++ x) p).
Proof. intros [] [= <- <- <- <- <-]. by eexists. Qed.
Lemma gives_post x l n i o p :
  returns (modifies (λ w, with_boxes (inbox w ++ x) (outbox w) w)) (View l n i o p) () (View l n (i ++ x) o p).
Proof. intros [] [= <- <- <- <- <-]. by eexists. Qed.
Lemma gives_take x l n i o p :
  returns (modifies (λ w, with_boxes x (outbox w) w)) (View l n i o p) () (View l n x o p).
Proof. intros [] [= <- <- <- <- <-]. by eexists. Qed.
Lemma gives_check b what v : b = true → returns (check b what) v () v.
Proof. intros ->. apply gives_ret. Qed.
Lemma gives_scoped {A} fd (body : comp world A) v a v' :
  returns body v a v' → returns (scoped (release fd) body) v a v'.
Proof.
  intros H w Hw. destruct (H w Hw) as (w1 & E & Hw1). unfold scoped, release. rewrite E.
  destruct (0 <=? fd); cbn; eexists; (split; [reflexivity|]); by rewrite <-Hw1.
Qed.
(** A new descriptor, tested. *)
Lemma gives_fd {A} ok (k : Z → comp world A) v v1 b v2 :
  returns ok v true v1 → (∀ fd, 0 <= fd → returns (k fd) v1 b v2) → returns (new_fd ok ≫= k) v b v2.
Proof.
  intros Hok Hk w Hw. destruct (Hok w Hw) as (w1 & E & Hw1).
  unfold new_fd, mbind, comp_bind. rewrite E. cbn.
  destruct (lowest_spec (open_fds w1)) as [_ Hl]. apply Hk; [lia|]. by rewrite <-Hw1.
Qed.
Lemma gives_owning {A} ok what (body : Z → comp world A) v v1 b v2 :
  returns ok v true v1 → (∀ fd, returns (body fd) v1 b v2) →
  returns (fd ← new_fd ok; check (negb (fd =? -1)) what ;; owning fd body) v b v2.
Proof.
  intros Hok Hb. eapply gives_fd; [done|]. intros fd Hfd.
  destruct (Z.eqb_spec fd (-1)); [lia|]. eapply gives_bind; [apply gives_ret|].
  by apply gives_scoped.
Qed.
Lemma gives_with_socket {A} (body : Z → comp world A) n i o p b v2 :
  (∀ fd, returns (body fd) (View [] n i o p) b v2) → returns (with_socket body) (View [] n i o p) b v2.
Proof. intros. eapply gives_owning; [apply gives_call|done]. Qed.
Lemma gives_guarded body v v' : returns body v () v' → returns (guarded body) v 0 v'.
Proof.
  intros H w Hw. destruct (H w Hw) as (w1 & E & Hw1).
  unfold guarded, catching, mbind, comp_bind. rewrite E. by eexists.
Qed.
Lemma gives_port s p v : port_number s = Ret p → returns (port_of s) v p v.
Proof. intros H. unfold port_of. rewrite H. apply gives_ret. Qed.

(** Follow a straight line of code. *)
Ltac undisturbed :=
  repeat first
    [ apply gives_ret | apply gives_checked | apply gives_call | apply gives_retried
    | apply gives_move | apply gives_print | apply gives_complain | apply gives_guarded
    | (apply gives_with_socket; intros)
    | match goal with |- returns (mbind _ (new_fd _)) _ _ _ => eapply gives_owning; [|intros] end
    | apply gives_inbox | apply gives_push | apply gives_post | apply gives_take
    | (apply gives_check; solve [reflexivity | apply Nat.eqb_refl])
    | apply gives_port; eassumption
    | apply gives_stream; eassumption
    | progress cbn [app]
    | match goal with
      | |- context [str_eqb ?a ?b] =>
          let v := eval vm_compute in (str_eqb a b) in change (str_eqb a b) with v; cbv iota
      end
    | eapply gives_bind ].

(** *** tcp_cpp20.cpp *)

Lemma recv_end_spec rs o :
  Forall goes_on rs → (1 <= n_moves rs)%nat →
  ∃ n, recv_frame (NetFrame.World rs o []) = NetFrame.Done None n ∧ out n = o.
Proof.
  intros Hg Hn. destruct (recv_end rs o Hg Hn) as [n E]. exists n. split; [done|].
  clear Hn. revert E. unfold recv_frame, mbind, io_bind, recv_exact. cbn [NetFrame.answers out inp].
  induction rs as [|r rs IH]; [done|]. apply Forall_cons in Hg as [Hr Hg].
  destruct r as [m| |]; cbn [recv_loop]; [by intros [= <-]|by apply IH|done].
Qed.

Lemma echo_frames bodies rs o l i op p fuel :
  Forall (λ b, size b <= max_frame) bodies → Forall goes_on rs →
  (2 * length (bodies ≫= frame_bytes) < n_moves rs)%nat → (length bodies < fuel)%nat →
  ∃ n', out n' = o ++ (bodies ≫= frame_bytes) ∧
    returns (Tcp.echo_loop fuel) (View l (NetFrame.World rs o (bodies ≫= frame_bytes)) i op p) ()
            (View l n' i op p).
Proof.
  intros Hsz. revert rs o fuel. induction Hsz as [|b bs Hb _ IH]; intros rs o [|fuel] Hg Hn Hf;
    try (cbn in Hf; lia); cbn [Tcp.echo_loop].
  - cbn in Hn. destruct (recv_end_spec rs o Hg) as (n' & E & Ho); [lia|]. exists n'.
    rewrite Ho. split; [cbn; by rewrite app_nil_r|].
    eapply gives_bind; [by apply gives_stream|]. apply gives_ret.
  - rewrite bind_cons in Hn |- *. rewrite length_app in Hn.
    destruct (recv_frame_spec rs o b (bs ≫= frame_bytes) Hg Hb) as (rs1 & Hg1 & Hm1 & E1); [lia|].
    destruct (send_frame_spec (NetFrame.World rs1 o (bs ≫= frame_bytes)) b Hg1 Hb)
      as (rs2 & Hg2 & Hm2 & E2); [cbn [NetFrame.answers]; lia|]. cbn [NetFrame.answers out inp] in *.
    destruct (IH rs2 (o ++ frame_bytes b) fuel Hg2) as (n' & Ho & Hr); [lia|cbn in Hf; lia|].
    exists n'. split; [rewrite Ho; by rewrite (assoc_L (++))|].
    eapply gives_bind; [by apply gives_stream|].
    eapply gives_bind; [by apply gives_stream|]. done.
Qed.

(** The client's answer is its text, and the two ends fit together: when each is given what
    the other sends, over a stream that is cut and interrupted anywhere, both exit with 0,
    the server has sent back the client's frame, and the client prints its text. *)
Theorem tcp_exchange port p text chosen wc ws rc rs :
  port_number port = Ret p → size text <= max_frame →
  script wc = [] → script ws = [] →
  Forall goes_on rc → Forall goes_on rs →
  (2 * length (frame_bytes text) < n_moves rc)%nat → (2 * length (frame_bytes text) < n_moves rs)%nat →
  net wc = NetFrame.World rc [] (frame_bytes text) →
  net ws = NetFrame.World rs [] (frame_bytes text) →
  ∃ wc' ws', Tcp.main [lit "client"; port; text] chosen wc = Some (Done 0, wc') ∧
    Tcp.main [lit "server"; port] chosen ws = Some (Done 0, ws') ∧
    out (net wc') = inp (net ws) ∧ out (net ws') = inp (net wc) ∧
    printed wc' = printed wc ++ text ++ [newline].
Proof.
  intros Hp Hsz Hsc Hss Hgc Hgs Hnc Hns Hwc Hws.
  destruct (send_frame_spec (NetFrame.World rc [] (frame_bytes text)) text Hgc Hsz)
    as (rc1 & Hg1 & Hm1 & E1); [cbn [NetFrame.answers]; lia|]. cbn [NetFrame.answers out inp app] in *.
  destruct (recv_frame_spec rc1 (frame_bytes text) text [] Hg1 Hsz) as (rc2 & Hg2 & Hm2 & E2); [lia|].
  rewrite app_nil_r in E2.
  destruct (recv_end_spec rc2 (frame_bytes text) Hg2) as (n3 & E3 & Ho3); [lia|].
  assert (returns (Tcp.main [lit "client"; port; text] chosen)
    (View [] (net wc) (inbox wc) (outbox wc) (printed wc)) 0
    (View [] n3 (inbox wc) (outbox wc) (printed wc ++ text ++ [newline]))) as Hc.
  { unfold Tcp.main, Tcp.client. rewrite Hwc. undisturbed. }
  assert (∃ n4, out n4 = frame_bytes text ∧ returns (Tcp.main [lit "server"; port] chosen)
    (View [] (net ws) (inbox ws) (outbox ws) (printed ws)) 0
    (View [] n4 (inbox ws) (outbox ws)
          (printed ws ++ lit "PORT " ++ show_int chosen ++ [newline]))) as (n4 & Ho4 & Hs).
  { destruct (echo_frames [text] rs [] [] (inbox ws) (outbox ws)
      (printed ws ++ lit "PORT " ++ show_int chosen ++ [newline]) (S (length (frame_bytes text))))
      as (n4 & Ho4 & Hr); [by repeat constructor|done|cbn [mbind list_bind]; rewrite app_nil_r; lia|cbn; lia|].
    cbn [mbind list_bind] in Ho4, Hr. rewrite app_nil_r in Ho4, Hr.
    exists n4. split; [done|]. rewrite Hws.
    unfold Tcp.main, Tcp.server, bind_local, bound_port, accept. undisturbed.
    intros w Hw. unfold Tcp.echo. destruct (Hr w Hw) as (w' & E & Hw').
    injection Hw as _ Hn _ _ _. rewrite Hn. cbn [inp]. eauto. }
  destruct (Hc wc) as (wc' & Ec & Hvc); [unfold view_of; by rewrite Hsc|].
  destruct (Hs ws) as (ws' & Es & Hvs); [unfold view_of; by rewrite Hss|].
  injection Hvc as _ H1 _ _ H2. injection Hvs as _ H3 _ _ _.
  exists wc', ws'. rewrite H1, H3, Hwc, Hws, Ho3, Ho4. by split_and!.
Qed.

(** *** udp_cpp20.cpp *)

(** A datagram is echoed whole to whoever sent it, and the client prints what comes back;
    an empty one too.  Longer than 65507 bytes it is not sent at all. *)
Theorem udp_exchange port p text chosen peer ws wc more :
  port_number port = Ret p → size text <= Udp.MAX_PAYLOAD →
  script wc = [] → script ws = [] →
  inbox ws = (peer, text) :: more → inbox wc = [(p, text)] →
  ∃ wc' ws', Udp.main [lit "client"; port; text] chosen wc = Some (Done 0, wc') ∧
    Udp.main [lit "server"; port] chosen ws = Some (Done 0, ws') ∧
    outbox wc' = outbox wc ++ [(p, text)] ∧ outbox ws' = outbox ws ++ [(peer, text)] ∧
    printed wc' = printed wc ++ text ++ [newline].
Proof.
  intros Hp Hsz Hsc Hss His Hic. unfold Udp.MAX_PAYLOAD, size in Hsz.
  assert (take Udp.BUFFER text = text) as Hcut by (apply take_ge; unfold Udp.BUFFER; lia).
  assert (returns (Udp.main [lit "client"; port; text] chosen)
    (View [] (net wc) [(p, text)] (outbox wc) (printed wc)) 0
    (View [] (net wc) [] (outbox wc ++ [(p, take (length text) text)])
          (printed wc ++ take Udp.BUFFER text ++ [newline]))) as Hc.
  { unfold Udp.main, Udp.client, Udp.transmit, Udp.receive.
    rewrite (proj2 (Z.ltb_ge Udp.MAX_PAYLOAD (size text)) Hsz). undisturbed. }
  set (s := take Udp.BUFFER text) in *.
  assert (returns (Udp.main [lit "server"; port] chosen)
    (View [] (net ws) ((peer, text) :: more) (outbox ws) (printed ws)) 0
    (View [] (net ws) more (outbox ws ++ [(peer, take (length s) s)])
          (printed ws ++ lit "PORT " ++ show_int chosen ++ [newline]))) as Hs.
  { unfold Udp.main, Udp.server, Udp.transmit, Udp.receive, bind_local, bound_port. undisturbed. }
  rewrite !firstn_all, Hcut in *.
  destruct (Hc wc) as (wc' & Ec & Hvc); [unfold view_of; by rewrite Hsc, Hic|].
  destruct (Hs ws) as (ws' & Es & Hvs); [unfold view_of; by rewrite Hss, His|].
  injection Hvc as _ _ _ H1 H2. injection Hvs as _ _ _ H3 _.
  exists wc', ws'. by split_and!.
Qed.

(** *** api_lab.cpp *)

Definition oob_lines : bytes :=
  mjoin ((λ e, ApiLab.mark_line e.1 e.2) <$>
    zip [false; false; false; true; false; false; false] (lit "abc!xyz")).

Lemma drain_lines fuel pos mark n i o p :
  (length (out n) - pos < fuel)%nat →
  returns (ApiLab.drain fuel pos mark) (View [] n i o p) ()
    (View [] n i o (p ++ mjoin (imap (λ k c, ApiLab.mark_line (bool_decide (mark = Some (pos + k)%nat)) c)
                                     (drop pos (out n))))).
Proof.
  revert pos p. induction fuel as [|fuel IH]; intros pos p Hf; [lia|].
  cbn [ApiLab.drain]. eapply gives_bind; [apply gives_move|]. cbn iota.
  eapply gives_bind; [apply gives_checked|]. eapply gives_bind; [apply gives_retried|].
  eapply gives_bind; [by apply gives_check|].
  eapply gives_bind; [apply gives_read; by intros w [= _ -> _ _ _]|].
  destruct (out n !! pos) as [c|] eqn:E.
  - rewrite (drop_S _ _ _ E). cbn [imap mjoin list_join]. rewrite Nat.add_0_r.
    eapply gives_bind; [apply gives_print|].
    specialize (IH (S pos) (p ++ ApiLab.mark_line (bool_decide (mark = Some pos)) c)).
    apply lookup_lt_Some in E. specialize (IH ltac:(lia)).
    rewrite <-(assoc_L (++)) in IH.
    erewrite imap_ext; [exact IH|]. intros k x _. cbn. by rewrite Nat.add_succ_r.
  - apply lookup_ge_None in E. rewrite drop_ge by done. cbn. rewrite app_nil_r. apply gives_ret.
Qed.

Local Opaque ApiLab.drain.

Lemma gives_sent l n i o p :
  returns (read (λ w, length (out (net w)))) (View l n i o p) (length (out n)) (View l n i o p).
Proof. apply gives_read. by intros w [= _ -> _ _ _]. Qed.
Lemma gives_urgent s l n i o p :
  returns (modifies (λ w, with_net (NetFrame.World (NetFrame.answers (net w)) (out (net w) ++ s)
                                                   (inp (net w))) w)) (View l n i o p) ()
          (View l (NetFrame.World (NetFrame.answers n) (out n ++ s) (inp n)) i o p).
Proof. intros [] [= <- <- <- <- <-]. by eexists. Qed.

(** The urgent byte arrives in its place in the stream, which is marked there and only
    there. *)
Theorem oob_marks_urgent env w rs :
  script w = [] → Forall goes_on rs → (6 <= n_moves rs)%nat → net w = NetFrame.World rs [] [] →
  ∃ w', ApiLab.main env [lit "oob"] w = Some (Done 0, w') ∧ printed w' = printed w ++ oob_lines.
Proof.
  intros Hs Hg Hm Hn.
  destruct (send_loop_spec rs [] [] (lit "abc") Hg) as [(r1 & pre1 & Er1 & E1 & Hl1)|[_ H]];
    [|cbn in H; lia].
  rewrite Er1 in Hg, Hm. apply Forall_app in Hg as [_ Hg]. rewrite n_moves_app in Hm. cbn in Hl1.
  destruct (send_loop_spec r1 (lit "abc!") [] (lit "xyz") Hg) as [(r2 & pre2 & Er2 & E2 & Hl2)|[_ H]];
    [|cbn in H; lia].
  set (n := NetFrame.World r2 (lit "abc!xyz") []).
  assert (returns (ApiLab.main env [lit "oob"])
    (View [] (net w) (inbox w) (outbox w) (printed w)) 0
    (View [] n (inbox w) (outbox w) (printed w ++ oob_lines))) as H.
  { rewrite Hn. unfold ApiLab.main, ApiLab.oob, bind_local, bound_port, accept.
    undisturbed; [apply gives_sent|apply gives_urgent|by apply gives_stream|apply gives_sent|].
    exact (drain_lines 8 0 (Some 3%nat) n (inbox w) (outbox w) (printed w) ltac:(cbn; lia)). }
  destruct (H w) as (w' & E & Hv); [unfold view_of; by rewrite Hs|].
  exists w'. split; [done|]. by injection Hv.
Qed.

(** The nine bytes leave as one datagram, and of what arrives the receiver keeps the seven
    it has room for and says so. *)
Theorem message_truncates env w :
  script w = [] → inbox w = [] →
  ∃ w', ApiLab.main env [lit "msg"] w = Some (Done 0, w') ∧ inbox w' = [] ∧
    printed w' = printed w ++ lit "copied=7 truncated=1 data=HEAD:bo" ++ [newline].
Proof.
  intros Hs Hi.
  assert (returns (ApiLab.main env [lit "msg"]) (View [] (net w) [] (outbox w) (printed w)) 0
    (View [] (net w) [] (outbox w)
          (printed w ++ ApiLab.message_line (take 7 (take 9 ApiLab.parts)) true))) as H.
  { unfold ApiLab.main, ApiLab.message, bind_local, bound_port. undisturbed. }
  destruct (H w) as (w' & E & Hv); [unfold view_of; by rewrite Hs, Hi|].
  exists w'. split; [done|]. injection Hv as _ _ H1 _ H2. split; [done|]. rewrite H2. by f_equal.
Qed.

(** *** nonblocking_connect.c *)

(** The command line is right. *)
Definition good_line (valid : bytes → bool) (argv : list bytes) : bool :=
  match argv with
  | [address; port; timeout] =>
      bool_decide (is_Some (ChatPoll.port_arg port)) && valid address &&
      bool_decide (is_Some (Connect.timeout_arg timeout))
  | _ => false
  end.
Definition connected (n : Connect.network) : bool :=
  match n with Connect.Immediate => true | Connect.Progress e => e =? 0 | _ => false end.

Lemma try_connect_reports n fd w :
  (∀ w', Connect.try_connect n fd w = Some (Done 0, w') → connected n = true) ∧
  (script w = [] → connected n = true → ∃ w', Connect.try_connect n fd w = Some (Done 0, w')).
Proof.
  unfold Connect.try_connect, retried, close, print, complain, modifies, call, mbind, comp_bind,
    mret, comp_ret.
  split.
  - intros w'. destruct n as [| |e|]; cbn; try done.
    + destruct (e =? 0); [done|].
      destruct (after_signals (script w)) as [|[] [|[] ?]]; cbn; done.
    + destruct (after_signals (script w)) as [|[] ?]; cbn; done.
  - intros Hs. destruct n as [| |e|]; cbn; try done; [by eexists|]. intros ->.
    rewrite Hs. cbn. by eexists.
Qed.

(** The program says that it is connected, and exits with 0, only when the network has
    made the connection, and then it does if no call fails. *)
Theorem connect_reports valid argv n w :
  (∀ w', Connect.main valid argv n w = Some (Done 0, w') →
     good_line valid argv = true ∧ connected n = true) ∧
  (script w = [] → good_line valid argv = true → connected n = true →
     ∃ w', Connect.main valid argv n w = Some (Done 0, w')).
Proof.
  unfold Connect.main, good_line.
  destruct argv as [|address [|port [|timeout [|]]]]; try by split.
  destruct (ChatPoll.port_arg port) as [p|]; [|by split].
  destruct (valid address); [|by split]. cbn [negb].
  destruct (Connect.timeout_arg timeout) as [t|]; [|by split].
  assert (∀ fd : Z, 0 <= fd → (fd <? 0) = false) as Hpos by (intros; by apply Z.ltb_ge).
  split.
  - intros w'. unfold socket, new_fd, call, mbind, comp_bind.
    destruct (match script w with Intr :: _ | Refuse :: _ => false | _ => true end); [|done].
    cbn. rewrite Hpos by (destruct (lowest_spec (open_fds w)); lia).
    intros H. split; [done|]. by eapply try_connect_reports.
  - intros Hs _ Hc. unfold socket, new_fd, call, mbind, comp_bind. rewrite Hs. cbn.
    rewrite Hpos by (destruct (lowest_spec (open_fds w)); lia).
    by apply try_connect_reports.
Qed.

(** *** io_cpp20.cpp *)

Lemma write_loop_spec l o s :
  match IoCpp.write_loop l o s with
  | (None, _, o') => o' = o ++ s
  | (Some _, _, o') => ∃ p, p `prefix_of` s ∧ o' = o ++ p
  end.
Proof.
  revert o s. induction l as [|[| |n] l IH]; intros o [|c s]; cbn [IoCpp.write_loop];
    try by rewrite app_nil_r.
  - done.
  - apply IH.
  - exists []. split; [apply prefix_nil|by rewrite app_nil_r].
  - destruct (Nat.eqb_spec (Nat.min n (length (c :: s))) 0) as [E|E].
    { exists []. split; [apply prefix_nil|by rewrite app_nil_r]. }
    set (k := Nat.min _ _) in *. specialize (IH (o ++ take k (c :: s)) (drop k (c :: s))).
    destruct (IoCpp.write_loop l _ _) as [[[e|] l'] o'].
    + destruct IH as (p & [q Hq] & ->). exists (take k (c :: s) ++ p).
      split; [|by rewrite (assoc_L (++))]. exists q. by rewrite <-(assoc_L (++)), <-Hq, take_drop.
    + by rewrite IH, <-(assoc_L (++)), take_drop.
Qed.

(** A new descriptor, or -1, which a kernel that refuses nothing does not answer. *)
Lemma open_answers w :
  ∃ fd w', IoCpp.open_file w = Some (Done fd, w') ∧ printed w' = printed w ∧
    (script w = [] → script w' = [] ∧ 0 <= fd).
Proof.
  destruct (lowest_spec (open_fds w)) as [_ Hl].
  unfold IoCpp.open_file, new_fd, call, mbind, comp_bind, mret, comp_ret, read, modifies.
  destruct (script w) as [|[| |n] l]; cbn; eexists _, _; (split; [reflexivity|]); split; try done.
  intros _. split; [done|lia].
Qed.

Section io_prints.
Context (f : IoCpp.file) (w : world).
Let data : bytes := take (Z.to_nat (IoCpp.st_size f)) (IoCpp.contents f).

(** Code that has printed nothing so far prints the file, or fails having printed a part of
    it, which a kernel that refuses nothing has no reason for. *)
Definition prints (m : comp world unit) : Prop := ∀ w0,
  printed w0 = printed w → (script w = [] → script w0 = []) →
  ∃ r w' p, m w0 = Some (r, w') ∧ p `prefix_of` data ∧ printed w' = printed w ++ p ∧
    match r with
    | Done _ => p = data ∧ IoCpp.is_regular f = true
    | Raised _ => script w = [] → IoCpp.is_regular f = true → False
    | _ => False
    end.

Lemma prints_fail what : (script w = [] → IoCpp.is_regular f = true → False) → prints (fail what).
Proof.
  intros H w0 Hp Hs. exists (Raised (RuntimeError (lit what))), w0, [].
  split_and!; [done|apply prefix_nil|by rewrite app_nil_r|done].
Qed.
Lemma prints_checked what k : prints k → prints (checked what ;; k).
Proof.
  intros Hk w0 Hp Hs. unfold checked, call. unfold mbind at 1 2. unfold comp_bind.
  destruct (script w0) as [|[| |n] l] eqn:E; cbn [check].
  - by apply Hk.
  - exists (Raised (RuntimeError (lit what))), (with_script l w0), [].
    split_and!; [done|apply prefix_nil|by rewrite app_nil_r|]. by intros Hn%Hs.
  - exists (Raised (RuntimeError (lit what))), (with_script l w0), [].
    split_and!; [done|apply prefix_nil|by rewrite app_nil_r|]. by intros Hn%Hs.
  - apply Hk; [done|]. by intros Hn%Hs.
Qed.
Lemma prints_scoped (g : world → world) d m :
  (∀ w0, d w0 = Some (Done (), g w0)) → (∀ w0, printed (g w0) = printed w0) →
  prints m → prints (scoped d m).
Proof.
  intros Hd Hg Hm w0 Hp Hs. destruct (Hm w0 Hp Hs) as (r & w1 & p & E & Hpre & Hp1 & Hr).
  unfold scoped. rewrite E. destruct r as [[]|e| |]; try done; rewrite Hd;
    (eexists _, _, p; split; [reflexivity|]); (split; [done|]); by rewrite Hg.
Qed.
Lemma prints_modifies g k :
  (∀ w0, printed (g w0) = printed w0 ∧ script (g w0) = script w0) → prints k → prints (modifies g ;; k).
Proof.
  intros Hg Hk w0 Hp Hs. destruct (Hg w0) as [H1 H2].
  apply (Hk (g w0)); [congruence|]. intros H. rewrite H2. auto.
Qed.
Lemma prints_write : IoCpp.is_regular f = true → prints (IoCpp.write_all data).
Proof.
  intros Hreg w0 Hp Hs. unfold IoCpp.write_all.
  pose proof (write_loop_spec (script w0) (printed w0) data) as H.
  destruct (script w0) as [|v l] eqn:E.
  - destruct (IoCpp.write_loop [] (printed w0) data) as [[[e|] l'] o'] eqn:E2.
    { destruct data; done. }
    exists (Done ()), (with_texts o' (err w0) (with_script l' w0)), data.
    split_and!; try done. cbn. by rewrite H, Hp.
  - destruct (IoCpp.write_loop (v :: l) (printed w0) data) as [[[e|] l'] o'].
    + destruct H as (p & Hpre & ->). eexists _, _, p. split; [reflexivity|]. rewrite <-Hp.
      split_and!; [done..|]. by intros Hn%Hs.
    + eexists _, _, data. split; [reflexivity|]. rewrite <-Hp. by split_and!.
Qed.
End io_prints.

(** The program ends; with 0 it has printed exactly the file, of a size that [fstat] has
    told; otherwise what it has printed is a prefix of that; and it succeeds on a regular
    file when the kernel refuses nothing. *)
Theorem io_prints_file name f w :
  0 <= IoCpp.st_size f →
  let data := take (Z.to_nat (IoCpp.st_size f)) (IoCpp.contents f) in
  ∃ c w' p, IoCpp.main [name] f w = Some (Done c, w') ∧ p `prefix_of` data ∧
    printed w' = printed w ++ p ∧ (c = 0 → p = data ∧ IoCpp.is_regular f = true) ∧
    (script w = [] → IoCpp.is_regular f = true → c = 0).
Proof.
  intros Hsz data.
  assert (∀ fd, (fd <? 0 = true → script w = [] → False) → prints f w (scoped (release fd) (
    check (negb (fd <? 0)) "open" ;;
    checked "fstat" ;;
    check (IoCpp.is_regular f) "input must be a regular file" ;;
    check (negb (IoCpp.st_size f <? 0)) "negative file size" ;;
    IoCpp.with_mapping f IoCpp.write_all))) as Hbody.
  { intros fd Hfd. apply (prints_scoped f w (λ w0, if 0 <=? fd then
      with_fds (open_fds w0 ∖ {[fd]}) (bad_close w0 || negb (bool_decide (fd ∈ open_fds w0))) w0 else w0)).
    { intros w0. unfold release. by destruct (0 <=? fd). }
    { intros w0. by destruct (0 <=? fd). }
    destruct (fd <? 0) eqn:E; [apply prints_fail; auto|]. cbn [negb check].
    apply (prints_checked f w). destruct (IoCpp.is_regular f) eqn:Er; [|by apply prints_fail; rewrite Er].
    rewrite (proj2 (Z.ltb_ge (IoCpp.st_size f) 0)) by done.
    change (prints f w (IoCpp.with_mapping f IoCpp.write_all)). unfold IoCpp.with_mapping.
    destruct (Z.eqb_spec (IoCpp.st_size f) 0) as [E0|E0].
    - pose proof (prints_write f w Er) as H. by rewrite E0 in H.
    - apply (prints_checked f w "mmap" (modifies (λ w, with_held (held w + 1) w) ;; _)).
      apply prints_modifies; [done|].
      apply (prints_scoped f w (λ w, with_held (held w - 1) w)); [done..|]. by apply prints_write. }
  assert (∃ r w' p, (fd ← IoCpp.open_file; owning fd (λ fd,
    check (negb (fd <? 0)) "open" ;;
    checked "fstat" ;;
    check (IoCpp.is_regular f) "input must be a regular file" ;;
    check (negb (IoCpp.st_size f <? 0)) "negative file size" ;;
    IoCpp.with_mapping f IoCpp.write_all)) w = Some (r, w') ∧ p `prefix_of` data ∧
    printed w' = printed w ++ p ∧
    match r with
    | Done _ => p = data ∧ IoCpp.is_regular f = true
    | Raised _ => script w = [] → IoCpp.is_regular f = true → False
    | _ => False
    end) as (r & w' & p & E & Hpre & Hp & Hr).
  { destruct (open_answers w) as (fd & w1 & E & H1 & H2).
    unfold mbind at 1. unfold comp_bind at 1. rewrite E.
    apply (Hbody fd); [|done|intros Hs; by apply H2].
    intros Hn Hs. apply Z.ltb_lt in Hn. destruct (H2 Hs). lia. }
  unfold IoCpp.main, guarded, catching. unfold mbind at 1. unfold comp_bind at 1. rewrite E.
  destruct r as [[]|e| |]; try done.
  - exists 0, w', p. by split_and!.
  - eexists 1, _, p. split; [reflexivity|]. split_and!; [done..|]. intros. by destruct Hr.
Qed.

(** ** Runs *)

(** A process of its own, with a stream that is cut and interrupted. *)
Definition at_start (i : bytes) (box : list (Z * bytes)) : world :=
  World [] ∅ false 0 (NetFrame.World (Interrupted :: replicate 16 (Some_bytes 2)) [] i) box [] [] [].

Lemma tcp_exchange_witness :
  ∃ wc' ws', Tcp.main [lit "client"; lit "7000"; lit "hi"] 7000 (at_start (frame_bytes (lit "hi")) [])
      = Some (Done 0, wc') ∧
    Tcp.main [lit "server"; lit "7000"] 7000 (at_start (frame_bytes (lit "hi")) []) = Some (Done 0, ws') ∧
    out (net wc') = frame_bytes (lit "hi") ∧ out (net ws') = frame_bytes (lit "hi") ∧
    printed wc' = lit "hi" ++ [newline].
Proof.
  apply (tcp_exchange (lit "7000") 7000 (lit "hi") 7000 (at_start (frame_bytes (lit "hi")) [])
    (at_start (frame_bytes (lit "hi")) []) (Interrupted :: replicate 16 (Some_bytes 2))
    (Interrupted :: replicate 16 (Some_bytes 2)));
    try reflexivity; try (vm_compute; done);
    try (repeat (constructor; [vm_compute; try done; lia|]); by constructor); vm_compute; lia.
Defined.

Lemma udp_exchange_witness :
  ∃ wc' ws', Udp.main [lit "client"; lit "7000"; lit "hi"] 7000 (at_start [] [(7000, lit "hi")])
      = Some (Done 0, wc') ∧
    Udp.main [lit "server"; lit "7000"] 7000 (at_start [] [(40000, lit "hi")]) = Some (Done 0, ws') ∧
    outbox wc' = [(7000, lit "hi")] ∧ outbox ws' = [(40000, lit "hi")] ∧
    printed wc' = lit "hi" ++ [newline].
Proof.
  apply (udp_exchange (lit "7000") 7000 (lit "hi") 7000 40000 (at_start [] [(40000, lit "hi")])
    (at_start [] [(7000, lit "hi")]) []); try reflexivity; vm_compute; done.
Defined.

Definition environment_at_start : ApiLab.environment :=
  ApiLab.Environment (λ _ _, None) None (λ _, 0) (0, 0) 40000.

Lemma oob_marks_urgent_witness :
  ∃ w', ApiLab.main environment_at_start [lit "oob"] (at_start [] []) = Some (Done 0, w') ∧
    printed w' = oob_lines.
Proof.
  apply (oob_marks_urgent environment_at_start (at_start [] []) (Interrupted :: replicate 16 (Some_bytes 2)));
    try reflexivity;
    try (repeat (constructor; [vm_compute; try done; lia|]); by constructor); vm_compute; lia.
Defined.

Lemma message_truncates_witness :
  ∃ w', ApiLab.main environment_at_start [lit "msg"] (at_start [] []) = Some (Done 0, w') ∧
    inbox w' = [] ∧ printed w' = lit "copied=7 truncated=1 data=HEAD:bo" ++ [newline].
Proof. apply (message_truncates environment_at_start (at_start [] [])); reflexivity. Defined.

Lemma io_prints_file_witness :
  ∃ c w' p, IoCpp.main [lit "f"] (IoCpp.File true 2 (lit "hi")) (at_start [] []) = Some (Done c, w') ∧
    p `prefix_of` lit "hi" ∧ printed w' = p ∧ (c = 0 → p = lit "hi" ∧ true = true) ∧
    ([] = @nil verdict → true = true → c = 0).
Proof.
  apply (io_prints_file (lit "f") (IoCpp.File true 2 (lit "hi")) (at_start [] [])). vm_compute. done.
Defined.
