(* ===== verification/SelectPoll.v ===== *)
(** * The echo server on select and on poll (select_poll.c)

    One thread and blocking sockets: a table of 128 clients, a TCP and a UDP socket, and a
    loop around [select] or [poll].  The kernel holds what the peers have sent; a run is a
    list of rounds, each with what arrives while the server waits.  The theorems: both
    loops are one reference loop on the table, whose table names the open connections and
    which sends back what it reads; [select] needs small descriptors for that. *)

From stdpp Require Import base numbers gmap list strings.
From Stdlib Require Import Ascii ZArith Lia.
From S2P Require Import Prelude CxxString IoMux ChatPoll.

Local Open Scope Z_scope.
#[local] Arguments Z.of_nat : simpl never.

(** ** The kernel *)

(** A connection: what has arrived and is unread, whether the peer has shut its side down
    or reset the connection.  [taken] is what [recv] has returned and [delivered] what
    [send] has taken, from the beginning. *)
Record conn := Conn {
  unread : bytes;
  fin : bool;
  reset : bool;
  taken : bytes;
  delivered : bytes
}.

(** What the kernel does at a call on a socket: interrupt or fail it, let it wait for ever
    (a peer that takes nothing), or move at most [n] bytes. *)
Inductive answer := Signal | Error | Stall | Move (n : nat).

(** [oks]: which of the calls of the set-up succeed; [replies]: which calls of [sendto].
    [others]: the open descriptors that are not connections; [gone]: the connections that
    have been closed, each with the number of connections that were open until then;
    [asked] and [answered]: all datagrams in and out. *)
Record kernel := Kernel {
  answers : list answer;
  oks : list bool;
  replies : list bool;
  others : gset Z;
  conns : gmap Z conn;
  gone : list (conn * nat);
  backlog : list conn;
  dgrams : list (Z * bytes);
  asked : list (Z * bytes);
  answered : list (Z * bytes);
  bad_close : bool;
  log : list bytes
}.

Definition with_answers (l : list answer) (k : kernel) : kernel :=
  Kernel l (oks k) (replies k) (others k) (conns k) (gone k) (backlog k) (dgrams k) (asked k)
         (answered k) (bad_close k) (log k).
Definition with_oks (l : list bool) (k : kernel) : kernel :=
  Kernel (answers k) l (replies k) (others k) (conns k) (gone k) (backlog k) (dgrams k) (asked k)
         (answered k) (bad_close k) (log k).
Definition with_others (X : gset Z) (k : kernel) : kernel :=
  Kernel (answers k) (oks k) (replies k) X (conns k) (gone k) (backlog k) (dgrams k) (asked k)
         (answered k) (bad_close k) (log k).
Definition with_conns (m : gmap Z conn) (k : kernel) : kernel :=
  Kernel (answers k) (oks k) (replies k) (others k) m (gone k) (backlog k) (dgrams k) (asked k)
         (answered k) (bad_close k) (log k).
Definition with_gone (l : list (conn * nat)) (k : kernel) : kernel :=
  Kernel (answers k) (oks k) (replies k) (others k) (conns k) l (backlog k) (dgrams k) (asked k)
         (answered k) (bad_close k) (log k).
Definition with_backlog (l : list conn) (k : kernel) : kernel :=
  Kernel (answers k) (oks k) (replies k) (others k) (conns k) (gone k) l (dgrams k) (asked k)
         (answered k) (bad_close k) (log k).
Definition with_dgrams (l asks : list (Z * bytes)) (k : kernel) : kernel :=
  Kernel (answers k) (oks k) (replies k) (others k) (conns k) (gone k) (backlog k) l asks
         (answered k) (bad_close k) (log k).
Definition with_answered (rs : list bool) (l : list (Z * bytes)) (k : kernel) : kernel :=
  Kernel (answers k) (oks k) rs (others k) (conns k) (gone k) (backlog k) (dgrams k) (asked k)
         l (bad_close k) (log k).
Definition with_bad_close (b : bool) (k : kernel) : kernel :=
  Kernel (answers k) (oks k) (replies k) (others k) (conns k) (gone k) (backlog k) (dgrams k) (asked k)
         (answered k) b (log k).
(** [printf] and [perror], the latter without the system's part *)
Definition say (s : bytes) (k : kernel) : kernel :=
  Kernel (answers k) (oks k) (replies k) (others k) (conns k) (gone k) (backlog k) (dgrams k) (asked k)
         (answered k) (bad_close k) (log k ++ [s]).

Definition open_fds (k : kernel) : gset Z := others k ∪ dom (conns k).
Definition next (k : kernel) : option answer * kernel :=
  (head (answers k), with_answers (tail (answers k)) k).

(** A call that waits has no result. *)
Inductive result (A : Type) := Answer (a : A) | Fails (e : errno) | Waits.
Arguments Answer {A} a.
Arguments Fails {A} e.
Arguments Waits {A}.

Definition accept (k : kernel) : result Z * kernel :=
  let '(a, k) := next k in
  match a with
  | Some Signal => (Fails EINTR, k)
  | Some Error => (Fails Eother, k)
  | _ =>
      match backlog k with
      | [] => (Waits, k)
      | c :: b =>
          let fd := lowest (open_fds k) in
          (Answer fd, with_backlog b (with_conns (<[fd := c]> (conns k)) k))
      end
  end.

Definition read_some (n : nat) (c : conn) : conn :=
  Conn (drop n (unread c)) (fin c) (reset c) (taken c ++ take n (unread c)) (delivered c).
Definition deliver (s : bytes) (c : conn) : conn :=
  Conn (unread c) (fin c) (reset c) (taken c) (delivered c ++ s).

(** [recv(fd, buf, sizeof buf, 0)]: no bytes is the end of the input. *)
Definition BUFFER : nat := N.to_nat 4096.
Definition recv (fd : Z) (k : kernel) : result bytes * kernel :=
  let '(a, k) := next k in
  match a with
  | Some Signal => (Fails EINTR, k)
  | Some Error => (Fails Eother, k)
  | _ =>
      match conns k !! fd with
      | None => (Fails Eother, k)
      | Some c =>
          if reset c then (Fails Eother, k)
          else
            match unread c with
            | [] => (if fin c then Answer [] else Waits, k)
            | _ :: _ =>
                let most := Nat.min BUFFER (length (unread c)) in
                let n := match a with Some (Move n) => Nat.min (Nat.max 1 n) most | _ => most end in
                (Answer (take n (unread c)), with_conns (<[fd := read_some n c]> (conns k)) k)
            end
      end
  end.

(** [send(fd, data, size, MSG_NOSIGNAL)] *)
Definition send (fd : Z) (data : bytes) (k : kernel) : result nat * kernel :=
  let '(a, k) := next k in
  match a with
  | Some Signal => (Fails EINTR, k)
  | Some Error => (Fails Eother, k)
  | Some Stall => (Waits, k)
  | _ =>
      match conns k !! fd with
      | None => (Fails Eother, k)
      | Some c =>
          if reset c then (Fails Eother, k)
          else
            let n := match a with Some (Move n) => Nat.min n (length data) | _ => length data end in
            (Answer n, with_conns (<[fd := deliver (take n data) c]> (conns k)) k)
      end
  end.

Definition close (fd : Z) (k : kernel) : kernel :=
  match conns k !! fd with
  | Some c => with_gone (gone k ++ [(c, base.size (conns k))]) (with_conns (delete fd (conns k)) k)
  | None =>
      if bool_decide (fd ∈ others k) then with_others (others k ∖ {[fd]}) k
      else with_bad_close true k
  end.

(** [fcntl(fd, F_GETFD) == -1 && errno == EBADF] *)
Definition is_closed (fd : Z) (k : kernel) : bool := negb (bool_decide (fd ∈ open_fds k)).

(** [recvfrom] into [BUFFER] bytes, which cut a longer datagram. *)
Definition cut (d : Z * bytes) : Z * bytes := (d.1, take BUFFER d.2).
Definition recvfrom (k : kernel) : result (Z * bytes) * kernel :=
  let '(a, k) := next k in
  match a with
  | Some Signal => (Fails EINTR, k)
  | Some Error => (Fails Eother, k)
  | _ =>
      match dgrams k with
      | [] => (Waits, k)
      | d :: l => (Answer (cut d), with_dgrams l (asked k) k)
      end
  end.
Definition sendto (d : Z * bytes) (k : kernel) : bool * kernel :=
  let ok := default true (head (replies k)) in
  (ok, with_answered (tail (replies k)) (if ok then answered k ++ [d] else answered k) k).

(** A call that only succeeds or fails. *)
Definition syscall (k : kernel) : bool * kernel :=
  (default true (head (oks k)), with_oks (tail (oks k)) k).

(** *** What happens outside the server *)

Inductive arrival :=
  | Connects (first : bytes)
  | Sends (fd : Z) (s : bytes)
  | Shuts (fd : Z)
  | Resets (fd : Z)
  | Asks (peer : Z) (s : bytes).

Definition on_conn (fd : Z) (f : conn → conn) (k : kernel) : kernel :=
  match conns k !! fd with
  | Some c => if reset c then k else with_conns (<[fd := f c]> (conns k)) k
  | None => k
  end.
Definition arrive (k : kernel) (a : arrival) : kernel :=
  match a with
  | Connects s => with_backlog (backlog k ++ [Conn s false false [] []]) k
  | Sends fd s => on_conn fd (λ c, if fin c then c else
      Conn (unread c ++ s) (fin c) (reset c) (taken c) (delivered c)) k
  | Shuts fd => on_conn fd (λ c, Conn (unread c) true (reset c) (taken c) (delivered c)) k
  | Resets fd => on_conn fd (λ c, Conn (unread c) (fin c) true (taken c) (delivered c)) k
  | Asks peer s => with_dgrams (dgrams k ++ [(peer, s)]) (asked k ++ [(peer, s)]) k
  end.

(** A wait ends with an error, or when something is ready. *)
Inductive waited := Interrupted | WaitFails | Wakes.
Record round := Round { arrivals : list arrival; wait : waited }.

Definition nonempty {A} (l : list A) : bool := match l with [] => false | _ => true end.
Definition conn_ready (c : conn) : bool := nonempty (unread c) || fin c || reset c.

(** ** Code with a local state *)

(** A run has a value, is in a call that waits for ever, still runs when the rounds are
    used up, has returned from [main], or is undefined. *)
Inductive ends (A : Type) := Go (a : A) | Blocked | Running | Exit (code : Z) | Bad.
Arguments Go {A} a.
Arguments Blocked {A}.
Arguments Running {A}.
Arguments Exit {A} code.
Arguments Bad {A}.

(** [None] is a loop that has not ended within its fuel. *)
Definition step (L A : Type) : Type := L * kernel → option (ends A * (L * kernel)).
#[export] Instance step_ret {L} : MRet (step L) := λ A a w, Some (Go a, w).
#[export] Instance step_bind {L} : MBind (step L) := λ A B f m w,
  match m w with
  | None => None
  | Some (Go a, w') => f a w'
  | Some (Blocked, w') => Some (Blocked, w')
  | Some (Running, w') => Some (Running, w')
  | Some (Exit c, w') => Some (Exit c, w')
  | Some (Bad, w') => Some (Bad, w')
  end.
Definition local {L} : step L L := λ w, Some (Go w.1, w).
Definition gets {L A} (f : kernel → A) : step L A := λ w, Some (Go (f w.2), w).
Definition set_local {L} (l : L) : step L unit := λ w, Some (Go (), (l, w.2)).
Definition sys {L A} (f : kernel → A * kernel) : step L A := λ w,
  Some (Go (f w.2).1, (w.1, (f w.2).2)).
Definition does {L} (f : kernel → kernel) : step L unit := λ w, Some (Go (), (w.1, f w.2)).
Definition ending {L A} (e : ends A) : step L A := λ w, Some (e, w).

(** ** echo_tcp_once *)

(** [do n = recv(...); while (n < 0 && errno == EINTR)] *)
Fixpoint recv_retried (fuel : nat) {L} (fd : Z) : step L (result bytes) :=
  match fuel with
  | O => λ _, None
  | S fuel =>
      r ← sys (recv fd);
      match r with Fails EINTR => recv_retried fuel fd | r => mret r end
  end.

(** The loop around [send], which closes [fd] when it gives up. *)
Fixpoint send_rest (fuel : nat) {L} (fd : Z) (data : bytes) : step L unit :=
  match fuel with
  | O => λ _, None
  | S fuel =>
      match data with
      | [] => mret ()
      | _ :: _ =>
          r ← sys (send fd data);
          match r with
          | Waits => ending Blocked
          | Fails EINTR => send_rest fuel fd data
          | Fails _ => does (say (lit "send")) ;; does (close fd)
          | Answer O => does (close fd)
          | Answer n => send_rest fuel fd (drop n data)
          end
      end
  end.

Definition echo_tcp_once {L} (fd : Z) : step L unit :=
  k ← gets id;
  r ← recv_retried (S (length (answers k))) fd;
  match r with
  | Waits => ending Blocked
  | Fails _ | Answer [] => does (close fd)
  | Answer s => k ← gets id; send_rest (S (length (answers k) + length s)) fd s
  end.

(** The UDP socket. *)
Definition echo_datagram {L} : step L unit :=
  r ← sys recvfrom;
  match r with
  | Waits => ending Blocked
  | Fails _ => mret ()
  | Answer d => ok ← sys (sendto d); if (ok : bool) then mret () else does (say (lit "sendto"))
  end.

(** ** run_select *)

Definition CLIENT_MAX : nat := 128.
Definition FD_SETSIZE : Z := 1024.

(** [for (i = 0; i < CLIENT_MAX; i++) if (clients[i] < 0) break;] *)
Definition first_free (clients : list Z) : option nat := fst <$> list_find (λ fd, fd < 0) clients.

Definition accepted {L} (add : Z → step L unit) : step L unit :=
  r ← sys accept;
  match r with
  | Waits => ending Blocked
  | Fails EINTR => mret ()
  | Fails _ => does (say (lit "accept"))
  | Answer fd => add fd
  end.
Definition select_add (fd : Z) : step (list Z) unit :=
  clients ← local;
  match first_free clients with
  | None => does (close fd)
  | Some i => set_local (<[i := fd]> clients)
  end.

(** [FD_SET] of each client, undefined outside the set, and the largest descriptor. *)
Fixpoint fd_sets (clients : list Z) (reads : gset Z) (maxfd : Z) : ends (gset Z * Z) :=
  match clients with
  | [] => Go (reads, maxfd)
  | fd :: clients =>
      if fd <? 0 then fd_sets clients reads maxfd
      else if fd <? FD_SETSIZE then fd_sets clients ({[fd]} ∪ reads) (Z.max maxfd fd)
      else Bad
  end.
(** [FD_ISSET], undefined outside the set *)
Definition fd_isset {L} (reads : gset Z) (fd : Z) : step L bool :=
  if fd <? FD_SETSIZE then mret (bool_decide (fd ∈ reads)) else ending Bad.

Fixpoint select_scan (slots : list nat) (reads : gset Z) : step (list Z) unit :=
  match slots with
  | [] => mret ()
  | i :: slots =>
      clients ← local;
      let fd := default (-1) (clients !! i) in
      b ← (if 0 <=? fd then fd_isset reads fd else mret false);
      (if (b : bool) then
        echo_tcp_once fd ;;
        closed ← gets (is_closed fd);
        if (closed : bool) then clients ← local; set_local (<[i := -1]> clients) else mret ()
      else mret ()) ;;
      select_scan slots reads
  end.

Section serving.
Variables listener udp : Z.

(** Readable, as [select] and [poll] see it. *)
Definition readable (k : kernel) (fd : Z) : bool :=
  match conns k !! fd with
  | Some c => conn_ready c
  | None => (bool_decide (fd = listener) && nonempty (backlog k)) ||
            (bool_decide (fd = udp) && nonempty (dgrams k))
  end.

(** [select(maxfd + 1, &reads, ...)]: what is left in the set; [None] while nothing is. *)
Definition select (reads : gset Z) (maxfd : Z) (k : kernel) : option (gset Z) :=
  let left_ := filter (λ fd, fd < maxfd + 1 ∧ readable k fd = true) reads in
  if bool_decide (left_ = ∅) then None else Some left_.

Definition select_turn (r : waited) : step (list Z) unit :=
  clients ← local;
  '(reads, maxfd) ← ending (fd_sets clients {[listener; udp]} (Z.max listener udp));
  match r with
  | Interrupted => mret ()
  | WaitFails => does (say (lit "select")) ;; ending (Exit 1)
  | Wakes =>
      ready ← gets (select reads maxfd);
      match ready with
      | None => mret ()
      | Some reads =>
          l ← fd_isset reads listener;
          (if (l : bool) then accepted select_add else mret ()) ;;
          u ← fd_isset reads udp;
          (if (u : bool) then echo_datagram else mret ()) ;;
          select_scan (seq 0 CLIENT_MAX) reads
      end
  end.

(** [for (;;)] around one turn. *)
Fixpoint loop {L} (turn : waited → step L unit) (rs : list round) : step L unit :=
  match rs with
  | [] => ending Running
  | r :: rs => does (λ k, foldl arrive k (arrivals r)) ;; turn (wait r) ;; loop turn rs
  end.

Definition run_select (rs : list round) : step (list Z) unit :=
  set_local (replicate CLIENT_MAX (-1)) ;; loop select_turn rs.

(** ** run_poll *)

Definition POLLIN : Z := 1.
Definition POLLERR : Z := 8.
Definition POLLHUP : Z := 16.
Definition POLLNVAL : Z := 32.
Record pollfd := Pollfd { pfd : Z; revents : Z }.
Definition has (flags mask : Z) : bool := negb (Z.land flags mask =? 0).
Definition bits (b : bool) (mask : Z) : Z := if b then mask else 0.

(** What [poll] writes to [revents]; negative descriptors are skipped. *)
Definition revents_of (k : kernel) (fd : Z) : Z :=
  if fd <? 0 then 0
  else if is_closed fd k then POLLNVAL
  else
    Z.lor (bits (readable k fd) POLLIN)
          (bits (match conns k !! fd with Some c => reset c | None => false end) (Z.lor POLLERR POLLHUP)).
Definition polled (k : kernel) (p : pollfd) : pollfd := Pollfd (pfd p) (revents_of k (pfd p)).
(** The table once [poll] has returned; [None] while nothing is ready. *)
Definition poll (fds : list pollfd) (k : kernel) : option (list pollfd) :=
  let fds := polled k <$> fds in
  if forallb (λ p, revents p =? 0) fds then None else Some fds.

Definition poll_add (fd : Z) : step (list pollfd) unit :=
  fds ← local;
  match first_free (pfd <$> drop 2 fds) with
  | None => does (close fd)
  | Some i => set_local (<[S (S i) := Pollfd fd 0]> fds)
  end.

Fixpoint poll_scan (slots : list nat) : step (list pollfd) unit :=
  match slots with
  | [] => mret ()
  | i :: slots =>
      fds ← local;
      let p := default (Pollfd (-1) 0) (fds !! i) in
      (if (0 <=? pfd p) && negb (revents p =? 0) then
        if has (revents p) (Z.lor POLLIN (Z.lor POLLHUP POLLERR)) then
          echo_tcp_once (pfd p) ;;
          closed ← gets (is_closed (pfd p));
          if (closed : bool)
          then fds ← local; set_local (<[i := Pollfd (-1) (revents p)]> fds)
          else mret ()
        else mret ()
      else mret ()) ;;
      poll_scan slots
  end.

Definition poll_turn (r : waited) : step (list pollfd) unit :=
  match r with
  | Interrupted => mret ()
  | WaitFails => does (say (lit "poll")) ;; ending (Exit 1)
  | Wakes =>
      fds ← local;
      ready ← gets (poll fds);
      match ready with
      | None => mret ()
      | Some fds =>
          set_local fds ;;
          (if has (default 0 (revents <$> fds !! 0%nat)) POLLIN then accepted poll_add else mret ()) ;;
          (if has (default 0 (revents <$> fds !! 1%nat)) POLLIN then echo_datagram else mret ()) ;;
          poll_scan (seq 2 CLIENT_MAX)
      end
  end.

Definition run_poll (rs : list round) : step (list pollfd) unit :=
  set_local (Pollfd listener 0 :: Pollfd udp 0 :: replicate CLIENT_MAX (Pollfd (-1) 0)) ;;
  loop poll_turn rs.

End serving.

(** ** main *)

(** [Some port], or [None] for -1; [errno] is set when the number does not fit. *)
Definition parse_port (s : bytes) : option Z :=
  let '(n, rest) := strtoul s in
  let overflow := match (scan_int (skip_spaces s)).1 with
                  | Some v => ULONG_MAX <? Z.abs v | None => false end in
  if overflow || bool_decide (s = []) || negb (bool_decide (rest = [])) || (65535 <? n)
  then None else Some n.

(** The descriptor, or -1. *)
Definition make_bound_socket : step unit Z :=
  ok ← sys syscall;
  if negb ok then does (say (lit "socket")) ;; mret (-1)
  else
    fd ← gets (λ k, lowest (open_fds k));
    does (λ k, with_others ({[fd]} ∪ others k) k) ;;
    ok ← sys syscall;
    if negb ok then does (say (lit "setsockopt")) ;; does (close fd) ;; mret (-1)
    else
      ok ← sys syscall;
      if negb ok then does (say (lit "bind")) ;; does (close fd) ;; mret (-1)
      else mret fd.

(** A function with a local state of its own. *)
Definition calling {L A} (l : L) (m : step L A) : step unit A := λ w,
  match m (l, w.2) with Some (e, (_, k)) => Some (e, (w.1, k)) | None => None end.

(** [argv] without the program's name. *)
Definition main (argv : list bytes) (rs : list round) : step unit unit :=
  match argv with
  | [mode; port] =>
      match parse_port port with
      | None => does (say (lit "invalid port")) ;; ending (Exit 2)
      | Some p =>
          tcp ← make_bound_socket;
          udp ← make_bound_socket;
          if (tcp <? 0) || (udp <? 0) then ending (Exit 1)
          else
            ok ← sys syscall;
            if negb ok then does (say (lit "listen")) ;; ending (Exit 1)
            else
              does (say (lit "TCP+UDP echo on 127.0.0.1:" ++ show_int p ++ lit " (Ctrl+C to stop)" ++ [newline])) ;;
              if str_eqb mode (lit "select") then
                if (FD_SETSIZE <=? tcp) || (FD_SETSIZE <=? udp)
                then does (say (lit "fd exceeds FD_SETSIZE; select cannot watch it")) ;; ending (Exit 1)
                else calling [] (run_select tcp udp rs)
              else if str_eqb mode (lit "poll") then calling [] (run_poll tcp udp rs)
              else does (say (lit "mode must be select or poll")) ;; ending (Exit 2)
      end
  | _ => does (say (lit "usage: select_poll select|poll PORT")) ;; ending (Exit 2)
  end.

(** ** Code that leaves its local state alone *)

(** The same on any local state, which it keeps. *)
Definition alike {L1 L2 A} (m1 : step L1 A) (m2 : step L2 A) : Prop := ∀ l1 l2 k,
  match m1 (l1, k), m2 (l2, k) with
  | Some (e1, (l1', k1)), Some (e2, (l2', k2)) => e1 = e2 ∧ k1 = k2 ∧ l1' = l1 ∧ l2' = l2
  | None, None => True
  | _, _ => False
  end.

Section alike.
Context {L1 L2 : Type}.
Lemma alike_bind {A B} (m1 : step L1 A) (m2 : step L2 A) (f1 : A → step L1 B) (f2 : A → step L2 B) :
  alike m1 m2 → (∀ a, alike (f1 a) (f2 a)) → alike (m1 ≫= f1) (m2 ≫= f2).
Proof.
  intros Hm Hf l1 l2 k. specialize (Hm l1 l2 k). unfold mbind, step_bind.
  destruct (m1 (l1, k)) as [[e1 [l1' k1]]|], (m2 (l2, k)) as [[e2 [l2' k2]]|]; try done.
  destruct Hm as (-> & -> & -> & ->). destruct e2; try done. apply Hf.
Qed.
Lemma alike_ret {A} (a : A) : alike (L1 := L1) (L2 := L2) (mret a) (mret a).
Proof. done. Qed.
Lemma alike_sys {A} (f : kernel → A * kernel) : alike (L1 := L1) (L2 := L2) (sys f) (sys f).
Proof. done. Qed.
Lemma alike_does f : alike (L1 := L1) (L2 := L2) (does f) (does f).
Proof. done. Qed.
Lemma alike_gets {A} (f : kernel → A) : alike (L1 := L1) (L2 := L2) (gets f) (gets f).
Proof. done. Qed.
Lemma alike_ending {A} (e : ends A) : alike (L1 := L1) (L2 := L2) (ending e) (ending e).
Proof. done. Qed.
End alike.

Create HintDb alike.
#[export] Hint Resolve alike_bind alike_ret alike_sys alike_does alike_gets alike_ending : alike.
Ltac alike := repeat first [progress intros | solve [auto with alike] | apply alike_bind | progress case_match].

Lemma alike_echo {L1 L2} fd : alike (L1 := L1) (L2 := L2) (echo_tcp_once fd) (echo_tcp_once fd).
Proof.
  assert (∀ fuel, alike (L1 := L1) (L2 := L2) (recv_retried fuel fd) (recv_retried fuel fd)) as Hr.
  { intros fuel. induction fuel; cbn [recv_retried]; [done|alike]. }
  assert (∀ fuel data, alike (L1 := L1) (L2 := L2) (send_rest fuel fd data) (send_rest fuel fd data)) as Hs.
  { intros fuel. induction fuel; intros; cbn [send_rest]; [done|alike]. }
  unfold echo_tcp_once. alike.
Qed.
Lemma alike_datagram {L1 L2} : alike (L1 := L1) (L2 := L2) echo_datagram echo_datagram.
Proof. unfold echo_datagram. alike. Qed.

Lemma step_go {L A B} (m : step L A) (f : A → step L B) w a w' :
  m w = Some (Go a, w') → (m ≫= f) w = f a w'.
Proof. intros E. unfold mbind, step_bind. by rewrite E. Qed.

(** ** What is left to do *)

(** Each open connection counts one more than its unread bytes, so that accepting,
    reading and closing all make the load smaller; so does an answer used up. *)
Definition weight (c : conn) : nat := S (length (unread c)).
Definition part (k : kernel) (fd : Z) : nat :=
  length (answers k) + match conns k !! fd with Some c => weight c | None => 0 end.
Definition conns_load (m : gmap Z conn) : nat := map_fold (λ _ c n, (weight c + n)%nat) 0%nat m.
Definition load (k : kernel) : nat :=
  length (answers k) + list_sum ((λ c, S (weight c)) <$> backlog k) + conns_load (conns k) +
  length (dgrams k).

Lemma conns_load_delete m fd :
  conns_load m = (match m !! fd with Some c => weight c | None => 0 end + conns_load (delete fd m))%nat.
Proof.
  destruct (m !! fd) as [c|] eqn:E; [|by rewrite delete_id].
  unfold conns_load. rewrite (map_fold_delete_L _ _ fd c m); [done| |done]. intros. lia.
Qed.

Ltac part_cases k fd :=
  unfold part, next; destruct (answers k) as [|[| | |?n] ?l] eqn:?; cbn -[BUFFER];
  destruct (conns k !! fd) as [?c|] eqn:?; cbn -[BUFFER];
  try (destruct (reset _) eqn:?; cbn -[BUFFER]);
  rewrite ?lookup_insert_eq; simplify_option_eq.

Lemma conns_load_insert_None m fd c :
  m !! fd = None → conns_load (<[fd := c]> m) = (weight c + conns_load m)%nat.
Proof.
  intros E. rewrite (conns_load_delete (<[fd := c]> m) fd), lookup_insert_eq, delete_insert_id by done. done.
Qed.

(** An answer used up is a step. *)
Lemma load_next k : answers k <> [] → (load (with_answers (tail (answers k)) k) < load k)%nat.
Proof.
  intros Hn. unfold load. cbn [answers with_answers backlog conns dgrams].
  destruct (answers k); [done|]. cbn [tail length]. lia.
Qed.

Lemma send_part fd data k : (part (send fd data k).2 fd <= part k fd)%nat.
Proof. unfold send. part_cases k fd; unfold weight; cbn; lia. Qed.

Lemma close_part fd k : (part (close fd k) fd <= length (answers k))%nat.
Proof.
  unfold close. destruct (conns k !! fd) as [c|] eqn:E; [unfold part; cbn; rewrite lookup_delete_eq; lia|].
  case_bool_decide; unfold part; cbn; rewrite E; lia.
Qed.

Lemma send_rest_part {L} fuel fd data (w : L * kernel) e w' :
  send_rest fuel fd data w = Some (e, w') → (part w'.2 fd <= part w.2 fd)%nat.
Proof.
  revert data w. induction fuel as [|fuel IH]; intros data w; [done|].
  cbn [send_rest]. destruct data as [|x data]; [by intros [= _ <-]|].
  unfold mbind, step_bind, sys, does, ending. cbn [fst snd].
  pose proof (send_part fd (x :: data) w.2) as Hs.
  destruct (send fd (x :: data) w.2) as [r k1]. cbn [fst snd] in *.
  pose proof (close_part fd k1) as Hc.
  assert (∀ s, part (close fd (say s k1)) fd <= length (answers k1))%nat as Hc'
    by (intros s; exact (close_part fd (say s k1))).
  assert (length (answers k1) <= part k1 fd)%nat by (unfold part; lia).
  destruct r as [[|n]|[]|].
  - intros [= _ <-]. cbn [fst snd]. lia.
  - intros Hr%IH. cbn [fst snd] in *. lia.
  - intros Hr%IH. cbn [fst snd] in *. lia.
  - intros [= _ <-]. etrans; [apply Hc'|lia].
  - intros [= _ <-]. etrans; [apply Hc'|lia].
  - intros [= _ <-]. cbn [fst snd]. lia.
Qed.

(** [recv] makes progress, or finds the end of a connection that is open. *)
Lemma recv_part fd k c :
  conns k !! fd = Some c → conn_ready c = true →
  let '(r, k1) := recv fd k in
  (part k1 fd < part k fd)%nat ∨
  (part k1 fd = part k fd ∧ conns k1 !! fd = Some c ∧
   (r = Answer [] ∨ r = Fails Eother)).
Proof.
  intros Hc Hr. unfold conn_ready in Hr.
  assert (∀ l n, (1 <= n)%nat → unread c <> [] → (length l <= length (answers k))%nat →
    (part (with_conns (<[fd := read_some n c]> (conns k)) (with_answers l k)) fd < part k fd)%nat) as Hread.
  { intros l n Hn Hu Hl. unfold part, weight. cbn. rewrite lookup_insert_eq, Hc. cbn.
    rewrite length_drop. destruct (unread c); [done|]. cbn. lia. }
  unfold recv, next. destruct (answers k) as [|[| | |n] l] eqn:Ea; cbn -[BUFFER part]; rewrite ?Hc.
  2, 3: left; unfold part; cbn; rewrite Ea; cbn; lia.
  1: destruct (reset c) eqn:Er; [right; unfold part; cbn; rewrite Ea; by split_and!; auto|].
  1: destruct (unread c) as [|x u] eqn:Eu.
  1: { right. destruct (fin c); [|done]. unfold part; cbn; rewrite Ea. by split_and!; auto. }
  2, 3: destruct (reset c); [left; unfold part; cbn; rewrite Ea; cbn; lia|];
    destruct (unread c) as [|x u] eqn:Eu;
    [destruct (fin c); left; unfold part; cbn; rewrite Ea; cbn; lia|].
  all: cbn -[BUFFER part take length Nat.min Nat.max]; left;
    apply Hread; [unfold BUFFER; cbn [length]; lia|done|rewrite ?Ea; cbn; lia].
Qed.

Lemma recv_part_le fd k : (part (recv fd k).2 fd <= part k fd)%nat.
Proof.
  unfold recv. part_cases k fd; try lia.
  all: destruct (unread c) as [|x u] eqn:Eu; [destruct (fin c)|]; cbn -[BUFFER];
    rewrite ?lookup_insert_eq, ?Heqo; unfold weight; cbn -[BUFFER drop]; rewrite ?length_drop, ?Eu; cbn -[BUFFER]; lia.
Qed.

(** What [echo_tcp_once] does with the answer of [recv]. *)
Definition echo_rest {L} (fd : Z) (r : result bytes) : step L unit :=
  match r with
  | Waits => ending Blocked
  | Fails _ | Answer [] => does (close fd)
  | Answer s => k ← gets id; send_rest (S (length (answers k) + length s)) fd s
  end.

Lemma echo_rest_part {L} fd r (w : L * kernel) e w' :
  echo_rest fd r w = Some (e, w') → (part w'.2 fd <= part w.2 fd)%nat.
Proof.
  pose proof (close_part fd w.2) as Hc.
  assert (length (answers w.2) <= part w.2 fd)%nat by (unfold part; lia).
  destruct r as [[|x s]|err|]; cbn [echo_rest].
  - intros [= _ <-]. cbn [fst snd]. lia.
  - intros Hs. by apply send_rest_part in Hs.
  - intros [= _ <-]. cbn [fst snd]. lia.
  - by intros [= _ <-].
Qed.

Lemma echo_loop_part {L} fuel fd (w : L * kernel) e w' :
  (recv_retried fuel fd ≫= echo_rest fd) w = Some (e, w') → (part w'.2 fd <= part w.2 fd)%nat.
Proof.
  revert w. induction fuel as [|fuel IH]; intros w; [done|].
  pose proof (recv_part_le fd w.2) as Hr. cbn [recv_retried]. unfold mbind, step_bind, sys in *.
  cbn [fst snd]. destruct (recv fd w.2) as [r k1]. cbn [fst snd] in *.
  destruct r as [s|[]|]; try (intros H%echo_rest_part; cbn [fst snd] in *; lia).
  intros H%IH. cbn [fst snd] in *. lia.
Qed.

(** The turn of a connection that is ready leaves less to do. *)
Lemma echo_part {L} fd (l : L) k c e w' :
  conns k !! fd = Some c → conn_ready c = true →
  echo_tcp_once fd (l, k) = Some (e, w') → (part w'.2 fd < part k fd)%nat.
Proof.
  intros Hc Hr. unfold echo_tcp_once. rewrite (step_go (gets id) _ _ _ _ eq_refl). cbn [snd]. unfold id.
  fold (echo_rest (L := L) fd). change (λ r : result bytes, _) with (echo_rest (L := L) fd).
  pose proof (recv_part fd k c Hc Hr) as Hp. cbn [recv_retried].
  pose proof (λ w, echo_loop_part (length (answers k)) fd (L := L) w e w') as Hloop.
  unfold mbind, step_bind, sys in *. cbn [fst snd]. destruct (recv fd k) as [r k1]. cbn [fst snd] in *.
  assert (∀ r, echo_rest fd r (l, k1) = Some (e, w') → r = Answer [] ∨ r = Fails Eother →
    conns k1 !! fd = Some c → part k1 fd = part k fd → (part w'.2 fd < part k fd)%nat) as Hend.
  { intros r' Hw Hcase Hc1 <-. pose proof (close_part fd k1).
    assert (length (answers k1) < part k1 fd)%nat by (unfold part, weight; rewrite Hc1; lia).
    destruct Hcase as [-> | ->]; injection Hw as _ <-; cbn [fst snd]; lia. }
  destruct r as [s|[]|]; intros Hw.
  2: { apply Hloop in Hw. cbn [fst snd] in Hw. destruct Hp as [?|(_ & _ & [|])]; [lia|done..]. }
  all: destruct Hp as [?|(? & ? & ?)]; [apply echo_rest_part in Hw; cbn [fst snd] in Hw; lia|eapply Hend; [exact Hw|done|done|done]].
Qed.

(** ** One connection *)

Section accounts.
(** The answers at the start. *)
Variables (A0 : list answer) (B0 : list bool).

Definition fair : Prop :=
  Forall (λ a, a ≠ Error ∧ a ≠ Move 0) A0 ∧ Forall (λ b, b = true) B0.

(** A connection that has been closed: what went back is a prefix of what was read; unless
    the kernel failed a call the peer had reset the connection or had got everything, or it
    was turned away, unread, with a full table besides it. *)
Definition settled (g : conn * nat) : Prop :=
  let c := g.1 in
  delivered c `prefix_of` taken c ∧
  (fair → reset c = true ∨ (fin c = true ∧ unread c = [] ∧ delivered c = taken c) ∨
          (taken c = [] ∧ g.2 = S CLIENT_MAX)).

(** What a call on one connection leaves alone. *)
Record touched (fd : Z) (k k' : kernel) : Prop := {
  t_answers : answers k' `suffix_of` answers k;
  t_replies : replies k' = replies k;
  t_others : others k' = others k;
  t_conns : delete fd (conns k') = delete fd (conns k);
  t_backlog : backlog k' = backlog k;
  t_dgrams : dgrams k' = dgrams k;
  t_asked : asked k' = asked k;
  t_answered : answered k' = answered k;
  t_bad : bad_close k' = bad_close k
}.
#[local] Instance touched_pre fd : PreOrder (touched fd).
Proof.
  split; [by split|]. intros k1 k2 k3 [] []. split; try congruence. by etrans.
Qed.

Lemma load_touched fd k k' : touched fd k k' → (load k' + part k fd = load k + part k' fd)%nat.
Proof.
  intros Ht. unfold load, part. rewrite (t_backlog _ _ _ Ht), (t_dgrams _ _ _ Ht).
  rewrite (conns_load_delete (conns k) fd), (conns_load_delete (conns k') fd), (t_conns _ _ _ Ht). lia.
Qed.

Lemma touched_next fd k : touched fd k (next k).2.
Proof. split; try done. cbn. destruct (answers k); [done|]. by apply suffix_cons_r. Qed.
Lemma touched_conns fd c k : touched fd k (with_conns (<[fd := c]> (conns k)) k).
Proof. split; try done. cbn. by rewrite delete_insert_eq. Qed.
Lemma touched_say fd s k : touched fd k (say s k).
Proof. by split. Qed.
Lemma close_conn fd c k :
  conns k !! fd = Some c →
  touched fd k (close fd k) ∧ conns (close fd k) !! fd = None ∧ gone (close fd k) = gone k ++ [(c, base.size (conns k))].
Proof.
  intros E. unfold close. rewrite E. cbn. rewrite lookup_delete_eq.
  split_and!; try done. split; try done. cbn. by rewrite delete_delete_eq.
Qed.

(** How the work on a connection ends: it is open with everything sent back, or closed and
    settled, or its peer takes nothing more. *)
Definition worked (fd : Z) (k : kernel) (e : ends unit) (k' : kernel) : Prop :=
  touched fd k k' ∧
  match e with
  | Go _ =>
      (∃ c, conns k' !! fd = Some c ∧ delivered c = taken c ∧ gone k' = gone k) ∨
      (conns k' !! fd = None ∧ ∃ g, settled g ∧ gone k' = gone k ++ [g])
  | Blocked => Stall ∈ answers k ∧ gone k' = gone k
  | _ => False
  end.

Lemma worked_close fd c k :
  conns k !! fd = Some c → settled (c, base.size (conns k)) → worked fd k (Go ()) (close fd k).
Proof.
  intros E Hs. destruct (close_conn fd c k E) as (H1 & H2 & H3). split; [done|]. right. by eauto.
Qed.
Lemma worked_after fd k1 k2 e k3 :
  touched fd k1 k2 → gone k2 = gone k1 → worked fd k2 e k3 → worked fd k1 e k3.
Proof.
  intros Ht Hg [H1 H2]. split; [by etrans|]. rewrite Hg in H2. destruct e; try done.
  destruct H2 as [H2 H3]. split; [|done].
  destruct (t_answers _ _ _ Ht) as [p E]. rewrite E. set_solver.
Qed.

Lemma unfair a : a ∈ A0 → a = Error ∨ a = Move 0 → ¬ fair.
Proof. intros Ha Hb [Hf _]. rewrite Forall_forall in Hf. destruct (Hf a Ha). naive_solver. Qed.
Lemma suffix_elem {A} (a : A) l1 l2 : l1 `suffix_of` l2 → a ∈ l1 → a ∈ l2.
Proof. intros [p ->]. set_solver. Qed.

Lemma send_cases fd data k c :
  conns k !! fd = Some c →
  let '(r, k1) := send fd data k in
  touched fd k k1 ∧ gone k1 = gone k ∧
  match r with
  | Answer n => conns k1 !! fd = Some (deliver (take n data) c) ∧ (n <= length data)%nat ∧
      (n = O → data = [] ∨ Move 0 ∈ answers k)
  | Fails EINTR => conns k1 !! fd = Some c ∧ (length (answers k1) < length (answers k))%nat
  | Fails _ => conns k1 !! fd = Some c ∧ (reset c = true ∨ Error ∈ answers k)
  | Waits => Stall ∈ answers k
  end.
Proof.
  intros Hc. unfold send. pose proof (touched_next fd k) as Ht. unfold next in *. cbn [snd] in Ht.
  set (k0 := with_answers (tail (answers k)) k) in *.
  assert (conns k0 !! fd = Some c) as Hc0 by done.
  assert (∀ n, touched fd k (with_conns (<[fd := deliver (take n data) c]> (conns k0)) k0)) as Hd.
  { intros n. etrans; [exact Ht|apply touched_conns]. }
  destruct (answers k) as [|[| | |n] l] eqn:Ea; cbn [head].
  - rewrite Hc0. destruct (reset c) eqn:Er; [by split_and!; auto|].
    split_and!; [apply Hd|done|by cbn; rewrite lookup_insert_eq|done|].
    intros H. left. by apply nil_length_inv.
  - split_and!; [done..|]. cbn. lia.
  - split_and!; [done..|]. right. left.
  - split_and!; [done..|]. left.
  - rewrite Hc0. destruct (reset c) eqn:Er; [by split_and!; auto|].
    split_and!; [apply Hd|done|by cbn; rewrite lookup_insert_eq|lia|].
    intros H. destruct data; [by left|]. right. cbn in H. destruct n; [left|lia].
Qed.

Lemma recv_cases fd k c :
  conns k !! fd = Some c → conn_ready c = true →
  let '(r, k1) := recv fd k in
  touched fd k k1 ∧ gone k1 = gone k ∧
  match r with
  | Answer [] => conns k1 !! fd = Some c ∧ fin c = true ∧ unread c = []
  | Answer s => ∃ c1, conns k1 !! fd = Some c1 ∧ taken c1 = taken c ++ s ∧ delivered c1 = delivered c ∧
      s `prefix_of` unread c
  | Fails EINTR => conns k1 !! fd = Some c ∧ (length (answers k1) < length (answers k))%nat
  | Fails _ => conns k1 !! fd = Some c ∧ (reset c = true ∨ Error ∈ answers k)
  | Waits => False
  end.
Proof.
  intros Hc Hr. unfold recv. pose proof (touched_next fd k) as Ht. unfold next in *. cbn [snd] in Ht.
  set (k0 := with_answers (tail (answers k)) k) in *.
  assert (conns k0 !! fd = Some c) as Hc0 by done.
  assert (∀ n, (1 <= n)%nat → unread c <> [] →
    touched fd k (with_conns (<[fd := read_some n c]> (conns k0)) k0) ∧
    gone (with_conns (<[fd := read_some n c]> (conns k0)) k0) = gone k ∧
    match take n (unread c) with
    | [] => conns (with_conns (<[fd := read_some n c]> (conns k0)) k0) !! fd = Some c ∧ fin c = true ∧ unread c = []
    | s => ∃ c1, conns (with_conns (<[fd := read_some n c]> (conns k0)) k0) !! fd = Some c1 ∧
        taken c1 = taken c ++ s ∧ delivered c1 = delivered c ∧ s `prefix_of` unread c
    end) as Hd.
  { intros n Hn Hu. split_and!; [etrans; [exact Ht|apply touched_conns]|done|].
    destruct (take n (unread c)) eqn:E.
    { destruct (unread c), n; cbn in E; done || lia. }
    exists (read_some n c). rewrite <-E. split_and!; [by cbn; rewrite lookup_insert_eq|done..|].
    exists (drop n (unread c)). by rewrite take_drop. }
  destruct (answers k) as [|[| | |n] l] eqn:Ea; cbn [head]; rewrite ?Hc0.
  2: { split_and!; [done..|]. cbn. lia. }
  2: { split_and!; [done..|]. right. left. }
  all: destruct (reset c) eqn:Er; [by split_and!; auto|].
  all: unfold conn_ready in Hr; rewrite Er in Hr; destruct (unread c) as [|x u] eqn:Eu;
    [cbn in Hr; destruct (fin c) eqn:Ef; [by split_and!|done]|].
  all: rewrite <-Eu in *; assert (unread c <> []) as Hn by (by rewrite Eu);
    assert (1 <= length (unread c))%nat by (rewrite Eu; cbn; lia);
    assert (1 <= BUFFER)%nat by (unfold BUFFER; lia);
    match goal with |- context [read_some ?n _] =>
      destruct (Hd n) as (P1 & P2 & P3); [lia|done|];
      split_and!; [done..|]; match goal with |- context [take n ?u] => destruct (take n u) end; exact P3
    end.
Qed.

Lemma settled_by c n k :
  delivered c `prefix_of` taken c → answers k `suffix_of` A0 →
  reset c = true ∨ Error ∈ answers k ∨ Move 0 ∈ answers k → settled (c, n).
Proof.
  intros Hp Hs H. split; [done|]. intros Hf. destruct H as [H|[H|H]]; [by left|exfalso..].
  - by apply (unfair Error); [eapply suffix_elem|left|].
  - by apply (unfair (Move 0)); [eapply suffix_elem|right|].
Qed.

Lemma send_rest_works {L} fuel fd data (l : L) k c :
  (length (answers k) + length data < fuel)%nat → answers k `suffix_of` A0 →
  conns k !! fd = Some c → taken c = delivered c ++ data →
  ∃ e k', send_rest fuel fd data (l, k) = Some (e, (l, k')) ∧ worked fd k e k'.
Proof.
  revert data k c. induction fuel as [|fuel IH]; intros data k c Hf Hsuf Hc Ht; [lia|].
  cbn [send_rest]. destruct data as [|x data].
  { rewrite app_nil_r in Ht. eexists _, _. split; [reflexivity|]. split; [done|]. left. by exists c. }
  pose proof (send_cases fd (x :: data) k c Hc) as Hcase.
  assert (delivered c `prefix_of` taken c) as Hpre by (rewrite Ht; by apply prefix_app_r).
  unfold mbind, step_bind, sys. cbn [fst snd]. destruct (send fd (x :: data) k) as [r k1]. cbn [fst snd].
  destruct Hcase as (H1 & H2 & H3). pose proof (t_answers _ _ _ H1) as Hsuf1.
  pose proof (suffix_length _ _ Hsuf1) as Hlen.
  destruct r as [[|n]|[]|].
  - destruct H3 as (H3 & _ & H4). destruct H4 as [|H4]; [done|done|].
    eexists _, _. split; [reflexivity|]. eapply worked_after; [exact H1|exact H2|].
    eapply worked_close; [exact H3|]. eapply settled_by; [|exact Hsuf|by right; right].
    cbn. by rewrite app_nil_r.
  - destruct H3 as (H3 & Hle & _).
    destruct (IH (drop (S n) (x :: data)) k1 (deliver (take (S n) (x :: data)) c)) as (e & k' & E & Hw);
      [rewrite length_drop; cbn [length] in *; lia|by etrans|done| |].
    { cbn [taken deliver delivered]. by rewrite <-(assoc_L (++)), take_drop. }
    exists e, k'. split; [exact E|]. by eapply worked_after.
  - destruct H3 as [H3 Hl].
    destruct (IH (x :: data) k1 c) as (e & k' & E & Hw); [lia|by etrans|done..|].
    exists e, k'. split; [exact E|]. by eapply worked_after.
  - destruct H3 as [H3 H4]. eexists _, _. split; [reflexivity|].
    eapply worked_after; [etrans; [exact H1|apply touched_say]|exact H2|].
    eapply worked_close; [exact H3|]. eapply settled_by; [done|exact Hsuf|]. tauto.
  - destruct H3 as [H3 H4]. eexists _, _. split; [reflexivity|].
    eapply worked_after; [etrans; [exact H1|apply touched_say]|exact H2|].
    eapply worked_close; [exact H3|]. eapply settled_by; [done|exact Hsuf|]. tauto.
  - eexists _, _. split; [reflexivity|]. by split.
Qed.

(** Whatever [recv] finds is sent back, or the connection ends. *)
Lemma echo_tcp_once_spec {L} fd (l : L) k c :
  answers k `suffix_of` A0 → conns k !! fd = Some c → conn_ready c = true → delivered c = taken c →
  ∃ e k', echo_tcp_once fd (l, k) = Some (e, (l, k')) ∧ worked fd k e k'.
Proof.
  intros Hsuf Hc Hr Hd. unfold echo_tcp_once.
  assert (∀ fuel k, answers k `suffix_of` A0 → conns k !! fd = Some c → (length (answers k) < fuel)%nat →
    ∃ e k', (r ← recv_retried fuel fd;
      match r with
      | Waits => ending Blocked
      | Fails _ | Answer [] => does (close fd)
      | Answer s => k ← gets id; send_rest (S (length (answers k) + length s)) fd s
      end) (l, k) = Some (e, (l, k')) ∧ worked fd k e k') as Hloop;
    [|exact (Hloop (S (length (answers k))) k Hsuf Hc ltac:(lia))].
  clear k Hsuf Hc. intros fuel. induction fuel as [|fuel IH]; intros k Hsuf Hc Hf; [lia|].
  pose proof (recv_cases fd k c Hc Hr) as Hcase.
  assert (delivered c `prefix_of` taken c) as Hpre by by rewrite Hd.
  cbn [recv_retried]. unfold mbind, step_bind, sys in *. cbn [fst snd].
  destruct (recv fd k) as [r k1]. cbn [fst snd]. destruct Hcase as (H1 & H2 & H3).
  pose proof (t_answers _ _ _ H1) as Hsuf1.
  destruct r as [[|x s]|[]|]; [| | | | |done].
  - destruct H3 as (H3 & Hfin & Hu). eexists _, _. split; [reflexivity|].
    eapply worked_after; [done..|]. eapply worked_close; [done|]. split; [done|]. tauto.
  - destruct H3 as (c1 & H3 & H4 & H5 & _).
    destruct (send_rest_works (S (length (answers k1) + length (x :: s))) fd (x :: s) l k1 c1) as (e & k' & E & Hw);
      [lia|by etrans|done|by rewrite H4, H5, Hd|].
    exists e, k'. split; [exact E|]. by eapply worked_after.
  - destruct H3 as [H3 Hl]. destruct (IH k1) as (e & k' & E & Hw); [by etrans|done|lia|].
    exists e, k'. split; [exact E|]. by eapply worked_after.
  - destruct H3 as [H3 H4]. eexists _, _. split; [reflexivity|].
    eapply worked_after; [done..|]. eapply worked_close; [done|]. eapply settled_by; [done|exact Hsuf|]. tauto.
  - destruct H3 as [H3 H4]. eexists _, _. split; [reflexivity|].
    eapply worked_after; [done..|]. eapply worked_close; [done|]. eapply settled_by; [done|exact Hsuf|]. tauto.
Qed.

(** ** The reference loop *)

(** Both loops are this one: serve what was ready when the wait ended. *)
Fixpoint scan (slots : list nat) (R : Z → bool) : step (list Z) unit :=
  match slots with
  | [] => mret ()
  | i :: slots =>
      clients ← local;
      let fd := default (-1) (clients !! i) in
      (if (0 <=? fd) && R fd then
        echo_tcp_once fd ;;
        closed ← gets (is_closed fd);
        if (closed : bool) then clients ← local; set_local (<[i := -1]> clients) else mret ()
      else mret ()) ;;
      scan slots R
  end.

Section served.
Variables (listener udp : Z) (O : gset Z).
Hypotheses (Hlistener : listener ∈ O) (Hudp : udp ∈ O).

Definition serve (R : Z → bool) : step (list Z) unit :=
  (if R listener then accepted select_add else mret ()) ;;
  (if R udp then echo_datagram else mret ()) ;;
  scan (seq 0 CLIENT_MAX) R.
Definition turn (name : bytes) (r : waited) : step (list Z) unit :=
  match r with
  | Interrupted => mret ()
  | WaitFails => does (say name) ;; ending (Exit 1)
  | Wakes => k ← gets id; serve (readable listener udp k)
  end.

(** Between two waits the table names the open connections, each once, and all that has
    been read has been sent back. *)
Record accounts (clients : list Z) (k : kernel) : Prop := {
  a_length : length clients = CLIENT_MAX;
  a_slot : ∀ i fd, clients !! i = Some fd → fd = -1 ∨ is_Some (conns k !! fd);
  a_once : ∀ i j fd, clients !! i = Some fd → clients !! j = Some fd → 0 <= fd → i = j;
  a_listed : ∀ fd c, conns k !! fd = Some c → 0 <= fd ∧ fd ∉ O ∧ fd ∈ clients;
  a_others : others k = O;
  a_echoed : ∀ fd c, conns k !! fd = Some c → delivered c = taken c;
  a_back : Forall (λ c, taken c = [] ∧ delivered c = []) (backlog k);
  a_gone : Forall settled (gone k);
  a_bad : bad_close k = false;
  a_answers : answers k `suffix_of` A0;
  a_replies : replies k `suffix_of` B0;
  a_asked : fair → answered k ++ (cut <$> dgrams k) = cut <$> asked k;
  a_small : Z.of_nat (base.size O) <= 895 → ∀ fd c, conns k !! fd = Some c → fd < FD_SETSIZE
}.

Definition outcome (e : ends unit) (w : list Z * kernel) : Prop :=
  match e with
  | Go _ => accounts w.1 w.2
  | Blocked => Stall ∈ A0 ∧ Forall settled (gone w.2) ∧ bad_close w.2 = false
  | _ => False
  end.

Lemma touched_lookup fd fd' k k' : touched fd k k' → fd' <> fd → conns k' !! fd' = conns k !! fd'.
Proof.
  intros Ht Hn. rewrite <-(lookup_delete_ne (conns k') fd), (t_conns _ _ _ Ht) by done.
  by rewrite lookup_delete_ne.
Qed.

(** The table after the work on the client of a slot. *)
Lemma accounts_worked i fd clients k k' :
  accounts clients k → clients !! i = Some fd → is_Some (conns k !! fd) → worked fd k (Go ()) k' →
  if is_closed fd k' then accounts (<[i := -1]> clients) k' else accounts clients k'.
Proof.
  intros Ha Hi [c0 Hc0] [Ht Hw]. destruct (a_listed _ _ Ha fd c0 Hc0) as (Hpos & HO & _).
  assert (answers k' `suffix_of` A0) by (etrans; [apply Ht|apply Ha]).
  assert (fair → answered k' ++ (cut <$> dgrams k') = cut <$> asked k') as Hasked.
  { destruct Ht as [_ _ _ _ _ -> -> -> _]. apply Ha. }
  assert (others k' = O) as Ho by (rewrite (t_others _ _ _ Ht); apply Ha).
  assert (∀ fd', fd' <> fd → conns k' !! fd' = conns k !! fd') as Hne by (intros; by eapply touched_lookup).
  unfold is_closed, open_fds. destruct Hw as [(c & Hc & Hd & Hg)|(Hc & c & Hs & Hg)].
  - rewrite bool_decide_true by (rewrite elem_of_union, elem_of_dom; right; by eexists). cbn [negb].
    destruct Ha, Ht. split; try congruence; try done.
    + intros j fd' Hj. destruct (decide (fd' = fd)) as [->|Hn]; [right; by eexists|].
      rewrite Hne by done. eauto.
    + intros fd' c' Hc'. destruct (decide (fd' = fd)) as [->|Hn]; [by eapply a_listed0|].
      rewrite Hne in Hc' by done. by eapply a_listed0.
    + intros fd' c' Hc'. destruct (decide (fd' = fd)) as [->|Hn]; [congruence|].
      rewrite Hne in Hc' by done. by eapply a_echoed0.
    + intros Hs fd' c' Hc'. destruct (decide (fd' = fd)) as [->|Hn]; [by eapply a_small0|].
      rewrite Hne in Hc' by done. by eapply a_small0.
  - rewrite bool_decide_false by (rewrite elem_of_union, elem_of_dom, Ho, Hc; intros [?|[? ?]]; done). cbn [negb].
    destruct Ha, Ht. split; try congruence; try done.
    + by rewrite length_insert.
    + intros j fd' Hj. apply list_lookup_insert_Some in Hj as [(-> & <- & _)|[Hij Hj]]; [by left|].
      destruct (decide (fd' = fd)) as [->|Hn]; [destruct Hij; by eapply (a_once0 i j fd)|].
      rewrite Hne by done. eauto.
    + intros j1 j2 fd' H1 H2 Hp.
      apply list_lookup_insert_Some in H1 as [(_ & <- & _)|[_ H1]]; [lia|].
      apply list_lookup_insert_Some in H2 as [(_ & <- & _)|[_ H2]]; [lia|]. eauto.
    + intros fd' c' Hc'. destruct (decide (fd' = fd)) as [->|Hn]; [congruence|].
      rewrite Hne in Hc' by done. destruct (a_listed0 fd' c' Hc') as (? & ? & Hin). split_and!; [done..|].
      apply list_elem_of_lookup in Hin as [j Hj]. apply list_elem_of_lookup. exists j.
      rewrite list_lookup_insert_ne; [done|]. intros ->. congruence.
    + intros fd' c' Hc'. destruct (decide (fd' = fd)) as [->|Hn]; [congruence|].
      rewrite Hne in Hc' by done. by eapply a_echoed0.
    + rewrite Hg. apply Forall_app. split; [done|]. by constructor.
    + intros Hsm fd' c' Hc'. destruct (decide (fd' = fd)) as [->|Hn]; [congruence|].
      rewrite Hne in Hc' by done. by eapply a_small0.
Qed.

(** The table bounds the connections. *)
Lemma few_open clients k : accounts clients k → (base.size (open_fds k) <= base.size O + CLIENT_MAX)%nat.
Proof.
  intros Ha. unfold open_fds. rewrite (a_others _ _ Ha).
  transitivity (base.size O + base.size (dom (conns k)))%nat.
  { rewrite size_union_alt. pose proof (subseteq_size (dom (conns k) ∖ O) (dom (conns k)) ltac:(set_solver)). lia. }
  enough (base.size (dom (conns k)) <= CLIENT_MAX)%nat by lia.
  rewrite <-(a_length _ _ Ha). apply submseteq_length. apply NoDup_submseteq; [apply NoDup_elements|].
  intros fd Hfd%elem_of_elements. apply elem_of_dom in Hfd as [c Hc]. by apply (a_listed _ _ Ha fd c).
Qed.

Lemma scan_spec slots R clients k :
  NoDup slots → accounts clients k →
  (∀ i fd, i ∈ slots → clients !! i = Some fd → 0 <= fd → R fd = true →
     ∃ c, conns k !! fd = Some c ∧ conn_ready c = true) →
  ∃ e w, scan slots R (clients, k) = Some (e, w) ∧ outcome e w ∧ (load w.2 <= load k)%nat ∧
    (∀ i fd, i ∈ slots → clients !! i = Some fd → 0 <= fd → R fd = true → (load w.2 < load k)%nat).
Proof.
  intros Hnd. revert clients k. induction Hnd as [|i slots Hi Hnd IH]; intros clients k Ha HR.
  { eexists _, _. split; [reflexivity|]. split; [done|]. split; [done|]. by intros i fd ?%elem_of_nil. }
  cbn [scan]. unfold mbind at 1. unfold step_bind at 1. cbn [local fst].
  assert (∀ clients' k', accounts clients' k' →
    (∀ j fd, j ∈ slots → clients' !! j = Some fd → 0 <= fd → R fd = true →
       ∃ c, conns k' !! fd = Some c ∧ conn_ready c = true) →
    ∃ e w, scan slots R (clients', k') = Some (e, w) ∧ outcome e w ∧ (load w.2 <= load k')%nat ∧
      (∀ i fd, i ∈ slots → clients' !! i = Some fd → 0 <= fd → R fd = true → (load w.2 < load k')%nat))
    as Hnext by (intros; by apply IH).
  destruct ((0 <=? default (-1) (clients !! i)) && R (default (-1) (clients !! i))) eqn:E.
  2: { destruct (Hnext clients k Ha) as (e & w & Es & Ho & Hle & Hlt);
         [intros j fd Hj; apply HR; by right|].
       exists e, w. split_and!; [done..|]. intros j fd [->|Hj]%elem_of_cons Hjc Hp HRj; [|by eapply Hlt].
       exfalso. rewrite Hjc in E. cbn in E. unfold id in E. by rewrite (proj2 (Z.leb_le 0 fd) Hp), HRj in E. }
  apply andb_true_iff in E as [Epos ER]. apply Z.leb_le in Epos.
  destruct (clients !! i) as [fd|] eqn:Ei; cbn [default] in *; [|cbn in Epos; lia].
  destruct (HR i fd) as (c & Hc & Hready); [left|done..|].
  destruct (echo_tcp_once_spec fd clients k c) as (e & k1 & E & Hw);
    [apply Ha|done|done|by eapply a_echoed|].
  assert (load k1 < load k)%nat as Hless.
  { pose proof (load_touched fd k k1 (proj1 Hw)). pose proof (echo_part fd _ _ _ _ _ Hc Hready E).
    cbn [snd] in *. lia. }
  assert (∀ o, (∃ e w, o = Some (e, w) ∧ outcome e w ∧ (load w.2 <= load k1)%nat) →
    ∃ e w, o = Some (e, w) ∧ outcome e w ∧ (load w.2 <= load k)%nat ∧
      (∀ i0 fd, i0 ∈ i :: slots → clients !! i0 = Some fd → 0 <= fd → R fd = true → (load w.2 < load k)%nat))
    as Hserved.
  { intros o (e' & w & H1 & H2 & H3). exists e', w. split_and!; [done|done|lia|]. intros. lia. }
  unfold mbind, step_bind. cbn [default]. unfold id. rewrite E.
  destruct e as [[]| | | |]; try by destruct Hw.
  2: { apply Hserved. eexists _, _. split; [reflexivity|]. destruct Hw as [Ht [Hst Hg]]. cbn [snd fst].
    split; [|done]. cbn. rewrite Hg, (t_bad _ _ _ Ht).
    split_and!; [|apply Ha..]. eapply suffix_elem; [apply Ha|done]. }
  apply Hserved.
  assert (∀ clients' k', accounts clients' k' →
    (∀ j fd, j ∈ slots → clients' !! j = Some fd → 0 <= fd → R fd = true →
       ∃ c, conns k' !! fd = Some c ∧ conn_ready c = true) →
    ∃ e w, scan slots R (clients', k') = Some (e, w) ∧ outcome e w ∧ (load w.2 <= load k')%nat) as Hrest.
  { intros clients' k' H1 H2. destruct (Hnext clients' k' H1 H2) as (e & w & ? & ? & ? & _). by exists e, w. }
  pose proof (accounts_worked i fd clients k k1 Ha Ei ltac:(by eexists) Hw) as Ha1.
  cbn [gets fst snd]. destruct (is_closed fd k1) eqn:Ecl; cbn [local set_local fst snd].
  - apply Hrest; [done|]. intros j fd' Hj Hj' Hp HR'.
    apply list_lookup_insert_Some in Hj' as [(_ & <- & _)|[Hij Hj']]; [lia|].
    rewrite (touched_lookup fd fd' k k1); [eapply HR; [by right|done..]|apply Hw|].
    intros ->. apply Hij. by eapply (a_once _ _ Ha i j).
  - apply Hrest; [done|]. intros j fd' Hj Hj' Hp HR'.
    rewrite (touched_lookup fd fd' k k1); [eapply HR; [by right|done..]|apply Hw|].
    intros ->. assert (i = j) as -> by (by eapply (a_once _ _ Ha)). done.
Qed.

Lemma accounts_frame clients k k' :
  accounts clients k →
  answers k' `suffix_of` answers k → replies k' `suffix_of` replies k → others k' = others k →
  conns k' = conns k → gone k' = gone k →
  Forall (λ c, taken c = [] ∧ delivered c = []) (backlog k') → bad_close k' = bad_close k →
  (fair → answered k' ++ (cut <$> dgrams k') = cut <$> asked k') →
  accounts clients k'.
Proof.
  intros [] ? ? Ho Hc Hg ? Hb ?. split; rewrite ?Ho, ?Hc, ?Hg, ?Hb; try done; by etrans.
Qed.

Lemma next_suffix {A} (l : list A) : tail l `suffix_of` l.
Proof. destruct l; [done|]. by apply suffix_cons_r. Qed.

(** A free slot is one below zero; in a full table there is none. *)
Lemma first_free_spec clients :
  match first_free clients with
  | Some i => ∃ fd, clients !! i = Some fd ∧ fd < 0
  | None => ∀ fd, fd ∈ clients → 0 <= fd
  end.
Proof.
  unfold first_free. destruct (list_find _ clients) as [[i fd]|] eqn:E; cbn.
  - apply list_find_Some in E as (? & ? & _). by exists fd.
  - apply list_find_None in E. rewrite Forall_forall in E. intros fd H%E. lia.
Qed.

(** In a full table every slot is a connection. *)
Lemma full_table clients k :
  accounts clients k → first_free clients = None → base.size (conns k) = CLIENT_MAX.
Proof.
  intros Ha Hf. pose proof (first_free_spec clients) as Hpos. rewrite Hf in Hpos.
  rewrite <-size_dom. apply Nat.le_antisymm.
  - rewrite <-(a_length _ _ Ha). apply submseteq_length, NoDup_submseteq; [apply NoDup_elements|].
    intros fd Hfd%elem_of_elements. apply elem_of_dom in Hfd as [c Hc]. by apply (a_listed _ _ Ha fd c).
  - rewrite <-(a_length _ _ Ha). apply (submseteq_length clients (elements (dom (conns k)))).
    apply NoDup_submseteq.
    + apply NoDup_alt. intros i j fd Hi Hj. apply (a_once _ _ Ha i j fd); [done..|].
      apply Hpos. apply list_elem_of_lookup. by exists i.
    + intros fd Hfd. apply elem_of_elements, elem_of_dom. specialize (Hpos fd Hfd).
      apply list_elem_of_lookup in Hfd as [i Hi]. destruct (a_slot _ _ Ha i fd Hi); [lia|done].
Qed.

Definition grows (clients clients' : list Z) (k k' : kernel) : Prop :=
  (∀ fd c, conns k !! fd = Some c → conns k' !! fd = Some c) ∧
  (∀ fd, fd ∈ clients' → fd ∈ clients ∨ (conns k !! fd = None ∧ fd ∉ O)) ∧ dgrams k' = dgrams k.

Lemma grows_refl clients k k' : conns k' = conns k → dgrams k' = dgrams k → grows clients clients k k'.
Proof. intros Hc Hd. split_and!; [by rewrite Hc|by left|done]. Qed.

Lemma accepted_spec clients k :
  accounts clients k → backlog k <> [] →
  ∃ clients' k', accepted select_add (clients, k) = Some (Go (), (clients', k')) ∧
    accounts clients' k' ∧ grows clients clients' k k' ∧ (load k' < load k)%nat.
Proof.
  intros Ha Hb. unfold accepted, mbind, step_bind, sys. cbn [fst snd]. unfold accept, next.
  set (k0 := with_answers (tail (answers k)) k).
  assert (accounts clients k0) as Ha0.
  { apply (accounts_frame clients k); try done; [apply next_suffix|apply Ha..]. }
  destruct (backlog k) as [|c b] eqn:Eb; [done|].
  destruct (lowest_spec (open_fds k0)) as [Hnew Hpos]. pose proof (few_open _ _ Ha0) as Hfew. set (fd := lowest (open_fds k0)) in *.
  assert (Hfd := Hnew). apply not_elem_of_union in Hfd as [HnO Hnc]. apply not_elem_of_dom in Hnc.
  rewrite (a_others _ _ Ha0) in HnO.
  assert (length (answers k0) <= length (answers k))%nat as Hlen by (cbn; destruct (answers k); cbn; lia).
  assert (∀ k', answers k' = answers k0 → backlog k' = b → dgrams k' = dgrams k →
    (conns_load (conns k') <= weight c + conns_load (conns k))%nat → (load k' < load k)%nat) as Hless.
  { intros k' E1 E2 E3 E4. unfold load. rewrite E1, E2, E3, Eb. cbn [fmap list_fmap].
    change (list_sum (?x :: ?l)) with (x + list_sum l)%nat. lia. }
  assert (∃ clients' k', select_add fd (clients, with_backlog b (with_conns (<[fd := c]> (conns k0)) k0))
    = Some (Go (), (clients', k')) ∧ accounts clients' k' ∧ grows clients clients' k k' ∧
      (load k' < load k)%nat) as Hadd.
  { pose proof (a_back _ _ Ha) as Hback. rewrite Eb in Hback. apply Forall_cons in Hback as [[Hc1 Hc2] Hback].
    unfold select_add, mbind, step_bind, local, set_local, does. cbn [fst snd].
    pose proof (first_free_spec clients) as Hfree. pose proof (full_table _ _ Ha0) as Hfull.
    destruct (first_free clients) as [i|].
    - destruct Hfree as (old & Hi & Hold). eexists _, _. split; [reflexivity|].
      split; [|split].
      + destruct Ha0. split; try done; cbn.
        * by rewrite length_insert.
        * intros j fd' [(-> & <- & _)|[_ Hj]]%list_lookup_insert_Some; [right; rewrite lookup_insert_eq; by eexists|].
          destruct (a_slot0 j fd' Hj) as [->|Hs]; [by left|]. right.
          rewrite lookup_insert_ne; [done|]. intros ->. by rewrite Hnc in Hs; destruct Hs.
        * intros j1 j2 fd' H1 H2 Hp.
          apply list_lookup_insert_Some in H1 as [(<- & <- & _)|[Hij1 H1]];
            apply list_lookup_insert_Some in H2 as [(<- & E & _)|[Hij2 H2]]; try done.
          -- exfalso. destruct (a_slot0 _ _ H2) as [?|[? Hs]]; [lia|congruence].
          -- subst. exfalso. destruct (a_slot0 _ _ H1) as [?|[? Hs]]; [lia|congruence].
          -- eauto.
        * intros fd' c' Hc'. destruct (decide (fd' = fd)) as [->|Hn].
          { split_and!; [lia|done|]. apply list_elem_of_lookup. exists i.
            apply list_lookup_insert_eq. by eapply lookup_lt_Some. }
          rewrite lookup_insert_ne in Hc' by done. destruct (a_listed0 _ _ Hc') as (? & ? & Hin).
          split_and!; [done..|]. apply list_elem_of_lookup in Hin as [j Hj]. apply list_elem_of_lookup.
          exists j. rewrite list_lookup_insert_ne; [done|]. intros ->. simplify_eq. lia.
        * intros fd' c' Hc'. destruct (decide (fd' = fd)) as [->|Hn]; [|by rewrite lookup_insert_ne in Hc'; eauto].
          rewrite lookup_insert_eq in Hc'. simplify_eq. congruence.
        * intros Hs fd' c' Hc'. destruct (decide (fd' = fd)) as [->|Hn]; [|by rewrite lookup_insert_ne in Hc'; eauto].
          unfold FD_SETSIZE, CLIENT_MAX in *. lia.
      + split_and!; [|intros fd' [j Hj]%list_elem_of_lookup|done].
        * intros fd' c' Hc'. cbn. rewrite lookup_insert_ne; [done|]. intros ->. cbn in Hnc. congruence.
        * apply list_lookup_insert_Some in Hj as [(_ & <- & _)|[_ Hj]]; [by right|].
          left. apply list_elem_of_lookup. by exists j.
      + apply Hless; try done. cbn [snd conns with_backlog with_conns].
        by rewrite conns_load_insert_None.
    - unfold close. cbn. rewrite lookup_insert_eq. eexists _, _. split; [reflexivity|].
      assert (delete fd (<[fd := c]> (conns k)) = conns k) as Hdel by (by rewrite delete_insert_id).
      split; [|split; [cbn; rewrite Hdel; by apply grows_refl|]].
      2: { apply Hless; [done..|]. cbn [conns with_gone with_backlog with_conns]. rewrite Hdel. lia. }
      destruct Ha0. split; try done; cbn; rewrite ?Hdel; try done.
      apply Forall_app. split; [done|]. constructor; [|done].
      split; cbn; [rewrite Hc2; apply prefix_nil|]. intros _. right. right. split; [done|].
      rewrite map_size_insert_None by done. f_equal. by apply Hfull. }
  assert (∀ s, accounts clients (say s k0)) as Hsay.
  { intros s. by apply (accounts_frame clients k0); try apply Ha0. }
  assert (∀ a, head (answers k) = Some a → (load k0 < load k)%nat) as Hnext.
  { intros a E. apply load_next. intros E'. by rewrite E' in E. }
  destruct (head (answers k)) as [[| | |n]|]; cbn -[select_add lowest]; rewrite ?Eb; try exact Hadd.
  - eexists _, _. split; [reflexivity|]. split; [done|]. split; [by apply grows_refl|].
    by eapply Hnext.
  - eexists _, _. split; [reflexivity|]. split; [apply Hsay|]. split; [by apply grows_refl|].
    by eapply Hnext.
Qed.

Lemma datagram_spec clients k :
  accounts clients k → dgrams k <> [] →
  ∃ k', echo_datagram (clients, k) = Some (Go (), (clients, k')) ∧ accounts clients k' ∧ conns k' = conns k ∧
    (load k' < load k)%nat.
Proof.
  intros Ha Hd. unfold echo_datagram, mbind, step_bind, sys. cbn [fst snd]. unfold recvfrom, next.
  set (k0 := with_answers (tail (answers k)) k).
  assert (accounts clients k0) as Ha0.
  { apply (accounts_frame clients k); try done; [apply next_suffix|apply Ha..]. }
  destruct (dgrams k) as [|d l] eqn:Ed; [done|].
  assert (accounts clients (with_answered (tail (replies k))
     (if default true (head (replies k)) then answered k ++ [cut d] else answered k) (with_dgrams l (asked k) k0)))
    as Hsent.
  { apply (accounts_frame clients k0); try done; [apply next_suffix|apply Ha0|].
    intros Hf. cbn. pose proof (a_asked _ _ Ha Hf) as E. rewrite Ed in E.
    destruct (head (replies k)) as [[]|] eqn:Er; cbn; rewrite <-?(assoc_L (++)); try exact E.
    exfalso. destruct Hf as [_ Hf]. rewrite Forall_forall in Hf. assert (false = true); [|done].
    apply Hf. eapply suffix_elem; [apply Ha|]. destruct (replies k); [done|]. injection Er as ->. left. }
  assert (∃ k', (λ w : list Z * kernel,
      match Some (Go (sendto (cut d) w.2).1, (w.1, (sendto (cut d) w.2).2)) with
      | Some (Go ok, w') => (if (ok : bool) then mret () else does (say (lit "sendto"))) w'
      | Some (Blocked, w') => Some (Blocked, w')
      | Some (Running, w') => Some (Running, w')
      | Some (Exit c, w') => Some (Exit c, w')
      | Some (Bad, w') => Some (Bad, w')
      | None => None
      end) (clients, with_dgrams l (asked k) k0) = Some (Go (), (clients, k')) ∧
      accounts clients k' ∧ conns k' = conns k ∧ (load k' < load k)%nat) as Hsendto.
  { assert (∀ k', answers k' = answers k0 → backlog k' = backlog k → conns k' = conns k → dgrams k' = l →
      (load k' < load k)%nat) as Hless.
    { intros k' E1 E2 E3 E4. unfold load. rewrite E1, E2, E3, E4, Ed. cbn [length k0 answers with_answers].
      destruct (answers k); cbn [length tail]; lia. }
    unfold sendto. cbn -[load]. destruct (default true (head (replies k))) eqn:Er;
      (eexists; split; [reflexivity|]; split; [|split; [done|by apply Hless]]); [done|].
    by apply (accounts_frame clients _ _ Hsent); try apply Hsent. }
  assert (∀ a, head (answers k) = Some a → (load k0 < load k)%nat) as Hnext.
  { intros a E. apply load_next. intros E'. by rewrite E' in E. }
  destruct (head (answers k)) as [[| | |n]|]; cbn -[sendto load]; rewrite ?Ed; try exact Hsendto;
    (eexists; split; [reflexivity|]; split_and!; [done|done|by eapply Hnext]).
Qed.

Lemma ready_listener clients k : accounts clients k → readable listener udp k listener = true → listener <> udp → backlog k <> [].
Proof.
  intros Ha. unfold readable. destruct (conns k !! listener) as [c|] eqn:E.
  { by destruct (a_listed _ _ Ha _ _ E) as (_ & ? & _). }
  intros H Hn. rewrite (bool_decide_false (listener = udp)), orb_false_r in H by done.
  apply andb_true_iff in H as [_ H]. by destruct (backlog k).
Qed.
Lemma ready_udp clients k : accounts clients k → readable listener udp k udp = true → listener <> udp → dgrams k <> [].
Proof.
  intros Ha. unfold readable. destruct (conns k !! udp) as [c|] eqn:E.
  { by destruct (a_listed _ _ Ha _ _ E) as (_ & ? & _). }
  intros H Hn. rewrite (bool_decide_false (udp = listener)) in H by done.
  apply andb_true_iff in H as [_ H]. by destruct (dgrams k).
Qed.
Lemma ready_client k fd :
  fd ∉ O → readable listener udp k fd = true → ∃ c, conns k !! fd = Some c ∧ conn_ready c = true.
Proof.
  unfold readable. intros HO. destruct (conns k !! fd) as [c|]; [by exists c|].
  rewrite !bool_decide_false by (intros ->; done). done.
Qed.

Hypothesis Hdistinct : listener <> udp.

(** What is served before the table is gone through. *)
Lemma front_spec clients k :
  accounts clients k →
  ∃ clients1 k1 k2,
    (if readable listener udp k listener then accepted select_add else mret ()) (clients, k)
      = Some (Go (), (clients1, k1)) ∧
    (if readable listener udp k udp then echo_datagram else mret ()) (clients1, k1)
      = Some (Go (), (clients1, k2)) ∧
    accounts clients1 k1 ∧ accounts clients1 k2 ∧ conns k2 = conns k1 ∧ grows clients clients1 k k1 ∧
    (load k2 <= load k)%nat ∧
    (readable listener udp k listener = true ∨ readable listener udp k udp = true → (load k2 < load k)%nat).
Proof.
  intros Ha.
  assert (∃ clients1 k1, (if readable listener udp k listener then accepted select_add else mret ()) (clients, k)
      = Some (Go (), (clients1, k1)) ∧ accounts clients1 k1 ∧ grows clients clients1 k k1 ∧
      (load k1 <= load k)%nat ∧ (readable listener udp k listener = true → (load k1 < load k)%nat))
    as (clients1 & k1 & E1 & Ha1 & Hg & Hle & Hlt).
  { destruct (readable listener udp k listener) eqn:E.
    - destruct (accepted_spec clients k Ha) as (clients1 & k1 & H1 & H2 & H3 & H4); [by eapply ready_listener|].
      exists clients1, k1. split_and!; [done..|lia|done].
    - eexists _, _. split; [reflexivity|]. split_and!; [done|by apply grows_refl..|done|done]. }
  exists clients1, k1. destruct (readable listener udp k udp) eqn:E.
  - destruct (datagram_spec clients1 k1 Ha1) as (k2 & E2 & Ha2 & Hc & Hl).
    { rewrite (proj2 (proj2 Hg)). by eapply ready_udp. }
    exists k2. split_and!; try done; [lia|]. intros _. lia.
  - exists k1. split_and!; try done. intros [?|?]; [auto|done].
Qed.

Lemma serve_spec clients k :
  accounts clients k → ∃ e w, serve (readable listener udp k) (clients, k) = Some (e, w) ∧ outcome e w ∧
    (load w.2 <= load k)%nat ∧ ((∃ fd, readable listener udp k fd = true) → (load w.2 < load k)%nat).
Proof.
  intros Ha. destruct (front_spec clients k Ha)
    as (clients1 & k1 & k2 & E1 & E2 & Ha1 & Ha2 & Hc & (Hg1 & Hg2 & _) & Hle & Hlt).
  unfold serve. rewrite (step_go _ _ _ _ _ E1), (step_go _ _ _ _ _ E2).
  destruct (scan_spec (seq 0 CLIENT_MAX) (readable listener udp k) clients1 k2)
    as (e & w & E & Ho & Hle2 & Hlt2); [apply NoDup_seq|done| |].
  { intros i fd _ Hi Hpos HR.
    destruct (Hg2 fd) as [Hin|[Hnone HO]]; [apply list_elem_of_lookup; by eexists| |].
    - apply list_elem_of_lookup in Hin as [j Hj].
      destruct (a_slot _ _ Ha _ _ Hj) as [->|[c Hc']]; [lia|].
      unfold readable in HR. rewrite Hc' in HR. exists c. rewrite Hc. auto.
    - destruct (ready_client k fd HO HR) as (c & ? & _). congruence. }
  exists e, w. split_and!; [done|done|lia|]. intros [fd HR].
  destruct (decide (fd = listener)) as [->|]; [specialize (Hlt ltac:(by left)); lia|].
  destruct (decide (fd = udp)) as [->|]; [specialize (Hlt ltac:(by right)); lia|].
  assert (is_Some (conns k !! fd)) as [c Hcn].
  { unfold readable in HR. destruct (conns k !! fd); [done|].
    by rewrite !bool_decide_false in HR by done. }
  destruct (a_listed _ _ Ha1 fd c ltac:(by apply Hg1)) as (Hpos & _ & [i Hi]%list_elem_of_lookup).
  enough (load w.2 < load k2)%nat by lia. apply (Hlt2 i fd); [|done..].
  apply elem_of_seq. apply lookup_lt_Some in Hi. rewrite (a_length _ _ Ha1) in Hi. lia.
Qed.

Lemma round_turn_spec name r clients k :
  accounts clients k →
  ∃ e w, turn name r (clients, k) = Some (e, w) ∧
    match e with
    | Exit c => c = 1 ∧ ∃ k0, accounts clients k0 ∧ w = (clients, say name k0)
    | _ => outcome e w
    end.
Proof.
  intros Ha. destruct r; cbn [turn].
  - by eexists _, _.
  - eexists _, _. split; [reflexivity|]. split; [done|]. by exists k.
  - destruct (serve_spec clients k Ha) as (e & w & E & Ho & _). unfold mbind, step_bind. cbn [gets].
    exists e, w. split; [exact E|]. by destruct e.
Qed.

Lemma arrive_accounts clients k a : accounts clients k → accounts clients (arrive k a).
Proof.
  intros Ha.
  assert (∀ fd f, (∀ c, taken (f c) = taken c ∧ delivered (f c) = delivered c) → accounts clients (on_conn fd f k)) as Hon.
  { intros fd f Hf. unfold on_conn. destruct (conns k !! fd) as [c|] eqn:Ec; [|done].
    destruct (reset c); [done|]. destruct Ha. split; try done; cbn.
    - intros i fd' Hi. destruct (a_slot0 i fd' Hi) as [?|Hs]; [by left|]. right.
      destruct (decide (fd' = fd)) as [->|]; [rewrite lookup_insert_eq; by eexists|by rewrite lookup_insert_ne].
    - intros fd' c' Hc'. destruct (decide (fd' = fd)) as [->|]; [eauto|].
      rewrite lookup_insert_ne in Hc' by done. eauto.
    - intros fd' c' Hc'. destruct (decide (fd' = fd)) as [->|]; [|rewrite lookup_insert_ne in Hc' by done; eauto].
      rewrite lookup_insert_eq in Hc'. simplify_eq. destruct (Hf c) as [-> ->]. eauto.
    - intros Hs fd' c' Hc'. destruct (decide (fd' = fd)) as [->|]; [eauto|].
      rewrite lookup_insert_ne in Hc' by done. eauto. }
  destruct a as [s|fd s|fd|fd|peer s]; cbn [arrive]; try (apply Hon; intros c; by destruct c as [? []]).
  - apply (accounts_frame clients k); try done; [|apply Ha]. cbn.
    apply Forall_app. split; [apply Ha|by repeat constructor].
  - apply (accounts_frame clients k); try done; [apply Ha|]. cbn. intros Hf.
    rewrite !fmap_app, (assoc_L (++)), (a_asked _ _ Ha Hf). done.
Qed.
Lemma arrivals_accounts clients k l : accounts clients k → accounts clients (foldl arrive k l).
Proof. revert k. induction l as [|a l IH]; intros k Ha; [done|]. apply IH. by apply arrive_accounts. Qed.

Lemma accounts_start k :
  others k = O → conns k = ∅ → gone k = [] → bad_close k = false → answers k `suffix_of` A0 →
  replies k `suffix_of` B0 → Forall (λ c, taken c = [] ∧ delivered c = []) (backlog k) →
  answered k ++ (cut <$> dgrams k) = cut <$> asked k →
  accounts (replicate CLIENT_MAX (-1)) k.
Proof.
  intros Ho Hc Hg Hb H1 H2 H3 H4. split; rewrite ?Hc, ?Hg; try done.
  - intros i fd [-> _]%lookup_replicate. by left.
  - intros i j fd [-> _]%lookup_replicate. lia.
Qed.

(** How a run ends. *)
Definition finished (e : ends unit) (w : list Z * kernel) : Prop :=
  match e with
  | Running => accounts w.1 w.2
  | Exit c => c = 1 ∧ Forall settled (gone w.2) ∧ bad_close w.2 = false
  | _ => outcome e w ∧ e <> Go ()
  end.

Lemma loop_spec name rs clients k :
  accounts clients k → ∃ e w, loop (turn name) rs (clients, k) = Some (e, w) ∧ finished e w.
Proof.
  revert clients k. induction rs as [|r rs IH]; intros clients k Ha.
  { eexists _, _. by split. }
  cbn [loop]. unfold mbind at 1. unfold step_bind at 1. cbn [does fst snd].
  destruct (round_turn_spec name (wait r) clients (foldl arrive k (arrivals r))) as (e & w & E & Ho);
    [by apply arrivals_accounts|].
  unfold mbind, step_bind. rewrite E.
  destruct e as [[]| | | |]; try done.
  - destruct w as [l k1]. by apply IH.
  - eexists _, _. split; [reflexivity|]. by split.
  - eexists _, _. split; [reflexivity|]. destruct Ho as (-> & k0 & Ha0 & ->). cbn.
    split_and!; [done|apply Ha0..].
Qed.

(** ** The loop on select *)

Lemma scan_idle slots R clients k :
  (∀ fd, fd ∈ clients → 0 <= fd → R fd = false) → scan slots R (clients, k) = Some (Go (), (clients, k)).
Proof.
  intros HR. induction slots as [|i slots IH]; [done|]. cbn [scan]. unfold mbind, step_bind. cbn [local fst].
  assert ((0 <=? default (-1) (clients !! i)) && R (default (-1) (clients !! i)) = false) as ->; [|exact IH].
  destruct (clients !! i) as [fd|] eqn:E; cbn [default]; unfold id; [|done].
  destruct (Z.leb_spec 0 fd); [|done]. cbn. apply HR; [|done]. apply list_elem_of_lookup. by exists i.
Qed.

Lemma serve_idle R clients k :
  R listener = false → R udp = false → (∀ fd, fd ∈ clients → 0 <= fd → R fd = false) →
  serve R (clients, k) = Some (Go (), (clients, k)).
Proof. intros E1 E2 HR. unfold serve. rewrite E1, E2, !(step_go _ _ _ _ _ eq_refl). by apply scan_idle. Qed.

(** A turn leaves less to do, unless nothing is ready, and then it changes nothing. *)
Lemma turn_drains name clients k :
  accounts clients k → Stall ∉ A0 →
  ∃ clients' k', turn name Wakes (clients, k) = Some (Go (), (clients', k')) ∧ accounts clients' k' ∧
    (((∀ fd, readable listener udp k fd = false) ∧ clients' = clients ∧ k' = k) ∨ (load k' < load k)%nat).
Proof.
  intros Ha Hst. destruct (serve_spec clients k Ha) as (e & [clients' k'] & E & Ho & _ & Hlt).
  cbn [turn]. rewrite (step_go _ _ _ _ _ eq_refl). cbn [snd] in *. unfold id. rewrite E.
  destruct e as [[]| | | |]; try done; [|by destruct Ho].
  exists clients', k'. split; [done|]. split; [done|].
  destruct (decide (load k' < load k)%nat) as [|Hn]; [by right|left].
  assert (∀ fd, readable listener udp k fd = false) as Hidle.
  { intros fd. destruct (readable listener udp k fd) eqn:Er; [|done]. destruct Hn. apply Hlt. by exists fd. }
  split; [done|]. rewrite serve_idle in E by (intros; apply Hidle). by simplify_eq.
Qed.

(** A quiet round, in which nothing arrives. *)
Definition quiet : round := Round [] Wakes.

Lemma loop_idle name m clients k :
  accounts clients k → Stall ∉ A0 → (∀ fd, readable listener udp k fd = false) →
  loop (turn name) (replicate m quiet) (clients, k) = Some (Running, (clients, k)).
Proof.
  intros Ha Hst Hidle. induction m as [|m IH]; [done|]. cbn [replicate loop].
  rewrite (step_go _ _ _ _ _ eq_refl). cbn [fst snd arrivals quiet foldl wait].
  rewrite (step_go _ _ _ () (clients, k)); [done|].
  cbn [turn]. rewrite (step_go _ _ _ _ _ eq_refl). apply serve_idle; intros; apply Hidle.
Qed.

Lemma loop_drains name m clients k :
  accounts clients k → Stall ∉ A0 → (load k <= m)%nat →
  ∃ clients' k', loop (turn name) (replicate m quiet) (clients, k) = Some (Running, (clients', k')) ∧
    accounts clients' k' ∧ ∀ fd, readable listener udp k' fd = false.
Proof.
  revert clients k. induction m as [|m IH]; intros clients k Ha Hst Hm;
    destruct (turn_drains name clients k Ha Hst) as (clients1 & k1 & E & Ha1 & [(Hidle & _)|Hlt]);
    try (exists clients, k; split; [by apply loop_idle|done]); [lia|].
  destruct (IH clients1 k1 Ha1 Hst ltac:(lia)) as (clients' & k' & El & Ha' & Hidle).
  exists clients', k'. split; [|done]. cbn [replicate loop].
  rewrite (step_go _ _ _ _ _ eq_refl). cbn [fst snd arrivals quiet foldl wait].
  by rewrite (step_go _ _ _ _ _ E).
Qed.

Lemma loop_app name rs rs' clients k :
  accounts clients k →
  loop (turn name) (rs ++ rs') (clients, k) =
  match loop (turn name) rs (clients, k) with
  | Some (Running, w) => loop (turn name) rs' w
  | o => o
  end.
Proof.
  revert clients k. induction rs as [|r rs IH]; intros clients k Ha; [done|].
  cbn [loop app]. rewrite !(step_go _ _ _ _ _ eq_refl). cbn [fst snd].
  destruct (round_turn_spec name (wait r) clients (foldl arrive k (arrivals r))) as (e & [l k1] & E & Ho);
    [by apply arrivals_accounts|].
  unfold mbind, step_bind. rewrite E. destruct e as [[]| | | |]; try done. by apply IH.
Qed.

Lemma select_scan_ref slots reads R clients k :
  (∀ fd, fd ∈ clients → 0 <= fd → fd < FD_SETSIZE ∧ bool_decide (fd ∈ reads) = R fd) →
  select_scan slots reads (clients, k) = scan slots R (clients, k).
Proof.
  revert clients k. induction slots as [|i slots IH]; intros clients k HR; [done|].
  cbn [select_scan scan]. unfold mbind, step_bind. cbn [local fst].
  set (fd := default (-1) (clients !! i)).
  assert ((if 0 <=? fd then fd_isset reads fd else mret false) (clients, k)
    = Some (Go ((0 <=? fd) && R fd), (clients, k))) as ->.
  { destruct (Z.leb_spec 0 fd) as [Hpos|]; [|done]. unfold fd in *.
    destruct (clients !! i) as [x|] eqn:E; cbn [default] in *; unfold id in *; [|lia].
    destruct (HR x) as [Hx <-]; [apply list_elem_of_lookup; by exists i|done|].
    unfold fd_isset. by rewrite (proj2 (Z.ltb_lt _ _) Hx). }
  destruct ((0 <=? fd) && R fd); [|by apply IH].
  pose proof (alike_echo (L1 := list Z) (L2 := list Z) fd clients clients k) as He.
  destruct (echo_tcp_once fd (clients, k)) as [[e [l k1]]|]; [|done].
  destruct He as (_ & _ & -> & _). destruct e as [[]| | | |]; try done. cbn [gets snd].
  destruct (is_closed fd k1); cbn [local set_local fst snd]; apply IH; [|done].
  intros x [j Hj]%list_elem_of_lookup Hx.
  apply list_lookup_insert_Some in Hj as [(_ & <- & _)|[_ Hj]]; [lia|].
  apply HR; [|done]. apply list_elem_of_lookup. by exists j.
Qed.

Lemma fd_sets_spec clients reads m :
  (∀ fd, fd ∈ clients → 0 <= fd → fd < FD_SETSIZE) →
  ∃ reads' m', fd_sets clients reads m = Go (reads', m') ∧ m <= m' ∧
    (∀ fd, fd ∈ reads' ↔ fd ∈ reads ∨ (fd ∈ clients ∧ 0 <= fd)) ∧
    (∀ fd, fd ∈ clients → fd <= Z.max (-1) m').
Proof.
  revert reads m. induction clients as [|fd clients IH]; intros reads m Hs.
  { exists reads, m. split_and!; [done|lia|set_solver|set_solver]. }
  assert (∀ fd, fd ∈ clients → 0 <= fd → fd < FD_SETSIZE) as Hs' by (intros; apply Hs; [by right|done]).
  cbn [fd_sets]. destruct (Z.ltb_spec fd 0) as [Hn|Hpos].
  - destruct (IH reads m Hs') as (r & m' & -> & Hm & H1 & H2). exists r, m'. split_and!; [done|done| |].
    + intros x. rewrite H1, elem_of_cons. split; [tauto|]. intros [?|[[->|?] ?]]; [tauto|lia|tauto].
    + intros x [->|?]%elem_of_cons; [lia|auto].
  - rewrite (proj2 (Z.ltb_lt fd FD_SETSIZE)) by (apply Hs; [left|done]).
    destruct (IH ({[fd]} ∪ reads) (Z.max m fd) Hs') as (r & m' & -> & Hm & H1 & H2).
    exists r, m'. split_and!; [done|lia| |].
    + intros x. rewrite H1, elem_of_cons, elem_of_union, elem_of_singleton.
      split; [|tauto]. intros [[->|?]|?]; tauto.
    + intros x [->|?]%elem_of_cons; [lia|auto].
Qed.

Lemma clients_small clients k fd :
  accounts clients k → Z.of_nat (base.size O) <= 895 → fd ∈ clients → 0 <= fd → fd < FD_SETSIZE.
Proof.
  intros Ha Hs [i Hi]%list_elem_of_lookup Hp. destruct (a_slot _ _ Ha i fd Hi) as [|[c Hc]]; [lia|].
  by eapply (a_small _ _ Ha).
Qed.

(** While the process has few other descriptors the turn of [run_select] is the reference. *)
Lemma select_turn_ref r clients k :
  accounts clients k → Z.of_nat (base.size O) <= 895 →
  0 <= listener < FD_SETSIZE → 0 <= udp < FD_SETSIZE →
  select_turn listener udp r (clients, k) = turn (lit "select") r (clients, k).
Proof.
  intros Ha Hs Hl Hu. unfold select_turn. rewrite (step_go _ _ _ _ _ eq_refl). cbn [fst].
  destruct (fd_sets_spec clients {[listener; udp]} (Z.max listener udp)) as (reads & m & -> & Hm & Hin & Hmax).
  { intros. by eapply clients_small. }
  rewrite (step_go _ _ _ _ _ eq_refl). destruct r; cbn [turn]; [done|done|].
  rewrite (step_go _ _ _ _ _ eq_refl), (step_go (gets id) _ _ _ _ eq_refl). cbn [snd]. unfold id.
  set (R := readable listener udp k).
  assert (∀ fd, fd ∈ filter (λ fd, fd < m + 1 ∧ readable listener udp k fd = true) reads ↔
    R fd = true ∧ (fd = listener ∨ fd = udp ∨ (fd ∈ clients ∧ 0 <= fd))) as Hleft.
  { intros fd. rewrite elem_of_filter, Hin, elem_of_union, !elem_of_singleton. fold R. split.
    - tauto.
    - intros [H1 H2]. split_and!; [|done|tauto].
      destruct H2 as [->|[->|[Hc ?]]]; [lia|lia|]. specialize (Hmax fd Hc). lia. }
  unfold select. case_bool_decide as Hnone.
  - symmetry. apply serve_idle.
    + destruct (R listener) eqn:E; [|done]. exfalso. apply (not_elem_of_empty (C := gset Z) listener).
      rewrite <-Hnone, Hleft. tauto.
    + destruct (R udp) eqn:E; [|done]. exfalso. apply (not_elem_of_empty (C := gset Z) udp).
      rewrite <-Hnone, Hleft. tauto.
    + intros fd Hc Hp. destruct (R fd) eqn:E; [|done]. exfalso. apply (not_elem_of_empty (C := gset Z) fd).
      rewrite <-Hnone, Hleft. tauto.
  - clear Hnone. set (left_ := filter _ reads) in *.
    assert (∀ L fd (w : L * kernel), fd = listener ∨ fd = udp ∨ (fd ∈ clients ∧ 0 <= fd) → fd < FD_SETSIZE →
      fd_isset left_ fd w = Some (Go (R fd), w)) as Hisset.
    { intros L fd w Hfd Hsz. unfold fd_isset. rewrite (proj2 (Z.ltb_lt _ _) Hsz).
      assert (bool_decide (fd ∈ left_) = R fd) as ->; [|done].
      destruct (R fd) eqn:E; [apply bool_decide_true|apply bool_decide_false]; rewrite Hleft; [tauto|].
      intros [? _]. congruence. }
    rewrite (step_go _ _ _ _ _ (Hisset _ listener _ ltac:(tauto) ltac:(lia))).
    destruct (front_spec clients k Ha) as (clients1 & k1 & k2 & E1 & E2 & Ha1 & Ha2 & Hc & (Hg1 & Hg2 & _) & _).
    fold R in E1, E2. unfold serve. rewrite !(step_go _ _ _ _ _ E1).
    rewrite (step_go _ _ _ _ _ (Hisset _ udp _ ltac:(tauto) ltac:(lia))), !(step_go _ _ _ _ _ E2).
    apply select_scan_ref. intros fd Hfd Hp. split; [by eapply (clients_small clients1 k1)|].
    destruct (Hg2 fd Hfd) as [Hold|[Hnone HO]].
    + destruct (R fd) eqn:E; [apply bool_decide_true|apply bool_decide_false]; rewrite Hleft; [tauto|].
      intros [? _]. congruence.
    + assert (R fd = false) as HR.
      { destruct (R fd) eqn:E; [|done]. destruct (ready_client k fd HO E) as (c & ? & _). congruence. }
      rewrite HR. apply bool_decide_false. rewrite Hleft. intros [? _]. congruence.
Qed.

Lemma select_loop_ref rs clients k :
  accounts clients k → Z.of_nat (base.size O) <= 895 →
  0 <= listener < FD_SETSIZE → 0 <= udp < FD_SETSIZE →
  loop (select_turn listener udp) rs (clients, k) = loop (turn (lit "select")) rs (clients, k).
Proof.
  intros Ha Hs Hl Hu. revert clients k Ha. induction rs as [|r rs IH]; intros clients k Ha; [done|].
  cbn [loop]. rewrite !(step_go _ _ _ _ _ eq_refl). cbn [fst snd].
  assert (accounts clients (foldl arrive k (arrivals r))) as Ha1 by by apply arrivals_accounts.
  destruct (round_turn_spec (lit "select") (wait r) clients _ Ha1) as (e & w & E & Ho).
  unfold mbind, step_bind. rewrite select_turn_ref by done. rewrite E.
  destruct e as [[]| | | |]; try done. destruct w. by apply IH.
Qed.

(** ** The loop on poll *)

(** The test of [poll_scan] on an entry. *)
Definition flagged (p : pollfd) : bool :=
  negb (revents p =? 0) && has (revents p) (Z.lor POLLIN (Z.lor POLLHUP POLLERR)).

(** An array of [pollfd] for a table: the two sockets and an entry per slot, flagged when
    [R] says so. *)
Definition tabled (P : pollfd → Prop) (fds : list pollfd) (clients : list Z) : Prop :=
  ∃ p q ps, fds = p :: q :: ps ∧ pfd p = listener ∧ pfd q = udp ∧ pfd <$> ps = clients ∧ Forall P ps.
Definition marked (R : Z → bool) : list pollfd → list Z → Prop :=
  tabled (λ p, 0 <= pfd p → flagged p = R (pfd p)).
Definition related {A} (T : list pollfd → list Z → Prop)
    (o1 : option (ends A * (list pollfd * kernel))) (o2 : option (ends A * (list Z * kernel))) : Prop :=
  match o1, o2 with
  | Some (e1, (fds, k1)), Some (e2, (clients, k2)) => e1 = e2 ∧ k1 = k2 ∧ T fds clients
  | None, None => True
  | _, _ => False
  end.

Lemma related_bind {A B} T T' (m1 : step _ A) (m2 : step _ A) (f1 : A → step _ B) (f2 : A → step _ B) w1 w2 :
  related T (m1 w1) (m2 w2) →
  (∀ a fds clients k, T fds clients → m2 w2 = Some (Go a, (clients, k)) →
     related T' (f1 a (fds, k)) (f2 a (clients, k))) →
  (∀ fds clients, T fds clients → T' fds clients) →
  related T' ((m1 ≫= f1) w1) ((m2 ≫= f2) w2).
Proof.
  intros Hm Hf HT. unfold mbind, step_bind.
  destruct (m1 w1) as [[e1 [fds k1]]|], (m2 w2) as [[e2 [clients k2]]|]; try done.
  destruct Hm as (-> & -> & Ht). destruct e2; try (split_and!; auto; done). by apply Hf.
Qed.
Lemma related_alike {A} T (m1 : step _ A) (m2 : step _ A) fds clients k :
  alike m1 m2 → T fds clients → related T (m1 (fds, k)) (m2 (clients, k)).
Proof.
  intros Hm Ht. specialize (Hm fds clients k). unfold related.
  destruct (m1 (fds, k)) as [[e1 [fds1 k1]]|], (m2 (clients, k)) as [[e2 [clients2 k2]]|]; try done.
  by destruct Hm as (-> & -> & -> & ->).
Qed.

Lemma marked_lookup R fds clients i :
  marked R fds clients →
  pfd (default (Pollfd (-1) 0) (fds !! S (S i))) = default (-1) (clients !! i) ∧
  (0 <= default (-1) (clients !! i) →
   flagged (default (Pollfd (-1) 0) (fds !! S (S i))) = R (default (-1) (clients !! i))).
Proof.
  intros (p & q & ps & -> & _ & _ & <- & Hps). cbn. rewrite list_lookup_fmap.
  destruct (ps !! i) as [x|] eqn:E; cbn; [|by split].
  split; [done|]. rewrite Forall_lookup in Hps. by eapply Hps.
Qed.
Lemma tabled_insert P fds clients i p :
  tabled P fds clients → P p → tabled P (<[S (S i) := p]> fds) (<[i := pfd p]> clients).
Proof.
  intros (p1 & p2 & ps & -> & ? & ? & <- & Hps) Hp. exists p1, p2, (<[i := p]> ps).
  split_and!; [done..| |by apply Forall_insert]. by rewrite list_fmap_insert.
Qed.

Lemma poll_scan_ref slots R fds clients k :
  marked R fds clients →
  related (marked R) (poll_scan ((λ i, S (S i)) <$> slots) (fds, k)) (scan slots R (clients, k)).
Proof.
  revert fds clients k. induction slots as [|i slots IH]; intros fds clients k Hm; [done|].
  cbn [fmap list_fmap poll_scan scan]. rewrite !(step_go _ _ _ _ _ eq_refl). cbn [fst].
  destruct (marked_lookup R fds clients i Hm) as [Hp HR].
  set (p := default _ (fds !! _)) in *. set (fd := default _ (clients !! i)) in *. rewrite Hp.
  eapply related_bind; [|intros; by apply IH|done].
  destruct (Z.leb_spec 0 fd) as [Hpos|]; [|done]. cbn [andb]. specialize (HR Hpos).
  unfold flagged in HR. destruct (negb (revents p =? 0)); cbn [andb] in HR; [|by rewrite <-HR].
  rewrite HR. destruct (R fd); [|done].
  eapply related_bind; [apply related_alike; [apply alike_echo|exact Hm]| |done].
  intros [] fds1 clients1 k1 Hm1 _. rewrite !(step_go _ _ _ _ _ eq_refl). cbn [snd].
  destruct (is_closed fd k1); [|done]. rewrite !(step_go _ _ _ _ _ eq_refl). cbn [fst set_local].
  split_and!; [done..|]. apply (tabled_insert _ _ _ i (Pollfd (-1) (revents p))); [done|]. cbn. lia.
Qed.

Lemma revents_open k fd :
  0 <= fd → is_closed fd k = false →
  flagged (Pollfd fd (revents_of listener udp k fd)) = readable listener udp k fd ∧
  has (revents_of listener udp k fd) POLLIN = readable listener udp k fd ∧
  (revents_of listener udp k fd =? 0) = negb (readable listener udp k fd).
Proof.
  intros Hp Ho. unfold flagged, revents_of. cbn [revents]. rewrite Ho, (proj2 (Z.ltb_ge fd 0)) by done.
  destruct (conns k !! fd) as [c|] eqn:E.
  - destruct (reset c) eqn:Er.
    + assert (readable listener udp k fd = true) as ->; [|done].
      unfold readable, conn_ready. by rewrite E, Er, !orb_true_r.
    + by destruct (readable listener udp k fd).
  - by destruct (readable listener udp k fd).
Qed.

Lemma socket_open clients k fd : accounts clients k → fd ∈ O → is_closed fd k = false.
Proof.
  intros Ha Hfd. unfold is_closed, open_fds. rewrite (a_others _ _ Ha).
  by rewrite bool_decide_true by set_solver.
Qed.
Lemma client_open clients k fd : accounts clients k → fd ∈ clients → 0 <= fd → is_closed fd k = false.
Proof.
  intros Ha [i Hi]%list_elem_of_lookup Hp. destruct (a_slot _ _ Ha i fd Hi) as [|Hc]; [lia|].
  unfold is_closed, open_fds. rewrite bool_decide_true; [done|]. apply elem_of_union. right. by apply elem_of_dom.
Qed.

(** A new client is not flagged and was not ready when the wait ended. *)
Lemma poll_add_ref R fds clients k fd :
  marked R fds clients → R fd = false →
  related (marked R) (poll_add fd (fds, k)) (select_add fd (clients, k)).
Proof.
  intros Hm HR. unfold poll_add, select_add. rewrite !(step_go _ _ _ _ _ eq_refl). cbn [fst].
  pose proof Hm as (p & q & ps & -> & Hp & Hq & <- & Hps). cbn [drop]. rewrite drop_0.
  destruct (first_free (pfd <$> ps)) as [i|]; cbn [set_local].
  2: { unfold related, does; cbn [fst snd]. by split_and!. }
  split_and!; [done..|].
  apply (tabled_insert _ _ _ i (Pollfd fd 0)); [done|]. cbn. by rewrite HR.
Qed.
Lemma accepted_ref R fds clients k :
  marked R fds clients → (∀ fd, fd ∉ open_fds k → R fd = false) →
  related (marked R) (accepted poll_add (fds, k)) (accepted select_add (clients, k)).
Proof.
  intros Hm HR. unfold accepted. rewrite !(step_go _ _ _ _ _ eq_refl). cbn [fst snd].
  assert (∀ fd, (accept k).1 = Answer fd → R fd = false) as Hnew.
  { intros fd. unfold accept, next.
    destruct (head (answers k)) as [[| | |n]|]; cbn -[lowest]; try done;
      (destruct (backlog k); [done|]; intros [= <-]; apply HR, lowest_spec). }
  destruct (accept k) as [r k1]. cbn [fst snd] in *.
  destruct r as [fd|[]|]; try done. by apply poll_add_ref; auto.
Qed.

(** The turn of [run_poll] is the reference. *)
Lemma poll_turn_ref r fds clients k :
  accounts clients k → 0 <= listener → 0 <= udp → tabled (λ _, True) fds clients →
  related (tabled (λ _, True)) (poll_turn listener udp r (fds, k)) (turn (lit "poll") r (clients, k)).
Proof.
  intros Ha Hl Hu Ht. destruct r; cbn [turn poll_turn]; [done|done|].
  rewrite !(step_go _ _ _ _ _ eq_refl). cbn [fst snd]. unfold id.
  set (R := readable listener udp k). destruct Ht as (p & q & ps & -> & Hp & Hq & Hps & _).
  destruct (revents_open k listener Hl (socket_open _ _ _ Ha Hlistener)) as (_ & L1 & L2).
  destruct (revents_open k udp Hu (socket_open _ _ _ Ha Hudp)) as (_ & U1 & U2).
  assert (∀ fd, fd ∈ clients → 0 <= fd → flagged (Pollfd fd (revents_of listener udp k fd)) = R fd ∧
    (revents_of listener udp k fd =? 0) = negb (R fd)) as Hc.
  { intros fd Hfd Hpos. destruct (revents_open k fd Hpos) as (? & _ & ?); [|done]. by eapply client_open. }
  unfold poll. cbn [fmap list_fmap]. set (ps' := polled listener udp k <$> ps).
  assert (marked R (polled listener udp k p :: polled listener udp k q :: ps') clients) as Hm.
  { exists (polled listener udp k p), (polled listener udp k q), ps'. split_and!; [done..| |].
    - rewrite <-Hps. unfold ps'. by rewrite <-list_fmap_compose.
    - apply Forall_fmap, Forall_forall. intros x Hx Hpos. apply Hc; [|done].
      rewrite <-Hps. apply list_elem_of_fmap. by exists x. }
  destruct (forallb _ _) eqn:Enone.
  - cbn [forallb polled revents] in Enone. rewrite !andb_true_iff, Hp, Hq, L2, U2 in Enone.
    destruct Enone as (E1 & E2 & E3). apply negb_true_iff in E1, E2.
    rewrite serve_idle; [|done|done|].
    { split_and!; [done..|]. exists p, q, ps. split_and!; try done. by apply Forall_true. }
    intros fd Hfd Hpos. destruct (Hc fd Hfd Hpos) as [_ E].
    rewrite forallb_forall in E3. rewrite <-Hps in Hfd. apply list_elem_of_fmap in Hfd as (x & -> & Hx).
    assert ((revents_of listener udp k (pfd x) =? 0) = true) as E4.
    { apply (E3 (polled listener udp k x)). apply list_elem_of_In, list_elem_of_fmap. by exists x. }
    rewrite E4 in E. destruct (R (pfd x)); done.
  - rewrite (step_go _ _ _ _ _ eq_refl). cbn [set_local lookup list_lookup fmap option_fmap option_map default polled revents snd].
    unfold id. rewrite Hp, Hq, L1, U1. fold R. unfold serve.
    destruct (front_spec clients k Ha) as (clients1 & k1 & k2 & E1 & E2 & Ha1 & Ha2 & Hcs & Hg & _).
    fold R in E1, E2.
    apply (related_bind (marked R)).
    + destruct (R listener); [|done]. apply accepted_ref; [done|].
      intros fd Hfd. destruct (R fd) eqn:E; [|done]. unfold R in E. exfalso. apply Hfd.
      unfold open_fds. rewrite (a_others _ _ Ha). apply elem_of_union.
      destruct (decide (fd ∈ O)); [by left|right]. destruct (ready_client k fd) as (c & Hc' & _); [done..|].
      apply elem_of_dom. by exists c.
    + intros [] fds2 clients2 k3 Hm2 _. apply (related_bind (marked R)).
      * destruct (R udp); [|done]. apply related_alike; [apply alike_datagram|done].
      * intros [] fds3 clients3 k4 Hm3 _.
        assert (related (marked R) (poll_scan (seq 2 CLIENT_MAX) (fds3, k4)) (scan (seq 0 CLIENT_MAX) R (clients3, k4)))
          as Hscan by by apply (poll_scan_ref (seq 0 CLIENT_MAX)).
        unfold related in *. destruct (poll_scan _ _) as [[? []]|], (scan _ _ _) as [[? []]|]; try done.
        destruct Hscan as (-> & -> & a & b & rest & ? & ? & ? & ? & _). split_and!; [done..|].
        exists a, b, rest. split_and!; try done. by apply Forall_true.
      * intros f l (a & b & l' & ? & ? & ? & ? & _). exists a, b, l'. split_and!; try done. by apply Forall_true.
    + intros f l (a & b & l' & ? & ? & ? & ? & _). exists a, b, l'. split_and!; try done. by apply Forall_true.
Qed.

Lemma poll_loop_ref rs fds clients k :
  accounts clients k → 0 <= listener → 0 <= udp → tabled (λ _, True) fds clients →
  related (tabled (λ _, True)) (loop (poll_turn listener udp) rs (fds, k)) (loop (turn (lit "poll")) rs (clients, k)).
Proof.
  intros Ha Hl Hu. revert fds clients k Ha. induction rs as [|r rs IH]; intros fds clients k Ha Ht; [done|].
  cbn [loop]. rewrite !(step_go _ _ _ _ _ eq_refl). cbn [fst snd].
  assert (accounts clients (foldl arrive k (arrivals r))) as Ha1 by by apply arrivals_accounts.
  eapply related_bind; [by apply poll_turn_ref| |done].
  intros [] fds1 clients1 k1 Ht1 E. apply IH; [|done].
  destruct (round_turn_spec (lit "poll") (wait r) clients _ Ha1) as (e & w & E' & Ho).
  rewrite E in E'. by simplify_eq.
Qed.
End served.
End accounts.

(** ** The whole program *)

(** A process before its first socket: it may have descriptors of its own. *)
Definition idle (X : gset Z) (k0 k : kernel) : Prop :=
  others k = X ∧ conns k = ∅ ∧ gone k = [] ∧ backlog k = [] ∧ dgrams k = [] ∧ asked k = [] ∧
  answered k = [] ∧ bad_close k = false ∧ answers k = answers k0 ∧ replies k = replies k0.
Definition started (k : kernel) : Prop := idle (others k) k k.

Lemma make_bound_socket_spec X k0 k :
  idle X k0 k →
  ∃ fd k1, make_bound_socket ((), k) = Some (Go fd, ((), k1)) ∧
    ((fd = -1 ∧ idle X k0 k1) ∨ (fd = lowest X ∧ idle ({[fd]} ∪ X) k0 k1)).
Proof.
  intros Hi. pose proof Hi as (Ho & Hc & Hg & Hb & Hd & Ha & Han & Hbad & Hans & Hrep).
  assert (open_fds k = X) as HX by (unfold open_fds; by rewrite Ho, Hc, dom_empty_L, (right_id_L ∅ (∪))).
  destruct (lowest_spec X) as [Hn _].
  assert (∀ k1, idle ({[lowest X]} ∪ X) k0 k1 → idle X k0 (close (lowest X) k1)) as Hclose.
  { intros k1 (Ho1 & Hc1 & ?). unfold close. rewrite Hc1, lookup_empty, Ho1, bool_decide_true by set_solver.
    split_and!; [|done|by destruct_and!..]. cbn. set_solver. }
  assert (∀ k1 s, idle ({[lowest X]} ∪ X) k0 k1 → idle ({[lowest X]} ∪ X) k0 (say s k1)) as Hsay by done.
  set (k1 := with_others ({[lowest X]} ∪ others (syscall k).2) (syscall k).2).
  assert (idle ({[lowest X]} ∪ X) k0 k1) as H1 by (unfold k1; split_and!; cbn; congruence).
  unfold make_bound_socket. rewrite (step_go _ _ _ _ _ eq_refl). cbn [fst snd].
  destruct (syscall k).1; cbn [negb].
  2: { eexists _, _. split; [reflexivity|]. by left. }
  rewrite (step_go _ _ _ _ _ eq_refl). cbn [snd]. change (open_fds (syscall k).2) with (open_fds k). rewrite HX.
  rewrite (step_go _ _ _ _ _ eq_refl). cbn [fst snd]. fold k1.
  rewrite (step_go _ _ _ _ _ eq_refl). cbn [fst snd].
  destruct (syscall k1).1; cbn [negb].
  2: { eexists _, _. split; [reflexivity|]. left. split; [done|]. by apply Hclose. }
  rewrite (step_go _ _ _ _ _ eq_refl). cbn [fst snd].
  destruct (syscall (syscall k1).2).1; cbn [negb].
  2: { eexists _, _. split; [reflexivity|]. left. split; [done|]. by apply Hclose. }
  eexists _, _. split; [reflexivity|]. by right.
Qed.

(** What [main] does with two sockets. *)
Definition serving (mode : bytes) (tcp udp : Z) (rs : list round) : step unit unit :=
  if str_eqb mode (lit "select") then
    if (FD_SETSIZE <=? tcp) || (FD_SETSIZE <=? udp)
    then does (say (lit "fd exceeds FD_SETSIZE; select cannot watch it")) ;; ending (Exit 1)
    else calling [] (run_select tcp udp rs)
  else if str_eqb mode (lit "poll") then calling [] (run_poll tcp udp rs)
  else does (say (lit "mode must be select or poll")) ;; ending (Exit 2).

Lemma main_start port k0 :
  started k0 →
  (∃ c k, (c = 1 ∨ c = 2) ∧ gone k = [] ∧ bad_close k = false ∧
     ∀ mode rs, main [mode; port] rs ((), k0) = Some (Exit c, ((), k))) ∨
  (∃ tcp udp k, tcp <> udp ∧ 0 <= tcp <= Z.of_nat (base.size (others k0)) ∧
     0 <= udp <= Z.of_nat (S (base.size (others k0))) ∧
     idle ({[udp]} ∪ ({[tcp]} ∪ others k0)) k0 k ∧
     Z.of_nat (base.size ({[udp]} ∪ ({[tcp]} ∪ others k0) : gset Z)) <= Z.of_nat (base.size (others k0)) + 2 ∧
     ∀ mode rs, main [mode; port] rs ((), k0) = serving mode tcp udp rs ((), k)).
Proof.
  intros Hst. unfold main. destruct (parse_port port) as [p|].
  2: { left. eexists 2, _. split; [by right|]. split; [|split; [|intros; reflexivity]]; apply Hst. }
  destruct (make_bound_socket_spec _ _ _ Hst) as (tcp & k1 & E1 & H1).
  assert (∃ X, idle X k0 k1) as [X HX] by (destruct H1 as [[_ ?]|[_ ?]]; by eexists).
  destruct (make_bound_socket_spec _ _ _ HX) as (udp & k2 & E2 & H2).
  setoid_rewrite (step_go _ _ _ _ _ E1). setoid_rewrite (step_go _ _ _ _ _ E2).
  assert (gone k2 = [] ∧ bad_close k2 = false) as [Hg Hb].
  { destruct H2 as [[_ H2]|[_ H2]]; split; apply H2. }
  destruct ((tcp <? 0) || (udp <? 0)) eqn:Eneg.
  { left. eexists 1, _. split; [by left|]. split; [|split; [|intros; reflexivity]]; done. }
  apply orb_false_iff in Eneg as [En1 En2]. apply Z.ltb_ge in En1, En2.
  destruct H1 as [[-> _]|[-> H1]]; [lia|].
  assert (X = {[lowest (others k0)]} ∪ others k0) as -> by (destruct HX as [<- _], H1 as [<- _]; done).
  destruct H2 as [[-> _]|[Eu H2]]; [lia|].
  setoid_rewrite (step_go (sys syscall) _ _ _ _ eq_refl). cbn [fst snd].
  destruct (syscall k2).1; cbn [negb].
  2: { left. eexists 1, _. split; [by left|]. split; [|split; [|intros; reflexivity]]; done. }
  right. destruct (lowest_spec (others k0)) as [Hn1 Hl1].
  destruct (lowest_spec ({[lowest (others k0)]} ∪ others k0)) as [Hn2 Hl2]. rewrite <-Eu in Hn2, Hl2.
  assert (∀ fd (Y : gset Z), fd ∉ Y → base.size ({[fd]} ∪ Y) = S (base.size Y)) as Hsize.
  { intros fd Y HY. rewrite size_union, size_singleton by set_solver. done. }
  rewrite Hsize in Hl2 by done.
  exists (lowest (others k0)), udp, (say (lit "TCP+UDP echo on 127.0.0.1:" ++ show_int p ++ lit " (Ctrl+C to stop)" ++ [newline])
    (syscall k2).2).
  split_and!; try lia; [set_solver|by apply H2..| |done].
  rewrite !Hsize by done. lia.
Qed.

Lemma idle_accounts X k0 k :
  idle X k0 k → accounts (answers k0) (replies k0) X (replicate CLIENT_MAX (-1)) k.
Proof.
  intros (Ho & Hc & Hg & Hb & Hd & Ha & Han & Hbad & Hans & Hrep).
  apply accounts_start; try done; rewrite ?Hans, ?Hrep, ?Hb, ?Han, ?Hd, ?Ha; done.
Qed.

(** A run of [main] after the set-up is one of the reference loop. *)
Lemma serving_select tcp udp rs O k0 k :
  accounts (answers k0) (replies k0) O (replicate CLIENT_MAX (-1)) k →
  tcp ∈ O → udp ∈ O → tcp <> udp → 0 <= tcp < FD_SETSIZE → 0 <= udp < FD_SETSIZE →
  Z.of_nat (base.size O) <= 895 →
  serving (lit "select") tcp udp rs ((), k) =
  calling (replicate CLIENT_MAX (-1)) (loop (turn tcp udp (lit "select")) rs) ((), k).
Proof.
  intros Ha Ht Hu Hn Htz Huz Hs. unfold serving.
  change (str_eqb (lit "select") (lit "select")) with true. cbv iota.
  rewrite !(proj2 (Z.leb_gt FD_SETSIZE _)) by lia. cbn [orb]. unfold calling, run_select.
  rewrite (step_go _ _ _ _ _ eq_refl). cbn [fst snd].
  by rewrite (select_loop_ref (answers k0) (replies k0) tcp udp O).
Qed.
Lemma serving_poll tcp udp rs O k0 k :
  accounts (answers k0) (replies k0) O (replicate CLIENT_MAX (-1)) k →
  tcp ∈ O → udp ∈ O → tcp <> udp → 0 <= tcp → 0 <= udp →
  serving (lit "poll") tcp udp rs ((), k) =
  calling (replicate CLIENT_MAX (-1)) (loop (turn tcp udp (lit "poll")) rs) ((), k).
Proof.
  intros Ha Ht Hu Hn Htz Huz. unfold serving.
  change (str_eqb (lit "poll") (lit "select")) with false. change (str_eqb (lit "poll") (lit "poll")) with true.
  cbv iota. unfold calling, run_poll. rewrite (step_go _ _ _ _ _ eq_refl). cbn [fst snd].
  assert (tabled tcp udp (λ _, True) (Pollfd tcp 0 :: Pollfd udp 0 :: replicate CLIENT_MAX (Pollfd (-1) 0))
    (replicate CLIENT_MAX (-1))) as Htab.
  { eexists _, _, _. split_and!; [done..|]. by apply Forall_true. }
  pose proof (poll_loop_ref (answers k0) (replies k0) tcp udp O Ht Hu Hn rs _ _ k Ha Htz Huz Htab) as H.
  unfold related in H.
  destruct (loop _ _ _) as [[e1 [? ?]]|], (loop _ _ (replicate _ _, _)) as [[e2 [? ?]]|]; try done.
  by destruct H as (-> & -> & _).
Qed.

(** When nothing can be read all that has arrived is on its way back. *)
Definition at_rest (tcp udp : Z) (k0 k : kernel) : Prop :=
  (∀ fd, readable tcp udp k fd = false) →
  backlog k = [] ∧ dgrams k = [] ∧ (∀ fd c, conns k !! fd = Some c → unread c = [] ∧ fin c = false) ∧
  (fair (answers k0) (replies k0) → answered k = cut <$> asked k).

(** Everything that has arrived has been read and sent back. *)
Definition all_back (k0 k : kernel) : Prop :=
  backlog k = [] ∧ dgrams k = [] ∧
  (∀ fd c, conns k !! fd = Some c →
     unread c = [] ∧ fin c = false ∧ reset c = false ∧ delivered c = taken c) ∧
  (fair (answers k0) (replies k0) → answered k = cut <$> asked k).

Lemma accounts_at_rest tcp udp O clients k0 k :
  accounts (answers k0) (replies k0) O clients k → tcp ∈ O → udp ∈ O → at_rest tcp udp k0 k.
Proof.
  intros Ha Ht Hu Hr.
  assert (∀ fd, fd ∈ O → conns k !! fd = None) as Hno.
  { intros fd Hfd. destruct (conns k !! fd) as [c|] eqn:E; [|done]. by destruct (a_listed _ _ _ _ _ Ha _ _ E) as (_ & ? & _). }
  assert (backlog k = []) as Hb.
  { specialize (Hr tcp). unfold readable in Hr. rewrite Hno, bool_decide_true in Hr by done.
    apply orb_false_iff in Hr as [Hr _]. by destruct (backlog k). }
  assert (dgrams k = []) as Hd.
  { specialize (Hr udp). unfold readable in Hr. rewrite Hno, (bool_decide_true (udp = udp)) in Hr by done.
    apply orb_false_iff in Hr as [_ Hr]. by destruct (dgrams k). }
  split_and!; [done|done| |].
  - intros fd c Hc. specialize (Hr fd). unfold readable, conn_ready in Hr. rewrite Hc in Hr.
    destruct (unread c), (fin c); done.
  - intros Hf. rewrite <-(a_asked _ _ _ _ _ Ha Hf), Hd. by rewrite app_nil_r.
Qed.

Lemma accounts_all_back tcp udp O clients k0 k :
  accounts (answers k0) (replies k0) O clients k → tcp ∈ O → udp ∈ O →
  (∀ fd, readable tcp udp k fd = false) → all_back k0 k.
Proof.
  intros Ha Ht Hu Hr. destruct (accounts_at_rest tcp udp O clients k0 k Ha Ht Hu Hr) as (? & ? & Hc & ?).
  split_and!; [done..| |done]. intros fd c E. destruct (Hc fd c E). specialize (Hr fd).
  unfold readable, conn_ready in Hr. rewrite E in Hr. apply orb_false_iff in Hr as [_ ?].
  split_and!; [done..|]. by eapply (a_echoed _ _ _ _ _ Ha).
Qed.

(** C16. In either mode the program stops with 1 or 2, waits for ever on a peer that takes
    nothing, or still runs.  It closes nothing twice, and every connection it closed had got
    back a prefix of what it had sent: all of it, up to its end, unless a call failed, the
    peer had reset it, or it was turned away unread while 128 others were open.  While it
    runs everything read has been sent back; and when from then on nothing else arrives, and
    no peer stops taking, then after as many turns as there are bytes, connections,
    datagrams and failures to come ([load]) every connection has been accepted and either
    closed in that way or read to the last byte and answered in full, and every datagram has
    been taken.  The [select] mode needs this when the process starts with many open
    descriptors. *)
Theorem select_poll_serves argv rs k0 :
  started k0 →
  (head argv = Some (lit "select") → (base.size (others k0) <= 893)%nat) →
  ∃ e k, main argv rs ((), k0) = Some (e, ((), k)) ∧ bad_close k = false ∧
    Forall (settled (answers k0) (replies k0)) (gone k) ∧
    match e with
    | Exit c => c = 1 ∨ c = 2
    | Blocked => Stall ∈ answers k0
    | Running => (∀ fd c, conns k !! fd = Some c → delivered c = taken c) ∧
        (Stall ∉ answers k0 → ∀ m, (load k <= m)%nat →
           ∃ k', main argv (rs ++ replicate m quiet) ((), k0) = Some (Running, ((), k')) ∧
             Forall (settled (answers k0) (replies k0)) (gone k') ∧ all_back k0 k')
    | _ => False
    end.
Proof.
  intros Hst Hfew.
  assert (∀ k s, idle (others k0) k0 k → bad_close (say s k) = false ∧
    Forall (settled (answers k0) (replies k0)) (gone (say s k))) as Hsay.
  { intros k s (_ & _ & Hg & _ & _ & _ & _ & Hb & _). cbn. by rewrite Hg. }
  destruct argv as [|mode [|port [|]]];
    try (eexists _, _; split; [reflexivity|]; destruct (Hsay k0 (lit "usage: select_poll select|poll PORT") Hst);
         split_and!; [done..|by right]).
  destruct (main_start port k0 Hst) as
    [(c & k & Hc & Hg & Hb & E)|(tcp & udp & k & Hn & Ht & Hu & Hi & Hs & E)].
  { exists (Exit c), k. rewrite E, Hg. by split_and!. }
  set (O := {[udp]} ∪ ({[tcp]} ∪ others k0)) in *.
  assert (tcp ∈ O ∧ udp ∈ O) as [HtO HuO] by (unfold O; set_solver).
  assert (accounts (answers k0) (replies k0) O (replicate CLIENT_MAX (-1)) k) as Ha by by apply idle_accounts.
  assert (bad_close k = false ∧ gone k = []) as [Hb Hg] by (split; apply Hi).
  assert (∀ name, (∀ rs, main [mode; port] rs ((), k0) =
      calling (replicate CLIENT_MAX (-1)) (loop (turn tcp udp name) rs) ((), k)) →
    ∃ e k', main [mode; port] rs ((), k0) = Some (e, ((), k')) ∧ bad_close k' = false ∧
      Forall (settled (answers k0) (replies k0)) (gone k') ∧
      match e with
      | Exit c => c = 1 ∨ c = 2
      | Blocked => Stall ∈ answers k0
      | Running => (∀ fd c, conns k' !! fd = Some c → delivered c = taken c) ∧
          (Stall ∉ answers k0 → ∀ m, (load k' <= m)%nat →
             ∃ k2, main [mode; port] (rs ++ replicate m quiet) ((), k0) = Some (Running, ((), k2)) ∧
               Forall (settled (answers k0) (replies k0)) (gone k2) ∧ all_back k0 k2)
      | _ => False
      end) as Hloop.
  { intros name Emain. destruct (loop_spec (answers k0) (replies k0) tcp udp O HtO HuO Hn name rs _ k Ha)
      as (e & [l k'] & El & Hf). exists e, k'. rewrite !Emain. unfold calling. cbn [snd]. rewrite El. split; [done|].
    destruct e; cbn in Hf.
    - destruct a. by destruct Hf.
    - destruct Hf as ((? & ? & ?) & _). by split_and!.
    - split_and!; [apply Hf..|]. intros Hstall m Hm. rewrite Emain. unfold calling. cbn [snd].
      destruct (loop_drains (answers k0) (replies k0) tcp udp O HtO HuO Hn name m l k' Hf Hstall Hm)
        as (l2 & k2 & El2 & Ha2 & Hidle).
      rewrite (loop_app (answers k0) (replies k0) tcp udp O HtO HuO Hn) by done. rewrite El, El2.
      exists k2. split_and!; [done|apply Ha2|exact (accounts_all_back tcp udp O l2 k0 k2 Ha2 HtO HuO Hidle)].
    - destruct Hf as (? & ? & ?). split_and!; [done..|by left].
    - by destruct Hf. }
  destruct (str_eqb mode (lit "select")) eqn:E1.
  - apply bool_decide_eq_true in E1 as ->. specialize (Hfew eq_refl).
    apply (Hloop (lit "select")). intros rs'. rewrite E.
    apply (serving_select tcp udp rs' O k0); unfold FD_SETSIZE; (done || lia).
  - destruct (str_eqb mode (lit "poll")) eqn:E2.
    + apply bool_decide_eq_true in E2 as ->. apply (Hloop (lit "poll")). intros rs'. rewrite E.
      apply (serving_poll tcp udp rs' O k0); (done || lia).
    + rewrite E. unfold serving. rewrite E1, E2.
      eexists (Exit 2), _. split; [reflexivity|]. cbn. rewrite Hg. split_and!; [done..|by right].
Qed.

Definition empty_kernel (X : gset Z) (l : list answer) : kernel :=
  Kernel l [] [] X ∅ [] [] [] [] [] false [].

Lemma select_poll_serves_witness :
  let k0 := empty_kernel {[0; 1; 2]} [Move 1; Signal] in
  let argv := [lit "poll"; lit "7000"] in
  let rs := [Round [Connects (lit "hi"); Asks 5 (lit "yo")] Wakes] in
  ∃ k, main argv rs ((), k0) = Some (Running, ((), k)) ∧ load k = 4%nat ∧
    ∃ k', main argv (rs ++ replicate 4 quiet) ((), k0) = Some (Running, ((), k')) ∧
      Forall (settled (answers k0) (replies k0)) (gone k') ∧ all_back k0 k'.
Proof.
  intros k0 argv rs.
  destruct (select_poll_serves argv rs k0) as (e & k & E & _ & _ & He); [repeat split|intros H; discriminate H|].
  assert (match main argv rs ((), k0) with Some (Running, (_, k)) => load k = 4%nat | _ => False end) as Hl
    by (vm_compute; reflexivity).
  rewrite E in Hl. destruct e as [a| | |c|]; [destruct Hl|destruct Hl| |destruct Hl|destruct Hl].
  assert (Stall ∉ [Move 1; Signal]) as Hns
    by (intros [H|[H|H%elem_of_nil]%elem_of_cons]%elem_of_cons; done).
  assert (load k <= 4)%nat as Hle by (rewrite Hl; apply le_n).
  exists k. split; [exact E|]. split; [exact Hl|]. exact (proj2 He Hns 4%nat Hle).
Defined.

(** *** The two modes *)

(** Only the text of an error of the wait tells them apart. *)
Definition same_but_text (e : ends unit) (k1 k2 : kernel) : Prop :=
  k1 = k2 ∨ (e = Exit 1 ∧ ∃ k, k1 = say (lit "select") k ∧ k2 = say (lit "poll") k).

Lemma loops_names tcp udp rs w :
  match loop (turn tcp udp (lit "select")) rs w, loop (turn tcp udp (lit "poll")) rs w with
  | Some (e1, w1), Some (e2, w2) => e1 = e2 ∧ w1.1 = w2.1 ∧ same_but_text e1 w1.2 w2.2
  | None, None => True
  | _, _ => False
  end.
Proof.
  revert w. induction rs as [|r rs IH]; intros w; [split_and!; by try left|].
  cbn [loop]. rewrite !(step_go _ _ _ _ _ eq_refl). destruct (wait r); cbn [turn].
  - rewrite !(step_go _ _ _ _ _ eq_refl). apply IH.
  - split_and!; [done..|]. right. split; [done|]. by eexists.
  - set (m := gets id ≫= _). unfold mbind, step_bind. destruct (m _) as [[[[]| | | |] w1]|]; try done;
      [apply IH|split_and!; by try left..].
Qed.

(** C15. On the same rounds [select] and [poll] do the same, call by call, unless the process
    starts with more descriptors than [select] can watch. *)
Theorem select_poll_agree port rs k0 :
  started k0 → (base.size (others k0) <= 893)%nat →
  ∃ e k1 k2, main [lit "select"; port] rs ((), k0) = Some (e, ((), k1)) ∧
    main [lit "poll"; port] rs ((), k0) = Some (e, ((), k2)) ∧ same_but_text e k1 k2.
Proof.
  intros Hst Hfew. destruct (main_start port k0 Hst) as
    [(c & k & _ & _ & _ & E)|(tcp & udp & k & Hn & Ht & Hu & Hi & Hs & E)].
  { exists (Exit c), k, k. rewrite !E. split_and!; try done. by left. }
  set (O := {[udp]} ∪ ({[tcp]} ∪ others k0)) in *.
  assert (tcp ∈ O ∧ udp ∈ O) as [HtO HuO] by (unfold O; set_solver).
  assert (accounts (answers k0) (replies k0) O (replicate CLIENT_MAX (-1)) k) as Ha by by apply idle_accounts.
  rewrite !E, (serving_select tcp udp rs O k0), (serving_poll tcp udp rs O k0)
    by (unfold FD_SETSIZE; (done || lia)).
  unfold calling. cbn [snd]. pose proof (loops_names tcp udp rs (replicate CLIENT_MAX (-1), k)) as H.
  destruct (loop_spec _ _ tcp udp O HtO HuO Hn (lit "select") rs _ k Ha) as (e & [l k1] & E1 & _).
  rewrite E1 in *. destruct (loop _ _ _) as [[e2 [l2 k2]]|]; [|done].
  destruct H as (-> & _ & H). by exists e2, k1, k2.
Qed.

Lemma select_poll_agree_witness :
  ∃ e k1 k2, main [lit "select"; lit "7000"] [Round [Connects (lit "hi")] Wakes; Round [] WaitFails]
      ((), empty_kernel {[0; 1; 2]} []) = Some (e, ((), k1)) ∧
    main [lit "poll"; lit "7000"] [Round [Connects (lit "hi")] Wakes; Round [] WaitFails]
      ((), empty_kernel {[0; 1; 2]} []) = Some (e, ((), k2)) ∧ same_but_text e k1 k2.
Proof.
  apply (select_poll_agree (lit "7000") [Round [Connects (lit "hi")] Wakes; Round [] WaitFails]
    (empty_kernel {[0; 1; 2]} [])).
  - repeat split.
  - apply Nat.leb_le. vm_compute. reflexivity.
Defined.

(** *** Runs *)

Definition ending_of {A} (o : option (ends A * (unit * kernel))) : option (ends A * list conn * list (Z * bytes)) :=
  (λ r, (r.1, (map_to_list (conns r.2.2)).*2, answered r.2.2)) <$> o.

(** A connection and a datagram are echoed, the text in two parts, and then a second text. *)
Example echo_run :
  ending_of (main [lit "select"; lit "7000"]
    [Round [Connects (lit "hi"); Asks 5 (lit "yo")] Wakes; Round [] Wakes; Round [Sends 5 (lit "!")] Wakes]
    ((), empty_kernel {[0; 1; 2]} [Move 1; Move 1; Signal; Move 2; Move 1; Move 1]))
  = Some (Running, [Conn [] false false (lit "hi!") (lit "hi!")], [(5, lit "yo")]).
Proof. vm_compute. reflexivity. Qed.

(** A process that has inherited many descriptors: [main] compares the two sockets with
    [FD_SETSIZE], and the client that is accepted above it overruns the set. *)
Theorem select_overruns :
  let k0 := empty_kernel (list_to_set (Z.of_nat <$> seq 0 1021)) [] in
  started k0 ∧
  (fst <$> main [lit "select"; lit "7000"]
     [Round [Connects []; Connects []] Wakes; Round [] Wakes] ((), k0)) = Some Bad ∧
  (fst <$> main [lit "poll"; lit "7000"]
     [Round [Connects []; Connects []] Wakes; Round [] Wakes] ((), k0)) = Some Running.
Proof. split; [repeat split|]. split; vm_compute; reflexivity. Qed.

(** One peer that takes nothing keeps the others waiting. *)
Example stalled_run :
  (fst <$> main [lit "poll"; lit "7000"] [Round [Connects (lit "hi")] Wakes; Round [] Wakes]
     ((), empty_kernel {[0; 1; 2]} [Move 1; Move 2; Stall])) = Some Blocked.
Proof. vm_compute. reflexivity. Qed.
